(* ===== verification/_CoqProject ===== *)
-Q . S2P
Prelude.v
RustStr.v
SeekSequence.v
PatchParser.v
PatchRoundtrip.v
StreamingParser.v
Utf8.v
AbsolutePath.v
FileSystem.v
Replacements.v
ApplyPatch.v
Invocation.v
MachineInt.v
Ordering.v
ExecPolicy.v
ExecPolicyProofs.v
PolicyParser.v
Amend.v
StreamText.v
InlineHiddenTag.v
TaggedLine.v
Utf8Stream.v
AssistantText.v
ShellTree.v
CommandSafety.v
HeadTailBuffer.v
Readiness.v
Paths.v
Permissions.v
SandboxRoots.v
PermissionsProofs.v
RuntimeEnforcement.v
PermissionProfile.v
PolicyTransforms.v
ExecApproval.v
ExecApprovalProofs.v
GrantedPermissions.v
NetworkPolicy.v
NetworkConfig.v
NetworkPolicyProofs.v
NetworkProxy.v
NetworkProxyProofs.v
NetworkApproval.v
NetworkHandlers.v
NetworkSpec.v
PatchSafety.v
ShellEnvironment.v
SandboxManager.v
Truncate.v
Orchestrator.v
ToolRuntimes.v
OrchestratorProofs.v
ToolOutput.v
PatchHandler.v
PatchHandlerProofs.v
TurnDiff.v
ShellHandler.v
ShellHandlerProofs.v
History.v
HistoryProofs.v
Compaction.v
Rollout.v
RolloutProofs.v
Session.v
SessionProofs.v
RemoteCompaction.v
SessionTurns.v
SessionSync.v
AgentRegistry.v
