(* ===== verification/Prelude.v ===== *)
(** * Codex: what the agent may change, run, reach and remember

    A verification library for the parts of [codex-rs] that decide what the
    agent may change and run, in which sandbox, with whose consent, what of
    the model's output is shown and what is kept of a conversation.  All
    source paths below are under [src/codex-rs/].

    ** The program and its parts

    - [apply-patch]: the model proposes file changes as a patch text.  A patch
      is recognised in a command line ([invocation.rs]), parsed ([parser.rs],
      or [streaming_parser.rs] while it arrives), located in the files
      ([seek_sequence.rs]) and applied ([lib.rs]); [standalone_executable.rs]
      is the program of the same name.
    - [utils/absolute-path], [file-system]: the paths and the file-system
      interface that [apply-patch] works on.
    - [execpolicy]: prefix rules, network rules and host executables, written
      in Starlark files ([parser.rs]), decide whether a command runs, asks or
      is refused ([policy.rs], [rule.rs]); approvals are appended to the files
      ([amend.rs]).
    - [shell-command]: scripts of [bash -lc] are split into plain commands
      ([bash.rs]) and judged by the heuristics of [command_safety/], which
      [execpolicy] uses where no rule matches.
    - [protocol/src/permissions.rs], [models.rs], [protocol.rs]: the policies
      that say which paths may be read and written, the roots a sandbox is
      told, and the profiles they are kept in.
    - [sandboxing]: additional permissions on top of a profile
      ([policy_transforms.rs]), the choice of a sandbox and the command line
      that runs a command in it ([manager.rs], [landlock.rs]).
    - [core]: [exec_policy.rs] turns a command and the settings into a
      requirement (run, ask, refuse); [safety.rs] does so for patches;
      [tools/orchestrator.rs] carries a requirement out for every tool runtime
      ([tools/runtimes/]), asking hooks, the automatic reviewer or the user
      and running the tool in a sandbox; the handlers ([tools/handlers/])
      build the requests from what the model asks for and from what was
      granted; [tools/network_approval.rs] answers the network proxy while a
      tool runs; [context_manager/] keeps the conversation;
      [session/mod.rs] and [session/turn.rs] record it in memory and in the
      rollout, the file of the thread, as turns go on ([tasks/mod.rs]);
      [compact.rs] replaces a conversation that has grown too long by a
      summary; [session/rollout_reconstruction.rs] rebuilds a session from its
      file, [session/handlers.rs] rolls turns back; [agent/registry.rs] limits sub-agents; [unified_exec/] buffers output.
    - [network-proxy]: the HTTP and SOCKS proxy through which sandboxed
      commands reach the network; it decides hosts by lists of patterns
      ([policy.rs], [config.rs]) under the constraints of administrators
      ([state.rs]), keeps them while they change ([runtime.rs]) and asks a
      decider for hosts on no list ([network_policy.rs]).  [core] makes its
      configuration from requirements, permission profile and rules
      ([config/network_proxy_spec.rs]).
    - [utils/stream-parser], [utils/output-truncation], [utils/string],
      [utils/readiness]: parsers that take citations and plan blocks out of
      the streaming text, truncation of output, a flag that tasks wait for.

    A command of the model goes through these parts in order: the handler
    merges granted permissions ([GrantedPermissions]), intercepts patches
    ([Invocation], [PatchSafety]), asks the exec policy ([ExecApproval], which
    uses [ExecPolicy], [ShellTree] and [CommandSafety]); the orchestrator
    ([Orchestrator]) obtains consent, selects the sandbox ([SandboxManager],
    [PolicyTransforms], [Permissions]) and runs the tool ([ToolRuntimes]),
    during which network requests are decided ([NetworkHandlers],
    [NetworkProxy], and [NetworkApproval] for hosts on no list); the output
    is buffered ([HeadTailBuffer]), truncated ([Truncate]) and recorded in the
    history ([History]) and the file of the thread ([Session], [SessionTurns]),
    from which a later session starts ([Rollout]).

    ** The files

    - [Prelude]: the [Res] monad (values, errors, panics), the [Eff] monad
      (state kept on errors), slices, vectors, automation.
    - [RustStr], [Utf8], [Ordering], [MachineInt]: what the code uses of
      Rust's strings, UTF-8, sorting and integers.  A [str] is a list of
      scalar values; byte lengths and byte offsets are computed from the
      encoding where the code uses them.
    - [SeekSequence]: [seek_sequence.rs].
    - [PatchParser], [PatchRoundtrip]: [parser.rs], and a printer for patches
      with the round trips.
    - [StreamingParser]: [streaming_parser.rs]; the parser state as a record,
      [process_line] mode by mode, reachability by rule induction.
    - [AbsolutePath]: [absolutize.rs] and [AbsolutePathBuf], for Unix.
    - [FileSystem]: the trait [ExecutorFileSystem] as a class, the laws that
      its clients rely on ([FileSystemLaws]), and an in-memory instance that
      satisfies them.
    - [Replacements], [ApplyPatch]: [lib.rs] of apply-patch; first the pure
      part (from the lines of a file and chunks to new lines), then the part
      that reads and writes.
    - [Invocation]: [invocation.rs], [standalone_executable.rs] and the diffs
      of [lib.rs].
    - [ExecPolicy], [ExecPolicyProofs]: [decision.rs], [error.rs],
      [executable_name.rs], [rule.rs], [policy.rs].  The trait [Rule] and the
      multimap crate are classes with laws.
    - [PolicyParser]: [parser.rs] and [execpolicycheck.rs]; a policy file is
      the sequence of the builtin calls that evaluating it makes.
    - [Amend]: [amend.rs].
    - [StreamText]: the trait [StreamTextParser] as a class, its laws
      ([StreamTextLaws]: output does not depend on how the text is cut).
    - [InlineHiddenTag], [TaggedLine], [Utf8Stream], [AssistantText]: the
      parsers of [utils/stream-parser]; [Utf8Stream] is proved against the
      interface, the citation and plan parsers discharge it.
    - [ShellTree]: [bash.rs] and [shell_detect.rs], on syntax trees as data.
    - [CommandSafety]: [is_safe_command.rs], [is_dangerous_command.rs] and
      [windows_safe_commands.rs], as built for Linux.
    - [HeadTailBuffer]: [unified_exec/head_tail_buffer.rs].
    - [Readiness]: [utils/readiness]; tasks that interleave.
    - [Paths], [Permissions], [SandboxRoots], [PermissionsProofs]:
      [protocol/src/permissions.rs] and the legacy [SandboxPolicy]; the
      operating system is a record of functions ([Env]).
    - [RuntimeEnforcement]: the read-deny matcher and the test whether an
      older sandbox can enforce a policy.
    - [PermissionProfile]: the profiles of [protocol/src/models.rs].
    - [PolicyTransforms]: [sandboxing/src/policy_transforms.rs].
    - [ExecApproval], [ExecApprovalProofs]: [core/src/exec_policy.rs].
    - [GrantedPermissions]: requests for permissions and what was granted
      ([core/src/session/mod.rs], [core/src/state/],
      [core/src/tools/handlers/mod.rs]).
    - [NetworkPolicy], [NetworkConfig], [NetworkPolicyProofs]:
      [network-proxy/src/policy.rs], [config.rs], [state.rs]; the glob crates
      are the class [GlobCompiler] with [GlobLaws].
    - [NetworkProxy], [NetworkProxyProofs]: [network-proxy/src/runtime.rs];
      operations and reloads as tasks that interleave.
    - [NetworkHandlers]: the decisions of [http_proxy.rs], [socks5.rs],
      [mitm.rs], [network_policy.rs], [responses.rs], [connect_policy.rs].
    - [NetworkSpec]: [core/src/config/network_proxy_spec.rs] and the
      constraints of [core/src/network_proxy_loader.rs].
    - [NetworkApproval]: [core/src/tools/network_approval.rs] and
      [core/src/network_policy_decision.rs]; tasks that interleave.
    - [PatchSafety]: [core/src/safety.rs].
    - [SandboxManager]: [sandboxing/src/manager.rs], [landlock.rs].
    - [Orchestrator], [ToolRuntimes], [OrchestratorProofs]:
      [core/src/tools/orchestrator.rs], [sandboxing.rs] and [runtimes/]; the
      traits of a tool are the class [ToolRuntime], what the orchestrator
      relies on is [ToolLaws], which the three runtimes satisfy.
    - [ShellEnvironment]: [protocol/src/shell_environment.rs].
    - [ToolOutput], [PatchHandler], [PatchHandlerProofs], [ShellHandler],
      [ShellHandlerProofs]: [core/src/tools/mod.rs], [events.rs] and the
      handlers of the patch and shell tools ([core/src/tools/handlers/],
      [core/src/apply_patch.rs]), which put the parts together.
    - [TurnDiff]: [core/src/turn_diff_tracker.rs].
    - [Truncate]: [utils/string], [utils/output-truncation], the policies of
      [protocol/src/protocol.rs].
    - [History], [HistoryProofs]: [core/src/context_manager/].
    - [Compaction]: [core/src/event_mapping.rs], [compact.rs],
      [compact_remote.rs], [compact_remote_v2.rs]: the new history that a
      compaction makes.
    - [Rollout], [RolloutProofs]: [core/src/session/rollout_reconstruction.rs]
      and [core/src/thread_rollout_truncation.rs]; in the proofs a rollout is a
      list of turns, rollbacks and notes ([Entry]).
    - [Session], [SessionProofs]: recording and persisting
      ([core/src/session/mod.rs], [rollout/src/policy.rs]), local compaction
      with its retries ([core/src/compact.rs]), resuming, forking and rolling
      back ([core/src/session/handlers.rs]).
    - [RemoteCompaction]: the compactions that a provider makes
      ([compact_remote.rs], [compact_remote_v2.rs]).
    - [SessionTurns], [SessionSync]: the turns of [core/src/session/turn.rs]
      and [core/src/tasks/]; the life of a thread as the relation [lives], and
      the invariant [in_step] between memory and file.
    - [AgentRegistry]: [core/src/agent/registry.rs]; threads that interleave.

    ** How code is modelled

    A function that returns [Result] or can panic is a function into [Res];
    one that returns [Option] is a function into [option], or into [Res unit]
    where it can also panic.  Every index, slice, [expect] and [remove] of the
    source is an operation that may panic, and the theorems on totality show
    that none does (or say exactly when, as for [check_multiple]).  Code with
    effects passes its state: the file system, the output buffers, the text of
    a policy file, the session.  [&mut self] methods return the new state,
    also when they fail.

    Concurrent code is a step relation.  Each task has a program counter with
    one constructor for each point where another task can run (a lock, an
    atomic access, an [await]); a step runs one task to its next such point,
    and the theorems hold for every reachable state or every sequence of
    steps.  Locks that are held across an [await] are part of the state.

    People, hooks, the reviewer model and executed commands are arbitrary
    functions of the trace of events so far, so that theorems hold whatever
    they answer.

    Code outside of the repository is a parameter, with what is relied on as
    named laws: the tree-sitter parser (byte ranges of nodes lie in the
    source) and its query matches, the diff library, the Starlark evaluator
    (as the calls it makes), shlex, serde's JSON, the multimap crate
    ([MultiMapLaws]), the glob compilers, the url crate, the resolver of host
    names, the loader of network configurations, the appends to the file of a
    thread (which may fail), the markers of contextual messages, the context
    that a turn injects, the answers of the model and of the provider to a
    compaction and the tools offered in it ([RemoteServices]), the home and
    current directory, the process environment, git, the hash of files and the
    comparison of texts, the order of hash maps, the PowerShell process that
    parses PowerShell scripts, and file operations.  Each law has a concrete instance in the
    witnesses.

    ** Bounds and fuel

    [parse_patch_text] and the update loop take the number of lines left as
    fuel, [push_str] of the tag parser the length of the pending text, walks
    over syntax trees the number of nodes, shell detection the length of the
    path, the loop of a compaction the number of items times the retries and
    one, the trimming of a prompt the number of items.  Running out of fuel is
    a panic of its own, and the theorems show that it does not occur.  [usize] counters (line numbers, indices) are
    natural numbers: they count lines and bytes of texts that are in memory.
    Counters that can wrap or saturate (agents, readiness tokens, history
    versions, token counts, dropped bytes) are kept at their width, with the
    arithmetic of [MachineInt].

    ** What the theorems show

    - Patches: parsing ends and round-trips with printing ([PatchParser],
      [PatchRoundtrip]); streaming shows the hunks that parsing reads, never
      takes one back, and a finished stream has only applicable hunks
      ([StreamingParser]).
    - Updates: the search returns the first match of the strictest comparison
      ([SeekSequence]); an update is total and refines a specification by
      exchanged blocks ([Replacements]).
    - Application: success means the effects of all hunks in order and the
      printed summary, a failure leaves the effects of the hunks before, and
      nothing else is touched ([ApplyPatch]); what is shown for approval holds
      of the files, and the exit code is right ([Invocation]); a patch that is
      approved without asking stays in the writable roots when its recorded
      text, which is parsed again, reads the same and no file is the subject
      of two hunks ([PatchSafety]).
    - Paths: resolution is absolute, normalised, idempotent, and stays below
      its base without [..] ([AbsolutePath]).
    - Policies: matching by alternatives, lookup equal to a scan, strictest
      decision, overlays that never relax exact rules, the matches by host
      executable and when heuristics decide,
      network lists by the last rule ([ExecPolicyProofs]); loaded policies are
      well formed and their examples hold ([PolicyParser]); approvals are
      recorded once and lose nothing ([Amend]); a request runs unasked exactly
      when rules or heuristics allow each command, and managed requirements
      bind, those for a program name as long as no rule is for its full path
      ([ExecApprovalProofs]).
    - Permissions: access is that of the most specific entry, metadata
      directories are protected, writable roots are writable
      ([PermissionsProofs]); older sandboxes enforce what they are given
      ([RuntimeEnforcement]); additional permissions keep what was readable
      and an intersection stays within both sides ([PolicyTransforms]); what
      is granted was answered, what is preapproved was granted
      ([GrantedPermissions]).
    - Running tools: every run of every tool follows a decision that approves;
      the approvals in the session are those the user gave ([approvals_asked]);
      a second run is backed by a question about this call that was answered
      with yes, by such an approval, or by the waiver of the runtime, which
      only the patch runtime has ([OrchestratorProofs]); an unsandboxed choice means an open policy, a
      sandboxed command line runs the command in the helper
      ([SandboxManager]); a network request is allowed only by an approval for
      the session or in answer to a question that was open while it waited,
      one question is asked at a time for a host, and those who wait get the
      answer ([NetworkApproval]).
    - The network: comparison of patterns agrees with the hosts they denote,
      address tests with the ranges of the standards ([NetworkPolicyProofs]);
      in every reachable state of the proxy the configuration satisfies its
      constraints and a host is allowed exactly when it is listed, not denied
      and not local ([NetworkProxyProofs]); what leaves the proxy was
      approved, in limited mode by the method and through MITM, where a
      handler reads each part of the state at some moment ([read_from]), and
      managed denials and allowlists hold from the requirements
      to the handlers ([NetworkHandlers], [NetworkSpec]).
    - The whole path of a call: a command outside of the sandbox has one of
      five reasons ([ShellHandlerProofs]); a patch nobody consented to stays
      in the writable paths or is covered by a grant, and progress on a patch is complete
      ([PatchHandlerProofs]); secrets of the environment are not inherited
      ([ShellEnvironment]).
    - Commands: what counts as plain, safe and dangerous, and that nothing is
      both safe and dangerous ([ShellTree], [CommandSafety]).
    - Streams: independence of chunk boundaries and agreement with
      specifications on whole texts ([InlineHiddenTag], [TaggedLine],
      [Utf8Stream], [AssistantText]).
    - The diff of a turn is empty exactly when the files it follows
      ([follow_turn]) are as they were, and shows each under one name
      ([TurnDiff]).
    - Output and conversation: the buffer and the truncation keep both ends
      and count what is gone ([HeadTailBuffer], [Truncate]); prompts are
      paired, rollbacks drop whole turns, every operation does what it is for
      and bumps the version when it rewrites ([HistoryProofs]); a compaction keeps
      the newest messages of the user and puts the context above the last one
      ([Compaction]).
    - Threads: the reconstruction agrees with a replay of the whole file and
      takes settings and baseline from the last turn that is left
      ([RolloutProofs]); the retries of a compaction end, and what a compaction
      or a rollback leaves is what resuming gives ([SessionProofs]); a
      compaction by the provider succeeds or changes nothing but the errors
      in the file, and making room for it drops nothing that was said
      ([RemoteCompaction]); in the lives of a thread that [lives] describes,
      its file and its memory agree ([SessionSync]).
    - Concurrency: exact counters and limits ([AgentRegistry]); one winner,
      distinct tokens, termination and wake-ups ([Readiness]).
    - Some theorems state behaviour that differs from comments or intent, such
      as [move_onto_itself_deletes], [repeated_path_evades_check],
      [wait_ready_lost_wakeup], [intersection_exceeds_request],
      [managed_allowlist_bypassed], [recorded_request_is_lost],
      [rollback_forgets_conversation], [refused_image_returns],
      [parse_error_drops_requirements], [unrelated_grant_answers_for_patch],
      [carriage_return_evades_check] or [rename_chain_depends_on_order].

    ** What is not modelled

    Windows and macOS builds (apart from what they share with Linux and the
    PowerShell safelist), the child processes themselves (PowerShell, the
    sandbox helper, executed commands), JSON and TOML, and the rest of the
    system: the servers and clients, the user interface, the kernel side of
    the sandboxes, and the files and databases behind rollouts, which are I/O
    or derived code.  Of a turn, the loop of sampling requests and the calls of
    tools in it are not modelled; what they record are steps of [lives], which
    requires that appends succeed, that one truncation policy is used and that
    compactions within turns succeed.  A failed compaction, a rollback past a
    compaction and a refused image, which break the agreement, have theorems of
    their own; a turn that stops between recording its context and its prompt,
    and items injected between turns, break it as well and are left out.  The
    zsh backend of the shell runtimes, an escalation server of its own, is a
    parameter that may decline; what it asks and runs is not in the trace.
    Not modelled either, though it is plain code: the summaries of commands
    ([shell-command/src/parse_command.rs]) and [execpolicy-legacy]. *)
From stdpp Require Export prelude strings list gmap.
From Stdlib Require Export NArith.

#[export] Set Default Proof Using "Type".

(** ** Outcomes of Rust code

    A Rust function that returns [Result<A, E>] and that may also panic is
    modelled in the [Res] monad: [Ok] and [Err] are the two constructors of
    [Result], [Panic] is an abnormal end.  [OutOfFuel] is the end of a loop
    model whose bound was too small; the theorems show that it never shows. *)

Inductive panic : Type :=
| OutOfBounds
| OutOfFuel
| ExpectFailed
| ExplicitPanic.

Inductive Res (E A : Type) : Type :=
| Ok (a : A)
| Err (e : E)
| Panic (p : panic).
Arguments Ok {E A} _.
Arguments Err {E A} _.
Arguments Panic {E A} _.

#[global] Instance panic_eq_dec : EqDecision panic.
Proof. solve_decision. Defined.
#[global] Instance Res_eq_dec `{EqDecision E, EqDecision A} : EqDecision (Res E A).
Proof. solve_decision. Defined.

#[global] Instance Ok_inj {E A} : Inj (=) (=) (@Ok E A).
Proof. by intros a b [= ->]. Qed.

#[global] Instance Res_ret {E} : MRet (Res E) := @Ok E.
#[global] Instance Res_bind {E} : MBind (Res E) := λ A B f r,
  match r with
  | Ok a => f a
  | Err e => Err e
  | Panic p => Panic p
  end.
#[global] Instance Res_fmap {E} : FMap (Res E) := λ A B f r,
  match r with
  | Ok a => Ok (f a)
  | Err e => Err e
  | Panic p => Panic p
  end.

(** [r.map_err(f)] *)
Definition map_err {E E' A} (f : E → E') (r : Res E A) : Res E' A :=
  match r with
  | Ok a => Ok a
  | Err e => Err (f e)
  | Panic p => Panic p
  end.

(** [o.ok_or(e)] *)
Definition ok_or {E A} (e : E) (o : option A) : Res E A :=
  match o with
  | Some a => Ok a
  | None => Err e
  end.

(** [r.is_ok()] *)
Definition is_ok {E A} (r : Res E A) : bool :=
  match r with
  | Ok _ => true
  | _ => false
  end.

(** Code that returns no [Result]: it can panic but has no errors. *)
Abbreviation Total := (Res Empty_set).
Definition infallible {E A} (r : Total A) : Res E A :=
  map_err (λ e : Empty_set, match e with end) r.

Definition no_panic {E A} (r : Res E A) : Prop :=
  match r with
  | Panic _ => False
  | _ => True
  end.

(** ** Stateful code

    A computation on a state that is kept when the computation fails. *)
Definition Eff (S E A : Type) : Type := S → S * Res E A.

#[global] Instance Eff_ret {S E} : MRet (Eff S E) := λ A a s, (s, Ok a).
#[global] Instance Eff_bind {S E} : MBind (Eff S E) := λ A B f m s,
  match m s with
  | (s', Ok a) => f a s'
  | (s', Err e) => (s', Err e)
  | (s', Panic p) => (s', Panic p)
  end.

(** Fail, or do nothing, without touching the state. *)
Definition lift {S E A} (r : Res E A) : Eff S E A := λ s, (s, r).

(** A read of the state. *)
Definition reads {S E A} (f : S → Res E A) : Eff S E A := λ s, (s, f s).

(** [result.map_err(f)] *)
Definition eff_map_err {S E E' A} (f : E → E') (m : Eff S E A) : Eff S E' A :=
  λ s, let (s', r) := m s in (s', map_err f r).

(** ** Slices and vectors

    Indexing and slicing panic outside of the bounds. *)
Section slices.
Context {E A : Type}.
Implicit Types (l : list A).

(** [&l[n..]] *)
Definition slice_from (n : nat) (l : list A) : Res E (list A) :=
  if decide (n ≤ length l) then Ok (drop n l) else Panic OutOfBounds.

(** [&l[..n]] *)
Definition slice_to (n : nat) (l : list A) : Res E (list A) :=
  if decide (n ≤ length l) then Ok (take n l) else Panic OutOfBounds.

(** [&l[lo..hi]] *)
Definition slice (lo hi : nat) (l : list A) : Res E (list A) :=
  if decide (lo ≤ hi ∧ hi ≤ length l) then Ok (take (hi - lo) (drop lo l))
  else Panic OutOfBounds.

(** [l[i]] *)
Definition index (i : nat) (l : list A) : Res E A :=
  match l !! i with
  | Some a => Ok a
  | None => Panic OutOfBounds
  end.

(** [l.insert(i, a)]: panics when [i > l.len()]. *)
Definition vec_insert (i : nat) (a : A) (l : list A) : Res E (list A) :=
  if decide (i ≤ length l) then Ok (take i l ++ a :: drop i l) else Panic OutOfBounds.

(** [l.remove(i)], for its effect on the vector. *)
Definition vec_remove (i : nat) (l : list A) : Res E (list A) :=
  if decide (i < length l) then Ok (take i l ++ drop (S i) l) else Panic OutOfBounds.
End slices.

(** [l.pop()], for its effect on the vector. *)
Definition vec_pop {A} (l : list A) : list A := take (length l - 1) l.

(** [l.last_mut()] followed by an update of the element. *)
Definition update_last {A} (f : A → A) (l : list A) : list A :=
  match last l with
  | Some a => take (length l - 1) l ++ [f a]
  | None => l
  end.

(** [iter.collect::<Result<Vec<_>, _>>()]: stops at the first error. *)
Fixpoint collect_res {E A} (rs : list (Res E A)) : Res E (list A) :=
  match rs with
  | [] => Ok []
  | r :: rs' => a ← r; l ← collect_res rs'; Ok (a :: l)
  end.

(** ** Automation *)

Create HintDb rust.
Create Rewrite HintDb rust.

(** Open the binds of a [Res] computation known to end in [Ok] or [Err]. *)
Ltac res_inv :=
  repeat match goal with
  | H : Ok _ = Ok _ |- _ => injection H as H; subst
  | H : Err _ = Err _ |- _ => injection H as H; subst
  | H : Ok _ = Err _ |- _ => discriminate H
  | H : Err _ = Ok _ |- _ => discriminate H
  | H : Panic _ = _ |- _ => discriminate H
  | H : _ = Panic _ |- _ => try discriminate H; fail
  | H : (match ?r with Ok _ => _ | Err _ => _ | Panic _ => _ end) = _ |- _ =>
      let Hr := fresh "Hr" in destruct r eqn:Hr; simpl in H; try discriminate H
  | H : (_ ≫= _) = Ok _ |- _ => unfold mbind, Res_bind in H; simpl in H
  | H : (_ ≫= _) = Err _ |- _ => unfold mbind, Res_bind in H; simpl in H
  end.

(** Decide a closed decidable proposition by computing it. *)
Ltac by_compute := solve [apply (bool_decide_unpack _); vm_compute; reflexivity
                         |apply (bool_decide_unpack _); vm_compute; exact I].

(** Case analysis on every boolean or decision a goal branches on. *)
Ltac branch :=
  repeat first
    [ case_bool_decide | case_decide | case_match ]; simplify_eq/=.

Section list_facts.
Context {A : Type}.
Implicit Types (l : list A).

Lemma existsb_elem (f : A → bool) l : existsb f l = true ↔ ∃ x, x ∈ l ∧ f x = true.
Proof. rewrite existsb_exists. by setoid_rewrite list_elem_of_In. Qed.

Lemma elem_of_filterb (f : A → bool) l x : x ∈ List.filter f l ↔ x ∈ l ∧ f x = true.
Proof. rewrite !list_elem_of_In. apply filter_In. Qed.

Lemma take_drop_app_slice l i n :
  take i l ++ take n (drop i l) ++ drop (i + n) l = l.
Proof. rewrite <-drop_drop, take_drop. apply take_drop. Qed.

Lemma last_snoc_take l a : last l = Some a → l = take (length l - 1) l ++ [a].
Proof.
  intros H. apply last_Some in H as [l' ->].
  rewrite length_app; simpl. replace (length l' + 1 - 1) with (length l') by lia.
  by rewrite take_app_length.
Qed.

Lemma update_last_snoc (f : A → A) l a : update_last f (l ++ [a]) = l ++ [f a].
Proof.
  unfold update_last. rewrite last_snoc, length_app; simpl.
  replace (length l + 1 - 1) with (length l) by lia. by rewrite take_app_length.
Qed.

Lemma length_update_last (f : A → A) l : length (update_last f l) = length l.
Proof.
  unfold update_last. destruct (last l) eqn:Hl; [|done].
  apply last_Some in Hl as [l' ->]. rewrite !length_app, length_take, length_app; simpl. lia.
Qed.

Lemma vec_pop_snoc l a : vec_pop (l ++ [a]) = l.
Proof.
  unfold vec_pop. rewrite length_app; simpl.
  replace (length l + 1 - 1) with (length l) by lia. by rewrite take_app_length.
Qed.
End list_facts.

Lemma slice_from_ok {E A} n (l : list A) :
  n ≤ length l → slice_from (E:=E) n l = Ok (drop n l).
Proof. intros. unfold slice_from. by case_decide. Qed.

Lemma no_panic_cases {E A} (r : Res E A) :
  no_panic r → (∃ a, r = Ok a) ∨ (∃ e, r = Err e).
Proof. destruct r; simpl; [eauto|eauto|done]. Qed.

Lemma no_panic_bind {E A B} (r : Res E A) (f : A → Res E B) :
  no_panic r → (∀ a, r = Ok a → no_panic (f a)) → no_panic (r ≫= f).
Proof. destruct r; simpl; auto. Qed.

Lemma no_panic_map_err {E E' A} (f : E → E') (r : Res E A) :
  no_panic r → no_panic (map_err f r).
Proof. by destruct r. Qed.

#[export] Hint Resolve no_panic_map_err : rust.

Lemma Eff_bind_Ok {S E A B} (m : Eff S E A) (f : A → Eff S E B) s s' b :
  (m ≫= f) s = (s', Ok b) → ∃ s1 a, m s = (s1, Ok a) ∧ f a s1 = (s', Ok b).
Proof.
  unfold mbind, Eff_bind. destruct (m s) as [s1 [a|e|p]]; intros H; [eauto|discriminate..].
Qed.

(** A property of states that each step keeps is kept by a sequence. *)
Lemma Eff_bind_keeps {S E A B} (P : S → Prop) (m : Eff S E A) (f : A → Eff S E B) s :
  (∀ s1 r, m s = (s1, r) → P s1) →
  (∀ a s1, P s1 → P (f a s1).1) →
  P ((m ≫= f) s).1.
Proof.
  intros Hm Hf. unfold mbind, Eff_bind. destruct (m s) as [s1 [a|e|p]] eqn:E1; simpl; eauto.
Qed.

