(* ===== verification/RustStr.v ===== *)
(** * Rust strings

    A Rust [str] is a list of Unicode scalar values ([char]s), each an [N].
    The file defines the operations of [str] that the modelled crates use,
    with the library facts on them.  Where a Rust operation counts bytes, the
    number of bytes is [utf8_len]. *)
From S2P Require Import Prelude.
From Stdlib Require Ascii String.
Local Open Scope N_scope.

Abbreviation char := N (only parsing).
Abbreviation str := (list N) (only parsing).

(** A literal of the source; only ASCII literals are written this way. *)
Definition lit (s : string) : str := map Ascii.N_of_ascii (String.list_ascii_of_string s).
Arguments lit : simpl never.

Definition c_nl : char := 10.
Definition c_cr : char := 13.
Definition c_space : char := 32.
Definition c_dquote : char := 34.
Definition c_squote : char := 39.
Definition c_star : char := 42.
Definition c_plus : char := 43.
Definition c_minus : char := 45.
Definition c_dot : char := 46.
Definition c_slash : char := 47.
Definition c_tilde : char := 126.

(** [char::is_whitespace]: the Unicode property White_Space. *)
Definition is_whitespace (c : char) : bool :=
  ((9 <=? c) && (c <=? 13)) || (c =? 32) || (c =? 133) || (c =? 160) || (c =? 5760)
  || ((8192 <=? c) && (c <=? 8202)) || (c =? 8232) || (c =? 8233) || (c =? 8239)
  || (c =? 8287) || (c =? 12288).

Definition is_ascii_digit (c : char) : bool := (48 <=? c) && (c <=? 57).
Definition is_ascii_alphabetic (c : char) : bool :=
  ((65 <=? c) && (c <=? 90)) || ((97 <=? c) && (c <=? 122)).

Definition ascii_lower (c : char) : char :=
  if (65 <=? c) && (c <=? 90) then c + 32 else c.
Definition to_ascii_lowercase (s : str) : str := map ascii_lower s.
Definition eq_ignore_ascii_case (s t : str) : bool :=
  bool_decide (to_ascii_lowercase s = to_ascii_lowercase t).

(** Number of bytes of the UTF-8 encoding of a character, and of a string. *)
Definition utf8_width (c : char) : N :=
  if c <? 128 then 1 else if c <? 2048 then 2 else if c <? 65536 then 3 else 4.
Definition utf8_len (s : str) : N := foldr (λ c n, utf8_width c + n) 0 s.

(** ** Trimming *)

Fixpoint trim_start_matches (p : char → bool) (s : str) : str :=
  match s with
  | [] => []
  | c :: s' => if p c then trim_start_matches p s' else s
  end.

Fixpoint trim_end_matches (p : char → bool) (s : str) : str :=
  match s with
  | [] => []
  | c :: s' =>
      match trim_end_matches p s' with
      | [] => if p c then [] else [c]
      | r => c :: r
      end
  end.

Definition trim_start : str → str := trim_start_matches is_whitespace.
Definition trim_end : str → str := trim_end_matches is_whitespace.
Definition trim (s : str) : str := trim_start (trim_end s).

(** ** Prefixes, suffixes and search *)

Fixpoint strip_prefix (p s : str) : option str :=
  match p, s with
  | [], _ => Some s
  | a :: p', b :: s' => if a =? b then strip_prefix p' s' else None
  | _ :: _, [] => None
  end.

Definition starts_with (p s : str) : bool :=
  match strip_prefix p s with Some _ => true | None => false end.

Definition strip_suffix (p s : str) : option str :=
  if decide (drop (length s - length p)%nat s = p)
  then Some (take (length s - length p)%nat s) else None.

Definition ends_with (p s : str) : bool :=
  match strip_suffix p s with Some _ => true | None => false end.

Definition contains_char (c : char) (s : str) : bool := existsb (N.eqb c) s.

(** [s.find(needle)], as a number of characters before the first match. *)
Fixpoint find (needle s : str) : option nat :=
  if starts_with needle s then Some 0%nat
  else match s with
       | [] => None
       | _ :: s' => S <$> find needle s'
       end.

Definition contains (needle s : str) : bool :=
  match find needle s with Some _ => true | None => false end.

(** [s.split_once(c)] for a character. *)
Fixpoint split_once (c : char) (s : str) : option (str * str) :=
  match s with
  | [] => None
  | x :: s' =>
      if x =? c then Some ([], s')
      else match split_once c s' with
           | Some (a, b) => Some (x :: a, b)
           | None => None
           end
  end.

(** [s.rsplit_once(c)] for a character. *)
Fixpoint rsplit_once (c : char) (s : str) : option (str * str) :=
  match s with
  | [] => None
  | x :: s' =>
      match rsplit_once c s' with
      | Some (a, b) => Some (x :: a, b)
      | None => if x =? c then Some ([], s') else None
      end
  end.

(** ** Lines *)

(** [s.split(c)] for a character: never empty. *)
Fixpoint split_on (c : char) (s : str) : list str :=
  match s with
  | [] => [[]]
  | x :: s' =>
      if x =? c then [] :: split_on c s'
      else match split_on c s' with
           | h :: t => (x :: h) :: t
           | [] => [[x]]
           end
  end.

(** A line terminated by a newline loses one carriage return before it. *)
Definition strip_cr (l : str) : str :=
  match strip_suffix [c_cr] l with Some l' => l' | None => l end.

Fixpoint lines_of (parts : list str) : list str :=
  match parts with
  | [] => []
  | [l] => match l with [] => [] | _ => [l] end
  | l :: parts' => strip_cr l :: lines_of parts'
  end.

(** [s.lines()] *)
Definition lines (s : str) : list str := lines_of (split_on c_nl s).

(** [parts.join(sep)] *)
Fixpoint join (sep : str) (parts : list str) : str :=
  match parts with
  | [] => []
  | [p] => p
  | p :: parts' => p ++ sep ++ join sep parts'
  end.

(** ** Decimal rendering of numbers, as [Display] does it *)

Fixpoint show_digits (fuel : nat) (n : N) (acc : str) : str :=
  match fuel with
  | O => acc
  | S fuel' =>
      let acc' := (48 + n mod 10) :: acc in
      if n <? 10 then acc' else show_digits fuel' (n / 10) acc'
  end.
Definition show_N (n : N) : str := show_digits (S (N.to_nat (N.log2 n))) n [].
Definition show_nat (n : nat) : str := show_N (N.of_nat n).

(** ** Facts *)

Section facts.
Implicit Types (s t p : str) (c : char) (f : char → bool).

Lemma strip_prefix_Some p s t : strip_prefix p s = Some t ↔ s = p ++ t.
Proof.
  revert s; induction p as [|a p IH]; intros [|b s]; simpl; try naive_solver.
  destruct (N.eqb_spec a b) as [->|Hne]; [rewrite IH|]; naive_solver.
Qed.

Lemma strip_prefix_app p s : strip_prefix p (p ++ s) = Some s.
Proof. by apply strip_prefix_Some. Qed.

Lemma strip_prefix_None p s : strip_prefix p s = None ↔ ¬ (p `prefix_of` s).
Proof.
  split.
  - intros H [t ->]. by rewrite strip_prefix_app in H.
  - intros H. destruct (strip_prefix p s) eqn:E; [|done].
    apply strip_prefix_Some in E. destruct H. by exists l.
Qed.

Lemma starts_with_spec p s : starts_with p s = true ↔ p `prefix_of` s.
Proof.
  unfold starts_with. destruct (strip_prefix p s) eqn:E.
  - apply strip_prefix_Some in E as ->. split; [by eexists|done].
  - by apply strip_prefix_None in E.
Qed.

Lemma strip_suffix_Some p s t : strip_suffix p s = Some t ↔ s = t ++ p.
Proof.
  unfold strip_suffix. split.
  - case_decide as H; [|done]. intros [= <-]. rewrite <-H at 2. by rewrite take_drop.
  - intros ->. rewrite length_app. replace (length t + length p - length p)%nat
      with (length t) by lia.
    rewrite drop_app_length, take_app_length. by case_decide.
Qed.

Lemma ends_with_spec p s : ends_with p s = true ↔ p `suffix_of` s.
Proof.
  unfold ends_with. destruct (strip_suffix p s) eqn:E.
  - apply strip_suffix_Some in E as ->. split; [by eexists|done].
  - split; [done|]. intros [t ->].
    assert (strip_suffix p (t ++ p) = Some t) by (by apply strip_suffix_Some). congruence.
Qed.

Lemma contains_char_spec c s : contains_char c s = true ↔ c ∈ s.
Proof.
  unfold contains_char. rewrite existsb_exists. split.
  - intros (x & Hx & E). apply N.eqb_eq in E as <-. by apply list_elem_of_In.
  - intros H. exists c. rewrite N.eqb_refl. split; [by apply list_elem_of_In|done].
Qed.

(** *** Trimming *)

Lemma trim_end_matches_nil f s : trim_end_matches f s = [] ↔ Forall (λ c, f c = true) s.
Proof.
  induction s as [|c s IH]; simpl; [split; auto|].
  rewrite Forall_cons, <-IH.
  destruct (trim_end_matches f s) eqn:E; [|naive_solver].
  destruct (f c); naive_solver.
Qed.

Lemma trim_end_matches_snoc f s c :
  f c = false → trim_end_matches f (s ++ [c]) = s ++ [c].
Proof.
  intros Hc. induction s as [|x s IH]; simpl; [by rewrite Hc|].
  rewrite IH. by destruct s.
Qed.

Lemma trim_end_matches_decomp f s :
  ∃ w, s = trim_end_matches f s ++ w ∧ Forall (λ c, f c = true) w.
Proof.
  induction s as [|c s (w & Hs & Hw)]; simpl; [by exists []|].
  destruct (trim_end_matches f s) as [|d r] eqn:E.
  - destruct (f c) eqn:Hc.
    + exists (c :: s). split; [done|]. constructor; [done|]. by rewrite Hs.
    + exists s. split; [done|]. by rewrite Hs.
  - exists w. split; [|done]. by rewrite Hs at 1.
Qed.

Lemma trim_end_matches_last f s c :
  last (trim_end_matches f s) = Some c → f c = false.
Proof.
  induction s as [|x s IH]; simpl; [done|].
  destruct (trim_end_matches f s) as [|d r] eqn:E.
  - destruct (f x) eqn:Hx; simpl; [done|]. by intros [= <-].
  - intros H. apply IH. by rewrite <-H.
Qed.

Lemma trim_end_matches_idemp f s :
  trim_end_matches f (trim_end_matches f s) = trim_end_matches f s.
Proof.
  destruct (last (trim_end_matches f s)) as [c|] eqn:E.
  - assert (Hc := trim_end_matches_last _ _ _ E).
    apply last_Some in E as [l' ->]. by apply trim_end_matches_snoc.
  - apply last_None in E. by rewrite E.
Qed.

Lemma trim_start_matches_decomp f s :
  ∃ w, s = w ++ trim_start_matches f s ∧ Forall (λ c, f c = true) w.
Proof.
  induction s as [|c s (w & Hs & Hw)]; simpl; [by exists []|].
  destruct (f c) eqn:Hc.
  - exists (c :: w). split; [simpl; by rewrite <-Hs|by constructor].
  - by exists [].
Qed.

Lemma trim_start_matches_head f s c t : trim_start_matches f s = c :: t → f c = false.
Proof.
  induction s as [|x s IH]; simpl; [done|].
  destruct (f x) eqn:Hx; [done|]. by intros [= <- _].
Qed.

Lemma trim_start_matches_idemp f s :
  trim_start_matches f (trim_start_matches f s) = trim_start_matches f s.
Proof.
  destruct (trim_start_matches f s) as [|c t] eqn:E; [done|].
  simpl. by rewrite (trim_start_matches_head _ _ _ _ E).
Qed.

Lemma trim_start_matches_suffix f s : trim_start_matches f s `suffix_of` s.
Proof. destruct (trim_start_matches_decomp f s) as (w & Hs & _). by exists w. Qed.

Lemma trim_end_matches_prefix f s : trim_end_matches f s `prefix_of` s.
Proof. destruct (trim_end_matches_decomp f s) as (w & Hs & _). by exists w. Qed.

(** A string that neither starts nor ends with whitespace is its own trim. *)
Definition trimmed s : Prop := trim s = s.
Definition rtrimmed s : Prop := trim_end s = s.

Lemma trim_fixed s a b :
  is_whitespace a = false → is_whitespace b = false →
  trim (a :: s ++ [b]) = a :: s ++ [b].
Proof.
  intros Ha Hb. unfold trim, trim_end, trim_start.
  rewrite (app_comm_cons s [b] a), trim_end_matches_snoc by done.
  simpl. by rewrite Ha.
Qed.

Lemma trim_end_matches_app_nonempty f s t :
  trim_end_matches f t ≠ [] → trim_end_matches f (s ++ t) = s ++ trim_end_matches f t.
Proof.
  intros Ht. induction s as [|c s IH]; simpl; [done|].
  rewrite IH. destruct (s ++ trim_end_matches f t) eqn:E; [|done].
  by apply app_nil in E as [_ ?].
Qed.

Lemma trim_end_matches_app_all f s t :
  Forall (λ c, f c = true) t → trim_end_matches f (s ++ t) = trim_end_matches f s.
Proof.
  intros Ht. induction s as [|c s IH]; simpl.
  - by apply trim_end_matches_nil.
  - by rewrite IH.
Qed.

Lemma trim_nil_iff s : trim s = [] ↔ Forall (λ c, is_whitespace c = true) s.
Proof.
  unfold trim, trim_start, trim_end. split.
  - intros H. destruct (trim_start_matches_decomp is_whitespace
      (trim_end_matches is_whitespace s)) as (w & Hw & Hall).
    rewrite H, app_nil_r in Hw.
    apply trim_end_matches_nil. rewrite <-(trim_end_matches_idemp), Hw.
    by apply trim_end_matches_nil.
  - intros H. apply trim_end_matches_nil in H. by rewrite H.
Qed.

Lemma trim_comm s : trim_end (trim_start s) = trim s.
Proof.
  unfold trim, trim_start, trim_end.
  destruct (trim_start_matches_decomp is_whitespace s) as (w & Hs & Hw).
  destruct (trim_start_matches is_whitespace s) as [|c t] eqn:Ht.
  - rewrite app_nil_r in Hs. subst w. apply trim_end_matches_nil in Hw. by rewrite Hw.
  - assert (Hc := trim_start_matches_head _ _ _ _ Ht).
    assert (Hne : trim_end_matches is_whitespace (c :: t) ≠ []).
    { rewrite trim_end_matches_nil. intros [Hc' _]%Forall_cons. congruence. }
    rewrite Hs, trim_end_matches_app_nonempty by done.
    assert (Hhead : ∃ r, trim_end_matches is_whitespace (c :: t) = c :: r).
    { simpl in *. destruct (trim_end_matches is_whitespace t); [|by eexists].
      rewrite Hc. by eexists. }
    destruct Hhead as [r ->]. clear -Hw Hc. induction Hw as [|x w Hx Hw IH]; simpl; [by rewrite Hc|].
    by rewrite Hx.
Qed.

(** *** Splitting and joining *)

Lemma split_on_nonempty c s : split_on c s ≠ [].
Proof. destruct s as [|x s]; simpl; [done|]. case_match; [done|]. by case_match. Qed.

Lemma split_on_no_sep c s : c ∉ s → split_on c s = [s].
Proof.
  induction s as [|x s IH]; intros H; [done|]. simpl.
  rewrite elem_of_cons in H. destruct (N.eqb_spec x c); [naive_solver|].
  rewrite IH by naive_solver. done.
Qed.

Lemma split_on_app c s t : c ∉ s → split_on c (s ++ c :: t) = s :: split_on c t.
Proof.
  induction s as [|x s IH]; intros H; simpl; [by rewrite N.eqb_refl|].
  rewrite elem_of_cons in H. destruct (N.eqb_spec x c); [naive_solver|].
  rewrite IH by naive_solver. done.
Qed.

Lemma split_on_join c ls :
  ls ≠ [] → Forall (λ l, c ∉ l) ls → split_on c (join [c] ls) = ls.
Proof.
  intros Hne Hall. induction Hall as [|l ls Hl Hls IH]; [done|].
  destruct ls as [|l' ls]; simpl; [by apply split_on_no_sep|].
  rewrite split_on_app by done. f_equal. by apply IH.
Qed.

Lemma join_split_on c s : join [c] (split_on c s) = s.
Proof.
  induction s as [|x s IH]; [done|]. simpl.
  assert (Hne := split_on_nonempty c s).
  destruct (N.eqb_spec x c) as [->|Hx].
  - simpl. destruct (split_on c s) as [|h t] eqn:E; [done|]. by rewrite <-IH.
  - destruct (split_on c s) as [|h t]; [done|]. rewrite <-IH. by destruct t.
Qed.

Lemma split_on_no_sep_inside c s : Forall (λ l, c ∉ l) (split_on c s).
Proof.
  induction s as [|x s IH]; simpl; [repeat constructor; set_solver|].
  destruct (N.eqb_spec x c); [constructor; [set_solver|done]|].
  destruct (split_on c s) as [|h t]; [constructor; set_solver|].
  inversion IH; subst. constructor; [set_solver|done].
Qed.

Lemma strip_cr_id l : ¬ ([c_cr] `suffix_of` l) → strip_cr l = l.
Proof.
  intros H. unfold strip_cr. destruct (strip_suffix [c_cr] l) eqn:E; [|done].
  apply strip_suffix_Some in E. destruct H. by exists l0.
Qed.

Lemma lines_of_id ls l :
  Forall (λ x, ¬ ([c_cr] `suffix_of` x)) ls → l ≠ [] →
  lines_of (ls ++ [l]) = ls ++ [l].
Proof.
  intros Hls Hl. induction Hls as [|x ls Hx Hls IH]; simpl; [by destruct l|].
  rewrite IH, strip_cr_id by done. by destruct ls.
Qed.

(** Lines that hold no newline and do not end in a carriage return come
    back from the text they are joined into. *)
Lemma lines_join ls l :
  Forall (λ x, (c_nl ∉ x) ∧ ¬ [c_cr] `suffix_of` x) ls → c_nl ∉ l → l ≠ [] →
  lines (join [c_nl] (ls ++ [l])) = ls ++ [l].
Proof.
  intros Hls Hl Hne. unfold lines. rewrite split_on_join.
  - apply lines_of_id; [|done]. eapply Forall_impl; [exact Hls|]. by intros ? [].
  - by destruct ls.
  - apply Forall_app; split; [|by repeat constructor].
    eapply Forall_impl; [exact Hls|]. by intros ? [].
Qed.

Lemma join_app sep ls ls' :
  ls ≠ [] → ls' ≠ [] → join sep (ls ++ ls') = join sep ls ++ sep ++ join sep ls'.
Proof.
  intros Hne Hne'. induction ls as [|l ls IH]; [done|]. simpl.
  destruct ls as [|m ls]; simpl; [by destruct ls'|].
  simpl in IH. rewrite IH by done. by rewrite <-!app_assoc.
Qed.

Lemma join_cons sep l ls : ls ≠ [] → join sep (l :: ls) = l ++ sep ++ join sep ls.
Proof. by destruct ls. Qed.

Lemma utf8_len_app s t : utf8_len (s ++ t) = utf8_len s + utf8_len t.
Proof. induction s as [|c s IH]; simpl; [lia|]. rewrite IH. lia. Qed.

Lemma utf8_width_pos c : 1 <= utf8_width c.
Proof. unfold utf8_width. repeat case_match; lia. Qed.

Lemma find_Some n s i :
  find n s = Some i →
  ∃ t, drop i s = n ++ t ∧ (∀ j, (j < i)%nat → ¬ (n `prefix_of` (drop j s))).
Proof.
  revert i; induction s as [|c s IH]; intros i H; simpl in H.
  - destruct (starts_with n []) eqn:E; [|done]. injection H as <-.
    apply starts_with_spec in E as [t Ht]. exists t. split; [done|lia].
  - destruct (starts_with n (c :: s)) eqn:E.
    + injection H as <-. apply starts_with_spec in E as [t Ht]. exists t. split; [done|lia].
    + destruct (find n s) as [k|] eqn:Hk; [|done]. injection H as <-.
      destruct (IH k eq_refl) as (t & Ht & Hmin). exists t. split; [done|].
      intros [|j] Hj; simpl; [|apply Hmin; lia].
      rewrite <-starts_with_spec. by rewrite E.
Qed.

Lemma find_None n s : find n s = None → ∀ j, (j ≤ length s)%nat → ¬ (n `prefix_of` (drop j s)).
Proof.
  induction s as [|c s IH]; intros H j Hj; simpl in H.
  - destruct (starts_with n []) eqn:E; [done|].
    replace j with 0%nat by (simpl in Hj; lia). rewrite drop_0, <-starts_with_spec. by rewrite E.
  - destruct (starts_with n (c :: s)) eqn:E; [done|].
    destruct (find n s) eqn:Hk; [done|].
    destruct j as [|j]; simpl; [rewrite <-starts_with_spec; by rewrite E|].
    apply IH; [done|]. simpl in Hj. lia.
Qed.
End facts.

Lemma ascii_lower_idemp c : ascii_lower (ascii_lower c) = ascii_lower c.
Proof.
  unfold ascii_lower. destruct (N.leb_spec 65 c), (N.leb_spec c 90); simpl; try done;
    destruct (N.leb_spec 65 c), (N.leb_spec c 90), (N.leb_spec 65 (c + 32)), (N.leb_spec (c + 32) 90);
    simpl; lia || done.
Qed.
Lemma to_ascii_lowercase_idemp s : to_ascii_lowercase (to_ascii_lowercase s) = to_ascii_lowercase s.
Proof. unfold to_ascii_lowercase. rewrite map_map. apply map_ext, ascii_lower_idemp. Qed.

#[export] Hint Rewrite strip_prefix_app : rust.
#[export] Hint Resolve split_on_nonempty utf8_width_pos : rust.

#[global] Arguments strip_prefix : simpl never.
#[global] Arguments starts_with : simpl never.
#[global] Arguments strip_suffix : simpl never.
#[global] Arguments ends_with : simpl never.
#[global] Arguments trim : simpl never.
#[global] Arguments trim_end : simpl never.
#[global] Arguments trim_start : simpl never.
#[global] Arguments lines : simpl never.
#[global] Arguments is_whitespace : simpl never.
