(* ===== verification/SeekSequence.v ===== *)
(** * Locating context lines: [apply-patch/src/seek_sequence.rs]

    [seek_sequence] looks for a block of pattern lines in a file, in four
    passes of decreasing strictness.  The model keeps every index and slice of
    the source as an operation that may panic; [seek_sequence_correct] shows
    that none does, and characterises the index that is returned. *)
From S2P Require Import Prelude RustStr.

Section seek.
Context {E : Type}.
Implicit Types (lines pattern : list str).

Definition normalise_char (c : char) : char :=
  (if decide (c ∈ [0x2010; 0x2011; 0x2012; 0x2013; 0x2014; 0x2015; 0x2212]) then 45
   else if decide (c ∈ [0x2018; 0x2019; 0x201A; 0x201B]) then 39
   else if decide (c ∈ [0x201C; 0x201D; 0x201E; 0x201F]) then 34
   else if decide (c ∈ [0x00A0; 0x2002; 0x2003; 0x2004; 0x2005; 0x2006; 0x2007; 0x2008;
                        0x2009; 0x200A; 0x202F; 0x205F; 0x3000]) then 32
   else c)%N.

Definition normalise (s : str) : str := map normalise_char (trim s).

(** [for i in i..] over [n] indices, returning the first that passes. *)
Fixpoint first_in_range (test : nat → Res E bool) (i n : nat) : Res E (option nat) :=
  match n with
  | O => Ok None
  | S n' =>
      ok ← test i;
      if (ok : bool) then Ok (Some i) else first_in_range test (S i) n'
  end.

(** [lines[i..i + pattern.len()] == *pattern] *)
Definition exact_at lines pattern (i : nat) : Res E bool :=
  block ← slice i (i + length pattern) lines;
  Ok (bool_decide (block = pattern)).

(** The inner loop of the lenient passes, comparing after [f]. *)
Fixpoint lenient_at (f : str → str) lines pattern (i : nat) : Res E bool :=
  match pattern with
  | [] => Ok true
  | pat :: pattern' =>
      line ← index i lines;
      if decide (f line = f pat) then lenient_at f lines pattern' (S i) else Ok false
  end.

Definition search_start lines pattern (start : nat) (eof : bool) : nat :=
  if eof && bool_decide (length pattern ≤ length lines)
  then length lines - length pattern else start.

Definition seek_sequence lines pattern (start : nat) (eof : bool) : Res E (option nat) :=
  match pattern with
  | [] => Ok (Some start)
  | _ =>
      if decide (length lines < length pattern) then Ok None
      else
        let from := search_start lines pattern start eof in
        let upto := length lines - length pattern in
        let pass test := first_in_range test from (S upto - from) in
        r ← pass (exact_at lines pattern);
        match r with
        | Some i => Ok (Some i)
        | None =>
            r ← pass (lenient_at trim_end lines pattern);
            match r with
            | Some i => Ok (Some i)
            | None =>
                r ← pass (lenient_at trim lines pattern);
                match r with
                | Some i => Ok (Some i)
                | None => pass (lenient_at normalise lines pattern)
                end
            end
        end
  end.
End seek.

(** ** Specification *)

(** The block of [lines] at [i] equals [pattern] once every line of both went
    through [f]. *)
Definition matches_at (f : str → str) (lines pattern : list str) (i : nat) : Prop :=
  i + length pattern ≤ length lines ∧
  map f (take (length pattern) (drop i lines)) = map f pattern.

#[global] Instance matches_at_dec f lines pattern i :
  Decision (matches_at f lines pattern i).
Proof. unfold matches_at. apply _. Defined.

(** The comparisons of the four passes, strictest first. *)
Definition levels : list (str → str) := [id; trim_end; trim; normalise].

(** The index found is the first one, at or after [from], of the strictest
    comparison under which there is a match at all. *)
Inductive seek_result (lines pattern : list str) (from : nat) : option nat → Prop :=
| seek_found k f i :
    levels !! k = Some f → from ≤ i → matches_at f lines pattern i →
    (∀ j, from ≤ j < i → ¬ matches_at f lines pattern j) →
    (∀ k' f', k' < k → levels !! k' = Some f' →
       ∀ j, from ≤ j → ¬ matches_at f' lines pattern j) →
    seek_result lines pattern from (Some i)
| seek_missing :
    (∀ f j, f ∈ levels → from ≤ j → ¬ matches_at f lines pattern j) →
    seek_result lines pattern from None.

Section proofs.
Context {E : Type}.
Implicit Types (lines pattern : list str) (test : nat → Res E bool).

Lemma lenient_at_spec f lines pattern i :
  i + length pattern ≤ length lines →
  lenient_at (E:=E) f lines pattern i = Ok (bool_decide (matches_at f lines pattern i)).
Proof.
  revert i; induction pattern as [|pat pattern IH]; intros i Hi; simpl in *.
  - rewrite bool_decide_eq_true_2; [done|]. unfold matches_at; simpl. split; [lia|done].
  - unfold index. destruct (lookup_lt_is_Some_2 lines i) as [line Hline]; [lia|].
    rewrite Hline; simpl.
    assert (Hm : matches_at f lines (pat :: pattern) i ↔
      f line = f pat ∧ matches_at f lines pattern (S i)).
    { unfold matches_at; simpl. rewrite (drop_S lines line i) by done; simpl.
      split; [intros [? [= ? ?]]; split_and!; [done|lia|done]
             |intros (? & ? & ?); split; [lia|congruence]]. }
    case_decide as Hf.
    + rewrite IH by lia. f_equal. apply bool_decide_ext. rewrite Hm. naive_solver.
    + rewrite bool_decide_eq_false_2; [done|]. rewrite Hm. naive_solver.
Qed.

Lemma exact_at_spec lines pattern i :
  i + length pattern ≤ length lines →
  exact_at (E:=E) lines pattern i = Ok (bool_decide (matches_at id lines pattern i)).
Proof.
  intros Hi. unfold exact_at, slice. rewrite decide_True by lia; simpl.
  f_equal. apply bool_decide_ext. unfold matches_at. rewrite !list_fmap_id.
  replace (i + length pattern - i) with (length pattern) by lia. naive_solver.
Qed.

Lemma first_in_range_spec test (P : nat → Prop) `{∀ i, Decision (P i)} i n :
  (∀ j, i ≤ j < i + n → test j = Ok (bool_decide (P j))) →
  ∃ r, first_in_range test i n = Ok r ∧
    match r with
    | Some k => i ≤ k < i + n ∧ P k ∧ ∀ j, i ≤ j < k → ¬ P j
    | None => ∀ j, i ≤ j < i + n → ¬ P j
    end.
Proof.
  revert i; induction n as [|n IH]; intros i Ht; simpl.
  { exists None. split; [done|]. lia. }
  rewrite Ht by lia; simpl. case_bool_decide as HP.
  { exists (Some i). split; [done|]. split_and!; [lia|lia|done|lia]. }
  destruct (IH (S i)) as (r & Hr & Hspec); [intros; apply Ht; lia|].
  exists r. split; [done|]. destruct r as [k|].
  - destruct Hspec as (? & ? & Hno). split_and!; [lia|lia|done|].
    intros j Hj. destruct (decide (j = i)) as [->|]; [done|]. apply Hno. lia.
  - intros j Hj. destruct (decide (j = i)) as [->|]; [done|]. apply Hspec. lia.
Qed.

(** One pass of the search, for a comparison that never panics in range. *)
Lemma pass_spec test f lines pattern from :
  length pattern ≤ length lines →
  (∀ j, j + length pattern ≤ length lines →
    test j = Ok (bool_decide (matches_at f lines pattern j))) →
  ∃ r, first_in_range test from (S (length lines - length pattern) - from) = Ok r ∧
    match r with
    | Some k => from ≤ k ∧ matches_at f lines pattern k ∧
                ∀ j, from ≤ j < k → ¬ matches_at f lines pattern j
    | None => ∀ j, from ≤ j → ¬ matches_at f lines pattern j
    end.
Proof.
  intros Hlen Ht.
  destruct (first_in_range_spec test (matches_at f lines pattern) from
    (S (length lines - length pattern) - from)) as (r & Hr & Hspec).
  { intros j Hj. apply Ht. lia. }
  exists r. split; [done|]. destruct r as [k|]; [naive_solver lia|].
  intros j Hj Hm. destruct (Hm) as [Hb _]. by apply (Hspec j); [lia|].
Qed.

Lemma seek_result_intro lines pattern from k f i :
  levels !! k = Some f →
  from ≤ i ∧ matches_at f lines pattern i ∧
    (∀ j, from ≤ j < i → ¬ matches_at f lines pattern j) →
  (∀ g j, g ∈ take k levels → from ≤ j → ¬ matches_at g lines pattern j) →
  seek_result lines pattern from (Some i).
Proof.
  intros Hk (? & ? & ?) Hprev. eapply seek_found; eauto.
  intros k' f' Hlt Hk' j Hj. apply Hprev; [|done].
  apply list_elem_of_lookup. exists k'. by rewrite lookup_take_lt.
Qed.

Lemma seek_sequence_total lines pattern start eof :
  pattern ≠ [] →
  ∃ r, seek_sequence (E:=E) lines pattern start eof = Ok r ∧
       seek_result lines pattern (search_start lines pattern start eof) r.
Proof.
  intros Hne. unfold seek_sequence. destruct pattern as [|p ps] eqn:Hp; [done|].
  rewrite <-Hp in *. clear Hp p ps. case_decide as Hlen.
  { exists None. split; [done|]. constructor. intros f j _ _ [? _]. lia. }
  set (from := search_start lines pattern start eof).
  assert (Hl : length pattern ≤ length lines) by lia.
  destruct (pass_spec _ id lines pattern from Hl (exact_at_spec lines pattern))
    as (r1 & -> & H1); simpl.
  destruct r1 as [i|]; [eexists; split; [done|]; by apply (seek_result_intro _ _ _ 0 id);
    [..|intros ?? []%elem_of_nil]|].
  destruct (pass_spec _ trim_end lines pattern from Hl (lenient_at_spec trim_end lines pattern))
    as (r2 & -> & H2); simpl.
  destruct r2 as [i|]; [eexists; split; [done|]; apply (seek_result_intro _ _ _ 1 trim_end);
    [done|done|set_solver]|].
  destruct (pass_spec _ trim lines pattern from Hl (lenient_at_spec trim lines pattern))
    as (r3 & -> & H3); simpl.
  destruct r3 as [i|]; [eexists; split; [done|]; apply (seek_result_intro _ _ _ 2 trim);
    [done|done|set_solver]|].
  destruct (pass_spec _ normalise lines pattern from Hl (lenient_at_spec normalise lines pattern))
    as (r4 & -> & H4); simpl.
  exists r4. split; [done|]. destruct r4 as [i|].
  - apply (seek_result_intro _ _ _ 3 normalise); [done|done|set_solver].
  - constructor. unfold levels. set_solver.
Qed.

Lemma seek_result_bounds lines pattern from i :
  seek_result lines pattern from (Some i) →
  from ≤ i ∧ i + length pattern ≤ length lines.
Proof. intros H; inversion H; subst. by destruct H3. Qed.
End proofs.

(** [seek_sequence] never indexes out of bounds and always returns.  An
    empty pattern is found at [start]; otherwise the result is the first index
    at or after [start] (with [eof], at the end of the file only), under the
    strictest of the four comparisons that matches anywhere, and [None]
    exactly when no comparison matches. *)
Theorem seek_sequence_correct (E : Type) (lines pattern : list str) (start : nat) (eof : bool) :
  ∃ r, seek_sequence (E:=E) lines pattern start eof = Ok r ∧
    match pattern with
    | [] => r = Some start
    | _ => seek_result lines pattern (if eof then length lines - length pattern else start) r
    end.
Proof.
  destruct pattern as [|p ps]; [by exists (Some start)|].
  destruct (seek_sequence_total (E:=E) lines (p :: ps) start eof) as (r & Hr & Hres); [done|].
  exists r. split; [done|]. revert Hres. unfold search_start.
  destruct eof; [|done]. simpl andb. case_bool_decide as Hl; [done|].
  intros Hres. destruct r as [i|]; [apply seek_result_bounds in Hres; simpl in Hres; lia|].
  constructor. intros f j _ _ [Hb _]. simpl in Hb. lia.
Qed.

(** With [eof] set only the very end of the file is searched: the index
    found is the one at which the pattern ends the file, and a pattern that
    occurs earlier, even at [start] itself, is not found. *)
Theorem seek_sequence_eof_only_at_end (E : Type) (lines pattern : list str) (start i : nat) :
  pattern ≠ [] → seek_sequence (E:=E) lines pattern start true = Ok (Some i) →
  i = length lines - length pattern ∧
  seek_sequence (E:=E) [lit "a"; lit "b"] [lit "a"] 0 true = Ok None.
Proof.
  intros Hne Hr. split; [|by vm_compute].
  destruct (seek_sequence_total (E:=E) lines pattern start true Hne) as (r & Hr' & Hs).
  rewrite Hr in Hr'. injection Hr' as <-. apply seek_result_bounds in Hs.
  unfold search_start in Hs. simpl in Hs. case_bool_decide; lia.
Qed.

Lemma seek_sequence_eof_only_at_end_witness :
  1 = length [lit "a"; lit "b "] - length [lit "b"] ∧
  seek_sequence (E:=unit) [lit "a"; lit "b"] [lit "a"] 0 true = Ok None.
Proof.
  apply (seek_sequence_eof_only_at_end unit [lit "a"; lit "b "] [lit "b"] 0 1).
  - discriminate.
  - vm_compute. reflexivity.
Defined.
