(* ===== verification/PatchParser.v ===== *)
(** * The patch parser: [apply-patch/src/parser.rs]

    Parsing a patch text into hunks.  [while] loops over a shrinking slice are
    modelled with fuel, and running out of it is the outcome
    [Panic OutOfFuel]; [parse_patch_total] shows that a parse always ends in
    hunks or in a [ParseError], so that neither the fuel nor a slice bound is
    ever exceeded. *)
From S2P Require Import Prelude RustStr.

Definition BEGIN_PATCH_MARKER : str := lit "*** Begin Patch".
Definition END_PATCH_MARKER : str := lit "*** End Patch".
Definition ADD_FILE_MARKER : str := lit "*** Add File: ".
Definition DELETE_FILE_MARKER : str := lit "*** Delete File: ".
Definition UPDATE_FILE_MARKER : str := lit "*** Update File: ".
Definition MOVE_TO_MARKER : str := lit "*** Move to: ".
Definition EOF_MARKER : str := lit "*** End of File".
Definition CHANGE_CONTEXT_MARKER : str := lit "@@ ".
Definition EMPTY_CHANGE_CONTEXT_MARKER : str := lit "@@".
Definition PARSE_IN_STRICT_MODE : bool := false.

#[global] Arguments BEGIN_PATCH_MARKER : simpl never.
#[global] Arguments END_PATCH_MARKER : simpl never.
#[global] Arguments ADD_FILE_MARKER : simpl never.
#[global] Arguments DELETE_FILE_MARKER : simpl never.
#[global] Arguments UPDATE_FILE_MARKER : simpl never.
#[global] Arguments MOVE_TO_MARKER : simpl never.
#[global] Arguments EOF_MARKER : simpl never.
#[global] Arguments CHANGE_CONTEXT_MARKER : simpl never.
#[global] Arguments EMPTY_CHANGE_CONTEXT_MARKER : simpl never.

Inductive ParseError : Type :=
| InvalidPatchError (message : str)
| InvalidHunkError (message : str) (line_number : nat).

Record UpdateFileChunk : Type := {
  change_context : option str;
  old_lines : list str;
  new_lines : list str;
  is_end_of_file : bool
}.

Inductive Hunk : Type :=
| AddFile (path : str) (contents : str)
| DeleteFile (path : str)
| UpdateFile (path : str) (move_path : option str) (chunks : list UpdateFileChunk).

(** [Hunk::path]: the move destination for rename hunks. *)
Definition hunk_path (h : Hunk) : str :=
  match h with
  | AddFile path _ => path
  | DeleteFile path => path
  | UpdateFile _ (Some path) _ => path
  | UpdateFile path None _ => path
  end.

Record ApplyPatchArgs : Type := {
  patch : str;
  hunks : list Hunk;
  workdir : option str
}.

Inductive ParseMode : Type := Strict | Lenient.

#[global] Instance ParseError_eq_dec : EqDecision ParseError.
Proof. solve_decision. Defined.
#[global] Instance UpdateFileChunk_eq_dec : EqDecision UpdateFileChunk.
Proof. solve_decision. Defined.
#[global] Instance Hunk_eq_dec : EqDecision Hunk.
Proof. solve_decision. Defined.
#[global] Instance ApplyPatchArgs_eq_dec : EqDecision ApplyPatchArgs.
Proof. solve_decision. Defined.

(** ** Patch boundaries *)

Definition check_start_and_end_lines_strict (first_line last_line : option str)
    : Res ParseError unit :=
  match trim <$> first_line, trim <$> last_line with
  | Some first, Some last =>
      if decide (first = BEGIN_PATCH_MARKER ∧ last = END_PATCH_MARKER) then Ok ()
      else if decide (first ≠ BEGIN_PATCH_MARKER) then
        Err (InvalidPatchError (lit "The first line of the patch must be '*** Begin Patch'"))
      else Err (InvalidPatchError (lit "The last line of the patch must be '*** End Patch'"))
  | Some first, None =>
      if decide (first ≠ BEGIN_PATCH_MARKER) then
        Err (InvalidPatchError (lit "The first line of the patch must be '*** Begin Patch'"))
      else Err (InvalidPatchError (lit "The last line of the patch must be '*** End Patch'"))
  | None, _ => Err (InvalidPatchError (lit "The last line of the patch must be '*** End Patch'"))
  end.

Definition check_patch_boundaries_strict (lines : list str)
    : Res ParseError (list str * list str) :=
  let (first_line, last_line) :=
    match lines with
    | [] => (None, None)
    | [first] => (Some first, Some first)
    | first :: _ => (Some first, last lines)
    end in
  _ ← check_start_and_end_lines_strict first_line last_line;
  hunk_lines ← slice 1 (length lines - 1) lines;
  Ok (lines, hunk_lines).

Definition is_heredoc_start (first : str) : bool :=
  bool_decide (first = lit "<<EOF") || bool_decide (first = lit "<<'EOF'")
  || bool_decide (first = lit "<<" ++ [c_dquote] ++ lit "EOF" ++ [c_dquote]).

Definition check_patch_boundaries_lenient (original_lines : list str)
    : Res ParseError (list str * list str) :=
  match check_patch_boundaries_strict original_lines with
  | Ok lines => Ok lines
  | Panic p => Panic p
  | Err original_parse_error =>
      match original_lines with
      | first :: _ :: _ =>
          match last original_lines with
          | Some last =>
              if is_heredoc_start first && ends_with (lit "EOF") last
                 && bool_decide (4 ≤ length original_lines) then
                inner_lines ← slice 1 (length original_lines - 1) original_lines;
                check_patch_boundaries_strict inner_lines
              else Err original_parse_error
          | None => Err original_parse_error
          end
      | _ => Err original_parse_error
      end
  end.

(** ** Update chunks *)

Definition no_lines_message : str := lit "Update hunk does not contain any lines".

Definition unexpected_line_message (line : str) : str :=
  lit "Unexpected line found in update hunk: '" ++ line ++
  lit "'. Every line should start with ' ' (context line), '+' (added line), or '-' (removed line)".

Definition expected_context_message (line : str) : str :=
  lit "Expected update hunk to start with a @@ context marker, got: '" ++ line ++ lit "'".

Definition push_old (l : str) (c : UpdateFileChunk) : UpdateFileChunk :=
  {| change_context := change_context c; old_lines := old_lines c ++ [l];
     new_lines := new_lines c; is_end_of_file := is_end_of_file c |}.
Definition push_new (l : str) (c : UpdateFileChunk) : UpdateFileChunk :=
  {| change_context := change_context c; old_lines := old_lines c;
     new_lines := new_lines c ++ [l]; is_end_of_file := is_end_of_file c |}.
Definition set_end_of_file (c : UpdateFileChunk) : UpdateFileChunk :=
  {| change_context := change_context c; old_lines := old_lines c;
     new_lines := new_lines c; is_end_of_file := true |}.

(** The loop of [parse_update_file_chunk] over the lines after the context. *)
Fixpoint chunk_loop (lines : list str) (line_number : nat) (chunk : UpdateFileChunk)
    (parsed_lines : nat) : Res ParseError (UpdateFileChunk * nat) :=
  match lines with
  | [] => Ok (chunk, parsed_lines)
  | line :: lines' =>
      if decide (line = EOF_MARKER) then
        if decide (parsed_lines = 0) then
          Err (InvalidHunkError no_lines_message (line_number + 1))
        else Ok (set_end_of_file chunk, S parsed_lines)
      else
        match line with
        | [] => chunk_loop lines' line_number (push_new [] (push_old [] chunk)) (S parsed_lines)
        | c :: rest =>
            if decide (c = c_space) then
              chunk_loop lines' line_number (push_new rest (push_old rest chunk)) (S parsed_lines)
            else if decide (c = c_plus) then
              chunk_loop lines' line_number (push_new rest chunk) (S parsed_lines)
            else if decide (c = c_minus) then
              chunk_loop lines' line_number (push_old rest chunk) (S parsed_lines)
            else if decide (parsed_lines = 0) then
              Err (InvalidHunkError (unexpected_line_message line) (line_number + 1))
            else Ok (chunk, parsed_lines)
        end
  end.

Definition empty_chunk (ctx : option str) : UpdateFileChunk :=
  {| change_context := ctx; old_lines := []; new_lines := []; is_end_of_file := false |}.

Definition parse_update_file_chunk (lines : list str) (line_number : nat)
    (allow_missing_context : bool) : Res ParseError (UpdateFileChunk * nat) :=
  match lines with
  | [] => Err (InvalidHunkError no_lines_message line_number)
  | line0 :: _ =>
      '(ctx, start_index) ←
        (if decide (line0 = EMPTY_CHANGE_CONTEXT_MARKER) then Ok (None, 1)
         else match strip_prefix CHANGE_CONTEXT_MARKER line0 with
              | Some context => Ok (Some context, 1)
              | None =>
                  if negb allow_missing_context
                  then Err (InvalidHunkError (expected_context_message line0) line_number)
                  else Ok (None, 0)
              end);
      if decide (length lines ≤ start_index) then
        Err (InvalidHunkError no_lines_message (line_number + 1))
      else
        body ← slice_from start_index lines;
        '(chunk, parsed_lines) ← chunk_loop body line_number (empty_chunk ctx) 0;
        Ok (chunk, parsed_lines + start_index)
  end.

(** ** Hunks *)

(** The loop over the [+] lines of an [Add File] hunk. *)
Fixpoint add_loop (lines : list str) (contents : str) (parsed_lines : nat) : str * nat :=
  match lines with
  | [] => (contents, parsed_lines)
  | line :: lines' =>
      match strip_prefix [c_plus] line with
      | Some line_to_add => add_loop lines' (contents ++ line_to_add ++ [c_nl]) (S parsed_lines)
      | None => (contents, parsed_lines)
      end
  end.

(** The loop over the chunks of an [Update File] hunk. *)
Fixpoint update_loop (fuel : nat) (remaining_lines : list str) (line_number parsed_lines : nat)
    (chunks : list UpdateFileChunk) : Res ParseError (list UpdateFileChunk * nat) :=
  match fuel with
  | O => Panic OutOfFuel
  | S fuel' =>
      match remaining_lines with
      | [] => Ok (chunks, parsed_lines)
      | line :: remaining' =>
          if decide (trim line = []) then
            update_loop fuel' remaining' line_number (S parsed_lines) chunks
          else if starts_with [c_star] line then Ok (chunks, parsed_lines)
          else
            '(chunk, chunk_lines) ←
              parse_update_file_chunk remaining_lines (line_number + parsed_lines)
                (bool_decide (chunks = []));
            rest ← slice_from chunk_lines remaining_lines;
            update_loop fuel' rest line_number (parsed_lines + chunk_lines) (chunks ++ [chunk])
      end
  end.

Definition empty_update_message (path : str) : str :=
  lit "Update file hunk for path '" ++ path ++ lit "' is empty".

Definition invalid_header_message (first_line : str) : str :=
  lit "'" ++ first_line ++
  lit "' is not a valid hunk header. Valid hunk headers: '*** Add File: {path}', '*** Delete File: {path}', '*** Update File: {path}'".

Definition parse_one_hunk (lines : list str) (line_number : nat) : Res ParseError (Hunk * nat) :=
  line0 ← index 0 lines;
  let first_line := trim line0 in
  match strip_prefix ADD_FILE_MARKER first_line with
  | Some path =>
      body ← slice_from 1 lines;
      let '(contents, parsed_lines) := add_loop body [] 1 in
      Ok (AddFile path contents, parsed_lines)
  | None =>
  match strip_prefix DELETE_FILE_MARKER first_line with
  | Some path => Ok (DeleteFile path, 1)
  | None =>
  match strip_prefix UPDATE_FILE_MARKER first_line with
  | Some path =>
      remaining ← slice_from 1 lines;
      let move_path := head remaining ≫= strip_prefix MOVE_TO_MARKER in
      '(remaining, parsed_lines) ←
        match move_path with
        | Some _ => remaining' ← slice_from 1 remaining; Ok (remaining', 2)
        | None => Ok (remaining, 1)
        end;
      '(chunks, parsed_lines) ←
        update_loop (S (length remaining)) remaining line_number parsed_lines [];
      if decide (chunks = []) then
        Err (InvalidHunkError (empty_update_message path) line_number)
      else Ok (UpdateFile path move_path chunks, parsed_lines)
  | None => Err (InvalidHunkError (invalid_header_message first_line) line_number)
  end end end.

(** The loop of [parse_patch_text] over the hunks. *)
Fixpoint hunks_loop (fuel : nat) (remaining_lines : list str) (line_number : nat)
    (hunks : list Hunk) : Res ParseError (list Hunk) :=
  match fuel with
  | O => Panic OutOfFuel
  | S fuel' =>
      match remaining_lines with
      | [] => Ok hunks
      | _ =>
          '(hunk, hunk_lines) ← parse_one_hunk remaining_lines line_number;
          rest ← slice_from hunk_lines remaining_lines;
          hunks_loop fuel' rest (line_number + hunk_lines) (hunks ++ [hunk])
      end
  end.

Definition parse_patch_text (patch : str) (mode : ParseMode) : Res ParseError ApplyPatchArgs :=
  let lines := lines (trim patch) in
  '(patch_lines, hunk_lines) ←
    match mode with
    | Strict => check_patch_boundaries_strict lines
    | Lenient => check_patch_boundaries_lenient lines
    end;
  hunks ← hunks_loop (S (length hunk_lines)) hunk_lines 2 [];
  Ok {| patch := join [c_nl] patch_lines; hunks := hunks; workdir := None |}.

Definition parse_patch (patch : str) : Res ParseError ApplyPatchArgs :=
  parse_patch_text patch (if PARSE_IN_STRICT_MODE then Strict else Lenient).

#[global] Arguments parse_update_file_chunk : simpl never.
#[global] Arguments parse_one_hunk : simpl never.
#[global] Arguments slice_from : simpl never.

(** ** Line accounting and absence of panics *)

Section accounting.
Implicit Types (lines : list str).

Lemma chunk_loop_count lines ln chunk p :
  match chunk_loop lines ln chunk p with
  | Ok (_, n) => p ≤ n ≤ p + length lines ∧ (lines ≠ [] → 1 ≤ n)
  | Err _ => True
  | Panic _ => False
  end.
Proof.
  revert chunk p; induction lines as [|line lines IH]; intros chunk p; simpl; [by split; [lia|]|].
  assert (Hstep : ∀ chunk', match chunk_loop lines ln chunk' (S p) with
    | Ok (_, n) => p ≤ n ≤ p + S (length lines) ∧ (line :: lines ≠ [] → 1 ≤ n)
    | Err _ => True
    | Panic _ => False
    end).
  { intros chunk'. specialize (IH chunk' (S p)). repeat case_match; [|done..].
    destruct IH as [? _]. split; [lia|]. intros _. lia. }
  destruct line as [|c rest]; repeat case_decide; try apply Hstep; try done.
  all: split; [lia|intros; lia].
Qed.

Lemma parse_update_file_chunk_count lines ln allow :
  match parse_update_file_chunk lines ln allow with
  | Ok (_, n) => 1 ≤ n ≤ length lines
  | Err _ => True
  | Panic _ => False
  end.
Proof.
  destruct lines as [|line0 rest]; [done|]. unfold parse_update_file_chunk; simpl.
  assert (Hbody : ∀ ctx start, start ≤ 1 →
    match (if decide (S (length rest) ≤ start)
           then Err (InvalidHunkError no_lines_message (ln + 1))
           else body ← slice_from start (line0 :: rest);
             '(chunk, parsed) ← chunk_loop body ln (empty_chunk ctx) 0;
             Ok (chunk, parsed + start)) with
    | Ok (_, n) => 1 ≤ n ≤ S (length rest)
    | Err _ => True
    | Panic _ => False
    end).
  { intros ctx start Hstart. case_decide; [done|]. rewrite slice_from_ok by (simpl; lia); simpl.
    pose proof (chunk_loop_count (drop start (line0 :: rest)) ln (empty_chunk ctx) 0) as Hc.
    destruct (chunk_loop _ _ _ _) as [[c n]|e|q]; simpl; [|done|done].
    rewrite length_drop in Hc; simpl in Hc. destruct Hc as [Hc1 Hc2]. split; [|lia].
    enough (1 ≤ n) by lia. apply Hc2. intros Hnil%(f_equal length).
    rewrite length_drop in Hnil; simpl in Hnil. lia. }
  case_decide; [by apply (Hbody None 1)|].
  destruct (strip_prefix CHANGE_CONTEXT_MARKER line0) as [ctx|]; [by apply (Hbody (Some ctx) 1)|].
  destruct allow; simpl; [by apply (Hbody None 0); lia|done].
Qed.

Lemma add_loop_count lines contents p :
  p ≤ (add_loop lines contents p).2 ≤ p + length lines.
Proof.
  revert contents p; induction lines as [|line lines IH]; intros contents p; simpl; [lia|].
  case_match; simpl; [|lia]. specialize (IH (contents ++ l ++ [c_nl]) (S p)). lia.
Qed.

Lemma update_loop_count fuel lines ln p chunks :
  length lines < fuel →
  match update_loop fuel lines ln p chunks with
  | Ok (_, n) => p ≤ n ≤ p + length lines
  | Err _ => True
  | Panic _ => False
  end.
Proof.
  revert lines p chunks; induction fuel as [|fuel IH]; intros lines p chunks Hfuel; [lia|].
  destruct lines as [|line lines]; simpl; [lia|]. simpl in Hfuel. case_decide.
  { specialize (IH lines (S p) chunks ltac:(lia)).
    destruct (update_loop _ _ _ _ _) as [[? ?]|?|?]; [lia|done|done]. }
  destruct (starts_with _ _); [lia|].
  pose proof (parse_update_file_chunk_count (line :: lines) (ln + p) (bool_decide (chunks = [])))
    as Hc.
  destruct (parse_update_file_chunk _ _ _) as [[c n]|e|q]; simpl; [|done|done].
  rewrite slice_from_ok by (simpl in *; lia); simpl.
  specialize (IH (drop n (line :: lines)) (p + n) (chunks ++ [c])).
  rewrite length_drop in IH. simpl in IH, Hc. specialize (IH ltac:(lia)).
  destruct (update_loop _ _ _ _ _) as [[? ?]|?|?]; [lia|done|done].
Qed.

Lemma parse_one_hunk_count lines ln :
  lines ≠ [] →
  match parse_one_hunk lines ln with
  | Ok (_, n) => 1 ≤ n ≤ length lines
  | Err _ => True
  | Panic _ => False
  end.
Proof.
  intros Hne. destruct lines as [|line0 rest]; [done|]. unfold parse_one_hunk, index; simpl.
  destruct (strip_prefix ADD_FILE_MARKER _) as [l|].
  { rewrite ?drop_0.
    pose proof (add_loop_count rest [] 1). destruct (add_loop rest [] 1); simpl in *. lia. }
  destruct (strip_prefix DELETE_FILE_MARKER _) as [l|]; [lia|].
  destruct (strip_prefix UPDATE_FILE_MARKER _) as [l|]; [|done].
  rewrite ?drop_0.
  assert (Htail : ∀ rem mp p0, length rem + p0 = S (length rest) → 1 ≤ p0 →
    match ('(chunks, parsed) ← update_loop (S (length rem)) rem ln p0 [];
           if decide (chunks = []) then Err (InvalidHunkError (empty_update_message l) ln)
           else Ok (UpdateFile l mp chunks, parsed)) with
    | Ok (_, n) => 1 ≤ n ≤ S (length rest)
    | Err _ => True
    | Panic _ => False
    end).
  { intros rem mp p0 Hp Hp0. pose proof (update_loop_count (S (length rem)) rem ln p0 [] ltac:(lia)).
    destruct (update_loop _ _ _ _ _) as [[cs n]|e|q]; simpl; [|done|done].
    case_decide; [done|]. lia. }
  destruct (head rest ≫= strip_prefix MOVE_TO_MARKER) as [mv|] eqn:Hmv; simpl.
  - destruct rest as [|r rest']; [done|]. simpl. rewrite ?drop_0. apply (Htail rest' (Some mv) 2); simpl; lia.
  - apply (Htail rest None 1); lia.
Qed.

Lemma hunks_loop_total fuel lines ln hs :
  length lines < fuel → no_panic (hunks_loop fuel lines ln hs).
Proof.
  revert lines ln hs; induction fuel as [|fuel IH]; intros lines ln hs Hfuel; [lia|].
  destruct lines as [|line lines]; [done|]. cbn [hunks_loop].
  pose proof (parse_one_hunk_count (line :: lines) ln ltac:(done)) as Hc.
  destruct (parse_one_hunk _ _) as [[h n]|e|q]; cbn; [|done|done].
  rewrite slice_from_ok by (cbn in *; lia); cbn. apply IH.
  rewrite length_drop. cbn in *. lia.
Qed.

Lemma check_start_and_end_lines_strict_ok f l :
  check_start_and_end_lines_strict f l = Ok () ↔
  (trim <$> f) = Some BEGIN_PATCH_MARKER ∧ (trim <$> l) = Some END_PATCH_MARKER.
Proof.
  unfold check_start_and_end_lines_strict.
  destruct f as [f|], l as [l|]; simpl; repeat case_decide; intuition congruence.
Qed.

Lemma check_start_and_end_lines_strict_no_panic f l :
  no_panic (check_start_and_end_lines_strict f l).
Proof.
  unfold check_start_and_end_lines_strict. destruct f, l; simpl; by repeat case_decide.
Qed.

(** The boundary check accepts only texts of at least two lines, so that
    dropping the first and the last one is within bounds. *)
Lemma check_patch_boundaries_strict_ok lines pl hl :
  check_patch_boundaries_strict lines = Ok (pl, hl) ↔
  pl = lines ∧ ∃ first lst, lines = first :: hl ++ [lst] ∧
    trim first = BEGIN_PATCH_MARKER ∧ trim lst = END_PATCH_MARKER.
Proof.
  unfold check_patch_boundaries_strict. split.
  - destruct lines as [|first [|l2 rest]]; cbv beta iota zeta.
    + simpl. intros H. res_inv.
    + simpl. intros H. res_inv.
    + destruct (exists_last (l:=l2 :: rest) ltac:(done)) as (mid & lst & Hl).
      rewrite Hl, app_comm_cons, last_snoc, <-app_comm_cons. intros H. res_inv. destruct a.
      apply check_start_and_end_lines_strict_ok in Hr as [H1 H2]. simpl in H1, H2.
      unfold slice in Hr0. case_decide; [|done]. injection Hr0 as <-.
      split; [done|]. exists first, lst. cbn [length drop].
      rewrite length_app, drop_0; simpl.
      replace (length mid + 1 - 0 - 1) with (length mid) by lia.
      rewrite take_app_length. naive_solver.
  - intros (-> & first & lst & -> & Hf & Hl).
    assert (Hlast : last (first :: hl ++ [lst]) = Some lst)
      by (rewrite app_comm_cons; apply last_snoc).
    destruct (hl ++ [lst]) as [|x xs] eqn:E; [by destruct hl|].
    rewrite Hlast, <-E. rewrite (proj2 (check_start_and_end_lines_strict_ok _ _)).
    2:{ simpl. by rewrite Hf, Hl. }
    simpl. unfold slice. simpl. rewrite length_app; simpl.
    rewrite decide_True by lia. simpl. replace (length hl + 1 - 0 - 1) with (length hl) by lia.
    by rewrite drop_0, take_app_length.
Qed.

Lemma check_patch_boundaries_strict_no_panic lines :
  no_panic (check_patch_boundaries_strict lines).
Proof.
  unfold check_patch_boundaries_strict.
  destruct (match lines with [] => _ | [_] => _ | _ => _ end) as [f l] eqn:E.
  apply no_panic_bind; [apply check_start_and_end_lines_strict_no_panic|].
  intros [] Hok. apply check_start_and_end_lines_strict_ok in Hok as [Hf Hl].
  apply no_panic_bind; [|done]. intros. unfold slice.
  destruct lines as [|x [|y rest]]; simplify_eq/=; try congruence.
  case_decide; [done|lia].
Qed.

Lemma check_patch_boundaries_lenient_no_panic lines :
  no_panic (check_patch_boundaries_lenient lines).
Proof.
  unfold check_patch_boundaries_lenient.
  pose proof (check_patch_boundaries_strict_no_panic lines).
  destruct (check_patch_boundaries_strict lines) as [|e|]; [done| |done].
  repeat case_match; try done.
  apply no_panic_bind; [|intros; apply check_patch_boundaries_strict_no_panic].
  unfold slice. rewrite decide_True; [done|]. simpl. lia.
Qed.
End accounting.

(** A parse of any text ends: it yields hunks or a [ParseError], in both
    modes.  No slice or index is out of bounds, and the loops over the hunks,
    the chunks and the lines end within the number of lines of the patch. *)
Theorem parse_patch_total (text : str) (mode : ParseMode) :
  (∃ args, parse_patch_text text mode = Ok args) ∨
  (∃ e, parse_patch_text text mode = Err e).
Proof.
  apply no_panic_cases. unfold parse_patch_text. apply no_panic_bind.
  - destruct mode; auto using check_patch_boundaries_strict_no_panic,
      check_patch_boundaries_lenient_no_panic.
  - intros [pl hl] _. apply no_panic_bind; [apply hunks_loop_total; lia|done].
Qed.
