(* ===== verification/PatchRoundtrip.v ===== *)
(** * Printing patches and parsing them back

    A printer of hunks in the patch grammar documented at the top of
    [apply-patch/src/parser.rs], and the theorem that [parse_patch] is a left
    inverse of it on well-formed hunks.  The printer is specification: the
    program itself only reads patches. *)
From S2P Require Import Prelude RustStr PatchParser.

(** ** Printer *)

Definition print_chunk (c : UpdateFileChunk) : list str :=
  match change_context c with
  | None => EMPTY_CHANGE_CONTEXT_MARKER
  | Some ctx => CHANGE_CONTEXT_MARKER ++ ctx
  end :: map (cons c_minus) (old_lines c) ++ map (cons c_plus) (new_lines c)
      ++ (if is_end_of_file c then [EOF_MARKER] else []).

(** The lines of a text in which every line is terminated. *)
Definition content_lines (contents : str) : list str := vec_pop (split_on c_nl contents).

Definition print_hunk (h : Hunk) : list str :=
  match h with
  | AddFile path contents =>
      (ADD_FILE_MARKER ++ path) :: map (cons c_plus) (content_lines contents)
  | DeleteFile path => [DELETE_FILE_MARKER ++ path]
  | UpdateFile path move_path chunks =>
      (UPDATE_FILE_MARKER ++ path)
        :: match move_path with Some p => [MOVE_TO_MARKER ++ p] | None => [] end
        ++ concat (map print_chunk chunks)
  end.

Definition print_patch_lines (hs : list Hunk) : list str :=
  BEGIN_PATCH_MARKER :: concat (map print_hunk hs) ++ [END_PATCH_MARKER].

Definition print_patch (hs : list Hunk) : str := join [c_nl] (print_patch_lines hs).

(** ** Well-formed hunks *)

(** A string that is one line of a text. *)
Definition text_line (l : str) : Prop := (c_nl ∉ l) ∧ ¬ [c_cr] `suffix_of` l.
(** A path as a header line can carry it: not empty, no trailing whitespace. *)
Definition header_path (p : str) : Prop := text_line p ∧ p ≠ [] ∧ trim_end p = p.

Definition wf_chunk (c : UpdateFileChunk) : Prop :=
  from_option text_line True (change_context c) ∧
  Forall text_line (old_lines c) ∧ Forall text_line (new_lines c) ∧
  old_lines c ++ new_lines c ≠ [].

Definition wf_hunk (h : Hunk) : Prop :=
  match h with
  | AddFile path contents =>
      header_path path ∧ last (split_on c_nl contents) = Some [] ∧
      Forall text_line (content_lines contents)
  | DeleteFile path => header_path path
  | UpdateFile path move_path chunks =>
      header_path path ∧ from_option text_line True move_path ∧
      chunks ≠ [] ∧ Forall wf_chunk chunks
  end.

#[global] Instance text_line_dec l : Decision (text_line l).
Proof. unfold text_line. apply _. Defined.
#[global] Instance header_path_dec p : Decision (header_path p).
Proof. unfold header_path. apply _. Defined.
#[global] Instance from_option_dec {A} (P : A → Prop) `{∀ x, Decision (P x)} (o : option A) :
  Decision (from_option P True o).
Proof. destruct o; simpl; apply _. Defined.
#[global] Instance wf_chunk_dec c : Decision (wf_chunk c).
Proof. unfold wf_chunk. apply _. Defined.
#[global] Instance wf_hunk_dec h : Decision (wf_hunk h).
Proof. destruct h; simpl; apply _. Defined.

(** ** Lemmas on printed lines *)

Lemma text_line_cons c l : c ≠ c_nl → c ≠ c_cr → text_line l → text_line (c :: l).
Proof.
  intros Hnl Hcr [H1 H2]. split; [set_solver|]. intros [k Hk]. destruct k as [|x k].
  - simplify_eq/=.
  - apply H2. exists k. by simplify_eq/=.
Qed.

Lemma text_line_app m l :
  c_nl ∉ m → c_cr ∉ m → text_line l → text_line (m ++ l).
Proof.
  induction m as [|c m IH]; intros Hnl Hcr Hl; [done|]. simpl.
  rewrite elem_of_cons in Hnl, Hcr. apply text_line_cons; [naive_solver..|]. apply IH; naive_solver.
Qed.

Lemma text_line_marker m l :
  bool_decide ((c_nl ∉ m) ∧ (c_cr ∉ m)) = true → text_line l → text_line (m ++ l).
Proof. intros [??]%bool_decide_eq_true. by apply text_line_app. Qed.

Lemma trim_header m a m' p :
  m = a :: m' → is_whitespace a = false → p ≠ [] → trim_end p = p → trim (m ++ p) = m ++ p.
Proof.
  intros -> Ha Hp Htrim. unfold trim, trim_end, trim_start.
  rewrite trim_end_matches_app_nonempty; unfold trim_end in Htrim; rewrite Htrim; [|done].
  simpl. by rewrite Ha.
Qed.

(** A line that starts a new hunk. *)
Definition header_line (l : str) : Prop := ∃ r, l = c_star :: r ∧ l ≠ EOF_MARKER.
Definition at_header (ls : list str) : Prop :=
  match ls with [] => True | l :: _ => header_line l end.
(** A line at which the lines of a chunk end. *)
Definition stop_line (l : str) : Prop :=
  ∃ c r, l = c :: r ∧ c ≠ c_space ∧ c ≠ c_plus ∧ c ≠ c_minus ∧ l ≠ EOF_MARKER.
Definition at_stop (ls : list str) : Prop :=
  match ls with [] => True | l :: _ => stop_line l end.

Lemma at_header_at_stop ls : at_header ls → at_stop ls.
Proof.
  destruct ls as [|l ls]; [done|]. intros (r & -> & Hne). exists c_star, r.
  by split_and!.
Qed.

Lemma print_chunk_stop c rest : at_stop (print_chunk c ++ rest).
Proof.
  unfold print_chunk; simpl. destruct (change_context c) as [ctx|].
  - exists 64%N, (64%N :: 32%N :: ctx). by split_and!.
  - exists 64%N, [64%N]. by split_and!.
Qed.

Lemma print_hunk_header h rest : at_header (print_hunk h ++ rest).
Proof. destruct h; simpl; eexists; by split. Qed.

(** ** Parsing what was printed *)

Lemma chunk_loop_minus ls rest ln chunk p :
  chunk_loop (map (cons c_minus) ls ++ rest) ln chunk p =
  chunk_loop rest ln
    {| change_context := change_context chunk; old_lines := old_lines chunk ++ ls;
       new_lines := new_lines chunk; is_end_of_file := is_end_of_file chunk |} (p + length ls).
Proof.
  revert chunk p; induction ls as [|l ls IH]; intros [ctx o n e] p; simpl.
  - by rewrite app_nil_r, Nat.add_0_r.
  - rewrite IH. simpl. rewrite <-app_assoc. simpl. f_equal. lia.
Qed.

Lemma chunk_loop_plus ls rest ln chunk p :
  chunk_loop (map (cons c_plus) ls ++ rest) ln chunk p =
  chunk_loop rest ln
    {| change_context := change_context chunk; old_lines := old_lines chunk;
       new_lines := new_lines chunk ++ ls; is_end_of_file := is_end_of_file chunk |} (p + length ls).
Proof.
  revert chunk p; induction ls as [|l ls IH]; intros [ctx o n e] p; simpl.
  - by rewrite app_nil_r, Nat.add_0_r.
  - rewrite IH. simpl. rewrite <-app_assoc. simpl. f_equal. lia.
Qed.

Lemma chunk_loop_stop rest ln chunk p :
  at_stop rest → 0 < p → chunk_loop rest ln chunk p = Ok (chunk, p).
Proof.
  destruct rest as [|l rest]; [done|]. intros (c & r & -> & ? & ? & ? & ?) Hp; simpl.
  rewrite !decide_False by (done || lia). done.
Qed.

Lemma parse_printed_chunk c rest ln allow :
  wf_chunk c → at_stop rest →
  parse_update_file_chunk (print_chunk c ++ rest) ln allow = Ok (c, length (print_chunk c)).
Proof.
  intros (_ & _ & _ & Hne) Hrest. destruct c as [ctx o n e]; simpl in Hne.
  assert (Hpos : 0 < length o + length n).
  { rewrite <-length_app. destruct (o ++ n); [done|]. simpl. lia. }
  assert (Hbody : chunk_loop (map (cons c_minus) o ++ map (cons c_plus) n
      ++ (if e then [EOF_MARKER] else []) ++ rest) ln (empty_chunk ctx) 0
    = Ok ({| change_context := ctx; old_lines := o; new_lines := n; is_end_of_file := e |},
          length o + length n + (if e then 1 else 0))).
  { rewrite chunk_loop_minus, chunk_loop_plus. simpl. destruct e; simpl.
    - rewrite decide_False by lia. do 2 f_equal. lia.
    - rewrite chunk_loop_stop by (done || lia). do 2 f_equal. lia. }
  unfold print_chunk, parse_update_file_chunk. cbn [change_context old_lines new_lines
    is_end_of_file app].
  rewrite <-!app_assoc.
  assert (Hgoal : ∀ line0,
    (if decide (length (line0 :: map (cons c_minus) o ++ map (cons c_plus) n
        ++ (if e then [EOF_MARKER] else []) ++ rest) ≤ 1)
     then Err (InvalidHunkError no_lines_message (ln + 1))
     else body ← slice_from 1 (line0 :: map (cons c_minus) o ++ map (cons c_plus) n
        ++ (if e then [EOF_MARKER] else []) ++ rest);
        '(chunk, parsed_lines) ← chunk_loop body ln (empty_chunk ctx) 0;
        Ok (chunk, parsed_lines + 1))
    = Ok ({| change_context := ctx; old_lines := o; new_lines := n; is_end_of_file := e |},
          length (line0 :: map (cons c_minus) o ++ map (cons c_plus) n
            ++ (if e then [EOF_MARKER] else [])))).
  { intros line0. rewrite decide_False.
    2:{ cbn [length]. rewrite !length_app, !length_map. lia. }
    rewrite slice_from_ok by (simpl; lia). cbn [mbind Res_bind drop]. rewrite drop_0.
    setoid_rewrite Hbody. cbn [mbind Res_bind length]. rewrite !length_app, !length_map.
    do 2 f_equal. destruct e; simpl; lia. }
  destruct ctx as [ctx|].
  - rewrite decide_False by done. rewrite strip_prefix_app. apply Hgoal.
  - rewrite decide_True by done. apply Hgoal.
Qed.

Lemma update_loop_printed chunks rest fuel ln p acc :
  Forall wf_chunk chunks → at_header rest →
  length chunks < fuel →
  update_loop fuel (concat (map print_chunk chunks) ++ rest) ln p acc =
  Ok (acc ++ chunks, p + length (concat (map print_chunk chunks))).
Proof.
  intros Hall Hrest. revert fuel p acc.
  induction Hall as [|c cs Hc Hcs IH]; intros fuel p acc Hfuel;
    (destruct fuel as [|fuel]; [simpl in Hfuel; lia|]).
  - simpl. rewrite app_nil_r, Nat.add_0_r. destruct rest as [|l rest]; [done|].
    destruct Hrest as (r & -> & _). simpl.
    rewrite decide_False. 2:{ rewrite trim_nil_iff, Forall_cons. by intros [? _]. }
    done.
  - cbn [map concat]. rewrite <-app_assoc.
    set (more := concat (map print_chunk cs) ++ rest) in *.
    assert (Hmore : at_stop more).
    { unfold more. destruct cs as [|c' cs']; [by apply at_header_at_stop|].
      cbn [map concat]. rewrite <-app_assoc. apply print_chunk_stop. }
    assert (Hhd : ∃ r tl, print_chunk c = (64%N :: r) :: tl).
    { unfold print_chunk. destruct (change_context c); simpl; by do 2 eexists. }
    pose proof (parse_printed_chunk c more (ln + p) (bool_decide (acc = [])) Hc Hmore) as Hparse.
    destruct Hhd as (r & tl & Hhd). rewrite Hhd in Hparse |- *. cbn [app update_loop].
    rewrite decide_False. 2:{ rewrite trim_nil_iff, Forall_cons. by intros [? _]. }
    change (starts_with [c_star] (64%N :: r)) with false. cbv iota.
    rewrite app_comm_cons, Hparse. cbn [mbind Res_bind].
    rewrite slice_from_ok by (rewrite length_app; lia). cbn [mbind Res_bind].
    rewrite drop_app_length. rewrite IH by (simpl in Hfuel; lia).
    cbn [length]. rewrite length_app, <-app_assoc. do 2 f_equal. lia.
Qed.

Lemma content_lines_spec contents :
  last (split_on c_nl contents) = Some [] →
  concat (map (λ l, l ++ [c_nl]) (content_lines contents)) = contents.
Proof.
  intros H. rewrite <-(join_split_on c_nl contents) at 2. unfold content_lines.
  apply last_Some in H as [ls Hls]. rewrite Hls, vec_pop_snoc. clear Hls.
  induction ls as [|l ls IH]; [done|]. cbn [map concat]. rewrite IH.
  cbn [app]. rewrite join_cons by (by destruct ls). by rewrite app_assoc.
Qed.

Lemma add_loop_printed ls rest contents p :
  at_header rest →
  add_loop (map (cons c_plus) ls ++ rest) contents p =
  (contents ++ concat (map (λ l, l ++ [c_nl]) ls), p + length ls).
Proof.
  intros Hrest. revert contents p; induction ls as [|l ls IH]; intros contents p.
  - simpl. rewrite app_nil_r, Nat.add_0_r. destruct rest as [|l rest]; [done|].
    by destruct Hrest as (r & -> & _).
  - cbn [map app add_loop]. change (c_plus :: l) with ([c_plus] ++ l).
    rewrite strip_prefix_app, IH. simpl. rewrite <-!app_assoc. simpl. f_equal. lia.
Qed.

Lemma parse_printed_hunk h rest ln :
  wf_hunk h → at_header rest →
  parse_one_hunk (print_hunk h ++ rest) ln = Ok (h, length (print_hunk h)).
Proof.
  intros Hwf Hrest. destruct h as [path contents|path|path mv chunks].
  - destruct Hwf as ((_ & Hne & Htrim) & Hlast & _).
    cbn [print_hunk app]. unfold parse_one_hunk, index. cbn [lookup list_lookup mbind Res_bind].
    rewrite (trim_header ADD_FILE_MARKER c_star (tail ADD_FILE_MARKER)) by done.
    rewrite strip_prefix_app, slice_from_ok by (simpl; lia). cbn [mbind Res_bind drop].
    rewrite drop_0, add_loop_printed by done.
    rewrite content_lines_spec by done. simpl. by rewrite length_map.
  - destruct Hwf as (_ & Hne & Htrim).
    cbn [print_hunk app]. unfold parse_one_hunk, index. cbn [lookup list_lookup mbind Res_bind].
    rewrite (trim_header DELETE_FILE_MARKER c_star (tail DELETE_FILE_MARKER)) by done.
    change (strip_prefix ADD_FILE_MARKER (DELETE_FILE_MARKER ++ path)) with (@None str).
    by rewrite strip_prefix_app.
  - destruct Hwf as ((_ & Hne & Htrim) & _ & Hcne & Hcs).
    cbn [print_hunk app]. unfold parse_one_hunk, index. cbn [lookup list_lookup mbind Res_bind].
    rewrite (trim_header UPDATE_FILE_MARKER c_star (tail UPDATE_FILE_MARKER)) by done.
    change (strip_prefix ADD_FILE_MARKER (UPDATE_FILE_MARKER ++ path)) with (@None str).
    change (strip_prefix DELETE_FILE_MARKER (UPDATE_FILE_MARKER ++ path)) with (@None str).
    rewrite strip_prefix_app, slice_from_ok by (simpl; lia). cbn [mbind Res_bind drop].
    rewrite drop_0, <-app_assoc.
    assert (Hlen : length chunks ≤ length (concat (map print_chunk chunks))).
    { clear. induction chunks as [|c cs IH]; simpl; [lia|]. rewrite length_app. lia. }
    destruct mv as [mv|].
    + cbn [app head mbind option_bind]. rewrite strip_prefix_app.
      rewrite slice_from_ok by (simpl; lia). cbn [mbind Res_bind drop]. rewrite drop_0.
      rewrite update_loop_printed by (rewrite ?length_app; done || lia). cbn [mbind Res_bind app].
      rewrite decide_False by done. simpl. done.
    + cbn [app].
      assert (Hhd : head (concat (map print_chunk chunks) ++ rest)
                    ≫= strip_prefix MOVE_TO_MARKER = None).
      { destruct chunks as [|c cs]; [done|]. simpl.
        by destruct (change_context c). }
      rewrite Hhd. cbn [mbind Res_bind].
      rewrite update_loop_printed by (rewrite ?length_app; done || lia). cbn [mbind Res_bind app].
      rewrite decide_False by done. simpl. done.
Qed.

Lemma hunks_loop_printed hs fuel ln acc :
  Forall wf_hunk hs → length hs < fuel →
  hunks_loop fuel (concat (map print_hunk hs)) ln acc = Ok (acc ++ hs).
Proof.
  intros Hall. revert fuel ln acc.
  induction Hall as [|h hs Hh Hhs IH]; intros fuel ln acc Hfuel;
    (destruct fuel as [|fuel]; [simpl in Hfuel; lia|]).
  - simpl. by rewrite app_nil_r.
  - cbn [map concat].
    assert (Hhd : ∃ r rs, print_hunk h = r :: rs) by (destruct h; simpl; eauto).
    destruct Hhd as (r & rs & Hhd). rewrite Hhd. cbn [app hunks_loop].
    rewrite app_comm_cons, <-Hhd.
    rewrite parse_printed_hunk; [|done|].
    2:{ destruct hs as [|h' hs']; [done|]. cbn [map concat]. apply print_hunk_header. }
    cbn [mbind Res_bind]. rewrite slice_from_ok by (rewrite length_app; lia).
    cbn [mbind Res_bind]. rewrite drop_app_length, IH by (simpl in Hfuel; lia).
    by rewrite <-app_assoc.
Qed.

(** ** The text of a printed patch *)

Lemma print_chunk_text_lines c : wf_chunk c → Forall text_line (print_chunk c).
Proof.
  intros (Hctx & Ho & Hn & _). unfold print_chunk. constructor.
  - destruct (change_context c); [by apply text_line_marker|]. by_compute.
  - rewrite !Forall_app, !Forall_map. split_and!.
    + eapply Forall_impl; [exact Ho|]. intros l Hl. by apply (text_line_marker [c_minus]).
    + eapply Forall_impl; [exact Hn|]. intros l Hl. by apply (text_line_marker [c_plus]).
    + destruct (is_end_of_file c); repeat constructor; by_compute.
Qed.

Lemma Forall_concat_map {A B} (P : B → Prop) (f : A → list B) l :
  Forall (λ a, Forall P (f a)) l → Forall P (concat (map f l)).
Proof. induction 1; simpl; [constructor|]. by apply Forall_app. Qed.

Lemma print_hunk_text_lines h : wf_hunk h → Forall text_line (print_hunk h).
Proof.
  destruct h as [path contents|path|path mv chunks]; cbn [print_hunk wf_hunk].
  - intros ((Hp & _) & _ & Hls). constructor; [by apply text_line_marker|].
    rewrite Forall_map. eapply Forall_impl; [exact Hls|].
    intros l Hl. by apply (text_line_marker [c_plus]).
  - intros (Hp & _). repeat constructor; by apply (text_line_marker DELETE_FILE_MARKER).
  - intros ((Hp & _) & Hmv & _ & Hcs). constructor; [by apply text_line_marker|].
    apply Forall_app; split.
    + destruct mv; repeat constructor; by apply (text_line_marker MOVE_TO_MARKER).
    + apply Forall_concat_map. eapply Forall_impl; [exact Hcs|]. apply print_chunk_text_lines.
Qed.

Lemma print_patch_text_lines hs :
  Forall wf_hunk hs →
  Forall text_line (BEGIN_PATCH_MARKER :: concat (map print_hunk hs)).
Proof.
  intros Hhs. constructor; [by_compute|].
  apply Forall_concat_map. eapply Forall_impl; [exact Hhs|]. apply print_hunk_text_lines.
Qed.

(** A text between two lines that neither start nor end with a space. *)
Lemma trim_join a first ls b lst :
  is_whitespace a = false → is_whitespace b = false →
  trim (join [c_nl] ((a :: first) :: ls ++ [lst ++ [b]])) =
  join [c_nl] ((a :: first) :: ls ++ [lst ++ [b]]).
Proof.
  intros Ha Hb. rewrite app_comm_cons, join_app by done.
  change (join [c_nl] [lst ++ [b]]) with (lst ++ [b]).
  destruct ls as [|l ls]; [cbn [join]|rewrite join_cons by done];
    rewrite !app_assoc, <-!app_comm_cons; by apply trim_fixed.
Qed.

Lemma lines_print_patch hs :
  Forall wf_hunk hs → lines (trim (print_patch hs)) = print_patch_lines hs.
Proof.
  intros Hhs. unfold print_patch, print_patch_lines.
  assert (Htrim := trim_join c_star (tail BEGIN_PATCH_MARKER) (concat (map print_hunk hs))
    104%N (lit "*** End Patc") eq_refl eq_refl).
  change (lit "*** End Patc" ++ [104%N]) with END_PATCH_MARKER in Htrim.
  change (c_star :: tail BEGIN_PATCH_MARKER) with BEGIN_PATCH_MARKER in Htrim.
  rewrite Htrim, !app_comm_cons. apply lines_join.
  - by apply print_patch_text_lines.
  - by_compute.
  - done.
Qed.

Lemma print_patch_boundaries hs :
  check_patch_boundaries_strict (print_patch_lines hs) =
  Ok (print_patch_lines hs, concat (map print_hunk hs)).
Proof.
  apply check_patch_boundaries_strict_ok. split; [done|].
  exists BEGIN_PATCH_MARKER, END_PATCH_MARKER. by vm_compute.
Qed.

Lemma hunks_le_lines hs : length hs ≤ length (concat (map print_hunk hs)).
Proof.
  induction hs as [|h hs IH]; simpl; [lia|]. rewrite length_app.
  assert (1 ≤ length (print_hunk h)) by (destruct h; simpl; lia). lia.
Qed.

(** C35. Printing well-formed hunks and parsing the text gives the hunks back,
    in order, with every path, context, line and end-of-file mark; the
    recorded patch text is the text itself.  Patches are read in strict mode
    the same way. *)
Theorem parse_print_roundtrip hs mode :
  Forall wf_hunk hs →
  parse_patch_text (print_patch hs) mode =
  Ok {| patch := print_patch hs; hunks := hs; workdir := None |}.
Proof.
  intros Hhs. unfold parse_patch_text. rewrite lines_print_patch by done.
  assert (Hb : match mode with
               | Strict => check_patch_boundaries_strict (print_patch_lines hs)
               | Lenient => check_patch_boundaries_lenient (print_patch_lines hs)
               end = Ok (print_patch_lines hs, concat (map print_hunk hs))).
  { unfold check_patch_boundaries_lenient. rewrite print_patch_boundaries. by destruct mode. }
  rewrite Hb. cbn [mbind Res_bind].
  rewrite hunks_loop_printed; [done|done|]. pose proof (hunks_le_lines hs). lia.
Qed.

(** A patch with a hunk of each kind, used in witnesses. *)
Definition sample_chunk : UpdateFileChunk :=
  {| change_context := Some (lit "fn f() {"); old_lines := [lit "a"; lit "b"];
     new_lines := [lit "a"; lit "c"]; is_end_of_file := true |}.
Definition sample_hunks : list Hunk :=
  [AddFile (lit "new.txt") (lit "hello" ++ [c_nl]);
   UpdateFile (lit "src/old.rs") (Some (lit "src/new.rs")) [sample_chunk];
   DeleteFile (lit "gone.txt")].

Lemma parse_print_roundtrip_witness :
  Forall wf_hunk sample_hunks ∧
  parse_patch_text (print_patch sample_hunks) Lenient =
  Ok {| patch := print_patch sample_hunks; hunks := sample_hunks; workdir := None |}.
Proof.
  assert (H : Forall wf_hunk sample_hunks) by by_compute.
  split; [exact H|]. exact (parse_print_roundtrip sample_hunks Lenient H).
Defined.

(** ** Heredoc wrapping *)

Definition heredoc_starts : list str :=
  [lit "<<EOF"; lit "<<'EOF'"; lit "<<" ++ [c_dquote] ++ lit "EOF" ++ [c_dquote]].

Lemma heredoc_starts_spec start :
  start ∈ heredoc_starts →
  text_line start ∧ start = 60%N :: tail start ∧ is_heredoc_start start = true ∧
  trim start ≠ BEGIN_PATCH_MARKER.
Proof.
  revert start. apply Forall_forall. by_compute.
Qed.

Lemma heredoc_lines start hs :
  start ∈ heredoc_starts → Forall wf_hunk hs →
  lines (trim (join [c_nl] (start :: print_patch_lines hs ++ [lit "EOF"]))) =
  start :: print_patch_lines hs ++ [lit "EOF"].
Proof.
  intros (Hline & Hhd & _ & _)%heredoc_starts_spec Hhs.
  assert (Htrim := trim_join 60%N (tail start) (print_patch_lines hs) 70%N (lit "EO")
    eq_refl eq_refl).
  change (lit "EO" ++ [70%N]) with (lit "EOF") in Htrim.
  rewrite <-Hhd in Htrim.
  rewrite Htrim, app_comm_cons. apply lines_join; [|by_compute|done].
  constructor; [done|].
  - unfold print_patch_lines. rewrite app_comm_cons. apply Forall_app; split.
    + by apply print_patch_text_lines.
    + repeat constructor; by_compute.
Qed.

(** A patch wrapped in an unexecuted heredoc is read as the patch itself
    in lenient mode, for each of the three accepted quotings, and the recorded
    patch text drops the wrapper. *)
Theorem parse_heredoc_roundtrip start hs :
  start ∈ heredoc_starts → Forall wf_hunk hs →
  parse_patch (join [c_nl] (start :: print_patch_lines hs ++ [lit "EOF"])) =
  Ok {| patch := print_patch hs; hunks := hs; workdir := None |}.
Proof.
  intros Hstart Hhs. unfold parse_patch. cbn [PARSE_IN_STRICT_MODE]. unfold parse_patch_text.
  rewrite heredoc_lines by done.
  assert (Hb : check_patch_boundaries_lenient (start :: print_patch_lines hs ++ [lit "EOF"]) =
               Ok (print_patch_lines hs, concat (map print_hunk hs))).
  { unfold check_patch_boundaries_lenient.
    assert (Hstrict : ∃ e, check_patch_boundaries_strict
        (start :: print_patch_lines hs ++ [lit "EOF"]) = Err e).
    { destruct (check_patch_boundaries_strict _) as [[pl hl]|e|q] eqn:E; [|eauto|].
      - apply check_patch_boundaries_strict_ok in E as (_ & first & lst & Heq & Hf & _).
        injection Heq as <- _. by apply heredoc_starts_spec in Hstart as (_ & _ & _ & []).
      - pose proof (check_patch_boundaries_strict_no_panic
          (start :: print_patch_lines hs ++ [lit "EOF"])) as Hp. by rewrite E in Hp. }
    destruct Hstrict as [e ->]. cbn [print_patch_lines app].
    change (BEGIN_PATCH_MARKER :: (concat (map print_hunk hs) ++ [END_PATCH_MARKER]) ++ [lit "EOF"])
      with (print_patch_lines hs ++ [lit "EOF"]).
    rewrite app_comm_cons, last_snoc.
    assert (Hlen : length ((start :: print_patch_lines hs) ++ [lit "EOF"]) =
      S (length (print_patch_lines hs) + 1)) by (simpl; by rewrite length_app).
    replace (is_heredoc_start start && ends_with (lit "EOF") (lit "EOF") &&
      bool_decide (4 ≤ length ((start :: print_patch_lines hs) ++ [lit "EOF"]))) with true.
    2:{ symmetry. rewrite !andb_true_iff. split_and!.
        - by apply heredoc_starts_spec in Hstart as (_ & _ & ? & _).
        - by vm_compute.
        - apply bool_decide_eq_true. rewrite Hlen. unfold print_patch_lines.
          simpl. rewrite length_app. simpl. lia. }
    unfold slice. rewrite Hlen. rewrite decide_True by lia. cbn [mbind Res_bind app drop].
    rewrite drop_0. replace (S (length (print_patch_lines hs) + 1) - 1 - 1)
      with (length (print_patch_lines hs)) by lia.
    rewrite take_app_length. apply print_patch_boundaries. }
  rewrite Hb. cbn [mbind Res_bind].
  rewrite hunks_loop_printed; [done|done|]. pose proof (hunks_le_lines hs). lia.
Qed.

Lemma parse_heredoc_roundtrip_witness :
  parse_patch (join [c_nl] (lit "<<'EOF'" :: print_patch_lines sample_hunks ++ [lit "EOF"])) =
  Ok {| patch := print_patch sample_hunks; hunks := sample_hunks; workdir := None |}.
Proof.
  apply (parse_heredoc_roundtrip (lit "<<'EOF'") sample_hunks).
  - by_compute.
  - by_compute.
Defined.

(** ** Reading the recorded text again

    The runtime applies the text recorded with the hunks, which is read a
    second time: the lines of the first reading joined again.  Reading splits
    off one carriage return of each line, so the second reading sees the same
    lines unless one still ends in a carriage return. *)

Lemma lines_no_newline s : Forall (λ l, c_nl ∉ l) (lines s).
Proof.
  unfold lines. assert (H := split_on_no_sep_inside c_nl s).
  induction H as [|l ls Hl Hls IH]; [done|]. simpl.
  destruct ls as [|l' ls]; [by destruct l; [|repeat constructor]|].
  constructor; [|exact IH]. unfold strip_cr. destruct (strip_suffix [c_cr] l) as [l0|] eqn:E; [|done].
  apply strip_suffix_Some in E. intros Hin. apply Hl. rewrite E. apply elem_of_app. by left.
Qed.

Lemma trim_trim_start s : trim (trim_start s) = trim s.
Proof. unfold trim at 1. rewrite trim_comm. unfold trim, trim_start. apply trim_start_matches_idemp. Qed.

Lemma trim_trim_end s : trim (trim_end s) = trim s.
Proof. unfold trim, trim_end. by rewrite trim_end_matches_idemp. Qed.

(** The blanks before the first line and behind the last one are cut off. *)
Lemma trim_join_lines first ls lst :
  trim first ≠ [] → trim lst ≠ [] →
  trim (join [c_nl] (first :: ls ++ [lst])) = join [c_nl] (trim_start first :: ls ++ [trim_end lst]) ∧
  trim_end lst ≠ [].
Proof.
  intros Hf Hl.
  destruct (trim_start_matches_decomp is_whitespace first) as (w & Hw & Hws). fold trim_start in Hw.
  destruct (trim_end_matches_decomp is_whitespace lst) as (v & Hv & Hvs). fold trim_end in Hv.
  change (trim_start_matches is_whitespace first) with (trim_start first) in Hw.
  change (trim_end_matches is_whitespace lst) with (trim_end lst) in Hv.
  destruct (trim_start first) as [|a t] eqn:Ht.
  { destruct Hf. rewrite <-trim_comm, Ht. done. }
  assert (Ha := trim_start_matches_head _ _ _ _ Ht).
  destruct (last (trim_end lst)) as [b|] eqn:Hb.
  2:{ apply last_None in Hb. destruct Hl. unfold trim. by rewrite Hb. }
  assert (Hbs := trim_end_matches_last _ _ _ Hb). apply last_Some in Hb as [u Hu].
  rewrite Hu. split; [|by destruct u].
  assert (E : join [c_nl] (first :: ls ++ [lst]) = w ++ join [c_nl] ((a :: t) :: ls ++ [u ++ [b]]) ++ v).
  { rewrite Hw at 1. rewrite Hv at 1. rewrite Hu. rewrite !join_cons by by destruct ls.
    assert (Hmid : ∀ x : str, join [c_nl] (ls ++ [x ++ v]) = join [c_nl] (ls ++ [x]) ++ v).
    { intros x. destruct ls as [|l ls]; [done|]. rewrite !join_app by done. cbn [join]. by rewrite <-!app_assoc. }
    rewrite Hmid, <-!app_assoc. done. }
  rewrite E. pose proof (trim_join a t ls b u Ha Hbs) as Hj.
  unfold trim, trim_end in *. rewrite app_assoc, trim_end_matches_app_all by done.
  assert (Hne : trim_end_matches is_whitespace (join [c_nl] ((a :: t) :: ls ++ [u ++ [b]])) ≠ []).
  { intros E0. rewrite E0 in Hj. cbn in Hj. by destruct ls. }
  rewrite trim_end_matches_app_nonempty by done.
  clear -Hj Hws. induction Hws as [|x w Hx Hw IH]; [done|]. unfold trim_start in *. simpl. by rewrite Hx.
Qed.

Definition ends_in_cr (l : str) : Prop := [c_cr] `suffix_of` l.

Lemma suffix_trim_start l : ends_in_cr (trim_start l) → ends_in_cr l.
Proof.
  intros [x Hx]. destruct (trim_start_matches_suffix is_whitespace l) as [w Hw].
  exists (w ++ x). rewrite <-app_assoc, <-Hx. exact Hw.
Qed.

(** The lines of the recorded text, as the boundary check finds them. *)
Lemma recorded_lines text mode args :
  parse_patch_text text mode = Ok args →
  ∃ first hl lst, patch args = join [c_nl] (first :: hl ++ [lst]) ∧
    trim first = BEGIN_PATCH_MARKER ∧ trim lst = END_PATCH_MARKER ∧
    Forall (λ l, c_nl ∉ l) (first :: hl ++ [lst]) ∧
    hunks_loop (S (length hl)) hl 2 [] = Ok (hunks args).
Proof.
  unfold parse_patch_text. set (ls := lines (trim text)). assert (Hnl : Forall (λ l, c_nl ∉ l) ls) by apply lines_no_newline.
  clearbody ls.
  destruct (match mode with Lenient => _ | Strict => _ end) as [[pl hl]|e|q] eqn:Hc; [|done|done].
  cbn [mbind Res_bind]. destruct (hunks_loop _ _ _ _) as [hs|e|q] eqn:Hh; [|done|done].
  intros [= <-]. cbn [patch hunks].
  assert (Hs : ∃ ls', check_patch_boundaries_strict ls' = Ok (pl, hl) ∧ Forall (λ l, c_nl ∉ l) ls').
  { destruct mode; [by exists ls|]. unfold check_patch_boundaries_lenient in Hc.
    destruct (check_patch_boundaries_strict ls) as [x|e|q] eqn:Hs; [injection Hc as ->; by exists ls| |done].
    destruct ls as [|first [|second rest]]; [done..|].
    destruct (last _) as [l|]; [|done]. destruct (_ && _ && _); [|done].
    unfold slice in Hc. case_decide; [|done]. cbn [mbind Res_bind] in Hc. eexists. split; [exact Hc|].
    by apply Forall_take, Forall_drop. }
  destruct Hs as (ls' & (-> & first & lst & -> & Hf & Hl)%check_patch_boundaries_strict_ok & Hnl').
  exists first, hl, lst. by split_and!.
Qed.

Theorem recorded_text_reads_the_same text mode args :
  parse_patch_text text mode = Ok args →
  Forall (λ l, ¬ ends_in_cr l) (split_on c_nl (patch args)) →
  ∃ args', parse_patch (patch args) = Ok args' ∧ hunks args' = hunks args.
Proof.
  intros (first & hl & lst & -> & Hf & Hl & Hnl & Hh)%recorded_lines Hcr.
  rewrite split_on_join in Hcr by done.
  destruct (trim_join_lines first hl lst) as [Ht Hne]; [by rewrite Hf|by rewrite Hl|].
  apply Forall_cons in Hnl as [Hn1 [Hn2 Hn3%Forall_inv]%Forall_app].
  apply Forall_cons in Hcr as [Hc1 [Hc2 _]%Forall_app].
  unfold parse_patch. cbn [PARSE_IN_STRICT_MODE]. unfold parse_patch_text. rewrite Ht, app_comm_cons, lines_join.
  - assert (Hb : check_patch_boundaries_lenient ((trim_start first :: hl) ++ [trim_end lst]) =
                 Ok ((trim_start first :: hl) ++ [trim_end lst], hl)).
    { unfold check_patch_boundaries_lenient.
      rewrite (proj2 (check_patch_boundaries_strict_ok _ ((trim_start first :: hl) ++ [trim_end lst]) hl)); [done|].
      split; [done|]. exists (trim_start first), (trim_end lst). split_and!; [done|..].
      - by rewrite trim_trim_start. - by rewrite trim_trim_end. }
    rewrite Hb. cbn [mbind Res_bind]. rewrite Hh. eexists. by split.
  - constructor.
    + split; [|by intros ?%suffix_trim_start].
      intros Hin. apply Hn1. destruct (trim_start_matches_suffix is_whitespace first) as [w Hw].
      rewrite Hw. apply elem_of_app. by right.
    + apply Forall_and; split; [exact Hn2|exact Hc2].
  - intros Hin. apply Hn3. destruct (trim_end_matches_prefix is_whitespace lst) as [w Hw].
    rewrite Hw. apply elem_of_app. by left.
  - done.
Qed.
