(* ===== verification/StreamingParser.v ===== *)
(** * The streaming patch parser: [apply-patch/src/streaming_parser.rs]

    The parser that shows hunks while a patch is still arriving.  Its methods
    take [&mut self] and may fail; they are modelled as functions from the
    parser state to the new state and the result, so that the state left
    behind by an error is part of the model. *)
From S2P Require Import Prelude RustStr PatchParser PatchRoundtrip.

Inductive StreamingParserMode : Type :=
| NotStarted
| StartedPatch
| ModeAddFile
| ModeDeleteFile
| ModeUpdateFile (hunk_line_number : nat)
| EndedPatch.

(** [StreamingPatchParser] with its [StreamingParserState] inlined. *)
Record StreamingPatchParser : Type := MkParser {
  line_buffer : str;
  mode : StreamingParserMode;
  phunks : list Hunk;
  line_number : nat
}.

Definition default_parser : StreamingPatchParser :=
  {| line_buffer := []; mode := NotStarted; phunks := []; line_number := 0 |}.

Definition set_mode (m : StreamingParserMode) (p : StreamingPatchParser) : StreamingPatchParser :=
  MkParser (line_buffer p) m (phunks p) (line_number p).
Definition set_hunks (hs : list Hunk) (p : StreamingPatchParser) : StreamingPatchParser :=
  MkParser (line_buffer p) (mode p) hs (line_number p).
Definition push_hunk (h : Hunk) (m : StreamingParserMode) (p : StreamingPatchParser)
    : StreamingPatchParser :=
  MkParser (line_buffer p) m (phunks p ++ [h]) (line_number p).

Definition chunk_is_empty (c : UpdateFileChunk) : bool :=
  bool_decide (old_lines c = []) && bool_decide (new_lines c = []).

(** [chunks.last().is_some_and(|chunk| ..)] *)
Definition last_chunk_is_empty (chunks : list UpdateFileChunk) : bool :=
  match last chunks with Some c => chunk_is_empty c | None => false end.

Definition ensure_update_hunk_is_not_empty (p : StreamingPatchParser) (line : str)
    : Res ParseError unit :=
  match last (phunks p) with
  | Some (UpdateFile path _ chunks) =>
      match chunks, mode p with
      | [], ModeUpdateFile hunk_line_number =>
          Err (InvalidHunkError (empty_update_message path) hunk_line_number)
      | _, _ =>
          if last_chunk_is_empty chunks then
            if decide (line = END_PATCH_MARKER) then
              Err (InvalidHunkError no_lines_message (line_number p))
            else Err (InvalidHunkError (unexpected_line_message line) (line_number p))
          else Ok ()
      end
  | _ => Ok ()
  end.

(** The common shape of the header branches: check, then update the state. *)
Definition after_check (p : StreamingPatchParser) (trimmed : str)
    (p' : StreamingPatchParser) : StreamingPatchParser * Res ParseError bool :=
  match ensure_update_hunk_is_not_empty p trimmed with
  | Ok _ => (p', Ok true)
  | Err e => (p, Err e)
  | Panic q => (p, Panic q)
  end.

Definition handle_hunk_headers_and_end_patch (p : StreamingPatchParser) (trimmed : str)
    : StreamingPatchParser * Res ParseError bool :=
  if decide (trimmed = END_PATCH_MARKER) then after_check p trimmed (set_mode EndedPatch p)
  else match strip_prefix ADD_FILE_MARKER trimmed with
  | Some path => after_check p trimmed (push_hunk (AddFile path []) ModeAddFile p)
  | None =>
  match strip_prefix DELETE_FILE_MARKER trimmed with
  | Some path => after_check p trimmed (push_hunk (DeleteFile path) ModeDeleteFile p)
  | None =>
  match strip_prefix UPDATE_FILE_MARKER trimmed with
  | Some path =>
      after_check p trimmed
        (push_hunk (UpdateFile path None []) (ModeUpdateFile (line_number p)) p)
  | None => (p, Ok false)
  end end end.

(** [if chunks.is_empty() { push a chunk }; update the last chunk] *)
Definition on_last_chunk (f : UpdateFileChunk → UpdateFileChunk)
    (chunks : list UpdateFileChunk) : list UpdateFileChunk :=
  update_last f (match chunks with [] => [empty_chunk None] | _ => chunks end).

(** The line of an update hunk that is no header, on the fields of the last
    hunk: the new [move_path] and [chunks], or the error message. *)
Definition update_line_step (move_path : option str) (chunks : list UpdateFileChunk)
    (line : str) : (option str * list UpdateFileChunk) + str :=
  let update_line := trim_end line in
  let move_to :=
    match chunks, move_path with
    | [], None => strip_prefix MOVE_TO_MARKER update_line
    | _, _ => None
    end in
  match move_to with
  | Some move_to_path => inl (Some move_to_path, chunks)
  | None =>
  if (bool_decide (update_line = EMPTY_CHANGE_CONTEXT_MARKER)
      || starts_with CHANGE_CONTEXT_MARKER update_line) && last_chunk_is_empty chunks
  then inr (unexpected_line_message line)
  else if decide (update_line = EMPTY_CHANGE_CONTEXT_MARKER)
  then inl (move_path, chunks ++ [empty_chunk None])
  else match strip_prefix CHANGE_CONTEXT_MARKER update_line with
  | Some context => inl (move_path, chunks ++ [empty_chunk (Some context)])
  | None =>
  if decide (update_line = EOF_MARKER) then
    if last_chunk_is_empty chunks then inr no_lines_message
    else inl (move_path, update_last set_end_of_file chunks)
  else match line with
  | [] => inl (move_path, on_last_chunk (λ c, push_new [] (push_old [] c)) chunks)
  | c :: rest =>
      if decide (c = c_space) then
        inl (move_path, on_last_chunk (λ c, push_new rest (push_old rest c)) chunks)
      else if decide (c = c_plus) then inl (move_path, on_last_chunk (push_new rest) chunks)
      else if decide (c = c_minus) then inl (move_path, on_last_chunk (push_old rest) chunks)
      else match last chunks with
           | Some chunk =>
               if negb (chunk_is_empty chunk) then inr (expected_context_message line)
               else inr (unexpected_line_message line)
           | None => inr (unexpected_line_message line)
           end
  end end end.

Definition process_line (p : StreamingPatchParser) (line : str)
    : StreamingPatchParser * Res ParseError unit :=
  let trimmed := trim line in
  (* [if self.handle_hunk_headers_and_end_patch(l)? { return Ok(()) }] *)
  let with_headers l (k : StreamingPatchParser → StreamingPatchParser * Res ParseError unit) :=
    match handle_hunk_headers_and_end_patch p l with
    | (p', Ok true) => (p', Ok ())
    | (p', Ok false) => k p'
    | (p', Err e) => (p', Err e)
    | (p', Panic q) => (p', Panic q)
    end in
  let bad_header p' := (p', Err (InvalidHunkError (invalid_header_message trimmed) (line_number p')))
    in
  match mode p with
  | NotStarted =>
      if decide (trimmed = BEGIN_PATCH_MARKER) then (set_mode StartedPatch p, Ok ())
      else (p, Err (InvalidPatchError
        (lit "The first line of the patch must be '*** Begin Patch'")))
  | StartedPatch => with_headers trimmed bad_header
  | ModeAddFile =>
      with_headers trimmed (λ p',
        match strip_prefix [c_plus] line, last (phunks p') with
        | Some line_to_add, Some (AddFile path contents) =>
            (set_hunks (update_last (λ _, AddFile path (contents ++ line_to_add ++ [c_nl]))
                         (phunks p')) p', Ok ())
        | _, _ => bad_header p'
        end)
  | ModeDeleteFile => with_headers trimmed bad_header
  | ModeUpdateFile _ =>
      with_headers (trim_end line) (λ p',
        match last (phunks p') with
        | Some (UpdateFile path move_path chunks) =>
            match update_line_step move_path chunks line with
            | inl (move_path', chunks') =>
                (set_hunks (update_last (λ _, UpdateFile path move_path' chunks') (phunks p')) p',
                 Ok ())
            | inr message => (p', Err (InvalidHunkError message (line_number p')))
            end
        | _ => (p', Err (InvalidHunkError (unexpected_line_message line) (line_number p')))
        end)
  | EndedPatch => (p, Ok ())
  end.

(** One character of [push_delta]. *)
Definition push_char (p : StreamingPatchParser) (ch : char)
    : StreamingPatchParser * Res ParseError unit :=
  if decide (ch = c_nl) then
    process_line (MkParser [] (mode p) (phunks p) (S (line_number p)))
      (strip_cr (line_buffer p))
  else (MkParser (line_buffer p ++ [ch]) (mode p) (phunks p) (line_number p), Ok ()).

Fixpoint push_chars (p : StreamingPatchParser) (delta : str)
    : StreamingPatchParser * Res ParseError unit :=
  match delta with
  | [] => (p, Ok ())
  | ch :: delta' =>
      match push_char p ch with
      | (p', Ok _) => push_chars p' delta'
      | (p', Err e) => (p', Err e)
      | (p', Panic q) => (p', Panic q)
      end
  end.

Definition push_delta (p : StreamingPatchParser) (delta : str)
    : StreamingPatchParser * Res ParseError (list Hunk) :=
  let '(p', r) := push_chars p delta in
  (p', r ≫= λ _, Ok (phunks p')).

Definition finish (p : StreamingPatchParser) : StreamingPatchParser * Res ParseError (list Hunk) :=
  let '(p', r) :=
    match line_buffer p with
    | [] => (p, Ok ())
    | line =>
        let p1 := MkParser [] (mode p) (phunks p) (S (line_number p)) in
        if decide (trim line = END_PATCH_MARKER) then
          match ensure_update_hunk_is_not_empty p1 (trim line) with
          | Ok _ => (set_mode EndedPatch p1, Ok ())
          | Err e => (p1, Err e)
          | Panic q => (p1, Panic q)
          end
        else process_line p1 line
    end in
  (p', r ≫= λ _,
    match mode p' with
    | EndedPatch => Ok (phunks p')
    | _ => Err (InvalidPatchError (lit "The last line of the patch must be '*** End Patch'"))
    end).

(** ** Independence of the chunking *)

(** Push several deltas, stopping at the first error. *)
Fixpoint push_deltas (p : StreamingPatchParser) (ds : list str)
    : StreamingPatchParser * Res ParseError (list Hunk) :=
  match ds with
  | [] => (p, Ok (phunks p))
  | d :: ds' =>
      match push_delta p d with
      | (p', Ok _) => push_deltas p' ds'
      | (p', Err e) => (p', Err e)
      | (p', Panic q) => (p', Panic q)
      end
  end.

Lemma push_chars_app p a b :
  push_chars p (a ++ b) =
  match push_chars p a with
  | (p', Ok _) => push_chars p' b
  | (p', Err e) => (p', Err e)
  | (p', Panic q) => (p', Panic q)
  end.
Proof.
  revert p; induction a as [|c a IH]; intros p; simpl; [done|].
  destruct (push_char p c) as [p' [[]|e|q]]; [apply IH|done|done].
Qed.

Lemma push_deltas_concat p ds : push_deltas p ds = push_delta p (concat ds).
Proof.
  revert p; induction ds as [|d ds IH]; intros p; [done|]. simpl. unfold push_delta at 1 2.
  rewrite push_chars_app. destruct (push_chars p d) as [p' [[]|e|q]]; simpl; [|done|done].
  rewrite IH. done.
Qed.

(** ** Line-wise view of the parser *)

Definition next_line (p : StreamingPatchParser) : StreamingPatchParser :=
  MkParser [] (mode p) (phunks p) (S (line_number p)).

Fixpoint process_lines (p : StreamingPatchParser) (ls : list str)
    : StreamingPatchParser * Res ParseError unit :=
  match ls with
  | [] => (p, Ok ())
  | l :: ls' =>
      match process_line (next_line p) l with
      | (p', Ok _) => process_lines p' ls'
      | (p', Err e) => (p', Err e)
      | (p', Panic q) => (p', Panic q)
      end
  end.

Lemma process_lines_app p ls ls' :
  process_lines p (ls ++ ls') =
  match process_lines p ls with
  | (p', Ok _) => process_lines p' ls'
  | (p', Err e) => (p', Err e)
  | (p', Panic q) => (p', Panic q)
  end.
Proof.
  revert p; induction ls as [|l ls IH]; intros p; simpl; [done|].
  destruct (process_line (next_line p) l) as [p' [[]|e|q]]; [apply IH|done|done].
Qed.

Lemma push_chars_buffer p l :
  c_nl ∉ l →
  push_chars p l = (MkParser (line_buffer p ++ l) (mode p) (phunks p) (line_number p), Ok ()).
Proof.
  revert p; induction l as [|c l IH]; intros [b m hs n] Hl; simpl; [by rewrite app_nil_r|].
  unfold push_char. rewrite decide_False by set_solver. rewrite IH by set_solver.
  simpl. by rewrite <-app_assoc.
Qed.

Lemma push_chars_line p l rest :
  text_line l → line_buffer p = [] →
  push_chars p (l ++ c_nl :: rest) =
  match process_line (next_line p) l with
  | (p', Ok _) => push_chars p' rest
  | (p', Err e) => (p', Err e)
  | (p', Panic q) => (p', Panic q)
  end.
Proof.
  intros [Hnl Hcr] Hbuf. rewrite push_chars_app, push_chars_buffer by done. simpl.
  unfold push_char. rewrite decide_True by done. simpl.
  rewrite Hbuf. simpl. rewrite strip_cr_id by done. done.
Qed.

Lemma handle_headers_buffer p l :
  line_buffer (handle_hunk_headers_and_end_patch p l).1 = line_buffer p.
Proof.
  unfold handle_hunk_headers_and_end_patch, after_check.
  set (r := ensure_update_hunk_is_not_empty p l).
  case_decide; [by destruct r|].
  destruct (strip_prefix ADD_FILE_MARKER l); [by destruct r|].
  destruct (strip_prefix DELETE_FILE_MARKER l); [by destruct r|].
  destruct (strip_prefix UPDATE_FILE_MARKER l); [by destruct r|done].
Qed.

Lemma process_line_buffer p l : line_buffer (process_line p l).1 = line_buffer p.
Proof.
  unfold process_line.
  pose proof (handle_headers_buffer p (trim l)) as H1.
  pose proof (handle_headers_buffer p (trim_end l)) as H2.
  destruct (handle_hunk_headers_and_end_patch p (trim l)) as [p1 [[]|e1|q1]];
  destruct (handle_hunk_headers_and_end_patch p (trim_end l)) as [p2 [[]|e2|q2]];
  simpl in *; destruct (mode p); try case_decide; try done; repeat case_match; simpl; congruence.
Qed.

Lemma push_chars_lines p ls lst :
  Forall text_line ls → c_nl ∉ lst → line_buffer p = [] →
  push_chars p (join [c_nl] (ls ++ [lst])) =
  match process_lines p ls with
  | (p', Ok _) => (MkParser lst (mode p') (phunks p') (line_number p'), Ok ())
  | (p', Err e) => (p', Err e)
  | (p', Panic q) => (p', Panic q)
  end.
Proof.
  intros Hls Hlst. revert p; induction Hls as [|l ls Hl Hls IH]; intros p Hbuf.
  - simpl. rewrite push_chars_buffer by done. by rewrite Hbuf.
  - cbn [app]. rewrite join_cons by (by destruct ls). cbn [app].
    rewrite push_chars_line by done. cbn [process_lines].
    pose proof (process_line_buffer (next_line p) l) as Hb.
    destruct (process_line (next_line p) l) as [p' [[]|e|q]]; simpl in *; [|done|done].
    by apply IH.
Qed.

(** ** Streaming a printed patch *)

(** What a streamed patch has to satisfy beyond [wf_hunk]: the streaming
    parser trims the end of context and move lines, the batch parser does
    not. *)
Definition streamable_text (s : str) : Prop := s ≠ [] ∧ trim_end s = s.
Definition streamable (h : Hunk) : Prop :=
  match h with
  | UpdateFile _ move_path chunks =>
      from_option streamable_text True move_path ∧
      Forall (λ c, from_option streamable_text True (change_context c)) chunks
  | _ => True
  end.

#[global] Instance streamable_text_dec s : Decision (streamable_text s).
Proof. unfold streamable_text. apply _. Defined.
#[global] Instance streamable_dec h : Decision (streamable h).
Proof. destruct h; simpl; apply _. Defined.

(** The last hunk is complete and the parser is inside of a patch. *)
Definition ready (p : StreamingPatchParser) : Prop :=
  (∀ l, ensure_update_hunk_is_not_empty p l = Ok ()) ∧
  mode p ≠ NotStarted ∧ mode p ≠ EndedPatch.

Lemma trim_end_header m p : p ≠ [] → trim_end p = p → trim_end (m ++ p) = m ++ p.
Proof.
  intros Hp Htrim. unfold trim_end in *.
  rewrite trim_end_matches_app_nonempty; rewrite Htrim; done.
Qed.

Lemma trim_end_cons c l : is_whitespace c = false → trim_end (c :: l) = c :: trim_end l.
Proof. intros Hc. unfold trim_end. simpl. rewrite Hc. by case_match. Qed.

Lemma trim_cons c l : is_whitespace c = false → trim (c :: l) = c :: trim_end l.
Proof.
  intros Hc. unfold trim. rewrite trim_end_cons by done. unfold trim_start. simpl. by rewrite Hc.
Qed.

(** A line that does not start with an asterisk is no header. *)
Lemma handle_headers_other p c l :
  c ≠ c_star → handle_hunk_headers_and_end_patch p (c :: l) = (p, Ok false).
Proof.
  intros Hc. unfold handle_hunk_headers_and_end_patch.
  assert (Hm : ∀ m, head m = Some c_star → strip_prefix m (c :: l) = None).
  { intros [|x m] [= ->]. unfold strip_prefix. by destruct (N.eqb_spec c_star c). }
  rewrite decide_False by (intros [= ? _]; done). by rewrite !Hm.
Qed.

(** A header line is recognised in every mode of a started patch. *)
Lemma process_line_header p l p' :
  ready p → trim l = l → trim_end l = l →
  handle_hunk_headers_and_end_patch p l = (p', Ok true) →
  process_line p l = (p', Ok ()).
Proof.
  intros (_ & H1 & H2) Ht Hte Hh. unfold process_line.
  destruct (mode p); rewrite ?Ht, ?Hte, ?Hh; done.
Qed.

Lemma ready_next_line p : ready p → ready (next_line p).
Proof.
  intros (He & H1 & H2). split; [|done]. intros l. specialize (He l).
  unfold ensure_update_hunk_is_not_empty in *. simpl.
  destruct (last (phunks p)) as [[| |path mv chunks]|]; try done.
  destruct chunks, (mode p); try done; by repeat case_match.
Qed.

Lemma process_printed_header p h m path :
  ready p → header_path path →
  m ∈ [ADD_FILE_MARKER; DELETE_FILE_MARKER; UPDATE_FILE_MARKER] →
  (∀ p, ready p → handle_hunk_headers_and_end_patch p (m ++ path) = (h p, Ok true)) →
  process_line (next_line p) (m ++ path) = (h (next_line p), Ok ()).
Proof.
  intros Hp (_ & Hne & Htrim) Hm Hh. apply process_line_header.
  - by apply ready_next_line.
  - rewrite !elem_of_cons, elem_of_nil in Hm.
    destruct Hm as [->|[->|[->|[]]]]; by (eapply trim_header; [reflexivity|..]).
  - by apply trim_end_header.
  - by apply Hh, ready_next_line.
Qed.

(** The state inside of an update hunk. *)
Definition in_update (k : nat) (acc : list Hunk) (path : str) (mv : option str)
    (cs : list UpdateFileChunk) (n : nat) : StreamingPatchParser :=
  MkParser [] (ModeUpdateFile k) (acc ++ [UpdateFile path mv cs]) n.

Ltac solve_header :=
  intros Hp Hpath; apply process_printed_header; [done|done|set_solver|];
  intros q (He & _); unfold handle_hunk_headers_and_end_patch;
  rewrite decide_False by done; rewrite strip_prefix_app; unfold after_check; by rewrite He.

Lemma stream_add_header p path :
  ready p → header_path path →
  process_line (next_line p) (ADD_FILE_MARKER ++ path) =
  (push_hunk (AddFile path []) ModeAddFile (next_line p), Ok ()).
Proof. solve_header. Qed.

Lemma stream_delete_header p path :
  ready p → header_path path →
  process_line (next_line p) (DELETE_FILE_MARKER ++ path) =
  (push_hunk (DeleteFile path) ModeDeleteFile (next_line p), Ok ()).
Proof. solve_header. Qed.

Lemma stream_update_header p path :
  ready p → header_path path →
  process_line (next_line p) (UPDATE_FILE_MARKER ++ path) =
  (in_update (S (line_number p)) (phunks p) path None [] (S (line_number p)), Ok ()).
Proof.
  intros Hp Hpath. revert Hp Hpath. change (in_update _ _ _ _ _ _) with
    ((λ q, push_hunk (UpdateFile path None []) (ModeUpdateFile (line_number q)) q) (next_line p)).
  solve_header.
Qed.

Lemma stream_add_lines ls acc path c n :
  process_lines (MkParser [] ModeAddFile (acc ++ [AddFile path c]) n) (map (cons c_plus) ls) =
  (MkParser [] ModeAddFile (acc ++ [AddFile path (c ++ concat (map (λ l, l ++ [c_nl]) ls))])
     (n + length ls), Ok ()).
Proof.
  revert c n; induction ls as [|l ls IH]; intros c n; simpl.
  - by rewrite app_nil_r, Nat.add_0_r.
  - unfold process_line at 1. simpl. rewrite trim_cons by done.
    rewrite handle_headers_other by done. simpl.
    rewrite last_snoc, update_last_snoc. unfold set_hunks; simpl. rewrite IH.
    rewrite <-!app_assoc; simpl. do 2 f_equal. lia.
Qed.

Lemma process_update_line k acc path mv cs n l mv' cs' :
  (∀ p, handle_hunk_headers_and_end_patch p (trim_end l) = (p, Ok false)) →
  update_line_step mv cs l = inl (mv', cs') →
  process_line (next_line (in_update k acc path mv cs n)) l =
  (in_update k acc path mv' cs' (S n), Ok ()).
Proof.
  intros Hh Hstep. unfold process_line; simpl. rewrite Hh. simpl. rewrite last_snoc, Hstep.
  by rewrite update_last_snoc.
Qed.

Lemma on_last_chunk_snoc g cs ch : on_last_chunk g (cs ++ [ch]) = cs ++ [g ch].
Proof. unfold on_last_chunk. rewrite <-update_last_snoc. by destruct cs. Qed.

(** A [-] or [+] line goes to the last chunk. *)
Lemma update_line_step_minus mv cs ch l :
  update_line_step mv (cs ++ [ch]) (c_minus :: l) = inl (mv, cs ++ [push_old l ch]).
Proof.
  unfold update_line_step. rewrite trim_end_cons by done.
  change (strip_prefix MOVE_TO_MARKER (c_minus :: trim_end l)) with (@None str).
  change (strip_prefix CHANGE_CONTEXT_MARKER (c_minus :: trim_end l)) with (@None str).
  change (starts_with CHANGE_CONTEXT_MARKER (c_minus :: trim_end l)) with false.
  rewrite bool_decide_eq_false_2, !decide_False by discriminate.
  rewrite decide_True by done. rewrite on_last_chunk_snoc. simpl.
  by destruct (cs ++ [ch]), mv.
Qed.

Lemma update_line_step_plus mv cs ch l :
  update_line_step mv (cs ++ [ch]) (c_plus :: l) = inl (mv, cs ++ [push_new l ch]).
Proof.
  unfold update_line_step. rewrite trim_end_cons by done.
  change (strip_prefix MOVE_TO_MARKER (c_plus :: trim_end l)) with (@None str).
  change (strip_prefix CHANGE_CONTEXT_MARKER (c_plus :: trim_end l)) with (@None str).
  change (starts_with CHANGE_CONTEXT_MARKER (c_plus :: trim_end l)) with false.
  rewrite bool_decide_eq_false_2, !decide_False by discriminate.
  rewrite decide_True by done. rewrite on_last_chunk_snoc. simpl.
  by destruct (cs ++ [ch]), mv.
Qed.

Definition add_old (ls : list str) (c : UpdateFileChunk) : UpdateFileChunk :=
  {| change_context := change_context c; old_lines := old_lines c ++ ls;
     new_lines := new_lines c; is_end_of_file := is_end_of_file c |}.
Definition add_new (ls : list str) (c : UpdateFileChunk) : UpdateFileChunk :=
  {| change_context := change_context c; old_lines := old_lines c;
     new_lines := new_lines c ++ ls; is_end_of_file := is_end_of_file c |}.

Lemma add_old_nil c : add_old [] c = c.
Proof. destruct c; unfold add_old; simpl. by rewrite app_nil_r. Qed.
Lemma add_new_nil c : add_new [] c = c.
Proof. destruct c; unfold add_new; simpl. by rewrite app_nil_r. Qed.
Lemma add_old_push l ls c : add_old ls (push_old l c) = add_old (l :: ls) c.
Proof. unfold add_old; simpl. by rewrite <-app_assoc. Qed.
Lemma add_new_push l ls c : add_new ls (push_new l c) = add_new (l :: ls) c.
Proof. unfold add_new; simpl. by rewrite <-app_assoc. Qed.

(** Lines with a common first character, each of which extends the last chunk. *)
Lemma stream_body_lines (c0 : char) (push1 : str → UpdateFileChunk → UpdateFileChunk)
    (push : list str → UpdateFileChunk → UpdateFileChunk) k acc path mv cs ls ch n :
  c0 ≠ c_star → is_whitespace c0 = false →
  (∀ cs ch l, update_line_step mv (cs ++ [ch]) (c0 :: l) = inl (mv, cs ++ [push1 l ch])) →
  (∀ ch, push [] ch = ch) → (∀ l ls ch, push ls (push1 l ch) = push (l :: ls) ch) →
  process_lines (in_update k acc path mv (cs ++ [ch]) n) (map (cons c0) ls) =
  (in_update k acc path mv (cs ++ [push ls ch]) (n + length ls), Ok ()).
Proof.
  intros Hc Hws Hstep Hnil Hcons. revert ch n; induction ls as [|l ls IH]; intros ch n.
  - simpl. by rewrite Hnil, Nat.add_0_r.
  - cbn [map process_lines]. erewrite process_update_line; [|..|apply Hstep].
    2:{ intros p. rewrite trim_end_cons by done. by apply handle_headers_other. }
    rewrite IH, Hcons. simpl. by rewrite Nat.add_succ_r.
Qed.

Lemma stream_context_line k acc path mv cs ctx n :
  from_option streamable_text True ctx → last_chunk_is_empty cs = false →
  process_line (next_line (in_update k acc path mv cs n))
    (match ctx with None => EMPTY_CHANGE_CONTEXT_MARKER
                  | Some ctx => CHANGE_CONTEXT_MARKER ++ ctx end) =
  (in_update k acc path mv (cs ++ [empty_chunk ctx]) (S n), Ok ()).
Proof.
  intros Hctx Hlast. destruct ctx as [ctx|]; simpl in Hctx.
  - destruct Hctx as [Hne Htrim].
    assert (Hte : trim_end (CHANGE_CONTEXT_MARKER ++ ctx) = CHANGE_CONTEXT_MARKER ++ ctx)
      by (by apply trim_end_header).
    apply process_update_line; [intros p; rewrite Hte; by apply handle_headers_other|].
    unfold update_line_step. rewrite Hte, strip_prefix_app, Hlast, andb_false_r.
    change (strip_prefix MOVE_TO_MARKER (CHANGE_CONTEXT_MARKER ++ ctx)) with (@None str).
    rewrite decide_False by (by destruct ctx). by destruct cs, mv.
  - apply process_update_line; [intros p; by apply handle_headers_other|].
    unfold update_line_step. rewrite Hlast, andb_false_r.
    change (trim_end EMPTY_CHANGE_CONTEXT_MARKER) with EMPTY_CHANGE_CONTEXT_MARKER.
    change (strip_prefix MOVE_TO_MARKER EMPTY_CHANGE_CONTEXT_MARKER) with (@None str).
    rewrite decide_True by done. by destruct cs, mv.
Qed.

Lemma stream_eof_line k acc path mv cs ch n :
  chunk_is_empty ch = false →
  process_line (next_line (in_update k acc path mv (cs ++ [ch]) n)) EOF_MARKER =
  (in_update k acc path mv (cs ++ [set_end_of_file ch]) (S n), Ok ()).
Proof.
  intros Hch. apply process_update_line; [done|]. unfold update_line_step.
  change (trim_end EOF_MARKER) with EOF_MARKER.
  change (strip_prefix MOVE_TO_MARKER EOF_MARKER) with (@None str).
  change (strip_prefix CHANGE_CONTEXT_MARKER EOF_MARKER) with (@None str).
  unfold last_chunk_is_empty. rewrite last_snoc, Hch, andb_false_r, update_last_snoc.
  rewrite decide_False by done. rewrite decide_True by done. by destruct (cs ++ [ch]), mv.
Qed.

Lemma stream_chunk k acc path mv cs c n :
  wf_chunk c → from_option streamable_text True (change_context c) →
  last_chunk_is_empty cs = false →
  process_lines (in_update k acc path mv cs n) (print_chunk c) =
  (in_update k acc path mv (cs ++ [c]) (n + length (print_chunk c)), Ok ()).
Proof.
  intros (_ & _ & _ & Hne) Hctx Hlast. unfold print_chunk. cbn [process_lines].
  rewrite stream_context_line by done. rewrite !process_lines_app.
  rewrite (stream_body_lines c_minus push_old add_old)
    by auto using update_line_step_minus, add_old_nil, add_old_push.
  rewrite process_lines_app.
  rewrite (stream_body_lines c_plus push_new add_new)
    by auto using update_line_step_plus, add_new_nil, add_new_push.
  set (ch := add_new (new_lines c) (add_old (old_lines c) (empty_chunk (change_context c)))).
  assert (Hch : chunk_is_empty ch = false).
  { unfold chunk_is_empty, ch; simpl. apply andb_false_iff.
    destruct (old_lines c); [right|left]; apply bool_decide_eq_false; [|done].
    by destruct (new_lines c). }
  cbn [length]. rewrite !length_app, !length_map.
  destruct c as [ctx o nw [|]]; simpl in *.
  - rewrite stream_eof_line by done. do 3 f_equal. lia.
  - do 3 f_equal. lia.
Qed.

Lemma stream_chunks k acc path mv cs cs' n :
  Forall wf_chunk cs' → Forall (λ c, from_option streamable_text True (change_context c)) cs' →
  last_chunk_is_empty cs = false →
  process_lines (in_update k acc path mv cs n) (concat (map print_chunk cs')) =
  (in_update k acc path mv (cs ++ cs') (n + length (concat (map print_chunk cs'))), Ok ()).
Proof.
  intros Hwf. revert cs n; induction Hwf as [|c cs' Hc Hcs IH]; intros cs n Hst Hlast.
  - simpl. by rewrite app_nil_r, Nat.add_0_r.
  - cbn [map concat]. apply Forall_cons in Hst as [Hs1 Hs2].
    rewrite process_lines_app, stream_chunk, IH; [|done| |done|done|done].
    + rewrite <-app_assoc, length_app. simpl. do 2 f_equal. lia.
    + unfold last_chunk_is_empty. rewrite last_snoc. destruct Hc as (_ & _ & _ & Hne).
      unfold chunk_is_empty. apply andb_false_iff.
      destruct (old_lines c); [right|left]; by apply bool_decide_eq_false.
Qed.

Lemma ready_intro p :
  mode p ≠ NotStarted → mode p ≠ EndedPatch →
  (∀ path mv cs, last (phunks p) = Some (UpdateFile path mv cs) →
     cs ≠ [] ∧ last_chunk_is_empty cs = false) →
  ready p.
Proof.
  intros H1 H2 Hlast. split; [|done]. intros l. unfold ensure_update_hunk_is_not_empty.
  destruct (last (phunks p)) as [[| |path mv cs]|]; try done.
  destruct (Hlast path mv cs eq_refl) as [Hne ->]. destruct cs; [done|]. done.
Qed.

Lemma last_chunk_wf_nonempty cs :
  Forall wf_chunk cs → last_chunk_is_empty cs = false.
Proof.
  intros Hcs. unfold last_chunk_is_empty. destruct (last cs) as [c|] eqn:Hl; [|done].
  apply last_Some in Hl as [cs' ->]. apply Forall_app in Hcs as [_ Hc].
  apply Forall_cons in Hc as [(_ & _ & _ & Hne) _]. unfold chunk_is_empty.
  apply andb_false_iff. destruct (old_lines c); [right|left]; by apply bool_decide_eq_false.
Qed.

Lemma stream_hunk p h :
  wf_hunk h → streamable h → ready p →
  ∃ p', process_lines p (print_hunk h) = (p', Ok ()) ∧ ready p' ∧ phunks p' = phunks p ++ [h].
Proof.
  intros Hwf Hst Hp. destruct h as [path contents|path|path mv chunks]; cbn [print_hunk process_lines].
  - destruct Hwf as (Hpath & Hlast & _). rewrite stream_add_header by done.
    unfold push_hunk; simpl. rewrite stream_add_lines, content_lines_spec by done.
    eexists; split; [done|]. split; [|done]. apply ready_intro; [done|done|].
    simpl. intros ???. by rewrite last_snoc.
  - rewrite stream_delete_header by done.
    eexists; split; [done|]. split; [|done]. apply ready_intro; [done|done|].
    simpl. intros ???. by rewrite last_snoc.
  - destruct Hwf as (Hpath & Hmv & Hne & Hcs). destruct Hst as [Hsmv Hscs].
    rewrite stream_update_header by done.
    rewrite process_lines_app.
    assert (Hmove : ∃ n, process_lines
      (in_update (S (line_number p)) (phunks p) path None [] (S (line_number p)))
      (match mv with Some p => [MOVE_TO_MARKER ++ p] | None => [] end) =
      (in_update (S (line_number p)) (phunks p) path mv [] n, Ok ())).
    { destruct mv as [mv|]; [|by eexists]. destruct Hsmv as [Hmne Hmtrim].
      cbn [process_lines]. eexists. erewrite process_update_line; [done|..].
      - intros q. by rewrite trim_end_header.
      - unfold update_line_step. by rewrite trim_end_header, strip_prefix_app. }
    destruct Hmove as [n ->]. rewrite stream_chunks by done.
    eexists; split; [done|]. split; [|done]. apply ready_intro; [done|done|].
    simpl. intros path' mv' cs'. rewrite last_snoc. intros [= <- <- <-].
    split; [done|]. by apply last_chunk_wf_nonempty.
Qed.

Lemma stream_hunks p hs :
  Forall wf_hunk hs → Forall streamable hs → ready p →
  ∃ p', process_lines p (concat (map print_hunk hs)) = (p', Ok ()) ∧ ready p' ∧
    phunks p' = phunks p ++ hs.
Proof.
  intros Hwf. revert p; induction Hwf as [|h hs Hh Hhs IH]; intros p Hst Hp.
  - exists p. by rewrite app_nil_r.
  - apply Forall_cons in Hst as [Hs1 Hs2]. cbn [map concat]. rewrite process_lines_app.
    destruct (stream_hunk p h Hh Hs1 Hp) as (p1 & -> & Hr1 & Hp1).
    destruct (IH p1 Hs2 Hr1) as (p2 & -> & Hr2 & Hp2). exists p2.
    split; [done|]. split; [done|]. rewrite Hp2, Hp1. by rewrite <-app_assoc.
Qed.

Lemma stream_printed hs :
  Forall wf_hunk hs → Forall streamable hs →
  ∃ p, push_delta default_parser (print_patch hs) = (p, Ok hs) ∧ (finish p).2 = Ok hs.
Proof.
  intros Hwf Hst. unfold push_delta, print_patch, print_patch_lines.
  rewrite app_comm_cons, push_chars_lines; [|by apply print_patch_text_lines|by_compute|done].
  cbn [process_lines].
  change (process_line (next_line default_parser) BEGIN_PATCH_MARKER)
    with (MkParser [] StartedPatch [] 1, @Ok ParseError unit ()). cbv iota beta.
  destruct (stream_hunks (MkParser [] StartedPatch [] 1) hs Hwf Hst) as (p & -> & Hr & Hhs).
  { by apply ready_intro. }
  simpl in Hhs. rewrite Hhs. eexists; split; [reflexivity|].
  unfold finish. cbn [line_buffer mode phunks line_number].
  change END_PATCH_MARKER with (c_star :: tail END_PATCH_MARKER) at 1. cbv iota beta.
  rewrite decide_True by done. change (c_star :: tail END_PATCH_MARKER) with END_PATCH_MARKER.
  destruct (ready_next_line _ Hr) as [He _]. unfold next_line in He. rewrite Hhs in He.
  by rewrite He.
Qed.

(** C36. Streaming agrees with parsing on printed patches.  For the text that
    [print_patch] makes of well-formed hunks whose move paths and context lines
    are not empty and do not end in blanks: however it is cut into deltas,
    pushing them shows exactly the hunks that [parse_patch] reads from the
    complete text, and [finish] confirms them. *)
Theorem streaming_agrees_with_parse hs deltas :
  Forall wf_hunk hs → Forall streamable hs → concat deltas = print_patch hs →
  ∃ p, push_deltas default_parser deltas = (p, Ok hs) ∧ (finish p).2 = Ok hs ∧
       hunks <$> parse_patch (print_patch hs) = Ok hs.
Proof.
  intros Hwf Hst Hd. rewrite push_deltas_concat, Hd.
  destruct (stream_printed hs Hwf Hst) as (p & Hpush & Hfin). exists p.
  split; [done|]. split; [done|]. unfold parse_patch, parse_patch_text.
  cbn [PARSE_IN_STRICT_MODE]. rewrite lines_print_patch by done.
  unfold check_patch_boundaries_lenient. rewrite print_patch_boundaries. cbn [mbind Res_bind].
  rewrite hunks_loop_printed; [done|done|]. pose proof (hunks_le_lines hs). lia.
Qed.

Lemma streaming_agrees_with_parse_witness :
  ∃ p, push_deltas default_parser
         [take 20 (print_patch sample_hunks); drop 20 (print_patch sample_hunks)]
       = (p, Ok sample_hunks) ∧ (finish p).2 = Ok sample_hunks ∧
       hunks <$> parse_patch (print_patch sample_hunks) = Ok sample_hunks.
Proof.
  apply (streaming_agrees_with_parse sample_hunks).
  - by_compute.
  - by_compute.
  - vm_compute. reflexivity.
Defined.

(** ** Invariant of the streaming parser *)

(** The states a parser can get into, errors included: a caller may push
    more text, or finish, after an error. *)
Inductive reachable : StreamingPatchParser → Prop :=
| reach_default : reachable default_parser
| reach_push p ch : reachable p → reachable (push_char p ch).1
| reach_finish p : reachable p → reachable (finish p).1.

(** An update hunk that holds chunks, each with at least one line. *)
Definition complete (h : Hunk) : Prop :=
  match h with
  | UpdateFile _ _ cs => cs ≠ [] ∧ Forall (λ c, chunk_is_empty c = false) cs
  | _ => True
  end.

(** Only the chunk being read may still lack lines. *)
Definition chunks_ok (cs : list UpdateFileChunk) : Prop :=
  ∀ cs' c, cs = cs' ++ [c] → Forall (λ c, chunk_is_empty c = false) cs'.

Definition inv (m : StreamingParserMode) (hs : list Hunk) : Prop :=
  match m with
  | NotStarted | StartedPatch => hs = []
  | ModeAddFile => ∃ hs' path c, hs = hs' ++ [AddFile path c] ∧ Forall complete hs'
  | ModeDeleteFile => ∃ hs' path, hs = hs' ++ [DeleteFile path] ∧ Forall complete hs'
  | ModeUpdateFile _ =>
      ∃ hs' path mv cs, hs = hs' ++ [UpdateFile path mv cs] ∧ Forall complete hs' ∧ chunks_ok cs
  | EndedPatch => Forall complete hs
  end.

Lemma chunks_ok_complete cs :
  chunks_ok cs → last_chunk_is_empty cs = false → Forall (λ c, chunk_is_empty c = false) cs.
Proof.
  intros Hok Hlast. destruct cs as [|c cs _] using rev_ind; [constructor|].
  apply Forall_app; split; [by eapply Hok|]. unfold last_chunk_is_empty in Hlast.
  rewrite last_snoc in Hlast. by repeat constructor.
Qed.

Lemma chunks_ok_snoc cs c :
  chunks_ok cs → last_chunk_is_empty cs = false → chunks_ok (cs ++ [c]).
Proof.
  intros Hok Hlast cs' c' [-> _]%app_inj_tail. by apply chunks_ok_complete.
Qed.

Lemma chunks_ok_on_last f cs : chunks_ok cs → chunks_ok (update_last f cs).
Proof.
  intros Hok. destruct cs as [|c cs _] using rev_ind; [done|]. rewrite update_last_snoc.
  intros cs' c' [-> _]%app_inj_tail. by eapply Hok.
Qed.

Lemma chunks_ok_on_last_chunk f cs : chunks_ok cs → chunks_ok (on_last_chunk f cs).
Proof.
  intros Hok. apply chunks_ok_on_last. destruct cs; [|done].
  intros cs' c Heq. destruct cs' as [|x [|]]; [constructor|done..].
Qed.

Lemma update_line_step_ok mv cs l mv' cs' :
  update_line_step mv cs l = inl (mv', cs') → chunks_ok cs → chunks_ok cs'.
Proof.
  unfold update_line_step. intros H Hok. set (u := trim_end l) in *. clearbody u.
  destruct (match cs with [] => _ | _ :: _ => None end) as [mt|]; [by simplify_eq|].
  destruct (last_chunk_is_empty cs) eqn:Hlast.
  - rewrite andb_true_r in H. case_match eqn:Hctx; [done|].
    apply orb_false_iff in Hctx as [Hu Hs]. apply bool_decide_eq_false in Hu.
    rewrite decide_False in H by done. unfold starts_with in Hs.
    destruct (strip_prefix CHANGE_CONTEXT_MARKER u); [done|].
    repeat first [case_decide|case_match]; simplify_eq; auto using chunks_ok_on_last_chunk.
  - rewrite andb_false_r in H.
    repeat first [case_decide|case_match]; simplify_eq;
      auto using chunks_ok_on_last, chunks_ok_on_last_chunk, chunks_ok_snoc.
Qed.

Lemma ensure_complete p l :
  inv (mode p) (phunks p) → ensure_update_hunk_is_not_empty p l = Ok () →
  Forall complete (phunks p).
Proof.
  unfold ensure_update_hunk_is_not_empty. destruct (mode p) as [| | | |k|]; simpl.
  - by intros ->.
  - by intros ->.
  - intros (hs & path & c & -> & Hhs) _. apply Forall_app; by repeat constructor.
  - intros (hs & path & -> & Hhs) _. apply Forall_app; by repeat constructor.
  - intros (hs & path & mv & cs & -> & Hhs & Hcs). rewrite last_snoc.
    destruct cs as [|c cs]; [done|]. destruct (last_chunk_is_empty (c :: cs)) eqn:Hl.
    { by case_decide. }
    intros _. apply Forall_app; split; [done|]. constructor; [|done].
    split; [done|]. by apply chunks_ok_complete.
  - done.
Qed.

Lemma handle_headers_inv p l :
  inv (mode p) (phunks p) →
  let p' := (handle_hunk_headers_and_end_patch p l).1 in inv (mode p') (phunks p').
Proof.
  intros Hinv. unfold handle_hunk_headers_and_end_patch, after_check.
  pose proof (ensure_complete p l Hinv) as Hc.
  revert Hc. generalize (ensure_update_hunk_is_not_empty p l) as r. intros r Hc.
  case_decide; [destruct r as [[]|?|?]; simpl; auto|].
  destruct (strip_prefix ADD_FILE_MARKER l).
  { destruct r as [[]|?|?]; simpl; [|done|done]. do 3 eexists. split; [done|]. auto. }
  destruct (strip_prefix DELETE_FILE_MARKER l).
  { destruct r as [[]|?|?]; simpl; [|done|done]. do 2 eexists. split; [done|]. auto. }
  destruct (strip_prefix UPDATE_FILE_MARKER l); [|done].
  destruct r as [[]|?|?]; simpl; [|done|done]. do 4 eexists. split; [done|].
  split; [auto|]. intros cs' c Heq. by destruct cs'.
Qed.

Lemma handle_headers_false p l p' :
  handle_hunk_headers_and_end_patch p l = (p', Ok false) → p' = p.
Proof.
  unfold handle_hunk_headers_and_end_patch, after_check.
  generalize (ensure_update_hunk_is_not_empty p l) as r. intros r.
  case_decide; [destruct r as [[]|?|?]; congruence|].
  destruct (strip_prefix ADD_FILE_MARKER l); [destruct r as [[]|?|?]; congruence|].
  destruct (strip_prefix DELETE_FILE_MARKER l); [destruct r as [[]|?|?]; congruence|].
  destruct (strip_prefix UPDATE_FILE_MARKER l); [destruct r as [[]|?|?]; congruence|].
  by intros [= ->].
Qed.

(** What one line can do to the hunks. *)
Inductive line_effect (m : StreamingParserMode) (hs : list Hunk)
    : StreamingParserMode → list Hunk → Prop :=
| effect_headers p l :
    mode p = m → phunks p = hs →
    line_effect m hs (mode (handle_hunk_headers_and_end_patch p l).1)
                     (phunks (handle_hunk_headers_and_end_patch p l).1)
| effect_started : m = NotStarted → line_effect m hs StartedPatch hs
| effect_none : line_effect m hs m hs
| effect_add hs' path c c' :
    m = ModeAddFile → hs = hs' ++ [AddFile path c] →
    line_effect m hs m (hs' ++ [AddFile path c'])
| effect_update k hs' path mv cs mv' cs' l :
    m = ModeUpdateFile k → hs = hs' ++ [UpdateFile path mv cs] →
    update_line_step mv cs l = inl (mv', cs') →
    line_effect m hs m (hs' ++ [UpdateFile path mv' cs']).

Lemma process_line_effect p l :
  let p' := (process_line p l).1 in line_effect (mode p) (phunks p) (mode p') (phunks p').
Proof.
  assert (Hheaders : ∀ t k,
    (∀ p', p' = p → line_effect (mode p) (phunks p) (mode (k p').1) (phunks (k p').1)) →
    let p' := (match handle_hunk_headers_and_end_patch p t with
               | (p', Ok true) => (p', Ok ())
               | (p', Ok false) => k p'
               | (p', Err e) => (p', Err e)
               | (p', Panic q) => (p', Panic (E:=ParseError) q)
               end).1 in line_effect (mode p) (phunks p) (mode p') (phunks p')).
  { intros t k Hk. pose proof (effect_headers (mode p) (phunks p) p t eq_refl eq_refl) as Heff.
    destruct (handle_hunk_headers_and_end_patch p t) as [p' [[]|e|q]] eqn:Hh; try done.
    apply Hk. by eapply handle_headers_false. }
  unfold process_line. cbv zeta.
  destruct (mode p) as [| | | |k|] eqn:Hm; try (apply Hheaders; intros p' ->).
  - case_decide; simpl; [by apply effect_started|]. rewrite Hm. apply effect_none.
  - simpl. rewrite Hm. apply effect_none.
  - destruct (strip_prefix _ l) as [a|]; [|simpl; rewrite Hm; apply effect_none].
    destruct (last (phunks p)) as [[path c| |]|] eqn:Hl; simpl; rewrite ?Hm; try apply effect_none.
    apply last_Some in Hl as [hs' ->]. rewrite update_last_snoc.
    eapply effect_add; [done|reflexivity].
  - simpl. rewrite Hm. apply effect_none.
  - destruct (last (phunks p)) as [[| |path mv cs]|] eqn:Hl; simpl; rewrite ?Hm; try apply effect_none.
    destruct (update_line_step mv cs l) as [[mv' cs']|msg] eqn:Hu; simpl; rewrite ?Hm;
      [|apply effect_none].
    apply last_Some in Hl as [hs' ->]. rewrite update_last_snoc.
    eapply effect_update; [done|reflexivity|exact Hu].
  - simpl. rewrite Hm. apply effect_none.
Qed.

Lemma line_effect_inv m hs m' hs' : line_effect m hs m' hs' → inv m hs → inv m' hs'.
Proof.
  intros Heff Hinv. destruct Heff as [p l <- <- | -> | |hs1 path c c' -> ->|k hs1 path mv cs mv' cs' l -> -> Hu];
    simpl in *.
  - by apply handle_headers_inv.
  - done.
  - done.
  - destruct Hinv as (hs2 & path2 & c2 & [-> _]%app_inj_tail & Hc). by do 3 eexists.
  - destruct Hinv as (hs2 & path2 & mv2 & cs2 & [-> [= -> -> ->]]%app_inj_tail & Hc & Hcs).
    do 4 eexists. split; [done|]. split; [done|]. by eapply update_line_step_ok.
Qed.

Lemma process_line_inv p l :
  inv (mode p) (phunks p) →
  let p' := (process_line p l).1 in inv (mode p') (phunks p').
Proof. apply line_effect_inv, process_line_effect. Qed.

Lemma push_char_inv p ch :
  inv (mode p) (phunks p) →
  let p' := (push_char p ch).1 in inv (mode p') (phunks p').
Proof.
  intros Hinv. unfold push_char. case_decide; [|done].
  by apply (process_line_inv (MkParser [] (mode p) (phunks p) (S (line_number p)))).
Qed.

Lemma finish_inv p :
  inv (mode p) (phunks p) →
  let p' := (finish p).1 in inv (mode p') (phunks p').
Proof.
  intros Hinv. unfold finish. destruct (line_buffer p) as [|c b]; [done|].
  set (p1 := MkParser [] (mode p) (phunks p) (S (line_number p))).
  assert (Hinv1 : inv (mode p1) (phunks p1)) by done.
  case_decide; [|pose proof (process_line_inv p1 (c :: b) Hinv1);
    by destruct (process_line p1 (c :: b)) as [p2 r]].
  pose proof (ensure_complete p1 (trim (c :: b)) Hinv1) as He.
  destruct (ensure_update_hunk_is_not_empty p1 (trim (c :: b))) as [[]|e|q]; cbn; [by apply He|done|done].
Qed.

Lemma reachable_inv p : reachable p → inv (mode p) (phunks p).
Proof. induction 1; [done|by apply push_char_inv|by apply finish_inv]. Qed.

(** Every update hunk that a finished stream reports is applicable: it
    has at least one chunk, and each of its chunks has at least one line.
    This holds from every state that the parser can be brought into, also
    after errors. *)
Theorem finish_hunks_complete p hs :
  reachable p → (finish p).2 = Ok hs → Forall complete hs.
Proof.
  intros Hr Hfin. assert (Hinv := reachable_inv _ (reach_finish _ Hr)).
  unfold finish in *. destruct (match line_buffer p with [] => _ | _ => _ end) as [p' r].
  simpl in *. destruct r as [[]|e|q]; simpl in Hfin; [|done|done].
  destruct (mode p') eqn:Hm; try done. by injection Hfin as <-.
Qed.

Lemma reachable_push_chars p d : reachable p → reachable (push_chars p d).1.
Proof.
  revert p; induction d as [|c d IH]; intros p Hp; [done|]. simpl.
  pose proof (reach_push p c Hp). destruct (push_char p c) as [p' [[]|e|q]]; [by apply IH|done|done].
Qed.

Lemma finish_hunks_complete_witness :
  Forall complete sample_hunks.
Proof.
  apply (finish_hunks_complete (push_chars default_parser (print_patch sample_hunks)).1).
  - apply reachable_push_chars. constructor.
  - vm_compute. reflexivity.
Defined.

(** ** Hunks that are done do not change *)

Lemma vec_pop_prefix {A} (l k : list A) : vec_pop l `prefix_of` l ++ k.
Proof. unfold vec_pop. exists (drop (length l - 1) l ++ k). by rewrite app_assoc, take_drop. Qed.

Lemma line_effect_stable m hs m' hs' :
  line_effect m hs m' hs' → vec_pop hs `prefix_of` hs' ∧ length hs ≤ length hs'.
Proof.
  intros Heff. destruct Heff as [p l <- <- | -> | |hs1 path c c' -> ->|k hs1 path mv cs mv' cs' l -> -> Hu].
  - assert (H : ∃ k, phunks (handle_hunk_headers_and_end_patch p l).1 = phunks p ++ k).
    { unfold handle_hunk_headers_and_end_patch, after_check.
      generalize (ensure_update_hunk_is_not_empty p l) as r. intros r.
      case_decide; [exists []; rewrite app_nil_r; by destruct r|].
      destruct (strip_prefix ADD_FILE_MARKER l);
        [destruct r; simpl; eauto; exists []; by rewrite app_nil_r|].
      destruct (strip_prefix DELETE_FILE_MARKER l);
        [destruct r; simpl; eauto; exists []; by rewrite app_nil_r|].
      destruct (strip_prefix UPDATE_FILE_MARKER l);
        [destruct r; simpl; eauto; exists []; by rewrite app_nil_r|].
      exists []. by rewrite app_nil_r. }
    destruct H as [k ->]. split; [apply vec_pop_prefix|rewrite length_app; lia].
  - split; [|done]. rewrite <-(app_nil_r hs) at 2. apply vec_pop_prefix.
  - split; [|done]. rewrite <-(app_nil_r hs) at 2. apply vec_pop_prefix.
  - rewrite vec_pop_snoc, !length_app. split; [by eexists|done].
  - rewrite vec_pop_snoc, !length_app. split; [by eexists|done].
Qed.

Lemma stable_trans {A} (l1 l2 l3 : list A) :
  vec_pop l1 `prefix_of` l2 ∧ length l1 ≤ length l2 →
  vec_pop l2 `prefix_of` l3 ∧ length l2 ≤ length l3 →
  vec_pop l1 `prefix_of` l3 ∧ length l1 ≤ length l3.
Proof.
  intros [H1 L1] [H2 L2]. split; [|lia].
  assert (H : vec_pop l1 `prefix_of` vec_pop l2).
  { unfold vec_pop in *. destruct H1 as [k Hk].
    exists (take (length l2 - 1 - (length l1 - 1)) k).
    assert (Hl : length (take (length l1 - 1) l1) = length l1 - 1)
      by (rewrite length_take; lia).
    rewrite Hk at 2. rewrite take_app, Hl.
    rewrite (take_ge (take (length l1 - 1) l1)) by lia. done. }
  by etrans.
Qed.

(** While a patch streams in, hunks that are followed by another one are
    final: pushing more text keeps all hunks but the last one as they are, and
    never removes a hunk. *)
Theorem push_delta_stable p d :
  let p' := (push_delta p d).1 in
  vec_pop (phunks p) `prefix_of` phunks p' ∧ length (phunks p) ≤ length (phunks p').
Proof.
  unfold push_delta. revert p; induction d as [|ch d IH]; intros p; simpl.
  { split; [|done]. rewrite <-(app_nil_r (phunks p)) at 2. apply vec_pop_prefix. }
  assert (Hch : vec_pop (phunks p) `prefix_of` phunks (push_char p ch).1 ∧
                length (phunks p) ≤ length (phunks (push_char p ch).1)).
  { unfold push_char. case_decide; simpl.
    - apply line_effect_stable with (mode p)
        (mode (process_line (MkParser [] (mode p) (phunks p) (S (line_number p)))
          (strip_cr (line_buffer p))).1).
      apply (process_line_effect (MkParser [] (mode p) (phunks p) (S (line_number p)))).
    - split; [|done]. rewrite <-(app_nil_r (phunks p)) at 2. apply vec_pop_prefix. }
  destruct (push_char p ch) as [p1 [[]|e|q]]; simpl in *; [|done|done].
  specialize (IH p1). destruct (push_chars p1 d) as [p2 r]. simpl in *.
  by eapply stable_trans.
Qed.

(** The two parsers disagree on a text that consists of the end marker
    alone: [finish] accepts it as a patch with no hunks, without any
    [*** Begin Patch], where [parse_patch] reports the missing first line. *)
Theorem finish_accepts_missing_begin :
  (finish (push_delta default_parser END_PATCH_MARKER).1).2 = Ok [] ∧
  parse_patch END_PATCH_MARKER =
    Err (InvalidPatchError (lit "The first line of the patch must be '*** Begin Patch'")).
Proof. split; vm_compute; reflexivity. Qed.
