(* ===== verification/Utf8.v ===== *)
(** * UTF-8

    The encoding of Rust strings as bytes ([String::into_bytes]) and its
    validation ([std::str::from_utf8]), which reports where and how decoding
    failed.  Bytes are numbers below 256. *)
From S2P Require Import Prelude RustStr.
From Stdlib Require Import Lia Zify.
Local Open Scope N_scope.

Abbreviation byte := N (only parsing).

(** A Unicode scalar value, the range of Rust's [char]. *)
Definition is_scalar (c : char) : Prop := c < 0xD800 ∨ 0xE000 <= c < 0x110000.
#[global] Instance is_scalar_dec c : Decision (is_scalar c).
Proof. unfold is_scalar. apply _. Defined.

Definition encode_char (c : char) : list byte :=
  if c <? 128 then [c]
  else if c <? 2048 then [192 + c / 64; 128 + c mod 64]
  else if c <? 65536 then [224 + c / 4096; 128 + (c / 64) mod 64; 128 + c mod 64]
  else [240 + c / 262144; 128 + (c / 4096) mod 64; 128 + (c / 64) mod 64; 128 + c mod 64].

Definition encode (s : str) : list byte := concat (map encode_char s).

(** [Utf8Error]: the length of the valid prefix, and the length of the
    invalid sequence, [None] when the input ends inside of a character. *)
Inductive utf8_result : Type :=
| Utf8Ok (text : str)
| Utf8Err (valid_up_to : nat) (error_len : option nat).

Definition push_decoded (width : nat) (c : char) (r : utf8_result) : utf8_result :=
  match r with
  | Utf8Ok s => Utf8Ok (c :: s)
  | Utf8Err n e => Utf8Err (width + n)%nat e
  end.

Definition in_range (lo hi b : N) : bool := (lo <=? b) && (b <=? hi).
Definition is_cont (b : byte) : bool := in_range 0x80 0xBF b.

(** The second byte of a three- and of a four-byte sequence. *)
Definition second_of_3 (b0 b1 : byte) : bool :=
  if b0 =? 0xE0 then in_range 0xA0 0xBF b1
  else if b0 =? 0xED then in_range 0x80 0x9F b1
  else is_cont b1.
Definition second_of_4 (b0 b1 : byte) : bool :=
  if b0 =? 0xF0 then in_range 0x90 0xBF b1
  else if b0 =? 0xF4 then in_range 0x80 0x8F b1
  else is_cont b1.

Fixpoint from_utf8 (bs : list byte) : utf8_result :=
  match bs with
  | [] => Utf8Ok []
  | b0 :: r0 =>
      if b0 <? 128 then push_decoded 1 b0 (from_utf8 r0)
      else if in_range 0xC2 0xDF b0 then
        match r0 with
        | [] => Utf8Err 0 None
        | b1 :: r1 =>
            if is_cont b1
            then push_decoded 2 ((b0 - 192) * 64 + (b1 - 128)) (from_utf8 r1)
            else Utf8Err 0 (Some 1%nat)
        end
      else if in_range 0xE0 0xEF b0 then
        match r0 with
        | [] => Utf8Err 0 None
        | b1 :: r1 =>
            if second_of_3 b0 b1 then
              match r1 with
              | [] => Utf8Err 0 None
              | b2 :: r2 =>
                  if is_cont b2
                  then push_decoded 3 ((b0 - 224) * 4096 + (b1 - 128) * 64 + (b2 - 128))
                         (from_utf8 r2)
                  else Utf8Err 0 (Some 2%nat)
              end
            else Utf8Err 0 (Some 1%nat)
        end
      else if in_range 0xF0 0xF4 b0 then
        match r0 with
        | [] => Utf8Err 0 None
        | b1 :: r1 =>
            if second_of_4 b0 b1 then
              match r1 with
              | [] => Utf8Err 0 None
              | b2 :: r2 =>
                  if is_cont b2 then
                    match r2 with
                    | [] => Utf8Err 0 None
                    | b3 :: r3 =>
                        if is_cont b3
                        then push_decoded 4 ((b0 - 240) * 262144 + (b1 - 128) * 4096
                                             + (b2 - 128) * 64 + (b3 - 128)) (from_utf8 r3)
                        else Utf8Err 0 (Some 3%nat)
                    end
                  else Utf8Err 0 (Some 2%nat)
              end
            else Utf8Err 0 (Some 1%nat)
        end
      else Utf8Err 0 (Some 1%nat)
  end.

(** ** Round trips *)

Ltac bools :=
  unfold second_of_3, second_of_4, is_cont, in_range, is_scalar in *;
  repeat match goal with
  | H : _ && _ = true |- _ => apply andb_true_iff in H as [? ?]
  | H : (_ <=? _) = true |- _ => apply N.leb_le in H
  | H : (_ <? _) = true |- _ => apply N.ltb_lt in H
  | H : (_ <? _) = false |- _ => apply N.ltb_ge in H
  | H : (_ =? _) = true |- _ => apply N.eqb_eq in H
  | H : (_ =? _) = false |- _ => apply N.eqb_neq in H
  end.

Ltac div_mod_lia :=
  zify; Z.to_euclidean_division_equations; lia.

Lemma in_range_true lo hi b : lo <= b → b <= hi → in_range lo hi b = true.
Proof. intros. unfold in_range. apply andb_true_iff. split; by apply N.leb_le. Qed.
Lemma in_range_false lo hi b : b < lo ∨ hi < b → in_range lo hi b = false.
Proof.
  intros. unfold in_range. apply not_true_iff_false. rewrite andb_true_iff, !N.leb_le. lia.
Qed.

Lemma from_utf8_encode_char c bs :
  is_scalar c →
  from_utf8 (encode_char c ++ bs) = push_decoded (length (encode_char c)) c (from_utf8 bs).
Proof.
  intros Hc. unfold is_scalar in Hc. unfold encode_char.
  destruct (N.ltb_spec c 128) as [H1|H1]; [|destruct (N.ltb_spec c 2048) as [H2|H2];
    [|destruct (N.ltb_spec c 65536) as [H3|H3]]]; cbn [app from_utf8 length].
  - by rewrite (proj2 (N.ltb_lt _ _) H1).
  - replace (192 + c / 64 <? 128) with false by (symmetry; apply N.ltb_ge; div_mod_lia).
    rewrite in_range_true by div_mod_lia. unfold is_cont. rewrite in_range_true by div_mod_lia.
    f_equal. div_mod_lia.
  - replace (224 + c / 4096 <? 128) with false by (symmetry; apply N.ltb_ge; div_mod_lia).
    rewrite in_range_false by div_mod_lia. rewrite in_range_true by div_mod_lia.
    assert (Hs : second_of_3 (224 + c / 4096) (128 + (c / 64) mod 64) = true).
    { unfold second_of_3, is_cont. repeat case_match; bools; apply in_range_true; div_mod_lia. }
    rewrite Hs. unfold is_cont. rewrite in_range_true by div_mod_lia. f_equal. div_mod_lia.
  - replace (240 + c / 262144 <? 128) with false by (symmetry; apply N.ltb_ge; div_mod_lia).
    rewrite in_range_false by div_mod_lia. rewrite in_range_false by div_mod_lia.
    rewrite in_range_true by div_mod_lia.
    assert (Hs : second_of_4 (240 + c / 262144) (128 + (c / 4096) mod 64) = true).
    { unfold second_of_4, is_cont. repeat case_match; bools; apply in_range_true; div_mod_lia. }
    rewrite Hs. unfold is_cont. rewrite !in_range_true by div_mod_lia. f_equal. div_mod_lia.
Qed.

Lemma from_utf8_encode_app s bs :
  Forall is_scalar s →
  from_utf8 (encode s ++ bs) =
  match from_utf8 bs with
  | Utf8Ok t => Utf8Ok (s ++ t)
  | Utf8Err n e => Utf8Err (length (encode s) + n)%nat e
  end.
Proof.
  unfold encode. induction 1 as [|c s Hc Hs IH]; [simpl; by destruct (from_utf8 bs)|].
  cbn [map concat]. rewrite <-app_assoc, from_utf8_encode_char, IH, length_app by done.
  destruct (from_utf8 bs); simpl; f_equal. lia.
Qed.

Lemma from_utf8_encode s : Forall is_scalar s → from_utf8 (encode s) = Utf8Ok s.
Proof.
  intros Hs. rewrite <-(app_nil_r (encode s)), from_utf8_encode_app by done.
  simpl. by rewrite app_nil_r.
Qed.

(** ** Decoding only accepts encodings *)

Lemma in_range_spec lo hi b : in_range lo hi b = true ↔ lo <= b <= hi.
Proof. unfold in_range. by rewrite andb_true_iff, !N.leb_le. Qed.

Lemma encode_char_2 b0 b1 :
  in_range 0xC2 0xDF b0 = true → is_cont b1 = true →
  encode_char ((b0 - 192) * 64 + (b1 - 128)) = [b0; b1] ∧
  is_scalar ((b0 - 192) * 64 + (b1 - 128)).
Proof.
  intros H0%in_range_spec H1%in_range_spec.
  set (c := (b0 - 192) * 64 + (b1 - 128)).
  assert (Hc : c = (b0 - 192) * 64 + (b1 - 128)) by done. clearbody c.
  split; [|unfold is_scalar; lia]. unfold encode_char.
  replace (c <? 128) with false by (symmetry; apply N.ltb_ge; lia).
  replace (c <? 2048) with true by (symmetry; apply N.ltb_lt; lia).
  repeat f_equal; div_mod_lia.
Qed.

Lemma encode_char_3 b0 b1 b2 :
  in_range 0xE0 0xEF b0 = true → second_of_3 b0 b1 = true → is_cont b2 = true →
  encode_char ((b0 - 224) * 4096 + (b1 - 128) * 64 + (b2 - 128)) = [b0; b1; b2] ∧
  is_scalar ((b0 - 224) * 4096 + (b1 - 128) * 64 + (b2 - 128)).
Proof.
  intros H0%in_range_spec H1 H2%in_range_spec.
  assert (Hb1 : 0x80 <= b1 <= 0xBF ∧ (b0 = 0xE0 → 0xA0 <= b1) ∧ (b0 = 0xED → b1 <= 0x9F)).
  { unfold second_of_3, is_cont in H1. destruct (N.eqb_spec b0 0xE0);
      [|destruct (N.eqb_spec b0 0xED)]; apply in_range_spec in H1; lia. }
  set (c := (b0 - 224) * 4096 + (b1 - 128) * 64 + (b2 - 128)).
  assert (Hc : c = (b0 - 224) * 4096 + (b1 - 128) * 64 + (b2 - 128)) by done. clearbody c.
  split; [|unfold is_scalar; lia]. unfold encode_char.
  replace (c <? 128) with false by (symmetry; apply N.ltb_ge; lia).
  replace (c <? 2048) with false by (symmetry; apply N.ltb_ge; lia).
  replace (c <? 65536) with true by (symmetry; apply N.ltb_lt; lia).
  repeat f_equal; div_mod_lia.
Qed.

Lemma encode_char_4 b0 b1 b2 b3 :
  in_range 0xF0 0xF4 b0 = true → second_of_4 b0 b1 = true →
  is_cont b2 = true → is_cont b3 = true →
  encode_char ((b0 - 240) * 262144 + (b1 - 128) * 4096 + (b2 - 128) * 64 + (b3 - 128))
    = [b0; b1; b2; b3] ∧
  is_scalar ((b0 - 240) * 262144 + (b1 - 128) * 4096 + (b2 - 128) * 64 + (b3 - 128)).
Proof.
  intros H0%in_range_spec H1 H2%in_range_spec H3%in_range_spec.
  assert (Hb1 : 0x80 <= b1 <= 0xBF ∧ (b0 = 0xF0 → 0x90 <= b1) ∧ (b0 = 0xF4 → b1 <= 0x8F)).
  { unfold second_of_4, is_cont in H1. destruct (N.eqb_spec b0 0xF0);
      [|destruct (N.eqb_spec b0 0xF4)]; apply in_range_spec in H1; lia. }
  set (c := (b0 - 240) * 262144 + (b1 - 128) * 4096 + (b2 - 128) * 64 + (b3 - 128)).
  assert (Hc : c = (b0 - 240) * 262144 + (b1 - 128) * 4096 + (b2 - 128) * 64 + (b3 - 128))
    by done. clearbody c.
  split; [|unfold is_scalar; lia]. unfold encode_char.
  replace (c <? 128) with false by (symmetry; apply N.ltb_ge; lia).
  replace (c <? 2048) with false by (symmetry; apply N.ltb_ge; lia).
  replace (c <? 65536) with false by (symmetry; apply N.ltb_ge; lia).
  repeat f_equal; div_mod_lia.
Qed.

(** What a result of [from_utf8] says about its input. *)
Definition utf8_sound (bs : list byte) (r : utf8_result) : Prop :=
  match r with
  | Utf8Ok s => encode s = bs ∧ Forall is_scalar s
  | Utf8Err n e =>
      ∃ s rest, bs = encode s ++ rest ∧ length (encode s) = n ∧ Forall is_scalar s ∧
        rest ≠ [] ∧ (e = None → (length rest ≤ 3)%nat)
  end.

Lemma utf8_sound_push c bs ebs r :
  encode_char c = ebs → is_scalar c → utf8_sound bs r →
  utf8_sound (ebs ++ bs) (push_decoded (length ebs) c r).
Proof.
  intros He Hc Hr. destruct r as [s|n e]; simpl in *.
  - destruct Hr as [Hs Hall]. unfold encode in *. simpl. rewrite He, Hs. split; [done|by constructor].
  - destruct Hr as (s & rest & -> & <- & Hall & Hne & Hlen).
    exists (c :: s), rest. unfold encode in *. simpl. rewrite He, <-app_assoc, length_app.
    split_and!; [done|done|by constructor|done|done].
Qed.

Lemma utf8_sound_err bs e :
  bs ≠ [] → (e = None → (length bs ≤ 3)%nat) → utf8_sound bs (Utf8Err 0 e).
Proof. intros. by exists [], bs. Qed.

Lemma from_utf8_sound bs : utf8_sound bs (from_utf8 bs).
Proof.
  remember (length bs) as n eqn:Hn. revert bs Hn.
  induction n as [n IH] using (well_founded_induction lt_wf). intros bs ->.
  destruct bs as [|b0 r0]; [by simpl|].
  assert (IH' : ∀ r, (length r < length (b0 :: r0))%nat → utf8_sound r (from_utf8 r)) by eauto.
  clear IH. cbn [from_utf8].
  destruct (b0 <? 128) eqn:H128.
  { apply (utf8_sound_push b0 r0 [b0]); [|bools; lia|apply IH'; simpl; lia].
    unfold encode_char. by rewrite H128. }
  destruct (in_range 0xC2 0xDF b0) eqn:HC.
  { destruct r0 as [|b1 r1]; [by apply utf8_sound_err; simpl; [|lia]|].
    destruct (is_cont b1) eqn:H1; [|by apply utf8_sound_err].
    destruct (encode_char_2 b0 b1 HC H1).
    apply (utf8_sound_push _ r1 [b0; b1]); [done|done|apply IH'; simpl; lia]. }
  destruct (in_range 0xE0 0xEF b0) eqn:HE.
  { destruct r0 as [|b1 r1]; [by apply utf8_sound_err; simpl; [|lia]|].
    destruct (second_of_3 b0 b1) eqn:H1; [|by apply utf8_sound_err].
    destruct r1 as [|b2 r2]; [by apply utf8_sound_err; simpl; [|lia]|].
    destruct (is_cont b2) eqn:H2; [|by apply utf8_sound_err].
    destruct (encode_char_3 b0 b1 b2 HE H1 H2).
    apply (utf8_sound_push _ r2 [b0; b1; b2]); [done|done|apply IH'; simpl; lia]. }
  destruct (in_range 0xF0 0xF4 b0) eqn:HF; [|by apply utf8_sound_err].
  destruct r0 as [|b1 r1]; [by apply utf8_sound_err; simpl; [|lia]|].
  destruct (second_of_4 b0 b1) eqn:H1; [|by apply utf8_sound_err].
  destruct r1 as [|b2 r2]; [by apply utf8_sound_err; simpl; [|lia]|].
  destruct (is_cont b2) eqn:H2; [|by apply utf8_sound_err].
  destruct r2 as [|b3 r3]; [by apply utf8_sound_err; simpl; [|lia]|].
  destruct (is_cont b3) eqn:H3; [|by apply utf8_sound_err].
  destruct (encode_char_4 b0 b1 b2 b3 HF H1 H2 H3).
  apply (utf8_sound_push _ r3 [b0; b1; b2; b3]); [done|done|apply IH'; simpl; lia].
Qed.

Lemma push_decoded_err w c r n k :
  push_decoded w c r = Utf8Err n (Some k) →
  ∃ n', r = Utf8Err n' (Some k) ∧ n = (w + n')%nat.
Proof. destruct r; simpl; [done|]. intros [= <- ->]. eauto. Qed.

(** A sequence that is invalid, not just incomplete, stays invalid whatever
    follows. *)
Lemma from_utf8_err_app bs t n k :
  from_utf8 bs = Utf8Err n (Some k) → from_utf8 (bs ++ t) = Utf8Err n (Some k).
Proof.
  remember (length bs) as m eqn:Hm. revert bs n Hm.
  induction m as [m IH] using (well_founded_induction lt_wf). intros bs n ->.
  destruct bs as [|b0 r0]; [done|].
  assert (IH' : ∀ r w c n', (length r < length (b0 :: r0))%nat →
    push_decoded w c (from_utf8 r) = Utf8Err n' (Some k) →
    push_decoded w c (from_utf8 (r ++ t)) = Utf8Err n' (Some k)).
  { intros r w c n' Hlt (n'' & Hr & ->)%push_decoded_err. by rewrite (IH _ Hlt r n'' eq_refl Hr). }
  clear IH. cbn [from_utf8 app].
  destruct (b0 <? 128); [apply IH'; simpl; lia|].
  destruct (in_range 0xC2 0xDF b0).
  { destruct r0 as [|b1 r1]; [done|]. cbn [app].
    destruct (is_cont b1); [apply IH'; simpl; lia|done]. }
  destruct (in_range 0xE0 0xEF b0).
  { destruct r0 as [|b1 r1]; [done|]. cbn [app]. destruct (second_of_3 b0 b1); [|done].
    destruct r1 as [|b2 r2]; [done|]. cbn [app].
    destruct (is_cont b2); [apply IH'; simpl; lia|done]. }
  destruct (in_range 0xF0 0xF4 b0); [|done].
  destruct r0 as [|b1 r1]; [done|]. cbn [app]. destruct (second_of_4 b0 b1); [|done].
  destruct r1 as [|b2 r2]; [done|]. cbn [app]. destruct (is_cont b2); [|done].
  destruct r2 as [|b3 r3]; [done|]. cbn [app]. destruct (is_cont b3); [apply IH'; simpl; lia|done].
Qed.

Lemma encode_nil s : encode s = [] → s = [].
Proof.
  destruct s as [|c s]; [done|]. unfold encode, encode_char. simpl. by repeat case_match.
Qed.

(** Cutting an encoded text after the encoding of some text. *)
Lemma encode_split s rest text :
  Forall is_scalar s → Forall is_scalar text → encode text = encode s ++ rest →
  ∃ t, text = s ++ t ∧ rest = encode t ∧ Forall is_scalar t.
Proof.
  intros Hs Htext Heq. assert (H := from_utf8_encode text Htext).
  rewrite Heq, from_utf8_encode_app in H by done. assert (Hr := from_utf8_sound rest).
  destruct (from_utf8 rest) as [t|]; [|done]. injection H as <-. destruct Hr as [<- Ht]. eauto.
Qed.
