(* ===== verification/AbsolutePath.v ===== *)
(** * Absolute paths: [utils/absolute-path/src/{absolutize,lib}.rs]

    Paths are strings, on Unix.  The first part defines what [std::path] does
    on them ([components], [push], [parent], [file_name]); the second part is
    the lexical normalisation of the crate, with the home directory and the
    current directory of the process as parameters. *)
From S2P Require Import Prelude RustStr.

(** ** [std::path] *)

Inductive Component : Type :=
| RootDir
| CurDir
| ParentDir
| Normal (name : str).
#[global] Instance Component_eq_dec : EqDecision Component.
Proof. solve_decision. Defined.

Definition is_absolute (p : str) : bool := starts_with [c_slash] p.

Definition dot : str := [c_dot].
Definition dotdot : str := [c_dot; c_dot].

Definition body_component (piece : str) : option Component :=
  if decide (piece = [] ∨ piece = dot) then None
  else if decide (piece = dotdot) then Some ParentDir
  else Some (Normal piece).

(** [path.components()]: empty and [.] pieces are skipped, a leading [.] of a
    relative path is kept. *)
Definition components (p : str) : list Component :=
  let pieces := split_on c_slash p in
  (if is_absolute p then [RootDir]
   else if decide (head pieces = Some dot) then [CurDir] else [])
  ++ omap body_component pieces.

Definition as_os_str (c : Component) : str :=
  match c with
  | RootDir => [c_slash]
  | CurDir => dot
  | ParentDir => dotdot
  | Normal name => name
  end.

(** [path.push(other)] *)
Definition path_push (p other : str) : str :=
  if is_absolute other then other
  else match last p with
       | None => other
       | Some c => if decide (c = c_slash) then p ++ other else p ++ [c_slash] ++ other
       end.

(** Pieces that are no component at the end of a path. *)
Fixpoint trim_pieces (first : bool) (pieces : list str) : list str :=
  match pieces with
  | [] => []
  | piece :: pieces' =>
      match trim_pieces false pieces' with
      | [] => if decide (piece = [] ∨ (piece = dot ∧ first = false)) then [] else [piece]
      | r => piece :: r
      end
  end.

(** [path.parent()] *)
Definition path_parent (p : str) : option str :=
  let root := is_absolute p in
  let pieces := if root then tail (split_on c_slash p) else split_on c_slash p in
  match trim_pieces (negb root) pieces with
  | [] => None
  | comps =>
      Some ((if root then [c_slash] else [])
            ++ join [c_slash] (trim_pieces (negb root) (vec_pop comps)))
  end.

(** [path.pop()] *)
Definition path_pop (p : str) : str := default p (path_parent p).

(** [path.file_name()], for names that are valid UTF-8. *)
Definition file_name (p : str) : option str :=
  match last (components p) with
  | Some (Normal name) => Some name
  | _ => None
  end.

(** [path.file_stem()] *)
Definition file_stem (p : str) : option str :=
  match file_name p with
  | Some name =>
      match rsplit_once c_dot name with
      | Some (before, _) => if decide (before = []) then Some name else Some before
      | None => Some name
      end
  | None => None
  end.

(** ** [absolutize.rs] *)

Definition normalize_step (normalized : str) (component : Component) : str :=
  match component with
  | CurDir => normalized
  | ParentDir => path_pop normalized
  | RootDir | Normal _ => path_push normalized (as_os_str component)
  end.

Definition normalize_path (path : str) : str :=
  let normalized := foldl normalize_step [] (components path) in
  if decide (normalized = []) then dot else normalized.

Definition path_with_base (path base_path : str) : str :=
  if is_absolute path then path else path_push base_path path.

Definition absolutize_from (path base_path : str) : str :=
  normalize_path (path_with_base path base_path).

(** ** [AbsolutePathBuf] *)

Section env.
(** [dirs::home_dir()] *)
Context (home_dir : option str).

Definition maybe_expand_home_directory (path : str) : str :=
  match home_dir, strip_prefix [c_tilde] path with
  | Some home, Some rest =>
      match rest with
      | [] => home
      | _ =>
          match strip_prefix [c_slash] rest with
          | Some rest' => path_push home (trim_start_matches (N.eqb c_slash) rest')
          | None => path
          end
      end
  | _, _ => path
  end.

Definition resolve_path_against_base (path base_path : str) : str :=
  absolutize_from (maybe_expand_home_directory path) base_path.

(** [absolutize] reads the current directory only for a relative path. *)
Definition absolutize {E} (current_dir : Res E str) (path : str) : Res E str :=
  if is_absolute path then Ok (normalize_path path)
  else cwd ← current_dir; Ok (absolutize_from path cwd).

Definition from_absolute_path {E} (current_dir : Res E str) (path : str) : Res E str :=
  absolutize current_dir (maybe_expand_home_directory path).

Definition abs_join (self path : str) : str := resolve_path_against_base path self.
End env.

(** ** Specification: normalised absolute paths *)

Definition good_name (p : str) : Prop :=
  p ≠ [] ∧ (c_slash ∉ p) ∧ p ≠ dot ∧ p ≠ dotdot.
#[global] Instance good_name_dec p : Decision (good_name p).
Proof. unfold good_name. apply _. Defined.

Definition render (names : list str) : str := c_slash :: join [c_slash] names.

Definition normalized_abs (p : str) : Prop := ∃ names, Forall good_name names ∧ p = render names.

(** Lexical resolution on the names below the root. *)
Definition resolve_step (names : list str) (c : Component) : list str :=
  match c with
  | ParentDir => vec_pop names
  | Normal name => names ++ [name]
  | RootDir | CurDir => names
  end.

(** ** Lemmas *)

Lemma is_absolute_spec p : is_absolute p = true ↔ ∃ r, p = c_slash :: r.
Proof.
  unfold is_absolute. rewrite starts_with_spec. split; intros [r ->]; by exists r.
Qed.

Lemma split_on_app_sep c s t : split_on c (s ++ c :: t) = split_on c s ++ split_on c t.
Proof.
  induction s as [|x s IH]; simpl; [by rewrite N.eqb_refl|].
  destruct (N.eqb_spec x c); [by rewrite IH|]. rewrite IH.
  pose proof (split_on_nonempty c s). by destruct (split_on c s).
Qed.

Lemma good_body_component p : good_name p → body_component p = Some (Normal p).
Proof.
  intros (? & _ & ? & ?). unfold body_component. rewrite !decide_False by naive_solver. done.
Qed.

Lemma omap_good ns : Forall good_name ns → omap body_component ns = map Normal ns.
Proof. induction 1 as [|n ns Hn Hns IH]; csimpl; [done|]. by rewrite good_body_component, IH. Qed.

Lemma body_components_good s :
  Forall (λ c, match c with Normal n => good_name n | ParentDir => True | _ => False end)
    (omap body_component (split_on c_slash s)).
Proof.
  apply Forall_forall. intros c (p & Hp & Hc)%list_elem_of_omap.
  assert (Hs : c_slash ∉ p) by (by eapply (proj1 (Forall_forall _ _) (split_on_no_sep_inside _ s))).
  unfold body_component in Hc. repeat case_decide; simplify_eq; [done|].
  unfold good_name. naive_solver.
Qed.

Lemma split_join_names ns :
  ns ≠ [] → Forall good_name ns → split_on c_slash (join [c_slash] ns) = ns.
Proof.
  intros Hne Hns. apply split_on_join; [done|]. eapply Forall_impl; [exact Hns|].
  by intros ? (_ & ? & _).
Qed.

Lemma components_render ns :
  Forall good_name ns → components (render ns) = RootDir :: map Normal ns.
Proof.
  intros Hns. unfold components, render.
  rewrite (proj2 (is_absolute_spec _)) by eauto. simpl.
  destruct ns as [|n ns']; [done|].
  by rewrite split_join_names, omap_good.
Qed.

Lemma last_render n ns :
  good_name n → ∃ c, last (render (ns ++ [n])) = Some c ∧ c ≠ c_slash.
Proof.
  intros (Hne & Hns & _). destruct (exists_last Hne) as (n' & c & ->). exists c.
  split; [|set_solver]. unfold render.
  replace (join [c_slash] (ns ++ [n' ++ [c]])) with
    ((match ns with [] => n' | _ => join [c_slash] ns ++ [c_slash] ++ n' end) ++ [c]).
  - by rewrite app_comm_cons, last_snoc.
  - destruct ns as [|m ns]; [done|]. rewrite join_app by done. simpl. by rewrite <-!app_assoc.
Qed.

Lemma push_render ns n : Forall good_name ns → good_name n →
  path_push (render ns) n = render (ns ++ [n]).
Proof.
  intros Hns Hn. unfold path_push.
  assert (Habs : is_absolute n = false).
  { apply not_true_iff_false. rewrite is_absolute_spec. intros [r ->].
    destruct Hn as (_ & Hs & _). set_solver. }
  rewrite Habs. destruct ns as [|m ns _] using rev_ind; [done|].
  apply Forall_app in Hns as [_ [Hm _]%Forall_cons].
  destruct (last_render m ns Hm) as (c & -> & Hc). rewrite decide_False by done.
  unfold render. rewrite <-app_comm_cons. f_equal.
  by rewrite (join_app _ (ns ++ [m])) by (by destruct ns).
Qed.

Lemma trim_pieces_good first ns : Forall good_name ns → trim_pieces first ns = ns.
Proof.
  intros Hns. revert first; induction Hns as [|n ns (Hne & _ & Hd & _) Hns IH]; intros first; [done|].
  simpl. rewrite IH. destruct ns; [|done]. by rewrite decide_False by naive_solver.
Qed.

Lemma tail_split_render ns :
  tail (split_on c_slash (render ns)) = split_on c_slash (join [c_slash] ns).
Proof. done. Qed.

Lemma parent_render_snoc ns n :
  Forall good_name (ns ++ [n]) → path_parent (render (ns ++ [n])) = Some (render ns).
Proof.
  intros Hns. unfold path_parent. rewrite (proj2 (is_absolute_spec _)) by (by eexists).
  rewrite tail_split_render, split_join_names by (done || by destruct ns).
  rewrite trim_pieces_good by done. destruct (ns ++ [n]) as [|x xs] eqn:E; [by destruct ns|].
  rewrite <-E, vec_pop_snoc, trim_pieces_good; [done|]. rewrite <-E in Hns.
  by apply Forall_app in Hns as [? _].
Qed.

Lemma pop_render ns : Forall good_name ns → path_pop (render ns) = render (vec_pop ns).
Proof.
  intros Hns. unfold path_pop. destruct ns as [|n ns _] using rev_ind; [done|].
  by rewrite parent_render_snoc, vec_pop_snoc.
Qed.

(** Below the root, the string operations of [normalize_path] implement
    lexical resolution. *)
Lemma normalize_fold cs ns :
  Forall (λ c, match c with Normal n => good_name n | ParentDir => True | _ => False end) cs →
  Forall good_name ns →
  foldl normalize_step (render ns) cs = render (foldl resolve_step ns cs) ∧
  Forall good_name (foldl resolve_step ns cs).
Proof.
  intros Hcs. revert ns; induction Hcs as [|c cs Hc Hcs IH]; intros ns Hns; simpl; [done|].
  destruct c as [| | |n]; [done|done| |]; simpl.
  - rewrite pop_render by done. apply IH. by apply Forall_take.
  - rewrite push_render by done. apply IH. apply Forall_app. split; [done|].
    by apply Forall_singleton.
Qed.

Lemma normalize_path_abs p :
  is_absolute p = true →
  normalize_path p = render (foldl resolve_step [] (omap body_component (split_on c_slash p))) ∧
  Forall good_name (foldl resolve_step [] (omap body_component (split_on c_slash p))).
Proof.
  intros Habs. unfold normalize_path, components. rewrite Habs. cbn [app foldl].
  change (normalize_step [] RootDir) with (render []).
  destruct (normalize_fold (omap body_component (split_on c_slash p)) []) as [-> H];
    [apply body_components_good|constructor|]. by rewrite decide_False.
Qed.

Lemma path_push_abs p q : is_absolute p = true → is_absolute (path_push p q) = true.
Proof.
  unfold path_push. intros Hp. destruct (is_absolute q) eqn:Hq; [done|].
  apply is_absolute_spec in Hp as [r ->].
  destruct (last (c_slash :: r)) eqn:Hl; [|by apply last_None in Hl].
  case_decide; apply is_absolute_spec; by eexists.
Qed.

Lemma path_with_base_abs p b : is_absolute b = true → is_absolute (path_with_base p b) = true.
Proof. unfold path_with_base. intros. destruct (is_absolute p) eqn:Hp; [done|]. by apply path_push_abs. Qed.

Lemma omap_body_app a b :
  omap body_component (split_on c_slash (a ++ c_slash :: b)) =
  omap body_component (split_on c_slash a) ++ omap body_component (split_on c_slash b).
Proof. rewrite split_on_app_sep. apply omap_app. Qed.

(** The names that pushing a relative path below an absolute one gives. *)
Lemma body_push_render ns q :
  Forall good_name ns → is_absolute q = false →
  omap body_component (split_on c_slash (path_push (render ns) q)) =
  map Normal ns ++ omap body_component (split_on c_slash q).
Proof.
  intros Hns Hq. unfold path_push. rewrite Hq.
  destruct ns as [|n ns _] using rev_ind; [done|].
  assert (Hn : good_name n) by (by apply Forall_app in Hns as [_ [? _]%Forall_cons]).
  destruct (last_render n ns Hn) as (c & -> & Hc). rewrite decide_False by done.
  unfold render. rewrite <-app_comm_cons. csimpl. simpl.
  rewrite omap_body_app, split_join_names, omap_good by (done || by destruct ns). done.
Qed.

Lemma foldl_resolve_names ns ms :
  foldl resolve_step ns (map Normal ms) = ns ++ ms.
Proof.
  revert ns; induction ms as [|m ms IH]; intros ns; simpl; [by rewrite app_nil_r|].
  by rewrite IH, <-app_assoc.
Qed.

Lemma expand_home_relative home p :
  ¬ ([c_tilde] `prefix_of` p) → maybe_expand_home_directory home p = p.
Proof.
  intros H. unfold maybe_expand_home_directory.
  rewrite (proj2 (strip_prefix_None _ _) H). by destruct home.
Qed.

Lemma resolve_normalized home path base :
  is_absolute base = true → normalized_abs (resolve_path_against_base home path base).
Proof.
  intros Hb. unfold resolve_path_against_base, absolutize_from.
  destruct (normalize_path_abs _ (path_with_base_abs (maybe_expand_home_directory home path) base Hb))
    as [-> H]. by eexists.
Qed.

Lemma resolve_render home ns base :
  Forall good_name ns → resolve_path_against_base home (render ns) base = render ns.
Proof.
  intros Hns. unfold resolve_path_against_base, absolutize_from.
  rewrite expand_home_relative by (intros [r Hr]; discriminate Hr).
  unfold path_with_base. rewrite (proj2 (is_absolute_spec _)) by (by eexists).
  destruct (normalize_path_abs (render ns)) as [-> _]; [apply is_absolute_spec; by eexists|].
  assert (Hc := components_render ns Hns). unfold components in Hc.
  rewrite (proj2 (is_absolute_spec _)) in Hc by (by eexists).
  assert (omap body_component (split_on c_slash (render ns)) = map Normal ns) as ->
    by (by injection Hc).
  by rewrite foldl_resolve_names.
Qed.

(** Every [AbsolutePathBuf] made by resolving a path against an absolute
    base is absolute and normalised: a slash followed by names that are
    neither empty nor [.] nor [..] nor hold a slash.  Resolving such a path
    again, against any base, changes nothing. *)
Theorem resolve_path_invariant home path base :
  is_absolute base = true →
  normalized_abs (resolve_path_against_base home path base) ∧
  ∀ base', resolve_path_against_base home (resolve_path_against_base home path base) base' =
           resolve_path_against_base home path base.
Proof.
  intros Hb. assert (Hn := resolve_normalized home path base Hb). split; [done|].
  intros base'. destruct Hn as (ns & Hns & ->). by apply resolve_render.
Qed.

Lemma resolve_path_invariant_witness :
  normalized_abs (resolve_path_against_base None (lit "../x/./y") (lit "/base/cwd")) ∧
  ∀ base', resolve_path_against_base None
      (resolve_path_against_base None (lit "../x/./y") (lit "/base/cwd")) base' =
    resolve_path_against_base None (lit "../x/./y") (lit "/base/cwd").
Proof. apply (resolve_path_invariant None). vm_compute. reflexivity. Defined.

(** A relative path without [..] and without a leading [~] resolves to a
    path inside of its base: the names of the base are kept as a prefix, and
    the names of the path follow. *)
Theorem resolve_path_inside_base home path names :
  Forall good_name names → is_absolute path = false →
  ¬ ([c_tilde] `prefix_of` path) → ParentDir ∉ components path →
  ∃ below, Forall good_name below ∧
    resolve_path_against_base home path (render names) = render (names ++ below).
Proof.
  intros Hns Habs Htilde Hup. unfold resolve_path_against_base, absolutize_from.
  rewrite expand_home_relative by done. unfold path_with_base. rewrite Habs.
  assert (Hpush : is_absolute (path_push (render names) path) = true)
    by (apply path_push_abs, is_absolute_spec; by eexists).
  destruct (normalize_path_abs _ Hpush) as [-> _]. rewrite body_push_render by done.
  assert (Hbody := body_components_good path).
  assert (Hno : ParentDir ∉ omap body_component (split_on c_slash path))
    by (intros H; apply Hup; unfold components; apply elem_of_app; by right).
  revert Hno. clear Hup. generalize dependent (omap body_component (split_on c_slash path)).
  intros cs Hcs Hno. rewrite foldl_app, foldl_resolve_names. simpl.
  assert (Hex : ∃ below, cs = map Normal below ∧ Forall good_name below).
  { induction Hcs as [|c cs Hc Hcs IH]; [by exists []|].
    destruct IH as (below & -> & Hb); [set_solver|].
    destruct c as [| | |n]; [done|done|set_solver|]. exists (n :: below).
    split; [done|by constructor]. }
  destruct Hex as (below & -> & Hb). exists below. split; [done|]. by rewrite foldl_resolve_names.
Qed.

Lemma resolve_path_inside_base_witness :
  ∃ below, Forall good_name below ∧
    resolve_path_against_base (Some (lit "/home/u")) (lit "./src//a.rs") (render [lit "w"; lit "p"])
    = render ([lit "w"; lit "p"] ++ below).
Proof.
  apply (resolve_path_inside_base (Some (lit "/home/u")) (lit "./src//a.rs") [lit "w"; lit "p"]).
  - by_compute.
  - vm_compute. reflexivity.
  - by_compute.
  - vm_compute. set_solver.
Defined.
