(* ===== verification/FileSystem.v ===== *)
(** * The file system interface: [file-system/src/lib.rs]

    The trait [ExecutorFileSystem] as a type class over the state of a file
    system, with the methods that [apply-patch] calls; [read_file_text] is the
    trait's provided method.  [FileSystemLaws] states what clients rely on,
    through the only thing they can see of a state: which bytes a read of a
    path returns.  [MemFs] is an in-memory file system that obeys the laws. *)
From S2P Require Import Prelude RustStr Utf8 AbsolutePath.

(** [std::io::Error]: a kind and a message. *)
Inductive ErrorKind : Type :=
| NotFound
| PermissionDenied
| AlreadyExists
| NotADirectory
| IsADirectory
| DirectoryNotEmpty
| InvalidInput
| InvalidData
| OtherKind.

Record io_error : Type := { err_kind : ErrorKind; err_message : str }.

#[global] Instance ErrorKind_eq_dec : EqDecision ErrorKind.
Proof. solve_decision. Defined.
#[global] Instance io_error_eq_dec : EqDecision io_error.
Proof. solve_decision. Defined.

Record CreateDirectoryOptions : Type := { create_recursive : bool }.
Record RemoveOptions : Type := { remove_recursive : bool; remove_force : bool }.

Record FileMetadata : Type := {
  is_directory : bool;
  is_file : bool;
  is_symlink : bool;
  created_at_ms : Z;
  modified_at_ms : Z
}.

Class ExecutorFileSystem (FS Sandbox : Type) : Type := {
  read_file : FS → str → option Sandbox → Res io_error (list N);
  write_file : FS → str → list N → option Sandbox → FS * Res io_error unit;
  create_directory : FS → str → CreateDirectoryOptions → option Sandbox → FS * Res io_error unit;
  get_metadata : FS → str → option Sandbox → Res io_error FileMetadata;
  remove : FS → str → RemoveOptions → option Sandbox → FS * Res io_error unit
}.

(** [Display] of [FromUtf8Error] *)
Definition utf8_error_message (valid_up_to : nat) (error_len : option nat) : str :=
  match error_len with
  | Some n => lit "invalid utf-8 sequence of " ++ show_nat n ++ lit " bytes from index "
              ++ show_nat valid_up_to
  | None => lit "incomplete utf-8 byte sequence from index " ++ show_nat valid_up_to
  end.

(** The provided method [read_file_text]. *)
Definition read_file_text {FS Sandbox : Type} `{!ExecutorFileSystem FS Sandbox} (fs : FS) (path : str)
    (sandbox : option Sandbox) : Res io_error str :=
  bytes ← read_file fs path sandbox;
  match from_utf8 bytes with
  | Utf8Ok text => Ok text
  | Utf8Err v e => Err {| err_kind := InvalidData; err_message := utf8_error_message v e |}
  end.

(** ** What clients see, and the laws *)

Definition view {FS Sandbox : Type} `{!ExecutorFileSystem FS Sandbox} (sandbox : option Sandbox) (fs : FS) (p : str)
    : option (list N) :=
  match read_file fs p sandbox with
  | Ok bytes => Some bytes
  | _ => None
  end.

(** A file system in which different paths name different files, a failed
    write changes at most its own target, a write that fails because a
    directory is missing changes nothing, and creating a directory changes no
    file. *)
Class FileSystemLaws (FS Sandbox : Type) `{!ExecutorFileSystem FS Sandbox} : Prop := {
  write_ok sandbox (fs fs' : FS) p c q :
    write_file fs p c sandbox = (fs', Ok ()) →
    view sandbox fs' q = if decide (q = p) then Some c else view sandbox fs q;
  write_frame sandbox (fs fs' : FS) p c r q :
    write_file fs p c sandbox = (fs', r) → q ≠ p → view sandbox fs' q = view sandbox fs q;
  write_not_found sandbox (fs fs' : FS) p c e q :
    write_file fs p c sandbox = (fs', Err e) → err_kind e = NotFound →
    view sandbox fs' q = view sandbox fs q;
  create_directory_frame sandbox (fs fs' : FS) p o r q :
    create_directory fs p o sandbox = (fs', r) → view sandbox fs' q = view sandbox fs q;
  remove_ok sandbox (fs fs' : FS) p o q :
    remove_recursive o = false → remove fs p o sandbox = (fs', Ok ()) →
    view sandbox fs' q = if decide (q = p) then None else view sandbox fs q;
  remove_frame sandbox (fs fs' : FS) p o r q :
    remove_recursive o = false → remove fs p o sandbox = (fs', r) → q ≠ p →
    view sandbox fs' q = view sandbox fs q
}.

(** ** An in-memory file system *)

Inductive node : Type :=
| File (bytes : list N)
| Dir.

Definition MemFs : Type := gmap str node.

Ltac mem_solve := unfold MemFs in *; simplify_map_eq; auto.

Definition io_err {A} (k : ErrorKind) (m : string) : Res io_error A :=
  Err {| err_kind := k; err_message := lit m |}.

Definition mem_parent_exists (fs : MemFs) (p : str) : bool :=
  match path_parent p with
  | Some [] | None => true
  | Some d => match fs !! d with Some Dir => true | _ => bool_decide (d = [c_slash]) end
  end.

Definition mem_read (fs : MemFs) (p : str) : Res io_error (list N) :=
  match fs !! p with
  | Some (File bytes) => Ok bytes
  | Some Dir => io_err IsADirectory "is a directory"
  | None => io_err NotFound "not found"
  end.

Definition mem_write (fs : MemFs) (p : str) (c : list N) : MemFs * Res io_error unit :=
  if negb (mem_parent_exists fs p) then (fs, io_err NotFound "not found")
  else match fs !! p with
       | Some Dir => (fs, io_err IsADirectory "is a directory")
       | _ => (<[p := File c]> fs, Ok ())
       end.

(** [create_dir_all] follows the parents, at most as many as the path has
    characters. *)
Fixpoint mem_create (fuel : nat) (recursive : bool) (fs : MemFs) (p : str)
    : MemFs * Res io_error unit :=
  match fs !! p with
  | Some Dir => (fs, if recursive then Ok () else io_err AlreadyExists "exists")
  | Some (File _) => (fs, io_err AlreadyExists "exists")
  | None =>
      if mem_parent_exists fs p then (<[p := Dir]> fs, Ok ())
      else if negb recursive then (fs, io_err NotFound "not found")
      else match fuel, path_parent p with
           | S fuel', Some d =>
               match mem_create fuel' recursive fs d with
               | (fs', Ok ()) => (<[p := Dir]> fs', Ok ())
               | r => r
               end
           | _, _ => (fs, io_err NotFound "not found")
           end
  end.

Definition mem_metadata (fs : MemFs) (p : str) : Res io_error FileMetadata :=
  match fs !! p with
  | Some n =>
      let d := match n with Dir => true | File _ => false end in
      Ok {| is_directory := d; is_file := negb d; is_symlink := false;
            created_at_ms := 0; modified_at_ms := 0 |}
  | None => io_err NotFound "not found"
  end.

Definition mem_remove (fs : MemFs) (p : str) (o : RemoveOptions) : MemFs * Res io_error unit :=
  match fs !! p with
  | Some (File _) => (delete p fs, Ok ())
  | Some Dir =>
      if existsb (λ kv, starts_with (p ++ [c_slash]) kv.1) (map_to_list fs)
      then (fs, io_err DirectoryNotEmpty "not empty") else (delete p fs, Ok ())
  | None => (fs, if remove_force o then Ok () else io_err NotFound "not found")
  end.

#[global] Instance MemFs_fs : ExecutorFileSystem MemFs unit := {
  read_file fs p _ := mem_read fs p;
  write_file fs p c _ := mem_write fs p c;
  create_directory fs p o _ := mem_create (length p) (create_recursive o) fs p;
  get_metadata fs p _ := mem_metadata fs p;
  remove fs p o _ := mem_remove fs p o
}.

Lemma mem_view (sb : option unit) (fs : MemFs) q :
  view sb fs q = match fs !! q with Some (File b) => Some b | _ => None end.
Proof. unfold view. simpl. unfold mem_read. by destruct (fs !! q) as [[]|]. Qed.

Lemma mem_create_frame fuel (rec : bool) (fs fs' : MemFs) p r q :
  mem_create fuel rec fs p = (fs', r) →
  fs' !! q = fs !! q ∨ (fs !! q = None ∧ fs' !! q = Some Dir).
Proof.
  revert fs fs' p r; induction fuel as [|fuel IH]; intros fs fs' p r; simpl;
    (destruct (fs !! p) as [[]|] eqn:Hp; [by intros [= <- _]; left..|]).
  - destruct (mem_parent_exists fs p), rec; simpl; intros [= <- _];
      destruct (decide (q = p)) as [->|]; mem_solve.
  - destruct (mem_parent_exists fs p).
    { intros [= <- _]. destruct (decide (q = p)) as [->|]; mem_solve. }
    destruct rec; simpl; [|by intros [= <- _]; left].
    destruct (path_parent p) as [d|]; [|by intros [= <- _]; left].
    destruct (mem_create fuel true fs d) as [fs1 r1] eqn:Hr.
    assert (Hfs1 := IH _ _ _ _ Hr).
    destruct r1 as [[]| |]; intros [= <- _]; try done.
    destruct (decide (q = p)) as [->|]; unfold MemFs in *; simplify_map_eq; naive_solver.
Qed.

#[global] Instance MemFs_laws : FileSystemLaws MemFs unit.
Proof.
  split; intros sb fs fs' p; simpl.
  - intros c q. unfold mem_write. destruct (mem_parent_exists fs p); [|done]. simpl.
    rewrite !mem_view. destruct (fs !! p) as [[]|] eqn:Hp; intros [= <-];
      case_decide; by mem_solve.
  - intros c r q. unfold mem_write. rewrite !mem_view. destruct (mem_parent_exists fs p); simpl.
    + destruct (fs !! p) as [[]|]; intros [= <- _] ?; by mem_solve.
    + by intros [= <- _].
  - intros c e q. unfold mem_write. destruct (mem_parent_exists fs p); simpl.
    + destruct (fs !! p) as [[]|]; by intros [= <- <-].
    + by intros [= <- _].
  - intros o r q Hr. rewrite !mem_view.
    destruct (mem_create_frame _ _ _ _ _ _ q Hr) as [->|[-> ->]]; done.
  - intros o q _. unfold mem_remove. rewrite !mem_view.
    destruct (fs !! p) as [[]|] eqn:Hp; [|destruct (existsb _ _)|destruct (remove_force o)];
      intros [= <-]; case_decide; by mem_solve.
  - intros o r q _. unfold mem_remove. rewrite !mem_view.
    destruct (fs !! p) as [[]|] eqn:Hp; [|destruct (existsb _ _)|]; intros [= <- _] ?; by mem_solve.
Qed.
