(* ===== verification/Replacements.v ===== *)
(** * Applying chunks to the lines of a file: [apply-patch/src/lib.rs]

    [compute_replacements] locates the chunks of an update in the lines of a
    file, [apply_replacements] edits the lines, and [derive_new_contents] is
    the text-level part of [derive_new_contents_from_chunks].  The abstract
    specification [applied] says what an update means, without indices: a
    chain of blocks, in chunk order, that are exchanged for the new lines
    while everything between them is kept. *)
From Stdlib Require Import Sorted.
From S2P Require Import Prelude RustStr FileSystem SeekSequence PatchParser.

Inductive ApplyPatchError : Type :=
| ParseError_ (e : ParseError)
| IoError (context : str) (source : io_error)
| ComputeReplacements (message : str)
| ImplicitInvocation.

#[global] Instance ApplyPatchError_eq_dec : EqDecision ApplyPatchError.
Proof. solve_decision. Defined.

(** ** Operations *)

(** [(start_index, old_len, new_lines)] *)
Definition replacement : Type := nat * nat * list str.

(** [v.last().is_some_and(String::is_empty)] *)
Definition last_is_empty (v : list str) : bool := bool_decide (last v = Some []).

Definition context_not_found (ctx_line path : str) : ApplyPatchError :=
  ComputeReplacements (lit "Failed to find context '" ++ ctx_line ++ lit "' in " ++ path).

Definition lines_not_found (path : str) (chunk : UpdateFileChunk) : ApplyPatchError :=
  ComputeReplacements (lit "Failed to find expected lines in " ++ path ++ lit ":" ++ [c_nl]
                       ++ join [c_nl] (old_lines chunk)).

(** Moving past the [change_context] of a chunk. *)
Definition seek_context (original_lines : list str) (path : str) (chunk : UpdateFileChunk)
    (line_index : nat) : Res ApplyPatchError nat :=
  match change_context chunk with
  | None => Ok line_index
  | Some ctx_line =>
      found ← seek_sequence original_lines [ctx_line] line_index false;
      match found with
      | Some idx => Ok (idx + 1)
      | None => Err (context_not_found ctx_line path)
      end
  end.

(** Locating the old lines of a chunk, with the retry that drops a trailing
    empty line: the index, the length of the pattern, and the new lines. *)
Definition locate_old_lines (original_lines : list str) (chunk : UpdateFileChunk)
    (line_index : nat) : Res ApplyPatchError (option nat * nat * list str) :=
  let pattern := old_lines chunk in
  let new_slice := new_lines chunk in
  found ← seek_sequence original_lines pattern line_index (is_end_of_file chunk);
  if bool_decide (found = None) && last_is_empty pattern then
    pattern ← slice_to (length pattern - 1) pattern;
    new_slice ← (if last_is_empty new_slice
                 then slice_to (length new_slice - 1) new_slice else Ok new_slice);
    found ← seek_sequence original_lines pattern line_index (is_end_of_file chunk);
    Ok (found, length pattern, new_slice)
  else Ok (found, length pattern, new_slice).

Definition insertion_index (original_lines : list str) : nat :=
  if last_is_empty original_lines then length original_lines - 1 else length original_lines.

(** One turn of the loop over the chunks: the replacement it pushes and the
    new [line_index]. *)
Definition chunk_step (original_lines : list str) (path : str) (chunk : UpdateFileChunk)
    (line_index : nat) : Res ApplyPatchError (replacement * nat) :=
  line_index ← seek_context original_lines path chunk line_index;
  match old_lines chunk with
  | [] => Ok ((insertion_index original_lines, 0, new_lines chunk), line_index)
  | _ =>
      located ← locate_old_lines original_lines chunk line_index;
      match located with
      | (Some start_idx, len, new_slice) =>
          Ok ((start_idx, len, new_slice), start_idx + len)
      | (None, _, _) => Err (lines_not_found path chunk)
      end
  end.

Fixpoint replacements_loop (original_lines : list str) (path : str)
    (chunks : list UpdateFileChunk) (line_index : nat) : Res ApplyPatchError (list replacement) :=
  match chunks with
  | [] => Ok []
  | chunk :: chunks' =>
      p ← chunk_step original_lines path chunk line_index;
      rs ← replacements_loop original_lines path chunks' p.2;
      Ok (p.1 :: rs)
  end.

(** [replacements.sort_by(..)]: a stable sort by start index. *)
Fixpoint insert_by_start (r : replacement) (rs : list replacement) : list replacement :=
  match rs with
  | [] => [r]
  | r' :: rs' => if decide (r.1.1 ≤ r'.1.1) then r :: rs else r' :: insert_by_start r rs'
  end.
Definition sort_by_start (rs : list replacement) : list replacement :=
  foldr insert_by_start [] rs.

Definition compute_replacements (original_lines : list str) (path : str)
    (chunks : list UpdateFileChunk) : Res ApplyPatchError (list replacement) :=
  sort_by_start <$> replacements_loop original_lines path chunks 0.

(** [for _ in 0..old_len { if start_idx < lines.len() { lines.remove(start_idx); } }] *)
Fixpoint remove_old {E} (start_idx old_len : nat) (lines : list str) : Res E (list str) :=
  match old_len with
  | O => Ok lines
  | S n =>
      lines ← (if decide (start_idx < length lines) then vec_remove start_idx lines
               else Ok lines);
      remove_old start_idx n lines
  end.

(** [lines.insert(start_idx + offset, new_line)] for every new line. *)
Fixpoint insert_new {E} (idx : nat) (new_segment lines : list str) : Res E (list str) :=
  match new_segment with
  | [] => Ok lines
  | new_line :: new_segment' =>
      lines ← vec_insert idx new_line lines;
      insert_new (S idx) new_segment' lines
  end.

Definition apply_one {E} (lines : list str) (r : replacement) : Res E (list str) :=
  lines ← remove_old r.1.1 r.1.2 lines;
  insert_new r.1.1 r.2 lines.

(** The replacements are applied last one first. *)
Definition apply_replacements {E} (lines : list str) (replacements : list replacement)
    : Res E (list str) :=
  foldr (λ r acc, lines ← acc; apply_one lines r) (Ok lines) replacements.

Definition original_lines_of (original_contents : str) : list str :=
  let ls := split_on c_nl original_contents in
  if last_is_empty ls then vec_pop ls else ls.

Definition contents_of_lines (new_lines : list str) : str :=
  join [c_nl] (if last_is_empty new_lines then new_lines else new_lines ++ [[]]).

(** [derive_new_contents_from_chunks] once the file is read. *)
Definition derive_new_contents (path original_contents : str) (chunks : list UpdateFileChunk)
    : Res ApplyPatchError str :=
  let original_lines := original_lines_of original_contents in
  replacements ← compute_replacements original_lines path chunks;
  new_lines ← apply_replacements original_lines replacements;
  Ok (contents_of_lines new_lines).

(** ** Abstract specification *)

Definition drop_last_empty (v : list str) : list str := if last_is_empty v then vec_pop v else v.

(** What a chunk exchanges for what: its old lines for its new lines, or, when
    the old lines end in an empty line that stands for the final newline, both
    without it. *)
Inductive exchange (chunk : UpdateFileChunk) : list str → list str → Prop :=
| exchange_whole : exchange chunk (old_lines chunk) (new_lines chunk)
| exchange_final_newline old :
    old_lines chunk = old ++ [[]] → exchange chunk old (drop_last_empty (new_lines chunk)).

(** Equality of lines under one of the comparisons of [seek_sequence]. *)
Definition similar (block pattern : list str) : Prop :=
  ∃ f, f ∈ levels ∧ map f block = map f pattern.

Definition has_context (chunk : UpdateFileChunk) (before : list str) : Prop :=
  match change_context chunk with
  | None => True
  | Some ctx_line => ∃ line, line ∈ before ∧ similar [line] [ctx_line]
  end.

(** [applied chunks lines out]: the chunks take lines to [out] one after the
    other, each below the lines the previous one replaced. *)
Inductive applied : list UpdateFileChunk → list str → list str → Prop :=
| applied_nil rest : applied [] rest rest
| applied_cons chunk chunks before block after pattern new out :
    exchange chunk pattern new → similar block pattern → has_context chunk before →
    applied chunks after out →
    applied (chunk :: chunks) (before ++ block ++ after) (before ++ new ++ out).

(** ** Editing lines *)

Lemma remove_old_ok {E} s n lines :
  remove_old (E:=E) s n lines = Ok (take s lines ++ drop (s + n) lines).
Proof.
  revert lines; induction n as [|n IH]; intros lines; simpl.
  { by rewrite Nat.add_0_r, take_drop. }
  case_decide as Hs; simpl.
  - unfold vec_remove. rewrite decide_True by done. simpl. rewrite IH. do 2 f_equal.
    + rewrite take_app_le by (rewrite length_take; lia).
      rewrite take_take. f_equal. lia.
    + rewrite drop_app_ge by (rewrite length_take; lia).
      rewrite length_take, drop_drop. f_equal. lia.
  - rewrite IH. do 2 f_equal. rewrite !drop_ge by lia. done.
Qed.

Lemma insert_new_ok {E} idx seg lines :
  idx ≤ length lines →
  insert_new (E:=E) idx seg lines = Ok (take idx lines ++ seg ++ drop idx lines).
Proof.
  revert idx lines; induction seg as [|l seg IH]; intros idx lines Hi; simpl.
  { by rewrite take_drop. }
  unfold vec_insert. rewrite decide_True by done. simpl.
  assert (Hl : length (take idx lines) = idx) by (rewrite length_take; lia).
  rewrite IH by (rewrite length_app, Hl; simpl; lia).
  generalize dependent (take idx lines). intros front <-.
  rewrite (cons_middle l front (drop _ _)), (app_assoc front [l]).
  replace (S (length front)) with (length (front ++ [l])) by (rewrite length_app; simpl; lia).
  by rewrite take_app_length, drop_app_length, <-!app_assoc.
Qed.

Lemma apply_one_ok {E} lines s n seg :
  s ≤ length lines →
  apply_one (E:=E) lines (s, n, seg) = Ok (take s lines ++ seg ++ drop (s + n) lines).
Proof.
  intros Hs. unfold apply_one. simpl. rewrite remove_old_ok. simpl.
  rewrite insert_new_ok by (rewrite length_app, length_take; lia).
  rewrite take_app_le, drop_app_ge by (rewrite length_take; lia).
  rewrite length_take, take_take, !Nat.min_l, Nat.sub_diag, drop_0 by lia. done.
Qed.

Definition in_bounds (lines : list str) (r : replacement) : Prop := r.1.1 + r.1.2 ≤ length lines.
Definition starts_le (r r' : replacement) : Prop := r.1.1 ≤ r'.1.1.

Lemma apply_replacements_cons {E} lines r rs :
  apply_replacements (E:=E) lines (r :: rs) =
  ls ← apply_replacements lines rs; apply_one ls r.
Proof. done. Qed.

(** Sorted replacements within the file apply without a panic, and leave the
    lines before the first of them alone. *)
Lemma apply_replacements_ok {E} lines rs :
  StronglySorted starts_le rs → Forall (in_bounds lines) rs →
  ∃ out, apply_replacements (E:=E) lines rs = Ok out ∧
    ∀ k, k ≤ length lines → Forall (λ r, k ≤ r.1.1) rs → take k out = take k lines.
Proof.
  intros Hs Hb. induction Hs as [|[[s n] seg] rs Hs IH Hle].
  { exists lines. split; [done|]. done. }
  apply Forall_cons in Hb as [Hb1 Hb]. destruct (IH Hb) as (out & Hout & Htake).
  unfold in_bounds in Hb1; simpl in Hb1.
  assert (Hsame : take s out = take s lines) by (apply Htake; [lia|done]).
  assert (Hlen : s ≤ length out).
  { apply (f_equal length) in Hsame. rewrite !length_take in Hsame. lia. }
  exists (take s out ++ seg ++ drop (s + n) out). split.
  - rewrite apply_replacements_cons, Hout. by apply apply_one_ok.
  - intros k Hk [Hks Hks']%Forall_cons. simpl in Hks.
    rewrite take_app_le by (rewrite length_take; lia). rewrite take_take, Nat.min_l by lia.
    by apply Htake.
Qed.

(** ** Sorting *)

Lemma insert_by_start_perm r rs : insert_by_start r rs ≡ₚ r :: rs.
Proof.
  induction rs as [|r' rs IH]; simpl; [done|]. case_decide; [done|].
  rewrite IH. apply perm_swap.
Qed.

Lemma sort_by_start_perm rs : sort_by_start rs ≡ₚ rs.
Proof. induction rs as [|r rs IH]; simpl; [done|]. by rewrite insert_by_start_perm, IH. Qed.

Lemma insert_by_start_sorted r rs :
  StronglySorted starts_le rs → StronglySorted starts_le (insert_by_start r rs).
Proof.
  induction 1 as [|r' rs Hs IH Hle]; simpl; [by repeat constructor|].
  case_decide as Hr.
  - constructor; [by constructor|]. constructor; [done|].
    eapply Forall_impl; [exact Hle|]. unfold starts_le. lia.
  - constructor; [done|]. rewrite insert_by_start_perm. constructor; [|done].
    unfold starts_le. lia.
Qed.

Lemma sort_by_start_sorted rs : StronglySorted starts_le (sort_by_start rs).
Proof. induction rs; simpl; [constructor|]. by apply insert_by_start_sorted. Qed.

Lemma sort_by_start_id rs : StronglySorted starts_le rs → sort_by_start rs = rs.
Proof.
  induction 1 as [|r rs Hs IH Hle]; simpl; [done|]. rewrite IH.
  destruct Hle as [|r' rs' Hr]; simpl; [done|]. by rewrite decide_True.
Qed.

(** ** Locating chunks *)

Lemma last_is_empty_snoc v : last_is_empty v = true → v = vec_pop v ++ [[]].
Proof. intros H%bool_decide_eq_true. by apply last_snoc_take. Qed.

Lemma slice_to_pop {E} (v : list str) : slice_to (E:=E) (length v - 1) v = Ok (vec_pop v).
Proof. unfold slice_to. rewrite decide_True by lia. done. Qed.

(** [seek_sequence], as the callers use it. *)
Lemma seek_cases {E} lines pattern start eof :
  start ≤ length lines →
  (seek_sequence (E:=E) lines pattern start eof = Ok None) ∨
  ∃ i, seek_sequence (E:=E) lines pattern start eof = Ok (Some i) ∧
    i + length pattern ≤ length lines ∧ (eof = false → start ≤ i) ∧
    similar (take (length pattern) (drop i lines)) pattern.
Proof.
  intros Hs. destruct pattern as [|p ps].
  { right. exists start. split_and!; simpl; [done|lia|done|]. exists id. split; [set_solver|done]. }
  destruct (seek_sequence_total (E:=E) lines (p :: ps) start eof) as (r & Hr & Hres); [done|].
  rewrite Hr. destruct r as [i|]; [right|by left]. exists i.
  destruct (seek_result_bounds _ _ _ _ Hres) as [Hfrom Hto].
  inversion Hres as [k f i' Hk Hge Hm Hfirst Hprev|]; subst. split_and!; [done|done| |].
  - by intros ->.
  - exists f. split; [by eapply list_elem_of_lookup_2|apply Hm].
Qed.

Lemma seek_context_cases lines path chunk i :
  i ≤ length lines →
  (∃ m, seek_context lines path chunk i = Err (ComputeReplacements m)) ∨
  ∃ j, seek_context lines path chunk i = Ok j ∧ i ≤ j ≤ length lines ∧
    has_context chunk (take (j - i) (drop i lines)).
Proof.
  intros Hi. unfold seek_context, has_context. destruct (change_context chunk) as [ctx|];
    [|right; exists i; split_and!; done || lia].
  destruct (seek_cases (E:=ApplyPatchError) lines [ctx] i false Hi)
    as [-> | (k & -> & Hk & Hge & Hsim)]; simpl in *; [eauto|].
  right. exists (k + 1). specialize (Hge eq_refl). split_and!; [done|lia|lia|].
  destruct (lookup_lt_is_Some_2 lines k) as [line Hline]; [lia|].
  exists line. split.
  - apply list_elem_of_lookup. exists (k - i). rewrite lookup_take_lt, lookup_drop by lia.
    by replace (i + (k - i)) with k by lia.
  - by rewrite (drop_S _ _ _ Hline) in Hsim.
Qed.

Lemma locate_cases lines chunk i :
  i ≤ length lines →
  (∃ n new, locate_old_lines lines chunk i = Ok (None, n, new)) ∨
  ∃ j pattern new, locate_old_lines lines chunk i = Ok (Some j, length pattern, new) ∧
    j + length pattern ≤ length lines ∧ (is_end_of_file chunk = false → i ≤ j) ∧
    exchange chunk pattern new ∧ similar (take (length pattern) (drop j lines)) pattern.
Proof.
  intros Hi. unfold locate_old_lines. destruct (seek_cases (E:=ApplyPatchError) lines (old_lines chunk)
    i (is_end_of_file chunk) Hi) as [-> | (j & -> & Hj & Hge & Hsim)]; simpl.
  - destruct (last_is_empty (old_lines chunk)) eqn:Hl; simpl; [|eauto].
    rewrite !slice_to_pop. simpl.
    replace (if last_is_empty (new_lines chunk) then Ok (vec_pop (new_lines chunk))
      else Ok (new_lines chunk)) with (Ok (E:=ApplyPatchError) (drop_last_empty (new_lines chunk)))
      by (unfold drop_last_empty; by destruct (last_is_empty (new_lines chunk))).
    simpl.
    destruct (seek_cases (E:=ApplyPatchError) lines (vec_pop (old_lines chunk)) i
      (is_end_of_file chunk) Hi) as [-> | (j & -> & Hj & Hge & Hsim)]; simpl; [eauto|].
    right. exists j, (vec_pop (old_lines chunk)), (drop_last_empty (new_lines chunk)).
    split_and!; try done. apply exchange_final_newline. by apply last_is_empty_snoc.
  - right. eexists j, _, _. split_and!; try done. apply exchange_whole.
Qed.

Lemma insertion_index_le lines : insertion_index lines ≤ length lines.
Proof. unfold insertion_index. case_match; lia. Qed.

Lemma chunk_step_cases lines path chunk i :
  i ≤ length lines →
  (∃ m, chunk_step lines path chunk i = Err (ComputeReplacements m)) ∨
  ∃ r j, chunk_step lines path chunk i = Ok (r, j) ∧ in_bounds lines r ∧ j ≤ length lines.
Proof.
  intros Hi. unfold chunk_step.
  destruct (seek_context_cases lines path chunk i Hi) as [[m ->]|(k & -> & Hk & _)]; [by eauto|].
  simpl. destruct (old_lines chunk) as [|o os] eqn:Ho.
  { right. eexists _, _. split_and!; [done| |lia]. unfold in_bounds. simpl.
    rewrite Nat.add_0_r. apply insertion_index_le. }
  destruct (locate_cases lines chunk k) as [(n & new & ->)|(j & pat & new & -> & Hj & _)];
    [lia|simpl; unfold lines_not_found; eauto|].
  right. eexists _, _. by split_and!.
Qed.

Lemma replacements_loop_cases lines path chunks i :
  i ≤ length lines →
  (∃ m, replacements_loop lines path chunks i = Err (ComputeReplacements m)) ∨
  ∃ rs, replacements_loop lines path chunks i = Ok rs ∧ Forall (in_bounds lines) rs.
Proof.
  revert i; induction chunks as [|chunk chunks IH]; intros i Hi; simpl; [eauto|].
  destruct (chunk_step_cases lines path chunk i Hi) as [[m ->]|(r & j & -> & Hr & Hj)];
    simpl; [by eauto|].
  destruct (IH j Hj) as [[m ->]|(rs & -> & Hrs)]; simpl; eauto 6.
Qed.

(** A chunk that has old lines and no end-of-file marker. *)
Definition anchored (chunk : UpdateFileChunk) : Prop :=
  old_lines chunk ≠ [] ∧ is_end_of_file chunk = false.

#[global] Instance anchored_dec chunk : Decision (anchored chunk).
Proof. unfold anchored. apply _. Defined.

Lemma chunk_step_anchored lines path chunk i r j :
  i ≤ length lines → anchored chunk → chunk_step lines path chunk i = Ok (r, j) →
  ∃ s pattern new, r = (s, length pattern, new) ∧ j = s + length pattern ∧ i ≤ s ∧
    s + length pattern ≤ length lines ∧ exchange chunk pattern new ∧
    similar (take (length pattern) (drop s lines)) pattern ∧
    has_context chunk (take (s - i) (drop i lines)).
Proof.
  intros Hi [Hne Heof]. unfold chunk_step.
  destruct (seek_context_cases lines path chunk i Hi) as [[m ->]|(k & -> & Hk & Hctx)]; [done|].
  simpl. destruct (old_lines chunk) as [|o os] eqn:Ho; [done|].
  destruct (locate_cases lines chunk k) as [(n & new & ->)|
    (s & pat & new & -> & Hs & Hge & Hex & Hsim)]; [lia|done|].
  simpl. intros [= <- <-]. specialize (Hge Heof). exists s, pat, new.
  split_and!; try done; [lia|]. unfold has_context in *.
  destruct (change_context chunk); [|done]. destruct Hctx as (line & Hin & Hl).
  exists line. split; [|done]. replace (s - i) with ((k - i) + (s - k)) by lia.
  rewrite <-take_take_drop. apply elem_of_app. by left.
Qed.

(** ** Whole updates *)

Lemma split_at_block {A} (lines : list A) i s n :
  i ≤ s →
  drop i lines = take (s - i) (drop i lines) ++ take n (drop s lines) ++ drop (s + n) lines.
Proof.
  intros. replace s with (i + (s - i)) at 2 3 by lia. rewrite <-!drop_drop, !take_drop.
  done.
Qed.

(** The loop over anchored chunks produces replacements in file order, and
    applying them edits the lines below the current index as specified. *)
Lemma replacements_loop_applied {E} lines path chunks i rs :
  i ≤ length lines → Forall anchored chunks →
  replacements_loop lines path chunks i = Ok rs →
  StronglySorted starts_le rs ∧ Forall (λ r, i ≤ r.1.1) rs ∧
  ∃ out, apply_replacements (E:=E) lines rs = Ok (take i lines ++ out) ∧
    applied chunks (drop i lines) out.
Proof.
  revert i rs; induction chunks as [|chunk chunks IH]; intros i rs Hi Hall Hrs; simpl in Hrs.
  { injection Hrs as <-. split_and!; [constructor|constructor|]. exists (drop i lines).
    split; [simpl; unfold apply_replacements; simpl; by rewrite take_drop|constructor]. }
  apply Forall_cons in Hall as [Ha Hall].
  destruct (chunk_step lines path chunk i) as [[r j]| |] eqn:Hstep; [|done..]. simpl in Hrs.
  destruct (replacements_loop lines path chunks j) as [rs'| |] eqn:Hrs'; [|done..].
  injection Hrs as <-.
  destruct (chunk_step_anchored _ _ _ _ _ _ Hi Ha Hstep)
    as (s & pat & new & -> & -> & His & Hs & Hex & Hsim & Hctx).
  destruct (IH _ _ Hs Hall Hrs') as (Hsort & Hge & out & Hout & Happ).
  split_and!.
  - constructor; [done|]. eapply Forall_impl; [exact Hge|]. unfold starts_le. simpl. lia.
  - constructor; [done|]. eapply Forall_impl; [exact Hge|]. simpl. lia.
  - exists (take (s - i) (drop i lines) ++ new ++ out). split.
    + assert (Hlen : length (take (s + length pat) lines) = s + length pat)
        by (rewrite length_take; lia).
      rewrite apply_replacements_cons, Hout. cbn [mbind Res_bind].
      rewrite apply_one_ok by (rewrite length_app; lia).
      rewrite take_app_le, take_take, Nat.min_l by lia.
      rewrite drop_app_length' by done. f_equal.
      rewrite (app_assoc (take i lines)), take_take_drop. by replace (i + (s - i)) with s by lia.
    + rewrite (split_at_block lines i s (length pat)) at 1 by done. by econstructor.
Qed.

Lemma contents_of_lines_end ls :
  contents_of_lines ls = [] ∨ last (contents_of_lines ls) = Some c_nl.
Proof.
  unfold contents_of_lines.
  assert (∃ front, (if last_is_empty ls then ls else ls ++ [[]]) = front ++ [[]]) as [front ->].
  { destruct (last_is_empty ls) eqn:H; [|eauto]. eexists. by apply last_is_empty_snoc. }
  destruct front as [|l front]; [by left|right]. rewrite join_app by done. simpl.
  apply last_snoc.
Qed.

(** Updating a file never panics, whatever the file and the chunks:
    no index, removal or insertion is out of bounds.  The outcome is either
    a new text, which is empty or ends in a newline, or the error that some
    context or some old lines were not found. *)
Theorem derive_new_contents_total path original_contents chunks :
  (∃ text, derive_new_contents path original_contents chunks = Ok text ∧
     (text = [] ∨ last text = Some c_nl)) ∨
  ∃ message, derive_new_contents path original_contents chunks =
    Err (ComputeReplacements message).
Proof.
  unfold derive_new_contents, compute_replacements. set (lines := original_lines_of _).
  destruct (replacements_loop_cases lines path chunks 0) as [[m ->]|(rs & -> & Hrs)];
    [lia|simpl; by eauto|]. simpl. left.
  destruct (apply_replacements_ok (E:=ApplyPatchError) lines (sort_by_start rs)) as (out & -> & _).
  - apply sort_by_start_sorted.
  - by rewrite sort_by_start_perm.
  - simpl. eexists. split; [done|]. apply contents_of_lines_end.
Qed.

(** C34. When every chunk has old lines and none is marked end-of-file, a
    successful update is the one the abstract specification describes: in
    chunk order, blocks of lines that match the old lines (and lie below the
    chunk's context line) are exchanged for the new lines, and all other lines
    are kept in place. *)
Theorem update_refines_spec (E : Type) lines path chunks rs :
  Forall anchored chunks → compute_replacements lines path chunks = Ok rs →
  ∃ out, apply_replacements (E:=E) lines rs = Ok out ∧ applied chunks lines out.
Proof.
  unfold compute_replacements. intros Hall Hrs.
  destruct (replacements_loop lines path chunks 0) as [rs'| |] eqn:Hloop; [|done..].
  injection Hrs as <-.
  destruct (replacements_loop_applied (E:=E) lines path chunks 0 rs')
    as (Hsort & _ & out & Hout & Happ); [lia|done|done|].
  exists out. rewrite sort_by_start_id by done. by rewrite Hout.
Qed.

Definition demo_lines : list str :=
  [lit "fn a() {"; lit "  one"; lit "}"; lit "fn b() {"; lit "  one  "; lit "}"].
Definition demo_chunks : list UpdateFileChunk :=
  [{| change_context := Some (lit "fn b() {"); old_lines := [lit "one"]; new_lines := [lit "two"];
      is_end_of_file := false |};
   {| change_context := None; old_lines := [lit "}"]; new_lines := [lit "}"; lit "// end"];
      is_end_of_file := false |}].

Lemma update_refines_spec_witness :
  ∃ out, apply_replacements (E:=unit) demo_lines [(4, 1, [lit "two"]); (5, 1, [lit "}"; lit "// end"])]
    = Ok out ∧ applied demo_chunks demo_lines out.
Proof.
  apply (update_refines_spec unit demo_lines (lit "f") demo_chunks).
  - by_compute.
  - vm_compute. reflexivity.
Defined.

(** A chunk whose old lines occur verbatim in the file, and not earlier
    in it, exchanges exactly that occurrence for its new lines. *)
Theorem single_chunk_exact path before old after new :
  old ≠ [] →
  (∀ j, j < length before → ¬ matches_at id (before ++ old ++ after) old j) →
  compute_replacements (before ++ old ++ after) path
    [{| change_context := None; old_lines := old; new_lines := new; is_end_of_file := false |}]
  = Ok [(length before, length old, new)] ∧
  apply_replacements (E:=ApplyPatchError) (before ++ old ++ after)
    [(length before, length old, new)] = Ok (before ++ new ++ after).
Proof.
  intros Hne Hfirst. set (lines := before ++ old ++ after).
  assert (Hm : matches_at id lines old (length before)).
  { unfold matches_at, lines. rewrite !length_app, drop_app_length, take_app_length.
    split; [lia|done]. }
  assert (Hseek : seek_sequence (E:=ApplyPatchError) lines old 0 false = Ok (Some (length before))).
  { destruct (seek_sequence_total (E:=ApplyPatchError) lines old 0 false Hne) as (r & -> & Hr).
    change (search_start lines old 0 false) with 0 in Hr.
    inversion Hr as [k f i Hk Hge Hi Hmin Hprev|Hnone]; subst; simpl in *.
    - destruct k as [|k].
      + injection Hk as <-. do 2 f_equal.
        destruct (Nat.lt_trichotomy i (length before)) as [|[|]]; [by destruct (Hfirst i)|done|].
        by destruct (Hmin (length before)); [lia|].
      + by destruct (Hprev 0 id (Nat.lt_0_succ k) eq_refl (length before)); [lia|].
    - by destruct (Hnone id (length before)); [set_solver|lia|]. }
  split.
  - unfold compute_replacements. simpl. unfold chunk_step, seek_context. simpl.
    destruct old as [|o os] eqn:Ho; [done|]. rewrite <-Ho in *. unfold locate_old_lines. simpl.
    rewrite Hseek. done.
  - rewrite apply_replacements_cons. simpl. rewrite apply_one_ok by (unfold lines; rewrite length_app; lia).
    unfold lines. rewrite take_app_length, (app_assoc before old), <-length_app, drop_app_length. done.
Qed.

Lemma single_chunk_exact_witness :
  compute_replacements ([lit "x"] ++ [lit "a"; lit "b"] ++ [lit "a"]) (lit "f")
    [{| change_context := None; old_lines := [lit "a"; lit "b"]; new_lines := [lit "c"];
        is_end_of_file := false |}] = Ok [(1, 2, [lit "c"])] ∧
  apply_replacements (E:=ApplyPatchError) ([lit "x"] ++ [lit "a"; lit "b"] ++ [lit "a"])
    [(1, 2, [lit "c"])] = Ok ([lit "x"] ++ [lit "c"] ++ [lit "a"]).
Proof.
  apply (single_chunk_exact (lit "f") [lit "x"] [lit "a"; lit "b"] [lit "a"] [lit "c"]).
  - discriminate.
  - intros [|j] Hj; [by_compute|]. simpl in Hj. lia.
Defined.

(** A file that ends in a blank line loses that line in every update that
    leaves its end alone, although no chunk removes it: the empty last line is
    taken for the element after the final newline. *)
Theorem trailing_blank_line_dropped path body :
  derive_new_contents path (body ++ [c_nl; c_nl]) [] = Ok (body ++ [c_nl]) ∧
  derive_new_contents (lit "f") (lit "a" ++ [c_nl; c_nl])
    [{| change_context := None; old_lines := [lit "a"]; new_lines := [lit "b"];
        is_end_of_file := false |}] = Ok (lit "b" ++ [c_nl]).
Proof.
  split; [|by vm_compute]. unfold derive_new_contents, compute_replacements. simpl.
  assert (Hl : original_lines_of (body ++ [c_nl; c_nl]) = split_on c_nl body ++ [[]]).
  { unfold original_lines_of.
    assert (split_on c_nl (body ++ [c_nl; c_nl]) = (split_on c_nl body ++ [[]]) ++ [[]]) as ->.
    { induction body as [|x body IH]; [done|]. simpl. rewrite IH. case_match; [done|].
      assert (Hne := split_on_nonempty c_nl body). by destruct (split_on c_nl body). }
    unfold last_is_empty. rewrite last_snoc, bool_decide_eq_true_2 by done. apply vec_pop_snoc. }
  rewrite Hl. unfold apply_replacements, contents_of_lines. simpl.
  unfold last_is_empty. rewrite last_snoc, bool_decide_eq_true_2 by done.
  rewrite join_app by (done || apply split_on_nonempty). rewrite join_split_on. done.
Qed.

(** A pure addition can be lost: its insertion point is before the final
    empty line, where a replacement of an earlier chunk may reach, and then
    the earlier chunk, applied last, removes the added line. *)
Theorem pure_addition_can_be_lost :
  derive_new_contents (lit "f") (lit "a" ++ [c_nl; c_nl])
    [{| change_context := None; old_lines := [lit "a"; []]; new_lines := [lit "b"; []];
        is_end_of_file := false |};
     {| change_context := None; old_lines := []; new_lines := [lit "c"];
        is_end_of_file := false |}] = Ok (lit "b" ++ [c_nl; c_nl]).
Proof. by vm_compute. Qed.
