(* ===== verification/ApplyPatch.v ===== *)
(** * Applying a patch to a file system: [apply-patch/src/lib.rs]

    [apply_hunks_to_files] runs the hunks one after the other on a file
    system; [apply_hunks] and [apply_patch] add parsing and the report to
    the user.  All code is over any [ExecutorFileSystem]; the theorems assume
    [FileSystemLaws] and describe the files before and after. *)
From S2P Require Import Prelude RustStr Utf8 AbsolutePath FileSystem PatchParser Replacements.

(** [anyhow::Error]: an [io::Error] under a context message, an
    [ApplyPatchError], or a message of [bail!]. *)
Inductive anyhow : Type :=
| AnyIo (context : str) (source : io_error)
| AnyApplyPatch (e : ApplyPatchError)
| AnyMessage (message : str).

Definition show_parse_error (e : ParseError) : str :=
  match e with
  | InvalidPatchError message => lit "invalid patch: " ++ message
  | InvalidHunkError message line_number =>
      lit "invalid hunk at line " ++ show_nat line_number ++ lit ", " ++ message
  end.

Definition show_apply_patch_error (e : ApplyPatchError) : str :=
  match e with
  | ParseError_ e => show_parse_error e
  | IoError context source => context ++ lit ": " ++ err_message source
  | ComputeReplacements message => message
  | ImplicitInvocation =>
      lit "patch detected without explicit call to apply_patch. Rerun as [" ++ [c_dquote]
      ++ lit "apply_patch" ++ [c_dquote] ++ lit ", " ++ [c_dquote] ++ lit "<patch>" ++ [c_dquote]
      ++ lit "]"
  end.

(** [err.to_string()]: the outermost context. *)
Definition show_anyhow (e : anyhow) : str :=
  match e with
  | AnyIo context _ => context
  | AnyApplyPatch e => show_apply_patch_error e
  | AnyMessage message => message
  end.

(** [ApplyPatchError::from(io::Error)] *)
Definition from_io_error (e : io_error) : ApplyPatchError := IoError (lit "I/O error") e.

Record AffectedPaths : Type := {
  added : list str;
  modified : list str;
  deleted : list str
}.

(** [std::io::Write], with one operation for a [writeln!]. *)
Class Write (W : Type) : Type := write_line : W → str → W * Res io_error unit.

(** A buffer in memory. *)
#[global] Instance Write_buffer : Write str := λ w line, (w ++ line ++ [c_nl], Ok ()).

Section apply.
Context {FS Sandbox W : Type} `{!ExecutorFileSystem FS Sandbox} `{!Write W}.
Context (home_dir : option str) (sandbox : option Sandbox).

(** [fs.op(..).await.with_context(..)?] *)
Definition with_context {A} (context : str) (m : Eff FS io_error A) : Eff FS anyhow A :=
  eff_map_err (AnyIo context) m.

Definition resolve_path (h : Hunk) (cwd : str) : str :=
  let path := match h with
              | UpdateFile path _ _ => path
              | AddFile _ _ | DeleteFile _ => hunk_path h
              end in
  resolve_path_against_base home_dir path cwd.

Definition write_file_with_missing_parent_retry (path_abs : str) (contents : list N)
    : Eff FS anyhow unit := λ fs,
  let failed_to_write := lit "Failed to write file " ++ path_abs in
  match write_file fs path_abs contents sandbox with
  | (fs, Ok ()) => (fs, Ok ())
  | (fs, Panic p) => (fs, Panic p)
  | (fs, Err err) =>
      if decide (err_kind err = NotFound) then
        (_ ← match path_parent path_abs with
             | Some parent_abs =>
                 with_context (lit "Failed to create parent directories for " ++ path_abs)
                   (λ fs, create_directory fs parent_abs {| create_recursive := true |} sandbox)
             | None => mret ()
             end;
         with_context failed_to_write (λ fs, write_file fs path_abs contents sandbox)) fs
      else (fs, Err (AnyIo failed_to_write err))
  end.

(** The [async] block that removes a file but refuses a directory. *)
Definition remove_file_not_directory (path_abs : str) : Eff FS io_error unit :=
  metadata ← reads (λ fs, get_metadata fs path_abs sandbox);
  if is_directory metadata then
    lift (Err {| err_kind := InvalidInput; err_message := lit "path is a directory" |})
  else
    λ fs, remove fs path_abs {| remove_recursive := false; remove_force := false |} sandbox.

Definition derive_new_contents_from_chunks (path_abs : str) (chunks : list UpdateFileChunk)
    (fs : FS) : Res ApplyPatchError (str * str) :=
  original_contents ←
    map_err (IoError (lit "Failed to read file to update " ++ path_abs))
      (read_file_text fs path_abs sandbox);
  new_contents ← derive_new_contents path_abs original_contents chunks;
  Ok (original_contents, new_contents).

Definition push_added (p : str) (a : AffectedPaths) : AffectedPaths :=
  {| added := added a ++ [p]; modified := modified a; deleted := deleted a |}.
Definition push_modified (p : str) (a : AffectedPaths) : AffectedPaths :=
  {| added := added a; modified := modified a ++ [p]; deleted := deleted a |}.
Definition push_deleted (p : str) (a : AffectedPaths) : AffectedPaths :=
  {| added := added a; modified := modified a; deleted := deleted a ++ [p] |}.

(** One turn of the loop over the hunks. *)
Definition apply_hunk (cwd : str) (hunk : Hunk) (affected : AffectedPaths)
    : Eff FS anyhow AffectedPaths :=
  let affected_path := hunk_path hunk in
  let path_abs := resolve_path hunk cwd in
  match hunk with
  | AddFile _ contents =>
      _ ← write_file_with_missing_parent_retry path_abs (encode contents);
      mret (push_added affected_path affected)
  | DeleteFile _ =>
      _ ← with_context (lit "Failed to delete file " ++ path_abs)
            (remove_file_not_directory path_abs);
      mret (push_deleted affected_path affected)
  | UpdateFile _ move_path chunks =>
      applied ← eff_map_err AnyApplyPatch
                  (reads (derive_new_contents_from_chunks path_abs chunks));
      match move_path with
      | Some dest =>
          let dest_abs := resolve_path_against_base home_dir dest cwd in
          _ ← write_file_with_missing_parent_retry dest_abs (encode applied.2);
          _ ← with_context (lit "Failed to remove original " ++ path_abs)
                (remove_file_not_directory path_abs);
          mret (push_modified affected_path affected)
      | None =>
          _ ← with_context (lit "Failed to write file " ++ path_abs)
                (λ fs, write_file fs path_abs (encode applied.2) sandbox);
          mret (push_modified affected_path affected)
      end
  end.

Fixpoint apply_hunks_loop (cwd : str) (hunks : list Hunk) (affected : AffectedPaths)
    : Eff FS anyhow AffectedPaths :=
  match hunks with
  | [] => mret affected
  | hunk :: hunks' =>
      affected ← apply_hunk cwd hunk affected;
      apply_hunks_loop cwd hunks' affected
  end.

Definition apply_hunks_to_files (hunks : list Hunk) (cwd : str) : Eff FS anyhow AffectedPaths :=
  match hunks with
  | [] => lift (Err (AnyMessage (lit "No files were modified.")))
  | _ => apply_hunks_loop cwd hunks {| added := []; modified := []; deleted := [] |}
  end.

(** The lines of [print_summary], written until a write fails. *)
Definition summary_lines (affected : AffectedPaths) : list str :=
  [lit "Success. Updated the following files:"]
  ++ map (λ p, lit "A " ++ p) (added affected)
  ++ map (λ p, lit "M " ++ p) (modified affected)
  ++ map (λ p, lit "D " ++ p) (deleted affected).

Fixpoint write_lines (ls : list str) (out : W) : W * Res io_error unit :=
  match ls with
  | [] => (out, Ok ())
  | l :: ls' =>
      match write_line out l with
      | (out, Ok ()) => write_lines ls' out
      | r => r
      end
  end.

Definition print_summary (affected : AffectedPaths) (out : W) : W * Res io_error unit :=
  write_lines (summary_lines affected) out.

(** The state of a run: the file system and the two output streams. *)
Record world : Type := { w_fs : FS; w_stdout : W; w_stderr : W }.

Definition on_fs {E A} (m : Eff FS E A) : Eff world E A := λ w,
  let (fs, r) := m (w_fs w) in
  ({| w_fs := fs; w_stdout := w_stdout w; w_stderr := w_stderr w |}, r).
Definition on_stdout {E A} (m : Eff W E A) : Eff world E A := λ w,
  let (out, r) := m (w_stdout w) in
  ({| w_fs := w_fs w; w_stdout := out; w_stderr := w_stderr w |}, r).
Definition on_stderr {E A} (m : Eff W E A) : Eff world E A := λ w,
  let (err, r) := m (w_stderr w) in
  ({| w_fs := w_fs w; w_stdout := w_stdout w; w_stderr := err |}, r).

(** [writeln!(stderr, ..).map_err(ApplyPatchError::from)?] *)
Definition report (message : str) : Eff world ApplyPatchError unit :=
  eff_map_err from_io_error (on_stderr (λ err, write_line err message)).

Definition apply_hunks (hunks : list Hunk) (cwd : str) : Eff world ApplyPatchError unit := λ w,
  match on_fs (apply_hunks_to_files hunks cwd) w with
  | (w, Ok affected) => eff_map_err from_io_error (on_stdout (print_summary affected)) w
  | (w, Err err) =>
      let msg := show_anyhow err in
      (_ ← report msg;
       lift (Err match err with
                 | AnyIo _ io => from_io_error io
                 | _ => IoError msg {| err_kind := OtherKind; err_message := msg |}
                 end)) w
  | (w, Panic p) => (w, Panic p)
  end.

Definition apply_patch (patch_text : str) (cwd : str) : Eff world ApplyPatchError unit :=
  match parse_patch patch_text with
  | Ok source => apply_hunks (hunks source) cwd
  | Err e =>
      _ ← report match e with
                 | InvalidPatchError message => lit "Invalid patch: " ++ message
                 | InvalidHunkError message line_number =>
                     lit "Invalid patch hunk on line " ++ show_nat line_number ++ lit ": "
                     ++ message
                 end;
      lift (Err (ParseError_ e))
  | Panic p => lift (Panic p)
  end.
End apply.

(** ** Specification *)

(** The files of a file system, as its clients see them. *)
Definition file_map : Type := str → option (list N).
Definition upd (p : str) (o : option (list N)) (m : file_map) : file_map :=
  λ q, if decide (q = p) then o else m q.
Definition same_files (m m' : file_map) : Prop := ∀ q, m' q = m q.

(** The text an update hunk gives to the file at [path_abs]. *)
Definition updated_text (path_abs : str) (chunks : list UpdateFileChunk) (m : file_map)
    (new : str) : Prop :=
  ∃ bytes text, m path_abs = Some bytes ∧ from_utf8 bytes = Utf8Ok text ∧
    derive_new_contents path_abs text chunks = Ok new.

Inductive hunk_effect (home_dir : option str) (cwd : str) : Hunk → file_map → file_map → Prop :=
| effect_add path contents m m' :
    same_files (upd (resolve_path_against_base home_dir path cwd) (Some (encode contents)) m) m' →
    hunk_effect home_dir cwd (AddFile path contents) m m'
| effect_delete path m m' :
    same_files (upd (resolve_path_against_base home_dir path cwd) None m) m' →
    hunk_effect home_dir cwd (DeleteFile path) m m'
| effect_update path chunks m m' new :
    updated_text (resolve_path_against_base home_dir path cwd) chunks m new →
    same_files (upd (resolve_path_against_base home_dir path cwd) (Some (encode new)) m) m' →
    hunk_effect home_dir cwd (UpdateFile path None chunks) m m'
| effect_move path dest chunks m m' new :
    updated_text (resolve_path_against_base home_dir path cwd) chunks m new →
    same_files (upd (resolve_path_against_base home_dir path cwd) None
                 (upd (resolve_path_against_base home_dir dest cwd) (Some (encode new)) m)) m' →
    hunk_effect home_dir cwd (UpdateFile path (Some dest) chunks) m m'.

Inductive hunks_effect (home_dir : option str) (cwd : str)
    : list Hunk → file_map → file_map → Prop :=
| effects_nil m m' : same_files m m' → hunks_effect home_dir cwd [] m m'
| effects_cons h hs m1 m2 m3 :
    hunk_effect home_dir cwd h m1 m2 → hunks_effect home_dir cwd hs m2 m3 →
    hunks_effect home_dir cwd (h :: hs) m1 m3.

(** The absolute paths a hunk may change. *)
Definition touched (home_dir : option str) (cwd : str) (h : Hunk) : list str :=
  resolve_path home_dir h cwd ::
  match h with
  | UpdateFile _ (Some dest) _ => [resolve_path_against_base home_dir dest cwd]
  | _ => []
  end.

Definition is_add (h : Hunk) : bool := match h with AddFile _ _ => true | _ => false end.
Definition is_delete (h : Hunk) : bool := match h with DeleteFile _ => true | _ => false end.
Definition is_update (h : Hunk) : bool := match h with UpdateFile _ _ _ => true | _ => false end.

(** The summary a run over all hunks reports. *)
Definition affected_by (hunks : list Hunk) : AffectedPaths :=
  {| added := map hunk_path (List.filter is_add hunks);
     modified := map hunk_path (List.filter is_update hunks);
     deleted := map hunk_path (List.filter is_delete hunks) |}.

(** ** Proofs *)

Section proofs.
#[local] Set Default Proof Using "Type*".
Context {FS Sandbox : Type} `{!ExecutorFileSystem FS Sandbox} `{!FileSystemLaws FS Sandbox}.
Context (home_dir : option str) (sandbox : option Sandbox) (cwd : str).
Implicit Types (fs : FS) (p q : str).

Local Abbreviation view := (view sandbox).
Local Abbreviation resolve p := (resolve_path_against_base home_dir p cwd).

Lemma with_context_Ok {A} c (m : Eff FS io_error A) fs fs' a :
  with_context c m fs = (fs', Ok a) → m fs = (fs', Ok a).
Proof.
  unfold with_context, eff_map_err. destruct (m fs) as [? []]; simpl; intros [= <- <-]; done.
Qed.

Lemma with_context_state {A} c (m : Eff FS io_error A) fs :
  (with_context c m fs).1 = (m fs).1.
Proof. unfold with_context, eff_map_err. by destruct (m fs). Qed.

Lemma retry_ok p c fs fs' :
  write_file_with_missing_parent_retry sandbox p c fs = (fs', Ok ()) →
  same_files (upd p (Some c) (view fs)) (view fs').
Proof.
  unfold write_file_with_missing_parent_retry.
  destruct (write_file fs p c sandbox) as [fs1 [[]|e|pp]] eqn:E1; [|case_decide as Hk|]; [| |done..].
  { intros [= <-] q. by rewrite (write_ok _ _ _ _ _ _ E1). }
  intros (fs2 & ? & Hdir & Hw%with_context_Ok)%Eff_bind_Ok q.
  rewrite (write_ok _ _ _ _ _ _ Hw). unfold upd. case_decide; [done|].
  rewrite <-(write_not_found _ _ _ _ _ _ _ E1 Hk).
  destruct (path_parent p) as [d|]; [|by injection Hdir as ->].
  apply with_context_Ok in Hdir. by rewrite (create_directory_frame _ _ _ _ _ _ _ Hdir).
Qed.

Lemma retry_frame p c fs q :
  q ≠ p → view (write_file_with_missing_parent_retry sandbox p c fs).1 q = view fs q.
Proof.
  intros Hq. unfold write_file_with_missing_parent_retry.
  destruct (write_file fs p c sandbox) as [fs1 r1] eqn:E1.
  assert (H1 : view fs1 q = view fs q) by (by apply (write_frame _ _ _ _ _ _ _ E1)).
  destruct r1 as [[]|e|pp]; [done| |done]. case_decide; [|done].
  apply (Eff_bind_keeps (λ s, view s q = view fs q)).
  - intros fs2 r2. destruct (path_parent p) as [d|]; [|by intros [= <- _]].
    intros E2. rewrite <-H1. apply (f_equal fst) in E2. rewrite with_context_state in E2.
    simpl in E2. destruct (create_directory _ _ _ _) as [fs3 r3] eqn:E3. simpl in E2. subst fs3.
    by rewrite (create_directory_frame _ _ _ _ _ _ _ E3).
  - intros _ s <-. rewrite with_context_state.
    destruct (write_file s p c sandbox) as [s' r'] eqn:Ew. by apply (write_frame _ _ _ _ _ _ _ Ew).
Qed.

Lemma remove_file_ok p fs fs' :
  remove_file_not_directory sandbox p fs = (fs', Ok ()) →
  same_files (upd p None (view fs)) (view fs').
Proof.
  intros (fs1 & md & [= -> Hmd] & Hr)%Eff_bind_Ok q.
  destruct (is_directory md); [done|]. by eapply remove_ok in Hr as ->.
Qed.

Lemma remove_file_frame p fs q :
  q ≠ p → view (remove_file_not_directory sandbox p fs).1 q = view fs q.
Proof.
  intros Hq. unfold remove_file_not_directory.
  apply (Eff_bind_keeps (λ s, view s q = view fs q)); [by intros ?? [= <- _]|].
  intros md s <-. destruct (is_directory md); [done|].
  destruct (remove s p _ sandbox) as [s' r] eqn:Er. by eapply remove_frame in Er as ->.
Qed.

Lemma derive_ok p chunks fs old new :
  derive_new_contents_from_chunks sandbox p chunks fs = Ok (old, new) →
  updated_text p chunks (view fs) new.
Proof.
  unfold derive_new_contents_from_chunks, read_file_text, updated_text, FileSystem.view.
  destruct (read_file fs p sandbox) as [bytes| |]; simpl; [|done..].
  destruct (from_utf8 bytes) as [text|] eqn:Hu; simpl; [|done].
  destruct (derive_new_contents p text chunks) eqn:Hd; simpl; [|done..].
  intros [= <- <-]. eauto.
Qed.

Definition record_hunk (h : Hunk) (a : AffectedPaths) : AffectedPaths :=
  match h with
  | AddFile _ _ => push_added (hunk_path h) a
  | DeleteFile _ => push_deleted (hunk_path h) a
  | UpdateFile _ _ _ => push_modified (hunk_path h) a
  end.

Lemma apply_hunk_ok h a a' fs fs' :
  apply_hunk home_dir sandbox cwd h a fs = (fs', Ok a') →
  hunk_effect home_dir cwd h (view fs) (view fs') ∧ a' = record_hunk h a.
Proof.
  destruct h as [path contents|path|path [dest|] chunks]; unfold apply_hunk.
  - intros (fs1 & [] & Hw%retry_ok & [= <- <-])%Eff_bind_Ok. split; [by constructor|done].
  - intros (fs1 & [] & Hr%with_context_Ok%remove_file_ok & [= <- <-])%Eff_bind_Ok.
    split; [by constructor|done].
  - intros (fs1 & [old new] & Hd & (fs2 & [] & Hw%retry_ok & (fs3 & [] & Hr & [= <- <-])
      %Eff_bind_Ok)%Eff_bind_Ok)%Eff_bind_Ok.
    apply with_context_Ok, remove_file_ok in Hr. unfold eff_map_err, reads in Hd.
    destruct (derive_new_contents_from_chunks _ _ _ _) eqn:Hd'; simpl in Hd; [|done..].
    injection Hd as <- ->. apply derive_ok in Hd'. split; [|done].
    eapply effect_move; [exact Hd'|]. intros q. rewrite Hr.
    change (resolve_path _ _ _) with (resolve path). unfold upd at 1 2. case_decide; [done|].
    apply Hw.
  - intros (fs1 & [old new] & Hd & (fs2 & [] & Hw%with_context_Ok & [= <- <-])%Eff_bind_Ok)
      %Eff_bind_Ok.
    unfold eff_map_err, reads in Hd.
    destruct (derive_new_contents_from_chunks _ _ _ _) eqn:Hd'; simpl in Hd; [|done..].
    injection Hd as <- ->. apply derive_ok in Hd'. split; [|done].
    eapply effect_update; [exact Hd'|]. intros q. by rewrite (write_ok _ _ _ _ _ _ Hw).
Qed.

Lemma apply_hunk_frame h a fs q :
  q ∉ touched home_dir cwd h →
  view (apply_hunk home_dir sandbox cwd h a fs).1 q = view fs q.
Proof.
  set (P := λ s, view s q = view fs q).
  destruct h as [path contents|path|path move chunks]; unfold touched, apply_hunk; intros Hq.
  - apply (Eff_bind_keeps P); [|done]. intros s r Hr. unfold P.
    apply (f_equal fst) in Hr; simpl in Hr; subst s. apply retry_frame. set_solver.
  - apply (Eff_bind_keeps P); [|done]. intros s r Hr. unfold P.
    apply (f_equal fst) in Hr; simpl in Hr; subst s.
    rewrite with_context_state. apply remove_file_frame. set_solver.
  - apply (Eff_bind_keeps P); [by intros s r [= <- _]|].
    intros [old new] s Hs. destruct move as [dest|].
    + apply (Eff_bind_keeps P).
      * intros s1 r1 E1. unfold P. rewrite <-Hs. apply (f_equal fst) in E1; simpl in E1; subst s1.
        apply retry_frame. set_solver.
      * intros _ s1 Hs1. apply (Eff_bind_keeps P); [|done]. intros s2 r2 E2. unfold P.
        rewrite <-Hs1. apply (f_equal fst) in E2; simpl in E2; subst s2.
        rewrite with_context_state. apply remove_file_frame. set_solver.
    + apply (Eff_bind_keeps P); [|done]. intros s1 r1 E1. unfold P. rewrite <-Hs.
      apply (f_equal fst) in E1; simpl in E1; subst s1. rewrite with_context_state.
      destruct (write_file _ _ _ _) as [s' r'] eqn:Ew. apply (write_frame _ _ _ _ _ _ _ Ew).
      set_solver.
Qed.

Lemma hunks_loop_ok hs a a' fs fs' :
  apply_hunks_loop home_dir sandbox cwd hs a fs = (fs', Ok a') →
  hunks_effect home_dir cwd hs (view fs) (view fs') ∧ a' = foldl (flip record_hunk) a hs.
Proof.
  revert a fs; induction hs as [|h hs IH]; intros a fs; simpl.
  { intros [= <- <-]. split; [by constructor|done]. }
  intros (fs1 & a1 & [Heff ->]%apply_hunk_ok & [Heffs ->]%IH)%Eff_bind_Ok.
  split; [by econstructor|done].
Qed.

Lemma hunks_loop_err hs a fs fs' e :
  apply_hunks_loop home_dir sandbox cwd hs a fs = (fs', Err e) →
  ∃ done h todo m, hs = done ++ h :: todo ∧
    hunks_effect home_dir cwd done (view fs) m ∧
    ∀ q, q ∉ touched home_dir cwd h → view fs' q = m q.
Proof.
  revert a fs; induction hs as [|h hs IH]; intros a fs; simpl; [done|].
  unfold mbind at 1, Eff_bind. destruct (apply_hunk home_dir sandbox cwd h a fs)
    as [fs1 [a1|e1|p1]] eqn:Eh; [| |done].
  - intros (dn & h' & todo & m & -> & Heff & Hfr)%IH. apply apply_hunk_ok in Eh as [Eh _].
    exists (h :: dn), h', todo, m. split_and!; [done|by econstructor|done].
  - intros [= <- _]. exists [], h, hs, (view fs). split_and!; [done|by constructor|].
    intros q Hq. by rewrite <-(apply_hunk_frame h a fs q Hq), Eh.
Qed.

Lemma hunks_loop_frame hs a fs q :
  (∀ h, h ∈ hs → q ∉ touched home_dir cwd h) →
  view (apply_hunks_loop home_dir sandbox cwd hs a fs).1 q = view fs q.
Proof.
  revert a fs; induction hs as [|h hs IH]; intros a fs Hq; simpl; [done|].
  apply (Eff_bind_keeps (λ s, view s q = view fs q)).
  - intros s r Hr. rewrite <-(apply_hunk_frame h a fs q), Hr; [done|]. apply Hq. set_solver.
  - intros a1 s1 <-. apply IH. set_solver.
Qed.

Lemma record_hunks hs a :
  foldl (flip record_hunk) a hs =
  {| added := added a ++ added (affected_by hs);
     modified := modified a ++ modified (affected_by hs);
     deleted := deleted a ++ deleted (affected_by hs) |}.
Proof.
  revert a; induction hs as [|h hs IH]; intros a; simpl.
  { rewrite !app_nil_r. by destruct a. }
  rewrite IH. destruct h; simpl; by rewrite <-?app_assoc.
Qed.

Lemma to_files_ok hs fs fs' a :
  apply_hunks_to_files home_dir sandbox hs cwd fs = (fs', Ok a) →
  hs ≠ [] ∧ hunks_effect home_dir cwd hs (view fs) (view fs') ∧ a = affected_by hs.
Proof.
  unfold apply_hunks_to_files. destruct hs as [|h hs]; [done|].
  intros [Heff ->]%hunks_loop_ok. by rewrite record_hunks.
Qed.

Lemma to_files_frame hs fs q :
  (∀ h, h ∈ hs → q ∉ touched home_dir cwd h) →
  view (apply_hunks_to_files home_dir sandbox hs cwd fs).1 q = view fs q.
Proof.
  unfold apply_hunks_to_files. destruct hs as [|h hs]; [done|]. apply hunks_loop_frame.
Qed.

Lemma apply_hunks_fs {W} `{!Write W} hs (w : world) :
  w_fs (apply_hunks (W:=W) home_dir sandbox hs cwd w).1 =
  (apply_hunks_to_files home_dir sandbox hs cwd (w_fs w)).1.
Proof.
  unfold apply_hunks, on_fs.
  destruct (apply_hunks_to_files home_dir sandbox hs cwd (w_fs w)) as [fs' [a|e|p]]; [| |done].
  - unfold eff_map_err, on_stdout. simpl. by destruct (print_summary a (w_stdout w)).
  - unfold report, eff_map_err, on_stderr, mbind, Eff_bind. simpl.
    by destruct (write_line _ _) as [? []].
Qed.

Lemma write_lines_buffer ls (out : str) :
  write_lines ls out = (out ++ concat (map (λ l, l ++ [c_nl]) ls), Ok ()).
Proof.
  revert out; induction ls as [|l ls IH]; intros out; simpl; [by rewrite app_nil_r|].
  rewrite IH. by rewrite <-!app_assoc.
Qed.
End proofs.

(** C1. A successful [apply_patch] did what its patch says: the text parsed
    into at least one hunk, the files changed by the effects of the hunks in
    order, with the bytes of updated files those of [derive_new_contents] on
    what was read, nothing was reported as an error, and the summary on
    standard output lists the added, modified and deleted paths of the patch.
    This holds over every file system that obeys [FileSystemLaws]. *)
Theorem apply_patch_success {FS Sandbox : Type} `{!ExecutorFileSystem FS Sandbox}
    `{!FileSystemLaws FS Sandbox} home_dir (sandbox : option Sandbox) cwd text
    (w w' : world (FS:=FS) (W:=str)) :
  apply_patch home_dir sandbox text cwd w = (w', Ok ()) →
  ∃ args, parse_patch text = Ok args ∧ hunks args ≠ [] ∧
    hunks_effect home_dir cwd (hunks args) (view sandbox (w_fs w)) (view sandbox (w_fs w')) ∧
    w_stderr w' = w_stderr w ∧
    w_stdout w' = w_stdout w ++
      concat (map (λ l, l ++ [c_nl]) (summary_lines (affected_by (hunks args)))).
Proof.
  unfold apply_patch. destruct (parse_patch text) as [args|e|p]; [|done..].
  unfold apply_hunks, on_fs.
  destruct (apply_hunks_to_files home_dir sandbox (hunks args) cwd (w_fs w))
    as [fs' [a|e|p]] eqn:Hrun; [|done..].
  apply to_files_ok in Hrun as (Hne & Heff & ->).
  unfold eff_map_err, on_stdout, print_summary. rewrite write_lines_buffer. intros [= <-].
  exists args. by split_and!.
Qed.

(** C2. When some hunk fails, the hunks before it have been carried out
    and stay in force, nothing outside of the failing hunk's own paths changed
    beyond that, and no hunk after it was started. *)
Theorem apply_hunks_failure_prefix {FS Sandbox : Type} `{!ExecutorFileSystem FS Sandbox}
    `{!FileSystemLaws FS Sandbox} home_dir (sandbox : option Sandbox) cwd hs (fs fs' : FS) e :
  hs ≠ [] → apply_hunks_to_files home_dir sandbox hs cwd fs = (fs', Err e) →
  ∃ done h todo m, hs = done ++ h :: todo ∧
    hunks_effect home_dir cwd done (view sandbox fs) m ∧
    ∀ q, q ∉ touched home_dir cwd h → view sandbox fs' q = m q.
Proof.
  unfold apply_hunks_to_files. destruct hs as [|h hs]; [done|]. intros _. apply hunks_loop_err.
Qed.

(** Whatever the outcome, [apply_patch] leaves every file alone that no
    hunk of the patch names as its path or its move destination; in
    particular a text that is no patch changes nothing. *)
Theorem apply_patch_frame {FS Sandbox W : Type} `{!ExecutorFileSystem FS Sandbox}
    `{!FileSystemLaws FS Sandbox} `{!Write W} home_dir (sandbox : option Sandbox) cwd text
    (w : world (FS:=FS) (W:=W)) q :
  (∀ args h, parse_patch text = Ok args → h ∈ hunks args → q ∉ touched home_dir cwd h) →
  view sandbox (w_fs (apply_patch home_dir sandbox text cwd w).1) q = view sandbox (w_fs w) q.
Proof.
  intros Hq. unfold apply_patch. destruct (parse_patch text) as [args|e|p]; [| |done].
  - rewrite apply_hunks_fs. apply to_files_frame. eauto.
  - unfold report, eff_map_err, on_stderr, mbind, Eff_bind. by destruct (write_line _ _) as [? []].
Qed.

(** An update whose move destination is the file itself destroys the
    file: the new text is written and then the original path is removed. *)
Theorem move_onto_itself_deletes {FS Sandbox : Type} `{!ExecutorFileSystem FS Sandbox}
    `{!FileSystemLaws FS Sandbox} home_dir (sandbox : option Sandbox) cwd path dest chunks
    (fs fs' : FS) a :
  resolve_path_against_base home_dir dest cwd = resolve_path_against_base home_dir path cwd →
  apply_hunks_to_files home_dir sandbox [UpdateFile path (Some dest) chunks] cwd fs = (fs', Ok a) →
  view sandbox fs (resolve_path_against_base home_dir path cwd) ≠ None ∧
  view sandbox fs' (resolve_path_against_base home_dir path cwd) = None.
Proof.
  intros Heq (_ & Heff & _)%to_files_ok.
  inversion Heff as [|? ? ? m ? Hh Ht]; subst. inversion Ht as [? ? Hs|]; subst.
  inversion Hh as [| | |? ? ? ? ? new Hupd Hm]; subst.
  destruct Hupd as (bytes & text & -> & _). split; [done|].
  rewrite Hs, Hm. unfold upd. by rewrite decide_True.
Qed.

(** ** Concrete runs *)

Definition demo_fs : MemFs :=
  <[lit "/w" := Dir]> (<[lit "/w/f" := File (encode (lit "a" ++ [c_nl] ++ lit "b" ++ [c_nl]))]>
    (<[lit "/w/keep" := File (lit "k")]> ∅)).

Definition demo_patch : str :=
  join [c_nl] [lit "*** Begin Patch"; lit "*** Add File: d/new"; lit "+x";
    lit "*** Update File: f"; lit "*** Move to: g"; lit "@@"; lit "-a"; lit "+A";
    lit "*** End Patch"].

Definition demo_world : world (FS:=MemFs) (W:=str) :=
  {| w_fs := demo_fs; w_stdout := []; w_stderr := [] |}.

Definition demo_result : world (FS:=MemFs) (W:=str) :=
  (apply_patch None (Sandbox:=unit) None demo_patch (lit "/w") demo_world).1.

Lemma apply_patch_success_witness :
  ∃ args, parse_patch demo_patch = Ok args ∧ hunks args ≠ [] ∧
    hunks_effect None (lit "/w") (hunks args)
      (view (Sandbox:=unit) None (w_fs demo_world)) (view (Sandbox:=unit) None (w_fs demo_result)) ∧
    w_stderr demo_result = w_stderr demo_world ∧
    w_stdout demo_result = w_stdout demo_world ++
      concat (map (λ l, l ++ [c_nl]) (summary_lines (affected_by (hunks args)))).
Proof.
  apply (apply_patch_success None None (lit "/w") demo_patch demo_world demo_result).
  vm_compute. reflexivity.
Defined.

Definition demo_failing_hunks : list Hunk :=
  [AddFile (lit "new") (lit "x"); DeleteFile (lit "missing"); DeleteFile (lit "keep")].

Lemma apply_hunks_failure_prefix_witness :
  ∃ done h todo m, demo_failing_hunks = done ++ h :: todo ∧
    hunks_effect None (lit "/w") done (view (Sandbox:=unit) None demo_fs) m ∧
    ∀ q, q ∉ touched None (lit "/w") h →
      view (Sandbox:=unit) None
        (<[lit "/w/new" := File (lit "x")]> demo_fs : MemFs) q = m q.
Proof.
  apply (apply_hunks_failure_prefix None None (lit "/w") demo_failing_hunks demo_fs _
    (AnyIo (lit "Failed to delete file /w/missing")
       {| err_kind := NotFound; err_message := lit "not found" |})).
  - discriminate.
  - vm_compute. reflexivity.
Defined.

Lemma apply_patch_frame_witness :
  view (Sandbox:=unit) None
    (w_fs (apply_patch None (Sandbox:=unit) None demo_patch (lit "/w") demo_world).1) (lit "/w/keep")
  = view (Sandbox:=unit) None (w_fs demo_world) (lit "/w/keep").
Proof.
  apply (apply_patch_frame None None (lit "/w") demo_patch demo_world (lit "/w/keep")).
  intros args h Hargs Hh.
  assert (E : parse_patch demo_patch = Ok args) by exact Hargs.
  vm_compute in E. injection E as <-.
  cbn [hunks] in Hh. rewrite !elem_of_cons, elem_of_nil in Hh.
  destruct Hh as [-> | [-> | []]]; by_compute.
Defined.

Lemma move_onto_itself_deletes_witness :
  view (Sandbox:=unit) None demo_fs (resolve_path_against_base None (lit "f") (lit "/w")) ≠ None ∧
  view (Sandbox:=unit) None (delete (lit "/w/f") demo_fs : MemFs)
    (resolve_path_against_base None (lit "f") (lit "/w")) = None.
Proof.
  apply (move_onto_itself_deletes None None (lit "/w") (lit "f") (lit "./f")
    [{| change_context := None; old_lines := [lit "a"]; new_lines := [lit "A"];
        is_end_of_file := false |}] demo_fs _
    {| added := []; modified := [lit "./f"]; deleted := [] |}).
  - vm_compute. reflexivity.
  - vm_compute. reflexivity.
Defined.
