(* ===== verification/Invocation.v ===== *)
(** * Recognising apply_patch commands: [apply-patch/src/{invocation,standalone_executable}.rs]

    [maybe_parse_apply_patch_verified] decides whether a command line is a
    call of apply_patch and, if so, computes the file changes that are shown
    for approval.  The Tree-sitter query over the bash grammar and the
    unified diff of the [similar] crate are parameters.  The main theorem
    relates the changes that are shown to the files after the patch is
    applied. *)
From S2P Require Import Prelude RustStr Utf8 AbsolutePath FileSystem PatchParser Replacements ApplyPatch.

Definition APPLY_PATCH_COMMANDS : list str := [lit "apply_patch"; lit "applypatch"].

Inductive ApplyPatchShell : Type := Unix | PowerShell | Cmd.

Inductive ExtractHeredocError : Type :=
| CommandDidNotStartWithApplyPatch
| FailedToLoadBashGrammar
| HeredocNotUtf8
| FailedToParsePatchIntoAst
| FailedToFindHeredocBody.

#[global] Instance ApplyPatchShell_eq_dec : EqDecision ApplyPatchShell.
Proof. solve_decision. Defined.
#[global] Instance ExtractHeredocError_eq_dec : EqDecision ExtractHeredocError.
Proof. solve_decision. Defined.

Inductive MaybeApplyPatch : Type :=
| Body (args : ApplyPatchArgs)
| ShellParseError (e : ExtractHeredocError)
| PatchParseError (e : ParseError)
| NotApplyPatch.

Inductive ApplyPatchFileChange : Type :=
| AddChange (content : str)
| DeleteChange (content : str)
| UpdateChange (unified_diff : str) (move_path : option str) (new_content : str).

Record ApplyPatchAction : Type := {
  changes : gmap str ApplyPatchFileChange;
  action_patch : str;
  action_cwd : str
}.

Inductive MaybeApplyPatchVerified : Type :=
| VerifiedBody (action : ApplyPatchAction)
| VerifiedShellParseError (e : ExtractHeredocError)
| CorrectnessError (e : ApplyPatchError)
| VerifiedNotApplyPatch.

(** ** Shells *)

Definition classify_shell_name (shell : str) : option str :=
  to_ascii_lowercase <$> file_stem shell.

Definition classify_shell (shell flag : str) : option ApplyPatchShell :=
  name ← classify_shell_name shell;
  if bool_decide (name ∈ [lit "bash"; lit "zsh"; lit "sh"])
     && bool_decide (flag ∈ [lit "-lc"; lit "-c"]) then Some Unix
  else if bool_decide (name ∈ [lit "pwsh"; lit "powershell"])
     && eq_ignore_ascii_case flag (lit "-command") then Some PowerShell
  else if bool_decide (name = lit "cmd") && eq_ignore_ascii_case flag (lit "/c") then Some Cmd
  else None.

Definition can_skip_flag (shell flag : str) : bool :=
  match classify_shell_name shell with
  | Some name =>
      bool_decide (name ∈ [lit "pwsh"; lit "powershell"])
      && eq_ignore_ascii_case flag (lit "-noprofile")
  | None => false
  end.

Definition parse_shell_script (argv : list str) : option (ApplyPatchShell * str) :=
  match argv with
  | [shell; flag; script] => (λ t, (t, script)) <$> classify_shell shell flag
  | [shell; skip_flag; flag; script] =>
      if can_skip_flag shell skip_flag then (λ t, (t, script)) <$> classify_shell shell flag
      else None
  | _ => None
  end.

(** ** Extraction of a heredoc *)

(** A capture of a query match: its name and the text of its node. *)
Definition capture : Type := str * Res ExtractHeredocError str.

Section invocation.
(** The matches of [APPLY_PATCH_QUERY] in a script, or the error of loading
    the grammar or of parsing. *)
Context (query_matches : str → Res ExtractHeredocError (list (list capture))).
(** [TextDiff::from_lines(old, new).unified_diff().context_radius(n)] *)
Context (text_diff : str → str → nat → str).
Context {FS Sandbox W : Type} `{!ExecutorFileSystem FS Sandbox} `{!Write W}.
Context (home_dir : option str) (sandbox : option Sandbox).

Definition unquote_raw_string (raw : str) : str :=
  match strip_prefix [c_squote] raw ≫= strip_suffix [c_squote] with
  | Some trimmed => trimmed
  | None => raw
  end.

(** The loop over the captures of one match. *)
Fixpoint read_captures (captures : list capture) (heredoc_text cd_path : option str)
    : Res ExtractHeredocError (option str * option str) :=
  match captures with
  | [] => Ok (heredoc_text, cd_path)
  | (name, text) :: captures' =>
      if decide (name = lit "heredoc") then
        text ← text;
        read_captures captures' (Some (trim_end_matches (N.eqb c_nl) text)) cd_path
      else if decide (name = lit "cd_path") then
        text ← text; read_captures captures' heredoc_text (Some text)
      else if decide (name = lit "cd_raw_string") then
        raw ← text; read_captures captures' heredoc_text (Some (unquote_raw_string raw))
      else read_captures captures' heredoc_text cd_path
  end.

(** The loop over the matches. *)
Fixpoint first_heredoc (matches : list (list capture))
    : Res ExtractHeredocError (str * option str) :=
  match matches with
  | [] => Err CommandDidNotStartWithApplyPatch
  | captures :: matches' =>
      r ← read_captures captures None None;
      match r with
      | (Some heredoc, cd_path) => Ok (heredoc, cd_path)
      | (None, _) => first_heredoc matches'
      end
  end.

Definition extract_apply_patch_from_bash (src : str)
    : Res ExtractHeredocError (str * option str) :=
  matches ← query_matches src; first_heredoc matches.

Definition extract_apply_patch_from_shell (shell : ApplyPatchShell) (script : str)
    : Res ExtractHeredocError (str * option str) :=
  match shell with
  | Unix | PowerShell | Cmd => extract_apply_patch_from_bash script
  end.

Definition set_workdir (d : option str) (a : ApplyPatchArgs) : ApplyPatchArgs :=
  {| patch := patch a; hunks := hunks a; workdir := d |}.

Definition parse_body {E} (body : str) (workdir : option str) : Res E MaybeApplyPatch :=
  match parse_patch body with
  | Ok source => Ok (Body (set_workdir workdir source))
  | Err e => Ok (PatchParseError e)
  | Panic p => Panic p
  end.

Definition maybe_parse_apply_patch_shell {E} (argv : list str) : Res E MaybeApplyPatch :=
  match parse_shell_script argv with
  | Some (shell, script) =>
      match extract_apply_patch_from_shell shell script with
      | Ok (body, workdir) => parse_body body workdir
      | Err CommandDidNotStartWithApplyPatch => Ok NotApplyPatch
      | Err e => Ok (ShellParseError e)
      | Panic p => Panic p
      end
  | None => Ok NotApplyPatch
  end.

(** In the direct form the [workdir] of [parse_patch] itself, [None], is
    kept. *)
Definition maybe_parse_apply_patch {E} (argv : list str) : Res E MaybeApplyPatch :=
  match argv with
  | [cmd; body] =>
      if decide (cmd ∈ APPLY_PATCH_COMMANDS) then
        match parse_patch body with
        | Ok source => Ok (Body source)
        | Err e => Ok (PatchParseError e)
        | Panic p => Panic p
        end
      else maybe_parse_apply_patch_shell argv
  | _ => maybe_parse_apply_patch_shell argv
  end.

(** ** The changes of a patch *)

Definition unified_diff_from_chunks_with_context (path_abs : str)
    (chunks : list UpdateFileChunk) (context : nat) (fs : FS)
    : Res ApplyPatchError (str * str) :=
  applied ← derive_new_contents_from_chunks sandbox path_abs chunks fs;
  Ok (text_diff applied.1 applied.2 context, applied.2).

Definition unified_diff_from_chunks (path_abs : str) (chunks : list UpdateFileChunk) (fs : FS)
    : Res ApplyPatchError (str * str) :=
  unified_diff_from_chunks_with_context path_abs chunks 1 fs.

(** The change recorded for a hunk. *)
Definition hunk_change (fs : FS) (effective_cwd : str) (hunk : Hunk)
    : Res ApplyPatchError ApplyPatchFileChange :=
  let path := resolve_path home_dir hunk effective_cwd in
  match hunk with
  | AddFile _ contents => Ok (AddChange contents)
  | DeleteFile _ =>
      DeleteChange <$> map_err (IoError (lit "Failed to read " ++ path))
                         (read_file_text fs path sandbox)
  | UpdateFile _ move_path chunks =>
      update ← unified_diff_from_chunks path chunks fs;
      Ok (UpdateChange update.1
            ((λ p, abs_join home_dir effective_cwd p) <$> move_path) update.2)
  end.

Fixpoint collect_changes (fs : FS) (effective_cwd : str) (hunks : list Hunk)
    (changes : gmap str ApplyPatchFileChange)
    : Res ApplyPatchError (gmap str ApplyPatchFileChange) :=
  match hunks with
  | [] => Ok changes
  | hunk :: hunks' =>
      change ← hunk_change fs effective_cwd hunk;
      collect_changes fs effective_cwd hunks'
        (<[resolve_path home_dir hunk effective_cwd := change]> changes)
  end.

(** [parse_patch] never panics, so that [is_ok] is all that matters here. *)
Definition is_raw_patch (argv : list str) : bool :=
  match argv with
  | [body] => is_ok (parse_patch body)
  | _ => false
  end.

Definition is_raw_patch_script (argv : list str) : bool :=
  match parse_shell_script argv with
  | Some (_, script) => is_ok (parse_patch script)
  | None => false
  end.

Definition maybe_parse_apply_patch_verified (argv : list str) (cwd : str) (fs : FS)
    : Res Empty_set MaybeApplyPatchVerified :=
  if is_raw_patch argv then Ok (CorrectnessError ImplicitInvocation)
  else if is_raw_patch_script argv then Ok (CorrectnessError ImplicitInvocation)
  else
    parsed ← maybe_parse_apply_patch argv;
    match parsed with
    | Body args =>
        let effective_cwd := match workdir args with
                             | Some dir => abs_join home_dir cwd dir
                             | None => cwd
                             end in
        match collect_changes fs effective_cwd (hunks args) ∅ with
        | Ok changes =>
            Ok (VerifiedBody {| changes := changes; action_patch := patch args;
                                action_cwd := effective_cwd |})
        | Err e => Ok (CorrectnessError e)
        | Panic p => Panic p
        end
    | ShellParseError e => Ok (VerifiedShellParseError e)
    | PatchParseError e => Ok (CorrectnessError (ParseError_ e))
    | NotApplyPatch => Ok VerifiedNotApplyPatch
    end.

(** ** The stand-alone executable *)

(** What the process gets from its environment: the arguments after the
    name of the program ([None] for one that is not UTF-8), standard input,
    the current directory, and whether the runtime could be built. *)
Record process_env : Type := {
  env_args : list (option str);
  env_stdin : Res io_error str;
  env_current_dir : Res io_error str;
  env_runtime : Res io_error unit
}.

(** [eprintln!] of one message; a failure to print is a panic of the
    macro, which a buffer never gives. *)
Definition eprintln (message : str) (w : world (FS:=FS) (W:=W)) : world (FS:=FS) (W:=W) :=
  (on_stderr (E:=io_error) (λ err, write_line err message) w).1.

Definition read_patch_arg (env : process_env) : str * Z + str :=
  match env_args env with
  | Some s :: _ => inr s
  | None :: _ => inl (lit "Error: apply_patch requires a UTF-8 PATCH argument.", 1%Z)
  | [] =>
      match env_stdin env with
      | Ok buf =>
          if decide (buf = []) then
            inl (lit "Usage: apply_patch 'PATCH'" ++ [c_nl]
                 ++ lit "       echo 'PATCH' | apply_patch", 2%Z)
          else inr buf
      | Err err => inl (lit "Error: Failed to read PATCH from stdin." ++ [c_nl]
                        ++ err_message err, 1%Z)
      | Panic _ => inl ([], 101%Z)
      end
  end.

Definition run_main (env : process_env) (w : world (FS:=FS) (W:=W))
    : world (FS:=FS) (W:=W) * Z :=
  match read_patch_arg env with
  | inl (message, code) => (eprintln message w, code)
  | inr patch_arg =>
      if decide (1 < length (env_args env)) then
        (eprintln (lit "Error: apply_patch accepts exactly one argument.") w, 2%Z)
      else
        match env_current_dir env with
        | Err err => (eprintln (lit "Error: Failed to determine current directory." ++ [c_nl]
                                ++ err_message err) w, 1%Z)
        | Panic _ => (w, 101%Z)
        | Ok cwd =>
            match env_runtime env with
            | Err err => (eprintln (lit "Error: Failed to initialize runtime." ++ [c_nl]
                                    ++ err_message err) w, 1%Z)
            | Panic _ => (w, 101%Z)
            | Ok _ =>
                match apply_patch home_dir (Sandbox:=Sandbox) None patch_arg cwd w with
                | (w, Ok _) => (w, 0%Z)
                | (w, Err _) => (w, 1%Z)
                | (w, Panic _) => (w, 101%Z)
                end
            end
        end
  end.
End invocation.

(** ** What is shown is what is applied *)

Lemma hunk_effect_frame home_dir cwd h m m' q :
  hunk_effect home_dir cwd h m m' → q ∉ touched home_dir cwd h → m' q = m q.
Proof.
  unfold touched. destruct 1 as [path ? ? ? H|path ? ? H|path ? ? ? ? _ H|path ? ? ? ? ? _ H];
    rewrite !not_elem_of_cons; intros (Hp & Hd); rewrite H; unfold upd, resolve_path in *; simpl in *;
    rewrite decide_False by done; try done.
  rewrite decide_False; [done|]. by destruct Hd.
Qed.

Lemma hunks_effect_frame home_dir cwd hs m m' q :
  hunks_effect home_dir cwd hs m m' → (∀ h, h ∈ hs → q ∉ touched home_dir cwd h) → m' q = m q.
Proof.
  induction 1 as [m m' H|h hs m1 m2 m3 Hh Hhs IH]; intros Hq; [apply H|].
  rewrite IH by set_solver. eapply hunk_effect_frame; [done|]. set_solver.
Qed.

Lemma hunks_effect_middle home_dir cwd pre h post m m' :
  hunks_effect home_dir cwd (pre ++ h :: post) m m' →
  ∃ m1 m2, hunks_effect home_dir cwd pre m m1 ∧ hunk_effect home_dir cwd h m1 m2 ∧
    hunks_effect home_dir cwd post m2 m'.
Proof.
  revert m; induction pre as [|h' pre IH]; intros m H; simpl in H; inversion H; subst.
  - eexists m, _. split_and!; [by constructor|done|done].
  - edestruct IH as (n1 & n2 & ? & ? & ?); [done|]. exists n1, n2. split_and!; [|done..].
    by econstructor.
Qed.

Lemma updated_text_det p chunks m m' new new' :
  updated_text p chunks m new → updated_text p chunks m' new' → m p = m' p → new = new'.
Proof.
  intros (b & t & Hb & Ht & Hn) (b' & t' & Hb' & Ht' & Hn') Heq.
  rewrite Heq, Hb' in Hb. injection Hb as <-. rewrite Ht' in Ht. injection Ht as <-.
  rewrite Hn' in Hn. by injection Hn.
Qed.

(** The files a recorded change promises. *)
Definition change_holds (m : file_map) (path : str) (c : ApplyPatchFileChange) : Prop :=
  match c with
  | AddChange content => m path = Some (encode content)
  | DeleteChange _ => m path = None
  | UpdateChange _ None new_content => m path = Some (encode new_content)
  | UpdateChange _ (Some dest) new_content =>
      m path = None ∧ m dest = Some (encode new_content)
  end.

Lemma elem_of_touched home_dir cwd hs h q :
  h ∈ hs → q ∈ touched home_dir cwd h → q ∈ concat (map (touched home_dir cwd) hs).
Proof.
  intros Hh Hq. apply list_elem_of_split in Hh as (pre & post & ->).
  rewrite map_app, concat_app, map_cons, concat_cons. set_solver.
Qed.

Section shown.
#[local] Set Default Proof Using "Type*".
Context (text_diff : str → str → nat → str).
Context {FS Sandbox : Type} `{!ExecutorFileSystem FS Sandbox} `{!FileSystemLaws FS Sandbox}.
Context (home_dir : option str) (sandbox : option Sandbox) (cwd : str).
Implicit Types (fs : FS).

Lemma hunk_change_holds fs h c m1 m2 :
  hunk_change text_diff home_dir sandbox fs cwd h = Ok c →
  (∀ q, q ∈ touched home_dir cwd h → m1 q = view sandbox fs q) →
  NoDup (touched home_dir cwd h) → hunk_effect home_dir cwd h m1 m2 →
  change_holds m2 (resolve_path home_dir h cwd) c.
Proof.
  intros Hc Hm1 Hnd Heff. destruct Heff as [path ? ? ? H|path ? ? H
    |path chunks m1' m2' new Hu H|path dest chunks m1' m2' new Hu H]; simpl in Hc.
  - injection Hc as <-. simpl. rewrite H. unfold upd. by rewrite decide_True.
  - destruct (map_err _ _); [|done..]. injection Hc as <-. simpl. rewrite H. unfold upd.
    by rewrite decide_True.
  - unfold unified_diff_from_chunks, unified_diff_from_chunks_with_context in Hc.
    destruct (derive_new_contents_from_chunks _ _ _ _) as [[old new']| |] eqn:Hd; [|done..].
    injection Hc as <-. apply derive_ok in Hd.
    rewrite (updated_text_det _ _ _ _ _ _ Hd Hu) by (symmetry; apply Hm1; set_solver).
    simpl. rewrite H. unfold upd. by rewrite decide_True.
  - unfold unified_diff_from_chunks, unified_diff_from_chunks_with_context in Hc.
    destruct (derive_new_contents_from_chunks _ _ _ _) as [[old new']| |] eqn:Hd; [|done..].
    injection Hc as <-. apply derive_ok in Hd.
    rewrite (updated_text_det _ _ _ _ _ _ Hd Hu) by (symmetry; apply Hm1; set_solver).
    unfold resolve_path, touched, abs_join in *. simpl in *.
    apply NoDup_cons in Hnd as [Hnd _]. rewrite !H. unfold upd.
    rewrite decide_True by done. rewrite decide_False by set_solver.
    by rewrite decide_True.
Qed.

Lemma collect_changes_lookup fs hs acc ch path c :
  collect_changes text_diff home_dir sandbox fs cwd hs acc = Ok ch → ch !! path = Some c →
  acc !! path = Some c ∨
  ∃ h, h ∈ hs ∧ resolve_path home_dir h cwd = path ∧
    hunk_change text_diff home_dir sandbox fs cwd h = Ok c.
Proof.
  revert acc; induction hs as [|h hs IH]; intros acc Hch Hc; simpl in Hch.
  { injection Hch as <-. by left. }
  destruct (hunk_change text_diff home_dir sandbox fs cwd h) as [c'| |] eqn:Hh; [|done..].
  simpl in Hch. destruct (IH _ Hch Hc) as [Hacc|(h' & Hin & ? & ?)]; [|set_solver].
  apply lookup_insert_Some in Hacc as [[Hp Hcc]|[_ Hacc]]; [|by left].
  right. exists h. rewrite <-Hcc. set_solver.
Qed.

(** An untouched file and a later hunk that names none of its paths. *)
Lemma changes_hold fs fs' hs acc ch path c a :
  NoDup (concat (map (touched home_dir cwd) hs)) → acc !! path = None →
  collect_changes text_diff home_dir sandbox fs cwd hs acc = Ok ch → ch !! path = Some c →
  apply_hunks_to_files home_dir sandbox hs cwd fs = (fs', Ok a) →
  change_holds (view sandbox fs') path c.
Proof.
  intros Hnd Hacc Hch Hc (_ & Heff & _)%to_files_ok.
  destruct (collect_changes_lookup _ _ _ _ _ _ Hch Hc) as [?|(h & Hin & <- & Hh)]; [congruence|].
  apply list_elem_of_split in Hin as (pre & post & ->).
  rewrite map_app, concat_app, map_cons, concat_cons in Hnd.
  apply NoDup_app in Hnd as (_ & Hpre & [Hndh [Hpost _]]%NoDup_app).
  apply hunks_effect_middle in Heff as (m1 & m2 & Heff1 & Heffh & Heff2).
  assert (H1 : ∀ q, q ∈ touched home_dir cwd h → m1 q = view sandbox fs q).
  { intros q Hq. eapply hunks_effect_frame; [done|]. intros h' Hh' Hq'.
    apply (Hpre q); [by eapply elem_of_touched|set_solver]. }
  assert (H2 : ∀ q, q ∈ touched home_dir cwd h → view sandbox fs' q = m2 q).
  { intros q Hq. eapply hunks_effect_frame; [done|]. intros h' Hh' Hq'.
    apply (Hpost q); [done|]. by eapply elem_of_touched. }
  assert (Hhold := hunk_change_holds fs h c m1 m2 Hh H1 Hndh Heffh).
  assert (Hdest : ∀ d dest n, c = UpdateChange d (Some dest) n → dest ∈ touched home_dir cwd h).
  { intros d dest n ->. destruct h as [| |p [mv|] chunks]; simpl in Hh; [done| | |].
    - by destruct (map_err _ _).
    - destruct (unified_diff_from_chunks _ _ _ _ _); [|done..]. injection Hh as _ <- _.
      unfold touched, abs_join. set_solver.
    - by destruct (unified_diff_from_chunks _ _ _ _ _). }
  destruct c as [| |d [dest|] n]; simpl in *; rewrite ?H2 by (unfold touched; set_solver); try done.
Qed.
End shown.

(** What is shown for approval is what happens.  When a command is
    verified as an apply_patch call and its hunks name different files, then
    after its hunks are applied to the same file system every recorded change
    holds: added files have the recorded content, deleted files are gone, and
    updated files hold the recorded new content, at the recorded destination
    if they moved. *)
Theorem verified_changes_hold {FS Sandbox : Type} `{!ExecutorFileSystem FS Sandbox}
    `{!FileSystemLaws FS Sandbox} query_matches text_diff home_dir (sandbox : option Sandbox)
    argv cwd (fs fs' : FS) action args a :
  maybe_parse_apply_patch_verified query_matches text_diff home_dir sandbox argv cwd fs
    = Ok (VerifiedBody action) →
  maybe_parse_apply_patch (E:=Empty_set) query_matches argv = Ok (Body args) →
  NoDup (concat (map (touched home_dir (action_cwd action)) (hunks args))) →
  apply_hunks_to_files home_dir sandbox (hunks args) (action_cwd action) fs = (fs', Ok a) →
  action_patch action = patch args ∧
  ∀ path change, changes action !! path = Some change →
    change_holds (view sandbox fs') path change.
Proof.
  unfold maybe_parse_apply_patch_verified. intros Hv Hp Hnd Happ.
  destruct (is_raw_patch argv); [done|]. destruct (is_raw_patch_script argv); [done|].
  rewrite Hp in Hv. cbn [mbind Res_bind] in Hv.
  destruct (collect_changes _ _ _ _ _ _ _) as [ch| |] eqn:Hch; [|done..].
  injection Hv as <-. simpl in *. split; [done|]. intros path change Hc.
  eapply changes_hold; [apply _|exact Hnd|apply lookup_empty|exact Hch|exact Hc|exact Happ].
Qed.

Definition no_matches (src : str) : Res ExtractHeredocError (list (list capture)) := Ok [].
Definition plain_diff (old new : str) (context : nat) : str := old ++ new.

Definition demo_argv : list str := [lit "apply_patch"; demo_patch].
Definition demo_args : ApplyPatchArgs :=
  {| patch := demo_patch;
     hunks := [AddFile (lit "d/new") (lit "x" ++ [c_nl]);
               UpdateFile (lit "f") (Some (lit "g"))
                 [{| change_context := None; old_lines := [lit "a"]; new_lines := [lit "A"];
                     is_end_of_file := false |}]];
     workdir := None |}.
Definition demo_new_text : str := lit "A" ++ [c_nl] ++ lit "b" ++ [c_nl].
Definition demo_old_text : str := lit "a" ++ [c_nl] ++ lit "b" ++ [c_nl].
Definition demo_action : ApplyPatchAction :=
  {| changes := <[lit "/w/f" := UpdateChange (demo_old_text ++ demo_new_text)
                                  (Some (lit "/w/g")) demo_new_text]>
                (<[lit "/w/d/new" := AddChange (lit "x" ++ [c_nl])]> ∅);
     action_patch := demo_patch;
     action_cwd := lit "/w" |}.

Lemma verified_changes_hold_witness :
  action_patch demo_action = patch demo_args ∧
  ∀ path change, changes demo_action !! path = Some change →
    change_holds (view (Sandbox:=unit) None (w_fs demo_result)) path change.
Proof.
  apply (verified_changes_hold no_matches plain_diff None None demo_argv (lit "/w") demo_fs
    (w_fs demo_result) demo_action demo_args
    {| added := [lit "d/new"]; modified := [lit "g"]; deleted := [] |}).
  - vm_compute. reflexivity.
  - vm_compute. reflexivity.
  - by_compute.
  - vm_compute. reflexivity.
Defined.

Definition two_updates : str :=
  join [c_nl] [lit "*** Begin Patch"; lit "*** Update File: f"; lit "-a"; lit "+A";
    lit "*** Update File: f"; lit "-b"; lit "+B"; lit "*** End Patch"].

(** When two hunks name the same file the changes that are shown can
    differ from what is applied: the shown content of the file is that of the
    last hunk alone, computed from the original file, while applying the patch
    carries out both. *)
Theorem repeated_path_shown_incomplete :
  ∃ action fs' a,
    maybe_parse_apply_patch_verified no_matches plain_diff None (Sandbox:=unit) None
      [lit "apply_patch"; two_updates] (lit "/w") demo_fs = Ok (VerifiedBody action) ∧
    (∃ diff, changes action = {[lit "/w/f" := UpdateChange diff None
                                 (lit "a" ++ [c_nl] ++ lit "B" ++ [c_nl])]}) ∧
    apply_hunks_to_files None (Sandbox:=unit) None
      match parse_patch two_updates with Ok args => hunks args | _ => [] end (lit "/w") demo_fs
      = (fs', Ok a) ∧
    view (Sandbox:=unit) None fs' (lit "/w/f") =
      Some (encode (lit "A" ++ [c_nl] ++ lit "B" ++ [c_nl])).
Proof.
  eexists _, _, _. split_and!; [vm_compute; reflexivity| |vm_compute; reflexivity|].
  - exists (demo_old_text ++ (lit "a" ++ [c_nl] ++ lit "B" ++ [c_nl])). vm_compute. reflexivity.
  - vm_compute. reflexivity.
Qed.

(** A command line that carries a raw patch without naming apply_patch,
    as its only word or as the whole script of a shell, is refused as an
    implicit invocation, whatever the file system holds. *)
Theorem raw_patch_refused {FS Sandbox : Type} `{!ExecutorFileSystem FS Sandbox}
    query_matches text_diff home_dir (sandbox : option Sandbox) argv cwd (fs : FS) script args :
  parse_patch script = Ok args →
  argv = [script] ∨ (∃ shell, parse_shell_script argv = Some (shell, script)) →
  maybe_parse_apply_patch_verified query_matches text_diff home_dir sandbox argv cwd fs
    = Ok (CorrectnessError ImplicitInvocation).
Proof.
  intros Hp Hargv. unfold maybe_parse_apply_patch_verified.
  destruct Hargv as [-> | [shell Hs]].
  - simpl. by rewrite Hp.
  - destruct (is_raw_patch argv); [done|]. unfold is_raw_patch_script. by rewrite Hs, Hp.
Qed.

Lemma raw_patch_refused_witness :
  maybe_parse_apply_patch_verified no_matches plain_diff None (Sandbox:=unit) None
    [lit "/bin/bash"; lit "-lc"; two_updates] (lit "/w") demo_fs
    = Ok (CorrectnessError ImplicitInvocation).
Proof.
  apply (raw_patch_refused no_matches plain_diff None None
    [lit "/bin/bash"; lit "-lc"; two_updates] (lit "/w") demo_fs two_updates
    match parse_patch two_updates with Ok args => args | _ => demo_args end).
  - vm_compute. reflexivity.
  - right. exists Unix. vm_compute. reflexivity.
Defined.

(** The exit code of the stand-alone program is 0 exactly when the one
    patch it was given was applied: when it is 0, there was at most one
    argument, the patch came from it or from a non-empty standard input, and
    [apply_patch] returned success from the current directory. *)
Theorem run_main_exit_zero {FS Sandbox W : Type} `{!ExecutorFileSystem FS Sandbox} `{!Write W}
    home_dir env (w w' : world (FS:=FS) (W:=W)) :
  run_main (Sandbox:=Sandbox) home_dir env w = (w', 0%Z) ↔
  ∃ patch_arg cwd, env_current_dir env = Ok cwd ∧ env_runtime env = Ok () ∧
    (env_args env = [Some patch_arg] ∨
     (env_args env = [] ∧ env_stdin env = Ok patch_arg ∧ patch_arg ≠ [])) ∧
    apply_patch home_dir (Sandbox:=Sandbox) None patch_arg cwd w = (w', Ok ()).
Proof.
  unfold run_main, read_patch_arg. split.
  - destruct (env_args env) as [|[s|] args]; simpl.
    + destruct (env_stdin env) as [buf| |]; simpl; [|done..]. case_decide; [done|]. simpl.
      destruct (env_current_dir env) as [cwd| |]; [|done..].
      destruct (env_runtime env) as [[]| |]; [|done..].
      destruct (apply_patch home_dir None buf cwd w) as [w1 [[]| |]] eqn:Ha; [|done..].
      intros [= <-]. exists buf, cwd. split_and!; auto.
    + case_decide; [done|]. destruct args; [|simpl in *; lia].
      destruct (env_current_dir env) as [cwd| |]; [|done..].
      destruct (env_runtime env) as [[]| |]; [|done..].
      destruct (apply_patch home_dir None s cwd w) as [w1 [[]| |]] eqn:Ha; [|done..].
      intros [= <-]. exists s, cwd. split_and!; auto.
    + done.
  - intros (p & cwd & -> & -> & [->|(-> & -> & Hne)] & Ha); simpl.
    + by rewrite Ha.
    + rewrite decide_False by done. simpl. by rewrite Ha.
Qed.
