(* ===== verification/MachineInt.v ===== *)
(** * Machine integers

    What the code uses of [usize], [u64] and [i32]: their ranges, saturating
    and wrapping arithmetic.  A [usize] is a natural number up to [usize_max]
    (64-bit targets); an [i32] is an integer that wraps at its width. *)
From S2P Require Import Prelude.
From Stdlib Require Import ZArith Lia.

Definition usize_max : N := 18446744073709551615.

(** [a.saturating_add(b)], [a.saturating_sub(b)] and [a.saturating_mul(b)] on [usize] *)
Definition saturating_add (a b : N) : N := N.min usize_max (a + b).
Definition saturating_sub (a b : N) : N := a - b.
Definition saturating_mul (a b : N) : N := N.min usize_max (a * b).

(** [v.len()] *)
Definition len {A} (l : list A) : N := N.of_nat (length l).

(** [i32] addition as [fetch_add] does it: wrapping around at 32 bits. *)
Definition i32_min : Z := (-2147483648)%Z.
Definition i32_modulus : Z := 4294967296%Z.
Definition wrap_i32 (x : Z) : Z := ((x - i32_min) mod i32_modulus + i32_min)%Z.

Local Open Scope N_scope.

Lemma len_app {A} (l k : list A) : len (l ++ k) = len l + len k.
Proof. unfold len. rewrite length_app. lia. Qed.

Lemma len_nil {A} : len (A:=A) [] = 0.
Proof. done. Qed.

Lemma len_cons {A} (x : A) l : len (x :: l) = 1 + len l.
Proof. unfold len; simpl. lia. Qed.

Lemma len_to_nat {A} (l : list A) : N.to_nat (len l) = length l.
Proof. unfold len. lia. Qed.

#[export] Hint Rewrite @len_app @len_nil @len_cons @len_to_nat : rust.

Lemma saturating_add_assoc a b c :
  saturating_add (saturating_add a b) c = saturating_add a (b + c).
Proof. unfold saturating_add. lia. Qed.

Lemma saturating_add_exact a b : a + b ≤ usize_max → saturating_add a b = a + b.
Proof. unfold saturating_add. lia. Qed.

Lemma saturating_add_le a b : saturating_add a b ≤ usize_max.
Proof. unfold saturating_add. lia. Qed.

Lemma wrap_i32_range x : (i32_min ≤ wrap_i32 x < i32_min + i32_modulus)%Z.
Proof.
  unfold wrap_i32. pose proof (Z.mod_pos_bound (x - i32_min) i32_modulus). 
  unfold i32_modulus in *. lia.
Qed.

Lemma wrap_i32_small x : (i32_min ≤ x < i32_min + i32_modulus)%Z → wrap_i32 x = x.
Proof. intros H. unfold wrap_i32. rewrite Z.mod_small; [lia|]. lia. Qed.

Lemma wrap_i32_add_l x y : wrap_i32 (wrap_i32 x + y) = wrap_i32 (x + y).
Proof.
  unfold wrap_i32. f_equal.
  replace ((x - i32_min) mod i32_modulus + i32_min + y - i32_min)%Z
    with ((x - i32_min) mod i32_modulus + y)%Z by lia.
  rewrite Zplus_mod_idemp_l. f_equal. lia.
Qed.

(** Two numbers closer than the modulus wrap to different values. *)
Lemma wrap_i32_inj x y :
  (Z.abs (x - y) < i32_modulus)%Z → wrap_i32 x = wrap_i32 y → x = y.
Proof.
  unfold wrap_i32. intros Hd Heq.
  assert (Hm : ((x - i32_min) mod i32_modulus = (y - i32_min) mod i32_modulus)%Z) by lia.
  pose proof (Z.div_mod (x - i32_min) i32_modulus).
  pose proof (Z.div_mod (y - i32_min) i32_modulus).
  unfold i32_modulus in *.
  assert (x - y = 4294967296 * ((x - i32_min) / 4294967296 - (y - i32_min) / 4294967296))%Z by lia.
  lia.
Qed.
