(* ===== verification/Ordering.v ===== *)
(** * Ordered vectors

    The lexicographic [Ord] of Rust's vectors and strings, [Vec::sort] as a
    stable insertion sort, and [Vec::dedup].  Sorting and removing repeated
    neighbours gives the strictly increasing list of the elements. *)
From Stdlib Require Import Sorted.
From S2P Require Import Prelude.

(** A comparison function that decides a total order. *)
Class Ordered (A : Type) : Type := {
  cmp : A → A → comparison;
  cmp_eq a b : cmp a b = Eq ↔ a = b;
  cmp_opp a b : cmp b a = CompOpp (cmp a b);
  cmp_lt_trans a b c : cmp a b = Lt → cmp b c = Lt → cmp a c = Lt
}.

#[global] Program Instance N_Ordered : Ordered N := { cmp := N.compare }.
Next Obligation. apply N.compare_eq_iff. Qed.
Next Obligation. intros. apply N.compare_antisym. Qed.
Next Obligation. intros a b c. rewrite !N.compare_lt_iff. lia. Qed.

Fixpoint list_cmp {A} (c : A → A → comparison) (l k : list A) : comparison :=
  match l, k with
  | [], [] => Eq
  | [], _ :: _ => Lt
  | _ :: _, [] => Gt
  | a :: l', b :: k' => match c a b with Eq => list_cmp c l' k' | r => r end
  end.

#[global] Program Instance list_Ordered {A} `{!Ordered A} : Ordered (list A) :=
  { cmp := list_cmp cmp }.
Next Obligation.
  intros A H a. induction a as [|x a IH]; intros [|y b]; simpl; try (by split).
  assert (Hxy := cmp_eq x y). destruct (cmp x y).
  - rewrite IH. assert (x = y) as -> by (by apply Hxy). naive_solver.
  - split; [done|]. intros [= -> ->]. by destruct Hxy as [_ Hxy]; specialize (Hxy eq_refl).
  - split; [done|]. intros [= -> ->]. by destruct Hxy as [_ Hxy]; specialize (Hxy eq_refl).
Qed.
Next Obligation.
  intros A H a. induction a as [|x a IH]; intros [|y b]; simpl; try done.
  rewrite (cmp_opp x y). destruct (cmp x y); simpl; auto.
Qed.
Next Obligation.
  intros A H a. induction a as [|x a IH]; intros [|y b] [|z c]; simpl; try done.
  destruct (cmp x y) eqn:Exy; destruct (cmp y z) eqn:Eyz; try done.
  - apply cmp_eq in Exy as ->, Eyz as ->. rewrite (proj2 (cmp_eq z z) eq_refl). apply IH.
  - apply cmp_eq in Exy as ->. by rewrite Eyz.
  - apply cmp_eq in Eyz as ->. by rewrite Exy.
  - by rewrite (cmp_lt_trans _ _ _ Exy Eyz).
Qed.

Section sort.
Context {A : Type} `{!Ordered A} `{!EqDecision A}.
Implicit Types (l : list A) (a b : A).

Definition le a b : Prop := cmp a b ≠ Gt.
Definition lt a b : Prop := cmp a b = Lt.

Fixpoint insert_sorted a l : list A :=
  match l with
  | [] => [a]
  | b :: l' => match cmp a b with Gt => b :: insert_sorted a l' | _ => a :: l end
  end.

(** [v.sort()] *)
Definition sort l : list A := foldr insert_sorted [] l.

(** [v.dedup()]: of equal neighbours only the first stays. *)
Fixpoint dedup l : list A :=
  match l with
  | [] => []
  | a :: l' =>
      match dedup l' with
      | b :: k => if decide (a = b) then b :: k else a :: b :: k
      | [] => [a]
      end
  end.

Lemma le_trans a b c : le a b → le b c → le a c.
Proof.
  unfold le. intros Hab Hbc. destruct (cmp a b) eqn:E1; [|destruct (cmp b c) eqn:E2|done]; try done.
  - by apply cmp_eq in E1 as ->.
  - apply cmp_eq in E2 as <-. congruence.
  - by rewrite (cmp_lt_trans _ _ _ E1 E2).
Qed.

Lemma insert_sorted_elem a x l : x ∈ insert_sorted a l ↔ x = a ∨ x ∈ l.
Proof. induction l as [|b l IH]; simpl; [set_solver|]. destruct (cmp a b); set_solver. Qed.

Lemma sort_elem x l : x ∈ sort l ↔ x ∈ l.
Proof. induction l as [|a l IH]; simpl; [done|]. rewrite insert_sorted_elem. set_solver. Qed.

Lemma insert_sorted_ok a l : StronglySorted le l → StronglySorted le (insert_sorted a l).
Proof.
  induction 1 as [|b l Hs IH Hb]; simpl; [by repeat constructor|].
  destruct (cmp a b) eqn:E1.
  1-2: constructor; [by constructor|]; constructor; [unfold le; congruence|];
    eapply Forall_impl; [exact Hb|]; intros x; apply le_trans; unfold le; congruence.
  constructor; [done|]. apply Forall_forall. intros x [->|Hx]%insert_sorted_elem.
  - unfold le. by rewrite cmp_opp, E1.
  - by eapply Forall_forall in Hb.
Qed.

Lemma sort_ok l : StronglySorted le (sort l).
Proof. induction l; simpl; [constructor|]. by apply insert_sorted_ok. Qed.

Lemma dedup_elem x l : x ∈ dedup l ↔ x ∈ l.
Proof.
  induction l as [|a l IH]; simpl; [done|].
  destruct (dedup l) as [|b k] eqn:Ek; [set_solver|]. case_decide; set_solver.
Qed.

Lemma dedup_ok l : StronglySorted le l → StronglySorted lt (dedup l).
Proof.
  induction 1 as [|a l Hs IH Ha]; simpl; [constructor|].
  assert (Hin := λ x, dedup_elem x l).
  destruct (dedup l) as [|b k]; [by repeat constructor|].
  case_decide as Hab; [done|]. constructor; [done|].
  assert (Hlt : lt a b).
  { assert (Hle : le a b) by (eapply Forall_forall in Ha; [exact Ha|]; apply Hin; set_solver).
    unfold lt, le in *. destruct (cmp a b) eqn:E1; [by apply cmp_eq in E1|done|done]. }
  constructor; [done|]. inversion IH as [|? ? _ Hk]; subst.
  eapply Forall_impl; [exact Hk|]. intros x. by apply cmp_lt_trans.
Qed.

(** Sorting and removing repeats: the elements, each once, increasing. *)
Lemma sort_dedup_ok l :
  StronglySorted lt (dedup (sort l)) ∧ ∀ x, x ∈ dedup (sort l) ↔ x ∈ l.
Proof.
  split; [apply dedup_ok, sort_ok|]. intros x. by rewrite dedup_elem, sort_elem.
Qed.
End sort.

(** ** [v.sort_by_key(key)], which is stable *)
Section sort_by_key.
Context {A : Type} (key : A → nat).
Implicit Types (l : list A).

Fixpoint insert_by_key (a : A) l : list A :=
  match l with
  | [] => [a]
  | b :: l' => if decide (key a ≤ key b) then a :: l else b :: insert_by_key a l'
  end.

Definition sort_by_key l : list A := foldr insert_by_key [] l.

Definition key_le (a b : A) : Prop := key a ≤ key b.

Lemma insert_by_key_perm a l : insert_by_key a l ≡ₚ a :: l.
Proof.
  induction l as [|b l IH]; simpl; [done|]. case_decide; [done|]. rewrite IH. constructor.
Qed.

Lemma sort_by_key_perm l : sort_by_key l ≡ₚ l.
Proof. induction l as [|a l IH]; simpl; [done|]. by rewrite insert_by_key_perm, IH. Qed.

Lemma insert_by_key_sorted a l :
  StronglySorted key_le l → StronglySorted key_le (insert_by_key a l).
Proof.
  unfold key_le. induction 1 as [|b l Hs IH Hb]; simpl; [by repeat constructor|].
  case_decide.
  - constructor; [by constructor|]. constructor; [done|].
    eapply Forall_impl; [exact Hb|]. simpl. lia.
  - constructor; [done|]. rewrite insert_by_key_perm. constructor; [lia|done].
Qed.

Lemma sort_by_key_sorted l : StronglySorted key_le (sort_by_key l).
Proof. induction l; simpl; [constructor|]. by apply insert_by_key_sorted. Qed.
End sort_by_key.
