(* ===== verification/ExecPolicy.v ===== *)
(** * The command policy: [execpolicy/src/{decision,executable_name,rule,policy}.rs]

    Rules match commands by a prefix of their tokens; a policy keeps them in
    a map keyed by the program, and an evaluation takes the strictest decision
    of all matches.  A rule is anything that implements the trait [Rule];
    [PrefixRule] is the implementation of the crate. *)
From Stdlib Require Import Sorted.
From S2P Require Import Prelude RustStr AbsolutePath FileSystem Ordering.

(** ** [decision.rs], [error.rs] *)

Inductive Decision : Type := Allow | Prompt | Forbidden.
#[global] Instance Decision_eq_dec : EqDecision Decision.
Proof. solve_decision. Defined.

(** The derived [Ord]: the order of the declaration. *)
Definition decision_rank (d : Decision) : nat :=
  match d with
  | Allow => 0
  | Prompt => 1
  | Forbidden => 2
  end.
Definition decision_max (d d' : Decision) : Decision :=
  if decide (decision_rank d ≤ decision_rank d') then d' else d.

Record TextPosition : Type := { line : nat; column : nat }.
Record TextRange : Type := { start : TextPosition; end_ : TextPosition }.
Record ErrorLocation : Type := { loc_path : str; loc_range : TextRange }.

Inductive Error : Type :=
| InvalidDecision (raw : str)
| InvalidPattern (message : str)
| InvalidExample (message : str)
| InvalidRule (message : str)
| ExampleDidNotMatch (rules examples : list str) (location : option ErrorLocation)
| ExampleDidMatch (rule example : str) (location : option ErrorLocation)
| Starlark (message : str) (span : option ErrorLocation).

Definition with_location (e : Error) (location : ErrorLocation) : Error :=
  match e with
  | ExampleDidNotMatch rules examples None => ExampleDidNotMatch rules examples (Some location)
  | ExampleDidMatch rule example None => ExampleDidMatch rule example (Some location)
  | other => other
  end.

(** The location of a Starlark error is that of its span. *)
Definition error_location (e : Error) : option ErrorLocation :=
  match e with
  | ExampleDidNotMatch _ _ location | ExampleDidMatch _ _ location => location
  | Starlark _ span => span
  | _ => None
  end.

Definition Decision_parse (raw : str) : Res Error Decision :=
  if decide (raw = lit "allow") then Ok Allow
  else if decide (raw = lit "prompt") then Ok Prompt
  else if decide (raw = lit "forbidden") then Ok Forbidden
  else Err (InvalidDecision raw).

(** ** [executable_name.rs], outside of Windows *)

Definition executable_lookup_key (raw : str) : str := raw.

Definition executable_path_lookup_key (path : str) : option str :=
  executable_lookup_key <$> file_name path.

(** ** [rule.rs] *)

Inductive PatternToken : Type :=
| Single (expected : str)
| Alts (alternatives : list str).

Definition token_matches (t : PatternToken) (token : str) : bool :=
  match t with
  | Single expected => bool_decide (expected = token)
  | Alts alternatives => existsb (λ alt, bool_decide (alt = token)) alternatives
  end.

Definition token_alternatives (t : PatternToken) : list str :=
  match t with
  | Single expected => [expected]
  | Alts alternatives => alternatives
  end.

Record PrefixPattern : Type := { first : str; rest : list PatternToken }.

(** The slices and the index are guarded by the length test; [cmd[0]] is read
    only when the command is long enough. *)
Definition matches_prefix (p : PrefixPattern) (cmd : list str)
    : Total (option (list str)) :=
  let pattern_length := length (rest p) + 1 in
  if decide (length cmd < pattern_length) then Ok None
  else
    cmd0 ← index 0 cmd;
    if decide (cmd0 ≠ first p) then Ok None
    else
      args ← slice 1 pattern_length cmd;
      if forallb (λ '(pattern_token, cmd_token), token_matches pattern_token cmd_token)
           (zip (rest p) args)
      then (matched ← slice_to pattern_length cmd; Ok (Some matched))
      else Ok None.

Inductive RuleMatch : Type :=
| PrefixRuleMatch (matched_prefix : list str) (decision : Decision)
    (resolved_program : option str) (justification : option str)
| HeuristicsRuleMatch (command : list str) (decision : Decision).

Definition match_decision (m : RuleMatch) : Decision :=
  match m with
  | PrefixRuleMatch _ decision _ _ => decision
  | HeuristicsRuleMatch _ decision => decision
  end.

Definition with_resolved_program (m : RuleMatch) (resolved_program : str) : RuleMatch :=
  match m with
  | PrefixRuleMatch matched_prefix decision _ justification =>
      PrefixRuleMatch matched_prefix decision (Some resolved_program) justification
  | other => other
  end.

Record PrefixRule : Type := {
  pattern : PrefixPattern;
  decision : Decision;
  justification : option str
}.

#[global] Instance PatternToken_eq_dec : EqDecision PatternToken.
Proof. solve_decision. Defined.
#[global] Instance PrefixPattern_eq_dec : EqDecision PrefixPattern.
Proof. solve_decision. Defined.
#[global] Instance RuleMatch_eq_dec : EqDecision RuleMatch.
Proof. solve_decision. Defined.
#[global] Instance PrefixRule_eq_dec : EqDecision PrefixRule.
Proof. solve_decision. Defined.

(** The trait [Rule]; [as_prefix_rule] is [as_any] followed by the downcast. *)
Class Rule (R : Type) : Type := {
  program : R → str;
  rule_matches : R → list str → Total (option RuleMatch);
  as_prefix_rule : R → option PrefixRule
}.

(** What a policy relies on: matching never panics, and a rule matches only
    commands of its own program. *)
Class RuleLaws (R : Type) `{!Rule R} : Prop := {
  rule_matches_total (r : R) cmd : ∃ o, rule_matches r cmd = Ok o;
  rule_matches_program (r : R) cmd m :
    rule_matches r cmd = Ok (Some m) → head cmd = Some (program r)
}.

Definition PrefixRule_matches (r : PrefixRule) (cmd : list str) : Total (option RuleMatch) :=
  matched ← matches_prefix (pattern r) cmd;
  Ok (option_map (λ matched_prefix,
        PrefixRuleMatch matched_prefix (decision r) None (justification r)) matched).

#[global] Instance PrefixRule_Rule : Rule PrefixRule := {
  program r := first (pattern r);
  rule_matches r cmd := PrefixRule_matches r cmd;
  as_prefix_rule r := Some r
}.

Inductive NetworkRuleProtocol : Type := Http | Https | Socks5Tcp | Socks5Udp.
#[global] Instance NetworkRuleProtocol_eq_dec : EqDecision NetworkRuleProtocol.
Proof. solve_decision. Defined.

Definition NetworkRuleProtocol_parse (raw : str) : Res Error NetworkRuleProtocol :=
  if decide (raw = lit "http") then Ok Http
  else if decide (raw ∈ [lit "https"; lit "https_connect"; lit "http-connect"]) then Ok Https
  else if decide (raw = lit "socks5_tcp") then Ok Socks5Tcp
  else if decide (raw = lit "socks5_udp") then Ok Socks5Udp
  else Err (InvalidRule (lit "network_rule protocol must be one of http, https, socks5_tcp, socks5_udp (got "
                         ++ raw ++ lit ")")).

Definition as_policy_string (p : NetworkRuleProtocol) : str :=
  match p with
  | Http => lit "http"
  | Https => lit "https"
  | Socks5Tcp => lit "socks5_tcp"
  | Socks5Udp => lit "socks5_udp"
  end.

Record NetworkRule : Type := {
  host : str;
  protocol : NetworkRuleProtocol;
  net_decision : Decision;
  net_justification : option str
}.

Definition c_colon : char := 58%N.
Definition c_question : char := 63%N.
Definition c_hash : char := 35%N.
Definition c_lbracket : char := 91%N.
Definition c_rbracket : char := 93%N.

Definition all_digits (s : str) : bool := forallb is_ascii_digit s.

(** The host with a port or the brackets of an IPv6 literal taken off. *)
Definition strip_port (raw host : str) : Res Error str :=
  match strip_prefix [c_lbracket] host with
  | Some stripped =>
      match split_once c_rbracket stripped with
      | None => Err (InvalidRule (lit "network_rule host has an invalid bracketed IPv6 literal"))
      | Some (inside, suffix) =>
          let port_ok := match strip_prefix [c_colon] suffix with
                         | Some port => negb (bool_decide (port = [])) && all_digits port
                         | None => false
                         end in
          if negb (bool_decide (suffix = [])) && negb port_ok then
            Err (InvalidRule (lit "network_rule host contains an unsupported suffix: " ++ raw))
          else Ok inside
      end
  | None =>
      if decide (count_occ N.eq_dec host c_colon = 1) then
        match rsplit_once c_colon host with
        | Some (candidate, port) =>
            if negb (bool_decide (candidate = [])) && negb (bool_decide (port = []))
               && all_digits port
            then Ok candidate else Ok host
        | None => Ok host
        end
      else Ok host
  end.

Definition normalize_network_rule_host (raw : str) : Res Error str :=
  let host := trim raw in
  if decide (host = []) then Err (InvalidRule (lit "network_rule host cannot be empty"))
  else if contains (lit "://") host || contains_char c_slash host || contains_char c_question host
          || contains_char c_hash host
  then Err (InvalidRule (lit "network_rule host must be a hostname or IP literal (without scheme or path)"))
  else
    host ← strip_port raw host;
    let normalized := to_ascii_lowercase (trim (trim_end_matches (N.eqb c_dot) host)) in
    if decide (normalized = []) then Err (InvalidRule (lit "network_rule host cannot be empty"))
    else if contains_char c_star normalized then
      Err (InvalidRule (lit "network_rule host must be a specific host; wildcards are not allowed"))
    else if existsb is_whitespace normalized then
      Err (InvalidRule (lit "network_rule host cannot contain whitespace"))
    else Ok normalized.

(** ** The [multimap] crate

    A map from names to non-empty vectors; only its documented behaviour is
    used. *)
Class MultiMap (MM : Type → Type) : Type := {
  mm_new {V} : MM V;
  mm_insert {V} : MM V → str → V → MM V;
  mm_get_vec {V} : MM V → str → option (list V);
  mm_iter_all {V} : MM V → list (str * list V)
}.

Class MultiMapLaws (MM : Type → Type) `{!MultiMap MM} : Prop := {
  get_vec_new {V} k : mm_get_vec (mm_new : MM V) k = None;
  get_vec_insert {V} (m : MM V) k v k' :
    mm_get_vec (mm_insert m k v) k' =
    if decide (k' = k) then Some (default [] (mm_get_vec m k) ++ [v]) else mm_get_vec m k';
  iter_all_spec {V} (m : MM V) k vs : (k, vs) ∈ mm_iter_all m ↔ mm_get_vec m k = Some vs;
  iter_all_keys {V} (m : MM V) : NoDup (mm_iter_all m).*1
}.

Definition gmap_mm (V : Type) : Type := gmap str (list V).

#[global] Instance gmap_MultiMap : MultiMap gmap_mm := {
  mm_new V := (∅ : gmap str (list V));
  mm_insert V m k v := <[k := default [] (m !! k) ++ [v]]> (m : gmap str (list V));
  mm_get_vec V m k := (m : gmap str (list V)) !! k;
  mm_iter_all V m := map_to_list (m : gmap str (list V))
}.

#[global] Instance gmap_MultiMapLaws : MultiMapLaws gmap_mm.
Proof.
  split; simpl.
  - intros. apply lookup_empty.
  - intros V m k v k'. case_decide; [subst; apply lookup_insert_eq|by apply lookup_insert_ne].
  - intros V m k vs. apply elem_of_map_to_list.
  - intros V m. apply NoDup_fst_map_to_list.
Qed.

(** ** [policy.rs] *)

Record MatchOptions : Type := { resolve_host_executables : bool }.
Definition MatchOptions_default : MatchOptions := {| resolve_host_executables := false |}.

(** [iter().filter_map(..).collect()] over a function that may panic. *)
Fixpoint filter_map_res {A B} (f : A → Total (option B)) (l : list A) : Total (list B) :=
  match l with
  | [] => Ok []
  | a :: l' =>
      o ← f a;
      bs ← filter_map_res f l';
      Ok (match o with Some b => b :: bs | None => bs end)
  end.

Record Evaluation : Type := { eval_decision : Decision; matched_rules : list RuleMatch }.

Definition is_match (e : Evaluation) : bool :=
  existsb (λ m, match m with HeuristicsRuleMatch _ _ => false | _ => true end) (matched_rules e).

Definition max_decision (ms : list RuleMatch) : option Decision :=
  foldr (λ m acc, Some (match acc with
                        | Some d => decision_max d (match_decision m)
                        | None => match_decision m
                        end)) None ms.

Definition from_matches (ms : list RuleMatch) : Total Evaluation :=
  match max_decision ms with
  | Some decision => Ok {| eval_decision := decision; matched_rules := ms |}
  | None => Panic ExpectFailed
  end.

Definition c_pipe : char := 124%N.

Definition render_pattern_token (t : PatternToken) : str :=
  match t with
  | Single value => value
  | Alts alternatives => [c_lbracket] ++ join [c_pipe] alternatives ++ [c_rbracket]
  end.

Definition upsert_domain (entries : list str) (host : str) : list str :=
  List.filter (λ entry, negb (bool_decide (entry = host))) entries ++ [host].

Definition retain_ne (host : str) (entries : list str) : list str :=
  List.filter (λ entry, negb (bool_decide (entry = host))) entries.

Section policy.
Context {MM : Type → Type} `{!MultiMap MM} {R : Type} `{!Rule R}.
(** The home directory and [std::env::current_dir()]. *)
Context (home_dir : option str) (current_dir : Res io_error str).

Record Policy : Type := {
  rules_by_program : MM R;
  network_rules : list NetworkRule;
  host_executables_by_name : gmap str (list str)
}.

Definition Policy_new (rules : MM R) : Policy :=
  {| rules_by_program := rules; network_rules := []; host_executables_by_name := ∅ |}.
Definition Policy_empty : Policy := Policy_new mm_new.

Definition render_prefix (r : PrefixRule) : list str :=
  first (pattern r) :: map render_pattern_token (rest (pattern r)).

Definition allowed_prefix (rule : R) : option (list str) :=
  match as_prefix_rule rule with
  | None => None
  | Some prefix_rule =>
      if decide (decision prefix_rule ≠ Allow) then None else Some (render_prefix prefix_rule)
  end.

Definition get_allowed_prefixes (p : Policy) : list (list str) :=
  let prefixes := concat (map (λ '(_, rules), omap allowed_prefix rules)
                            (mm_iter_all (rules_by_program p))) in
  dedup (sort prefixes).

Definition add_network_rule (p : Policy) (host : str) (protocol : NetworkRuleProtocol)
    (decision : Decision) (justification : option str) : Res Error Policy :=
  host ← normalize_network_rule_host host;
  if match justification with Some raw => bool_decide (trim raw = []) | None => false end then
    Err (InvalidRule (lit "justification cannot be empty"))
  else
    Ok {| rules_by_program := rules_by_program p;
          network_rules := network_rules p ++
            [{| host := host; protocol := protocol; net_decision := decision;
                net_justification := justification |}];
          host_executables_by_name := host_executables_by_name p |}.

Definition set_host_executable_paths (p : Policy) (name : str) (paths : list str) : Policy :=
  {| rules_by_program := rules_by_program p;
     network_rules := network_rules p;
     host_executables_by_name := <[name := paths]> (host_executables_by_name p) |}.

(** Inserting all rules of a vector under one program. *)
Definition insert_all (m : MM R) (program : str) (rules : list R) : MM R :=
  foldl (λ m rule, mm_insert m program rule) m rules.

Definition merge_overlay (self overlay : Policy) : Policy :=
  {| rules_by_program :=
       foldl (λ m '(program, rules), insert_all m program rules)
         (rules_by_program self) (mm_iter_all (rules_by_program overlay));
     network_rules := network_rules self ++ network_rules overlay;
     host_executables_by_name :=
       host_executables_by_name overlay ∪ host_executables_by_name self |}.

Definition domain_step (acc : list str * list str) (rule : NetworkRule)
    : list str * list str :=
  let (allowed, denied) := acc in
  match net_decision rule with
  | Allow => (upsert_domain allowed (host rule), retain_ne (host rule) denied)
  | Forbidden => (retain_ne (host rule) allowed, upsert_domain denied (host rule))
  | Prompt => (allowed, denied)
  end.

Definition compiled_network_domains (p : Policy) : list str * list str :=
  foldl domain_step ([], []) (network_rules p).

Definition match_exact_rules (p : Policy) (cmd : list str)
    : Total (option (list RuleMatch)) :=
  match cmd with
  | [] => Ok None
  | first :: _ =>
      match mm_get_vec (rules_by_program p) first with
      | Some rules =>
          ms ← filter_map_res (λ rule, rule_matches rule cmd) rules;
          Ok (Some ms)
      | None => Ok (Some [])
      end
  end.

Definition match_host_executable_rules (p : Policy) (cmd : list str)
    : Total (list RuleMatch) :=
  match cmd with
  | [] => Ok []
  | first :: args =>
      match from_absolute_path home_dir current_dir first with
      | Ok program =>
          match executable_path_lookup_key program with
          | None => Ok []
          | Some basename =>
              match mm_get_vec (rules_by_program p) basename with
              | None => Ok []
              | Some rules =>
                  if match host_executables_by_name p !! basename with
                     | Some paths => negb (existsb (λ path, bool_decide (path = program)) paths)
                     | None => false
                     end
                  then Ok []
                  else
                    ms ← filter_map_res (λ rule, rule_matches rule (basename :: args)) rules;
                    Ok (map (λ m, with_resolved_program m program) ms)
              end
          end
      | Err _ => Ok []
      | Panic e => Panic e
      end
  end.

Definition matches_for_command_with_options (p : Policy) (cmd : list str)
    (heuristics_fallback : option (list str → Decision)) (options : MatchOptions)
    : Total (list RuleMatch) :=
  exact ← match_exact_rules p cmd;
  matched_rules ←
    match exact with
    | Some (m :: ms) => Ok (m :: ms)
    | _ =>
        if resolve_host_executables options then match_host_executable_rules p cmd
        else Ok []
    end;
  match matched_rules, heuristics_fallback with
  | [], Some heuristics_fallback =>
      Ok [HeuristicsRuleMatch cmd (heuristics_fallback cmd)]
  | _, _ => Ok matched_rules
  end.

Definition matches_for_command (p : Policy) (cmd : list str)
    (heuristics_fallback : option (list str → Decision)) : Total (list RuleMatch) :=
  matches_for_command_with_options p cmd heuristics_fallback MatchOptions_default.

Definition check_with_options (p : Policy) (cmd : list str)
    (heuristics_fallback : list str → Decision) (options : MatchOptions) : Total Evaluation :=
  matched_rules ←
    matches_for_command_with_options p cmd (Some heuristics_fallback) options;
  from_matches matched_rules.

Definition check (p : Policy) (cmd : list str) (heuristics_fallback : list str → Decision)
    : Total Evaluation :=
  matched_rules ←
    matches_for_command_with_options p cmd (Some heuristics_fallback) MatchOptions_default;
  from_matches matched_rules.

Definition check_multiple_with_options (p : Policy) (commands : list (list str))
    (heuristics_fallback : list str → Decision) (options : MatchOptions) : Total Evaluation :=
  matched_rules ← collect_res (map (λ command,
    matches_for_command_with_options p command (Some heuristics_fallback) options) commands);
  from_matches (concat matched_rules).

Definition check_multiple (p : Policy) (commands : list (list str))
    (heuristics_fallback : list str → Decision) : Total Evaluation :=
  check_multiple_with_options p commands heuristics_fallback MatchOptions_default.
End policy.
#[global] Arguments Policy MM R : clear implicits.

(** [add_prefix_rule] makes a [PrefixRule]. *)
Definition add_prefix_rule {MM} `{!MultiMap MM} (p : Policy MM PrefixRule) (prefix : list str)
    (decision : Decision) : Res Error (Policy MM PrefixRule) :=
  match prefix with
  | [] => Err (InvalidPattern (lit "prefix cannot be empty"))
  | first_token :: rest =>
      let rule := {| pattern := {| first := first_token; rest := map Single rest |};
                     decision := decision; justification := None |} in
      Ok {| rules_by_program := mm_insert (rules_by_program p) first_token rule;
            network_rules := network_rules p;
            host_executables_by_name := host_executables_by_name p |}
  end.
