(* ===== verification/ExecPolicyProofs.v ===== *)
(** * The command policy: theorems

    Prefix matching against its specification, the map lookup against a scan
    of all rules, decisions as the strictest match, overlays, host
    executables and the compiled network lists. *)
From Stdlib Require Import Sorted.
From S2P Require Import Prelude RustStr AbsolutePath FileSystem Ordering ExecPolicy.

(** ** Prefix patterns *)

(** The words a pattern token stands for. *)
Definition accepts (t : PatternToken) (token : str) : Prop := token ∈ token_alternatives t.

(** [prefix] is the part of [cmd] that the pattern matches. *)
Definition prefix_match (p : PrefixPattern) (cmd prefix : list str) : Prop :=
  ∃ args tail, cmd = first p :: args ++ tail ∧ prefix = first p :: args ∧
    Forall2 accepts (rest p) args.

Lemma token_matches_spec t token : token_matches t token = true ↔ accepts t token.
Proof.
  unfold accepts. destruct t as [e|alts]; simpl.
  - rewrite bool_decide_eq_true. set_solver.
  - rewrite existsb_exists. setoid_rewrite bool_decide_eq_true. split.
    + intros (x & Hx & ->). by apply list_elem_of_In.
    + intros H. exists token. by rewrite <-list_elem_of_In.
Qed.

Lemma forallb_zip_spec ts args :
  length args = length ts →
  forallb (λ '(t, a), token_matches t a) (zip ts args) = true ↔ Forall2 accepts ts args.
Proof.
  revert args; induction ts as [|t ts IH]; intros [|a args] Hlen; simplify_eq/=.
  - split; [constructor|done].
  - rewrite andb_true_iff, token_matches_spec, IH by done. split; [intros []; by constructor|].
    intros H; by inversion H.
Qed.

Lemma matches_prefix_cases p cmd :
  (∃ prefix, matches_prefix p cmd = Ok (Some prefix) ∧ prefix_match p cmd prefix) ∨
  (matches_prefix p cmd = Ok None ∧ ∀ prefix, ¬ prefix_match p cmd prefix).
Proof.
  unfold matches_prefix, prefix_match. case_decide as Hlen.
  { right. split; [done|]. intros prefix (args & tail & -> & _ & Hf%Forall2_length).
    simpl in Hlen. rewrite length_app in Hlen. lia. }
  destruct cmd as [|c0 cmd]; [simpl in Hlen; lia|]. simpl in Hlen. cbn [index lookup list_lookup mbind Res_bind].
  case_decide as Hc0.
  { right. split; [done|]. by intros prefix (args & tail & [= -> _] & _). }
  subst c0.
  unfold slice. rewrite decide_True by (simpl; lia). cbn [mbind Res_bind drop].
  replace (length (rest p) + 1 - 1) with (length (rest p)) by lia.
  assert (Hl : length (take (length (rest p)) cmd) = length (rest p)) by (rewrite length_take; lia).
  destruct (forallb _ _) eqn:Hall.
  - left. unfold slice_to. rewrite decide_True by (simpl; lia). simpl.
    rewrite Nat.add_1_r. simpl. eexists. split; [done|].
    exists (take (length (rest p)) cmd), (drop (length (rest p)) cmd).
    rewrite take_drop. split_and!; [done|done|]. by apply forallb_zip_spec.
  - right. split; [done|]. intros prefix (args & tail & [= ->] & _ & Hf).
    apply not_true_iff_false in Hall. apply Hall, forallb_zip_spec; [done|].
    assert (Ha := Forall2_length _ _ _ Hf). by rewrite drop_0, Ha, take_app_length.
Qed.

Lemma prefix_match_unique p cmd m m' : prefix_match p cmd m → prefix_match p cmd m' → m = m'.
Proof.
  intros (a & t & -> & -> & Ha%Forall2_length) (a' & t' & [= Heq] & -> & Ha'%Forall2_length).
  f_equal. apply (app_inj_1 _ _ t t'); congruence.
Qed.

(** [matches_prefix] never panics, and returns a prefix exactly when the
    command starts with the pattern's first word followed by one word for each
    remaining token, each among the token's alternatives; the returned prefix
    is that part of the command. *)
Theorem matches_prefix_correct p cmd :
  ∃ o, matches_prefix p cmd = Ok o ∧
    ∀ prefix, o = Some prefix ↔ prefix_match p cmd prefix.
Proof.
  destruct (matches_prefix_cases p cmd) as [(m & -> & Hm)|[-> Hno]]; eexists; (split; [done|]).
  - intros prefix. split; [by intros [= <-]|]. intros H. f_equal. by eapply prefix_match_unique.
  - intros prefix. split; [done|]. intros H. by destruct (Hno prefix).
Qed.

#[global] Instance PrefixRule_laws : RuleLaws PrefixRule.
Proof.
  split; intros r cmd; simpl; unfold PrefixRule_matches;
    destruct (matches_prefix_cases (pattern r) cmd) as [(m & -> & Hm)|[-> _]]; simpl; eauto.
  - intros ? _. by destruct Hm as (args & tail & -> & _).
  - done.
Qed.

(** ** The strictest decision *)

Lemma max_decision_spec ms d :
  max_decision ms = Some d →
  (∃ m, m ∈ ms ∧ match_decision m = d) ∧
  ∀ m, m ∈ ms → decision_rank (match_decision m) ≤ decision_rank d.
Proof.
  revert d; induction ms as [|m ms IH]; intros d Hd; [done|]. simpl in Hd. injection Hd as <-.
  destruct (max_decision ms) as [d|] eqn:E1.
  - destruct (IH d eq_refl) as [(m' & Hm' & Hd) Hle]. unfold decision_max. case_decide as Hr.
    + split; [set_solver|]. intros m1 [->|Hm1]%elem_of_cons; [done|].
      specialize (Hle m1 Hm1). lia.
    + split; [exists m'; set_solver|]. intros m1 [->|Hm1]%elem_of_cons; [lia|auto].
  - destruct ms; [|done]. set_solver.
Qed.

Lemma max_decision_Some ms : ms ≠ [] → is_Some (max_decision ms).
Proof. destruct ms; [done|]. simpl. eauto. Qed.

Lemma from_matches_spec ms :
  ms ≠ [] → ∃ e, from_matches ms = Ok e ∧ matched_rules e = ms ∧
    (∃ m, m ∈ ms ∧ match_decision m = eval_decision e) ∧
    ∀ m, m ∈ ms → decision_rank (match_decision m) ≤ decision_rank (eval_decision e).
Proof.
  intros Hne. unfold from_matches. destruct (max_decision_Some ms Hne) as [d Hd]. rewrite Hd.
  destruct (max_decision_spec ms d Hd). by eexists.
Qed.
(** ** Matching against a policy *)

Section policy_proofs.
#[local] Set Default Proof Using "Type*".
Context {MM : Type → Type} `{!MultiMap MM} `{!MultiMapLaws MM}.
Context {R : Type} `{!Rule R} `{!RuleLaws R}.
Context (home_dir : option str) (current_dir : Res io_error str).
Implicit Types (p : Policy MM R) (cmd : list str).

Definition rule_match (cmd : list str) (r : R) : option RuleMatch :=
  match rule_matches r cmd with Ok o => o | _ => None end.

Lemma rule_matches_eq cmd r : rule_matches r cmd = Ok (rule_match cmd r).
Proof. unfold rule_match. by destruct (rule_matches_total r cmd) as [o ->]. Qed.

Lemma filter_map_res_omap cmd rules :
  filter_map_res (λ r, rule_matches r cmd) rules = Ok (omap (rule_match cmd) rules).
Proof.
  induction rules as [|r rules IH]; [done|]. simpl. by rewrite rule_matches_eq, IH.
Qed.

Definition rules_of p (k : str) : list R := default [] (mm_get_vec (rules_by_program p) k).

Definition exact_matches p cmd : list RuleMatch :=
  match cmd with
  | [] => []
  | k :: _ => omap (rule_match cmd) (rules_of p k)
  end.

Lemma match_exact_rules_eq p cmd :
  match_exact_rules p cmd =
  Ok (match cmd with [] => None | _ => Some (exact_matches p cmd) end).
Proof.
  unfold match_exact_rules, exact_matches, rules_of. destruct cmd as [|k args]; [done|].
  destruct (mm_get_vec _ k) as [rules|]; [|done]. by rewrite filter_map_res_omap.
Qed.

Lemma host_matches_total p cmd :
  no_panic current_dir → ∃ ms, match_host_executable_rules home_dir current_dir p cmd = Ok ms.
Proof.
  intros Hcd. unfold match_host_executable_rules. destruct cmd as [|k args]; [eauto|].
  assert (Hnp : no_panic (from_absolute_path home_dir current_dir k)).
  { unfold from_absolute_path, absolutize. case_match; [done|]. by destruct current_dir. }
  destruct (from_absolute_path home_dir current_dir k) as [prog| |]; [|eauto|done].
  destruct (executable_path_lookup_key prog) as [b|]; [|eauto].
  destruct (mm_get_vec (rules_by_program p) b); [|eauto]. case_match; [eauto|].
  rewrite filter_map_res_omap. simpl. eauto.
Qed.

Lemma matches_cases p cmd h o :
  no_panic current_dir →
  ∃ ms, matches_for_command_with_options home_dir current_dir p cmd h o = Ok ms ∧
    (exact_matches p cmd ≠ [] → ms = exact_matches p cmd) ∧
    (h ≠ None → ms ≠ []).
Proof.
  intros Hcd. unfold matches_for_command_with_options. rewrite match_exact_rules_eq. cbn [mbind Res_bind].
  assert (Hex : (∃ m ms, match cmd with [] => None | _ => Some (exact_matches p cmd) end =
    Some (m :: ms) ∧ exact_matches p cmd = m :: ms) ∨ exact_matches p cmd = []).
  { destruct cmd; [by right|]. destruct (exact_matches _ _) eqn:He; [by right|]. left. eauto. }
  destruct Hex as [(m & ms & -> & He)|He].
  { simpl. exists (m :: ms). split; [by destruct h|]. by rewrite He. }
  assert (Hf : ∃ ms, match match cmd with [] => None | _ => Some (exact_matches p cmd) end with
    | Some (m :: ms) => Ok (m :: ms)
    | _ => if resolve_host_executables o then match_host_executable_rules home_dir current_dir p cmd
           else Ok [] end = Ok ms).
  { rewrite He. destruct (host_matches_total p cmd Hcd) as [ms ->].
    destruct cmd, (resolve_host_executables o); eauto. }
  destruct Hf as [ms ->]. simpl. destruct ms as [|m ms], h as [h|]; simpl;
    eexists; (split; [done|]); (split; [done|]); done.
Qed.

(** A match by host executable: the command with its program, read as a path,
    replaced by the basename, under a rule for that basename, where the path
    is among the host executables listed for the basename, if any are. *)
Definition host_match p cmd (m : RuleMatch) : Prop :=
  ∃ word args program basename r m',
    cmd = word :: args ∧ from_absolute_path home_dir current_dir word = Ok program ∧
    file_name program = Some basename ∧
    (∀ paths, host_executables_by_name p !! basename = Some paths → program ∈ paths) ∧
    r ∈ rules_of p basename ∧ rule_matches r (basename :: args) = Ok (Some m') ∧
    m = with_resolved_program m' program.

Lemma host_matches_none p cmd m : ¬ host_match p cmd m → m ∈ ([] : list RuleMatch) ↔ host_match p cmd m.
Proof. rewrite elem_of_nil. tauto. Qed.

(** What [host_match] says once the path and its basename are known. *)
Lemma host_match_resolved p word args prog b m :
  from_absolute_path home_dir current_dir word = Ok prog → file_name prog = Some b →
  host_match p (word :: args) m ↔
  (∀ paths, host_executables_by_name p !! b = Some paths → prog ∈ paths) ∧
  ∃ r m', r ∈ rules_of p b ∧ rule_match (b :: args) r = Some m' ∧ m = with_resolved_program m' prog.
Proof.
  intros Hp Hb. unfold host_match. setoid_rewrite rule_matches_eq. split.
  - intros (? & ? & prog' & b' & r & m' & [= <- <-] & Hp' & Hb' & Hpaths & Hr & [= Hm] & ->).
    rewrite Hp in Hp'. injection Hp' as <-. rewrite Hb in Hb'. injection Hb' as <-. split; [done|].
    by exists r, m'.
  - intros (Hpaths & r & m' & Hr & Hm & ->). exists word, args, prog, b, r, m'. by rewrite Hm.
Qed.

Lemma host_matches_spec p cmd ms m :
  match_host_executable_rules home_dir current_dir p cmd = Ok ms → m ∈ ms ↔ host_match p cmd m.
Proof.
  unfold match_host_executable_rules, executable_path_lookup_key, executable_lookup_key. intros Hms.
  destruct cmd as [|word args]; [injection Hms as <-; apply host_matches_none; by intros (? & ? & ? & ? & ? & ? & ? & _)|].
  destruct (from_absolute_path home_dir current_dir word) as [prog| |] eqn:Hprog; [| |done].
  2:{ injection Hms as <-. apply host_matches_none.
      intros (? & ? & ? & ? & ? & ? & [= <- <-] & Hp & _). congruence. }
  destruct (file_name prog) as [b|] eqn:Hb; cbn [fmap option_fmap option_map] in Hms.
  2:{ injection Hms as <-. apply host_matches_none.
      intros (? & ? & ? & ? & ? & ? & [= <- <-] & Hp & Hf & _). congruence. }
  rewrite (host_match_resolved _ _ _ _ _ _ Hprog Hb). unfold rules_of.
  destruct (mm_get_vec (rules_by_program p) b) as [rules|]; simpl.
  2:{ injection Hms as <-. rewrite elem_of_nil. split; [done|].
      intros (_ & r & m' & Hin & _). by apply elem_of_nil in Hin. }
  assert (Hg : match host_executables_by_name p !! b with
    | Some paths => negb (existsb (λ path, bool_decide (path = prog)) paths) | None => false end = false ↔
    ∀ paths, host_executables_by_name p !! b = Some paths → prog ∈ paths).
  { destruct (host_executables_by_name p !! b) as [paths|]; [|by split].
    rewrite negb_false_iff, existsb_exists. setoid_rewrite <-list_elem_of_In.
    setoid_rewrite bool_decide_eq_true. split; [by intros (? & ? & ->) ? [= <-]|]. eauto. }
  destruct (match host_executables_by_name p !! b with Some _ => _ | None => _ end).
  { injection Hms as <-. rewrite elem_of_nil. split; [done|]. by intros [?%Hg _]. }
  rewrite filter_map_res_omap in Hms. injection Hms as <-. rewrite list_elem_of_fmap.
  setoid_rewrite list_elem_of_omap. split.
  - intros (m' & -> & r & Hin & Hm'). split; [by apply Hg|]. eauto.
  - intros (_ & r & m' & Hin & Hm' & ->). eauto.
Qed.

(** What decides on a command: the exact matches, if there are any; else, when
    host executables are resolved, the matches by host executable, if there
    are any; else the heuristics alone. *)
Definition deciding p cmd (heuristics : list str → Decision) (options : MatchOptions)
    (ms : list RuleMatch) : Prop :=
  let resolving := resolve_host_executables options = true in
  (exact_matches p cmd ≠ [] → ms = exact_matches p cmd) ∧
  (exact_matches p cmd = [] → resolving → (∃ m, host_match p cmd m) →
     ∀ m, m ∈ ms ↔ host_match p cmd m) ∧
  (exact_matches p cmd = [] → (resolving → ∀ m, ¬ host_match p cmd m) →
     ms = [HeuristicsRuleMatch cmd (heuristics cmd)]).

Lemma matches_deciding p cmd heuristics options :
  no_panic current_dir →
  ∃ ms, matches_for_command_with_options home_dir current_dir p cmd (Some heuristics) options = Ok ms ∧
    ms ≠ [] ∧ deciding p cmd heuristics options ms.
Proof.
  intros Hcd. unfold matches_for_command_with_options, deciding.
  rewrite match_exact_rules_eq. cbn [mbind Res_bind].
  destruct (exact_matches p cmd) as [|m ms] eqn:He.
  2:{ destruct cmd as [|k args]; [done|]. simpl. by exists (m :: ms). }
  destruct (host_matches_total p cmd Hcd) as [hs Hhs].
  assert (Hspec := λ m, host_matches_spec p cmd hs m Hhs).
  exists (if resolve_host_executables options then
            match hs with [] => [HeuristicsRuleMatch cmd (heuristics cmd)] | _ => hs end
          else [HeuristicsRuleMatch cmd (heuristics cmd)]).
  split; [rewrite Hhs; by destruct cmd, (resolve_host_executables options), hs|].
  split; [by destruct (resolve_host_executables options), hs|].
  destruct (resolve_host_executables options) eqn:Ho.
  - split; [done|]. destruct hs as [|h hs]; split.
    + intros _ _ [m Hm%Hspec]. by apply elem_of_nil in Hm.
    + done.
    + intros _ _ _. exact Hspec.
    + intros _ Hno. exfalso. apply (Hno eq_refl h), Hspec. by left.
  - done.
Qed.

(** *** The map of rules *)

(** Every rule is stored under its own program. *)
Definition well_keyed p : Prop :=
  ∀ k r, r ∈ rules_of p k → program r = k.

(** All rules of a policy. *)
Definition all_rules p : list R := concat (mm_iter_all (rules_by_program p)).*2.

Lemma elem_of_all_rules p r : r ∈ all_rules p ↔ ∃ k, r ∈ rules_of p k.
Proof.
  unfold all_rules, rules_of. rewrite list_elem_of_In, in_concat.
  setoid_rewrite <-list_elem_of_In. setoid_rewrite list_elem_of_fmap. split.
  - intros (vs & ([k vs'] & -> & Hk) & Hr). apply iter_all_spec in Hk. exists k. by rewrite Hk.
  - intros (k & Hr). destruct (mm_get_vec _ k) as [vs|] eqn:Hk; [|by apply elem_of_nil in Hr].
    exists vs. split; [|done]. exists (k, vs). split; [done|]. by apply iter_all_spec.
Qed.

Lemma insert_all_lookup (m : MM R) k rules k' :
  default [] (mm_get_vec (insert_all m k rules) k') =
  default [] (mm_get_vec m k') ++ (if decide (k' = k) then rules else []).
Proof.
  unfold insert_all. revert m; induction rules as [|r rules IH]; intros m; simpl.
  { by case_decide; rewrite app_nil_r. }
  rewrite IH, get_vec_insert. case_decide as Hk; simpl; [subst|by rewrite app_nil_r].
  by rewrite <-app_assoc.
Qed.

Lemma foldl_insert_all (kvs : list (str * list R)) (m : MM R) k :
  NoDup kvs.*1 →
  default [] (mm_get_vec (foldl (λ m '(program, rules), insert_all m program rules) m kvs) k) =
  default [] (mm_get_vec m k) ++ default [] ((list_to_map kvs : gmap str (list R)) !! k).
Proof.
  revert m; induction kvs as [|[k0 vs0] kvs IH]; intros m Hnd; simpl in *.
  { by rewrite lookup_empty, app_nil_r. }
  apply NoDup_cons in Hnd as [Hk0 Hnd]. rewrite IH, insert_all_lookup, <-app_assoc by done.
  f_equal. case_decide as Hk; [subst k|by rewrite lookup_insert_ne].
  rewrite (not_elem_of_list_to_map_1 _ _ Hk0), lookup_insert_eq. simpl. by rewrite app_nil_r.
Qed.

Lemma rules_of_merge p q k : rules_of (merge_overlay p q) k = rules_of p k ++ rules_of q k.
Proof.
  unfold rules_of, merge_overlay. simpl. rewrite foldl_insert_all by apply iter_all_keys.
  do 2 f_equal. apply option_eq. intros vs.
  rewrite <-elem_of_list_to_map by apply iter_all_keys. apply iter_all_spec.
Qed.

Lemma exact_matches_merge p q cmd :
  exact_matches (merge_overlay p q) cmd = exact_matches p cmd ++ exact_matches q cmd.
Proof.
  destruct cmd as [|k args]; [done|]. unfold exact_matches. by rewrite rules_of_merge, omap_app.
Qed.

Lemma well_keyed_merge p q : well_keyed p → well_keyed q → well_keyed (merge_overlay p q).
Proof.
  intros Hp Hq k r. rewrite rules_of_merge, elem_of_app. intros [|]; [by apply Hp|by apply Hq].
Qed.

Lemma exact_matches_scan p cmd m :
  well_keyed p →
  m ∈ exact_matches p cmd ↔ ∃ r, r ∈ all_rules p ∧ rule_matches r cmd = Ok (Some m).
Proof.
  intros Hwk. setoid_rewrite elem_of_all_rules. setoid_rewrite rule_matches_eq.
  destruct cmd as [|k args]; simpl.
  - rewrite elem_of_nil. split; [done|]. intros (r & _ & Hr).
    assert (H := rule_matches_program r [] m). rewrite rule_matches_eq, Hr in H.
    by specialize (H eq_refl).
  - rewrite list_elem_of_omap. split.
    + intros (r & Hr & Hm). exists r. rewrite Hm. eauto.
    + intros (r & (k' & Hr) & [= Hm]). exists r. split; [|done].
      assert (H := rule_matches_program r (k :: args) m). rewrite rule_matches_eq, Hm in H.
      specialize (H eq_refl). simpl in H. injection H as ->. by rewrite (Hwk _ _ Hr).
Qed.
End policy_proofs.

(** ** Policies that are built by the operations *)

Inductive built {MM} `{!MultiMap MM} : Policy MM PrefixRule → Prop :=
| built_empty : built Policy_empty
| built_prefix p p' prefix d : built p → add_prefix_rule p prefix d = Ok p' → built p'
| built_network p p' h pr d j : built p → add_network_rule p h pr d j = Ok p' → built p'
| built_host p name paths : built p → built (set_host_executable_paths p name paths)
| built_merge p q : built p → built q → built (merge_overlay p q).

Lemma built_well_keyed {MM} `{!MultiMap MM} `{!MultiMapLaws MM} p :
  built (MM:=MM) p → well_keyed p.
Proof.
  induction 1 as [|p p' prefix d _ IH Hp|p p' h pr d j _ IH Hp|p name paths _ IH|p q _ IHp _ IHq].
  - intros k r. unfold rules_of. simpl. rewrite get_vec_new. simpl. set_solver.
  - destruct prefix as [|w ws]; [done|]. injection Hp as <-. intros k r. unfold rules_of. simpl.
    rewrite get_vec_insert. case_decide as Hk; [subst k|apply IH].
    simpl. rewrite elem_of_app, list_elem_of_singleton. intros [Hr| ->]; [by apply IH|done].
  - unfold add_network_rule in Hp. destruct (normalize_network_rule_host h); [|done..].
    cbn [mbind Res_bind] in Hp. destruct (match j with Some _ => _ | None => _ end); [done|].
    injection Hp as <-. exact IH.
  - exact IH.
  - by apply well_keyed_merge.
Qed.

(** Looking rules up by the first word of a command misses nothing: in a
    policy made by the policy operations (adding prefix and network rules and
    host executables, merging overlays), the exact matches of a command are
    the matches of all rules of the policy, under whatever program they are
    stored. *)
Theorem built_lookup_is_scan {MM} `{!MultiMap MM} `{!MultiMapLaws MM} (p : Policy MM PrefixRule) cmd :
  built p →
  ∃ ms, match_exact_rules p cmd = Ok (match cmd with [] => None | _ => Some ms end) ∧
    ∀ m, m ∈ ms ↔ ∃ r, r ∈ all_rules p ∧ rule_matches r cmd = Ok (Some m).
Proof.
  intros Hp. exists (exact_matches p cmd). split; [apply match_exact_rules_eq|].
  intros m. by apply exact_matches_scan, built_well_keyed.
Qed.

Definition git_policy : Policy gmap_mm PrefixRule :=
  match add_prefix_rule Policy_empty [lit "git"; lit "status"] Allow with
  | Ok p => p
  | _ => Policy_empty
  end.
Definition git_push_policy : Policy gmap_mm PrefixRule :=
  match add_prefix_rule Policy_empty [lit "git"] Prompt with
  | Ok p => p
  | _ => Policy_empty
  end.

Lemma built_lookup_is_scan_witness :
  ∃ ms, match_exact_rules git_policy [lit "git"; lit "status"] = Ok (Some ms) ∧
    ∀ m, m ∈ ms ↔ ∃ r, r ∈ all_rules git_policy ∧
      rule_matches r [lit "git"; lit "status"] = Ok (Some m).
Proof.
  apply (built_lookup_is_scan git_policy [lit "git"; lit "status"]).
  eapply (built_prefix Policy_empty _ [lit "git"; lit "status"] Allow); [constructor|].
  vm_compute. reflexivity.
Defined.

(** A policy over host executables. *)
Definition git_host_policy : Policy gmap_mm PrefixRule :=
  set_host_executable_paths git_policy (lit "git") [lit "/usr/bin/git"].

(** C38. A check of a command returns, for every policy; its decision is that
    of some match, and no match is stricter.  What the matches are is fixed:
    the exact matches, if any rule matches the command exactly; otherwise,
    when host executables are resolved, the matches by host executable, if
    there are any; otherwise the heuristics' answer and nothing else. *)
Theorem check_strictest {MM} `{!MultiMap MM} `{!MultiMapLaws MM} {R} `{!Rule R} `{!RuleLaws R}
    home_dir current_dir (p : Policy MM R) cmd heuristics options :
  no_panic current_dir →
  ∃ e, check_with_options home_dir current_dir p cmd heuristics options = Ok e ∧
    (∃ m, m ∈ matched_rules e ∧ match_decision m = eval_decision e) ∧
    (∀ m, m ∈ matched_rules e →
       decision_rank (match_decision m) ≤ decision_rank (eval_decision e)) ∧
    deciding home_dir current_dir p cmd heuristics options (matched_rules e).
Proof.
  intros Hcd. unfold check_with_options.
  destruct (matches_deciding home_dir current_dir p cmd heuristics options Hcd)
    as (ms & -> & Hne & Hdec). simpl.
  destruct (from_matches_spec ms Hne) as (e & -> & <- & Hin & Hmax). by exists e.
Qed.

Lemma check_strictest_witness :
  ∃ e, check_with_options None (Ok (lit "/w")) git_host_policy [lit "/usr/bin/git"; lit "status"]
      (λ _, Forbidden) {| resolve_host_executables := true |} = Ok e ∧
    (∃ m, m ∈ matched_rules e ∧ match_decision m = eval_decision e) ∧
    (∀ m, m ∈ matched_rules e →
       decision_rank (match_decision m) ≤ decision_rank (eval_decision e)) ∧
    deciding None (Ok (lit "/w")) git_host_policy [lit "/usr/bin/git"; lit "status"] (λ _, Forbidden)
      {| resolve_host_executables := true |} (matched_rules e).
Proof. apply (check_strictest None (Ok (lit "/w"))). exact I. Defined.

(** Checking several commands at once panics exactly on the empty list;
    otherwise the decision is the strictest over the matches of all of
    them. *)
Theorem check_multiple_total {MM} `{!MultiMap MM} `{!MultiMapLaws MM} {R} `{!Rule R} `{!RuleLaws R}
    home_dir current_dir (p : Policy MM R) commands heuristics options :
  no_panic current_dir →
  match commands with
  | [] => check_multiple_with_options home_dir current_dir p commands heuristics options
          = Panic ExpectFailed
  | _ => ∃ e, check_multiple_with_options home_dir current_dir p commands heuristics options = Ok e ∧
      ∀ cmd e', cmd ∈ commands →
        check_with_options home_dir current_dir p cmd heuristics options = Ok e' →
        decision_rank (eval_decision e') ≤ decision_rank (eval_decision e)
  end.
Proof.
  intros Hcd. unfold check_multiple_with_options.
  assert (Hall : ∃ mss, collect_res (map (λ command, matches_for_command_with_options
      home_dir current_dir p command (Some heuristics) options) commands) = Ok mss ∧
    (commands ≠ [] → concat mss ≠ []) ∧
    ∀ cmd, cmd ∈ commands → ∃ ms, matches_for_command_with_options
      home_dir current_dir p cmd (Some heuristics) options = Ok ms ∧ ∀ m, m ∈ ms → m ∈ concat mss).
  { induction commands as [|cmd commands (mss & Hmss & _ & Hin)]; simpl.
    { exists []. split; [done|]. split; [done|]. set_solver. }
    destruct (matches_cases home_dir current_dir p cmd (Some heuristics) options Hcd)
      as (ms & Hms & _ & Hne). rewrite Hms. simpl. rewrite Hmss. simpl.
    exists (ms :: mss). split; [done|]. simpl. split.
    - intros _ [H1 _]%app_nil. by destruct Hne.
    - intros c [->|Hc]%elem_of_cons.
      + exists ms. split; [done|]. set_solver.
      + destruct (Hin c Hc) as (ms' & ? & ?). exists ms'. split; [done|]. set_solver. }
  destruct Hall as (mss & Hmss & Hne & Hin).
  destruct commands as [|c0 cs]; [injection Hmss as <-; done|]. rewrite Hmss. cbn [mbind Res_bind].
  destruct (from_matches_spec (concat mss)) as (e & -> & _ & _ & Hmax); [by apply Hne|].
  exists e. split; [done|]. intros cmd e' Hcmd He'. destruct (Hin cmd Hcmd) as (ms & Hms & Hsub).
  unfold check_with_options in He'. rewrite Hms in He'. cbn [mbind Res_bind] in He'.
  unfold from_matches in He'. destruct (max_decision ms) as [d|] eqn:Hd; [|done].
  injection He' as <-. simpl. apply max_decision_spec in Hd as [(m & Hm & <-) _]. auto.
Qed.

Lemma check_multiple_total_witness :
  ∃ e, check_multiple_with_options None (Ok (lit "/w")) git_policy
      [[lit "git"; lit "status"]; [lit "rm"]] (λ _, Prompt) MatchOptions_default = Ok e ∧
    ∀ cmd e', cmd ∈ [[lit "git"; lit "status"]; [lit "rm"]] →
      check_with_options None (Ok (lit "/w")) git_policy cmd (λ _, Prompt) MatchOptions_default = Ok e' →
      decision_rank (eval_decision e') ≤ decision_rank (eval_decision e).
Proof.
  apply (check_multiple_total None (Ok (lit "/w")) git_policy
    [[lit "git"; lit "status"]; [lit "rm"]] (λ _, Prompt) MatchOptions_default). exact I.
Defined.

(** ** Overlays *)

Lemma max_decision_app ms ms' d d' :
  max_decision ms = Some d → max_decision (ms ++ ms') = Some d' →
  decision_rank d ≤ decision_rank d'.
Proof.
  intros [(m & Hm & <-) _]%max_decision_spec [_ Hmax]%max_decision_spec. apply Hmax. set_solver.
Qed.

(** An overlay never relaxes a decision that rules have made: when rules of
    the base policy match a command exactly, the merged policy decides at
    least as strictly, whatever the overlay and the heuristics, and keeps
    every match of the base policy. *)
Theorem merge_overlay_not_weaker {MM} `{!MultiMap MM} `{!MultiMapLaws MM} {R} `{!Rule R} `{!RuleLaws R}
    home_dir current_dir (base overlay : Policy MM R) cmd heuristics options e :
  no_panic current_dir → exact_matches base cmd ≠ [] →
  check_with_options home_dir current_dir base cmd heuristics options = Ok e →
  ∃ e', check_with_options home_dir current_dir (merge_overlay base overlay) cmd heuristics options
          = Ok e' ∧
    decision_rank (eval_decision e) ≤ decision_rank (eval_decision e') ∧
    ∀ m, m ∈ matched_rules e → m ∈ matched_rules e'.
Proof.
  unfold check_with_options. intros Hcd Hne He.
  destruct (matches_cases home_dir current_dir base cmd (Some heuristics) options Hcd)
    as (ms & Hms & Hex & _). rewrite Hms, (Hex Hne) in He. cbn [mbind Res_bind] in He.
  destruct (matches_cases home_dir current_dir (merge_overlay base overlay) cmd
    (Some heuristics) options Hcd) as (ms' & -> & Hex' & _).
  rewrite exact_matches_merge in Hex'. rewrite Hex' by (by intros [? _]%app_nil).
  cbn [mbind Res_bind]. unfold from_matches in *.
  destruct (max_decision (exact_matches base cmd)) as [d|] eqn:Hd; [|done]. injection He as <-.
  destruct (max_decision_Some (exact_matches base cmd ++ exact_matches overlay cmd)) as [d' Hd'];
    [by intros [? _]%app_nil|].
  rewrite Hd'. eexists. split; [done|]. simpl. split; [by eapply max_decision_app|]. set_solver.
Qed.

Lemma merge_overlay_not_weaker_witness :
  ∃ e', check_with_options None (Ok (lit "/w")) (merge_overlay git_policy git_push_policy)
      [lit "git"; lit "status"] (λ _, Forbidden) MatchOptions_default = Ok e' ∧
    decision_rank Allow ≤ decision_rank (eval_decision e') ∧
    ∀ m, m ∈ [PrefixRuleMatch [lit "git"; lit "status"] Allow None None] → m ∈ matched_rules e'.
Proof.
  apply (merge_overlay_not_weaker None (Ok (lit "/w")) git_policy git_push_policy
    [lit "git"; lit "status"] (λ _, Forbidden) MatchOptions_default
    {| eval_decision := Allow;
       matched_rules := [PrefixRuleMatch [lit "git"; lit "status"] Allow None None] |}).
  - exact I.
  - vm_compute. discriminate.
  - vm_compute. reflexivity.
Defined.

(** ** Network domains *)

(** The last rule on a host that allows or forbids it. *)
Definition last_verdict (h : str) (rules : list NetworkRule) : option Decision :=
  foldl (λ acc r, if decide (host r = h ∧ net_decision r ≠ Prompt) then Some (net_decision r)
                  else acc) None rules.

Lemma last_verdict_snoc h rules r :
  last_verdict h (rules ++ [r]) =
  if decide (host r = h ∧ net_decision r ≠ Prompt) then Some (net_decision r)
  else last_verdict h rules.
Proof. unfold last_verdict. by rewrite foldl_app. Qed.

Lemma retain_ne_elem h x l : x ∈ retain_ne h l ↔ x ∈ l ∧ x ≠ h.
Proof.
  unfold retain_ne. rewrite list_elem_of_In, filter_In, <-list_elem_of_In, negb_true_iff,
    bool_decide_eq_false. done.
Qed.

Lemma upsert_domain_elem h x l : x ∈ upsert_domain l h ↔ x ∈ l ∨ x = h.
Proof.
  unfold upsert_domain. change (List.filter _ l) with (retain_ne h l).
  rewrite elem_of_app, retain_ne_elem, list_elem_of_singleton. destruct (decide (x = h)); tauto.
Qed.

Lemma retain_ne_NoDup h l : NoDup l → NoDup (retain_ne h l).
Proof.
  unfold retain_ne. induction 1 as [|a l Ha Hl IH]; simpl; [constructor|].
  destruct (negb _); [|done]. constructor; [|done].
  change (a ∉ retain_ne h l). rewrite retain_ne_elem. tauto.
Qed.

Lemma upsert_domain_NoDup h l : NoDup l → NoDup (upsert_domain l h).
Proof.
  intros Hl. apply NoDup_app. split_and!; [by apply retain_ne_NoDup| |apply NoDup_singleton].
  intros x Hx%retain_ne_elem. set_solver.
Qed.

(** The compiled network lists are decided by the last rule on each host
    that allows or forbids it: a host is in the allow list exactly when that
    rule allows it and in the deny list exactly when it forbids it, prompt
    rules change nothing, and no list names a host twice.  In particular no
    host is both allowed and denied. *)
Theorem compiled_network_domains_last_wins {MM} {R} (p : Policy MM R) :
  let (allowed, denied) := compiled_network_domains p in
  NoDup allowed ∧ NoDup denied ∧
  ∀ h, (h ∈ allowed ↔ last_verdict h (network_rules p) = Some Allow) ∧
       (h ∈ denied ↔ last_verdict h (network_rules p) = Some Forbidden).
Proof.
  unfold compiled_network_domains.
  induction (network_rules p) as [|r rules IH] using rev_ind.
  { simpl. split_and!; [constructor|constructor|]. intros h. rewrite elem_of_nil. by split. }
  rewrite foldl_app. destruct (foldl domain_step ([], []) rules) as [allowed denied].
  destruct IH as (Ha & Hd & Hin). unfold domain_step. simpl. destruct (net_decision r) eqn:Hr.
  - split_and!; [by apply upsert_domain_NoDup|by apply retain_ne_NoDup|]. intros h.
    rewrite upsert_domain_elem, retain_ne_elem, last_verdict_snoc, Hr.
    destruct (Hin h) as [-> ->].
    case_decide as Hh; [destruct Hh as [<- _]; split; split; intuition congruence|].
    assert (host r ≠ h) by (intros <-; by apply Hh). split; split; intuition congruence.
  - split_and!; [done|done|]. intros h. rewrite last_verdict_snoc, Hr.
    rewrite decide_False by tauto. apply Hin.
  - split_and!; [by apply retain_ne_NoDup|by apply upsert_domain_NoDup|]. intros h.
    rewrite upsert_domain_elem, retain_ne_elem, last_verdict_snoc, Hr.
    destruct (Hin h) as [-> ->].
    case_decide as Hh; [destruct Hh as [<- _]; split; split; intuition congruence|].
    assert (host r ≠ h) by (intros <-; by apply Hh). split; split; intuition congruence.
Qed.

(** ** Allowed prefixes *)

(** The list of allowed prefixes is strictly increasing, so without
    repeats, and holds exactly the rendered patterns of the rules whose
    decision is to allow. *)
Theorem get_allowed_prefixes_correct {MM} `{!MultiMap MM} `{!MultiMapLaws MM}
    (p : Policy MM PrefixRule) :
  StronglySorted lt (get_allowed_prefixes p) ∧
  ∀ prefix, prefix ∈ get_allowed_prefixes p ↔
    ∃ r, r ∈ all_rules p ∧ decision r = Allow ∧ prefix = render_prefix r.
Proof.
  unfold get_allowed_prefixes. set (prefixes := concat _).
  destruct (sort_dedup_ok prefixes) as [Hs Hin]. split; [exact Hs|]. intros prefix. rewrite Hin.
  subst prefixes. setoid_rewrite elem_of_all_rules. unfold rules_of.
  rewrite list_elem_of_In, in_concat. setoid_rewrite <-list_elem_of_In.
  setoid_rewrite list_elem_of_fmap. split.
  - intros (x & ([k vs] & -> & Hk%iter_all_spec) & (r & Hr & Ha)%list_elem_of_omap).
    unfold allowed_prefix in Ha. simpl in Ha. case_decide as Hd; [done|]. injection Ha as <-.
    exists r. split_and!; [|done|done]. exists k. by rewrite Hk.
  - intros (r & (k & Hk) & Hd & ->).
    destruct (mm_get_vec (rules_by_program p) k) as [vs|] eqn:Hv; [|by apply elem_of_nil in Hk].
    exists (omap allowed_prefix vs). split; [exists (k, vs); split; [done|by apply iter_all_spec]|].
    apply list_elem_of_omap. exists r. split; [done|]. unfold allowed_prefix. simpl.
    by rewrite decide_False by (rewrite Hd; tauto).
Qed.

Lemma get_allowed_prefixes_correct_witness :
  StronglySorted lt (get_allowed_prefixes git_policy) ∧
  ∀ prefix, prefix ∈ get_allowed_prefixes git_policy ↔
    ∃ r, r ∈ all_rules git_policy ∧ decision r = Allow ∧ prefix = render_prefix r.
Proof. apply (get_allowed_prefixes_correct git_policy). Defined.

(** ** Host executables *)

(** Resolving host executables is not confined to absolute program paths:
    the relative command [./git status] is allowed by a rule for [git status],
    as the file [git] of the current directory. *)
Theorem relative_program_resolves :
  check_with_options None (Ok (lit "/tmp/checkout")) git_policy [lit "./git"; lit "status"]
    (λ _, Forbidden) {| resolve_host_executables := true |} =
  Ok {| eval_decision := Allow;
        matched_rules := [PrefixRuleMatch [lit "git"; lit "status"] Allow
                            (Some (lit "/tmp/checkout/git")) None] |}.
Proof. vm_compute. reflexivity. Qed.

(** ** Network hosts *)

Lemma split_once_elem c s a b x : split_once c s = Some (a, b) → x ∈ a → x ∈ s.
Proof.
  revert a b; induction s as [|y s IH]; intros a b H Hx; [done|]. simpl in H.
  destruct (N.eqb_spec y c); [injection H as <- <-; set_solver|].
  destruct (split_once c s) as [[a' b']|]; [|done]. injection H as <- <-.
  apply elem_of_cons in Hx as [->|Hx]; [set_solver|]. apply elem_of_cons. right. by eapply IH.
Qed.

Lemma rsplit_once_elem c s a b x : rsplit_once c s = Some (a, b) → x ∈ a → x ∈ s.
Proof.
  revert a b; induction s as [|y s IH]; intros a b H Hx; [done|]. simpl in H.
  destruct (rsplit_once c s) as [[a' b']|].
  - injection H as <- <-. apply elem_of_cons in Hx as [->|Hx]; [set_solver|].
    apply elem_of_cons. right. by eapply IH.
  - destruct (N.eqb_spec y c); [injection H as <- <-; set_solver|done].
Qed.

Lemma strip_port_elem raw h h' x : strip_port raw h = Ok h' → x ∈ h' → x ∈ h.
Proof.
  unfold strip_port. destruct (strip_prefix [c_lbracket] h) as [s|] eqn:Hs.
  - apply strip_prefix_Some in Hs as ->. destruct (split_once c_rbracket s) as [[a b]|] eqn:Hb; [|done].
    destruct (_ && _); [done|]. intros [= <-] Hx. apply elem_of_app. right. by eapply split_once_elem.
  - case_decide; [|by intros [= <-]]. destruct (rsplit_once c_colon h) as [[a b]|] eqn:Hb;
      [|by intros [= <-]].
    destruct (_ && _); [|by intros [= <-]]. intros [= <-] Hx. by eapply rsplit_once_elem.
Qed.

Lemma elem_of_trim x s : x ∈ trim s → x ∈ s.
Proof.
  unfold trim, trim_start, trim_end. intros Hx.
  destruct (trim_start_matches_suffix is_whitespace (trim_end_matches is_whitespace s)) as [w Hw].
  destruct (trim_end_matches_prefix is_whitespace s) as [w' Hw'].
  rewrite Hw'. apply elem_of_app. left. rewrite Hw. apply elem_of_app. by right.
Qed.

Lemma elem_of_trim_end_matches f x s : x ∈ trim_end_matches f s → x ∈ s.
Proof.
  intros Hx. destruct (trim_end_matches_prefix f s) as [w' Hw']. rewrite Hw'.
  apply elem_of_app. by left.
Qed.

Lemma ascii_lower_small c d : (d < 65)%N → ascii_lower c = d → c = d.
Proof.
  unfold ascii_lower. destruct ((65 <=? c)%N && (c <=? 90)%N) eqn:E1; [|done].
  apply andb_true_iff in E1 as [?%N.leb_le ?%N.leb_le]. lia.
Qed.

(** The characters of a normalised host come from the trimmed input. *)
Lemma normalized_elem raw h x d :
  strip_port raw (trim raw) = Ok h → (d < 65)%N → d ∉ trim raw →
  d ∉ to_ascii_lowercase (trim (trim_end_matches x h)).
Proof.
  intros Hh Hd Hno. unfold to_ascii_lowercase. intros (c & Hc & Hin)%list_elem_of_fmap.
  symmetry in Hc. apply (ascii_lower_small _ _ Hd) in Hc as ->. apply Hno.
  eapply strip_port_elem; [done|]. by eapply elem_of_trim_end_matches, elem_of_trim.
Qed.

(** A network host that normalisation accepts is not empty, is in ASCII
    lower case, and holds no whitespace, no wildcard, and none of the
    characters that start a path, a query or a fragment. *)
Theorem normalize_host_wf raw h :
  normalize_network_rule_host raw = Ok h →
  h ≠ [] ∧ to_ascii_lowercase h = h ∧ Forall (λ c, is_whitespace c = false) h ∧
  (c_star ∉ h) ∧ (c_slash ∉ h) ∧ (c_question ∉ h) ∧ (c_hash ∉ h).
Proof.
  unfold normalize_network_rule_host. case_decide as Hne; [done|].
  destruct (_ || _) eqn:Hbad; [done|].
  rewrite !orb_false_iff in Hbad. destruct Hbad as [[[_ Hslash] Hq] Hh].
  assert (Hno : ∀ c s, contains_char c s = false → c ∉ s).
  { intros c s H Hin. apply contains_char_spec in Hin. congruence. }
  destruct (strip_port raw (trim raw)) as [h'| |] eqn:Hp; [|done..]. cbn [mbind Res_bind].
  case_decide as Hne'; [done|]. destruct (contains_char c_star _) eqn:Hstar; [done|].
  destruct (existsb is_whitespace _) eqn:Hws; [done|]. intros [= <-]. split_and!; [done| | | | | |].
  - unfold to_ascii_lowercase. rewrite map_map. apply map_ext. apply ascii_lower_idemp.
  - apply Forall_forall. intros c Hc. apply not_true_iff_false. intros Hw.
    apply not_true_iff_false in Hws. apply Hws, existsb_exists. exists c. by rewrite <-list_elem_of_In.
  - by apply Hno.
  - eapply normalized_elem; [done|done|by apply Hno].
  - eapply normalized_elem; [done|done|by apply Hno].
  - eapply normalized_elem; [done|done|by apply Hno].
Qed.

Lemma normalize_host_wf_witness :
  lit "example.com" ≠ [] ∧ to_ascii_lowercase (lit "example.com") = lit "example.com" ∧
  Forall (λ c, is_whitespace c = false) (lit "example.com") ∧
  (c_star ∉ lit "example.com") ∧ (c_slash ∉ lit "example.com") ∧
  (c_question ∉ lit "example.com") ∧ (c_hash ∉ lit "example.com").
Proof. apply (normalize_host_wf (lit " Example.COM.:443")). vm_compute. reflexivity. Defined.
