(* ===== verification/PolicyParser.v ===== *)
(** * Reading policies: [execpolicy/src/{parser,execpolicycheck}.rs]

    A policy file is a Starlark program whose calls of the builtins
    [prefix_rule], [network_rule] and [host_executable] fill a
    [PolicyBuilder].  The Starlark evaluator, [shlex], [serde_json] and the
    [Debug] rendering of rules are parameters: of a Starlark run, the model
    sees the builtin calls it makes, in order, and how it ends. *)
From S2P Require Import Prelude RustStr AbsolutePath FileSystem Ordering ExecPolicy ExecPolicyProofs.

(** What the builtins see of a Starlark value. *)
Inductive Value : Type :=
| VString (s : str)
| VList (content : list Value)
| VOther (type_name : str).

Definition unpack_str (v : Value) : option str :=
  match v with VString s => Some s | _ => None end.
Definition get_type (v : Value) : str :=
  match v with
  | VString _ => lit "string"
  | VList _ => lit "list"
  | VOther type_name => type_name
  end.

(** A call of a builtin, with the location of the call. *)
Inductive builtin_call : Type :=
| CallPrefixRule (pattern : list Value) (decision : option str)
    (match_ not_match : option (list Value)) (justification : option str)
    (location : option ErrorLocation)
| CallNetworkRule (host protocol decision : str) (justification : option str)
| CallHostExecutable (name : str) (paths : list Value).

Record PendingExampleValidation : Type := {
  pv_rules : list PrefixRule;
  pv_matches : list (list str);
  pv_not_matches : list (list str);
  pv_location : option ErrorLocation
}.

(** ** Values *)

(** All values as strings, or the error for the first that is none. *)
Definition unpack_strings (error : str → Error) (vs : list Value) : Res Error (list str) :=
  collect_res (map (λ v, ok_or (error (get_type v)) (unpack_str v)) vs).

Definition parse_pattern_token (v : Value) : Res Error PatternToken :=
  match v with
  | VString s => Ok (Single s)
  | VList content =>
      tokens ← unpack_strings (λ t, InvalidPattern
        (lit "pattern alternative must be a string (got " ++ t ++ lit ")")) content;
      match tokens with
      | [] => Err (InvalidPattern (lit "pattern alternatives cannot be empty"))
      | [single] => Ok (Single single)
      | _ => Ok (Alts tokens)
      end
  | VOther t => Err (InvalidPattern
      (lit "pattern element must be a string or list of strings (got " ++ t ++ lit ")"))
  end.

Definition parse_pattern (pattern : list Value) : Res Error (list PatternToken) :=
  tokens ← collect_res (map parse_pattern_token pattern);
  match tokens with
  | [] => Err (InvalidPattern (lit "pattern cannot be empty"))
  | _ => Ok tokens
  end.

Definition parse_list_example (list_ : list Value) : Res Error (list str) :=
  tokens ← unpack_strings (λ t, InvalidExample
    (lit "example tokens must be strings (got " ++ t ++ lit ")")) list_;
  match tokens with
  | [] => Err (InvalidExample (lit "example cannot be an empty list"))
  | _ => Ok tokens
  end.

Definition validate_host_executable_name (name : str) : Res Error unit :=
  if decide (name = []) then Err (InvalidRule (lit "host_executable name cannot be empty"))
  else if negb (bool_decide (length (components name) = 1))
          || negb (bool_decide (file_name name = Some name)) then
    Err (InvalidRule (lit "host_executable name must be a bare executable name (got "
                      ++ name ++ lit ")"))
  else Ok ().

Definition parse_network_rule_decision (raw : str) : Res Error Decision :=
  if decide (raw = lit "deny") then Ok Forbidden else Decision_parse raw.

Definition attach_validation_location (e : Error) (location : option ErrorLocation) : Error :=
  match location with
  | Some location => with_location e location
  | None => e
  end.

(** [Some(raw) if raw.trim().is_empty() => Err(..)] *)
Definition parse_justification (justification : option str) : Res Error (option str) :=
  match justification with
  | Some raw =>
      if decide (trim raw = []) then Err (InvalidRule (lit "justification cannot be empty"))
      else Ok (Some raw)
  | None => Ok None
  end.

Definition quoted (s : str) : str := lit "`" ++ s ++ lit "`".

Section parser.
Context {MM : Type → Type} `{!MultiMap MM}.
Context (home_dir : option str) (current_dir : Res io_error str).
(** [shlex::split] and [shlex::try_join] *)
Context (shlex_split : str → option (list str)) (shlex_try_join : list str → option str).
(** [{:?}] of a rule and of a match *)
Context (debug_rule : PrefixRule → str) (debug_match : RuleMatch → str).
(** A run of the Starlark evaluator: an error of parsing, or the builtin
    calls and the error, if any, that ends the run after them. *)
Context (starlark : str → str → Res Error (list builtin_call * option Error)).
(** The error of a builtin as the evaluator reports it. *)
Context (starlark_error : Error → Error).

Record PolicyBuilder : Type := {
  b_rules_by_program : MM PrefixRule;
  b_network_rules : list NetworkRule;
  b_host_executables_by_name : gmap str (list str);
  pending_example_validations : list PendingExampleValidation
}.

Definition PolicyBuilder_new : PolicyBuilder :=
  {| b_rules_by_program := mm_new; b_network_rules := [];
     b_host_executables_by_name := ∅; pending_example_validations := [] |}.

Definition add_rule (rule : PrefixRule) (b : PolicyBuilder) : PolicyBuilder :=
  {| b_rules_by_program := mm_insert (b_rules_by_program b) (program rule) rule;
     b_network_rules := b_network_rules b;
     b_host_executables_by_name := b_host_executables_by_name b;
     pending_example_validations := pending_example_validations b |}.

Definition builder_add_network_rule (rule : NetworkRule) (b : PolicyBuilder) : PolicyBuilder :=
  {| b_rules_by_program := b_rules_by_program b;
     b_network_rules := b_network_rules b ++ [rule];
     b_host_executables_by_name := b_host_executables_by_name b;
     pending_example_validations := pending_example_validations b |}.

Definition add_host_executable (name : str) (paths : list str) (b : PolicyBuilder)
    : PolicyBuilder :=
  {| b_rules_by_program := b_rules_by_program b;
     b_network_rules := b_network_rules b;
     b_host_executables_by_name := <[name := paths]> (b_host_executables_by_name b);
     pending_example_validations := pending_example_validations b |}.

Definition add_pending_example_validation (v : PendingExampleValidation) (b : PolicyBuilder)
    : PolicyBuilder :=
  {| b_rules_by_program := b_rules_by_program b;
     b_network_rules := b_network_rules b;
     b_host_executables_by_name := b_host_executables_by_name b;
     pending_example_validations := pending_example_validations b ++ [v] |}.

Definition build (b : PolicyBuilder) : Policy MM PrefixRule :=
  {| rules_by_program := b_rules_by_program b;
     network_rules := b_network_rules b;
     host_executables_by_name := b_host_executables_by_name b |}.

(** *** Examples *)

Definition parse_string_example (raw : str) : Res Error (list str) :=
  tokens ← ok_or (InvalidExample (lit "example string has invalid shell syntax"))
             (shlex_split raw);
  match tokens with
  | [] => Err (InvalidExample (lit "example cannot be an empty string"))
  | _ => Ok tokens
  end.

Definition parse_example (v : Value) : Res Error (list str) :=
  match v with
  | VString raw => parse_string_example raw
  | VList list_ => parse_list_example list_
  | VOther t => Err (InvalidExample
      (lit "example must be a string or list of strings (got " ++ t ++ lit ")"))
  end.

Definition parse_examples (examples : list Value) : Res Error (list (list str)) :=
  collect_res (map parse_example examples).

Definition render_example (example : list str) : str :=
  default (lit "unable to render example") (shlex_try_join example).

Definition example_matches (policy : Policy MM PrefixRule) (example : list str)
    : Res Error (list RuleMatch) :=
  infallible (matches_for_command_with_options home_dir current_dir policy example None
                {| resolve_host_executables := true |}).

(** The examples that no rule matches. *)
Fixpoint unmatched (policy : Policy MM PrefixRule) (examples : list (list str))
    : Res Error (list str) :=
  match examples with
  | [] => Ok []
  | example :: examples' =>
      ms ← example_matches policy example;
      r ← unmatched policy examples';
      Ok (match ms with [] => render_example example :: r | _ => r end)
  end.

Definition validate_match_examples (policy : Policy MM PrefixRule) (rules : list PrefixRule)
    (matches : list (list str)) : Res Error unit :=
  unmatched_examples ← unmatched policy matches;
  match unmatched_examples with
  | [] => Ok ()
  | _ => Err (ExampleDidNotMatch (map debug_rule rules) unmatched_examples None)
  end.

Fixpoint validate_not_match_examples (policy : Policy MM PrefixRule)
    (not_matches : list (list str)) : Res Error unit :=
  match not_matches with
  | [] => Ok ()
  | example :: not_matches' =>
      ms ← example_matches policy example;
      match ms with
      | rule :: _ => Err (ExampleDidMatch (debug_match rule) (render_example example) None)
      | [] => validate_not_match_examples policy not_matches'
      end
  end.

(** The policy an example is checked against: only the rules of its own
    call, with all host executables. *)
Definition validation_policy (b : PolicyBuilder) (v : PendingExampleValidation)
    : Policy MM PrefixRule :=
  {| rules_by_program :=
       foldl (λ m rule, mm_insert m (program rule) rule) mm_new (pv_rules v);
     network_rules := [];
     host_executables_by_name := b_host_executables_by_name b |}.

Definition validate_one (b : PolicyBuilder) (v : PendingExampleValidation) : Res Error unit :=
  let policy := validation_policy b v in
  let located e := attach_validation_location e (pv_location v) in
  _ ← map_err located (validate_not_match_examples policy (pv_not_matches v));
  map_err located (validate_match_examples policy (pv_rules v) (pv_matches v)).

Fixpoint validate_all (b : PolicyBuilder) (vs : list PendingExampleValidation) : Res Error unit :=
  match vs with
  | [] => Ok ()
  | v :: vs' => _ ← validate_one b v; validate_all b vs'
  end.

Definition validate_pending_examples_from (b : PolicyBuilder) (start : nat) : Res Error unit :=
  vs ← slice_from start (pending_example_validations b);
  validate_all b vs.

(** *** Builtins *)

Definition rules_of_pattern (first_token : PatternToken) (rest_tokens : list PatternToken)
    (d : Decision) (j : option str) : list PrefixRule :=
  map (λ head, {| pattern := {| first := head; rest := rest_tokens |};
                  decision := d; justification := j |})
    (token_alternatives first_token).

Definition prefix_rule (pattern : list Value) (decision : option str)
    (match_ not_match : option (list Value)) (justification : option str)
    (location : option ErrorLocation) (b : PolicyBuilder) : Res Error PolicyBuilder :=
  decision ← match decision with Some raw => Decision_parse raw | None => Ok Allow end;
  justification ← parse_justification justification;
  pattern_tokens ← parse_pattern pattern;
  matches ← match match_ with Some l => parse_examples l | None => Ok [] end;
  not_matches ← match not_match with Some l => parse_examples l | None => Ok [] end;
  match pattern_tokens with
  | [] => Err (InvalidPattern (lit "pattern cannot be empty"))
  | first_token :: remaining_tokens =>
      let rules := rules_of_pattern first_token remaining_tokens decision justification in
      let b := add_pending_example_validation
                 {| pv_rules := rules; pv_matches := matches; pv_not_matches := not_matches;
                    pv_location := location |} b in
      Ok (foldl (λ b rule, add_rule rule b) b rules)
  end.

Definition network_rule (host protocol decision : str) (justification : option str)
    (b : PolicyBuilder) : Res Error PolicyBuilder :=
  protocol ← NetworkRuleProtocol_parse protocol;
  decision ← parse_network_rule_decision decision;
  justification ← parse_justification justification;
  host ← normalize_network_rule_host host;
  Ok (builder_add_network_rule
        {| host := host; protocol := protocol; net_decision := decision;
           net_justification := justification |} b).

Definition parse_literal_absolute_path (raw : str) : Res Error str :=
  if negb (is_absolute raw) then
    Err (InvalidRule (lit "host_executable paths must be absolute (got " ++ raw ++ lit ")"))
  else
    map_err (λ e, InvalidRule (lit "invalid absolute path " ++ quoted raw ++ lit ": "
                               ++ err_message e))
      (from_absolute_path home_dir current_dir raw).

Fixpoint parse_host_paths (name : str) (paths : list Value) (parsed_paths : list str)
    : Res Error (list str) :=
  match paths with
  | [] => Ok parsed_paths
  | value :: paths' =>
      raw ← ok_or (InvalidRule (lit "host_executable paths must be strings (got "
                                ++ get_type value ++ lit ")")) (unpack_str value);
      path ← parse_literal_absolute_path raw;
      let wrong := InvalidRule (lit "host_executable path " ++ quoted raw
                                ++ lit " must have basename " ++ quoted name) in
      match executable_path_lookup_key path with
      | None => Err wrong
      | Some path_name =>
          if decide (path_name ≠ executable_lookup_key name) then Err wrong
          else
            parse_host_paths name paths'
              (if decide (path ∈ parsed_paths) then parsed_paths else parsed_paths ++ [path])
      end
  end.

Definition host_executable (name : str) (paths : list Value) (b : PolicyBuilder)
    : Res Error PolicyBuilder :=
  _ ← validate_host_executable_name name;
  parsed_paths ← parse_host_paths name paths [];
  Ok (add_host_executable (executable_lookup_key name) parsed_paths b).

Definition call_builtin (c : builtin_call) (b : PolicyBuilder) : Res Error PolicyBuilder :=
  match c with
  | CallPrefixRule p d m n j l => prefix_rule p d m n j l b
  | CallNetworkRule h p d j => network_rule h p d j b
  | CallHostExecutable n ps => host_executable n ps b
  end.

(** *** [PolicyParser] *)

(** The calls of a run; a failing builtin ends it, and what earlier calls
    did to the builder stays. *)
Fixpoint run_calls (calls : list builtin_call) : Eff PolicyBuilder Error unit :=
  match calls with
  | [] => mret ()
  | c :: calls' => λ b,
      match call_builtin c b with
      | Ok b' => run_calls calls' b'
      | Err e => (b, Err (starlark_error e))
      | Panic p => (b, Panic p)
      end
  end.

Definition parse (policy_identifier policy_file_contents : str) : Eff PolicyBuilder Error unit :=
  λ b,
  let pending_validation_count := length (pending_example_validations b) in
  (run ← lift (starlark policy_identifier policy_file_contents);
   _ ← run_calls run.1;
   _ ← lift (match run.2 with Some e => Err e | None => Ok () end);
   reads (λ b, validate_pending_examples_from b pending_validation_count)) b.

(** ** [execpolicycheck.rs] *)

(** [fs::read_to_string] of a policy file. *)
Context (read_policy : str → Res io_error str).

Inductive load_error : Type :=
| FailedToRead (path : str) (source : io_error)
| FailedToParse (path : str) (source : Error).

Fixpoint load_loop (policy_paths : list str) : Eff PolicyBuilder load_error unit :=
  match policy_paths with
  | [] => mret ()
  | policy_path :: policy_paths' =>
      policy_file_contents ← lift (map_err (FailedToRead policy_path) (read_policy policy_path));
      _ ← eff_map_err (FailedToParse policy_path) (parse policy_path policy_file_contents);
      load_loop policy_paths'
  end.

Definition load_policies (policy_paths : list str) : Res load_error (Policy MM PrefixRule) :=
  let (b, r) := load_loop policy_paths PolicyBuilder_new in
  _ ← r; Ok (build b).

(** The output of [codex execpolicy check], before it is rendered as JSON. *)
Definition check_output (policy : Policy MM PrefixRule) (command : list str)
    (resolve : bool) : Total (list RuleMatch * option Decision) :=
  matched_rules ← matches_for_command_with_options home_dir current_dir policy command None
                    {| resolve_host_executables := resolve |};
  Ok (matched_rules, max_decision matched_rules).
End parser.

(** ** Proofs *)

Section parser_proofs.
#[local] Set Default Proof Using "Type*".
Context {MM : Type → Type} `{!MultiMap MM} `{!MultiMapLaws MM}.
Context (home_dir : option str) (current_dir : Res io_error str).
Context (shlex_split : str → option (list str)) (shlex_try_join : list str → option str).
Context (debug_rule : PrefixRule → str) (debug_match : RuleMatch → str).
Context (starlark : str → str → Res Error (list builtin_call * option Error)).
Context (starlark_error : Error → Error).
Implicit Types (b : PolicyBuilder (MM:=MM)).

Local Abbreviation matches_of policy example :=
  (matches_for_command_with_options home_dir current_dir policy example None
     {| resolve_host_executables := true |}).

(** The examples of a validation hold in its policy. *)
Definition examples_hold (policy : Policy MM PrefixRule) (v : PendingExampleValidation) : Prop :=
  (∀ example, example ∈ pv_matches v → ∃ m ms, matches_of policy example = Ok (m :: ms)) ∧
  (∀ example, example ∈ pv_not_matches v → matches_of policy example = Ok []).

Lemma example_matches_Ok policy example ms :
  example_matches home_dir current_dir policy example = Ok ms → matches_of policy example = Ok ms.
Proof.
  unfold example_matches, infallible. destruct (matches_of policy example); simpl; congruence.
Qed.

Lemma unmatched_nil policy examples :
  unmatched home_dir current_dir shlex_try_join policy examples = Ok [] →
  ∀ example, example ∈ examples → ∃ m ms, matches_of policy example = Ok (m :: ms).
Proof.
  induction examples as [|e examples IH]; simpl; [set_solver|]. intros H.
  destruct (example_matches home_dir current_dir policy e) as [ms| |] eqn:He; [|done..].
  cbn [mbind Res_bind] in H. destruct (unmatched _ _ _ _ _) as [r| |]; [|done..].
  cbn [mbind Res_bind] in H. destruct ms as [|m ms]; [done|]. injection H as ->.
  apply example_matches_Ok in He. intros ex [->|Hex]%elem_of_cons; [eauto|]. by apply IH.
Qed.

Lemma not_matches_ok policy examples :
  validate_not_match_examples home_dir current_dir shlex_try_join debug_match policy examples = Ok () →
  ∀ example, example ∈ examples → matches_of policy example = Ok [].
Proof.
  induction examples as [|e examples IH]; simpl; [set_solver|]. intros H.
  destruct (example_matches home_dir current_dir policy e) as [ms| |] eqn:He; [|done..].
  cbn [mbind Res_bind] in H. destruct ms as [|m ms]; [|done].
  apply example_matches_Ok in He. intros ex [->|Hex]%elem_of_cons; [done|]. by apply IH.
Qed.

Lemma validate_one_ok b v :
  validate_one home_dir current_dir shlex_try_join debug_rule debug_match b v = Ok () →
  examples_hold (validation_policy b v) v.
Proof.
  unfold validate_one. intros H.
  destruct (validate_not_match_examples _ _ _ _ _ _) as [[]| |] eqn:Hn; [|done..].
  cbn [mbind Res_bind map_err] in H. unfold validate_match_examples in H.
  destruct (unmatched _ _ _ _ _) as [r| |] eqn:Hu; [|done..].
  cbn [mbind Res_bind] in H. destruct r; [|done].
  split; [by apply unmatched_nil|by apply not_matches_ok].
Qed.

Lemma validate_all_ok b vs :
  validate_all home_dir current_dir shlex_try_join debug_rule debug_match b vs = Ok () →
  ∀ v, v ∈ vs → examples_hold (validation_policy b v) v.
Proof.
  induction vs as [|v vs IH]; simpl; [set_solver|]. intros H.
  destruct (validate_one _ _ _ _ _ _ _) as [[]| |] eqn:Hv; [|done..].
  intros v' [->|Hv']%elem_of_cons; [by apply validate_one_ok|by apply IH].
Qed.

(** *** The invariant of the builder *)

Definition host_entry_ok (name : str) (paths : list str) : Prop :=
  NoDup paths ∧ Forall (λ p, normalized_abs p ∧ file_name p = Some name) paths.

Record policy_inv (p : Policy MM PrefixRule) : Prop := {
  inv_keyed : well_keyed p;
  inv_network : Forall (λ r, ∃ raw, normalize_network_rule_host raw = Ok (host r)) (network_rules p);
  inv_hosts : map_Forall host_entry_ok (host_executables_by_name p)
}.

Lemma add_rules_keyed rules b k :
  rules_of (build (foldl (λ b rule, add_rule rule b) b rules)) k =
  rules_of (build b) k ++ List.filter (λ r, bool_decide (program r = k)) rules.
Proof.
  revert b; induction rules as [|r rules IH]; intros b; simpl; [by rewrite app_nil_r|].
  rewrite IH. unfold rules_of, build, add_rule. simpl. rewrite get_vec_insert.
  case_bool_decide as Hk; simpl in *; case_decide as Hk'; try congruence.
  subst k. simpl. by rewrite <-app_assoc.
Qed.

Lemma add_rules_keep rules b :
  b_network_rules (foldl (λ b rule, add_rule rule b) b rules) = b_network_rules b ∧
  b_host_executables_by_name (foldl (λ b rule, add_rule rule b) b rules) =
    b_host_executables_by_name b.
Proof.
  revert b; induction rules as [|r rules IH]; intros b; simpl; [done|].
  destruct (IH (add_rule r b)) as [-> ->]. done.
Qed.

Lemma prefix_rule_inv pat d m n j l b b' :
  prefix_rule shlex_split pat d m n j l b = Ok b' → policy_inv (build b) → policy_inv (build b').
Proof.
  unfold prefix_rule. intros H [Hk Hn Hh].
  destruct (match d with Some _ => _ | None => _ end) as [d'| |]; [|done..].
  destruct (parse_justification j) as [j'| |]; [|done..].
  destruct (parse_pattern pat) as [ts| |]; [|done..]. cbn [mbind Res_bind] in H.
  destruct (match m with Some _ => _ | None => _ end) as [m'| |]; [|done..].
  cbn [mbind Res_bind] in H.
  destruct (match n with Some _ => _ | None => _ end) as [n'| |]; [|done..].
  cbn [mbind Res_bind] in H. destruct ts as [|t ts]; [done|]. injection H as <-.
  set (v := add_pending_example_validation _ b).
  destruct (add_rules_keep (rules_of_pattern t ts d' j') v) as [Hnet Hhost]. split.
  - intros k r. rewrite add_rules_keyed, elem_of_app. intros [Hr|Hr]; [by apply Hk|].
    apply list_elem_of_In, filter_In in Hr as [_ Hr]. by apply bool_decide_eq_true in Hr.
  - unfold build. cbn [network_rules]. by rewrite Hnet.
  - unfold build. cbn [host_executables_by_name]. by rewrite Hhost.
Qed.

Lemma network_rule_inv h p d j b b' :
  network_rule h p d j b = Ok b' → policy_inv (build b) → policy_inv (build b').
Proof.
  unfold network_rule. intros H [Hk Hn Hh].
  destruct (NetworkRuleProtocol_parse p) as [p'| |]; [|done..].
  destruct (parse_network_rule_decision d) as [d'| |]; [|done..].
  destruct (parse_justification j) as [j'| |]; [|done..].
  cbn [mbind Res_bind] in H. destruct (normalize_network_rule_host h) as [h'| |] eqn:Hh'; [|done..].
  injection H as <-. split; [done| |done]. simpl. apply Forall_app. split; [done|].
  apply Forall_singleton. eauto.
Qed.

Lemma literal_absolute_path raw path :
  parse_literal_absolute_path home_dir current_dir raw = Ok path → normalized_abs path.
Proof.
  unfold parse_literal_absolute_path. destruct (is_absolute raw) eqn:Habs; [|done]. simpl.
  unfold from_absolute_path. rewrite expand_home_relative.
  - unfold absolutize. rewrite Habs. simpl. intros [= <-].
    destruct (normalize_path_abs raw Habs) as [-> H]. by eexists.
  - apply starts_with_spec in Habs as [r ->]. intros [r' Hr']. discriminate Hr'.
Qed.

Lemma host_paths_ok name paths acc out :
  parse_host_paths home_dir current_dir name paths acc = Ok out →
  host_entry_ok name acc → host_entry_ok name out.
Proof.
  revert acc; induction paths as [|v paths IH]; intros acc H Hacc; simpl in H; [by injection H as <-|].
  destruct (unpack_str v) as [raw|]; [|done]. cbn [ok_or mbind Res_bind] in H.
  destruct (parse_literal_absolute_path home_dir current_dir raw) as [path| |] eqn:Hp; [|done..].
  cbn [mbind Res_bind] in H. unfold executable_path_lookup_key, executable_lookup_key in H.
  destruct (file_name path) as [pn|] eqn:Hf; [|done]. cbn [fmap option_fmap option_map] in H.
  case_decide as Hpn; [done|]. eapply IH; [exact H|]. case_decide as Hin; [done|].
  destruct Hacc as [Hnd Hall]. apply literal_absolute_path in Hp. split.
  - apply NoDup_app. split_and!; [done| |apply NoDup_singleton].
    by intros x Hx ->%list_elem_of_singleton.
  - apply Forall_app. split; [done|]. apply Forall_singleton. split; [done|].
    destruct (decide (pn = name)); congruence.
Qed.

Lemma host_executable_inv name paths b b' :
  host_executable home_dir current_dir name paths b = Ok b' →
  policy_inv (build b) → policy_inv (build b').
Proof.
  unfold host_executable. intros H [Hk Hn Hh].
  destruct (validate_host_executable_name name); [|done..]. cbn [mbind Res_bind] in H.
  destruct (parse_host_paths home_dir current_dir name paths []) as [ps| |] eqn:Hp; [|done..].
  injection H as <-. split; [done|done|]. simpl. apply map_Forall_insert_2; [|done].
  eapply host_paths_ok; [exact Hp|]. split; constructor.
Qed.

Lemma call_builtin_inv c b b' :
  call_builtin home_dir current_dir shlex_split c b = Ok b' →
  policy_inv (build b) → policy_inv (build b').
Proof.
  destruct c; simpl; [apply prefix_rule_inv|apply network_rule_inv|apply host_executable_inv].
Qed.

Lemma run_calls_inv calls b :
  policy_inv (build b) →
  policy_inv (build (run_calls home_dir current_dir shlex_split starlark_error calls b).1).
Proof.
  revert b; induction calls as [|c calls IH]; intros b Hb; simpl; [done|].
  destruct (call_builtin home_dir current_dir shlex_split c b) as [b'| |] eqn:Hc; [|done..].
  apply IH. by eapply call_builtin_inv.
Qed.
End parser_proofs.

Lemma policy_inv_new {MM} `{!MultiMap MM} `{!MultiMapLaws MM} :
  policy_inv (build (PolicyBuilder_new (MM:=MM))).
Proof.
  split; simpl.
  - intros k r. unfold rules_of. simpl. rewrite get_vec_new. simpl. set_solver.
  - constructor.
  - apply map_Forall_empty.
Qed.

Lemma parse_inv {MM} `{!MultiMap MM} `{!MultiMapLaws MM} home_dir current_dir shlex_split
    shlex_try_join debug_rule debug_match starlark starlark_error id contents
    (b : PolicyBuilder (MM:=MM)) :
  policy_inv (build b) →
  policy_inv (build (parse home_dir current_dir shlex_split shlex_try_join debug_rule debug_match
    starlark starlark_error id contents b).1).
Proof.
  intros Hb. unfold parse, lift, reads, mbind, Eff_bind.
  destruct (starlark id contents) as [[calls e]| |]; [|done..]. simpl.
  assert (Hrun := run_calls_inv home_dir current_dir shlex_split starlark_error calls b Hb).
  destruct (run_calls _ _ _ _ calls b) as [b' [[]| |]]; [|done..]. by destruct e.
Qed.

(** Policies that are loaded from files satisfy the invariant of the
    matcher, whatever the files do: every rule is stored under its own first
    word, every network host is a normalised one, and every list of host
    executables holds different, absolute, normalised paths with the name it
    is listed under.  A parse that fails keeps the invariant too. *)
Theorem load_policies_inv {MM} `{!MultiMap MM} `{!MultiMapLaws MM} home_dir current_dir shlex_split
    shlex_try_join debug_rule debug_match starlark starlark_error read_policy paths
    (p : Policy MM PrefixRule) :
  load_policies home_dir current_dir shlex_split shlex_try_join debug_rule debug_match
    starlark starlark_error read_policy paths = Ok p →
  policy_inv p.
Proof.
  unfold load_policies. intros H.
  assert (Hinv : ∀ b : PolicyBuilder (MM:=MM), policy_inv (build b) → policy_inv (build
    (load_loop home_dir current_dir shlex_split shlex_try_join debug_rule debug_match
       starlark starlark_error read_policy paths b).1)).
  { clear H. induction paths as [|path paths IH]; intros b Hb; simpl; [done|].
    unfold mbind, Eff_bind, lift, eff_map_err. destruct (read_policy path) as [text| |]; [|done..]. simpl.
    assert (Hp := parse_inv home_dir current_dir shlex_split shlex_try_join debug_rule debug_match
      starlark starlark_error path text b Hb).
    destruct (parse _ _ _ _ _ _ _ _ path text b) as [b' [[]| |]]; simpl; [by apply IH|done..]. }
  specialize (Hinv _ policy_inv_new).
  destruct (load_loop _ _ _ _ _ _ _ _ _ paths _) as [b [[]| |]]; [|done..]. by injection H as <-.
Qed.

(** A fixed run of the evaluator, for the examples. *)
Definition demo_calls : list builtin_call :=
  [CallPrefixRule [VList [VString (lit "git"); VString (lit "hg")]; VString (lit "status")]
     (Some (lit "allow")) (Some [VList [VString (lit "hg"); VString (lit "status")]])
     (Some [VList [VString (lit "git"); VString (lit "push")]]) None None;
   CallNetworkRule (lit "Example.com:443") (lit "https") (lit "deny") None;
   CallHostExecutable (lit "git") [VString (lit "/usr/bin/git"); VString (lit "/usr//bin/git")]].
Definition demo_starlark (id contents : str) : Res Error (list builtin_call * option Error) :=
  Ok (demo_calls, None).
Definition demo_split (s : str) : option (list str) := Some (split_on c_space s).
Definition demo_join (ws : list str) : option str := Some (join [c_space] ws).
Definition demo_policy : Policy gmap_mm PrefixRule :=
  match load_policies None (Ok (lit "/w")) demo_split demo_join (λ _, []) (λ _, [])
    demo_starlark id (λ _, Ok []) [lit "p.rules"] with
  | Ok p => p
  | _ => Policy_empty
  end.

Lemma load_policies_inv_witness : policy_inv demo_policy.
Proof.
  apply (load_policies_inv None (Ok (lit "/w")) demo_split demo_join (λ _, []) (λ _, [])
    demo_starlark id (λ _, Ok []) [lit "p.rules"]).
  vm_compute. reflexivity.
Defined.

(** When parsing a policy file succeeds, every [match] example of its
    [prefix_rule] calls is matched and every [not_match] example is not, by
    the rules of the call the example belongs to and with the host
    executables known at the end of the file. *)
Theorem parse_ok_examples_hold {MM} `{!MultiMap MM} `{!MultiMapLaws MM} home_dir current_dir
    shlex_split shlex_try_join debug_rule debug_match starlark starlark_error id contents
    (b b' : PolicyBuilder (MM:=MM)) v :
  parse home_dir current_dir shlex_split shlex_try_join debug_rule debug_match
    starlark starlark_error id contents b = (b', Ok ()) →
  v ∈ drop (length (pending_example_validations b)) (pending_example_validations b') →
  examples_hold home_dir current_dir (validation_policy b' v) v.
Proof.
  unfold parse. intros (b1 & [calls e] & _ & (b2 & [] & _ & (b3 & [] & He & Hv)%Eff_bind_Ok)
    %Eff_bind_Ok)%Eff_bind_Ok Hin.
  unfold reads in Hv. injection Hv as -> Hv. unfold validate_pending_examples_from, slice_from in Hv.
  case_decide; [|done]. cbn [mbind Res_bind] in Hv. by eapply validate_all_ok.
Qed.

Definition demo_builder : PolicyBuilder (MM:=gmap_mm) :=
  (parse None (Ok (lit "/w")) demo_split demo_join (λ _, []) (λ _, [])
     demo_starlark id (lit "p.rules") [] PolicyBuilder_new).1.
Definition demo_validation : PendingExampleValidation :=
  {| pv_rules := rules_of_pattern (Alts [lit "git"; lit "hg"]) [Single (lit "status")] Allow None;
     pv_matches := [[lit "hg"; lit "status"]];
     pv_not_matches := [[lit "git"; lit "push"]];
     pv_location := None |}.

Lemma parse_ok_examples_hold_witness :
  examples_hold None (Ok (lit "/w")) (validation_policy demo_builder demo_validation) demo_validation.
Proof.
  apply (parse_ok_examples_hold None (Ok (lit "/w")) demo_split demo_join (λ _, []) (λ _, [])
    demo_starlark id (lit "p.rules") [] PolicyBuilder_new demo_builder).
  - vm_compute. reflexivity.
  - apply list_elem_of_singleton. reflexivity.
Defined.

(** A successful [prefix_rule] call adds to the rules of the builder,
    under every alternative of the first pattern element, rules that together
    match exactly the commands whose first words are each among the
    alternatives of the corresponding pattern element. *)
Theorem prefix_rule_matches_pattern {MM} `{!MultiMap MM} `{!MultiMapLaws MM} shlex_split pat d m n j l
    (b b' : PolicyBuilder (MM:=MM)) :
  prefix_rule shlex_split pat d m n j l b = Ok b' →
  ∃ tokens rules, parse_pattern pat = Ok tokens ∧
    (∀ k, rules_of (build b') k =
       rules_of (build b) k ++ List.filter (λ r, bool_decide (program r = k)) rules) ∧
    ∀ cmd, (∃ r prefix, r ∈ rules ∧ prefix_match (pattern r) cmd prefix) ↔
      ∃ args tail, cmd = args ++ tail ∧ Forall2 accepts tokens args.
Proof.
  unfold prefix_rule. intros H.
  destruct (match d with Some _ => _ | None => _ end) as [d'| |]; [|done..].
  destruct (parse_justification j) as [j'| |]; [|done..].
  destruct (parse_pattern pat) as [ts| |]; [|done..]. cbn [mbind Res_bind] in H.
  destruct (match m with Some _ => _ | None => _ end) as [m'| |]; [|done..].
  cbn [mbind Res_bind] in H.
  destruct (match n with Some _ => _ | None => _ end) as [n'| |]; [|done..].
  cbn [mbind Res_bind] in H. destruct ts as [|t ts]; [done|]. injection H as <-.
  exists (t :: ts), (rules_of_pattern t ts d' j'). split_and!; [done| |].
  - intros k. by rewrite add_rules_keyed.
  - intros cmd. unfold rules_of_pattern, prefix_match. split.
    + intros (r & prefix & (w & -> & Hw)%list_elem_of_fmap & args & tail & -> & _ & Hf).
      exists (w :: args), tail. split; [done|]. by constructor.
    + intros (args & tail & -> & Hf). inversion Hf as [|? w ? args' Hw Hf']; subst.
      eexists _, _. split; [apply list_elem_of_fmap; by eexists|].
      exists args', tail. by split_and!.
Qed.

Lemma prefix_rule_matches_pattern_witness :
  ∃ tokens rules, parse_pattern [VString (lit "ls")] = Ok tokens ∧
    (∀ k, rules_of (build (match prefix_rule demo_split [VString (lit "ls")] None None None None None
         (PolicyBuilder_new (MM:=gmap_mm)) with Ok b => b | _ => PolicyBuilder_new end)) k =
       rules_of (build (PolicyBuilder_new (MM:=gmap_mm))) k
       ++ List.filter (λ r, bool_decide (program r = k)) rules) ∧
    ∀ cmd, (∃ r prefix, r ∈ rules ∧ prefix_match (pattern r) cmd prefix) ↔
      ∃ args tail, cmd = args ++ tail ∧ Forall2 accepts tokens args.
Proof.
  apply (prefix_rule_matches_pattern demo_split [VString (lit "ls")] None None None None None
    PolicyBuilder_new).
  vm_compute. reflexivity.
Defined.
