(* ===== verification/Amend.v ===== *)
(** * Amending a policy file: [execpolicy/src/amend.rs]

    An approved command is appended to the policy file as a [prefix_rule]
    line, an approved host as a [network_rule] line.  The state is the text of
    the policy file; the outcome of each I/O operation is a parameter, so that
    every error path is there. *)
From S2P Require Import Prelude RustStr AbsolutePath FileSystem Ordering ExecPolicy ExecPolicyProofs.

Inductive AmendError : Type :=
| EmptyPrefix
| InvalidNetworkRule (message : str)
| MissingParent (path : str)
| CreatePolicyDir (dir : str) (source : io_error)
| SerializePrefix (source : str)
| SerializeNetworkRule (source : str)
| OpenPolicyFile (path : str) (source : io_error)
| WritePolicyFile (path : str) (source : io_error)
| LockPolicyFile (path : str) (source : io_error)
| SeekPolicyFile (path : str) (source : io_error)
| ReadPolicyFile (path : str) (source : io_error).

(** [Display] of the policy [Error]s that normalising a host can give. *)
Definition show_error (e : Error) : str :=
  match e with
  | InvalidDecision m => lit "invalid decision: " ++ m
  | InvalidPattern m => lit "invalid pattern element: " ++ m
  | InvalidExample m => lit "invalid example: " ++ m
  | InvalidRule m => lit "invalid rule: " ++ m
  | ExampleDidNotMatch _ _ _ => lit "expected every example to match at least one rule"
  | ExampleDidMatch rule example _ =>
      lit "expected example to not match rule `" ++ rule ++ lit "`: " ++ example
  | Starlark m _ => lit "starlark error: " ++ m
  end.

(** The outcomes of the operations on a policy file.  [io_write old new] is
    the text a failing write leaves, or success. *)
Record file_io : Type := {
  io_create_dir : str → Res io_error unit;
  io_open : Res io_error unit;
  io_lock : Res io_error unit;
  io_seek : Res io_error unit;
  io_read : Res io_error unit;
  io_write : str → str → option (str * io_error)
}.

Section amend.
(** [serde_json::to_string] of a string *)
Context (json_string : str → Res str str).
Context (io : file_io).

(** [file.write_all(data)] on a file opened for appending *)
Definition write_all (policy_path data : str) : Eff str AmendError unit := λ contents,
  match io_write io contents data with
  | None => (contents ++ data, Ok ())
  | Some (rest, e) => (rest, Err (WritePolicyFile policy_path e))
  end.

Definition append_locked_line (policy_path line : str) : Eff str AmendError unit :=
  _ ← lift (map_err (OpenPolicyFile policy_path) (io_open io));
  _ ← lift (map_err (LockPolicyFile policy_path) (io_lock io));
  _ ← lift (map_err (SeekPolicyFile policy_path) (io_seek io));
  _ ← lift (map_err (ReadPolicyFile policy_path) (io_read io));
  contents ← reads Ok;
  if existsb (λ existing, bool_decide (existing = line)) (lines contents) then mret ()
  else
    _ ← (if negb (bool_decide (contents = [])) && negb (ends_with [c_nl] contents)
         then write_all policy_path [c_nl] else mret ());
    write_all policy_path (line ++ [c_nl]).

Definition append_rule_line (policy_path rule : str) : Eff str AmendError unit :=
  dir ← lift (ok_or (MissingParent policy_path) (path_parent policy_path));
  _ ← lift (match io_create_dir io dir with
            | Ok () => Ok ()
            | Err source =>
                if decide (err_kind source = AlreadyExists) then Ok ()
                else Err (CreatePolicyDir dir source)
            | Panic p => Panic p
            end);
  append_locked_line policy_path rule.

Definition allow_prefix_line (prefix : list str) : Res AmendError str :=
  tokens ← map_err SerializePrefix (collect_res (map json_string prefix));
  let pattern := [c_lbracket] ++ join (lit ", ") tokens ++ [c_rbracket] in
  Ok (lit "prefix_rule(pattern=" ++ pattern ++ lit ", decision=" ++ [c_dquote] ++ lit "allow"
      ++ [c_dquote] ++ lit ")").

Definition blocking_append_allow_prefix_rule (policy_path : str) (prefix : list str)
    : Eff str AmendError unit :=
  match prefix with
  | [] => lift (Err EmptyPrefix)
  | _ => rule ← lift (allow_prefix_line prefix); append_rule_line policy_path rule
  end.

Definition network_rule_line (host : str) (protocol : NetworkRuleProtocol) (decision : Decision)
    (justification : option str) : Res AmendError str :=
  host ← map_err (λ e, InvalidNetworkRule (show_error e)) (normalize_network_rule_host host);
  if match justification with Some raw => bool_decide (trim raw = []) | None => false end then
    Err (InvalidNetworkRule (lit "justification cannot be empty"))
  else
    host ← map_err SerializeNetworkRule (json_string host);
    protocol ← map_err SerializeNetworkRule (json_string (as_policy_string protocol));
    decision ← map_err SerializeNetworkRule
                 (json_string match decision with
                              | Allow => lit "allow"
                              | Prompt => lit "prompt"
                              | Forbidden => lit "deny"
                              end);
    let args := [lit "host=" ++ host; lit "protocol=" ++ protocol; lit "decision=" ++ decision] in
    args ← match justification with
           | Some justification =>
               justification ← map_err SerializeNetworkRule (json_string justification);
               Ok (args ++ [lit "justification=" ++ justification])
           | None => Ok args
           end;
    Ok (lit "network_rule(" ++ join (lit ", ") args ++ lit ")").

Definition blocking_append_network_rule (policy_path host : str) (protocol : NetworkRuleProtocol)
    (decision : Decision) (justification : option str) : Eff str AmendError unit :=
  rule ← lift (network_rule_line host protocol decision justification);
  append_rule_line policy_path rule.
End amend.

(** ** Specification *)

(** A line of text: what [lines] gives back unchanged. *)
Definition is_line (l : str) : Prop := l ≠ [] ∧ (c_nl ∉ l) ∧ ¬ ([c_cr] `suffix_of` l).

(** Lines of a text after a line was added to it, unless it was there. *)
Definition with_line (line : str) (ls : list str) : list str :=
  if decide (line ∈ ls) then ls else ls ++ [line].

Lemma existsb_line (line : str) (ls : list str) :
  existsb (λ existing, bool_decide (existing = line)) ls = true ↔ line ∈ ls.
Proof.
  rewrite existsb_exists, list_elem_of_In. setoid_rewrite bool_decide_eq_true.
  split; [by intros (x & Hx & ->)|eauto].
Qed.

Lemma lines_of_snoc_nil parts :
  lines_of (parts ++ [[]]) = map strip_cr parts.
Proof. induction parts as [|p parts IH]; [done|]. simpl. rewrite IH. by destruct parts. Qed.

Lemma split_on_snoc_sep c s : split_on c (s ++ [c]) = split_on c s ++ [[]].
Proof. by rewrite split_on_app_sep. Qed.

Lemma lines_snoc_nl s : lines (s ++ [c_nl]) = map strip_cr (split_on c_nl s).
Proof. unfold lines. by rewrite split_on_snoc_sep, lines_of_snoc_nil. Qed.

Lemma lines_append_line s line :
  is_line line → lines (s ++ [c_nl] ++ line ++ [c_nl]) = lines (s ++ [c_nl]) ++ [line].
Proof.
  intros (_ & Hnl & Hcr). rewrite (app_assoc s), app_assoc, !lines_snoc_nl.
  rewrite <-app_assoc. simpl. rewrite split_on_app_sep, map_app. f_equal.
  rewrite split_on_no_sep by done. simpl. by rewrite strip_cr_id.
Qed.

(** Adding the missing final newline changes no line. *)
Lemma lines_final_nl s :
  s ≠ [] → ¬ ([c_nl] `suffix_of` s) → ¬ ([c_cr] `suffix_of` s) → lines (s ++ [c_nl]) = lines s.
Proof.
  intros Hne Hnl Hcr. rewrite lines_snoc_nl. unfold lines.
  assert (Hs := join_split_on c_nl s).
  destruct (exists_last (split_on_nonempty c_nl s)) as (front & l & Hsplit).
  rewrite Hsplit in Hs |- *. rewrite map_app. simpl.
  assert (Hsuf : l `suffix_of` s).
  { rewrite <-Hs. destruct front as [|f front]; [done|]. rewrite join_app by done.
    apply suffix_app_r. by apply suffix_app_r. }
  assert (Hl : l ≠ []).
  { intros ->. destruct front as [|f front]; [by rewrite <-Hs in Hne|].
    apply Hnl. rewrite <-Hs, join_app by done. rewrite app_nil_r. by eexists. }
  rewrite (strip_cr_id l) by (intros Hx; apply Hcr; by etrans).
  clear -Hl. induction front as [|f front IH]; simpl; [by destruct l|].
  rewrite <-IH. by destruct front.
Qed.

(** I/O that succeeds; the directory may be there already. *)
Record io_works (io : file_io) : Prop := {
  works_dir d : io_create_dir io d = Ok () ∨
    ∃ e, io_create_dir io d = Err e ∧ err_kind e = AlreadyExists;
  works_open : io_open io = Ok ();
  works_lock : io_lock io = Ok ();
  works_seek : io_seek io = Ok ();
  works_read : io_read io = Ok ();
  works_write old new : io_write io old new = None
}.

(** The text that appending a line leaves. *)
Definition append_text (line contents : str) : str :=
  if existsb (λ existing, bool_decide (existing = line)) (lines contents) then contents
  else contents
       ++ (if negb (bool_decide (contents = [])) && negb (ends_with [c_nl] contents)
           then [c_nl] else [])
       ++ line ++ [c_nl].

Lemma append_rule_line_eq io policy_path line contents :
  io_works io → is_Some (path_parent policy_path) →
  append_rule_line io policy_path line contents = (append_text line contents, Ok ()).
Proof.
  intros [Hdir Ho Hl Hs Hr Hw] [d Hd].
  unfold append_rule_line, append_locked_line, append_text, mbind, Eff_bind, lift, reads, write_all.
  rewrite Hd, Ho, Hl, Hs, Hr. simpl.
  destruct (Hdir d) as [-> | (e & -> & Hk)]; [|rewrite decide_True by done];
    (destruct (existsb _ (lines contents)); [done|]);
    (destruct (negb _ && negb _); simpl; rewrite !Hw; [by rewrite <-!app_assoc|done]).
Qed.

Lemma append_text_lines line contents :
  is_line line → ¬ ([c_cr] `suffix_of` contents) →
  lines (append_text line contents) = with_line line (lines contents) ∧
  contents `prefix_of` append_text line contents.
Proof.
  intros Hline Hcr. unfold append_text, with_line.
  destruct (existsb _ (lines contents)) eqn:He.
  { apply existsb_line in He. by rewrite decide_True. }
  rewrite decide_False by (rewrite <-existsb_line; congruence).
  split; [|by eexists]. case_bool_decide as Hc.
  { subst contents. simpl. destruct Hline as (Hne & Hnl & Hlcr).
    rewrite lines_snoc_nl, split_on_no_sep by done. simpl. by rewrite strip_cr_id. }
  simpl. destruct (ends_with [c_nl] contents) eqn:Hn; simpl.
  - apply ends_with_spec in Hn as [s ->]. rewrite <-app_assoc. by rewrite lines_append_line.
  - change (c_nl :: line ++ [c_nl]) with ([c_nl] ++ line ++ [c_nl]).
    rewrite lines_append_line, lines_final_nl; [done|done| |done|done].
    rewrite <-ends_with_spec. by rewrite Hn.
Qed.

Lemma append_text_idemp line contents :
  is_line line → ¬ ([c_cr] `suffix_of` contents) →
  append_text line (append_text line contents) = append_text line contents.
Proof.
  intros Hline Hcr. destruct (append_text_lines line contents Hline Hcr) as [Hl _].
  assert (Hin : existsb (λ existing, bool_decide (existing = line))
    (lines (append_text line contents)) = true).
  { apply existsb_line. rewrite Hl. unfold with_line. case_decide; set_solver. }
  unfold append_text at 1. by rewrite Hin.
Qed.

Lemma allow_prefix_line_is_line json_string prefix line :
  (∀ s t, json_string s = Ok t → c_nl ∉ t) →
  allow_prefix_line json_string prefix = Ok line → is_line line.
Proof.
  unfold allow_prefix_line. intros Hjson H.
  destruct (collect_res (map json_string prefix)) as [tokens| |] eqn:Ht; [|done..].
  apply (inj Ok) in H as <-.
  assert (Htok : Forall (λ t, c_nl ∉ t) tokens).
  { revert tokens Ht. induction prefix as [|w ws IH]; intros tokens Ht; simpl in Ht; [by injection Ht as <-|].
    destruct (json_string w) as [t| |] eqn:Hw; [|done..]. cbn [mbind Res_bind] in Ht.
    destruct (collect_res (map json_string ws)) as [ts| |]; [|done..]. injection Ht as <-.
    constructor; [by eapply Hjson|by apply IH]. }
  assert (Hjoin : c_nl ∉ join (lit ", ") tokens).
  { clear -Htok. induction Htok as [|t ts Ht Hts IH]; [set_solver|].
    destruct ts as [|t' ts]; [done|]. rewrite join_cons by done. rewrite !elem_of_app.
    intros [?|[H|?]]; [done| |done]. by vm_compute in H; set_solver. }
  split; [done|]. split.
  - rewrite !not_elem_of_app. split_and!; first [done|by_compute].
  - intros [s Hs]. apply (f_equal last) in Hs. rewrite last_snoc, !last_app in Hs. discriminate Hs.
Qed.

(** Approving a command prefix is recorded once.  When the file operations
    work, the lines of the policy file afterwards are the lines before, plus
    the line of the new rule at the end unless it was there; the old text is
    kept as it was; and approving the same prefix again changes nothing. *)
Theorem append_allow_prefix_once json_string io policy_path prefix contents line :
  io_works io → is_Some (path_parent policy_path) → prefix ≠ [] →
  (∀ s t, json_string s = Ok t → c_nl ∉ t) →
  allow_prefix_line json_string prefix = Ok line → ¬ ([c_cr] `suffix_of` contents) →
  ∃ contents',
    blocking_append_allow_prefix_rule json_string io policy_path prefix contents
      = (contents', Ok ()) ∧
    lines contents' = with_line line (lines contents) ∧ contents `prefix_of` contents' ∧
    blocking_append_allow_prefix_rule json_string io policy_path prefix contents'
      = (contents', Ok ()).
Proof.
  intros Hio Hpath Hne Hjson Hline Hcr. exists (append_text line contents).
  assert (Hl := allow_prefix_line_is_line _ _ _ Hjson Hline).
  unfold blocking_append_allow_prefix_rule. destruct prefix as [|w ws]; [done|].
  unfold mbind, Eff_bind, lift. rewrite Hline, !append_rule_line_eq by done.
  destruct (append_text_lines line contents Hl Hcr). split_and!; [done|done|done|].
  by rewrite append_text_idemp.
Qed.

(** A file system that works, and quoting that suffices for plain words. *)
Definition demo_io : file_io :=
  {| io_create_dir _ := Err {| err_kind := AlreadyExists; err_message := [] |};
     io_open := Ok (); io_lock := Ok (); io_seek := Ok (); io_read := Ok ();
     io_write _ _ := None |}.
Definition quote_word (s : str) : Res str str :=
  if decide (c_nl ∈ s) then Err [] else Ok ([c_dquote] ++ s ++ [c_dquote]).

Lemma append_allow_prefix_once_witness :
  ∃ contents',
    blocking_append_allow_prefix_rule quote_word demo_io (lit "/r/default.rules")
      [lit "git"; lit "status"] (lit "# rules") = (contents', Ok ()) ∧
    lines contents' =
      with_line (match allow_prefix_line quote_word [lit "git"; lit "status"] with
                 | Ok l => l | _ => [] end) (lines (lit "# rules")) ∧
    lit "# rules" `prefix_of` contents' ∧
    blocking_append_allow_prefix_rule quote_word demo_io (lit "/r/default.rules")
      [lit "git"; lit "status"] contents' = (contents', Ok ()).
Proof.
  apply (append_allow_prefix_once quote_word demo_io (lit "/r/default.rules")
    [lit "git"; lit "status"] (lit "# rules")).
  - split; try reflexivity. intros d. right. by eexists.
  - vm_compute. by eexists.
  - discriminate.
  - intros s t. unfold quote_word. case_decide; [done|]. intros [= <-].
    change (c_nl ∉ [c_dquote] ++ s ++ [c_dquote]). rewrite !elem_of_app, !list_elem_of_singleton.
    intros [?|[?|?]]; done.
  - vm_compute. reflexivity.
  - by_compute.
Defined.

(** Amending a policy never loses text: as long as a failing write leaves
    the text that was there, the old contents of the file are a prefix of the
    new ones whatever operation fails. *)
Theorem append_never_loses json_string io policy_path prefix contents :
  (∀ old new left_over e, io_write io old new = Some (left_over, e) → old `prefix_of` left_over) →
  contents `prefix_of`
    (blocking_append_allow_prefix_rule json_string io policy_path prefix contents).1.
Proof.
  intros Hw. unfold blocking_append_allow_prefix_rule. destruct prefix as [|w ws]; [done|].
  assert (Hwrite : ∀ data s, contents `prefix_of` s → contents `prefix_of` (write_all io policy_path data s).1).
  { intros data s Hs. unfold write_all. destruct (io_write io s data) as [[l e]|] eqn:E1; simpl.
    - etrans; [done|by eapply Hw].
    - by apply prefix_app_r. }
  set (P := λ s : str, contents `prefix_of` s).
  assert (Hlift : ∀ A (r : Res AmendError A) s s1 r1, P s → lift r s = (s1, r1) → P s1)
    by (intros ????? Hs [= <- _]; exact Hs).
  assert (Hlock : ∀ line s, P s → P (append_locked_line io policy_path line s).1).
  { intros line s Hs. unfold append_locked_line.
    do 4 (apply (Eff_bind_keeps P); [intros; by eapply Hlift|clear s Hs; intros _ s Hs]).
    apply (Eff_bind_keeps P); [by intros ?? [= <- _]|]. clear s Hs. intros c s Hs.
    destruct (existsb _ (lines c)); [done|]. apply (Eff_bind_keeps P).
    - intros s1 r. destruct (negb _ && negb _); [|by intros [= <- _]]. intros Hr.
      apply (f_equal fst) in Hr. simpl in Hr. subst s1. by apply Hwrite.
    - intros _ s1 Hs1. by apply Hwrite. }
  apply (Eff_bind_keeps P); [by intros ?? [= <- _]; unfold P|].
  intros line s Hs. unfold append_rule_line.
  do 2 (apply (Eff_bind_keeps P); [intros; by eapply Hlift|clear s Hs; intros ? s Hs]).
  by apply Hlock.
Qed.

Lemma append_never_loses_witness :
  lit "x" `prefix_of`
    (blocking_append_allow_prefix_rule quote_word demo_io (lit "/r/f") [lit "ls"] (lit "x")).1.
Proof. apply (append_never_loses quote_word demo_io). intros old new l e H. discriminate H. Defined.
