(* ===== verification/StreamText.v ===== *)
(** * Streaming text parsers: [utils/stream-parser/src/stream_text.rs]

    The trait [StreamTextParser] as a class.  [StreamTextLaws] is what a
    streaming parser promises its users: the output does not depend on how
    the text was cut into chunks, up to a normal form of the payloads. *)
From S2P Require Import Prelude RustStr.

Record StreamTextChunk (X : Type) : Type := {
  visible_text : str;
  extracted : list X
}.
Arguments visible_text {X} _.
Arguments extracted {X} _.
Arguments Build_StreamTextChunk {X} _ _.

Definition chunk_default {X} : StreamTextChunk X := {| visible_text := []; extracted := [] |}.

Definition chunk_is_empty {X} (c : StreamTextChunk X) : bool :=
  bool_decide (visible_text c = []) && match extracted c with [] => true | _ => false end.

(** Appending the output of a later call. *)
Definition chunk_app {X} (c d : StreamTextChunk X) : StreamTextChunk X :=
  {| visible_text := visible_text c ++ visible_text d; extracted := extracted c ++ extracted d |}.

Class StreamTextParser (P X : Type) : Type := {
  push_str : P → str → P * StreamTextChunk X;
  stream_finish : P → P * StreamTextChunk X
}.

Section stream.
Context {P X : Type} `{!StreamTextParser P X}.

(** Pushing chunks one after the other, collecting the output. *)
Fixpoint push_all (p : P) (chunks : list str) : P * StreamTextChunk X :=
  match chunks with
  | [] => (p, chunk_default)
  | c :: chunks' =>
      let (p, out) := push_str p c in
      let (p, outs) := push_all p chunks' in
      (p, chunk_app out outs)
  end.

(** A whole stream: all chunks, then the end. *)
Definition collect_chunks (p : P) (chunks : list str) : StreamTextChunk X :=
  let (p, out) := push_all p chunks in
  chunk_app out (stream_finish p).2.
End stream.

(** [normal] is the normal form under which payloads of differently cut
    streams agree. *)
Class StreamTextLaws (P X : Type) `{!StreamTextParser P X} (Inv : P → Prop)
    (normal : list X → list X) : Prop := {
  normal_app (l k : list X) : normal (normal l ++ normal k) = normal (l ++ k);
  push_inv (p : P) s : Inv p → Inv (push_str p s).1;
  push_nil (p : P) : Inv p → push_str p [] = (p, chunk_default);
  push_app (p : P) s t : Inv p →
    (push_str p (s ++ t)).1 = (push_str (push_str p s).1 t).1 ∧
    visible_text (push_str p (s ++ t)).2 =
      visible_text (push_str p s).2 ++ visible_text (push_str (push_str p s).1 t).2 ∧
    normal (extracted (push_str p (s ++ t)).2) =
      normal (extracted (push_str p s).2 ++ extracted (push_str (push_str p s).1 t).2)
}.

(** Equality of outputs up to the normal form. *)
Definition same_output {X} (normal : list X → list X) (c d : StreamTextChunk X) : Prop :=
  visible_text c = visible_text d ∧ normal (extracted c) = normal (extracted d).

#[global] Instance same_output_equiv {X} (normal : list X → list X) :
  Equivalence (same_output normal).
Proof.
  split.
  - by intros c.
  - by intros c d [? ?].
  - intros c d e [H1 H2] [H3 H4]. split; congruence.
Qed.

Lemma chunk_app_nil_r {X} (c : StreamTextChunk X) : chunk_app c chunk_default = c.
Proof. destruct c. unfold chunk_app. simpl. by rewrite !app_nil_r. Qed.

Lemma chunk_app_assoc {X} (a b c : StreamTextChunk X) :
  chunk_app a (chunk_app b c) = chunk_app (chunk_app a b) c.
Proof. unfold chunk_app. simpl. by rewrite !app_assoc. Qed.

Section laws.
#[local] Set Default Proof Using "Type*".
Context {P X : Type} `{!StreamTextParser P X} {Inv : P → Prop} {normal : list X → list X}.
Context `{!StreamTextLaws P X Inv normal}.
Implicit Types (p : P).

#[export] Instance chunk_app_proper :
  Proper (same_output normal ==> same_output normal ==> same_output normal) (@chunk_app X).
Proof.
  intros c c' [Hv Hx] d d' [Hv' Hx']. split; simpl; [by rewrite Hv, Hv'|].
  rewrite <-(normal_app (extracted c)), Hx, Hx', (normal_app (extracted c')). done.
Qed.

Lemma push_str_app p s t :
  Inv p →
  (push_str p (s ++ t)).1 = (push_str (push_str p s).1 t).1 ∧
  same_output normal (push_str p (s ++ t)).2
    (chunk_app (push_str p s).2 (push_str (push_str p s).1 t).2).
Proof. intros Hp. destruct (push_app p s t Hp) as (? & ? & ?). done. Qed.

(** Pushing chunk by chunk is pushing the whole text. *)
Lemma push_all_concat p chunks :
  Inv p →
  (push_all p chunks).1 = (push_str p (concat chunks)).1 ∧
  same_output normal (push_all p chunks).2 (push_str p (concat chunks)).2.
Proof.
  revert p; induction chunks as [|c chunks IH]; intros p Hp; simpl; [by rewrite push_nil|].
  destruct (push_str_app p c (concat chunks) Hp) as [Hs Ho].
  assert (Hinv := push_inv p c Hp). destruct (push_str p c) as [p1 o1] eqn:Hc. simpl in *.
  destruct (IH p1 Hinv) as [Hs1 Ho1]. destruct (push_all p1 chunks) as [p2 o2]. simpl in *.
  split; [congruence|]. by rewrite Ho, Ho1.
Qed.

Lemma collect_chunks_concat p chunks :
  Inv p → same_output normal (collect_chunks p chunks) (collect_chunks p [concat chunks]).
Proof.
  intros Hp. unfold collect_chunks. simpl.
  destruct (push_all_concat p chunks Hp) as [Hs Ho].
  destruct (push_all p chunks) as [p1 o1], (push_str p (concat chunks)) as [p2 o2]. simpl in *.
  subst p2. by rewrite Ho, chunk_app_nil_r.
Qed.
End laws.
