(* ===== verification/InlineHiddenTag.v ===== *)
(** * Hidden inline tags and citations: [utils/stream-parser/src/{inline_hidden_tag,citation}.rs]

    [InlineHiddenTagParser] hides tagged spans of a stream of text and
    extracts their content; [CitationStreamParser] is its instance for memory
    citations.  Positions count characters.  The loop of [push_str] has fuel;
    every turn that continues removes a delimiter from the pending text, so
    one more than its length is enough ([drain_fuel]). *)
From S2P Require Import Prelude RustStr StreamText.

Record ExtractedInlineTag (T : Type) : Type := { ex_tag : T; ex_content : str }.
Arguments Build_ExtractedInlineTag {T} _ _.
Arguments ex_tag {T} _.
Arguments ex_content {T} _.

Record InlineTagSpec (T : Type) : Type := { spec_tag : T; spec_open : str; spec_close : str }.
Arguments Build_InlineTagSpec {T} _ _ _.
Arguments spec_tag {T} _.
Arguments spec_open {T} _.
Arguments spec_close {T} _.

Record ActiveTag (T : Type) : Type := { act_tag : T; act_close : str; act_content : str }.
Arguments Build_ActiveTag {T} _ _ _.
Arguments act_tag {T} _.
Arguments act_close {T} _.
Arguments act_content {T} _.

Record InlineHiddenTagParser (T : Type) : Type := {
  specs : list (InlineTagSpec T);
  pending : str;
  active : option (ActiveTag T)
}.
Arguments Build_InlineHiddenTagParser {T} _ _ _.
Arguments specs {T} _.
Arguments pending {T} _.
Arguments active {T} _.

(** The longest proper prefix of [needle] that ends [s]. *)
Fixpoint longest_suffix_prefix_from (k : nat) (s needle : str) : nat :=
  match k with
  | O => 0
  | S k' => if ends_with (take k needle) s then k else longest_suffix_prefix_from k' s needle
  end.
Definition longest_suffix_prefix_len (s needle : str) : nat :=
  longest_suffix_prefix_from (length s `min` (length needle - 1)) s needle.

Section inline.
Context {T : Type}.
Implicit Types (p : InlineHiddenTagParser T).

(** [InlineHiddenTagParser::new], with its assertions. *)
Definition inline_new (ss : list (InlineTagSpec T)) : Total (InlineHiddenTagParser T) :=
  match ss with
  | [] => Panic ExpectFailed
  | _ =>
      if forallb (λ s, negb (bool_decide (spec_open s = []))
                       && negb (bool_decide (spec_close s = []))) ss
      then Ok {| specs := ss; pending := []; active := None |}
      else Panic ExpectFailed
  end.

(** Position, length and index of a candidate, in the order of [min_by]. *)
Definition candidate : Type := nat * N * nat.
Definition candidate_cmp (a b : candidate) : comparison :=
  let '(pos_a, len_a, idx_a) := a in
  let '(pos_b, len_b, idx_b) := b in
  match Nat.compare pos_a pos_b with
  | Eq => match N.compare len_b len_a with
          | Eq => Nat.compare idx_a idx_b
          | c => c
          end
  | c => c
  end.
Definition min_candidate (cs : list candidate) : option candidate :=
  match cs with
  | [] => None
  | c :: cs' => Some (foldl (λ x y, match candidate_cmp x y with Gt => y | _ => x end) c cs')
  end.

Definition find_next_open p : option (nat * nat) :=
  (λ c : candidate, (c.1.1, c.2)) <$> min_candidate (omap (λ '(idx, spec),
    (λ pos, (pos, utf8_len (spec_open spec), idx)) <$> find (spec_open spec) (pending p))
    (imap pair (specs p))).

Definition max_open_prefix_suffix_len p : nat :=
  foldr Nat.max 0
    (map (λ spec, longest_suffix_prefix_len (pending p) (spec_open spec)) (specs p)).

Definition with_pending p (s : str) : InlineHiddenTagParser T :=
  {| specs := specs p; pending := s; active := active p |}.
Definition with_active p (a : option (ActiveTag T)) : InlineHiddenTagParser T :=
  {| specs := specs p; pending := pending p; active := a |}.

Definition add_content (a : ActiveTag T) (s : str) : ActiveTag T :=
  {| act_tag := act_tag a; act_close := act_close a; act_content := act_content a ++ s |}.

Definition show_text (s : str) (out : StreamTextChunk (ExtractedInlineTag T))
    : StreamTextChunk (ExtractedInlineTag T) :=
  {| visible_text := visible_text out ++ s; extracted := extracted out |}.
Definition extract (x : ExtractedInlineTag T) (out : StreamTextChunk (ExtractedInlineTag T))
    : StreamTextChunk (ExtractedInlineTag T) :=
  {| visible_text := visible_text out; extracted := extracted out ++ [x] |}.

(** The loop of [push_str]. *)
Fixpoint drain (fuel : nat) p (out : StreamTextChunk (ExtractedInlineTag T))
    : InlineHiddenTagParser T * StreamTextChunk (ExtractedInlineTag T) :=
  match fuel with
  | O => (p, out)
  | S fuel' =>
      match active p with
      | Some a =>
          match find (act_close a) (pending p) with
          | Some close_idx =>
              drain fuel'
                {| specs := specs p;
                   pending := drop (close_idx + length (act_close a)) (pending p);
                   active := None |}
                (extract {| ex_tag := act_tag a;
                            ex_content := act_content a ++ take close_idx (pending p) |} out)
          | None =>
              let keep := longest_suffix_prefix_len (pending p) (act_close a) in
              let n := length (pending p) - keep in
              ({| specs := specs p; pending := drop n (pending p);
                  active := Some (add_content a (take n (pending p))) |}, out)
          end
      | None =>
          match find_next_open p with
          | Some (open_idx, spec_idx) =>
              match specs p !! spec_idx with
              | Some spec =>
                  drain fuel'
                    {| specs := specs p;
                       pending := drop (open_idx + length (spec_open spec)) (pending p);
                       active := Some {| act_tag := spec_tag spec; act_close := spec_close spec;
                                         act_content := [] |} |}
                    (show_text (take open_idx (pending p)) out)
              | None => (p, out)
              end
          | None =>
              let keep := max_open_prefix_suffix_len p in
              let n := length (pending p) - keep in
              (with_pending p (drop n (pending p)), show_text (take n (pending p)) out)
          end
      end
  end.

Definition inline_push_str p (chunk : str)
    : InlineHiddenTagParser T * StreamTextChunk (ExtractedInlineTag T) :=
  let p := with_pending p (pending p ++ chunk) in
  drain (S (length (pending p))) p chunk_default.

Definition inline_finish p : InlineHiddenTagParser T * StreamTextChunk (ExtractedInlineTag T) :=
  match active p with
  | Some a =>
      ({| specs := specs p; pending := []; active := None |},
       {| visible_text := [];
          extracted := [{| ex_tag := act_tag a; ex_content := act_content a ++ pending p |}] |})
  | None => (with_pending p [], {| visible_text := pending p; extracted := [] |})
  end.
End inline.

#[global] Instance inline_parser {T} :
  StreamTextParser (InlineHiddenTagParser T) (ExtractedInlineTag T) :=
  { push_str := inline_push_str; stream_finish := inline_finish }.

(** ** [citation.rs] *)

Inductive CitationTag : Type := Citation.
Definition CITATION_OPEN : str := lit "<oai-mem-citation>".
Definition CITATION_CLOSE : str := lit "</oai-mem-citation>".
Arguments CITATION_OPEN : simpl never.
Arguments CITATION_CLOSE : simpl never.

Definition citation_spec : InlineTagSpec CitationTag :=
  {| spec_tag := Citation; spec_open := CITATION_OPEN; spec_close := CITATION_CLOSE |}.

Record CitationStreamParser : Type := { inner : InlineHiddenTagParser CitationTag }.

(** The assertions of [InlineHiddenTagParser::new] hold for this
    specification ([citation_new_ok]). *)
Definition citation_new : CitationStreamParser :=
  {| inner := {| specs := [citation_spec]; pending := []; active := None |} |}.

Definition citation_chunk (c : StreamTextChunk (ExtractedInlineTag CitationTag))
    : StreamTextChunk str :=
  {| visible_text := visible_text c; extracted := map ex_content (extracted c) |}.

#[global] Instance citation_parser : StreamTextParser CitationStreamParser str := {
  push_str p chunk :=
    let (i, out) := inline_push_str (inner p) chunk in ({| inner := i |}, citation_chunk out);
  stream_finish p :=
    let (i, out) := inline_finish (inner p) in ({| inner := i |}, citation_chunk out)
}.

Definition strip_citations (text : str) : str * list str :=
  let (p, out) := push_str citation_new text in
  let (_, tail) := stream_finish p in
  (visible_text out ++ visible_text tail, extracted out ++ extracted tail).

(** ** Scanning for a delimiter

    What one turn of the loop does to the pending text: a delimiter is found,
    or the text is split into a part that is certainly not in a delimiter and
    a part that may start one. *)

Inductive scan_result : Type :=
| Found (before after : str)
| Partial (emit keep : str).

Definition scan (needle s : str) : scan_result :=
  match find needle s with
  | Some i => Found (take i s) (drop (i + length needle) s)
  | None =>
      let n := length s - longest_suffix_prefix_len s needle in
      Partial (take n s) (drop n s)
  end.

Section scan.
Implicit Types (needle s t : str).

(** [needle] starts at position [i] of [s]. *)
Lemma find_Some_iff needle s i :
  find needle s = Some i ↔
  needle `prefix_of` drop i s ∧ i ≤ length s ∧ ∀ j, j < i → ¬ (needle `prefix_of` drop j s).
Proof.
  split.
  - intros H. destruct (find_Some _ _ _ H) as (t & Ht & Hmin). split_and!; [by exists t| |done].
    revert i H Ht Hmin. induction s as [|c s IH]; intros i H Ht Hmin; simpl in H.
    + destruct (starts_with needle []); [|done]. injection H as <-. simpl. lia.
    + destruct (starts_with needle (c :: s)); [injection H as <-; simpl; lia|].
      destruct (find needle s) as [k|] eqn:Hk; [|done]. injection H as <-. simpl.
      destruct (find_Some _ _ _ Hk) as (t' & Ht' & Hmin').
      assert (k ≤ length s) by (eapply IH; eauto). lia.
  - intros (Hpre & Hi & Hmin). destruct (find needle s) as [k|] eqn:Hk.
    + f_equal. destruct (find_Some _ _ _ Hk) as (t & Ht & Hmin').
      destruct (Nat.lt_trichotomy k i) as [Hlt|[->|Hlt]]; [|done|].
      * destruct (Hmin k Hlt). by exists t.
      * by destruct (Hmin' i Hlt).
    + by destruct (find_None _ _ Hk i).
Qed.

Lemma lsp_from_spec k s needle :
  let r := longest_suffix_prefix_from k s needle in
  r ≤ k ∧ (r = 0 ∨ take r needle `suffix_of` s) ∧
  ∀ j, r < j ≤ k → ¬ (take j needle `suffix_of` s).
Proof.
  induction k as [|k IH]; simpl; [split_and!; [lia|by left|lia]|].
  destruct (ends_with (take (S k) needle) s) eqn:E1.
  - split_and!; [lia|right; by apply ends_with_spec|lia].
  - destruct IH as (Hle & Hr & Hmax). split_and!; [lia|done|]. intros j Hj.
    destruct (decide (j = S k)) as [->|]; [|apply Hmax; lia].
    rewrite <-ends_with_spec. by rewrite E1.
Qed.

Lemma lsp_spec s needle :
  let r := longest_suffix_prefix_len s needle in
  r ≤ length s ∧ r ≤ length needle - 1 ∧ take r needle `suffix_of` s ∧
  ∀ j, r < j → j < length needle → ¬ (take j needle `suffix_of` s).
Proof.
  unfold longest_suffix_prefix_len.
  destruct (lsp_from_spec (length s `min` (length needle - 1)) s needle) as (Hle & Hr & Hmax).
  split_and!; [lia|lia| |].
  - destruct Hr as [->|]; [|done]. apply suffix_nil.
  - intros j Hj Hlt Hsuf. apply (Hmax j); [|done]. split; [done|].
    assert (Hl := suffix_length _ _ Hsuf). rewrite length_take in Hl. lia.
Qed.

(** An occurrence of the needle, or a proper prefix of it that reaches the
    end of the text, cannot begin in the part that is emitted. *)
Lemma partial_no_start needle s t j :
  find needle s = None →
  j < length s - longest_suffix_prefix_len s needle →
  ¬ (needle `prefix_of` drop j (s ++ t)) ∧
  ¬ (drop j (s ++ t) `prefix_of` needle).
Proof.
  intros Hno Hj. destruct (lsp_spec s needle) as (Hr & Hr' & _ & Hmax).
  set (r := longest_suffix_prefix_len s needle) in *.
  assert (Hlen : length (drop j s) = length s - j) by (by rewrite length_drop).
  rewrite drop_app_le by lia.
  (* a prefix of the needle that covers the rest of [s] *)
  assert (Hcover : ¬ (drop j s `prefix_of` needle)).
  { intros [u Hu]. destruct (decide (length (drop j s) < length needle)) as [Hlt|Hge].
    - apply (Hmax (length (drop j s))); [lia|done|].
      rewrite Hu, take_app_length. exists (take j s). by rewrite take_drop.
    - apply (find_None _ _ Hno j); [lia|]. rewrite Hu.
      destruct u; [by rewrite app_nil_r|]. rewrite Hu, length_app in Hge. simpl in Hge. lia. }
  split.
  - intros [u Hu]. destruct (decide (length needle ≤ length (drop j s))) as [Hle|Hgt].
    + apply (find_None _ _ Hno j); [lia|]. exists (drop (length needle) (drop j s)).
      rewrite <-(take_drop (length needle) (drop j s)) at 1. f_equal.
      apply (f_equal (take (length needle))) in Hu.
      by rewrite take_app_le, take_app_length in Hu by done.
    + apply Hcover. exists (take (length needle - length (drop j s)) t).
      apply (f_equal (take (length needle))) in Hu. rewrite take_app_length in Hu.
      rewrite <-Hu at 1. rewrite take_app_ge by lia. done.
  - intros [u Hu]. apply Hcover. exists (t ++ u). by rewrite Hu, app_assoc.
Qed.

Lemma find_shift needle e s :
  (∀ j, j < length e → ¬ (needle `prefix_of` drop j (e ++ s))) →
  find needle (e ++ s) = (λ i, length e + i) <$> find needle s.
Proof.
  intros Hno. destruct (find needle s) as [i|] eqn:Hi; simpl.
  - apply find_Some_iff in Hi as (Hpre & Hle & Hmin). apply find_Some_iff.
    rewrite drop_app_ge, length_app by lia. replace (length e + i - length e) with i by lia.
    split_and!; [done|lia|]. intros j Hj. destruct (decide (j < length e)); [by apply Hno|].
    rewrite drop_app_ge by lia. apply Hmin. lia.
  - destruct (find needle (e ++ s)) as [i|] eqn:Hi'; [|done].
    apply find_Some_iff in Hi' as (Hpre & Hle & _). rewrite length_app in Hle.
    destruct (decide (i < length e)) as [Hlt|Hge]; [by destruct (Hno i Hlt)|].
    rewrite drop_app_ge in Hpre by lia. by destruct (find_None _ _ Hi (i - length e)); [lia|].
Qed.

Lemma lsp_unique s needle r :
  r < length needle → take r needle `suffix_of` s →
  (∀ j, r < j → j < length needle → ¬ (take j needle `suffix_of` s)) →
  longest_suffix_prefix_len s needle = r.
Proof.
  intros Hr Hsuf Hmax. destruct (lsp_spec s needle) as (_ & Hr' & Hsuf' & Hmax').
  set (r' := longest_suffix_prefix_len s needle) in *.
  destruct (Nat.lt_trichotomy r' r) as [Hlt|[->|Hlt]]; [|done|].
  - by destruct (Hmax' r Hlt Hr).
  - by destruct (Hmax r' Hlt); [lia|].
Qed.

Lemma suffix_app_cases (u v w : str) :
  u `suffix_of` v ++ w → length u ≤ length w → u `suffix_of` w.
Proof.
  intros [x Hx] Hle. assert (Hl : length (v ++ w) = length (x ++ u)) by congruence.
  rewrite !length_app in Hl. exists (take (length w - length u) w).
  rewrite <-(take_drop (length w - length u) w) at 1. f_equal.
  apply (f_equal (drop (length v + (length w - length u)))) in Hx.
  rewrite drop_app_ge in Hx by lia. replace (length v + (length w - length u) - length v)
    with (length w - length u) in Hx by lia. rewrite Hx.
  rewrite drop_app_ge by lia. replace (length v + (length w - length u) - length x) with 0 by lia.
  done.
Qed.

Lemma scan_app needle s t :
  needle ≠ [] →
  scan needle (s ++ t) =
  match scan needle s with
  | Found before after => Found before (after ++ t)
  | Partial emit keep =>
      match scan needle (keep ++ t) with
      | Found before after => Found (emit ++ before) after
      | Partial emit' keep' => Partial (emit ++ emit') keep'
      end
  end.
Proof.
  intros Hne. assert (Hpos : 0 < length needle) by (destruct needle; [done|simpl; lia]).
  unfold scan at 1 2. destruct (find needle s) as [i|] eqn:Hi.
  { apply find_Some_iff in Hi as (Hpre & Hle & Hmin).
    assert (Hfit : i + length needle ≤ length s).
    { apply prefix_length in Hpre. rewrite length_drop in Hpre. lia. }
    assert (find needle (s ++ t) = Some i) as ->.
    { apply find_Some_iff. rewrite drop_app_le, length_app by lia.
      split_and!; [by apply prefix_app_r|lia|]. intros j Hj. rewrite drop_app_le by lia.
      intros [u Hu]. apply (Hmin j Hj). exists (drop (length needle) (drop j s)).
      rewrite <-(take_drop (length needle) (drop j s)) at 1. f_equal.
      apply (f_equal (take (length needle))) in Hu.
      by rewrite take_app_le, take_app_length in Hu by (rewrite length_drop; lia). }
    by rewrite take_app_le, drop_app_le by lia. }
  set (n := length s - longest_suffix_prefix_len s needle).
  assert (Hst : s ++ t = take n s ++ drop n s ++ t) by (by rewrite app_assoc, take_drop).
  assert (Hn : length (take n s) = n) by (rewrite length_take; unfold n; lia).
  assert (Hno : ∀ j, j < length (take n s) → ¬ needle `prefix_of` drop j (take n s ++ drop n s ++ t)
    ∧ ¬ (drop j (take n s ++ drop n s ++ t)) `prefix_of` needle).
  { intros j Hj. rewrite <-Hst. apply partial_no_start; [done|]. rewrite Hn in Hj. exact Hj. }
  rewrite Hst. generalize dependent (drop n s ++ t). intros kt Hst Hno.
  rewrite find_shift by (intros j Hj; by apply Hno).
  unfold scan. destruct (find needle kt) as [i|] eqn:Hkt; cbn [fmap option_fmap option_map].
  - rewrite take_app_ge, drop_app_ge by lia.
    replace (length (take n s) + i - length (take n s)) with i by lia.
    by replace (length (take n s) + i + length needle - length (take n s)) with (i + length needle) by lia.
  - assert (longest_suffix_prefix_len (take n s ++ kt) needle = longest_suffix_prefix_len kt needle) as ->.
    { destruct (lsp_spec kt needle) as (Hr & Hr' & Hsuf & Hmax). apply lsp_unique; [lia| |].
      - by apply suffix_app_r.
      - intros j Hj Hlt Hjsuf. assert (Hlj : length (take j needle) = j) by (rewrite length_take; lia).
        destruct (decide (j ≤ length kt)) as [Hle|Hgt].
        + apply (Hmax j Hj Hlt). eapply suffix_app_cases; [done|lia].
        + destruct Hjsuf as [x Hx]. assert (Hlx : length (take n s ++ kt) = length x + j)
            by (rewrite Hx, length_app; lia).
          rewrite length_app in Hlx. apply (proj2 (Hno (length x) ltac:(lia))).
          rewrite Hx, drop_app_length. apply prefix_take. }
    destruct (lsp_spec kt needle) as (Hr & _). rewrite length_app.
    rewrite take_app_ge, drop_app_ge by lia.
    by replace (length (take n s) + length kt - longest_suffix_prefix_len kt needle - length (take n s))
      with (length kt - longest_suffix_prefix_len kt needle) by lia.
Qed.
End scan.

(** ** One tag: the loop as a recursion on the pending text *)

Lemma scan_Found_length needle s b a :
  needle ≠ [] → scan needle s = Found b a → length a < length s.
Proof.
  unfold scan. intros Hne. destruct (find needle s) as [i|] eqn:Hi; [|done]. intros [= _ <-].
  apply find_Some_iff in Hi as (Hpre%prefix_length & Hle & _). rewrite length_drop in *.
  destruct needle; [done|]. simpl in *. lia.
Qed.

Lemma scan_Partial_split needle s e k : scan needle s = Partial e k → s = e ++ k.
Proof.
  unfold scan. destruct (find needle s); [done|]. intros [= <- <-]. by rewrite take_drop.
Qed.

Section single.
Context {T : Type} (sp : InlineTagSpec T).
Implicit Types (p : InlineHiddenTagParser T) (out : StreamTextChunk (ExtractedInlineTag T)).

(** A parser for one tag with delimiters that are not empty. *)
Definition single_inv p : Prop :=
  specs p = [sp] ∧ spec_open sp ≠ [] ∧ spec_close sp ≠ [] ∧
  ∀ a, active p = Some a → act_close a ≠ [].

Definition state (s : str) (a : option (ActiveTag T)) : InlineHiddenTagParser T :=
  {| specs := [sp]; pending := s; active := a |}.
Definition fresh_active : ActiveTag T :=
  {| act_tag := spec_tag sp; act_close := spec_close sp; act_content := [] |}.
Definition closed (a : ActiveTag T) (s : str) : ExtractedInlineTag T :=
  {| ex_tag := act_tag a; ex_content := act_content a ++ s |}.

Lemma drain_turn fuel s a out :
  drain (S fuel) (state s a) out =
  match a with
  | Some a =>
      match scan (act_close a) s with
      | Found b r => drain fuel (state r None) (extract (closed a b) out)
      | Partial e k => (state k (Some (add_content a e)), out)
      end
  | None =>
      match scan (spec_open sp) s with
      | Found b r => drain fuel (state r (Some fresh_active)) (show_text b out)
      | Partial e k => (state k None, show_text e out)
      end
  end.
Proof.
  destruct a as [a|]; simpl.
  - unfold scan. by destruct (find (act_close a) s).
  - unfold find_next_open, max_open_prefix_suffix_len. simpl. unfold scan.
    destruct (find (spec_open sp) s) as [i|]; simpl; [done|].
    by rewrite Nat.max_0_r.
Qed.

Lemma single_state p : single_inv p → p = state (pending p) (active p).
Proof. intros (Hs & _). destruct p as [ss s a]; simpl in *. by subst. Qed.

Definition wf_active (a : option (ActiveTag T)) : Prop :=
  spec_open sp ≠ [] ∧ spec_close sp ≠ [] ∧ match a with Some a => act_close a ≠ [] | None => True end.

Lemma wf_fresh a : wf_active a → wf_active (Some fresh_active).
Proof. intros (? & ? & _). by split_and!. Qed.
Lemma wf_none a : wf_active a → wf_active None.
Proof. intros (? & ? & _). by split_and!. Qed.

(** More fuel than the pending text is long changes nothing. *)
Lemma drain_fuel fuel fuel' s a out :
  wf_active a → length s < fuel → length s < fuel' →
  drain fuel (state s a) out = drain fuel' (state s a) out.
Proof.
  revert fuel' s a out; induction fuel as [|fuel IH]; intros [|fuel'] s a out Hwf H1 H2; try lia.
  rewrite !drain_turn. assert (Hwf' := Hwf). destruct Hwf' as (Ho & Hc & Ha). destruct a as [a|].
  - destruct (scan (act_close a) s) as [b r|] eqn:Hs; [|done].
    apply scan_Found_length in Hs; [|done]. apply IH; [by eapply wf_none|lia|lia].
  - destruct (scan (spec_open sp) s) as [b r|] eqn:Hs; [|done].
    apply scan_Found_length in Hs; [|done]. apply IH; [by eapply wf_fresh|lia|lia].
Qed.

(** What was output before stays in front. *)
Lemma drain_out fuel s a out :
  drain fuel (state s a) out =
  ((drain fuel (state s a) chunk_default).1,
   chunk_app out (drain fuel (state s a) chunk_default).2).
Proof.
  revert s a out; induction fuel as [|fuel IH]; intros s a out.
  { simpl. by rewrite chunk_app_nil_r. }
  rewrite !drain_turn. destruct a as [a|].
  - destruct (scan (act_close a) s) as [b r|e k].
    + rewrite (IH _ _ (extract _ out)), (IH _ _ (extract _ chunk_default)). simpl. f_equal.
      unfold chunk_app. simpl. by rewrite <-app_assoc.
    + simpl. by rewrite chunk_app_nil_r.
  - destruct (scan (spec_open sp) s) as [b r|e k].
    + rewrite (IH _ _ (show_text _ out)), (IH _ _ (show_text _ chunk_default)). simpl. f_equal.
      unfold chunk_app. simpl. by rewrite <-app_assoc.
    + destruct out. unfold chunk_app, show_text. simpl. by rewrite !app_nil_r.
Qed.

Definition run (s : str) (a : option (ActiveTag T)) :=
  drain (S (length s)) (state s a) chunk_default.

Lemma run_turn s a :
  wf_active a →
  run s a =
  match a with
  | Some a =>
      match scan (act_close a) s with
      | Found b r => ((run r None).1, chunk_app (extract (closed a b) chunk_default) (run r None).2)
      | Partial e k => (state k (Some (add_content a e)), chunk_default)
      end
  | None =>
      match scan (spec_open sp) s with
      | Found b r => ((run r (Some fresh_active)).1,
                      chunk_app (show_text b chunk_default) (run r (Some fresh_active)).2)
      | Partial e k => (state k None, show_text e chunk_default)
      end
  end.
Proof.
  intros Hwf. assert (Hwf' := Hwf). destruct Hwf' as (Ho & Hc & Ha).
  unfold run at 1. rewrite drain_turn. destruct a as [a|].
  - destruct (scan (act_close a) s) as [b r|e k] eqn:Hs; [|done].
    apply scan_Found_length in Hs; [|done]. rewrite drain_out.
    unfold run. by rewrite (drain_fuel (length s) (S (length r))) by (lia || by eapply wf_none).
  - destruct (scan (spec_open sp) s) as [b r|e k] eqn:Hs; [|done].
    apply scan_Found_length in Hs; [|done]. rewrite drain_out.
    unfold run. by rewrite (drain_fuel (length s) (S (length r))) by (lia || by eapply wf_fresh).
Qed.

(** The state a run ends in is again a state of the same tag. *)
Lemma run_state s a :
  wf_active a → ∃ s' a', (run s a).1 = state s' a' ∧ wf_active a'.
Proof.
  remember (length s) as n eqn:Hn. revert s a Hn.
  induction (lt_wf n) as [n _ IH]. intros s a -> Hwf. rewrite run_turn by done.
  assert (Hwf' := Hwf). destruct Hwf' as (Ho & Hc & Ha). destruct a as [a|].
  - destruct (scan (act_close a) s) as [b r|e k] eqn:Hs; simpl.
    + apply scan_Found_length in Hs; [|done]. eapply IH; [done|done|by eapply wf_none].
    + eexists _, _. split; [done|]. by split_and!.
  - destruct (scan (spec_open sp) s) as [b r|e k] eqn:Hs; simpl.
    + apply scan_Found_length in Hs; [|done]. eapply IH; [done|done|by eapply wf_fresh].
    + eexists _, _. split; [done|done].
Qed.

(** Pushing a text in two parts. *)
Lemma run_app s t a :
  wf_active a →
  run (s ++ t) a =
  let (p, out) := run s a in
  let (p', out') := run (pending p ++ t) (active p) in (p', chunk_app out out').
Proof.
  remember (length s) as n eqn:Hn. revert s a Hn.
  induction (lt_wf n) as [n _ IH]. intros s a -> Hwf.
  rewrite (run_turn (s ++ t)), (run_turn s) by done.
  assert (Hwf' := Hwf). destruct Hwf' as (Ho & Hc & Ha). destruct a as [a|].
  - rewrite scan_app by done. destruct (scan (act_close a) s) as [b r|e k] eqn:Hs.
    + apply scan_Found_length in Hs; [|done].
      rewrite (IH _ Hs r None eq_refl) by (by eapply wf_none).
      destruct (run r None) as [p1 o1]. simpl. destruct (run (pending p1 ++ t) (active p1)) as [p2 o2].
      simpl. by rewrite !chunk_app_assoc.
    + simpl. rewrite (run_turn (k ++ t)) by (by split_and!). simpl.
      destruct (scan (act_close a) (k ++ t)) as [b r|e' k']; simpl.
      * unfold closed. simpl. rewrite app_assoc. by destruct (run r None).
      * unfold add_content. simpl. by rewrite app_assoc.
  - rewrite scan_app by done. destruct (scan (spec_open sp) s) as [b r|e k] eqn:Hs.
    + apply scan_Found_length in Hs; [|done].
      rewrite (IH _ Hs r (Some fresh_active) eq_refl) by (by eapply wf_fresh).
      destruct (run r (Some fresh_active)) as [p1 o1]. simpl.
      destruct (run (pending p1 ++ t) (active p1)) as [p2 o2].
      simpl. by rewrite !chunk_app_assoc.
    + simpl. rewrite (run_turn (k ++ t)) by done. simpl.
      destruct (scan (spec_open sp) (k ++ t)) as [b r|e' k']; simpl; [|done].
      destruct (run r (Some fresh_active)) as [p2 o2]. simpl. f_equal.
      unfold chunk_app. simpl. by rewrite app_assoc.
Qed.

Lemma push_run p s : single_inv p → inline_push_str p s = run (pending p ++ s) (active p).
Proof.
  intros Hp. unfold inline_push_str, run. rewrite (single_state p Hp) at 2. simpl.
  destruct Hp as (Hs & _). unfold with_pending. by rewrite Hs.
Qed.

Lemma single_wf p : single_inv p → wf_active (active p).
Proof. intros (_ & ? & ? & Ha). split_and!; [done|done|]. destruct (active p); eauto. Qed.
End single.

(** ** The laws of a streaming parser *)

Lemma scan_keep_settled needle s e k :
  needle ≠ [] → scan needle s = Partial e k → scan needle k = Partial [] k.
Proof.
  intros Hne Hs. assert (H := scan_app needle s [] Hne). rewrite app_nil_r, Hs, app_nil_r in H.
  destruct (scan needle k) as [b a|e' k']; [done|]. injection H as He <-.
  assert (e' = []) as -> by (apply (app_inv_head e); by rewrite app_nil_r). done.
Qed.

Section settled.
Context {T : Type} (sp : InlineTagSpec T).

(** Nothing of the pending text can be put out without more input. *)
Definition settled (s : str) (a : option (ActiveTag T)) : Prop :=
  match a with
  | Some a => scan (act_close a) s = Partial [] s
  | None => scan (spec_open sp) s = Partial [] s
  end.

Lemma run_settled s a p out :
  wf_active sp a → run sp s a = (p, out) →
  p = state sp (pending p) (active p) ∧ wf_active sp (active p) ∧ settled (pending p) (active p).
Proof.
  remember (length s) as n eqn:Hn. revert s a p out Hn.
  induction (lt_wf n) as [n _ IH]. intros s a p out -> Hwf. rewrite run_turn by done.
  assert (Hwf' := Hwf). destruct Hwf' as (Ho & Hc & Ha). destruct a as [a|].
  - destruct (scan (act_close a) s) as [b r|e k] eqn:Hs.
    + apply scan_Found_length in Hs; [|done]. destruct (run sp r None) as [p1 o1] eqn:Hr.
      intros [= <- _]. eapply IH; [done|done|by eapply wf_none|done].
    + intros [= <- _]. split; [done|]. split; [by split_and!|].
      simpl. by eapply scan_keep_settled.
  - destruct (scan (spec_open sp) s) as [b r|e k] eqn:Hs.
    + apply scan_Found_length in Hs; [|done].
      destruct (run sp r (Some (fresh_active sp))) as [p1 o1] eqn:Hr.
      intros [= <- _]. eapply IH; [done|done|by eapply wf_fresh|done].
    + intros [= <- _]. split; [done|]. split; [by split_and!|].
      simpl. by eapply scan_keep_settled.
Qed.

Lemma run_nothing s a :
  wf_active sp a → settled s a → run sp s a = (state sp s a, chunk_default).
Proof.
  intros Hwf Hs. rewrite run_turn by done. destruct a as [a|]; simpl in Hs; rewrite Hs; [|done].
  unfold add_content. rewrite app_nil_r. by destruct a.
Qed.

Definition inline_inv (p : InlineHiddenTagParser T) : Prop :=
  single_inv sp p ∧ settled (pending p) (active p).

Lemma inline_inv_state s a : wf_active sp a → settled s a → inline_inv (state sp s a).
Proof.
  intros (? & ? & Ha) Hs. split; [|done]. split_and!; [done|done|done|].
  intros a' Ha'. simpl in Ha'. by subst a.
Qed.
End settled.

#[global] Instance inline_laws {T} (sp : InlineTagSpec T) :
  StreamTextLaws (InlineHiddenTagParser T) (ExtractedInlineTag T) (inline_inv sp) id.
Proof.
  split; [done|..].
  - intros p s [Hp Hs]. simpl. rewrite (push_run sp) by done.
    destruct (run sp (pending p ++ s) (active p)) as [p' o] eqn:Hr.
    apply run_settled in Hr as (-> & ? & ?); [|by apply single_wf]. by apply inline_inv_state.
  - intros p [Hp Hs]. simpl. rewrite (push_run sp) by done. rewrite app_nil_r, run_nothing;
      [|by apply single_wf|done]. by rewrite <-single_state.
  - intros p s t [Hp Hs]. simpl. rewrite !(push_run sp p) by done. rewrite app_assoc.
    rewrite run_app by (by apply single_wf).
    destruct (run sp (pending p ++ s) (active p)) as [p1 o1] eqn:Hr. simpl.
    apply run_settled in Hr as (Hp1 & Hwf & Hset); [|by apply single_wf].
    assert (Hi : inline_inv sp p1) by (rewrite Hp1; by apply inline_inv_state).
    rewrite (push_run sp p1) by apply Hi.
    by destruct (run sp (pending p1 ++ t) (active p1)) as [p2 o2].
Qed.

Definition citation_inv (p : CitationStreamParser) : Prop := inline_inv citation_spec (inner p).

#[global] Instance citation_laws : StreamTextLaws CitationStreamParser str citation_inv id.
Proof.
  split; [done|..].
  - intros p s Hp. assert (H := push_inv (inner p) s Hp). simpl in *.
    by destruct (inline_push_str (inner p) s).
  - intros p Hp. assert (H := push_nil (inner p) Hp). simpl in *. rewrite H. by destruct p.
  - intros p s t Hp. assert (H := push_app (inner p) s t Hp). simpl in *.
    destruct (inline_push_str (inner p) (s ++ t)), (inline_push_str (inner p) s) as [p1 o1]. simpl in *.
    destruct (inline_push_str p1 t) as [p2 o2]. simpl in *. destruct H as (-> & Hv & Hx).
    split_and!; [done|done|]. unfold id in *. by rewrite Hx, map_app.
Qed.

Lemma citation_new_inv : citation_inv citation_new.
Proof.
  split; [|done]. split_and!; [done|done|done|]. done.
Qed.

(** The assertions of the constructor hold. *)
Lemma citation_new_ok : inline_new [citation_spec] = Ok (inner citation_new).
Proof. done. Qed.

(** ** Specification of citations *)

Definition occurs (needle s : str) : Prop := ∃ u v, s = u ++ needle ++ v.

(** [cites text visible citations]: the text is cut at the first opening tag,
    its citation ends at the first closing tag after it, or with the text. *)
Inductive cites : str → str → list str → Prop :=
| cites_none s : ¬ occurs CITATION_OPEN s → cites s s []
| cites_open a b :
    find CITATION_OPEN (a ++ CITATION_OPEN ++ b) = Some (length a) →
    ¬ occurs CITATION_CLOSE b → cites (a ++ CITATION_OPEN ++ b) a [b]
| cites_closed a b c visible citations :
    find CITATION_OPEN (a ++ CITATION_OPEN ++ b ++ CITATION_CLOSE ++ c) = Some (length a) →
    find CITATION_CLOSE (b ++ CITATION_CLOSE ++ c) = Some (length b) →
    cites c visible citations →
    cites (a ++ CITATION_OPEN ++ b ++ CITATION_CLOSE ++ c) (a ++ visible) (b :: citations).

Lemma scan_Found_spec needle s b a :
  scan needle s = Found b a → s = b ++ needle ++ a ∧ find needle s = Some (length b).
Proof.
  unfold scan. destruct (find needle s) as [i|] eqn:Hi; [|done]. intros [= <- <-].
  apply find_Some_iff in Hi as ([t Ht] & Hle & _). rewrite length_take, Nat.min_l by lia.
  split; [|done]. rewrite <-drop_drop, Ht, drop_app_length, <-Ht. by rewrite take_drop.
Qed.

Lemma scan_Partial_no needle s e k : scan needle s = Partial e k → ¬ occurs needle s.
Proof.
  unfold scan. destruct (find needle s) eqn:Hi; [done|]. intros _ (u & v & ->).
  apply (find_None _ _ Hi (length u)); [rewrite length_app; lia|].
  rewrite drop_app_length. by eexists.
Qed.

(** The whole output of a run that is then finished. *)
Definition total_output (s : str) (a : option (ActiveTag CitationTag)) : StreamTextChunk str :=
  let (p, out) := run citation_spec s a in
  citation_chunk (chunk_app out (inline_finish p).2).

Lemma total_output_cites s :
  cites s (visible_text (total_output s None)) (extracted (total_output s None)).
Proof.
  remember (length s) as n eqn:Hn. revert s Hn. induction (lt_wf n) as [n _ IH]. intros s ->.
  unfold total_output. rewrite run_turn by done. simpl.
  destruct (scan CITATION_OPEN s) as [a r|e k] eqn:Hs.
  2:{ simpl. rewrite <-(scan_Partial_split _ _ _ _ Hs). apply cites_none. by eapply scan_Partial_no. }
  destruct (scan_Found_spec _ _ _ _ Hs) as [-> Hfind]. apply scan_Found_length in Hs as Hlen; [|done].
  rewrite (run_turn citation_spec r) by done. simpl.
  destruct (scan CITATION_CLOSE r) as [b c|e k] eqn:Hr.
  - destruct (scan_Found_spec _ _ _ _ Hr) as [-> Hfind'].
    apply scan_Found_length in Hr as Hlen'; [|done].
    assert (Hc := IH (length c) ltac:(lia) c eq_refl). unfold total_output in Hc.
    destruct (run citation_spec c None) as [p o]. simpl in *.
    rewrite <-app_assoc. by apply cites_closed.
  - simpl. rewrite !app_nil_r, <-(scan_Partial_split _ _ _ _ Hr). apply cites_open; [done|].
    by eapply scan_Partial_no.
Qed.

Lemma strip_citations_output text :
  strip_citations text =
  (visible_text (total_output text None), extracted (total_output text None)).
Proof.
  unfold strip_citations, total_output. simpl.
  rewrite (push_run citation_spec (inner citation_new)) by apply citation_new_inv. simpl.
  destruct (run citation_spec text None) as [p o]. simpl.
  destruct (inline_finish p) as [p' o']. simpl. by rewrite map_app.
Qed.

(** Stripping citations from a text gives what the specification of
    citations says: the visible text is the text outside of the tags, in
    order, and the citations are the contents of the tags, the last of which
    may be closed by the end of the text. *)
Theorem strip_citations_correct text :
  cites text (strip_citations text).1 (strip_citations text).2.
Proof. rewrite strip_citations_output. apply total_output_cites. Qed.

(** Streaming does not change the result: however the text is cut into
    chunks, the visible text and the citations that the streaming parser
    collects are those of the whole text. *)
Theorem citations_chunk_independent chunks :
  let out := collect_chunks citation_new chunks in
  (visible_text out, extracted out) = strip_citations (concat chunks).
Proof.
  destruct (collect_chunks_concat citation_new chunks citation_new_inv) as [Hv Hx].
  cbv zeta. rewrite Hv. unfold id in Hx. rewrite Hx. unfold collect_chunks, strip_citations. simpl.
  destruct (inline_push_str _ (concat chunks)) as [p o]. simpl.
  destruct (inline_finish p) as [p' o']. simpl. by rewrite !app_nil_r.
Qed.
