(* ===== verification/TaggedLine.v ===== *)
(** * Tag blocks on lines of their own: [utils/stream-parser/src/{tagged_line_parser,proposed_plan}.rs]

    [TaggedLineParser] splits a stream of text into normal text and blocks
    between an opening and a closing line; [ProposedPlanParser] is its
    instance for plans. *)
From S2P Require Import Prelude RustStr StreamText.

Record TagSpec (T : Type) : Type := { tag_open : str; tag_close : str; tag : T }.
Arguments Build_TagSpec {T} _ _ _.
Arguments tag_open {T} _.
Arguments tag_close {T} _.
Arguments tag {T} _.

Inductive TaggedLineSegment (T : Type) : Type :=
| Normal (text : str)
| TagStart (t : T)
| TagDelta (t : T) (text : str)
| TagEnd (t : T).
Arguments Normal {T} _.
Arguments TagStart {T} _.
Arguments TagDelta {T} _ _.
Arguments TagEnd {T} _.

Record TaggedLineParser (T : Type) : Type := {
  tl_specs : list (TagSpec T);
  active_tag : option T;
  detect_tag : bool;
  line_buffer : str
}.
Arguments Build_TaggedLineParser {T} _ _ _ _.
Arguments tl_specs {T} _.
Arguments active_tag {T} _.
Arguments detect_tag {T} _.
Arguments line_buffer {T} _.

Section tagged.
Context {T : Type} `{!EqDecision T}.
Implicit Types (p : TaggedLineParser T) (segments : list (TaggedLineSegment T)).

(** [push_segment]: text is joined to text of the same kind before it. *)
Definition push_segment segments (segment : TaggedLineSegment T)
    : list (TaggedLineSegment T) :=
  match segment with
  | Normal delta =>
      match delta with
      | [] => segments
      | _ => match last segments with
             | Some (Normal existing) =>
                 update_last (λ _, Normal (existing ++ delta)) segments
             | _ => segments ++ [Normal delta]
             end
      end
  | TagDelta t delta =>
      match delta with
      | [] => segments
      | _ => match last segments with
             | Some (TagDelta existing_tag existing) =>
                 if decide (existing_tag = t)
                 then update_last (λ _, TagDelta existing_tag (existing ++ delta)) segments
                 else segments ++ [TagDelta t delta]
             | _ => segments ++ [TagDelta t delta]
             end
      end
  | TagStart t => segments ++ [TagStart t]
  | TagEnd t => segments ++ [TagEnd t]
  end.

Definition text_segment (a : option T) (text : str) : TaggedLineSegment T :=
  match a with
  | Some t => TagDelta t text
  | None => Normal text
  end.

Definition push_text p (text : str) segments : list (TaggedLineSegment T) :=
  push_segment segments (text_segment (active_tag p) text).

Definition is_tag_prefix p (slug : str) : bool :=
  let slug := trim_end slug in
  existsb (λ spec, starts_with slug (tag_open spec) || starts_with slug (tag_close spec))
    (tl_specs p).

Definition find_spec (f : TagSpec T → str) p (slug : str) : option T :=
  tag <$> List.find (λ spec, bool_decide (f spec = slug)) (tl_specs p).
Definition match_open p (slug : str) : option T := find_spec tag_open p slug.
Definition match_close p (slug : str) : option T := find_spec tag_close p slug.

Definition set_line p (a : option T) (detect : bool) (buffer : str) : TaggedLineParser T :=
  {| tl_specs := tl_specs p; active_tag := a; detect_tag := detect; line_buffer := buffer |}.

Definition line_slug (line : str) : str :=
  trim_end (trim_start (default line (strip_suffix [c_nl] line))).

(** What a complete line is: the segment it gives and the tag after it. *)
Definition classify_line p (line : str) : TaggedLineSegment T * option T :=
  let slug := line_slug line in
  match match_open p slug, active_tag p with
  | Some t, None => (TagStart t, Some t)
  | _, _ =>
      match match_close p slug with
      | Some t => if decide (active_tag p = Some t) then (TagEnd t, None)
                  else (text_segment (active_tag p) line, active_tag p)
      | None => (text_segment (active_tag p) line, active_tag p)
      end
  end.

Definition finish_line p segments : TaggedLineParser T * list (TaggedLineSegment T) :=
  let (segment, a) := classify_line p (line_buffer p) in
  (set_line p a true [], push_segment segments segment).

(** One turn of the loop over the characters of [parse]. *)
Definition parse_char (st : TaggedLineParser T * str * list (TaggedLineSegment T)) (ch : char)
    : TaggedLineParser T * str * list (TaggedLineSegment T) :=
  let '(p, run, segments) := st in
  if detect_tag p then
    let segments := match run with [] => segments | _ => push_text p run segments end in
    let p := set_line p (active_tag p) true (line_buffer p ++ [ch]) in
    if decide (ch = c_nl) then
      let (p, segments) := finish_line p segments in (p, [], segments)
    else
      let slug := trim_start (line_buffer p) in
      if bool_decide (slug = []) || is_tag_prefix p slug then (p, [], segments)
      else
        (set_line p (active_tag p) false [], [], push_text p (line_buffer p) segments)
  else
    let run := run ++ [ch] in
    if decide (ch = c_nl) then
      (set_line p (active_tag p) true (line_buffer p), [], push_text p run segments)
    else (p, run, segments).

Definition parse_delta p (delta : str) : TaggedLineParser T * list (TaggedLineSegment T) :=
  let '(p, run, segments) := foldl parse_char (p, [], []) delta in
  (p, match run with [] => segments | _ => push_text p run segments end).

Definition tagged_finish p : TaggedLineParser T * list (TaggedLineSegment T) :=
  let (p, segments) :=
    match line_buffer p with
    | [] => (p, [])
    | buffered =>
        let (segment, a) := classify_line p buffered in
        (set_line p a (detect_tag p) [], push_segment [] segment)
    end in
  let segments := match active_tag p with
                  | Some t => push_segment segments (TagEnd t)
                  | None => segments
                  end in
  (set_line p None true (line_buffer p), segments).
End tagged.

Definition tagged_new {T} (specs : list (TagSpec T)) : TaggedLineParser T :=
  {| tl_specs := specs; active_tag := None; detect_tag := true; line_buffer := [] |}.

(** ** [proposed_plan.rs] *)

Inductive PlanTag : Type := ProposedPlan.
#[global] Instance PlanTag_eq_dec : EqDecision PlanTag.
Proof. solve_decision. Defined.

Definition OPEN_TAG : str := lit "<proposed_plan>".
Definition CLOSE_TAG : str := lit "</proposed_plan>".
Arguments OPEN_TAG : simpl never.
Arguments CLOSE_TAG : simpl never.

Inductive ProposedPlanSegment : Type :=
| PlanNormal (text : str)
| ProposedPlanStart
| ProposedPlanDelta (text : str)
| ProposedPlanEnd.

Record ProposedPlanParser : Type := { plan_parser : TaggedLineParser PlanTag }.

Definition plan_new : ProposedPlanParser :=
  {| plan_parser := tagged_new [{| tag_open := OPEN_TAG; tag_close := CLOSE_TAG;
                                   tag := ProposedPlan |}] |}.

Definition map_segment (segment : TaggedLineSegment PlanTag) : ProposedPlanSegment :=
  match segment with
  | Normal text => PlanNormal text
  | TagStart ProposedPlan => ProposedPlanStart
  | TagDelta ProposedPlan text => ProposedPlanDelta text
  | TagEnd ProposedPlan => ProposedPlanEnd
  end.

Definition plan_visible (segment : ProposedPlanSegment) : str :=
  match segment with PlanNormal text => text | _ => [] end.

Definition map_segments (segments : list (TaggedLineSegment PlanTag))
    : StreamTextChunk ProposedPlanSegment :=
  let mapped := map map_segment segments in
  {| visible_text := concat (map plan_visible mapped); extracted := mapped |}.

#[global] Instance plan_stream : StreamTextParser ProposedPlanParser ProposedPlanSegment := {
  push_str p chunk :=
    let (i, segments) := parse_delta (plan_parser p) chunk in
    ({| plan_parser := i |}, map_segments segments);
  stream_finish p :=
    let (i, segments) := tagged_finish (plan_parser p) in
    ({| plan_parser := i |}, map_segments segments)
}.

Definition strip_proposed_plan_blocks (text : str) : str :=
  let (p, out) := push_str plan_new text in
  visible_text out ++ visible_text (stream_finish p).2.

Definition plan_text_step (acc : str * bool) (segment : ProposedPlanSegment) : str * bool :=
  match segment with
  | ProposedPlanStart => ([], true)
  | ProposedPlanDelta delta => (acc.1 ++ delta, acc.2)
  | ProposedPlanEnd | PlanNormal _ => acc
  end.

Definition extract_proposed_plan_text (text : str) : option str :=
  let (p, out) := push_str plan_new text in
  let (plan_text, saw_plan_block) :=
    foldl plan_text_step ([], false) (extracted out ++ extracted (stream_finish p).2) in
  if (saw_plan_block : bool) then Some plan_text else None.

(** ** Normal forms of segments *)

Section normal.
Context {T : Type} `{!EqDecision T}.
Implicit Types (l k segments : list (TaggedLineSegment T)) (x : TaggedLineSegment T).

(** Joining neighbouring texts of the same kind. *)
Definition normal l : list (TaggedLineSegment T) := foldl push_segment [] l.

Lemma push_segment_nil segments (a : option T) : push_segment segments (text_segment a []) = segments.
Proof. by destruct a. Qed.

(** Where a text goes does not depend on the text. *)
Lemma push_text_shape segments (a : option T) :
  ∃ front existing, ∀ s, s ≠ [] →
    push_segment segments (text_segment a s) = front ++ [text_segment a (existing ++ s)].
Proof.
  destruct a as [u|]; simpl.
  - destruct (last segments) as [[x|v|v x|v]|] eqn:Hl; try (exists segments, []; by intros [|c s]).
    destruct (decide (v = u)) as [->|]; [|exists segments, []; by intros [|c s]].
    apply last_Some in Hl as [front ->]. exists front, x. intros [|c s] Hs; [done|].
    by rewrite update_last_snoc.
  - destruct (last segments) as [[x|v|v x|v]|] eqn:Hl; try (exists segments, []; by intros [|c s]).
    apply last_Some in Hl as [front ->]. exists front, x. intros [|c s] Hs; [done|].
    by rewrite update_last_snoc.
Qed.

Lemma push_text_last front (a : option T) s t :
  push_segment (front ++ [text_segment a s]) (text_segment a t) =
  front ++ [text_segment a (s ++ t)].
Proof.
  destruct t as [|c t]; [by rewrite push_segment_nil, app_nil_r|].
  destruct a as [u|]; simpl; rewrite last_snoc; [rewrite decide_True by done|];
    by rewrite update_last_snoc.
Qed.

Lemma push_segment_merge segments (a : option T) s t :
  push_segment (push_segment segments (text_segment a s)) (text_segment a t) =
  push_segment segments (text_segment a (s ++ t)).
Proof.
  destruct s as [|c s]; [by rewrite push_segment_nil|].
  destruct (push_text_shape segments a) as (front & e & Hshape).
  rewrite !Hshape, push_text_last by done. by rewrite <-app_assoc.
Qed.

(** Pushing a normal form is pushing what it is the normal form of. *)
Lemma foldl_push_push segments l x :
  foldl push_segment segments (push_segment l x) = push_segment (foldl push_segment segments l) x.
Proof.
  assert (Hsnoc : ∀ y, foldl push_segment segments (l ++ [y]) =
    push_segment (foldl push_segment segments l) y) by (intros; by rewrite foldl_app).
  assert (Htext : ∀ a t, foldl push_segment segments (push_segment l (text_segment a t)) =
    push_segment (foldl push_segment segments l) (text_segment a t)).
  { intros a t. destruct t as [|c t]; [by rewrite !push_segment_nil|].
    destruct l as [|y l _] using rev_ind.
    { destruct a; simpl; done. }
    assert (Hcase : (∃ s, y = text_segment a s) ∨
      push_segment (l ++ [y]) (text_segment a (c :: t)) = (l ++ [y]) ++ [text_segment a (c :: t)]).
    { destruct a as [u|]; simpl; rewrite last_snoc; destruct y as [s|v|v s|v]; eauto.
      case_decide; subst; eauto. }
    destruct Hcase as [[s ->]| ->]; [|by apply Hsnoc].
    by rewrite push_text_last, !foldl_app; simpl; rewrite push_segment_merge. }
  destruct x as [t|u|u t|u].
  - apply (Htext None).
  - apply Hsnoc.
  - apply (Htext (Some u)).
  - apply Hsnoc.
Qed.

Lemma foldl_push_normal segments l :
  foldl push_segment segments (normal l) = foldl push_segment segments l.
Proof.
  unfold normal. induction l as [|x l IH] using rev_ind; [done|].
  rewrite !foldl_app. simpl. by rewrite foldl_push_push, IH.
Qed.

Lemma normal_normal_app l k : normal (normal l ++ normal k) = normal (l ++ k).
Proof. unfold normal at 1. rewrite foldl_app, !foldl_push_normal, <-foldl_app. done. Qed.
End normal.

(** ** The parser, one character at a time *)

Section emits.
Context {T : Type} `{!EqDecision T}.
Implicit Types (p : TaggedLineParser T).

(** What a character does, without joining texts. *)
Definition emit p (ch : char) : TaggedLineParser T * list (TaggedLineSegment T) :=
  if detect_tag p then
    let p := set_line p (active_tag p) true (line_buffer p ++ [ch]) in
    if decide (ch = c_nl) then
      let (segment, a) := classify_line p (line_buffer p) in (set_line p a true [], [segment])
    else
      let slug := trim_start (line_buffer p) in
      if bool_decide (slug = []) || is_tag_prefix p slug then (p, [])
      else (set_line p (active_tag p) false [], [text_segment (active_tag p) (line_buffer p)])
  else
    (if decide (ch = c_nl) then set_line p (active_tag p) true (line_buffer p) else p,
     [text_segment (active_tag p) [ch]]).

Fixpoint emits p (s : str) : TaggedLineParser T * list (TaggedLineSegment T) :=
  match s with
  | [] => (p, [])
  | ch :: s' =>
      let (p1, e1) := emit p ch in
      let (p2, e2) := emits p1 s' in (p2, e1 ++ e2)
  end.

Lemma emits_app p s t :
  emits p (s ++ t) =
  ((emits (emits p s).1 t).1, (emits p s).2 ++ (emits (emits p s).1 t).2).
Proof.
  revert p; induction s as [|c s IH]; intros p; simpl; [by destruct (emits p t)|].
  destruct (emit p c) as [p1 e1]. rewrite IH. destruct (emits p1 s) as [p2 e2]. simpl.
  by rewrite <-app_assoc.
Qed.

(** The segments of the loop with the pending run joined to them. *)
Definition flushed (st : TaggedLineParser T * str * list (TaggedLineSegment T)) :=
  push_segment st.2 (text_segment (active_tag st.1.1) st.1.2).

Lemma parse_char_emit st ch :
  (parse_char st ch).1.1 = (emit st.1.1 ch).1 ∧
  flushed (parse_char st ch) = foldl push_segment (flushed st) (emit st.1.1 ch).2.
Proof.
  destruct st as [[p run] segments]. unfold parse_char, emit, flushed, push_text. simpl.
  assert (Hrun : match run with [] => segments | _ => push_segment segments
    (text_segment (active_tag p) run) end = push_segment segments (text_segment (active_tag p) run))
    by (destruct run; [by rewrite push_segment_nil|done]).
  destruct (detect_tag p); [rewrite Hrun|]; case_decide as Hnl; simpl.
  - unfold finish_line. simpl. destruct (classify_line _ _) as [x a]. simpl.
    by rewrite push_segment_nil.
  - destruct (_ || _); simpl; by rewrite push_segment_nil.
  - by rewrite push_segment_nil, push_segment_merge.
  - by rewrite push_segment_merge.
Qed.

Lemma parse_delta_emits p s : parse_delta p s = ((emits p s).1, normal (emits p s).2).
Proof.
  assert (H : ∀ st, (foldl parse_char st s).1.1 = (emits st.1.1 s).1 ∧
    flushed (foldl parse_char st s) = foldl push_segment (flushed st) (emits st.1.1 s).2).
  { induction s as [|c s IH]; intros st; simpl; [done|].
    destruct (parse_char_emit st c) as [H1 H2]. destruct (IH (parse_char st c)) as [-> ->].
    rewrite H1, H2. destruct (emit st.1.1 c) as [p1 e1]. simpl.
    destruct (emits p1 s) as [p2 e2]. simpl. by rewrite foldl_app. }
  destruct (H (p, [], [])) as [Hp Hf]. unfold parse_delta.
  destruct (foldl parse_char (p, [], []) s) as [[p' run] segments].
  unfold flushed in Hf. simpl in *. rewrite push_segment_nil in Hf.
  rewrite <-Hp. f_equal. unfold normal. rewrite <-Hf. unfold push_text.
  destruct run; [by rewrite push_segment_nil|done].
Qed.

Lemma parse_delta_app p s t :
  (parse_delta p (s ++ t)).1 = (parse_delta (parse_delta p s).1 t).1 ∧
  (parse_delta p (s ++ t)).2 =
    normal ((parse_delta p s).2 ++ (parse_delta (parse_delta p s).1 t).2).
Proof.
  rewrite !parse_delta_emits. simpl. rewrite emits_app. simpl. by rewrite normal_normal_app.
Qed.

Lemma parse_delta_normal p s : normal (parse_delta p s).2 = (parse_delta p s).2.
Proof. rewrite parse_delta_emits. simpl. unfold normal at 1. by rewrite foldl_push_normal. Qed.
End emits.

(** ** Plans: the laws of a streaming parser *)

Definition unmap_segment (segment : ProposedPlanSegment) : TaggedLineSegment PlanTag :=
  match segment with
  | PlanNormal text => Normal text
  | ProposedPlanStart => TagStart ProposedPlan
  | ProposedPlanDelta text => TagDelta ProposedPlan text
  | ProposedPlanEnd => TagEnd ProposedPlan
  end.

Definition plan_normal (l : list ProposedPlanSegment) : list ProposedPlanSegment :=
  map map_segment (normal (map unmap_segment l)).

Lemma unmap_map l : map unmap_segment (map map_segment l) = l.
Proof.
  rewrite map_map. rewrite <-(map_id l) at 2. apply map_ext.
  by intros [|[]|[]|[]].
Qed.

Definition seg_visible (l : list (TaggedLineSegment PlanTag)) : str :=
  visible_text (map_segments l).

Lemma seg_visible_app l k : seg_visible (l ++ k) = seg_visible l ++ seg_visible k.
Proof. unfold seg_visible. simpl. by rewrite !map_app, concat_app. Qed.

Lemma seg_visible_push l x : seg_visible (push_segment l x) = seg_visible l ++ seg_visible [x].
Proof.
  destruct x as [t|[]|u t|[]]; cbn [push_segment].
  - destruct t as [|c t]; [unfold seg_visible; simpl; by rewrite app_nil_r|].
    destruct (last l) as [[s|v|v s|v]|] eqn:Hl; try apply seg_visible_app.
    apply last_Some in Hl as [front ->]. rewrite update_last_snoc, !seg_visible_app, <-app_assoc.
    f_equal. unfold seg_visible. simpl. by rewrite !app_nil_r.
  - apply seg_visible_app.
  - destruct t as [|c t]; [unfold seg_visible; simpl; by destruct u; rewrite app_nil_r|].
    destruct (last l) as [[s|v|v s|v]|] eqn:Hl; try apply seg_visible_app.
    case_decide; [|apply seg_visible_app].
    apply last_Some in Hl as [front ->]. rewrite update_last_snoc, !seg_visible_app, <-app_assoc.
    f_equal. unfold seg_visible. simpl. by destruct u, v.
  - apply seg_visible_app.
Qed.

Lemma seg_visible_normal l : seg_visible (normal l) = seg_visible l.
Proof.
  unfold normal. induction l as [|x l IH] using rev_ind; [done|].
  rewrite foldl_app. simpl. by rewrite seg_visible_push, seg_visible_app, IH.
Qed.

#[global] Instance plan_laws :
  StreamTextLaws ProposedPlanParser ProposedPlanSegment (λ _, True) plan_normal.
Proof.
  split; [|done|..].
  - intros l k. unfold plan_normal. by rewrite !map_app, !unmap_map, normal_normal_app.
  - intros [p] _. done.
  - intros [p] s t _. simpl. destruct (parse_delta_app p s t) as [H1 H2].
    assert (Hv := seg_visible_normal). unfold seg_visible in Hv. simpl in Hv.
    destruct (parse_delta p (s ++ t)) as [p' l], (parse_delta p s) as [p1 l1]. simpl in *.
    destruct (parse_delta p1 t) as [p2 l2]. simpl in *. subst p' l. split_and!; [done| |].
    + by rewrite Hv, !map_app, concat_app.
    + unfold plan_normal. rewrite <-!map_app, !unmap_map.
      unfold normal at 1. by rewrite foldl_push_normal.
Qed.

(** ** Specification by lines *)

Section blocks.
Context {T : Type} `{!EqDecision T}.
Context (ss : list (TagSpec T)).

Definition spec_with (f : TagSpec T → str) (slug : str) : option T :=
  tag <$> List.find (λ spec, bool_decide (f spec = slug)) ss.

(** What a line is, by its trimmed text: outside of a block an opening line
    starts one, inside of a block its closing line ends it, and every other
    line is text. *)
Definition spec_line (a : option T) (line term : str) : TaggedLineSegment T * option T :=
  match a with
  | None =>
      match spec_with tag_open (trim line) with
      | Some t => (TagStart t, Some t)
      | None => (Normal (line ++ term), None)
      end
  | Some t =>
      if decide (spec_with tag_close (trim line) = Some t) then (TagEnd t, None)
      else (TagDelta t (line ++ term), Some t)
  end.

(** All lines but the last are ended by a newline; a block that is open at
    the end is closed. *)
Fixpoint blocks (a : option T) (lines : list str) : list (TaggedLineSegment T) :=
  match lines with
  | [] => match a with Some t => [TagEnd t] | None => [] end
  | [tail] =>
      match tail with
      | [] => match a with Some t => [TagEnd t] | None => [] end
      | _ => let (x, a') := spec_line a tail [] in
             x :: match a' with Some t => [TagEnd t] | None => [] end
      end
  | line :: lines' => let (x, a') := spec_line a line [c_nl] in x :: blocks a' lines'
  end.
End blocks.

Section lines.
Context {T : Type} `{!EqDecision T}.
Implicit Types (p : TaggedLineParser T).

(** A line that has been seen not to start like a tag is no tag line. *)
Lemma not_prefix_no_match p q x f :
  (f = tag_open ∨ f = tag_close) →
  trim_start q ≠ [] → is_tag_prefix p (trim_start q) = false →
  spec_with (tl_specs p) f (trim (q ++ x)) = None.
Proof.
  intros Hf Hq Hpre. unfold spec_with.
  destruct (List.find _ (tl_specs p)) as [sp|] eqn:Hfind; [|done]. exfalso.
  apply find_some in Hfind as [Hin Heq%bool_decide_eq_true].
  apply not_true_iff_false in Hpre. apply Hpre. clear Hpre.
  unfold is_tag_prefix. apply existsb_exists. exists sp. split; [done|]. apply orb_true_iff.
  assert (Hp : starts_with (trim_end (trim_start q)) (f sp) = true).
  { apply starts_with_spec. rewrite Heq, <-trim_comm.
    assert (Hstart : trim_start (q ++ x) = trim_start q ++ x).
    { unfold trim_start in *. clear -Hq. induction q as [|c q IH]; simpl in *; [done|].
      destruct (is_whitespace c); [by apply IH|done]. }
    rewrite Hstart. generalize (trim_start q). intros s. unfold trim_end.
    destruct (trim_end_matches_decomp is_whitespace (s ++ x)) as (w & Hw & Hall).
    destruct (trim_end_matches_prefix is_whitespace s) as [w' Hw'].
    destruct (decide (length s ≤ length (trim_end_matches is_whitespace (s ++ x)))) as [Hle|Hgt].
    - etrans; [by exists w'|]. exists (drop (length s) (trim_end_matches is_whitespace (s ++ x))).
      rewrite <-(take_drop (length s) (trim_end_matches _ _)) at 1. f_equal.
      apply (f_equal (take (length s))) in Hw. rewrite take_app_length, take_app_le in Hw by done.
      done.
    - assert (Hs : s = trim_end_matches is_whitespace (s ++ x) ++ take (length s
          - length (trim_end_matches is_whitespace (s ++ x))) w).
      { apply (f_equal (take (length s))) in Hw. rewrite take_app_length, take_app_ge in Hw by lia.
        done. }
      rewrite Hs at 1. rewrite trim_end_matches_app_all by (by apply Forall_take).
      by rewrite trim_end_matches_idemp. }
  destruct Hf as [-> | ->]; auto.
Qed.

(** Text that is known to be no tag. *)
Lemma emits_text p a s acc :
  c_nl ∉ s →
  (emits (set_line p a false []) s).1 = set_line p a false [] ∧
  foldl push_segment acc (emits (set_line p a false []) s).2 =
    push_segment acc (text_segment a s).
Proof.
  revert acc; induction s as [|c s IH]; intros acc Hs; [by rewrite push_segment_nil|].
  apply not_elem_of_cons in Hs as [Hc Hs]. simpl. unfold emit. simpl.
  rewrite decide_False by done. destruct (IH (push_segment acc (text_segment a [c])) Hs) as [H1 H2].
  destruct (emits (set_line p a false []) s) as [p' e]. simpl in *. split; [done|].
  by rewrite H2, push_segment_merge.
Qed.

Lemma emit_detect p a b c :
  c_nl ≠ c →
  emit (set_line p a true b) c =
  if bool_decide (trim_start (b ++ [c]) = []) || is_tag_prefix p (trim_start (b ++ [c]))
  then (set_line p a true (b ++ [c]), [])
  else (set_line p a false [], [text_segment a (b ++ [c])]).
Proof. intros Hc. unfold emit. simpl. by rewrite decide_False. Qed.

(** A line up to its newline: it is still buffered, or it is text and
    cannot become a tag line. *)
Lemma emits_line p a b s :
  c_nl ∉ s →
  emits (set_line p a true b) s = (set_line p a true (b ++ s), []) ∨
  ((emits (set_line p a true b) s).1 = set_line p a false [] ∧
   (∀ acc, foldl push_segment acc (emits (set_line p a true b) s).2 =
      push_segment acc (text_segment a (b ++ s))) ∧
   ∀ x f, (f = tag_open ∨ f = tag_close) → spec_with (tl_specs p) f (trim ((b ++ s) ++ x)) = None).
Proof.
  revert b; induction s as [|c s IH]; intros b Hs; [left; by rewrite app_nil_r|].
  apply not_elem_of_cons in Hs as [Hc Hs]. simpl. rewrite emit_detect by done.
  destruct (bool_decide (trim_start (b ++ [c]) = []) || is_tag_prefix p (trim_start (b ++ [c])))
    eqn:Hd.
  - specialize (IH (b ++ [c]) Hs). rewrite <-app_assoc in IH. simpl in IH.
    destruct (emits (set_line p a true (b ++ [c])) s) as [p' e]. exact IH.
  - right.
    assert (H := emits_text p a s). destruct (emits (set_line p a false []) s) as [p' e].
    simpl in *. split_and!; [by destruct (H [] Hs)|..].
    + intros acc. destruct (H (push_segment acc (text_segment a (b ++ [c]))) Hs) as [_ ->].
      rewrite push_segment_merge. by rewrite <-app_assoc.
    + intros x f Hf. apply orb_false_iff in Hd as [Hne%bool_decide_eq_false Hpre].
      rewrite <-(app_assoc b). simpl. rewrite (cons_middle c b), (app_assoc b [c]).
      by apply not_prefix_no_match.
Qed.

Lemma classify_spec p a line term :
  c_nl ∉ line → term = [c_nl] ∨ term = [] →
  classify_line (set_line p a true (line ++ term)) (line ++ term) = spec_line (tl_specs p) a line term.
Proof.
  intros Hnl Hterm. unfold classify_line, spec_line, line_slug.
  assert (default (line ++ term) (strip_suffix [c_nl] (line ++ term)) = line) as ->.
  { destruct Hterm as [-> | ->].
    - by rewrite (proj2 (strip_suffix_Some _ _ _) eq_refl).
    - rewrite app_nil_r. destruct (strip_suffix [c_nl] line) as [l|] eqn:Hs; [|done].
      apply strip_suffix_Some in Hs as ->. set_solver. }
  rewrite trim_comm. unfold match_open, match_close, find_spec, spec_with. cbn [tl_specs set_line active_tag].
  destruct a as [t|].
  - destruct (tag <$> List.find (λ spec, bool_decide (tag_open spec = trim line)) (tl_specs p));
      destruct (tag <$> List.find (λ spec, bool_decide (tag_close spec = trim line)) (tl_specs p)) as [u|];
      try done; repeat case_decide; simplify_eq; congruence || done.
  - destruct (tag <$> List.find (λ spec, bool_decide (tag_open spec = trim line)) (tl_specs p)); [done|].
    by destruct (tag <$> List.find (λ spec, bool_decide (tag_close spec = trim line)) (tl_specs p)).
Qed.

(** A line that is text is text for the specification. *)
Lemma spec_line_text p a line term :
  (∀ f, (f = tag_open ∨ f = tag_close) → spec_with (tl_specs p) f (trim line) = None) →
  spec_line (tl_specs p) a line term = (text_segment a (line ++ term), a).
Proof.
  intros H. unfold spec_line. rewrite !H by auto. destruct a as [t|]; [|done].
  by rewrite decide_False.
Qed.
End lines.

Section text.
Context {T : Type} `{!EqDecision T}.
Implicit Types (p : TaggedLineParser T).

Lemma full_line p a l :
  c_nl ∉ l →
  (emits (set_line p a true []) (l ++ [c_nl])).1 =
    set_line p (spec_line (tl_specs p) a l [c_nl]).2 true [] ∧
  ∀ acc, foldl push_segment acc (emits (set_line p a true []) (l ++ [c_nl])).2 =
    push_segment acc (spec_line (tl_specs p) a l [c_nl]).1.
Proof.
  intros Hl. rewrite emits_app.
  destruct (emits_line p a [] l Hl) as [-> | (Hs & Htext & Hno)]; simpl.
  - unfold emit. cbn [detect_tag set_line]. rewrite decide_True by done. cbn [active_tag line_buffer].
    change (set_line (set_line p a true l) a true (l ++ [c_nl])) with (set_line p a true (l ++ [c_nl])).
    rewrite classify_spec by auto. by destruct (spec_line _ _ _ _).
  - rewrite Hs. unfold emit. cbn [detect_tag set_line]. rewrite decide_True by done. simpl.
    rewrite spec_line_text by (intros f Hf; specialize (Hno [] f Hf); by rewrite app_nil_r in Hno).
    split; [done|]. intros acc. rewrite foldl_app, Htext. simpl. by rewrite push_segment_merge.
Qed.

Definition close_open (a : option T) : list (TaggedLineSegment T) :=
  match a with Some t => [TagEnd t] | None => [] end.

Lemma foldl_close acc (l : list (TaggedLineSegment T)) a :
  foldl push_segment acc (match a with Some t => push_segment l (TagEnd t) | None => l end) =
  foldl push_segment (foldl push_segment acc l) (close_open a).
Proof. destruct a; simpl; [|done]. by rewrite foldl_app. Qed.

Lemma last_line p a tail acc :
  c_nl ∉ tail →
  foldl push_segment acc ((emits (set_line p a true []) tail).2
    ++ (tagged_finish (emits (set_line p a true []) tail).1).2) =
  foldl push_segment acc (blocks (tl_specs p) a [tail]).
Proof.
  intros Ht. rewrite foldl_app. simpl. destruct tail as [|c tail].
  { simpl. by destruct a. }
  destruct (emits_line p a [] (c :: tail) Ht) as [-> | (Hs & Htext & Hno)].
  - unfold tagged_finish. cbn [fst snd line_buffer set_line app].
    assert (Hcl := classify_spec p a (c :: tail) [] Ht (or_intror eq_refl)).
    rewrite app_nil_r in Hcl. rewrite Hcl. destruct (spec_line _ _ _ _) as [x a']. cbn [snd fst active_tag].
    rewrite foldl_close, foldl_push_push. by destruct a'.
  - rewrite Hs, Htext. unfold tagged_finish. cbn [fst snd line_buffer set_line active_tag].
    rewrite spec_line_text by (intros f Hf; specialize (Hno [] f Hf); by rewrite app_nil_r in Hno).
    rewrite foldl_close, app_nil_r. by destruct a.
Qed.

Lemma text_blocks p a ls acc :
  ls ≠ [] → Forall (λ l, c_nl ∉ l) ls →
  foldl push_segment acc ((emits (set_line p a true []) (join [c_nl] ls)).2
    ++ (tagged_finish (emits (set_line p a true []) (join [c_nl] ls)).1).2) =
  foldl push_segment acc (blocks (tl_specs p) a ls).
Proof.
  revert a acc; induction ls as [|l ls IH]; intros a acc Hne Hls; [done|].
  apply Forall_cons in Hls as [Hl Hls]. destruct ls as [|l' ls]; [by apply last_line|].
  rewrite join_cons by done. rewrite app_assoc, emits_app.
  destruct (full_line p a l Hl) as [Hs Hacc]. rewrite Hs. cbn [fst snd].
  rewrite <-app_assoc, foldl_app, Hacc, IH by done.
  cbn [blocks]. by destruct (spec_line (tl_specs p) a l [c_nl]).
Qed.
End text.

Definition plan_specs : list (TagSpec PlanTag) := tl_specs (plan_parser plan_new).

Lemma plan_collect text :
  same_output plan_normal (collect_chunks plan_new [text])
    (map_segments (blocks plan_specs None (split_on c_nl text))).
Proof.
  assert (H := text_blocks (plan_parser plan_new) None (split_on c_nl text) []
    (split_on_nonempty _ _) (split_on_no_sep_inside _ _)).
  rewrite join_split_on in H. change (set_line _ None true []) with (plan_parser plan_new) in H.
  unfold collect_chunks. simpl. rewrite parse_delta_emits. simpl in *.
  destruct (emits _ text) as [p e]. simpl in *. destruct (tagged_finish p) as [p' f]. simpl in *.
  rewrite chunk_app_nil_r.
  assert (Hmap : chunk_app (map_segments (normal e)) (map_segments f) = map_segments (normal e ++ f))
    by (unfold chunk_app, map_segments; simpl; by rewrite !map_app, concat_app).
  rewrite Hmap. split.
  - change (seg_visible (normal e ++ f) = seg_visible (blocks plan_specs None (split_on c_nl text))).
    rewrite <-(seg_visible_normal (blocks _ _ _)). unfold normal at 2. unfold plan_specs. simpl.
    rewrite <-H. rewrite seg_visible_app, seg_visible_normal, <-seg_visible_app. symmetry.
    apply (seg_visible_normal (e ++ f)).
  - unfold plan_normal. simpl. rewrite !unmap_map. f_equal. unfold plan_specs. simpl.
    unfold normal. rewrite <-H, !foldl_app. f_equal. apply foldl_push_normal.
Qed.

(** However a text is cut into chunks, the plan parser collects what the
    lines of the text say: outside of a block an opening line starts one,
    inside its closing line ends it, a block still open at the end is closed,
    all other lines are normal text or plan text, and the visible text is the
    normal text. *)
Theorem plan_stream_correct chunks :
  same_output plan_normal (collect_chunks plan_new chunks)
    (map_segments (blocks plan_specs None (split_on c_nl (concat chunks)))).
Proof.
  etrans; [by apply (collect_chunks_concat plan_new chunks)|]. apply plan_collect.
Qed.

(** The plan text of a list of segments. *)
Definition plan_text_of (segments : list ProposedPlanSegment) : option str :=
  let (t, saw) := foldl plan_text_step ([], false) segments in if (saw : bool) then Some t else None.

Lemma plan_text_push l x acc :
  foldl plan_text_step acc (map map_segment (push_segment l x)) =
  plan_text_step (foldl plan_text_step acc (map map_segment l)) (map_segment x).
Proof.
  assert (Hsnoc : ∀ y, foldl plan_text_step acc (map map_segment (l ++ [y])) =
    plan_text_step (foldl plan_text_step acc (map map_segment l)) (map_segment y))
    by (intros; by rewrite map_app, foldl_app).
  destruct x as [t|u|u t|u]; cbn [push_segment].
  - destruct t as [|c t]; [done|]. destruct (last l) as [[s|v|v s|v]|] eqn:Hl; try apply Hsnoc.
    apply last_Some in Hl as [front ->]. rewrite update_last_snoc, !map_app, !foldl_app. done.
  - apply Hsnoc.
  - destruct t as [|c t].
    { destruct u. simpl. rewrite app_nil_r. by destruct (foldl _ _ _). }
    destruct (last l) as [[s|v|v s|v]|] eqn:Hl; try apply Hsnoc. case_decide; [|apply Hsnoc].
    apply last_Some in Hl as [front ->]. rewrite update_last_snoc, !map_app, !foldl_app.
    destruct u, v. simpl. by rewrite <-app_assoc.
  - apply Hsnoc.
Qed.

Lemma plan_text_normal segs : plan_text_of (plan_normal segs) = plan_text_of segs.
Proof.
  unfold plan_text_of, plan_normal, normal.
  assert (H : ∀ k, foldl plan_text_step ([], false) (map map_segment (foldl push_segment [] k)) =
    foldl plan_text_step ([], false) (map map_segment k)).
  { intros k. induction k as [|x k IH] using rev_ind; [done|].
    rewrite foldl_app. simpl. rewrite plan_text_push, IH, map_app, foldl_app. done. }
  rewrite H. replace (map map_segment (map unmap_segment segs)) with segs; [done|].
  rewrite map_map. rewrite <-(map_id segs) at 1. apply map_ext. by intros [].
Qed.

(** The two whole-text functions on plans agree with the specification by
    lines: stripping keeps the normal text of the lines, and the extracted
    plan is the text of the last block, or nothing if there is no block. *)
Theorem plan_functions_correct text :
  let segments := map map_segment (blocks plan_specs None (split_on c_nl text)) in
  strip_proposed_plan_blocks text = concat (map plan_visible segments) ∧
  extract_proposed_plan_text text = plan_text_of segments.
Proof.
  destruct (plan_collect text) as [Hv Hx]. unfold collect_chunks in *. cbv zeta.
  unfold strip_proposed_plan_blocks, extract_proposed_plan_text.
  cbn [push_all] in *. destruct (push_str plan_new text) as [p out].
  rewrite chunk_app_nil_r in *. split.
  - exact Hv.
  - change (plan_text_of (extracted (chunk_app out (stream_finish p).2)) = plan_text_of
      (extracted (map_segments (blocks plan_specs None (split_on c_nl text))))).
    rewrite <-plan_text_normal, Hx. by rewrite plan_text_normal.
Qed.
