(* ===== verification/Utf8Stream.v ===== *)
(** * Byte streams: [utils/stream-parser/src/utf8_stream.rs]

    [Utf8StreamParser] feeds a text parser from byte chunks that may cut a
    character in two.  It is generic in the inner parser, of which the
    theorems use only the laws of [StreamTextLaws]. *)
From S2P Require Import Prelude RustStr Utf8 StreamText InlineHiddenTag.

Inductive Utf8StreamParserError : Type :=
| InvalidUtf8 (valid_up_to error_len : nat)
| IncompleteUtf8AtEof.

Definition show_utf8_stream_error (e : Utf8StreamParserError) : str :=
  match e with
  | InvalidUtf8 valid_up_to error_len =>
      lit "invalid UTF-8 in streamed bytes at offset " ++ show_nat valid_up_to
      ++ lit " (error length " ++ show_nat error_len ++ lit ")"
  | IncompleteUtf8AtEof => lit "incomplete UTF-8 code point at end of stream"
  end.

Record Utf8StreamParser (P : Type) : Type := { u_inner : P; pending_utf8 : list N }.
Arguments Build_Utf8StreamParser {P} _ _.
Arguments u_inner {P} _.
Arguments pending_utf8 {P} _.

Section utf8_stream.
Context {P X : Type} `{!StreamTextParser P X}.
Implicit Types (u : Utf8StreamParser P).

Definition utf8_new (p : P) : Utf8StreamParser P := {| u_inner := p; pending_utf8 := [] |}.

Definition push_bytes (chunk : list N)
    : Eff (Utf8StreamParser P) Utf8StreamParserError (StreamTextChunk X) := λ u,
  let old_len := length (pending_utf8 u) in
  let pending := pending_utf8 u ++ chunk in
  let rolled_back := {| u_inner := u_inner u; pending_utf8 := take old_len pending |} in
  match from_utf8 pending with
  | Utf8Ok text =>
      let (p, out) := push_str (u_inner u) text in
      ({| u_inner := p; pending_utf8 := [] |}, Ok out)
  | Utf8Err valid_up_to (Some error_len) =>
      (rolled_back, Err (InvalidUtf8 valid_up_to error_len))
  | Utf8Err valid_up_to None =>
      if decide (valid_up_to = 0) then
        ({| u_inner := u_inner u; pending_utf8 := pending |}, Ok chunk_default)
      else
        match from_utf8 (take valid_up_to pending) with
        | Utf8Ok text =>
            let (p, out) := push_str (u_inner u) text in
            ({| u_inner := p; pending_utf8 := drop valid_up_to pending |}, Ok out)
        | Utf8Err v e => (rolled_back, Err (InvalidUtf8 v (default 0 e)))
        end
  end.

Definition utf8_finish
    : Eff (Utf8StreamParser P) Utf8StreamParserError (StreamTextChunk X) := λ u,
  let flush (out : StreamTextChunk X) (u : Utf8StreamParser P)
      : Utf8StreamParser P * Res Utf8StreamParserError (StreamTextChunk X) :=
    let (p, tail) := stream_finish (u_inner u) in
    ({| u_inner := p; pending_utf8 := pending_utf8 u |}, Ok (chunk_app out tail)) in
  match pending_utf8 u with
  | [] => flush chunk_default u
  | bytes =>
      match from_utf8 bytes with
      | Utf8Err v (Some error_len) => (u, Err (InvalidUtf8 v error_len))
      | Utf8Err _ None => (u, Err IncompleteUtf8AtEof)
      | Utf8Ok text =>
          let (p, out) := push_str (u_inner u) text in
          flush out {| u_inner := p; pending_utf8 := [] |}
      end
  end.

Definition into_inner u : Res Utf8StreamParserError P :=
  match pending_utf8 u with
  | [] => Ok (u_inner u)
  | bytes =>
      match from_utf8 bytes with
      | Utf8Ok _ => Ok (u_inner u)
      | Utf8Err v (Some error_len) => Err (InvalidUtf8 v error_len)
      | Utf8Err _ None => Err IncompleteUtf8AtEof
      end
  end.

Definition into_inner_lossy u : P := u_inner u.

(** A whole byte stream: all chunks, then the end. *)
Fixpoint push_all_bytes (chunks : list (list N))
    : Eff (Utf8StreamParser P) Utf8StreamParserError (StreamTextChunk X) :=
  match chunks with
  | [] => mret chunk_default
  | c :: chunks' =>
      out ← push_bytes c; outs ← push_all_bytes chunks'; mret (chunk_app out outs)
  end.
Definition collect_bytes (chunks : list (list N))
    : Eff (Utf8StreamParser P) Utf8StreamParserError (StreamTextChunk X) :=
  out ← push_all_bytes chunks; tail ← utf8_finish; mret (chunk_app out tail).
End utf8_stream.

Section proofs.
#[local] Set Default Proof Using "Type*".
Context {P X : Type} `{!StreamTextParser P X} {Inv : P → Prop} {norm : list X → list X}.
Context `{!StreamTextLaws P X Inv norm}.
Implicit Types (u : Utf8StreamParser P).

(** The buffered bytes are nothing, or the start of one character. *)
Definition undecided (bytes : list N) : Prop := bytes = [] ∨ from_utf8 bytes = Utf8Err 0 None.

(** One chunk of a valid stream: some text is decoded and pushed, and the
    rest of the chunk waits. *)
Lemma push_bytes_valid u c rest text :
  Inv (u_inner u) → Forall is_scalar text → pending_utf8 u ++ c ++ rest = encode text →
  ∃ t t' p waiting,
    text = t ++ t' ∧ Forall is_scalar t' ∧ waiting ++ rest = encode t' ∧ undecided waiting ∧
    p = (push_str (u_inner u) t).1 ∧
    push_bytes c u = ({| u_inner := p; pending_utf8 := waiting |}, Ok (push_str (u_inner u) t).2).
Proof.
  intros Hinv Htext Heq. rewrite app_assoc in Heq. unfold push_bytes.
  assert (Hs := from_utf8_sound (pending_utf8 u ++ c)).
  destruct (from_utf8 (pending_utf8 u ++ c)) as [t|v e] eqn:Hf.
  - destruct Hs as [Henc Ht]. rewrite <-Henc in Heq. symmetry in Heq.
    destruct (encode_split _ _ _ Ht Htext Heq) as (t' & -> & -> & Ht').
    exists t, t', (push_str (u_inner u) t).1, []. split_and!; try done; [by left|].
    by destruct (push_str (u_inner u) t).
  - destruct e as [k|].
    { apply (from_utf8_err_app _ rest) in Hf. rewrite Heq, from_utf8_encode in Hf by done. done. }
    destruct Hs as (t & w & Hw & <- & Ht & Hne & _). rewrite Hw in Hf, Heq.
    rewrite from_utf8_encode_app in Hf by done. rewrite <-app_assoc in Heq. symmetry in Heq.
    destruct (encode_split _ _ _ Ht Htext Heq) as (t' & -> & Hrest & Ht').
    assert (Hund : undecided w).
    { right. destruct (from_utf8 w); [done|]. injection Hf as H1 ->. f_equal. lia. }
    exists t, t', (push_str (u_inner u) t).1, w. split_and!; try done.
    case_decide as Hv.
    + apply nil_length_inv, encode_nil in Hv as ->. rewrite Hw, push_nil by done. done.
    + rewrite Hw, take_app_length, drop_app_length, from_utf8_encode by done.
      by destruct (push_str (u_inner u) t).
Qed.

Lemma push_all_bytes_valid chunks u text :
  Inv (u_inner u) → Forall is_scalar text → undecided (pending_utf8 u) →
  pending_utf8 u ++ concat chunks = encode text →
  ∃ out, push_all_bytes chunks u =
      ({| u_inner := (push_str (u_inner u) text).1; pending_utf8 := [] |}, Ok out) ∧
    same_output norm out (push_str (u_inner u) text).2.
Proof.
  revert u text; induction chunks as [|c chunks IH]; intros u text Hinv Htext Hund Heq; simpl in *.
  - rewrite app_nil_r in Heq. destruct Hund as [Hp|Hp].
    + rewrite Hp in Heq. symmetry in Heq. apply encode_nil in Heq as ->.
      rewrite push_nil by done. exists chunk_default. split; [|done].
      destruct u; simpl in *. by subst.
    + by rewrite Heq, from_utf8_encode in Hp.
  - destruct (push_bytes_valid u c (concat chunks) text Hinv Htext Heq)
      as (t & t' & p & w & -> & Ht' & Hw & Hund' & -> & Hpush).
    destruct (IH {| u_inner := (push_str (u_inner u) t).1; pending_utf8 := w |} t')
      as (outs & Hall & Hout); [by apply push_inv|done|done|done|].
    destruct (push_str_app (u_inner u) t t' Hinv) as [Hs Ho]. simpl in *.
    eexists. split.
    + unfold mbind, Eff_bind. rewrite Hpush, Hall. unfold mret, Eff_ret. by rewrite Hs.
    + rewrite Ho. by rewrite Hout.
Qed.

Lemma collect_bytes_valid p chunks text :
  Inv p → Forall is_scalar text → concat chunks = encode text →
  ∃ u out, collect_bytes chunks (utf8_new p) = (u, Ok out) ∧
    same_output norm out (collect_chunks p [text]).
Proof.
  intros Hinv Htext Heq.
  destruct (push_all_bytes_valid chunks (utf8_new p) text Hinv Htext (or_introl eq_refl) Heq)
    as (out & Hall & Hout).
  unfold collect_bytes, mbind, Eff_bind. rewrite Hall. unfold utf8_finish, mret, Eff_ret. simpl.
  simpl in Hout. unfold collect_chunks. simpl.
  destruct (push_str p text) as [p1 o1]. simpl in *.
  destruct (stream_finish p1) as [p2 tail]. eexists _, _. split; [done|].
  rewrite Hout. unfold chunk_app at 2. simpl. rewrite chunk_app_nil_r. by destruct tail.
Qed.
End proofs.

(** Cutting a byte stream anywhere, even inside of a character, makes no
    difference: when the chunks together are the encoding of a text, every
    push and the end succeed, and the output is that of the inner parser on
    the text, for every inner parser that obeys the streaming laws. *)
Theorem utf8_stream_transparent {P X : Type} `{!StreamTextParser P X} (Inv : P → Prop)
    (norm : list X → list X) `{!StreamTextLaws P X Inv norm} p chunks text :
  Inv p → Forall is_scalar text → concat chunks = encode text →
  ∃ u out, collect_bytes chunks (utf8_new p) = (u, Ok out) ∧
    same_output norm out (collect_chunks p [text]).
Proof. apply collect_bytes_valid. Qed.

Definition e_acute : str := [0xE9%N].

Lemma utf8_stream_transparent_witness :
  ∃ u out, collect_bytes [[0x61%N; 0xC3%N]; [0xA9%N]] (utf8_new citation_new) = (u, Ok out) ∧
    same_output id out (collect_chunks citation_new [lit "a" ++ e_acute]).
Proof.
  apply (utf8_stream_transparent citation_inv id citation_new [[0x61%N; 0xC3%N]; [0xA9%N]]
    (lit "a" ++ e_acute)).
  - exact citation_new_inv.
  - repeat constructor.
  - vm_compute. reflexivity.
Defined.

(** A push of bytes that fails is undone completely: neither the inner
    parser nor the buffered bytes change, so that nothing of the chunk was
    seen. *)
Theorem push_bytes_error_rolls_back {P X : Type} `{!StreamTextParser P X} (u u' : Utf8StreamParser P)
    chunk e :
  push_bytes chunk u = (u', Err e) → u' = u.
Proof.
  unfold push_bytes. intros H.
  assert (Hroll : {| u_inner := u_inner u;
    pending_utf8 := take (length (pending_utf8 u)) (pending_utf8 u ++ chunk) |} = u)
    by (rewrite take_app_length; by destruct u).
  destruct (from_utf8 _) as [t|v [k|]].
  - by destruct (push_str (u_inner u) t).
  - by injection H as <- _.
  - case_decide; [done|]. destruct (from_utf8 _) as [t|v' e'].
    + by destruct (push_str (u_inner u) t).
    + by injection H as <- _.
Qed.

Lemma push_bytes_error_rolls_back_witness :
  (push_bytes [0x61%N; 0xFF%N] (utf8_new citation_new)).1 = utf8_new citation_new.
Proof.
  apply (push_bytes_error_rolls_back (utf8_new citation_new) _
    [0x61%N; 0xFF%N] (InvalidUtf8 1 1)).
  vm_compute. reflexivity.
Defined.
