(* ===== verification/AssistantText.v ===== *)
(** * Assistant text: [utils/stream-parser/src/assistant_text.rs]

    The citation parser feeds the plan parser.  The theorem composes the
    results of the two. *)
From S2P Require Import Prelude RustStr StreamText InlineHiddenTag TaggedLine.

Record AssistantTextChunk : Type := {
  a_visible_text : str;
  a_citations : list str;
  a_plan_segments : list ProposedPlanSegment
}.

Definition assistant_chunk_is_empty (c : AssistantTextChunk) : bool :=
  bool_decide (a_visible_text c = []) && bool_decide (a_citations c = [])
  && match a_plan_segments c with [] => true | _ => false end.

Record AssistantTextStreamParser : Type := {
  plan_mode : bool;
  citations : CitationStreamParser;
  plan : ProposedPlanParser
}.

Definition assistant_new (plan_mode : bool) : AssistantTextStreamParser :=
  {| plan_mode := plan_mode; citations := citation_new; plan := plan_new |}.

Definition parse_visible_text (p : AssistantTextStreamParser) (visible : str)
    : AssistantTextStreamParser * AssistantTextChunk :=
  if negb (plan_mode p) then
    (p, {| a_visible_text := visible; a_citations := []; a_plan_segments := [] |})
  else
    let (plan', plan_chunk) := push_str (plan p) visible in
    ({| plan_mode := plan_mode p; citations := citations p; plan := plan' |},
     {| a_visible_text := visible_text plan_chunk; a_citations := [];
        a_plan_segments := extracted plan_chunk |}).

Definition with_citations (p : AssistantTextStreamParser) (c : CitationStreamParser) :=
  {| plan_mode := plan_mode p; citations := c; plan := plan p |}.

Definition assistant_push_str (p : AssistantTextStreamParser) (chunk : str)
    : AssistantTextStreamParser * AssistantTextChunk :=
  let (citations', citation_chunk) := push_str (citations p) chunk in
  let (p, out) := parse_visible_text (with_citations p citations') (visible_text citation_chunk) in
  (p, {| a_visible_text := a_visible_text out; a_citations := extracted citation_chunk;
         a_plan_segments := a_plan_segments out |}).

Definition assistant_finish (p : AssistantTextStreamParser)
    : AssistantTextStreamParser * AssistantTextChunk :=
  let (citations', citation_chunk) := stream_finish (citations p) in
  let (p, out) := parse_visible_text (with_citations p citations') (visible_text citation_chunk) in
  let (p, out) :=
    if plan_mode p then
      let (plan', tail) := stream_finish (plan p) in
      ({| plan_mode := plan_mode p; citations := citations p; plan := plan' |},
       if chunk_is_empty tail then out
       else {| a_visible_text := a_visible_text out ++ visible_text tail;
               a_citations := a_citations out;
               a_plan_segments := a_plan_segments out ++ extracted tail |})
    else (p, out) in
  (p, {| a_visible_text := a_visible_text out; a_citations := extracted citation_chunk;
         a_plan_segments := a_plan_segments out |}).

Definition assistant_app (c d : AssistantTextChunk) : AssistantTextChunk :=
  {| a_visible_text := a_visible_text c ++ a_visible_text d;
     a_citations := a_citations c ++ a_citations d;
     a_plan_segments := a_plan_segments c ++ a_plan_segments d |}.

(** A whole stream: all chunks, then the end. *)
Fixpoint assistant_collect (p : AssistantTextStreamParser) (chunks : list str)
    : AssistantTextChunk :=
  match chunks with
  | [] => (assistant_finish p).2
  | c :: chunks' => let (p, out) := assistant_push_str p c in
                    assistant_app out (assistant_collect p chunks')
  end.

(** ** Proofs *)

(** The visible texts that the citation parser passes on, the last by its
    end, and the citations. *)
Fixpoint citation_trace (c : CitationStreamParser) (chunks : list str) : list str * list str :=
  match chunks with
  | [] => let out := (stream_finish c).2 in ([visible_text out], extracted out)
  | s :: chunks' =>
      let (c, out) := push_str c s in
      let (vs, cs) := citation_trace c chunks' in (visible_text out :: vs, extracted out ++ cs)
  end.

Lemma citation_trace_collect c chunks :
  let out := collect_chunks c chunks in
  (concat (citation_trace c chunks).1, (citation_trace c chunks).2) = (visible_text out, extracted out).
Proof.
  revert c; induction chunks as [|s chunks IH]; intros c.
  { unfold collect_chunks. cbn -[stream_finish]. by rewrite app_nil_r. }
  specialize (IH (push_str c s).1). unfold collect_chunks in *. cbn [citation_trace push_all].
  destruct (push_str c s) as [c1 o1]. cbn [fst] in IH.
  destruct (citation_trace c1 chunks) as [vs cs], (push_all c1 chunks) as [c2 o2].
  simpl in *. injection IH as Hv Hc. by rewrite Hv, Hc, <-!app_assoc.
Qed.

(** In plan mode the plan parser gets the trace of the citation parser. *)
Lemma assistant_collect_plan c pl chunks :
  assistant_collect {| plan_mode := true; citations := c; plan := pl |} chunks =
  let out := collect_chunks pl (citation_trace c chunks).1 in
  {| a_visible_text := visible_text out; a_citations := (citation_trace c chunks).2;
     a_plan_segments := extracted out |}.
Proof.
  revert c pl; induction chunks as [|s chunks IH]; intros c pl.
  - cbn [assistant_collect citation_trace]. unfold assistant_finish, parse_visible_text, collect_chunks.
    cbn [citations]. destruct (stream_finish c) as [c' oc].
    cbn [with_citations plan_mode negb plan citations push_all fst snd].
    destruct (push_str pl (visible_text oc)) as [pl1 o1]. cbn [plan_mode plan citations].
    destruct (stream_finish pl1) as [pl2 [tv tx]]. cbn [snd fst]. rewrite chunk_app_nil_r.
    destruct (chunk_is_empty {| visible_text := tv; extracted := tx |}) eqn:He; [|done].
    apply andb_true_iff in He as [Hv%bool_decide_eq_true Hx]. cbn [visible_text extracted] in *.
    subst tv. destruct tx; [|done]. unfold chunk_app. simpl. by rewrite !app_nil_r.
  - cbn [assistant_collect citation_trace]. unfold assistant_push_str, parse_visible_text.
    cbn [citations]. destruct (push_str c s) as [c1 o1].
    cbn [with_citations plan_mode negb plan citations].
    destruct (push_str pl (visible_text o1)) as [pl1 p1] eqn:Hpl. rewrite IH.
    destruct (citation_trace c1 chunks) as [vs cs]. unfold collect_chunks. cbn [push_all fst snd].
    rewrite Hpl. destruct (push_all pl1 vs) as [pl2 p2]. unfold assistant_app, chunk_app. simpl.
    by rewrite <-!app_assoc.
Qed.

Lemma assistant_collect_plain c pl chunks :
  assistant_collect {| plan_mode := false; citations := c; plan := pl |} chunks =
  {| a_visible_text := concat (citation_trace c chunks).1; a_citations := (citation_trace c chunks).2;
     a_plan_segments := [] |}.
Proof.
  revert c; induction chunks as [|s chunks IH]; intros c.
  - cbn [assistant_collect citation_trace]. unfold assistant_finish. cbn [citations].
    destruct (stream_finish c) as [c' oc]. simpl. by rewrite app_nil_r.
  - cbn [assistant_collect citation_trace]. unfold assistant_push_str. cbn [citations].
    destruct (push_str c s) as [c1 o1]. cbn. unfold with_citations. cbn. rewrite IH.
    destruct (citation_trace c1 chunks) as [vs cs]. done.
Qed.

Lemma citations_collect chunks :
  (visible_text (collect_chunks citation_new chunks), extracted (collect_chunks citation_new chunks))
  = strip_citations (concat chunks).
Proof.
  destruct (collect_chunks_concat citation_new chunks citation_new_inv) as [Hv Hx].
  unfold id in Hx. rewrite Hv, Hx. unfold collect_chunks, strip_citations. cbn [push_all].
  destruct (push_str citation_new (concat chunks)) as [p o]. rewrite chunk_app_nil_r.
  by destruct (stream_finish p).
Qed.

(** However assistant text is cut into chunks, the citations and the
    visible text are those of the whole text: citations are stripped first,
    and in plan mode the plan blocks are then recognised in what is left, so
    that the visible text is the text without citations and without plan
    blocks, and the plan segments are those of its lines. *)
Theorem assistant_text_correct mode chunks :
  let out := assistant_collect (assistant_new mode) chunks in
  let stripped := strip_citations (concat chunks) in
  a_citations out = stripped.2 ∧
  if mode then
    same_output plan_normal
      {| visible_text := a_visible_text out; extracted := a_plan_segments out |}
      (map_segments (blocks plan_specs None (split_on c_nl stripped.1)))
  else a_visible_text out = stripped.1 ∧ a_plan_segments out = [].
Proof.
  cbv zeta. assert (Ht := citation_trace_collect citation_new chunks). cbv zeta in Ht.
  rewrite citations_collect in Ht. rewrite <-Ht. unfold assistant_new. destruct mode.
  - rewrite assistant_collect_plan. cbv zeta. cbn [a_citations a_visible_text a_plan_segments fst snd].
    split; [done|].
    etrans; [|apply (plan_collect (concat (citation_trace citation_new chunks).1))].
    etrans; [|by apply (collect_chunks_concat plan_new)]. by destruct (collect_chunks plan_new _).
  - rewrite assistant_collect_plain. done.
Qed.
