(* ===== verification/ShellTree.v ===== *)
(** * Plain commands of a shell script: [shell-command/src/{bash,shell_detect}.rs]

    The tree-sitter parser is a parameter; its syntax trees are data.  A
    function that returns [Option<T>] is modelled as [Res unit T], [Err tt]
    being [None], because reading the text of a node can also panic.  The
    theorems say which scripts are read as a sequence of plain commands, and
    that the loops over explicit stacks visit what they should. *)
From Stdlib Require Import Sorted.
From S2P Require Import Prelude RustStr Utf8 AbsolutePath Ordering.

(** ** Shells *)

Inductive ShellType : Type := Zsh | Bash | PowerShell | Sh | Cmd.
#[global] Instance ShellType_eq_dec : EqDecision ShellType.
Proof. solve_decision. Defined.

(** The names [detect_shell_type] knows. *)
Definition shell_type_of_name (name : str) : option ShellType :=
  if decide (name = lit "zsh") then Some Zsh
  else if decide (name = lit "sh") then Some Sh
  else if decide (name = lit "cmd") then Some Cmd
  else if decide (name = lit "bash") then Some Bash
  else if decide (name = lit "pwsh") then Some PowerShell
  else if decide (name = lit "powershell") then Some PowerShell
  else None.

(** The recursion of [detect_shell_type]; paths are compared by components. *)
Fixpoint detect_loop (fuel : nat) (shell_path : str) : Res unit ShellType :=
  match fuel with
  | O => Panic OutOfFuel
  | S fuel' =>
      match shell_type_of_name shell_path with
      | Some t => Ok t
      | None =>
          match file_stem shell_path with
          | Some shell_name =>
              if decide (components shell_name = components shell_path) then Err tt
              else detect_loop fuel' shell_name
          | None => Err tt
          end
      end
  end.

Definition detect_shell_type (shell_path : str) : Res unit ShellType :=
  detect_loop (S (length shell_path)) shell_path.

(** ** Syntax trees *)

Inductive Node : Type := node {
  kind : str;
  is_named : bool;
  has_error : bool;
  start_byte : nat;
  end_byte : nat;
  children : list Node
}.

Definition named_children (n : Node) : list Node :=
  filter (λ c, is_named c = true) (children n).

(** [node.utf8_text(src.as_bytes()).ok()?] *)
Definition utf8_text (n : Node) (src : str) : Res unit str :=
  bytes ← slice (start_byte n) (end_byte n) (encode src);
  match from_utf8 bytes with
  | Utf8Ok text => Ok text
  | Utf8Err _ _ => Err tt
  end.

Fixpoint node_size (n : Node) : nat := S (sum_list_with node_size (children n)).
Definition stack_size (stack : list Node) : nat := sum_list_with node_size stack.

(** ** [bash.rs] *)

Definition ALLOWED_KINDS : list str :=
  [ lit "program"; lit "list"; lit "pipeline"; lit "command"; lit "command_name"; lit "word";
    lit "string"; lit "string_content"; lit "raw_string"; lit "number"; lit "concatenation" ].
Definition ALLOWED_PUNCT_TOKENS : list str :=
  [lit "&&"; lit "||"; lit ";"; lit "|"; [c_dquote]; [c_squote]].

Definition c_amp : char := 38%N.
Definition c_semi : char := 59%N.
Definition c_bar : char := 124%N.

(** The checks the walk makes on one node. *)
Definition node_allowed (n : Node) : bool :=
  let k := kind n in
  if is_named n then bool_decide (k ∈ ALLOWED_KINDS)
  else
    if existsb (λ c, contains_char c [c_amp; c_semi; c_bar]) k
       && negb (bool_decide (k ∈ ALLOWED_PUNCT_TOKENS)) then false
    else bool_decide (k ∈ ALLOWED_PUNCT_TOKENS) || bool_decide (trim k = []).

Definition is_command (n : Node) : bool := is_named n && bool_decide (kind n = lit "command").

(** The walk of [try_parse_word_only_commands_sequence]: the head of [stack]
    is the end of the source's vector. *)
Fixpoint word_only_walk (fuel : nat) (stack command_nodes : list Node) : Res unit (list Node) :=
  match stack with
  | [] => Ok command_nodes
  | n :: stack' =>
      match fuel with
      | O => Panic OutOfFuel
      | S fuel' =>
          if node_allowed n then
            word_only_walk fuel' (rev (children n) ++ stack')
              (if is_command n then command_nodes ++ [n] else command_nodes)
          else Err tt
      end
  end.

Definition parse_double_quoted_string (n : Node) (src : str) : Res unit str :=
  if decide (kind n = lit "string") then
    if forallb (λ part, bool_decide (kind part = lit "string_content")) (named_children n) then
      raw ← utf8_text n src;
      ok_or tt (strip_prefix [c_dquote] raw ≫= strip_suffix [c_dquote])
    else Err tt
  else Err tt.

Definition parse_raw_string (n : Node) (src : str) : Res unit str :=
  if decide (kind n = lit "raw_string") then
    raw ← utf8_text n src;
    ok_or tt (strip_prefix [c_squote] raw ≫= strip_suffix [c_squote])
  else Err tt.

(** A part of a concatenation: a word, a number or a string. *)
Definition parse_part (part : Node) (src : str) : Res unit str :=
  if bool_decide (kind part ∈ [lit "word"; lit "number"]) then utf8_text part src
  else if decide (kind part = lit "string") then parse_double_quoted_string part src
  else if decide (kind part = lit "raw_string") then parse_raw_string part src
  else Err tt.

Definition parse_concatenation (n : Node) (src : str) : Res unit str :=
  parts ← collect_res (map (λ part, parse_part part src) (named_children n));
  if decide (concat parts = []) then Err tt else Ok (concat parts).

(** The word a child of a command contributes. *)
Definition parse_command_word (child : Node) (src : str) : Res unit str :=
  if decide (kind child = lit "command_name") then
    match head (named_children child) with
    | Some word_node =>
        if decide (kind word_node = lit "word") then utf8_text word_node src else Err tt
    | None => Err tt
    end
  else if decide (kind child = lit "concatenation") then parse_concatenation child src
  else parse_part child src.

Definition parse_plain_command_from_node (cmd : Node) (src : str) : Res unit (list str) :=
  if decide (kind cmd = lit "command") then
    collect_res (map (λ child, parse_command_word child src) (named_children cmd))
  else Err tt.

Definition try_parse_word_only_commands_sequence (root : Node) (src : str)
    : Res unit (list (list str)) :=
  if has_error root then Err tt
  else
    command_nodes ← word_only_walk (node_size root) [root] [];
    collect_res (map (λ n, parse_plain_command_from_node n src)
                     (sort_by_key start_byte command_nodes)).

Definition extract_bash_command (command : list str) : Res unit (str * str) :=
  match command with
  | [shell; flag; script] =>
      if bool_decide (flag ∈ [lit "-lc"; lit "-c"]) then
        t ← detect_shell_type shell;
        if bool_decide (t ∈ [Zsh; Bash; Sh]) then Ok (shell, script) else Err tt
      else Err tt
  | _ => Err tt
  end.

Definition is_literal_word_or_number (n : Node) : bool :=
  bool_decide (kind n ∈ [lit "word"; lit "number"])
  && match named_children n with [] => true | _ => false end.

Definition is_allowed_heredoc_attachment_kind (k : str) : bool :=
  bool_decide (k ∈ [lit "heredoc_body"; lit "simple_heredoc_body"; lit "heredoc_redirect";
                    lit "herestring_redirect"; lit "redirected_statement"]).

(** The loop of [parse_heredoc_command_words] over the children. *)
Fixpoint heredoc_words_loop (cs : list Node) (src : str) (words : list str)
    : Res unit (list str) :=
  match cs with
  | [] => Ok words
  | child :: cs' =>
      let k := kind child in
      if decide (k = lit "command_name") then
        match head (named_children child) with
        | Some word_node =>
            if bool_decide (kind word_node ∈ [lit "word"; lit "number"])
               && is_literal_word_or_number word_node then
              text ← utf8_text word_node src; heredoc_words_loop cs' src (words ++ [text])
            else Err tt
        | None => Err tt
        end
      else if bool_decide (k ∈ [lit "word"; lit "number"]) then
        if is_literal_word_or_number child then
          text ← utf8_text child src; heredoc_words_loop cs' src (words ++ [text])
        else Err tt
      else if bool_decide (k = lit "comment") || is_allowed_heredoc_attachment_kind k then
        heredoc_words_loop cs' src words
      else Err tt
  end.

Definition parse_heredoc_command_words (cmd : Node) (src : str) : Res unit (list str) :=
  if decide (kind cmd = lit "command") then
    words ← heredoc_words_loop (named_children cmd) src [];
    if decide (words = []) then Err tt else Ok words
  else Err tt.

Fixpoint single_command_loop (fuel : nat) (stack : list Node) (single_command : option Node)
    : Res unit Node :=
  match stack with
  | [] => ok_or tt single_command
  | n :: stack' =>
      match fuel with
      | O => Panic OutOfFuel
      | S fuel' =>
          let continue := single_command_loop fuel' (rev (named_children n) ++ stack') in
          if decide (kind n = lit "command") then
            match single_command with
            | Some _ => Err tt
            | None => continue (Some n)
            end
          else continue single_command
      end
  end.

Definition find_single_command_node (root : Node) : Res unit Node :=
  single_command_loop (node_size root) [root] None.

Fixpoint has_kind_loop (fuel : nat) (stack : list Node) (k : str) : Res unit bool :=
  match stack with
  | [] => Ok false
  | current :: stack' =>
      match fuel with
      | O => Panic OutOfFuel
      | S fuel' =>
          if decide (kind current = k) then Ok true
          else has_kind_loop fuel' (rev (named_children current) ++ stack') k
      end
  end.

Definition has_named_descendant_kind (n : Node) (k : str) : Res unit bool :=
  has_kind_loop (node_size n) [n] k.

Section parser.
(** [try_parse_shell]: the root of the tree tree-sitter returns. *)
Context (try_parse_shell : str → option Node).

Definition parse_shell_lc_plain_commands (command : list str) : Res unit (list (list str)) :=
  x ← extract_bash_command command;
  root ← ok_or tt (try_parse_shell x.2);
  try_parse_word_only_commands_sequence root x.2.

Definition parse_shell_lc_single_command_prefix (command : list str) : Res unit (list str) :=
  x ← extract_bash_command command;
  root ← ok_or tt (try_parse_shell x.2);
  if has_error root then Err tt
  else
    heredoc ← has_named_descendant_kind root (lit "heredoc_redirect");
    if (heredoc : bool) then
      redirect ← has_named_descendant_kind root (lit "file_redirect");
      if (redirect : bool) then Err tt
      else
        command_node ← find_single_command_node root;
        parse_heredoc_command_words command_node x.2
    else Err tt.
End parser.

(** ** Specification *)

(** The nodes of a tree, or those that are reached through the children that
    [keep] accepts. *)
Fixpoint descendants (keep : Node → bool) (n : Node) : list Node :=
  n :: concat (map (λ c, if keep c then descendants keep c else []) (children n)).
Definition all_nodes : Node → list Node := descendants (λ _, true).
Definition named_nodes : Node → list Node := descendants is_named.

(** A token that a word-only script may contain. *)
Definition plain_token (n : Node) : Prop :=
  if is_named n then kind n ∈ ALLOWED_KINDS
  else kind n ∈ ALLOWED_PUNCT_TOKENS ∨ trim (kind n) = [].

(** The word a node stands for once its quotes are removed. *)
Inductive reads (src : str) : Node → str → Prop :=
| reads_plain n w :
    kind n ∈ [lit "word"; lit "number"] → utf8_text n src = Ok w → reads src n w
| reads_double_quoted n w :
    kind n = lit "string" → Forall (λ c, kind c = lit "string_content") (named_children n) →
    utf8_text n src = Ok ([c_dquote] ++ w ++ [c_dquote]) → reads src n w
| reads_single_quoted n w :
    kind n = lit "raw_string" →
    utf8_text n src = Ok ([c_squote] ++ w ++ [c_squote]) → reads src n w
| reads_command_name n c cs w :
    kind n = lit "command_name" → named_children n = c :: cs → kind c = lit "word" →
    utf8_text c src = Ok w → reads src n w
| reads_concatenation n ws :
    kind n = lit "concatenation" → Forall2 (reads src) (named_children n) ws →
    concat ws ≠ [] → reads src n (concat ws).

(** The script [src], whose tree is [root], is the sequence [cmds] of plain
    commands: every node is a plain token, and the commands are the words of
    the command nodes, in the order of the source. *)
Record plain_script (src : str) (root : Node) (cmds : list (list str)) : Prop := {
  script_parsed : has_error root = false;
  script_plain : Forall plain_token (all_nodes root);
  script_commands : ∃ nodes,
    nodes ≡ₚ filter (λ n, is_command n = true) (all_nodes root) ∧
    StronglySorted (key_le start_byte) nodes ∧
    Forall2 (λ n ws, Forall2 (reads src) (named_children n) ws) nodes cmds
}.

(** ** The walks *)

(** The nodes in the order a walk pops them. *)
Fixpoint visit (keep : Node → bool) (n : Node) : list Node :=
  n :: concat (rev (map (λ c, if keep c then visit keep c else []) (children n))).
Definition visit_stack (keep : Node → bool) (stack : list Node) : list Node :=
  concat (map (visit keep) stack).

Lemma Node_rect' (P : Node → Prop) :
  (∀ n, (∀ c, c ∈ children n → P c) → P n) → ∀ n, P n.
Proof.
  intros H. fix IH 1. intros n. apply H. destruct n as [k nm er st en cs]. simpl.
  induction cs as [|c' cs IHcs]; intros c Hc.
  - destruct (proj1 (elem_of_nil _) Hc).
  - apply elem_of_cons in Hc as [->|Hc]; [apply IH|exact (IHcs c Hc)].
Qed.

Section visit.
Context (keep : Node → bool).
Implicit Types (n c m : Node) (stack : list Node).

Definition kept n : list Node := filter (λ c, keep c = true) (children n).

Lemma visit_kept n :
  visit keep n = n :: visit_stack keep (rev (kept n)).
Proof.
  destruct n as [k nm er st en cs]. simpl. f_equal. unfold visit_stack, kept; simpl.
  rewrite map_rev. induction cs as [|c cs IH]; [done|].
  simpl. rewrite concat_app, IH. rewrite filter_cons. destruct (keep c) eqn:Hk.
  - rewrite decide_True by done. simpl. by rewrite concat_app.
  - rewrite decide_False by done. simpl. by rewrite app_nil_r.
Qed.

Lemma visit_stack_cons n stack :
  visit_stack keep (n :: stack) = n :: visit_stack keep (rev (kept n) ++ stack).
Proof.
  unfold visit_stack at 1. simpl map. simpl concat. rewrite visit_kept. simpl.
  unfold visit_stack. by rewrite map_app, concat_app.
Qed.

Lemma kept_size n : stack_size (kept n) < node_size n.
Proof.
  destruct n as [k nm er st en cs]. unfold kept, stack_size; simpl.
  induction cs as [|c cs IH]; [simpl; lia|]. rewrite filter_cons.
  case_decide; simpl; lia.
Qed.

Lemma push_size n stack fuel :
  stack_size (n :: stack) ≤ S fuel → stack_size (rev (kept n) ++ stack) ≤ fuel.
Proof.
  unfold stack_size. intros H. rewrite sum_list_with_app. simpl in H.
  rewrite <-(Permutation_rev (kept n)). pose proof (kept_size n). unfold stack_size in *. lia.
Qed.

Lemma visit_perm n : visit keep n ≡ₚ descendants keep n.
Proof.
  induction n as [n IH] using Node_rect'. destruct n as [k nm er st en cs]; simpl in *.
  constructor. induction cs as [|c cs IHcs]; [done|]. simpl.
  rewrite concat_app. simpl. rewrite app_nil_r, (Permutation_app_comm _ (if keep c then _ else _)).
  rewrite IHcs by (intros; apply IH; set_solver). apply Permutation_app_tail.
  destruct (keep c); [apply IH; set_solver|done].
Qed.
End visit.

Lemma children_kept n : children n = kept (λ _, true) n.
Proof.
  unfold kept. induction (children n) as [|c cs IH]; [done|].
  rewrite filter_cons_True by done. by rewrite <-IH.
Qed.

Lemma node_allowed_spec n : node_allowed n = true ↔ plain_token n.
Proof.
  unfold node_allowed, plain_token. destruct (is_named n); [apply bool_decide_eq_true|].
  set (k := kind n). destruct (decide (k ∈ ALLOWED_PUNCT_TOKENS)) as [Hin|Hin].
  - rewrite (bool_decide_eq_true_2 _ Hin), andb_false_r. simpl. naive_solver.
  - rewrite (bool_decide_eq_false_2 _ Hin), andb_true_r. simpl.
    destruct (existsb _ k) eqn:He.
    + split; [done|]. intros [?|Ht]; [done|]. exfalso.
      apply existsb_exists in He as (c & Hc & Hm). apply list_elem_of_In in Hc.
      apply trim_nil_iff in Ht. rewrite Forall_forall in Ht. specialize (Ht c Hc).
      rewrite !orb_true_iff, !N.eqb_eq in Hm.
      destruct Hm as [->|[->|[->|?]]]; [vm_compute in Ht; discriminate..|discriminate].
    + rewrite bool_decide_eq_true. naive_solver.
Qed.

Lemma word_only_walk_spec fuel stack acc :
  stack_size stack ≤ fuel →
  word_only_walk fuel stack acc =
    if forallb node_allowed (visit_stack (λ _, true) stack)
    then Ok (acc ++ filter (λ n, is_command n = true) (visit_stack (λ _, true) stack)) else Err tt.
Proof.
  revert stack acc. induction fuel as [|fuel IH]; intros stack acc Hs.
  { destruct stack as [|n stack]; [simpl; by rewrite app_nil_r|].
    destruct n; unfold stack_size in Hs; simpl in Hs; lia. }
  destruct stack as [|n stack]; [simpl; by rewrite app_nil_r|].
  rewrite visit_stack_cons. simpl. destruct (node_allowed n); [|done]. simpl.
  rewrite children_kept, IH by by apply push_size.
  rewrite filter_cons. destruct (is_command n); [|done].
  rewrite decide_True by done. by rewrite <-app_assoc.
Qed.

(** ** Words *)

Lemma Forall_forallb {A} (f : A → bool) l : forallb f l = true ↔ Forall (λ x, f x = true) l.
Proof.
  induction l as [|x l IH]; simpl; [by split|].
  rewrite andb_true_iff, IH, Forall_cons. done.
Qed.

Lemma collect_res_Forall2 {E A B} (f : A → Res E B) l bs :
  collect_res (map f l) = Ok bs ↔ Forall2 (λ a b, f a = Ok b) l bs.
Proof.
  revert bs. induction l as [|a l IH]; intros bs; simpl.
  - split; [intros [= <-]; constructor|]. by inversion 1.
  - split.
    + intros H. destruct (f a) as [b|e|p] eqn:Ha; try discriminate H. simpl in H.
      destruct (collect_res (map f l)) as [bs'|e|p] eqn:Hl; try discriminate H. simpl in H.
      apply (inj Ok) in H as <-. constructor; [done|]. by apply IH.
    + inversion 1 as [|? b ? bs' Ha Hl]; subst. apply IH in Hl. by rewrite Ha; simpl; rewrite Hl.
Qed.

Lemma unquote_Ok q raw w :
  strip_prefix [q] raw ≫= strip_suffix [q] = Some w ↔ raw = [q] ++ w ++ [q].
Proof.
  split.
  - destruct (strip_prefix [q] raw) as [t|] eqn:Ht; simpl; [|done].
    intros Hw. apply strip_prefix_Some in Ht as ->. by apply strip_suffix_Some in Hw as ->.
  - intros ->. rewrite strip_prefix_app. simpl. by apply strip_suffix_Some.
Qed.

Lemma parse_double_quoted_reads n src w :
  parse_double_quoted_string n src = Ok w → reads src n w.
Proof.
  unfold parse_double_quoted_string. case_decide as Hk; [|done].
  destruct (forallb _ _) eqn:Hall; [|done]. apply Forall_forallb in Hall.
  destruct (utf8_text n src) as [raw|?|?] eqn:Ht; [|done..]. simpl. unfold ok_or.
  destruct (_ ≫= _) as [w'|] eqn:Hu; [|done]. intros H. apply (inj Ok) in H as <-.
  apply unquote_Ok in Hu as ->. apply reads_double_quoted; [done| |done].
  eapply Forall_impl; [exact Hall|]. intros c Hc. by apply bool_decide_eq_true in Hc.
Qed.

Lemma parse_raw_reads n src w : parse_raw_string n src = Ok w → reads src n w.
Proof.
  unfold parse_raw_string. case_decide as Hk; [|done].
  destruct (utf8_text n src) as [raw|?|?] eqn:Ht; [|done..]. simpl. unfold ok_or.
  destruct (_ ≫= _) as [w'|] eqn:Hu; [|done]. intros H. apply (inj Ok) in H as <-.
  apply unquote_Ok in Hu as ->. by apply reads_single_quoted.
Qed.

Lemma parse_part_reads n src w : parse_part n src = Ok w → reads src n w.
Proof.
  unfold parse_part. case_bool_decide; [by apply reads_plain|].
  case_decide; [by apply parse_double_quoted_reads|].
  case_decide; [by apply parse_raw_reads|done].
Qed.

Lemma parse_concatenation_reads n src w :
  kind n = lit "concatenation" → parse_concatenation n src = Ok w → reads src n w.
Proof.
  intros Hk. unfold parse_concatenation.
  destruct (collect_res _) as [ws|?|?] eqn:Hws; [|done..]. simpl. case_decide; [done|].
  intros H'. apply (inj Ok) in H' as <-. apply reads_concatenation; [done| |done].
  apply collect_res_Forall2 in Hws. eapply Forall2_impl; [exact Hws|].
  intros c u. apply parse_part_reads.
Qed.

Lemma parse_command_word_reads n src w : parse_command_word n src = Ok w → reads src n w.
Proof.
  unfold parse_command_word. case_decide as Hn.
  - destruct (named_children n) as [|c cs] eqn:Hc; simpl; [done|].
    case_decide; [|done]. by eapply reads_command_name.
  - case_decide; [by apply parse_concatenation_reads|apply parse_part_reads].
Qed.

Lemma plain_command_reads n src ws :
  parse_plain_command_from_node n src = Ok ws → Forall2 (reads src) (named_children n) ws.
Proof.
  unfold parse_plain_command_from_node. case_decide; [|done].
  intros Hws%collect_res_Forall2. eapply Forall2_impl; [exact Hws|].
  intros c w. apply parse_command_word_reads.
Qed.

Lemma word_only_plain root src cmds :
  try_parse_word_only_commands_sequence root src = Ok cmds → plain_script src root cmds.
Proof.
  unfold try_parse_word_only_commands_sequence. destruct (has_error root) eqn:He; [done|].
  rewrite word_only_walk_spec by (unfold stack_size; simpl; lia).
  destruct (forallb _ _) eqn:Hall; [|done]. simpl. intros H%collect_res_Forall2.
  assert (Hvis : visit_stack (λ _, true) [root] ≡ₚ all_nodes root)
    by (unfold visit_stack; simpl; rewrite app_nil_r; apply visit_perm).
  split; [done| |].
  - apply Forall_forallb in Hall. rewrite <-Hvis. eapply Forall_impl; [exact Hall|].
    intros n. apply node_allowed_spec.
  - eexists. split_and!; [|apply sort_by_key_sorted|eapply Forall2_impl; [exact H|]].
    + by rewrite sort_by_key_perm, Hvis.
    + intros n ws. apply plain_command_reads.
Qed.

(** ** The prefix of a heredoc command *)

Lemma single_command_loop_spec fuel stack found n :
  stack_size stack ≤ fuel →
  single_command_loop fuel stack found = Ok n ↔
    option_list found
      ++ filter (λ n, kind n = lit "command") (visit_stack is_named stack) = [n].
Proof.
  revert stack found. induction fuel as [|fuel IH]; intros stack found Hs.
  { destruct stack as [|m stack]; [|destruct m; unfold stack_size in Hs; simpl in Hs; lia].
    destruct found; simpl; naive_solver. }
  destruct stack as [|m stack]; [destruct found; simpl; naive_solver|].
  rewrite visit_stack_cons. simpl. rewrite filter_cons.
  assert (Hp : stack_size (rev (kept is_named m) ++ stack) ≤ fuel) by by apply push_size.
  case_decide.
  - destruct found as [m'|]; simpl; [naive_solver|]. by rewrite IH.
  - by rewrite IH.
Qed.

Lemma has_kind_loop_spec fuel stack k :
  stack_size stack ≤ fuel →
  has_kind_loop fuel stack k
  = Ok (existsb (λ n, bool_decide (kind n = k)) (visit_stack is_named stack)).
Proof.
  revert stack. induction fuel as [|fuel IH]; intros stack Hs.
  { by destruct stack as [|m stack]; [|destruct m; unfold stack_size in Hs; simpl in Hs; lia]. }
  destruct stack as [|m stack]; [done|].
  rewrite visit_stack_cons. simpl. case_decide as Hk.
  - by rewrite bool_decide_eq_true_2.
  - rewrite bool_decide_eq_false_2 by done. simpl. apply IH. by apply push_size.
Qed.

Lemma find_single_command_node_spec root n :
  find_single_command_node root = Ok n ↔
    filter (λ n, kind n = lit "command") (named_nodes root) = [n].
Proof.
  unfold find_single_command_node.
  rewrite single_command_loop_spec by (unfold stack_size; simpl; lia). simpl.
  unfold visit_stack; simpl. rewrite app_nil_r.
  assert (Hp := visit_perm is_named root). unfold named_nodes.
  split; intros H; apply Permutation_singleton_r; rewrite <-H; [by rewrite Hp|by rewrite Hp].
Qed.

Lemma has_named_descendant_kind_spec n k :
  ∃ b, has_named_descendant_kind n k = Ok b ∧
       (b = true ↔ Exists (λ m, kind m = k) (named_nodes n)).
Proof.
  unfold has_named_descendant_kind. eexists.
  split; [apply has_kind_loop_spec; unfold stack_size; simpl; lia|].
  unfold visit_stack; simpl. rewrite app_nil_r. unfold named_nodes. rewrite <-visit_perm.
  rewrite existsb_exists, Exists_exists. split; intros (x & Hx & Hk); exists x.
  - split; [by apply list_elem_of_In|]. by apply bool_decide_eq_true in Hk.
  - split; [by apply list_elem_of_In|]. by apply bool_decide_eq_true.
Qed.

(** The literal words of a command that a heredoc is attached to. *)
Definition literal_word (src : str) (n : Node) (w : str) : Prop :=
  kind n ∈ [lit "word"; lit "number"] ∧ named_children n = [] ∧ utf8_text n src = Ok w.

Inductive heredoc_words (src : str) : list Node → list str → Prop :=
| heredoc_nil : heredoc_words src [] []
| heredoc_name n c ns cs w ws :
    kind n = lit "command_name" → named_children n = c :: cs → literal_word src c w →
    heredoc_words src ns ws → heredoc_words src (n :: ns) (w :: ws)
| heredoc_word n ns w ws :
    literal_word src n w → heredoc_words src ns ws → heredoc_words src (n :: ns) (w :: ws)
| heredoc_skip n ns ws :
    kind n = lit "comment" ∨ is_allowed_heredoc_attachment_kind (kind n) = true →
    heredoc_words src ns ws → heredoc_words src (n :: ns) ws.

Lemma is_literal_spec n :
  is_literal_word_or_number n = true ↔ kind n ∈ [lit "word"; lit "number"] ∧ named_children n = [].
Proof.
  unfold is_literal_word_or_number. rewrite andb_true_iff, bool_decide_eq_true.
  destruct (named_children n); naive_solver.
Qed.

Lemma heredoc_words_loop_sound cs src acc ws :
  heredoc_words_loop cs src acc = Ok ws → ∃ ws', ws = acc ++ ws' ∧ heredoc_words src cs ws'.
Proof.
  revert acc. induction cs as [|n cs IH]; intros acc; simpl.
  { intros [= ->]. exists []. split; [by rewrite app_nil_r|constructor]. }
  assert (Hpush : ∀ m, is_literal_word_or_number m = true →
    (text ← utf8_text m src; heredoc_words_loop cs src (acc ++ [text])) = Ok ws →
    ∃ w ws', literal_word src m w ∧ ws = acc ++ w :: ws' ∧ heredoc_words src cs ws').
  { intros m [Hm1 Hm2]%is_literal_spec H.
    destruct (utf8_text m src) as [w|?|?] eqn:Ht; try discriminate H. simpl in H.
    apply IH in H as (ws' & -> & Hws). exists w, ws'. by rewrite <-app_assoc. }
  case_decide as Hk.
  - destruct (named_children n) as [|c cs'] eqn:Hc; simpl; [done|].
    destruct (_ && _) eqn:Hb; [|done]. apply andb_true_iff in Hb as [_ Hb].
    intros (w & ws' & Hw & -> & Hws)%Hpush; [|done].
    exists (w :: ws'). split; [done|]. by eapply heredoc_name.
  - case_bool_decide.
    + destruct (is_literal_word_or_number n) eqn:Hl; [|done].
      intros (w & ws' & Hw & -> & Hws)%Hpush; [|done].
      exists (w :: ws'). split; [done|]. by apply heredoc_word.
    + destruct (_ || _) eqn:Hb; [|done]. intros (ws' & -> & Hws)%IH. exists ws'.
      split; [done|]. apply heredoc_skip; [|done].
      apply orb_true_iff in Hb as [Hb%bool_decide_eq_true|]; auto.
Qed.

(** ** Shell detection *)

Lemma rsplit_once_Some c s a b : rsplit_once c s = Some (a, b) → s = a ++ c :: b.
Proof.
  revert a b. induction s as [|x s IH]; intros a b; simpl; [done|].
  destruct (rsplit_once c s) as [[a' b']|] eqn:Hs.
  - intros [= <- <-]. by rewrite (IH _ _ eq_refl).
  - case_match eqn:Hx; [|done]. intros [= <- <-]. apply N.eqb_eq in Hx. by subst.
Qed.

Lemma split_on_elem c s x : x ∈ split_on c s → x = s ∨ length x < length s.
Proof.
  revert x. induction s as [|a s IH]; intros x; simpl; [intros ->%list_elem_of_singleton; by left|].
  destruct (a =? c)%N.
  - intros [->|Hx]%elem_of_cons; [simpl; lia|]. destruct (IH _ Hx) as [->|?]; simpl; lia.
  - destruct (split_on c s) as [|l ls] eqn:Hs; [by destruct (split_on_nonempty c s)|].
    intros [->|Hx]%elem_of_cons.
    + destruct (IH l) as [->|?]; [set_solver|by left|simpl; lia].
    + destruct (IH x) as [->|?]; [set_solver|simpl; lia|simpl; lia].
Qed.

Lemma file_name_elem p name : file_name p = Some name → name ∈ split_on c_slash p.
Proof.
  unfold file_name. destruct (last (components p)) as [[| | |m]|] eqn:Hl; try done.
  intros [= ->]. apply last_Some in Hl as [l Hl]. unfold components in Hl.
  assert (Hin : Normal name ∈ components p) by (unfold components; rewrite Hl; set_solver).
  unfold components in Hin. apply elem_of_app in Hin as [Hin|Hin].
  { destruct (is_absolute p); [set_solver|]. case_decide; set_solver. }
  apply list_elem_of_omap in Hin as (piece & Hp & Hb). unfold body_component in Hb.
  repeat case_decide; simplify_eq; done.
Qed.

Lemma file_stem_shrinks p stem : file_stem p = Some stem → stem = p ∨ length stem < length p.
Proof.
  unfold file_stem. destruct (file_name p) as [name|] eqn:Hn; [|done].
  apply file_name_elem, split_on_elem in Hn.
  destruct (rsplit_once c_dot name) as [[before after]|] eqn:Hr.
  - apply rsplit_once_Some in Hr. case_decide; intros [= <-]; [done|].
    right. destruct Hn as [<-|?]; subst name; rewrite length_app in *; simpl in *; lia.
  - by intros [= <-].
Qed.

Lemma detect_loop_no_panic fuel p : length p < fuel → no_panic (detect_loop fuel p).
Proof.
  revert p. induction fuel as [|fuel IH]; intros p Hf; [lia|]. simpl.
  destruct (shell_type_of_name p); [done|].
  destruct (file_stem p) as [stem|] eqn:Hs; [|done]. case_decide as Hc; [done|].
  apply IH. destruct (file_stem_shrinks _ _ Hs) as [->|?]; [done|lia].
Qed.

Lemma extract_bash_command_no_panic command : no_panic (extract_bash_command command).
Proof.
  unfold extract_bash_command. destruct command as [|a [|b [|c [|]]]]; try done.
  case_bool_decide; [|done]. apply no_panic_bind.
  - apply detect_loop_no_panic. lia.
  - intros t _. by case_bool_decide.
Qed.

(** ** No panics *)

(** What tree-sitter documents of the byte ranges of a tree's nodes. *)
Definition in_source (src : str) (n : Node) : Prop :=
  start_byte n ≤ end_byte n ∧ end_byte n ≤ length (encode src).
Definition tree_of (src : str) (root : Node) : Prop := Forall (in_source src) (all_nodes root).

Lemma all_nodes_self n : n ∈ all_nodes n.
Proof. destruct n. apply elem_of_cons. by left. Qed.

Lemma all_nodes_child n c m : c ∈ children n → m ∈ all_nodes c → m ∈ all_nodes n.
Proof.
  intros Hc Hm. destruct n as [k nm er st en cs]; simpl in *. apply elem_of_cons. right.
  unfold all_nodes in *. simpl in *. apply list_elem_of_In, in_concat. eexists.
  split; [|by apply list_elem_of_In]. apply list_elem_of_In, list_elem_of_fmap.
  by exists c.
Qed.

Lemma all_nodes_trans n m x : m ∈ all_nodes n → x ∈ all_nodes m → x ∈ all_nodes n.
Proof.
  induction n as [n IH] using Node_rect'. intros Hm Hx.
  assert (Hn : all_nodes n = n :: concat (map all_nodes (children n))) by by destruct n.
  rewrite Hn in Hm. apply elem_of_cons in Hm as [->|Hm]; [done|].
  apply list_elem_of_In, in_concat in Hm as (l & Hl & Hm).
  apply list_elem_of_In in Hm. apply list_elem_of_In, list_elem_of_fmap in Hl as (c & -> & Hc).
  eapply all_nodes_child; [exact Hc|]. by apply IH.
Qed.

Lemma named_children_child n c : c ∈ named_children n → c ∈ children n.
Proof. unfold named_children. intros [_ ?]%list_elem_of_filter. done. Qed.

Lemma tree_of_below src n m : tree_of src n → m ∈ all_nodes n → tree_of src m.
Proof.
  unfold tree_of. rewrite !Forall_forall. intros H Hm x Hx. apply H.
  by eapply all_nodes_trans.
Qed.

Lemma tree_of_named src n c : tree_of src n → c ∈ named_children n → tree_of src c.
Proof.
  intros H Hc. eapply tree_of_below; [done|].
  eapply all_nodes_child; [by apply named_children_child|apply all_nodes_self].
Qed.

Lemma utf8_text_no_panic src n : tree_of src n → no_panic (utf8_text n src).
Proof.
  intros H. unfold tree_of in H. rewrite Forall_forall in H.
  specialize (H n (all_nodes_self n)). unfold utf8_text, slice. rewrite decide_True by done.
  simpl. by case_match.
Qed.

Lemma collect_res_no_panic {E A B} (f : A → Res E B) l :
  Forall (λ a, no_panic (f a)) l → no_panic (collect_res (map f l)).
Proof.
  induction 1 as [|a l Ha Hl IH]; simpl; [done|].
  apply no_panic_bind; [done|]. intros b _. apply no_panic_bind; [done|]. done.
Qed.

Lemma ok_or_no_panic {E A} (e : E) (o : option A) : no_panic (ok_or e o).
Proof. by destruct o. Qed.
#[local] Hint Resolve utf8_text_no_panic ok_or_no_panic : rust.

Lemma parse_part_no_panic src n : tree_of src n → no_panic (parse_part n src).
Proof.
  intros H. unfold parse_part, parse_double_quoted_string, parse_raw_string.
  repeat first [case_bool_decide | case_decide | done | case_match];
    auto with rust; apply no_panic_bind; auto with rust.
Qed.

Lemma parse_command_word_no_panic src n : tree_of src n → no_panic (parse_command_word n src).
Proof.
  intros H. unfold parse_command_word. case_decide.
  - destruct (named_children n) as [|c cs] eqn:Hc; simpl; [done|]. case_decide; [|done].
    apply utf8_text_no_panic. eapply tree_of_named; [done|]. rewrite Hc. set_solver.
  - case_decide; [|by apply parse_part_no_panic]. unfold parse_concatenation.
    apply no_panic_bind; [|intros ws _; by case_decide].
    apply collect_res_no_panic, Forall_forall. intros c Hc.
    eapply parse_part_no_panic, tree_of_named; eassumption.
Qed.

Lemma parse_plain_command_no_panic src n :
  tree_of src n → no_panic (parse_plain_command_from_node n src).
Proof.
  intros H. unfold parse_plain_command_from_node. case_decide; [|done].
  apply collect_res_no_panic, Forall_forall. intros c Hc.
  eapply parse_command_word_no_panic, tree_of_named; eassumption.
Qed.

Lemma word_only_no_panic src root :
  tree_of src root → no_panic (try_parse_word_only_commands_sequence root src).
Proof.
  intros H. unfold try_parse_word_only_commands_sequence. destruct (has_error root); [done|].
  rewrite word_only_walk_spec by (unfold stack_size; simpl; lia).
  destruct (forallb _ _); [|done]. simpl.
  apply collect_res_no_panic. rewrite sort_by_key_perm. apply Forall_forall.
  intros n [_ Hn]%list_elem_of_filter. unfold visit_stack in Hn; simpl in Hn.
  rewrite app_nil_r, visit_perm in Hn.
  by eapply parse_plain_command_no_panic, tree_of_below.
Qed.

Lemma heredoc_words_loop_no_panic src cs acc :
  Forall (tree_of src) cs → no_panic (heredoc_words_loop cs src acc).
Proof.
  intros H. revert acc. induction H as [|n cs Hn Hcs IH]; intros acc; simpl; [done|].
  case_decide.
  - destruct (named_children n) as [|c cs'] eqn:Hc; simpl; [done|].
    destruct (_ && _); [|done]. apply no_panic_bind; [|auto].
    apply utf8_text_no_panic. eapply tree_of_named; [done|]. rewrite Hc. set_solver.
  - case_bool_decide.
    + destruct (is_literal_word_or_number n); [|done]. apply no_panic_bind; auto with rust.
    + destruct (_ || _); [|done]. apply IH.
Qed.

Lemma single_command_loop_no_panic fuel stack found :
  stack_size stack ≤ fuel → no_panic (single_command_loop fuel stack found).
Proof.
  revert stack found. induction fuel as [|fuel IH]; intros stack found Hs.
  { destruct stack as [|m stack]; [by destruct found|].
    destruct m; unfold stack_size in Hs; simpl in Hs; lia. }
  destruct stack as [|m stack]; [by destruct found|]. simpl.
  assert (Hp := push_size is_named m stack fuel Hs).
  case_decide; [destruct found; [done|]|]; by apply IH.
Qed.

Lemma named_nodes_all n m : m ∈ named_nodes n → m ∈ all_nodes n.
Proof.
  induction n as [n IH] using Node_rect'. intros Hm.
  assert (Hn : named_nodes n
               = n :: concat (map (λ c, if is_named c then named_nodes c else []) (children n)))
    by by destruct n.
  rewrite Hn in Hm. apply elem_of_cons in Hm as [->|Hm]; [apply all_nodes_self|].
  apply list_elem_of_In, in_concat in Hm as (l & Hl & Hm).
  apply list_elem_of_In in Hm. apply list_elem_of_In, list_elem_of_fmap in Hl as (c & -> & Hc).
  destruct (is_named c); [|by apply elem_of_nil in Hm].
  eapply all_nodes_child; [exact Hc|]. by apply IH.
Qed.

(** The result of [parse_shell_lc_single_command_prefix]: the words of the
    only command of a script that attaches heredocs and redirects no file. *)
Record heredoc_prefix (src : str) (root : Node) (words : list str) : Prop := {
  heredoc_parsed : has_error root = false;
  heredoc_present : Exists (λ n, kind n = lit "heredoc_redirect") (named_nodes root);
  heredoc_no_file : Forall (λ n, kind n ≠ lit "file_redirect") (named_nodes root);
  heredoc_command : ∃ cmd,
    filter (λ n, kind n = lit "command") (named_nodes root) = [cmd] ∧
    heredoc_words src (named_children cmd) words ∧ words ≠ []
}.

Section parser_laws.
Context (try_parse_shell : str → option Node).

Lemma extract_bash_command_Ok command shell script :
  extract_bash_command command = Ok (shell, script) →
  ∃ flag t, command = [shell; flag; script] ∧ flag ∈ [lit "-lc"; lit "-c"] ∧
            detect_shell_type shell = Ok t ∧ t ∈ [Zsh; Bash; Sh].
Proof.
  unfold extract_bash_command. destruct command as [|a [|b [|c [|]]]]; try done.
  case_bool_decide as Hf; [|done].
  destruct (detect_shell_type a) as [t|?|?] eqn:Ht; [|done..]. simpl.
  case_bool_decide as Htt; [|done]. intros H. apply (inj Ok) in H. simplify_eq. eauto 10.
Qed.

Lemma plain_commands_Ok command cmds :
  parse_shell_lc_plain_commands try_parse_shell command = Ok cmds →
  ∃ shell script root, extract_bash_command command = Ok (shell, script) ∧
    try_parse_shell script = Some root ∧
    try_parse_word_only_commands_sequence root script = Ok cmds.
Proof.
  unfold parse_shell_lc_plain_commands.
  destruct (extract_bash_command command) as [[shell script]|?|?]; [|done..]. simpl.
  destruct (try_parse_shell script) as [root|] eqn:Hr; [|done]. simpl. eauto 10.
Qed.

(** What [parse_shell_lc_single_command_prefix] gives execpolicy as the
    words of a heredoc invocation: it accepts only a [bash|zsh|sh -lc|-c]
    command whose script parses, has a heredoc, has no file redirection in any
    named node and has exactly one command, and returns that command's words,
    each a literal word or number without expansion. *)
Theorem heredoc_prefix_sound command words :
  parse_shell_lc_single_command_prefix try_parse_shell command = Ok words →
  ∃ shell script root, extract_bash_command command = Ok (shell, script) ∧
    try_parse_shell script = Some root ∧ heredoc_prefix script root words.
Proof.
  unfold parse_shell_lc_single_command_prefix.
  destruct (extract_bash_command command) as [[shell script]|?|?]; [|done..]. simpl.
  destruct (try_parse_shell script) as [root|] eqn:Hr; [|done]. simpl.
  destruct (has_error root) eqn:He; [done|].
  destruct (has_named_descendant_kind_spec root (lit "heredoc_redirect")) as (b & -> & Hb). simpl.
  destruct b; [|done].
  destruct (has_named_descendant_kind_spec root (lit "file_redirect")) as (b' & -> & Hb'). simpl.
  destruct b'; [done|].
  destruct (find_single_command_node root) as [cmd|?|?] eqn:Hc; [|done..]. simpl.
  apply find_single_command_node_spec in Hc.
  unfold parse_heredoc_command_words. case_decide; [|done].
  destruct (heredoc_words_loop _ _ _) as [ws|?|?] eqn:Hw; [|done..]. simpl.
  case_decide as Hne; [done|]. intros Hws. apply (inj Ok) in Hws as <-.
  apply heredoc_words_loop_sound in Hw as (ws' & -> & Hw).
  exists shell, script, root. split; [done|]. split; [done|]. split; [done|by apply Hb| |eauto 10].
  apply Forall_Exists_neg. intros Hex. by apply Hb' in Hex.
Qed.

Context (parser_law : ∀ src root, try_parse_shell src = Some root → tree_of src root).

Lemma plain_commands_no_panic command :
  no_panic (parse_shell_lc_plain_commands try_parse_shell command).
Proof using parser_law.
  unfold parse_shell_lc_plain_commands.
  apply no_panic_bind; [apply extract_bash_command_no_panic|]. intros [shell script] _. simpl.
  destruct (try_parse_shell script) as [root|] eqn:Hr; [|done]. simpl.
  by apply word_only_no_panic, parser_law.
Qed.

Lemma single_command_prefix_no_panic command :
  no_panic (parse_shell_lc_single_command_prefix try_parse_shell command).
Proof using parser_law.
  unfold parse_shell_lc_single_command_prefix.
  apply no_panic_bind; [apply extract_bash_command_no_panic|]. intros [shell script] _. simpl.
  destruct (try_parse_shell script) as [root|] eqn:Hr; [|done]. simpl.
  destruct (has_error root); [done|].
  destruct (has_named_descendant_kind_spec root (lit "heredoc_redirect")) as (b & -> & _). simpl.
  destruct b; [|done].
  destruct (has_named_descendant_kind_spec root (lit "file_redirect")) as (b' & -> & _). simpl.
  destruct b'; [done|]. apply no_panic_bind.
  { apply single_command_loop_no_panic. unfold stack_size; simpl; lia. }
  intros cmd Hc%find_single_command_node_spec.
  assert (Hin : cmd ∈ named_nodes root).
  { assert (cmd ∈ filter (λ n, kind n = lit "command") (named_nodes root)) as H
      by (rewrite Hc; set_solver). by apply list_elem_of_filter in H as [_ ?]. }
  apply named_nodes_all in Hin. assert (Ht := tree_of_below _ _ _ (parser_law _ _ Hr) Hin).
  unfold parse_heredoc_command_words. case_decide; [|done].
  apply no_panic_bind; [|intros ws _; by case_decide].
  apply heredoc_words_loop_no_panic, Forall_forall. intros c Hcc. by eapply tree_of_named.
Qed.
End parser_laws.

(** ** Examples *)

Definition token (k : string) (start stop : nat) (cs : list Node) : Node :=
  node (lit k) true false start stop cs.
Definition punct (k : string) (start stop : nat) : Node := node (lit k) false false start stop [].

(** The tree of [ls | wc '-l']. *)
Definition demo_script : str := lit "ls | wc '-l'".
Definition demo_tree : Node :=
  token "program" 0 12
    [token "pipeline" 0 12
      [token "command" 0 2 [token "command_name" 0 2 [token "word" 0 2 []]];
       punct "|" 3 4;
       token "command" 5 12
         [token "command_name" 5 7 [token "word" 5 7 []]; token "raw_string" 8 12 []]]].

(** The tree of [cat - <<E]. *)
Definition demo_heredoc : str := lit "cat - <<E".
Definition demo_heredoc_tree : Node :=
  token "program" 0 9
    [token "redirected_statement" 0 9
      [token "command" 0 5
        [token "command_name" 0 3 [token "word" 0 3 []]; token "word" 4 5 []];
       token "heredoc_redirect" 6 9 []]].

Definition demo_parse (src : str) : option Node :=
  if decide (src = demo_script) then Some demo_tree
  else if decide (src = demo_heredoc) then Some demo_heredoc_tree else None.

#[global] Instance in_source_dec src n : Decision (in_source src n).
Proof. unfold in_source. apply _. Defined.
#[global] Instance tree_of_dec src n : Decision (tree_of src n).
Proof. unfold tree_of. apply _. Defined.

Lemma demo_parse_law src root : demo_parse src = Some root → tree_of src root.
Proof.
  unfold demo_parse. repeat case_decide; intros [= <-]; subst; by_compute.
Qed.

(** A script that is read as a sequence of plain commands is one: its tree
    has no error and holds nothing but plain words, quoted strings and the
    operators [&&], [||], [;] and [|] (no redirection, substitution, subshell
    or control flow), and the commands are the words of all the command nodes
    of the tree, unquoted, in the order of the source. *)
Theorem word_only_sound root src cmds :
  try_parse_word_only_commands_sequence root src = Ok cmds → plain_script src root cmds.
Proof. apply word_only_plain. Qed.

Lemma word_only_sound_witness :
  plain_script demo_script demo_tree [[lit "ls"]; [lit "wc"; lit "-l"]].
Proof. apply word_only_sound. vm_compute. reflexivity. Defined.

Lemma heredoc_prefix_sound_witness :
  ∃ shell script root,
    extract_bash_command [lit "/bin/bash"; lit "-lc"; demo_heredoc] = Ok (shell, script) ∧
    demo_parse script = Some root ∧ heredoc_prefix script root [lit "cat"; lit "-"].
Proof. apply heredoc_prefix_sound. vm_compute. reflexivity. Defined.
