(* ===== verification/CommandSafety.v ===== *)
(** * Command safety heuristics: [shell-command/src/command_safety/]

    [is_known_safe_command] decides which commands run without asking the
    user, [command_might_be_dangerous] which ones always ask.  Modelled as
    built for Linux.  Parameters: tree-sitter's parser ([try_parse_shell]) and
    the PowerShell process that parses PowerShell scripts
    ([parse_with_powershell_ast]). *)
From S2P Require Import Prelude RustStr Utf8 AbsolutePath ShellTree.

(** ** [is_dangerous_command.rs] *)

Definition git_value_options : list str :=
  [lit "-C"; lit "-c"; lit "--config-env"; lit "--exec-path"; lit "--git-dir";
   lit "--namespace"; lit "--super-prefix"; lit "--work-tree"].

Definition is_git_global_option_with_value (arg : str) : bool :=
  bool_decide (arg ∈ git_value_options).

(** [-Cpath] and [-ckey=value] *)
Definition attached_short_option (arg : str) : bool :=
  (starts_with (lit "-C") arg || starts_with (lit "-c") arg) && (2 <? utf8_len arg)%N.

Definition is_git_global_option_with_inline_value (arg : str) : bool :=
  starts_with (lit "--config-env=") arg
  || starts_with (lit "--exec-path=") arg
  || starts_with (lit "--git-dir=") arg
  || starts_with (lit "--namespace=") arg
  || starts_with (lit "--super-prefix=") arg
  || starts_with (lit "--work-tree=") arg
  || attached_short_option arg.

Definition git_global_option_requires_prompt (arg : str) : bool :=
  bool_decide (arg ∈ git_value_options)
  || attached_short_option arg
  || starts_with (lit "--config-env=") arg
  || starts_with (lit "--exec-path=") arg
  || starts_with (lit "--git-dir=") arg
  || starts_with (lit "--namespace=") arg
  || starts_with (lit "--super-prefix=") arg
  || starts_with (lit "--work-tree=") arg.

Definition executable_name_lookup_key (raw : str) : option str := file_name raw.

(** The loop of [find_git_subcommand] over the arguments from [idx] on. *)
Fixpoint git_subcommand_loop (subcommands : list str) (idx : nat) (skip_next : bool)
    (args : list str) : option (nat * str) :=
  match args with
  | [] => None
  | arg :: args' =>
      if skip_next then git_subcommand_loop subcommands (S idx) false args'
      else if is_git_global_option_with_inline_value arg then
        git_subcommand_loop subcommands (S idx) false args'
      else if is_git_global_option_with_value arg then
        git_subcommand_loop subcommands (S idx) true args'
      else if bool_decide (arg = lit "--") || starts_with [c_minus] arg then
        git_subcommand_loop subcommands (S idx) false args'
      else if bool_decide (arg ∈ subcommands) then Some (idx, arg)
      else None
  end.

Definition find_git_subcommand (command subcommands : list str) : option (nat * str) :=
  match command with
  | [] => None
  | cmd0 :: args =>
      if decide (executable_name_lookup_key cmd0 = Some (lit "git"))
      then git_subcommand_loop subcommands 1 false args
      else None
  end.

Fixpoint is_dangerous_to_call_with_exec (command : list str) : bool :=
  match command with
  | [] => false
  | cmd0 :: args =>
      if decide (cmd0 = lit "rm") then
        match args with
        | flag :: _ => bool_decide (flag ∈ [lit "-f"; lit "-rf"])
        | [] => false
        end
      else if decide (cmd0 = lit "sudo") then is_dangerous_to_call_with_exec args
      else false
  end.

(** ** [is_safe_command.rs] *)

Definition git_read_only_branch_flags : list str :=
  [lit "--list"; lit "-l"; lit "--show-current"; lit "-a"; lit "--all"; lit "-r";
   lit "--remotes"; lit "-v"; lit "-vv"; lit "--verbose"].

(** The loop of [git_branch_is_read_only]. *)
Fixpoint branch_loop (branch_args : list str) (saw_read_only_flag : bool) : bool :=
  match branch_args with
  | [] => saw_read_only_flag
  | arg :: rest =>
      if bool_decide (arg ∈ git_read_only_branch_flags) then branch_loop rest true
      else if starts_with (lit "--format=") arg then branch_loop rest true
      else false
  end.

Definition git_branch_is_read_only (branch_args : list str) : bool :=
  match branch_args with
  | [] => true
  | _ => branch_loop branch_args false
  end.

Definition git_has_unsafe_global_option (command : list str) : bool :=
  existsb git_global_option_requires_prompt (drop 1 command).

Definition UNSAFE_GIT_FLAGS : list str :=
  [lit "--output"; lit "--ext-diff"; lit "--textconv"; lit "--exec"; lit "--paginate"].

Definition unsafe_git_flag (arg : str) : bool :=
  bool_decide (arg ∈ UNSAFE_GIT_FLAGS)
  || starts_with (lit "--output=") arg || starts_with (lit "--exec=") arg.

Definition git_subcommand_args_are_read_only (args : list str) : bool :=
  negb (existsb unsafe_git_flag args).

Definition git_read_only_subcommands : list str :=
  [lit "status"; lit "log"; lit "diff"; lit "show"; lit "branch"].

Definition is_safe_git_command (command : list str) : Total bool :=
  if git_has_unsafe_global_option command then Ok false
  else
    match find_git_subcommand command git_read_only_subcommands with
    | None => Ok false
    | Some (subcommand_idx, subcommand) =>
        subcommand_args ← slice_from (subcommand_idx + 1) command;
        if bool_decide (subcommand ∈ [lit "status"; lit "log"; lit "diff"; lit "show"]) then
          Ok (git_subcommand_args_are_read_only subcommand_args)
        else if decide (subcommand = lit "branch") then
          Ok (git_subcommand_args_are_read_only subcommand_args
              && git_branch_is_read_only subcommand_args)
        else Ok false
    end.

Definition is_number (s : str) : bool := negb (bool_decide (s = [])) && forallb is_ascii_digit s.

Definition is_valid_sed_n_arg (arg : option str) : bool :=
  match arg with
  | None => false
  | Some s =>
      match strip_suffix (lit "p") s with
      | None => false
      | Some core =>
          match split_on 44%N core with
          | [num] => is_number num
          | [a; b] => is_number a && is_number b
          | _ => false
          end
      end
  end.

Definition always_safe_commands : list str :=
  [lit "cat"; lit "cd"; lit "cut"; lit "echo"; lit "expr"; lit "false"; lit "grep"; lit "head";
   lit "id"; lit "ls"; lit "nl"; lit "paste"; lit "pwd"; lit "rev"; lit "seq"; lit "stat";
   lit "tail"; lit "tr"; lit "true"; lit "uname"; lit "uniq"; lit "wc"; lit "which";
   lit "whoami"].
Definition linux_safe_commands : list str := [lit "numfmt"; lit "tac"].

Definition unsafe_base64_option (arg : str) : bool :=
  bool_decide (arg ∈ [lit "-o"; lit "--output"])
  || starts_with (lit "--output=") arg
  || (starts_with (lit "-o") arg && negb (bool_decide (arg = lit "-o"))).

Definition UNSAFE_FIND_OPTIONS : list str :=
  [lit "-exec"; lit "-execdir"; lit "-ok"; lit "-okdir"; lit "-delete"; lit "-fls";
   lit "-fprint"; lit "-fprint0"; lit "-fprintf"].

Definition unsafe_ripgrep_option (arg : str) : bool :=
  bool_decide (arg ∈ [lit "--search-zip"; lit "-z"])
  || existsb (λ opt, bool_decide (arg = opt) || starts_with (opt ++ lit "=") arg)
       [lit "--pre"; lit "--hostname-bin"].

Definition is_safe_to_call_with_exec (command : list str) : Total bool :=
  match command with
  | [] => Ok false
  | cmd0 :: args =>
      match executable_name_lookup_key cmd0 with
      | None => Ok false
      | Some cmd =>
          if bool_decide (cmd ∈ linux_safe_commands) then Ok true
          else if bool_decide (cmd ∈ always_safe_commands) then Ok true
          else if decide (cmd = lit "base64") then Ok (negb (existsb unsafe_base64_option args))
          else if decide (cmd = lit "find") then
            Ok (negb (existsb (λ arg, bool_decide (arg ∈ UNSAFE_FIND_OPTIONS)) command))
          else if decide (cmd = lit "rg") then Ok (negb (existsb unsafe_ripgrep_option command))
          else if decide (cmd = lit "git") then is_safe_git_command command
          else if decide (cmd = lit "sed") then
            Ok (bool_decide (length command ≤ 4)
                && bool_decide (command !! 1 = Some (lit "-n"))
                && is_valid_sed_n_arg (command !! 2))
          else Ok false
      end
  end.

(** [iter.all(f)] of a test that may panic. *)
Fixpoint all_res {A} (f : A → Total bool) (l : list A) : Total bool :=
  match l with
  | [] => Ok true
  | a :: l' => b ← f a; if (b : bool) then all_res f l' else Ok false
  end.

(** ** [windows_safe_commands.rs] *)

Inductive PowershellParseOutcome : Type :=
| Commands (commands : list (list str))
| Unsupported
| Failed.

Definition is_powershell_executable (exe : str) : bool :=
  bool_decide (to_ascii_lowercase (default exe (file_name exe))
               ∈ [lit "powershell"; lit "powershell.exe"; lit "pwsh"; lit "pwsh.exe"]).

Definition quote_argument (arg : str) : str :=
  match arg with
  | [] => [c_squote; c_squote]
  | _ =>
      if forallb (λ ch, negb (is_whitespace ch)) arg then arg
      else [c_squote]
           ++ concat (map (λ ch, if decide (ch = c_squote) then [c_squote; c_squote] else [ch]) arg)
           ++ [c_squote]
  end.

Definition join_arguments_as_script (args : list str) : str :=
  match args with
  | [] => []
  | first :: rest => join [c_space] (first :: map quote_argument rest)
  end.

Definition is_paren (c : char) : bool := (c =? 40)%N || (c =? 41)%N.

(** [w.trim_matches(parentheses).trim_start_matches('-').to_ascii_lowercase()] *)
Definition cmdlet_name (w : str) : str :=
  to_ascii_lowercase
    (trim_start_matches (N.eqb c_minus)
       (trim_end_matches is_paren (trim_start_matches is_paren w))).

Definition side_effecting_cmdlets : list str :=
  [lit "set-content"; lit "add-content"; lit "out-file"; lit "new-item"; lit "remove-item";
   lit "move-item"; lit "copy-item"; lit "rename-item"; lit "start-process";
   lit "stop-process"].

Definition read_only_cmdlets : list str :=
  [lit "echo"; lit "write-output"; lit "write-host"; lit "dir"; lit "ls"; lit "get-childitem";
   lit "gci"; lit "cat"; lit "type"; lit "gc"; lit "get-content"; lit "select-string"; lit "sls";
   lit "findstr"; lit "measure-object"; lit "measure"; lit "get-location"; lit "gl"; lit "pwd";
   lit "test-path"; lit "tp"; lit "resolve-path"; lit "rvpa"; lit "select-object"; lit "select";
   lit "get-item"].

Definition is_safe_ripgrep (words : list str) : bool :=
  negb (existsb (λ arg, unsafe_ripgrep_option (to_ascii_lowercase arg)) (drop 1 words)).

Definition is_safe_powershell_words (words : list str) : Total bool :=
  match words with
  | [] => Ok false
  | w0 :: _ =>
      if existsb (λ w, bool_decide (cmdlet_name w ∈ side_effecting_cmdlets)) words then Ok false
      else
        let command := cmdlet_name w0 in
        if bool_decide (command ∈ read_only_cmdlets) then Ok true
        else if decide (command = lit "git") then is_safe_git_command words
        else if decide (command = lit "rg") then Ok (is_safe_ripgrep words)
        else Ok false
  end.

Section parsers.
Context (try_parse_shell : str → option Node).
Context (parse_with_powershell_ast : str → str → PowershellParseOutcome).

Definition parse_powershell_script (executable script : str) : option (list (list str)) :=
  match parse_with_powershell_ast executable script with
  | Commands commands => Some commands
  | Unsupported | Failed => None
  end.

(** The loop of [parse_powershell_invocation] over the arguments left. *)
Fixpoint parse_powershell_invocation (executable : str) (args : list str)
    : option (list (list str)) :=
  match args with
  | [] => None
  | arg :: rest =>
      let lower := to_ascii_lowercase arg in
      if bool_decide (lower ∈ [lit "-command"; lit "/command"; lit "-c"]) then
        match rest with
        | [script] => parse_powershell_script executable script
        | _ => None
        end
      else if starts_with (lit "-command:") lower || starts_with (lit "/command:") lower then
        match rest with
        | [] =>
            match split_once 58%N arg with
            | Some (_, script) => parse_powershell_script executable script
            | None => None
            end
        | _ => None
        end
      else if bool_decide (lower ∈ [lit "-nologo"; lit "-noprofile"; lit "-noninteractive";
                                    lit "-mta"; lit "-sta"]) then
        parse_powershell_invocation executable rest
      else if bool_decide (lower ∈ [lit "-encodedcommand"; lit "-ec"; lit "-file"; lit "/file";
                                    lit "-windowstyle"; lit "-executionpolicy";
                                    lit "-workingdirectory"]) then None
      else if starts_with [c_minus] lower then None
      else parse_powershell_script executable (join_arguments_as_script args)
  end.

Definition try_parse_powershell_command_sequence (command : list str)
    : option (list (list str)) :=
  match command with
  | [] => None
  | exe :: rest =>
      if is_powershell_executable exe then parse_powershell_invocation exe rest else None
  end.

Definition is_safe_command_windows (command : list str) : Total bool :=
  match try_parse_powershell_command_sequence command with
  | Some commands => all_res is_safe_powershell_words commands
  | None => Ok false
  end.

(** ** The two entry points *)

(** [if let Some(x) = o && test(x) { return true }] and the rest, [false]. *)
Definition if_let_some {A} (o : Res unit A) (test : A → Total bool) : Total bool :=
  match o with
  | Ok a => test a
  | Err _ => Ok false
  | Panic p => Panic p
  end.

Definition zsh_as_bash (s : str) : str := if decide (s = lit "zsh") then lit "bash" else s.

Definition is_known_safe_command (command : list str) : Total bool :=
  let command := map zsh_as_bash command in
  windows ← is_safe_command_windows command;
  if (windows : bool) then Ok true
  else
    direct ← is_safe_to_call_with_exec command;
    if (direct : bool) then Ok true
    else
      if_let_some (parse_shell_lc_plain_commands try_parse_shell command)
        (λ all_commands,
          if bool_decide (all_commands = []) then Ok false
          else all_res is_safe_to_call_with_exec all_commands).

Definition command_might_be_dangerous (command : list str) : Total bool :=
  if is_dangerous_to_call_with_exec command then Ok true
  else
    if_let_some (parse_shell_lc_plain_commands try_parse_shell command)
      (λ all_commands, Ok (existsb is_dangerous_to_call_with_exec all_commands)).
End parsers.

(** ** Specification of the safe commands *)

(** An argument that [git] cannot take for an option that redirects it. *)
Definition no_prompt (arg : str) : Prop := git_global_option_requires_prompt arg = false.
Definition is_option (arg : str) : Prop := [c_minus] `prefix_of` arg.
Definition read_only_branch_arg (arg : str) : Prop :=
  arg ∈ git_read_only_branch_flags ∨ lit "--format=" `prefix_of` arg.

(** [git <options> <subcommand> <args>] that only reads. *)
Inductive safe_git : list str → Prop :=
| safe_git_intro prog opts sub args :
    file_name prog = Some (lit "git") →
    Forall is_option opts → sub ∈ git_read_only_subcommands →
    Forall no_prompt (opts ++ sub :: args) →
    Forall (λ a, unsafe_git_flag a = false) args →
    (sub = lit "branch" → Forall read_only_branch_arg args) →
    safe_git (prog :: opts ++ sub :: args).

(** The language of the regular expression [^(\d+,)?\d+p$]. *)
Definition number (s : str) : Prop := s ≠ [] ∧ Forall (λ c, is_ascii_digit c = true) s.
Definition sed_print_range (s : str) : Prop :=
  ∃ b, number b ∧ (s = b ++ lit "p" ∨ ∃ a, number a ∧ s = a ++ lit "," ++ b ++ lit "p").

(** The commands that may be executed without asking, by their first word. *)
Inductive exec_safe : list str → Prop :=
| exec_safe_always cmd0 cmd args :
    file_name cmd0 = Some cmd → cmd ∈ linux_safe_commands ++ always_safe_commands →
    exec_safe (cmd0 :: args)
| exec_safe_base64 cmd0 args :
    file_name cmd0 = Some (lit "base64") → Forall (λ a, unsafe_base64_option a = false) args →
    exec_safe (cmd0 :: args)
| exec_safe_find cmd0 args :
    file_name cmd0 = Some (lit "find") → Forall (.∉ UNSAFE_FIND_OPTIONS) (cmd0 :: args) →
    exec_safe (cmd0 :: args)
| exec_safe_rg cmd0 args :
    file_name cmd0 = Some (lit "rg") →
    Forall (λ a, unsafe_ripgrep_option a = false) (cmd0 :: args) → exec_safe (cmd0 :: args)
| exec_safe_git command : safe_git command → exec_safe command
| exec_safe_sed cmd0 range files :
    file_name cmd0 = Some (lit "sed") → sed_print_range range → length files ≤ 1 →
    exec_safe (cmd0 :: lit "-n" :: range :: files).

(** ** [git] *)

Lemma existsb_false_Forall {A} (f : A → bool) l :
  existsb f l = false ↔ Forall (λ a, f a = false) l.
Proof.
  induction l as [|a l IH]; simpl; [by split|]. by rewrite orb_false_iff, Forall_cons, IH.
Qed.

Lemma with_value_prompts arg :
  is_git_global_option_with_value arg = true → git_global_option_requires_prompt arg = true.
Proof.
  unfold is_git_global_option_with_value, git_global_option_requires_prompt. by intros ->.
Qed.

Lemma inline_value_prompts arg :
  is_git_global_option_with_inline_value arg = true →
  git_global_option_requires_prompt arg = true.
Proof.
  unfold is_git_global_option_with_inline_value, git_global_option_requires_prompt.
  rewrite !orb_true_iff. tauto.
Qed.

Lemma git_subcommand_loop_spec subs idx args j sub :
  Forall no_prompt args →
  git_subcommand_loop subs idx false args = Some (j, sub) ↔
  ∃ opts rest, args = opts ++ sub :: rest ∧ Forall is_option opts ∧ ¬ is_option sub ∧
    j = idx + length opts ∧ sub ∈ subs.
Proof.
  intros Hall. revert idx. induction Hall as [|arg args Ha Hargs IH]; intros idx; simpl.
  { split; [done|]. intros ([|] & ? & ? & _); discriminate. }
  unfold no_prompt in Ha.
  destruct (is_git_global_option_with_inline_value arg) eqn:Hi.
  { apply inline_value_prompts in Hi. congruence. }
  destruct (is_git_global_option_with_value arg) eqn:Hv.
  { apply with_value_prompts in Hv. congruence. }
  assert (Hopt : bool_decide (arg = lit "--") || starts_with [c_minus] arg = true ↔ is_option arg).
  { unfold is_option. rewrite orb_true_iff, bool_decide_eq_true, starts_with_spec.
    split; [|auto]. intros [->|]; [|done]. by exists (lit "-"). }
  destruct (_ || _) eqn:Ho.
  - assert (is_option arg) as Harg by by apply Hopt. rewrite IH. split.
    + intros (opts & rest & -> & Hopts & Hsub & -> & Hin). exists (arg :: opts), rest.
      split_and!; [done|by constructor|done|simpl; lia|done].
    + intros (opts & rest & Heq & Hopts & Hsub & -> & Hin). destruct opts as [|o opts].
      * simplify_eq/=. done.
      * simplify_eq/=. inversion Hopts; subst. exists opts, rest. split_and!; [done..|lia|done].
  - assert (¬ is_option arg) as Harg by (rewrite <-Hopt; done).
    clear Hopt Ho. case_bool_decide as Hin.
    + split.
      * intros ?; simplify_eq. exists [], args. split_and!; [done|constructor|done|simpl; lia|done].
      * intros ([|o opts] & rest & Heq & Hopts & Hsub & -> & _); simplify_eq/=; [do 2 f_equal; lia|].
        by inversion Hopts.
    + split; [done|].
      intros ([|o opts] & rest & Heq & Hopts & Hsub & -> & ?); simplify_eq/=; [done|].
      by inversion Hopts.
Qed.

Lemma read_only_subcommand_not_option sub : sub ∈ git_read_only_subcommands → ¬ is_option sub.
Proof.
  intros H. assert (Hall : Forall (λ s, ¬ is_option s) git_read_only_subcommands).
  { apply Forall_forall. intros s Hs [k Hk]. repeat (apply elem_of_cons in Hs as [->|Hs]; [done|]).
    by apply elem_of_nil in Hs. }
  rewrite Forall_forall in Hall. by apply Hall.
Qed.

Lemma branch_loop_spec args saw :
  branch_loop args saw = true ↔
  Forall read_only_branch_arg args ∧ (args = [] → saw = true).
Proof.
  revert saw. induction args as [|a args IH]; intros saw; simpl.
  { split; [intros ->; by split|]. naive_solver. }
  rewrite Forall_cons. unfold read_only_branch_arg at 1. rewrite <-starts_with_spec.
  case_bool_decide; [rewrite IH; naive_solver|].
  destruct (starts_with _ a); [rewrite IH; naive_solver|]. naive_solver.
Qed.

Lemma git_branch_is_read_only_spec args :
  git_branch_is_read_only args = true ↔ Forall read_only_branch_arg args.
Proof.
  destruct args as [|a args]; [split; [constructor|done]|].
  unfold git_branch_is_read_only. rewrite branch_loop_spec. naive_solver.
Qed.

Lemma read_only_args_spec args :
  git_subcommand_args_are_read_only args = true ↔ Forall (λ a, unsafe_git_flag a = false) args.
Proof.
  unfold git_subcommand_args_are_read_only. by rewrite negb_true_iff, existsb_false_Forall.
Qed.

Lemma unsafe_global_option_spec cmd0 args :
  git_has_unsafe_global_option (cmd0 :: args) = false ↔ Forall no_prompt args.
Proof. unfold git_has_unsafe_global_option. simpl. apply existsb_false_Forall. Qed.

Lemma find_git_subcommand_spec prog args j sub :
  Forall no_prompt args →
  find_git_subcommand (prog :: args) git_read_only_subcommands = Some (j, sub) ↔
  file_name prog = Some (lit "git") ∧
  ∃ opts rest, args = opts ++ sub :: rest ∧ Forall is_option opts ∧
    j = S (length opts) ∧ sub ∈ git_read_only_subcommands.
Proof.
  intros Hall. unfold find_git_subcommand, executable_name_lookup_key.
  case_decide as Hg; [|naive_solver]. rewrite git_subcommand_loop_spec by done. split.
  - intros (opts & rest & ? & ? & ? & ? & ?). eauto 10.
  - intros (_ & opts & rest & ? & ? & ? & ?). exists opts, rest.
    split_and!; try done. by apply read_only_subcommand_not_option.
Qed.

(** The result on a recognised invocation. *)
Definition git_args_safe (sub : str) (args : list str) : bool :=
  git_subcommand_args_are_read_only args
  && (negb (bool_decide (sub = lit "branch")) || git_branch_is_read_only args).

Lemma git_args_safe_spec sub args :
  git_args_safe sub args = true ↔
  Forall (λ a, unsafe_git_flag a = false) args ∧
  (sub = lit "branch" → Forall read_only_branch_arg args).
Proof.
  unfold git_args_safe.
  rewrite andb_true_iff, read_only_args_spec, orb_true_iff, negb_true_iff, bool_decide_eq_false,
    git_branch_is_read_only_spec.
  destruct (decide (sub = lit "branch")); tauto.
Qed.

Lemma is_safe_git_command_found prog opts sub rest :
  file_name prog = Some (lit "git") → Forall is_option opts →
  sub ∈ git_read_only_subcommands → Forall no_prompt (opts ++ sub :: rest) →
  is_safe_git_command (prog :: opts ++ sub :: rest) = Ok (git_args_safe sub rest).
Proof.
  intros Hp Ho Hs Hall. unfold is_safe_git_command.
  rewrite (proj2 (unsafe_global_option_spec _ _)) by done.
  rewrite (proj2 (find_git_subcommand_spec prog _ (S (length opts)) sub Hall)) by eauto 10.
  rewrite slice_from_ok by (simpl; rewrite length_app; simpl; lia). cbn [mbind Res_bind].
  replace (drop (S (length opts) + 1) (prog :: opts ++ sub :: rest)) with rest.
  2: { simpl. rewrite <-drop_drop, drop_app_length. done. }
  unfold git_args_safe. unfold git_read_only_subcommands in Hs. clear Ho Hall.
  repeat (apply elem_of_cons in Hs as [->|Hs];
    [try by (rewrite bool_decide_eq_true_2 by set_solver;
             rewrite bool_decide_eq_false_2 by done; simpl; rewrite andb_true_r)|]).
  - done.
  - by apply elem_of_nil in Hs.
Qed.

Lemma is_safe_git_command_cases command :
  is_safe_git_command command = Ok false ∨
  ∃ prog opts sub rest, command = prog :: opts ++ sub :: rest ∧
    file_name prog = Some (lit "git") ∧ Forall is_option opts ∧
    sub ∈ git_read_only_subcommands ∧ Forall no_prompt (opts ++ sub :: rest).
Proof.
  unfold is_safe_git_command. destruct (git_has_unsafe_global_option command) eqn:Hu; [by left|].
  destruct (find_git_subcommand _ _) as [[j sub]|] eqn:Hf; [|by left]. right.
  destruct command as [|prog args]; [done|]. apply unsafe_global_option_spec in Hu.
  apply find_git_subcommand_spec in Hf as (Hp & opts & rest & -> & ? & ? & ?); [|done].
  by exists prog, opts, sub, rest.
Qed.

Lemma is_safe_git_command_spec command :
  ∃ b, is_safe_git_command command = Ok b ∧ (b = true ↔ safe_git command).
Proof.
  destruct (is_safe_git_command_cases command)
    as [Hno|(prog & opts & sub & rest & -> & Hp & Ho & Hs & Hall)].
  - exists false. split; [done|]. split; [done|]. intros Hg. exfalso.
    inversion Hg as [? ? ? ? ? ? ? ? Hf Hb]; subst.
    rewrite is_safe_git_command_found in Hno by done.
    apply (inj Ok) in Hno. rewrite (proj2 (git_args_safe_spec _ _)) in Hno; done.
  - eexists. split; [by apply is_safe_git_command_found|].
    rewrite git_args_safe_spec. split; [intros []; by constructor|].
    intros Hg. remember (prog :: opts ++ sub :: rest) as command eqn:Heq.
    destruct Hg as [prog' opts' sub' rest' Hp' Ho' Hs' Hall' Hf Hb].
    injection Heq as -> Heq.
    assert (Hboth : sub' = sub ∧ rest' = rest); [|by destruct Hboth as [-> ->]].
    clear -Ho Ho' Hs Hs' Heq. revert opts' Ho' Heq.
    induction Ho as [|o opts Hoo Ho IH]; intros opts' Ho' Heq.
    + destruct Ho' as [|o' opts' Ho'' ?]; simplify_eq/=; [done|].
      by destruct (read_only_subcommand_not_option _ Hs).
    + destruct Ho' as [|o' opts' Ho'' ?]; simplify_eq/=.
      * by destruct (read_only_subcommand_not_option _ Hs').
      * by eapply IH.
Qed.

(** ** [sed] *)

Lemma is_number_spec s : is_number s = true ↔ number s.
Proof.
  unfold is_number, number.
  by rewrite andb_true_iff, negb_true_iff, bool_decide_eq_false, Forall_forallb.
Qed.

Lemma number_no_comma s : number s → 44%N ∉ s.
Proof. intros [_ Hs] Hin. rewrite Forall_forall in Hs. by specialize (Hs _ Hin). Qed.

Lemma is_valid_sed_n_arg_spec s : is_valid_sed_n_arg (Some s) = true ↔ sed_print_range s.
Proof.
  unfold is_valid_sed_n_arg, sed_print_range. split.
  - destruct (strip_suffix (lit "p") s) as [core|] eqn:Hc; [|done].
    apply strip_suffix_Some in Hc as ->. assert (Hj := join_split_on 44%N core).
    destruct (split_on 44%N core) as [|a [|b [|]]]; try done; simpl in Hj; subst core.
    + intros Ha%is_number_spec. eauto.
    + intros [Ha%is_number_spec Hb%is_number_spec]%andb_true_iff.
      exists b. split; [done|]. right. exists a. split; [done|]. by rewrite <-!app_assoc.
  - intros (b & Hb & Hs). assert (Hnb := number_no_comma _ Hb).
    destruct Hs as [->|(a & Ha & ->)].
    + rewrite (proj2 (strip_suffix_Some (lit "p") _ b)) by done.
      rewrite split_on_no_sep by done. by apply is_number_spec.
    + rewrite (proj2 (strip_suffix_Some (lit "p") _ (a ++ 44%N :: b)))
        by (rewrite <-app_assoc; done).
      rewrite split_on_app, split_on_no_sep by (done || by apply number_no_comma).
      apply andb_true_iff. by rewrite !is_number_spec.
Qed.

#[local] Arguments is_valid_sed_n_arg : simpl never.

Lemma sed_guard_spec cmd0 args :
  bool_decide (length (cmd0 :: args) ≤ 4) && bool_decide ((cmd0 :: args) !! 1 = Some (lit "-n"))
    && is_valid_sed_n_arg ((cmd0 :: args) !! 2) = true ↔
  ∃ range files, args = lit "-n" :: range :: files ∧ sed_print_range range ∧ length files ≤ 1.
Proof.
  rewrite !andb_true_iff, !bool_decide_eq_true. destruct args as [|flag [|range files]]; simpl.
  1-2: naive_solver.
  rewrite is_valid_sed_n_arg_spec. split.
  - intros [[? ?] ?]. exists range, files. simplify_eq. split_and!; [done..|lia].
  - intros (range' & files' & ? & ? & ?). simplify_eq. split_and!; [lia|done..].
Qed.

(** ** Every command *)

Lemma negb_existsb_spec {A} (f : A → bool) l :
  negb (existsb f l) = true ↔ Forall (λ a, f a = false) l.
Proof. by rewrite negb_true_iff, existsb_false_Forall. Qed.

Lemma exec_safe_inv cmd0 args :
  exec_safe (cmd0 :: args) ↔ ∃ cmd, file_name cmd0 = Some cmd ∧
    (cmd ∈ linux_safe_commands ++ always_safe_commands
     ∨ cmd = lit "base64" ∧ Forall (λ a, unsafe_base64_option a = false) args
     ∨ cmd = lit "find" ∧ Forall (.∉ UNSAFE_FIND_OPTIONS) (cmd0 :: args)
     ∨ cmd = lit "rg" ∧ Forall (λ a, unsafe_ripgrep_option a = false) (cmd0 :: args)
     ∨ cmd = lit "git" ∧ safe_git (cmd0 :: args)
     ∨ cmd = lit "sed" ∧ ∃ range files, args = lit "-n" :: range :: files ∧
         sed_print_range range ∧ length files ≤ 1).
Proof.
  split.
  - intros H. remember (cmd0 :: args) as command eqn:Hc.
    destruct H as [? ? ? ? ?|? ? ? ?|? ? ? ?|? ? ? ?|command Hg|? ? ? ? ? ?]; simplify_eq; eauto 15.
    assert (file_name cmd0 = Some (lit "git")) by by inversion Hg. eauto 15.
  - intros (cmd & Hf & [?|[[-> ?]|[[-> ?]|[[-> ?]|[[-> ?]|(-> & r & fs & -> & ? & ?)]]]]]).
    + by eapply exec_safe_always.
    + by apply exec_safe_base64.
    + by apply exec_safe_find.
    + by apply exec_safe_rg.
    + by apply exec_safe_git.
    + by apply exec_safe_sed.
Qed.

Lemma find_options_spec l :
  negb (existsb (λ arg, bool_decide (arg ∈ UNSAFE_FIND_OPTIONS)) l) = true ↔
  Forall (.∉ UNSAFE_FIND_OPTIONS) l.
Proof.
  rewrite negb_existsb_spec, !Forall_forall.
  setoid_rewrite bool_decide_eq_false. done.
Qed.

(** Choose the disjunct of a list of cases that a known command name selects. *)
Ltac select_case :=
  solve [ split; [reflexivity|assumption] | left; split; [reflexivity|assumption]
        | right; select_case ].
Ltac by_command_name :=
  split; [intros ?; first [discriminate|select_case]|];
  intros [[? ?]|[[? ?]|[[? ?]|[[? ?]|[? ?]]]]]; first [assumption|discriminate|contradiction].

Lemma is_safe_to_call_with_exec_spec command :
  ∃ b, is_safe_to_call_with_exec command = Ok b ∧ (b = true ↔ exec_safe command).
Proof.
  destruct command as [|cmd0 args].
  { exists false. split; [done|]. split; [done|].
    intros H. inversion H as [| | | |? Hg|]; inversion Hg. }
  unfold is_safe_to_call_with_exec, executable_name_lookup_key.
  destruct (file_name cmd0) as [cmd|] eqn:Hf.
  2: { exists false. split; [done|]. rewrite exec_safe_inv. split; [done|].
       intros (? & ? & _). congruence. }
  setoid_rewrite exec_safe_inv. rewrite Hf.
  case_bool_decide as Hl.
  { eexists. split; [done|]. split; [|done]. intros _. exists cmd. rewrite elem_of_app. auto. }
  case_bool_decide as Ha.
  { eexists. split; [done|]. split; [|done]. intros _. exists cmd. rewrite elem_of_app. auto. }
  assert (Hn : cmd ∉ linux_safe_commands ++ always_safe_commands)
    by (rewrite elem_of_app; intros []; contradiction).
  clear Hl Ha.
  assert (Hpick : ∀ b P1 P2 P3 P4 P5,
    (b = true ↔ cmd = lit "base64" ∧ P1 ∨ cmd = lit "find" ∧ P2 ∨ cmd = lit "rg" ∧ P3
                ∨ cmd = lit "git" ∧ P4 ∨ cmd = lit "sed" ∧ P5) →
    (b = true ↔ ∃ cmd', Some cmd = Some cmd' ∧
      (cmd' ∈ linux_safe_commands ++ always_safe_commands
       ∨ cmd' = lit "base64" ∧ P1 ∨ cmd' = lit "find" ∧ P2 ∨ cmd' = lit "rg" ∧ P3
       ∨ cmd' = lit "git" ∧ P4 ∨ cmd' = lit "sed" ∧ P5))).
  { intros b P1 P2 P3 P4 P5 ->. split; [eauto|]. by intros (? & [= <-] & [?|?]). }
  case_decide; [subst|case_decide; [subst|case_decide; [subst|case_decide;
    [subst|case_decide; [subst|]]]]].
  4: { destruct (is_safe_git_command_spec (cmd0 :: args)) as (b & -> & Hb). exists b.
       split; [done|]. apply Hpick. rewrite Hb. clear.
       by_command_name. }
  all: eexists; split; [reflexivity|]; apply Hpick; clear Hpick Hn;
    rewrite ?find_options_spec, ?negb_existsb_spec, ?sed_guard_spec;
    by_command_name.
Qed.

Lemma all_res_spec {A} (f : A → Total bool) (P : A → Prop) l :
  (∀ a, ∃ b, f a = Ok b ∧ (b = true ↔ P a)) →
  ∃ b, all_res f l = Ok b ∧ (b = true ↔ Forall P l).
Proof.
  intros Hf. induction l as [|a l IH]; simpl; [exists true; by repeat split|].
  destruct (Hf a) as (b & -> & Hb). destruct IH as (b' & Hl & Hb'). simpl.
  destruct b; [exists b'|exists false]; (split; [done|]); rewrite Forall_cons; naive_solver.
Qed.

(** ** PowerShell *)

(** A PowerShell command that only reads: no word names a cmdlet with side
    effects, and the first one is on the safelist. *)
Definition safe_powershell (words : list str) : Prop :=
  Forall (λ w, cmdlet_name w ∉ side_effecting_cmdlets) words ∧
  ∃ command, cmdlet_name <$> head words = Some command ∧
    (command ∈ read_only_cmdlets
     ∨ command = lit "git" ∧ safe_git words
     ∨ command = lit "rg" ∧
       Forall (λ a, unsafe_ripgrep_option (to_ascii_lowercase a) = false) (drop 1 words)).

Lemma is_safe_powershell_words_spec words :
  ∃ b, is_safe_powershell_words words = Ok b ∧ (b = true ↔ safe_powershell words).
Proof.
  unfold safe_powershell. destruct words as [|w0 ws].
  { exists false. split; [done|]. split; [done|]. by intros (_ & ? & ? & _). }
  unfold is_safe_powershell_words. simpl head. simpl fmap.
  destruct (existsb _ _) eqn:He.
  { exists false. split; [done|]. split; [done|]. intros [Hall _]. exfalso.
    apply existsb_exists in He as (w & Hw & Hb). apply list_elem_of_In in Hw.
    apply bool_decide_eq_true in Hb. rewrite Forall_forall in Hall. by apply (Hall w). }
  apply existsb_false_Forall in He.
  assert (Hall : Forall (λ w, cmdlet_name w ∉ side_effecting_cmdlets) (w0 :: ws)).
  { eapply Forall_impl; [exact He|]. intros w. apply bool_decide_eq_false. }
  clear He. generalize (cmdlet_name w0); intros command.
  case_bool_decide as Hr.
  { exists true. split; [done|]. split; [eauto|done]. }
  case_decide as Hg; [subst command|].
  { destruct (is_safe_git_command_spec (w0 :: ws)) as (b & -> & Hb). exists b. split; [done|].
    rewrite Hb. split; [eauto 10|]. by intros (_ & ? & [= <-] & [?|[[_ ?]|[[=] _]]]). }
  case_decide as Hrg; [subst command|].
  { eexists. split; [done|]. unfold is_safe_ripgrep. rewrite negb_existsb_spec.
    split; [eauto 10|]. by intros (_ & ? & [= <-] & [?|[[[=] _]|[_ ?]]]). }
  exists false. split; [done|]. split; [done|]. by intros (_ & ? & [= <-] & [?|[[? _]|[? _]]]).
Qed.

(** ** Shell names *)

Definition unix_shell_names : list str := [lit "zsh"; lit "bash"; lit "sh"].

Lemma file_name_no_slash p name : file_name p = Some name → c_slash ∉ name.
Proof.
  intros H%file_name_elem. assert (Hall := split_on_no_sep_inside c_slash p).
  rewrite Forall_forall in Hall. by apply Hall.
Qed.

Lemma file_stem_prefix p stem :
  file_stem p = Some stem → ∃ name, file_name p = Some name ∧ stem `prefix_of` name.
Proof.
  unfold file_stem. destruct (file_name p) as [name|]; [|done].
  destruct (rsplit_once c_dot name) as [[before after]|] eqn:Hr; [|naive_solver].
  apply rsplit_once_Some in Hr. case_decide; intros [= <-]; exists name; (split; [done|]).
  - done.
  - subst name. by eexists.
Qed.

Lemma file_stem_idem p stem name :
  file_stem p = Some stem → file_name stem = Some name → name = stem.
Proof.
  intros (f & Hf & Hpre)%file_stem_prefix Hn. apply file_name_no_slash in Hf.
  apply file_name_elem in Hn. rewrite split_on_no_sep in Hn.
  - by apply list_elem_of_singleton in Hn.
  - intros Hin. apply Hf. destruct Hpre as [k ->]. apply elem_of_app. by left.
Qed.

Lemma shell_type_of_name_unix p t :
  shell_type_of_name p = Some t → t ∈ [Zsh; Bash; Sh] → p ∈ unix_shell_names.
Proof.
  unfold shell_type_of_name, unix_shell_names. intros H Ht.
  repeat case_decide; simplify_eq; set_solver.
Qed.

(** A path taken for a Unix shell has a file name that starts like one. *)
Lemma detect_unix_prefix fuel p t :
  detect_loop fuel p = Ok t → t ∈ [Zsh; Bash; Sh] →
  ∃ n f, n ∈ unix_shell_names ∧ file_name p = Some f ∧ n `prefix_of` f.
Proof.
  revert p. induction fuel as [|fuel IH]; intros p; simpl; [done|].
  destruct (shell_type_of_name p) as [t'|] eqn:Hs.
  - intros H Ht. apply (inj Ok) in H as ->. exists p, p.
    assert (Hp := shell_type_of_name_unix _ _ Hs Ht).
    split; [done|]. split; [|done]. unfold unix_shell_names in Hp.
    repeat (apply elem_of_cons in Hp as [->|Hp]; [reflexivity|]). by apply elem_of_nil in Hp.
  - destruct (file_stem p) as [stem|] eqn:Hst; [|done]. case_decide; [done|].
    intros Hd Ht. destruct (IH _ Hd Ht) as (n & f & Hn & Hf & Hpre).
    apply (file_stem_idem _ _ _ Hst) in Hf as ->.
    destruct (file_stem_prefix _ _ Hst) as (name & Hname & Hpre').
    exists n, name. split; [done|]. split; [done|]. by etrans.
Qed.

Definition looks_like_shell (name : str) : bool :=
  existsb (λ n, starts_with n name) unix_shell_names.

Lemma extract_not_shell shell name rest :
  file_name shell = Some name → looks_like_shell name = false →
  extract_bash_command (shell :: rest) = Err tt.
Proof.
  intros Hf Hl. assert (Hnp := extract_bash_command_no_panic (shell :: rest)).
  destruct (extract_bash_command (shell :: rest)) as [[sh script]|[]|?] eqn:He; [|done..].
  apply extract_bash_command_Ok in He as (flag & t & Heq & _ & Hd & Ht). simplify_eq.
  destruct (detect_unix_prefix _ _ _ Hd Ht) as (n & f & Hn & Hf' & Hpre). simplify_eq.
  apply existsb_false_Forall in Hl. rewrite Forall_forall in Hl.
  apply starts_with_spec in Hpre. rewrite Hl in Hpre; done.
Qed.

(** ** Words come from the script *)

Lemma encode_app s t : encode (s ++ t) = encode s ++ encode t.
Proof. unfold encode. by rewrite map_app, concat_app. Qed.

Lemma utf8_text_bytes n src w : utf8_text n src = Ok w → encode w ⊆ encode src.
Proof.
  unfold utf8_text. destruct (slice _ _ _) as [bytes|?|?] eqn:Hs; [|done..]. simpl.
  assert (Hsound := from_utf8_sound bytes). destruct (from_utf8 bytes) as [text|]; [|done].
  intros H. apply (inj Ok) in H as ->. destruct Hsound as [-> _].
  unfold slice in Hs. case_decide; [|done]. apply (inj Ok) in Hs as <-.
  etrans; [apply subseteq_take|apply subseteq_drop].
Qed.

Lemma reads_bytes src n w : reads src n w → encode w ⊆ encode src.
Proof.
  revert n w. fix IH 3. intros n w H.
  destruct H as [n w _ Ht|n w _ _ Ht|n w _ Ht|n c cs w _ _ _ Ht|n ws _ Hall _].
  - by eapply utf8_text_bytes.
  - apply utf8_text_bytes in Ht. rewrite !encode_app in Ht. set_solver.
  - apply utf8_text_bytes in Ht. rewrite !encode_app in Ht. set_solver.
  - by eapply utf8_text_bytes.
  - induction Hall as [|c w cs ws Hc Hall IHall].
    + intros b Hb. destruct (proj1 (elem_of_nil b) Hb).
    + simpl. rewrite encode_app. intros b Hb. apply elem_of_app in Hb as [Hb|Hb].
      * exact (IH c w Hc b Hb).
      * exact (IHall b Hb).
Qed.

(** ** Dangerous commands *)

(** [sudo ... sudo rm -f ...] or [rm -rf ...] *)
Definition forced_rm (command : list str) : Prop :=
  ∃ n flag rest, command = replicate n (lit "sudo") ++ lit "rm" :: flag :: rest ∧
    flag ∈ [lit "-f"; lit "-rf"].

Lemma is_dangerous_to_call_with_exec_spec command :
  is_dangerous_to_call_with_exec command = true ↔ forced_rm command.
Proof.
  unfold forced_rm. induction command as [|cmd0 args IH]; simpl.
  { split; [done|]. by intros ([|n] & flag & rest & ? & _). }
  case_decide as Hrm; [subst cmd0|case_decide as Hsu; [subst cmd0|]].
  - split.
    + destruct args as [|flag rest]; [done|]. intros Hf%bool_decide_eq_true. by exists 0, flag, rest.
    + intros ([|n] & flag & rest & Heq & Hf); [|discriminate Heq].
      injection Heq as ->. by apply bool_decide_eq_true.
  - rewrite IH. split.
    + intros (n & flag & rest & -> & Hf). by exists (S n), flag, rest.
    + intros ([|n] & flag & rest & Heq & Hf); [discriminate Heq|].
      injection Heq as ->. by exists n, flag, rest.
  - split; [done|]. intros ([|n] & flag & rest & Heq & _); by simplify_eq/=.
Qed.

Lemma forced_rm_head cmd0 args :
  forced_rm (cmd0 :: args) → cmd0 = lit "rm" ∨ cmd0 = lit "sudo".
Proof. intros ([|n] & flag & rest & Heq & _); simplify_eq/=; auto. Qed.

(** The names of the programs that may be safe. *)
Definition program_names : list str :=
  linux_safe_commands ++ always_safe_commands
  ++ [lit "base64"; lit "find"; lit "rg"; lit "git"; lit "sed"].

Lemma exec_safe_name cmd0 args :
  exec_safe (cmd0 :: args) → ∃ cmd, file_name cmd0 = Some cmd ∧ cmd ∈ program_names.
Proof.
  intros (cmd & Hf & Hc)%exec_safe_inv. exists cmd. split; [done|]. unfold program_names.
  rewrite app_assoc. apply elem_of_app.
  destruct Hc as [?|[[-> _]|[[-> _]|[[-> _]|[[-> _]|[-> _]]]]]]; [by left|right; set_solver..].
Qed.

(** A name that neither is a Unix shell's nor [rm] nor [sudo]. *)
Definition harmless_name (name : str) : bool :=
  negb (looks_like_shell name) && negb (bool_decide (name ∈ [lit "rm"; lit "sudo"])).

Lemma program_names_harmless name : name ∈ program_names → harmless_name name = true.
Proof.
  assert (H : forallb harmless_name program_names = true) by (vm_compute; reflexivity).
  apply Forall_forallb in H. rewrite Forall_forall in H. apply H.
Qed.

Lemma exec_safe_not_forced_rm command : exec_safe command → ¬ forced_rm command.
Proof.
  intros Hs Hr. destruct command as [|cmd0 args].
  { by destruct Hr as ([|] & ? & ? & ? & _). }
  destruct (exec_safe_name _ _ Hs) as (cmd & Hf & Hc%program_names_harmless).
  destruct (forced_rm_head _ _ Hr) as [->| ->]; vm_compute in Hf; simplify_eq; by vm_compute in Hc.
Qed.

(** A command whose first word has a harmless name is not dangerous. *)
Lemma harmless_not_dangerous parse cmd0 args name :
  file_name cmd0 = Some name → harmless_name name = true →
  command_might_be_dangerous parse (cmd0 :: args) = Ok false.
Proof.
  intros Hf [Hl Hn]%andb_true_iff. unfold command_might_be_dangerous.
  destruct (is_dangerous_to_call_with_exec _) eqn:Hd.
  { apply is_dangerous_to_call_with_exec_spec, forced_rm_head in Hd.
    destruct Hd as [->| ->]; vm_compute in Hf; simplify_eq; by vm_compute in Hn. }
  unfold parse_shell_lc_plain_commands.
  rewrite (extract_not_shell _ _ _ Hf) by by apply negb_true_iff. done.
Qed.

Definition powershell_names : list str :=
  [lit "powershell"; lit "powershell.exe"; lit "pwsh"; lit "pwsh.exe"].

Lemma starts_with_lower n name :
  n ∈ unix_shell_names → starts_with n name = true → starts_with n (to_ascii_lowercase name) = true.
Proof.
  intros Hn Hs. apply starts_with_spec in Hs as [k ->]. apply starts_with_spec.
  exists (to_ascii_lowercase k). unfold to_ascii_lowercase. rewrite map_app. f_equal.
  unfold unix_shell_names in Hn.
  repeat (apply elem_of_cons in Hn as [->|Hn]; [reflexivity|]). by apply elem_of_nil in Hn.
Qed.

Lemma powershell_name_harmless name :
  to_ascii_lowercase name ∈ powershell_names → harmless_name name = true.
Proof.
  intros Hin. assert (Hall : forallb harmless_name powershell_names = true)
    by (vm_compute; reflexivity).
  apply Forall_forallb in Hall. rewrite Forall_forall in Hall. specialize (Hall _ Hin).
  unfold harmless_name in *. apply andb_true_iff in Hall as [Hl _].
  apply andb_true_iff. split.
  - apply negb_true_iff in Hl. apply negb_true_iff. unfold looks_like_shell in *.
    apply existsb_false_Forall in Hl. apply existsb_false_Forall.
    rewrite Forall_forall in Hl. apply Forall_forall. intros n Hn.
    destruct (starts_with n name) eqn:Hs; [|done].
    apply starts_with_lower in Hs; [|done]. by rewrite Hl in Hs.
  - apply negb_true_iff, bool_decide_eq_false. intros Hn.
    repeat (apply elem_of_cons in Hn as [->|Hn];
      [vm_compute in Hin; repeat (apply elem_of_cons in Hin as [?|Hin]; [done|]);
       by apply elem_of_nil in Hin|]). by apply elem_of_nil in Hn.
Qed.

Lemma lowercase_good_name exe : good_name (to_ascii_lowercase exe) → good_name exe.
Proof.
  unfold good_name. intros (Hne & Hsl & Hd & Hdd). split_and!.
  - by intros ->.
  - intros Hin. apply Hsl. unfold to_ascii_lowercase. apply list_elem_of_fmap. by exists c_slash.
  - by intros ->.
  - by intros ->.
Qed.

Lemma good_file_name p : good_name p → file_name p = Some p.
Proof.
  intros Hg. destruct (Hg) as (Hne & Hsl & Hd & _). unfold file_name, components.
  rewrite split_on_no_sep by done. simpl. rewrite good_body_component by done.
  by rewrite last_snoc.
Qed.

Lemma powershell_harmless exe :
  is_powershell_executable exe = true →
  ∃ name, file_name exe = Some name ∧ harmless_name name = true.
Proof.
  unfold is_powershell_executable. intros Hp%bool_decide_eq_true.
  destruct (file_name exe) as [name|] eqn:Hf; simpl in Hp.
  - exists name. split; [done|]. by apply powershell_name_harmless.
  - exfalso. assert (Hg : good_name (to_ascii_lowercase exe)).
    { assert (Hall : Forall good_name powershell_names) by by_compute.
      rewrite Forall_forall in Hall. by apply Hall. }
    apply lowercase_good_name, good_file_name in Hg. congruence.
Qed.

(** A script whose text is [zsh] has no dangerous command: the words [rm] and
    [sudo] have bytes that it has not. *)
Lemma zsh_script_harmless root cmds :
  plain_script (lit "zsh") root cmds → existsb is_dangerous_to_call_with_exec cmds = false.
Proof.
  intros [_ _ (nodes & _ & _ & Hall)]. apply existsb_false_Forall.
  induction Hall as [|n ws nodes cmds Hws Hall IH]; constructor; [|done].
  destruct (is_dangerous_to_call_with_exec ws) eqn:Hd; [|done]. exfalso.
  apply is_dangerous_to_call_with_exec_spec in Hd.
  destruct Hws as [|c w cs ws Hw Hws]; [by destruct Hd as ([|] & ? & ? & ? & _)|].
  apply forced_rm_head in Hd. apply reads_bytes in Hw.
  destruct Hd as [->| ->]; [specialize (Hw 109%N)|specialize (Hw 117%N)];
    vm_compute in Hw; set_solver by lia.
Qed.
(** ** The entry points *)

Section entry_points.
Context (try_parse_shell : str → option Node).
Context (parse_with_powershell_ast : str → str → PowershellParseOutcome).

(** A command whose script is a sequence of plain commands. *)
Definition shell_script (command : list str) (cmds : list (list str)) : Prop :=
  ∃ shell flag script root t,
    command = [shell; flag; script] ∧ flag ∈ [lit "-lc"; lit "-c"] ∧
    detect_shell_type shell = Ok t ∧ t ∈ [Zsh; Bash; Sh] ∧
    try_parse_shell script = Some root ∧ plain_script script root cmds.

Definition powershell_script (command : list str) (cmds : list (list str)) : Prop :=
  ∃ exe args, command = exe :: args ∧ is_powershell_executable exe = true ∧
    parse_powershell_invocation parse_with_powershell_ast exe args = Some cmds.

Lemma plain_commands_script command cmds :
  parse_shell_lc_plain_commands try_parse_shell command = Ok cmds → shell_script command cmds.
Proof.
  intros (shell & script & root & He & Hp & Hw)%plain_commands_Ok.
  apply extract_bash_command_Ok in He as (flag & t & -> & Hf & Hd & Ht).
  apply word_only_plain in Hw. by exists shell, flag, script, root, t.
Qed.

Lemma windows_spec command :
  ∃ b, is_safe_command_windows parse_with_powershell_ast command = Ok b ∧
    (b = true ↔ ∃ cmds, powershell_script command cmds ∧ Forall safe_powershell cmds).
Proof.
  clear try_parse_shell. unfold is_safe_command_windows, powershell_script, try_parse_powershell_command_sequence.
  destruct command as [|exe args]; [exists false; naive_solver|].
  destruct (is_powershell_executable exe) eqn:He; [|exists false; naive_solver].
  destruct (parse_powershell_invocation _ _ _) as [cmds|] eqn:Hp; [|exists false; naive_solver].
  destruct (all_res_spec _ _ cmds is_safe_powershell_words_spec) as (b & -> & Hb).
  exists b. split; [done|]. rewrite Hb. split; [eauto 10|].
  intros (cmds' & (? & ? & ? & _ & Hp') & ?). simplify_eq. congruence.
Qed.

(** The three ways in which a command can be known to be safe. *)
Definition known_safe (command : list str) : Prop :=
  (∃ cmds, powershell_script command cmds ∧ Forall safe_powershell cmds)
  ∨ exec_safe command
  ∨ ∃ cmds, shell_script command cmds ∧ cmds ≠ [] ∧ Forall exec_safe cmds.

Lemma known_safe_cases command :
  is_known_safe_command try_parse_shell parse_with_powershell_ast command = Ok true →
  (∃ cmds, powershell_script (map zsh_as_bash command) cmds ∧ Forall safe_powershell cmds)
  ∨ exec_safe (map zsh_as_bash command)
  ∨ ∃ cmds, parse_shell_lc_plain_commands try_parse_shell (map zsh_as_bash command) = Ok cmds ∧
      cmds ≠ [] ∧ Forall exec_safe cmds.
Proof.
  unfold is_known_safe_command. generalize (map zsh_as_bash command); clear command.
  intros command.
  destruct (windows_spec command) as (bw & -> & Hw). simpl.
  destruct bw; [intros _; left; by apply Hw|].
  destruct (is_safe_to_call_with_exec_spec command) as (bd & -> & Hd). simpl.
  destruct bd; [intros _; right; left; by apply Hd|]. unfold if_let_some.
  destruct (parse_shell_lc_plain_commands _ _) as [cmds|?|?] eqn:Hp; [|done..].
  case_bool_decide as Hne; [done|].
  destruct (all_res_spec _ _ cmds is_safe_to_call_with_exec_spec) as (b & -> & Hb).
  intros H. apply (inj Ok) in H as ->. right. right. exists cmds.
  split; [done|]. split; [done|]. by apply Hb.
Qed.

Context (parser_law : ∀ src root, try_parse_shell src = Some root → tree_of src root).

Lemma plain_commands_cases command :
  (∃ cmds, parse_shell_lc_plain_commands try_parse_shell command = Ok cmds)
  ∨ parse_shell_lc_plain_commands try_parse_shell command = Err tt.
Proof using parser_law.
  assert (H := plain_commands_no_panic _ parser_law command).
  destruct (no_panic_cases _ H) as [|[[] ?]]; auto.
Qed.


Lemma zsh_as_bash_id s : s ≠ lit "zsh" → zsh_as_bash s = s.
Proof. intros. unfold zsh_as_bash. by rewrite decide_False. Qed.

Lemma harmless_mapped cmd0 args name :
  file_name (zsh_as_bash cmd0) = Some name → harmless_name name = true →
  command_might_be_dangerous try_parse_shell (cmd0 :: args) = Ok false.
Proof.
  unfold zsh_as_bash. case_decide; [|apply harmless_not_dangerous].
  intros Hf Hh. vm_compute in Hf. simplify_eq; by vm_compute in Hh.
Qed.

(** Mapping [zsh] to [bash] changes neither the flag nor, but for a script
    that is the word [zsh], the script. *)
Lemma mapped_script_not_dangerous command cmds :
  parse_shell_lc_plain_commands try_parse_shell (map zsh_as_bash command) = Ok cmds →
  Forall exec_safe cmds →
  command_might_be_dangerous try_parse_shell command = Ok false.
Proof using parser_law.
  intros Hp Hsafe. apply plain_commands_Ok in Hp as (shell' & script' & root' & He & Hr & Hw).
  apply extract_bash_command_Ok in He as (flag' & t & Hc & Hf & Hd & Ht).
  destruct command as [|shell [|flag [|script [|]]]]; try discriminate Hc. simplify_eq/=.
  unfold command_might_be_dangerous. destruct (is_dangerous_to_call_with_exec _) eqn:Hdir.
  { exfalso. apply is_dangerous_to_call_with_exec_spec, forced_rm_head in Hdir.
    destruct (detect_unix_prefix _ _ _ Hd Ht) as (n & f & Hn & Hfn & Hpre).
    unfold unix_shell_names in Hn. apply starts_with_spec in Hpre.
    destruct Hdir as [->| ->]; vm_compute in Hfn; simplify_eq;
      repeat (apply elem_of_cons in Hn as [->|Hn]; [by vm_compute in Hpre|]);
      by apply elem_of_nil in Hn. }
  destruct (plain_commands_cases [shell; flag; script]) as [[cmds' Hp']| ->]; [|done].
  rewrite Hp'. simpl. f_equal.
  apply plain_commands_Ok in Hp' as (shell2 & script2 & root2 & He2 & Hr2 & Hw2).
  apply extract_bash_command_Ok in He2 as (flag2 & t2 & Hc2 & Hf2 & _). simplify_eq.
  destruct (decide (script2 = lit "zsh")) as [->|Hz].
  - by eapply zsh_script_harmless, word_only_plain.
  - rewrite zsh_as_bash_id in Hr, Hw by done. simplify_eq.
    rewrite Hw in Hw2. apply (inj Ok) in Hw2 as <-.
    apply existsb_false_Forall. eapply Forall_impl; [exact Hsafe|]. intros ws Hws.
    destruct (is_dangerous_to_call_with_exec ws) eqn:Hx; [|done].
    apply is_dangerous_to_call_with_exec_spec in Hx. by apply exec_safe_not_forced_rm in Hws.
Qed.

(** [command_might_be_dangerous] always returns, and it returns [true] for
    exactly the commands [sudo* rm -f|-rf ...] and the [bash|zsh|sh -lc|-c]
    scripts of plain commands in which one command has that form. *)
Theorem dangerous_correct command :
  ∃ b, command_might_be_dangerous try_parse_shell command = Ok b ∧
    (b = true ↔ forced_rm command
                ∨ ∃ cmds, parse_shell_lc_plain_commands try_parse_shell command = Ok cmds ∧
                          Exists forced_rm cmds).
Proof using parser_law.
  unfold command_might_be_dangerous. destruct (is_dangerous_to_call_with_exec command) eqn:Hd.
  { apply is_dangerous_to_call_with_exec_spec in Hd. exists true. split; [done|]. tauto. }
  assert (Hn : ¬ forced_rm command) by (rewrite <-is_dangerous_to_call_with_exec_spec; congruence).
  destruct (plain_commands_cases command) as [[cmds Hc]|Hc]; rewrite Hc; simpl.
  - eexists. split; [reflexivity|]. rewrite existsb_exists. split.
    + intros (ws & Hin & Hws). right. exists cmds. split; [done|]. apply Exists_exists.
      exists ws. split; [by apply list_elem_of_In|by apply is_dangerous_to_call_with_exec_spec].
    + intros [?|(cmds' & Hc' & Hex)]; [done|]. apply (inj Ok) in Hc' as <-.
      apply Exists_exists in Hex as (ws & Hin & Hws). exists ws.
      split; [by apply list_elem_of_In|by apply is_dangerous_to_call_with_exec_spec].
  - exists false. split; [done|]. split; [done|]. by intros [?|(? & ? & _)].
Qed.

(** A command that is known to be safe (and so runs without asking) is
    never one that might be dangerous, whichever form it has. *)
Theorem safe_never_dangerous command :
  is_known_safe_command try_parse_shell parse_with_powershell_ast command = Ok true →
  command_might_be_dangerous try_parse_shell command = Ok false.
Proof using parser_law.
  intros Hs. destruct (known_safe_cases _ Hs)
    as [(cmds & (exe & args & Heq & Hexe & _) & _)|[Hex|(cmds & Hp & _ & Hall)]].
  - destruct command as [|cmd0 rest]; [done|]. injection Heq as <- _.
    apply powershell_harmless in Hexe as (name & Hn & Hh). by eapply harmless_mapped.
  - destruct command as [|cmd0 rest].
    { inversion Hex as [| | | |? Hg|]; inversion Hg. }
    destruct (exec_safe_name _ _ Hex) as (name & Hn & Hin).
    by eapply harmless_mapped, program_names_harmless.
  - by eapply mapped_script_not_dangerous.
Qed.
End entry_points.

(** C37. What [is_known_safe_command] accepts is either a PowerShell invocation
    all of whose commands are on the read-only safelist, a command that
    satisfies [exec_safe], or a [bash|sh -lc|-c] script that is a non-empty
    sequence of plain commands, with no redirection, substitution or control
    flow, each of which satisfies [exec_safe] ([zsh] being read as [bash]). *)
Theorem known_safe_sound parse powershell command :
  is_known_safe_command parse powershell command = Ok true →
  known_safe parse powershell (map zsh_as_bash command).
Proof.
  intros [?|[?|(cmds & Hp & ? & ?)]]%known_safe_cases; [by left|by right; left|].
  right. right. exists cmds. split; [by apply plain_commands_script|done].
Qed.

(** [is_safe_to_call_with_exec] returns on every command and accepts
    exactly the commands of [exec_safe]: the always-safe programs, [base64],
    [find] and [rg] without the options that write or execute, [sed -n] with a
    print range, and read-only [git]. *)
Theorem exec_safe_correct command :
  ∃ b, is_safe_to_call_with_exec command = Ok b ∧ (b = true ↔ exec_safe command).
Proof. apply is_safe_to_call_with_exec_spec. Qed.

(** [git] with [--paginate] before the subcommand is accepted although
    [--paginate] is one of the flags that should never be auto-approved: the
    flags are looked for behind the subcommand only, where [git] does not take
    this one. *)
Theorem paginate_is_accepted :
  is_safe_git_command [lit "git"; lit "--paginate"; lit "log"] = Ok true ∧
  is_safe_git_command [lit "git"; lit "log"; lit "--paginate"] = Ok false.
Proof. split; reflexivity. Qed.

(** ** Examples *)

Definition demo_powershell (executable script : str) : PowershellParseOutcome :=
  if decide (script = lit "ls") then Commands [[lit "ls"]] else Failed.

Lemma dangerous_correct_witness :
  (∀ src root, demo_parse src = Some root → tree_of src root) ∧
  ∃ b, command_might_be_dangerous demo_parse [lit "sudo"; lit "rm"; lit "-rf"; lit "/"] = Ok b ∧
    (b = true ↔ forced_rm [lit "sudo"; lit "rm"; lit "-rf"; lit "/"]
                ∨ ∃ cmds, parse_shell_lc_plain_commands demo_parse
                            [lit "sudo"; lit "rm"; lit "-rf"; lit "/"] = Ok cmds ∧
                          Exists forced_rm cmds).
Proof. split; [exact demo_parse_law|]. apply dangerous_correct, demo_parse_law. Defined.

Lemma safe_never_dangerous_witness :
  is_known_safe_command demo_parse demo_powershell [lit "zsh"; lit "-lc"; demo_script] = Ok true ∧
  command_might_be_dangerous demo_parse [lit "zsh"; lit "-lc"; demo_script] = Ok false.
Proof.
  split; [vm_compute; reflexivity|].
  apply (safe_never_dangerous demo_parse demo_powershell); [exact demo_parse_law|].
  vm_compute. reflexivity.
Defined.

Lemma known_safe_sound_witness :
  known_safe demo_parse demo_powershell (map zsh_as_bash [lit "zsh"; lit "-lc"; demo_script]).
Proof. apply known_safe_sound. vm_compute. reflexivity. Defined.
