(* ===== verification/HeadTailBuffer.v ===== *)
(** * The head-tail buffer of unified exec

    [core/src/unified_exec/head_tail_buffer.rs]: output of a process is kept
    up to a byte budget, the first half of the budget for its beginning and
    the rest for its end; the middle is dropped and counted.  Chunks arrive as
    the process writes them; the theorems say that what is retained depends on
    the bytes only, and that no counter is ever wrong or over its budget. *)
From S2P Require Import Prelude MachineInt Utf8.
From Stdlib Require Import Lia.

Local Open Scope N_scope.

Record HeadTailBuffer := mkBuffer {
  max_bytes : N;
  head_budget : N;
  tail_budget : N;
  head : list (list byte);
  tail : list (list byte);
  head_bytes : N;
  tail_bytes : N;
  omitted_bytes : N
}.

Definition UNIFIED_EXEC_OUTPUT_MAX_BYTES : N := 1024 * 1024.

(** ** Operations *)

Definition new_buffer (max_bytes : N) : HeadTailBuffer :=
  let head_budget := max_bytes / 2 in
  let tail_budget := saturating_sub max_bytes head_budget in
  mkBuffer max_bytes head_budget tail_budget [] [] 0 0 0.

Definition default_buffer : HeadTailBuffer := new_buffer UNIFIED_EXEC_OUTPUT_MAX_BYTES.

Definition retained_bytes (b : HeadTailBuffer) : N :=
  saturating_add (head_bytes b) (tail_bytes b).

(** The field updates of the methods. *)
Definition omit (n : N) (b : HeadTailBuffer) : HeadTailBuffer :=
  mkBuffer (max_bytes b) (head_budget b) (tail_budget b) (head b) (tail b)
    (head_bytes b) (tail_bytes b) (saturating_add (omitted_bytes b) n).

Definition set_tail (t : list (list byte)) (n : N) (b : HeadTailBuffer) : HeadTailBuffer :=
  mkBuffer (max_bytes b) (head_budget b) (tail_budget b) (head b) t
    (head_bytes b) n (omitted_bytes b).

Definition push_head (chunk : list byte) (b : HeadTailBuffer) : HeadTailBuffer :=
  mkBuffer (max_bytes b) (head_budget b) (tail_budget b) (head b ++ [chunk]) (tail b)
    (saturating_add (head_bytes b) (len chunk)) (tail_bytes b) (omitted_bytes b).

(** The loop of [trim_tail_to_budget]: [excess] bytes leave at the front. *)
Fixpoint trim_loop (excess : N) (t : list (list byte)) (tail_bytes omitted : N) :
    list (list byte) * N * N :=
  if bool_decide (0 < excess) then
    match t with
    | front :: t' =>
        if bool_decide (len front ≤ excess) then
          trim_loop (excess - len front) t' (saturating_sub tail_bytes (len front))
            (saturating_add omitted (len front))
        else (drop (N.to_nat excess) front :: t', saturating_sub tail_bytes excess,
              saturating_add omitted excess)
    | [] => (t, tail_bytes, omitted)
    end
  else (t, tail_bytes, omitted).

Definition trim_tail_to_budget (b : HeadTailBuffer) : HeadTailBuffer :=
  let excess := saturating_sub (tail_bytes b) (tail_budget b) in
  let '(t, n, o) := trim_loop excess (tail b) (tail_bytes b) (omitted_bytes b) in
  mkBuffer (max_bytes b) (head_budget b) (tail_budget b) (head b) t (head_bytes b) n o.

Definition push_to_tail (chunk : list byte) (b : HeadTailBuffer) : HeadTailBuffer :=
  if bool_decide (tail_budget b = 0) then omit (len chunk) b
  else if bool_decide (tail_budget b ≤ len chunk) then
    let start := saturating_sub (len chunk) (tail_budget b) in
    let kept := drop (N.to_nat start) chunk in
    let dropped := saturating_sub (len chunk) (len kept) in
    set_tail [kept] (len kept) (omit dropped (omit (tail_bytes b) b))
  else
    trim_tail_to_budget
      (set_tail (tail b ++ [chunk]) (saturating_add (tail_bytes b) (len chunk)) b).

Definition push_chunk (chunk : list byte) (b : HeadTailBuffer) : HeadTailBuffer :=
  if bool_decide (max_bytes b = 0) then omit (len chunk) b
  else if bool_decide (head_bytes b < head_budget b) then
    let remaining_head := saturating_sub (head_budget b) (head_bytes b) in
    if bool_decide (len chunk ≤ remaining_head) then push_head chunk b
    else
      let head_part := take (N.to_nat remaining_head) chunk in
      let tail_part := drop (N.to_nat remaining_head) chunk in
      let b := if bool_decide (head_part = []) then b else push_head head_part b in
      push_to_tail tail_part b
  else push_to_tail chunk b.

Definition snapshot_chunks (b : HeadTailBuffer) : list (list byte) := head b ++ tail b.

Definition to_bytes (b : HeadTailBuffer) : list byte :=
  fold_left (λ out chunk, out ++ chunk) (tail b)
    (fold_left (λ out chunk, out ++ chunk) (head b) []).

Definition drain_chunks (b : HeadTailBuffer) : HeadTailBuffer * list (list byte) :=
  (mkBuffer (max_bytes b) (head_budget b) (tail_budget b) [] [] 0 0 0, head b ++ tail b).

(** Pushing the chunks of a process one after another. *)
Definition push_chunks (chunks : list (list byte)) (b : HeadTailBuffer) : HeadTailBuffer :=
  fold_left (λ b chunk, push_chunk chunk b) chunks b.

(** ** The specification: a prefix and a suffix of the bytes *)

Definition lastn {A} (n : nat) (l : list A) : list A := drop (length l - n) l.

Definition head_of (max : N) (s : list byte) : list byte := take (N.to_nat (max / 2)) s.
Definition tail_of (max : N) (s : list byte) : list byte :=
  lastn (N.to_nat (max - max / 2)) (drop (N.to_nat (max / 2)) s).

(** A buffer of budget [max] that has seen the bytes [s]. *)
Record has_seen (max : N) (s : list byte) (b : HeadTailBuffer) : Prop := {
  seen_max : max_bytes b = max;
  seen_head_budget : head_budget b = max / 2;
  seen_tail_budget : tail_budget b = max - max / 2;
  seen_head : concat (head b) = head_of max s;
  seen_tail : concat (tail b) = tail_of max s;
  seen_head_bytes : head_bytes b = len (head_of max s);
  seen_tail_bytes : tail_bytes b = len (tail_of max s);
  seen_omitted : omitted_bytes b =
    N.min usize_max (len s - len (head_of max s) - len (tail_of max s))
}.

Section lastn.
Context {A : Type}.
Implicit Types (l k : list A).

Lemma length_lastn n l : length (lastn n l) = (n `min` length l)%nat.
Proof. unfold lastn. rewrite length_drop. lia. Qed.

Lemma lastn_all n l : (length l ≤ n)%nat → lastn n l = l.
Proof. intros H. unfold lastn. by replace (length l - n)%nat with 0%nat by lia. Qed.

(** The end of a text needs only the end of the text before. *)
Lemma lastn_app n l k : lastn n (l ++ k) = lastn n (lastn n l ++ k).
Proof.
  unfold lastn. rewrite !length_app, length_drop.
  destruct (decide (length l ≤ n)%nat).
  - replace (length l - n)%nat with 0%nat by lia. by rewrite drop_0, Nat.sub_0_r.
  - destruct (decide (n ≤ length k)%nat).
    + rewrite !drop_app_ge by (rewrite ?length_drop; lia). f_equal. rewrite length_drop. lia.
    + rewrite !drop_app_le by (rewrite ?length_drop; lia). rewrite drop_drop. do 2 f_equal. lia.
Qed.

Lemma lastn_app_long n l k : (n ≤ length k)%nat → lastn n (l ++ k) = lastn n k.
Proof.
  intros H. unfold lastn. rewrite length_app, drop_app_ge by lia. f_equal. lia.
Qed.
End lastn.

Lemma len_lastn {A} n (l : list A) : len (lastn (N.to_nat n) l) = N.min n (len l).
Proof. unfold len. rewrite length_lastn. lia. Qed.
Lemma len_take {A} n (l : list A) : len (take (N.to_nat n) l) = N.min n (len l).
Proof. unfold len. rewrite length_take. lia. Qed.
Lemma len_drop {A} n (l : list A) : len (drop (N.to_nat n) l) = len l - n.
Proof. unfold len. rewrite length_drop. lia. Qed.
#[export] Hint Rewrite @len_lastn @len_take @len_drop : rust.

(** ** The operations keep the invariant *)

Lemma trim_loop_spec excess t :
  ∀ n o, excess ≤ len (concat t) → len (concat t) ≤ n →
  let '(t', n', o') := trim_loop excess t n o in
  concat t' = drop (N.to_nat excess) (concat t) ∧ n' = n - excess ∧
  (o ≤ usize_max → o' = saturating_add o excess).
Proof.
  revert excess. induction t as [|front t IH]; intros excess n o Hle Hn; simpl.
  - change (len (concat [])) with 0 in *. case_bool_decide; [lia|].
    replace excess with 0 by lia. repeat split; [lia|unfold saturating_add; lia].
  - simpl in Hle, Hn. rewrite len_app in Hle, Hn.
    case_bool_decide as Hex.
    + case_bool_decide as Hf.
      * specialize (IH (excess - len front) (saturating_sub n (len front))
                       (saturating_add o (len front))).
        unfold saturating_sub in *.
        destruct (trim_loop _ t _ _) as [[t' n'] o'].
        destruct IH as (-> & -> & Ho); [lia..|].
        split; [|split].
        -- rewrite drop_app_ge by (unfold len in *; lia). f_equal. unfold len. lia.
        -- lia.
        -- intros. rewrite Ho by apply saturating_add_le. rewrite saturating_add_assoc.
           f_equal. lia.
      * simpl. rewrite drop_app_le by (unfold len in *; lia). done.
    + replace excess with 0 by lia. repeat split; [lia|unfold saturating_add; lia].
Qed.

(** The part of the invariant that the tail is about: [s] are the bytes that
    went to the tail. *)
Lemma push_to_tail_spec b chunk s :
  tail_budget b ≤ 2 ^ 63 →
  concat (tail b) = lastn (N.to_nat (tail_budget b)) s →
  tail_bytes b = len (lastn (N.to_nat (tail_budget b)) s) →
  omitted_bytes b ≤ usize_max →
  let b' := push_to_tail chunk b in
  let kept := lastn (N.to_nat (tail_budget b)) (s ++ chunk) in
  (max_bytes b', head_budget b', tail_budget b', head b', head_bytes b') =
    (max_bytes b, head_budget b, tail_budget b, head b, head_bytes b) ∧
  concat (tail b') = kept ∧ tail_bytes b' = len kept ∧
  omitted_bytes b' =
    saturating_add (omitted_bytes b) (tail_bytes b + len chunk - len kept).
Proof.
  intros Hbud Ht Hn Ho. unfold push_to_tail.
  pose proof (len_lastn (tail_budget b) s) as Hl1.
  pose proof (len_lastn (tail_budget b) (s ++ chunk)) as Hl2. rewrite len_app in Hl2.
  case_bool_decide as H0; [|case_bool_decide as H1]; simpl.
  - rewrite H0 in *. simpl in *. 
    assert (E : ∀ l : list byte, lastn 0 l = []).
    { intros l. unfold lastn. rewrite drop_ge; [done|lia]. }
    rewrite !E in *. repeat split; [done|done|]. f_equal. rewrite Hn, len_nil. lia.
  - unfold saturating_sub. rewrite lastn_app_long by (unfold len in *; lia).
    rewrite app_nil_r. rewrite saturating_add_assoc.
    assert (E : drop (N.to_nat (len chunk - tail_budget b)) chunk =
                lastn (N.to_nat (tail_budget b)) chunk).
    { unfold lastn, len. f_equal. lia. }
    rewrite E. repeat split. f_equal. rewrite len_lastn. lia.
  - assert (Hadd : saturating_add (tail_bytes b) (len chunk) = tail_bytes b + len chunk).
    { apply saturating_add_exact. unfold usize_max. lia. }
    unfold trim_tail_to_budget; simpl.
    assert (Hc : concat (tail b ++ [chunk]) = concat (tail b) ++ chunk).
    { by rewrite concat_app; simpl; rewrite app_nil_r. }
    pose proof (trim_loop_spec (saturating_sub (saturating_add (tail_bytes b) (len chunk)) (tail_budget b))
                  (tail b ++ [chunk]) (saturating_add (tail_bytes b) (len chunk)) (omitted_bytes b)) as H.
    destruct (trim_loop _ _ _ _) as [[t' n'] o']; simpl.
    rewrite Hc, len_app, Ht, Hadd, <-Hn in H. unfold saturating_sub in H.
    destruct H as (Hc' & -> & Ho'); [lia..|].
    assert (Hkept : concat t' = lastn (N.to_nat (tail_budget b)) (s ++ chunk)).
    { rewrite Hc', lastn_app. unfold lastn at 2. f_equal.
      rewrite length_app. unfold len in *. lia. }
    repeat split; [done| |].
    + rewrite len_lastn, len_app. lia.
    + rewrite Ho' by done. f_equal. rewrite len_lastn, len_app. lia.
Qed.

Lemma new_buffer_seen max : has_seen max [] (new_buffer max).
Proof.
  constructor; simpl; unfold head_of, tail_of; rewrite ?drop_nil, ?take_nil; done.
Qed.

Lemma half_bounds max : 2 * (max / 2) ≤ max ≤ 2 * (max / 2) + 1.
Proof.
  pose proof (N.div_mod max 2 ltac:(done)). pose proof (N.mod_lt max 2 ltac:(done)).
  generalize dependent (max mod 2). generalize (max / 2). lia.
Qed.

Lemma half_budget max : max ≤ usize_max → max - max / 2 ≤ 2 ^ 63.
Proof. intros H. pose proof (half_bounds max). unfold usize_max in H. lia. Qed.

(** Before the head is full nothing has gone to the tail. *)
Lemma tail_of_short max s : len s ≤ max / 2 → tail_of max s = [].
Proof.
  intros H. unfold tail_of. rewrite drop_ge by (unfold len in *; lia). done.
Qed.

Lemma head_of_short max s : len s ≤ max / 2 → head_of max s = s.
Proof. intros H. unfold head_of. rewrite take_ge; [done|]. unfold len in *; lia. Qed.

(** Once the head is full only the tail changes. *)
Lemma head_of_full max s c : max / 2 ≤ len s → head_of max (s ++ c) = head_of max s.
Proof. intros H. unfold head_of. rewrite take_app_le; [done|]. unfold len in *; lia. Qed.

Lemma drop_full max (s c : list byte) :
  max / 2 ≤ len s →
  drop (N.to_nat (max / 2)) (s ++ c) = drop (N.to_nat (max / 2)) s ++ c.
Proof. intros H. rewrite drop_app_le; [done|]. unfold len in *; lia. Qed.

Lemma seen_counts max s :
  len (head_of max s) + len (tail_of max s) ≤ len s.
Proof. unfold head_of, tail_of. rewrite len_take, len_lastn, len_drop. lia. Qed.

(** Bytes that are pushed when the head is full go through [push_to_tail]. *)
Lemma push_to_tail_seen max s chunk b :
  max ≤ usize_max → max / 2 ≤ len s → has_seen max s b →
  has_seen max (s ++ chunk) (push_to_tail chunk b).
Proof.
  intros Hmax Hfull [Hm Hh Ht Hhead Htail Hhb Htb Hom].
  pose proof (half_budget max Hmax) as Hhalf.
  destruct (push_to_tail_spec b chunk (drop (N.to_nat (max / 2)) s)) as (Hfix & Hc & Hn & Ho);
    [by rewrite Ht|by rewrite Ht|by rewrite Ht|rewrite Hom; lia|].
  cbv zeta in Hc, Hn, Ho. injection Hfix as Hf1 Hf2 Hf3 Hf4 Hf5.
  pose proof (seen_counts max s) as Hs.
  assert (Etail : lastn (N.to_nat (tail_budget b)) (drop (N.to_nat (max / 2)) s ++ chunk) =
                  tail_of (max) (s ++ chunk)).
  { unfold tail_of. by rewrite drop_full, Ht. }
  assert (Hle : len (tail_of (max) (s ++ chunk)) ≤
                len (tail_of (max) s) + len chunk).
  { rewrite <-Etail. unfold tail_of. rewrite Ht, !len_lastn, len_app. lia. }
  rewrite Etail in *. 
  constructor; rewrite ?head_of_full by done; try congruence.
  rewrite Ho, Hom, Htb, len_app. unfold saturating_add. lia.
Qed.

Lemma push_head_seen max s chunk b :
  max ≤ usize_max → len s + len chunk ≤ max / 2 → has_seen max s b →
  has_seen max (s ++ chunk) (push_head chunk b).
Proof.
  intros Hmax Hfit [Hm Hh Ht Hhead Htail Hhb Htb Hom].
  rewrite ?head_of_short, ?tail_of_short in * by lia.
  constructor; simpl; rewrite ?head_of_short, ?tail_of_short by (rewrite len_app; lia); try done.
  - rewrite concat_app; simpl. by rewrite app_nil_r, Hhead.
  - rewrite Hhb, len_app. apply saturating_add_exact. 
    pose proof (half_bounds max). unfold usize_max in *. lia.
  - rewrite Hom, !len_app. change (len []) with 0. lia.
Qed.

Lemma push_chunk_seen max s chunk b :
  max ≤ usize_max → has_seen max s b → has_seen max (s ++ chunk) (push_chunk chunk b).
Proof.
  intros Hmax Hb. pose proof Hb as [Hm Hh Ht Hhead Htail Hhb Htb Hom].
  assert (Hhl : len (head_of max s) = N.min (max / 2) (len s)) by apply len_take.
  unfold push_chunk. rewrite Hm, Hh, Hhb. case_bool_decide as H0.
  { subst max. rewrite H0 in *.
    assert (Eh : ∀ l, head_of 0 l = []) by done.
    assert (Et : ∀ l, tail_of 0 l = []).
    { intros l. unfold tail_of, lastn. apply drop_ge. simpl. lia. }
    rewrite !Eh, !Et in *.
    constructor; simpl; rewrite ?Eh, ?Et; try done.
    rewrite Hom, !len_app. unfold saturating_add. change (len []) with 0. lia. }
  case_bool_decide as H1; [|apply push_to_tail_seen; [done|lia|done]].
  unfold saturating_sub. case_bool_decide as H2; [apply push_head_seen; [done|lia|done]|].
  set (k := N.to_nat (max / 2 - len (head_of max s))).
  rewrite <-(take_drop k chunk) at 1. rewrite app_assoc.
  assert (Hk : len (take k chunk) = max / 2 - len s).
  { unfold k. rewrite len_take. lia. }
  rewrite bool_decide_false; cycle 1.
  { intros E. rewrite E in Hk. change (len []) with 0 in Hk. lia. }
  apply push_to_tail_seen; [done|rewrite len_app; lia|].
  apply push_head_seen; [done|lia|done].
Qed.

Lemma push_chunks_seen max chunks : ∀ s b,
  max ≤ usize_max → has_seen max s b →
  has_seen max (s ++ concat chunks) (push_chunks chunks b).
Proof.
  induction chunks as [|c chunks IH]; intros s b Hmax Hb; simpl.
  - by rewrite app_nil_r.
  - rewrite app_assoc. apply IH; [done|]. by apply push_chunk_seen.
Qed.

Lemma fold_app (acc : list byte) chunks :
  fold_left (λ out chunk, out ++ chunk) chunks acc = acc ++ concat chunks.
Proof.
  revert acc. induction chunks as [|c chunks IH]; intros acc; simpl; [by rewrite app_nil_r|].
  by rewrite IH, <-app_assoc.
Qed.

Lemma to_bytes_concat b : to_bytes b = concat (head b) ++ concat (tail b).
Proof. unfold to_bytes. by rewrite !fold_app. Qed.

(** ** The properties *)

(** However the output of a process is cut into chunks, the buffer keeps its
    first [max / 2] bytes and the last [max - max / 2] bytes of the rest, its
    snapshot has the same bytes, and the count of dropped bytes is exact (up to
    the width of the counter): a refinement of the specification on whole
    outputs. *)
Theorem buffer_keeps_ends (max : N) (chunks : list (list byte)) :
  max ≤ usize_max →
  let b := push_chunks chunks (new_buffer max) in
  let s := concat chunks in
  let rest := drop (N.to_nat (max / 2)) s in
  to_bytes b = take (N.to_nat (max / 2)) s ++
               drop (length rest - N.to_nat (max - max / 2)) rest ∧
  concat (snapshot_chunks b) = to_bytes b ∧
  omitted_bytes b = N.min usize_max (len s - len (to_bytes b)).
Proof.
  intros Hmax b s rest.
  destruct (push_chunks_seen max chunks [] (new_buffer max) Hmax (new_buffer_seen max))
    as [_ _ _ Hhead Htail _ _ Hom].
  fold b in Hhead, Htail, Hom. simpl in Hhead, Htail, Hom. fold s in Hhead, Htail, Hom.
  rewrite to_bytes_concat, Hhead, Htail. split; [done|split].
  - unfold snapshot_chunks. by rewrite concat_app, Hhead, Htail.
  - rewrite Hom, len_app. f_equal. lia.
Qed.

Lemma buffer_keeps_ends_witness :
  let b := push_chunks [[1; 2; 3]; []; [4; 5; 6; 7]; [8]] (new_buffer 5) in
  to_bytes b = [1; 2; 6; 7; 8] ∧ omitted_bytes b = 3.
Proof.
  destruct (buffer_keeps_ends 5 [[1; 2; 3]; []; [4; 5; 6; 7]; [8]]) as (H1 & _ & H3);
    [by vm_compute|].
  split; [rewrite H1; reflexivity|rewrite H3, H1; reflexivity].
Defined.

(** Bounds: whatever is pushed, the buffer never retains more than its
    budget, each half stays within its own budget, and the byte counters are
    the lengths of what is retained - none of the saturating additions ever
    saturates. *)
Theorem buffer_bounds (max : N) (chunks : list (list byte)) :
  max ≤ usize_max →
  let b := push_chunks chunks (new_buffer max) in
  len (to_bytes b) ≤ max ∧
  retained_bytes b = len (to_bytes b) ∧
  head_bytes b = len (concat (head b)) ∧ head_bytes b ≤ max / 2 ∧
  tail_bytes b = len (concat (tail b)) ∧ tail_bytes b ≤ max - max / 2 ∧
  omitted_bytes b ≤ usize_max.
Proof.
  intros Hmax b.
  destruct (push_chunks_seen max chunks [] (new_buffer max) Hmax (new_buffer_seen max))
    as [_ _ _ Hhead Htail Hhb Htb Hom].
  fold b in Hhead, Htail, Hom, Hhb, Htb.
  rewrite <-Hhead in Hhb. rewrite <-Htail in Htb. simpl in *.
  assert (H1 : head_bytes b ≤ max / 2).
  { rewrite Hhb, Hhead. unfold head_of. rewrite len_take. lia. }
  assert (H2 : tail_bytes b ≤ max - max / 2).
  { rewrite Htb, Htail. unfold tail_of. rewrite len_lastn. lia. }
  pose proof (half_bounds max).
  rewrite to_bytes_concat, len_app, <-Hhb, <-Htb.
  repeat split; try done; [lia| |rewrite Hom; lia].
  unfold retained_bytes. apply saturating_add_exact. lia.
Qed.

Lemma buffer_bounds_witness :
  len (to_bytes (push_chunks [[1; 2; 3]; [4; 5; 6; 7]] (new_buffer 5))) ≤ 5 ∧ 5 ≤ usize_max.
Proof.
  split; [|by vm_compute]. apply (buffer_bounds 5 [[1; 2; 3]; [4; 5; 6; 7]]). by vm_compute.
Defined.

(** Draining returns what was retained and leaves a new buffer. *)
Theorem drain_chunks_resets (max : N) (chunks : list (list byte)) :
  max ≤ usize_max →
  let b := push_chunks chunks (new_buffer max) in
  concat (drain_chunks b).2 = to_bytes b ∧ (drain_chunks b).1 = new_buffer max.
Proof.
  intros Hmax b.
  destruct (push_chunks_seen max chunks [] (new_buffer max) Hmax (new_buffer_seen max))
    as [Hm Hh Ht _ _ _ _ _].
  fold b in Hm, Hh, Ht. unfold drain_chunks, new_buffer; simpl.
  rewrite concat_app, to_bytes_concat, Hm, Hh, Ht. done.
Qed.
