(* ===== verification/Readiness.v ===== *)
(** * The readiness flag

    [utils/readiness/src/lib.rs]: a flag that becomes ready once, when a holder
    of a subscription token marks it (or when somebody asks and there are no
    subscriptions), with asynchronous waiting.

    Tasks run concurrently.  The model has the program counter of each task
    and one step per access to shared state: the atomic [ready], the counter
    [next_id], the mutex around the token set and the watch channel.  Any task
    may move at any time, a task that waits for the mutex may time out while
    another holds it, and a task may be dropped where it awaits.  Atomics are
    sequentially consistent, which the orderings of the source give on the
    accesses used here.  Of [tokio::sync::watch] the model has what its
    documentation states: [send] stores the value and wakes the receivers when
    there are receivers, and fails without storing it when there are none;
    [subscribe] counts the present value as seen; [changed] returns when a
    value was sent since the last one seen. *)
From S2P Require Import Prelude MachineInt.
From stdpp Require Import gmap.
From Stdlib Require Import ZArith Lia.

(** ** State *)

Inductive ReadinessError := TokenLockFailed | FlagAlreadyReady.

(** [ReadinessFlag]; [locked] is the holder of the mutex around [tokens],
    [tx_value] and [tx_version] the state of the watch channel. *)
Record ReadinessFlag := mkFlag {
  ready : bool;
  next_id : Z;
  tokens : gset Z;
  locked : option nat;
  tx_value : bool;
  tx_version : nat
}.

Definition new_flag : ReadinessFlag := mkFlag false 1 ∅ None false 0.

Definition set_ready (f : ReadinessFlag) : ReadinessFlag :=
  mkFlag true (next_id f) (tokens f) (locked f) (tx_value f) (tx_version f).
Definition set_next_id (n : Z) (f : ReadinessFlag) : ReadinessFlag :=
  mkFlag (ready f) n (tokens f) (locked f) (tx_value f) (tx_version f).
Definition set_tokens (t : gset Z) (f : ReadinessFlag) : ReadinessFlag :=
  mkFlag (ready f) (next_id f) t (locked f) (tx_value f) (tx_version f).
Definition set_locked (o : option nat) (f : ReadinessFlag) : ReadinessFlag :=
  mkFlag (ready f) (next_id f) (tokens f) o (tx_value f) (tx_version f).

(** [tx.send(true)], with receivers or without. *)
Definition tx_send (receivers : bool) (f : ReadinessFlag) : ReadinessFlag :=
  if receivers then
    mkFlag (ready f) (next_id f) (tokens f) (locked f) true (S (tx_version f))
  else f.

(** What the four methods return. *)
Inductive ret :=
| RIsReady (b : bool)
| RSubscribe (r : Res ReadinessError Z)
| RMark (r : Res ReadinessError bool)
| RWait.

(** The program counter of a task.  [w] tells whether [is_ready] was called by
    [wait_ready]; [seen] is the version a receiver has seen. *)
Inductive pc :=
| IsLoad (w : bool) | IsTryLock (w : bool) | IsEmpty (w : bool) | IsSwap (w : bool)
| IsDrop (w was_ready : bool) | IsSend (w : bool) | IsReload (w : bool)
| SubLoad | SubLock | SubLoad2 | SubFetch | SubInsert (t : Z) | SubUnlock (r : option Z)
| MarkLoad (t : Z) | MarkLock (t : Z) | MarkRemove (t : Z) | MarkStore | MarkClear
| MarkUnlock (marked : bool) | MarkSend
| WaitSub | WaitBorrow (seen : nat) | WaitChanged (seen : nat) | WaitBorrow2 (seen : nat)
| Done (r : ret)
| Dropped.

(** The task holds the mutex. *)
Definition holds_lock (p : pc) : bool :=
  match p with
  | IsEmpty _ | IsSwap _ | IsDrop _ _
  | SubLoad2 | SubFetch | SubInsert _ | SubUnlock _
  | MarkRemove _ | MarkStore | MarkClear | MarkUnlock _ => true
  | _ => false
  end.

(** The task owns a receiver of the watch channel. *)
Definition has_rx (p : pc) : bool :=
  match p with
  | WaitBorrow _ | WaitChanged _ | WaitBorrow2 _ => true
  | _ => false
  end.

(** ** The methods, one access at a time *)

(** [is_ready] returns [b], to its caller or to [wait_ready]. *)
Definition after_is_ready (w b : bool) : pc :=
  if w then (if b then Done RWait else WaitSub) else Done (RIsReady b).

Definition is_ready_step (i : nat) (rx : bool) (f : ReadinessFlag) (p : pc) :
    option (ReadinessFlag * pc) :=
  match p with
  | IsLoad w => Some (f, if ready f then after_is_ready w true else IsTryLock w)
  | IsTryLock w =>
      match locked f with
      | None => Some (set_locked (Some i) f, IsEmpty w)
      | Some _ => Some (f, IsReload w)
      end
  | IsEmpty w =>
      if bool_decide (tokens f = ∅) then Some (f, IsSwap w)
      else Some (set_locked None f, IsReload w)
  | IsSwap w => Some (set_ready f, IsDrop w (ready f))
  | IsDrop w was_ready =>
      Some (set_locked None f, if was_ready then after_is_ready w true else IsSend w)
  | IsSend w => Some (tx_send rx f, after_is_ready w true)
  | IsReload w => Some (f, after_is_ready w (ready f))
  | _ => None
  end.

Definition subscribe_step (i : nat) (f : ReadinessFlag) (p : pc) :
    option (ReadinessFlag * pc) :=
  match p with
  | SubLoad =>
      Some (f, if ready f then Done (RSubscribe (Err FlagAlreadyReady)) else SubLock)
  | SubLock =>
      match locked f with
      | None => Some (set_locked (Some i) f, SubLoad2)
      | Some _ => None
      end
  | SubLoad2 => Some (f, if ready f then SubUnlock None else SubFetch)
  | SubFetch => Some (set_next_id (wrap_i32 (next_id f + 1)) f, SubInsert (next_id f))
  | SubInsert t =>
      if bool_decide (t ≠ 0%Z) && bool_decide (t ∉ tokens f) then
        Some (set_tokens ({[t]} ∪ tokens f) f, SubUnlock (Some t))
      else Some (f, SubFetch)
  | SubUnlock r =>
      Some (set_locked None f, Done (RSubscribe (ok_or FlagAlreadyReady r)))
  | _ => None
  end.

Definition mark_ready_step (i : nat) (rx : bool) (f : ReadinessFlag) (p : pc) :
    option (ReadinessFlag * pc) :=
  match p with
  | MarkLoad t =>
      Some (f, if ready f then Done (RMark (Ok false))
               else if bool_decide (t = 0%Z) then Done (RMark (Ok false)) else MarkLock t)
  | MarkLock t =>
      match locked f with
      | None => Some (set_locked (Some i) f, MarkRemove t)
      | Some _ => None
      end
  | MarkRemove t =>
      if bool_decide (t ∈ tokens f) then Some (set_tokens (tokens f ∖ {[t]}) f, MarkStore)
      else Some (f, MarkUnlock false)
  | MarkStore => Some (set_ready f, MarkClear)
  | MarkClear => Some (set_tokens ∅ f, MarkUnlock true)
  | MarkUnlock marked =>
      Some (set_locked None f, if marked then MarkSend else Done (RMark (Ok false)))
  | MarkSend => Some (tx_send rx f, Done (RMark (Ok true)))
  | _ => None
  end.

(** [wait_ready] after its call of [is_ready]. *)
Definition wait_ready_step (f : ReadinessFlag) (p : pc) : option (ReadinessFlag * pc) :=
  match p with
  | WaitSub => Some (f, WaitBorrow (tx_version f))
  | WaitBorrow seen => Some (f, if tx_value f then Done RWait else WaitChanged seen)
  | WaitChanged seen =>
      if bool_decide (tx_version f = seen) then None
      else Some (f, WaitBorrow2 (tx_version f))
  | WaitBorrow2 seen => Some (f, if tx_value f then Done RWait else WaitChanged seen)
  | _ => None
  end.

Definition run_step (i : nat) (rx : bool) (f : ReadinessFlag) (p : pc) :
    option (ReadinessFlag * pc) :=
  match p with
  | IsLoad _ | IsTryLock _ | IsEmpty _ | IsSwap _ | IsDrop _ _ | IsSend _ | IsReload _ =>
      is_ready_step i rx f p
  | SubLoad | SubLock | SubLoad2 | SubFetch | SubInsert _ | SubUnlock _ => subscribe_step i f p
  | MarkLoad _ | MarkLock _ | MarkRemove _ | MarkStore | MarkClear | MarkUnlock _ | MarkSend =>
      mark_ready_step i rx f p
  | WaitSub | WaitBorrow _ | WaitChanged _ | WaitBorrow2 _ => wait_ready_step f p
  | Done _ | Dropped => None
  end.

(** ** Tasks *)

Inductive call := CIsReady | CSubscribe | CMarkReady (t : Z) | CWaitReady.

Definition start (c : call) : pc :=
  match c with
  | CIsReady => IsLoad false
  | CSubscribe => SubLoad
  | CMarkReady t => MarkLoad t
  | CWaitReady => IsLoad true
  end.

(** The flag, the tasks and the results returned so far, latest first. *)
Record World := mkWorld {
  flag : ReadinessFlag;
  tasks : gmap nat pc;
  returned : list (nat * ret)
}.

Definition new_world : World := mkWorld new_flag ∅ [].

Inductive action := Spawn (c : call) | Run | Timeout | Cancel.

Definition receivers (ts : gmap nat pc) : bool :=
  existsb (λ ip, has_rx ip.2) (map_to_list ts).

(** The mutex could not be had within [LOCK_TIMEOUT]. *)
Definition timeout_pc (p : pc) : option pc :=
  match p with
  | SubLock => Some (Done (RSubscribe (Err TokenLockFailed)))
  | MarkLock _ => Some (Done (RMark (Err TokenLockFailed)))
  | _ => None
  end.

(** The places where a task awaits and may be dropped. *)
Definition awaits (p : pc) : bool :=
  match p with
  | SubLock | MarkLock _ | WaitChanged _ => true
  | _ => false
  end.

Definition record (i : nat) (p : pc) (h : list (nat * ret)) : list (nat * ret) :=
  match p with
  | Done r => (i, r) :: h
  | _ => h
  end.

Definition put (i : nat) (f : ReadinessFlag) (p : pc) (w : World) : World :=
  mkWorld f (<[i := p]> (tasks w)) (record i p (returned w)).

Definition step (i : nat) (a : action) (w : World) : option World :=
  match a, tasks w !! i with
  | Spawn c, None => Some (put i (flag w) (start c) w)
  | Run, Some p =>
      '(f, p') ← run_step i (receivers (tasks w)) (flag w) p; Some (put i f p' w)
  | Timeout, Some p =>
      if bool_decide (locked (flag w) = None) then None
      else p' ← timeout_pc p; Some (put i (flag w) p' w)
  | Cancel, Some p => if awaits p then Some (put i (flag w) Dropped w) else None
  | _, _ => None
  end.

(** Run a schedule; [None] when one of its steps is not possible. *)
Fixpoint exec (sched : list (nat * action)) (w : World) : option World :=
  match sched with
  | [] => Some w
  | (i, a) :: sched => step i a w ≫= exec sched
  end.

(** The worlds that tasks can bring about. *)
Inductive reachable : World → Prop :=
| reach_new : reachable new_world
| reach_step w i a w' : reachable w → step i a w = Some w' → reachable w'.

(** ** Invariant *)

Definition is_mark (x : nat * ret) : bool :=
  match x.2 with
  | RMark (Ok true) => true
  | _ => false
  end.

(** The calls of [mark_ready] that returned [Ok(true)]. *)
Definition marks (h : list (nat * ret)) : list (nat * ret) := List.filter is_mark h.

(** The tokens that [subscribe] has handed out. *)
Definition issued (h : list (nat * ret)) : list Z :=
  omap (λ x, match x.2 with RSubscribe (Ok t) => Some t | _ => None end) h.

(** The task has made the flag ready and has not returned yet. *)
Definition won (p : pc) : bool :=
  match p with
  | MarkClear | MarkUnlock true | MarkSend => true
  | _ => false
  end.

(** No critical section is half done: a ready flag has no tokens, and until
    then the subscribed tokens are those handed out. *)
Definition quiet (f : ReadinessFlag) (h : list (nat * ret)) : Prop :=
  (ready f = true → tokens f = ∅) ∧ (ready f = false → ∀ t, t ∈ issued h ↔ t ∈ tokens f).

(** What a task at [p] knows of the flag. *)
Definition knows (f : ReadinessFlag) (h : list (nat * ret)) (p : pc) : Prop :=
  match p with
  | IsSwap _ => tokens f = ∅
  | IsSend _ | MarkSend => ready f = true
  | IsDrop _ _ => ready f = true ∧ quiet f h
  | MarkUnlock b => (b = true → ready f = true) ∧ quiet f h
  | MarkClear => ready f = true
  | SubFetch | SubInsert _ => ready f = false ∧ quiet f h
  | MarkStore => ready f = false
  | SubUnlock (Some t) =>
      (t ∉ issued h) ∧ t ≠ 0%Z ∧ ready f = false ∧
      (∀ t', t' ∈ tokens f ↔ t' = t ∨ t' ∈ issued h)
  | IsEmpty _ | SubUnlock None | SubLoad2 | MarkRemove _ => quiet f h
  | _ => True
  end.

Record Inv (w : World) : Prop := {
  inv_mutex i p : tasks w !! i = Some p →
    (holds_lock p = true ↔ locked (flag w) = Some i);
  inv_holder i : locked (flag w) = Some i → is_Some (tasks w !! i);
  inv_knows i p : tasks w !! i = Some p → knows (flag w) (returned w) p;
  inv_quiet : locked (flag w) = None → quiet (flag w) (returned w);
  inv_won i j p q : tasks w !! i = Some p → tasks w !! j = Some q →
    won p = true → won q = true → i = j;
  inv_won_marks i p : tasks w !! i = Some p → won p = true → marks (returned w) = [];
  inv_marks : length (marks (returned w)) ≤ 1;
  inv_marks_ready : marks (returned w) ≠ [] → ready (flag w) = true;
  inv_nonzero : 0%Z ∉ tokens (flag w);
  inv_issued : NoDup (issued (returned w)) ∧ (0%Z ∉ issued (returned w));
  inv_true i : (i, RIsReady true) ∈ returned w → ready (flag w) = true
}.

Lemma new_world_inv : Inv new_world.
Proof.
  constructor; simpl; intros *; try done; try set_solver.
  - intros _. by split; [|set_solver].
  - split; [constructor|set_solver].
Qed.

(** A step is a move of one task: from [p], or from nowhere, to [p']. *)
Inductive moves (i : nat) (w : World) : ReadinessFlag → pc → Prop :=
| moves_spawn c : tasks w !! i = None → moves i w (flag w) (start c)
| moves_run p f p' : tasks w !! i = Some p →
    run_step i (receivers (tasks w)) (flag w) p = Some (f, p') → moves i w f p'
| moves_timeout p p' : tasks w !! i = Some p →
    timeout_pc p = Some p' → moves i w (flag w) p'
| moves_cancel p : tasks w !! i = Some p → awaits p = true → moves i w (flag w) Dropped.

Lemma step_moves i a w w' :
  step i a w = Some w' → ∃ f p, moves i w f p ∧ w' = put i f p w.
Proof.
  unfold step. destruct a, (tasks w !! i) as [p|] eqn:E; intros H; try discriminate.
  - injection H as <-. eexists _, _; split; [by apply moves_spawn|done].
  - apply bind_Some in H as ([f p'] & Hs & [= <-]). eexists _, _; split; [|done].
    by eapply moves_run.
  - case_bool_decide; [done|]. apply bind_Some in H as (p' & Hs & [= <-]).
    eexists _, _; split; [|done]. by eapply moves_timeout.
  - destruct (awaits p) eqn:Ha; simplify_eq. eexists _, _; split; [|done].
    by eapply moves_cancel.
Qed.

(** ** What a move does

    The facts of a single move, by looking at every program counter. *)

Definition held (o : option pc) : bool := from_option holds_lock false o.

(** Open a move into the steps of the methods. *)
Ltac move_cases Hmv :=
  destruct Hmv as [[]|[] ? ? ? ?|[] ? ? ?|[] ? ?]; simpl in *; unfold after_is_ready in *;
  repeat match goal with
  | H : tasks _ !! _ = _ |- _ => rewrite H in *; clear H
  | H : None = Some _ |- _ => discriminate H
  | H : Some _ = Some _ |- _ => injection H as H; subst
  | H : false = true |- _ => discriminate H
  | H : (match ?x with _ => _ end) = _ |- _ =>
      first [is_var x; destruct x | let E := fresh "E" in destruct x eqn:E]
  end; unfold tx_send in *; repeat case_match; simpl in *.

Section move.
Context (i : nat) (w : World) (f : ReadinessFlag) (p : pc).
Hypothesis Hmv : moves i w f p.
Let o := tasks w !! i.

Lemma move_lock :
  (held o = true ∧ holds_lock p = true ∧ locked f = locked (flag w)) ∨
  (held o = true ∧ holds_lock p = false ∧ locked f = None) ∨
  (held o = false ∧ holds_lock p = true ∧ locked (flag w) = None ∧ locked f = Some i) ∨
  (held o = false ∧ holds_lock p = false ∧ locked f = locked (flag w)).
Proof using Hmv. subst o. move_cases Hmv; auto 10. Qed.

Lemma move_frame :
  held o = false → ready f = ready (flag w) ∧ tokens f = tokens (flag w).
Proof using Hmv. subst o. move_cases Hmv; auto; done. Qed.

Lemma move_ready : ready (flag w) = true → ready f = true.
Proof using Hmv. move_cases Hmv; auto. Qed.

Lemma move_won : won p = true → (∃ q, o = Some q ∧ won q = true) ∨ o = Some MarkStore.
Proof using Hmv. subst o. move_cases Hmv; eauto; done. Qed.

Lemma move_mark r : p = Done r → is_mark (i, r) = true → o = Some MarkSend.
Proof using Hmv.
  subst o. move_cases Hmv; intros; simplify_eq/=; done.
Qed.

(** Tokens are handed out at the end of [subscribe] only. *)
Lemma move_issued :
  (issued (record i p (returned w)) = issued (returned w) ∧
   ∀ t, o ≠ Some (SubUnlock (Some t))) ∨
  ∃ t, o = Some (SubUnlock (Some t)) ∧ p = Done (RSubscribe (Ok t)) ∧
       ready f = ready (flag w) ∧ tokens f = tokens (flag w) ∧
       issued (record i p (returned w)) = t :: issued (returned w).
Proof using Hmv.
  subst o. move_cases Hmv; try (left; split; [done|congruence]).
  all: try (destruct r); simpl; [right; eauto 10|left; split; [done|congruence]].
Qed.

Lemma move_is_ready : p = Done (RIsReady true) →
  (∀ q, o = Some q → knows (flag w) (returned w) q) → ready f = true.
Proof using Hmv.
  subst o. move_cases Hmv; intros Hd Hk; try discriminate Hd; try done; try congruence;
    try (specialize (Hk _ eq_refl); simpl in Hk; tauto).
Qed.

Lemma move_nonzero : 0%Z ∉ tokens (flag w) → 0%Z ∉ tokens f.
Proof using Hmv.
  move_cases Hmv; try done; try set_solver.
Qed.

(** The task knows at its next program counter what it should. *)
Lemma move_knows :
  (∀ q, o = Some q → knows (flag w) (returned w) q) →
  (locked (flag w) = None → quiet (flag w) (returned w)) →
  knows f (record i p (returned w)) p.
Proof using Hmv.
  intros Hk Hq. subst o. move_cases Hmv; try done;
    try (specialize (Hk _ eq_refl); simpl in Hk); try (by auto);
    unfold quiet in *; simpl in *; try tauto.
  - by apply bool_decide_eq_true in E.
  - apply andb_true_iff in E as [E1%bool_decide_eq_true E2%bool_decide_eq_true].
    destruct Hk as (Hr & _ & Hs). specialize (Hs Hr).
    split; [by intros ?%Hs|]. split_and!; [done|done|].
    intros t'. rewrite elem_of_union, elem_of_singleton, Hs. done.
  - apply bool_decide_eq_true in E. destruct (ready (flag w)); [|done].
    destruct Hk as [Hk _]. rewrite Hk in E by done. set_solver.
  - by repeat split; rewrite Hk in *.
Qed.
End move.

(** What another task knows stays true. *)
Lemma knows_stable f h f' h' p :
  (ready f = true → ready f' = true) →
  (holds_lock p = true → ready f' = ready f ∧ tokens f' = tokens f ∧ issued h' = issued h) →
  knows f h p → knows f' h' p.
Proof.
  intros Hr Hl Hk. destruct p; simpl in *; auto;
    destruct (Hl eq_refl) as (E1 & E2 & E3); unfold quiet in *; rewrite ?E1, ?E2, ?E3; done.
Qed.

Lemma marks_record i p h :
  marks (record i p h) = match p with
                         | Done r => if is_mark (i, r) then (i, r) :: marks h else marks h
                         | _ => marks h
                         end.
Proof. by destruct p. Qed.

Section preservation.
Context (i : nat) (w : World) (f : ReadinessFlag) (p : pc).
Hypothesis Hinv : Inv w.
Hypothesis Hmv : moves i w f p.

(** The mover held the mutex before exactly when the flag says so. *)
Lemma held_locked : held (tasks w !! i) = true ↔ locked (flag w) = Some i.
Proof using Hinv.
  unfold held. destruct (tasks w !! i) as [q|] eqn:E; simpl; [by apply (inv_mutex _ Hinv)|].
  split; [done|]. intros H. destruct (inv_holder _ Hinv _ H) as [? ?]. congruence.
Qed.

(** A task that holds the mutex while another moves sees nothing change. *)
Lemma other_holder j q :
  j ≠ i → tasks w !! j = Some q → holds_lock q = true →
  ready f = ready (flag w) ∧ tokens f = tokens (flag w) ∧ locked f = locked (flag w) ∧
  issued (record i p (returned w)) = issued (returned w).
Proof using Hinv Hmv.
  intros Hne Hj Hq. pose proof Hq as Hl. apply (inv_mutex _ Hinv j) in Hl; [|done].
  assert (Hh : held (tasks w !! i) = false).
  { destruct (held (tasks w !! i)) eqn:E; [|done]. apply held_locked in E. congruence. }
  destruct (move_frame _ _ _ _ Hmv Hh) as [-> ->].
  split_and!; [done|done| |].
  - destruct (move_lock _ _ _ _ Hmv) as [(?&?&?)|[(?&?&?)|[(?&?&?&?)|(?&?&?)]]]; congruence.
  - destruct (move_issued _ _ _ _ Hmv) as [[-> _]|(t & E & _)]; [done|].
    rewrite E in Hh. done.
Qed.

Lemma put_knows j q :
  <[i:=p]> (tasks w) !! j = Some q → knows f (record i p (returned w)) q.
Proof using Hinv Hmv.
  intros [[<- <-]|[Hne Hj]]%lookup_insert_Some.
  - apply (move_knows _ _ _ _ Hmv); [|apply (inv_quiet _ Hinv)].
    intros q Hq. by apply (inv_knows _ Hinv i).
  - eapply knows_stable; [by apply (move_ready _ _ _ _ Hmv)| |by apply (inv_knows _ Hinv j)].
    intros Hq. destruct (other_holder j q) as (? & ? & _ & ?); auto.
Qed.

Lemma put_mutex j q :
  <[i:=p]> (tasks w) !! j = Some q → holds_lock q = true ↔ locked f = Some j.
Proof using Hinv Hmv.
  pose proof held_locked as Hhl.
  intros [[<- <-]|[Hne Hj]]%lookup_insert_Some.
  - destruct (move_lock _ _ _ _ Hmv) as [(H1&H2&H3)|[(H1&H2&H3)|[(H1&H2&H3&H4)|(H1&H2&H3)]]];
      rewrite H2, ?H3, ?H4, <-?Hhl, ?H1; done.
  - rewrite (inv_mutex _ Hinv j q Hj).
    destruct (move_lock _ _ _ _ Hmv) as [(H1&H2&H3)|[(H1&H2&H3)|[(H1&H2&H3&H4)|(H1&H2&H3)]]];
      rewrite ?H3, ?H4; try apply Hhl in H1; split; congruence.
Qed.

Lemma put_quiet : locked f = None → quiet f (record i p (returned w)).
Proof using Hinv Hmv.
  intros Hl.
  destruct (move_lock _ _ _ _ Hmv) as [(H1&H2&H3)|[(H1&H2&H3)|[(H1&H2&H3&H4)|(H1&H2&H3)]]].
  - apply held_locked in H1. congruence.
  - clear Hl.
    assert (Hk : ∀ q, tasks w !! i = Some q → knows (flag w) (returned w) q).
    { intros q. apply (inv_knows _ Hinv). }
    move_cases Hmv; try done; specialize (Hk _ eq_refl); simpl in Hk;
      unfold quiet in *; simpl in *; try tauto.
    destruct r as [t|]; simpl; [|done]. destruct Hk as (_ & _ & Hr & Hq).
    split; [congruence|]. intros _ t'. by rewrite elem_of_cons, Hq.
  - congruence.
  - destruct (move_frame _ _ _ _ Hmv H1) as [Er Et].
    pose proof (inv_quiet _ Hinv) as Hq. rewrite <-H3 in Hq. specialize (Hq Hl).
    unfold quiet in *. rewrite Er, Et.
    destruct (move_issued _ _ _ _ Hmv) as [[-> _]|(t & E & _)]; [done|].
    rewrite E in H1. done.
Qed.

Lemma put_won j k q r :
  <[i:=p]> (tasks w) !! j = Some q → <[i:=p]> (tasks w) !! k = Some r →
  won q = true → won r = true → j = k.
Proof using Hinv Hmv.
  assert (Hone : won p = true → ∀ j q, tasks w !! j = Some q → won q = true → i = j).
  { intros Hp j' q' Hj Hq. destruct (move_won _ _ _ _ Hmv Hp) as [(p0 & E & Hp0)|E].
    - by apply (inv_won _ Hinv i j' p0 q').
    - apply (inv_knows _ Hinv) in E. pose proof (inv_knows _ Hinv _ _ Hj) as Hk.
      destruct q' as [ | | | | | | | | | | | | | | | | | |[] | | | | | | | ]; simpl in *; intuition congruence. }
  intros [[<- <-]|[Hnj Hj]]%lookup_insert_Some [[<- <-]|[Hnk Hk]]%lookup_insert_Some Hq Hr; eauto.
  - symmetry. eauto.
  - by apply (inv_won _ Hinv j k q r).
Qed.

Lemma put_won_marks j q :
  <[i:=p]> (tasks w) !! j = Some q → won q = true → marks (record i p (returned w)) = [].
Proof using Hinv Hmv.
  rewrite marks_record. intros [[<- <-]|[Hne Hj]]%lookup_insert_Some Hq.
  - destruct (move_won _ _ _ _ Hmv Hq) as [(p0 & E & Hp0)|E].
    + destruct p; try discriminate; by apply (inv_won_marks _ Hinv i p0).
    + apply (inv_knows _ Hinv) in E. simpl in E.
      assert (marks (returned w) = []) as ->; [|by destruct p].
      destruct (decide (marks (returned w) = [])) as [|Hm]; [done|].
      apply (inv_marks_ready _ Hinv) in Hm. congruence.
  - destruct p as [ | | | | | | | | | | | | | | | | | | | | | | | |r| ];
      try by apply (inv_won_marks _ Hinv j q).
    destruct (is_mark (i, r)) eqn:Em; [|by apply (inv_won_marks _ Hinv j q)].
    pose proof (move_mark _ _ _ _ Hmv r eq_refl Em) as E.
    by destruct Hne; apply (inv_won _ Hinv i j MarkSend q).
Qed.

Lemma put_marks :
  length (marks (record i p (returned w))) ≤ 1 ∧
  (marks (record i p (returned w)) ≠ [] → ready f = true).
Proof using Hinv Hmv.
  pose proof (inv_marks _ Hinv) as Hm. pose proof (move_ready _ _ _ _ Hmv) as Hr.
  pose proof (inv_marks_ready _ Hinv) as Hmr.
  rewrite marks_record.
  destruct p as [ | | | | | | | | | | | | | | | | | | | | | | | |r| ]; auto.
  destruct (is_mark (i, r)) eqn:Em; [|auto].
  pose proof (move_mark _ _ _ _ Hmv r eq_refl Em) as E.
  rewrite (inv_won_marks _ Hinv i MarkSend) by done. split; [done|]. intros _.
  apply Hr. by apply (inv_knows _ Hinv) in E.
Qed.

Lemma put_issued :
  NoDup (issued (record i p (returned w))) ∧ (0%Z ∉ issued (record i p (returned w))).
Proof using Hinv Hmv.
  destruct (inv_issued _ Hinv) as [Hnd Hz].
  destruct (move_issued _ _ _ _ Hmv) as [[-> _]|(t & E & _ & _ & _ & ->)]; [done|].
  apply (inv_knows _ Hinv) in E. destruct E as (Ht & Hn & _).
  split; [by constructor|]. rewrite elem_of_cons. intros [?|?]; congruence.
Qed.

Lemma moves_inv : Inv (put i f p w).
Proof using Hinv Hmv.
  constructor; simpl.
  - apply put_mutex.
  - intros j Hj. destruct (decide (i = j)) as [<-|Hne]; [by rewrite lookup_insert_eq|].
    rewrite lookup_insert_ne by done. apply (inv_holder _ Hinv).
    pose proof held_locked.
    destruct (move_lock _ _ _ _ Hmv) as [(?&?&?)|[(?&?&?)|[(?&?&?&?)|(?&?&?)]]]; congruence.
  - apply put_knows.
  - apply put_quiet.
  - apply put_won.
  - apply put_won_marks.
  - apply put_marks.
  - apply put_marks.
  - apply (move_nonzero _ _ _ _ Hmv), (inv_nonzero _ Hinv).
  - apply put_issued.
  - intros j Hj.
    assert ((j, RIsReady true) ∈ returned w ∨ p = Done (RIsReady true)) as [Ho|Hp].
    { destruct p; simpl in Hj; auto. apply elem_of_cons in Hj as [[= -> <-]|]; auto. }
    + by apply (move_ready _ _ _ _ Hmv), (inv_true _ Hinv j).
    + apply (move_is_ready _ _ _ _ Hmv Hp). apply (inv_knows _ Hinv).
Qed.
End preservation.

Lemma flag_invariant w : reachable w → Inv w.
Proof.
  induction 1 as [|w i a w' _ IH Hs]; [apply new_world_inv|].
  destruct (step_moves _ _ _ _ Hs) as (f & p & Hmv & ->). by apply moves_inv.
Qed.

Lemma exec_reachable sched w w' : reachable w → exec sched w = Some w' → reachable w'.
Proof.
  revert w. induction sched as [|[i a] sched IH]; intros w Hr; simpl; [by intros [= <-]|].
  intros (w1 & Hs & He)%bind_Some. eapply IH; [|done]. by eapply reach_step.
Qed.

(** Induction over a schedule for a property of worlds that every step keeps. *)
Lemma exec_ind (P : World → Prop) (ok : nat * action → Prop) sched w w' :
  (∀ w i a w', reachable w → P w → ok (i, a) → step i a w = Some w' → P w') →
  reachable w → P w → Forall ok sched → exec sched w = Some w' → P w'.
Proof.
  intros Hst. revert w. induction sched as [|[i a] sched IH]; intros w Hr HP Hok; simpl.
  - by intros [= <-].
  - apply Forall_cons in Hok as [Ho Hok]. intros (w1 & Hs & He)%bind_Some.
    eapply (IH w1); eauto using reach_step.
Qed.

(** ** Safety *)

(** In every reachable state of any number of concurrent tasks: at most one
    call of [mark_ready] has returned [Ok(true)], and then the flag is ready;
    [is_ready] has only returned [true] when it is; the tokens handed out by
    [subscribe] are distinct and never 0, also when the 32-bit counter has
    wrapped around; and at most one task is in a critical section. *)
Theorem readiness_safe (w : World) :
  reachable w →
  length (marks (returned w)) ≤ 1 ∧
  (marks (returned w) ≠ [] → ready (flag w) = true) ∧
  (∀ i, (i, RIsReady true) ∈ returned w → ready (flag w) = true) ∧
  NoDup (issued (returned w)) ∧ (0%Z ∉ issued (returned w)) ∧
  (∀ i j p q, tasks w !! i = Some p → tasks w !! j = Some q →
     holds_lock p = true → holds_lock q = true → i = j).
Proof.
  intros Hinv%flag_invariant. destruct (inv_issued _ Hinv).
  split_and!; try done; [apply Hinv..|].
  intros i j p q Hp Hq Hlp Hlq.
  apply (inv_mutex _ Hinv _ _ Hp) in Hlp. apply (inv_mutex _ Hinv _ _ Hq) in Hlq. congruence.
Qed.

(** A world in which a token was taken and used, and a task was refused. *)
Definition run_of (i n : nat) : list (nat * action) := replicate n (i, Run).

Definition marked_schedule : list (nat * action) :=
  (0, Spawn CSubscribe) :: run_of 0 6 ++ (1, Spawn (CMarkReady 1)) :: run_of 1 7 ++
  (2, Spawn CSubscribe) :: run_of 2 1.

Lemma readiness_safe_witness : ∃ w, exec marked_schedule new_world = Some w ∧
  marks (returned w) ≠ [] ∧ ready (flag w) = true ∧
  (2, RSubscribe (Err FlagAlreadyReady)) ∈ returned w.
Proof.
  destruct (exec marked_schedule new_world) as [w|] eqn:E; [|vm_compute in E; discriminate E].
  exists w. assert (Hr : reachable w) by (eapply exec_reachable; [apply reach_new|exact E]).
  assert (Hm : marks (returned w) ≠ [])
    by (vm_compute in E; injection E as <-; vm_compute; discriminate).
  split; [done|split; [done|split]].
  - apply (readiness_safe w Hr). exact Hm.
  - vm_compute in E. injection E as <-. vm_compute. left.
Defined.

(** The flag never goes back. *)
Theorem ready_irreversible sched w w' :
  reachable w → exec sched w = Some w' → ready (flag w) = true → ready (flag w') = true.
Proof.
  intros Hr He Hrd.
  apply (exec_ind (λ w, ready (flag w) = true) (λ _, True) sched w); auto using Forall_true.
  intros w1 i a w2 _ H1 _ (f & p & Hmv & ->)%step_moves. by apply (move_ready _ _ _ _ Hmv).
Qed.

(** [mark_ready] authorises exactly: inside its critical section it goes on
    to set the flag if and only if its token was handed out by [subscribe] and
    the flag is not ready yet. *)
Theorem mark_ready_authorised (w w' : World) (i : nat) (t : Z) :
  reachable w → tasks w !! i = Some (MarkRemove t) → step i Run w = Some w' →
  (tasks w' !! i = Some MarkStore ↔ t ∈ issued (returned w) ∧ ready (flag w) = false).
Proof.
  intros Hinv%flag_invariant Hp. unfold step. rewrite Hp; simpl.
  pose proof (inv_knows _ Hinv _ _ Hp) as [Hq1 Hq2].
  case_bool_decide as Ht; intros [= <-]; simpl; rewrite lookup_insert_eq.
  - split; [|done]. intros _. destruct (ready (flag w)); [set_solver|].
    split; [by apply Hq2|done].
  - split; [done|]. intros [Hi Hr]. destruct Ht. by apply Hq2.
Qed.

Definition mark_schedule : list (nat * action) :=
  (0, Spawn CSubscribe) :: run_of 0 6 ++ (1, Spawn (CMarkReady 1)) :: run_of 1 2.

Lemma mark_ready_authorised_witness : ∃ w w',
  exec mark_schedule new_world = Some w ∧ step 1 Run w = Some w' ∧
  tasks w' !! 1 = Some MarkStore.
Proof.
  destruct (exec mark_schedule new_world) as [w|] eqn:E; [|vm_compute in E; discriminate E].
  destruct (step 1 Run w) as [w'|] eqn:E2;
    [|vm_compute in E; injection E as <-; vm_compute in E2; discriminate E2].
  exists w, w'. split; [done|split; [done|]].
  apply (mark_ready_authorised w w' 1 1%Z).
  - eapply exec_reachable; [apply reach_new|exact E].
  - vm_compute in E. injection E as <-. reflexivity.
  - exact E2.
  - vm_compute in E. injection E as <-. split; [vm_compute; left|reflexivity].
Defined.

(** ** The loop of [subscribe] *)

Lemma next_id_range w : reachable w → wrap_i32 (next_id (flag w)) = next_id (flag w).
Proof.
  induction 1 as [|w i a w' _ IH (f & p & Hmv & ->)%step_moves]; [done|]. simpl.
  move_cases Hmv; try done. apply wrap_i32_small, wrap_i32_range.
Qed.

(** Among one more consecutive ids than there are taken ones, one is free. *)
Lemma free_id (X : gset Z) (n : Z) :
  (Z.of_nat (size X) < i32_modulus)%Z →
  ∃ k, k ≤ size X ∧ wrap_i32 (n + Z.of_nat k) ∉ X.
Proof.
  intros Hsz. set (ids := (λ k, wrap_i32 (n + Z.of_nat k)) <$> seq 0 (S (size X))).
  assert (Hnd : NoDup ids).
  { apply NoDup_fmap_2_strong; [|apply NoDup_seq].
    intros x y Hx%elem_of_seq Hy%elem_of_seq E%wrap_i32_inj; lia. }
  destruct (decide (Forall (λ x, x ∈ X) ids)) as [Hall|Hex].
  - exfalso. assert (Hsub : list_to_set ids ⊆ X).
    { intros x Hx%elem_of_list_to_set. by apply (Forall_forall (λ x, x ∈ X) ids). }
    apply subseteq_size in Hsub. rewrite size_list_to_set in Hsub by done.
    unfold ids in Hsub. rewrite length_fmap, length_seq in Hsub. lia.
  - apply not_Forall_Exists in Hex; [|apply _].
    apply Exists_exists in Hex as (x & Hx & Hn). apply list_elem_of_fmap in Hx as (k & -> & Hk).
    apply elem_of_seq in Hk. exists k. split; [lia|done].
Qed.

Lemma step_run i w p :
  tasks w !! i = Some p →
  step i Run w = ('(f, p') ← run_step i (receivers (tasks w)) (flag w) p; Some (put i f p' w)).
Proof. intros Hp. unfold step. by rewrite Hp. Qed.

(** Two steps of the loop: fetch an id and try to insert it. *)
Lemma subscribe_loop_step w i :
  tasks w !! i = Some SubFetch →
  let n := next_id (flag w) in
  exec (run_of i 2) w = Some
    (mkWorld
      (if bool_decide (n ∈ {[0%Z]} ∪ tokens (flag w))
       then set_next_id (wrap_i32 (n + 1)) (flag w)
       else set_tokens ({[n]} ∪ tokens (flag w)) (set_next_id (wrap_i32 (n + 1)) (flag w)))
      (<[i := if bool_decide (n ∈ {[0%Z]} ∪ tokens (flag w)) then SubFetch
              else SubUnlock (Some n)]> (tasks w))
      (returned w)).
Proof.
  intros Hp n. unfold run_of. cbn [replicate exec].
  rewrite (step_run i w SubFetch Hp). cbn [run_step subscribe_step mbind option_bind].
  erewrite step_run by (simpl; apply lookup_insert_eq). simpl. fold n.
  destruct (bool_decide (n ∈ _)) eqn:E.
  - apply bool_decide_eq_true in E.
    replace (bool_decide (n ≠ 0%Z) && bool_decide (n ∉ tokens (flag w))) with false; cycle 1.
    { symmetry. apply andb_false_iff. rewrite !bool_decide_eq_false.
      apply elem_of_union in E as [E|E]; [left|right]; [set_solver|auto]. }
    unfold put; simpl. by rewrite insert_insert_eq.
  - apply bool_decide_eq_false in E.
    rewrite !bool_decide_true by set_solver. simpl.
    unfold put; simpl. by rewrite insert_insert_eq.
Qed.

Lemma run_of_app i n m : run_of i (n + m) = run_of i n ++ run_of i m.
Proof. apply replicate_add. Qed.

Lemma exec_app s1 s2 w : exec (s1 ++ s2) w = exec s1 w ≫= exec s2.
Proof.
  revert w. induction s1 as [|[i a] s1 IH]; intros w; simpl; [done|].
  destruct (step i a w); simpl; auto.
Qed.

Lemma subscribe_loop i k : ∀ w,
  tasks w !! i = Some SubFetch → wrap_i32 (next_id (flag w)) = next_id (flag w) →
  wrap_i32 (next_id (flag w) + Z.of_nat k) ∉ {[0%Z]} ∪ tokens (flag w) →
  ∃ n t w', n ≤ 2 * S k ∧ exec (run_of i n) w = Some w' ∧
    tasks w' !! i = Some (SubUnlock (Some t)) ∧ t ≠ 0%Z ∧ (t ∉ tokens (flag w)) ∧
    tokens (flag w') = {[t]} ∪ tokens (flag w).
Proof.
  induction k as [|k IH]; intros w Hp Hn Hfree; pose proof (subscribe_loop_step w i Hp) as H2;
    cbv zeta in H2; case_bool_decide as Hin.
  - rewrite Z.add_0_r, Hn in Hfree. done.
  - eexists 2, (next_id (flag w)), _. split; [lia|]. split; [exact H2|].
    simpl. rewrite lookup_insert_eq. set_solver.
  - edestruct IH as (n & t & w' & Hle & He & Hrest).
    4: { exists (2 + n), t, w'. split; [lia|]. rewrite run_of_app, exec_app, H2. simpl.
         split; [exact He|]. simpl in Hrest. exact Hrest. }
    + simpl. apply lookup_insert_eq.
    + simpl. apply wrap_i32_small, wrap_i32_range.
    + simpl. rewrite wrap_i32_add_l.
      by replace (next_id (flag w) + 1 + Z.of_nat k)%Z
        with (next_id (flag w) + Z.of_nat (S k))%Z by lia.
  - eexists 2, (next_id (flag w)), _. split; [lia|]. split; [exact H2|].
    simpl. rewrite lookup_insert_eq. set_solver.
Qed.

(** The loop of [subscribe] ends: as long as not all [2^32 - 1] tokens are
    taken, it finds a fresh non-zero token after at most one more round than
    there are subscriptions (0 counted), whatever the state of the wrapping
    counter. *)
Theorem subscribe_terminates (w : World) (i : nat) :
  reachable w → tasks w !! i = Some SubFetch →
  (Z.of_nat (size (tokens (flag w))) < i32_modulus - 1)%Z →
  ∃ n t w', n ≤ 2 * (size (tokens (flag w)) + 2) ∧ exec (run_of i n) w = Some w' ∧
    tasks w' !! i = Some (SubUnlock (Some t)) ∧ t ≠ 0%Z ∧ (t ∉ tokens (flag w)) ∧
    tokens (flag w') = {[t]} ∪ tokens (flag w).
Proof.
  intros Hr Hp Hsz. pose proof (inv_nonzero _ (flag_invariant _ Hr)) as Hz.
  assert (Hs : size ({[0%Z]} ∪ tokens (flag w)) = S (size (tokens (flag w)))).
  { rewrite size_union by set_solver. by rewrite size_singleton. }
  destruct (free_id ({[0%Z]} ∪ tokens (flag w)) (next_id (flag w))) as (k & Hk & Hfree); [lia|].
  destruct (subscribe_loop i k w Hp (next_id_range _ Hr) Hfree) as (n & t & w' & Hn & Hrest).
  exists n, t, w'. split; [lia|done].
Qed.

Lemma subscribe_terminates_witness : ∃ w, exec ((0, Spawn CSubscribe) :: run_of 0 3) new_world = Some w ∧
  ∃ n t w', n ≤ 4 ∧ exec (run_of 0 n) w = Some w' ∧ tasks w' !! 0 = Some (SubUnlock (Some t)).
Proof.
  destruct (exec ((0, Spawn CSubscribe) :: run_of 0 3) new_world) as [w|] eqn:E;
    [|vm_compute in E; discriminate E].
  exists w. split; [done|].
  destruct (subscribe_terminates w 0) as (n & t & w' & Hn & He & Ht & _).
  - eapply exec_reachable; [apply reach_new|exact E].
  - vm_compute in E. injection E as <-. reflexivity.
  - vm_compute in E. injection E as <-. reflexivity.
  - exists n, t, w'. split; [|done]. vm_compute in E. injection E as <-. exact Hn.
Defined.

(** ** Waking the waiters *)

(** The version that a receiver has seen is not ahead of the channel. *)
Definition seen_of (p : pc) : nat :=
  match p with
  | WaitBorrow s | WaitChanged s | WaitBorrow2 s => s
  | _ => 0
  end.

Lemma move_version i w f p : moves i w f p →
  tx_version (flag w) ≤ tx_version f ∧ (tx_value (flag w) = true → tx_value f = true).
Proof. intros Hmv. move_cases Hmv; auto. Qed.

Lemma move_seen i w f p : moves i w f p →
  (∀ q, tasks w !! i = Some q → seen_of q ≤ tx_version (flag w)) → seen_of p ≤ tx_version f.
Proof.
  intros Hmv Hs. move_cases Hmv; try lia; try (apply (Hs _ eq_refl)).
Qed.

Lemma reachable_seen w : reachable w →
  ∀ i p, tasks w !! i = Some p → seen_of p ≤ tx_version (flag w).
Proof.
  induction 1 as [|w i a w' _ IH (f & p & Hmv & ->)%step_moves]; simpl; [done|].
  intros j q [[<- <-]|[Hne Hj]]%lookup_insert_Some.
  - apply (move_seen _ _ _ _ Hmv). apply IH.
  - pose proof (move_version _ _ _ _ Hmv). pose proof (IH _ _ Hj). lia.
Qed.

Lemma receivers_true ts i p : ts !! i = Some p → has_rx p = true → receivers ts = true.
Proof.
  intros Hi Hp. unfold receivers. apply existsb_exists. exists (i, p). split; [|done].
  apply list_elem_of_In, elem_of_map_to_list. done.
Qed.

(** The steps a woken waiter still needs. *)
Definition steps_left (version : nat) (p : pc) : option nat :=
  match p with
  | WaitBorrow _ | WaitBorrow2 _ => Some 1
  | WaitChanged s => if bool_decide (s < version) then Some 2 else None
  | Done RWait => Some 0
  | _ => None
  end.

(** Task [i] returns from [wait_ready] with [n] more steps of its own. *)
Definition woken (i n : nat) (w : World) : Prop :=
  tx_value (flag w) = true ∧
  ∃ p, tasks w !! i = Some p ∧ steps_left (tx_version (flag w)) p = Some n ∧
       (n = 0 → (i, RWait) ∈ returned w).

Lemma woken_enabled i n w : woken i (S n) w → is_Some (step i Run w).
Proof.
  intros (Hv & p & Hp & Hs & _). rewrite (step_run _ _ _ Hp).
  destruct p; simpl in *; try discriminate Hs; try (eexists; reflexivity).
  - case_bool_decide; [|discriminate]. rewrite bool_decide_false by lia. simpl. by eexists.
  - case_match; simplify_eq.
Qed.

(** A step of [i] brings it closer, other steps do not matter. *)
Lemma woken_step i n w j a w' :
  woken i n w → step j a w = Some w' → (j, a) ≠ (i, Cancel) →
  (j = i ∧ a = Run ∧ ∃ m, n = S m ∧ woken i m w') ∨ ((j, a) ≠ (i, Run) ∧ woken i n w').
Proof.
  intros (Hv & p & Hp & Hs & Hd) Hst Hc. pose proof Hst as (f & q & Hmv & Hw')%step_moves.
  pose proof (move_version _ _ _ _ Hmv) as [Hver Hval].
  destruct (decide (j = i)) as [->|Hne].
  - unfold step in Hst. rewrite Hp in Hst. destruct a; try done.
    + left. do 2 (split; [done|]). clear f q Hmv Hver Hval Hw'.
      destruct p; simpl in Hst, Hs; try discriminate; rewrite ?Hv in Hst; simplify_eq/=.
      * exists 0. split; [done|]. split; [done|]. eexists; simpl.
        rewrite lookup_insert_eq. split; [done|]. split; [done|]. left.
      * destruct (bool_decide_reflect (seen < tx_version (flag w))); [|discriminate].
        simplify_eq. rewrite bool_decide_false in Hst by lia. simplify_eq/=.
        exists 1. split; [done|]. split; [done|]. eexists; simpl.
        rewrite lookup_insert_eq. split; [done|]. split; [done|]. done.
      * exists 0. split; [done|]. split; [done|]. eexists; simpl.
        rewrite lookup_insert_eq. split; [done|]. split; [done|]. left.
    + case_bool_decide; [done|]. destruct p; simplify_eq/=.
  - subst w'. right. split; [congruence|]. split; [simpl; auto|]. exists p; simpl.
    rewrite lookup_insert_ne by done. split; [done|]. split.
    + destruct p; simpl in *; try done. case_bool_decide; [|discriminate].
      rewrite bool_decide_true by lia. done.
    + intros Hn. specialize (Hd Hn). destruct q; simpl; auto. by right.
Qed.

(** How often task [i] runs in a schedule. *)
Definition runs (i : nat) (sched : list (nat * action)) : nat :=
  length (List.filter (λ x, match x with (j, Run) => Nat.eqb i j | _ => false end) sched).

Lemma woken_exec i sched : ∀ n w w',
  woken i n w → exec sched w = Some w' → (i, Cancel) ∉ sched →
  ∃ m, woken i m w' ∧ n = runs i sched + m.
Proof.
  induction sched as [|[j a] sched IH]; intros n w w' Hw; simpl.
  - intros [= <-] _. by exists n.
  - intros (w1 & Hs & He)%bind_Some Hc. rewrite not_elem_of_cons in Hc. destruct Hc as [Hc1 Hc2].
    destruct (woken_step _ _ _ _ _ _ Hw Hs) as [(-> & -> & m & -> & Hm)|[Hne Hm]]; [congruence| |].
    + destruct (IH _ _ _ Hm He Hc2) as (m' & Hm' & ->). exists m'. split; [done|].
      unfold runs; simpl. rewrite Nat.eqb_refl. done.
    + destruct (IH _ _ _ Hm He Hc2) as (m' & Hm' & ->). exists m'. split; [done|].
      unfold runs; simpl. destruct a; try done.
      destruct (Nat.eqb_spec i j); [congruence|done].
Qed.

#[global] Instance call_eq_dec : EqDecision call.
Proof. solve_decision. Defined.
#[global] Instance action_eq_dec : EqDecision action.
Proof. solve_decision. Defined.

(** Liveness of waiting: once [wait_ready] has its receiver, the broadcast of
    [mark_ready] or [is_ready] reaches it.  After the send, under every
    schedule of the other tasks, the waiter can always move, and it has
    returned when it was run twice. *)
Theorem broadcast_wakes_receiver (w w1 w2 : World) (i j : nat) (p q : pc) (sched : list (nat * action)) :
  reachable w →
  tasks w !! i = Some p → has_rx p = true →
  tasks w !! j = Some q → q = MarkSend ∨ q = IsSend false ∨ q = IsSend true →
  step j Run w = Some w1 →
  exec sched w1 = Some w2 → (i, Cancel) ∉ sched →
  (i, RWait) ∈ returned w2 ∨ (runs i sched < 2 ∧ is_Some (step i Run w2)).
Proof.
  intros Hr Hi Hrx Hj Hq Hs He Hc.
  assert (Hne : j ≠ i) by (intros ->; destruct Hq as [->|[->| ->]]; simplify_eq/=).
  pose proof (reachable_seen _ Hr _ _ Hi) as Hseen.
  assert (∃ n, n ≤ 2 ∧ woken i n w1) as (n & Hn & Hw).
  { pose proof (receivers_true _ _ _ Hi Hrx) as Hrec.
    rewrite (step_run _ _ _ Hj), Hrec in Hs.
    destruct p; try discriminate Hrx; destruct Hq as [->|[->| ->]]; simplify_eq/=;
      (eexists; split; [|split; [done|]; eexists; simpl;
         rewrite lookup_insert_ne by done; split; [done|];
         simpl; rewrite ?bool_decide_true by lia; done]; lia). }
  destruct (woken_exec _ _ _ _ _ Hw He Hc) as (m & Hm & ->).
  destruct m as [|m]; [left|right].
  - destruct Hm as (_ & p' & _ & _ & Hd). auto.
  - split; [lia|]. by eapply woken_enabled.
Qed.

Definition wakeup_schedule : list (nat * action) :=
  (0, Spawn CSubscribe) :: run_of 0 6 ++ (1, Spawn CWaitReady) :: run_of 1 6 ++
  (2, Spawn (CMarkReady 1)) :: run_of 2 6.

Lemma broadcast_wakes_receiver_witness : ∃ w w1 w2,
  exec wakeup_schedule new_world = Some w ∧ step 2 Run w = Some w1 ∧
  exec (run_of 1 2) w1 = Some w2 ∧ (1, RWait) ∈ returned w2.
Proof.
  destruct (exec wakeup_schedule new_world) as [w|] eqn:E; [|vm_compute in E; discriminate E].
  destruct (step 2 Run w) as [w1|] eqn:E1;
    [|vm_compute in E; injection E as <-; vm_compute in E1; discriminate E1].
  destruct (exec (run_of 1 2) w1) as [w2|] eqn:E2;
    [|vm_compute in E; injection E as <-; vm_compute in E1; injection E1 as <-;
      vm_compute in E2; discriminate E2].
  exists w, w1, w2. split; [done|split; [done|split; [done|]]].
  destruct (broadcast_wakes_receiver w w1 w2 1 2 (WaitChanged 0) MarkSend (run_of 1 2)) as [H|[H _]].
  - eapply exec_reachable; [apply reach_new|exact E].
  - vm_compute in E. injection E as <-. reflexivity.
  - reflexivity.
  - vm_compute in E. injection E as <-. reflexivity.
  - by left.
  - exact E1.
  - exact E2.
  - apply (bool_decide_unpack _). vm_compute. exact I.
  - exact H.
  - vm_compute in H. lia.
Defined.

(** ** The lost wake-up *)

(** The task is bound to send on the watch channel. *)
Definition sends (p : pc) : bool :=
  match p with
  | MarkStore | MarkClear | MarkUnlock true | MarkSend | IsDrop _ false | IsSend _ => true
  | _ => false
  end.

(** When the flag is ready no task starts on the way to a send. *)
Lemma move_sends i w f p :
  Inv w → moves i w f p → ready (flag w) = true → sends p = true →
  ∃ q, tasks w !! i = Some q ∧ sends q = true.
Proof.
  intros Hinv Hmv Hr Hp.
  pose proof (inv_knows _ Hinv i) as Hk. move_cases Hmv; try discriminate Hp; try congruence;
    try (rewrite Hr in Hp; discriminate Hp); eauto.
  specialize (Hk _ eq_refl). destruct Hk as [Hk _]. specialize (Hk Hr). apply bool_decide_eq_true in E. set_solver.
Qed.

Lemma move_silent i w f p :
  moves i w f p → (∀ q, tasks w !! i = Some q → sends q = false) →
  tx_version f = tx_version (flag w).
Proof. intros Hmv Hs. move_cases Hmv; try done; by specialize (Hs _ eq_refl). Qed.

(** Task [i] waits on a channel on which nobody will send any more. *)
Record stuck (i v : nat) (w : World) : Prop := {
  stuck_ready : ready (flag w) = true;
  stuck_pc : tasks w !! i = Some (WaitChanged v);
  stuck_version : tx_version (flag w) = v;
  stuck_silent j p : tasks w !! j = Some p → sends p = false;
  stuck_returned : (i, RWait) ∉ returned w
}.

Lemma stuck_disabled i v w : stuck i v w → step i Run w = None.
Proof.
  intros [_ Hp Hv _ _]. rewrite (step_run _ _ _ Hp). simpl. by rewrite bool_decide_true.
Qed.

Lemma stuck_step i v w j a w' :
  reachable w → stuck i v w → (j, a) ≠ (i, Cancel) → step j a w = Some w' → stuck i v w'.
Proof.
  intros Hinv%flag_invariant Hst Hc Hs. pose proof Hst as [Hr Hp Hv Hsil Hret].
  assert (Hne : j ≠ i).
  { intros ->. destruct a; [|by rewrite (stuck_disabled i v) in Hs| |congruence];
      unfold step in Hs; rewrite Hp in Hs; simpl in Hs; [done|].
    by case_bool_decide. }
  apply step_moves in Hs as (f & p & Hmv & ->).
  constructor; simpl.
  - by apply (move_ready _ _ _ _ Hmv).
  - by rewrite lookup_insert_ne.
  - rewrite (move_silent _ _ _ _ Hmv); [done|]. apply Hsil.
  - intros k q [[<- <-]|[Hnk Hk]]%lookup_insert_Some; [|by apply (Hsil k)].
    destruct (sends p) eqn:Es; [|done].
    destruct (move_sends _ _ _ _ Hinv Hmv Hr Es) as (q & Hq & Hsq).
    rewrite (Hsil _ _ Hq) in Hsq. done.
  - destruct p; simpl; auto. rewrite not_elem_of_cons. split; [congruence|done].
Qed.

Definition lost_wakeup_schedule : list (nat * action) :=
  (0, Spawn CSubscribe) :: run_of 0 6 ++ (1, Spawn CWaitReady) :: run_of 1 4 ++
  (2, Spawn (CMarkReady 1)) :: run_of 2 7 ++ run_of 1 2.

(** A wake-up can be lost: there is an execution in which [mark_ready] has
    returned [Ok(true)] and the flag is ready, and a task that called
    [wait_ready] before never returns, whatever happens later (unless it is
    dropped): it asked [is_ready] before the flag was set and subscribed to the
    channel after the broadcast, which without receivers stores nothing. *)
Theorem wait_ready_lost_wakeup :
  ∃ (w : World) (i : nat),
    reachable w ∧ ready (flag w) = true ∧ marks (returned w) ≠ [] ∧
    ∀ sched w', exec sched w = Some w' → (i, Cancel) ∉ sched →
      ((i, RWait) ∉ returned w') ∧ step i Run w' = None.
Proof.
  destruct (exec lost_wakeup_schedule new_world) as [w|] eqn:E; [|vm_compute in E; discriminate E].
  exists w, 1. assert (Hr : reachable w) by (eapply exec_reachable; [apply reach_new|exact E]).
  assert (Hst : stuck 1 0 w).
  { vm_compute in E. injection E as <-. constructor; simpl; try reflexivity.
    - intros j p Hj. apply elem_of_map_to_list in Hj. vm_compute in Hj.
      by repeat (apply elem_of_cons in Hj as [[= -> ->]|Hj]; [done|]); apply elem_of_nil in Hj.
    - rewrite !not_elem_of_cons. split_and!; try discriminate. apply not_elem_of_nil. }
  split; [exact Hr|split; [exact (stuck_ready _ _ _ Hst)|split]].
  - vm_compute in E. injection E as <-. discriminate.
  - intros sched w' He Hc.
    assert (Hst' : stuck 1 0 w').
    { apply (exec_ind (stuck 1 0) (λ x, x ≠ (1, Cancel)) sched w); [|exact Hr|exact Hst| |exact He].
      - intros. by eapply stuck_step.
      - apply Forall_forall. intros x Hx ->. exact (Hc Hx). }
    split; [exact (stuck_returned _ _ _ Hst')|exact (stuck_disabled _ _ _ Hst')].
Qed.
