(* ===== verification/Paths.v ===== *)
(** * More of [std::path], and choosing by a key

    Comparison of paths by their components, prefixes and ancestors, for the
    permission policies; [Iterator::max_by_key] with the orders it needs. *)
From S2P Require Import Prelude RustStr AbsolutePath Ordering.

(** ** Orders *)

#[global] Program Instance nat_Ordered : Ordered nat := { cmp := Nat.compare }.
Next Obligation. apply Nat.compare_eq_iff. Qed.
Next Obligation. intros. apply Nat.compare_antisym. Qed.
Next Obligation. intros a b c. rewrite !Nat.compare_lt_iff. lia. Qed.

(** Pairs, lexicographically. *)
Definition pair_cmp {A B} `{!Ordered A, !Ordered B} (x y : A * B) : comparison :=
  match cmp x.1 y.1 with
  | Eq => cmp x.2 y.2
  | c => c
  end.

#[global] Program Instance pair_Ordered {A B} `{!Ordered A, !Ordered B} : Ordered (A * B) :=
  { cmp := pair_cmp }.
Next Obligation.
  intros A B H H' [a b] [c d]. unfold pair_cmp; simpl. assert (Hac := cmp_eq a c).
  destruct (cmp a c).
  - rewrite cmp_eq. naive_solver.
  - split; [done|]. intros [= -> ->]. by destruct Hac as [_ Hac]; specialize (Hac eq_refl).
  - split; [done|]. intros [= -> ->]. by destruct Hac as [_ Hac]; specialize (Hac eq_refl).
Qed.
Next Obligation.
  intros A B H H' [a b] [c d]. unfold pair_cmp; simpl. rewrite (cmp_opp a c).
  destruct (cmp a c); simpl; auto. apply cmp_opp.
Qed.
Next Obligation.
  intros A B H H' [a b] [c d] [e f]. unfold pair_cmp; simpl.
  destruct (cmp a c) eqn:E1; destruct (cmp c e) eqn:E2; try done.
  - apply cmp_eq in E1 as ->, E2 as ->. rewrite (proj2 (cmp_eq e e) eq_refl). apply cmp_lt_trans.
  - apply cmp_eq in E1 as ->. by rewrite E2.
  - apply cmp_eq in E2 as ->. by rewrite E1.
  - by rewrite (cmp_lt_trans _ _ _ E1 E2).
Qed.

(** An order through an injection. *)
Definition via_Ordered {A B} `{!Ordered B} (f : A → B) (Hf : Inj (=) (=) f) : Ordered A.
Proof.
  refine {| cmp a b := cmp (f a) (f b) |}.
  - intros a b. rewrite cmp_eq. split; [apply Hf|by intros ->].
  - intros. apply cmp_opp.
  - intros a b c. apply cmp_lt_trans.
Defined.

(** [iter.max_by_key(key)]: of several greatest elements the last one. *)
Section max_by_key.
Context {A K : Type} `{!Ordered K} (key : A → K).

Definition max_by_key (l : list A) : option A :=
  foldl (λ best x,
    match best with
    | None => Some x
    | Some m => match cmp (key m) (key x) with Gt => Some m | _ => Some x end
    end) None l.

Definition greatest (l : list A) (m : A) : Prop := m ∈ l ∧ ∀ x, x ∈ l → cmp (key m) (key x) ≠ Lt.

Lemma cmp_not_lt_trans (a b c : K) : cmp a b ≠ Lt → cmp b c ≠ Lt → cmp a c ≠ Lt.
Proof.
  intros Hab Hbc. rewrite (cmp_opp b a) in Hab. rewrite (cmp_opp c b) in Hbc.
  rewrite (cmp_opp c a). 
  pose proof (Ordering.le_trans c b a) as H. unfold le in H.
  destruct (cmp c b), (cmp b a), (cmp c a); simpl in *; try done; exfalso; apply H; done.
Qed.

Lemma max_by_key_spec l :
  match max_by_key l with
  | Some m => greatest l m
  | None => l = []
  end.
Proof.
  unfold max_by_key. induction l as [|x l IH] using rev_ind; [done|]. rewrite foldl_snoc.
  destruct (foldl _ None l) as [m|]; [|].
  - destruct IH as [Hm Hl].
    destruct (cmp (key m) (key x)) eqn:E; (split; [set_solver|]);
      intros y [Hy| ->%list_elem_of_singleton]%elem_of_app.
    + apply cmp_not_lt_trans with (key m); [|by apply Hl]. rewrite cmp_opp, E. done.
    + by rewrite (proj2 (cmp_eq _ _)).
    + apply cmp_not_lt_trans with (key m); [|by apply Hl]. rewrite cmp_opp, E. done.
    + by rewrite (proj2 (cmp_eq _ _)).
    + by apply Hl.
    + by rewrite E.
  - subst l. split; [set_solver|]. intros y ->%list_elem_of_singleton.
    by rewrite (proj2 (cmp_eq _ _)).
Qed.

Lemma max_by_key_Some l m : max_by_key l = Some m → greatest l m.
Proof. intros H. pose proof (max_by_key_spec l) as Hs. by rewrite H in Hs. Qed.

Lemma max_by_key_None l : max_by_key l = None ↔ l = [].
Proof.
  pose proof (max_by_key_spec l) as Hs. destruct (max_by_key l); [|naive_solver].
  destruct Hs as [Hs _]. split; [done|]. intros ->. by apply elem_of_nil in Hs.
Qed.

Lemma max_by_key_is_Some l x : x ∈ l → ∃ m, max_by_key l = Some m ∧ greatest l m.
Proof.
  intros Hx. destruct (max_by_key l) as [m|] eqn:E.
  - exists m. split; [done|]. by apply max_by_key_Some.
  - apply max_by_key_None in E as ->. by apply elem_of_nil in Hx.
Qed.
End max_by_key.

(** ** Paths by components *)

(** [p == q] for paths *)
Definition path_eqb (p q : str) : bool := bool_decide (components p = components q).

(** [p.starts_with(base)] *)
Definition path_starts_with (p base : str) : bool :=
  bool_decide (components base `prefix_of` components p).

(** [p.strip_prefix(base).ok()], by its components *)
Fixpoint strip_components (base p : list Component) : option (list Component) :=
  match base, p with
  | [], _ => Some p
  | b :: base', c :: p' => if decide (b = c) then strip_components base' p' else None
  | _, [] => None
  end.
Definition path_strip_prefix (p base : str) : option (list Component) :=
  strip_components (components base) (components p).

(** A relative path from its components. *)
Definition of_components (cs : list Component) : str := join [c_slash] (map as_os_str cs).

(** [p.ancestors()]: the path, its parent, and so on. *)
Fixpoint ancestors_fuel (fuel : nat) (p : str) : list str :=
  match fuel with
  | 0 => [p]
  | S fuel => p :: match path_parent p with
                   | Some q => ancestors_fuel fuel q
                   | None => []
                   end
  end.
Definition ancestors (p : str) : list str := ancestors_fuel (length p) p.

(** [Ord] on paths compares the components, which are ordered as declared. *)
Definition component_key (c : Component) : nat * str :=
  match c with
  | RootDir => (1, [])
  | CurDir => (2, [])
  | ParentDir => (3, [])
  | Normal name => (4, name)
  end.
#[global] Instance component_key_inj : Inj (=) (=) component_key.
Proof. intros [| | |n] [| | |m]; simpl; intros [=]; by subst. Qed.
#[global] Instance Component_Ordered : Ordered Component := via_Ordered component_key _.

(** [paths.sort_by(|l, r| l.cmp(r))], stable *)
Fixpoint insert_path (p : str) (l : list str) : list str :=
  match l with
  | [] => [p]
  | q :: l' => match cmp (components p) (components q) with
               | Gt => q :: insert_path p l'
               | _ => p :: l
               end
  end.
Definition sort_paths (l : list str) : list str := foldr insert_path [] l.

(** ** Facts *)

Lemma path_starts_with_spec p base :
  path_starts_with p base = true ↔ components base `prefix_of` components p.
Proof. apply bool_decide_eq_true. Qed.

Lemma path_starts_with_refl p : path_starts_with p p = true.
Proof. by apply path_starts_with_spec. Qed.

Lemma path_starts_with_trans p q r :
  path_starts_with p q = true → path_starts_with q r = true → path_starts_with p r = true.
Proof. rewrite !path_starts_with_spec. intros H1 H2. by etrans. Qed.

Lemma path_eqb_spec p q : path_eqb p q = true ↔ components p = components q.
Proof. apply bool_decide_eq_true. Qed.

(** Two prefixes of a path, of which one has no fewer components. *)
Lemma path_prefix_comparable p q r :
  path_starts_with p q = true → path_starts_with p r = true →
  length (components r) ≤ length (components q) → path_starts_with q r = true.
Proof.
  rewrite !path_starts_with_spec. intros Hq Hr Hl.
  destruct (prefix_weak_total _ _ _ Hq Hr) as [H|H]; [|done].
  apply prefix_length_eq in H; [by rewrite H|done].
Qed.

Lemma strip_components_spec base p rest :
  strip_components base p = Some rest ↔ p = base ++ rest.
Proof.
  revert p. induction base as [|b base IH]; intros p; simpl; [naive_solver|].
  destruct p as [|c p]; [naive_solver|]. case_decide as H; [subst|naive_solver].
  rewrite IH. naive_solver.
Qed.

Lemma path_strip_prefix_spec p base rest :
  path_strip_prefix p base = Some rest ↔ components p = components base ++ rest.
Proof. apply strip_components_spec. Qed.

Lemma render_components p :
  normalized_abs p → ∃ ns, p = render ns ∧ Forall good_name ns ∧ components p = RootDir :: map Normal ns.
Proof.
  intros (ns & Hns & ->). exists ns. split; [done|]. split; [done|]. by apply components_render.
Qed.

(** Normalised paths are determined by their components. *)
Lemma normalized_components_inj p q :
  normalized_abs p → normalized_abs q → components p = components q → p = q.
Proof.
  intros (ns & Hns & ->) (ms & Hms & ->). rewrite !components_render by done.
  intros [= H]. f_equal. revert ms Hms H. induction ns as [|n ns IH]; intros [|m ms] Hms H;
    simplify_eq/=; [done|]. apply Forall_cons in Hns as [_ Hns]. apply Forall_cons in Hms as [_ Hms].
  f_equal. by apply IH.
Qed.

Lemma root_prefix p : normalized_abs p → path_starts_with p (render []) = true.
Proof.
  intros (ns & Hns & ->). apply path_starts_with_spec.
  rewrite !components_render by (done || constructor). simpl. by exists (map Normal ns).
Qed.

Lemma ancestors_fuel_render ns fuel :
  Forall good_name ns → length ns ≤ fuel →
  last (ancestors_fuel fuel (render ns)) = Some (render []).
Proof.
  revert fuel. induction ns as [|n ns IH] using rev_ind; intros fuel Hns Hf.
  - by destruct fuel.
  - rewrite length_app in Hf; simpl in Hf. destruct fuel as [|fuel]; [lia|]. simpl.
    rewrite parent_render_snoc by done. apply Forall_app in Hns as [Hns _].
    rewrite last_cons. rewrite IH by (done || lia). done.
Qed.

Lemma length_render ns : Forall good_name ns → length ns ≤ length (render ns).
Proof.
  intros Hns. unfold render. simpl. 
  assert (length ns ≤ S (length (join [c_slash] ns))); [|lia].
  induction Hns as [|n ns (Hne & _) Hns IH]; simpl; [lia|].
  destruct ns; [destruct n; [done|]; simpl; lia|].
  rewrite !length_app. destruct n; [done|]. simpl in *. lia.
Qed.

Lemma ancestors_last p : normalized_abs p → last (ancestors p) = Some (render []).
Proof.
  intros (ns & Hns & ->). apply ancestors_fuel_render; [done|]. by apply length_render.
Qed.

(** Joining a single name to a normalised path adds it as a component. *)
Lemma join_name home p n :
  normalized_abs p → good_name n → ¬ ([c_tilde] `prefix_of` n) →
  normalized_abs (abs_join home p n) ∧ components (abs_join home p n) = components p ++ [Normal n].
Proof.
  intros (ns & Hns & ->) Hn Ht. unfold abs_join.
  assert (Hns' : Forall good_name (ns ++ [n])) by (apply Forall_app; split; [done|by apply Forall_singleton]).
  assert (E : resolve_path_against_base home n (render ns) = render (ns ++ [n])).
  { unfold resolve_path_against_base, absolutize_from. rewrite expand_home_relative by done.
    assert (Ha : is_absolute n = false).
    { apply not_true_iff_false. rewrite is_absolute_spec. intros [r ->].
      destruct Hn as (_ & Hs & _). set_solver. }
    unfold path_with_base. rewrite Ha, push_render by done.
    pose proof (resolve_render home (ns ++ [n]) [] Hns') as Hr.
    unfold resolve_path_against_base, absolutize_from in Hr.
    rewrite expand_home_relative in Hr by (intros [r Hr']; discriminate Hr').
    unfold path_with_base in Hr. rewrite (proj2 (is_absolute_spec _)) in Hr by (by eexists). done. }
  rewrite E. split; [by exists (ns ++ [n])|]. by rewrite !components_render, map_app.
Qed.
