(* ===== verification/Permissions.v ===== *)
(** * File-system permission policies: [protocol/src/permissions.rs]

    A policy lists entries that give or deny access to paths; the most
    specific entry that covers a path decides.  Around this sit the protection
    of metadata directories ([.git], [.codex], ...) below writable roots, the
    lists of roots that the sandboxes enforce, and the conversions from and to
    the older [SandboxPolicy] ([protocol/src/protocol.rs]).

    Paths are strings; equality and prefixes of paths go by components, as in
    [std::path].  What the code asks the operating system is in [Env]. *)
From S2P Require Import Prelude RustStr AbsolutePath FileSystem Ordering Paths.

(** ** Data *)

Inductive NetworkSandboxPolicy := NetworkRestricted | NetworkEnabled.
Definition net_is_enabled (n : NetworkSandboxPolicy) : bool :=
  match n with NetworkEnabled => true | NetworkRestricted => false end.

Inductive FileSystemAccessMode := AccessRead | AccessWrite | AccessNone.
#[global] Instance FileSystemAccessMode_eq_dec : EqDecision FileSystemAccessMode.
Proof. solve_decision. Defined.

(** The derived [Ord]: the order of the declaration. *)
Definition access_rank (a : FileSystemAccessMode) : nat :=
  match a with
  | AccessRead => 0
  | AccessWrite => 1
  | AccessNone => 2
  end.
Definition can_read (a : FileSystemAccessMode) : bool :=
  match a with AccessNone => false | _ => true end.
Definition can_write (a : FileSystemAccessMode) : bool :=
  match a with AccessWrite => true | _ => false end.

Inductive FileSystemSpecialPath :=
| Root
| Minimal
| ProjectRoots (subpath : option str)
| Tmpdir
| SlashTmp
| Unknown (path : str) (subpath : option str).

Inductive FileSystemPath :=
| Path (path : str)
| GlobPattern (pattern : str)
| Special (value : FileSystemSpecialPath).

Record FileSystemSandboxEntry := mkEntry {
  entry_path : FileSystemPath;
  entry_access : FileSystemAccessMode
}.

Inductive FileSystemSandboxKind := Restricted | Unrestricted | ExternalSandboxKind.

Record FileSystemSandboxPolicy := mkPolicy {
  kind : FileSystemSandboxKind;
  glob_scan_max_depth : option nat;
  entries : list FileSystemSandboxEntry
}.

Record ResolvedFileSystemEntry := mkResolved {
  resolved_path : str;
  resolved_access : FileSystemAccessMode
}.

Record WritableRoot := mkWritableRoot {
  root : str;
  read_only_subpaths : list str;
  protected_metadata_names : list str
}.

Inductive NetworkAccess := NetworkAccessRestricted | NetworkAccessEnabled.

Inductive SandboxPolicy :=
| DangerFullAccess
| ReadOnly (network_access : bool)
| ExternalSandbox (network_access : NetworkAccess)
| WorkspaceWrite (writable_roots : list str) (network_access : bool)
    (exclude_tmpdir_env_var exclude_slash_tmp : bool).

Definition PROTECTED_METADATA_PATH_NAMES : list str :=
  [lit ".git"; lit ".agents"; lit ".codex"; lit ".xtech"].

Definition is_restricted (p : FileSystemSandboxPolicy) : bool :=
  match kind p with Restricted => true | _ => false end.

Definition with_entries (es : list FileSystemSandboxEntry) (p : FileSystemSandboxPolicy)
    : FileSystemSandboxPolicy := mkPolicy (kind p) (glob_scan_max_depth p) es.

Definition push_entry (e : FileSystemSandboxEntry) (p : FileSystemSandboxPolicy)
    : FileSystemSandboxPolicy := with_entries (entries p ++ [e]) p.

Definition unrestricted : FileSystemSandboxPolicy := mkPolicy Unrestricted None [].
Definition external_sandbox : FileSystemSandboxPolicy := mkPolicy ExternalSandboxKind None [].
Definition restricted (es : list FileSystemSandboxEntry) : FileSystemSandboxPolicy :=
  mkPolicy Restricted None es.

Definition default_policy : FileSystemSandboxPolicy :=
  mkPolicy Restricted None [mkEntry (Special Root) AccessRead].

(** ** Operations that look at the entries only *)

Definition option_path_eqb (p q : option str) : bool :=
  match p, q with
  | Some p, Some q => path_eqb p q
  | None, None => true
  | _, _ => false
  end.

(** The derived equality of entries. *)
Definition special_eqb (l r : FileSystemSpecialPath) : bool :=
  match l, r with
  | Root, Root | Minimal, Minimal | Tmpdir, Tmpdir | SlashTmp, SlashTmp => true
  | ProjectRoots l, ProjectRoots r => option_path_eqb l r
  | Unknown l ls, Unknown r rs => bool_decide (l = r) && option_path_eqb ls rs
  | _, _ => false
  end.
Definition fs_path_eqb (l r : FileSystemPath) : bool :=
  match l, r with
  | Path l, Path r => path_eqb l r
  | GlobPattern l, GlobPattern r => bool_decide (l = r)
  | Special l, Special r => special_eqb l r
  | _, _ => false
  end.
Definition entry_eqb (l r : FileSystemSandboxEntry) : bool :=
  fs_path_eqb (entry_path l) (entry_path r) &&
  bool_decide (entry_access l = entry_access r).

Definition has_root_access (predicate : FileSystemAccessMode → bool)
    (p : FileSystemSandboxPolicy) : bool :=
  is_restricted p &&
  existsb (λ e, match entry_path e with
                | Special Root => predicate (entry_access e)
                | _ => false
                end) (entries p).

Definition has_denied_read_restrictions (p : FileSystemSandboxPolicy) : bool :=
  is_restricted p && existsb (λ e, bool_decide (entry_access e = AccessNone)) (entries p).

(** Special paths that name the same place without a current directory. *)
Definition special_paths_share_target (l r : FileSystemSpecialPath) : bool :=
  match l, r with
  | Root, Root | Minimal, Minimal | Tmpdir, Tmpdir | SlashTmp, SlashTmp => true
  | ProjectRoots l, ProjectRoots r => option_path_eqb l r
  | Unknown l ls, Unknown r rs => bool_decide (l = r) && option_path_eqb ls rs
  | _, _ => false
  end.

Definition special_path_matches_absolute_path (value : FileSystemSpecialPath) (path : str) : bool :=
  match value with
  | Root => match path_parent path with None => true | Some _ => false end
  | SlashTmp => path_eqb path (lit "/tmp")
  | _ => false
  end.

Definition file_system_paths_share_target (l r : FileSystemPath) : bool :=
  match l, r with
  | Path l, Path r => path_eqb l r
  | Special l, Special r => special_paths_share_target l r
  | Path path, Special value | Special value, Path path =>
      special_path_matches_absolute_path value path
  | GlobPattern l, GlobPattern r => bool_decide (l = r)
  | GlobPattern _, _ | _, GlobPattern _ => false
  end.

Definition has_same_target_write_override (p : FileSystemSandboxPolicy)
    (e : FileSystemSandboxEntry) : bool :=
  existsb (λ candidate,
    can_write (entry_access candidate) &&
    bool_decide (access_rank (entry_access e) < access_rank (entry_access candidate)) &&
    file_system_paths_share_target (entry_path candidate) (entry_path e)) (entries p).

Definition has_write_narrowing_entries (p : FileSystemSandboxPolicy) : bool :=
  is_restricted p &&
  existsb (λ e,
    if can_write (entry_access e) then false
    else match entry_path e with
         | Path _ => negb (has_same_target_write_override p e)
         | GlobPattern _ => true
         | Special Root => bool_decide (entry_access e = AccessNone)
         | Special Minimal | Special (Unknown _ _) => false
         | Special _ => negb (has_same_target_write_override p e)
         end) (entries p).

Definition has_full_disk_read_access (p : FileSystemSandboxPolicy) : bool :=
  match kind p with
  | Unrestricted | ExternalSandboxKind => true
  | Restricted => has_root_access can_read p && negb (has_denied_read_restrictions p)
  end.

Definition has_full_disk_write_access (p : FileSystemSandboxPolicy) : bool :=
  match kind p with
  | Unrestricted | ExternalSandboxKind => true
  | Restricted => has_root_access can_write p && negb (has_write_narrowing_entries p)
  end.

Definition include_platform_defaults (p : FileSystemSandboxPolicy) : bool :=
  negb (has_full_disk_read_access p) && is_restricted p &&
  existsb (λ e, match entry_path e with
                | Special Minimal => can_read (entry_access e)
                | _ => false
                end) (entries p).

Definition append_default_read_only_entry_if_no_explicit_rule
    (es : list FileSystemSandboxEntry) (path : FileSystemPath) : list FileSystemSandboxEntry :=
  if existsb (λ e, file_system_paths_share_target (entry_path e) path) es then es
  else es ++ [mkEntry path AccessRead].

Definition append_default_read_only_project_root_subpath_if_no_explicit_rule
    (es : list FileSystemSandboxEntry) (subpath : str) : list FileSystemSandboxEntry :=
  append_default_read_only_entry_if_no_explicit_rule es (Special (ProjectRoots (Some subpath))).

Definition append_default_read_only_path_if_no_explicit_rule
    (es : list FileSystemSandboxEntry) (path : str) : list FileSystemSandboxEntry :=
  append_default_read_only_entry_if_no_explicit_rule es (Path path).

(** Push the deny entries of [existing] that are not there yet. *)
Definition push_deny_entries (existing es : list FileSystemSandboxEntry)
    : list FileSystemSandboxEntry :=
  foldl (λ es deny,
    if existsb (λ e, entry_eqb e deny) es then es else es ++ [deny]) es
    (List.filter (λ e, bool_decide (entry_access e = AccessNone)) existing).

Definition preserve_deny_read_restrictions_from (existing self : FileSystemSandboxPolicy)
    : FileSystemSandboxPolicy :=
  let has_deny_read_entries :=
    existsb (λ e, bool_decide (entry_access e = AccessNone)) (entries existing) in
  let self := match kind self with
              | Unrestricted =>
                  if has_deny_read_entries then restricted [mkEntry (Special Root) AccessWrite]
                  else self
              | _ => self
              end in
  if is_restricted self then
    mkPolicy (kind self)
      (match glob_scan_max_depth self with
       | None => glob_scan_max_depth existing
       | d => d
       end)
      (push_deny_entries (entries existing) (entries self))
  else self.

(** [seen.insert(..)] keeps the first of equal paths. *)
Fixpoint dedup_paths (seen paths : list str) : list str :=
  match paths with
  | [] => []
  | p :: paths' =>
      if existsb (path_eqb p) seen then dedup_paths seen paths'
      else p :: dedup_paths (p :: seen) paths'
  end.

Definition metadata_path_name (name : str) : option str :=
  List.find (λ m, bool_decide (name = m)) PROTECTED_METADATA_PATH_NAMES.

Definition precedence (e : ResolvedFileSystemEntry) : nat * nat :=
  (length (components (resolved_path e)), access_rank (resolved_access e)).

Definition has_explicit_resolved_path_entry (es : list ResolvedFileSystemEntry) (path : str) : bool :=
  existsb (λ e, path_eqb (resolved_path e) path) es.

(** ** [WritableRoot] and [SandboxPolicy] of [protocol.rs] *)

Definition path_contains_protected_metadata_name (wr : WritableRoot) (path : str) : bool :=
  match path_strip_prefix path (root wr) with
  | Some (first_component :: _) =>
      existsb (λ name, bool_decide (as_os_str first_component = name)) (protected_metadata_names wr)
  | _ => false
  end.

Definition is_path_writable (wr : WritableRoot) (path : str) : bool :=
  path_starts_with path (root wr) &&
  negb (existsb (path_starts_with path) (read_only_subpaths wr)) &&
  negb (path_contains_protected_metadata_name wr path).

Definition has_full_network_access (p : SandboxPolicy) : bool :=
  match p with
  | DangerFullAccess => true
  | ExternalSandbox NetworkAccessEnabled => true
  | ExternalSandbox NetworkAccessRestricted => false
  | ReadOnly network_access | WorkspaceWrite _ network_access _ _ => network_access
  end.

Definition network_of_sandbox_policy (p : SandboxPolicy) : NetworkSandboxPolicy :=
  if has_full_network_access p then NetworkEnabled else NetworkRestricted.

(** ** Operations that ask the operating system *)

Record Env := mkEnv {
  home_dir : option str;
  current_dir : Res io_error str;
  tmpdir_var : option str;
  is_dir : str → bool;
  is_file : str → bool;
  path_exists : str → bool;
  read_to_string : str → option str;
  (** [symlink_metadata(p)] succeeds, and its [is_symlink] *)
  symlink_metadata : str → option bool;
  (** [canonicalize(p)] *)
  canonicalize : str → option str
}.

Section env.
Context (env : Env).

(** [AbsolutePathBuf::from_absolute_path(p).ok()] *)
Definition absolute (p : str) : option str :=
  match from_absolute_path (home_dir env) (current_dir env) p with
  | Ok p => Some p
  | _ => None
  end.

Definition join_path (p q : str) : str := abs_join (home_dir env) p q.

(** The two panics of the source are [ExpectFailed]. *)
Definition absolute_root_path_for_cwd_res (cwd : str) : Total str :=
  match last (ancestors cwd) with
  | None => Panic ExpectFailed
  | Some r => match absolute r with Some r => Ok r | None => Panic ExpectFailed end
  end.
(** A current directory is absolute, so that the root is found
    ([absolute_root_total]). *)
Definition absolute_root_path_for_cwd (cwd : str) : str :=
  match absolute_root_path_for_cwd_res cwd with Ok r => r | _ => [c_slash] end.

Definition resolve_file_system_special_path (value : FileSystemSpecialPath) (cwd : option str)
    : option str :=
  match value with
  | Root | Minimal | Unknown _ _ => None
  | ProjectRoots subpath =>
      cwd ← cwd;
      Some (match subpath with
            | Some subpath => resolve_path_against_base (home_dir env) subpath cwd
            | None => cwd
            end)
  | Tmpdir =>
      tmpdir ← tmpdir_var env;
      if decide (tmpdir = []) then None else absolute tmpdir
  | SlashTmp =>
      slash_tmp ← absolute (lit "/tmp");
      if is_dir env slash_tmp then Some slash_tmp else None
  end.

Definition resolve_file_system_path (path : FileSystemPath) (cwd : option str) : option str :=
  match path with
  | Path path => Some path
  | GlobPattern _ => None
  | Special value => resolve_file_system_special_path value cwd
  end.

Definition resolve_entry_path (path : FileSystemPath) (cwd : option str) : option str :=
  match path with
  | Special Root => absolute_root_path_for_cwd <$> cwd
  | _ => resolve_file_system_path path cwd
  end.

Definition resolve_candidate_path (path cwd : str) : option str :=
  if is_absolute path then absolute path
  else cwd ← absolute cwd; Some (join_path cwd path).

Definition resolved_entries_with_cwd (p : FileSystemSandboxPolicy) (cwd : str)
    : list ResolvedFileSystemEntry :=
  omap (λ e, (λ path, mkResolved path (entry_access e)) <$>
               resolve_entry_path (entry_path e) (absolute cwd)) (entries p).

Definition resolve_access_with_cwd (p : FileSystemSandboxPolicy) (path cwd : str)
    : FileSystemAccessMode :=
  match kind p with
  | Unrestricted | ExternalSandboxKind => AccessWrite
  | Restricted =>
      match resolve_candidate_path path cwd with
      | None => AccessNone
      | Some path =>
          default AccessNone (resolved_access <$>
            max_by_key precedence
              (List.filter (λ e, path_starts_with path (resolved_path e))
                 (resolved_entries_with_cwd p cwd)))
      end
  end.

Definition can_read_path_with_cwd (p : FileSystemSandboxPolicy) (path cwd : str) : bool :=
  can_read (resolve_access_with_cwd p path cwd).

(** The first writable entry of which [target] is in a metadata directory. *)
Definition metadata_child (target : str) (e : ResolvedFileSystemEntry) : option (str * str) :=
  if can_write (resolved_access e) then
    match path_strip_prefix target (resolved_path e) with
    | Some (first_component :: _) =>
        name ← metadata_path_name (as_os_str first_component);
        Some (join_path (resolved_path e) name, name)
    | _ => None
    end
  else None.

Definition metadata_child_of_writable_root (p : FileSystemSandboxPolicy) (target cwd : str)
    : option (str * str) :=
  head (omap (metadata_child target) (resolved_entries_with_cwd p cwd)).

Definition has_explicit_write_entry_for_metadata_path (p : FileSystemSandboxPolicy)
    (protected_metadata_path target cwd : str) : bool :=
  existsb (λ e, can_write (resolved_access e) &&
                path_starts_with target (resolved_path e) &&
                path_starts_with (resolved_path e) protected_metadata_path)
    (resolved_entries_with_cwd p cwd).

Definition is_metadata_write_denied (p : FileSystemSandboxPolicy) (path cwd : str) : bool :=
  if is_restricted p then
    match resolve_candidate_path path cwd with
    | None => true
    | Some target =>
        match metadata_child_of_writable_root p target cwd with
        | None => false
        | Some (protected_metadata_path, _) =>
            negb (has_explicit_write_entry_for_metadata_path p protected_metadata_path target cwd)
        end
    end
  else false.

Definition can_write_path_with_cwd (p : FileSystemSandboxPolicy) (path cwd : str) : bool :=
  if negb (can_write (resolve_access_with_cwd p path cwd)) then false
  else if has_full_disk_write_access p then true
  else negb (is_metadata_write_denied p path cwd).

(** The protected name when a write of the agent to [path] is blocked. *)
Definition forbidden_agent_metadata_write (path cwd : str) (p : FileSystemSandboxPolicy)
    : option str :=
  if negb (is_restricted p) then None
  else
    target ← resolve_candidate_path path cwd;
    '(protected_metadata_path, metadata_name) ← metadata_child_of_writable_root p target cwd;
    if has_explicit_write_entry_for_metadata_path p protected_metadata_path target cwd then None
    else if negb (can_write_path_with_cwd p target cwd) then Some metadata_name
    else None.

(** Resolve the project roots of the entries against [cwd]. *)
Definition materialize_entry (cwd : option str) (e : FileSystemSandboxEntry)
    : FileSystemSandboxEntry :=
  match entry_path e with
  | Special (ProjectRoots _) =>
      match resolve_file_system_path (entry_path e) cwd with
      | Some path => mkEntry (Path path) (entry_access e)
      | None => e
      end
  | _ => e
  end.
Definition materialize_project_roots_with_cwd (p : FileSystemSandboxPolicy) (cwd : str)
    : FileSystemSandboxPolicy :=
  with_entries (map (materialize_entry (absolute cwd)) (entries p)) p.

Definition with_additional_readable_roots (p : FileSystemSandboxPolicy) (cwd : str)
    (additional_readable_roots : list str) : FileSystemSandboxPolicy :=
  if has_full_disk_read_access p then p
  else foldl (λ p path,
         if can_read_path_with_cwd p path cwd then p
         else push_entry (mkEntry (Path path) AccessRead) p) p additional_readable_roots.

Definition with_additional_writable_roots (p : FileSystemSandboxPolicy) (cwd : str)
    (additional_writable_roots : list str) : FileSystemSandboxPolicy :=
  foldl (λ p path,
    if can_write_path_with_cwd p path cwd then p
    else push_entry (mkEntry (Path path) AccessWrite) p) p additional_writable_roots.
End env.
