(* ===== verification/SandboxRoots.v ===== *)
(** * Roots for the sandboxes: the second half of [protocol/src/permissions.rs]

    Which roots a policy makes readable, writable and unreadable, with the
    read-only carve-outs below writable roots, as the sandboxes enforce them;
    the built-in policy for a workspace; and the conversions between
    [FileSystemSandboxPolicy], [SandboxPolicy] and [PermissionProfile]
    ([protocol/src/models.rs]). *)
From S2P Require Import Prelude RustStr AbsolutePath FileSystem Ordering Paths Permissions.

Section env.
Context (env : Env).

Local Abbreviation absolute := (absolute env).
Local Abbreviation join_path := (join_path env).

(** ** Effective paths *)

(** [should_preserve_logical_path]: a symbolic link below the top level. *)
Definition should_preserve_logical_path (logical : str) : bool :=
  existsb (λ ancestor,
    match symlink_metadata env ancestor with
    | Some true => match path_parent ancestor ≫= path_parent with Some _ => true | None => false end
    | _ => false
    end) (ancestors logical).

Definition canonicalize_preserving_symlinks (path : str) : option str :=
  logical ← absolute path;
  let preserve_logical_path := should_preserve_logical_path logical in
  Some (match canonicalize env path with
        | Some canonical =>
            if preserve_logical_path && negb (path_eqb canonical logical) then logical
            else canonical
        | None => logical
        end).

(** The first ancestor that exists is canonicalised, the rest is kept. *)
Definition effective_ancestor (raw_path ancestor : str) : option str :=
  match symlink_metadata env ancestor with
  | None => None
  | Some _ =>
      normalized_ancestor ← canonicalize_preserving_symlinks ancestor;
      suffix ← path_strip_prefix raw_path ancestor;
      absolute (match suffix with
                | [] => normalized_ancestor
                | _ => path_push normalized_ancestor (of_components suffix)
                end)
  end.
Definition normalize_effective_absolute_path (path : str) : str :=
  default path (head (omap (effective_ancestor path) (ancestors path))).

Definition dedup_absolute_paths (paths : list str) (normalize_effective_paths : bool) : list str :=
  dedup_paths []
    (map (λ p, if normalize_effective_paths then normalize_effective_absolute_path p else p) paths).

(** ** Metadata below a writable root *)

Definition is_git_pointer_file (path : str) : bool :=
  is_file env path && bool_decide (file_name path = Some (lit ".git")).

Definition resolve_gitdir_from_file (dot_git : str) : option str :=
  contents ← read_to_string env dot_git;
  '(prefix, gitdir_raw) ← split_once 58%N (trim contents);
  if bool_decide (trim prefix = lit "gitdir") then
    let gitdir_raw := trim gitdir_raw in
    if decide (gitdir_raw = []) then None
    else
      base ← path_parent dot_git;
      let gitdir_path := resolve_path_against_base (home_dir env) gitdir_raw base in
      if path_exists env gitdir_path then Some gitdir_path else None
  else None.

Definition default_read_only_subpaths_for_writable_root (writable_root : str)
    (protect_missing_dot_codex : bool) : list str :=
  let top_level_git := join_path writable_root (lit ".git") in
  let top_level_git_is_file := is_file env top_level_git in
  let top_level_git_is_dir := is_dir env top_level_git in
  let top_level_agents := join_path writable_root (lit ".agents") in
  let top_level_codex := join_path writable_root (lit ".codex") in
  let top_level_xtech := join_path writable_root (lit ".xtech") in
  dedup_absolute_paths
    ((if top_level_git_is_dir || top_level_git_is_file then
        (if top_level_git_is_file && is_git_pointer_file top_level_git then
           match resolve_gitdir_from_file top_level_git with Some gitdir => [gitdir] | None => [] end
         else [])
        ++ [top_level_git]
      else [])
     ++ (if is_dir env top_level_agents then [top_level_agents] else [])
     ++ (if protect_missing_dot_codex || is_dir env top_level_codex then [top_level_codex] else [])
     ++ (if protect_missing_dot_codex || is_dir env top_level_xtech then [top_level_xtech] else []))
    false.

(** The default read-only paths of [writable_root], appended one by one. *)
Definition append_default_subpaths (es : list FileSystemSandboxEntry) (writable_root : str)
    (protect_missing_dot_codex : bool) : list FileSystemSandboxEntry :=
  foldl append_default_read_only_path_if_no_explicit_rule es
    (default_read_only_subpaths_for_writable_root writable_root protect_missing_dot_codex).

Definition protected_metadata_names_for_writable_root (p : FileSystemSandboxPolicy) (root : str)
    (raw_writable_roots : list str) (cwd : str) : list str :=
  List.filter (λ metadata_name,
    forallb (λ path, negb (can_write_path_with_cwd env p path cwd))
      (join_path root metadata_name ::
       map (λ raw_root, join_path raw_root metadata_name) raw_writable_roots))
    PROTECTED_METADATA_PATH_NAMES.

(** ** Roots *)

Definition get_readable_roots_with_cwd (p : FileSystemSandboxPolicy) (cwd : str) : list str :=
  if has_full_disk_read_access p then []
  else dedup_absolute_paths
    (map resolved_path
       (List.filter (λ e, can_read (resolved_access e) &&
                          can_read_path_with_cwd env p (resolved_path e) cwd)
          (resolved_entries_with_cwd env p cwd))) true.

(** The entries that are writable as paths of their own. *)
Definition writable_entries (p : FileSystemSandboxPolicy) (cwd : str) : list str :=
  map resolved_path
    (List.filter (λ e, can_write (resolved_access e) &&
                       can_write_path_with_cwd env p (resolved_path e) cwd)
       (resolved_entries_with_cwd env p cwd)).

(** The carve-out of a non-writable entry below [root], if any. *)
Definition carveout (root : str) (preserve_raw_carveout_paths : bool)
    (raw_writable_roots : list str) (e : ResolvedFileSystemEntry) : option str :=
  let effective_path := normalize_effective_absolute_path (resolved_path e) in
  let raw_carveout_path :=
    if preserve_raw_carveout_paths then
      if path_eqb (resolved_path e) root then None
      else if path_starts_with (resolved_path e) root then Some (resolved_path e)
      else head (omap (λ raw_root,
             suffix ← path_strip_prefix (resolved_path e) raw_root;
             match suffix with
             | [] => None
             | _ => Some (join_path root (of_components suffix))
             end) raw_writable_roots)
    else None in
  match raw_carveout_path with
  | Some raw => Some raw
  | None =>
      if path_eqb effective_path root || negb (path_starts_with effective_path root) then None
      else Some effective_path
  end.

Definition writable_root_of (p : FileSystemSandboxPolicy) (cwd root : str) : WritableRoot :=
  let resolved_entries := resolved_entries_with_cwd env p cwd in
  let preserve_raw_carveout_paths :=
    match path_parent root with Some _ => true | None => false end in
  let raw_writable_roots :=
    List.filter (λ path, path_eqb (normalize_effective_absolute_path path) root)
      (writable_entries p cwd) in
  let protected_metadata_names :=
    protected_metadata_names_for_writable_root p root raw_writable_roots cwd in
  let protect_missing_dot_codex :=
    match absolute cwd with
    | Some cwd => path_eqb (normalize_effective_absolute_path cwd) root
    | None => false
    end in
  let defaults :=
    List.filter (λ path, negb (has_explicit_resolved_path_entry resolved_entries path))
      (default_read_only_subpaths_for_writable_root root protect_missing_dot_codex) in
  let carveouts :=
    omap (carveout root preserve_raw_carveout_paths raw_writable_roots)
      (List.filter (λ e, negb (can_write (resolved_access e)) &&
                         negb (can_write_path_with_cwd env p (resolved_path e) cwd))
         resolved_entries) in
  mkWritableRoot root (dedup_absolute_paths (defaults ++ carveouts) false) protected_metadata_names.

Definition get_writable_roots_with_cwd (p : FileSystemSandboxPolicy) (cwd : str)
    : list WritableRoot :=
  if has_full_disk_write_access p then []
  else map (writable_root_of p cwd) (dedup_absolute_paths (writable_entries p cwd) true).

Definition get_unreadable_roots_with_cwd (p : FileSystemSandboxPolicy) (cwd : str) : list str :=
  if negb (is_restricted p) then []
  else
    let root := absolute_root_path_for_cwd env <$> absolute cwd in
    dedup_absolute_paths
      (map resolved_path
         (List.filter (λ e, bool_decide (resolved_access e = AccessNone) &&
                            negb (can_read_path_with_cwd env p (resolved_path e) cwd) &&
                            negb (option_path_eqb root (Some (resolved_path e))))
            (resolved_entries_with_cwd env p cwd))) true.

Definition get_unreadable_globs_with_cwd (p : FileSystemSandboxPolicy) (cwd : str) : list str :=
  if negb (is_restricted p) then []
  else dedup (sort
    (omap (λ e, match entry_path e with
                | GlobPattern pattern =>
                    if bool_decide (entry_access e = AccessNone)
                    then Some (resolve_path_against_base (home_dir env) pattern cwd) else None
                | _ => None
                end) (entries p))).

(** ** The built-in policies and the legacy policy *)

Definition workspace_write (writable_roots : list str)
    (exclude_tmpdir_env_var exclude_slash_tmp : bool) : FileSystemSandboxPolicy :=
  let es := [mkEntry (Special Root) AccessRead;
             mkEntry (Special (ProjectRoots None)) AccessWrite]
            ++ (if exclude_slash_tmp then [] else [mkEntry (Special SlashTmp) AccessWrite])
            ++ (if exclude_tmpdir_env_var then [] else [mkEntry (Special Tmpdir) AccessWrite])
            ++ map (λ path, mkEntry (Path path) AccessWrite) writable_roots in
  let es := foldl append_default_read_only_project_root_subpath_if_no_explicit_rule es
              [lit ".git"; lit ".agents"; lit ".codex"; lit ".xtech"] in
  restricted (foldl (λ es writable_root, append_default_subpaths es writable_root false)
                es writable_roots).

Definition of_sandbox_policy (p : SandboxPolicy) : FileSystemSandboxPolicy :=
  match p with
  | DangerFullAccess => unrestricted
  | ExternalSandbox _ => external_sandbox
  | ReadOnly _ => restricted [mkEntry (Special Root) AccessRead]
  | WorkspaceWrite writable_roots _ exclude_tmpdir_env_var exclude_slash_tmp =>
      workspace_write writable_roots exclude_tmpdir_env_var exclude_slash_tmp
  end.

Definition from_legacy_sandbox_policy_for_cwd (p : SandboxPolicy) (cwd : str)
    : FileSystemSandboxPolicy :=
  let policy := of_sandbox_policy p in
  match p with
  | WorkspaceWrite writable_roots _ _ _ =>
      let es := match absolute cwd with
                | Some cwd_root => append_default_subpaths (entries policy) cwd_root true
                | None => entries policy
                end in
      with_entries (foldl (λ es writable_root, append_default_subpaths es writable_root false)
                      es writable_roots) policy
  | _ => policy
  end.

Definition from_legacy_sandbox_policy_preserving_deny_entries (p : SandboxPolicy) (cwd : str)
    (existing : FileSystemSandboxPolicy) : FileSystemSandboxPolicy :=
  let rebuilt := from_legacy_sandbox_policy_for_cwd p cwd in
  if is_restricted rebuilt then
    mkPolicy (kind rebuilt) (glob_scan_max_depth existing)
      (push_deny_entries (entries existing) (entries rebuilt))
  else rebuilt.

Definition with_additional_legacy_workspace_writable_roots (p : FileSystemSandboxPolicy)
    (additional_writable_roots : list str) : FileSystemSandboxPolicy :=
  if is_restricted p then
    foldl (λ p path,
      let es := if existsb (λ e, can_write (entry_access e) &&
                                 match entry_path e with
                                 | Path existing => path_eqb existing path
                                 | _ => false
                                 end) (entries p)
                then entries p else entries p ++ [mkEntry (Path path) AccessWrite] in
      with_entries (append_default_subpaths es path false) p) p additional_writable_roots
  else p.

(** What the loop of [to_legacy_sandbox_policy] collects. *)
Record LegacyScan := mkScan {
  workspace_root_writable : bool;
  scan_writable_roots : list str;
  tmpdir_writable : bool;
  slash_tmp_writable : bool;
  unbridgeable_root_write : bool
}.

Definition scan_entry (cwd_absolute : option str) (s : LegacyScan) (e : FileSystemSandboxEntry)
    : LegacyScan :=
  let '(mkScan ws roots tmp slash_tmp unbridgeable) := s in
  let w := can_write (entry_access e) in
  match entry_path e with
  | GlobPattern _ => s
  | Path path =>
      if w then
        if match cwd_absolute with Some cwd => path_eqb cwd path | None => false end
        then mkScan true roots tmp slash_tmp unbridgeable
        else mkScan ws (roots ++ [path]) tmp slash_tmp unbridgeable
      else s
  | Special Root => if w then mkScan ws roots tmp slash_tmp true else s
  | Special Minimal | Special (Unknown _ _) => s
  | Special (ProjectRoots subpath) =>
      if match subpath with None => w | Some _ => false end
      then mkScan true roots tmp slash_tmp unbridgeable
      else match resolve_file_system_special_path env (ProjectRoots subpath) cwd_absolute with
           | Some path => if w then mkScan ws (roots ++ [path]) tmp slash_tmp unbridgeable else s
           | None => s
           end
  | Special Tmpdir => if w then mkScan ws roots true slash_tmp unbridgeable else s
  | Special SlashTmp => if w then mkScan ws roots tmp true unbridgeable else s
  end.

Definition scan_entries (cwd : str) (es : list FileSystemSandboxEntry) : LegacyScan :=
  foldl (scan_entry (absolute cwd)) (mkScan false [] false false false) es.

(** The error of an unsupported profile. *)
Definition unbridgeable_error : str :=
  lit "permissions profile requests filesystem writes outside the workspace root, which is not supported until the runtime enforces FileSystemSandboxPolicy directly".

Definition network_access_of (n : NetworkSandboxPolicy) : NetworkAccess :=
  if net_is_enabled n then NetworkAccessEnabled else NetworkAccessRestricted.

Definition to_legacy_sandbox_policy (p : FileSystemSandboxPolicy) (n : NetworkSandboxPolicy)
    (cwd : str) : Res str SandboxPolicy :=
  match kind p with
  | ExternalSandboxKind => Ok (ExternalSandbox (network_access_of n))
  | Unrestricted =>
      Ok (if net_is_enabled n then DangerFullAccess else ExternalSandbox NetworkAccessRestricted)
  | Restricted =>
      let s := scan_entries cwd (entries p) in
      if has_full_disk_write_access p then
        Ok (if net_is_enabled n then DangerFullAccess else ExternalSandbox NetworkAccessRestricted)
      else if workspace_root_writable s then
        Ok (WorkspaceWrite (dedup_absolute_paths (scan_writable_roots s) false) (net_is_enabled n)
              (negb (tmpdir_writable s)) (negb (slash_tmp_writable s)))
      else if unbridgeable_root_write s || negb (bool_decide (scan_writable_roots s = []))
              || tmpdir_writable s || slash_tmp_writable s
      then Err unbridgeable_error
      else Ok (ReadOnly (net_is_enabled n))
  end.

(** [SandboxPolicy::get_writable_roots_with_cwd] *)
Definition legacy_writable_roots_with_cwd (p : SandboxPolicy) (cwd : str) : list WritableRoot :=
  match p with
  | WorkspaceWrite writable_roots _ exclude_tmpdir_env_var exclude_slash_tmp =>
      let roots := writable_roots
        ++ match absolute cwd with Some cwd => [cwd] | None => [] end
        ++ (if exclude_slash_tmp then [] else
              match absolute (lit "/tmp") with
              | Some slash_tmp => if is_dir env slash_tmp then [slash_tmp] else []
              | None => []
              end)
        ++ (if exclude_tmpdir_env_var then [] else
              match tmpdir_var env with
              | Some tmpdir =>
                  if decide (tmpdir = []) then []
                  else match absolute tmpdir with Some t => [t] | None => [] end
              | None => []
              end) in
      map (λ writable_root,
        mkWritableRoot writable_root
          (default_read_only_subpaths_for_writable_root writable_root
             match absolute cwd with Some cwd_root => path_eqb cwd_root writable_root | None => false end)
          []) roots
  | _ => []
  end.
End env.
