(* ===== verification/PermissionsProofs.v ===== *)
(** * What the permission policies grant

    Proofs about [Permissions] and [SandboxRoots]: which entry decides, that
    the full-disk tests are sound, that metadata directories are protected,
    that additions never take access away, that the writable roots handed to
    a sandbox are covered by the entries, and that legacy policies survive the
    conversion to entries and back. *)
From S2P Require Import Prelude RustStr AbsolutePath FileSystem Ordering Paths Permissions SandboxRoots.

(** The process can name its directory, by an absolute path. *)
Definition env_ok (env : Env) : Prop :=
  ∃ d, current_dir env = Ok d ∧ is_absolute d = true.

(** The invariant of [AbsolutePathBuf] on the paths of entries; subpaths of
    project roots are not spelled with a home directory. *)
Definition fs_path_wf (p : FileSystemPath) : Prop :=
  match p with
  | Path q => normalized_abs q
  | Special (ProjectRoots (Some s)) => ¬ ([c_tilde] `prefix_of` s)
  | _ => True
  end.
Definition policy_wf (p : FileSystemSandboxPolicy) : Prop :=
  Forall (λ e, fs_path_wf (entry_path e)) (entries p).

(** ** Absolute paths in an environment *)
Section absolute.
Context (env : Env).

Lemma normalize_path_normalized p : is_absolute p = true → normalized_abs (normalize_path p).
Proof. intros H. destruct (normalize_path_abs p H) as [-> Hg]. by eexists. Qed.

Lemma absolute_of_absolute p :
  is_absolute p = true → absolute env p = Some (normalize_path p).
Proof.
  intros H. unfold absolute, from_absolute_path.
  rewrite expand_home_relative; cycle 1.
  { apply is_absolute_spec in H as [r ->]. intros [x Hx]. discriminate Hx. }
  unfold absolutize. by rewrite H.
Qed.

Lemma absolute_normalized p q :
  env_ok env → absolute env p = Some q → normalized_abs q.
Proof.
  intros (d & Hd & Hda). unfold absolute, from_absolute_path, absolutize. rewrite Hd.
  destruct (is_absolute (maybe_expand_home_directory (home_dir env) p)) eqn:Ha; simpl; intros Hq; injection Hq as <-.
  - by apply normalize_path_normalized.
  - unfold absolutize_from. by apply normalize_path_normalized, path_with_base_abs.
Qed.

Lemma absolute_render ns : Forall good_name ns → absolute env (render ns) = Some (render ns).
Proof.
  intros Hns. rewrite absolute_of_absolute by (apply is_absolute_spec; by eexists).
  pose proof (resolve_render None ns [] Hns) as H.
  unfold resolve_path_against_base, absolutize_from, path_with_base in H. simpl in H.
  by rewrite H.
Qed.

Lemma absolute_id p : normalized_abs p → absolute env p = Some p.
Proof. intros (ns & Hns & ->). by apply absolute_render. Qed.

(** The panics of [absolute_root_path_for_cwd] do not occur. *)
Lemma absolute_root_total cwd :
  normalized_abs cwd → absolute_root_path_for_cwd_res env cwd = Ok (render []).
Proof.
  intros H. unfold absolute_root_path_for_cwd_res. rewrite ancestors_last by done.
  by rewrite absolute_render by constructor.
Qed.

Lemma absolute_root_eq cwd : normalized_abs cwd → absolute_root_path_for_cwd env cwd = render [].
Proof. intros H. unfold absolute_root_path_for_cwd. by rewrite absolute_root_total. Qed.

(** Relative to an absolute directory every path has a normalised target. *)
Lemma resolve_candidate_ok path cwd :
  is_absolute cwd = true →
  ∃ target, resolve_candidate_path env path cwd = Some target ∧ normalized_abs target.
Proof.
  intros Hc. unfold resolve_candidate_path. destruct (is_absolute path) eqn:Hp.
  - rewrite absolute_of_absolute by done. eexists; split; [done|]. by apply normalize_path_normalized.
  - rewrite absolute_of_absolute by done. simpl. eexists; split; [done|].
    apply resolve_normalized. apply normalize_path_normalized in Hc as (ns & Hns & ->).
    apply is_absolute_spec. by eexists.
Qed.

Lemma resolve_candidate_id p cwd :
  normalized_abs p → resolve_candidate_path env p cwd = Some p.
Proof.
  intros Hp. unfold resolve_candidate_path. rewrite absolute_id by done.
  destruct Hp as (ns & Hns & ->). by rewrite (proj2 (is_absolute_spec _)) by (by eexists).
Qed.

Lemma normalized_is_absolute p : normalized_abs p → is_absolute p = true.
Proof. intros (ns & Hns & ->). apply is_absolute_spec. by eexists. Qed.

Lemma resolve_entry_normalized path cwd q :
  env_ok env → is_absolute cwd = true → fs_path_wf path →
  resolve_entry_path env path (absolute env cwd) = Some q → normalized_abs q.
Proof.
  intros He Hc Hwf. rewrite absolute_of_absolute by done.
  pose proof (normalize_path_normalized cwd Hc) as Hn.
  destruct path as [p|p|[| |[s|]| | |]]; simpl; try discriminate; intros H; simplify_eq; try done.
  - rewrite absolute_root_eq by done. exists []. by split.
  - apply resolve_normalized. by apply normalized_is_absolute.
  - destruct (tmpdir_var env); simplify_eq/=. case_decide; [done|]. by eapply absolute_normalized.
  - apply bind_Some in H as (t & Ht & H). destruct (is_dir env t); simplify_eq.
    by eapply absolute_normalized.
Qed.

Lemma resolved_normalized p cwd e :
  env_ok env → is_absolute cwd = true → policy_wf p →
  e ∈ resolved_entries_with_cwd env p cwd → normalized_abs (resolved_path e).
Proof.
  intros He Hc Hwf Hin. unfold resolved_entries_with_cwd in Hin.
  apply list_elem_of_omap in Hin as (e0 & Hin & H).
  apply fmap_Some in H as (q & Hq & ->). simpl.
  eapply resolve_entry_normalized; eauto. 
  by apply (proj1 (Forall_forall _ _) Hwf e0).
Qed.

Lemma elem_of_resolved p cwd e :
  e ∈ resolved_entries_with_cwd env p cwd ↔
  ∃ e0, e0 ∈ entries p ∧ resolved_access e = entry_access e0 ∧
        resolve_entry_path env (entry_path e0) (absolute env cwd) = Some (resolved_path e).
Proof.
  unfold resolved_entries_with_cwd. rewrite list_elem_of_omap. split.
  - intros (e0 & Hin & (q & Hq & ->)%fmap_Some). exists e0. done.
  - intros (e0 & Hin & Ha & Hr). exists e0. split; [done|]. rewrite Hr. simpl.
    destruct e; simpl in *. by subst.
Qed.
End absolute.

(** ** Which entry decides *)
Section access.
Context (env : Env).
Implicit Types (p : FileSystemSandboxPolicy).

(** Entry [e] covers the path [target]. *)
Definition covers p (cwd target : str) (e : ResolvedFileSystemEntry) : Prop :=
  e ∈ resolved_entries_with_cwd env p cwd ∧ path_starts_with target (resolved_path e) = true.

(** [e] is at least as specific as [e'], and not beaten at the same place. *)
Definition outranks (e e' : ResolvedFileSystemEntry) : Prop :=
  path_starts_with (resolved_path e) (resolved_path e') = true ∧
  (components (resolved_path e) = components (resolved_path e') →
   access_rank (resolved_access e') ≤ access_rank (resolved_access e)).

Lemma elem_of_covering p cwd target e :
  e ∈ List.filter (λ e, path_starts_with target (resolved_path e)) (resolved_entries_with_cwd env p cwd)
  ↔ covers p cwd target e.
Proof. unfold covers. rewrite !list_elem_of_In. apply filter_In. Qed.

Lemma precedence_not_lt e e' :
  cmp (precedence e) (precedence e') ≠ Lt ↔
  length (components (resolved_path e')) ≤ length (components (resolved_path e)) ∧
  (length (components (resolved_path e')) = length (components (resolved_path e)) →
   access_rank (resolved_access e') ≤ access_rank (resolved_access e)).
Proof.
  unfold precedence. simpl. unfold pair_cmp; simpl.
  destruct (Nat.compare_spec (length (components (resolved_path e)))
              (length (components (resolved_path e')))) as [H|H|H].
  - rewrite H. destruct (Nat.compare_spec (access_rank (resolved_access e))
              (access_rank (resolved_access e'))); split; intros; try lia; try done.
    all: split; lia.
  - split; [done|]. lia.
  - split; [|done]. lia.
Qed.

(** The deciding entry, when some entry covers the path. *)
Lemma deciding_entry p path cwd target :
  kind p = Restricted → resolve_candidate_path env path cwd = Some target →
  (∃ e, covers p cwd target e) →
  ∃ e, covers p cwd target e ∧ resolve_access_with_cwd env p path cwd = resolved_access e ∧
       ∀ e', covers p cwd target e' → outranks e e'.
Proof.
  intros Hk Ht [e0 He0]. unfold resolve_access_with_cwd. rewrite Hk, Ht.
  apply elem_of_covering in He0.
  destruct (max_by_key_is_Some precedence _ _ He0) as (m & -> & Hm & Hmax). simpl.
  apply elem_of_covering in Hm. exists m. split; [done|]. split; [done|].
  intros e' He'. assert (Hp := He'). apply elem_of_covering, Hmax, precedence_not_lt in He' as [Hl Hr].
  split.
  - eapply path_prefix_comparable; [apply Hm|apply Hp|done].
  - intros Hc. apply Hr. by rewrite Hc.
Qed.

Lemma no_entry_none p path cwd target :
  kind p = Restricted → resolve_candidate_path env path cwd = Some target →
  (∀ e, ¬ covers p cwd target e) → resolve_access_with_cwd env p path cwd = AccessNone.
Proof.
  intros Hk Ht Hno. unfold resolve_access_with_cwd. rewrite Hk, Ht.
  destruct (max_by_key _ _) as [m|] eqn:E; [|done].
  apply max_by_key_Some in E as [Hm _]. apply elem_of_covering in Hm. by destruct (Hno m).
Qed.

(** Whoever outranks all covering entries decides. *)
Lemma deciding_entry_unique p path cwd target e :
  kind p = Restricted → resolve_candidate_path env path cwd = Some target →
  covers p cwd target e → (∀ e', covers p cwd target e' → outranks e e') →
  resolve_access_with_cwd env p path cwd = resolved_access e.
Proof.
  intros Hk Ht He Hmax. destruct (deciding_entry p path cwd target) as (m & Hm & -> & Hall); eauto.
  destruct (Hmax m Hm) as [H1 H2]. destruct (Hall e He) as [H3 H4].
  rewrite path_starts_with_spec in H1, H3.
  assert (E : components (resolved_path e) = components (resolved_path m)).
  { apply prefix_length_eq; [done|]. by apply prefix_length. }
  specialize (H2 E). symmetry in E. specialize (H4 E).
  destruct (resolved_access m), (resolved_access e); simpl in *; done || lia.
Qed.

(** Whether an entry covers a path can be decided. *)
Lemma covers_dec p cwd target : (∃ e, covers p cwd target e) ∨ (∀ e, ¬ covers p cwd target e).
Proof.
  destruct (max_by_key precedence
    (List.filter (λ e, path_starts_with target (resolved_path e)) (resolved_entries_with_cwd env p cwd)))
    as [m|] eqn:E.
  - left. exists m. apply max_by_key_Some in E as [Hm _]. by apply elem_of_covering.
  - right. intros e He%elem_of_covering. apply max_by_key_None in E. rewrite E in He. by apply elem_of_nil in He.
Qed.
End access.

(** C27. The access of a path is that of one deciding entry: an entry that covers
    the path, lies at or below every other covering entry, and wins at its own
    place ([none] over [write] over [read]).  Without a covering entry there
    is no access; with an unrestricted policy everything is writable. *)
Theorem resolve_access_most_specific env p path cwd target :
  resolve_candidate_path env path cwd = Some target →
  (kind p ≠ Restricted ∧ resolve_access_with_cwd env p path cwd = AccessWrite) ∨
  (kind p = Restricted ∧ ∃ e, covers env p cwd target e ∧
     resolve_access_with_cwd env p path cwd = resolved_access e ∧
     ∀ e', covers env p cwd target e' →
       path_starts_with (resolved_path e) (resolved_path e') = true ∧
       (components (resolved_path e) = components (resolved_path e') →
        access_rank (resolved_access e') ≤ access_rank (resolved_access e))) ∨
  (kind p = Restricted ∧ (∀ e, ¬ covers env p cwd target e) ∧
     resolve_access_with_cwd env p path cwd = AccessNone).
Proof.
  intros Ht. destruct (kind p) eqn:Hk;
    [|left; split; [done|]; unfold resolve_access_with_cwd; by rewrite Hk..].
  right. destruct (covers_dec env p cwd target) as [Hex|Hno].
  - left. split; [done|]. by apply deciding_entry.
  - right. split; [done|]. split; [done|]. by eapply no_entry_none.
Qed.

(** ** Paths that compare equal resolve alike *)

Definition not_cur_dir (c : Component) : bool :=
  match c with CurDir | RootDir => false | _ => true end.

Lemma body_of_components a :
  omap body_component (split_on c_slash a) = List.filter not_cur_dir (components a).
Proof.
  unfold components. rewrite List.filter_app.
  assert (E : List.filter not_cur_dir
      (if is_absolute a then [RootDir]
       else if decide (head (split_on c_slash a) = Some dot) then [CurDir] else []) = []).
  { destruct (is_absolute a); [done|]. by case_decide. }
  rewrite E. simpl. pose proof (body_components_good a) as Hg.
  induction Hg as [|c cs Hc _ IH]; [done|]. simpl. rewrite <-IH. by destruct c.
Qed.

Lemma is_absolute_components a :
  is_absolute a = bool_decide (head (components a) = Some RootDir).
Proof.
  unfold components. destruct (is_absolute a); [done|].
  symmetry. apply bool_decide_eq_false. case_decide; [done|]. simpl.
  pose proof (body_components_good a) as Hg. inversion Hg as [|c cs Hc _ E]; [done|].
  simpl. intros [= ->]. done.
Qed.

Lemma resolve_components_eq home a b base :
  normalized_abs base → ¬ ([c_tilde] `prefix_of` a) → ¬ ([c_tilde] `prefix_of` b) →
  components a = components b →
  resolve_path_against_base home a base = resolve_path_against_base home b base.
Proof.
  intros (ns & Hns & ->) Ha Hb E. unfold resolve_path_against_base, absolutize_from.
  rewrite !expand_home_relative by done. unfold path_with_base.
  assert (Eab : is_absolute a = is_absolute b) by (by rewrite !is_absolute_components, E).
  rewrite Eab. destruct (is_absolute b) eqn:Hab; [unfold normalize_path; by rewrite E|].
  assert (Hp : ∀ q, is_absolute (path_push (render ns) q) = true).
  { intros q. apply path_push_abs, is_absolute_spec. by eexists. }
  destruct (normalize_path_abs _ (Hp a)) as [-> _]. destruct (normalize_path_abs _ (Hp b)) as [-> _].
  rewrite !body_push_render by done. by rewrite !body_of_components, E.
Qed.

Lemma parent_none_root p : normalized_abs p → path_parent p = None → p = render [].
Proof.
  intros (ns & Hns & ->). destruct ns as [|n ns _] using rev_ind; [done|].
  by rewrite parent_render_snoc.
Qed.

Lemma slash_tmp_render : lit "/tmp" = render [lit "tmp"].
Proof. reflexivity. Qed.

Lemma good_tmp : Forall good_name [lit "tmp"].
Proof. by_compute. Qed.

Section full_disk.
Context (env : Env) (cwd : str).
Hypothesis Hcwd : is_absolute cwd = true.

Lemma share_target_resolves c e q :
  is_dir env (lit "/tmp") = true → fs_path_wf c → fs_path_wf e →
  file_system_paths_share_target c e = true →
  resolve_entry_path env e (absolute env cwd) = Some q →
  ∃ q', resolve_entry_path env c (absolute env cwd) = Some q' ∧ components q' = components q.
Proof using Hcwd.
  intros Htmp Hc He Hs. rewrite absolute_of_absolute by done.
  pose proof (normalize_path_normalized cwd Hcwd) as Hn.
  assert (Eroot := absolute_root_eq env _ Hn).
  assert (Et : absolute env (lit "/tmp") = Some (lit "/tmp")).
  { rewrite slash_tmp_render. apply absolute_render, good_tmp. }
  destruct c as [l|g|l], e as [r|g'|r]; try discriminate Hs.
  - intros [= <-]. exists l. split; [done|]. by apply path_eqb_spec.
  - (* a path for a special entry *)
    destruct r as [| | | | |]; try discriminate Hs; cbn -[components lit absolute render]; intros Hr.
    + injection Hr as <-. exists l. split; [done|]. rewrite Eroot. f_equal.
      apply parent_none_root; [done|]. cbn in Hs. by destruct (path_parent l).
    + rewrite Et in Hr. cbn -[lit components] in Hr. rewrite Htmp in Hr. injection Hr as <-.
      exists l. split; [done|]. by apply path_eqb_spec.
  - done.
  - (* a special entry for a path *)
    intros [= <-]. destruct l as [| | | | |]; try discriminate Hs; cbn -[components lit absolute render].
    + eexists; split; [done|]. rewrite Eroot. f_equal. symmetry.
      apply parent_none_root; [done|]. cbn in Hs. by destruct (path_parent r).
    + rewrite Et. cbn -[lit components]. rewrite Htmp. eexists; split; [done|].
      symmetry. by apply path_eqb_spec.
  - destruct l as [| |[l|]| | |], r as [| |[r|]| | |]; try discriminate Hs; intros Hr; eauto;
      try discriminate Hr.
    simpl in Hr |- *. injection Hr as <-. eexists; split; [done|]. f_equal.
    apply resolve_components_eq; [done..|]. by apply path_eqb_spec.
Qed.

(** An entry for the root covers every path. *)
Lemma root_entry_covers p e target :
  e ∈ entries p → entry_path e = Special Root → normalized_abs target →
  ∃ r, covers env p cwd target r ∧ resolved_access r = entry_access e ∧
       resolved_path r = render [].
Proof using Hcwd.
  intros He Hr Ht. exists (mkResolved (render []) (entry_access e)).
  split; [|done]. split; [|by apply root_prefix].
  apply elem_of_resolved. exists e. split; [done|]. split; [done|].
  rewrite Hr, absolute_of_absolute by done. simpl.
  by rewrite absolute_root_eq by (by apply normalize_path_normalized).
Qed.

Lemma has_root_access_elem pred p :
  has_root_access pred p = true →
  kind p = Restricted ∧ ∃ e, e ∈ entries p ∧ entry_path e = Special Root ∧ pred (entry_access e) = true.
Proof using.
  unfold has_root_access, is_restricted. rewrite andb_true_iff, existsb_elem.
  intros [Hk (e & He & Hp)]. split; [by destruct (kind p)|]. exists e. split; [done|].
  by destruct (entry_path e) as [| |[]].
Qed.

Lemma full_disk_write_access p path :
  policy_wf p → is_dir env (lit "/tmp") = true →
  has_full_disk_write_access p = true → resolve_access_with_cwd env p path cwd = AccessWrite.
Proof using Hcwd.
  intros Hwf Htmp Hfull. unfold has_full_disk_write_access in Hfull.
  destruct (kind p) eqn:Hk; [|unfold resolve_access_with_cwd; by rewrite Hk..].
  apply andb_true_iff in Hfull as [Hroot Hnarrow]. apply negb_true_iff in Hnarrow.
  destruct (resolve_candidate_ok env path cwd Hcwd) as (target & Ht & Hnt).
  destruct (has_root_access_elem _ _ Hroot) as (_ & e & He & Her & Hew).
  destruct (root_entry_covers p e target He Her Hnt) as (r & Hr & Hra & Hrp).
  destruct (deciding_entry env p path cwd target) as (m & Hm & -> & Hmax); [done|done|by exists r|].
  destruct (can_write (resolved_access m)) eqn:Hmw; [by destruct (resolved_access m)|].
  destruct Hm as [Hmin Hmt]. pose proof Hmin as (m0 & Hm0 & Ha0 & Hr0)%elem_of_resolved.
  unfold has_write_narrowing_entries in Hnarrow. apply andb_false_iff in Hnarrow as [Hn|Hn].
  { unfold is_restricted in Hn. by rewrite Hk in Hn. }
  assert (Hno : ∀ e, e ∈ entries p → _ = false) by
    (intros e' He'; apply not_true_iff_false; intros Hf;
     apply not_true_iff_false in Hn; apply Hn, existsb_elem; exists e'; split; [done|exact Hf]).
  specialize (Hno m0 Hm0). simpl in Hno. rewrite <-Ha0, Hmw in Hno.
  assert (Hover : has_same_target_write_override p m0 = true →
                  can_write (resolved_access m) = true).
  { intros (c & Hc & Hcs)%existsb_elem. apply andb_true_iff in Hcs as [Hcw Hcs].
    apply andb_true_iff in Hcw as [Hcw Hrank]. apply bool_decide_eq_true in Hrank.
    assert (Hwfc : fs_path_wf (entry_path c)) by (by apply (proj1 (Forall_forall _ _) Hwf c)).
    assert (Hwfm : fs_path_wf (entry_path m0)) by (by apply (proj1 (Forall_forall _ _) Hwf m0)).
    destruct (share_target_resolves _ _ _ Htmp Hwfc Hwfm Hcs Hr0) as (q' & Hq' & Eq).
    set (c' := mkResolved q' (entry_access c)).
    assert (Hc' : covers env p cwd target c').
    { split; [apply elem_of_resolved; by exists c|]. simpl.
      rewrite path_starts_with_spec, Eq. by apply path_starts_with_spec. }
    destruct (Hmax c' Hc') as [_ Hrk]. simpl in Hrk. rewrite <-Ha0 in Hrank.
    specialize (Hrk (eq_sym Eq)). lia. }
  destruct (entry_path m0) as [q|g|v] eqn:Em.
  - apply negb_false_iff in Hno. rewrite Hover in Hmw; done.
  - done.
  - destruct v; try (apply negb_false_iff in Hno; rewrite Hover in Hmw; done); try done.
    (* the root with [read]: the write entry for the root is as specific *)
    apply bool_decide_eq_false in Hno.
    destruct (Hmax r Hr) as [_ Hrk]. simpl in Hr0. 
    assert (Em' : components (resolved_path m) = components (resolved_path r)).
    { rewrite Hrp. rewrite absolute_of_absolute in Hr0 by done. simpl in Hr0. injection Hr0 as <-.
      by rewrite absolute_root_eq by (by apply normalize_path_normalized). }
    specialize (Hrk Em'). rewrite Hra in Hrk. destruct (entry_access e); try discriminate Hew.
    destruct (resolved_access m) eqn:Ea; simpl in *; try lia; try done.
Qed.

Lemma full_disk_read_access p path :
  has_full_disk_read_access p = true → can_read_path_with_cwd env p path cwd = true.
Proof using Hcwd.
  intros Hfull. unfold has_full_disk_read_access in Hfull. unfold can_read_path_with_cwd.
  destruct (kind p) eqn:Hk; [|unfold resolve_access_with_cwd; by rewrite Hk..].
  apply andb_true_iff in Hfull as [Hroot Hdeny]. apply negb_true_iff in Hdeny.
  destruct (resolve_candidate_ok env path cwd Hcwd) as (target & Ht & Hnt).
  destruct (has_root_access_elem _ _ Hroot) as (_ & e & He & Her & Hew).
  destruct (root_entry_covers p e target He Her Hnt) as (r & Hr & _).
  destruct (deciding_entry env p path cwd target) as (m & [Hm _] & -> & _); [done|done|by exists r|].
  apply elem_of_resolved in Hm as (m0 & Hm0 & -> & _).
  destruct (entry_access m0) eqn:Ea; try done.
  unfold has_denied_read_restrictions, is_restricted in Hdeny. rewrite Hk in Hdeny. simpl in Hdeny.
  apply not_true_iff_false in Hdeny. destruct Hdeny. apply existsb_elem. exists m0.
  split; [done|]. by apply bool_decide_eq_true.
Qed.
End full_disk.

(** The full-disk tests, which callers use to skip the checks of single
    paths, are sound: a policy that claims full write access lets every path
    be written, and one that claims full read access lets every path be read,
    whatever entries it has.  ([/tmp] is a directory: otherwise an entry for
    the special path does not count, but hides an entry for the path.) *)
Theorem full_disk_access_sound env p path cwd :
  is_absolute cwd = true → policy_wf p → is_dir env (lit "/tmp") = true →
  (has_full_disk_write_access p = true → can_write_path_with_cwd env p path cwd = true) ∧
  (has_full_disk_read_access p = true → can_read_path_with_cwd env p path cwd = true).
Proof.
  intros Hc Hwf Htmp. split; [|by apply full_disk_read_access].
  intros Hfull. unfold can_write_path_with_cwd. by rewrite full_disk_write_access, Hfull.
Qed.

(** An environment without links and without a [TMPDIR]. *)
Definition demo_env : Env :=
  mkEnv None (Ok (lit "/work")) None (λ p, bool_decide (p = lit "/tmp")) (λ _, false) (λ _, true)
    (λ _, None) (λ _, None) (λ _, None).

Definition open_policy : FileSystemSandboxPolicy :=
  restricted [mkEntry (Special Root) AccessWrite; mkEntry (Path (lit "/tmp")) AccessRead;
              mkEntry (Special SlashTmp) AccessWrite; mkEntry (Special Minimal) AccessNone].

Lemma full_disk_access_sound_witness :
  has_full_disk_write_access open_policy = true ∧
  can_write_path_with_cwd demo_env open_policy (lit "/tmp/x") (lit "/work") = true.
Proof.
  split; [reflexivity|].
  refine (proj1 (full_disk_access_sound demo_env open_policy (lit "/tmp/x") (lit "/work") _ _ _) _).
  - reflexivity.
  - repeat constructor. exists [lit "tmp"]. split; [apply good_tmp|reflexivity].
  - reflexivity.
  - reflexivity.
Defined.

Lemma resolve_access_most_specific_witness :
  ∃ e, covers demo_env open_policy (lit "/work") (lit "/tmp/x") e ∧
    resolve_access_with_cwd demo_env open_policy (lit "/tmp/x") (lit "/work") = resolved_access e.
Proof.
  destruct (resolve_access_most_specific demo_env open_policy (lit "/tmp/x") (lit "/work") (lit "/tmp/x") eq_refl)
    as [[H _]|[(_ & e & He & Ha & _)|(_ & _ & Ha)]].
  - by destruct H.
  - by exists e.
  - discriminate Ha.
Defined.

(** When [/tmp] is not a directory the test claims too much. *)
Theorem full_disk_needs_tmp_dir :
  let env := mkEnv None (Ok (lit "/work")) None (λ _, false) (λ _, false) (λ _, true)
               (λ _, None) (λ _, None) (λ _, None) in
  has_full_disk_write_access open_policy = true ∧
  resolve_access_with_cwd env open_policy (lit "/tmp/x") (lit "/work") = AccessRead.
Proof. split; reflexivity. Qed.

(** ** Protected metadata *)

Lemma metadata_path_name_spec x n :
  metadata_path_name x = Some n ↔ x = n ∧ n ∈ PROTECTED_METADATA_PATH_NAMES.
Proof.
  unfold metadata_path_name. split.
  - intros H. apply find_some in H as [H1 H2]. apply bool_decide_eq_true in H2. subst.
    split; [done|]. by apply list_elem_of_In.
  - intros [-> H]. 
    assert (Hall : Forall (λ n, List.find (λ m, bool_decide (n = m)) PROTECTED_METADATA_PATH_NAMES = Some n)
              PROTECTED_METADATA_PATH_NAMES) by (vm_compute; repeat constructor).
    by apply (proj1 (Forall_forall _ _) Hall).
Qed.

Lemma metadata_name_good n :
  n ∈ PROTECTED_METADATA_PATH_NAMES → good_name n ∧ ¬ ([c_tilde] `prefix_of` n).
Proof.
  assert (Hall : Forall (λ n, good_name n ∧ ¬ ([c_tilde] `prefix_of` n)) PROTECTED_METADATA_PATH_NAMES)
    by by_compute.
  by apply (proj1 (Forall_forall _ _) Hall).
Qed.

Section metadata.
Context (env : Env).

(** [target] lies in the metadata directory [name] of [w]. *)
Definition in_metadata (target : str) (w : ResolvedFileSystemEntry) (name : str) : Prop :=
  can_write (resolved_access w) = true ∧ name ∈ PROTECTED_METADATA_PATH_NAMES ∧
  ∃ rest, components target = components (resolved_path w) ++ Normal name :: rest.

Lemma normalized_tail target base c rest :
  normalized_abs target → base ≠ [] → components target = base ++ c :: rest → ∃ n, c = Normal n.
Proof.
  intros (ns & Hns & ->) Hb. rewrite components_render by done.
  destruct base as [|b base]; [done|]. intros [= _ E].
  assert (Hin : c ∈ map Normal ns) by (rewrite E; set_solver).
  apply list_elem_of_fmap in Hin as (n & -> & _). by exists n.
Qed.

Lemma components_nonempty p : normalized_abs p → components p ≠ [].
Proof. intros (ns & Hns & ->). by rewrite components_render. Qed.

Lemma metadata_child_spec target w prot name :
  normalized_abs target → normalized_abs (resolved_path w) →
  metadata_child env target w = Some (prot, name) ↔
  in_metadata target w name ∧ prot = join_path env (resolved_path w) name.
Proof.
  intros Ht Hw. unfold metadata_child, in_metadata. split.
  - destruct (can_write _) eqn:Hcw; [|done].
    destruct (path_strip_prefix _ _) as [[|c rest]|] eqn:Es; try done.
    intros (n & Hn & [= <- <-])%bind_Some. apply metadata_path_name_spec in Hn as [Hc Hn].
    apply path_strip_prefix_spec in Es.
    destruct (normalized_tail _ _ _ _ Ht (components_nonempty _ Hw) Es) as [m ->]. simpl in Hc. subst m.
    split; [|done]. split; [done|]. split; [done|]. by exists rest.
  - intros [(-> & Hn & rest & Hrest) ->].
    apply path_strip_prefix_spec in Hrest. rewrite Hrest. cbn [as_os_str].
    by rewrite (proj2 (metadata_path_name_spec name name) (conj eq_refl Hn)).
Qed.

Lemma join_metadata_components w name :
  normalized_abs w → name ∈ PROTECTED_METADATA_PATH_NAMES →
  components (join_path env w name) = components w ++ [Normal name].
Proof. intros Hw [Hg Ht]%metadata_name_good. by apply join_name. Qed.

Lemma head_omap_Some {A B} (f : A → option B) l b :
  head (omap f l) = Some b → ∃ a, a ∈ l ∧ f a = Some b.
Proof.
  intros H. assert (Hin : b ∈ omap f l) by (destruct (omap f l); simplify_eq/=; set_solver).
  apply list_elem_of_omap in Hin as (a & ? & ?). by exists a.
Qed.

Lemma head_omap_None {A B} (f : A → option B) l a :
  head (omap f l) = None → a ∈ l → f a = None.
Proof.
  intros H Ha. destruct (f a) as [b|] eqn:E; [|done].
  assert (Hin : b ∈ omap f l) by (apply list_elem_of_omap; by exists a).
  destruct (omap f l); [by apply elem_of_nil in Hin|done].
Qed.

(** An explicit write entry inside of the protected path. *)
Lemma has_explicit_spec p prot target cwd :
  has_explicit_write_entry_for_metadata_path env p prot target cwd = true ↔
  ∃ e, covers env p cwd target e ∧ can_write (resolved_access e) = true ∧
       path_starts_with (resolved_path e) prot = true.
Proof.
  unfold has_explicit_write_entry_for_metadata_path, covers. rewrite existsb_elem.
  split; intros (e & H).
  - destruct H as [He H]. apply andb_true_iff in H as [H H3]. apply andb_true_iff in H as [H1 H2].
    by exists e.
  - destruct H as ([He H2] & H1 & H3). exists e. by rewrite H1, H2, H3.
Qed.
End metadata.

(** Metadata directories are protected: when a policy without full-disk write
    access lets a path be written that lies in [.git], [.agents], [.codex] or
    [.xtech] directly below a writable root, then a write entry was given for
    that very place: it covers the path and lies inside of such a directory of
    a writable root. *)
Theorem metadata_needs_explicit_entry env p path cwd target w name :
  env_ok env → is_absolute cwd = true → policy_wf p → kind p = Restricted →
  has_full_disk_write_access p = false →
  resolve_candidate_path env path cwd = Some target →
  w ∈ resolved_entries_with_cwd env p cwd → in_metadata target w name →
  can_write_path_with_cwd env p path cwd = true →
  ∃ w' name' e, w' ∈ resolved_entries_with_cwd env p cwd ∧ in_metadata target w' name' ∧
    covers env p cwd target e ∧ can_write (resolved_access e) = true ∧
    components (resolved_path w') ++ [Normal name'] `prefix_of` components (resolved_path e).
Proof.
  intros Henv Hcwd Hwf Hk Hfull Ht Hw Hin Hcan.
  assert (Hnt : normalized_abs target).
  { destruct (resolve_candidate_ok env path cwd Hcwd) as (t & E & H). congruence. }
  assert (Hn : ∀ e, e ∈ resolved_entries_with_cwd env p cwd → normalized_abs (resolved_path e)).
  { intros e. by apply resolved_normalized. }
  unfold can_write_path_with_cwd in Hcan. rewrite Hfull in Hcan.
  destruct (can_write (resolve_access_with_cwd env p path cwd)); [|done]. simpl in Hcan.
  unfold is_metadata_write_denied, is_restricted in Hcan. rewrite Hk, Ht in Hcan.
  destruct (metadata_child_of_writable_root env p target cwd) as [[prot n]|] eqn:Em.
  - apply negb_true_iff, negb_false_iff in Hcan.
    apply head_omap_Some in Em as (w' & Hw' & Hm).
    apply metadata_child_spec in Hm as [Hin' ->]; [|done|by apply Hn].
    apply has_explicit_spec in Hcan as (e & He & Hew & Hep).
    exists w', n, e. split; [done|]. split; [done|]. split; [done|]. split; [done|].
    rewrite path_starts_with_spec, join_metadata_components in Hep; [done|by apply Hn|apply Hin'].
  - eapply head_omap_None in Em; [|exact Hw].
    pose proof (metadata_child_spec env target w (join_path env (resolved_path w) name) name Hnt (Hn w Hw)) as Hs.
    rewrite Em in Hs. destruct Hs as [_ Hs]. by discriminate Hs.
Qed.

Definition git_policy_entries : FileSystemSandboxPolicy :=
  restricted [mkEntry (Special Root) AccessRead; mkEntry (Special (ProjectRoots None)) AccessWrite;
              mkEntry (Path (lit "/work/.git/hooks")) AccessWrite].

Lemma metadata_needs_explicit_entry_witness :
  can_write_path_with_cwd demo_env git_policy_entries (lit "/work/.git/config") (lit "/work") = false ∧
  can_write_path_with_cwd demo_env git_policy_entries (lit "/work/.git/hooks/x") (lit "/work") = true ∧
  ∃ w' name' e, w' ∈ resolved_entries_with_cwd demo_env git_policy_entries (lit "/work") ∧
    in_metadata (lit "/work/.git/hooks/x") w' name' ∧
    covers demo_env git_policy_entries (lit "/work") (lit "/work/.git/hooks/x") e ∧
    can_write (resolved_access e) = true ∧
    components (resolved_path w') ++ [Normal name'] `prefix_of` components (resolved_path e).
Proof.
  split; [vm_compute; reflexivity|]. split; [vm_compute; reflexivity|].
  apply (metadata_needs_explicit_entry demo_env git_policy_entries (lit "/work/.git/hooks/x")
           (lit "/work") (lit "/work/.git/hooks/x") (mkResolved (lit "/work") AccessWrite) (lit ".git")).
  - exists (lit "/work"). split; reflexivity.
  - reflexivity.
  - repeat constructor. exists [lit "work"; lit ".git"; lit "hooks"]. split; [by_compute|reflexivity].
  - reflexivity.
  - reflexivity.
  - vm_compute. reflexivity.
  - vm_compute. right. left.
  - split; [reflexivity|]. split; [vm_compute; left|].
    exists [Normal (lit "hooks"); Normal (lit "x")]. vm_compute. reflexivity.
  - vm_compute. reflexivity.
Defined.

(** ** Adding roots *)
Section push.
Context (env : Env) (cwd : str).
Hypothesis Henv : env_ok env.
Hypothesis Hcwd : is_absolute cwd = true.
Implicit Types (p : FileSystemSandboxPolicy).

Lemma resolved_push p r a :
  resolved_entries_with_cwd env (push_entry (mkEntry (Path r) a) p) cwd =
  resolved_entries_with_cwd env p cwd ++ [mkResolved r a].
Proof using. unfold resolved_entries_with_cwd, push_entry; simpl. by rewrite omap_app. Qed.

Lemma covers_push p r a target e :
  covers env (push_entry (mkEntry (Path r) a) p) cwd target e ↔
  covers env p cwd target e ∨ (e = mkResolved r a ∧ path_starts_with target r = true).
Proof using.
  unfold covers. rewrite resolved_push, elem_of_app, list_elem_of_singleton. naive_solver.
Qed.

(** An entry that decides for a path and covers [r], a prefix of the path,
    decides for [r]. *)
Lemma decides_above p path target r m :
  kind p = Restricted → normalized_abs r →
  resolve_candidate_path env path cwd = Some target → path_starts_with target r = true →
  covers env p cwd target m → (∀ e', covers env p cwd target e' → outranks m e') →
  path_starts_with r (resolved_path m) = true →
  resolve_access_with_cwd env p r cwd = resolved_access m.
Proof using.
  intros Hk Hr Ht Htr [Hm _] Hmax Hrm.
  apply (deciding_entry_unique env p r cwd r); [done|by apply resolve_candidate_id|done|].
  intros e' [He' Hre']. apply Hmax. split; [done|]. by eapply path_starts_with_trans.
Qed.

(** What an added entry changes: only paths below it, and those had the access
    of [r] itself. *)
Lemma push_access p r a path :
  kind p = Restricted → normalized_abs r →
  let p' := push_entry (mkEntry (Path r) a) p in
  resolve_access_with_cwd env p' path cwd = resolve_access_with_cwd env p path cwd ∨
  (resolve_access_with_cwd env p' path cwd = a ∧
   resolve_access_with_cwd env p path cwd = resolve_access_with_cwd env p r cwd).
Proof using Hcwd.
  intros Hk Hr p'. destruct (resolve_candidate_ok env path cwd Hcwd) as (target & Ht & Hnt).
  assert (Hk' : kind p' = Restricted) by done.
  destruct (path_starts_with target r) eqn:Htr; cycle 1.
  { left. assert (Hsame : ∀ e, covers env p' cwd target e ↔ covers env p cwd target e).
    { intros e. unfold p'. rewrite covers_push. rewrite Htr. naive_solver. }
    destruct (covers_dec env p cwd target) as [Hex|Hno].
    - destruct (deciding_entry env p path cwd target) as (m & Hm & -> & Hmax); [done..|].
      apply (deciding_entry_unique env p' path cwd target); [done|done|by apply Hsame|].
      intros e' He'. by apply Hmax, Hsame.
    - rewrite (no_entry_none env p path cwd target) by done.
      apply (no_entry_none env p' path cwd target); [done|done|]. intros e He. by apply (Hno e), Hsame. }
  assert (Hnew : covers env p' cwd target (mkResolved r a)).
  { unfold p'. rewrite covers_push. by right. }
  destruct (deciding_entry env p' path cwd target) as (m' & Hm' & Ea' & Hmax'); [done|done|by eexists|].
  assert (Hm'0 := Hm'). unfold p' in Hm'. rewrite covers_push in Hm'. destruct Hm' as [Hm'|[-> _]].
  - left. rewrite Ea'. symmetry.
    apply (deciding_entry_unique env p path cwd target); [done|done|done|].
    intros e' He'. apply Hmax'. unfold p'. rewrite covers_push. by left.
  - right. split; [done|].
    (* the new entry decides: what decided before covers [r] *)
    destruct (covers_dec env p cwd target) as [Hex|Hno].
    + destruct (deciding_entry env p path cwd target) as (m & Hm & -> & Hmax); [done..|].
      symmetry. apply (decides_above p path target r m); try done.
      assert (Hmp : covers env p' cwd target m) by (unfold p'; rewrite covers_push; by left).
      by destruct (Hmax' m Hmp) as [H _].
    + rewrite (no_entry_none env p path cwd target) by done. symmetry.
      apply (no_entry_none env p r cwd r); [done|by apply resolve_candidate_id|].
      intros e [He Hre]. apply (Hno e). split; [done|]. by eapply path_starts_with_trans.
Qed.

Lemma in_metadata_below target r w name :
  path_starts_with target r = true → in_metadata r w name → in_metadata target w name.
Proof using.
  rewrite path_starts_with_spec. intros [k Hk] (Hw & Hn & rest & Hr). split; [done|]. split; [done|].
  exists (rest ++ k). by rewrite Hk, Hr, <-app_assoc.
Qed.

(** Write access below a new writable root is not lost to the protection of
    metadata. *)
Lemma push_write_metadata p r path :
  kind p = Restricted → policy_wf p → normalized_abs r →
  can_write_path_with_cwd env p r cwd = false →
  resolve_access_with_cwd env p path cwd = AccessWrite →
  is_metadata_write_denied env p path cwd = false →
  is_metadata_write_denied env (push_entry (mkEntry (Path r) AccessWrite) p) path cwd = false.
Proof using Henv Hcwd.
  intros Hk Hwf Hr Hcr Hacc. destruct (resolve_candidate_ok env path cwd Hcwd) as (target & Ht & Hnt).
  assert (Hn : ∀ e, e ∈ resolved_entries_with_cwd env p cwd → normalized_abs (resolved_path e)).
  { intros e. by apply resolved_normalized. }
  unfold is_metadata_write_denied, is_restricted. simpl. rewrite Hk, Ht.
  unfold metadata_child_of_writable_root. rewrite resolved_push, omap_app.
  destruct (head (omap (metadata_child env target) (resolved_entries_with_cwd env p cwd)))
    as [[prot n]|] eqn:Em.
  - intros Hx%negb_false_iff. destruct (omap _ _); simplify_eq/=.
    apply negb_false_iff. apply has_explicit_spec in Hx as (e & He & Hew & Hep).
    apply has_explicit_spec. exists e. split; [|done]. apply covers_push. by left.
  - intros _.
    assert (omap (metadata_child env target) (resolved_entries_with_cwd env p cwd) = []) as ->
      by (by destruct (omap _ _)).
    simpl. destruct (metadata_child env target (mkResolved r AccessWrite)) as [[prot n]|] eqn:Ex; [|done].
    simpl. apply negb_false_iff.
    apply metadata_child_spec in Ex as [Hin ->]; [|done|done]. simpl in *.
    assert (Htr : path_starts_with target r = true).
    { destruct Hin as (_ & _ & rest & Hrest). simpl in Hrest. apply path_starts_with_spec. rewrite Hrest.
      by eexists. }
    destruct (covers_dec env p cwd target) as [Hex|Hno];
      [|by rewrite (no_entry_none env p path cwd target) in Hacc].
    destruct (deciding_entry env p path cwd target) as (m & Hm & Ea & Hmax); [done..|].
    assert (Hmw : can_write (resolved_access m) = true) by (by rewrite <-Ea, Hacc).
    destruct (path_starts_with r (resolved_path m)) eqn:Hrm.
    + (* [m] decides for [r]: then [r] is in a metadata directory, and so is the target *)
      exfalso. assert (Hra := decides_above p path target r m Hk Hr Ht Htr Hm Hmax Hrm).
      unfold can_write_path_with_cwd in Hcr. rewrite Hra, Hmw in Hcr. simpl in Hcr.
      destruct (has_full_disk_write_access p); [done|]. apply negb_false_iff in Hcr.
      unfold is_metadata_write_denied, is_restricted in Hcr. rewrite Hk in Hcr.
      rewrite resolve_candidate_id in Hcr by done.
      destruct (metadata_child_of_writable_root env p r cwd) as [[prot' n']|] eqn:Er; [|done].
      apply head_omap_Some in Er as (w & Hw & Hmw').
      apply metadata_child_spec in Hmw' as [Hin' _]; [|done|by apply Hn].
      apply (in_metadata_below target) in Hin'; [|done].
      apply (head_omap_None _ _ w) in Em; [|done].
      pose proof (metadata_child_spec env target w (join_path env (resolved_path w) n') n' Hnt (Hn w Hw)) as Hs.
      rewrite Em in Hs. destruct Hs as [_ Hs]. by discriminate Hs.
    + apply has_explicit_spec. exists m. split; [apply covers_push; by left|]. split; [done|].
      rewrite path_starts_with_spec, join_metadata_components by (done || apply Hin).
      destruct Hm as [_ Hmt]. rewrite path_starts_with_spec in Hmt.
      destruct Hin as (_ & _ & rest & Hrest). simpl in Hrest.
      assert (Hpn : components r ++ [Normal n] `prefix_of` components target)
        by (rewrite Hrest; exists rest; by rewrite <-app_assoc).
      destruct (prefix_weak_total _ _ _ Hmt Hpn) as [Hp|Hp]; [|done].
      destruct Hp as [k Hk']. destruct k as [|c k _] using rev_ind.
      * rewrite app_nil_r in Hk'. by rewrite Hk'.
      * rewrite app_assoc in Hk'. apply app_inj_tail in Hk' as [Hk' _].
        apply not_true_iff_false in Hrm. destruct Hrm. apply path_starts_with_spec. by exists k.
Qed.

(** Pushing a readable root changes nothing for paths that were readable. *)
Lemma push_read_keeps p r path :
  kind p = Restricted → normalized_abs r → can_read_path_with_cwd env p r cwd = false →
  can_read_path_with_cwd env p path cwd = true →
  resolve_access_with_cwd env (push_entry (mkEntry (Path r) AccessRead) p) path cwd =
  resolve_access_with_cwd env p path cwd.
Proof using Hcwd.
  unfold can_read_path_with_cwd. intros Hk Hr Hnr Hp.
  destruct (push_access p r AccessRead path Hk Hr) as [H|[_ H2]]; [done|].
  rewrite H2, Hnr in Hp. done.
Qed.

(** A read entry does not touch the protection of metadata. *)
Lemma push_read_metadata p r path :
  is_metadata_write_denied env (push_entry (mkEntry (Path r) AccessRead) p) path cwd =
  is_metadata_write_denied env p path cwd.
Proof using.
  unfold is_metadata_write_denied, is_restricted. simpl.
  destruct (kind p); [|done..]. destruct (resolve_candidate_path env path cwd) as [t|]; [|done].
  unfold metadata_child_of_writable_root, has_explicit_write_entry_for_metadata_path.
  rewrite resolved_push, omap_app. simpl. rewrite app_nil_r.
  destruct (head _) as [[prot n]|]; [|done]. rewrite existsb_app. simpl. by rewrite orb_false_r.
Qed.

Definition no_exact_deny p (r : str) : Prop :=
  ∀ e, e ∈ resolved_entries_with_cwd env p cwd → resolved_access e = AccessNone →
       components (resolved_path e) ≠ components r.

Lemma push_write_root p r :
  kind p = Restricted → policy_wf p → normalized_abs r → no_exact_deny p r →
  can_write_path_with_cwd env (push_entry (mkEntry (Path r) AccessWrite) p) r cwd = true.
Proof using Henv Hcwd.
  intros Hk Hwf Hr Hno. set (p' := push_entry _ p).
  assert (Hrc := resolve_candidate_id env r cwd Hr).
  assert (Hnew : covers env p' cwd r (mkResolved r AccessWrite)).
  { apply covers_push. right. split; [done|apply path_starts_with_refl]. }
  assert (Hacc : resolve_access_with_cwd env p' r cwd = AccessWrite).
  { destruct (deciding_entry env p' r cwd r) as (m & Hm & -> & Hmax); [done|done|by eexists|].
    destruct (Hmax _ Hnew) as [H1 H2]. simpl in H1, H2. 
    assert (Hmr := Hm). destruct Hmr as [_ Hmr]. rewrite path_starts_with_spec in H1, Hmr.
    assert (E : components (resolved_path m) = components r).
    { apply prefix_length_eq; [done|]. by apply prefix_length. }
    specialize (H2 E). apply covers_push in Hm as [[Hm _]|[-> _]]; [|done].
    destruct (resolved_access m) eqn:Ea; simpl in H2; [lia|done|]. by destruct (Hno m Hm Ea). }
  unfold can_write_path_with_cwd. rewrite Hacc. simpl.
  destruct (has_full_disk_write_access p'); [done|]. apply negb_true_iff.
  assert (Hn : ∀ e, e ∈ resolved_entries_with_cwd env p' cwd → normalized_abs (resolved_path e)).
  { intros e He. apply (resolved_normalized env p' cwd); try done.
    unfold policy_wf, p'; simpl. apply Forall_app. split; [done|]. by apply Forall_singleton. }
  unfold is_metadata_write_denied, is_restricted. simpl. rewrite Hk, Hrc.
  destruct (metadata_child_of_writable_root env p' r cwd) as [[prot n]|] eqn:Em; [|done].
  apply negb_false_iff. apply head_omap_Some in Em as (w & Hw & Hm).
  apply metadata_child_spec in Hm as [Hin ->]; [|done|by apply Hn].
  apply has_explicit_spec. exists (mkResolved r AccessWrite). split; [done|]. split; [done|]. simpl.
  rewrite path_starts_with_spec, join_metadata_components by (apply Hn in Hw; done || apply Hin).
  destruct Hin as (_ & _ & rest & ->). exists rest. by rewrite <-app_assoc.
Qed.

Hypothesis Htmp : is_dir env (lit "/tmp") = true.

(** [p'] gives at least the access of [p]. *)
Definition at_least p p' : Prop :=
  ∀ path, (can_read_path_with_cwd env p path cwd = true → can_read_path_with_cwd env p' path cwd = true) ∧
          (can_write_path_with_cwd env p path cwd = true → can_write_path_with_cwd env p' path cwd = true).

Lemma can_write_inv p path :
  can_write_path_with_cwd env p path cwd = true →
  resolve_access_with_cwd env p path cwd = AccessWrite ∧
  (has_full_disk_write_access p = true ∨ is_metadata_write_denied env p path cwd = false).
Proof using.
  unfold can_write_path_with_cwd. destruct (resolve_access_with_cwd env p path cwd); simpl; try done.
  intros H. split; [done|]. destruct (has_full_disk_write_access p); [by left|].
  right. by apply negb_true_iff.
Qed.

Lemma can_write_intro p path :
  resolve_access_with_cwd env p path cwd = AccessWrite →
  is_metadata_write_denied env p path cwd = false → can_write_path_with_cwd env p path cwd = true.
Proof using.
  intros Ha Hd. unfold can_write_path_with_cwd. rewrite Ha, Hd. simpl.
  by destruct (has_full_disk_write_access p).
Qed.

Lemma not_readable_restricted p r :
  policy_wf p → can_read_path_with_cwd env p r cwd = false →
  kind p = Restricted ∧ has_full_disk_write_access p = false.
Proof using Hcwd Htmp.
  intros Hwf Hr. split.
  - destruct (kind p) eqn:Hk; [done|..]; unfold can_read_path_with_cwd, resolve_access_with_cwd in Hr;
      by rewrite Hk in Hr.
  - destruct (has_full_disk_write_access p) eqn:Hf; [|done].
    unfold can_read_path_with_cwd in Hr. by rewrite full_disk_write_access in Hr.
Qed.

Lemma not_writable_restricted p r :
  policy_wf p → can_write_path_with_cwd env p r cwd = false →
  kind p = Restricted ∧ has_full_disk_write_access p = false.
Proof using Hcwd Htmp.
  intros Hwf Hr. unfold can_write_path_with_cwd in Hr.
  destruct (has_full_disk_write_access p) eqn:Hf.
  - by rewrite full_disk_write_access in Hr.
  - split; [|done]. destruct (kind p) eqn:Hk; [done|..];
      unfold has_full_disk_write_access in Hf; by rewrite Hk in Hf.
Qed.

Lemma push_read_at_least p r :
  policy_wf p → normalized_abs r → can_read_path_with_cwd env p r cwd = false →
  at_least p (push_entry (mkEntry (Path r) AccessRead) p).
Proof using Hcwd Htmp.
  intros Hwf Hr Hnr. destruct (not_readable_restricted p r Hwf Hnr) as [Hk Hf]. intros path. split.
  - intros Hp. unfold can_read_path_with_cwd. by rewrite push_read_keeps.
  - intros [Ha Hd]%can_write_inv. rewrite Hf in Hd. destruct Hd as [|Hd]; [done|].
    apply can_write_intro; [|by rewrite push_read_metadata].
    rewrite push_read_keeps; try done. unfold can_read_path_with_cwd. by rewrite Ha.
Qed.

Lemma push_write_at_least p r :
  policy_wf p → normalized_abs r → can_write_path_with_cwd env p r cwd = false →
  at_least p (push_entry (mkEntry (Path r) AccessWrite) p).
Proof using Henv Hcwd Htmp.
  intros Hwf Hr Hnr. destruct (not_writable_restricted p r Hwf Hnr) as [Hk Hf]. intros path.
  destruct (push_access p r AccessWrite path Hk Hr) as [E|[E _]]; split.
  - unfold can_read_path_with_cwd. by rewrite E.
  - intros [Ha Hd]%can_write_inv. rewrite Hf in Hd. destruct Hd as [|Hd]; [done|].
    apply can_write_intro; [by rewrite E|]. by apply push_write_metadata.
  - unfold can_read_path_with_cwd. by rewrite E.
  - intros [Ha Hd]%can_write_inv. rewrite Hf in Hd. destruct Hd as [|Hd]; [done|].
    apply can_write_intro; [by rewrite E|]. by apply push_write_metadata.
Qed.

Lemma push_wf p r a : policy_wf p → normalized_abs r → policy_wf (push_entry (mkEntry (Path r) a) p).
Proof using.
  intros Hwf Hr. unfold policy_wf; simpl. apply Forall_app. split; [done|]. by apply Forall_singleton.
Qed.

Lemma add_writable_loop roots : ∀ p,
  policy_wf p → Forall normalized_abs roots →
  let p' := with_additional_writable_roots env p cwd roots in
  at_least p p' ∧ ∀ r, r ∈ roots → no_exact_deny p r → can_write_path_with_cwd env p' r cwd = true.
Proof using Henv Hcwd Htmp.
  induction roots as [|r roots IH]; intros p Hwf Hr; simpl.
  - split; [by intros path|]. intros r Hin. by apply elem_of_nil in Hin.
  - apply Forall_cons in Hr as [Hr Hrs].
    unfold with_additional_writable_roots in *. simpl.
    destruct (can_write_path_with_cwd env p r cwd) eqn:Hcw.
    + destruct (IH p Hwf Hrs) as [Hal Hroots]. split; [done|].
      intros x [->|Hx]%elem_of_cons Hno; [|by apply Hroots]. by apply Hal.
    + destruct (not_writable_restricted p r Hwf Hcw) as [Hk Hf].
      destruct (IH (push_entry (mkEntry (Path r) AccessWrite) p)) as [Hal Hroots];
        [by apply push_wf|done|].
      assert (Hstep := push_write_at_least p r Hwf Hr Hcw). split.
      * intros path. split; intros Hp; apply Hal; by apply Hstep.
      * intros x [->|Hx]%elem_of_cons Hno.
        -- apply Hal. by apply push_write_root.
        -- apply Hroots; [done|]. intros e. rewrite resolved_push, elem_of_app, list_elem_of_singleton.
           intros [He| ->]; [by apply Hno|done].
Qed.

Lemma add_readable_loop roots : ∀ p,
  policy_wf p → Forall normalized_abs roots →
  at_least p (foldl (λ p path, if can_read_path_with_cwd env p path cwd then p
                               else push_entry (mkEntry (Path path) AccessRead) p) p roots).
Proof using Hcwd Htmp.
  induction roots as [|r roots IH]; intros p Hwf Hr; simpl; [by intros path|].
  apply Forall_cons in Hr as [Hr Hrs].
  destruct (can_read_path_with_cwd env p r cwd) eqn:Hcr; [by apply IH|].
  assert (Hstep := push_read_at_least p r Hwf Hr Hcr).
  assert (Hal := IH (push_entry (mkEntry (Path r) AccessRead) p) (push_wf _ _ _ Hwf Hr) Hrs).
  intros path. split; intros Hp; apply Hal; by apply Hstep.
Qed.
End push.

(** Adding roots never takes access away, although later entries can shadow
    earlier ones: whatever could be read or written still can.  Every root
    added for writing is then writable, unless an entry denies exactly that
    path, in which case the denial stays in force. *)
Theorem additional_roots_monotone env p cwd roots :
  env_ok env → is_absolute cwd = true → is_dir env (lit "/tmp") = true →
  policy_wf p → Forall normalized_abs roots →
  at_least env cwd p (with_additional_readable_roots env p cwd roots) ∧
  at_least env cwd p (with_additional_writable_roots env p cwd roots) ∧
  ∀ r, r ∈ roots → no_exact_deny env cwd p r →
       can_write_path_with_cwd env (with_additional_writable_roots env p cwd roots) r cwd = true.
Proof.
  intros Henv Hcwd Htmp Hwf Hr. split; [|by apply add_writable_loop].
  unfold with_additional_readable_roots. destruct (has_full_disk_read_access p); [by intros path|].
  by apply add_readable_loop.
Qed.

Lemma additional_roots_monotone_witness :
  can_write_path_with_cwd demo_env git_policy_entries (lit "/data") (lit "/work") = false ∧
  can_write_path_with_cwd demo_env
    (with_additional_writable_roots demo_env git_policy_entries (lit "/work") [lit "/data"])
    (lit "/data") (lit "/work") = true.
Proof.
  split; [vm_compute; reflexivity|].
  refine (proj2 (proj2 (additional_roots_monotone demo_env git_policy_entries (lit "/work")
    [lit "/data"] _ _ _ _ _)) (lit "/data") _ _).
  - exists (lit "/work"). split; reflexivity.
  - reflexivity.
  - reflexivity.
  - repeat constructor. exists [lit "work"; lit ".git"; lit "hooks"]. split; [by_compute|reflexivity].
  - constructor; [|constructor]. exists [lit "data"]. split; [by_compute|reflexivity].
  - left.
  - intros e He Ha. exfalso. vm_compute in He.
    repeat (apply elem_of_cons in He as [->|He]; [discriminate Ha|]). by apply elem_of_nil in He.
Defined.

(** ** The roots handed to a sandbox *)

Lemma dedup_paths_elem seen l x : x ∈ dedup_paths seen l → x ∈ l.
Proof.
  revert seen. induction l as [|p l IH]; intros seen; simpl; [done|].
  destruct (existsb _ seen); [set_solver|]. rewrite !elem_of_cons. naive_solver.
Qed.

Lemma dedup_paths_keeps seen l x :
  x ∈ l → ∃ y, (y ∈ seen ∨ y ∈ dedup_paths seen l) ∧ components y = components x.
Proof.
  revert seen. induction l as [|p l IH]; intros seen Hx; [by apply elem_of_nil in Hx|]. simpl.
  apply elem_of_cons in Hx as [->|Hx].
  - destruct (existsb (path_eqb p) seen) eqn:E.
    + apply existsb_elem in E as (y & Hy & E). exists y. split; [by left|].
      symmetry. by apply path_eqb_spec.
    + exists p. split; [right; left|done].
  - destruct (existsb (path_eqb p) seen); [by apply IH|].
    destruct (IH (p :: seen) Hx) as (y & [Hy|Hy] & E).
    + apply elem_of_cons in Hy as [->|Hy]; [exists p; split; [right; left|done]|].
      exists y. split; [by left|done].
    + exists y. split; [right; by right|done].
Qed.

Section roots.
Context (env : Env) (cwd : str) (p : FileSystemSandboxPolicy).
Hypothesis Henv : env_ok env.
Hypothesis Hcwd : is_absolute cwd = true.
Hypothesis Hwf : policy_wf p.
(** No symbolic links on the way: effective paths are the paths. *)
Hypothesis Hlinks : ∀ q, normalized_abs q → normalize_effective_absolute_path env q = q.

Lemma writable_entry_elem r :
  r ∈ dedup_absolute_paths env (writable_entries env p cwd) true →
  ∃ e, e ∈ resolved_entries_with_cwd env p cwd ∧ can_write (resolved_access e) = true ∧
       can_write_path_with_cwd env p (resolved_path e) cwd = true ∧ r = resolved_path e.
Proof using Henv Hcwd Hwf Hlinks.
  unfold dedup_absolute_paths, writable_entries. intros Hr%dedup_paths_elem.
  apply list_elem_of_fmap in Hr as (q & -> & Hq).
  apply list_elem_of_fmap in Hq as (e & -> & He). apply list_elem_of_In, filter_In in He as [He Hf].
  apply list_elem_of_In in He. apply andb_true_iff in Hf as [H1 H2].
  exists e. rewrite Hlinks; [done|]. by apply (resolved_normalized env p cwd).
Qed.

(** A non-writable entry strictly below a root is one of its carve-outs. *)
Lemma carveout_found r m :
  normalized_abs r → m ∈ resolved_entries_with_cwd env p cwd →
  can_write (resolved_access m) = false →
  can_write_path_with_cwd env p (resolved_path m) cwd = false →
  path_starts_with (resolved_path m) r = true → components (resolved_path m) ≠ components r →
  ∃ y, y ∈ read_only_subpaths (writable_root_of env p cwd r) ∧
       components y = components (resolved_path m).
Proof using Henv Hcwd Hwf Hlinks.
  intros Hr Hm Hw Hcw Hmr Hne. unfold writable_root_of; simpl.
  unfold dedup_absolute_paths. rewrite List.map_id.
  set (defaults := List.filter _ (default_read_only_subpaths_for_writable_root _ _ _)).
  set (carve := carveout env r _ _).
  assert (Hc : carve m = Some (resolved_path m)).
  { unfold carve, carveout.
    assert (Hnm : normalized_abs (resolved_path m)) by (by apply (resolved_normalized env p cwd)).
    rewrite (Hlinks _ Hnm), Hmr.
    assert (Eq : path_eqb (resolved_path m) r = false).
    { apply not_true_iff_false. by rewrite path_eqb_spec. }
    rewrite Eq. by destruct (path_parent r). }
  destruct (dedup_paths_keeps [] (defaults ++ omap carve
    (List.filter (λ e, negb (can_write (resolved_access e)) &&
       negb (can_write_path_with_cwd env p (resolved_path e) cwd))
       (resolved_entries_with_cwd env p cwd))) (resolved_path m)) as (y & [Hy|Hy] & E).
  - apply elem_of_app. right. apply list_elem_of_omap. exists m. split; [|done].
    apply list_elem_of_In, filter_In. split; [by apply list_elem_of_In|]. by rewrite Hw, Hcw.
  - by apply elem_of_nil in Hy.
  - by exists y.
Qed.

Lemma writable_roots_granted wr path :
  wr ∈ get_writable_roots_with_cwd env p cwd → normalized_abs path →
  is_path_writable wr path = true → resolve_access_with_cwd env p path cwd = AccessWrite.
Proof using Henv Hcwd Hwf Hlinks.
  unfold get_writable_roots_with_cwd. destruct (has_full_disk_write_access p) eqn:Hf;
    [by intros ?%elem_of_nil|].
  intros Hwr Hpath Hok. apply list_elem_of_fmap in Hwr as (r & -> & Hr).
  destruct (writable_entry_elem r Hr) as (e & He & Hew & Hcw & ->).
  assert (Hk : kind p = Restricted).
  { unfold has_full_disk_write_access in Hf. by destruct (kind p). }
  assert (Hnr : normalized_abs (resolved_path e)) by (by apply (resolved_normalized env p cwd)).
  unfold is_path_writable in Hok. apply andb_true_iff in Hok as [Hok _].
  apply andb_true_iff in Hok as [Hunder Hro]. simpl in Hunder. apply negb_true_iff in Hro.
  assert (Hrc := resolve_candidate_id env path cwd Hpath).
  assert (Hcov : covers env p cwd path e) by done.
  destruct (deciding_entry env p path cwd path) as (m & Hm & Ea & Hmax); [done|done|by exists e|].
  destruct (can_write (resolved_access m)) eqn:Hmw; [rewrite Ea; by destruct (resolved_access m)|].
  exfalso. destruct (Hmax e Hcov) as [Hme Hrank]. pose proof Hm as [Hmin Hmp].
  assert (Hnm : normalized_abs (resolved_path m)) by (by apply (resolved_normalized env p cwd)).
  assert (Hdec : ∀ r, normalized_abs r → path_starts_with path r = true →
            path_starts_with r (resolved_path m) = true →
            can_write_path_with_cwd env p r cwd = false).
  { intros r' Hr' Hpr Hrm. unfold can_write_path_with_cwd.
    rewrite (decides_above env cwd p path path r' m) by done. by rewrite Hmw. }
  destruct (decide (components (resolved_path m) = components (resolved_path e))) as [E|Hne].
  - rewrite Hdec in Hcw; [done|done|done|]. rewrite path_starts_with_spec, E. done.
  - destruct (carveout_found (resolved_path e) m) as (y & Hy & Ey); [done|done|done| |done|done|].
    { apply Hdec; [done|done|apply path_starts_with_refl]. }
    apply not_true_iff_false in Hro. destruct Hro. apply existsb_elem. exists y. split; [done|].
    rewrite path_starts_with_spec, Ey. by apply path_starts_with_spec.
Qed.
End roots.

(** C28. The writable roots that the sandboxes enforce are covered by the policy:
    where there are no symbolic links, a path that one of the roots accepts
    (below the root, not below a read-only subpath, not protected metadata) is
    a path to which the entries give write access; no more specific entry is missed by the carve-outs. *)
Theorem writable_roots_sound env p cwd wr path :
  env_ok env → is_absolute cwd = true → policy_wf p →
  (∀ q, normalized_abs q → normalize_effective_absolute_path env q = q) →
  wr ∈ get_writable_roots_with_cwd env p cwd → normalized_abs path →
  is_path_writable wr path = true → resolve_access_with_cwd env p path cwd = AccessWrite.
Proof. intros He Hc Hwf Hl. by apply (writable_roots_granted env cwd p). Qed.

Definition carved_policy : FileSystemSandboxPolicy :=
  restricted [mkEntry (Special Root) AccessRead; mkEntry (Special (ProjectRoots None)) AccessWrite;
              mkEntry (Path (lit "/work/private")) AccessNone].

Lemma demo_env_no_links q : normalize_effective_absolute_path demo_env q = q.
Proof.
  unfold normalize_effective_absolute_path. 
  assert (E : ∀ l, omap (effective_ancestor demo_env q) l = []) by (by induction l).
  by rewrite E.
Qed.

Lemma writable_roots_sound_witness :
  let wr := writable_root_of demo_env carved_policy (lit "/work") (lit "/work") in
  wr ∈ get_writable_roots_with_cwd demo_env carved_policy (lit "/work") ∧
  is_path_writable wr (lit "/work/private/key") = false ∧
  is_path_writable wr (lit "/work/src") = true ∧
  resolve_access_with_cwd demo_env carved_policy (lit "/work/src") (lit "/work") = AccessWrite.
Proof.
  intros wr. assert (Hin : wr ∈ get_writable_roots_with_cwd demo_env carved_policy (lit "/work"))
    by (vm_compute; left).
  split; [exact Hin|]. split; [vm_compute; reflexivity|]. split; [vm_compute; reflexivity|].
  apply (writable_roots_sound demo_env carved_policy (lit "/work") wr (lit "/work/src")).
  - exists (lit "/work"). split; reflexivity.
  - reflexivity.
  - repeat constructor. exists [lit "work"; lit "private"]. split; [by_compute|reflexivity].
  - intros q _. apply demo_env_no_links.
  - exact Hin.
  - exists [lit "work"; lit "src"]. split; [by_compute|reflexivity].
  - vm_compute. reflexivity.
Defined.
