(* ===== verification/RuntimeEnforcement.v ===== *)
(** * Enforcing a policy at run time: the rest of [protocol/src/permissions.rs]

    [ReadDenyMatcher] refuses direct reads of denied paths; the semantic
    signature of a policy decides whether two policies are the same and whether
    the older sandboxes, which know only [SandboxPolicy], can enforce it
    ([needs_direct_runtime_enforcement]).  The glob compiler (the globset
    crate) is a parameter. *)
From S2P Require Import Prelude RustStr AbsolutePath FileSystem Ordering Paths Permissions SandboxRoots PermissionsProofs.

Section env.
Context (env : Env).

(** ** Reads *)

Definition push_unique (candidates : list str) (candidate : str) : list str :=
  if existsb (λ existing, path_eqb existing candidate) candidates then candidates
  else candidates ++ [candidate].

Definition normalized_and_canonical_candidates (path : str) : list str :=
  let candidates :=
    match absolute env path with
    | Some normalized => push_unique [] normalized
    | None => push_unique [] path
    end in
  match canonicalize env path ≫= absolute env with
  | Some canonical_absolute => push_unique candidates canonical_absolute
  | None => candidates
  end.

(** A compiled glob is the set of paths it matches. *)
Context (build_glob_matcher : str → option (str → bool)).

Record ReadDenyMatcher := mkMatcher {
  denied_candidates : list (list str);
  deny_read_matchers : list (str → bool);
  invalid_pattern : bool
}.

Definition new_matcher (p : FileSystemSandboxPolicy) (cwd : str) : option ReadDenyMatcher :=
  if negb (has_denied_read_restrictions p) then None
  else
    let patterns := get_unreadable_globs_with_cwd env p cwd in
    Some (mkMatcher
      (map normalized_and_canonical_candidates (get_unreadable_roots_with_cwd env p cwd))
      (omap build_glob_matcher patterns)
      (existsb (λ pattern, match build_glob_matcher pattern with Some _ => false | None => true end)
         patterns)).

Definition is_read_denied (self : ReadDenyMatcher) (path : str) : bool :=
  if invalid_pattern self then true
  else
    let path_candidates := normalized_and_canonical_candidates path in
    if existsb (λ denied,
         existsb (λ candidate,
           existsb (λ denied_candidate,
             path_eqb candidate denied_candidate || path_starts_with candidate denied_candidate) denied)
           path_candidates) (denied_candidates self)
    then true
    else existsb (λ matcher, existsb matcher path_candidates) (deny_read_matchers self).

(** ** The semantic signature *)

Record FileSystemSemanticSignature := mkSignature {
  sig_full_disk_read : bool;
  sig_full_disk_write : bool;
  sig_platform_defaults : bool;
  sig_readable_roots : list str;
  sig_writable_roots : list WritableRoot;
  sig_unreadable_roots : list str;
  sig_unreadable_globs : list str
}.

Definition sort_writable_root (wr : WritableRoot) : WritableRoot :=
  mkWritableRoot (root wr) (sort_paths (read_only_subpaths wr)) (dedup (sort (protected_metadata_names wr))).

(** [roots.sort_by(|l, r| l.root.cmp(r.root))], stable *)
Fixpoint insert_root (wr : WritableRoot) (l : list WritableRoot) : list WritableRoot :=
  match l with
  | [] => [wr]
  | q :: l' => match cmp (components (root wr)) (components (root q)) with
               | Gt => q :: insert_root wr l'
               | _ => wr :: l
               end
  end.

Definition sorted_writable_roots (roots : list WritableRoot) : list WritableRoot :=
  foldr insert_root [] (map sort_writable_root roots).

Definition semantic_signature (p : FileSystemSandboxPolicy) (cwd : str) : FileSystemSemanticSignature :=
  mkSignature (has_full_disk_read_access p) (has_full_disk_write_access p) (include_platform_defaults p)
    (sort_paths (get_readable_roots_with_cwd env p cwd))
    (sorted_writable_roots (get_writable_roots_with_cwd env p cwd))
    (sort_paths (get_unreadable_roots_with_cwd env p cwd))
    (get_unreadable_globs_with_cwd env p cwd).

(** The derived equalities; paths are equal when their components are. *)
Definition paths_eqb (l r : list str) : bool := bool_decide (map components l = map components r).
Definition writable_root_key (wr : WritableRoot) : list Component * list (list Component) * list str :=
  (components (root wr), map components (read_only_subpaths wr), protected_metadata_names wr).
Definition signature_eqb (l r : FileSystemSemanticSignature) : bool :=
  Bool.eqb (sig_full_disk_read l) (sig_full_disk_read r) &&
  Bool.eqb (sig_full_disk_write l) (sig_full_disk_write r) &&
  Bool.eqb (sig_platform_defaults l) (sig_platform_defaults r) &&
  paths_eqb (sig_readable_roots l) (sig_readable_roots r) &&
  bool_decide (map writable_root_key (sig_writable_roots l) = map writable_root_key (sig_writable_roots r)) &&
  paths_eqb (sig_unreadable_roots l) (sig_unreadable_roots r) &&
  bool_decide (sig_unreadable_globs l = sig_unreadable_globs r).

Definition is_semantically_equivalent_to (self other : FileSystemSandboxPolicy) (cwd : str) : bool :=
  signature_eqb (semantic_signature self cwd) (semantic_signature other cwd).

(** ** What the older sandboxes enforce *)

Definition legacy_runtime_file_system_policy_for_cwd (p : SandboxPolicy) (cwd : str)
    : FileSystemSandboxPolicy :=
  match p with
  | WorkspaceWrite writable_roots _ exclude_tmpdir_env_var exclude_slash_tmp =>
      let es := [mkEntry (Special Root) AccessRead;
                 mkEntry (Special (ProjectRoots None)) AccessWrite]
                ++ (if exclude_slash_tmp then [] else [mkEntry (Special SlashTmp) AccessWrite])
                ++ (if exclude_tmpdir_env_var then [] else [mkEntry (Special Tmpdir) AccessWrite])
                ++ map (λ path, mkEntry (Path path) AccessWrite) writable_roots in
      let es := match absolute env cwd with
                | Some cwd_root => append_default_subpaths env es cwd_root true
                | None => es
                end in
      restricted (foldl (λ es writable_root, append_default_subpaths env es writable_root false)
                    es writable_roots)
  | _ => of_sandbox_policy env p
  end.

Definition protected_metadata_names_need_direct_runtime_enforcement (policy : FileSystemSandboxPolicy)
    (legacy_policy : SandboxPolicy) (cwd : str) : bool :=
  let legacy_roots := legacy_writable_roots_with_cwd env legacy_policy cwd in
  existsb (λ writable_root,
    match List.find (λ candidate, path_eqb (root candidate) (root writable_root)) legacy_roots with
    | None => negb (bool_decide (protected_metadata_names writable_root = []))
    | Some legacy_root =>
        existsb (λ metadata_name,
          let metadata_path := join_path env (root writable_root) metadata_name in
          negb (existsb (λ subpath, path_eqb subpath metadata_path) (read_only_subpaths legacy_root)))
          (protected_metadata_names writable_root)
    end) (get_writable_roots_with_cwd env policy cwd).

Definition needs_direct_runtime_enforcement (self : FileSystemSandboxPolicy)
    (network_policy : NetworkSandboxPolicy) (cwd : str) : bool :=
  if negb (is_restricted self) then false
  else
    match to_legacy_sandbox_policy env self network_policy cwd with
    | Ok legacy_policy =>
        if protected_metadata_names_need_direct_runtime_enforcement self legacy_policy cwd then true
        else negb (signature_eqb (semantic_signature self cwd)
                     (semantic_signature (legacy_runtime_file_system_policy_for_cwd legacy_policy cwd) cwd))
    | _ => true
    end.
End env.

(** ** Reads that are refused *)

(** A file system without symbolic links. *)
Record no_links (env : Env) : Prop := {
  effective_id q : normalized_abs q → normalize_effective_absolute_path env q = q;
  canonical_id q c : normalized_abs q → canonicalize env q = Some c → c = q
}.

Section denied.
Context (env : Env) (cwd : str) (p : FileSystemSandboxPolicy).
Hypothesis Henv : env_ok env.
Hypothesis Hcwd : is_absolute cwd = true.
Hypothesis Hwf : policy_wf p.
Hypothesis Hlinks : no_links env.
#[local] Set Default Proof Using "Type*".

Lemma candidates_id q : normalized_abs q → normalized_and_canonical_candidates env q = [q].
Proof.
  intros Hq. unfold normalized_and_canonical_candidates. rewrite (absolute_id env q Hq). simpl.
  destruct (canonicalize env q) as [c|] eqn:E; simpl; [|done].
  rewrite (canonical_id _ Hlinks q c Hq E), (absolute_id env q Hq). unfold push_unique. simpl.
  by rewrite (proj2 (path_eqb_spec q q) eq_refl).
Qed.

(** The entry [e] denies, and no other entry gives its path back. *)
Definition denies (e : ResolvedFileSystemEntry) : Prop :=
  e ∈ resolved_entries_with_cwd env p cwd ∧ resolved_access e = AccessNone ∧
  can_read_path_with_cwd env p (resolved_path e) cwd = false ∧ resolved_path e ≠ render [].

Lemma unreadable_roots_spec q :
  kind p = Restricted →
  q ∈ get_unreadable_roots_with_cwd env p cwd ↔ ∃ e, denies e ∧ resolved_path e = q.
Proof.
  intros Hk. unfold get_unreadable_roots_with_cwd, is_restricted. rewrite Hk. simpl.
  rewrite (absolute_of_absolute env cwd Hcwd). simpl.
  assert (Hr : absolute_root_path_for_cwd env (normalize_path cwd) = render []).
  { by apply absolute_root_eq, normalize_path_normalized. }
  rewrite Hr.
  set (l := List.filter _ _).
  assert (Hl : ∀ e, e ∈ l ↔ denies e).
  { intros e. unfold l, denies. rewrite elem_of_filterb.
    split.
    - intros [He H]. apply andb_true_iff in H as [H Hne]. apply andb_true_iff in H as [Ha Hc].
      apply bool_decide_eq_true in Ha. apply negb_true_iff in Hc, Hne.
      repeat split; try done. intros E. rewrite E in Hne. unfold option_path_eqb in Hne.
      by rewrite (proj2 (path_eqb_spec _ _) eq_refl) in Hne.
    - intros (He & Ha & Hc & Hne). split; [done|]. rewrite Hc, (bool_decide_eq_true_2 _ Ha). simpl.
      apply negb_true_iff, not_true_iff_false. unfold option_path_eqb. rewrite path_eqb_spec. intros E.
      apply Hne. symmetry. apply normalized_components_inj; [|by apply (resolved_normalized env p cwd)|done].
      exists []. split; [constructor|done]. }
  assert (Hn : ∀ x, x ∈ map resolved_path l → normalized_abs x).
  { intros x (e & -> & He)%list_elem_of_fmap. apply Hl in He as [He _].
    by apply (resolved_normalized env p cwd). }
  unfold dedup_absolute_paths.
  assert (Hmap : map (λ p, normalize_effective_absolute_path env p) (map resolved_path l) = map resolved_path l).
  { rewrite <-(List.map_id (map resolved_path l)) at 2. apply map_ext_in. intros x Hx%list_elem_of_In.
    apply (effective_id _ Hlinks). by apply Hn. }
  rewrite Hmap. split.
  - intros (e & -> & He)%dedup_paths_elem%list_elem_of_fmap. exists e. split; [by apply Hl|done].
  - intros (e & He & <-). apply Hl in He.
    destruct (dedup_paths_keeps [] (map resolved_path l) (resolved_path e)) as (y & [Hy|Hy] & E).
    + by apply list_elem_of_fmap_2.
    + by apply elem_of_nil in Hy.
    + rewrite (normalized_components_inj (resolved_path e) y); [done| | |done].
      * apply Hn. by apply list_elem_of_fmap_2.
      * apply Hn. by eapply dedup_paths_elem.
Qed.

Lemma is_read_denied_spec build m path :
  kind p = Restricted → new_matcher env build p cwd = Some m → normalized_abs path →
  is_read_denied env m path = true ↔
    (∃ e, denies e ∧ path_starts_with path (resolved_path e) = true) ∨
    (∃ pattern, pattern ∈ get_unreadable_globs_with_cwd env p cwd ∧
       match build pattern with Some matcher => matcher path = true | None => True end).
Proof.
  intros Hk Hm Hpath. unfold new_matcher in Hm. destruct (has_denied_read_restrictions p); [|done].
  simpl in Hm. injection Hm as <-. unfold is_read_denied; simpl. rewrite (candidates_id path Hpath).
  set (patterns := get_unreadable_globs_with_cwd env p cwd).
  destruct (existsb _ patterns) eqn:Hbad.
  { apply existsb_elem in Hbad as (x & Hx & E). split; [|done]. intros _. right. exists x.
    split; [done|]. by destruct (build x). }
  assert (Hgood : ∀ x, x ∈ patterns → is_Some (build x)).
  { intros x Hx. destruct (build x) eqn:E; [done|]. exfalso. apply not_true_iff_false in Hbad.
    apply Hbad, existsb_elem. exists x. by rewrite E. }
  assert (Hroots : existsb (λ denied, existsb (λ candidate, existsb (λ denied_candidate,
             path_eqb candidate denied_candidate || path_starts_with candidate denied_candidate) denied)
           [path]) (map (normalized_and_canonical_candidates env) (get_unreadable_roots_with_cwd env p cwd)) = true
         ↔ ∃ e, denies e ∧ path_starts_with path (resolved_path e) = true).
  { rewrite existsb_elem. split.
    - intros (d & Hd & H). apply list_elem_of_fmap in Hd as (q & -> & Hq).
      apply unreadable_roots_spec in Hq as (e & He & <-); [|done].
      rewrite candidates_id in H by (apply (resolved_normalized env p cwd); [done..|by destruct He]).
      simpl in H. rewrite !orb_false_r in H. apply orb_true_iff in H. exists e. split; [done|].
      destruct H as [H|H]; [|done]. apply path_eqb_spec in H. apply path_starts_with_spec. by rewrite H.
    - intros (e & He & H). exists [resolved_path e]. split.
      + rewrite <-(candidates_id (resolved_path e))
          by (apply (resolved_normalized env p cwd); [done..|by destruct He]).
        apply list_elem_of_fmap_2. apply unreadable_roots_spec; [done|]. by exists e.
      + simpl. by rewrite H, !orb_true_r. }
  destruct (existsb _ (map _ _)) eqn:E.
  { split; [|done]. intros _. left. by apply Hroots. }
  rewrite existsb_elem. split.
  - intros (matcher & Hin & H). right. apply list_elem_of_omap in Hin as (x & Hx & Ex).
    exists x. rewrite Ex. simpl in H. rewrite orb_false_r in H. done.
  - intros [H|(x & Hx & H)]; [by apply Hroots in H|]. destruct (Hgood x Hx) as [matcher Ex].
    rewrite Ex in H. exists matcher. split; [apply list_elem_of_omap; by exists x|]. simpl. by rewrite H.
Qed.
End denied.

(** Direct reads are refused as the policy says: where there are no symbolic
    links, the matcher refuses a path exactly when it lies at or below the
    path of a denying entry that no other entry overrides at its place (the
    root of the file system excepted), or a denied pattern matches it; when
    some denied pattern cannot be compiled, every path is refused.  Without
    any denial there is no matcher. *)
Theorem read_denials_enforced env build p cwd :
  env_ok env → is_absolute cwd = true → policy_wf p → no_links env → kind p = Restricted →
  (new_matcher env build p cwd = None ↔ ∀ e, e ∈ entries p → entry_access e ≠ AccessNone) ∧
  ∀ m path, new_matcher env build p cwd = Some m → normalized_abs path →
    (is_read_denied env m path = true ↔
      (∃ e, denies env cwd p e ∧ path_starts_with path (resolved_path e) = true) ∨
      (∃ pattern, pattern ∈ get_unreadable_globs_with_cwd env p cwd ∧
         match build pattern with Some matcher => matcher path = true | None => True end)).
Proof.
  intros He Hc Hwf Hl Hk. split.
  - unfold new_matcher, has_denied_read_restrictions, is_restricted. rewrite Hk. simpl.
    destruct (existsb _ (entries p)) eqn:E; simpl.
    + split; [done|]. intros H. apply existsb_elem in E as (e & Hin & Ea).
      apply bool_decide_eq_true in Ea. by destruct (H e Hin).
    + split; [|done]. intros _ e Hin Ea. apply not_true_iff_false in E. apply E, existsb_elem.
      exists e. split; [done|]. by apply bool_decide_eq_true.
  - intros m path Hm Hpath. by apply is_read_denied_spec.
Qed.

Lemma read_denials_enforced_witness :
  ∃ m, new_matcher demo_env (λ _, None) carved_policy (lit "/work") = Some m ∧
    is_read_denied demo_env m (lit "/work/private/key") = true.
Proof.
  assert (Hl : no_links demo_env) by (split; [intros q _; apply demo_env_no_links|done]).
  eexists. split; [reflexivity|].
  refine (proj2 (proj2 (read_denials_enforced demo_env (λ _, None) carved_policy (lit "/work")
    _ _ _ Hl _) _ _ _ _) _).
  - exists (lit "/work"). split; reflexivity.
  - reflexivity.
  - repeat constructor. exists [lit "work"; lit "private"]. split; [by_compute|reflexivity].
  - reflexivity.
  - reflexivity.
  - exists [lit "work"; lit "private"; lit "key"]. split; [by_compute|reflexivity].
  - left. exists (mkResolved (lit "/work/private") AccessNone). split; [|reflexivity].
    split; [vm_compute; right; right; left|]. split; [reflexivity|]. split; [vm_compute; reflexivity|].
    discriminate.
Defined.

(** ** Handing a policy to the older sandboxes *)

Lemma insert_path_elem x q l : x ∈ insert_path q l ↔ x = q ∨ x ∈ l.
Proof. induction l as [|b l IH]; simpl; [set_solver|]. case_match; set_solver. Qed.

Lemma sort_paths_elem x l : x ∈ sort_paths l ↔ x ∈ l.
Proof. induction l as [|q l IH]; simpl; [done|]. rewrite insert_path_elem. set_solver. Qed.

Lemma insert_root_elem x q l : x ∈ insert_root q l ↔ x = q ∨ x ∈ l.
Proof. induction l as [|b l IH]; simpl; [set_solver|]. case_match; set_solver. Qed.

Lemma sorted_roots_elem x l : x ∈ sorted_writable_roots l ↔ ∃ wr, wr ∈ l ∧ x = sort_writable_root wr.
Proof.
  unfold sorted_writable_roots. induction l as [|q l IH]; simpl.
  { split; [by intros ?%elem_of_nil|by intros (? & ?%elem_of_nil & _)]. }
  rewrite insert_root_elem, IH. setoid_rewrite elem_of_cons. naive_solver.
Qed.

(** Equal lists of keys have the same keys as elements. *)
Lemma map_eq_elem {A B} (f : A → B) l k x :
  map f l = map f k → x ∈ l → ∃ y, y ∈ k ∧ f y = f x.
Proof.
  intros E Hx. assert (H : f x ∈ map f k) by (rewrite <-E; by apply list_elem_of_fmap_2).
  apply list_elem_of_fmap in H as (y & Hy & Hin). by exists y.
Qed.

(** What a writable root accepts depends on its signature only. *)
Lemma writable_key wr wr' path :
  writable_root_key (sort_writable_root wr) = writable_root_key (sort_writable_root wr') →
  is_path_writable wr path = true → is_path_writable wr' path = true.
Proof.
  unfold writable_root_key; simpl. intros [= Er Es En]. unfold is_path_writable.
  rewrite !andb_true_iff, !negb_true_iff. intros [[Hr Hs] Hn]. repeat split.
  - apply path_starts_with_spec in Hr. apply path_starts_with_spec. by rewrite <-Er.
  - apply not_true_iff_false in Hs. apply not_true_iff_false. intros (y & Hy & Hp)%existsb_elem.
    apply Hs, existsb_elem. apply sort_paths_elem in Hy.
    destruct (map_eq_elem components _ _ y (eq_sym Es) Hy) as (x & Hx & E). exists x.
    split; [by apply sort_paths_elem|]. apply path_starts_with_spec. rewrite E. by apply path_starts_with_spec.
  - apply not_true_iff_false in Hn. apply not_true_iff_false. intros H. apply Hn. revert H.
    unfold path_contains_protected_metadata_name, path_strip_prefix. rewrite Er.
    destruct (strip_components _ _) as [[|c rest]|]; [done| |done].
    rewrite !existsb_elem. intros (n & Hin & E). exists n. split; [|done].
    apply sort_elem, dedup_elem. rewrite En. by apply dedup_elem, sort_elem.
Qed.

Lemma signature_eqb_spec l r :
  signature_eqb l r = true →
  sig_full_disk_write l = sig_full_disk_write r ∧
  map writable_root_key (sig_writable_roots l) = map writable_root_key (sig_writable_roots r) ∧
  map components (sig_unreadable_roots l) = map components (sig_unreadable_roots r).
Proof.
  unfold signature_eqb, paths_eqb. rewrite !andb_true_iff, !bool_decide_eq_true.
  intros ((((((_ & Hw) & _) & _) & Hr) & Hu) & _). repeat split; try done. by apply eqb_prop.
Qed.

(** C29. When a restricted policy is left to the older sandboxes, nothing is lost,
    on a file system without symbolic links that has a directory [/tmp].  If
    [needs_direct_runtime_enforcement] says no, then the policy has a legacy
    form, and what the older sandboxes then let be written (the whole disk, or
    a path that one of their writable roots accepts) is writable under the
    policy; every denial is among the unreadable roots they enforce; and each
    protected metadata name of a writable root is one of the read-only paths
    of the legacy root at the same place. *)
Theorem legacy_enforcement_sound env p n cwd :
  env_ok env → is_absolute cwd = true → policy_wf p → no_links env →
  is_dir env (lit "/tmp") = true → kind p = Restricted →
  needs_direct_runtime_enforcement env p n cwd = false →
  ∃ lp, to_legacy_sandbox_policy env p n cwd = Ok lp ∧
    let q := legacy_runtime_file_system_policy_for_cwd env lp cwd in
    (∀ path, normalized_abs path →
       has_full_disk_write_access q = true ∨
       (∃ wr, wr ∈ get_writable_roots_with_cwd env q cwd ∧ is_path_writable wr path = true) →
       resolve_access_with_cwd env p path cwd = AccessWrite) ∧
    (∀ e, denies env cwd p e →
       ∃ r, r ∈ get_unreadable_roots_with_cwd env q cwd ∧ components r = components (resolved_path e)) ∧
    (∀ wr name, wr ∈ get_writable_roots_with_cwd env p cwd → name ∈ protected_metadata_names wr →
       ∃ lr sub, lr ∈ legacy_writable_roots_with_cwd env lp cwd ∧
         components (root lr) = components (root wr) ∧ sub ∈ read_only_subpaths lr ∧
         components sub = components (join_path env (root wr) name)).
Proof.
  intros He Hc Hwf Hl Htmp Hk. unfold needs_direct_runtime_enforcement, is_restricted. rewrite Hk. simpl.
  destruct (to_legacy_sandbox_policy env p n cwd) as [lp| |]; [|done..].
  destruct (protected_metadata_names_need_direct_runtime_enforcement env p lp cwd) eqn:Hmeta; [done|].
  intros Hsig%negb_false_iff%signature_eqb_spec. exists lp. split; [done|].
  set (q := legacy_runtime_file_system_policy_for_cwd env lp cwd) in *.
  destruct Hsig as (Hw & Hr & Hu). simpl in Hw, Hr, Hu. repeat split.
  - intros path Hpath [Hf|(wr & Hwr & Hok)].
    + rewrite <-Hw in Hf. by apply full_disk_write_access.
    + destruct (map_eq_elem writable_root_key _ _ (sort_writable_root wr) (eq_sym Hr)) as (x & Hx & E).
      { apply sorted_roots_elem. by exists wr. }
      apply sorted_roots_elem in Hx as (wr' & Hwr' & ->).
      eapply (writable_roots_granted env cwd p He Hc Hwf (effective_id env Hl) wr'); [done..|].
      by eapply writable_key.
  - intros e Hd. assert (Hin : resolved_path e ∈ get_unreadable_roots_with_cwd env p cwd).
    { apply unreadable_roots_spec; [done..|]. by exists e. }
    apply sort_paths_elem in Hin. destruct (map_eq_elem components _ _ _ Hu Hin) as (r & Hin' & E).
    exists r. split; [by apply sort_paths_elem|done].
  - intros wr name Hwr Hn. apply not_true_iff_false in Hmeta.
    unfold protected_metadata_names_need_direct_runtime_enforcement in Hmeta.
    rewrite existsb_elem in Hmeta.
    destruct (List.find (λ candidate, path_eqb (root candidate) (root wr))
                (legacy_writable_roots_with_cwd env lp cwd)) as [lr|] eqn:Ef.
    2:{ destruct Hmeta. exists wr. split; [done|]. rewrite Ef. apply negb_true_iff, bool_decide_eq_false.
        intros E. rewrite E in Hn. by apply elem_of_nil in Hn. }
    apply find_some in Ef as Hlr. destruct Hlr as [Hlr%list_elem_of_In Heq%path_eqb_spec].
    destruct (existsb (λ subpath, path_eqb subpath (join_path env (root wr) name)) (read_only_subpaths lr)) eqn:Es.
    + apply existsb_elem in Es as (sub & Hsub & Heq'%path_eqb_spec). by exists lr, sub.
    + destruct Hmeta. exists wr. split; [done|]. rewrite Ef. apply existsb_elem. exists name.
      split; [done|]. by rewrite Es.
Qed.

(** Every metadata directory of the workspace exists. *)
Definition full_env : Env :=
  mkEnv None (Ok (lit "/work")) None (λ _, true) (λ _, false) (λ _, true) (λ _, None) (λ _, None) (λ _, None).
Definition workspace_entries : FileSystemSandboxPolicy :=
  restricted [mkEntry (Special Root) AccessRead; mkEntry (Special (ProjectRoots None)) AccessWrite].

Lemma full_env_no_links : no_links full_env.
Proof.
  split; [|done]. intros q _. unfold normalize_effective_absolute_path.
  assert (E : ∀ l, omap (effective_ancestor full_env q) l = []) by (by induction l).
  by rewrite E.
Qed.

Lemma legacy_enforcement_sound_witness :
  to_legacy_sandbox_policy full_env workspace_entries NetworkEnabled (lit "/work") =
    Ok (WorkspaceWrite [] true true true) ∧
  resolve_access_with_cwd full_env workspace_entries (lit "/work/src") (lit "/work") = AccessWrite.
Proof.
  destruct (legacy_enforcement_sound full_env workspace_entries NetworkEnabled (lit "/work"))
    as (lp & Hlp & H & _).
  - exists (lit "/work"). split; reflexivity.
  - reflexivity.
  - repeat constructor.
  - apply full_env_no_links.
  - reflexivity.
  - reflexivity.
  - vm_compute. reflexivity.
  - vm_compute in Hlp. injection Hlp as <-. split; [vm_compute; reflexivity|]. apply H.
    + exists [lit "work"; lit "src"]. split; [by_compute|reflexivity].
    + right. exists (writable_root_of full_env (legacy_runtime_file_system_policy_for_cwd full_env
        (WorkspaceWrite [] true true true) (lit "/work")) (lit "/work") (lit "/work")).
      split; [vm_compute; left|vm_compute; reflexivity].
Defined.

(** The order of the entries matters after all: when a metadata directory of a
    writable root is itself a writable root, the metadata check looks at the
    first of the two that the path lies in, so that the same entries in
    another order let another set of paths be written, and the two policies do
    not count as equivalent. *)
Theorem entry_order_changes_access :
  let a := mkEntry (Path (lit "/work")) AccessWrite in
  let b := mkEntry (Path (lit "/work/.git")) AccessWrite in
  can_write_path_with_cwd full_env (restricted [a; b]) (lit "/work/.git/.codex/x") (lit "/work") = true ∧
  can_write_path_with_cwd full_env (restricted [b; a]) (lit "/work/.git/.codex/x") (lit "/work") = false ∧
  is_semantically_equivalent_to full_env (restricted [a; b]) (restricted [b; a]) (lit "/work") = false.
Proof. vm_compute. done. Qed.
