(* ===== verification/PermissionProfile.v ===== *)
(** * Permission profiles and conversions: [protocol/src/models.rs]

    A [PermissionProfile] says who enforces the sandbox and with which policy;
    it is converted from and to the runtime policies and the older
    [SandboxPolicy].  The theorems are round trips: nothing is lost on the way,
    except for what a conversion documents as redundant. *)
From S2P Require Import Prelude RustStr AbsolutePath FileSystem Ordering Paths Permissions SandboxRoots PermissionsProofs.

Inductive SandboxPermissions := UseDefault | RequireEscalated | WithAdditionalPermissions.

Definition requires_escalated_permissions (s : SandboxPermissions) : bool :=
  match s with RequireEscalated => true | _ => false end.
Definition requests_sandbox_override (s : SandboxPermissions) : bool :=
  match s with UseDefault => false | _ => true end.
Definition uses_additional_permissions (s : SandboxPermissions) : bool :=
  match s with WithAdditionalPermissions => true | _ => false end.

Inductive SandboxEnforcement := EnforceManaged | EnforceDisabled | EnforceExternal.
#[global] Instance SandboxEnforcement_eq_dec : EqDecision SandboxEnforcement.
Proof. solve_decision. Defined.

Definition enforcement_of_sandbox_policy (p : SandboxPolicy) : SandboxEnforcement :=
  match p with
  | DangerFullAccess => EnforceDisabled
  | ExternalSandbox _ => EnforceExternal
  | ReadOnly _ | WorkspaceWrite _ _ _ _ => EnforceManaged
  end.

(** A [NonZeroUsize] is a [positive]. *)
Definition nonzero_new (n : nat) : option positive :=
  match n with 0 => None | S k => Some (Pos.of_succ_nat k) end.

Inductive ManagedFileSystemPermissions :=
| ManagedRestricted (entries : list FileSystemSandboxEntry) (glob_scan_max_depth : option positive)
| ManagedUnrestricted.

(** The [unreachable!] of the source is [ExpectFailed]. *)
Definition managed_from_sandbox_policy (p : FileSystemSandboxPolicy)
    : Total ManagedFileSystemPermissions :=
  match kind p with
  | Restricted => Ok (ManagedRestricted (entries p) (glob_scan_max_depth p ≫= nonzero_new))
  | Unrestricted => Ok ManagedUnrestricted
  | ExternalSandboxKind => Panic ExpectFailed
  end.

Definition managed_to_sandbox_policy (m : ManagedFileSystemPermissions) : FileSystemSandboxPolicy :=
  match m with
  | ManagedRestricted es depth => mkPolicy Restricted (Pos.to_nat <$> depth) es
  | ManagedUnrestricted => unrestricted
  end.

Inductive PermissionProfile :=
| Managed (file_system : ManagedFileSystemPermissions) (network : NetworkSandboxPolicy)
| Disabled
| External (network : NetworkSandboxPolicy).

Definition from_runtime_permissions_with_enforcement (enforcement : SandboxEnforcement)
    (p : FileSystemSandboxPolicy) (network : NetworkSandboxPolicy) : Total PermissionProfile :=
  let managed := (m ← managed_from_sandbox_policy p; Ok (Managed m network)) in
  match kind p with
  | ExternalSandboxKind => Ok (External network)
  | Unrestricted => if decide (enforcement = EnforceDisabled) then Ok Disabled else managed
  | Restricted => managed
  end.

Definition from_runtime_permissions (p : FileSystemSandboxPolicy) (network : NetworkSandboxPolicy)
    : Total PermissionProfile :=
  from_runtime_permissions_with_enforcement
    (match kind p with
     | Restricted | Unrestricted => EnforceManaged
     | ExternalSandboxKind => EnforceExternal
     end) p network.

Definition enforcement (p : PermissionProfile) : SandboxEnforcement :=
  match p with
  | Managed _ _ => EnforceManaged
  | Disabled => EnforceDisabled
  | External _ => EnforceExternal
  end.

Definition file_system_sandbox_policy (p : PermissionProfile) : FileSystemSandboxPolicy :=
  match p with
  | Managed file_system _ => managed_to_sandbox_policy file_system
  | Disabled => unrestricted
  | External _ => external_sandbox
  end.

Definition network_sandbox_policy (p : PermissionProfile) : NetworkSandboxPolicy :=
  match p with
  | Managed _ network | External network => network
  | Disabled => NetworkEnabled
  end.

Definition to_runtime_permissions (p : PermissionProfile)
    : FileSystemSandboxPolicy * NetworkSandboxPolicy :=
  (file_system_sandbox_policy p, network_sandbox_policy p).

Section env.
Context (env : Env).

Definition profile_from_legacy_sandbox_policy_for_cwd (p : SandboxPolicy) (cwd : str)
    : Total PermissionProfile :=
  from_runtime_permissions_with_enforcement (enforcement_of_sandbox_policy p)
    (from_legacy_sandbox_policy_for_cwd env p cwd) (network_of_sandbox_policy p).

Definition profile_from_legacy_sandbox_policy (p : SandboxPolicy) : Total PermissionProfile :=
  from_runtime_permissions_with_enforcement (enforcement_of_sandbox_policy p)
    (of_sandbox_policy env p) (network_of_sandbox_policy p).

Definition profile_to_legacy_sandbox_policy (p : PermissionProfile) (cwd : str)
    : Res str SandboxPolicy :=
  match p with
  | Managed file_system network =>
      to_legacy_sandbox_policy env (managed_to_sandbox_policy file_system) network cwd
  | Disabled => Ok DangerFullAccess
  | External network => Ok (ExternalSandbox (network_access_of network))
  end.
End env.

(** ** [FileSystemPermissions], with its older form of two lists of roots *)

Record FileSystemPermissions := mkPermissions {
  perm_entries : list FileSystemSandboxEntry;
  perm_glob_scan_max_depth : option positive
}.

Definition from_read_write_roots (read write : option (list str)) : FileSystemPermissions :=
  mkPermissions
    (map (λ path, mkEntry (Path path) AccessRead) (default [] read) ++
     map (λ path, mkEntry (Path path) AccessWrite) (default [] write)) None.

(** The loop of [as_legacy_permissions]. *)
Fixpoint legacy_loop (es : list FileSystemSandboxEntry) (read write : list str)
    : option (list str * list str) :=
  match es with
  | [] => Some (read, write)
  | e :: es =>
      match entry_path e, entry_access e with
      | Path path, AccessRead => legacy_loop es (read ++ [path]) write
      | Path path, AccessWrite => legacy_loop es read (write ++ [path])
      | _, _ => None
      end
  end.

Definition non_empty_roots (l : list str) : option (list str) :=
  match l with [] => None | _ => Some l end.

Definition as_legacy_permissions (p : FileSystemPermissions)
    : option (option (list str) * option (list str)) :=
  match perm_glob_scan_max_depth p with
  | Some _ => None
  | None =>
      '(read, write) ← legacy_loop (perm_entries p) [] [];
      Some (non_empty_roots read, non_empty_roots write)
  end.

Definition policy_of_permissions (p : FileSystemPermissions) : FileSystemSandboxPolicy :=
  mkPolicy Restricted (Pos.to_nat <$> perm_glob_scan_max_depth p) (perm_entries p).

(** ** Round trips *)

(** A profile survives the conversion to runtime policies and back, with its
    enforcement; the conversion never meets its [unreachable!]. *)
Theorem profile_runtime_roundtrip (p : PermissionProfile) :
  let (fs, network) := to_runtime_permissions p in
  from_runtime_permissions_with_enforcement (enforcement p) fs network = Ok p.
Proof.
  destruct p as [[es depth|] network| |network]; simpl; try done.
  unfold from_runtime_permissions_with_enforcement, managed_from_sandbox_policy. simpl.
  destruct depth as [n|]; [|done]. simpl.
  assert (E : nonzero_new (Pos.to_nat n) = Some n).
  { destruct (Pos2Nat.is_succ n) as [k Hk]. rewrite Hk. simpl. f_equal.
    apply SuccNat2Pos.inv. by rewrite Hk. }
  by rewrite E.
Qed.

(** The roots that a legacy policy lists beyond its workspace. *)
Definition without_redundant_roots (env : Env) (p : SandboxPolicy) (cwd : str) : SandboxPolicy :=
  match p with
  | WorkspaceWrite roots network tmpdir slash_tmp =>
      WorkspaceWrite
        (dedup_paths [] (List.filter (λ r, negb match absolute env cwd with
                                                | Some cwd => path_eqb cwd r
                                                | None => false
                                                end) roots)) network tmpdir slash_tmp
  | _ => p
  end.

Section legacy.
Context (env : Env) (cwd : str).

(** Read entries leave no trace in the scan. *)
Lemma scan_read s e : entry_access e = AccessRead → scan_entry env (absolute env cwd) s e = s.
Proof.
  intros Ha. unfold scan_entry. destruct s. rewrite Ha. simpl.
  destruct (entry_path e) as [| |[| |[]| | |]]; try done; by case_match.
Qed.

Lemma scan_reads s es :
  Forall (λ e, entry_access e = AccessRead) es → foldl (scan_entry env (absolute env cwd)) s es = s.
Proof. induction 1 as [|e es He _ IH]; simpl; [done|]. by rewrite scan_read. Qed.

(** The appending functions append read entries. *)
Definition read_extension (es es' : list FileSystemSandboxEntry) : Prop :=
  ∃ k, es' = es ++ k ∧ Forall (λ e, entry_access e = AccessRead) k.

#[local] Instance read_extension_preorder : PreOrder read_extension.
Proof.
  split.
  - intros es. exists []. by rewrite app_nil_r.
  - intros a b c (k & -> & Hk) (k' & -> & Hk'). exists (k ++ k'). rewrite <-app_assoc.
    split; [done|]. by apply Forall_app.
Qed.

Lemma append_entry_extends es path :
  read_extension es (append_default_read_only_entry_if_no_explicit_rule es path).
Proof.
  unfold append_default_read_only_entry_if_no_explicit_rule. destruct (existsb _ es); [done|].
  eexists; split; [done|]. by apply Forall_singleton.
Qed.

Lemma foldl_extends {A} (f : list FileSystemSandboxEntry → A → list FileSystemSandboxEntry) l es :
  (∀ es a, read_extension es (f es a)) → read_extension es (foldl f es l).
Proof.
  intros Hf. revert es. induction l as [|a l IH]; intros es; simpl; [done|]. by etrans; [|apply IH].
Qed.

Lemma append_subpaths_extends es root b : read_extension es (append_default_subpaths env es root b).
Proof. apply foldl_extends. intros. apply append_entry_extends. Qed.

Definition workspace_base (roots : list str) (no_tmpdir no_slash_tmp : bool) :=
  [mkEntry (Special Root) AccessRead; mkEntry (Special (ProjectRoots None)) AccessWrite]
  ++ (if no_slash_tmp then [] else [mkEntry (Special SlashTmp) AccessWrite])
  ++ (if no_tmpdir then [] else [mkEntry (Special Tmpdir) AccessWrite])
  ++ map (λ path, mkEntry (Path path) AccessWrite) roots.

Lemma workspace_write_extends roots a b :
  read_extension (workspace_base roots a b) (entries (workspace_write env roots a b)).
Proof.
  unfold workspace_write. cbn [entries restricted].
  etrans; [|apply foldl_extends; intros; apply append_subpaths_extends].
  apply (foldl_extends append_default_read_only_project_root_subpath_if_no_explicit_rule).
  intros. apply append_entry_extends.
Qed.

Lemma from_legacy_extends roots network a b :
  read_extension (workspace_base roots a b)
    (entries (from_legacy_sandbox_policy_for_cwd env (WorkspaceWrite roots network a b) cwd)).
Proof.
  unfold from_legacy_sandbox_policy_for_cwd. cbn [of_sandbox_policy entries with_entries].
  etrans; [|apply foldl_extends; intros; apply append_subpaths_extends].
  destruct (absolute env cwd); [|apply workspace_write_extends].
  etrans; [apply workspace_write_extends|]. apply append_subpaths_extends.
Qed.

Lemma base_no_root_write roots a b k :
  Forall (λ e, entry_access e = AccessRead) k →
  has_root_access can_write (restricted (workspace_base roots a b ++ k)) = false.
Proof.
  intros Hk. apply not_true_iff_false. intros (_ & e & He & Hp & Hw)%has_root_access_elem.
  cbn [entries restricted] in He. apply elem_of_app in He as [He|He]; cycle 1.
  - assert (Ha : entry_access e = AccessRead) by (by apply (proj1 (Forall_forall _ _) Hk)).
    by rewrite Ha in Hw.
  - unfold workspace_base in He.
    repeat (apply elem_of_app in He as [He|He]); repeat case_match; subst; set_solver.
Qed.

Lemma scan_roots roots : ∀ ws acc t st u,
  foldl (scan_entry env (absolute env cwd)) (mkScan ws acc t st u)
    (map (λ path, mkEntry (Path path) AccessWrite) roots) =
  mkScan (ws || existsb (λ r, match absolute env cwd with Some c => path_eqb c r | None => false end) roots)
    (acc ++ List.filter (λ r, negb match absolute env cwd with Some c => path_eqb c r | None => false end) roots)
    t st u.
Proof.
  induction roots as [|r roots IH]; intros ws acc t st u; simpl.
  - by rewrite orb_false_r, app_nil_r.
  - destruct (match absolute env cwd with Some c => path_eqb c r | None => false end); simpl.
    + rewrite IH. by rewrite !orb_true_r.
    + rewrite IH, <-app_assoc. done.
Qed.

Lemma scan_base roots a b :
  scan_entries env cwd (workspace_base roots a b) =
  mkScan true (List.filter (λ r, negb match absolute env cwd with Some c => path_eqb c r | None => false end) roots)
    (negb a) (negb b) false.
Proof.
  unfold scan_entries, workspace_base. rewrite !foldl_app. simpl.
  destruct a, b; simpl; rewrite scan_roots; done.
Qed.

Lemma to_legacy_workspace roots n a b es :
  read_extension (workspace_base roots a b) es →
  to_legacy_sandbox_policy env (restricted es) n cwd =
  Ok (WorkspaceWrite
        (dedup_paths [] (List.filter (λ r, negb match absolute env cwd with
                                                | Some c => path_eqb c r
                                                | None => false end) roots))
        (net_is_enabled n) a b).
Proof.
  intros (k & -> & Hk). unfold to_legacy_sandbox_policy. cbn [kind restricted].
  unfold has_full_disk_write_access. cbn [kind restricted]. rewrite base_no_root_write by done.
  cbn [andb entries restricted]. unfold scan_entries. rewrite foldl_app.
  fold (scan_entries env cwd (workspace_base roots a b)). rewrite scan_base, scan_reads by done.
  simpl. unfold dedup_absolute_paths. rewrite List.map_id. by rewrite !negb_involutive.
Qed.

Lemma network_roundtrip p :
  net_is_enabled (network_of_sandbox_policy p) = has_full_network_access p.
Proof. unfold network_of_sandbox_policy. by destruct (has_full_network_access p). Qed.
End legacy.

(** A legacy sandbox policy survives its conversion to file-system entries (with
    or without the defaults of the current directory) and back: the same
    policy returns, up to roots it lists twice or that are the workspace
    itself. *)
Theorem legacy_policy_roundtrip env p cwd :
  to_legacy_sandbox_policy env (of_sandbox_policy env p) (network_of_sandbox_policy p) cwd =
    Ok (without_redundant_roots env p cwd) ∧
  to_legacy_sandbox_policy env (from_legacy_sandbox_policy_for_cwd env p cwd)
    (network_of_sandbox_policy p) cwd = Ok (without_redundant_roots env p cwd).
Proof.
  destruct p as [|n|[]|roots n a b]; [split; reflexivity|destruct n; split; reflexivity|
    split; reflexivity|split; reflexivity|].
  assert (H1 := workspace_write_extends env roots a b).
  assert (H2 := from_legacy_extends env cwd roots n a b).
  pose proof (network_roundtrip (WorkspaceWrite roots n a b)) as En. simpl has_full_network_access in En.
  split.
  - change (of_sandbox_policy env (WorkspaceWrite roots n a b)) with
      (restricted (entries (workspace_write env roots a b))).
    rewrite (to_legacy_workspace env cwd roots _ a b) by exact H1. by rewrite En.
  - change (from_legacy_sandbox_policy_for_cwd env (WorkspaceWrite roots n a b) cwd) with
        (restricted (entries (from_legacy_sandbox_policy_for_cwd env (WorkspaceWrite roots n a b) cwd))).
      rewrite (to_legacy_workspace env cwd roots _ a b) by exact H2. by rewrite En.
Qed.

(** ** Denials are kept *)

Lemma push_deny_extends existing : ∀ es,
  es ⊆ push_deny_entries existing es ∧
  ∀ e, e ∈ existing → entry_access e = AccessNone →
       ∃ e', e' ∈ push_deny_entries existing es ∧ entry_eqb e' e = true.
Proof.
  unfold push_deny_entries.
  assert (Hrefl : ∀ e, entry_eqb e e = true).
  { intros [[]a]; unfold entry_eqb; apply andb_true_iff; (split; [simpl|by apply bool_decide_eq_true]).
    - by apply path_eqb_spec.
    - by apply bool_decide_eq_true.
    - destruct value as [| |[]| | |? []]; simpl; try done; rewrite ?bool_decide_true by done; simpl;
        by try apply path_eqb_spec. }
  induction existing as [|d existing IH]; intros es; simpl.
  - split; [done|]. intros e He. by apply elem_of_nil in He.
  - case_bool_decide as Hd; simpl.
    + set (es1 := if existsb _ es then es else es ++ [d]).
      destruct (IH es1) as [Hsub Hall].
      assert (Hd1 : es ⊆ es1 ∧ ∃ e', e' ∈ es1 ∧ entry_eqb e' d = true).
      { unfold es1. destruct (existsb _ es) eqn:E.
        - apply existsb_elem in E as (e' & He' & E). split; [done|by exists e'].
        - split; [set_solver|]. exists d. split; [set_solver|apply Hrefl]. }
      destruct Hd1 as [Hs1 (e' & He' & Ee')]. split; [set_solver|].
      intros e [->|He]%elem_of_cons Ha; [exists e'; set_solver|by apply Hall].
    + destruct (IH es) as [Hsub Hall]. split; [done|].
      intros e [->|He]%elem_of_cons Ha; [done|by apply Hall].
Qed.

(** An entry that denies exactly a path decides for it. *)
Lemma exact_deny_wins env p cwd q e :
  kind p = Restricted → normalized_abs q → e ∈ entries p →
  entry_eqb e (mkEntry (Path q) AccessNone) = true →
  resolve_access_with_cwd env p q cwd = AccessNone.
Proof.
  intros Hk Hq He Heq. apply andb_true_iff in Heq as [Hp Ha]. apply bool_decide_eq_true in Ha.
  simpl in Ha, Hp. destruct (entry_path e) as [q'| |] eqn:Ep; try done. apply path_eqb_spec in Hp.
  assert (Hcov : covers env p cwd q (mkResolved q' AccessNone)).
  { split; [|apply path_starts_with_spec; simpl; by rewrite Hp].
    apply elem_of_resolved. exists e. rewrite Ep, Ha. done. }
  apply (deciding_entry_unique env p q cwd q (mkResolved q' AccessNone)); [done| |done|].
  { by apply resolve_candidate_id. }
  intros e' [He' Hqe']. split; simpl.
  - by rewrite path_starts_with_spec, Hp, <-path_starts_with_spec.
  - intros _. destruct (resolved_access e'); simpl; lia.
Qed.

(** Denials survive when the allow side of a policy is replaced: after
    [preserve_deny_read_restrictions_from], a path that the old policy denies
    by name is denied, also when the new policy was unrestricted; nothing of a
    restricted new policy is dropped.  The same holds when a policy is rebuilt
    from a legacy one. *)
Theorem denials_preserved env existing self sp cwd q :
  normalized_abs q → mkEntry (Path q) AccessNone ∈ entries existing →
  let p := preserve_deny_read_restrictions_from existing self in
  let r := from_legacy_sandbox_policy_preserving_deny_entries env sp cwd existing in
  (kind self ≠ ExternalSandboxKind → resolve_access_with_cwd env p q cwd = AccessNone) ∧
  (kind self = Restricted → entries self ⊆ entries p) ∧
  (kind r = Restricted → resolve_access_with_cwd env r q cwd = AccessNone).
Proof.
  intros Hq Hin p r.
  assert (Hany : existsb (λ e, bool_decide (entry_access e = AccessNone)) (entries existing) = true).
  { apply existsb_elem. by exists (mkEntry (Path q) AccessNone). }
  assert (Hdeny : ∀ es depth, resolve_access_with_cwd env
            (mkPolicy Restricted depth (push_deny_entries (entries existing) es)) q cwd = AccessNone).
  { intros es depth. destruct (push_deny_extends (entries existing) es) as [_ Hall].
    destruct (Hall _ Hin eq_refl) as (e' & He' & Ee'). by eapply exact_deny_wins. }
  split; [|split].
  - intros Hk. unfold p, preserve_deny_read_restrictions_from. rewrite Hany.
    destruct self as [[] d es]; simpl in Hk |- *; try done; apply Hdeny.
  - intros Hk. unfold p, preserve_deny_read_restrictions_from.
    destruct self as [[] d es]; simpl in Hk |- *; try done. apply push_deny_extends.
  - unfold r, from_legacy_sandbox_policy_preserving_deny_entries.
    destruct (is_restricted (from_legacy_sandbox_policy_for_cwd env sp cwd)) eqn:E.
    + simpl. intros Hk. rewrite Hk. apply Hdeny.
    + unfold is_restricted in E. intros Hk. by rewrite Hk in E.
Qed.

Lemma denials_preserved_witness :
  resolve_access_with_cwd demo_env
    (preserve_deny_read_restrictions_from carved_policy unrestricted)
    (lit "/work/private") (lit "/work") = AccessNone.
Proof.
  refine (proj1 (denials_preserved demo_env carved_policy unrestricted DangerFullAccess
    (lit "/work") (lit "/work/private") _ _) _).
  - exists [lit "work"; lit "private"]. split; [by_compute|reflexivity].
  - right. right. left.
  - discriminate.
Defined.

(** ** The older form of permissions *)

Lemma covers_perm env p p' cwd target e :
  entries p ≡ₚ entries p' → covers env p cwd target e → covers env p' cwd target e.
Proof.
  intros Hp [He Ht]. split; [|done]. apply elem_of_resolved in He as (e0 & He0 & H).
  apply elem_of_resolved. exists e0. split; [by rewrite <-Hp|done].
Qed.

(** The order of the entries does not matter. *)
Lemma access_perm env p p' path cwd :
  kind p = kind p' → entries p ≡ₚ entries p' →
  resolve_access_with_cwd env p path cwd = resolve_access_with_cwd env p' path cwd.
Proof.
  intros Hk Hp. destruct (kind p) eqn:Ek; [|unfold resolve_access_with_cwd; by rewrite Ek, <-Hk..].
  destruct (resolve_candidate_path env path cwd) as [t|] eqn:Et;
    [|unfold resolve_access_with_cwd; by rewrite Ek, <-Hk, Et].
  destruct (covers_dec env p cwd t) as [Hex|Hno].
  - destruct (deciding_entry env p path cwd t) as (m & Hm & -> & Hmax); [done..|].
    symmetry. apply (deciding_entry_unique env p' path cwd t); [done|done| |].
    + by eapply covers_perm.
    + intros e' He'. apply Hmax. by eapply covers_perm.
  - rewrite (no_entry_none env p path cwd t) by done. symmetry.
    apply (no_entry_none env p' path cwd t); [done|done|]. intros e He. apply (Hno e).
    by eapply covers_perm.
Qed.

Definition reads_and_writes (r w : list str) : list FileSystemSandboxEntry :=
  map (λ path, mkEntry (Path path) AccessRead) r ++ map (λ path, mkEntry (Path path) AccessWrite) w.

Lemma legacy_loop_perm es : ∀ r w r' w',
  legacy_loop es r w = Some (r', w') → reads_and_writes r' w' ≡ₚ reads_and_writes r w ++ es.
Proof.
  induction es as [|[ep ea] es IH]; intros r w r' w'; simpl.
  - intros [= <- <-]. by rewrite app_nil_r.
  - destruct ep as [path| |]; try done. destruct ea; try done; intros H%IH; rewrite H;
      unfold reads_and_writes; rewrite map_app; simpl; rewrite <-!app_assoc; simpl; solve_Permutation.
Qed.

Lemma non_empty_default l : default [] (non_empty_roots l) = l.
Proof. by destruct l. Qed.

(** Writing permissions in the older form of two lists and reading them back
    may reorder the entries, but never changes the access of any path. *)
Theorem legacy_form_keeps_access env p read write path cwd :
  as_legacy_permissions p = Some (read, write) →
  resolve_access_with_cwd env (policy_of_permissions (from_read_write_roots read write)) path cwd =
  resolve_access_with_cwd env (policy_of_permissions p) path cwd.
Proof.
  unfold as_legacy_permissions. destruct (perm_glob_scan_max_depth p); [done|].
  intros ([r w] & Hl & [= <- <-])%bind_Some. apply access_perm; [done|]. simpl.
  rewrite !non_empty_default. apply legacy_loop_perm in Hl. exact Hl.
Qed.

Lemma legacy_form_keeps_access_witness :
  let p := mkPermissions [mkEntry (Path (lit "/a")) AccessWrite; mkEntry (Path (lit "/b")) AccessRead] None in
  resolve_access_with_cwd demo_env
    (policy_of_permissions (from_read_write_roots (Some [lit "/b"]) (Some [lit "/a"]))) (lit "/a/x") (lit "/w") =
  resolve_access_with_cwd demo_env (policy_of_permissions p) (lit "/a/x") (lit "/w").
Proof.
  apply (legacy_form_keeps_access demo_env
    (mkPermissions [mkEntry (Path (lit "/a")) AccessWrite; mkEntry (Path (lit "/b")) AccessRead] None)).
  reflexivity.
Defined.
