(* ===== verification/PolicyTransforms.v ===== *)
(** * Additional permissions: [sandboxing/src/policy_transforms.rs]

    A command may ask for permissions beyond those of its profile.  Requests
    are normalised, merged with what was granted before, intersected with what
    a reviewer grants, and put on top of the profile for one command. *)
From S2P Require Import Prelude RustStr AbsolutePath FileSystem Ordering Paths Permissions SandboxRoots PermissionsProofs RuntimeEnforcement PermissionProfile.

Record NetworkPermissions := mkNetworkPermissions { enabled : option bool }.
Record AdditionalPermissionProfile := mkAdditional {
  add_network : option NetworkPermissions;
  add_file_system : option FileSystemPermissions
}.
Inductive GlobScanDepth := Bounded (depth : nat) | Unbounded.

Definition network_is_empty (n : NetworkPermissions) : bool :=
  match enabled n with Some _ => false | None => true end.
Definition permissions_is_empty (p : FileSystemPermissions) : bool :=
  match perm_entries p with [] => true | _ => false end.
Definition additional_is_empty (p : AdditionalPermissionProfile) : bool :=
  match add_network p, add_file_system p with None, None => true | _, _ => false end.

(** [Option::filter] *)
Definition option_filter {A} (f : A → bool) (o : option A) : option A :=
  a ← o; if f a then Some a else None.

(** [if !entries.contains(&entry) { entries.push(entry) }] *)
Definition push_new_entry (es : list FileSystemSandboxEntry) (e : FileSystemSandboxEntry)
    : list FileSystemSandboxEntry :=
  if existsb (entry_eqb e) es then es else es ++ [e].

Definition is_glob (p : FileSystemPath) : bool := match p with GlobPattern _ => true | _ => false end.

(** ** Depth of glob scans *)

Definition effective_glob_scan_depth (es : list FileSystemSandboxEntry) (depth : option nat)
    : option GlobScanDepth :=
  if existsb (λ e, bool_decide (entry_access e = AccessNone) && is_glob (entry_path e)) es
  then Some (match depth with Some depth => Bounded depth | None => Unbounded end)
  else None.

Definition merge_glob_scan_max_depth (left_entries : list FileSystemSandboxEntry) (left_depth : option nat)
    (right_entries : list FileSystemSandboxEntry) (right_depth : option nat) : option nat :=
  match effective_glob_scan_depth left_entries left_depth,
        effective_glob_scan_depth right_entries right_depth with
  | Some Unbounded, _ | _, Some Unbounded => None
  | Some (Bounded l), Some (Bounded r) => Some (l `max` r)
  | Some (Bounded depth), None | None, Some (Bounded depth) => Some depth
  | None, None => None
  end.

Definition depth_of (p : FileSystemPermissions) : option nat := Pos.to_nat <$> perm_glob_scan_max_depth p.

(** ** Merging *)

Definition merge_permission_entries (base permissions : list FileSystemSandboxEntry)
    : list FileSystemSandboxEntry := foldl push_new_entry [] (base ++ permissions).

Definition is_enabled_network (n : option NetworkPermissions) : bool :=
  match n with Some n => bool_decide (enabled n = Some true) | None => false end.

Definition merge_permission_profiles (base permissions : option AdditionalPermissionProfile)
    : option AdditionalPermissionProfile :=
  match permissions with
  | None => base
  | Some permissions =>
      option_filter (λ p, negb (additional_is_empty p))
        (Some (match base with
         | None => permissions
         | Some base =>
             mkAdditional
               (if is_enabled_network (add_network base) || is_enabled_network (add_network permissions)
                then Some (mkNetworkPermissions (Some true)) else None)
               (match add_file_system base, add_file_system permissions with
                | Some base, Some permissions =>
                    option_filter (λ p, negb (permissions_is_empty p))
                      (Some (mkPermissions
                        (merge_permission_entries (perm_entries base) (perm_entries permissions))
                        (merge_glob_scan_max_depth (perm_entries base) (depth_of base)
                           (perm_entries permissions) (depth_of permissions) ≫= nonzero_new)))
                | Some base, None => Some base
                | None, Some permissions => Some permissions
                | None, None => None
                end)
         end))
  end.

(** ** The effective profile of a command *)

Definition merge_file_system_policy_with_additional_permissions (p : FileSystemSandboxPolicy)
    (additional : FileSystemPermissions) : FileSystemSandboxPolicy :=
  match kind p with
  | Restricted =>
      mkPolicy Restricted
        (merge_glob_scan_max_depth (entries p) (glob_scan_max_depth p) (perm_entries additional)
           (depth_of additional))
        (foldl push_new_entry (entries p) (perm_entries additional))
  | Unrestricted | ExternalSandboxKind => p
  end.

Definition effective_file_system_sandbox_policy (p : FileSystemSandboxPolicy)
    (additional : option AdditionalPermissionProfile) : FileSystemSandboxPolicy :=
  match additional ≫= add_file_system with
  | None => p
  | Some permissions =>
      if permissions_is_empty permissions then p
      else merge_file_system_policy_with_additional_permissions p permissions
  end.

Definition merge_network_access (base : bool) (additional : AdditionalPermissionProfile) : bool :=
  base || default false (add_network additional ≫= enabled).

Definition effective_network_sandbox_policy (n : NetworkSandboxPolicy)
    (additional : option AdditionalPermissionProfile) : NetworkSandboxPolicy :=
  match additional with
  | Some permissions =>
      if merge_network_access (net_is_enabled n) permissions then NetworkEnabled else NetworkRestricted
  | None => n
  end.

Definition effective_permission_profile (p : PermissionProfile)
    (additional : option AdditionalPermissionProfile) : Total PermissionProfile :=
  let (file_system, network) := to_runtime_permissions p in
  from_runtime_permissions_with_enforcement (enforcement p)
    (effective_file_system_sandbox_policy file_system additional)
    (effective_network_sandbox_policy network additional).

Definition should_require_platform_sandbox (p : FileSystemSandboxPolicy) (n : NetworkSandboxPolicy)
    (has_managed_network_requirements : bool) : bool :=
  if has_managed_network_requirements then true
  else if negb (net_is_enabled n) then
    match kind p with ExternalSandboxKind => false | _ => true end
  else match kind p with
       | Restricted => negb (has_full_disk_write_access p)
       | Unrestricted | ExternalSandboxKind => false
       end.

Definition access_covers (requested granted : FileSystemAccessMode) : bool :=
  match granted with
  | AccessRead => can_read requested
  | AccessWrite => can_write requested
  | AccessNone => false
  end.

Definition paths_overlap (l r : str) : bool := path_starts_with l r || path_starts_with r l.

Section env.
Context (env : Env).

(** ** Normalising a request *)

Definition normalize_entry (e : FileSystemSandboxEntry) : Res str FileSystemSandboxEntry :=
  if is_glob (entry_path e) && negb (bool_decide (entry_access e = AccessNone))
  then Err (lit "glob file system permissions only support deny-read entries")
  else Ok (mkEntry
    (match entry_path e with
     | Path path => Path (default path (canonicalize_preserving_symlinks env path ≫= absolute env))
     | other => other
     end) (entry_access e)).

Fixpoint normalize_entries (es normalized : list FileSystemSandboxEntry)
    : Res str (list FileSystemSandboxEntry) :=
  match es with
  | [] => Ok normalized
  | e :: es => e ← normalize_entry e; normalize_entries es (push_new_entry normalized e)
  end.

Definition normalize_additional_permissions (p : AdditionalPermissionProfile)
    : Res str AdditionalPermissionProfile :=
  let network := option_filter (λ n, negb (network_is_empty n)) (add_network p) in
  file_system ← match add_file_system p with
                | Some file_system =>
                    es ← normalize_entries (perm_entries file_system) [];
                    let file_system := mkPermissions es (perm_glob_scan_max_depth file_system) in
                    Ok (if permissions_is_empty file_system then None else Some file_system)
                | None => Ok None
                end;
  Ok (mkAdditional network file_system).

(** ** Intersecting a request with a grant *)

Definition resolve_permission_path (path : FileSystemPath) (cwd : str) : option str :=
  match path with
  | Path path => Some path
  | GlobPattern _ => None
  | Special Root => last (ancestors cwd) ≫= absolute env
  | Special (ProjectRoots subpath) =>
      cwd ← absolute env cwd;
      Some (match subpath with
            | Some subpath => resolve_path_against_base (home_dir env) subpath cwd
            | None => cwd
            end)
  | Special Tmpdir =>
      tmpdir ← tmpdir_var env;
      if decide (tmpdir = []) then None else absolute env tmpdir
  | Special SlashTmp =>
      option_filter (is_dir env) (absolute env (lit "/tmp"))
  | Special Minimal | Special (Unknown _ _) => None
  end.

Definition materialize_cwd_dependent_entry (e : FileSystemSandboxEntry) (cwd : str)
    : FileSystemSandboxEntry :=
  match entry_path e with
  | Special (ProjectRoots _) =>
      match resolve_permission_path (entry_path e) cwd with
      | Some path => mkEntry (Path path) (entry_access e)
      | None => e
      end
  | GlobPattern pattern =>
      mkEntry (GlobPattern (resolve_path_against_base (home_dir env) pattern cwd)) (entry_access e)
  | _ => e
  end.

(** The characters that make a pattern: [*], [?] and brackets. *)
Definition glob_char (c : char) : bool := bool_decide (c ∈ [42; 63; 91; 93]%N).

(** The part of a text before the first pattern character. *)
Fixpoint before_glob (s : str) : option str :=
  match s with
  | [] => None
  | c :: s' => if glob_char c then Some [] else cons c <$> before_glob s'
  end.

Definition glob_static_prefix_path (pattern cwd : str) : option str :=
  let resolved_pattern := resolve_path_against_base (home_dir env) pattern cwd in
  prefix ← match before_glob resolved_pattern with
           | Some [] => None
           | Some prefix =>
               if ends_with [c_slash] prefix || ends_with [92%N] prefix then Some prefix
               else path_parent prefix
           | None => Some resolved_pattern
           end;
  absolute env prefix.

Definition deny_entry_constrains_accepted_grant (deny_entry : FileSystemSandboxEntry)
    (accepted : list FileSystemSandboxEntry) (cwd : str) : bool :=
  existsb (λ e, can_read (entry_access e) &&
    match resolve_permission_path (entry_path e) cwd with
    | None => false
    | Some grant_path =>
        match match entry_path deny_entry with
              | GlobPattern pattern => glob_static_prefix_path pattern cwd
              | other => resolve_permission_path other cwd
              end with
        | Some deny_path => paths_overlap deny_path grant_path
        | None => false
        end
    end) accepted.

(** The denials that are kept, and the output with them. *)
Definition retain_constraining_deny_entries (source accepted : list FileSystemSandboxEntry) (cwd : str)
    (output : list FileSystemSandboxEntry) : list FileSystemSandboxEntry * list FileSystemSandboxEntry :=
  let retained :=
    map (λ e, materialize_cwd_dependent_entry e cwd)
      (List.filter (λ e, bool_decide (entry_access e = AccessNone) &&
                         deny_entry_constrains_accepted_grant e accepted cwd) source) in
  (retained, foldl push_new_entry output retained).

Context (build_glob_matcher : str → option (str → bool)).

Definition granted_file_system_entry_within_request (requested : FileSystemPermissions)
    (requested_policy : FileSystemSandboxPolicy) (requested_read_deny_matcher : option ReadDenyMatcher)
    (granted_entry : FileSystemSandboxEntry) (cwd : str) : bool :=
  if negb (can_read (entry_access granted_entry)) then false
  else
    match resolve_permission_path (entry_path granted_entry) cwd with
    | Some path =>
        if match requested_read_deny_matcher with
           | Some matcher => is_read_denied env matcher path
           | None => false
           end
        then false
        else access_covers (resolve_access_with_cwd env requested_policy path cwd) (entry_access granted_entry)
    | None =>
        existsb (λ requested_entry,
          access_covers (entry_access requested_entry) (entry_access granted_entry) &&
          fs_path_eqb (entry_path requested_entry) (entry_path granted_entry)) (perm_entries requested)
    end.

Definition intersect_file_system (requested granted : FileSystemPermissions) (cwd : str)
    : FileSystemPermissions :=
  let requested_policy := restricted (perm_entries requested) in
  let requested_read_deny_matcher := new_matcher env build_glob_matcher requested_policy cwd in
  let accepted :=
    foldl push_new_entry []
      (map (λ e, materialize_cwd_dependent_entry e cwd)
         (List.filter (λ e, granted_file_system_entry_within_request requested requested_policy
                              requested_read_deny_matcher e cwd) (perm_entries granted))) in
  let (requested_denials, es) := retain_constraining_deny_entries (perm_entries requested) accepted cwd accepted in
  let (granted_denials, es) := retain_constraining_deny_entries (perm_entries granted) accepted cwd es in
  mkPermissions es
    (merge_glob_scan_max_depth requested_denials (depth_of requested) granted_denials (depth_of granted)
       ≫= nonzero_new).

Definition intersect_permission_profiles (requested granted : AdditionalPermissionProfile) (cwd : str)
    : AdditionalPermissionProfile :=
  mkAdditional
    (if is_enabled_network (add_network requested) && is_enabled_network (add_network granted)
     then Some (mkNetworkPermissions (Some true)) else None)
    (option_filter (λ p, negb (permissions_is_empty p))
       ((λ file_system, intersect_file_system file_system
           (default (mkPermissions [] None) (add_file_system granted)) cwd) <$> add_file_system requested)).
End env.

(** ** Which entry decides, by components

    [hits es x c a]: an entry of [es] gives access [a] at a place with the
    components [c], at or above the path [x]. *)
Section hits.
Context (env : Env) (cwd : str).
Hypothesis Henv : env_ok env.
Hypothesis Hcwd : is_absolute cwd = true.
#[local] Set Default Proof Using "Type*".

Definition resolves (e : FileSystemSandboxEntry) (q : str) : Prop :=
  resolve_entry_path env (entry_path e) (absolute env cwd) = Some q.
Definition hits (es : list FileSystemSandboxEntry) (x : str) (c : list Component) (a : FileSystemAccessMode)
    : Prop :=
  ∃ e q, e ∈ es ∧ entry_access e = a ∧ resolves e q ∧ components q = c ∧ c `prefix_of` components x.
Definition decides (es : list FileSystemSandboxEntry) (x : str) (c : list Component)
    (a : FileSystemAccessMode) : Prop :=
  hits es x c a ∧
  ∀ c' a', hits es x c' a' → c' `prefix_of` c ∧ (c' = c → access_rank a' ≤ access_rank a).

Lemma hits_covers es x c a :
  hits es x c a ↔ ∃ e, covers env (restricted es) cwd x e ∧ components (resolved_path e) = c ∧
                       resolved_access e = a.
Proof.
  split.
  - intros (e & q & He & Ha & Hq & Hc & Hx). exists (mkResolved q a). split; [|done]. split.
    + apply elem_of_resolved. exists e. done.
    + apply path_starts_with_spec. simpl. by rewrite Hc.
  - intros (r & [Hr Hx] & Hc & Ha). apply elem_of_resolved in Hr as (e & He & Hacc & Hq).
    exists e, (resolved_path r). split; [done|]. split; [congruence|]. split; [done|].
    split; [done|]. rewrite <-Hc. by apply path_starts_with_spec.
Qed.

Lemma access_cases es x :
  normalized_abs x →
  (∃ c, decides es x c (resolve_access_with_cwd env (restricted es) x cwd)) ∨
  ((∀ c a, ¬ hits es x c a) ∧ resolve_access_with_cwd env (restricted es) x cwd = AccessNone).
Proof.
  intros Hx. assert (Ht := resolve_candidate_id env x cwd Hx).
  destruct (covers_dec env (restricted es) cwd x) as [Hex|Hno].
  - left. destruct (deciding_entry env (restricted es) x cwd x) as (e & He & -> & Hmax); [done..|].
    exists (components (resolved_path e)). split; [apply hits_covers; by exists e|].
    intros c' a' (e' & He' & <- & <-)%hits_covers. destruct (Hmax e' He') as [H1 H2].
    split; [by apply path_starts_with_spec|]. intros E. by apply H2.
  - right. split; [|by apply (no_entry_none env _ x cwd x)].
    intros c a (e & He & _)%hits_covers. by destruct (Hno e).
Qed.

Lemma rank_inj a b : access_rank a = access_rank b → a = b.
Proof. by destruct a, b. Qed.

Lemma decides_unique es x c a c' a' : decides es x c a → decides es x c' a' → c = c' ∧ a = a'.
Proof.
  intros [H1 M1] [H2 M2]. destruct (M1 _ _ H2) as [P1 R1], (M2 _ _ H1) as [P2 R2].
  assert (E : c = c') by (by apply (anti_symm prefix)). subst c'. split; [done|].
  specialize (R1 eq_refl). specialize (R2 eq_refl). apply rank_inj. lia.
Qed.

Lemma decides_access es x c a :
  normalized_abs x → decides es x c a → resolve_access_with_cwd env (restricted es) x cwd = a.
Proof.
  intros Hx Hd. destruct (access_cases es x Hx) as [[c' Hd']|[Hno _]].
  - by destruct (decides_unique es x c a _ _ Hd Hd').
  - destruct Hd as [Hd _]. by destruct (Hno c a).
Qed.

(** What hits a path hits the paths below. *)
Lemma hits_below es x y c a : components x `prefix_of` components y → hits es x c a → hits es y c a.
Proof. intros Hp (e & q & ? & ? & ? & ? & Hx). exists e, q. repeat split; try done. by trans (components x). Qed.

Lemma hits_above es x y c a : c `prefix_of` components y → hits es x c a → hits es y c a.
Proof. intros Hp (e & q & ? & ? & ? & ? & Hx). by exists e, q. Qed.

(** Two hits of one path are on one line. *)
Lemma hits_comparable es es' x c a c' a' :
  hits es x c a → hits es' x c' a' → c `prefix_of` c' ∨ c' `prefix_of` c.
Proof.
  intros (? & ? & _ & _ & _ & _ & H1) (? & ? & _ & _ & _ & _ & H2).
  destruct (prefix_weak_total _ _ _ H1 H2); auto.
Qed.
End hits.

Lemma omap_nothing {A B} (f : A → option B) l : Forall (λ a, f a = None) l → omap f l = [].
Proof. induction 1 as [|a l H _ IH]; [done|]. simpl. by rewrite H. Qed.

Lemma push_new_elem es l e : e ∈ foldl push_new_entry es l → e ∈ es ∨ e ∈ l.
Proof.
  revert es. induction l as [|y l IH]; intros es; simpl; [auto|]. intros [H|H]%IH; [|set_solver].
  unfold push_new_entry in H. case_match; set_solver.
Qed.

Lemma push_new_keeps es l e : e ∈ es → e ∈ foldl push_new_entry es l.
Proof.
  revert es. induction l as [|y l IH]; intros es He; simpl; [done|]. apply IH.
  unfold push_new_entry. case_match; set_solver.
Qed.

Lemma push_new_adds es l e :
  e ∈ l → ∃ e', e' ∈ foldl push_new_entry es l ∧ (e' = e ∨ entry_eqb e e' = true).
Proof.
  revert es. induction l as [|y l IH]; intros es He; [by apply elem_of_nil in He|]. simpl.
  apply elem_of_cons in He as [->|He]; [|by apply IH].
  destruct (existsb (entry_eqb y) es) eqn:E.
  - unfold push_new_entry at 2. rewrite E. apply existsb_elem in E as (e' & He' & Heq).
    exists e'. split; [by apply push_new_keeps|by right].
  - exists y. split; [|by left]. apply push_new_keeps. unfold push_new_entry. rewrite E. set_solver.
Qed.

(** ** Entries that are moved about keep their place *)
Section places.
Context (env : Env) (cwd : str).
Hypothesis Henv : env_ok env.
Hypothesis Hcwd : normalized_abs cwd.
#[local] Set Default Proof Using "Type*".

Lemma permission_path_eq p :
  resolve_permission_path env p cwd = resolve_entry_path env p (absolute env cwd).
Proof.
  destruct p as [|pattern|[| |sub| | |]]; try done. simpl.
  rewrite (absolute_id env cwd Hcwd). simpl.
  rewrite (absolute_root_eq env cwd Hcwd), (ancestors_last cwd Hcwd). simpl.
  apply absolute_render. constructor.
Qed.

Lemma materialize_access e : entry_access (materialize_cwd_dependent_entry env e cwd) = entry_access e.
Proof. unfold materialize_cwd_dependent_entry. repeat case_match; done. Qed.

Lemma materialize_resolves e q :
  resolves env cwd (materialize_cwd_dependent_entry env e cwd) q ↔ resolves env cwd e q.
Proof.
  unfold resolves, materialize_cwd_dependent_entry.
  destruct (entry_path e) as [|pattern|[| |sub| | |]] eqn:E; rewrite ?E; try done.
  rewrite permission_path_eq. simpl. rewrite (absolute_id env cwd Hcwd). simpl. done.
Qed.

(** Equal entries resolve to the same place. *)
Definition entry_wf (e : FileSystemSandboxEntry) : Prop := fs_path_wf (entry_path e).

Lemma entry_eqb_resolves e e' q :
  entry_wf e → entry_wf e' → entry_eqb e e' = true → resolves env cwd e q →
  entry_access e' = entry_access e ∧ ∃ q', resolves env cwd e' q' ∧ components q' = components q.
Proof.
  unfold entry_wf, resolves, entry_eqb. intros Hw Hw' [Hp Ha%bool_decide_eq_true]%andb_true_iff Hq.
  split; [done|]. rewrite (absolute_id env cwd Hcwd) in *.
  destruct (entry_path e) as [p|p|s], (entry_path e') as [p'|p'|s']; try done.
  - simpl in *. injection Hq as <-. exists p'. split; [done|]. symmetry. by apply path_eqb_spec.
  - destruct s as [| |o| | |], s' as [| |o'| | |]; try done; [by exists q| |by exists q..].
    simpl in *. destruct o as [s|], o' as [s'|]; try done; [|by exists q].
    injection Hq as <-. eexists. split; [done|].
    rewrite (resolve_components_eq (home_dir env) s' s cwd); [done..|].
    symmetry. by apply path_eqb_spec.
Qed.

Lemma hits_push_new es l x c a :
  Forall entry_wf es → Forall entry_wf l →
  hits env cwd (foldl push_new_entry es l) x c a ↔ hits env cwd es x c a ∨ hits env cwd l x c a.
Proof.
  intros Hes Hl. split.
  - intros (e & q & [He|He]%push_new_elem & H); [left|right]; by exists e, q.
  - intros [(e & q & He & H)|(e & q & He & Ha & Hq & Hc & Hx)].
    + exists e, q. split; [by apply push_new_keeps|done].
    + destruct (push_new_adds es l e He) as (e' & He' & [->|Heq]); [by exists e, q|].
      assert (Hw' : entry_wf e').
      { destruct (push_new_elem _ _ _ He') as [H|H]; [by eapply Forall_forall in Hes|by eapply Forall_forall in Hl]. }
      assert (Hw : entry_wf e) by (by eapply Forall_forall in Hl).
      destruct (entry_eqb_resolves e e' q Hw Hw' Heq Hq) as (Ha' & q' & Hq' & Hc').
      exists e', q'. repeat split; [done|congruence|done|congruence|done].
Qed.

Lemma materialize_wf e : entry_wf e → entry_wf (materialize_cwd_dependent_entry env e cwd).
Proof.
  unfold entry_wf, materialize_cwd_dependent_entry. intros Hw.
  destruct (entry_path e) as [p|p|[| |sub| | |]] eqn:E; rewrite ?E; try done.
  rewrite permission_path_eq. destruct (resolve_entry_path _ _ _) as [q|] eqn:Eq; [|by rewrite E].
  simpl. eapply (resolve_entry_normalized env _ cwd); [done| |apply Hw|done].
  by apply normalized_is_absolute.
Qed.

Lemma hits_materialize es x c a :
  hits env cwd (map (λ e, materialize_cwd_dependent_entry env e cwd) es) x c a ↔ hits env cwd es x c a.
Proof.
  split.
  - intros (e' & q & He & Ha & Hq & H). apply list_elem_of_fmap in He as (e & -> & He).
    exists e, q. rewrite materialize_access in Ha. by apply (materialize_resolves e q) in Hq.
  - intros (e & q & He & Ha & Hq & H). exists (materialize_cwd_dependent_entry env e cwd), q.
    split; [by apply (list_elem_of_fmap_2 (λ e, materialize_cwd_dependent_entry env e cwd))|]. rewrite materialize_access. split; [done|].
    split; [by apply materialize_resolves|done].
Qed.
End places.

(** ** What the intersection holds *)
Section intersection.
Context (env : Env) (build : str → option (str → bool)) (cwd : str).
Context (requested granted : FileSystemPermissions).
Hypothesis Henv : env_ok env.
Hypothesis Hcwd : normalized_abs cwd.
Hypothesis Hreq : Forall entry_wf (perm_entries requested).
Hypothesis Hgra : Forall entry_wf (perm_entries granted).
#[local] Set Default Proof Using "Type*".
#[local] Abbreviation R := (perm_entries requested).
#[local] Abbreviation G := (perm_entries granted).
#[local] Abbreviation mat := (λ e, materialize_cwd_dependent_entry env e cwd).
#[local] Abbreviation matcher := (new_matcher env build (restricted R) cwd).
#[local] Abbreviation within :=
  (λ e, granted_file_system_entry_within_request env requested (restricted R) matcher e cwd).
#[local] Abbreviation O := (perm_entries (intersect_file_system env build requested granted cwd)).

Definition accepted : list FileSystemSandboxEntry :=
  foldl push_new_entry [] (map mat (List.filter within G)).
Definition kept (source : list FileSystemSandboxEntry) : list FileSystemSandboxEntry :=
  List.filter (λ e, bool_decide (entry_access e = AccessNone) &&
                    deny_entry_constrains_accepted_grant env e accepted cwd) source.

Lemma wf_part (f : FileSystemSandboxEntry → bool) es :
  Forall entry_wf es → Forall entry_wf (List.filter f es).
Proof. rewrite !Forall_forall. intros H e [He _]%elem_of_filterb. by apply H. Qed.

Lemma wf_materialized es : Forall entry_wf es → Forall entry_wf (map mat es).
Proof.
  rewrite !Forall_forall. intros H e (e0 & -> & He)%list_elem_of_fmap.
  apply materialize_wf; [done..|]. by apply H.
Qed.

Lemma wf_pushed es l : Forall entry_wf es → Forall entry_wf l → Forall entry_wf (foldl push_new_entry es l).
Proof. rewrite !Forall_forall. intros H1 H2 e [He|He]%push_new_elem; auto. Qed.

Lemma hits_accepted x c a : hits env cwd accepted x c a ↔ hits env cwd (List.filter within G) x c a.
Proof.
  unfold accepted. rewrite hits_push_new; [|done..|constructor|by apply wf_materialized, wf_part].
  rewrite hits_materialize by done. split; [|by right].
  intros [(e & q & He & _)|H]; [by apply elem_of_nil in He|done].
Qed.

Lemma hits_output x c a :
  hits env cwd O x c a ↔
  hits env cwd (List.filter within G) x c a ∨ hits env cwd (kept R) x c a ∨ hits env cwd (kept G) x c a.
Proof.
  unfold intersect_file_system, retain_constraining_deny_entries. simpl.
  fold accepted. fold (kept R) (kept G).
  assert (Forall entry_wf accepted) by (apply wf_pushed; [constructor|by apply wf_materialized, wf_part]).
  assert (Forall entry_wf (map mat (kept R))) by (by apply wf_materialized, wf_part).
  assert (Forall entry_wf (map mat (kept G))) by (by apply wf_materialized, wf_part).
  rewrite hits_push_new; [|done|done|by apply wf_pushed|done].
  rewrite hits_push_new by done. rewrite !hits_materialize, hits_accepted by done. tauto.
Qed.

(** A readable hit of the output is an accepted entry of the grant. *)
Lemma readable_hit x c a :
  can_read a = true → hits env cwd O x c a → hits env cwd (List.filter within G) x c a.
Proof.
  intros Ha [H|[(e & q & He & <- & _)|(e & q & He & <- & _)]]%hits_output; [done|exfalso..];
    apply elem_of_filterb in He as [_ [Hn%bool_decide_eq_true _]%andb_true_iff]; by rewrite Hn in Ha.
Qed.

Lemma accepted_hit x c a :
  hits env cwd (List.filter within G) x c a →
  ∃ e q, e ∈ G ∧ within e = true ∧ entry_access e = a ∧ resolves env cwd e q ∧ components q = c ∧
    normalized_abs q ∧ c `prefix_of` components x.
Proof.
  intros (e & q & [He Hin]%elem_of_filterb & Ha & Hq & Hc & Hx). exists e, q.
  repeat split; try done. eapply (resolve_entry_normalized env _ cwd); [done| | |done].
  - by apply normalized_is_absolute.
  - by eapply Forall_forall in Hgra.
Qed.

(** A denial that shares a path with an accepted entry is kept. *)
Lemma denial_kept src x c a c' :
  hits env cwd (List.filter within G) x c a → can_read a = true →
  hits env cwd src x c' AccessNone → hits env cwd (kept src) x c' AccessNone.
Proof.
  intros Hacc Ha (e & q & He & Hn & Hq & Hc & Hx). exists e, q. repeat split; try done.
  apply elem_of_filterb. split; [done|]. rewrite Hn, bool_decide_true, andb_true_l by done.
  apply existsb_elem. apply hits_accepted in Hacc as (g & y & Hg & <- & Hy & Hcy & Hxy).
  exists g. split; [done|]. rewrite Ha, andb_true_l.
  rewrite permission_path_eq by done. unfold resolves in Hy. rewrite Hy.
  assert (Ho : paths_overlap q y = true).
  { unfold paths_overlap. apply orb_true_iff. rewrite !path_starts_with_spec, Hc, Hcy.
    destruct (prefix_weak_total _ _ _ Hx Hxy); auto. }
  unfold resolves in Hq. rewrite <-permission_path_eq in Hq by done.
  destruct (entry_path e); [by rewrite Hq|done|by rewrite Hq].
Qed.

Lemma denial_in_output x c a c' :
  hits env cwd (List.filter within G) x c a → can_read a = true →
  hits env cwd R x c' AccessNone ∨ hits env cwd G x c' AccessNone → hits env cwd O x c' AccessNone.
Proof.
  intros Hacc Ha [H|H]; apply hits_output; right; [left|right]; by eapply denial_kept.
Qed.

(** A denial that is not above the deciding entry would decide. *)
Lemma decided_denials x c a c' :
  decides env cwd O x c a → can_read a = true →
  hits env cwd R x c' AccessNone ∨ hits env cwd G x c' AccessNone → c' `prefix_of` c ∧ c' ≠ c.
Proof.
  intros [Hhit Hmax] Ha Hd. pose proof (readable_hit x c a Ha Hhit) as Hacc.
  destruct (Hmax c' AccessNone) as [Hp Hr]; [by eapply denial_in_output|]. split; [done|].
  intros E. specialize (Hr E). by destruct a; simpl in *; try lia.
Qed.

Lemma accepted_in_request e q :
  within e = true → resolves env cwd e q →
  access_covers (resolve_access_with_cwd env (restricted R) q cwd) (entry_access e) = true ∧
  match matcher with Some m => is_read_denied env m q = false | None => True end ∧
  can_read (entry_access e) = true.
Proof.
  unfold granted_file_system_entry_within_request. intros H Hq.
  destruct (can_read (entry_access e)); [|done]. simpl in H.
  rewrite permission_path_eq, Hq in H by done. destruct matcher as [m|]; [|done].
  by destruct (is_read_denied env m q).
Qed.

Lemma covers_readable a b : access_covers a b = true → can_read a = true.
Proof. by destruct a, b. Qed.

(** What the output lets read, the request lets read. *)
Lemma output_read_requested x :
  normalized_abs x → can_read (resolve_access_with_cwd env (restricted O) x cwd) = true →
  can_read (resolve_access_with_cwd env (restricted R) x cwd) = true.
Proof.
  intros Hx Hread. assert (Hcwd' := normalized_is_absolute cwd Hcwd).
  destruct (access_cases env cwd Henv Hcwd' O x Hx) as [[c Hd]|[_ E]]; [|by rewrite E in Hread].
  pose proof (readable_hit x c _ Hread (proj1 Hd)) as Hacc.
  destruct (accepted_hit _ _ _ Hacc) as (e & q & _ & Hin & Ha & Hq & Hc & Hn & Hpre).
  destruct (accepted_in_request e q Hin Hq) as (Hcov%covers_readable & _).
  rewrite <-Hc in Hpre.
  destruct (access_cases env cwd Henv Hcwd' R q Hn) as [[cr Hr]|[_ E]]; [|by rewrite E in Hcov].
  set (ar := resolve_access_with_cwd env (restricted R) q cwd) in *.
  pose proof (hits_below env cwd Henv Hcwd' R q x cr ar Hpre (proj1 Hr)) as Hrx.
  destruct (access_cases env cwd Henv Hcwd' R x Hx) as [[c2 Hr2]|[Hno _]]; [|by destruct (Hno cr ar)].
  destruct (resolve_access_with_cwd env (restricted R) x cwd); try done. exfalso.
  destruct (decided_denials x c _ c2 Hd Hread (or_introl (proj1 Hr2))) as [Hp _].
  assert (Hq2 : hits env cwd R q c2 AccessNone) by (eapply hits_above, Hr2; [done..|by rewrite Hc]).
  destruct (proj2 Hr _ _ Hq2) as [P1 Rk], (proj2 Hr2 _ _ Hrx) as [P2 _].
  specialize (Rk (anti_symm prefix _ _ P1 P2)). by destruct ar; simpl in *; try lia.
Qed.

(** What the output lets read, the grant lets read. *)
Lemma output_read_granted x c :
  normalized_abs x → decides env cwd O x c (resolve_access_with_cwd env (restricted O) x cwd) →
  can_read (resolve_access_with_cwd env (restricted O) x cwd) = true →
  ∃ c', c `prefix_of` c' ∧ can_read (resolve_access_with_cwd env (restricted G) x cwd) = true ∧
    decides env cwd G x c' (resolve_access_with_cwd env (restricted G) x cwd) ∧
    (c = c' → access_rank (resolve_access_with_cwd env (restricted O) x cwd) ≤
              access_rank (resolve_access_with_cwd env (restricted G) x cwd)).
Proof.
  intros Hx Hd Hread. assert (Hcwd' := normalized_is_absolute cwd Hcwd).
  pose proof (readable_hit x c _ Hread (proj1 Hd)) as Hacc.
  assert (HG : hits env cwd G x c (resolve_access_with_cwd env (restricted O) x cwd)).
  { destruct Hacc as (e & q & [He _]%elem_of_filterb & H). by exists e, q. }
  destruct (access_cases env cwd Henv Hcwd' G x Hx) as [[c3 Hg]|[Hno _]]; [|by edestruct Hno].
  destruct (proj2 Hg _ _ HG) as [P Rk]. exists c3. split; [done|]. split; [|done].
  destruct (resolve_access_with_cwd env (restricted G) x cwd) eqn:E; try done. exfalso.
  destruct (decided_denials x c _ c3 Hd Hread (or_intror (proj1 Hg))) as [P' Hne].
  apply Hne. by apply (anti_symm prefix).
Qed.

(** An entry of the grant that is not accepted lies outside what the request
    lets read, when the request has no patterns. *)
Lemma rejected_denied e q :
  no_links env → Forall (λ e, is_glob (entry_path e) = false) R →
  resolves env cwd e q → normalized_abs q → entry_access e = AccessRead → within e = false →
  can_read (resolve_access_with_cwd env (restricted R) q cwd) = true →
  ∃ m r, matcher = Some m ∧ denies env cwd (restricted R) r ∧
    components (resolved_path r) `prefix_of` components q.
Proof.
  intros Hl Hglob Hq Hn Ha Hw Hread. unfold granted_file_system_entry_within_request in Hw.
  rewrite Ha in Hw. simpl in Hw. rewrite permission_path_eq in Hw by done. unfold resolves in Hq.
  rewrite Hq, Hread in Hw. destruct matcher as [m|] eqn:Em; [|done].
  destruct (is_read_denied env m q) eqn:Ed; [|done].
  apply (is_read_denied_spec env cwd (restricted R) Henv (normalized_is_absolute cwd Hcwd) Hreq Hl build)
    in Ed as [(r & Hr & Hp)|(pattern & Hp & _)]; [|exfalso|done..].
  - exists m, r. split; [done|]. split; [done|]. by apply path_starts_with_spec.
  - assert (Hnil : get_unreadable_globs_with_cwd env (restricted R) cwd = []).
    { unfold get_unreadable_globs_with_cwd. simpl. rewrite omap_nothing; [done|].
      eapply Forall_impl; [exact Hglob|]. intros g Hg. simpl in *. by destruct (entry_path g). }
    rewrite Hnil in Hp. by apply elem_of_nil in Hp.
Qed.

(** What the output lets write, the grant lets write. *)
Lemma output_write_granted x :
  no_links env → Forall (λ e, is_glob (entry_path e) = false) R → normalized_abs x →
  resolve_access_with_cwd env (restricted O) x cwd = AccessWrite →
  resolve_access_with_cwd env (restricted G) x cwd = AccessWrite.
Proof.
  intros Hl Hglob Hx Hw. assert (Hcwd' := normalized_is_absolute cwd Hcwd).
  destruct (access_cases env cwd Henv Hcwd' O x Hx) as [[c Hd]|[_ E]]; [|by rewrite E in Hw].
  destruct (output_read_granted x c Hx Hd) as (c3 & P & HrG & Hg & Rk); [by rewrite Hw|].
  rewrite Hw in *. destruct (resolve_access_with_cwd env (restricted G) x cwd); [exfalso|done|done].
  destruct (proj1 Hg) as (e & q & He & Ha & Hq & Hc & Hpre).
  assert (Hnq : normalized_abs q).
  { eapply (resolve_entry_normalized env _ cwd); [done..| |done]. by eapply Forall_forall in Hgra. }
  assert (Hdq : decides env cwd O q c AccessWrite).
  { split; [eapply hits_above, Hd; [done..|]; by rewrite Hc|].
    intros c' a' Hh. apply (proj2 Hd). eapply hits_below, Hh; [done..|]. by rewrite Hc. }
  assert (Hread : can_read (resolve_access_with_cwd env (restricted R) q cwd) = true).
  { apply output_read_requested; [done|]. by rewrite (decides_access env cwd Henv Hcwd' O q c _ Hnq Hdq). }
  assert (Hrej : within e = false).
  { apply not_true_iff_false. intros Hin.
    assert (Ho : hits env cwd O x c3 AccessRead).
    { apply hits_output. left. exists e, q. repeat split; try done. by apply elem_of_filterb. }
    destruct (proj2 Hd _ _ Ho) as [P' _]. specialize (Rk (anti_symm prefix _ _ P P')). simpl in Rk. lia. }
  destruct (rejected_denied e q Hl Hglob Hq Hnq Ha Hrej Hread) as (m & r & Hm & Hr & Hpr).
  assert (Hden : hits env cwd R q (components (resolved_path r)) AccessNone).
  { destruct Hr as (Hin & Hnone & _). apply elem_of_resolved in Hin as (e0 & He0 & Hacc & Hres).
    exists e0, (resolved_path r). repeat split; try done. congruence. }
  destruct (decided_denials q c _ _ Hdq eq_refl (or_introl Hden)) as [Pd _].
  destruct (accepted_hit q c AccessWrite) as (g & y & _ & Hin & Hga & Hy & Hcy & Hny & _).
  { apply readable_hit; [done|apply Hdq]. }
  destruct (accepted_in_request g y Hin Hy) as (_ & Hnd & _). rewrite Hm in Hnd.
  apply not_true_iff_false in Hnd. apply Hnd.
  apply (is_read_denied_spec env cwd (restricted R) Henv Hcwd' Hreq Hl build); [done..|].
  left. exists r. split; [done|]. apply path_starts_with_spec. by rewrite Hcy.
Qed.
End intersection.

(** The entries a profile asks for or grants. *)
Definition profile_entries (p : AdditionalPermissionProfile) : list FileSystemSandboxEntry :=
  from_option perm_entries [] (add_file_system p).

Lemma intersection_entries env build requested granted cwd :
  profile_entries (intersect_permission_profiles env build requested granted cwd) =
  match add_file_system requested with
  | Some r => perm_entries (intersect_file_system env build r
                (default (mkPermissions [] None) (add_file_system granted)) cwd)
  | None => []
  end.
Proof.
  unfold profile_entries, intersect_permission_profiles. cbn [add_file_system].
  destruct (add_file_system requested) as [r|]; [|done]. cbn [fmap option_fmap option_map].
  unfold option_filter. cbn [mbind option_bind].
  destruct (intersect_file_system _ _ _ _ _) as [[|e es] d]; done.
Qed.

Section profiles.
Context (env : Env) (build : str → option (str → bool)) (cwd x : str).
Context (requested granted : AdditionalPermissionProfile).
Hypothesis Henv : env_ok env.
Hypothesis Hcwd : normalized_abs cwd.
Hypothesis Hx : normalized_abs x.
Hypothesis Hreq : Forall entry_wf (profile_entries requested).
Hypothesis Hgra : Forall entry_wf (profile_entries granted).
#[local] Set Default Proof Using "Type*".
#[local] Abbreviation access p := (resolve_access_with_cwd env (restricted (profile_entries p)) x cwd).
#[local] Abbreviation result := (intersect_permission_profiles env build requested granted cwd).

(** Either nothing was asked for, or the intersection is that of the entries. *)
Lemma result_cases :
  access result = AccessNone ∨
  ∃ r g, profile_entries requested = perm_entries r ∧ profile_entries granted = perm_entries g ∧
    profile_entries result = perm_entries (intersect_file_system env build r g cwd).
Proof.
  rewrite intersection_entries. destruct (add_file_system requested) as [r|] eqn:Er.
  - right. exists r, (default (mkPermissions [] None) (add_file_system granted)).
    unfold profile_entries. rewrite Er. by destruct (add_file_system granted).
  - left. destruct (access_cases env cwd Henv (normalized_is_absolute cwd Hcwd) [] x Hx)
      as [[c [(e & q & He & _) _]]|[_ E]]; [by apply elem_of_nil in He|done].
Qed.

Lemma intersection_read :
  can_read (access result) = true → can_read (access requested) = true ∧ can_read (access granted) = true.
Proof.
  destruct result_cases as [->|(r & g & Er & Eg & ->)]; [done|]. rewrite Er, Eg in *.
  intros Hread. split; [by apply (output_read_requested env build cwd r g)|].
  destruct (access_cases env cwd Henv (normalized_is_absolute cwd Hcwd)
    (perm_entries (intersect_file_system env build r g cwd)) x Hx) as [[c Hd]|[_ E]]; [|by rewrite E in Hread].
  by destruct (output_read_granted env build cwd r g Henv Hcwd Hreq Hgra x c Hx Hd Hread) as (_ & _ & H & _).
Qed.

Lemma intersection_write :
  no_links env → Forall (λ e, is_glob (entry_path e) = false) (profile_entries requested) →
  access result = AccessWrite → access granted = AccessWrite.
Proof.
  destruct result_cases as [->|(r & g & Er & Eg & ->)]; [done|]. rewrite Er, Eg in *.
  intros Hl Hg Hw. by apply (output_write_granted env build cwd r g).
Qed.
End profiles.

(** C15. A permission profile that a reviewer grants is cut down to the request:
    the intersection never lets a command read what the request or the grant
    does not let it read, never lets it write what the grant does not let it
    write (when the request has no patterns), and gives network access only
    where both do. *)
Theorem intersection_within_both env build requested granted cwd x :
  env_ok env → normalized_abs cwd → normalized_abs x →
  Forall entry_wf (profile_entries requested) → Forall entry_wf (profile_entries granted) →
  let result := intersect_permission_profiles env build requested granted cwd in
  let access p := resolve_access_with_cwd env (restricted (profile_entries p)) x cwd in
  (can_read (access result) = true → can_read (access requested) = true ∧ can_read (access granted) = true) ∧
  (no_links env → Forall (λ e, is_glob (entry_path e) = false) (profile_entries requested) →
   access result = AccessWrite → access granted = AccessWrite) ∧
  is_enabled_network (add_network result) =
    is_enabled_network (add_network requested) && is_enabled_network (add_network granted).
Proof.
  intros Henv Hcwd Hx Hreq Hgra result access. split_and!.
  - by apply intersection_read.
  - by apply intersection_write.
  - unfold result, intersect_permission_profiles. cbn [add_network].
    by destruct (is_enabled_network (add_network requested) && _).
Qed.

Definition path_entry (path : string) (a : FileSystemAccessMode) : FileSystemSandboxEntry :=
  mkEntry (Path (lit path)) a.
Definition ask (es : list FileSystemSandboxEntry) : AdditionalPermissionProfile :=
  mkAdditional None (Some (mkPermissions es None)).

Lemma normalized_lit names : Forall good_name names → normalized_abs (render names).
Proof. intros H. by exists names. Qed.

Lemma intersection_within_both_witness :
  let requested := ask [path_entry "/work" AccessWrite; path_entry "/work/private" AccessNone] in
  let granted := ask [path_entry "/" AccessRead; path_entry "/work/out" AccessWrite] in
  let access p := resolve_access_with_cwd demo_env (restricted (profile_entries p)) (lit "/work/out/log")
                    (lit "/work") in
  access (intersect_permission_profiles demo_env (λ _, None) requested granted (lit "/work")) = AccessWrite ∧
  access granted = AccessWrite.
Proof.
  assert (Hl : no_links demo_env) by (split; [intros q _; apply demo_env_no_links|done]).
  split; [by_compute|].
  refine (proj1 (proj2 (intersection_within_both demo_env (λ _, None)
    (ask [path_entry "/work" AccessWrite; path_entry "/work/private" AccessNone])
    (ask [path_entry "/" AccessRead; path_entry "/work/out" AccessWrite])
    (lit "/work") (lit "/work/out/log") _ _ _ _ _)) Hl _ _).
  - exists (lit "/work"). split; reflexivity.
  - exists [lit "work"]. split; [by_compute|reflexivity].
  - exists [lit "work"; lit "out"; lit "log"]. split; [by_compute|reflexivity].
  - repeat constructor; [exists [lit "work"]|exists [lit "work"; lit "private"]];
      (split; [by_compute|reflexivity]).
  - repeat constructor; [exists []|exists [lit "work"; lit "out"]]; (split; [by_compute|reflexivity]).
  - repeat constructor.
  - by_compute.
Defined.

(** The intersection can exceed the request: a request to write [/w] but only
    read [/w/ro], granted as writing [/w], comes out as writing [/w], with
    [/w/ro] in it. *)
Theorem intersection_exceeds_request :
  let requested := ask [path_entry "/w" AccessWrite; path_entry "/w/ro" AccessRead] in
  let granted := ask [path_entry "/w" AccessWrite] in
  let access p := resolve_access_with_cwd demo_env (restricted (profile_entries p)) (lit "/w/ro") (lit "/w") in
  access requested = AccessRead ∧
  access (intersect_permission_profiles demo_env (λ _, None) requested granted (lit "/w")) = AccessWrite.
Proof. split; by_compute. Qed.

(** ** Putting permissions on top of a profile *)

Lemma restricted_access env p x cwd :
  kind p = Restricted →
  resolve_access_with_cwd env p x cwd = resolve_access_with_cwd env (restricted (entries p)) x cwd.
Proof. destruct p as [k d es]. simpl. by intros ->. Qed.

Lemma effective_entries p additional :
  kind p = Restricted →
  kind (effective_file_system_sandbox_policy p (Some additional)) = Restricted ∧
  entries (effective_file_system_sandbox_policy p (Some additional)) =
    foldl push_new_entry (entries p) (profile_entries additional).
Proof.
  intros Hk. unfold effective_file_system_sandbox_policy, profile_entries. simpl.
  destruct (add_file_system additional) as [[es d]|]; [|done]. simpl.
  unfold permissions_is_empty. simpl. destruct es as [|e es]; [done|].
  unfold merge_file_system_policy_with_additional_permissions. by rewrite Hk.
Qed.

(** Additional permissions without denials put on top of a profile take no read
    access away: every path the profile lets read stays readable.  Each added
    entry counts at its own path (a denial the profile has for that very path
    stays), and the network is open when either side opens it. *)
Theorem additional_permissions_keep_reads env p network additional cwd :
  env_ok env → normalized_abs cwd → kind p = Restricted →
  Forall entry_wf (entries p) → Forall entry_wf (profile_entries additional) →
  Forall (λ e, entry_access e ≠ AccessNone) (profile_entries additional) →
  let result := effective_file_system_sandbox_policy p (Some additional) in
  (∀ x, normalized_abs x → can_read (resolve_access_with_cwd env p x cwd) = true →
     can_read (resolve_access_with_cwd env result x cwd) = true) ∧
  (∀ e q, e ∈ profile_entries additional → resolves env cwd e q →
     access_rank (entry_access e) ≤ access_rank (resolve_access_with_cwd env result q cwd)) ∧
  net_is_enabled (effective_network_sandbox_policy network (Some additional)) =
    net_is_enabled network || default false (add_network additional ≫= enabled).
Proof.
  intros Henv Hcwd Hk Hp Hadd Hden result.
  assert (Hcwd' := normalized_is_absolute cwd Hcwd).
  destruct (effective_entries p additional Hk) as [Hk' He']. fold result in Hk', He'.
  assert (Hhits : ∀ x c a, hits env cwd (entries result) x c a ↔
    hits env cwd (entries p) x c a ∨ hits env cwd (profile_entries additional) x c a).
  { intros x c a. rewrite He'. by apply hits_push_new. }
  split_and!.
  - intros x Hx. rewrite (restricted_access env p), (restricted_access env result) by done. intros Hread.
    destruct (access_cases env cwd Henv Hcwd' (entries p) x Hx) as [[c Hd]|[_ E]]; [|by rewrite E in Hread].
    destruct (access_cases env cwd Henv Hcwd' (entries result) x Hx) as [[c' Hd']|[Hno _]].
    2:{ edestruct Hno. apply Hhits. left. apply Hd. }
    destruct (resolve_access_with_cwd env (restricted (entries result)) x cwd); try done. exfalso.
    destruct (proj2 Hd' c _ (proj2 (Hhits _ _ _) (or_introl (proj1 Hd)))) as [P _].
    destruct (proj1 (Hhits _ _ _) (proj1 Hd')) as [H|(e & q & He & Ha & _)].
    + destruct (proj2 Hd _ _ H) as [P' Rk]. specialize (Rk (anti_symm prefix _ _ P' P)).
      by destruct (resolve_access_with_cwd env (restricted (entries p)) x cwd); simpl in *; try lia.
    + eapply Forall_forall in Hden; [|done]. done.
  - intros e q He Hq. rewrite (restricted_access env result) by done.
    assert (Hn : normalized_abs q).
    { eapply (resolve_entry_normalized env _ cwd); [done..| |done]. by eapply Forall_forall in Hadd. }
    assert (Hh : hits env cwd (entries result) q (components q) (entry_access e)).
    { apply Hhits. right. by exists e, q. }
    destruct (access_cases env cwd Henv Hcwd' (entries result) q Hn) as [[c Hd]|[Hno _]];
      [|by edestruct Hno].
    destruct (proj2 Hd _ _ Hh) as [P Rk]. apply Rk.
    destruct (proj1 Hd) as (? & ? & _ & _ & _ & _ & P'). by apply (anti_symm prefix).
  - unfold effective_network_sandbox_policy, merge_network_access.
    by destruct (net_is_enabled network), (add_network additional) as [[[[|]|]]|].
Qed.

Lemma additional_permissions_keep_reads_witness :
  let p := restricted [path_entry "/" AccessRead; path_entry "/work" AccessWrite] in
  let additional := ask [path_entry "/data" AccessWrite] in
  can_read (resolve_access_with_cwd demo_env (effective_file_system_sandbox_policy p (Some additional))
              (lit "/etc") (lit "/work")) = true.
Proof.
  refine (proj1 (additional_permissions_keep_reads demo_env
    (restricted [path_entry "/" AccessRead; path_entry "/work" AccessWrite]) NetworkRestricted
    (ask [path_entry "/data" AccessWrite]) (lit "/work") _ _ _ _ _ _) (lit "/etc") _ _).
  - exists (lit "/work"). split; reflexivity.
  - exists [lit "work"]. split; [by_compute|reflexivity].
  - reflexivity.
  - repeat constructor; [exists []|exists [lit "work"]]; (split; [by_compute|reflexivity]).
  - repeat constructor. exists [lit "data"]. split; [by_compute|reflexivity].
  - repeat constructor. discriminate.
  - exists [lit "etc"]. split; [by_compute|reflexivity].
  - by_compute.
Defined.

(** An additional read entry below a writable root takes write access away. *)
Theorem additional_read_removes_write :
  let p := restricted [path_entry "/" AccessRead; path_entry "/work" AccessWrite] in
  let additional := ask [path_entry "/work/src" AccessRead] in
  resolve_access_with_cwd demo_env p (lit "/work/src") (lit "/work") = AccessWrite ∧
  resolve_access_with_cwd demo_env (effective_file_system_sandbox_policy p (Some additional))
    (lit "/work/src") (lit "/work") = AccessRead.
Proof. split; by_compute. Qed.

(** ** Merging grants *)

Lemma hits_app env cwd l k x c a :
  hits env cwd (l ++ k) x c a ↔ hits env cwd l x c a ∨ hits env cwd k x c a.
Proof.
  split.
  - intros (e & q & [He|He]%elem_of_app & H); [left|right]; by exists e, q.
  - intros [(e & q & He & H)|(e & q & He & H)]; exists e, q; (split; [set_solver|done]).
Qed.

Lemma merged_entries base permissions :
  profile_entries (default (mkAdditional None None) (merge_permission_profiles (Some base) (Some permissions))) =
  match add_file_system base, add_file_system permissions with
  | Some b, Some p => foldl push_new_entry [] (perm_entries b ++ perm_entries p)
  | _, _ => profile_entries base ++ profile_entries permissions
  end.
Proof.
  unfold merge_permission_profiles, option_filter, additional_is_empty, profile_entries. simpl.
  destruct (add_file_system base) as [[b db]|], (add_file_system permissions) as [[ps dp]|]; simpl;
    unfold permissions_is_empty; simpl; rewrite ?app_nil_r;
    destruct (is_enabled_network (add_network base) || is_enabled_network (add_network permissions)); simpl;
    try done; unfold merge_permission_entries; by destruct (foldl push_new_entry [] (b ++ ps)) eqn:E; simpl.
Qed.

(** Merging two grants gives the entries of both, and the network access of
    either: an entry decides over a path in the merge where it is an entry of
    one of the two. *)
Theorem merge_is_union env cwd base permissions :
  env_ok env → normalized_abs cwd →
  Forall entry_wf (profile_entries base) → Forall entry_wf (profile_entries permissions) →
  let result := default (mkAdditional None None) (merge_permission_profiles (Some base) (Some permissions)) in
  (∀ x c a, hits env cwd (profile_entries result) x c a ↔
     hits env cwd (profile_entries base) x c a ∨ hits env cwd (profile_entries permissions) x c a) ∧
  is_enabled_network (add_network result) =
    is_enabled_network (add_network base) || is_enabled_network (add_network permissions).
Proof.
  intros Henv Hcwd Hb Hp result. split.
  - intros x c a. unfold result. rewrite merged_entries. unfold profile_entries in *.
    destruct (add_file_system base) as [b|], (add_file_system permissions) as [q|]; simpl in *;
      [|by rewrite <-hits_app..].
    rewrite hits_push_new; [|done..|constructor|by apply Forall_app_2]. rewrite hits_app.
    split; [|by right]. intros [(e & y & He & _)|H]; [by apply elem_of_nil in He|done].
  - unfold result, merge_permission_profiles, option_filter, additional_is_empty. simpl.
    destruct (is_enabled_network (add_network base) || is_enabled_network (add_network permissions)); [done|].
    simpl. by destruct (add_file_system base), (add_file_system permissions); simpl; repeat case_match.
Qed.
