(* ===== verification/ExecApproval.v ===== *)
(** * Approval of commands: [core/src/exec_policy.rs]

    Where the parts meet: a command is split into the commands that run
    ([ShellTree]), each is checked against the rules ([ExecPolicy]) with the
    heuristics of [CommandSafety] where no rule matches, under the approval
    settings and the sandbox in force ([Permissions]); the result says whether
    the command runs, asks or is refused, and which rule to offer.  Approved
    rules are written to the rules file ([Amend]) and to the policy in memory.

    As built for Linux.  [ArcSwap] holds the policy, the semaphore makes an
    update one step: the manager is the pair of the policy and the text of the
    default rules file. *)
From S2P Require Import Prelude RustStr AbsolutePath FileSystem Ordering Paths ExecPolicy ExecPolicyProofs PolicyParser Amend ShellTree CommandSafety Permissions PermissionProfile.

(** ** Data *)

Record GranularApprovalConfig := mkGranular {
  sandbox_approval : bool;
  rules : bool;
  skill_approval : bool;
  request_permissions : bool;
  mcp_elicitations : bool
}.

Inductive AskForApproval :=
| UnlessTrusted
| OnFailure
| OnRequest
| Granular (config : GranularApprovalConfig)
| Never.

(** [ExecPolicyAmendment] is its command. *)
Inductive ExecApprovalRequirement :=
| Skip (bypass_sandbox : bool) (proposed_execpolicy_amendment : option (list str))
| NeedsApproval (reason : option str) (proposed_execpolicy_amendment : option (list str))
| RequirementForbidden (reason : str).

Definition proposed_execpolicy_amendment (r : ExecApprovalRequirement) : option (list str) :=
  match r with
  | NeedsApproval _ (Some prefix) | Skip _ (Some prefix) => Some prefix
  | _ => None
  end.

Record ExecPolicyCommands := mkCommands {
  commands : list (list str);
  used_complex_parsing : bool
}.

Record ExecApprovalRequest := mkRequest {
  req_command : list str;
  approval_policy : AskForApproval;
  permission_profile : PermissionProfile;
  req_file_system_policy : FileSystemSandboxPolicy;
  sandbox_permissions : SandboxPermissions;
  req_prefix_rule : option (list str)
}.

Definition PROMPT_CONFLICT_REASON : str :=
  lit "approval required by policy, but AskForApproval is set to Never".
Definition REJECT_SANDBOX_APPROVAL_REASON : str :=
  lit "approval required by policy, but AskForApproval::Granular.sandbox_approval is false".
Definition REJECT_RULES_APPROVAL_REASON : str :=
  lit "approval required by policy rule, but AskForApproval::Granular.rules is false".

Definition words (s : string) : list str := split_on c_space (lit s).

Definition BANNED_PREFIX_SUGGESTIONS : list (list str) :=
  map words
    ["python3"; "python3 -"; "python3 -c"; "python"; "python -"; "python -c"; "py"; "py -3";
     "pythonw"; "pyw"; "pypy"; "pypy3"; "git"; "bash"; "bash -lc"; "sh"; "sh -c"; "sh -lc"; "zsh";
     "zsh -lc"; "/bin/zsh"; "/bin/zsh -lc"; "/bin/bash"; "/bin/bash -lc"; "pwsh"; "pwsh -Command";
     "pwsh -c"; "powershell"; "powershell -Command"; "powershell -c"; "powershell.exe";
     "powershell.exe -Command"; "powershell.exe -c"; "env"; "sudo"; "node"; "node -e"; "perl";
     "perl -e"; "ruby"; "ruby -e"; "php"; "php -r"; "lua"; "lua -e"; "osascript"]%string.

Definition is_policy_match (m : RuleMatch) : bool :=
  match m with PrefixRuleMatch _ _ _ _ => true | HeuristicsRuleMatch _ _ => false end.

Definition is_rule_with (d : Decision) (m : RuleMatch) : bool :=
  is_policy_match m && bool_decide (match_decision m = d).

Definition prompt_is_rejected_by_policy (approval_policy : AskForApproval) (prompt_is_rule : bool)
    : option str :=
  match approval_policy with
  | Never => Some PROMPT_CONFLICT_REASON
  | OnFailure | OnRequest | UnlessTrusted => None
  | Granular config =>
      if prompt_is_rule then
        if negb (rules config) then Some REJECT_RULES_APPROVAL_REASON else None
      else if negb (sandbox_approval config) then Some REJECT_SANDBOX_APPROVAL_REASON
      else None
  end.

(** [iter().find_map(f)] *)
Definition find_map {A B} (f : A → option B) (l : list A) : option B := head (omap f l).

Definition try_derive_execpolicy_amendment_for_prompt_rules (matched_rules : list RuleMatch)
    : option (list str) :=
  if existsb (is_rule_with Prompt) matched_rules then None
  else find_map (λ m, match m with
                      | HeuristicsRuleMatch command Prompt => Some command
                      | _ => None
                      end) matched_rules.

Definition try_derive_execpolicy_amendment_for_allow_rules (matched_rules : list RuleMatch)
    : option (list str) :=
  if existsb is_policy_match matched_rules then None
  else find_map (λ m, match m with
                      | HeuristicsRuleMatch command Allow => Some command
                      | _ => None
                      end) matched_rules.

Definition match_options : MatchOptions := {| resolve_host_executables := true |}.

Section exec_policy.
Context {MM : Type → Type} `{!MultiMap MM}.
Context (home_dir : option str) (current_dir : Res io_error str).
Context (try_parse_shell : str → option Node).
Context (parse_with_powershell_ast : str → str → PowershellParseOutcome).
(** [shlex::try_join] *)
Context (shlex_try_join : list str → option str).

Local Abbreviation Policy := (Policy MM PrefixRule).

Definition render_shlex_command (args : list str) : str :=
  default (join [c_space] args) (shlex_try_join args).

Definition commands_for_exec_policy (command : list str) : Total ExecPolicyCommands :=
  let fallback := mkCommands [command] false in
  let heredoc :=
    match parse_shell_lc_single_command_prefix try_parse_shell command with
    | Ok single_command => Ok (mkCommands [single_command] true)
    | Err _ => Ok fallback
    | Panic p => Panic p
    end in
  match parse_shell_lc_plain_commands try_parse_shell command with
  | Ok commands => if bool_decide (commands = []) then heredoc else Ok (mkCommands commands false)
  | Err _ => heredoc
  | Panic p => Panic p
  end.

(** A command that no rule matches.  On Linux the sandbox is always there
    ([environment_lacks_sandbox_protections] is false). *)
Definition render_decision_for_unmatched_command (req : ExecApprovalRequest)
    (used_complex_parsing : bool) (command : list str) : Total Decision :=
  is_known_safe ← is_known_safe_command try_parse_shell parse_with_powershell_ast command;
  if is_known_safe && negb used_complex_parsing then Ok Allow
  else
    command_is_dangerous ← command_might_be_dangerous try_parse_shell command;
    if (command_is_dangerous : bool) then
      Ok (match approval_policy req with
          | Never => match permission_profile req with
                     | Disabled | External _ => Allow
                     | Managed _ _ => Forbidden
                     end
          | OnFailure | OnRequest | UnlessTrusted | Granular _ => Prompt
          end)
    else
      Ok (match approval_policy req with
          | Never | OnFailure => Allow
          | UnlessTrusted => Prompt
          | OnRequest | Granular _ =>
              match kind (req_file_system_policy req) with
              | Unrestricted | ExternalSandboxKind => Allow
              | Restricted =>
                  if requests_sandbox_override (sandbox_permissions req) then Prompt else Allow
              end
          end).

(** The closure given to the policy.  It never panics ([unmatched_total]). *)
Definition exec_policy_fallback (req : ExecApprovalRequest) (used_complex_parsing : bool)
    (command : list str) : Decision :=
  match render_decision_for_unmatched_command req used_complex_parsing command with
  | Ok d => d
  | _ => Forbidden
  end.

(** The most specific rule with decision [d], by the length of its prefix. *)
Definition most_specific (d : Decision) (matched_rules : list RuleMatch)
    : option (list str * option str) :=
  max_by_key (λ x : list str * option str, length x.1)
    (omap (λ m, match m with
                | PrefixRuleMatch matched_prefix decision _ justification =>
                    if bool_decide (decision = d) then Some (matched_prefix, justification) else None
                | HeuristicsRuleMatch _ _ => None
                end) matched_rules).

Definition tick (s : str) : str := lit "`" ++ s ++ lit "`".

Definition derive_prompt_reason (command_args : list str) (e : Evaluation) : option str :=
  let command := render_shlex_command command_args in
  match most_specific Prompt (matched_rules e) with
  | Some (_, Some justification) => Some (tick command ++ lit " requires approval: " ++ justification)
  | Some (_, None) => Some (tick command ++ lit " requires approval by policy")
  | None => None
  end.

Definition derive_forbidden_reason (command_args : list str) (e : Evaluation) : str :=
  let command := render_shlex_command command_args in
  match most_specific Forbidden (matched_rules e) with
  | Some (_, Some justification) => tick command ++ lit " rejected: " ++ justification
  | Some (matched_prefix, None) =>
      tick command ++ lit " rejected: policy forbids commands starting with "
      ++ tick (render_shlex_command matched_prefix)
  | None => tick command ++ lit " rejected: blocked by policy"
  end.

Definition prefix_rule_would_approve_all_commands (exec_policy : Policy) (prefix_rule : list str)
    (commands : list (list str)) (fallback : list str → Decision) : Total bool :=
  match add_prefix_rule exec_policy prefix_rule Allow with
  | Ok policy_with_prefix_rule =>
      all_res (λ command,
        e ← check_with_options home_dir current_dir policy_with_prefix_rule command fallback
              match_options;
        Ok (bool_decide (eval_decision e = Allow))) commands
  | Err _ => Ok false
  | Panic p => Panic p
  end.

Definition derive_requested_execpolicy_amendment_from_prefix_rule (prefix_rule : option (list str))
    (matched_rules : list RuleMatch) (exec_policy : Policy) (commands : list (list str))
    (fallback : list str → Decision) : Total (option (list str)) :=
  match prefix_rule with
  | None => Ok None
  | Some prefix_rule =>
      if bool_decide (prefix_rule = []) then Ok None
      else if existsb (λ banned, bool_decide (prefix_rule = banned)) BANNED_PREFIX_SUGGESTIONS
      then Ok None
      else if existsb is_policy_match matched_rules then Ok None
      else
        ok ← prefix_rule_would_approve_all_commands exec_policy prefix_rule commands fallback;
        Ok (if (ok : bool) then Some prefix_rule else None)
  end.

(** Every parsed command is allowed by a rule. *)
Definition all_allowed_by_rules (exec_policy : Policy) (commands : list (list str)) : Total bool :=
  all_res (λ command,
    ms ← matches_for_command_with_options home_dir current_dir exec_policy command None match_options;
    Ok (existsb (is_rule_with Allow) ms)) commands.

Definition create_exec_approval_requirement_for_command (exec_policy : Policy)
    (req : ExecApprovalRequest) : Total ExecApprovalRequirement :=
  cs ← commands_for_exec_policy (req_command req);
  let auto_amendment_allowed := negb (used_complex_parsing cs) in
  let fallback := exec_policy_fallback req (used_complex_parsing cs) in
  evaluation ← check_multiple_with_options home_dir current_dir exec_policy (commands cs) fallback
                 match_options;
  requested_amendment ←
    if auto_amendment_allowed then
      derive_requested_execpolicy_amendment_from_prefix_rule (req_prefix_rule req)
        (matched_rules evaluation) exec_policy (commands cs) fallback
    else Ok None;
  match eval_decision evaluation with
  | Forbidden => Ok (RequirementForbidden (derive_forbidden_reason (req_command req) evaluation))
  | Prompt =>
      let prompt_is_rule := existsb (is_rule_with Prompt) (matched_rules evaluation) in
      Ok (match prompt_is_rejected_by_policy (approval_policy req) prompt_is_rule with
          | Some reason => RequirementForbidden reason
          | None =>
              NeedsApproval (derive_prompt_reason (req_command req) evaluation)
                (match requested_amendment with
                 | Some amendment => Some amendment
                 | None =>
                     if auto_amendment_allowed
                     then try_derive_execpolicy_amendment_for_prompt_rules (matched_rules evaluation)
                     else None
                 end)
          end)
  | Allow =>
      bypass_sandbox ← all_allowed_by_rules exec_policy (commands cs);
      Ok (Skip bypass_sandbox
            (if auto_amendment_allowed
             then try_derive_execpolicy_amendment_for_allow_rules (matched_rules evaluation)
             else None))
  end.

(** ** Updates *)

Inductive ExecPolicyUpdateError :=
| AppendRule (path : str) (source : AmendError)
| JoinBlockingTask
| AddRule (source : Error).

Record ExecPolicyManager := mkManager {
  policy : Policy;
  rules_file : str
}.

Definition default_policy_path (codex_home : str) : str :=
  path_push (path_push codex_home (lit "rules")) (lit "default.rules").

Context (json_string : str → Res str str) (io : file_io).

(** Append to the rules file in a blocking task, whose panic is an error. *)
Definition append_in_task (path : str) (m : Eff str AmendError unit)
    : Eff ExecPolicyManager ExecPolicyUpdateError unit := λ s,
  match m (rules_file s) with
  | (file, Ok _) => (mkManager (policy s) file, Ok ())
  | (file, Err e) => (mkManager (policy s) file, Err (AppendRule path e))
  | (file, Panic _) => (mkManager (policy s) file, Err JoinBlockingTask)
  end.

(** Change a copy of the current policy and store it. *)
Definition store_policy (change : Policy → Res Error Policy)
    : Eff ExecPolicyManager ExecPolicyUpdateError unit := λ s,
  match change (policy s) with
  | Ok p => (mkManager p (rules_file s), Ok ())
  | Err e => (s, Err (AddRule e))
  | Panic p => (s, Panic p)
  end.

Definition append_amendment_and_update (codex_home : str) (amendment : list str)
    : Eff ExecPolicyManager ExecPolicyUpdateError unit :=
  let policy_path := default_policy_path codex_home in
  _ ← append_in_task policy_path (blocking_append_allow_prefix_rule json_string io policy_path amendment);
  existing_evaluation ← Prelude.reads (λ s, infallible (check_multiple_with_options home_dir current_dir
    (policy s) [amendment] (λ _, Forbidden) match_options));
  let already_allowed :=
    bool_decide (eval_decision existing_evaluation = Allow) &&
    existsb (is_rule_with Allow) (matched_rules existing_evaluation) in
  if already_allowed then mret ()
  else store_policy (λ p, add_prefix_rule p amendment Allow).

Definition append_network_rule_and_update (codex_home host : str) (protocol : NetworkRuleProtocol)
    (decision : Decision) (justification : option str)
    : Eff ExecPolicyManager ExecPolicyUpdateError unit :=
  let policy_path := default_policy_path codex_home in
  _ ← append_in_task policy_path
        (blocking_append_network_rule json_string io policy_path host protocol decision justification);
  store_policy (λ p, add_network_rule p host protocol decision justification).

(** ** Loading *)

Inductive ExecPolicyError :=
| ReadDir (dir : str) (source : io_error)
| ReadFile (path : str) (source : io_error)
| ParsePolicy (path : str) (source : Error).

(** [read_dir] and [next_entry]: an entry, or the error of reading it, has its
    path and whether it is a file, or the error of asking. *)
Context (read_dir : str → Res io_error (list (Res io_error (str * Res io_error bool)))).
Context (read_policy : str → Res io_error str).
Context (shlex_split : str → option (list str)).
Context (debug_rule : PrefixRule → str) (debug_match : RuleMatch → str).
Context (starlark : str → str → Res Error (list builtin_call * option Error)).
Context (starlark_error : Error → Error).

(** [path.extension()] *)
Definition path_extension (path : str) : option str :=
  match file_name path with
  | Some name => match rsplit_once c_dot name with
                 | Some (before, after) => if decide (before = []) then None else Some after
                 | None => None
                 end
  | None => None
  end.

(** The loop over the entries of a directory. *)
Definition policy_file_of (dir : str) (entry : Res io_error (str * Res io_error bool))
    : Res ExecPolicyError (option str) :=
  '(path, file_type) ← map_err (ReadDir dir) entry;
  is_file ← map_err (ReadDir dir) file_type;
  Ok (if bool_decide (path_extension path = Some (lit "rules")) && is_file
      then Some path else None).

Definition collect_policy_files (dir : str) : Res ExecPolicyError (list str) :=
  match read_dir dir with
  | Err e => if decide (err_kind e = NotFound) then Ok [] else Err (ReadDir dir e)
  | Panic p => Panic p
  | Ok es =>
      policy_paths ← collect_res (map (policy_file_of dir) es);
      Ok (sort_paths (omap id policy_paths))
  end.

(** A layer: whether it is a user or project layer, and its folder. *)
Record ConfigLayer := mkLayer {
  layer_user_or_project : bool;
  config_folder : option str
}.

Definition layer_policy_files (ignore_user_and_project : bool) (layer : ConfigLayer)
    : Res ExecPolicyError (list str) :=
  if ignore_user_and_project && layer_user_or_project layer then Ok []
  else match config_folder layer with
       | Some folder => collect_policy_files (abs_join home_dir folder (lit "rules"))
       | None => Ok []
       end.

Fixpoint parse_files (paths : list str) : Eff (PolicyBuilder (MM:=MM)) ExecPolicyError unit :=
  match paths with
  | [] => mret ()
  | path :: paths' =>
      contents ← lift (map_err (ReadFile path) (read_policy path));
      _ ← eff_map_err (ParsePolicy path)
            (parse home_dir current_dir shlex_split shlex_try_join debug_rule debug_match starlark
               starlark_error path contents);
      parse_files paths'
  end.

Definition load_exec_policy (layers : list ConfigLayer) (ignore_user_and_project : bool)
    (requirements_policy : option Policy) : Res ExecPolicyError Policy :=
  paths ← collect_res (map (layer_policy_files ignore_user_and_project) layers);
  let (b, r) := parse_files (concat paths) PolicyBuilder_new in
  _ ← r;
  Ok (match requirements_policy with
      | None => build b
      | Some requirements => merge_overlay (build b) requirements
      end).

Definition load_exec_policy_with_warning (layers : list ConfigLayer) (ignore_user_and_project : bool)
    (requirements_policy : option Policy) : Res ExecPolicyError (Policy * option ExecPolicyError) :=
  match load_exec_policy layers ignore_user_and_project requirements_policy with
  | Ok policy => Ok (policy, None)
  | Err (ParsePolicy path source) => Ok (Policy_empty, Some (ParsePolicy path source))
  | Err e => Err e
  | Panic p => Panic p
  end.
End exec_policy.
