(* ===== verification/ExecApprovalProofs.v ===== *)
(** * What runs without asking

    Proofs about [ExecApproval]: the decision is always made, what is skipped,
    asked and refused, which amendments are offered, that an approved
    amendment takes effect, that managed requirements bind, and what a syntax
    error in a rules file makes of them. *)
From S2P Require Import Prelude RustStr AbsolutePath FileSystem Ordering Paths ExecPolicy ExecPolicyProofs PolicyParser Amend ShellTree CommandSafety Permissions PermissionProfile ExecApproval.

Section approval.
Context {MM : Type → Type} `{!MultiMap MM} `{!MultiMapLaws MM}.
Context (home_dir : option str) (current_dir : Res io_error str).
Context (try_parse_shell : str → option Node).
Context (parse_with_powershell_ast : str → str → PowershellParseOutcome).
Context (shlex_try_join : list str → option str).
#[local] Set Default Proof Using "Type*".

(** The laws of the parameters: the working directory can be read or not, and
    byte ranges of syntax trees lie in the source. *)
Context (Hcd : no_panic current_dir).
Context (parser_law : ∀ src root, try_parse_shell src = Some root → tree_of src root).

Implicit Types (p : Policy MM PrefixRule) (req : ExecApprovalRequest).

Local Abbreviation known_safe_command := (is_known_safe_command try_parse_shell parse_with_powershell_ast).
Local Abbreviation dangerous_command := (command_might_be_dangerous try_parse_shell).
Local Abbreviation fallback := (exec_policy_fallback try_parse_shell parse_with_powershell_ast).
Local Abbreviation requirement := (create_exec_approval_requirement_for_command home_dir current_dir
  try_parse_shell parse_with_powershell_ast shlex_try_join).

(** ** The parts always return *)

Lemma known_safe_total command : ∃ b, known_safe_command command = Ok b.
Proof.
  unfold is_known_safe_command. generalize (map zsh_as_bash command); clear command; intros command.
  destruct (windows_spec parse_with_powershell_ast command) as (bw & -> & _). simpl.
  destruct bw; [eauto|]. destruct (is_safe_to_call_with_exec_spec command) as (bd & -> & _). simpl.
  destruct bd; [eauto|].
  destruct (plain_commands_cases try_parse_shell parser_law command) as [[cmds ->]| ->]; simpl; [|eauto].
  case_bool_decide; [eauto|].
  destruct (all_res_spec _ _ cmds is_safe_to_call_with_exec_spec) as (b & -> & _). eauto.
Qed.

Lemma dangerous_total command : ∃ b, dangerous_command command = Ok b.
Proof.
  unfold command_might_be_dangerous. destruct (is_dangerous_to_call_with_exec command); [eauto|].
  destruct (plain_commands_cases try_parse_shell parser_law command) as [[cmds ->]| ->]; simpl; eauto.
Qed.

Lemma unmatched_total req complex command :
  render_decision_for_unmatched_command try_parse_shell parse_with_powershell_ast req complex command
  = Ok (fallback req complex command).
Proof.
  unfold exec_policy_fallback, render_decision_for_unmatched_command.
  destruct (known_safe_total command) as [b ->]. simpl. destruct (b && negb complex); [done|].
  destruct (dangerous_total command) as [d ->]. simpl. by destruct d.
Qed.

Lemma commands_total command :
  ∃ cs, commands_for_exec_policy try_parse_shell command = Ok cs ∧ commands cs ≠ [].
Proof.
  unfold commands_for_exec_policy.
  assert (Hh : ∃ cs, (match parse_shell_lc_single_command_prefix try_parse_shell command with
      | Ok single_command => Ok (mkCommands [single_command] true)
      | Err _ => Ok (mkCommands [command] false)
      | Panic p => Panic p
      end : Total ExecPolicyCommands) = Ok cs ∧ commands cs ≠ []).
  { pose proof (single_command_prefix_no_panic try_parse_shell parser_law command) as H.
    destruct (parse_shell_lc_single_command_prefix try_parse_shell command); [eexists; split; done..|done]. }
  destruct (plain_commands_cases try_parse_shell parser_law command) as [[cmds ->]| ->]; [|done].
  case_bool_decide; [done|]. eexists; split; [done|]. done.
Qed.

(** ** Matches *)

(** The rules of [p] that match a command, directly or as a host executable. *)
Definition rule_matches_of p cmd : list RuleMatch :=
  match matches_for_command_with_options home_dir current_dir p cmd None match_options with
  | Ok ms => ms
  | _ => []
  end.

Lemma rule_matches_ok p cmd :
  matches_for_command_with_options home_dir current_dir p cmd None match_options
  = Ok (rule_matches_of p cmd).
Proof.
  unfold rule_matches_of.
  destruct (matches_cases home_dir current_dir p cmd None match_options Hcd) as (ms & -> & _). done.
Qed.

(** With a fallback, the heuristics stand in where no rule matches. *)
Definition matches_of (h : list str → Decision) p cmd : list RuleMatch :=
  match rule_matches_of p cmd with
  | [] => [HeuristicsRuleMatch cmd (h cmd)]
  | ms => ms
  end.

Lemma matches_ok h p cmd :
  matches_for_command_with_options home_dir current_dir p cmd (Some h) match_options
  = Ok (matches_of h p cmd).
Proof.
  pose proof (rule_matches_ok p cmd) as H. unfold matches_of.
  unfold matches_for_command_with_options in *.
  destruct (match_exact_rules p cmd) as [o| |]; simpl in *; [|done..].
  destruct (match o with Some (m :: ms) => Ok (m :: ms) | _ => _ end) as [ms| |]; simpl in *; [|done..].
  assert (E : ms = rule_matches_of p cmd) by (destruct ms; by injection H). rewrite <-E. by destruct ms.
Qed.

Lemma rule_match_policy cmd (rs : list PrefixRule) :
  Forall (λ m, is_policy_match m = true) (omap (rule_match cmd) rs).
Proof.
  apply Forall_forall. intros m (r & _ & Hm)%list_elem_of_omap.
  unfold rule_match in Hm. simpl in Hm. unfold PrefixRule_matches in Hm.
  destruct (matches_prefix (pattern r) cmd) as [[pre|]| |]; simplify_eq/=; done.
Qed.

Lemma host_matches_policy p cmd ms :
  match_host_executable_rules home_dir current_dir p cmd = Ok ms →
  Forall (λ m, is_policy_match m = true) ms.
Proof.
  intros Hms. unfold match_host_executable_rules in Hms.
  destruct cmd as [|k args]; [injection Hms as <-; constructor|].
  destruct (from_absolute_path home_dir current_dir k) as [prog| |]; [|injection Hms as <-; constructor|done].
  destruct (executable_path_lookup_key prog) as [b|]; [|injection Hms as <-; constructor].
  destruct (mm_get_vec (rules_by_program p) b) as [rs|]; [|injection Hms as <-; constructor].
  case_match; [injection Hms as <-; constructor|].
  rewrite filter_map_res_omap in Hms. simpl in Hms. injection Hms as <-.
  apply Forall_fmap. eapply Forall_impl; [apply rule_match_policy|]. intros []; simpl; done.
Qed.

Lemma rule_matches_policy p cmd : Forall (λ m, is_policy_match m = true) (rule_matches_of p cmd).
Proof.
  pose proof (rule_matches_ok p cmd) as H. unfold matches_for_command_with_options in H.
  rewrite match_exact_rules_eq in H. cbn [mbind Res_bind] in H.
  destruct cmd as [|k args]; [by constructor|].
  destruct (exact_matches p (k :: args)) as [|m ms] eqn:Ee;
    cbn [resolve_host_executables match_options] in H.
  - destruct (match_host_executable_rules home_dir current_dir p (k :: args)) as [ms| |] eqn:Eh;
      simpl in H; [|done..].
    assert (ms = rule_matches_of p (k :: args)) as <- by (destruct ms; congruence).
    by apply host_matches_policy in Eh.
  - cbn in H. apply (inj Ok) in H as <-. rewrite <-Ee. apply rule_match_policy.
Qed.

(** The matches of several commands, in order. *)
Definition all_matches (h : list str → Decision) p (cmds : list (list str)) : list RuleMatch :=
  concat (map (matches_of h p) cmds).

Lemma collect_matches h p cmds :
  collect_res (map (λ command, matches_for_command_with_options home_dir current_dir p command
    (Some h) match_options) cmds) = Ok (map (matches_of h p) cmds).
Proof.
  induction cmds as [|c cmds IH]; simpl; [done|]. rewrite matches_ok. simpl. by rewrite IH.
Qed.

Lemma matches_of_nonempty h p cmd : matches_of h p cmd ≠ [].
Proof. unfold matches_of. by destruct (rule_matches_of p cmd). Qed.

Lemma elem_of_all_matches h p cmds m :
  m ∈ all_matches h p cmds ↔ ∃ cmd, cmd ∈ cmds ∧ m ∈ matches_of h p cmd.
Proof.
  unfold all_matches. rewrite list_elem_of_In, in_concat. setoid_rewrite in_map_iff. split.
  - intros (? & (c & <- & Hc) & Hm). exists c. by rewrite !list_elem_of_In.
  - intros (c & Hc & Hm). exists (matches_of h p c). rewrite !list_elem_of_In in *. eauto.
Qed.

Lemma check_multiple_spec h p cmds :
  cmds ≠ [] →
  ∃ e, check_multiple_with_options home_dir current_dir p cmds h match_options = Ok e ∧
    matched_rules e = all_matches h p cmds ∧
    (∃ m, m ∈ matched_rules e ∧ match_decision m = eval_decision e) ∧
    ∀ m, m ∈ matched_rules e → decision_rank (match_decision m) ≤ decision_rank (eval_decision e).
Proof.
  intros Hne. unfold check_multiple_with_options. rewrite collect_matches. cbn [mbind Res_bind].
  destruct (from_matches_spec (all_matches h p cmds)) as (e & He & Em & Hin & Hmax).
  - destruct cmds as [|c cmds]; [done|]. unfold all_matches. simpl.
    pose proof (matches_of_nonempty h p c). by destruct (matches_of h p c).
  - exists e. rewrite Em. split; [exact He|]. split; [done|]. by split.
Qed.

Lemma check_spec h p cmd :
  ∃ e, check_with_options home_dir current_dir p cmd h match_options = Ok e ∧
    matched_rules e = matches_of h p cmd ∧
    (∃ m, m ∈ matched_rules e ∧ match_decision m = eval_decision e) ∧
    ∀ m, m ∈ matched_rules e → decision_rank (match_decision m) ≤ decision_rank (eval_decision e).
Proof.
  unfold check_with_options. rewrite matches_ok. cbn [mbind Res_bind].
  destruct (from_matches_spec (matches_of h p cmd)) as (e & He & Em & Hin & Hmax);
    [apply matches_of_nonempty|].
  exists e. rewrite Em. split; [exact He|]. split; [done|]. by split.
Qed.

Lemma all_res_total {A} (f : A → Total bool) l :
  (∀ a, ∃ b, f a = Ok b) → ∃ b, all_res f l = Ok b ∧ (b = true ↔ ∀ a, a ∈ l → f a = Ok true).
Proof using.
  clear. intros Hf. induction l as [|a l (b & IH & Hb)]; simpl.
  - exists true. split; [done|]. split; [|done]. intros _ a Ha. by apply elem_of_nil in Ha.
  - setoid_rewrite elem_of_cons. destruct (Hf a) as [[] Ha]; rewrite Ha; simpl.
    + exists b. split; [done|]. rewrite Hb. naive_solver.
    + exists false. split; [done|]. split; [done|]. intros H. specialize (H a (or_introl eq_refl)). congruence.
Qed.

Lemma would_approve_total p prefix cmds h :
  ∃ b, prefix_rule_would_approve_all_commands home_dir current_dir p prefix cmds h = Ok b ∧
    (b = true → ∃ p', add_prefix_rule p prefix Allow = Ok p' ∧
       ∀ cmd, cmd ∈ cmds → ∃ e, check_with_options home_dir current_dir p' cmd h match_options = Ok e ∧
         eval_decision e = Allow).
Proof.
  unfold prefix_rule_would_approve_all_commands.
  destruct (add_prefix_rule p prefix Allow) as [p'| |] eqn:Ea.
  - edestruct (all_res_total (λ command,
        e ← check_with_options home_dir current_dir p' command h match_options;
        Ok (bool_decide (eval_decision e = Allow)))) as (b & Hb & Hall).
    { intros cmd. destruct (check_spec h p' cmd) as (e & -> & _). simpl. eauto. }
    exists b. split; [exact Hb|]. intros Hbt. exists p'. split; [done|]. intros cmd Hc.
    pose proof (proj1 Hall Hbt cmd Hc) as Hall'. destruct (check_spec h p' cmd) as (e & He & _).
    exists e. split; [done|]. rewrite He in Hall'. simpl in Hall'. apply (inj Ok) in Hall'.
    by apply bool_decide_eq_true in Hall'.
  - by exists false.
  - unfold add_prefix_rule in Ea. by destruct prefix.
Qed.

Lemma all_allowed_total p cmds :
  ∃ b, all_allowed_by_rules home_dir current_dir p cmds = Ok b ∧
    (b = true ↔ ∀ cmd, cmd ∈ cmds → ∃ m, m ∈ rule_matches_of p cmd ∧ match_decision m = Allow).
Proof.
  clear shlex_try_join. unfold all_allowed_by_rules.
  edestruct (all_res_total (λ command,
    ms ← matches_for_command_with_options home_dir current_dir p command None match_options;
    Ok (existsb (is_rule_with Allow) ms))) as (b & Hb & Hall).
  { intros cmd. rewrite rule_matches_ok. simpl. eauto. }
  exists b. split; [exact Hb|]. rewrite Hall. apply forall_proper; intros cmd. rewrite rule_matches_ok. cbn [mbind Res_bind].
  assert (E : existsb (is_rule_with Allow) (rule_matches_of p cmd) = true ↔
              ∃ m, m ∈ rule_matches_of p cmd ∧ match_decision m = Allow).
  { rewrite existsb_exists. apply exist_proper; intros m. rewrite <-list_elem_of_In.
    unfold is_rule_with. rewrite andb_true_iff, bool_decide_eq_true.
    pose proof (proj1 (Forall_forall _ _) (rule_matches_policy p cmd) m). naive_solver. }
  rewrite <-E. split; intros H Hc; specialize (H Hc); congruence.
Qed.

Lemma requested_total prefix_rule ms p cmds h :
  ∃ o, derive_requested_execpolicy_amendment_from_prefix_rule home_dir current_dir prefix_rule ms p cmds h
       = Ok o ∧
    ∀ prefix, o = Some prefix →
      prefix_rule = Some prefix ∧ existsb is_policy_match ms = false ∧
      (prefix ∉ BANNED_PREFIX_SUGGESTIONS) ∧
      ∃ p', add_prefix_rule p prefix Allow = Ok p' ∧
        ∀ cmd, cmd ∈ cmds → ∃ e, check_with_options home_dir current_dir p' cmd h match_options = Ok e ∧
          eval_decision e = Allow.
Proof.
  unfold derive_requested_execpolicy_amendment_from_prefix_rule.
  destruct prefix_rule as [prefix|]; [|by exists None].
  case_bool_decide as Hne; [by exists None|]. destruct (existsb _ BANNED_PREFIX_SUGGESTIONS) eqn:Hb; [by exists None|].
  destruct (existsb is_policy_match ms) eqn:Hpm; [by exists None|].
  destruct (would_approve_total p prefix cmds h) as (b & -> & Hok). cbn [mbind Res_bind].
  eexists. split; [done|]. intros prefix' Hp. destruct b; [|done]. injection Hp as <-.
  do 2 (split; [done|]). split; [|by apply Hok]. intros Hin.
  apply not_true_iff_false in Hb. apply Hb, existsb_exists. exists prefix.
  rewrite <-list_elem_of_In. split; [done|]. by apply bool_decide_eq_true.
Qed.

(** The requirement for a request, by cases on the decision of the policy. *)
Lemma requirement_cases p req :
  ∃ cs e, commands_for_exec_policy try_parse_shell (req_command req) = Ok cs ∧ commands cs ≠ [] ∧
    matched_rules e = all_matches (fallback req (used_complex_parsing cs)) p (commands cs) ∧
    (∃ m, m ∈ matched_rules e ∧ match_decision m = eval_decision e) ∧
    (∀ m, m ∈ matched_rules e → decision_rank (match_decision m) ≤ decision_rank (eval_decision e)) ∧
    ∃ requested,
      (∀ prefix, requested = Some prefix →
        used_complex_parsing cs = false ∧ req_prefix_rule req = Some prefix ∧
        existsb is_policy_match (matched_rules e) = false ∧ (prefix ∉ BANNED_PREFIX_SUGGESTIONS) ∧
        ∃ p', add_prefix_rule p prefix Allow = Ok p' ∧
          ∀ cmd, cmd ∈ commands cs → ∃ e, check_with_options home_dir current_dir p' cmd
            (fallback req (used_complex_parsing cs)) match_options = Ok e ∧ eval_decision e = Allow) ∧
      match eval_decision e with
      | Forbidden => ∃ reason, requirement p req = Ok (RequirementForbidden reason)
      | Prompt =>
          match prompt_is_rejected_by_policy (approval_policy req)
                  (existsb (is_rule_with Prompt) (matched_rules e)) with
          | Some reason => requirement p req = Ok (RequirementForbidden reason)
          | None => requirement p req =
              Ok (NeedsApproval (derive_prompt_reason shlex_try_join (req_command req) e)
                (match requested with
                 | Some amendment => Some amendment
                 | None => if negb (used_complex_parsing cs)
                           then try_derive_execpolicy_amendment_for_prompt_rules (matched_rules e)
                           else None
                 end))
          end
      | Allow => ∃ bypass, requirement p req =
              Ok (Skip bypass (if negb (used_complex_parsing cs)
                               then try_derive_execpolicy_amendment_for_allow_rules (matched_rules e)
                               else None)) ∧
            (bypass = true ↔ ∀ cmd, cmd ∈ commands cs →
              ∃ m, m ∈ rule_matches_of p cmd ∧ match_decision m = Allow)
      end.
Proof.
  destruct (commands_total (req_command req)) as (cs & Hcs & Hne).
  set (h := fallback req (used_complex_parsing cs)).
  destruct (check_multiple_spec h p (commands cs) Hne) as (e & He & Em & Hin & Hmax).
  exists cs, e. do 5 (split; [done|]).
  unfold create_exec_approval_requirement_for_command. rewrite Hcs. cbn [mbind Res_bind].
  fold h. rewrite He. cbn [mbind Res_bind].
  destruct (requested_total (req_prefix_rule req) (matched_rules e) p (commands cs) h)
    as (o & Ho & Hspec).
  exists (if negb (used_complex_parsing cs) then o else None). split.
  { intros prefix Hp. destruct (used_complex_parsing cs); [done|]. simpl in Hp. split; [done|by apply Hspec]. }
  assert (Hreq : (if negb (used_complex_parsing cs) then
      derive_requested_execpolicy_amendment_from_prefix_rule home_dir current_dir (req_prefix_rule req)
        (matched_rules e) p (commands cs) h else Ok None)
    = Ok (if negb (used_complex_parsing cs) then o else None)) by by destruct (used_complex_parsing cs).
  rewrite Hreq. cbn [mbind Res_bind]. destruct (eval_decision e).
  - destruct (all_allowed_total p (commands cs)) as (b & -> & Hb). cbn [mbind Res_bind]. eauto.
  - by destruct (prompt_is_rejected_by_policy _ _).
  - eauto.
Qed.

(** ** What the heuristics allow *)

(** What may run unattended when no rule speaks about it: a command known to
    be safe that was parsed completely; a command not known to be dangerous,
    when the settings leave failures to the sandbox or to the user; a
    dangerous one only when the user never wants to be asked and has switched
    the sandbox off. *)
Definition runs_unattended req (complex : bool) (command : list str) : Prop :=
  (known_safe_command command = Ok true ∧ complex = false) ∨
  (dangerous_command command = Ok false ∧ approval_policy req ≠ UnlessTrusted ∧
    (approval_policy req = Never ∨ approval_policy req = OnFailure ∨
     kind (req_file_system_policy req) ≠ Restricted ∨
     requests_sandbox_override (sandbox_permissions req) = false)) ∨
  (dangerous_command command = Ok true ∧ approval_policy req = Never ∧
    (permission_profile req = Disabled ∨ ∃ network, permission_profile req = External network)).

Lemma fallback_allow req complex command :
  fallback req complex command = Allow ↔ runs_unattended req complex command.
Proof.
  clear shlex_try_join.
  pose proof (unmatched_total req complex command) as H. unfold render_decision_for_unmatched_command in H.
  unfold runs_unattended.
  destruct (known_safe_total command) as [b Hb]. destruct (dangerous_total command) as [d Hd].
  rewrite Hb, Hd in *. cbn [mbind Res_bind] in H.
  destruct (b && negb complex) eqn:Hbc.
  { apply (inj Ok) in H. rewrite <-H. apply andb_true_iff in Hbc as [-> Hc].
    apply negb_true_iff in Hc as ->. split; [by left|done]. }
  assert (Hno : ¬ (Ok b = (Ok true : Total bool) ∧ complex = false)).
  { intros [Hb' ->]. apply (inj Ok) in Hb' as ->. done. }
  destruct d, (approval_policy req), (permission_profile req), (kind (req_file_system_policy req)),
    (requests_sandbox_override (sandbox_permissions req)); apply (inj Ok) in H; rewrite <-H; clear H; split.
  all: first
    [ intros Hx; discriminate Hx
    | intros _; right; left; split_and!; [done|done|];
      first [by left|by right; left|by right; right; left|by right; right; right]
    | intros _; right; right; eauto
    | intros [Hs|[(? & ? & Hor)|(? & ? & Hor)]]; [done|..]; first [done|destruct_or! Hor; naive_solver] ].
Qed.

(** Whether the settings let a prompt through to the user. *)
Definition may_ask (a : AskForApproval) (by_rule : bool) : Prop :=
  match a with
  | Never => False
  | Granular config => if by_rule then rules config = true else sandbox_approval config = true
  | OnFailure | OnRequest | UnlessTrusted => True
  end.

Lemma rejected_iff a by_rule : prompt_is_rejected_by_policy a by_rule = None ↔ may_ask a by_rule.
Proof using.
  clear. destruct a as [| | |[sa ru ? ? ?]|]; simpl; try done. destruct by_rule, sa, ru; done.
Qed.

Lemma rank_Allow d : decision_rank d ≤ decision_rank Allow → d = Allow.
Proof using. clear. destruct d; simpl; [done|lia..]. Qed.
Lemma rank_Prompt d : decision_rank d ≤ decision_rank Prompt → d ≠ Forbidden.
Proof using. clear. destruct d; simpl; [done..|lia]. Qed.

(** Every request gets exactly one answer, the one its matches call for:
    it runs when every match of every command in it (rules, or heuristics
    where there is no rule) allows it; it asks when none forbids, some match
    prompts and the approval settings let that prompt through; it is refused
    when some match forbids, or a prompt is needed that the settings reject. *)
Theorem requirement_correct p req :
  ∃ cs r, commands_for_exec_policy try_parse_shell (req_command req) = Ok cs ∧
    requirement p req = Ok r ∧
    let ms := all_matches (fallback req (used_complex_parsing cs)) p (commands cs) in
    let by_rule := existsb (is_rule_with Prompt) ms in
    match r with
    | Skip _ _ => ∀ m, m ∈ ms → match_decision m = Allow
    | NeedsApproval _ _ =>
        (∀ m, m ∈ ms → match_decision m ≠ Forbidden) ∧ (∃ m, m ∈ ms ∧ match_decision m = Prompt) ∧
        may_ask (approval_policy req) by_rule
    | RequirementForbidden _ =>
        (∃ m, m ∈ ms ∧ match_decision m = Forbidden) ∨
        ((∃ m, m ∈ ms ∧ match_decision m = Prompt) ∧ ¬ may_ask (approval_policy req) by_rule)
    end.
Proof.
  destruct (requirement_cases p req) as (cs & e & Hcs & _ & Em & Hex & Hmax & requested & _ & Hr).
  exists cs. rewrite <-Em. cbv zeta. destruct (eval_decision e).
  - destruct Hr as (bypass & -> & _). eexists. do 2 (split; [done|]).
    intros m Hm. apply rank_Allow. by apply Hmax.
  - pose proof (rejected_iff (approval_policy req) (existsb (is_rule_with Prompt) (matched_rules e))) as Hj.
    destruct (prompt_is_rejected_by_policy _ _); rewrite Hr; eexists; do 2 (split; [done|]); simpl.
    + right. split; [done|]. intros Hask. by apply Hj in Hask.
    + split; [|split; [done|by apply Hj]]. intros m Hm. apply rank_Prompt. by apply Hmax.
  - destruct Hr as [reason ->]. eexists. do 2 (split; [done|]). by left.
Qed.

Lemma skip_cases p req :
  ∃ cs, commands_for_exec_policy try_parse_shell (req_command req) = Ok cs ∧
    ((∃ bypass amendment, requirement p req = Ok (Skip bypass amendment)) ↔
      ∀ cmd, cmd ∈ commands cs →
        (∀ m, m ∈ rule_matches_of p cmd → match_decision m = Allow) ∧
        (rule_matches_of p cmd = [] → runs_unattended req (used_complex_parsing cs) cmd)) ∧
    ((∃ amendment, requirement p req = Ok (Skip true amendment)) ↔ ∀ cmd, cmd ∈ commands cs →
      rule_matches_of p cmd ≠ [] ∧ ∀ m, m ∈ rule_matches_of p cmd → match_decision m = Allow).
Proof.
  destruct (requirement_cases p req) as (cs & e & Hcs & _ & Em & Hex & Hmax & requested & _ & Hr).
  exists cs. split; [done|].
  assert (Hall : (∀ m, m ∈ matched_rules e → match_decision m = Allow) ↔ ∀ cmd, cmd ∈ commands cs →
      (∀ m, m ∈ rule_matches_of p cmd → match_decision m = Allow) ∧
      (rule_matches_of p cmd = [] → runs_unattended req (used_complex_parsing cs) cmd)).
  { rewrite Em. setoid_rewrite elem_of_all_matches. setoid_rewrite <-fallback_allow. unfold matches_of.
    split.
    - intros H cmd Hc. split.
      + intros m Hm. apply H. exists cmd. split; [done|].
        destruct (rule_matches_of p cmd); [by apply elem_of_nil in Hm|done].
      + intros Hn. apply (H (HeuristicsRuleMatch cmd (fallback req (used_complex_parsing cs) cmd))).
        exists cmd. split; [done|]. rewrite Hn. by apply list_elem_of_singleton.
    - intros H m (cmd & Hc & Hm). destruct (H cmd Hc) as [Hrule Hun].
      destruct (rule_matches_of p cmd) as [|m0 ms0].
      + apply list_elem_of_singleton in Hm as ->. by apply Hun.
      + by apply Hrule. }
  assert (Hskip : (∃ bypass amendment, requirement p req = Ok (Skip bypass amendment)) ↔
                  eval_decision e = Allow).
  { destruct (eval_decision e).
    - destruct Hr as (b & -> & _). split; [done|]. eauto.
    - split; [|done]. destruct (prompt_is_rejected_by_policy _ _); rewrite Hr; intros (? & ? & ?); done.
    - split; [|done]. destruct Hr as [reason ->]. intros (? & ? & ?); done. }
  rewrite <-Hall. split.
  - rewrite Hskip. split.
    + intros Ha m Hm. apply rank_Allow. rewrite <-Ha. by apply Hmax.
    + intros H. destruct Hex as (m & Hm & <-). by apply H.
  - split.
    + intros (amendment & Hs) cmd Hc. assert (Ha : eval_decision e = Allow) by (apply Hskip; eauto).
      rewrite Ha in Hr. destruct Hr as (b & Hb & Hby). rewrite Hs in Hb. injection Hb as <- _.
      split.
      * destruct (proj1 Hby eq_refl cmd Hc) as (m & Hm & _). intros Hn. rewrite Hn in Hm.
        by apply elem_of_nil in Hm.
      * apply Hall; [|done]. intros m Hm. apply rank_Allow. rewrite <-Ha. by apply Hmax.
    + intros H. assert (Ha : eval_decision e = Allow).
      { destruct Hex as (m & Hm & <-). apply Hall; [|done]. intros cmd Hc.
        destruct (H cmd Hc) as [Hn Hok]. by split. }
      rewrite Ha in Hr. destruct Hr as (b & -> & Hby).
      assert (b = true) as ->; [|by eexists]. apply Hby. intros cmd Hc. destruct (H cmd Hc) as [Hn Hok].
      destruct (rule_matches_of p cmd) as [|m ms]; [done|]. exists m. split; [|apply Hok]; by left.
Qed.

(** C4. What runs without asking.  A request is skipped past the user exactly
    when each command in it is either matched by rules that all allow it, or
    matched by no rule and fit to run unattended.  It leaves the sandbox
    exactly when each command is matched by rules, all of which allow it. *)
Theorem skip_correct p req :
  ∃ cs, commands_for_exec_policy try_parse_shell (req_command req) = Ok cs ∧
    ((∃ bypass amendment, requirement p req = Ok (Skip bypass amendment)) ↔
      ∀ cmd, cmd ∈ commands cs →
        (∀ m, m ∈ rule_matches_of p cmd → match_decision m = Allow) ∧
        (rule_matches_of p cmd = [] → runs_unattended req (used_complex_parsing cs) cmd)) ∧
    ((∃ amendment, requirement p req = Ok (Skip true amendment)) ↔ ∀ cmd, cmd ∈ commands cs →
      rule_matches_of p cmd ≠ [] ∧ ∀ m, m ∈ rule_matches_of p cmd → match_decision m = Allow).
Proof. apply skip_cases. Qed.

(** ** Amendments *)

(** A heuristic match stands for a command that no rule matches. *)
Lemma heuristics_match h p cmds command d :
  HeuristicsRuleMatch command d ∈ all_matches h p cmds →
  command ∈ cmds ∧ rule_matches_of p command = [] ∧ h command = d.
Proof.
  rewrite elem_of_all_matches. intros (cmd & Hc & Hm). unfold matches_of in Hm.
  pose proof (rule_matches_policy p cmd) as Hp.
  destruct (rule_matches_of p cmd) as [|m ms] eqn:E.
  - apply list_elem_of_singleton in Hm. injection Hm as -> ->. done.
  - rewrite Forall_forall in Hp. by apply Hp in Hm.
Qed.

Lemma find_map_Some {A B} (f : A → option B) l b :
  find_map f l = Some b → ∃ a, a ∈ l ∧ f a = Some b.
Proof using.
  clear. unfold find_map. intros H. apply list_elem_of_omap. destruct (omap f l); [done|].
  injection H as ->. by left.
Qed.

Lemma derived_for_prompt ms command :
  try_derive_execpolicy_amendment_for_prompt_rules ms = Some command →
  HeuristicsRuleMatch command Prompt ∈ ms.
Proof using.
  clear. unfold try_derive_execpolicy_amendment_for_prompt_rules. case_match; [done|].
  intros ([| command' [| |]] & Hm & Hc)%find_map_Some; simplify_eq/=. done.
Qed.

Lemma derived_for_allow ms command :
  try_derive_execpolicy_amendment_for_allow_rules ms = Some command →
  HeuristicsRuleMatch command Allow ∈ ms.
Proof using.
  clear. unfold try_derive_execpolicy_amendment_for_allow_rules. case_match; [done|].
  intros ([| command' [| |]] & Hm & Hc)%find_map_Some; simplify_eq/=. done.
Qed.

(** Which rules are offered to the user.  An offered prefix is never taken
    from a script that was only understood in part.  It is either the prefix
    the model asked for, which is not one of the banned general-purpose
    interpreters and with which every command of the request would run without
    asking; or one of the commands of the request itself, about which there
    is no rule yet. *)
Theorem offered_amendment_sound p req r prefix :
  requirement p req = Ok r → proposed_execpolicy_amendment r = Some prefix →
  ∃ cs, commands_for_exec_policy try_parse_shell (req_command req) = Ok cs ∧
    used_complex_parsing cs = false ∧
    ((req_prefix_rule req = Some prefix ∧ (prefix ∉ BANNED_PREFIX_SUGGESTIONS) ∧
      ∃ p', add_prefix_rule p prefix Allow = Ok p' ∧
        ∀ cmd, cmd ∈ commands cs → ∃ e, check_with_options home_dir current_dir p' cmd
          (fallback req false) match_options = Ok e ∧ eval_decision e = Allow) ∨
     (prefix ∈ commands cs ∧ rule_matches_of p prefix = [])).
Proof.
  intros Hr Hp. destruct (requirement_cases p req)
    as (cs & e & Hcs & _ & Em & _ & _ & requested & Hreq & Hd).
  exists cs. split; [done|]. rewrite Hr in Hd. destruct (eval_decision e).
  - destruct Hd as (b & [= ->] & _). simpl in Hp.
    destruct (used_complex_parsing cs); [done|]. split; [done|]. right. simpl in Hp.
    destruct (try_derive_execpolicy_amendment_for_allow_rules _) as [am|] eqn:Ha; simplify_eq/=.
    apply derived_for_allow in Ha. rewrite Em in Ha. by apply heuristics_match in Ha as (? & ? & _).
  - destruct (prompt_is_rejected_by_policy _ _); [by simplify_eq|]. injection Hd as ->.
    destruct requested as [am|].
    + destruct (Hreq am eq_refl) as (Hc & Hb & _ & Hrest). rewrite Hc in Hrest. simplify_eq/=.
      split; [done|]. by left.
    + destruct (used_complex_parsing cs); [done|]. split; [done|]. right. simpl in Hp.
      destruct (try_derive_execpolicy_amendment_for_prompt_rules _) as [am|] eqn:Ha; simplify_eq/=.
      apply derived_for_prompt in Ha. rewrite Em in Ha. by apply heuristics_match in Ha as (? & ? & _).
  - destruct Hd as [reason [= ->]]. done.
Qed.

(** *** An approved amendment *)

Lemma singles_match (ws : list str) :
  Forall2 accepts (map Single ws) ws.
Proof using. clear. induction ws; simpl; constructor; [by left|done]. Qed.

Lemma literal_prefix_matches k args d :
  rule_match (k :: args) {| pattern := {| first := k; rest := map Single args |};
                            decision := d; justification := None |}
  = Some (PrefixRuleMatch (k :: args) d None None).
Proof using.
  clear. unfold rule_match. simpl. unfold PrefixRule_matches. simpl.
  set (pt := {| first := k; rest := map Single args |}).
  assert (Hp : prefix_match pt (k :: args) (k :: args)).
  { exists args, []. simpl. rewrite app_nil_r. split_and!; [done|done|apply singles_match]. }
  destruct (matches_prefix_cases pt (k :: args)) as [(pre & -> & Hpre)|[_ Hn]]; [|by destruct (Hn (k :: args))].
  simpl. by rewrite (prefix_match_unique _ _ _ _ Hpre Hp).
Qed.

Lemma rule_matches_exact p cmd : exact_matches p cmd ≠ [] → rule_matches_of p cmd = exact_matches p cmd.
Proof.
  intros Hne. destruct (matches_cases home_dir current_dir p cmd None match_options Hcd)
    as (ms & Hms & Hex & _). rewrite rule_matches_ok in Hms. injection Hms as ->. auto.
Qed.

Lemma exact_after_add p prefix d p' :
  add_prefix_rule p prefix d = Ok p' →
  exact_matches p' prefix = exact_matches p prefix ++ [PrefixRuleMatch prefix d None None].
Proof.
  intros Ha. destruct prefix as [|k args]; [done|]. simpl in Ha. injection Ha as <-.
  unfold exact_matches, rules_of. simpl. rewrite get_vec_insert, decide_True by done. simpl.
  rewrite omap_app. simpl. by rewrite literal_prefix_matches.
Qed.

(** Updating the policy in memory: nothing changes when rules already allow the
    prefix, and otherwise the rule is added.  The rules file is what the
    blocking task made of it. *)
Lemma append_update_cases json_string io codex_home amendment s s' :
  append_amendment_and_update home_dir current_dir json_string io codex_home amendment s = (s', Ok ()) →
  blocking_append_allow_prefix_rule json_string io (default_policy_path codex_home) amendment (rules_file s)
    = (rules_file s', Ok ()) ∧
  ((policy s' = policy s ∧ rule_matches_of (policy s) amendment ≠ [] ∧
    ∀ m, m ∈ rule_matches_of (policy s) amendment → match_decision m = Allow) ∨
   add_prefix_rule (policy s) amendment Allow = Ok (policy s')).
Proof.
  unfold append_amendment_and_update. intros (s1 & [] & H1 & H2)%Eff_bind_Ok.
  unfold append_in_task in H1.
  destruct (blocking_append_allow_prefix_rule _ _ _ _ _) as [file [[]| |]]; simplify_eq/=.
  apply Eff_bind_Ok in H2 as (s2 & e & He & H2). unfold Prelude.reads in He.
  destruct (check_multiple_spec (λ _, Forbidden) (policy s) [amendment]) as (e' & He' & Em & Hin & Hmax); [done|].
  cbn [policy] in He. rewrite He' in He. simpl in He. injection He as <- <-.
  destruct (bool_decide _ && _) eqn:Hb.
  - injection H2 as <-. split; [done|]. left. split; [done|].
    apply andb_true_iff in Hb as [Ha%bool_decide_eq_true _]. rewrite Ha in Hmax.
    unfold all_matches in Em. simpl in Em. rewrite app_nil_r in Em. unfold matches_of in Em. cbn [policy].
    destruct (rule_matches_of (policy s) amendment) as [|m ms] eqn:Er.
    + rewrite Em in Hmax. specialize (Hmax (HeuristicsRuleMatch amendment Forbidden)).
      simpl in Hmax. exfalso. assert (2 ≤ 0) by (apply Hmax; by left). lia.
    + split; [done|]. intros m' Hm'. apply rank_Allow, Hmax. by rewrite Em.
  - unfold store_policy in H2. cbn [policy] in H2.
    destruct (add_prefix_rule (policy s) amendment Allow) as [p'| |]; simplify_eq/=. by split; [|right].
Qed.

(** An offered command that is all of its request has no rule yet. *)
Lemma offered_unmatched p req reason amendment cs :
  commands_for_exec_policy try_parse_shell (req_command req) = Ok cs → commands cs = [amendment] →
  requirement p req = Ok (NeedsApproval reason (Some amendment)) → rule_matches_of p amendment = [].
Proof.
  intros Hcs Hcmds Hneed. destruct (requirement_cases p req)
    as (cs1 & e & Hcs1 & _ & Em & _ & _ & requested & Hreq & Hd).
  rewrite Hcs in Hcs1. injection Hcs1 as <-. rewrite Hneed, Hcmds in *. destruct (eval_decision e).
  - by destruct Hd as (? & ? & _).
  - destruct (prompt_is_rejected_by_policy _ _); [done|]. injection Hd as _ Hd. destruct requested as [am|].
    + destruct (Hreq am eq_refl) as (_ & _ & Hnp & _). rewrite Em in Hnp.
      unfold all_matches in Hnp. simpl in Hnp. rewrite app_nil_r in Hnp. unfold matches_of in Hnp.
      pose proof (rule_matches_policy p amendment) as Hp.
      destruct (rule_matches_of p amendment) as [|m ms]; [done|]. inversion Hp as [|? ? Hm]. simpl in Hnp.
      by rewrite Hm in Hnp.
    + destruct (negb _); [|done]. symmetry in Hd. apply derived_for_prompt in Hd. rewrite Em in Hd.
      by apply heuristics_match in Hd as (_ & ? & _).
  - by destruct Hd.
Qed.

(** An approval sticks.  When a request asks, the rule it offers is the
    request's own single command, the user accepts it and the update succeeds,
    then the rule has been handed to the rules file, and in memory the same
    request now runs without asking and outside the sandbox. *)
Theorem approved_amendment_sticks p req json_string io codex_home file s' amendment cs :
  commands_for_exec_policy try_parse_shell (req_command req) = Ok cs →
  commands cs = [amendment] →
  (∃ reason, requirement p req = Ok (NeedsApproval reason (Some amendment))) →
  append_amendment_and_update home_dir current_dir json_string io codex_home amendment (mkManager p file)
    = (s', Ok ()) →
  blocking_append_allow_prefix_rule json_string io (default_policy_path codex_home) amendment file
    = (rules_file s', Ok ()) ∧
  ∃ next, requirement (policy s') req = Ok (Skip true next).
Proof.
  intros Hcs Hcmds [reason Hneed] [Hfile Hcase]%append_update_cases. split; [done|]. cbn [policy] in Hcase.
  assert (Hno : rule_matches_of p amendment = []) by (by eapply offered_unmatched).
  destruct Hcase as [(_ & ? & _)|Hadd]; [done|].
  assert (Hex : exact_matches p amendment = []).
  { destruct (exact_matches p amendment) eqn:E; [done|].
    rewrite rule_matches_exact in Hno by (by rewrite E). congruence. }
  assert (Hms := exact_after_add _ _ _ _ Hadd). rewrite Hex in Hms. simpl in Hms.
  destruct (skip_cases (policy s') req) as (cs' & Hcs' & _ & Hskip). apply Hskip.
  rewrite Hcs in Hcs'. injection Hcs' as <-. rewrite Hcmds. intros cmd ->%list_elem_of_singleton.
  rewrite rule_matches_exact, Hms by (by rewrite Hms). split; [done|]. by intros m ->%list_elem_of_singleton.
Qed.
End approval.

(** ** Managed requirements *)

(** How strict an answer is, on the scale of [decision_rank]. *)
Definition strictness (r : ExecApprovalRequirement) : nat :=
  match r with Skip _ _ => 0 | NeedsApproval _ _ => 1 | RequirementForbidden _ => 2 end.

Section loading.
Context {MM : Type → Type} `{!MultiMap MM} `{!MultiMapLaws MM}.
Context (home_dir : option str) (current_dir : Res io_error str).
Context (try_parse_shell : str → option Node).
Context (parse_with_powershell_ast : str → str → PowershellParseOutcome).
Context (shlex_try_join : list str → option str).
Context (Hcd : no_panic current_dir).
Context (parser_law : ∀ src root, try_parse_shell src = Some root → tree_of src root).
#[local] Set Default Proof Using "All".

Local Abbreviation requirement := (create_exec_approval_requirement_for_command home_dir current_dir
  try_parse_shell parse_with_powershell_ast shlex_try_join).
Local Abbreviation rules_matching := (rule_matches_of home_dir current_dir).

Lemma exact_match_matches (p : Policy MM PrefixRule) cmd m :
  m ∈ exact_matches p cmd → m ∈ rules_matching p cmd.
Proof.
  intros Hm. assert (Hne : exact_matches p cmd ≠ []) by (intros E; rewrite E in Hm; by apply elem_of_nil in Hm).
  by rewrite (rule_matches_exact home_dir current_dir Hcd p cmd Hne).
Qed.

Lemma strict_of_match (p : Policy MM PrefixRule) req cs cmd m :
  commands_for_exec_policy try_parse_shell (req_command req) = Ok cs → cmd ∈ commands cs →
  m ∈ rules_matching p cmd →
  ∃ r, requirement p req = Ok r ∧ decision_rank (match_decision m) ≤ strictness r.
Proof.
  intros Hcs Hc Hm.
  destruct (requirement_cases home_dir current_dir try_parse_shell parse_with_powershell_ast shlex_try_join
    Hcd parser_law p req) as (cs' & e & Hcs' & _ & Em & _ & Hmax & requested & _ & Hd).
  rewrite Hcs in Hcs'. injection Hcs' as <-.
  assert (Hrank : decision_rank (match_decision m) ≤ decision_rank (eval_decision e)).
  { apply Hmax. rewrite Em, elem_of_all_matches by done. exists cmd. split; [done|]. unfold matches_of.
    destruct (rules_matching p cmd); [by apply elem_of_nil in Hm|done]. }
  destruct (eval_decision e).
  - destruct Hd as (b & -> & _). eauto.
  - destruct (prompt_is_rejected_by_policy _ _); rewrite Hd; eexists; (split; [done|]); simpl in *; lia.
  - destruct Hd as [reason ->]. eauto.
Qed.

(** Without exact matches, the rules that match are those by host
    executable. *)
Lemma rules_matching_host (p : Policy MM PrefixRule) cmd m :
  exact_matches p cmd = [] → m ∈ rules_matching p cmd ↔ host_match home_dir current_dir p cmd m.
Proof.
  intros He. destruct (host_matches_total home_dir current_dir p cmd Hcd) as [ms Hms].
  rewrite <-(host_matches_spec home_dir current_dir p cmd ms m Hms).
  assert (H := rule_matches_ok home_dir current_dir Hcd p cmd). unfold matches_for_command_with_options in H.
  rewrite match_exact_rules_eq, He, Hms in H.
  assert (ms = rules_matching p cmd) as -> by (destruct cmd, ms; simpl in H; congruence). done.
Qed.

(** The rules of the managed requirements that bind on a command: those that
    match it exactly, and, as long as no loaded rule does that, those that
    match it by host executable, where the loaded policy lists the same host
    executables for the program as the requirements. *)
Definition binds (requirements p : Policy MM PrefixRule) (cmd : list str) (m : RuleMatch) : Prop :=
  m ∈ exact_matches requirements cmd ∨
  exact_matches p cmd = [] ∧ host_match home_dir current_dir requirements cmd m ∧
  ∀ word program basename, head cmd = Some word →
    from_absolute_path home_dir current_dir word = Ok program → file_name program = Some basename →
    host_executables_by_name p !! basename = host_executables_by_name requirements !! basename.

Lemma merged_requirement_matches (base requirements : Policy MM PrefixRule) cmd m :
  binds requirements (merge_overlay base requirements) cmd m →
  m ∈ rules_matching (merge_overlay base requirements) cmd.
Proof.
  intros [Hm|(He & (word & args & prog & b & r & m' & -> & Hp & Hb & Hpaths & Hr & Hm & ->) & Hlist)].
  - apply exact_match_matches. rewrite exact_matches_merge. set_solver.
  - apply rules_matching_host; [done|]. exists word, args, prog, b, r, m'. split_and!; try done.
    + intros paths. rewrite (Hlist word prog b) by done. apply Hpaths.
    + rewrite rules_of_merge. set_solver.
Qed.

(** C5. Managed requirements bind.  When the rules files load, the policy
    answers every request at least as strictly as each rule of the managed
    requirements that binds on one of its commands: every rule that matches
    the command as it is written, whatever the user's and the project's rules
    are, and every rule that matches it by host executable (the full path of a
    program standing for its name), unless the loaded policy has a rule for
    the full path itself or lists other host executables for the program. *)
Theorem requirements_enforced read_dir read_policy shlex_split debug_rule debug_match starlark starlark_error
    layers ignore_user_and_project (requirements p : Policy MM PrefixRule) req cs cmd m :
  load_exec_policy home_dir current_dir shlex_try_join read_dir read_policy shlex_split debug_rule debug_match
    starlark starlark_error layers ignore_user_and_project (Some requirements) = Ok p →
  commands_for_exec_policy try_parse_shell (req_command req) = Ok cs → cmd ∈ commands cs →
  binds requirements p cmd m →
  ∃ r, requirement p req = Ok r ∧ decision_rank (match_decision m) ≤ strictness r.
Proof.
  intros Hload Hcs Hc Hm. eapply strict_of_match; [done..|].
  unfold load_exec_policy in Hload.
  destruct (collect_res _) as [paths| |]; [|done..]. cbn [mbind Res_bind] in Hload.
  destruct (parse_files _ _ _ _ _ _ _ _ _ _ _) as [b [[]| |]]; [|done..].
  cbn [mbind Res_bind] in Hload. injection Hload as <-.
  by apply merged_requirement_matches.
Qed.

Lemma rules_matching_empty cmd : rules_matching (Policy_empty : Policy MM PrefixRule) cmd = [].
Proof.
  assert (Hno : ∀ k, rules_of (Policy_empty : Policy MM PrefixRule) k = []).
  { intros k. unfold rules_of. simpl. by rewrite get_vec_new. }
  destruct (rules_matching Policy_empty cmd) as [|m ms] eqn:E; [done|]. exfalso.
  assert (He : exact_matches (Policy_empty : Policy MM PrefixRule) cmd = []).
  { unfold exact_matches. destruct cmd; [done|]. by rewrite Hno. }
  assert (Hm : m ∈ rules_matching Policy_empty cmd) by (rewrite E; by left).
  apply (rules_matching_host _ _ _ He) in Hm as (? & ? & ? & ? & r & ? & _ & _ & _ & _ & Hr & _).
  rewrite Hno in Hr. by apply elem_of_nil in Hr.
Qed.

(** C40. A rules file that does not parse switches the managed requirements
    off.  Whenever the user's or the project's rules files end in a syntax
    error, loading goes on, with a warning, with the empty policy, whatever
    the requirements are; so a request that the requirements alone refuse is
    let through without a question and without the policy being consulted,
    if the heuristics for commands without rules let its commands run. *)
Theorem parse_error_drops_requirements read_dir read_policy shlex_split debug_rule debug_match starlark
    starlark_error layers ignore_user_and_project paths b path source (requirements : Policy MM PrefixRule)
    req cs cmd m :
  collect_res (map (layer_policy_files home_dir read_dir ignore_user_and_project) layers) = Ok paths →
  parse_files home_dir current_dir shlex_try_join read_policy shlex_split debug_rule debug_match
    starlark starlark_error (concat paths) PolicyBuilder_new = (b, Err (ParsePolicy path source)) →
  commands_for_exec_policy try_parse_shell (req_command req) = Ok cs → cmd ∈ commands cs →
  m ∈ exact_matches requirements cmd → match_decision m = Forbidden →
  (∀ cmd, cmd ∈ commands cs →
     runs_unattended try_parse_shell parse_with_powershell_ast req (used_complex_parsing cs) cmd) →
  (∃ reason, requirement requirements req = Ok (RequirementForbidden reason)) ∧
  load_exec_policy_with_warning home_dir current_dir shlex_try_join read_dir read_policy shlex_split debug_rule
    debug_match starlark starlark_error layers ignore_user_and_project (Some requirements)
  = Ok (Policy_empty, Some (ParsePolicy path source)) ∧
  ∃ amendment, requirement Policy_empty req = Ok (Skip false amendment).
Proof.
  intros Hpaths Hparse Hcs Hc Hm Hforbidden Hun. split_and!.
  - destruct (strict_of_match requirements req cs cmd m Hcs Hc (exact_match_matches _ _ _ Hm))
      as (r & Hr & Hle).
    rewrite Hforbidden in Hle. destruct r as [| |reason]; simpl in Hle; [lia..|]. by exists reason.
  - unfold load_exec_policy_with_warning, load_exec_policy. rewrite Hpaths. cbn [mbind Res_bind].
    by rewrite Hparse.
  - destruct (skip_cases home_dir current_dir try_parse_shell parse_with_powershell_ast shlex_try_join
      Hcd parser_law Policy_empty req) as (cs' & Hcs' & Hskip & Hbypass).
    rewrite Hcs in Hcs'. injection Hcs' as <-.
    destruct (proj2 Hskip) as (bypass & amendment & Hr).
    { intros c Hin. rewrite rules_matching_empty. split; [by intros ? ?%elem_of_nil|]. auto. }
    destruct bypass; [|by exists amendment]. exfalso.
    destruct (proj1 Hbypass (ex_intro _ amendment Hr) cmd Hc) as [Hne _]. by rewrite rules_matching_empty in Hne.
Qed.
End loading.

(** ** Examples *)

Definition restricted_policy : FileSystemSandboxPolicy :=
  {| kind := Restricted; glob_scan_max_depth := None; entries := [] |}.

Definition demo_request (a : AskForApproval) (command : list str) : ExecApprovalRequest :=
  {| req_command := command; approval_policy := a;
     permission_profile := Managed ManagedUnrestricted NetworkRestricted;
     req_file_system_policy := restricted_policy; sandbox_permissions := UseDefault;
     req_prefix_rule := None |}.

Definition demo_requirement : Policy gmap_mm PrefixRule → ExecApprovalRequest → Total ExecApprovalRequirement :=
  create_exec_approval_requirement_for_command None (Ok (lit "/w")) demo_parse demo_powershell demo_join.

Example demo_asks : demo_requirement git_policy (demo_request UnlessTrusted [lit "npm"; lit "test"])
  = Ok (NeedsApproval None (Some [lit "npm"; lit "test"])).
Proof. vm_compute. reflexivity. Qed.
Example demo_skips :
  demo_requirement git_policy (demo_request UnlessTrusted [lit "git"; lit "status"; lit "-s"]) = Ok (Skip true None).
Proof. vm_compute. reflexivity. Qed.

Lemma requirement_correct_witness :
  ∃ cs r, commands_for_exec_policy demo_parse [lit "npm"; lit "test"] = Ok cs ∧
    demo_requirement git_policy (demo_request Never [lit "npm"; lit "test"]) = Ok r ∧
    let ms := all_matches None (Ok (lit "/w")) (exec_policy_fallback demo_parse demo_powershell
      (demo_request Never [lit "npm"; lit "test"]) (used_complex_parsing cs)) git_policy (commands cs) in
    match r with
    | Skip _ _ => ∀ m, m ∈ ms → match_decision m = Allow
    | NeedsApproval _ _ =>
        (∀ m, m ∈ ms → match_decision m ≠ Forbidden) ∧ (∃ m, m ∈ ms ∧ match_decision m = Prompt) ∧
        may_ask Never (existsb (is_rule_with Prompt) ms)
    | RequirementForbidden _ =>
        (∃ m, m ∈ ms ∧ match_decision m = Forbidden) ∨
        ((∃ m, m ∈ ms ∧ match_decision m = Prompt) ∧ ¬ may_ask Never (existsb (is_rule_with Prompt) ms))
    end.
Proof.
  exact (requirement_correct None (Ok (lit "/w")) demo_parse demo_powershell demo_join I demo_parse_law
    git_policy (demo_request Never [lit "npm"; lit "test"])).
Defined.

Lemma skip_correct_witness :
  ∃ cs, commands_for_exec_policy demo_parse [lit "git"; lit "status"] = Ok cs ∧
    ((∃ bypass amendment, demo_requirement git_policy (demo_request UnlessTrusted [lit "git"; lit "status"])
        = Ok (Skip bypass amendment)) ↔
      ∀ cmd, cmd ∈ commands cs →
        (∀ m, m ∈ rule_matches_of None (Ok (lit "/w")) git_policy cmd → match_decision m = Allow) ∧
        (rule_matches_of None (Ok (lit "/w")) git_policy cmd = [] →
          runs_unattended demo_parse demo_powershell
            (demo_request UnlessTrusted [lit "git"; lit "status"]) (used_complex_parsing cs) cmd)) ∧
    ((∃ amendment, demo_requirement git_policy (demo_request UnlessTrusted [lit "git"; lit "status"])
        = Ok (Skip true amendment)) ↔ ∀ cmd, cmd ∈ commands cs →
      rule_matches_of None (Ok (lit "/w")) git_policy cmd ≠ [] ∧
      ∀ m, m ∈ rule_matches_of None (Ok (lit "/w")) git_policy cmd → match_decision m = Allow).
Proof.
  exact (skip_correct None (Ok (lit "/w")) demo_parse demo_powershell demo_join I demo_parse_law
    git_policy (demo_request UnlessTrusted [lit "git"; lit "status"])).
Defined.

Lemma offered_amendment_sound_witness :
  ∃ cs, commands_for_exec_policy demo_parse [lit "npm"; lit "test"] = Ok cs ∧
    used_complex_parsing cs = false ∧
    ((None = Some [lit "npm"; lit "test"] ∧ ([lit "npm"; lit "test"] ∉ BANNED_PREFIX_SUGGESTIONS) ∧
      ∃ p', add_prefix_rule git_policy [lit "npm"; lit "test"] Allow = Ok p' ∧
        ∀ cmd, cmd ∈ commands cs → ∃ e, check_with_options None (Ok (lit "/w")) p' cmd
          (exec_policy_fallback demo_parse demo_powershell
             (demo_request UnlessTrusted [lit "npm"; lit "test"]) false) match_options = Ok e ∧
          eval_decision e = Allow) ∨
     ([lit "npm"; lit "test"] ∈ commands cs ∧
      rule_matches_of None (Ok (lit "/w")) git_policy [lit "npm"; lit "test"] = [])).
Proof.
  refine (offered_amendment_sound None (Ok (lit "/w")) demo_parse demo_powershell demo_join I demo_parse_law
    git_policy (demo_request UnlessTrusted [lit "npm"; lit "test"])
    (NeedsApproval None (Some [lit "npm"; lit "test"])) [lit "npm"; lit "test"] _ _).
  - vm_compute. reflexivity.
  - reflexivity.
Defined.

Definition demo_update : ExecPolicyManager (MM:=gmap_mm) * Res ExecPolicyUpdateError unit :=
  append_amendment_and_update None (Ok (lit "/w")) quote_word demo_io (lit "/h")
    [lit "npm"; lit "test"] (mkManager git_policy []).

Lemma approved_amendment_sticks_witness :
  blocking_append_allow_prefix_rule quote_word demo_io (default_policy_path (lit "/h"))
    [lit "npm"; lit "test"] [] = (rules_file demo_update.1, Ok ()) ∧
  ∃ next, demo_requirement (policy demo_update.1) (demo_request UnlessTrusted [lit "npm"; lit "test"])
    = Ok (Skip true next).
Proof.
  apply (approved_amendment_sticks None (Ok (lit "/w")) demo_parse demo_powershell demo_join I demo_parse_law
    git_policy (demo_request UnlessTrusted [lit "npm"; lit "test"]) quote_word demo_io (lit "/h") []
    demo_update.1 [lit "npm"; lit "test"] (mkCommands [[lit "npm"; lit "test"]] false)).
  - vm_compute. reflexivity.
  - reflexivity.
  - exists None. vm_compute. reflexivity.
  - vm_compute. reflexivity.
Defined.

(** One layer with one rules file, which Starlark rejects when its text is
    not empty. *)
Definition demo_layer : ConfigLayer := mkLayer true (Some (lit "/w/.codex")).
Definition demo_read_dir (dir : str) : Res io_error (list (Res io_error (str * Res io_error bool))) :=
  Ok [Ok (dir ++ lit "/p.rules", Ok true)].
Definition strict_starlark (identifier contents : str) : Res Error (list builtin_call * option Error) :=
  if decide (contents = []) then Ok ([], None) else Err (InvalidRule (lit "parse error")).
Definition demo_load (text : str) (requirements : Policy gmap_mm PrefixRule) :=
  load_exec_policy None (Ok (lit "/w")) demo_join demo_read_dir (λ _, Ok text) demo_split (λ _, []) (λ _, [])
    strict_starlark id [demo_layer] false (Some requirements).
Definition demo_load_with_warning (text : str) (requirements : Policy gmap_mm PrefixRule) :=
  load_exec_policy_with_warning None (Ok (lit "/w")) demo_join demo_read_dir (λ _, Ok text) demo_split
    (λ _, []) (λ _, []) strict_starlark id [demo_layer] false (Some requirements).

(** Managed requirements that forbid [git push]. *)
Definition no_push : Policy gmap_mm PrefixRule :=
  match add_prefix_rule Policy_empty [lit "git"; lit "push"] Forbidden with
  | Ok p => p
  | _ => Policy_empty
  end.
Definition push_request : ExecApprovalRequest := demo_request OnRequest [lit "git"; lit "push"].

Lemma requirements_enforced_witness :
  ∃ r, demo_requirement (match demo_load [] no_push with Ok p => p | _ => Policy_empty end)
      (demo_request OnRequest [lit "/usr/bin/git"; lit "push"]) = Ok r ∧
    decision_rank Forbidden ≤ strictness r.
Proof.
  refine (requirements_enforced None (Ok (lit "/w")) demo_parse demo_powershell demo_join I demo_parse_law
    demo_read_dir (λ _, Ok []) demo_split (λ _, []) (λ _, []) strict_starlark id [demo_layer] false
    no_push _ (demo_request OnRequest [lit "/usr/bin/git"; lit "push"])
    (mkCommands [[lit "/usr/bin/git"; lit "push"]] false) [lit "/usr/bin/git"; lit "push"]
    (PrefixRuleMatch [lit "git"; lit "push"] Forbidden (Some (lit "/usr/bin/git")) None) _ _ _ _).
  - vm_compute. reflexivity.
  - vm_compute. reflexivity.
  - by left.
  - right. split; [vm_compute; reflexivity|]. split.
    + exists (lit "/usr/bin/git"), [lit "push"], (lit "/usr/bin/git"), (lit "git"),
        {| pattern := {| first := lit "git"; rest := [Single (lit "push")] |}; decision := Forbidden;
           justification := None |}, (PrefixRuleMatch [lit "git"; lit "push"] Forbidden None None).
      split_and!; try (vm_compute; reflexivity); [intros paths H; vm_compute in H; discriminate|].
      vm_compute. left.
    + intros word program basename _ _ _. vm_compute. reflexivity.
Defined.

(** A rule of the user's for the full path sets the requirement for the
    program's name aside. *)
Example full_path_rule_relaxes_requirement :
  ∃ p, add_prefix_rule no_push [lit "/usr/bin/git"] Allow = Ok p ∧
    demo_requirement p (demo_request OnRequest [lit "/usr/bin/git"; lit "push"]) = Ok (Skip true None).
Proof. eexists. split; vm_compute; reflexivity. Qed.

Lemma parse_error_drops_requirements_witness :
  (∃ reason, demo_requirement no_push push_request = Ok (RequirementForbidden reason)) ∧
  (∃ path source, demo_load_with_warning (lit "oops(") no_push
    = Ok (Policy_empty, Some (ParsePolicy path source))) ∧
  ∃ amendment, demo_requirement Policy_empty push_request = Ok (Skip false amendment).
Proof.
  destruct (parse_error_drops_requirements None (Ok (lit "/w")) demo_parse demo_powershell demo_join I
    demo_parse_law demo_read_dir (λ _, Ok (lit "oops(")) demo_split (λ _, []) (λ _, []) strict_starlark id
    [demo_layer] false [[lit "/w/.codex/rules/p.rules"]] PolicyBuilder_new (lit "/w/.codex/rules/p.rules")
    (InvalidRule (lit "parse error")) no_push push_request (mkCommands [[lit "git"; lit "push"]] false)
    [lit "git"; lit "push"] (PrefixRuleMatch [lit "git"; lit "push"] Forbidden None None))
    as (Hrefused & Hload & Hruns).
  - vm_compute. reflexivity.
  - vm_compute. reflexivity.
  - vm_compute. reflexivity.
  - by left.
  - vm_compute. left.
  - reflexivity.
  - intros cmd ->%list_elem_of_singleton. right; left. split; [vm_compute; reflexivity|]. split; [done|]. by right; right; right.
  - split; [exact Hrefused|]. split; [|exact Hruns]. do 2 eexists. exact Hload.
Defined.
