(* ===== verification/GrantedPermissions.v ===== *)
(** * Granted permissions: [core/src/tools/handlers/mod.rs], [core/src/session/mod.rs]

    Permissions a reviewer has granted stay with the turn or the session.  A
    command that asks for more is merged with them, and runs without a new
    approval when everything it asks for was granted before. *)
From S2P Require Import Prelude RustStr AbsolutePath FileSystem Ordering Paths Permissions SandboxRoots PermissionsProofs RuntimeEnforcement PermissionProfile PolicyTransforms ExecPolicy ExecApproval.

(** ** Data *)

#[global] Instance NetworkPermissions_eq_dec : EqDecision NetworkPermissions.
Proof. solve_decision. Defined.

Inductive PermissionGrantScope := ScopeTurn | ScopeSession.

(** [RequestPermissionProfile] has the two fields of
    [AdditionalPermissionProfile], and converts both ways. *)
Record RequestPermissionsResponse := mkResponse {
  permissions : AdditionalPermissionProfile;
  scope : PermissionGrantScope;
  strict_auto_review : bool
}.

Record EffectiveAdditionalPermissions := mkEffective {
  eff_sandbox_permissions : SandboxPermissions;
  eff_additional_permissions : option AdditionalPermissionProfile;
  permissions_preapproved : bool
}.

(** What the session and the active turn have been granted.  [turn_granted] is
    [None] when there is no active turn. *)
Record TurnGrants := mkTurn {
  turn_granted_permissions : option AdditionalPermissionProfile;
  strict_auto_review_enabled : bool
}.
Record Grants := mkGrants {
  active_turn : option TurnGrants;
  session_granted_permissions : option AdditionalPermissionProfile
}.

(** Equality of profiles, as derived. *)
Fixpoint list_eqb {A} (eqb : A → A → bool) (l k : list A) : bool :=
  match l, k with
  | [], [] => true
  | x :: l, y :: k => eqb x y && list_eqb eqb l k
  | _, _ => false
  end.
Definition file_system_eqb (l r : option FileSystemPermissions) : bool :=
  match l, r with
  | Some l, Some r =>
      list_eqb entry_eqb (perm_entries l) (perm_entries r) &&
      bool_decide (perm_glob_scan_max_depth l = perm_glob_scan_max_depth r)
  | None, None => true
  | _, _ => false
  end.
Definition additional_eqb (l r : AdditionalPermissionProfile) : bool :=
  bool_decide (add_network l = add_network r) && file_system_eqb (add_file_system l) (add_file_system r).

(** ** What was granted *)

Definition granted_turn_permissions (g : Grants) : option AdditionalPermissionProfile :=
  active_turn g ≫= turn_granted_permissions.
Definition granted_session_permissions (g : Grants) : option AdditionalPermissionProfile :=
  session_granted_permissions g.
Definition strict_auto_review_enabled_for_turn (g : Grants) : bool :=
  match active_turn g with Some t => strict_auto_review_enabled t | None => false end.

(** [TurnState::record_granted_permissions], [SessionState::record_granted_permissions] *)
Definition turn_record_granted_permissions (p : AdditionalPermissionProfile) (t : TurnGrants) : TurnGrants :=
  mkTurn (merge_permission_profiles (turn_granted_permissions t) (Some p)) (strict_auto_review_enabled t).
Definition enable_strict_auto_review (t : TurnGrants) : TurnGrants :=
  mkTurn (turn_granted_permissions t) true.
Definition session_record_granted_permissions (p : AdditionalPermissionProfile) (g : Grants) : Grants :=
  mkGrants (active_turn g) (merge_permission_profiles (session_granted_permissions g) (Some p)).

(** The originating turn is the active one, when there is one. *)
Definition record_granted_request_permissions_for_turn (response : RequestPermissionsResponse) (g : Grants)
    : Grants :=
  if additional_is_empty (permissions response) then g
  else
    match scope response with
    | ScopeTurn =>
        mkGrants
          ((λ t, let t := turn_record_granted_permissions (permissions response) t in
                 if strict_auto_review response then enable_strict_auto_review t else t) <$> active_turn g)
          (session_granted_permissions g)
    | ScopeSession => session_record_granted_permissions (permissions response) g
    end.

Definition no_permissions : RequestPermissionsResponse := mkResponse (mkAdditional None None) ScopeTurn false.

Inductive NetworkPolicyRuleAction := ActionAllow | ActionDeny.

Inductive ReviewDecision :=
| Approved
| ApprovedExecpolicyAmendment (proposed_execpolicy_amendment : list str)
| ApprovedForSession
| NetworkPolicyAmendment (host : str) (action : NetworkPolicyRuleAction)
| Denied
| TimedOut
| Abort.

Section env.
Context (env : Env) (build_glob_matcher : str → option (str → bool)).

Definition normalize_request_permissions_response (requested : AdditionalPermissionProfile)
    (response : RequestPermissionsResponse) (cwd : str) : RequestPermissionsResponse :=
  if strict_auto_review response && match scope response with ScopeSession => true | ScopeTurn => false end
  then no_permissions
  else if additional_is_empty (permissions response) then response
  else mkResponse
    (intersect_permission_profiles env build_glob_matcher requested (permissions response) cwd)
    (scope response) (strict_auto_review response).

(** [notify_request_permissions_response] for a request that is pending. *)
Definition notify_request_permissions_response (requested : AdditionalPermissionProfile) (cwd : str)
    (response : RequestPermissionsResponse) (g : Grants) : RequestPermissionsResponse * Grants :=
  let response := normalize_request_permissions_response requested response cwd in
  (response, record_granted_request_permissions_for_turn response g).

(** The answer of an automatic review of a request for permissions. *)
Definition response_of_review (requested : AdditionalPermissionProfile) (decision : ReviewDecision)
    : RequestPermissionsResponse :=
  match decision with
  | Approved | ApprovedExecpolicyAmendment _ => mkResponse requested ScopeTurn false
  | ApprovedForSession => mkResponse requested ScopeSession false
  | NetworkPolicyAmendment _ ActionAllow => mkResponse requested ScopeTurn false
  | NetworkPolicyAmendment _ ActionDeny => no_permissions
  | Abort | Denied | TimedOut => no_permissions
  end.

(** What comes of a request for permissions: it is cancelled, the automatic
    reviewer decides, or the user responds. *)
Inductive Reviewer :=
| ReviewCancelled
| AutoReviewer (decision : ReviewDecision)
| UserReviewer (response : RequestPermissionsResponse).

Definition request_permissions_for_cwd (policy : AskForApproval) (requested : AdditionalPermissionProfile)
    (cwd : str) (reviewer : Reviewer) (g : Grants) : option RequestPermissionsResponse * Grants :=
  let ask :=
    match reviewer with
    | ReviewCancelled => (None, g)
    | AutoReviewer decision =>
        let (response, g) := notify_request_permissions_response requested cwd
                               (response_of_review requested decision) g in (Some response, g)
    | UserReviewer response =>
        match active_turn g with
        | Some _ =>
            let (response, g) := notify_request_permissions_response requested cwd response g in
            (Some response, g)
        | None => (None, g)
        end
    end in
  match policy with
  | Never => (Some no_permissions, g)
  | Granular config => if request_permissions config then ask else (Some no_permissions, g)
  | OnFailure | OnRequest | UnlessTrusted => ask
  end.

(** ** What a command gets *)

Definition permissions_are_preapproved (effective granted : AdditionalPermissionProfile) (cwd : str) : bool :=
  additional_eqb (intersect_permission_profiles env build_glob_matcher effective granted cwd)
    (intersect_permission_profiles env build_glob_matcher effective effective cwd).

Definition apply_granted_turn_permissions (g : Grants) (cwd : str) (sandbox_permissions : SandboxPermissions)
    (additional : option AdditionalPermissionProfile) : EffectiveAdditionalPermissions :=
  match sandbox_permissions with
  | RequireEscalated => mkEffective sandbox_permissions additional false
  | UseDefault | WithAdditionalPermissions =>
      let granted := merge_permission_profiles (granted_session_permissions g) (granted_turn_permissions g) in
      let effective := merge_permission_profiles additional granted in
      let preapproved :=
        match effective, granted with
        | Some effective, Some granted => permissions_are_preapproved effective granted cwd
        | _, _ => false
        end in
      mkEffective
        (match effective with
         | Some _ => WithAdditionalPermissions
         | None => sandbox_permissions
         end) effective preapproved
  end.

Definition implicit_granted_permissions (sandbox_permissions : SandboxPermissions)
    (additional : option AdditionalPermissionProfile) (effective : EffectiveAdditionalPermissions)
    : option AdditionalPermissionProfile :=
  match sandbox_permissions, additional with
  | UseDefault, None => eff_additional_permissions effective
  | _, _ => None
  end.

(** The derived [Debug] of the approval policy. *)
Definition debug_bool (b : bool) : str := lit (if b then "true" else "false").
Definition debug_policy (policy : AskForApproval) : str :=
  match policy with
  | UnlessTrusted => lit "UnlessTrusted"
  | OnFailure => lit "OnFailure"
  | OnRequest => lit "OnRequest"
  | Granular c =>
      lit "Granular(GranularApprovalConfig { sandbox_approval: " ++ debug_bool (sandbox_approval c) ++
      lit ", rules: " ++ debug_bool (rules c) ++
      lit ", skill_approval: " ++ debug_bool (skill_approval c) ++
      lit ", request_permissions: " ++ debug_bool (request_permissions c) ++
      lit ", mcp_elicitations: " ++ debug_bool (mcp_elicitations c) ++ lit " })"
  | Never => lit "Never"
  end.

Definition normalize_and_validate_additional_permissions (additional_permissions_allowed : bool)
    (policy : AskForApproval) (sandbox_permissions : SandboxPermissions)
    (additional : option AdditionalPermissionProfile) (preapproved : bool)
    : Res str (option AdditionalPermissionProfile) :=
  let uses := match sandbox_permissions with WithAdditionalPermissions => true | _ => false end in
  if negb preapproved && negb additional_permissions_allowed &&
     (uses || match additional with Some _ => true | None => false end)
  then Err (lit "additional permissions are disabled; enable `features.exec_permission_approvals` before using `with_additional_permissions`")
  else if uses then
    if negb preapproved && match policy with OnRequest => false | _ => true end
    then Err (lit "approval policy is " ++ debug_policy policy ++ lit "; reject command — you cannot request additional permissions unless the approval policy is OnRequest")
    else
      match additional with
      | None => Err (lit "missing `additional_permissions`; provide at least one of `network` or `file_system` when using `with_additional_permissions`")
      | Some additional =>
          normalized ← normalize_additional_permissions env additional;
          if additional_is_empty normalized
          then Err (lit "`additional_permissions` must include at least one requested permission in `network` or `file_system`")
          else Ok (Some normalized)
      end
  else
    match additional with
    | Some _ => Err (lit "`additional_permissions` requires `sandbox_permissions` set to `with_additional_permissions`")
    | None => Ok None
    end.
End env.

(** ** Equal profiles decide alike *)

Lemma path_eqb_sym p q : path_eqb p q = path_eqb q p.
Proof. apply eq_true_iff_eq. rewrite !path_eqb_spec. naive_solver. Qed.

Lemma special_eqb_sym s t : special_eqb s t = special_eqb t s.
Proof.
  assert (Ho : ∀ p q, option_path_eqb p q = option_path_eqb q p).
  { intros [p|] [q|]; try done. apply path_eqb_sym. }
  destruct s, t; try done; simpl; rewrite Ho; [done|]. f_equal. apply bool_decide_ext. naive_solver.
Qed.

Lemma entry_eqb_sym e e' : entry_eqb e e' = entry_eqb e' e.
Proof.
  unfold entry_eqb. rewrite (bool_decide_ext (entry_access e = entry_access e') (entry_access e' = entry_access e))
    by naive_solver. f_equal.
  destruct (entry_path e) as [p|p|s], (entry_path e') as [p'|p'|s']; try done; simpl.
  - apply path_eqb_sym.
  - apply bool_decide_ext. naive_solver.
  - apply special_eqb_sym.
Qed.

Lemma list_eqb_sym {A} (eqb : A → A → bool) l k :
  (∀ x y, eqb x y = eqb y x) → list_eqb eqb l k = list_eqb eqb k l.
Proof. intros H. revert k. induction l as [|x l IH]; intros [|y k]; simpl; try done. by rewrite H, IH. Qed.

Lemma list_eqb_elem {A} (eqb : A → A → bool) l k x :
  list_eqb eqb l k = true → x ∈ l → ∃ y, y ∈ k ∧ eqb x y = true.
Proof.
  revert k. induction l as [|z l IH]; intros [|y k]; simpl; try done; [by intros _ ?%elem_of_nil|].
  intros [Hz Hl]%andb_true_iff [->|Hx]%elem_of_cons; [exists y; set_solver|].
  destruct (IH k Hl Hx) as (w & ? & ?). exists w. set_solver.
Qed.

Section alike.
Context (env : Env) (build : str → option (str → bool)) (cwd : str).
Hypothesis Henv : env_ok env.
Hypothesis Hcwd : normalized_abs cwd.
#[local] Set Default Proof Using "Type*".

Lemma eqb_hits es es' x c a :
  Forall entry_wf es → Forall entry_wf es' → list_eqb entry_eqb es es' = true →
  hits env cwd es x c a → hits env cwd es' x c a.
Proof.
  intros Hw Hw' Heq (e & q & He & Ha & Hq & Hc & Hx).
  destruct (list_eqb_elem _ _ _ e Heq He) as (e' & He' & E).
  destruct (entry_eqb_resolves env cwd Henv Hcwd e e' q) as (Ha' & q' & Hq' & Hc');
    [by eapply Forall_forall in Hw|by eapply Forall_forall in Hw'|done..|].
  exists e', q'. repeat split; [done|congruence|done|congruence|done].
Qed.

(** Entries that hit alike give the same access. *)
Lemma hits_access es es' x :
  normalized_abs x → (∀ c a, hits env cwd es x c a ↔ hits env cwd es' x c a) →
  resolve_access_with_cwd env (restricted es) x cwd = resolve_access_with_cwd env (restricted es') x cwd.
Proof.
  intros Hx H. assert (Hcwd' := normalized_is_absolute cwd Hcwd).
  destruct (access_cases env cwd Henv Hcwd' es x Hx) as [[c [Hh Hm]]|[Hno ->]].
  - symmetry. apply (decides_access env cwd Henv Hcwd' es' x c); [done|].
    split; [by apply H|]. intros c' a' Hh'. by apply Hm, H.
  - destruct (access_cases env cwd Henv Hcwd' es' x Hx) as [[c [Hh _]]|[_ ->]]; [|done].
    apply H in Hh. by destruct (Hno _ _ Hh).
Qed.

Lemma intersection_wf r g :
  Forall entry_wf (perm_entries r) → Forall entry_wf (perm_entries g) →
  Forall entry_wf (perm_entries (intersect_file_system env build r g cwd)).
Proof.
  intros Hr Hg. unfold intersect_file_system, retain_constraining_deny_entries. simpl.
  repeat apply wf_pushed; try apply wf_materialized; try apply wf_part; try done.
Qed.

(** Without denials, a profile intersected with itself gives what it gave. *)
Lemma self_intersection_hits r x c a :
  Forall entry_wf (perm_entries r) → Forall (λ e, entry_access e ≠ AccessNone) (perm_entries r) →
  hits env cwd (perm_entries (intersect_file_system env build r r cwd)) x c a ↔
  hits env cwd (perm_entries r) x c a.
Proof.
  intros Hr Hn. assert (Hcwd' := normalized_is_absolute cwd Hcwd).
  rewrite (hits_output env build cwd r r Henv Hcwd Hr Hr). split.
  - intros [(e & q & [He _]%elem_of_filterb & H)|[(e & q & [He _]%elem_of_filterb & H)
      |(e & q & [He _]%elem_of_filterb & H)]]; by exists e, q.
  - intros (e & q & He & <- & Hq & Hc & Hx). left. exists e, q. repeat split; try done.
    apply elem_of_filterb. split; [done|].
    assert (Hne : entry_access e ≠ AccessNone) by (by eapply Forall_forall in Hn).
    assert (Hnq : normalized_abs q).
    { eapply (resolve_entry_normalized env _ cwd); [done..| |done]. by eapply Forall_forall in Hr. }
    unfold granted_file_system_entry_within_request.
    replace (can_read (entry_access e)) with true by (by destruct (entry_access e)). simpl.
    rewrite permission_path_eq by done. unfold resolves in Hq. rewrite Hq.
    assert (Hm : new_matcher env build (restricted (perm_entries r)) cwd = None).
    { unfold new_matcher. replace (has_denied_read_restrictions _) with false; [done|]. symmetry.
      apply not_true_iff_false. unfold has_denied_read_restrictions. simpl.
      intros (e0 & He0 & E%bool_decide_eq_true)%existsb_elem. by eapply Forall_forall in Hn. }
    rewrite Hm.
    destruct (access_cases env cwd Henv Hcwd' (perm_entries r) q Hnq) as [[c' [Hh Hmax]]|[Hno _]].
    2:{ edestruct Hno. exists e, q. repeat split; [done..|]. done. }
    destruct (Hmax (components q) (entry_access e)) as [P Rk].
    { exists e, q. by repeat split. }
    assert (E : components q = c').
    { apply (anti_symm prefix); [done|]. by destruct Hh as (? & ? & _ & _ & _ & _ & ?). }
    specialize (Rk E). destruct Hh as (e1 & _ & He1 & Ha1 & _).
    assert (Hne1 : entry_access e1 ≠ AccessNone) by (by eapply Forall_forall in Hn). rewrite Ha1 in Hne1.
    by destruct (resolve_access_with_cwd _ _ _ _), (entry_access e); simpl in *; try lia.
Qed.
End alike.

(** ** What runs without a new approval was granted *)

Lemma additional_eqb_entries l r :
  additional_eqb l r = true →
  add_network l = add_network r ∧ list_eqb entry_eqb (profile_entries l) (profile_entries r) = true.
Proof.
  unfold additional_eqb, profile_entries. intros [Hn%bool_decide_eq_true Hf]%andb_true_iff. split; [done|].
  unfold file_system_eqb in Hf. destruct (add_file_system l), (add_file_system r); try done.
  simpl. by apply andb_true_iff in Hf as [? _].
Qed.

Lemma profile_intersection_wf env build requested granted cwd :
  env_ok env → normalized_abs cwd →
  Forall entry_wf (profile_entries requested) → Forall entry_wf (profile_entries granted) →
  Forall entry_wf (profile_entries (intersect_permission_profiles env build requested granted cwd)).
Proof.
  intros Henv Hcwd Hr Hg. rewrite intersection_entries. unfold profile_entries in *.
  destruct (add_file_system requested) as [r|]; [|constructor].
  apply intersection_wf; try done. by destruct (add_file_system granted).
Qed.

(** Without denials the effective permissions give what their intersection
    with the grant gives, when that makes them preapproved. *)
Lemma preapproved_access env build effective granted cwd x :
  env_ok env → normalized_abs cwd → normalized_abs x →
  Forall entry_wf (profile_entries effective) → Forall entry_wf (profile_entries granted) →
  Forall (λ e, entry_access e ≠ AccessNone) (profile_entries effective) →
  permissions_are_preapproved env build effective granted cwd = true →
  resolve_access_with_cwd env (restricted (profile_entries effective)) x cwd =
  resolve_access_with_cwd env (restricted (profile_entries
    (intersect_permission_profiles env build effective granted cwd))) x cwd.
Proof.
  intros Henv Hcwd Hx Hr Hg Hn Hpre. apply additional_eqb_entries in Hpre as [_ Heq].
  assert (Hself : ∀ c a,
    hits env cwd (profile_entries (intersect_permission_profiles env build effective effective cwd)) x c a ↔
    hits env cwd (profile_entries effective) x c a).
  { intros c a. rewrite intersection_entries. unfold profile_entries in *.
    destruct (add_file_system effective) as [r|]; [|done]. by apply self_intersection_hits. }
  apply (hits_access env cwd Henv Hcwd); [done|]. intros c a. rewrite <-Hself.
  split; apply eqb_hits; try done; try by apply profile_intersection_wf.
  rewrite list_eqb_sym; [done|apply entry_eqb_sym].
Qed.

(** Permissions that count as already approved were granted.  When a command
    asks for permissions without denials, and they count as preapproved, then
    the command may read only what the earlier grants let it read, and write
    only what they let it write. *)
Theorem preapproved_within_grant env build effective granted cwd x :
  env_ok env → normalized_abs cwd → normalized_abs x → no_links env →
  Forall entry_wf (profile_entries effective) → Forall entry_wf (profile_entries granted) →
  Forall (λ e, entry_access e ≠ AccessNone ∧ is_glob (entry_path e) = false) (profile_entries effective) →
  permissions_are_preapproved env build effective granted cwd = true →
  let access p := resolve_access_with_cwd env (restricted (profile_entries p)) x cwd in
  (can_read (access effective) = true → can_read (access granted) = true) ∧
  (access effective = AccessWrite → access granted = AccessWrite).
Proof.
  intros Henv Hcwd Hx Hl Hr Hg Hn Hpre access. unfold access.
  apply Forall_and in Hn as [Hn Hglob].
  rewrite (preapproved_access env build effective granted cwd x) by done.
  split; [|by apply intersection_write]. intros H. by apply intersection_read in H as [_ ?].
Qed.

Ltac norm_path names := exists names; split; [by_compute|reflexivity].

Lemma preapproved_within_grant_witness :
  let granted := ask [path_entry "/data" AccessWrite; path_entry "/etc" AccessRead] in
  let effective := ask [path_entry "/data/out" AccessWrite] in
  let access p := resolve_access_with_cwd demo_env (restricted (profile_entries p)) (lit "/data/out") (lit "/w") in
  permissions_are_preapproved demo_env (λ _, None) effective granted (lit "/w") = false ∧
  permissions_are_preapproved demo_env (λ _, None) granted granted (lit "/w") = true ∧
  access granted = AccessWrite.
Proof.
  split_and!; [by_compute..|].
  refine (proj2 (preapproved_within_grant demo_env (λ _, None)
    (ask [path_entry "/data" AccessWrite; path_entry "/etc" AccessRead])
    (ask [path_entry "/data" AccessWrite; path_entry "/etc" AccessRead])
    (lit "/w") (lit "/data/out") _ _ _ _ _ _ _ _) _).
  - exists (lit "/work"). split; reflexivity.
  - norm_path [lit "w"].
  - norm_path [lit "data"; lit "out"].
  - split; [intros q _; apply demo_env_no_links|done].
  - repeat constructor; [norm_path [lit "data"]|norm_path [lit "etc"]].
  - repeat constructor; [norm_path [lit "data"]|norm_path [lit "etc"]].
  - repeat constructor; discriminate.
  - by_compute.
  - by_compute.
Defined.

(** A request can count as preapproved though part of it was never granted.
    With a grant to write [/data], a command that asks to be denied [/secrets]
    but to read [/secrets/key] counts as preapproved; put on top of a profile
    that denies [/secrets], its permissions make the key readable. *)
Theorem preapproval_misses_reopened_entry :
  let granted := ask [path_entry "/data" AccessWrite] in
  let asked := ask [path_entry "/secrets" AccessNone; path_entry "/secrets/key" AccessRead] in
  let profile := restricted [path_entry "/" AccessRead; path_entry "/secrets" AccessNone] in
  let g := mkGrants (Some (mkTurn (Some granted) false)) None in
  let result := apply_granted_turn_permissions demo_env (λ _, None) g (lit "/w")
                  WithAdditionalPermissions (Some asked) in
  let access p := resolve_access_with_cwd demo_env p (lit "/secrets/key") (lit "/w") in
  permissions_preapproved result = true ∧
  access (restricted (profile_entries granted)) = AccessNone ∧
  access profile = AccessNone ∧
  access (effective_file_system_sandbox_policy profile (eff_additional_permissions result)) = AccessRead.
Proof. split_and!; by_compute. Qed.

(** A profile equals itself, so that nothing beyond what was granted is always
    preapproved. *)
Lemma list_eqb_refl {A} (eqb : A → A → bool) l : (∀ x, eqb x x = true) → list_eqb eqb l l = true.
Proof. intros H. induction l; simpl; by rewrite ?H. Qed.

Lemma entry_eqb_refl e : entry_eqb e e = true.
Proof.
  assert (Hp : ∀ p, path_eqb p p = true) by (intros; by apply bool_decide_eq_true).
  unfold entry_eqb. destruct e as [[p|q|[| |[p|]| | |u [p|]]] a]; simpl;
    rewrite ?Hp, ?bool_decide_true; done.
Qed.

Lemma additional_eqb_refl p : additional_eqb p p = true.
Proof.
  unfold additional_eqb, file_system_eqb. rewrite bool_decide_true by done.
  destruct (add_file_system p); [|done]. simpl. rewrite list_eqb_refl by apply entry_eqb_refl.
  by rewrite bool_decide_true.
Qed.

Lemma nothing_more_preapproved env build g cwd granted :
  merge_permission_profiles (granted_session_permissions g) (granted_turn_permissions g) = Some granted →
  additional_is_empty granted = false →
  apply_granted_turn_permissions env build g cwd UseDefault None =
    mkEffective WithAdditionalPermissions (Some granted) true.
Proof.
  intros Hg He. unfold apply_granted_turn_permissions. rewrite Hg.
  assert (Hm : merge_permission_profiles None (Some granted) = Some granted).
  { unfold merge_permission_profiles, option_filter. simpl. by rewrite He. }
  rewrite Hm. unfold permissions_are_preapproved. by rewrite additional_eqb_refl.
Qed.

(** ** Every grant was asked for and answered

    A log of what was asked and what was answered; turns begin with nothing
    granted. *)
Record Answered := mkAnswered {
  ans_policy : AskForApproval;
  ans_requested : AdditionalPermissionProfile;
  ans_granted : AdditionalPermissionProfile;
  ans_cwd : str
}.

Section grants.
Context (env : Env) (build : str → option (str → bool)).

(** What a reviewer's answer says is granted. *)
Definition answer_of (requested : AdditionalPermissionProfile) (reviewer : Reviewer)
    : option AdditionalPermissionProfile :=
  match reviewer with
  | ReviewCancelled => None
  | AutoReviewer decision => Some (permissions (response_of_review requested decision))
  | UserReviewer response => Some (permissions response)
  end.

Inductive grants_reachable : list Answered → Grants → Prop :=
| GrantsStart : grants_reachable [] (mkGrants None None)
| GrantsTurn log g :
    grants_reachable log g →
    grants_reachable log (mkGrants (Some (mkTurn None false)) (session_granted_permissions g))
| GrantsTurnEnds log g :
    grants_reachable log g → grants_reachable log (mkGrants None (session_granted_permissions g))
| GrantsRequest log g policy requested cwd reviewer answer :
    grants_reachable log g →
    Forall entry_wf (profile_entries requested) → normalized_abs cwd →
    answer_of requested reviewer = Some answer → Forall entry_wf (profile_entries answer) →
    grants_reachable (mkAnswered policy requested answer cwd :: log)
      (snd (request_permissions_for_cwd env build policy requested cwd reviewer g)).

(** The settings let the agent ask for permissions. *)
Definition asks_permissions (policy : AskForApproval) : bool :=
  match policy with Never => false | Granular config => request_permissions config | _ => true end.

(** The profile comes from the answers of the log. *)
Definition from_log (log : list Answered) (p : option AdditionalPermissionProfile) : Prop :=
  ∀ p', p = Some p' →
  Forall entry_wf (profile_entries p') ∧
  (∀ e, e ∈ profile_entries p' → ∃ a, a ∈ log ∧ asks_permissions (ans_policy a) = true ∧
     e ∈ profile_entries (intersect_permission_profiles env build (ans_requested a) (ans_granted a) (ans_cwd a))) ∧
  (is_enabled_network (add_network p') = true → ∃ a, a ∈ log ∧ asks_permissions (ans_policy a) = true ∧
     is_enabled_network (add_network (ans_requested a)) = true ∧
     is_enabled_network (add_network (ans_granted a)) = true).
End grants.

Lemma merged_elem base p p' e :
  merge_permission_profiles (Some base) (Some p) = Some p' →
  e ∈ profile_entries p' → e ∈ profile_entries base ∨ e ∈ profile_entries p.
Proof.
  intros Hm. pose proof (merged_entries base p) as H. rewrite Hm in H. simpl in H. rewrite H.
  unfold profile_entries.
  destruct (add_file_system base), (add_file_system p); simpl; rewrite ?app_nil_r; auto.
  - intros [He|He]%push_new_elem; [by apply elem_of_nil in He|]. by apply elem_of_app.
Qed.

Lemma merged_network base p p' :
  merge_permission_profiles (Some base) (Some p) = Some p' →
  is_enabled_network (add_network p') =
    is_enabled_network (add_network base) || is_enabled_network (add_network p).
Proof.
  unfold merge_permission_profiles, option_filter. simpl. intros H. case_match; [|done]. simplify_eq.
  simpl. by destruct (is_enabled_network (add_network base) || is_enabled_network (add_network p)).
Qed.

Section sound.
Context (env : Env) (build : str → option (str → bool)).
Hypothesis Henv : env_ok env.
#[local] Set Default Proof Using "Type*".
#[local] Abbreviation from_log := (from_log env build).

Lemma from_log_mono a log p : from_log log p → from_log (a :: log) p.
Proof.
  intros H p' Hp. destruct (H p' Hp) as (Hw & He & Hn). split_and!; [done| |].
  - intros e Hin. destruct (He e Hin) as (b & ? & ?). exists b. set_solver.
  - intros Hnet. destruct (Hn Hnet) as (b & ? & ?). exists b. set_solver.
Qed.

Lemma from_log_merge log p q :
  from_log log p → from_log log (Some q) → from_log log (merge_permission_profiles p (Some q)).
Proof.
  intros Hp Hq p' Hm. destruct (Hq q eq_refl) as (Hwq & Heq & Hnq).
  destruct p as [base|].
  2:{ unfold merge_permission_profiles, option_filter in Hm. simpl in Hm. case_match; by simplify_eq. }
  destruct (Hp base eq_refl) as (Hwp & Hep & Hnp). split_and!.
  - apply Forall_forall. intros e [He|He]%(merged_elem _ _ _ _ Hm);
      [by eapply Forall_forall in Hwp|by eapply Forall_forall in Hwq].
  - intros e [He|He]%(merged_elem _ _ _ _ Hm); auto.
  - rewrite (merged_network _ _ _ Hm). intros [H|H]%orb_true_iff; auto.
Qed.

Lemma from_log_merge_option log p q :
  from_log log p → from_log log q → from_log log (merge_permission_profiles p q).
Proof. intros Hp Hq. destruct q; [by apply from_log_merge|done]. Qed.

(** What a normalised response grants comes from the request and the answer. *)
Lemma response_from_log log policy requested cwd response :
  asks_permissions policy = true → normalized_abs cwd →
  Forall entry_wf (profile_entries requested) → Forall entry_wf (profile_entries (permissions response)) →
  let r := normalize_request_permissions_response env build requested response cwd in
  additional_is_empty (permissions r) = false →
  from_log (mkAnswered policy requested (permissions response) cwd :: log) (Some (permissions r)).
Proof.
  intros Hask Hcwd Hr Hg r Hne p' [= <-]. unfold r, normalize_request_permissions_response in *.
  destruct (strict_auto_review response && _); [done|].
  destruct (additional_is_empty (permissions response)) eqn:E; [by rewrite E in Hne|]. cbn [permissions].
  split_and!.
  - by apply profile_intersection_wf.
  - intros e He. eexists. split; [left|]. done.
  - intros Hn. eexists. split; [left|]. split; [done|]. cbn [ans_requested ans_granted].
    unfold intersect_permission_profiles in Hn. cbn [add_network] in Hn.
    by destruct (is_enabled_network (add_network requested)), (is_enabled_network (add_network (permissions response))).
Qed.

Definition grants_inv (log : list Answered) (g : Grants) : Prop :=
  from_log log (granted_session_permissions g) ∧ from_log log (granted_turn_permissions g).

Lemma record_inv log policy requested cwd response g :
  asks_permissions policy = true → normalized_abs cwd →
  Forall entry_wf (profile_entries requested) → Forall entry_wf (profile_entries (permissions response)) →
  grants_inv log g →
  grants_inv (mkAnswered policy requested (permissions response) cwd :: log)
    (snd (notify_request_permissions_response env build requested cwd response g)).
Proof.
  intros Hask Hcwd Hr Hg [Hs Ht].
  apply (from_log_mono (mkAnswered policy requested (permissions response) cwd)) in Hs, Ht.
  pose proof (response_from_log log policy requested cwd response Hask Hcwd Hr Hg) as Hfrom.
  unfold notify_request_permissions_response. cbn [snd].
  set (r := normalize_request_permissions_response env build requested response cwd) in *.
  unfold record_granted_request_permissions_for_turn.
  destruct (additional_is_empty (permissions r)) eqn:E; [done|]. specialize (Hfrom E).
  destruct g as [[[t strict]|] sess], (scope r); split; cbn in *; try done; try by apply from_log_merge.
  destruct (strict_auto_review r); by apply from_log_merge.
Qed.

Lemma grants_reachable_inv log g : grants_reachable env build log g → grants_inv log g.
Proof.
  induction 1 as [|log g _ [IH _]|log g _ [IH _]|log g policy requested cwd reviewer answer _ IH Hr Hcwd Ha Hg];
    [done|done|done|].
  assert (Hsame : grants_inv (mkAnswered policy requested answer cwd :: log) g).
  { destruct IH. split; by apply from_log_mono. }
  unfold request_permissions_for_cwd. destruct reviewer as [|d|response]; simplify_eq/=.
  - destruct (asks_permissions policy) eqn:Hask.
    2:{ destruct policy; try done. simpl in Hask. by rewrite Hask. }
    pose proof (record_inv log policy requested cwd (response_of_review requested d) g Hask Hcwd Hr Hg IH) as H.
    destruct policy; simpl in Hask; try discriminate; try rewrite Hask; exact H.
  - destruct (asks_permissions policy) eqn:Hask.
    2:{ destruct policy; try done. simpl in Hask. by rewrite Hask. }
    pose proof (record_inv log policy requested cwd response g Hask Hcwd Hr Hg IH) as H.
    destruct (active_turn g);
      destruct policy; simpl in Hask; try discriminate; try rewrite Hask; first [exact H|exact Hsame].
Qed.
End sound.

(** C14. Every permission the agent holds was asked for and granted.  In any history
    of turns, requests and answers, each entry of the merged grants comes from
    one request and its answer, as an entry of the intersection of the two,
    under settings that let the agent ask; network access is held only when
    it was asked for and granted. *)
Theorem grants_were_answered env build log g p :
  env_ok env → grants_reachable env build log g →
  merge_permission_profiles (granted_session_permissions g) (granted_turn_permissions g) = Some p →
  (∀ e, e ∈ profile_entries p → ∃ a, a ∈ log ∧ asks_permissions (ans_policy a) = true ∧
     e ∈ profile_entries (intersect_permission_profiles env build (ans_requested a) (ans_granted a) (ans_cwd a))) ∧
  (is_enabled_network (add_network p) = true → ∃ a, a ∈ log ∧ asks_permissions (ans_policy a) = true ∧
     is_enabled_network (add_network (ans_requested a)) = true ∧
     is_enabled_network (add_network (ans_granted a)) = true).
Proof.
  intros Henv Hr Hm. destruct (grants_reachable_inv env build Henv log g Hr) as [Hs Ht].
  by destruct (from_log_merge_option env build Henv log _ _ Hs Ht p Hm) as (_ & ? & ?).
Qed.

Lemma grants_were_answered_witness :
  let requested := ask [path_entry "/data" AccessWrite; path_entry "/etc" AccessRead] in
  let response := mkResponse (ask [path_entry "/data" AccessWrite]) ScopeSession false in
  let g := snd (request_permissions_for_cwd demo_env (λ _, None) OnRequest requested (lit "/w")
                  (UserReviewer response) (mkGrants (Some (mkTurn None false)) None)) in
  ∃ p, merge_permission_profiles (granted_session_permissions g) (granted_turn_permissions g) = Some p ∧
    profile_entries p = [path_entry "/data" AccessWrite] ∧
    ∃ a, a ∈ [mkAnswered OnRequest requested (permissions response) (lit "/w")] ∧
      asks_permissions (ans_policy a) = true ∧
      path_entry "/data" AccessWrite ∈ profile_entries
        (intersect_permission_profiles demo_env (λ _, None) (ans_requested a) (ans_granted a) (ans_cwd a)).
Proof.
  cbv zeta. eexists. split; [vm_compute; reflexivity|]. split; [reflexivity|].
  refine (proj1 (grants_were_answered demo_env (λ _, None) _ _ _ _
    (GrantsRequest demo_env (λ _, None) [] (mkGrants (Some (mkTurn None false)) None) OnRequest
       (ask [path_entry "/data" AccessWrite; path_entry "/etc" AccessRead]) (lit "/w")
       (UserReviewer (mkResponse (ask [path_entry "/data" AccessWrite]) ScopeSession false))
       (ask [path_entry "/data" AccessWrite]) _ _ _ _ _) _) _ _).
  - exists (lit "/work"). split; reflexivity.
  - apply (GrantsTurn _ _ [] (mkGrants None None)). constructor.
  - repeat constructor; [norm_path [lit "data"]|norm_path [lit "etc"]].
  - norm_path [lit "w"].
  - reflexivity.
  - repeat constructor. norm_path [lit "data"].
  - vm_compute. reflexivity.
  - vm_compute. left.
Defined.
