(* ===== verification/NetworkPolicy.v ===== *)
(** * Hosts and domain patterns: [network-proxy/src/policy.rs]

    The normal form of host names, the addresses that are not public, the
    patterns of allow and deny lists, and the comparison of a pattern with the
    managed ones.  Parsing of IP addresses is that of [core::net].  The glob
    compiler and the host parser of the [url] crate are parameters; what is
    relied on of the globs is the class [GlobLaws]. *)
From stdpp Require Import gmap.
From S2P Require Import Prelude RustStr.
Local Open Scope N_scope.

Definition c_percent : char := 37.
Definition c_colon : char := 58.
Definition c_lbracket : char := 91.
Definition c_rbracket : char := 93.

(** ** IP addresses *)

Inductive Ipv4Addr := mkIpv4 (a b c d : N).
Inductive IpAddr := V4 (ip : Ipv4Addr) | V6 (segments : list N).
#[global] Instance Ipv4Addr_eq_dec : EqDecision Ipv4Addr. Proof. solve_decision. Defined.
#[global] Instance IpAddr_eq_dec : EqDecision IpAddr. Proof. solve_decision. Defined.

(** The parser of [core::net]: a prefix of the text is read, or nothing is. *)
Definition Reader (A : Type) : Type := str → option (A * str).

Definition read_given_char (c : char) : Reader unit := λ s,
  match s with
  | x :: s' => if x =? c then Some (tt, s') else None
  | [] => None
  end.

Definition to_digit (radix : N) (c : char) : option N :=
  let d := if is_ascii_digit c then Some (c - 48)
           else if (97 <=? c) && (c <=? 122) then Some (c - 87)
           else if (65 <=? c) && (c <=? 90) then Some (c - 55)
           else None in
  d ≫= λ d, if d <? radix then Some d else None.

Fixpoint read_digits (radix : N) (left : nat) (result : N) (count : nat) (s : str)
    : option (N * nat * str) :=
  match s with
  | [] => Some (result, count, [])
  | c :: s' =>
      match to_digit radix c with
      | None => Some (result, count, s)
      | Some d =>
          match left with
          | O => None
          | S left' => read_digits radix left' (result * radix + d) (S count) s'
          end
      end
  end.

Definition read_number (radix : N) (max_digits : nat) (allow_zero_prefix : bool) (limit : N)
    : Reader N := λ s,
  '(result, count, rest) ← read_digits radix max_digits 0 0 s;
  if decide (count = O) then None
  else if negb allow_zero_prefix && starts_with (lit "0") s && (1 <? count)%nat then None
  else if result <? limit then Some (result, rest) else None.

Definition read_separator {A} (sep : char) (index : nat) (inner : Reader A) : Reader A := λ s,
  match index with
  | O => inner s
  | S _ => '(_, s') ← read_given_char sep s; inner s'
  end.

Definition read_octet (index : nat) : Reader N :=
  read_separator c_dot index (read_number 10 3 false 256).

Definition read_ipv4_addr : Reader Ipv4Addr := λ s,
  '(a, s1) ← read_octet 0 s;
  '(b, s2) ← read_octet 1 s1;
  '(c, s3) ← read_octet 2 s2;
  '(d, s4) ← read_octet 3 s3;
  Some (mkIpv4 a b c d, s4).

(** The groups read, whether an embedded IPv4 address ended them, the rest. *)
Fixpoint read_groups (left : nat) (i : nat) (s : str) : list N * bool * str :=
  match left with
  | O => ([], false, s)
  | S left' =>
      let group :=
        match read_separator c_colon i (read_number 16 4 true 65536) s with
        | Some (g, s') =>
            let '(gs, v4, rest) := read_groups left' (S i) s' in (g :: gs, v4, rest)
        | None => ([], false, s)
        end in
      match left' with
      | O => group
      | S _ =>
          match read_separator c_colon i read_ipv4_addr s with
          | Some (mkIpv4 a b c d, s') => ([a * 256 + b; c * 256 + d], true, s')
          | None => group
          end
      end
  end.

Definition read_ipv6_addr : Reader (list N) := λ s,
  let '(head, head_ipv4, s1) := read_groups 8 0 s in
  if decide (length head = 8%nat) then Some (head, s1)
  else if head_ipv4 then None
  else
    '(_, s2) ← read_given_char c_colon s1;
    '(_, s3) ← read_given_char c_colon s2;
    let '(tail, _, s4) := read_groups (7 - length head) 0 s3 in
    Some (head ++ replicate (8 - length head - length tail) 0 ++ tail, s4).

Definition read_ip_addr : Reader IpAddr := λ s,
  match read_ipv4_addr s with
  | Some (ip, rest) => Some (V4 ip, rest)
  | None => '(ip, rest) ← read_ipv6_addr s; Some (V6 ip, rest)
  end.

(** [str::parse::<IpAddr>]. *)
Definition parse_ip (s : str) : option IpAddr :=
  match read_ip_addr s with
  | Some (ip, []) => Some ip
  | _ => None
  end.

Definition u32_of (ip : Ipv4Addr) : N :=
  let 'mkIpv4 a b c d := ip in a * 16777216 + b * 65536 + c * 256 + d.

(** [Ipv6Addr::to_ipv4]: mapped and compatible addresses. *)
Definition to_ipv4 (segments : list N) : option Ipv4Addr :=
  match segments with
  | [0; 0; 0; 0; 0; x; ab; cd] =>
      if (x =? 0) || (x =? 65535)
      then Some (mkIpv4 (ab / 256) (ab mod 256) (cd / 256) (cd mod 256)) else None
  | _ => None
  end.

Definition is_loopback_v4 (ip : Ipv4Addr) : bool := let 'mkIpv4 a _ _ _ := ip in a =? 127.
Definition is_loopback_v6 (segments : list N) : bool := bool_decide (segments = [0; 0; 0; 0; 0; 0; 0; 1]).
Definition is_loopback (ip : IpAddr) : bool :=
  match ip with V4 ip => is_loopback_v4 ip | V6 s => is_loopback_v6 s end.

Definition is_private (ip : Ipv4Addr) : bool :=
  let 'mkIpv4 a b _ _ := ip in
  (a =? 10) || ((a =? 172) && (16 <=? b) && (b <=? 31)) || ((a =? 192) && (b =? 168)).
Definition is_link_local (ip : Ipv4Addr) : bool :=
  let 'mkIpv4 a b _ _ := ip in (a =? 169) && (b =? 254).
Definition is_unspecified_v4 (ip : Ipv4Addr) : bool := u32_of ip =? 0.
Definition is_multicast_v4 (ip : Ipv4Addr) : bool :=
  let 'mkIpv4 a _ _ _ := ip in (224 <=? a) && (a <=? 239).
Definition is_broadcast (ip : Ipv4Addr) : bool := u32_of ip =? 4294967295.

Definition first_segment (segments : list N) : N := hd 0 segments.
Definition is_unspecified_v6 (segments : list N) : bool := bool_decide (segments = replicate 8 0).
Definition is_multicast_v6 (segments : list N) : bool := N.land (first_segment segments) 65280 =? 65280.
Definition is_unique_local (segments : list N) : bool := N.land (first_segment segments) 65024 =? 64512.
Definition is_unicast_link_local (segments : list N) : bool :=
  N.land (first_segment segments) 65472 =? 65152.

(** ** Addresses that are not public *)

Definition ipv4_in_cidr (ip base : Ipv4Addr) (prefix : N) : bool :=
  let mask := if prefix =? 0 then 0
              else N.land (N.shiftl 4294967295 (32 - prefix)) 4294967295 in
  N.land (u32_of ip) mask =? N.land (u32_of base) mask.

Definition is_non_public_ipv4 (ip : Ipv4Addr) : bool :=
  is_loopback_v4 ip || is_private ip || is_link_local ip || is_unspecified_v4 ip
  || is_multicast_v4 ip || is_broadcast ip
  || ipv4_in_cidr ip (mkIpv4 0 0 0 0) 8
  || ipv4_in_cidr ip (mkIpv4 100 64 0 0) 10
  || ipv4_in_cidr ip (mkIpv4 192 0 0 0) 24
  || ipv4_in_cidr ip (mkIpv4 192 0 2 0) 24
  || ipv4_in_cidr ip (mkIpv4 198 18 0 0) 15
  || ipv4_in_cidr ip (mkIpv4 198 51 100 0) 24
  || ipv4_in_cidr ip (mkIpv4 203 0 113 0) 24
  || ipv4_in_cidr ip (mkIpv4 240 0 0 0) 4.

Definition is_non_public_ipv6 (ip : list N) : bool :=
  match to_ipv4 ip with
  | Some v4 => is_non_public_ipv4 v4 || is_loopback_v6 ip
  | None =>
      is_loopback_v6 ip || is_unspecified_v6 ip || is_multicast_v6 ip
      || is_unique_local ip || is_unicast_link_local ip
  end.

Definition is_non_public_ip (ip : IpAddr) : bool :=
  match ip with V4 ip => is_non_public_ipv4 ip | V6 ip => is_non_public_ipv6 ip end.

(** ** Normal form of hosts *)

(** [s.split_once(needle)] for a string. *)
Definition split_once_str (needle s : str) : option (str * str) :=
  i ← find needle s; Some (take i s, drop (i + length needle) s).

Definition is_dot (c : char) : bool := c =? c_dot.

Definition unscoped_ip_literal (host : str) : option str :=
  '(ip, _) ← split_once c_percent host;
  _ ← parse_ip ip;
  Some ip.

Definition scoped_ip (delimiter host : str) : option str :=
  '(ip, scope) ← split_once_str delimiter host;
  _ ← parse_ip ip;
  Some (ip ++ lit "%" ++ scope).

Definition normalize_ip_literal (host : str) : option str :=
  match parse_ip host with
  | Some _ => Some host
  | None =>
      match scoped_ip (lit "%25") host with
      | Some ip => Some ip
      | None => scoped_ip (lit "%") host
      end
  end.

Definition normalize_dns_host_or_ip_literal (host : str) : str :=
  let host := trim_end_matches is_dot (to_ascii_lowercase host) in
  default host (normalize_ip_literal host).

Definition strip_port (host : str) : str :=
  if decide (length (List.filter (N.eqb c_colon) host) = 1%nat)
  then hd [] (split_on c_colon host) else host.

Definition normalize_host (host : str) : str :=
  let host := trim host in
  match (if starts_with [c_lbracket] host then find [c_rbracket] host else None) with
  | Some end_ => normalize_dns_host_or_ip_literal (drop 1 (take end_ host))
  | None => normalize_dns_host_or_ip_literal (strip_port host)
  end.

(** [Host::parse]; the only error is the empty host. *)
Definition host_parse (input : str) : option str :=
  let normalized := normalize_host input in
  if decide (normalized = []) then None else Some normalized.

Definition is_loopback_host (host : str) : bool :=
  let host := default host (unscoped_ip_literal host) in
  if decide (host = lit "localhost") then true
  else match parse_ip host with Some ip => is_loopback ip | None => false end.

(** ** Patterns *)

Inductive DomainPattern :=
| ApexAndSubdomains (domain : str)
| SubdomainsOnly (domain : str)
| Exact (domain : str).
#[global] Instance DomainPattern_eq_dec : EqDecision DomainPattern. Proof. solve_decision. Defined.

Definition parse_domain (domain : str) (build : str → DomainPattern) : DomainPattern :=
  let domain := trim domain in
  if decide (domain = []) then Exact [] else build domain.

Definition pattern_parse (input : str) : DomainPattern :=
  let input := trim input in
  if decide (input = []) then Exact []
  else match strip_prefix (lit "**.") input with
       | Some domain => parse_domain domain ApexAndSubdomains
       | None =>
           match strip_prefix (lit "*.") input with
           | Some domain => parse_domain domain SubdomainsOnly
           | None => Exact input
           end
       end.

Definition expand_domain_pattern (pattern : str) : list str :=
  match pattern_parse pattern with
  | Exact domain => [domain]
  | SubdomainsOnly domain => [lit "?*." ++ domain]
  | ApexAndSubdomains domain => [domain; lit "?*." ++ domain]
  end.

Definition normalize_pattern (pattern : str) : str :=
  let pattern := trim pattern in
  if decide (pattern = lit "*") then lit "*"
  else
    let '(prefix, remainder) :=
      match strip_prefix (lit "**.") pattern with
      | Some domain => (lit "**.", domain)
      | None =>
          match strip_prefix (lit "*.") pattern with
          | Some domain => (lit "*.", domain)
          | None => ([], pattern)
          end
      end in
    let remainder := normalize_host remainder in
    if decide (prefix = []) then remainder else prefix ++ remainder.

Definition is_global_wildcard_domain_pattern (pattern : str) : bool :=
  existsb (λ candidate, bool_decide (candidate = lit "*"))
    (expand_domain_pattern (normalize_pattern pattern)).

(** ** Glob sets *)

(** The globset crate: a glob that ignores case, and a set of globs. *)
Class GlobCompiler := {
  Glob : Type;
  GlobSet : Type;
  glob_build : str → option Glob;
  globset_build : list Glob → option GlobSet;
  is_match : GlobSet → str → bool
}.

(** A text without the special characters of a glob. *)
Definition is_glob_special (c : char) : bool :=
  existsb (N.eqb c) (lit "?*[]{}\").
Definition plain (s : str) : bool := negb (existsb is_glob_special s).

(** What a glob of a domain pattern matches: a plain text itself, [?*.d] a
    text that ends with [.d], [*] every text. *)
Class GlobLaws `{GlobCompiler} := {
  glob_matches : Glob → str → bool;
  set_is_match globs set host :
    globset_build globs = Some set → is_match set host = existsb (λ g, glob_matches g host) globs;
  plain_glob d g host : plain d = true → glob_build d = Some g →
    glob_matches g host = eq_ignore_ascii_case d host;
  subdomain_glob d g host : plain d = true → glob_build (lit "?*." ++ d) = Some g →
    glob_matches g host =
      ends_with (c_dot :: to_ascii_lowercase d) (to_ascii_lowercase host) &&
      (1 + length d <? length host)%nat;
  star_glob g host : glob_build (lit "*") = Some g → glob_matches g host = true;
  star_glob_builds : is_Some (glob_build (lit "*"));
  plain_glob_builds d : plain d = true → is_Some (glob_build d)
}.

Inductive GlobalWildcard := WildcardAllow | WildcardReject.
#[global] Instance GlobalWildcard_eq_dec : EqDecision GlobalWildcard. Proof. solve_decision. Defined.

Inductive CompileError :=
| UnsupportedGlobalWildcard
| InvalidGlobPattern (candidate : str)
| GlobSetError.

Section compile.
Context `{GlobCompiler}.

(** The candidates of one pattern; [seen] are those already added. *)
Fixpoint add_candidates (candidates seen : list str) (builder : list Glob)
    : Res CompileError (list str * list Glob) :=
  match candidates with
  | [] => Ok (seen, builder)
  | candidate :: rest =>
      if decide (candidate ∈ seen) then add_candidates rest seen builder
      else match glob_build candidate with
           | Some glob => add_candidates rest (candidate :: seen) (builder ++ [glob])
           | None => Err (InvalidGlobPattern candidate)
           end
  end.

Fixpoint compile_loop (patterns : list str) (global_wildcard : GlobalWildcard) (seen : list str)
    (builder : list Glob) : Res CompileError (list Glob) :=
  match patterns with
  | [] => Ok builder
  | pattern :: rest =>
      if bool_decide (global_wildcard = WildcardReject) && is_global_wildcard_domain_pattern pattern
      then Err UnsupportedGlobalWildcard
      else
        '(seen, builder) ← add_candidates (expand_domain_pattern (normalize_pattern pattern)) seen builder;
        compile_loop rest global_wildcard seen builder
  end.

Definition compile_globset_with_policy (patterns : list str) (global_wildcard : GlobalWildcard)
    : Res CompileError GlobSet :=
  globs ← compile_loop patterns global_wildcard [] [];
  ok_or GlobSetError (globset_build globs).

Definition compile_allowlist_globset (patterns : list str) : Res CompileError GlobSet :=
  compile_globset_with_policy patterns WildcardAllow.
Definition compile_denylist_globset (patterns : list str) : Res CompileError GlobSet :=
  compile_globset_with_policy patterns WildcardReject.

(** [runtime.rs]: a scoped address also matches without its scope. *)
Definition globset_matches_host_or_unscoped (set : GlobSet) (host : str) : bool :=
  is_match set host || match unscoped_ip_literal host with Some ip => is_match set ip | None => false end.

End compile.

(** ** Comparison of patterns *)

Definition normalize_domain (domain : str) : str :=
  to_ascii_lowercase (trim_end_matches is_dot domain).
Definition domain_eq (left right : str) : bool :=
  bool_decide (normalize_domain left = normalize_domain right).
Definition is_subdomain_or_equal (child parent : str) : bool :=
  let child := normalize_domain child in
  let parent := normalize_domain parent in
  if decide (child = parent) then true else ends_with (lit "." ++ parent) child.
Definition is_strict_subdomain (child parent : str) : bool :=
  let child := normalize_domain child in
  let parent := normalize_domain parent in
  negb (bool_decide (child = parent)) && ends_with (lit "." ++ parent) child.

Definition pattern_allows (self candidate : DomainPattern) : bool :=
  match self, candidate with
  | Exact domain, Exact candidate => domain_eq candidate domain
  | Exact _, _ => false
  | SubdomainsOnly domain, Exact candidate => is_strict_subdomain candidate domain
  | SubdomainsOnly domain, SubdomainsOnly candidate => is_subdomain_or_equal candidate domain
  | SubdomainsOnly domain, ApexAndSubdomains candidate => is_strict_subdomain candidate domain
  | ApexAndSubdomains domain, Exact candidate => is_subdomain_or_equal candidate domain
  | ApexAndSubdomains domain, SubdomainsOnly candidate => is_subdomain_or_equal candidate domain
  | ApexAndSubdomains domain, ApexAndSubdomains candidate => is_subdomain_or_equal candidate domain
  end.

Section constraints.
(** [url::Host::parse], and the text of the host it gives. *)
Context (url_host_parse : str → option str).

Definition parse_domain_for_constraints (domain : str) : str :=
  let domain := trim_end_matches is_dot (trim domain) in
  if decide (domain = []) then []
  else
    let host := if starts_with [c_lbracket] domain && ends_with [c_rbracket] domain
                then drop 1 (take (length domain - 1) domain) else domain in
    if contains_char c_star host || contains_char 63 host || contains_char c_percent host
    then domain
    else default [] (url_host_parse host).

Definition parse_for_constraints (input : str) : DomainPattern :=
  let input := trim input in
  if decide (input = []) then Exact []
  else match strip_prefix (lit "**.") input with
       | Some domain => ApexAndSubdomains (parse_domain_for_constraints domain)
       | None =>
           match strip_prefix (lit "*.") input with
           | Some domain => SubdomainsOnly (parse_domain_for_constraints domain)
           | None => Exact (parse_domain_for_constraints input)
           end
       end.

End constraints.
