(* ===== verification/NetworkConfig.v ===== *)
(** * The network proxy's settings: [network-proxy/src/config.rs], [network-proxy/src/state.rs]

    The settings of the proxy with the operations on its lists of domains, the
    addresses it listens on, the managed constraints and their validation, and
    the state built of a configuration.  The [url] crate and the creation of
    the certificate authority are parameters.  An error of the validation
    carries what its message shows; the iteration order of a hash set, which
    only the text of messages depends on, is that of [elements]. *)
From stdpp Require Import gmap.
From S2P Require Import Prelude RustStr AbsolutePath Ordering NetworkPolicy.
Local Open Scope N_scope.

(** ** Domains *)

Inductive NetworkDomainPermission := PermNone | PermAllow | PermDeny.
#[global] Instance NetworkDomainPermission_eq_dec : EqDecision NetworkDomainPermission.
Proof. solve_decision. Defined.

(** The derived order: [None < Allow < Deny]. *)
Definition permission_rank (p : NetworkDomainPermission) : N :=
  match p with PermNone => 0 | PermAllow => 1 | PermDeny => 2 end.

Record NetworkDomainPermissionEntry := mkEntry {
  pattern : str;
  permission : NetworkDomainPermission
}.
#[global] Instance NetworkDomainPermissionEntry_eq_dec : EqDecision NetworkDomainPermissionEntry.
Proof. solve_decision. Defined.

(** The body of the loop: the order of first occurrence and the permissions. *)
Definition effective_step (acc : list str * gmap str NetworkDomainPermission)
    (entry : NetworkDomainPermissionEntry) : list str * gmap str NetworkDomainPermission :=
  let '(order, effective_permissions) := acc in
  match effective_permissions !! pattern entry with
  | None => (order ++ [pattern entry], <[pattern entry := permission entry]> effective_permissions)
  | Some p =>
      (order, if permission_rank p <? permission_rank (permission entry)
              then <[pattern entry := permission entry]> effective_permissions
              else effective_permissions)
  end.

Fixpoint take_effective (order : list str) (effective_permissions : gmap str NetworkDomainPermission)
    : list NetworkDomainPermissionEntry :=
  match order with
  | [] => []
  | p :: rest =>
      match effective_permissions !! p with
      | Some perm => mkEntry p perm :: take_effective rest (delete p effective_permissions)
      | None => take_effective rest effective_permissions
      end
  end.

Definition effective_entries (entries : list NetworkDomainPermissionEntry)
    : list NetworkDomainPermissionEntry :=
  let '(order, effective_permissions) := foldl effective_step ([], ∅) entries in
  take_effective order effective_permissions.

(** ** Settings *)

Inductive NetworkUnixSocketPermission := SocketAllow | SocketNone.
#[global] Instance NetworkUnixSocketPermission_eq_dec : EqDecision NetworkUnixSocketPermission.
Proof. solve_decision. Defined.

Inductive NetworkMode := Limited | Full.
#[global] Instance NetworkMode_eq_dec : EqDecision NetworkMode. Proof. solve_decision. Defined.

(** [unix_sockets] is a [BTreeMap]: entries in the order of their paths. *)
Record NetworkProxySettings := mkSettings {
  enabled : bool;
  proxy_url : str;
  enable_socks5 : bool;
  socks_url : str;
  enable_socks5_udp : bool;
  allow_upstream_proxy : bool;
  dangerously_allow_non_loopback_proxy : bool;
  dangerously_allow_all_unix_sockets : bool;
  mode : NetworkMode;
  domains : option (list NetworkDomainPermissionEntry);
  unix_sockets : option (list (str * NetworkUnixSocketPermission));
  allow_local_binding : bool;
  mitm : bool
}.
#[global] Instance NetworkProxySettings_eq_dec : EqDecision NetworkProxySettings.
Proof. solve_decision. Defined.

(** [NetworkProxyConfig] has the settings as its only field. *)
Abbreviation NetworkProxyConfig := NetworkProxySettings (only parsing).

Definition default_proxy_url : str := lit "http://127.0.0.1:3128".
Definition default_socks_url : str := lit "http://127.0.0.1:8081".
Definition default_settings : NetworkProxySettings :=
  mkSettings false default_proxy_url true default_socks_url true true false false Full None None false false.

Definition set_domains (d : option (list NetworkDomainPermissionEntry)) (s : NetworkProxySettings)
    : NetworkProxySettings :=
  mkSettings (enabled s) (proxy_url s) (enable_socks5 s) (socks_url s) (enable_socks5_udp s)
    (allow_upstream_proxy s) (dangerously_allow_non_loopback_proxy s)
    (dangerously_allow_all_unix_sockets s) (mode s) d (unix_sockets s) (allow_local_binding s) (mitm s).
Definition set_mode (m : NetworkMode) (s : NetworkProxySettings) : NetworkProxySettings :=
  mkSettings (enabled s) (proxy_url s) (enable_socks5 s) (socks_url s) (enable_socks5_udp s)
    (allow_upstream_proxy s) (dangerously_allow_non_loopback_proxy s)
    (dangerously_allow_all_unix_sockets s) m (domains s) (unix_sockets s) (allow_local_binding s) (mitm s).
Definition set_unix_sockets (u : option (list (str * NetworkUnixSocketPermission)))
    (s : NetworkProxySettings) : NetworkProxySettings :=
  mkSettings (enabled s) (proxy_url s) (enable_socks5 s) (socks_url s) (enable_socks5_udp s)
    (allow_upstream_proxy s) (dangerously_allow_non_loopback_proxy s)
    (dangerously_allow_all_unix_sockets s) (mode s) (domains s) u (allow_local_binding s) (mitm s).

(** [Some] of a vector that is not empty. *)
Definition non_empty {A} (l : list A) : option (list A) :=
  match l with [] => None | _ => Some l end.

Definition domain_entries (p : NetworkDomainPermission) (s : NetworkProxySettings) : option (list str) :=
  domains s ≫= λ d,
    non_empty (map pattern (List.filter (λ e, bool_decide (permission e = p)) (effective_entries d))).
Definition allowed_domains (s : NetworkProxySettings) : option (list str) := domain_entries PermAllow s.
Definition denied_domains (s : NetworkProxySettings) : option (list str) := domain_entries PermDeny s.

Definition allow_unix_sockets (s : NetworkProxySettings) : list str :=
  match unix_sockets s with
  | Some entries => map fst (List.filter (λ e, bool_decide (e.2 = SocketAllow)) entries)
  | None => []
  end.

Definition upsert_domain_permission (host : str) (perm : NetworkDomainPermission)
    (normalize : str → str) (s : NetworkProxySettings) : NetworkProxySettings :=
  let entries := default [] (domains s) in
  let normalized_host := normalize host in
  let entries := List.filter (λ e, negb (bool_decide (normalize (pattern e) = normalized_host))) entries in
  set_domains (non_empty (entries ++ [mkEntry host perm])) s.

Definition push_entry (perm : NetworkDomainPermission) (entries : list NetworkDomainPermissionEntry)
    (entry : str) : list NetworkDomainPermissionEntry :=
  if existsb (λ existing, bool_decide (pattern existing = entry ∧ permission existing = perm)) entries
  then entries else entries ++ [mkEntry entry perm].
Definition set_domain_entries (new : list str) (perm : NetworkDomainPermission)
    (s : NetworkProxySettings) : NetworkProxySettings :=
  let entries := List.filter (λ e, negb (bool_decide (permission e = perm))) (default [] (domains s)) in
  set_domains (non_empty (foldl (push_entry perm) entries new)) s.
Definition set_allowed_domains (new : list str) : NetworkProxySettings → NetworkProxySettings :=
  set_domain_entries new PermAllow.
Definition set_denied_domains (new : list str) : NetworkProxySettings → NetworkProxySettings :=
  set_domain_entries new PermDeny.

(** [BTreeMap::insert]. *)
Fixpoint btree_insert {V} (k : str) (v : V) (m : list (str * V)) : list (str * V) :=
  match m with
  | [] => [(k, v)]
  | (k', v') :: m' =>
      match cmp k k' with
      | Lt => (k, v) :: m
      | Eq => (k, v) :: m'
      | Gt => (k', v') :: btree_insert k v m'
      end
  end.
Definition set_unix_socket_entries (new : list str) (perm : NetworkUnixSocketPermission)
    (s : NetworkProxySettings) : NetworkProxySettings :=
  let entries := List.filter (λ e, negb (bool_decide (e.2 = perm))) (default [] (unix_sockets s)) in
  set_unix_sockets (non_empty (foldl (λ m k, btree_insert k perm m) entries new)) s.
Definition set_allow_unix_sockets (new : list str) : NetworkProxySettings → NetworkProxySettings :=
  set_unix_socket_entries new SocketAllow.

Definition allows_method (m : NetworkMode) (method : str) : bool :=
  match m with
  | Full => true
  | Limited => bool_decide (method = lit "GET" ∨ method = lit "HEAD" ∨ method = lit "OPTIONS")
  end.

(** ** Addresses to listen on *)

Definition SocketAddr : Type := IpAddr * N.
Definition localhost_addr (port : N) : SocketAddr := (V4 (mkIpv4 127 0 0 1), port).

Definition clamp_non_loopback (addr : SocketAddr) (allow_non_loopback : bool) : SocketAddr :=
  if is_loopback addr.1 then addr
  else if allow_non_loopback then addr
  else localhost_addr addr.2.

Definition clamp_bind_addrs (http_addr socks_addr : SocketAddr) (cfg : NetworkProxySettings)
    : SocketAddr * SocketAddr :=
  let http_addr := clamp_non_loopback http_addr (dangerously_allow_non_loopback_proxy cfg) in
  let socks_addr := clamp_non_loopback socks_addr (dangerously_allow_non_loopback_proxy cfg) in
  if bool_decide (allow_unix_sockets cfg = []) && negb (dangerously_allow_all_unix_sockets cfg)
  then (http_addr, socks_addr)
  else (localhost_addr http_addr.2, localhost_addr socks_addr.2).

Inductive ConfigError :=
| MissingHost (url : str)
| ExpectedAbsolutePath (socket_path : str)
| PathError
| InvalidUnixSocket (index : nat) (cause : ConfigError)
| InvalidProxyUrl (url : str) (cause : ConfigError)
| InvalidSocksUrl (url : str) (cause : ConfigError).

Record SocketAddressParts := mkParts { host : str; port : N }.

(** [str::parse::<u16>]. *)
Fixpoint parse_decimal (acc : N) (s : str) : option N :=
  match s with
  | [] => Some acc
  | c :: s' => d ← to_digit 10 c; parse_decimal (acc * 10 + d) s'
  end.
Definition parse_u16 (s : str) : option N :=
  let digits := match s with c :: s' => if c =? c_plus then s' else s | [] => [] end in
  if decide (digits = []) then None
  else n ← parse_decimal 0 digits; if n <? 65536 then Some n else None.

Definition parse_host_port_fallback (input : str) (default_port : N)
    : Res ConfigError SocketAddressParts :=
  let without_scheme := match split_once_str (lit "://") input with Some (_, rest) => rest | None => input end in
  let host_port := hd without_scheme (split_on c_slash without_scheme) in
  let host_port := match rsplit_once 64 host_port with Some (_, rest) => rest | None => host_port end in
  match (if starts_with [c_lbracket] host_port then find [c_rbracket] host_port else None) with
  | Some end_ =>
      let h := drop 1 (take end_ host_port) in
      let p := default default_port (strip_prefix [c_colon] (drop (end_ + 1) host_port) ≫= parse_u16) in
      if decide (h = []) then Err (MissingHost input) else Ok (mkParts h p)
  | None =>
      match (if decide (length (List.filter (N.eqb c_colon) host_port) = 1%nat)
             then rsplit_once c_colon host_port else None) with
      | Some (h, p) =>
          if decide (h = []) then Err (MissingHost input)
          else Ok (mkParts h (default default_port (parse_u16 p)))
      | None =>
          if decide (host_port = []) then Err (MissingHost input) else Ok (mkParts host_port default_port)
      end
  end.

Definition is_bracket (c : char) : bool := (c =? c_lbracket) || (c =? c_rbracket).

Section addresses.
(** [Url::parse]: the host, if there is one, and the port of a text that is a URL. *)
Context (url_parse : str → option (option str * option N)).

Definition parse_host_port (url : str) (default_port : N) : Res ConfigError SocketAddressParts :=
  let trimmed := trim url in
  if decide (trimmed = []) then Err (MissingHost url)
  else
    match parse_ip trimmed, starts_with [c_lbracket] trimmed with
    | Some (V6 _), false => Ok (mkParts trimmed default_port)
    | _, _ =>
        let candidate := if contains (lit "://") trimmed then trimmed else lit "http://" ++ trimmed in
        match url_parse candidate with
        | Some (Some h, p) =>
            let h := trim_start_matches is_bracket (trim_end_matches is_bracket h) in
            if decide (h = []) then Err (MissingHost url)
            else Ok (mkParts h (default default_port p))
        | _ => parse_host_port_fallback trimmed default_port
        end
    end.

Definition resolve_addr (url : str) (default_port : N) : Res ConfigError SocketAddr :=
  addr_parts ← parse_host_port url default_port;
  let h := if eq_ignore_ascii_case (host addr_parts) (lit "localhost") then lit "127.0.0.1"
           else host addr_parts in
  Ok (match parse_ip h with
      | Some ip => (ip, port addr_parts)
      | None => localhost_addr (port addr_parts)
      end).

Definition format_host_and_port (h : str) (p : N) : str :=
  if contains_char c_colon h then lit "[" ++ h ++ lit "]:" ++ show_N p else h ++ lit ":" ++ show_N p.
Definition host_and_port_from_network_addr (value : str) (default_port : N) : Total str :=
  let trimmed := trim value in
  if decide (trimmed = []) then Ok (lit "<missing>")
  else match parse_host_port trimmed default_port with
       | Ok parts => Ok (format_host_and_port (host parts) (port parts))
       | Err _ => Ok (format_host_and_port trimmed default_port)
       | Panic p => Panic p
       end.

(** ** Unix sockets *)

Inductive ValidatedUnixSocketPath := Native (path : str) | UnixStyleAbsolute (path : str).

Definition validated_socket_parse (home_dir : option str) (socket_path : str)
    : Res ConfigError ValidatedUnixSocketPath :=
  if is_absolute socket_path then
    path ← from_absolute_path home_dir (Err PathError) socket_path; Ok (Native path)
  else if starts_with [c_slash] socket_path then Ok (UnixStyleAbsolute socket_path)
  else Err (ExpectedAbsolutePath socket_path).

Fixpoint validate_sockets (home_dir : option str) (index : nat) (paths : list str) : Res ConfigError unit :=
  match paths with
  | [] => Ok tt
  | socket_path :: rest =>
      _ ← map_err (InvalidUnixSocket index) (validated_socket_parse home_dir socket_path);
      validate_sockets home_dir (S index) rest
  end.
Definition validate_unix_socket_allowlist_paths (home_dir : option str) (cfg : NetworkProxyConfig)
    : Res ConfigError unit :=
  validate_sockets home_dir 0 (allow_unix_sockets cfg).

Definition resolve_runtime (home_dir : option str) (cfg : NetworkProxyConfig)
    : Res ConfigError (SocketAddr * SocketAddr) :=
  _ ← validate_unix_socket_allowlist_paths home_dir cfg;
  http_addr ← map_err (InvalidProxyUrl (proxy_url cfg)) (resolve_addr (proxy_url cfg) 3128);
  socks_addr ← map_err (InvalidSocksUrl (socks_url cfg)) (resolve_addr (socks_url cfg) 8081);
  Ok (clamp_bind_addrs http_addr socks_addr cfg).

End addresses.

(** ** Managed constraints *)

Record NetworkProxyConstraints := mkConstraints {
  c_enabled : option bool;
  c_mode : option NetworkMode;
  c_allow_upstream_proxy : option bool;
  c_dangerously_allow_non_loopback_proxy : option bool;
  c_dangerously_allow_all_unix_sockets : option bool;
  c_allowed_domains : option (list str);
  c_allowlist_expansion_enabled : option bool;
  c_denied_domains : option (list str);
  c_denylist_expansion_enabled : option bool;
  c_allow_unix_sockets : option (list str);
  c_allow_local_binding : option bool
}.
#[global] Instance NetworkProxyConstraints_eq_dec : EqDecision NetworkProxyConstraints.
Proof. solve_decision. Defined.
Definition default_constraints : NetworkProxyConstraints :=
  mkConstraints None None None None None None None None None None None.

(** What a message shows: a text, a list or a mode formatted for debugging. *)
Inductive Shown := Text (s : str) | DebugList (l : list str) | DebugMode (m : NetworkMode)
| OrMoreRestrictive (m : NetworkMode).
Inductive NetworkProxyConstraintError := InvalidValue (field_name : str) (candidate allowed : Shown).

Definition network_mode_rank (m : NetworkMode) : N := match m with Limited => 0 | Full => 1 end.

Definition disabled_by_managed : Shown := Text (lit "false (disabled by managed config)").
Definition non_global_only : Shown :=
  Text (lit "exact hosts or scoped wildcards like *.example.com or **.example.com").

(** A flag that may not be set where the constraint says no. *)
Definition validate_flag (field_name : str) (candidate allowed : bool)
    : Res NetworkProxyConstraintError unit :=
  if candidate && negb allowed then Err (InvalidValue field_name (Text (lit "true")) disabled_by_managed)
  else Ok tt.
Definition validate_limit (field_name : str) (candidate : bool) (limit : option bool)
    : Res NetworkProxyConstraintError unit :=
  validate_flag field_name candidate (default true limit).

Definition validate_non_global_wildcard_domain_patterns (field_name : str) (patterns : list str)
    : Res NetworkProxyConstraintError unit :=
  match List.find is_global_wildcard_domain_pattern patterns with
  | Some p => Err (InvalidValue field_name (Text (trim p)) non_global_only)
  | None => Ok tt
  end.

Definition validate_mode (candidate : NetworkMode) (max : option NetworkMode)
    : Res NetworkProxyConstraintError unit :=
  match max with
  | Some max_mode =>
      if network_mode_rank max_mode <? network_mode_rank candidate
      then Err (InvalidValue (lit "network.mode") (DebugMode candidate) (OrMoreRestrictive max_mode))
      else Ok tt
  | None => Ok tt
  end.

Definition lowered (l : list str) : gset str := list_to_set (map to_ascii_lowercase l).

(** An error that shows [invalid], unless there is nothing to show. *)
Definition unless_empty (l : list str) (e : NetworkProxyConstraintError)
    : Res NetworkProxyConstraintError unit :=
  match l with [] => Ok tt | _ => Err e end.

Section validation.
Context (url_host_parse : str → option str).

Definition validate_allowed_domains (config_allowed_domains config_denied_domains : list str)
    (constraints : NetworkProxyConstraints) : Res NetworkProxyConstraintError unit :=
  let field := lit "network.allowed_domains" in
  let denied_domain_overrides := lowered config_denied_domains in
  match c_allowed_domains constraints with
  | None => Ok tt
  | Some managed_domains =>
      _ ← validate_non_global_wildcard_domain_patterns field managed_domains;
      match c_allowlist_expansion_enabled constraints with
      | Some true =>
          let missing := elements (lowered managed_domains ∖ lowered config_allowed_domains
                                     ∖ denied_domain_overrides) in
          unless_empty missing
            (InvalidValue field (Text (lit "missing managed allowed_domains entries")) (DebugList missing))
      | Some false =>
          if decide (lowered config_allowed_domains = lowered managed_domains ∖ denied_domain_overrides)
          then Ok tt
          else Err (InvalidValue field (DebugList config_allowed_domains)
                      (Text (lit "must match managed allowed_domains")))
      | None =>
          let managed_patterns := map (parse_for_constraints url_host_parse) managed_domains in
          let invalid := List.filter (λ entry,
            negb (existsb (λ managed, pattern_allows managed (parse_for_constraints url_host_parse entry))
                    managed_patterns)) config_allowed_domains in
          unless_empty invalid
            (InvalidValue field (DebugList invalid) (Text (lit "subset of managed allowed_domains")))
      end
  end.

Definition validate_denied_domains (config_denied_domains : list str)
    (constraints : NetworkProxyConstraints) : Res NetworkProxyConstraintError unit :=
  let field := lit "network.denied_domains" in
  match c_denied_domains constraints with
  | None => Ok tt
  | Some managed_domains =>
      _ ← validate_non_global_wildcard_domain_patterns field managed_domains;
      match c_denylist_expansion_enabled constraints with
      | Some false =>
          if decide (lowered config_denied_domains = lowered managed_domains) then Ok tt
          else Err (InvalidValue field (DebugList config_denied_domains)
                      (Text (lit "must match managed denied_domains")))
      | Some true | None =>
          let missing := elements (lowered managed_domains ∖ lowered config_denied_domains) in
          unless_empty missing
            (InvalidValue field (Text (lit "missing managed denied_domains entries")) (DebugList missing))
      end
  end.

Definition validate_unix_sockets (config_allow_unix_sockets : list str)
    (constraints : NetworkProxyConstraints) : Res NetworkProxyConstraintError unit :=
  match c_allow_unix_sockets constraints with
  | None => Ok tt
  | Some allowed =>
      let allowed_set := lowered allowed in
      let invalid := List.filter (λ entry, negb (bool_decide (to_ascii_lowercase entry ∈ allowed_set)))
        config_allow_unix_sockets in
      unless_empty invalid
        (InvalidValue (lit "network.allow_unix_sockets") (DebugList invalid)
           (Text (lit "subset of managed allow_unix_sockets")))
  end.

Definition allow_all_unix_sockets (constraints : NetworkProxyConstraints) : bool :=
  default (match c_allow_unix_sockets constraints with None => true | Some _ => false end)
    (c_dangerously_allow_all_unix_sockets constraints).

Definition validate_policy_against_constraints (config : NetworkProxyConfig)
    (constraints : NetworkProxyConstraints) : Res NetworkProxyConstraintError unit :=
  let config_allowed_domains := default [] (allowed_domains config) in
  let config_denied_domains := default [] (denied_domains config) in
  _ ← validate_non_global_wildcard_domain_patterns (lit "network.denied_domains") config_denied_domains;
  _ ← validate_limit (lit "network.enabled") (enabled config) (c_enabled constraints);
  _ ← validate_mode (mode config) (c_mode constraints);
  _ ← validate_limit (lit "network.allow_upstream_proxy") (allow_upstream_proxy config)
        (c_allow_upstream_proxy constraints);
  _ ← validate_limit (lit "network.dangerously_allow_non_loopback_proxy")
        (dangerously_allow_non_loopback_proxy config) (c_dangerously_allow_non_loopback_proxy constraints);
  _ ← validate_flag (lit "network.dangerously_allow_all_unix_sockets")
        (dangerously_allow_all_unix_sockets config) (allow_all_unix_sockets constraints);
  _ ← validate_limit (lit "network.allow_local_binding") (allow_local_binding config)
        (c_allow_local_binding constraints);
  _ ← validate_allowed_domains config_allowed_domains config_denied_domains constraints;
  _ ← validate_denied_domains config_denied_domains constraints;
  validate_unix_sockets (allow_unix_sockets config) constraints.

End validation.

(** ** The state of the proxy *)

Inductive BuildError :=
| BuildConfig (e : ConfigError)
| BuildConstraint (e : NetworkProxyConstraintError)
| BuildGlobs (e : CompileError)
| BuildMitm.

Record BlockedRequest := mkBlockedRequest {
  blocked_host : str;
  blocked_reason : str;
  blocked_client : option str;
  blocked_method : option str;
  blocked_mode : option NetworkMode;
  blocked_protocol : str;
  blocked_decision : option str;
  blocked_source : option str;
  blocked_port : option N;
  blocked_timestamp : Z
}.
#[global] Instance BlockedRequest_eq_dec : EqDecision BlockedRequest. Proof. solve_decision. Defined.

Section build.
Context `{GlobCompiler} {MitmState : Type}.
(** [MitmState::new] of [allow_upstream_proxy] and [allow_local_binding], which
    loads or makes a certificate authority. *)
Context (mitm_new : bool → bool → option MitmState).
Context (home_dir : option str).

(** [config] and the next fields are those of [ConfigState]. *)
Record ConfigState := mkConfigState {
  config : NetworkProxyConfig;
  allow_set : GlobSet;
  deny_set : GlobSet;
  mitm_state : option MitmState;
  constraints : NetworkProxyConstraints;
  blocked : list BlockedRequest;
  blocked_total : N
}.

Definition build_config_state (cfg : NetworkProxyConfig) (cs : NetworkProxyConstraints)
    : Res BuildError ConfigState :=
  _ ← map_err BuildConfig (validate_unix_socket_allowlist_paths home_dir cfg);
  let allowed := default [] (allowed_domains cfg) in
  let denied := default [] (denied_domains cfg) in
  _ ← map_err BuildConstraint
        (validate_non_global_wildcard_domain_patterns (lit "network.denied_domains") denied);
  deny ← map_err BuildGlobs (compile_denylist_globset denied);
  allow ← map_err BuildGlobs (compile_allowlist_globset allowed);
  m ← (if mitm cfg
       then m ← ok_or BuildMitm (mitm_new (allow_upstream_proxy cfg) (allow_local_binding cfg)); Ok (Some m)
       else Ok None);
  Ok (mkConfigState cfg allow deny m cs [] 0).

End build.
Arguments ConfigState {_} _.
