(* ===== verification/NetworkPolicyProofs.v ===== *)
(** * Properties of hosts, patterns and constraints

    What a compiled list matches, that the comparison of patterns is right for
    what the patterns denote, that letter case does not matter, the addresses
    that are not public as ranges, and what a validated configuration owes to
    its constraints. *)
From stdpp Require Import gmap.
From S2P Require Import Prelude RustStr AbsolutePath Ordering NetworkPolicy NetworkConfig.
Local Open Scope N_scope.

#[local] Set Default Proof Using "Type*".

(** ** Compiled lists *)

Section globs.
Context `{GlobLaws}.

(** Reference definition: what a pattern matches, without a glob set. *)
Definition candidate_matches (candidate host : str) : bool :=
  match glob_build candidate with Some g => glob_matches g host | None => false end.
Definition pattern_matches (pattern host : str) : bool :=
  existsb (λ c, candidate_matches c host) (expand_domain_pattern (normalize_pattern pattern)).
Definition matches_host_or_unscoped (pattern host : str) : bool :=
  pattern_matches pattern host ||
  match unscoped_ip_literal host with Some ip => pattern_matches pattern ip | None => false end.

(** Every candidate that was seen is represented by its glob. *)
Definition seen_built (seen : list str) (builder : list Glob) : Prop :=
  ∀ c, c ∈ seen → ∃ g, g ∈ builder ∧ glob_build c = Some g.

Lemma add_candidates_spec cands seen builder seen' builder' host :
  seen_built seen builder →
  add_candidates cands seen builder = Ok (seen', builder') →
  seen_built seen' builder' ∧
  existsb (λ g, glob_matches g host) builder' =
    existsb (λ g, glob_matches g host) builder || existsb (λ c, candidate_matches c host) cands.
Proof.
  revert seen builder. induction cands as [|c cands IH]; intros seen builder Hs; simpl.
  - intros [= <- <-]. by rewrite orb_false_r.
  - destruct (decide (c ∈ seen)) as [Hc|_].
    + intros E. destruct (IH _ _ Hs E) as [Hs' ->]. split; [done|].
      destruct (Hs c Hc) as (g & Hg & Hb). unfold candidate_matches at 2. rewrite Hb.
      destruct (glob_matches g host) eqn:Em; [|done].
      assert (existsb (λ g, glob_matches g host) builder = true) as -> by (apply existsb_elem; eauto).
      done.
    + destruct (glob_build c) as [g|] eqn:Eb; [|done]. intros E.
      assert (seen_built (c :: seen) (builder ++ [g])) as Hs1.
      { intros d [->|Hd]%elem_of_cons; [exists g; split; [set_solver|done]|].
        destruct (Hs d Hd) as (g' & ? & ?). exists g'. split; [set_solver|done]. }
      destruct (IH _ _ Hs1 E) as [Hs' ->]. split; [done|].
      rewrite existsb_app. unfold candidate_matches at 2. rewrite Eb. simpl.
      by rewrite orb_false_r, orb_assoc.
Qed.

Lemma compile_loop_spec patterns w seen builder globs host :
  seen_built seen builder →
  compile_loop patterns w seen builder = Ok globs →
  existsb (λ g, glob_matches g host) globs =
    existsb (λ g, glob_matches g host) builder || existsb (λ p, pattern_matches p host) patterns.
Proof.
  revert seen builder. induction patterns as [|p patterns IH]; intros seen builder Hs; simpl.
  - intros [= <-]. by rewrite orb_false_r.
  - destruct (_ && _); [done|].
    destruct (add_candidates _ seen builder) as [[seen' builder']| |] eqn:E; simpl; [|done|done].
    destruct (add_candidates_spec _ _ _ _ _ host Hs E) as [Hs' Eb].
    intros E'. rewrite (IH _ _ Hs' E'), Eb. unfold pattern_matches at 2. by rewrite orb_assoc.
Qed.

Lemma compiled_matches patterns w set host :
  compile_globset_with_policy patterns w = Ok set →
  is_match set host = existsb (λ p, pattern_matches p host) patterns.
Proof.
  unfold compile_globset_with_policy.
  destruct (compile_loop patterns w [] []) as [globs| |] eqn:E; simpl; [|done|done].
  unfold ok_or. destruct (globset_build globs) as [set'|] eqn:Es; [|done]. intros [= <-].
  rewrite (set_is_match _ _ _ Es).
  erewrite (compile_loop_spec _ _ [] [] _ host); [|by intros ? ?%elem_of_nil|done].
  done.
Qed.

Lemma existsb_orb {A} (f g : A → bool) l : existsb (λ x, f x || g x) l = existsb f l || existsb g l.
Proof. induction l as [|x l IH]; simpl; [done|]. rewrite IH. by destruct (f x), (g x), (existsb f l). Qed.
Lemma existsb_false {A} (l : list A) : existsb (λ _, false) l = false.
Proof. by induction l. Qed.

Lemma compiled_matches_host patterns w set host :
  compile_globset_with_policy patterns w = Ok set →
  globset_matches_host_or_unscoped set host = existsb (λ p, matches_host_or_unscoped p host) patterns.
Proof.
  intros E. unfold globset_matches_host_or_unscoped, matches_host_or_unscoped.
  rewrite existsb_orb, (compiled_matches _ _ _ _ E).
  destruct (unscoped_ip_literal host) as [ip|]; [by rewrite (compiled_matches _ _ _ _ E)|].
  by rewrite existsb_false.
Qed.

End globs.

(** ** Letter case *)

Lemma printable_no_whitespace c : 33 ≤ c ≤ 126 → is_whitespace c = false.
Proof.
  intros Hc. unfold is_whitespace.
  repeat (apply orb_false_intro);
    first [apply N.eqb_neq; lia | apply andb_false_iff; rewrite !N.leb_gt; lia].
Qed.
Lemma ascii_lower_whitespace c : is_whitespace (ascii_lower c) = is_whitespace c.
Proof.
  unfold ascii_lower. destruct (N.leb_spec 65 c), (N.leb_spec c 90); simpl; try done.
  by rewrite !printable_no_whitespace by lia.
Qed.

(** [ascii_lower] does not make or remove a character that is not a letter. *)
Lemma ascii_lower_eqb c k :
  is_ascii_alphabetic k = false → (ascii_lower c =? k) = (c =? k).
Proof.
  unfold is_ascii_alphabetic, ascii_lower. intros Hk.
  destruct (N.leb_spec 65 c), (N.leb_spec c 90); simpl; try done.
  destruct (N.leb_spec 65 k), (N.leb_spec k 90), (N.leb_spec 97 k), (N.leb_spec k 122);
    simpl in Hk; try done; destruct (N.eqb_spec (c + 32) k), (N.eqb_spec c k); lia || done.
Qed.


Section lower.
Context (p : char → bool) (Hp : ∀ c, p (ascii_lower c) = p c).

Lemma trim_start_matches_lower s :
  trim_start_matches p (to_ascii_lowercase s) = to_ascii_lowercase (trim_start_matches p s).
Proof. induction s as [|c s IH]; simpl; [done|]. rewrite Hp. by destruct (p c). Qed.
Lemma trim_end_matches_lower s :
  trim_end_matches p (to_ascii_lowercase s) = to_ascii_lowercase (trim_end_matches p s).
Proof.
  induction s as [|c s IH]; simpl; [done|]. rewrite IH, Hp.
  destruct (trim_end_matches p s); simpl; [by destruct (p c)|done].
Qed.
Lemma filter_lower s : length (List.filter p (to_ascii_lowercase s)) = length (List.filter p s).
Proof. induction s as [|c s IH]; simpl; [done|]. rewrite Hp. destruct (p c); simpl; by rewrite IH. Qed.
End lower.

Lemma trim_lower s : trim (to_ascii_lowercase s) = to_ascii_lowercase (trim s).
Proof.
  unfold trim, trim_start, trim_end.
  rewrite trim_end_matches_lower, trim_start_matches_lower; [done|apply ascii_lower_whitespace..].
Qed.

(** A text without letters. *)
Definition no_letters (s : str) : Prop := Forall (λ c, is_ascii_alphabetic c = false) s.

Lemma strip_prefix_lower p s :
  no_letters p → strip_prefix p (to_ascii_lowercase s) = to_ascii_lowercase <$> strip_prefix p s.
Proof.
  intros Hp. revert s. induction Hp as [|k p Hk Hp IH]; intros [|c s]; simpl; try done.
  unfold strip_prefix; fold strip_prefix. rewrite !(N.eqb_sym k), ascii_lower_eqb by done.
  destruct (c =? k); [apply IH|done].
Qed.
Lemma starts_with_no_letters p s : no_letters p → starts_with p (to_ascii_lowercase s) = starts_with p s.
Proof. intros. unfold starts_with. rewrite strip_prefix_lower by done. by destruct (strip_prefix p s). Qed.
Lemma find_lower p s : no_letters p → find p (to_ascii_lowercase s) = find p s.
Proof.
  intros Hp. induction s as [|c s IH].
  - done.
  - change (find p (to_ascii_lowercase (c :: s))) with
      (if starts_with p (to_ascii_lowercase (c :: s)) then Some 0%nat
       else S <$> find p (to_ascii_lowercase s)).
    rewrite starts_with_no_letters, IH by done. done.
Qed.
Lemma split_on_lower k s :
  is_ascii_alphabetic k = false → split_on k (to_ascii_lowercase s) = map to_ascii_lowercase (split_on k s).
Proof.
  intros Hk. induction s as [|c s IH]; [done|]. simpl. rewrite IH, ascii_lower_eqb by done.
  destruct (c =? k); [done|]. by destruct (split_on k s).
Qed.

Lemma normalize_dns_lower s :
  normalize_dns_host_or_ip_literal (to_ascii_lowercase s) = normalize_dns_host_or_ip_literal s.
Proof. unfold normalize_dns_host_or_ip_literal. by rewrite to_ascii_lowercase_idemp. Qed.

Lemma colon_lower c : (c_colon =? ascii_lower c) = (c_colon =? c).
Proof. rewrite !(N.eqb_sym c_colon). by apply ascii_lower_eqb. Qed.

Lemma strip_port_lower s : strip_port (to_ascii_lowercase s) = to_ascii_lowercase (strip_port s).
Proof.
  unfold strip_port. rewrite (filter_lower (N.eqb c_colon) colon_lower).
  destruct (decide _); [|done]. rewrite split_on_lower by done. by destruct (split_on c_colon s).
Qed.

Lemma normalize_host_lower s : normalize_host (to_ascii_lowercase s) = normalize_host s.
Proof.
  unfold normalize_host. rewrite trim_lower.
  rewrite starts_with_no_letters, find_lower by by repeat constructor.
  destruct (if starts_with _ _ then _ else _) as [e|].
  - rewrite <-(normalize_dns_lower (drop 1 (take e (trim s)))). f_equal. unfold to_ascii_lowercase.
    by rewrite firstn_map, skipn_map.
  - by rewrite strip_port_lower, normalize_dns_lower.
Qed.

Lemma no_letters_lower_eq k s : no_letters k → to_ascii_lowercase s = k ↔ s = k.
Proof.
  intros Hk. revert s. induction Hk as [|x k Hx _ IH]; intros [|c s]; try (split; done).
  change (ascii_lower c :: to_ascii_lowercase s = x :: k ↔ c :: s = x :: k).
  assert (ascii_lower c = x ↔ c = x) by (rewrite <-!N.eqb_eq; by rewrite ascii_lower_eqb).
  specialize (IH s). split; intros [= E1 E2]; f_equal; tauto.
Qed.

Lemma normalize_pattern_lower s : normalize_pattern (to_ascii_lowercase s) = normalize_pattern s.
Proof.
  unfold normalize_pattern. rewrite trim_lower. set (t := trim s).
  rewrite (decide_ext _ (t = lit "*")) by (apply no_letters_lower_eq; by repeat constructor).
  rewrite !strip_prefix_lower by by repeat constructor.
  destruct (decide (t = lit "*")); [done|].
  destruct (strip_prefix (lit "**.") t); simpl; [by rewrite normalize_host_lower|].
  destruct (strip_prefix (lit "*.") t); simpl; by rewrite normalize_host_lower.
Qed.

(** ** What patterns denote *)

(** The host is below the domain: its name ends with a dot and the domain. *)
Definition below (host domain : str) : Prop :=
  ∃ x, normalize_domain host = x ++ c_dot :: normalize_domain domain.

(** The hosts of a pattern. *)
Definition denotes (p : DomainPattern) (host : str) : Prop :=
  match p with
  | Exact domain => normalize_domain host = normalize_domain domain
  | SubdomainsOnly domain => below host domain
  | ApexAndSubdomains domain => normalize_domain host = normalize_domain domain ∨ below host domain
  end.
Definition domain_of (p : DomainPattern) : str :=
  match p with Exact d | SubdomainsOnly d | ApexAndSubdomains d => d end.

Lemma below_trans a b c : below a b → below b c → below a c.
Proof. intros [x Hx] [y Hy]. exists (x ++ c_dot :: y). by rewrite Hx, Hy, <-app_assoc. Qed.
Lemma below_congr_l a a' d : normalize_domain a = normalize_domain a' → below a d → below a' d.
Proof. unfold below. by intros ->. Qed.
Lemma below_congr_r h d d' : normalize_domain d = normalize_domain d' → below h d → below h d'.
Proof. unfold below. by intros ->. Qed.
Lemma below_ne h d : below h d → normalize_domain h ≠ normalize_domain d.
Proof. intros [x ->] E%(f_equal length). rewrite length_app in E. simpl in E. lia. Qed.

Lemma ends_with_dot h d :
  ends_with (lit "." ++ normalize_domain d) (normalize_domain h) = true ↔ below h d.
Proof.
  rewrite ends_with_spec. unfold below. change (lit ".") with [c_dot]. simpl.
  split; intros [x Hx]; by exists x.
Qed.
Lemma is_strict_subdomain_spec h d : is_strict_subdomain h d = true ↔ below h d.
Proof.
  unfold is_strict_subdomain. rewrite andb_true_iff, negb_true_iff, bool_decide_eq_false, ends_with_dot.
  split; [by intros [_ ?]|]. eauto using below_ne.
Qed.
Lemma is_subdomain_or_equal_spec h d :
  is_subdomain_or_equal h d = true ↔ normalize_domain h = normalize_domain d ∨ below h d.
Proof.
  unfold is_subdomain_or_equal. destruct (decide _) as [E|E]; [naive_solver|].
  rewrite ends_with_dot. naive_solver.
Qed.

(** A label put before a domain. *)
Lemma normalize_domain_label a d :
  ascii_lower a = a → normalize_domain d ≠ [] →
  normalize_domain (a :: c_dot :: d) = a :: c_dot :: normalize_domain d.
Proof.
  intros Ha Hd. unfold normalize_domain in *. simpl.
  destruct (trim_end_matches is_dot d) as [|c s]; [done|]. simpl. by rewrite Ha.
Qed.
Lemma below_label a d :
  ascii_lower a = a → normalize_domain d ≠ [] → below (a :: c_dot :: d) d.
Proof. intros Ha Hd. exists [a]. by apply normalize_domain_label. Qed.
Lemma below_label_inv a c d :
  ascii_lower a = a → (a =? c_dot) = false → normalize_domain c ≠ [] → below (a :: c_dot :: c) d →
  normalize_domain c = normalize_domain d ∨ below c d.
Proof.
  intros Ha Hdot%N.eqb_neq Hc [x Hx]. rewrite normalize_domain_label in Hx by done.
  destruct x as [|y [|z x]]; simpl in Hx; simplify_eq.
  - by left.
  - right. by exists x.
Qed.

(** Two labels, of which at most one gives a certain name. *)
Lemma apex_or_below_label c d :
  normalize_domain c ≠ [] →
  (∀ h, below h c → normalize_domain h = normalize_domain d ∨ below h d) →
  normalize_domain c = normalize_domain d ∨ below c d.
Proof.
  intros Hc Hall.
  destruct (Hall (97 :: c_dot :: c)) as [Ea|Ea]; [by apply below_label| |by apply (below_label_inv 97)].
  destruct (Hall (98 :: c_dot :: c)) as [Eb|Eb]; [by apply below_label| |by apply (below_label_inv 98)].
  rewrite normalize_domain_label in Ea, Eb by done. congruence.
Qed.

(** C32. The comparison of patterns that constrains a configuration is right:
    a managed pattern allows a candidate exactly when every host of the
    candidate is a host of the managed pattern. *)
Theorem pattern_allows_covers managed candidate :
  normalize_domain (domain_of candidate) ≠ [] →
  pattern_allows managed candidate = true ↔ ∀ host, denotes candidate host → denotes managed host.
Proof.
  intros Hc. destruct managed as [d|d|d], candidate as [c|c|c]; simpl in *;
    rewrite ?is_subdomain_or_equal_spec, ?is_strict_subdomain_spec;
    unfold domain_eq; rewrite ?bool_decide_eq_true.
  - split; [|intros Hall; apply Hall; by left].
    intros [E|E] h [Eh|Eh]; rewrite ?Eh; eauto using below_congr_r, below_congr_l, below_trans.
  - split; [intros [E|E] h Hh; eauto using below_congr_r, below_trans|by apply apex_or_below_label].
  - split; [|intros Hall; by apply Hall].
    intros [E|E] h Eh; [left; congruence|right]. eauto using below_congr_l.
  - split; [|intros Hall; apply Hall; by left]. intros E h [Eh|Eh]; eauto using below_congr_l, below_trans.
  - split; [intros [E|E] h Hh; eauto using below_congr_r, below_trans|].
    intros Hall. by eapply (below_label_inv 97), Hall, below_label.
  - split; [|intros Hall; by apply Hall]. eauto using below_congr_l.
  - split; [done|]. intros Hall.
    assert (E := Hall (97 :: c_dot :: c) (or_intror (below_label 97 c eq_refl Hc))).
    assert (E' := Hall (98 :: c_dot :: c) (or_intror (below_label 98 c eq_refl Hc))).
    rewrite normalize_domain_label in E, E' by done. congruence.
  - split; [done|]. intros Hall.
    assert (E := Hall (97 :: c_dot :: c) (below_label 97 c eq_refl Hc)).
    assert (E' := Hall (98 :: c_dot :: c) (below_label 98 c eq_refl Hc)).
    rewrite normalize_domain_label in E, E' by done. congruence.
  - split; [intros E h Eh; congruence|intros Hall; by apply Hall].
Qed.
Lemma pattern_allows_covers_witness :
  denotes (ApexAndSubdomains (lit "example.com.")) (lit "v2.api.example.com").
Proof.
  apply (proj1 (pattern_allows_covers (ApexAndSubdomains (lit "example.com."))
    (SubdomainsOnly (lit "api.Example.com")) ltac:(by vm_compute)) ltac:(by vm_compute)).
  exists (lit "v2"). by vm_compute.
Defined.

(** ** Address ranges *)

Lemma mask_bits prefix i :
  prefix ≤ 32 →
  N.testbit (if prefix =? 0 then 0 else N.land (N.shiftl 4294967295 (32 - prefix)) 4294967295) i =
    (32 - prefix <=? i) && (i <? 32).
Proof.
  intros Hp. destruct (N.eqb_spec prefix 0) as [->|Hz].
  - rewrite N.bits_0. destruct (N.leb_spec (32 - 0) i), (N.ltb_spec i 32); simpl; lia || done.
  - rewrite N.land_spec. change 4294967295 with (N.ones 32).
    destruct (N.leb_spec (32 - prefix) i).
    + rewrite N.shiftl_spec_high' by done. destruct (N.ltb_spec i 32).
      * by rewrite !N.ones_spec_low by lia.
      * by rewrite (N.ones_spec_high 32 i), andb_false_r by done.
    + by rewrite N.shiftl_spec_low by done.
Qed.

Lemma land_mask a prefix :
  prefix ≤ 32 → a < 4294967296 →
  N.land a (if prefix =? 0 then 0 else N.land (N.shiftl 4294967295 (32 - prefix)) 4294967295) =
    a / 2 ^ (32 - prefix) * 2 ^ (32 - prefix).
Proof.
  intros Hp Ha. rewrite <-N.shiftr_div_pow2, <-N.shiftl_mul_pow2. apply N.bits_inj. intros i.
  rewrite N.land_spec, mask_bits by done. destruct (N.leb_spec (32 - prefix) i).
  - rewrite N.shiftl_spec_high', N.shiftr_spec' by done.
    replace (i - (32 - prefix) + (32 - prefix)) with i by lia.
    destruct (N.ltb_spec i 32); simpl; [by rewrite andb_true_r|].
    rewrite andb_false_r. symmetry. rewrite <-(N.mod_small a (2 ^ 32)) by done.
    by apply N.mod_pow2_bits_high.
  - by rewrite N.shiftl_spec_low, andb_false_r by done.
Qed.

(** Addresses whose parts are bytes. *)
Definition wf_ipv4 (ip : Ipv4Addr) : Prop :=
  let 'mkIpv4 a b c d := ip in a < 256 ∧ b < 256 ∧ c < 256 ∧ d < 256.
Lemma u32_of_bound ip : wf_ipv4 ip → u32_of ip < 4294967296.
Proof. destruct ip. cbv [wf_ipv4 u32_of]. lia. Qed.

Lemma ipv4_in_cidr_range ip base prefix :
  wf_ipv4 ip → wf_ipv4 base → prefix ≤ 32 → u32_of base mod 2 ^ (32 - prefix) = 0 →
  ipv4_in_cidr ip base prefix = true ↔
    u32_of base ≤ u32_of ip < u32_of base + 2 ^ (32 - prefix).
Proof.
  intros Hi%u32_of_bound Hb%u32_of_bound Hp Hm. unfold ipv4_in_cidr.
  rewrite !land_mask, N.eqb_eq by done.
  assert (2 ^ (32 - prefix) ≠ 0) by (by apply N.pow_nonzero).
  revert Hm. generalize (u32_of ip) (u32_of base) (2 ^ (32 - prefix)) H. intros a b k Hk Hm.
  pose proof (N.div_mod a k Hk) as Ea. pose proof (N.mod_lt a k Hk) as Hr.
  pose proof (N.div_mod b k Hk) as Eb. rewrite Hm in Eb. split; intros E.
  - rewrite !(N.mul_comm _ k) in E. rewrite E in Ea. clear E.
    generalize dependent (k * (b / k)). generalize dependent (a mod k). lia.
  - f_equal. symmetry. apply (N.div_unique a k (b / k) (a - b)); lia.
Qed.

(** The blocks of addresses that are not public, in the notation of RFC 4632. *)
Definition non_public_blocks : list (Ipv4Addr * N) :=
  [(mkIpv4 0 0 0 0, 8); (mkIpv4 10 0 0 0, 8); (mkIpv4 100 64 0 0, 10); (mkIpv4 127 0 0 0, 8);
   (mkIpv4 169 254 0 0, 16); (mkIpv4 172 16 0 0, 12); (mkIpv4 192 0 0 0, 24); (mkIpv4 192 0 2 0, 24);
   (mkIpv4 192 168 0 0, 16); (mkIpv4 198 18 0 0, 15); (mkIpv4 198 51 100 0, 24);
   (mkIpv4 203 0 113 0, 24); (mkIpv4 224 0 0 0, 4); (mkIpv4 240 0 0 0, 4)].
Definition in_block (ip : Ipv4Addr) (block : Ipv4Addr * N) : Prop :=
  u32_of block.1 ≤ u32_of ip < u32_of block.1 + 2 ^ (32 - block.2).

Lemma is_private_range ip : wf_ipv4 ip →
  is_private ip = true ↔ in_block ip (mkIpv4 10 0 0 0, 8) ∨ in_block ip (mkIpv4 172 16 0 0, 12)
    ∨ in_block ip (mkIpv4 192 168 0 0, 16).
Proof.
  destruct ip as [a b c d]. cbv [wf_ipv4 is_private in_block u32_of fst snd].
  rewrite !orb_true_iff, !andb_true_iff, !N.eqb_eq, !N.leb_le.
  change (2 ^ (32 - 8)) with 16777216. change (2 ^ (32 - 12)) with 1048576. change (2 ^ (32 - 16)) with 65536.
  intros Hw. split; intros; lia.
Qed.

Lemma other_ranges ip : wf_ipv4 ip →
  (is_loopback_v4 ip = true ↔ in_block ip (mkIpv4 127 0 0 0, 8)) ∧
  (is_link_local ip = true ↔ in_block ip (mkIpv4 169 254 0 0, 16)) ∧
  (is_multicast_v4 ip = true ↔ in_block ip (mkIpv4 224 0 0 0, 4)).
Proof.
  destruct ip as [a b c d]. cbv [wf_ipv4 is_loopback_v4 is_link_local is_multicast_v4 in_block u32_of fst snd].
  rewrite !andb_true_iff, !N.eqb_eq, !N.leb_le.
  change (2 ^ (32 - 8)) with 16777216. change (2 ^ (32 - 4)) with 268435456. change (2 ^ (32 - 16)) with 65536.
  intros Hw. repeat split; intros; lia.
Qed.

Lemma is_unspecified_block ip : is_unspecified_v4 ip = true → in_block ip (mkIpv4 0 0 0 0, 8).
Proof. unfold is_unspecified_v4, in_block. intros ->%N.eqb_eq. by vm_compute. Qed.
Lemma is_broadcast_block ip : is_broadcast ip = true → in_block ip (mkIpv4 240 0 0 0, 4).
Proof. unfold is_broadcast, in_block. intros ->%N.eqb_eq. by vm_compute. Qed.

Lemma cidr_block ip base prefix :
  wf_ipv4 ip → wf_ipv4 base → prefix ≤ 32 → u32_of base mod 2 ^ (32 - prefix) = 0 →
  ipv4_in_cidr ip base prefix = true ↔ in_block ip (base, prefix).
Proof. apply ipv4_in_cidr_range. Qed.

(** The IPv4 addresses that count as local are those of fourteen blocks:
    the tests on bytes and the masks of the code agree with the ranges of the
    standards they cite. *)
Theorem non_public_ipv4_blocks ip :
  wf_ipv4 ip → is_non_public_ipv4 ip = true ↔ ∃ block, block ∈ non_public_blocks ∧ in_block ip block.
Proof.
  intros Hw. unfold is_non_public_ipv4. rewrite !orb_true_iff.
  rewrite is_private_range by done.
  destruct (other_ranges ip Hw) as (-> & -> & ->).
  rewrite !cidr_block by (done || by vm_compute).
  assert (Hl : (∃ block, block ∈ non_public_blocks ∧ in_block ip block) ↔ Exists (in_block ip) non_public_blocks)
    by (symmetry; apply Exists_exists).
  rewrite Hl. unfold non_public_blocks. rewrite !Exists_cons, Exists_nil.
  pose proof (is_unspecified_block ip) as Hu. pose proof (is_broadcast_block ip) as Hb.
  revert Hu Hb. generalize (is_unspecified_v4 ip = true) (is_broadcast ip = true). clear.
  repeat match goal with |- context [in_block ip ?b] => generalize (in_block ip b); intros ? end.
  tauto.
Qed.
Lemma non_public_ipv4_blocks_witness :
  ∃ block, block ∈ non_public_blocks ∧ in_block (mkIpv4 172 31 255 255) block.
Proof. apply non_public_ipv4_blocks; [vm_compute; by repeat split|by vm_compute]. Defined.

(** ** Validated configurations *)

Lemma lowered_elem q l : to_ascii_lowercase q ∈ lowered l ↔ ∃ p, p ∈ l ∧ to_ascii_lowercase p = to_ascii_lowercase q.
Proof.
  unfold lowered. rewrite elem_of_list_to_set, list_elem_of_fmap. naive_solver.
Qed.
Lemma lowered_elem_of x l : x ∈ lowered l ↔ ∃ p, p ∈ l ∧ x = to_ascii_lowercase p.
Proof. unfold lowered. rewrite elem_of_list_to_set, list_elem_of_fmap. naive_solver. Qed.

Lemma unless_empty_ok l e : unless_empty l e = Ok tt ↔ l = [].
Proof. destruct l; simpl; naive_solver. Qed.

Lemma bind_unit_ok {E A} (m : Res E unit) (k : unit → Res E A) a :
  (u ← m; k u) = Ok a ↔ m = Ok tt ∧ k tt = Ok a.
Proof. destruct m as [[]| |]; simpl; naive_solver. Qed.

Lemma non_global_ok field l :
  validate_non_global_wildcard_domain_patterns field l = Ok tt ↔
    ∀ p, p ∈ l → is_global_wildcard_domain_pattern p = false.
Proof.
  unfold validate_non_global_wildcard_domain_patterns.
  destruct (List.find _ l) as [p|] eqn:E; split; try done.
  - apply List.find_some in E as [Hp%list_elem_of_In E]. intros Hall. by rewrite Hall in E.
  - intros _ p Hp%list_elem_of_In. eapply List.find_none in E; eauto.
Qed.

Lemma flag_ok field candidate allowed :
  validate_flag field candidate allowed = Ok tt ↔ (candidate = true → allowed = true).
Proof. unfold validate_flag. destruct candidate, allowed; simpl; naive_solver. Qed.

Lemma difference_empty_elem (A B : gset str) x : elements (A ∖ B) = [] → x ∈ A → x ∈ B.
Proof.
  intros E%elements_empty_iff Hx. destruct (decide (x ∈ B)) as [|Hn]; [done|].
  exfalso. apply (not_elem_of_empty (C:=gset str) x). rewrite <-E. by apply elem_of_difference.
Qed.

Section validated.
Context (url_host_parse : str → option str).

(** Every check passes. *)
Record satisfies (cfg : NetworkProxyConfig) (cs : NetworkProxyConstraints) : Prop := {
  sat_global : ∀ p, p ∈ default [] (denied_domains cfg) → is_global_wildcard_domain_pattern p = false;
  sat_enabled : validate_limit (lit "network.enabled") (enabled cfg) (c_enabled cs) = Ok tt;
  sat_mode : validate_mode (mode cfg) (c_mode cs) = Ok tt;
  sat_upstream : validate_limit (lit "network.allow_upstream_proxy") (allow_upstream_proxy cfg)
    (c_allow_upstream_proxy cs) = Ok tt;
  sat_loopback : validate_limit (lit "network.dangerously_allow_non_loopback_proxy")
    (dangerously_allow_non_loopback_proxy cfg) (c_dangerously_allow_non_loopback_proxy cs) = Ok tt;
  sat_all_sockets : validate_flag (lit "network.dangerously_allow_all_unix_sockets")
    (dangerously_allow_all_unix_sockets cfg) (allow_all_unix_sockets cs) = Ok tt;
  sat_local : validate_limit (lit "network.allow_local_binding") (allow_local_binding cfg)
    (c_allow_local_binding cs) = Ok tt;
  sat_allowed : validate_allowed_domains url_host_parse (default [] (allowed_domains cfg))
    (default [] (denied_domains cfg)) cs = Ok tt;
  sat_denied : validate_denied_domains (default [] (denied_domains cfg)) cs = Ok tt;
  sat_sockets : validate_unix_sockets (allow_unix_sockets cfg) cs = Ok tt
}.

Lemma validate_ok cfg cs :
  validate_policy_against_constraints url_host_parse cfg cs = Ok tt ↔ satisfies cfg cs.
Proof.
  unfold validate_policy_against_constraints.
  rewrite !bind_unit_ok, non_global_ok. split; [by intros (?&?&?&?&?&?&?&?&?&?); constructor|].
  intros []. repeat split; done.
Qed.

(** Only the mode's own check depends on the mode. *)
Lemma satisfies_set_mode cfg cs m :
  satisfies cfg cs → validate_mode m (c_mode cs) = Ok tt → satisfies (set_mode m cfg) cs.
Proof. intros [] Hm. by constructor. Qed.

(** Every managed denial is in the list of the configuration. *)
Lemma managed_denied_listed cfg cs ds p :
  satisfies cfg cs → c_denied_domains cs = Some ds → p ∈ ds →
  ∃ q, q ∈ default [] (denied_domains cfg) ∧ to_ascii_lowercase q = to_ascii_lowercase p.
Proof.
  intros Hs Hd Hp. pose proof (sat_denied _ _ Hs) as E. unfold validate_denied_domains in E.
  rewrite Hd, bind_unit_ok in E. destruct E as [_ E]. apply lowered_elem.
  assert (Hp' : to_ascii_lowercase p ∈ lowered ds) by (apply lowered_elem; eauto).
  destruct (c_denylist_expansion_enabled cs) as [[]|];
    [| destruct (decide _) as [->|]; [done|done] |];
    apply unless_empty_ok in E; by eapply difference_empty_elem.
Qed.

(** Nothing is allowed that the pinned list does not have. *)
Lemma managed_allowed_pinned cfg cs ms q :
  satisfies cfg cs → c_allowed_domains cs = Some ms → c_allowlist_expansion_enabled cs = Some false →
  q ∈ default [] (allowed_domains cfg) → ∃ p, p ∈ ms ∧ to_ascii_lowercase p = to_ascii_lowercase q.
Proof.
  intros Hs Hm Hx Hq. pose proof (sat_allowed _ _ Hs) as E. unfold validate_allowed_domains in E.
  rewrite Hm, Hx, bind_unit_ok in E. destruct E as [_ E].
  assert (Hq' : to_ascii_lowercase q ∈ lowered (default [] (allowed_domains cfg))) by (apply lowered_elem; eauto).
  destruct (decide _) as [E'|] in E; [|done]. apply lowered_elem. rewrite E' in Hq'.
  by apply elem_of_difference in Hq' as [? _].
Qed.

End validated.

Lemma matches_lower `{GlobLaws} p q host :
  to_ascii_lowercase p = to_ascii_lowercase q →
  matches_host_or_unscoped p host = matches_host_or_unscoped q host.
Proof.
  intros E. unfold matches_host_or_unscoped, pattern_matches.
  by rewrite <-(normalize_pattern_lower p), E, normalize_pattern_lower.
Qed.

(** ** Addresses to listen on *)

Lemma clamp_loopback addr : is_loopback (clamp_non_loopback addr false).1 = true.
Proof. unfold clamp_non_loopback. by destruct (is_loopback addr.1) eqn:E. Qed.

(** The proxy listens on a loopback address only, unless the configuration
    sets the dangerous flag and lets no unix socket through. *)
Theorem listens_on_loopback url_parse home_dir cfg http_addr socks_addr :
  resolve_runtime url_parse home_dir cfg = Ok (http_addr, socks_addr) →
  dangerously_allow_non_loopback_proxy cfg = false ∨
  allow_unix_sockets cfg ≠ [] ∨ dangerously_allow_all_unix_sockets cfg = true →
  is_loopback http_addr.1 = true ∧ is_loopback socks_addr.1 = true.
Proof.
  unfold resolve_runtime. rewrite bind_unit_ok. intros [_ E] Hc. res_inv.
  unfold clamp_bind_addrs in *.
  destruct (bool_decide (allow_unix_sockets cfg = []) && _) eqn:Eb; simplify_eq; [|by split].
  apply andb_true_iff in Eb as [Ee%bool_decide_eq_true En%negb_true_iff].
  destruct Hc as [->|[?|?]]; [|congruence..]. split; apply clamp_loopback.
Qed.
Lemma listens_on_loopback_witness :
  is_loopback (V4 (mkIpv4 127 0 0 1)) = true ∧ is_loopback (V4 (mkIpv4 127 0 0 1)) = true.
Proof.
  apply (listens_on_loopback (λ _, None) None
    (set_domains None (mkSettings true (lit "0.0.0.0:8080") true (lit "10.0.0.1:9000") false true false
       false Full None None false false))
    (localhost_addr 8080) (localhost_addr 9000)); [by vm_compute|by left].
Defined.

(** ** Lists of domains *)

(** The stricter of two permissions, in the derived order. *)
Definition permission_max (a b : NetworkDomainPermission) : NetworkDomainPermission :=
  if permission_rank a <? permission_rank b then b else a.
Definition permission_of (p : str) (entries : list NetworkDomainPermissionEntry)
    : option NetworkDomainPermission :=
  foldl (λ acc e, if decide (pattern e = p)
                  then Some (match acc with Some k => permission_max k (permission e) | None => permission e end)
                  else acc) None entries.

Lemma effective_fold entries :
  let acc := foldl effective_step ([], ∅) entries in
  NoDup acc.1 ∧ (∀ p, p ∈ acc.1 ↔ is_Some (acc.2 !! p)) ∧ (∀ p, acc.2 !! p = permission_of p entries).
Proof.
  induction entries as [|e entries IH] using rev_ind; simpl.
  { split_and!; [constructor| |done]. intros p. rewrite lookup_empty.
    split; [by intros ?%elem_of_nil|by intros [? ?]]. }
  unfold permission_of. rewrite !foldl_app. simpl.
  destruct (foldl effective_step ([], ∅) entries) as [order m]. simpl in *.
  destruct IH as (Hnd & Hdom & Hm). unfold permission_of in Hm.
  destruct (m !! pattern e) as [k|] eqn:Ek; simpl.
  - split; [done|].
    assert (Hl : ∀ p, (if permission_rank k <? permission_rank (permission e)
        then <[pattern e := permission e]> m else m) !! p =
        if decide (pattern e = p) then Some (permission_max k (permission e)) else m !! p).
    { intros p. unfold permission_max. destruct (_ <? _), (decide (pattern e = p)) as [<-|];
        by rewrite ?lookup_insert_eq, ?lookup_insert_ne by done. }
    split; intros p; rewrite Hl.
    + rewrite Hdom. destruct (decide _) as [<-|]; [|done]. rewrite Ek. split; eauto.
    + rewrite foldl_app. simpl. rewrite <-Hm. destruct (decide (pattern e = p)) as [<-|]; [by rewrite Ek|done].
  - assert (Hni : pattern e ∉ order) by (rewrite Hdom, Ek; by intros [? ?]).
    split; [apply NoDup_app; split_and!; [done| |apply NoDup_singleton]; set_solver|].
    split; intros p.
    + rewrite elem_of_app, list_elem_of_singleton, Hdom.
      destruct (decide (pattern e = p)) as [<-|Hne];
        [rewrite lookup_insert_eq|rewrite lookup_insert_ne by done]; naive_solver.
    + rewrite foldl_app. simpl. rewrite <-Hm. destruct (decide (pattern e = p)) as [<-|Hne];
        [by rewrite lookup_insert_eq, Ek|by rewrite lookup_insert_ne].
Qed.

Lemma take_effective_elem order m p k :
  NoDup order → mkEntry p k ∈ take_effective order m ↔ p ∈ order ∧ m !! p = Some k.
Proof.
  intros Hnd. revert m. induction Hnd as [|q order Hq Hnd IH]; intros m; simpl.
  { split; [by intros ?%elem_of_nil|by intros [?%elem_of_nil ?]]. }
  destruct (m !! q) as [k'|] eqn:E; rewrite ?elem_of_cons, IH, ?elem_of_cons.
  - split.
    + intros [[= -> ->]|[Hp Hm]]; [by split; [left|]|].
      rewrite lookup_delete_ne in Hm by (intros ->; done). by split; [right|].
    + intros [[->|Hp] Hm]; [left; congruence|right]. split; [done|].
      by rewrite lookup_delete_ne by (intros ->; done).
  - split; [intros [? ?]; split; [by right|done]|]. intros [[->|?] ?]; [congruence|done].
Qed.

Lemma effective_entries_spec entries p k :
  mkEntry p k ∈ effective_entries entries ↔ permission_of p entries = Some k.
Proof.
  unfold effective_entries. destruct (effective_fold entries) as (Hnd & Hdom & Hm).
  destruct (foldl effective_step ([], ∅) entries) as [order m]. simpl in *.
  rewrite take_effective_elem, Hdom, Hm by done. naive_solver.
Qed.

Lemma domain_entries_elem s perm p :
  p ∈ default [] (domain_entries perm s) ↔ permission_of p (default [] (domains s)) = Some perm.
Proof.
  unfold domain_entries. destruct (domains s) as [es|]; simpl; [|split; [by intros ?%elem_of_nil|done]].
  rewrite <-effective_entries_spec.
  set (l := map pattern _).
  assert (Hl : default [] (non_empty l) = l) by (by destruct l). rewrite Hl. unfold l.
  rewrite list_elem_of_fmap. split.
  - intros ([q k] & -> & [Hq E]%elem_of_filterb). simpl in *. by apply bool_decide_eq_true in E as ->.
  - intros He. exists (mkEntry p perm). split; [done|]. apply elem_of_filterb. split; [done|].
    by apply bool_decide_eq_true.
Qed.

Lemma permission_of_snoc p entries e :
  permission_of p (entries ++ [e]) =
    if decide (pattern e = p)
    then Some (match permission_of p entries with Some k => permission_max k (permission e) | None => permission e end)
    else permission_of p entries.
Proof. unfold permission_of. by rewrite foldl_app. Qed.
Lemma permission_of_None p entries :
  (∀ e, e ∈ entries → pattern e ≠ p) → permission_of p entries = None.
Proof.
  induction entries as [|e entries IH] using rev_ind; intros Hn; [done|].
  rewrite permission_of_snoc, decide_False by (apply Hn; set_solver). apply IH. set_solver.
Qed.
Lemma permission_of_spec p entries k :
  permission_of p entries = Some k ↔
    mkEntry p k ∈ entries ∧ ∀ k', mkEntry p k' ∈ entries → permission_rank k' ≤ permission_rank k.
Proof.
  revert k. induction entries as [|[q kq] entries IH] using rev_ind; intros k.
  { split; [done|]. by intros [?%elem_of_nil _]. }
  rewrite permission_of_snoc. simpl. setoid_rewrite elem_of_app. setoid_rewrite list_elem_of_singleton.
  destruct (decide (q = p)) as [->|Hne].
  - destruct (permission_of p entries) as [k0|] eqn:E0.
    + destruct (proj1 (IH k0) eq_refl) as [Hin Hmax]. unfold permission_max. split.
      * intros [= <-]. destruct (N.ltb_spec (permission_rank k0) (permission_rank kq)).
        -- split; [by right|]. intros k' [Hk|[= ->]]; [|lia]. specialize (Hmax _ Hk). lia.
        -- split; [by left|]. intros k' [Hk|[= ->]]; [by apply Hmax|lia].
      * intros [Hk Hm]. f_equal.
        assert (Hinj : ∀ a b, permission_rank a = permission_rank b → a = b) by (by intros [] []).
        pose proof (Hm _ (or_introl Hin)). pose proof (Hm _ (or_intror eq_refl)).
        destruct (N.ltb_spec (permission_rank k0) (permission_rank kq)); apply Hinj;
          destruct Hk as [Hk|[= ->]]; try lia; specialize (Hmax _ Hk); lia.
    + assert (Hno : ∀ k', mkEntry p k' ∉ entries).
      { intros k' Hk. clear -Hk E0. induction entries as [|e l IH] using rev_ind; [by apply elem_of_nil in Hk|].
        rewrite permission_of_snoc in E0. destruct (decide (pattern e = p)); [done|].
        apply elem_of_app in Hk as [Hk|Hk]; [by apply IH|].
        apply list_elem_of_singleton in Hk as <-. done. }
      split.
      * intros [= <-]. split; [by right|]. intros k' [Hk|[= ->]]; [by destruct (Hno k')|lia].
      * intros [[Hk|[= ->]] _]; [by destruct (Hno k)|done].
  - rewrite IH. split.
    + intros [Hk Hm]. split; [by left|]. intros k' [?|[= ? ?]]; [by apply Hm|congruence].
    + intros [[Hk|[= ? ?]] Hm]; [|congruence]. split; [done|]. intros k' Hk'. apply Hm. by left.
Qed.

(** Duplicate entries are resolved to the strictest permission: a pattern
    is in the deny list exactly when some entry denies it, and in the allow
    list exactly when some entry allows it and none denies it. *)
Theorem deny_wins_over_allow s p :
  (p ∈ default [] (denied_domains s) ↔ mkEntry p PermDeny ∈ default [] (domains s)) ∧
  (p ∈ default [] (allowed_domains s) ↔
    mkEntry p PermAllow ∈ default [] (domains s) ∧ mkEntry p PermDeny ∉ default [] (domains s)).
Proof.
  unfold denied_domains, allowed_domains. rewrite !domain_entries_elem, !permission_of_spec. split; split.
  - by intros [? _].
  - intros ?. split; [done|]. intros [] _; done.
  - intros [? Hm]. split; [done|]. intros Hd. by specialize (Hm _ Hd).
  - intros [? Hn]. split; [done|]. intros [] Hk; [done|done|contradiction].
Qed.

Lemma upsert_listed host perm normalize s :
  host ∈ default [] (domain_entries perm (upsert_domain_permission host perm normalize s)).
Proof.
  rewrite domain_entries_elem. unfold upsert_domain_permission, set_domains.
  set (entries := List.filter _ _). cbn [domains].
  assert (default [] (non_empty (entries ++ [mkEntry host perm])) = entries ++ [mkEntry host perm]) as ->
    by (by destruct entries).
  rewrite permission_of_snoc. simpl. rewrite decide_True by done. rewrite permission_of_None; [done|].
  intros e [_ E]%elem_of_filterb. apply negb_true_iff, bool_decide_eq_false in E. congruence.
Qed.

(** ** Hosts and patterns with a wildcard *)

Lemma parse_ip_star r : parse_ip (c_star :: r) = None.
Proof. reflexivity. Qed.
Lemma find_star c d r i : c ≠ c_star → find (c :: d) (c_star :: r) = Some i → ∃ j, i = S j.
Proof.
  intros Hc. change (find (c :: d) (c_star :: r)) with
    (if starts_with (c :: d) (c_star :: r) then Some 0%nat else S <$> find (c :: d) r).
  assert (starts_with (c :: d) (c_star :: r) = false) as ->.
  { unfold starts_with, strip_prefix. by rewrite (proj2 (N.eqb_neq _ _) Hc). }
  destruct (find (c :: d) r); naive_solver.
Qed.
Lemma scoped_ip_star c d r : c ≠ c_star → scoped_ip (c :: d) (c_star :: r) = None.
Proof.
  intros Hc. unfold scoped_ip, split_once_str.
  destruct (find (c :: d) (c_star :: r)) as [i|] eqn:E; [|done].
  apply find_star in E as [j ->]; [|done]. simpl. done.
Qed.
Lemma normalize_host_star e r : trim e = c_star :: r → ∃ r', normalize_host e = c_star :: r'.
Proof.
  intros E. unfold normalize_host. rewrite E.
  change (if starts_with [c_lbracket] (c_star :: r) then find [c_rbracket] (c_star :: r) else None)
    with (None (A:=nat)). cbv iota.
  assert (∃ r1, strip_port (c_star :: r) = c_star :: r1) as [r1 ->].
  { unfold strip_port. destruct (decide _); [|eauto].
    simpl. destruct (split_on c_colon r); simpl; eauto. }
  unfold normalize_dns_host_or_ip_literal. simpl to_ascii_lowercase.
  change (ascii_lower c_star) with c_star.
  assert (∃ r2, trim_end_matches is_dot (c_star :: to_ascii_lowercase r1) = c_star :: r2) as [r2 ->].
  { simpl. destruct (trim_end_matches is_dot (to_ascii_lowercase r1)); eauto. }
  exists r2. unfold normalize_ip_literal. rewrite parse_ip_star.
  change (lit "%25") with (c_percent :: lit "25"). change (lit "%") with [c_percent].
  by rewrite !scoped_ip_star.
Qed.

Lemma trim_idemp s : trim (trim s) = trim s.
Proof.
  unfold trim at 1 3. unfold trim_start, trim_end. set (u := trim_end_matches is_whitespace s).
  assert (Ht : trim s = trim_start_matches is_whitespace u) by done. rewrite Ht.
  destruct (trim_start_matches_decomp is_whitespace u) as (w & Hw & _).
  destruct (last (trim_start_matches is_whitespace u)) as [c|] eqn:E.
  - assert (Hc : is_whitespace c = false).
    { apply (trim_end_matches_last _ s). fold u. rewrite Hw, last_app, E. done. }
    apply last_Some in E as [l E]. rewrite E, trim_end_matches_snoc by done.
    rewrite <-E. apply trim_start_matches_idemp.
  - apply last_None in E. by rewrite E.
Qed.

(** A pattern whose host is plain is the pattern of that host. *)
Lemma normalize_pattern_host e : plain (normalize_host e) = true → normalize_pattern e = normalize_host e.
Proof.
  intros Hp. unfold normalize_pattern.
  assert (Hs : ∀ r, trim e ≠ c_star :: r).
  { intros r E. apply normalize_host_star in E as [r' E]. by rewrite E in Hp. }
  destruct (decide (trim e = lit "*")) as [E|_]; [by destruct (Hs [])|].
  destruct (strip_prefix (lit "**.") (trim e)) eqn:E1;
    [apply strip_prefix_Some in E1; by destruct (Hs (lit "*." ++ l))|].
  destruct (strip_prefix (lit "*.") (trim e)) eqn:E2;
    [apply strip_prefix_Some in E2; by destruct (Hs (lit "." ++ l))|].
  cbv iota beta. rewrite decide_True by done. unfold normalize_host. by rewrite trim_idemp.
Qed.

(** A plain text without outer spaces stands for itself. *)
Lemma plain_expands host : plain host = true → trim host = host → expand_domain_pattern host = [host].
Proof.
  intros Hp Ht. unfold expand_domain_pattern, pattern_parse. rewrite Ht.
  destruct (decide (host = [])) as [->|]; [done|].
  destruct (strip_prefix (lit "**.") host) eqn:E1; [apply strip_prefix_Some in E1 as ->; done|].
  destruct (strip_prefix (lit "*.") host) eqn:E2; [apply strip_prefix_Some in E2 as ->; done|done].
Qed.
