(* ===== verification/NetworkProxy.v ===== *)
(** * The state of the network proxy: [network-proxy/src/runtime.rs]

    The decision on a host, the record of blocked requests, and the operations
    that read and change the policy while the proxy runs.  Operations run
    concurrently: each has a program counter with one step per critical
    section of the lock on the state, and any operation may move at any time.
    What the reloader, the resolver and the clock answer is an input of a
    step.  Logging is not modelled. *)
From stdpp Require Import gmap.
From S2P Require Import Prelude RustStr AbsolutePath Ordering MachineInt NetworkPolicy NetworkConfig.
Local Open Scope N_scope.

Definition REASON_DENIED : str := lit "denied".
Definition REASON_METHOD_NOT_ALLOWED : str := lit "method_not_allowed".
Definition REASON_MITM_REQUIRED : str := lit "mitm_required".
Definition REASON_NOT_ALLOWED : str := lit "not_allowed".
Definition REASON_NOT_ALLOWED_LOCAL : str := lit "not_allowed_local".
Definition REASON_PROXY_DISABLED : str := lit "proxy_disabled".

Inductive HostBlockReason := Denied | NotAllowed | NotAllowedLocal.
Inductive HostBlockDecision := HostAllowed | Blocked (reason : HostBlockReason).
#[global] Instance HostBlockReason_eq_dec : EqDecision HostBlockReason. Proof. solve_decision. Defined.
#[global] Instance HostBlockDecision_eq_dec : EqDecision HostBlockDecision. Proof. solve_decision. Defined.

Definition reason_str (r : HostBlockReason) : str :=
  match r with
  | Denied => REASON_DENIED
  | NotAllowed => REASON_NOT_ALLOWED
  | NotAllowedLocal => REASON_NOT_ALLOWED_LOCAL
  end.

Definition MAX_BLOCKED_EVENTS : nat := 200.

Inductive DomainListKind := ListAllow | ListDeny.
#[global] Instance DomainListKind_eq_dec : EqDecision DomainListKind. Proof. solve_decision. Defined.
Definition list_name (k : DomainListKind) : str :=
  match k with ListAllow => lit "allowlist" | ListDeny => lit "denylist" end.
Definition constraint_field (k : DomainListKind) : str :=
  match k with ListAllow => lit "network.allowed_domains" | ListDeny => lit "network.denied_domains" end.
Definition kind_permission (k : DomainListKind) : NetworkDomainPermission :=
  match k with ListAllow => PermAllow | ListDeny => PermDeny end.
Definition kind_entries (k : DomainListKind) (network : NetworkProxySettings) : list str :=
  match k with
  | ListAllow => default [] (allowed_domains network)
  | ListDeny => default [] (denied_domains network)
  end.
Definition opposite_entries (k : DomainListKind) (network : NetworkProxySettings) : list str :=
  match k with
  | ListAllow => default [] (denied_domains network)
  | ListDeny => default [] (allowed_domains network)
  end.

(** ** The decision on a host *)

(** What the resolver answers: no addresses for an error or a timeout. *)
Definition Lookup : Type := str → N → option (list IpAddr).

Definition host_resolves_to_non_public_ip (lookup : Lookup) (host : str) (port : N) : bool :=
  match parse_ip host with
  | Some ip => is_non_public_ip ip
  | None =>
      match lookup host port with
      | Some addrs => existsb is_non_public_ip addrs
      | None => true
      end
  end.

Definition is_explicit_local_allowlisted (allowed_domains : list str) (host : str) : bool :=
  let unscoped_host := unscoped_ip_literal host in
  existsb (λ pattern,
    let pattern := trim pattern in
    if bool_decide (pattern = lit "*") || starts_with (lit "*.") pattern || starts_with (lit "**.") pattern
    then false
    else if contains_char c_star pattern || contains_char 63 pattern then false
    else
      let normalized_pattern := normalize_host pattern in
      bool_decide (normalized_pattern = host) || bool_decide (Some normalized_pattern = unscoped_host))
    allowed_domains.

Definition local_literal (host : str) : bool :=
  let host_no_scope := default host (unscoped_ip_literal host) in
  if is_loopback_host host then true
  else match parse_ip host_no_scope with Some ip => is_non_public_ip ip | None => false end.

Section proxy.
Context `{GlobCompiler} {MitmState : Type}.
Context (mitm_new : bool → bool → option MitmState) (home_dir : option str).
Context (url_host_parse : str → option str).
(** [cfg!(target_os = "macos")], and [std::fs::canonicalize]. *)
Context (macos : bool) (canonicalize : str → option str).

Abbreviation ConfigState := (NetworkConfig.ConfigState MitmState) (only parsing).

(** [host_blocked] after the reload, on the state it reads. *)
Definition host_decision (s : ConfigState) (lookup : Lookup) (input : str) (port : N)
    : HostBlockDecision :=
  match host_parse input with
  | None => Blocked NotAllowed
  | Some host =>
      let configured := allowed_domains (config s) in
      let allowed := default [] configured in
      if globset_matches_host_or_unscoped (deny_set s) host then Blocked Denied
      else
        let is_allowlisted := globset_matches_host_or_unscoped (allow_set s) host in
        let local :=
          if allow_local_binding (config s) then false
          else if local_literal host then negb (is_explicit_local_allowlisted allowed host)
          else host_resolves_to_non_public_ip lookup host port in
        if local then Blocked NotAllowedLocal
        else if bool_decide (configured = None) || negb is_allowlisted then Blocked NotAllowed
        else HostAllowed
  end.

Definition unix_socket_permissions_supported : bool := macos.

Fixpoint socket_listed (requested_abs : str) (requested_canonical : option str) (allowed : list str) : bool :=
  match allowed with
  | [] => false
  | a :: rest =>
      match validated_socket_parse home_dir a with
      | Ok (Native allowed_path) =>
          if decide (allowed_path = requested_abs) then true
          else
            match requested_canonical with
            | None => socket_listed requested_abs requested_canonical rest
            | Some canonical =>
                if decide (canonicalize allowed_path = Some canonical) then true
                else socket_listed requested_abs requested_canonical rest
            end
      | _ => socket_listed requested_abs requested_canonical rest
      end
  end.

Definition unix_socket_allowed (s : ConfigState) (path : str) : bool :=
  if negb unix_socket_permissions_supported then false
  else if negb (is_absolute path) then false
  else if dangerously_allow_all_unix_sockets (config s) then true
  else
    match from_absolute_path (E:=unit) home_dir (Err tt) path with
    | Ok requested_abs =>
        socket_listed requested_abs (canonicalize requested_abs) (allow_unix_sockets (config s))
    | _ => false
    end.

(** ** Operations *)

Inductive Getter :=
| CurrentCfg | CurrentPatterns | IsEnabled | BlockedSnapshot | IsUnixSocketAllowed (path : str)
| MethodAllowed (method : str) | AllowUpstreamProxy | AllowLocalBinding | GetNetworkMode | GetMitmState.

Inductive op :=
| OpGet (g : Getter)
| OpHostBlocked (host : str) (port : N)
| OpRecordBlocked (entry : BlockedRequest)
| OpDrainBlocked
| OpSetNetworkMode (m : NetworkMode)
| OpUpdateDomainList (normalized_host : str) (target : DomainListKind)
| OpReplaceConfigState (new_state : ConfigState).

Inductive answer :=
| AnsUnit
| AnsConfig (c : NetworkProxyConfig)
| AnsPatterns (allowed denied : list str)
| AnsBool (b : bool)
| AnsBlocked (l : list BlockedRequest)
| AnsMode (m : NetworkMode)
| AnsMitm (m : option MitmState)
| AnsDecision (d : HostBlockDecision).

Inductive ProxyError :=
| ReloadError (e : str)
| InvalidHost
| Constrained (field : str) (e : NetworkProxyConstraintError)
| CompileFailed (list : str) (e : BuildError).

Definition get (g : Getter) (s : ConfigState) : answer :=
  match g with
  | CurrentCfg => AnsConfig (config s)
  | CurrentPatterns =>
      AnsPatterns (default [] (allowed_domains (config s))) (default [] (denied_domains (config s)))
  | IsEnabled => AnsBool (enabled (config s))
  | BlockedSnapshot => AnsBlocked (blocked s)
  | IsUnixSocketAllowed path => AnsBool (unix_socket_allowed s path)
  | MethodAllowed method => AnsBool (allows_method (mode (config s)) method)
  | AllowUpstreamProxy => AnsBool (allow_upstream_proxy (config s))
  | AllowLocalBinding => AnsBool (allow_local_binding (config s))
  | GetNetworkMode => AnsMode (mode (config s))
  | GetMitmState => AnsMitm (mitm_state s)
  end.

(** [new_state] with the telemetry of another state. *)
Definition with_blocked (b : list BlockedRequest) (total : N) (s : ConfigState) : ConfigState :=
  mkConfigState (config s) (allow_set s) (deny_set s) (mitm_state s) (constraints s) b total.
Definition with_mode (m : NetworkMode) (s : ConfigState) : ConfigState :=
  mkConfigState (set_mode m (config s)) (allow_set s) (deny_set s) (mitm_state s) (constraints s)
    (blocked s) (blocked_total s).

(** The loop that drops the oldest entries. *)
Definition pop_to_limit (l : list BlockedRequest) : list BlockedRequest :=
  drop (length l - MAX_BLOCKED_EVENTS) l.
Definition push_blocked (entry : BlockedRequest) (s : ConfigState) : ConfigState :=
  with_blocked (pop_to_limit (blocked s ++ [entry])) (saturating_add (blocked_total s) 1) s.

Definition target_listed (normalized_host : str) (entries : list str) : bool :=
  existsb (λ entry, bool_decide (normalize_host entry = normalized_host)) entries.

(** The part of [update_domain_list] between reading and writing the state:
    nothing to do, or the new state. *)
Definition prepare_update (normalized_host : str) (target : DomainListKind) (s : ConfigState)
    : Res ProxyError (option ConfigState) :=
  let network := config s in
  if target_listed normalized_host (kind_entries target network) &&
     negb (target_listed normalized_host (opposite_entries target network))
  then Ok None
  else
    let candidate := upsert_domain_permission normalized_host (kind_permission target) normalize_host network in
    _ ← map_err (Constrained (constraint_field target))
          (validate_policy_against_constraints url_host_parse candidate (constraints s));
    new_state ← map_err (CompileFailed (list_name target))
                  (build_config_state mitm_new home_dir candidate (constraints s));
    Ok (Some (with_blocked (blocked s) (blocked_total s) new_state)).

(** ** Steps *)

(** The state behind the locks, and the requests that the observer was told of. *)
Record Shared := mkShared {
  state : ConfigState;
  observer : bool;
  observed : list BlockedRequest
}.
Definition set_state (s : ConfigState) (w : Shared) : Shared := mkShared s (observer w) (observed w).

Inductive pc :=
(** Before the reloader is asked; it gave a state; that state has the telemetry. *)
| Start (o : op)
| ReloadRead (o : op) (new_state : ConfigState)
| ReloadWrite (o : op) (new_state : ConfigState)
| Body (o : op)
| RecordWrite (entry : BlockedRequest) (observer : bool)
| RecordNotify (entry : BlockedRequest)
| ModeWrite (m : NetworkMode) (constraints : NetworkProxyConstraints)
| UpdateWrite (normalized_host : str) (target : DomainListKind) (previous_cfg : NetworkProxyConfig)
    (constraints : NetworkProxyConstraints) (new_state : ConfigState)
| ForceLoad
| ForceWrite (new_state : ConfigState)
| ObserverWrite (observer : bool)
| Done (r : Res ProxyError answer).

Inductive input :=
| Tick
| MaybeReload (r : Res str (option ConfigState))
| ReloadNow (r : Res str ConfigState)
| Resolve (lookup : Lookup).

(** Where the methods start. *)
Definition start_update (host : str) (target : DomainListKind) : pc :=
  match host_parse host with
  | Some normalized_host => Start (OpUpdateDomainList normalized_host target)
  | None => Done (Err InvalidHost)
  end.
Definition add_allowed_domain (host : str) : pc := start_update host ListAllow.
Definition add_denied_domain (host : str) : pc := start_update host ListDeny.
Definition force_reload : pc := ForceLoad.
Definition set_blocked_request_observer (o : bool) : pc := ObserverWrite o.

Definition run_body (o : op) (i : input) (w : Shared) : option (pc * Shared) :=
  let s := state w in
  match o, i with
  | OpGet g, Tick => Some (Done (Ok (get g s)), w)
  | OpHostBlocked host port, Resolve lookup =>
      Some (Done (Ok (AnsDecision (host_decision s lookup host port))), w)
  | OpRecordBlocked entry, Tick => Some (RecordWrite entry (observer w), w)
  | OpDrainBlocked, Tick =>
      Some (Done (Ok (AnsBlocked (blocked s))), set_state (with_blocked [] (blocked_total s) s) w)
  | OpSetNetworkMode m, Tick =>
      match validate_policy_against_constraints url_host_parse (set_mode m (config s)) (constraints s) with
      | Ok _ => Some (ModeWrite m (constraints s), w)
      | Err e => Some (Done (Err (Constrained (lit "network.mode") e)), w)
      | Panic p => Some (Done (Panic p), w)
      end
  | OpUpdateDomainList h target, Tick =>
      match prepare_update h target s with
      | Ok None => Some (Done (Ok AnsUnit), w)
      | Ok (Some new_state) => Some (UpdateWrite h target (config s) (constraints s) new_state, w)
      | Err e => Some (Done (Err e), w)
      | Panic p => Some (Done (Panic p), w)
      end
  | OpReplaceConfigState new_state, Tick =>
      Some (Done (Ok AnsUnit), set_state (with_blocked (blocked s) (blocked_total s) new_state) w)
  | _, _ => None
  end.

Definition run_step (p : pc) (i : input) (w : Shared) : option (pc * Shared) :=
  let s := state w in
  match p, i with
  | Start o, MaybeReload (Ok None) => Some (Body o, w)
  | Start o, MaybeReload (Ok (Some new_state)) => Some (ReloadRead o new_state, w)
  | Start o, MaybeReload (Err e) => Some (Done (Err (ReloadError e)), w)
  | ReloadRead o new_state, Tick =>
      Some (ReloadWrite o (with_blocked (blocked s) (blocked_total s) new_state), w)
  | ReloadWrite o new_state, Tick => Some (Body o, set_state new_state w)
  | Body o, _ => run_body o i w
  | RecordWrite entry o, Tick =>
      Some (if o then RecordNotify entry else Done (Ok AnsUnit), set_state (push_blocked entry s) w)
  | RecordNotify entry, Tick =>
      Some (Done (Ok AnsUnit), mkShared s (observer w) (observed w ++ [entry]))
  | ModeWrite m cs, Tick =>
      if decide (constraints s = cs) then Some (Done (Ok AnsUnit), set_state (with_mode m s) w)
      else Some (Start (OpSetNetworkMode m), w)
  | UpdateWrite h target previous_cfg cs new_state, Tick =>
      if decide (constraints s = cs ∧ config s = previous_cfg)
      then Some (Done (Ok AnsUnit), set_state new_state w)
      else Some (Start (OpUpdateDomainList h target), w)
  | ForceLoad, ReloadNow (Ok new_state) => Some (ForceWrite new_state, w)
  | ForceLoad, ReloadNow (Err e) => Some (Done (Err (ReloadError e)), w)
  | ForceWrite new_state, Tick =>
      Some (Done (Ok AnsUnit), set_state (with_blocked (blocked s) (blocked_total new_state) new_state) w)
  | ObserverWrite o, Tick => Some (Done (Ok AnsUnit), mkShared s o (observed w))
  | _, _ => None
  end.

(** ** Concurrent operations *)

Record Proxy := mkProxy { shared : Shared; tasks : gmap nat pc }.

Inductive action :=
| Spawn (p : pc)
| Run (i : input).

Definition initial_pc (p : pc) : bool :=
  match p with
  | Start _ | ForceLoad | ObserverWrite _ => true
  | Done (Err InvalidHost) => true
  | _ => false
  end.

Definition proxy_step (t : nat) (a : action) (w : Proxy) : option Proxy :=
  match a with
  | Spawn p =>
      match tasks w !! t with
      | None => if initial_pc p then Some (mkProxy (shared w) (<[t := p]> (tasks w))) else None
      | Some _ => None
      end
  | Run i =>
      p ← tasks w !! t;
      '(p', s') ← run_step p i (shared w);
      Some (mkProxy s' (<[t := p']> (tasks w)))
  end.

Fixpoint proxy_exec (sched : list (nat * action)) (w : Proxy) : option Proxy :=
  match sched with
  | [] => Some w
  | (t, a) :: rest => w' ← proxy_step t a w; proxy_exec rest w'
  end.

(** [with_reloader]: the proxy on a state, before any operation. *)
Definition with_reloader (s : ConfigState) (o : bool) : Proxy := mkProxy (mkShared s o []) ∅.

End proxy.
