(* ===== verification/NetworkProxyProofs.v ===== *)
(** * Properties of the network proxy's state

    In every state that concurrent operations reach, the configuration
    satisfies its constraints and the compiled lists are those of the
    configuration; so managed denials and a pinned allowlist hold for every
    decision.  Where the comparison with the managed allowlist and the record
    of blocked requests fall short is shown by examples. *)
From stdpp Require Import gmap.
From S2P Require Import Prelude RustStr AbsolutePath Ordering MachineInt NetworkPolicy NetworkConfig NetworkPolicyProofs NetworkProxy.
Local Open Scope N_scope.

#[local] Set Default Proof Using "Type*".

Lemma map_err_Ok {E E' A} (f : E → E') (r : Res E A) a : map_err f r = Ok a → r = Ok a.
Proof. destruct r; simpl; naive_solver. Qed.

Lemma exists_some_eq {A} (a : A) (P : A → Prop) : (∃ b, Some a = Some b ∧ P b) ↔ P a.
Proof. naive_solver. Qed.

(** ** Decisions *)

(** No address that the resolver gives is local, and it gives an answer. *)
Definition public_target (lookup : Lookup) (host : str) (port : N) : Prop :=
  match parse_ip host with
  | Some ip => is_non_public_ip ip = false
  | None => ∃ addrs, lookup host port = Some addrs ∧ Forall (λ ip, is_non_public_ip ip = false) addrs
  end.
Lemma public_target_spec lookup host port :
  host_resolves_to_non_public_ip lookup host port = false ↔ public_target lookup host port.
Proof.
  unfold host_resolves_to_non_public_ip, public_target. destruct (parse_ip host); [done|].
  destruct (lookup host port) as [addrs|]; [|naive_solver].
  rewrite exists_some_eq, <-not_true_iff_false, existsb_elem, Forall_forall. split.
  - intros Hn ip Hip. apply not_true_iff_false. eauto.
  - intros Hall (ip & Hip & E). by rewrite (Hall ip Hip) in E.
Qed.

Section decisions.
Context `{GlobLaws} {MitmState : Type}.

Definition matched_by (patterns : list str) (host : str) : Prop :=
  ∃ p, p ∈ patterns ∧ matches_host_or_unscoped p host = true.
Lemma compiled_set_spec patterns w set host :
  compile_globset_with_policy patterns w = Ok set →
  globset_matches_host_or_unscoped set host = true ↔ matched_by patterns host.
Proof. intros E. rewrite (compiled_matches_host _ _ _ _ E). apply existsb_elem. Qed.
Lemma compiled_set_false patterns w set host :
  compile_globset_with_policy patterns w = Ok set →
  globset_matches_host_or_unscoped set host = false ↔ ¬ matched_by patterns host.
Proof. intros E. rewrite <-(compiled_set_spec _ _ _ _ E). symmetry. apply not_true_iff_false. Qed.

(** The compiled lists are those of the configuration. *)
Definition compiled (s : ConfigState MitmState) : Prop :=
  compile_denylist_globset (default [] (denied_domains (config s))) = Ok (deny_set s) ∧
  compile_allowlist_globset (default [] (allowed_domains (config s))) = Ok (allow_set s).

(** What the decisions promise, from the lists of the configuration. *)
Definition allowed_spec (cfg : NetworkProxyConfig) (lookup : Lookup) (host : str) (port : N) : Prop :=
  ¬ matched_by (default [] (denied_domains cfg)) host ∧
  matched_by (default [] (allowed_domains cfg)) host ∧
  (allow_local_binding cfg = true ∨
   if local_literal host
   then is_explicit_local_allowlisted (default [] (allowed_domains cfg)) host = true
   else public_target lookup host port).

Lemma host_decision_allowed (s : ConfigState MitmState) lookup input port :
  compiled s →
  host_decision s lookup input port = HostAllowed ↔
    ∃ host, host_parse input = Some host ∧ allowed_spec (config s) lookup host port.
Proof.
  intros [Hd Ha]. unfold host_decision. destruct (host_parse input) as [host|]; [|naive_solver].
  rewrite exists_some_eq. unfold allowed_spec.
  destruct (globset_matches_host_or_unscoped (deny_set s) host) eqn:Ed.
  { apply (compiled_set_spec _ _ _ _ Hd) in Ed. naive_solver. }
  apply (compiled_set_false _ _ _ _ Hd) in Ed.
  rewrite <-(compiled_set_spec _ _ _ host Ha).
  assert (Hn : allowed_domains (config s) = None → ¬ matched_by (default [] (allowed_domains (config s))) host).
  { intros -> (p & Hp%elem_of_nil & _). done. }
  rewrite <-(compiled_set_spec _ _ _ host Ha) in Hn.
  destruct (globset_matches_host_or_unscoped (allow_set s) host) eqn:Em; [|rewrite orb_true_r; repeat case_match; naive_solver].
  rewrite bool_decide_eq_false_2 by naive_solver. simpl.
  destruct (allow_local_binding (config s)); [naive_solver|].
  destruct (local_literal host).
  - destruct (is_explicit_local_allowlisted _ _); naive_solver.
  - rewrite <-public_target_spec. destruct (host_resolves_to_non_public_ip _ _ _); naive_solver.
Qed.
End decisions.

Section proofs.
Context `{GlobLaws} {MitmState : Type}.
Context (mitm_new : bool → bool → option MitmState) (home_dir : option str).
Context (url_host_parse : str → option str).
Context (macos : bool) (canonicalize : str → option str).

Abbreviation State := (ConfigState MitmState) (only parsing).
Abbreviation step := (proxy_step mitm_new home_dir url_host_parse macos canonicalize) (only parsing).
Abbreviation exec := (proxy_exec mitm_new home_dir url_host_parse macos canonicalize) (only parsing).

(** ** The invariant *)

Definition valid_state (s : State) : Prop :=
  satisfies url_host_parse (config s) (constraints s) ∧ compiled s.
Definition within_limit (s : State) : Prop := (length (blocked s) ≤ MAX_BLOCKED_EVENTS)%nat.

Definition op_ok (o : op) : Prop :=
  match o with OpReplaceConfigState n => valid_state n | _ => True end.
Definition pc_ok (p : pc) : Prop :=
  match p with
  | Start o | Body o => op_ok o
  | ReloadRead o n => op_ok o ∧ valid_state n
  | ReloadWrite o n => op_ok o ∧ valid_state n ∧ within_limit n
  | ModeWrite m cs => validate_mode m (c_mode cs) = Ok tt
  | UpdateWrite h target _ _ n =>
      valid_state n ∧ within_limit n ∧ h ∈ kind_entries target (config n)
  | ForceWrite n => valid_state n
  | _ => True
  end.
(** The states that come from outside satisfy the constraints they carry. *)
Definition input_ok (i : input) : Prop :=
  match i with
  | MaybeReload (Ok (Some n)) => valid_state n
  | ReloadNow (Ok n) => valid_state n
  | _ => True
  end.
Definition action_ok (a : action) : Prop :=
  match a with
  | Spawn p => pc_ok p
  | Run i => input_ok i
  end.
Definition shared_ok (w : Shared) : Prop := valid_state (state w) ∧ within_limit (state w).
Definition proxy_ok (w : Proxy) : Prop :=
  shared_ok (shared w) ∧ map_Forall (λ _ p, pc_ok p) (tasks w).

Lemma build_inv cfg cs s :
  build_config_state mitm_new home_dir cfg cs = Ok s →
  config s = cfg ∧ constraints s = cs ∧ compiled s ∧ blocked s = [].
Proof.
  unfold build_config_state, compiled. rewrite !bind_unit_ok. intros (_ & _ & E). res_inv.
  repeat match goal with E : map_err _ _ = Ok _ |- _ => apply map_err_Ok in E end.
  done.
Qed.

Lemma prepare_update_inv h target s n :
  prepare_update mitm_new home_dir url_host_parse h target s = Ok (Some n) →
  valid_state n ∧ constraints n = constraints s ∧ blocked n = blocked s ∧
  config n = upsert_domain_permission h (kind_permission target) normalize_host (config s).
Proof.
  unfold prepare_update. destruct (_ && _); [done|].
  set (candidate := upsert_domain_permission _ _ _ _).
  destruct (validate_policy_against_constraints _ _ _) as [[]| |] eqn:Ev; simpl; [|done|done].
  destruct (build_config_state _ _ _ _) as [n'| |] eqn:Eb; simpl; [|done|done].
  intros [= <-]. destruct (build_inv _ _ _ Eb) as (Ec & Es & Hc & _).
  apply validate_ok in Ev. split; [split; [|done]|]; simpl; by rewrite ?Ec, ?Es.
Qed.

Lemma push_blocked_limit e s : within_limit (push_blocked e s).
Proof. unfold within_limit, push_blocked, pop_to_limit. simpl. rewrite length_drop. unfold MAX_BLOCKED_EVENTS. lia. Qed.

Lemma valid_with_mode m s :
  valid_state s → validate_mode m (c_mode (constraints s)) = Ok tt → valid_state (with_mode m s).
Proof. intros [Hs Hc] Hm. split; [by apply satisfies_set_mode|done]. Qed.

Lemma run_body_ok o i w p' w' :
  shared_ok w → op_ok o →
  run_body mitm_new home_dir url_host_parse macos canonicalize o i w = Some (p', w') →
  pc_ok p' ∧ shared_ok w'.
Proof.
  intros Hw Ho E. assert (Hl := proj2 Hw).
  destruct o as [g|h port|e| |m|h target|n], i; simpl in E; try done.
  - by simplify_eq.
  - by simplify_eq.
  - by simplify_eq.
  - simplify_eq. split; [done|]. split; [exact (proj1 Hw)|unfold within_limit; simpl; lia].
  - destruct (validate_policy_against_constraints _ _ _) as [[]| |] eqn:Ev; simplify_eq; [|by split..].
    apply validate_ok in Ev. split; [|done]. exact (sat_mode _ _ _ Ev).
  - destruct (prepare_update _ _ _ _ _ _) as [[n|]| |] eqn:Ep; simplify_eq; [|by split..].
    destruct (prepare_update_inv _ _ _ _ Ep) as (? & _ & Hb & Hc). split; [|done].
    split; [done|]. unfold within_limit. rewrite Hb. split; [done|]. rewrite Hc.
    destruct target; apply upsert_listed.
  - simplify_eq. split; [done|]. by split.
Qed.

Lemma run_step_ok p i w p' w' :
  shared_ok w → pc_ok p → input_ok i →
  run_step mitm_new home_dir url_host_parse macos canonicalize p i w = Some (p', w') →
  pc_ok p' ∧ shared_ok w'.
Proof.
  intros Hw Hp Hi E. assert (Hl := proj2 Hw). assert (Hv := proj1 Hw).
  destruct p as [o|o n|o n|o|e o|e|m cs|h t c cs n| |n|o|r]; simpl in E, Hp.
  - destruct i as [|[[n|]| |]| |]; simplify_eq; by split.
  - destruct i; simplify_eq. destruct Hp. by split.
  - destruct i; simplify_eq. destruct Hp as (? & ? & ?). by split.
  - by eapply run_body_ok.
  - destruct i; simplify_eq. split; [by destruct o|]. split; [done|apply push_blocked_limit].
  - destruct i; simplify_eq. by split.
  - destruct i; simplify_eq. destruct (decide _) as [Ec|]; simplify_eq; [|by split].
    split; [done|]. split; [|done]. by apply valid_with_mode.
  - destruct i; simplify_eq. destruct (decide _); simplify_eq; [|by split].
    split; [done|]. destruct Hp as (? & ? & _). by split.
  - destruct i as [| |[n| |]|]; simplify_eq; by split.
  - destruct i; simplify_eq. by split.
  - destruct i; simplify_eq. by split.
  - destruct i; by simplify_eq.
Qed.

Lemma proxy_step_ok t a w w' : proxy_ok w → action_ok a → step t a w = Some w' → proxy_ok w'.
Proof.
  intros [Hs Ht] Ha E. destruct a as [p|i]; simpl in E.
  - destruct (tasks w !! t) eqn:Et; [done|]. destruct (initial_pc p); [|done]. simplify_eq.
    split; [done|]. by apply map_Forall_insert_2.
  - destruct (tasks w !! t) as [p|] eqn:Et; [|done]. simpl in E.
    destruct (run_step _ _ _ _ _ p i (shared w)) as [[p' s']|] eqn:Er; [|done]. simplify_eq/=.
    destruct (run_step_ok _ _ _ _ _ Hs (Ht _ _ Et) Ha Er). split; [done|]. by apply map_Forall_insert_2.
Qed.

Lemma proxy_exec_ok sched w w' :
  Forall (λ a, action_ok a.2) sched → proxy_ok w → exec sched w = Some w' → proxy_ok w'.
Proof.
  intros Hs. revert w. induction Hs as [|[t a] sched Ha Hs IH]; intros w Hw E; simpl in E; [by simplify_eq|].
  destruct (step t a w) as [w1|] eqn:Es; [|done]. simpl in E. eauto using proxy_step_ok.
Qed.

(** The proxy started on a valid state. *)
Definition started (s : State) (o : bool) (sched : list (nat * action)) (w : Proxy) : Prop :=
  valid_state s ∧ within_limit s ∧ Forall (λ a, action_ok a.2) sched ∧
  exec sched (with_reloader s o) = Some w.
Lemma started_ok s o sched w : started s o sched w → proxy_ok w.
Proof.
  intros (Hv & Hl & Hs & E). eapply proxy_exec_ok; [done| |done].
  split; [by split|apply map_Forall_empty].
Qed.

(** C30. Whatever operations run, and in whatever order, a host is allowed
    exactly when no denied pattern of the current configuration matches it, an
    allowed one does, and it is not local: unless local binding is on, a
    literal local name must be listed itself and every address that the
    resolver gives for another name must be public. *)
Theorem allowed_hosts_are_listed s o sched w lookup input port :
  started s o sched w →
  host_decision (state (shared w)) lookup input port = HostAllowed ↔
    ∃ host, host_parse input = Some host ∧ allowed_spec (config (state (shared w))) lookup host port.
Proof. intros Hs. apply host_decision_allowed, (started_ok _ _ _ _ Hs). Qed.

Lemma managed_denied s o sched w ds p lookup input host port :
  started s o sched w →
  c_denied_domains (constraints (state (shared w))) = Some ds → p ∈ ds →
  host_parse input = Some host → matches_host_or_unscoped p host = true →
  host_decision (state (shared w)) lookup input port = Blocked Denied.
Proof.
  intros Hs Hd Hp Hh Hm. destruct (started_ok _ _ _ _ Hs) as [[[Hsat [Hc _]] _] _].
  destruct (managed_denied_listed _ _ _ _ _ Hsat Hd Hp) as (q & Hq & Hl).
  unfold host_decision. rewrite Hh.
  rewrite (proj2 (compiled_set_spec _ _ _ host Hc)); [done|].
  exists q. split; [done|]. by rewrite (matches_lower q p).
Qed.

(** With a managed allowlist that may not be extended, a host is allowed only
    where one of its patterns matches, in every state of the proxy. *)
Lemma pinned_matches s o sched w ms lookup input port :
  started s o sched w →
  c_allowed_domains (constraints (state (shared w))) = Some ms →
  c_allowlist_expansion_enabled (constraints (state (shared w))) = Some false →
  host_decision (state (shared w)) lookup input port = HostAllowed →
  ∃ host p, host_parse input = Some host ∧ p ∈ ms ∧ matches_host_or_unscoped p host = true.
Proof.
  intros Hs Hm Hx Ha. destruct (started_ok _ _ _ _ Hs) as [[[Hsat Hc] _] _].
  apply (host_decision_allowed _ _ _ _ Hc) in Ha as (host & Hh & _ & (q & Hq & Hmatch) & _).
  destruct (managed_allowed_pinned _ _ _ _ _ Hsat Hm Hx Hq) as (p & Hp & Hl).
  exists host, p. split_and!; [done..|]. by rewrite (matches_lower q p) in Hmatch.
Qed.

(** C31. The buffer of blocked requests never holds more than its limit, and
    every reachable configuration satisfies its constraints. *)
Theorem proxy_state_valid s o sched w :
  started s o sched w →
  validate_policy_against_constraints url_host_parse (config (state (shared w)))
    (constraints (state (shared w))) = Ok tt ∧
  (length (blocked (state (shared w))) ≤ MAX_BLOCKED_EVENTS)%nat.
Proof. intros Hs. destruct (started_ok _ _ _ _ Hs) as [[[? _] ?] _]. by rewrite validate_ok. Qed.

(** ** Adding a domain *)

(** A host that is its own normal form, without special characters. *)
Definition canonical_host (host : str) : Prop :=
  host ≠ [] ∧ plain host = true ∧ trim host = host ∧ normalize_host host = host.

(** A pattern that is normalised to a plain host matches it. *)
Lemma normalized_matches e host :
  canonical_host host → normalize_host e = host → matches_host_or_unscoped e host = true.
Proof.
  intros (Hne & Hp & Ht & Hn) He. unfold matches_host_or_unscoped, pattern_matches.
  assert (Hnp : normalize_pattern e = host) by (rewrite normalize_pattern_host; by rewrite He).
  assert (Hx : expand_domain_pattern host = [host]) by by apply plain_expands.
  rewrite Hnp, Hx. simpl. unfold candidate_matches at 1.
  destruct (plain_glob_builds _ Hp) as [g Hg]. rewrite Hg, (plain_glob _ _ _ Hp Hg).
  unfold eq_ignore_ascii_case. by rewrite bool_decide_eq_true_2.
Qed.

Lemma listed_denies (s : State) host lookup port :
  compiled s → canonical_host host → target_listed host (kind_entries ListDeny (config s)) = true →
  host_decision s lookup host port = Blocked Denied.
Proof.
  intros [Hd _] Hc (e & He & Ee%bool_decide_eq_true)%existsb_elem.
  unfold host_decision, host_parse. destruct (Hc) as (Hne & _ & _ & Hn).
  rewrite Hn, decide_False by done. rewrite (proj2 (compiled_set_spec _ _ _ host Hd)); [done|].
  exists e. split; [done|]. by apply normalized_matches.
Qed.

(** An operation that is about to add a host to the deny list. *)
Definition denying (host : str) (p : pc (MitmState:=MitmState)) : Prop :=
  p = Body (OpUpdateDomainList host ListDeny) ∨ ∃ c cs n, p = UpdateWrite host ListDeny c cs n.

(** When the addition of a host to the deny list has succeeded, the host
    is denied, also where it was listed before and nothing was written. *)
Theorem denied_domain_is_blocked s o sched w t p w' host lookup port :
  started s o sched w → tasks w !! t = Some p → denying host p → canonical_host host →
  step t (Run Tick) w = Some w' → tasks w' !! t = Some (Done (Ok AnsUnit)) →
  host_decision (state (shared w')) lookup host port = Blocked Denied.
Proof.
  intros Hs Ht Hp Hc E Hdone. destruct (started_ok _ _ _ _ Hs) as [[[_ Hcomp] Hl] Hpc].
  assert (Hok := Hpc _ _ Ht). cbn in E. rewrite Ht in E. cbn [mbind option_bind] in E.
  destruct Hp as [->|(c & cs & n & ->)]; cbn in E, Hok.
  - destruct (prepare_update _ _ _ _ _ _) as [[n|]| |] eqn:Ep; cbn in E; simplify_eq/=;
      rewrite lookup_insert_eq in Hdone; try done.
    unfold prepare_update in Ep. destruct (target_listed host (kind_entries ListDeny _)) eqn:El;
      [by apply listed_denies|]. cbn in Ep. res_inv.
  - destruct (decide _); cbn in E; simplify_eq/=; rewrite lookup_insert_eq in Hdone; try done.
    destruct Hok as ([_ Hn] & _ & Hin). apply listed_denies; [done..|].
    apply existsb_elem. exists host. split; [done|]. apply bool_decide_eq_true, Hc.
Qed.
End proofs.

(** ** A concrete glob compiler *)

Definition demo_matches (g host : str) : bool :=
  if decide (g = lit "*") then true
  else match strip_prefix (lit "?*.") g with
       | Some d => ends_with (c_dot :: to_ascii_lowercase d) (to_ascii_lowercase host) &&
                   (1 + length d <? length host)%nat
       | None => eq_ignore_ascii_case g host
       end.
#[export] Instance demo_globs : GlobCompiler := {
  Glob := str; GlobSet := list str; glob_build := Some; globset_build := Some;
  is_match set host := existsb (λ g, demo_matches g host) set
}.
#[export] Program Instance demo_laws : GlobLaws := { glob_matches := demo_matches }.
Next Obligation. cbn. intros globs set host [= ->]. done. Qed.
Next Obligation.
  cbn. intros d g host Hp [= <-]. unfold demo_matches. destruct (decide _) as [->|_]; [done|].
  destruct (strip_prefix (lit "?*.") d) eqn:E; [|done]. by apply strip_prefix_Some in E as ->.
Qed.
Next Obligation.
  intros d g host Hp E. assert (g = lit "?*." ++ d) as -> by (by injection E). cbn [glob_build].
  unfold demo_matches. rewrite decide_False by done. by rewrite strip_prefix_app.
Qed.
Next Obligation. cbn. by intros g host [= <-]. Qed.
Next Obligation. cbn. by eexists. Qed.
Next Obligation. cbn. by eexists. Qed.

Definition demo_mitm (_ _ : bool) : option unit := None.
(** A host parser that knows plain names. *)
Definition demo_url_host (s : str) : option str :=
  if plain s && negb (contains_char c_colon s) then Some (to_ascii_lowercase s) else None.
Definition demo_config (allow deny : list string) : NetworkProxyConfig :=
  set_denied_domains (map lit deny) (set_allowed_domains (map lit allow) default_settings).
Definition demo_constraints (allow : option (list string)) (expand : option bool) (deny : option (list string))
    : NetworkProxyConstraints :=
  mkConstraints None None None None None (map lit <$> allow) expand (map lit <$> deny) None None None.
Definition demo_build (cfg : NetworkProxyConfig) (cs : NetworkProxyConstraints) : ConfigState unit :=
  match build_config_state demo_mitm None cfg cs with
  | Ok s => s
  | _ => mkConfigState default_settings [] [] None default_constraints [] 0
  end.
Definition demo_public : Lookup := λ _ _, Some [V4 (mkIpv4 93 184 216 34)].

Lemma demo_valid cfg cs :
  is_ok (validate_policy_against_constraints demo_url_host cfg cs) = true →
  is_ok (build_config_state demo_mitm None cfg cs) = true →
  valid_state demo_url_host (demo_build cfg cs) ∧ within_limit (demo_build cfg cs).
Proof.
  intros Hv. assert (validate_policy_against_constraints demo_url_host cfg cs = Ok tt) as Hok
    by (by destruct (validate_policy_against_constraints _ _ _) as [[]| |]).
  unfold demo_build.
  destruct (build_config_state demo_mitm None cfg cs) as [s| |] eqn:E; [intros _|done|done].
  destruct (build_inv _ _ _ _ _ E) as (Ec & Es & Hc & Hb).
  split; [split; [|done]|]; rewrite ?Ec, ?Es; [by apply validate_ok|].
  unfold within_limit. rewrite Hb. simpl. lia.
Qed.

(** A proxy with a pinned allowlist and a managed denial, on which one task
    denies [b.com] while another asks for it. *)
Definition demo_cfg : NetworkProxyConfig := demo_config ["*.example.com"; "b.com"] ["evil.com"].
Definition demo_cs : NetworkProxyConstraints :=
  demo_constraints (Some ["*.example.com"; "B.com"]) (Some false) (Some ["EVIL.com"]).
Definition demo_state : ConfigState unit := demo_build demo_cfg demo_cs.
Definition demo_sched : list (nat * action (MitmState:=unit)) :=
  [(1%nat, Spawn (add_denied_domain (lit "B.com."))); (2%nat, Spawn (Start (OpHostBlocked (lit "b.com") 443)));
   (1%nat, Run (MaybeReload (Ok None))); (1%nat, Run Tick)].
Abbreviation demo_exec := (proxy_exec demo_mitm None demo_url_host false (λ _, None)) (only parsing).
Definition demo_proxy (sched : list (nat * action (MitmState:=unit))) : Proxy :=
  default (with_reloader demo_state false) (demo_exec sched (with_reloader demo_state false)).

Lemma demo_started sched :
  Forall (λ a, action_ok demo_url_host a.2) sched →
  is_Some (demo_exec sched (with_reloader demo_state false)) →
  started demo_mitm None demo_url_host false (λ _, None) demo_state false sched (demo_proxy sched).
Proof.
  intros Ha [w Hw]. destruct (demo_valid demo_cfg demo_cs) as [Hv Hl]; [by vm_compute..|].
  split_and!; [done..|]. unfold demo_proxy. by rewrite Hw.
Qed.
Lemma demo_sched_started :
  started demo_mitm None demo_url_host false (λ _, None) demo_state false demo_sched (demo_proxy demo_sched).
Proof.
  apply demo_started; [|vm_compute; by eexists]. unfold demo_sched. rewrite !Forall_cons, Forall_nil.
  vm_compute; by repeat split.
Qed.

Lemma allowed_hosts_are_listed_witness :
  host_decision (state (shared (demo_proxy demo_sched))) demo_public (lit "API.example.com:443") 443 = HostAllowed.
Proof.
  apply (allowed_hosts_are_listed _ _ _ _ _ _ _ _ _ _ _ _ demo_sched_started).
  exists (lit "api.example.com"). split; [by vm_compute|]. split_and!.
  - intros (p & Hp & E).
    assert (p = lit "evil.com") as -> by (vm_compute in Hp; by apply list_elem_of_singleton in Hp).
    by vm_compute in E.
  - exists (lit "*.example.com"). split; [vm_compute; by left|by vm_compute].
  - right. vm_compute. eexists. split; [done|by repeat constructor].
Defined.
Lemma proxy_state_valid_witness :
  validate_policy_against_constraints demo_url_host (config (state (shared (demo_proxy demo_sched))))
    (constraints (state (shared (demo_proxy demo_sched)))) = Ok tt ∧
  (length (blocked (state (shared (demo_proxy demo_sched)))) ≤ MAX_BLOCKED_EVENTS)%nat.
Proof. apply (proxy_state_valid _ _ _ _ _ _ _ _ _ demo_sched_started). Defined.
Definition demo_after : Proxy := demo_proxy (demo_sched ++ [(1%nat, Run Tick)]).
Definition demo_task : pc (MitmState:=unit) :=
  default ForceLoad (tasks (demo_proxy demo_sched) !! 1%nat).
Lemma denied_domain_is_blocked_witness :
  host_decision (state (shared demo_after)) demo_public (lit "b.com") 443 = Blocked Denied.
Proof.
  apply (denied_domain_is_blocked _ _ _ _ _ _ _ _ _ 1 demo_task demo_after (lit "b.com") _ _ demo_sched_started).
  - by vm_compute.
  - right. vm_compute. by repeat eexists.
  - by vm_compute.
  - by vm_compute.
  - by vm_compute.
Defined.

(** ** Where the code falls short *)

(** A user's entry under the managed pattern [*.example.com]. *)
Definition bypass_config : NetworkProxyConfig := demo_config ["evil.com:*.example.com"] [].
Definition bypass_constraints : NetworkProxyConstraints :=
  demo_constraints (Some ["*.example.com"]) None None.

Lemma evil_canonical : canonical_host (lit "evil.com").
Proof. split_and!; by vm_compute. Qed.

Lemma evil_not_managed `{GlobLaws} : matches_host_or_unscoped (lit "*.example.com") (lit "evil.com") = false.
Proof.
  unfold matches_host_or_unscoped, pattern_matches.
  assert (expand_domain_pattern (normalize_pattern (lit "*.example.com")) = [lit "?*." ++ lit "example.com"]) as ->
    by by vm_compute.
  assert (unscoped_ip_literal (lit "evil.com") = None) as -> by by vm_compute.
  cbn [existsb]. unfold candidate_matches. destruct (glob_build _) as [g|] eqn:E; [|done].
  rewrite (subdomain_glob (lit "example.com") g) by done. by vm_compute.
Qed.

(** C33. The managed allowlist can be left.  An entry [evil.com:*.example.com]
    ends in [.example.com] and has a star, so that its text is compared with
    the managed pattern [*.example.com], which allows it; but it is compiled
    as a host with a port, that is, as [evil.com], a host which no managed
    pattern matches and which is then allowed. *)
Theorem managed_allowlist_bypassed `{GlobLaws} {MitmState : Type}
    (mitm_new : bool → bool → option MitmState) home_dir url_host_parse lookup s :
  url_host_parse (lit "example.com") = Some (lit "example.com") →
  lookup (lit "evil.com") 443 = Some [V4 (mkIpv4 93 184 216 34)] →
  build_config_state mitm_new home_dir bypass_config bypass_constraints = Ok s →
  validate_policy_against_constraints url_host_parse bypass_config bypass_constraints = Ok tt ∧
  host_decision s lookup (lit "evil.com") 443 = HostAllowed ∧
  ¬ matched_by (default [] (c_allowed_domains bypass_constraints)) (lit "evil.com").
Proof.
  intros Hu Hl Hb. split_and!.
  - vm_compute in Hu. vm_compute. rewrite Hu. by vm_compute.
  - destruct (build_inv _ _ _ _ _ Hb) as (Ec & _ & Hc & _).
    apply (host_decision_allowed _ _ _ _ Hc). exists (lit "evil.com"). split; [by vm_compute|].
    rewrite Ec. split_and!.
    + intros (p & Hp & _). vm_compute in Hp. by apply elem_of_nil in Hp.
    + exists (lit "evil.com:*.example.com"). split; [vm_compute; by left|].
      apply normalized_matches; [apply evil_canonical|by vm_compute].
    + right. change (local_literal (lit "evil.com")) with false. unfold public_target.
      change (parse_ip (lit "evil.com")) with (@None IpAddr). rewrite Hl. eexists. split; [done|].
      by repeat constructor.
  - intros (p & Hp & Hm). assert (p = lit "*.example.com") as ->
      by (vm_compute in Hp; by apply list_elem_of_singleton in Hp).
    by rewrite evil_not_managed in Hm.
Qed.
Lemma managed_allowlist_bypassed_witness :
  host_decision (demo_build bypass_config bypass_constraints) demo_public (lit "evil.com") 443 = HostAllowed.
Proof.
  apply (managed_allowlist_bypassed demo_mitm None demo_url_host demo_public
    (demo_build bypass_config bypass_constraints)); by vm_compute.
Defined.

(** The same by a managed entry with a port, which the comparison does not
    read: every entry that it does not read either is allowed. *)
Lemma unread_entries_are_equal url_host_parse :
  url_host_parse (lit "example.com:443") = None → url_host_parse (lit "evil.com:443") = None →
  validate_policy_against_constraints url_host_parse (demo_config ["evil.com:443"] [])
    (demo_constraints (Some ["example.com:443"]) None None) = Ok tt ∧
  normalize_pattern (lit "evil.com:443") = lit "evil.com" ∧
  normalize_pattern (lit "example.com:443") = lit "example.com".
Proof.
  intros H1 H2. split; [|by vm_compute]. vm_compute in H1, H2. vm_compute. rewrite H1, H2. by vm_compute.
Qed.

(** A request is recorded while a domain is added. *)
Definition lost_before (entry : BlockedRequest) : list (nat * action (MitmState:=unit)) :=
  demo_sched ++
  [(3%nat, Spawn (Start (OpRecordBlocked entry))); (3%nat, Run (MaybeReload (Ok None)));
   (3%nat, Run Tick); (3%nat, Run Tick)].
Definition lost_after (entry : BlockedRequest) : list (nat * action (MitmState:=unit)) :=
  lost_before entry ++ [(1%nat, Run Tick)].

(** A recorded request can be lost.  The record has returned and the
    request is in the buffer; then the addition of a domain, which read the
    state before, writes back the buffer and the count that it had read, and
    the request is neither in the buffer nor counted, though nobody took it. *)
Theorem recorded_request_is_lost entry :
  let before := demo_proxy (lost_before entry) in
  let after := demo_proxy (lost_after entry) in
  tasks before !! 3%nat = Some (Done (Ok AnsUnit)) ∧
  blocked (state (shared before)) = [entry] ∧ blocked_total (state (shared before)) = 1 ∧
  tasks after !! 1%nat = Some (Done (Ok AnsUnit)) ∧
  blocked (state (shared after)) = [] ∧ blocked_total (state (shared after)) = 0.
Proof. by vm_compute. Qed.
