(* ===== verification/NetworkApproval.v ===== *)
(** * Approval of network access: [core/src/tools/network_approval.rs], [core/src/network_policy_decision.rs]

    A request of a sandboxed command that the network proxy does not let
    through is put to the hooks, the automatic reviewer or the user.  Requests
    come in concurrently: the first one for a host asks, the others wait for
    its answer.  Hosts can be approved or denied for the session, and a denial
    is recorded for the tool call that caused it, which is then cancelled.

    Each task that handles a request has a program counter, with one step per
    critical section of a mutex, and any task may move at any time.  Of
    [tokio::sync::Notify] the model has what its documentation states: a
    future made by [notified] completes when [notify_waiters] is called after
    it was made, whether or not it was polled before.  Tasks are not dropped
    half way.  The trigger of a call, which is only passed to the reviewer, and
    the writing of amendments to the rules, whose failure is only reported,
    are not modelled. *)
From S2P Require Import Prelude RustStr AbsolutePath FileSystem Ordering NetworkPolicy NetworkConfig Paths Permissions PermissionProfile ExecApproval GrantedPermissions.
From stdpp Require Import gmap.

(** ** Data *)

Inductive NetworkProtocol := Http | HttpsConnect | Socks5Tcp | Socks5Udp.
Inductive NetworkApprovalProtocol := ApprovalHttp | ApprovalHttps | ApprovalSocks5Tcp | ApprovalSocks5Udp.
Record NetworkPolicyRequest := mkNetworkRequest {
  req_protocol : NetworkProtocol;
  req_host : str;
  req_port : N;
  req_client_addr : option str;
  req_method : option str;
  policy_req_command : option str;
  req_exec_policy_hint : option str
}.

Inductive NetworkDecisionSource := BaselinePolicy | ModeGuard | ProxyState | Decider.
Inductive NetworkPolicyDecision := PolicyDeny | PolicyAsk.
Inductive NetworkDecision :=
| NetworkAllow
| NetworkDeny (reason : str) (source : NetworkDecisionSource) (decision : NetworkPolicyDecision).

Definition REASON_POLICY_DENIED : str := lit "policy_denied".
Definition REASON_NOT_ALLOWED : str := lit "not_allowed".
Definition deny_with_source (reason : str) (source : NetworkDecisionSource) : NetworkDecision :=
  NetworkDeny (if decide (reason = []) then REASON_POLICY_DENIED else reason) source PolicyDeny.
Definition ask_with_source (reason : str) (source : NetworkDecisionSource) : NetworkDecision :=
  NetworkDeny (if decide (reason = []) then REASON_POLICY_DENIED else reason) source PolicyAsk.
Definition network_deny (reason : str) : NetworkDecision := deny_with_source reason Decider.
Definition network_ask (reason : str) : NetworkDecision := ask_with_source reason Decider.

Record HostApprovalKey := mkKey { key_host : str; key_protocol : str; key_port : N }.
#[global] Instance HostApprovalKey_eq_dec : EqDecision HostApprovalKey.
Proof. solve_decision. Defined.
#[global] Instance HostApprovalKey_countable : Countable HostApprovalKey :=
  inj_countable' (λ k, (key_host k, key_protocol k, key_port k)) (λ '(h, p, n), mkKey h p n)
    ltac:(by intros []).

Definition approval_protocol (p : NetworkProtocol) : NetworkApprovalProtocol :=
  match p with
  | Http => ApprovalHttp
  | HttpsConnect => ApprovalHttps
  | Socks5Tcp => ApprovalSocks5Tcp
  | Socks5Udp => ApprovalSocks5Udp
  end.
Definition protocol_key_label (p : NetworkApprovalProtocol) : str :=
  match p with
  | ApprovalHttp => lit "http"
  | ApprovalHttps => lit "https"
  | ApprovalSocks5Tcp => lit "socks5-tcp"
  | ApprovalSocks5Udp => lit "socks5-udp"
  end.
Definition key_from_request (request : NetworkPolicyRequest) (protocol : NetworkApprovalProtocol)
    : HostApprovalKey :=
  mkKey (to_ascii_lowercase (req_host request)) (protocol_key_label protocol) (req_port request).
Definition key_of (request : NetworkPolicyRequest) : HostApprovalKey :=
  key_from_request request (approval_protocol (req_protocol request)).

Inductive PendingApprovalDecision := AllowOnce | AllowForSession | PendingDeny.
Inductive NetworkApprovalOutcome := DeniedByUser | DeniedByPolicy (message : str).

Definition to_network_decision (d : PendingApprovalDecision) : NetworkDecision :=
  match d with
  | AllowOnce | AllowForSession => NetworkAllow
  | PendingDeny => network_deny REASON_NOT_ALLOWED
  end.

(** [ToolError], of which other code is opaque here. *)
Inductive ToolError (E : Type) := Rejected (message : str) | CodexError (err : E).
Arguments Rejected {E}.
Arguments CodexError {E}.

Definition network_approval_outcome_to_result {E} (outcome : option NetworkApprovalOutcome)
    : Res (ToolError E) unit :=
  match outcome with
  | Some DeniedByUser => Err (Rejected (lit "rejected by user"))
  | Some (DeniedByPolicy message) => Err (Rejected message)
  | None => Ok ()
  end.

Definition allows_network_approval_flow (policy : AskForApproval) : bool :=
  match policy with Never => false | _ => true end.
Definition permission_profile_allows_network_approval_flow (p : PermissionProfile) : bool :=
  match p with Managed _ _ => true | _ => false end.

(** A decision that others wait for; [notify] counts the calls of
    [notify_waiters]. *)
Record PendingHostApproval := mkPending { decision : option PendingApprovalDecision; notify : nat }.

Record ActiveNetworkApprovalCall := mkCall { call_registration_id : str; call_turn_id : str; call_command : str }.

(** The service: the calls that are under way, in order, their outcomes and
    the tokens that were cancelled; the decisions that are pending, which
    point to the shared objects [hosts]; the hosts approved and denied for
    the session. *)
Record NetworkApprovalService := mkService {
  active_calls : list (str * ActiveNetworkApprovalCall);
  call_outcomes : gmap str NetworkApprovalOutcome;
  cancelled : gset str;
  pending_host_approvals : gmap HostApprovalKey nat;
  hosts : list PendingHostApproval;
  session_approved_hosts : gset HostApprovalKey;
  session_denied_hosts : gset HostApprovalKey
}.
Definition new_service : NetworkApprovalService := mkService [] ∅ ∅ ∅ [] ∅ ∅.

Definition set_calls calls outcomes (s : NetworkApprovalService) : NetworkApprovalService :=
  mkService calls outcomes (cancelled s) (pending_host_approvals s) (hosts s)
    (session_approved_hosts s) (session_denied_hosts s).
Definition set_cancelled c (s : NetworkApprovalService) : NetworkApprovalService :=
  mkService (active_calls s) (call_outcomes s) c (pending_host_approvals s) (hosts s)
    (session_approved_hosts s) (session_denied_hosts s).
Definition set_pending p h (s : NetworkApprovalService) : NetworkApprovalService :=
  mkService (active_calls s) (call_outcomes s) (cancelled s) p h
    (session_approved_hosts s) (session_denied_hosts s).
Definition set_sessions a d (s : NetworkApprovalService) : NetworkApprovalService :=
  mkService (active_calls s) (call_outcomes s) (cancelled s) (pending_host_approvals s) (hosts s) a d.

(** ** Calls *)

(** [IndexMap::insert] and [IndexMap::shift_remove] *)
Fixpoint index_insert {V} (k : str) (v : V) (l : list (str * V)) : list (str * V) :=
  match l with
  | [] => [(k, v)]
  | (k', v') :: l => if decide (k = k') then (k', v) :: l else (k', v') :: index_insert k v l
  end.
Definition shift_remove {V} (k : str) (l : list (str * V)) : list (str * V) :=
  List.filter (λ kv, negb (bool_decide (kv.1 = k))) l.
Fixpoint index_get {V} (k : str) (l : list (str * V)) : option V :=
  match l with
  | [] => None
  | (k', v) :: l => if decide (k = k') then Some v else index_get k l
  end.

Definition register_call (registration_id turn_id command : str) (s : NetworkApprovalService)
    : NetworkApprovalService :=
  set_calls (index_insert registration_id (mkCall registration_id turn_id command) (active_calls s))
    (call_outcomes s) s.

Definition remove_call (registration_id : str) (s : NetworkApprovalService)
    : option NetworkApprovalOutcome * NetworkApprovalService :=
  (call_outcomes s !! registration_id,
   set_calls (shift_remove registration_id (active_calls s)) (delete registration_id (call_outcomes s)) s).
Definition unregister_call (registration_id : str) (s : NetworkApprovalService) : NetworkApprovalService :=
  snd (remove_call registration_id s).
Definition finish_call_outcome := remove_call.
Definition finish_call {E} (registration_id : str) (s : NetworkApprovalService)
    : Res (ToolError E) unit * NetworkApprovalService :=
  let (outcome, s) := finish_call_outcome registration_id s in
  (network_approval_outcome_to_result outcome, s).

Definition resolve_single_active_call (s : NetworkApprovalService) : option ActiveNetworkApprovalCall :=
  match active_calls s with
  | [(_, call)] => Some call
  | _ => None
  end.

(** The part of [record_call_outcome] under the lock: whether the token of the
    call is then cancelled. *)
Definition record_call_outcome (registration_id : str) (outcome : NetworkApprovalOutcome)
    (s : NetworkApprovalService) : bool * NetworkApprovalService :=
  match index_get registration_id (active_calls s) with
  | None => (false, s)
  | Some _ =>
      match call_outcomes s !! registration_id with
      | Some DeniedByUser => (false, s)
      | _ => (true, set_calls (active_calls s) (<[registration_id := outcome]> (call_outcomes s)) s)
      end
  end.

(** [get_or_create_pending_approval] *)
Definition get_or_create_pending_approval (key : HostApprovalKey) (s : NetworkApprovalService)
    : nat * bool * NetworkApprovalService :=
  match pending_host_approvals s !! key with
  | Some existing => (existing, false, s)
  | None =>
      let created := length (hosts s) in
      (created, true, set_pending (<[key := created]> (pending_host_approvals s)) (hosts s ++ [mkPending None 0]) s)
  end.

(** The approved hosts of another session replace those of this one. *)
Definition sync_session_approved_hosts_to (source target : NetworkApprovalService) : NetworkApprovalService :=
  set_sessions (session_approved_hosts source) (session_denied_hosts target) target.

(** ** Messages *)

Definition quoted (s : str) : str := [c_dquote] ++ s ++ [c_dquote].
Definition format_network_target (protocol host : str) (port : N) : str :=
  protocol ++ lit "://" ++ host ++ lit ":" ++ show_N port.
Definition approval_id_for_key (key : HostApprovalKey) : str :=
  lit "network#" ++ key_protocol key ++ lit "#" ++ key_host key ++ lit "#" ++ show_N (key_port key).
Definition policy_denial_message (request : NetworkPolicyRequest) : str :=
  let key := key_of request in
  lit "Network access to " ++ quoted (format_network_target (key_protocol key) (req_host request) (key_port key)) ++
  lit " was blocked by policy.".

Definition parse_network_policy_decision (value : str) : option NetworkPolicyDecision :=
  if decide (value = lit "deny") then Some PolicyDeny
  else if decide (value = lit "ask") then Some PolicyAsk
  else None.

Definition denied_detail (reason : str) : str :=
  if decide (reason = lit "denied") then
    lit "domain is explicitly denied by policy and cannot be approved from this prompt"
  else if decide (reason = lit "not_allowed") then
    lit "domain is not on the allowlist for the current sandbox mode"
  else if decide (reason = lit "not_allowed_local") then
    lit "local/private network addresses are blocked by the sandbox policy"
  else if decide (reason = lit "method_not_allowed") then
    lit "request method is blocked by the current network mode"
  else if decide (reason = lit "proxy_disabled") then lit "network proxy is disabled"
  else lit "request is blocked by network policy".

Definition denied_network_policy_message (blocked : BlockedRequest) : option str :=
  match blocked_decision blocked ≫= parse_network_policy_decision with
  | Some PolicyDeny =>
      let host := trim (blocked_host blocked) in
      Some (if decide (host = []) then lit "Network access was blocked by policy."
            else lit "Network access to " ++ quoted host ++ lit " was blocked: " ++
                 denied_detail (blocked_reason blocked) ++ lit ".")
  | _ => None
  end.

(** ** Handling a request

    What the handler does to the service once the answer is known, one action
    per critical section. *)
Inductive Act :=
| RecordCall (registration_id : str) (outcome : NetworkApprovalOutcome)
| CancelToken (registration_id : str)
| RecordSingle (outcome : NetworkApprovalOutcome)
| ForgetDenied | InsertApproved
| ForgetApproved | InsertDenied.

(** Of the turn that is active: its settings, its profile, and whether an
    automatic reviewer is configured. *)
Record TurnContext := mkContext {
  ctx_approval_policy : AskForApproval;
  ctx_permission_profile : PermissionProfile;
  ctx_auto_review : bool
}.

Definition routes_approval_to_guardian (ctx : TurnContext) : bool :=
  match ctx_approval_policy ctx with
  | OnRequest | Granular _ => ctx_auto_review ctx
  | _ => false
  end.

Inductive PermissionRequestDecision := HookAllow | HookDeny (message : str).

(** Where the handler of a request is. *)
Inductive pc :=
| CheckDenied
| CheckApproved
| GetPending
| WaitNotified (id : nat)
| WaitCheck (id seen : nat)
| WaitNotify (id seen : nat)
| OwnContext (id : nat)
| OwnCall (id : nat) (ctx : TurnContext)
| OwnHooks (id : nat) (ctx : TurnContext) (owner_call : option ActiveNetworkApprovalCall)
| OwnReview (id : nat) (ctx : TurnContext) (owner_call : option ActiveNetworkApprovalCall)
| OwnBefore (id : nat) (acts : list Act) (d : PendingApprovalDecision) (after : list Act)
| OwnNotify (id : nat) (d : PendingApprovalDecision) (after : list Act)
| OwnRemove (id : nat) (d : PendingApprovalDecision) (after : list Act)
| OwnAfter (acts : list Act) (d : PendingApprovalDecision)
| Returned (result : NetworkDecision).

(** Whether the settings let the request be put to somebody. *)
Definition context_allows (ctx : option TurnContext) : option TurnContext :=
  ctx ← ctx;
  if negb (permission_profile_allows_network_approval_flow (ctx_permission_profile ctx)) then None
  else if negb (allows_network_approval_flow (ctx_approval_policy ctx)) then None
  else Some ctx.

Definition record_for (owner_call : option ActiveNetworkApprovalCall) (outcome : NetworkApprovalOutcome)
    : list Act :=
  match owner_call with
  | Some call => [RecordCall (call_registration_id call) outcome]
  | None => []
  end.

(** What a review decides: the actions before the answer is announced, and the
    answer.  [message] is what the reviewer said. *)
Definition resolve_review (guardian : bool) (owner_call : option ActiveNetworkApprovalCall)
    (approval_decision : ReviewDecision) (message guardian_timeout_message : str)
    : list Act * PendingApprovalDecision :=
  match approval_decision with
  | Approved | ApprovedExecpolicyAmendment _ => ([], AllowOnce)
  | ApprovedForSession | NetworkPolicyAmendment _ ActionAllow => ([ForgetDenied], AllowForSession)
  | NetworkPolicyAmendment _ ActionDeny =>
      (record_for owner_call DeniedByUser ++ [ForgetApproved], PendingDeny)
  | Denied | Abort =>
      (record_for owner_call (if guardian then DeniedByPolicy message else DeniedByUser), PendingDeny)
  | TimedOut => (record_for owner_call (DeniedByPolicy guardian_timeout_message), PendingDeny)
  end.

(** One action; it may bring on the next. *)
Definition run_act (key : HostApprovalKey) (a : Act) (s : NetworkApprovalService)
    : list Act * NetworkApprovalService :=
  match a with
  | RecordCall registration_id outcome =>
      let (recorded, s) := record_call_outcome registration_id outcome s in
      (if recorded then [CancelToken registration_id] else [], s)
  | CancelToken registration_id => ([], set_cancelled ({[registration_id]} ∪ cancelled s) s)
  | RecordSingle outcome => (record_for (resolve_single_active_call s) outcome, s)
  | ForgetDenied =>
      ([InsertApproved], set_sessions (session_approved_hosts s) (session_denied_hosts s ∖ {[key]}) s)
  | InsertApproved =>
      ([], set_sessions ({[key]} ∪ session_approved_hosts s) (session_denied_hosts s) s)
  | ForgetApproved =>
      ([InsertDenied], set_sessions (session_approved_hosts s ∖ {[key]}) (session_denied_hosts s) s)
  | InsertDenied =>
      ([], set_sessions (session_approved_hosts s) ({[key]} ∪ session_denied_hosts s) s)
  end.

(** What comes from outside at a step: nothing, the active turn, the answer of
    the hooks, or the review with the messages that go with it. *)
Inductive input :=
| NoInput
| ContextIs (ctx : option TurnContext)
| HooksSay (answer : option PermissionRequestDecision)
| ReviewSays (answer : ReviewDecision) (message guardian_timeout_message : str).

(** [set_decision]: the part under the lock, and the notification. *)
Definition set_decision (id : nat) (d : PendingApprovalDecision) (s : NetworkApprovalService)
    : NetworkApprovalService :=
  set_pending (pending_host_approvals s)
    (alter (λ h, mkPending (Some d) (notify h)) id (hosts s)) s.
Definition notify_waiters (id : nat) (s : NetworkApprovalService) : NetworkApprovalService :=
  set_pending (pending_host_approvals s)
    (alter (λ h, mkPending (decision h) (S (notify h))) id (hosts s)) s.

(** [handle_inline_policy_request], one step; [None] where the task waits. *)
Definition run_step (request : NetworkPolicyRequest) (p : pc) (i : input) (s : NetworkApprovalService)
    : option (pc * NetworkApprovalService) :=
  let key := key_of request in
  match p, i with
  | CheckDenied, NoInput =>
      Some (if decide (key ∈ session_denied_hosts s) then Returned (network_deny REASON_NOT_ALLOWED)
            else CheckApproved, s)
  | CheckApproved, NoInput =>
      Some (if decide (key ∈ session_approved_hosts s) then Returned NetworkAllow else GetPending, s)
  | GetPending, NoInput =>
      let '(id, is_owner, s) := get_or_create_pending_approval key s in
      Some (if is_owner then OwnContext id else WaitNotified id, s)
  | WaitNotified id, NoInput => h ← hosts s !! id; Some (WaitCheck id (notify h), s)
  | WaitCheck id seen, NoInput =>
      h ← hosts s !! id;
      Some (match decision h with
            | Some d => Returned (to_network_decision d)
            | None => WaitNotify id seen
            end, s)
  | WaitNotify id seen, NoInput =>
      h ← hosts s !! id; if decide (seen < notify h) then Some (WaitNotified id, s) else None
  | OwnContext id, ContextIs ctx =>
      Some (match context_allows ctx with
            | Some ctx => OwnCall id ctx
            | None => OwnBefore id [] PendingDeny [RecordSingle (DeniedByPolicy (policy_denial_message request))]
            end, s)
  | OwnCall id ctx, NoInput => Some (OwnHooks id ctx (resolve_single_active_call s), s)
  | OwnHooks id ctx owner_call, HooksSay answer =>
      Some (match answer with
            | Some HookAllow => OwnBefore id [] AllowOnce []
            | Some (HookDeny message) => OwnBefore id (record_for owner_call (DeniedByPolicy message)) PendingDeny []
            | None => OwnReview id ctx owner_call
            end, s)
  | OwnReview id ctx owner_call, ReviewSays answer message timeout =>
      let (acts, resolved) :=
        resolve_review (routes_approval_to_guardian ctx) owner_call answer message timeout in
      Some (OwnBefore id acts resolved [], s)
  | OwnBefore id (a :: acts) d after, NoInput =>
      let (more, s) := run_act key a s in Some (OwnBefore id (more ++ acts) d after, s)
  | OwnBefore id [] d after, NoInput => Some (OwnNotify id d after, set_decision id d s)
  | OwnNotify id d after, NoInput => Some (OwnRemove id d after, notify_waiters id s)
  | OwnRemove id d after, NoInput =>
      Some (OwnAfter after d, set_pending (delete key (pending_host_approvals s)) (hosts s) s)
  | OwnAfter (a :: acts) d, NoInput =>
      let (more, s) := run_act key a s in Some (OwnAfter (more ++ acts) d, s)
  | OwnAfter [] d, NoInput => Some (Returned (to_network_decision d), s)
  | _, _ => None
  end.

(** [record_blocked_request]: a blocked request the proxy reports is recorded
    for the only call there is, without an answer to anybody. *)
Definition record_blocked_request (blocked : BlockedRequest) : option pc :=
  (λ message, OwnAfter [RecordSingle (DeniedByPolicy message)] PendingDeny) <$>
    denied_network_policy_message blocked.

(** Who approved a host, to which question and in which turn. *)
Inductive Approval :=
| ByHook (id : nat) (ctx : TurnContext)
| ByReview (id : nat) (ctx : TurnContext) (answer : ReviewDecision)
| BySync.

(** The service, the tasks, and a log of the approvals. *)
Record World := mkWorld {
  service : NetworkApprovalService;
  tasks : gmap nat (NetworkPolicyRequest * pc);
  log : list (HostApprovalKey * Approval)
}.
Definition new_world : World := mkWorld new_service ∅ [].

Inductive action :=
| SpawnRequest (request : NetworkPolicyRequest)
| SpawnBlocked (request : NetworkPolicyRequest) (blocked : BlockedRequest)
| Run (i : input)
| RegisterCall (registration_id turn_id command : str)
| FinishCall (registration_id : str)
| SyncFrom (source : NetworkApprovalService).

Definition is_allow (d : PendingApprovalDecision) : bool :=
  match d with AllowOnce | AllowForSession => true | PendingDeny => false end.

(** The approval, if any, that a step of the owner brings. *)
Definition approval_of (p : pc) (i : input) : option Approval :=
  match p, i with
  | OwnHooks id ctx _, HooksSay (Some HookAllow) => Some (ByHook id ctx)
  | OwnReview id ctx owner_call, ReviewSays answer message timeout =>
      if is_allow (snd (resolve_review (routes_approval_to_guardian ctx) owner_call answer message timeout))
      then Some (ByReview id ctx answer) else None
  | _, _ => None
  end.
Definition log_approval (key : HostApprovalKey) (a : option Approval)
    (l : list (HostApprovalKey * Approval)) : list (HostApprovalKey * Approval) :=
  match a with Some a => (key, a) :: l | None => l end.

Definition step (t : nat) (a : action) (w : World) : option World :=
  match a, tasks w !! t with
  | SpawnRequest request, None =>
      Some (mkWorld (service w) (<[t := (request, CheckDenied)]> (tasks w)) (log w))
  | SpawnBlocked request blocked, None =>
      p ← record_blocked_request blocked;
      Some (mkWorld (service w) (<[t := (request, p)]> (tasks w)) (log w))
  | Run i, Some (request, p) =>
      '(p', s) ← run_step request p i (service w);
      Some (mkWorld s (<[t := (request, p')]> (tasks w)) (log_approval (key_of request) (approval_of p i) (log w)))
  | RegisterCall registration_id turn_id command, _ =>
      Some (mkWorld (register_call registration_id turn_id command (service w)) (tasks w) (log w))
  | FinishCall registration_id, _ =>
      Some (mkWorld (snd (finish_call_outcome registration_id (service w))) (tasks w) (log w))
  | SyncFrom source, _ =>
      Some (mkWorld (sync_session_approved_hosts_to source (service w)) (tasks w)
        (map (λ key, (key, BySync)) (elements (session_approved_hosts source)) ++ log w))
  | _, _ => None
  end.

Inductive reachable : World → Prop :=
| reach_new : reachable new_world
| reach_step w t a w' : reachable w → step t a w = Some w' → reachable w'.

(** Run a schedule; [None] when one of its steps is not possible. *)
Fixpoint exec (sched : list (nat * action)) (w : World) : option World :=
  match sched with
  | [] => Some w
  | (t, a) :: sched => step t a w ≫= exec sched
  end.

(** ** Invariant *)

(** The decision a task owns: it will announce it and remove it. *)
Definition owns (p : pc) : option nat :=
  match p with
  | OwnContext id | OwnCall id _ | OwnHooks id _ _ | OwnReview id _ _
  | OwnBefore id _ _ _ | OwnNotify id _ _ | OwnRemove id _ _ => Some id
  | _ => None
  end.
Definition undecided (p : pc) : bool :=
  match p with
  | OwnContext _ | OwnCall _ _ | OwnHooks _ _ _ | OwnReview _ _ _ | OwnBefore _ _ _ _ => true
  | _ => false
  end.
Definition waits (p : pc) : option nat :=
  match p with WaitNotified id | WaitCheck id _ | WaitNotify id _ => Some id | _ => None end.

(** The question that was answered, and whether for the session. *)
Definition question (a : Approval) : option nat :=
  match a with ByHook id _ | ByReview id _ _ => Some id | BySync => None end.
Definition for_session (a : Approval) : bool :=
  match a with
  | ByReview _ _ (ApprovedForSession | NetworkPolicyAmendment _ ActionAllow) | BySync => true
  | _ => false
  end.

(** The host was approved in answer to the question, or for the session. *)
Definition approved_by (l : list (HostApprovalKey * Approval)) (key : HostApprovalKey) (id : nat) : Prop :=
  ∃ a, (key, a) ∈ l ∧ question a = Some id.
Definition approved_session (l : list (HostApprovalKey * Approval)) (key : HostApprovalKey) : Prop :=
  ∃ a, (key, a) ∈ l ∧ for_session a = true.
Definition synced_in (l : list (HostApprovalKey * Approval)) (key : HostApprovalKey) : Prop :=
  (key, BySync) ∈ l.

(** Which actions go with an answer. *)
Definition act_ok (d : PendingApprovalDecision) (a : Act) : Prop :=
  match a with
  | ForgetDenied | InsertApproved => d = AllowForSession
  | ForgetApproved | InsertDenied => d = PendingDeny
  | RecordCall _ _ | CancelToken _ | RecordSingle _ => True
  end.
(** The actions that are not brought on by another. *)
Definition first_act (a : Act) : Prop :=
  match a with InsertApproved | InsertDenied => False | _ => True end.
Definition records (a : Act) : Prop :=
  match a with RecordCall _ _ | CancelToken _ | RecordSingle _ => True | _ => False end.

(** An answer that allows was given to the question, and one for the session
    for the session. *)
Definition approved_as (l : list (HostApprovalKey * Approval)) (key : HostApprovalKey) (id : nat)
    (d : PendingApprovalDecision) : Prop :=
  (is_allow d = true → approved_by l key id) ∧ (d = AllowForSession → approved_session l key).

(** What a task knows of the session's hosts and of the log. *)
Definition knows (key : HostApprovalKey) (p : pc) (w : World) : Prop :=
  match p with
  | OwnCall _ ctx | OwnHooks _ ctx _ | OwnReview _ ctx _ => context_allows (Some ctx) = Some ctx
  | OwnBefore id acts d after =>
      approved_as (log w) key id d ∧ Forall (act_ok d) acts ∧ Forall first_act (tail acts) ∧
      match acts with
      | InsertApproved :: _ => key ∉ session_denied_hosts (service w)
      | InsertDenied :: _ => key ∈ session_approved_hosts (service w) → synced_in (log w) key
      | _ => True
      end ∧ Forall records after
  | OwnNotify id d after | OwnRemove id d after => approved_as (log w) key id d ∧ Forall records after
  | OwnAfter acts _ => Forall records acts
  | _ => True
  end.

(** The answer a task has set. *)
Definition announced (p : pc) : option PendingApprovalDecision :=
  match p with OwnNotify _ d _ | OwnRemove _ d _ => Some d | _ => None end.

(** Ownership: who decides about a host, and who waits for it. *)
Record Owned (pend : gmap HostApprovalKey nat) (hs : list PendingHostApproval)
    (ts : gmap nat (NetworkPolicyRequest * pc)) : Prop := {
  own_owner t request p id : ts !! t = Some (request, p) → owns p = Some id →
    pend !! key_of request = Some id;
  own_pending key id : pend !! key = Some id →
    ∃ t request p, ts !! t = Some (request, p) ∧ owns p = Some id ∧ key_of request = key;
  own_unique t t' request request' p p' id :
    ts !! t = Some (request, p) → ts !! t' = Some (request', p') →
    owns p = Some id → owns p' = Some id → t = t';
  own_host t request p id : ts !! t = Some (request, p) → owns p = Some id ∨ waits p = Some id →
    is_Some (hs !! id);
  own_decision t request p id h : ts !! t = Some (request, p) → owns p = Some id →
    hs !! id = Some h → decision h = announced p;
  own_waiting t request p id h : ts !! t = Some (request, p) → waits p = Some id →
    hs !! id = Some h → decision h = None → pend !! key_of request = Some id;
  own_wakeup t request id h : ts !! t = Some (request, WaitNotify id (notify h)) →
    hs !! id = Some h → is_Some (decision h) →
    ∃ t' request' d after, ts !! t' = Some (request', OwnNotify id d after);
  own_seen t request p id seen h : ts !! t = Some (request, p) → p = WaitCheck id seen ∨ p = WaitNotify id seen →
    hs !! id = Some h → seen ≤ notify h
}.

(** The log covers what is allowed. *)
Record Logged (w : World) : Prop := {
  log_decided t request p id h d : tasks w !! t = Some (request, p) → waits p = Some id →
    hosts (service w) !! id = Some h → decision h = Some d → is_allow d = true →
    approved_by (log w) (key_of request) id;
  log_knows t request p : tasks w !! t = Some (request, p) → knows (key_of request) p w;
  log_approved key : key ∈ session_approved_hosts (service w) → approved_session (log w) key;
  log_disjoint key : key ∈ session_approved_hosts (service w) → key ∈ session_denied_hosts (service w) →
    synced_in (log w) key
}.

Definition owned (w : World) : Prop :=
  Owned (pending_host_approvals (service w)) (hosts (service w)) (tasks w).

Lemma Owned_new : owned new_world.
Proof. constructor; simpl; intros *; rewrite ?lookup_empty; try done. Qed.

(** A task moves, and nothing about ownership changes. *)
Lemma Owned_move pend hs ts t request p p' :
  Owned pend hs ts →
  (ts !! t = Some (request, p) ∨ ts !! t = None ∧ owns p = None ∧ waits p = None) →
  owns p' = owns p → announced p' = announced p → announced p = None →
  (∀ id, waits p' = Some id → waits p = Some id ∨ pend !! key_of request = Some id) →
  (∀ id seen, p' = WaitCheck id seen → ∃ h, hs !! id = Some h ∧ seen = notify h) →
  (∀ id seen, p' = WaitNotify id seen → p = WaitCheck id seen ∧ ∃ h, hs !! id = Some h ∧ decision h = None) →
  Owned pend hs (<[t := (request, p')]> ts).
Proof.
  intros H Ht Ho Ha Hna Hw Hc Hn.
  assert (Hold : ∀ id, owns p = Some id → ts !! t = Some (request, p)).
  { intros id E. destruct Ht as [?|(_ & E' & _)]; [done|by rewrite E in E']. }
  assert (Hwold : ∀ id, waits p = Some id → ts !! t = Some (request, p)).
  { intros id E. destruct Ht as [?|(_ & _ & E')]; [done|by rewrite E in E']. }
  assert (Hhost : ∀ key id, pend !! key = Some id → is_Some (hs !! id)).
  { intros key id E. destruct (own_pending _ _ _ H key id E) as (t0 & r0 & p0 & E0 & O0 & _).
    eapply own_host; [done..|by left]. }
  constructor.
  - intros t0 r0 p0 id [[<- [= <- <-]]|[Hne E]]%lookup_insert_Some O0; [|by eapply own_owner].
    rewrite Ho in O0. eapply own_owner; [done|by apply (Hold id)|done].
  - intros key id E. destruct (own_pending _ _ _ H key id E) as (t0 & r0 & p0 & E0 & O0 & K0).
    destruct (decide (t = t0)) as [<-|Hne].
    + destruct Ht as [E'|(E' & _)]; [|congruence]. simplify_eq.
      exists t, request, p'. rewrite lookup_insert_eq. split; [done|]. split; [congruence|done].
    + exists t0, r0, p0. by rewrite lookup_insert_ne.
  - intros t1 t2 r1 r2 p1 p2 id [[<- [= <- <-]]|[N1 E1]]%lookup_insert_Some
      [[<- [= <- <-]]|[N2 E2]]%lookup_insert_Some O1 O2; [done|..].
    + rewrite Ho in O1. by eapply (own_unique _ _ _ H); [apply (Hold id)|..].
    + rewrite Ho in O2. by eapply (own_unique _ _ _ H); [|apply (Hold id)|..].
    + by eapply (own_unique _ _ _ H).
  - intros t0 r0 p0 id [[<- [= <- <-]]|[Hne E]]%lookup_insert_Some HO; [|by eapply own_host].
    destruct HO as [O0|W0].
    + rewrite Ho in O0. eapply own_host; [done|by apply (Hold id)|by left].
    + destruct (Hw id W0) as [W|Hp]; [|by eapply Hhost].
      eapply own_host; [done|by apply (Hwold id)|by right].
  - intros t0 r0 p0 id h [[<- [= <- <-]]|[Hne E]]%lookup_insert_Some O0 Hh; [|by eapply own_decision].
    rewrite Ha. rewrite Ho in O0. eapply own_decision; [done|by apply (Hold id)|done..].
  - intros t0 r0 p0 id h [[<- [= <- <-]]|[Hne E]]%lookup_insert_Some W0 Hh Hd; [|by eapply own_waiting].
    destruct (Hw id W0) as [W|Hp]; [|done]. eapply own_waiting; [done|by apply (Hwold id)|done..].
  - intros t0 r0 id h [[<- [= <- ->]]|[Hne E]]%lookup_insert_Some Hh Hd.
    + destruct (Hn id (notify h) eq_refl) as (_ & h' & Hh' & Hd'). simplify_eq. rewrite Hd' in Hd.
      by destruct Hd.
    + destruct (own_wakeup _ _ _ H t0 r0 id h E Hh Hd) as (t' & r' & d & after & E').
      exists t', r', d, after. destruct (decide (t = t')) as [<-|]; [|by rewrite lookup_insert_ne].
      destruct Ht as [E2|(E2 & _)]; simplify_eq; congruence.
  - intros t0 r0 p0 id seen h [[<- [= <- <-]]|[Hne E]]%lookup_insert_Some Hp Hh; [|by eapply own_seen].
    destruct Hp as [->| ->].
    + destruct (Hc id seen eq_refl) as (h' & Hh' & ->). simplify_eq. done.
    + destruct (Hn id seen eq_refl) as (-> & _). eapply own_seen; [done|by apply (Hwold id)|by left|done].
Qed.

(** The first request for a host becomes the owner. *)
Lemma Owned_create pend hs ts t request p :
  Owned pend hs ts → ts !! t = Some (request, p) → owns p = None → waits p = None →
  pend !! key_of request = None →
  Owned (<[key_of request := length hs]> pend) (hs ++ [mkPending None 0])
    (<[t := (request, OwnContext (length hs))]> ts).
Proof.
  intros H Ht Ho Hw Hp.
  assert (Hlt : ∀ t0 r0 p0 id, ts !! t0 = Some (r0, p0) → owns p0 = Some id ∨ waits p0 = Some id → id < length hs).
  { intros t0 r0 p0 id E HO. apply lookup_lt_is_Some. by eapply own_host. }
  assert (Hkeep : ∀ id h, id < length hs → (hs ++ [mkPending None 0]) !! id = Some h → hs !! id = Some h).
  { intros id h Hid E. by rewrite lookup_app_l in E. }
  constructor.
  - intros t0 r0 p0 id [[<- [= <- <-]]|[Hne E]]%lookup_insert_Some O0.
    + simplify_eq/=. by rewrite lookup_insert_eq.
    + rewrite lookup_insert_ne; [by eapply own_owner|]. intros Ek.
      pose proof (own_owner _ _ _ H _ _ _ _ E O0) as E'. rewrite <-Ek in E'. congruence.
  - intros key id [[<- <-]|[Hne E]]%lookup_insert_Some.
    + exists t, request, (OwnContext (length hs)). by rewrite lookup_insert_eq.
    + destruct (own_pending _ _ _ H key id E) as (t0 & r0 & p0 & E0 & O0 & K0).
      exists t0, r0, p0. rewrite lookup_insert_ne; [done|]. intros <-. simplify_eq.
  - intros t1 t2 r1 r2 p1 p2 id [[<- [= <- <-]]|[N1 E1]]%lookup_insert_Some
      [[<- [= <- <-]]|[N2 E2]]%lookup_insert_Some O1 O2; [done|..].
    + simplify_eq/=. exfalso. specialize (Hlt _ _ _ _ E2 (or_introl O2)). lia.
    + simplify_eq/=. exfalso. specialize (Hlt _ _ _ _ E1 (or_introl O1)). lia.
    + by eapply (own_unique _ _ _ H).
  - intros t0 r0 p0 id [[<- [= <- <-]]|[Hne E]]%lookup_insert_Some HO.
    + destruct HO as [O0|W0]; simplify_eq/=. by rewrite lookup_app_r, Nat.sub_diag by lia.
    + apply lookup_lt_is_Some. rewrite length_app. specialize (Hlt _ _ _ _ E HO). lia.
  - intros t0 r0 p0 id h [[<- [= <- <-]]|[Hne E]]%lookup_insert_Some O0 Hh.
    + simplify_eq/=. rewrite lookup_app_r, Nat.sub_diag in Hh by lia. by simplify_eq/=.
    + eapply own_decision; [done..|]. apply Hkeep; [|done]. by apply (Hlt _ _ _ _ E (or_introl O0)).
  - intros t0 r0 p0 id h [[<- [= <- <-]]|[Hne E]]%lookup_insert_Some W0 Hh Hd; [done|].
    assert (pend !! key_of r0 = Some id) as E'.
    { eapply own_waiting; [done..| |done]. apply Hkeep; [|done]. by apply (Hlt _ _ _ _ E (or_intror W0)). }
    rewrite lookup_insert_ne; [done|]. intros Ek. rewrite <-Ek in E'. congruence.
  - intros t0 r0 id h [[<- [=]]|[Hne E]]%lookup_insert_Some Hh Hd.
    apply Hkeep in Hh; [|by apply (Hlt _ _ _ _ E (or_intror eq_refl))].
    destruct (own_wakeup _ _ _ H t0 r0 id h E Hh Hd) as (t' & r' & d & after & E').
    exists t', r', d, after. rewrite lookup_insert_ne; [done|]. intros <-. simplify_eq.
  - intros t0 r0 p0 id seen h [[<- [= <- <-]]|[Hne E]]%lookup_insert_Some Hp0 Hh; [by destruct Hp0|].
    eapply own_seen; [done..|]. apply Hkeep; [|done].
    apply (Hlt _ _ _ _ E). right. by destruct Hp0 as [->| ->].
Qed.

(** A step of the owner on its own decision. *)
Lemma Owned_update pend hs ts t request p p' id f :
  Owned pend hs ts → ts !! t = Some (request, p) → owns p = Some id → owns p' = Some id →
  (∀ h, hs !! id = Some h → decision (f h) = announced p') →
  (∀ h, hs !! id = Some h → notify h ≤ notify (f h)) →
  (∀ h, hs !! id = Some h → decision (f h) = None → decision h = None) →
  (∀ h, hs !! id = Some h → notify (f h) = notify h →
     is_Some (decision (f h)) → ∃ d after, p' = OwnNotify id d after) →
  Owned pend (alter f id hs) (<[t := (request, p')]> ts).
Proof.
  intros H Ht Ho Ho' Hdec Hno Hnone Hwake.
  assert (Hwp' : waits p' = None) by (by destruct p').
  assert (Hwp : waits p = None) by (by destruct p).
  assert (Hother : ∀ t0 r0 p0 id0, t ≠ t0 → ts !! t0 = Some (r0, p0) → owns p0 = Some id0 → id ≠ id0).
  { intros t0 r0 p0 id0 Hne E O0 <-. apply Hne. by eapply (own_unique _ _ _ H). }
  assert (Hcases : ∀ id0 h0, alter f id hs !! id0 = Some h0 →
    (id0 = id ∧ ∃ h, hs !! id = Some h ∧ h0 = f h) ∨ (id0 ≠ id ∧ hs !! id0 = Some h0)).
  { intros id0 h0 E. destruct (decide (id0 = id)) as [->|Hne].
    - left. rewrite list_lookup_alter_eq in E. apply fmap_Some in E as (h & ? & ?). eauto.
    - right. by rewrite list_lookup_alter_ne in E by done. }
  constructor.
  - intros t0 r0 p0 id0 [[<- [= <- <-]]|[Hne E]]%lookup_insert_Some O0; [|by eapply own_owner].
    simplify_eq. by eapply own_owner.
  - intros key id0 E. destruct (own_pending _ _ _ H key id0 E) as (t0 & r0 & p0 & E0 & O0 & K0).
    destruct (decide (t = t0)) as [<-|Hne].
    + simplify_eq. exists t, request, p'. by rewrite lookup_insert_eq.
    + exists t0, r0, p0. by rewrite lookup_insert_ne.
  - intros t1 t2 r1 r2 p1 p2 id0 [[<- [= <- <-]]|[N1 E1]]%lookup_insert_Some
      [[<- [= <- <-]]|[N2 E2]]%lookup_insert_Some O1 O2; [done|..].
    + simplify_eq. by edestruct (Hother t2).
    + simplify_eq. by edestruct (Hother t1).
    + by eapply (own_unique _ _ _ H).
  - intros t0 r0 p0 id0 [[<- [= <- <-]]|[Hne E]]%lookup_insert_Some HO;
      apply lookup_lt_is_Some; rewrite length_alter; apply lookup_lt_is_Some.
    + destruct HO as [O0|W0]; [|congruence]. simplify_eq. eapply own_host; [done..|by left].
    + by eapply own_host.
  - intros t0 r0 p0 id0 h [[<- [= <- <-]]|[Hne E]]%lookup_insert_Some O0
      [(-> & h0 & Hh & ->)|(Hid & Hh)]%Hcases.
    + by apply Hdec.
    + simplify_eq.
    + by edestruct Hother.
    + by eapply own_decision.
  - intros t0 r0 p0 id0 h [[<- [= <- <-]]|[Hne E]]%lookup_insert_Some W0; [congruence|].
    intros [(-> & h0 & Hh & ->)|(Hid & Hh)]%Hcases Hd; [|by eapply own_waiting].
    eapply own_waiting; [done..|]. by apply Hnone.
  - intros t0 r0 id0 h [[<- [= _ ->]]|[Hne E]]%lookup_insert_Some; [done|].
    intros [(-> & h0 & Hh & ->)|(Hid & Hh)]%Hcases Hd.
    + destruct (decide (notify (f h0) = notify h0)) as [En|Hn].
      * destruct (Hwake h0 Hh En Hd) as (d & after & ->). exists t, request, d, after. by rewrite lookup_insert_eq.
      * exfalso. pose proof (own_seen _ _ _ H t0 r0 _ id _ h0 E (or_intror eq_refl) Hh).
        specialize (Hno h0 Hh). lia.
    + destruct (own_wakeup _ _ _ H t0 r0 id0 h E Hh Hd) as (t' & r' & d & after & E').
      exists t', r', d, after. rewrite lookup_insert_ne; [done|]. intros <-. by simplify_eq/=.
  - intros t0 r0 p0 id0 seen h [[<- [= <- <-]]|[Hne E]]%lookup_insert_Some Hp0; [by destruct Hp0 as [->| ->]|].
    intros [(-> & h0 & Hh & ->)|(Hid & Hh)]%Hcases; [|by eapply own_seen].
    trans (notify h0); [by eapply own_seen|by apply Hno].
Qed.

(** The owner is done: the next request for the host asks again. *)
Lemma Owned_remove pend hs ts t request id d after acts :
  Owned pend hs ts → ts !! t = Some (request, OwnRemove id d after) →
  Owned (delete (key_of request) pend) hs (<[t := (request, OwnAfter acts d)]> ts).
Proof.
  intros H Ht.
  pose proof (own_owner _ _ _ H _ _ _ _ Ht eq_refl) as Hk.
  assert (Hne_key : ∀ t0 r0 p0 id0, t ≠ t0 → ts !! t0 = Some (r0, p0) → owns p0 = Some id0 →
    key_of request ≠ key_of r0).
  { intros t0 r0 p0 id0 Hne E O0 Ek. pose proof (own_owner _ _ _ H _ _ _ _ E O0) as E'.
    rewrite <-Ek, Hk in E'. simplify_eq. apply Hne. by eapply (own_unique _ _ _ H). }
  assert (Hsome : ∀ h, hs !! id = Some h → is_Some (decision h)).
  { intros h Hh. by rewrite (own_decision _ _ _ H t request _ id h Ht eq_refl Hh). }
  constructor.
  - intros t0 r0 p0 id0 [[<- [= <- <-]]|[Hne E]]%lookup_insert_Some O0; [done|].
    rewrite lookup_delete_ne by (by eapply Hne_key). by eapply own_owner.
  - intros key id0 [Hnk E]%lookup_delete_Some.
    destruct (own_pending _ _ _ H key id0 E) as (t0 & r0 & p0 & E0 & O0 & K0).
    exists t0, r0, p0. rewrite lookup_insert_ne; [done|]. intros <-. by simplify_eq/=.
  - intros t1 t2 r1 r2 p1 p2 id0 [[<- [= <- <-]]|[N1 E1]]%lookup_insert_Some
      [[<- [= <- <-]]|[N2 E2]]%lookup_insert_Some O1 O2; try done. by eapply (own_unique _ _ _ H).
  - intros t0 r0 p0 id0 [[<- [= <- <-]]|[Hne E]]%lookup_insert_Some HO; [by destruct HO|by eapply own_host].
  - intros t0 r0 p0 id0 h [[<- [= <- <-]]|[Hne E]]%lookup_insert_Some O0 Hh; [done|by eapply own_decision].
  - intros t0 r0 p0 id0 h [[<- [= <- <-]]|[Hne E]]%lookup_insert_Some W0 Hh Hd; [done|].
    pose proof (own_waiting _ _ _ H _ _ _ _ _ E W0 Hh Hd) as E'.
    rewrite lookup_delete_ne; [done|]. intros Ek. rewrite <-Ek, Hk in E'. simplify_eq.
    specialize (Hsome h Hh). rewrite Hd in Hsome. by destruct Hsome.
  - intros t0 r0 id0 h [[<- [=]]|[Hne E]]%lookup_insert_Some Hh Hd.
    destruct (own_wakeup _ _ _ H t0 r0 id0 h E Hh Hd) as (t' & r' & d' & after' & E').
    exists t', r', d', after'. rewrite lookup_insert_ne; [done|]. intros <-. by simplify_eq/=.
  - intros t0 r0 p0 id0 seen h [[<- [= <- <-]]|[Hne E]]%lookup_insert_Some Hp0 Hh;
      [by destruct Hp0|by eapply own_seen].
Qed.

(** Recording outcomes and caching decisions leaves the pending ones alone. *)
Lemma run_act_pending key a s :
  pending_host_approvals (snd (run_act key a s)) = pending_host_approvals s ∧
  hosts (snd (run_act key a s)) = hosts s.
Proof.
  destruct a; simpl; try done. unfold record_call_outcome.
  destruct (index_get _ _); [|done]. by destruct (call_outcomes s !! _) as [[|]|].
Qed.

Ltac solve_move :=
  match goal with
  | H : Owned _ _ _, E : _ !! _ = Some (_, ?p) |- Owned _ _ _ =>
      eapply (Owned_move _ _ _ _ _ p); [exact H|left; exact E|..]; simpl; try done; try naive_solver
  end.

Lemma step_owned w t a w' : owned w → step t a w = Some w' → owned w'.
Proof.
  unfold owned. intros H Hs.
  destruct a as [request|request blocked|i|rid turn command|rid|source]; simpl in Hs.
  - case_match eqn:Ht; simplify_eq/=. eapply (Owned_move _ _ _ _ _ CheckDenied); [done|by right|done..].
  - case_match eqn:Ht; simplify_eq/=. unfold record_blocked_request in Hs.
    destruct (denied_network_policy_message blocked); simplify_eq/=.
    eapply (Owned_move _ _ _ _ _ CheckDenied); [done|by right|done..].
  - destruct (tasks w !! t) as [[request p]|] eqn:Ht; [|done].
    destruct (run_step request p i (service w)) as [[p' s]|] eqn:Hr; simplify_eq/=.
    unfold run_step in Hr. destruct w as [s0 ts l]; simpl in *.
    destruct p, i; try done; simplify_eq/=.
    all: try solve [repeat case_match; simplify_eq/=; solve_move].
    + unfold get_or_create_pending_approval in Hr.
      destruct (pending_host_approvals s0 !! key_of request) as [id|] eqn:Ep; simplify_eq/=; [solve_move|].
      by eapply Owned_create.
    + destruct (hosts s0 !! id) as [h|] eqn:Eh; simplify_eq/=. solve_move.
    + destruct (hosts s0 !! id) as [h|] eqn:Eh; simplify_eq/=. destruct (decision h) eqn:Ed; solve_move.
    + destruct (hosts s0 !! id) as [h|] eqn:Eh; simplify_eq/=. case_match; simplify_eq. solve_move.
    + destruct acts as [|a acts].
      * simplify_eq/=. eapply Owned_update; [done..| | | |]; simpl; [done| |done|]; naive_solver.
      * pose proof (run_act_pending (key_of request) a s0) as [Hp Hh].
        destruct (run_act (key_of request) a s0) as [more s1]. simplify_eq/=. rewrite Hp, Hh. solve_move.
    + eapply Owned_update; [done..| | | |]; simpl; intros h Hh; [|lia|done|lia].
      by rewrite (own_decision _ _ _ H _ _ _ _ _ Ht eq_refl Hh).
    + by eapply Owned_remove.
    + destruct acts as [|a acts].
      * simplify_eq/=. solve_move.
      * pose proof (run_act_pending (key_of request) a s0) as [Hp Hh].
        destruct (run_act (key_of request) a s0) as [more s1]. simplify_eq/=. rewrite Hp, Hh. solve_move.
  - by simplify_eq/=.
  - by simplify_eq/=.
  - by simplify_eq/=.
Qed.

(** ** The log *)

Lemma Logged_new : Logged new_world.
Proof. constructor; simpl; intros *; rewrite ?lookup_empty; try done; by intros ?%not_elem_of_empty. Qed.

(** The sessions' hosts, as far as the owner of [key] cares. *)
Definition sessions_keep (key : HostApprovalKey) (w w' : World) : Prop :=
  (key ∈ session_denied_hosts (service w') → key ∈ session_denied_hosts (service w)) ∧
  (key ∈ session_approved_hosts (service w') →
     key ∈ session_approved_hosts (service w) ∨ synced_in (log w') key).

Lemma approved_by_mono l l' key id : l ⊆ l' → approved_by l key id → approved_by l' key id.
Proof. intros Hl (a & H & Hq). exists a. split; [by apply Hl|done]. Qed.

Lemma approved_session_mono l l' key : l ⊆ l' → approved_session l key → approved_session l' key.
Proof. intros Hl (a & H & Hq). exists a. split; [by apply Hl|done]. Qed.

Lemma approved_as_mono l l' key id d : l ⊆ l' → approved_as l key id d → approved_as l' key id d.
Proof.
  intros Hl [H1 H2]. split; intros H; [eapply approved_by_mono|eapply approved_session_mono]; eauto.
Qed.

Lemma knows_mono key p w w' :
  log w ⊆ log w' → (owns p ≠ None → sessions_keep key w w') → knows key p w → knows key p w'.
Proof.
  intros Hl Hs.
  assert (Ha : ∀ id d, approved_as (log w) key id d → approved_as (log w') key id d).
  { intros id d. by apply approved_as_mono. }
  assert (Hy : synced_in (log w) key → synced_in (log w') key) by (apply Hl).
  destruct p; simpl; try done.
  - intros (H1 & H2 & H3 & H4 & H5). destruct Hs as [Hd Hap]; [done|]. split_and!; auto.
    destruct acts as [|[] acts]; auto. intros [H|H]%Hap; auto.
  - intros [? ?]. auto.
  - intros [? ?]. auto.
Qed.

Lemma Logged_run w t request p p' s l :
  Logged w → tasks w !! t = Some (request, p) → log w ⊆ l →
  let w' := mkWorld s (<[t := (request, p')]> (tasks w)) l in
  (∀ t0 r0 p0 id h d, t ≠ t0 → tasks w !! t0 = Some (r0, p0) → waits p0 = Some id →
     hosts s !! id = Some h → decision h = Some d → is_allow d = true → approved_by l (key_of r0) id) →
  (∀ id h d, waits p' = Some id → hosts s !! id = Some h → decision h = Some d → is_allow d = true →
     approved_by l (key_of request) id) →
  knows (key_of request) p' w' →
  (∀ t0 r0 p0, t ≠ t0 → tasks w !! t0 = Some (r0, p0) → owns p0 ≠ None → sessions_keep (key_of r0) w w') →
  (∀ key, key ∈ session_approved_hosts s → approved_session l key) →
  (∀ key, key ∈ session_approved_hosts s → key ∈ session_denied_hosts s → synced_in l key) →
  Logged w'.
Proof.
  intros H Ht Hl w' Hwait Hwait' Hk Hs Ha Hd. constructor; simpl; [| |done|done].
  - intros t0 r0 p0 id h d [[<- [= <- <-]]|[Hne E]]%lookup_insert_Some; eauto.
  - intros t0 r0 p0 [[<- [= <- <-]]|[Hne E]]%lookup_insert_Some; [done|].
    eapply knows_mono; [done| |by eapply log_knows]. intros Ho. by eapply Hs.
Qed.

(** A step that leaves the shared state alone. *)
Lemma Logged_move w t request p p' l :
  Logged w → tasks w !! t = Some (request, p) → log w ⊆ l →
  (∀ id h d, waits p' = Some id → hosts (service w) !! id = Some h → decision h = Some d → is_allow d = true →
     approved_by l (key_of request) id) →
  knows (key_of request) p' (mkWorld (service w) (<[t := (request, p')]> (tasks w)) l) →
  Logged (mkWorld (service w) (<[t := (request, p')]> (tasks w)) l).
Proof.
  intros H Ht Hl Hw Hk.
  eapply Logged_run; try done.
  - intros. eapply approved_by_mono; [done|]. by eapply log_decided.
  - intros t0 r0 p0 _ _ _. by split; [|left].
  - intros. eapply approved_session_mono; [done|]. by apply (log_approved _ H).
  - intros. by apply Hl, (log_disjoint _ H).
Qed.

(** Owners decide about different hosts. *)
Lemma owner_key w t request p id key :
  owned w → tasks w !! t = Some (request, p) → owns p = Some id →
  pending_host_approvals (service w) !! key = Some id → key = key_of request.
Proof.
  intros H Ht Ho Hp. destruct (own_pending _ _ _ H key id Hp) as (t0 & r0 & p0 & E0 & O0 & <-).
  assert (t = t0) as <- by (by eapply (own_unique _ _ _ H)). congruence.
Qed.

Lemma owners_differ w t t0 request r0 p p0 :
  owned w → tasks w !! t = Some (request, p) → tasks w !! t0 = Some (r0, p0) → t ≠ t0 →
  owns p ≠ None → owns p0 ≠ None → key_of r0 ≠ key_of request.
Proof.
  intros H Ht Ht0 Hne Ho Ho0 Ek.
  destruct (owns p) as [id|] eqn:E; [|done]. destruct (owns p0) as [id0|] eqn:E0; [|done].
  pose proof (own_owner _ _ _ H _ _ _ _ Ht E) as P. pose proof (own_owner _ _ _ H _ _ _ _ Ht0 E0) as P0.
  rewrite Ek, P in P0. simplify_eq. apply Hne. by eapply (own_unique _ _ _ H).
Qed.

(** What an action brings on, and what it does to the hosts of the session. *)
Lemma run_act_sessions key a s more s' :
  run_act key a s = (more, s') →
  (∀ k, k ≠ key → (k ∈ session_denied_hosts s' ↔ k ∈ session_denied_hosts s) ∧
                  (k ∈ session_approved_hosts s' ↔ k ∈ session_approved_hosts s)) ∧
  match a with
  | ForgetDenied => more = [InsertApproved] ∧ (key ∉ session_denied_hosts s') ∧
      session_approved_hosts s' = session_approved_hosts s
  | InsertApproved => more = [] ∧ session_approved_hosts s' = {[key]} ∪ session_approved_hosts s ∧
      session_denied_hosts s' = session_denied_hosts s
  | ForgetApproved => more = [InsertDenied] ∧ (key ∉ session_approved_hosts s') ∧
      session_denied_hosts s' = session_denied_hosts s
  | InsertDenied => more = [] ∧ session_denied_hosts s' = {[key]} ∪ session_denied_hosts s ∧
      session_approved_hosts s' = session_approved_hosts s
  | RecordCall _ _ | CancelToken _ | RecordSingle _ => Forall records more ∧
      session_denied_hosts s' = session_denied_hosts s ∧ session_approved_hosts s' = session_approved_hosts s
  end.
Proof.
  assert (Hin : ∀ (X : gset HostApprovalKey) k, k ≠ key → k ∈ {[key]} ∪ X ↔ k ∈ X).
  { intros X k Hk. rewrite elem_of_union, elem_of_singleton. naive_solver. }
  assert (Hout : ∀ (X : gset HostApprovalKey) k, k ≠ key → k ∈ X ∖ {[key]} ↔ k ∈ X).
  { intros X k Hk. rewrite elem_of_difference, elem_of_singleton. naive_solver. }
  assert (Hgone : ∀ (X : gset HostApprovalKey), key ∉ X ∖ {[key]}).
  { intros X. rewrite elem_of_difference, elem_of_singleton. naive_solver. }
  destruct a; simpl; intros E; [unfold record_call_outcome in E; repeat case_match| |..]; simplify_eq/=;
    (split; [intros k Hk; split; auto; done|]); split_and!; try done; try by repeat constructor.
  unfold record_for. destruct (resolve_single_active_call s'); by repeat constructor.
Qed.

(** An action of the owner of a host. *)
Lemma Logged_act w t request p p' a more s :
  Logged w → owned w → tasks w !! t = Some (request, p) →
  waits p' = None → run_act (key_of request) a (service w) = (more, s) →
  (owns p ≠ None ∨ records a) → 
  (a = InsertApproved → approved_session (log w) (key_of request) ∧ (key_of request ∉ session_denied_hosts (service w))) →
  (a = InsertDenied → key_of request ∈ session_approved_hosts (service w) → synced_in (log w) (key_of request)) →
  knows (key_of request) p' (mkWorld s (<[t := (request, p')]> (tasks w)) (log w)) →
  Logged (mkWorld s (<[t := (request, p')]> (tasks w)) (log w)).
Proof.
  intros H Ho Ht Hw Hr Hown Hins Hden Hk. set (key := key_of request) in *.
  pose proof (run_act_pending key a (service w)) as [_ Hh]. rewrite Hr in Hh. simpl in Hh.
  destruct (run_act_sessions key a (service w) more s Hr) as [Hother Ha].
  assert (Hrec : records a → session_denied_hosts s = session_denied_hosts (service w) ∧
                             session_approved_hosts s = session_approved_hosts (service w)).
  { by destruct a; try done; destruct Ha as (_ & ? & ?). }
  assert (Hsub : ∀ k, k ∈ session_approved_hosts s → k ≠ key ∨ a ≠ InsertApproved →
    k ∈ session_approved_hosts (service w)).
  { intros k Hin Hc. destruct (decide (k = key)) as [->|Hne]; [|by apply Hother].
    destruct Hc as [?|Hc]; [done|]. destruct a; try done; destruct Ha as (_ & H1 & H2); congruence. }
  eapply Logged_run; [done|done|done| | |done| | |].
  - intros t0 r0 p0 id h d Hne E W Eh Hd Hal. rewrite Hh in Eh. by eapply log_decided.
  - intros id h d W. congruence.
  - intros t0 r0 p0 Hne E O0. unfold sessions_keep. simpl. destruct Hown as [Hown|Hr'].
    + assert (key_of r0 ≠ key) by (by eapply owners_differ). split; [by apply Hother|]. left. by apply Hother.
    + destruct (Hrec Hr') as [-> ->]. auto.
  - intros k Hin. assert (a = InsertApproved ∨ a ≠ InsertApproved) as [->|Hna]
      by (destruct a; first [by left|by right]).
    + destruct (decide (k = key)) as [->|Hne]; [by apply Hins|]. by apply (log_approved _ H), Hsub; [|left].
    + by apply (log_approved _ H), Hsub; [|right].
  - intros k Hin Hdn. destruct (decide (k = key)) as [->|Hne].
    + destruct a; try (destruct Hrec as [E1 E2]; [done|]; rewrite E1 in Hdn; rewrite E2 in Hin;
        by apply (log_disjoint _ H)); destruct Ha as (_ & H1 & H2).
      * done.
      * exfalso. rewrite H2 in Hdn. by apply Hins.
      * done.
      * rewrite H2 in Hin. by apply Hden.
    + apply (log_disjoint _ H); by apply Hother.
Qed.

Lemma resolve_review_acts guardian owner_call answer message timeout acts d :
  resolve_review guardian owner_call answer message timeout = (acts, d) →
  Forall (act_ok d) acts ∧ Forall first_act acts ∧
  match acts with InsertApproved :: _ | InsertDenied :: _ => False | _ => True end.
Proof.
  unfold resolve_review, record_for. intros E.
  destruct answer as [| | |host []| | |], owner_call; simplify_eq/=; by repeat constructor.
Qed.

Lemma context_allows_idem ctx c : context_allows ctx = Some c → context_allows (Some c) = Some c.
Proof.
  destruct ctx as [c'|]; [|done]. intros E. assert (c' = c) as ->; [|done].
  unfold context_allows in E. simpl in E. repeat case_match; by simplify_eq.
Qed.

(** The owner sets the answer: those who wait learn only what was approved. *)
Lemma Logged_set w t request id d after :
  Logged w → owned w → tasks w !! t = Some (request, OwnBefore id [] d after) →
  Logged (mkWorld (set_decision id d (service w)) (<[t := (request, OwnNotify id d after)]> (tasks w)) (log w)).
Proof.
  intros H Ho Ht. destruct (log_knows _ H _ _ _ Ht) as (Hall & _ & _ & _ & Hrec).
  eapply Logged_run; try done.
  - intros t0 r0 p0 id0 h0 d0 Hne E W Eh Hd Hal. simpl in Eh.
    destruct (decide (id0 = id)) as [->|Hid]; [|rewrite list_lookup_alter_ne in Eh by done; by eapply log_decided].
    rewrite list_lookup_alter_eq in Eh. apply fmap_Some in Eh as (h & Eh & ->). simplify_eq/=.
    assert (Hnone : decision h = None) by (by rewrite (own_decision _ _ _ Ho _ _ _ _ _ Ht eq_refl Eh)).
    pose proof (own_waiting _ _ _ Ho _ _ _ _ _ E W Eh Hnone) as Hp.
    rewrite (owner_key w t request _ id (key_of r0) Ho Ht eq_refl Hp). by apply Hall.
  - intros t0 r0 p0 _ _ _. by split; [|left].
  - apply (log_approved _ H).
  - apply (log_disjoint _ H).
Qed.

(** Notifying and removing do not change any answer. *)
Lemma Logged_keep w t request p p' s :
  Logged w → tasks w !! t = Some (request, p) → waits p' = None →
  session_approved_hosts s = session_approved_hosts (service w) →
  session_denied_hosts s = session_denied_hosts (service w) →
  (∀ id h d, hosts s !! id = Some h → decision h = Some d →
     ∃ h', hosts (service w) !! id = Some h' ∧ decision h' = Some d) →
  knows (key_of request) p' (mkWorld s (<[t := (request, p')]> (tasks w)) (log w)) →
  Logged (mkWorld s (<[t := (request, p')]> (tasks w)) (log w)).
Proof.
  intros H Ht Hw Ea Ed Hh Hk. eapply Logged_run; try done.
  - intros t0 r0 p0 id h d Hne E W Eh Hd Hal. destruct (Hh id h d Eh Hd) as (h' & ? & ?).
    by eapply log_decided.
  - intros id h d W. congruence.
  - intros t0 r0 p0 _ _ _. unfold sessions_keep. simpl. rewrite Ea, Ed. by split; [|left].
  - rewrite Ea. apply (log_approved _ H).
  - rewrite Ea, Ed. apply (log_disjoint _ H).
Qed.

(** A new waiter finds only answers that were approved. *)
Lemma pending_answer w key id h d :
  Logged w → owned w → pending_host_approvals (service w) !! key = Some id →
  hosts (service w) !! id = Some h → decision h = Some d → is_allow d = true → approved_by (log w) key id.
Proof.
  intros H Ho Hp Hh Hd Ha. destruct (own_pending _ _ _ Ho key id Hp) as (t & r & p & E & O & <-).
  pose proof (own_decision _ _ _ Ho _ _ _ _ _ E O Hh) as Hann. pose proof (log_knows _ H _ _ _ E) as Hk.
  rewrite Hd in Hann. destruct p; try done; simpl in *; simplify_eq; by apply Hk.
Qed.

Lemma knows_act w s t request id a more acts d after :
  run_act (key_of request) a (service w) = (more, s) →
  knows (key_of request) (OwnBefore id (a :: acts) d after) w →
  knows (key_of request) (OwnBefore id (more ++ acts) d after)
    (mkWorld s (<[t := (request, OwnBefore id (more ++ acts) d after)]> (tasks w)) (log w)).
Proof.
  intros Hr (Hall & Hok & Hfirst & _ & Hrec). simpl in Hfirst.
  apply Forall_cons in Hok as [Ha Hok].
  pose proof (run_act_sessions _ _ _ _ _ Hr) as [_ Hs].
  assert (Hplain : Forall records more →
    Forall (act_ok d) (more ++ acts) ∧ Forall first_act (tail (more ++ acts)) ∧
    match more ++ acts with InsertApproved :: _ | InsertDenied :: _ => False | _ => True end).
  { intros Hm. split_and!.
    - apply Forall_app. split; [|done]. eapply Forall_impl; [exact Hm|]. by intros [].
    - apply Forall_tail, Forall_app. split; [|done]. eapply Forall_impl; [exact Hm|]. by intros [].
    - destruct Hm as [|b more Hb]; simpl; [|by destruct b]. destruct Hfirst as [|b acts Hb]; [done|].
      by destruct b. }
  assert (Hhead : ∀ P Q : Prop,
    match more ++ acts with InsertApproved :: _ | InsertDenied :: _ => False | _ => True end →
    match more ++ acts with InsertApproved :: _ => P | InsertDenied :: _ => Q | _ => True end).
  { intros P Q. destruct (more ++ acts) as [|[] l]; done. }
  unfold knows. cbn [log service]. split; [done|].
  destruct a; simpl in Hs; try (destruct Hs as (Hm & _);
    destruct (Hplain Hm) as (? & ? & ?); split_and!; [done|done|by apply Hhead|done]);
    destruct Hs as (-> & H1 & H2); simpl; split_and!; try done; try (by repeat constructor).
  - by apply Forall_tail.
  - by destruct Hfirst as [|[] ? ?].
  - by apply Forall_tail.
  - by destruct Hfirst as [|[] ? ?].
Qed.

Lemma log_cons {A} (x : A) l : l ⊆ x :: l.
Proof. intros y Hy. by right. Qed.

Lemma step_run_logged w t request p i p' s :
  Logged w → owned w → tasks w !! t = Some (request, p) → run_step request p i (service w) = Some (p', s) →
  Logged (mkWorld s (<[t := (request, p')]> (tasks w)) (log_approval (key_of request) (approval_of p i) (log w))).
Proof.
  intros H Ho Ht Hr. pose proof (log_knows _ H _ _ _ Ht) as Hk.
  assert (Hhere : ∀ a id, question a = Some id → approved_by ((key_of request, a) :: log w) (key_of request) id).
  { intros a id Hq. exists a. split; [left|done]. }
  assert (Hses : ∀ a, for_session a = true → approved_session ((key_of request, a) :: log w) (key_of request)).
  { intros a Hq. exists a. split; [left|done]. }
  unfold run_step in Hr. destruct p, i; try done; simpl in *; try by destruct acts.
  - simplify_eq/=. apply Logged_move with CheckDenied; try done; by case_match.
  - simplify_eq/=. apply Logged_move with CheckApproved; try done; case_match; done.
  - unfold get_or_create_pending_approval in Hr.
    destruct (pending_host_approvals (service w) !! key_of request) as [id|] eqn:Ep; simplify_eq/=.
    + apply Logged_move with GetPending; try done. intros id0 h d [= <-] Hh Hd Ha. by eapply pending_answer.
    + eapply Logged_keep; try done. intros id h d Hh Hd. simpl in Hh.
      apply lookup_app_Some in Hh as [Hh|[_ Hh]]; [by exists h|].
      apply list_lookup_singleton_Some in Hh as [_ <-]. done.
  - destruct (hosts (service w) !! id) as [h|] eqn:Eh; simplify_eq/=.
    apply Logged_move with (WaitNotified id); try done. intros. by eapply log_decided.
  - destruct (hosts (service w) !! id) as [h|] eqn:Eh; simplify_eq/=.
    apply Logged_move with (WaitCheck id seen); try done; destruct (decision h) as [d|] eqn:Ed; try done.
    intros id0 h0 d0 [= <-]. congruence.
  - destruct (hosts (service w) !! id) as [h|] eqn:Eh; simplify_eq/=. case_match; simplify_eq.
    apply Logged_move with (WaitNotify id seen); try done. intros. by eapply log_decided.
  - simplify_eq/=. apply Logged_move with (OwnContext id); try done; destruct (context_allows ctx) eqn:E; try done.
    + by eapply context_allows_idem.
    + simpl. split_and!; try done; by repeat constructor.
  - simplify_eq/=. by apply Logged_move with (OwnCall id ctx).
  - simplify_eq/=. apply Logged_move with (OwnHooks id ctx owner_call); try done;
      destruct answer as [[|message]|]; try done; simpl; try apply log_cons.
    + split_and!; try (by repeat constructor). split; [|done]. intros _. by apply Hhere.
    + unfold record_for. destruct owner_call; simpl; split_and!; try done; by repeat constructor.
  - destruct (resolve_review _ _ _ _ _) as [acts d] eqn:E. simplify_eq/=.
    destruct (resolve_review_acts _ _ _ _ _ _ _ E) as (H1 & H2 & H3).
    apply Logged_move with (OwnReview id ctx owner_call); try done.
    + destruct (is_allow d); simpl; [apply log_cons|done].
    + simpl. split_and!; [|done|by apply Forall_tail| |done].
      * split; intros Hd; rewrite ?Hd; simpl.
        { by apply Hhere. }
        { subst d. simpl. apply Hses. by destruct answer as [| | |host []| | |]. }
      * destruct acts as [|[] ?]; done.
  - destruct acts as [|a acts]; [simplify_eq/=; by apply Logged_set|].
    destruct (run_act (key_of request) a (service w)) as [more s1] eqn:Ea. simplify_eq/=.
    destruct Hk as (Hall & Hok & Hfirst & Hhead & Hrec).
    eapply Logged_act; try done; [by left| | |].
    + intros ->. apply Forall_cons in Hok as [Hd _]. simpl in Hd. subst d. split; [by apply Hall|done].
    + by intros ->.
    + by apply (knows_act w s t request id a).
  - simplify_eq/=. eapply Logged_keep; try done. intros id0 h0 d0 Hh Hd. simpl in Hh.
    destruct (decide (id0 = id)) as [->|Hid].
    + rewrite list_lookup_alter_eq in Hh. apply fmap_Some in Hh as (h & ? & ->). by exists h.
    + rewrite list_lookup_alter_ne in Hh by done. by exists h0.
  - simplify_eq/=. eapply Logged_keep; try done; [intros id0 h0 d0 Hh Hd; by exists h0|by destruct Hk].
  - destruct acts as [|a acts]; [simplify_eq/=; apply Logged_move with (OwnAfter [] d); try done|].
    destruct (run_act (key_of request) a (service w)) as [more s1] eqn:Ea. simplify_eq/=.
      apply Forall_cons in Hk as [Ha Hrec].
      eapply Logged_act; try done; [by right|by intros ->|by intros ->|].
      simpl. apply Forall_app. split; [|done].
      pose proof (run_act_sessions _ _ _ _ _ Ea) as [_ Hs]. by destruct a; try done; destruct Hs as (? & _).
Qed.

Lemma step_logged w t a w' : owned w → Logged w → step t a w = Some w' → Logged w'.
Proof.
  intros Ho H Hs.
  destruct a as [request|request blocked|i|rid turn command|rid|source]; simpl in Hs.
  - case_match eqn:Ht; simplify_eq/=. constructor; simpl; [| |apply (log_approved _ H)|apply (log_disjoint _ H)].
    + intros t0 r0 p0 id h d [[<- [= <- <-]]|[Hne E]]%lookup_insert_Some; [done|]. by eapply log_decided.
    + intros t0 r0 p0 [[<- [= <- <-]]|[Hne E]]%lookup_insert_Some; [done|].
      eapply (knows_mono _ _ w); [done| |by eapply log_knows]. by split; [|left].
  - case_match eqn:Ht; simplify_eq/=. unfold record_blocked_request in Hs.
    destruct (denied_network_policy_message blocked); simplify_eq/=.
    constructor; simpl; [| |apply (log_approved _ H)|apply (log_disjoint _ H)].
    + intros t0 r0 p0 id h d [[<- [= <- <-]]|[Hne E]]%lookup_insert_Some; [done|]. by eapply log_decided.
    + intros t0 r0 p0 [[<- [= <- <-]]|[Hne E]]%lookup_insert_Some; [by repeat constructor|].
      eapply (knows_mono _ _ w); [done| |by eapply log_knows]. by split; [|left].
  - destruct (tasks w !! t) as [[request p]|] eqn:Ht; [|done].
    destruct (run_step request p i (service w)) as [[p' s]|] eqn:Hr; simplify_eq/=. by apply step_run_logged.
  - simplify_eq/=. by destruct H as [H1 H2 H3 H4].
  - simplify_eq/=. by destruct H as [H1 H2 H3 H4].
  - simplify_eq/=.
    set (new := map (λ key, (key, BySync)) (elements (session_approved_hosts source))).
    assert (Hin : ∀ key, key ∈ session_approved_hosts source → synced_in (new ++ log w) key).
    { intros key Hk. apply elem_of_app. left. apply list_elem_of_fmap. exists key.
      split; [done|]. by apply elem_of_elements. }
    constructor; simpl.
    + intros t0 r0 p0 id h d E W Hh Hd Ha. eapply approved_by_mono; [|by eapply log_decided].
      intros x Hx. apply elem_of_app. by right.
    + intros t0 r0 p0 E. eapply (knows_mono _ _ w); [| |by eapply log_knows].
      * intros x Hx. apply elem_of_app. by right.
      * intros _. split; simpl; [done|]. intros Hk. right. by apply Hin.
    + intros key Hk. exists BySync. split; [by apply Hin|done].
    + intros key Hk _. by apply Hin.
Qed.

Lemma reachable_invariant w : reachable w → owned w ∧ Logged w.
Proof.
  induction 1 as [|w t a w' _ [IHo IHl] Hs]; [split; [apply Owned_new|apply Logged_new]|].
  split; [by eapply step_owned|by eapply step_logged].
Qed.

(** ** What holds *)

Definition review_approves (answer : ReviewDecision) : bool :=
  match answer with
  | Approved | ApprovedExecpolicyAmendment _ | ApprovedForSession | NetworkPolicyAmendment _ ActionAllow => true
  | NetworkPolicyAmendment _ ActionDeny | Denied | TimedOut | Abort => false
  end.

(** The approval came from a hook or a reviewer, in a turn with a managed
    profile and settings that let the agent ask; or from another session. *)
Definition approval_valid (a : Approval) : Prop :=
  match a with
  | ByHook _ ctx => context_allows (Some ctx) = Some ctx
  | ByReview _ ctx answer => context_allows (Some ctx) = Some ctx ∧ review_approves answer = true
  | BySync => True
  end.

Lemma resolve_review_allow guardian owner_call answer message timeout :
  is_allow (snd (resolve_review guardian owner_call answer message timeout)) = review_approves answer.
Proof. by destruct answer as [| | |host []| | |]. Qed.

Lemma log_valid w key a : reachable w → (key, a) ∈ log w → approval_valid a.
Proof.
  intros Hr. induction Hr as [|w t act w' Hr IH Hs]; [by intros ?%elem_of_nil|].
  destruct (reachable_invariant w Hr) as [_ Hl].
  destruct act as [request|request blocked|i|rid turn command|rid|source]; simpl in Hs.
  - case_match; by simplify_eq/=.
  - case_match; [done|]. destruct (record_blocked_request blocked); by simplify_eq/=.
  - destruct (tasks w !! t) as [[request p]|] eqn:Ht; [|done].
    destruct (run_step request p i (service w)) as [[p' s]|] eqn:E; simplify_eq/=.
    unfold log_approval. destruct (approval_of p i) as [b|] eqn:Eb; [|done].
    intros [[= -> ->]|Hin]%elem_of_cons; [|by apply IH].
    pose proof (log_knows _ Hl _ _ _ Ht) as Hk.
    destruct p, i as [|?|[[]|]|answer message timeout]; simplify_eq/=; [done|].
    rewrite resolve_review_allow in Eb. destruct (review_approves answer) eqn:Ea; by simplify_eq/=.
  - by simplify_eq/=.
  - by simplify_eq/=.
  - simplify_eq/=. intros [(k & [= -> ->] & _)%list_elem_of_fmap|Hin]%elem_of_app; [done|by apply IH].
Qed.

Lemma exec_stays_reachable sched w w' : reachable w → exec sched w = Some w' → reachable w'.
Proof.
  revert w. induction sched as [|[t a] sched IH]; simpl; intros w Hr E; [by simplify_eq|].
  destruct (step t a w) as [w1|] eqn:E1; [|done]. eapply IH; [|done]. by eapply reach_step.
Qed.

(** A run keeps the log, and forgets no question that was put. *)
Lemma step_log t a w w' : step t a w = Some w' → log w ⊆ log w'.
Proof.
  destruct a as [request|request blocked|i|rid turn command|rid|source]; simpl; intros E.
  - case_match; by simplify_eq/=.
  - case_match; [done|]. destruct (record_blocked_request blocked); by simplify_eq/=.
  - destruct (tasks w !! t) as [[request p]|]; [|done].
    destruct (run_step _ _ _ _) as [[p' s]|]; simplify_eq/=. unfold log_approval.
    destruct (approval_of p i); [apply log_cons|done].
  - by simplify_eq/=.
  - by simplify_eq/=.
  - simplify_eq/=. intros x Hx. apply elem_of_app. by right.
Qed.

(** A question that was open when the request came, or was put later. *)
Definition open_since (w0 : World) (key : HostApprovalKey) (id : nat) : Prop :=
  pending_host_approvals (service w0) !! key = Some id ∨ length (hosts (service w0)) ≤ id.

(** What is pending later was pending or is new. *)
Definition pending_since (w0 w : World) : Prop :=
  length (hosts (service w0)) ≤ length (hosts (service w)) ∧
  ∀ key id, pending_host_approvals (service w) !! key = Some id → open_since w0 key id.

Lemma pending_since_refl w : pending_since w w.
Proof. split; [done|]. intros key id. by left. Qed.

Lemma pending_since_keep w0 w s ts l :
  pending_host_approvals s = pending_host_approvals (service w) → length (hosts s) = length (hosts (service w)) →
  pending_since w0 w → pending_since w0 (mkWorld s ts l).
Proof. intros Ep Eh [H1 H2]. split; simpl; [by rewrite Eh|by rewrite Ep]. Qed.

Lemma run_step_pending w0 request p i w p' s ts l :
  run_step request p i (service w) = Some (p', s) → pending_since w0 w → pending_since w0 (mkWorld s ts l).
Proof.
  intros Hr Hp. unfold run_step in Hr. destruct p, i; try done; simpl in Hr; try (by destruct acts);
    try solve [repeat case_match; simplify_eq/=; apply (pending_since_keep _ w); simpl; rewrite ?length_alter; done].
  - unfold get_or_create_pending_approval in Hr.
    destruct (pending_host_approvals (service w) !! key_of request) as [id|] eqn:Ep; simplify_eq/=;
      [by eapply pending_since_keep|].
    destruct Hp as [H1 H2]. split; simpl; [rewrite length_app; lia|].
    intros key id [[<- <-]|[_ E]]%lookup_insert_Some; [by right|auto].
  - destruct (hosts (service w) !! id); simplify_eq/=. by eapply pending_since_keep.
  - destruct (hosts (service w) !! id); simplify_eq/=. by eapply pending_since_keep.
  - destruct (hosts (service w) !! id); simplify_eq/=. case_match; simplify_eq. by eapply pending_since_keep.
  - destruct acts as [|a acts].
  { simplify_eq/=. apply (pending_since_keep _ w); simpl; rewrite ?length_alter; done. }
    pose proof (run_act_pending (key_of request) a (service w)) as [Ep Eh].
    destruct (run_act _ a _) as [more s1]. simplify_eq/=. by eapply pending_since_keep; [|rewrite Eh|].
  - simplify_eq/=. destruct Hp as [H1 H2]. split; simpl; [done|]. intros key id0 [_ E]%lookup_delete_Some. auto.
  - destruct acts as [|a acts]; [simplify_eq/=; by eapply pending_since_keep|].
    pose proof (run_act_pending (key_of request) a (service w)) as [Ep Eh].
    destruct (run_act _ a _) as [more s1]. simplify_eq/=. by eapply pending_since_keep; [|rewrite Eh|].
Qed.

Lemma step_pending w0 t a w w' : step t a w = Some w' → pending_since w0 w → pending_since w0 w'.
Proof.
  destruct a as [request|request blocked|i|rid turn command|rid|source]; simpl; intros E Hp;
    try (simplify_eq/=; by eapply pending_since_keep).
  - case_match; simplify_eq/=. by eapply pending_since_keep.
  - case_match; [done|]. destruct (record_blocked_request blocked); simplify_eq/=. by eapply pending_since_keep.
  - destruct (tasks w !! t) as [[request p]|]; [|done].
    destruct (run_step request p i (service w)) as [[p' s]|] eqn:Hr; simplify_eq/=. by eapply run_step_pending.
Qed.
(** The host of a request was approved for the session, or in answer to a
    question that was open when the request came or was put later. *)
Definition let_through (w0 : World) (key : HostApprovalKey) (l : list (HostApprovalKey * Approval)) : Prop :=
  approved_session l key ∨ ∃ id, open_since w0 key id ∧ approved_by l key id.

(** What a task that came at [w0] knows of the questions since. *)
Definition knows_since (w0 : World) (key : HostApprovalKey) (p : pc) (l : list (HostApprovalKey * Approval)) : Prop :=
  (∀ id, owns p = Some id ∨ waits p = Some id → open_since w0 key id) ∧
  match p with
  | OwnAfter _ d => is_allow d = true → let_through w0 key l
  | Returned NetworkAllow => let_through w0 key l
  | _ => True
  end.

Lemma let_through_mono w0 key l l' : l ⊆ l' → let_through w0 key l → let_through w0 key l'.
Proof.
  intros Hl [H|(id & H1 & H2)]; [left; by eapply approved_session_mono|right; exists id].
  split; [done|by eapply approved_by_mono].
Qed.

Lemma knows_since_mono w0 key p l l' : l ⊆ l' → knows_since w0 key p l → knows_since w0 key p l'.
Proof.
  intros Hl [H1 H2]. split; [done|].
  destruct p as [| | | | | | | | | | | | |acts d|[]]; auto; [intros Ha|]; (eapply let_through_mono; [exact Hl|]); auto.
Qed.

(** A step of the task itself. *)
Lemma run_since w0 w t request p i p' s :
  owned w → Logged w → pending_since w0 w → tasks w !! t = Some (request, p) →
  run_step request p i (service w) = Some (p', s) →
  knows_since w0 (key_of request) p (log w) → knows_since w0 (key_of request) p' (log w).
Proof.
  intros Ho Hl [Hlen Hpend] Ht Hr [Hid Hk]. pose proof (log_knows _ Hl _ _ _ Ht) as Hown.
  assert (Hsame : ∀ id, owns p = Some id ∨ waits p = Some id → open_since w0 (key_of request) id) by done.
  unfold run_step in Hr. destruct p, i; try done; simpl in Hr, Hk; try (by destruct acts);
    try solve [simplify_eq/=; repeat case_match; simplify_eq/=; split; [intros ? [[= <-]|[= <-]]; eauto|done]].
  - simplify_eq/=. case_decide; (split; [by intros ? [|]|done]).
  - simplify_eq/=. case_decide; (split; [by intros ? [|]|]); simpl; [|done]. left. by apply (log_approved _ Hl).
  - unfold get_or_create_pending_approval in Hr.
    destruct (pending_host_approvals (service w) !! key_of request) as [id|] eqn:Ep; simplify_eq/=;
      (split; [|done]); intros id0 [[= <-]|[= <-]]; [by apply Hpend|right; done].
  - destruct (hosts (service w) !! id) as [h|]; simplify_eq/=. split; [|done]. intros ? [[= <-]|[= <-]]. auto.
  - destruct (hosts (service w) !! id) as [h|] eqn:Eh; simplify_eq/=.
    destruct (decision h) as [d|] eqn:Ed; [|split; [|done]; intros ? [[= <-]|[= <-]]; auto].
    split; [by intros ? [|]|].
    assert (is_allow d = true → let_through w0 (key_of request) (log w)) as Hall.
    { intros Ha. right. exists id. split; [auto|]. by eapply (log_decided _ Hl). }
    destruct d; simpl; auto.
  - destruct (hosts (service w) !! id) as [h|]; simplify_eq/=. case_match; simplify_eq.
    split; [|done]. intros ? [[= <-]|[= <-]]. auto.
  - simplify_eq/=. destruct (context_allows ctx); (split; [|done]); intros ? [[= <-]|[= <-]]; auto.
  - simplify_eq/=. destruct answer as [[|message]|]; (split; [|done]); intros ? [[= <-]|[= <-]]; auto.
  - destruct acts as [|a acts]; [|destruct (run_act (key_of request) a (service w))]; simplify_eq/=;
      (split; [|done]); intros ? [[= <-]|[= <-]]; auto.
  - simplify_eq/=. split; [by intros ? [|]|]. intros Ha. right. exists id. split; [auto|]. by apply Hown.
  - destruct acts as [|a acts]; [|destruct (run_act (key_of request) a (service w))]; simplify_eq/=; (split; [by intros ? [|]|]); [|done].
    destruct d; simpl; auto.
Qed.

(** Other steps leave the task where it is. *)
Lemma step_other w t t' a w' request p :
  tasks w !! t = Some (request, p) → step t' a w = Some w' →
  (t' = t ∧ ∃ i p' s, a = Run i ∧ run_step request p i (service w) = Some (p', s) ∧
     tasks w' !! t = Some (request, p')) ∨
  tasks w' !! t = Some (request, p).
Proof.
  intros Ht Hs.
  destruct a as [request'|request' blocked|i|rid turn command|rid|source]; simpl in Hs;
    try (simplify_eq/=; by right).
  - destruct (tasks w !! t') eqn:E; simplify_eq/=. right. rewrite lookup_insert_ne; [done|]. by intros ->; simplify_eq.
  - destruct (tasks w !! t') eqn:E; [done|]. destruct (record_blocked_request blocked); simplify_eq/=.
    right. rewrite lookup_insert_ne; [done|]. by intros ->; simplify_eq.
  - destruct (tasks w !! t') as [[r q]|] eqn:E; [|done].
    destruct (run_step r q i (service w)) as [[p' s]|] eqn:Hr; simplify_eq/=.
    destruct (decide (t' = t)) as [->|Hne].
    + simplify_eq. left. split; [done|]. exists i, p', s. split_and!; [done|done|apply lookup_insert_eq].
    + right. by rewrite lookup_insert_ne.
Qed.

Lemma exec_since w0 sched w w' t request p :
  reachable w → pending_since w0 w → exec sched w = Some w' → tasks w !! t = Some (request, p) →
  knows_since w0 (key_of request) p (log w) →
  ∃ p', tasks w' !! t = Some (request, p') ∧ knows_since w0 (key_of request) p' (log w').
Proof.
  revert w p. induction sched as [|[t' a] sched IH]; intros w p Hr Hp E Ht Hk; simpl in E.
  { simplify_eq. eauto. }
  destruct (step t' a w) as [w1|] eqn:Hs; [|done]. simpl in E.
  destruct (reachable_invariant w Hr) as [Ho Hl].
  assert (Hr1 : reachable w1) by (by eapply reach_step). assert (Hp1 := step_pending _ _ _ _ _ Hs Hp).
  assert (Hlog := step_log _ _ _ _ Hs).
  destruct (step_other _ _ _ _ _ _ _ Ht Hs) as [(-> & i & p1 & s & -> & Hrun & Ht1)|Ht1].
  - eapply (IH w1 p1); [done..|]. eapply knows_since_mono; [exact Hlog|]. by eapply run_since.
  - eapply (IH w1 p); [done..|]. by eapply knows_since_mono.
Qed.

(** What has returned stays as it is. *)
Lemma returned_stays sched w w' t request d :
  tasks w !! t = Some (request, Returned d) → exec sched w = Some w' → tasks w' !! t = Some (request, Returned d).
Proof.
  revert w. induction sched as [|[t' a] sched IH]; intros w Ht E; simpl in E; [by simplify_eq|].
  destruct (step t' a w) as [w1|] eqn:Hs; [|done]. eapply IH; [|exact E].
  destruct (step_other _ _ _ _ _ _ _ Ht Hs) as [(-> & i & p1 & s & -> & Hrun & Ht1)|Ht1]; [done|exact Ht1].
Qed.

(** The denials of the session are looked at: a request that is let through
    came to a moment at which its host was not denied. *)
Lemma denied_checked sched w w' t request :
  tasks w !! t = Some (request, CheckDenied) → exec sched w = Some w' →
  tasks w' !! t = Some (request, Returned NetworkAllow) →
  ∃ before after wm, sched = before ++ after ∧ exec before w = Some wm ∧
    key_of request ∉ session_denied_hosts (service wm).
Proof.
  revert w. induction sched as [|[t' a] sched IH]; intros w Ht E Ht'; simpl in E; [by simplify_eq|].
  destruct (step t' a w) as [w1|] eqn:Hs; [|done]. simpl in E.
  destruct (step_other _ _ _ _ _ _ _ Ht Hs) as [(-> & i & p1 & s & -> & Hrun & Ht1)|Ht1].
  - destruct (decide (key_of request ∈ session_denied_hosts (service w))) as [Hd|Hd].
    + destruct i; simpl in Hrun; try done. rewrite decide_True in Hrun by done. simplify_eq.
      pose proof (returned_stays _ _ _ _ _ _ Ht1 E) as Hr. rewrite Hr in Ht'. discriminate.
    + by exists [], ((t, Run i) :: sched), w.
  - destruct (IH w1 Ht1 E Ht') as (before & after & wm & -> & Eb & Hd).
    exists ((t', a) :: before), after, wm. split; [done|]. split; [|done]. simpl. by rewrite Hs.
Qed.

(** C12. Network access is let through only after an approval that covers it.
    However the tasks interleave, when a request comes and is later answered
    with access, its host, protocol and port were approved: for the session,
    by a reviewer who said so or by a session the approvals were copied from,
    or in answer to a question that was still open when the request came or
    was put later, so that an approval for one time does not last beyond its
    question.  The approval came from a hook or a reviewer, in a turn with a
    managed profile and an approval policy other than [Never], or from the
    other session; and at some moment since the request came its host was not
    denied for the session. *)
Theorem network_allow_was_approved w0 w1 w t request sched :
  reachable w0 → step t (SpawnRequest request) w0 = Some w1 → exec sched w1 = Some w →
  tasks w !! t = Some (request, Returned NetworkAllow) →
  (∃ a, (key_of request, a) ∈ log w ∧ approval_valid a ∧
     (for_session a = true ∨ ∃ id, question a = Some id ∧ open_since w0 (key_of request) id)) ∧
  ∃ before after wm, sched = before ++ after ∧ exec before w1 = Some wm ∧
    key_of request ∉ session_denied_hosts (service wm).
Proof.
  intros Hr Hs E Ht. assert (Hr1 : reachable w1) by (by eapply reach_step).
  assert (Ht1 : tasks w1 !! t = Some (request, CheckDenied)).
  { simpl in Hs. destruct (tasks w0 !! t); simplify_eq/=. apply lookup_insert_eq. }
  split; [|by eapply denied_checked].
  destruct (exec_since w0 sched w1 w t request CheckDenied Hr1) as (p & Hp & _ & Hk); try done.
  { eapply step_pending; [done|]. apply pending_since_refl. }
  { split; [by intros ? [|]|done]. }
  rewrite Ht in Hp. injection Hp as <-.
  assert (Hrw : reachable w) by (by eapply exec_stays_reachable).
  destruct Hk as [(a & Ha & Hf)|(id & Ho & a & Ha & Hq)]; exists a;
    (split; [done|]); (split; [by eapply log_valid|]); [by left|right; by exists id].
Qed.

(** One question per host: two requests that are put to the hooks, the reviewer
    or the user at the same time are for different hosts, protocols or ports. *)
Theorem one_question_per_host w t t' request request' p p' id id' :
  reachable w → tasks w !! t = Some (request, p) → tasks w !! t' = Some (request', p') →
  owns p = Some id → owns p' = Some id' → t ≠ t' → key_of request ≠ key_of request'.
Proof.
  intros Hr Ht Ht' Ho Ho' Hne Hk. destruct (reachable_invariant w Hr) as [Hown _].
  by apply (owners_differ w t t' request request' p p'); rewrite ?Ho, ?Ho'.
Qed.

(** C13. Nobody waits in vain.  When the task that asked about a host has announced
    the answer and gone on, every task that waits for that answer returns it
    within three steps of its own, whatever the others do: no wakeup is lost. *)
Theorem waiters_return w t request p id :
  reachable w → tasks w !! t = Some (request, p) → waits p = Some id →
  (∀ t' request' p', tasks w !! t' = Some (request', p') → owns p' ≠ Some id) →
  ∃ n h d w', n ≤ 3 ∧ hosts (service w) !! id = Some h ∧ decision h = Some d ∧
    exec (replicate n (t, Run NoInput)) w = Some w' ∧
    tasks w' !! t = Some (request, Returned (to_network_decision d)).
Proof.
  intros Hr Ht Hw Hno. destruct (reachable_invariant w Hr) as [Hown _].
  destruct (own_host _ _ _ Hown _ _ _ _ Ht (or_intror Hw)) as [h Hh].
  assert (∃ d, decision h = Some d) as [d Hd].
  { destruct (decision h) as [d|] eqn:Ed; [by exists d|]. exfalso.
    pose proof (own_waiting _ _ _ Hown _ _ _ _ _ Ht Hw Hh Ed) as Hp.
    destruct (own_pending _ _ _ Hown _ _ Hp) as (t' & r' & p' & E & O & _). by eapply Hno. }
  assert (Hcheck : ∀ ts l seen, ts !! t = Some (request, WaitCheck id seen) →
    step t (Run NoInput) (mkWorld (service w) ts l) =
      Some (mkWorld (service w) (<[t := (request, Returned (to_network_decision d))]> ts) l)).
  { intros ts l seen E. simpl. by rewrite E; simpl; rewrite Hh; simpl; rewrite Hd. }
  assert (Hnotified : ∀ ts l, ts !! t = Some (request, WaitNotified id) →
    step t (Run NoInput) (mkWorld (service w) ts l) =
      Some (mkWorld (service w) (<[t := (request, WaitCheck id (notify h))]> ts) l)).
  { intros ts l E. simpl. by rewrite E; simpl; rewrite Hh. }
  assert (Hwake : ∀ ts l seen, ts !! t = Some (request, WaitNotify id seen) → seen < notify h →
    step t (Run NoInput) (mkWorld (service w) ts l) =
      Some (mkWorld (service w) (<[t := (request, WaitNotified id)]> ts) l)).
  { intros ts l seen E Hlt. simpl. rewrite E. simpl. rewrite Hh. simpl. by rewrite decide_True by done. }
  destruct w as [s ts l]; cbn [service tasks log] in *.
  destruct p; try discriminate Hw; injection Hw as ->.
  - exists 2, h, d, (mkWorld s (<[t := (request, Returned (to_network_decision d))]> (<[t := (request, WaitCheck id (notify h))]> ts)) l).
    split_and!; [lia|done|done| |apply lookup_insert_eq].
    cbn [replicate exec]. rewrite Hnotified by done. cbn [mbind option_bind].
    by erewrite Hcheck by apply lookup_insert_eq.
  - exists 1, h, d, (mkWorld s (<[t := (request, Returned (to_network_decision d))]> ts) l).
    split_and!; [lia|done|done| |apply lookup_insert_eq].
    cbn [replicate exec]. by erewrite Hcheck.
  - assert (Hlt : seen < notify h).
    { pose proof (own_seen _ _ _ Hown _ _ _ _ _ _ Ht (or_intror eq_refl) Hh) as Hle. simpl in Hle.
      destruct (decide (seen = notify h)) as [->|]; [|lia]. exfalso.
      destruct (own_wakeup _ _ _ Hown _ _ _ _ Ht Hh) as (t' & r' & d' & after & E); [by eexists|].
      by eapply Hno. }
    exists 3, h, d, (mkWorld s (<[t := (request, Returned (to_network_decision d))]> (<[t := (request, WaitCheck id (notify h))]> (<[t := (request, WaitNotified id)]> ts))) l).
    split_and!; [lia|done|done| |apply lookup_insert_eq].
    cbn [replicate exec]. erewrite Hwake by done. cbn [mbind option_bind].
    rewrite Hnotified by apply lookup_insert_eq. cbn [mbind option_bind].
    by erewrite Hcheck by apply lookup_insert_eq.
Qed.

(** A host is approved and denied for the session at once only when approvals
    were copied in from another session; a denial then still comes first. *)
Theorem approved_and_denied_only_by_sync w key :
  reachable w → key ∈ session_approved_hosts (service w) → key ∈ session_denied_hosts (service w) →
  (key, BySync) ∈ log w.
Proof. intros Hr. destruct (reachable_invariant w Hr) as [_ Hl]. apply (log_disjoint _ Hl). Qed.

(** What a task can do next, given what it waits for from outside. *)
Definition can_run (w : World) (t : nat) : Prop := ∃ i w', step t (Run i) w = Some w'.
Definition returned (p : pc) : bool := match p with Returned _ => true | _ => false end.

Lemma run_enabled w t request p :
  owned w → tasks w !! t = Some (request, p) → returned p = false →
  can_run w t ∨ ∃ id seen, p = WaitNotify id seen.
Proof.
  intros Hown Ht Hp.
  assert (Hh : ∀ id, waits p = Some id → is_Some (hosts (service w) !! id)).
  { intros id Hw. by eapply (own_host _ _ _ Hown); [done|right]. }
  destruct p; try done; try (left; eexists NoInput, _; simpl; rewrite Ht; reflexivity).
  - left. exists NoInput.
    destruct (get_or_create_pending_approval (key_of request) (service w)) as [[id o] s] eqn:E.
    eexists. simpl. rewrite Ht. simpl. by rewrite E.
  - left. exists NoInput. destruct (Hh id eq_refl) as [h E]. eexists. simpl. rewrite Ht. simpl. by rewrite E.
  - left. exists NoInput. destruct (Hh id eq_refl) as [h E]. eexists. simpl. rewrite Ht. simpl. by rewrite E.
  - right. eauto.
  - left. exists (ContextIs None). eexists. simpl. by rewrite Ht.
  - left. exists (HooksSay None). eexists. simpl. by rewrite Ht.
  - left. exists (ReviewSays Denied [] []). eexists. simpl. by rewrite Ht.
  - left. exists NoInput. destruct acts as [|a acts]; [eexists; simpl; by rewrite Ht|].
    destruct (run_act (key_of request) a (service w)) eqn:E. eexists. simpl. rewrite Ht. simpl. by rewrite E.
  - left. exists NoInput. destruct acts as [|a acts]; [eexists; simpl; by rewrite Ht|].
    destruct (run_act (key_of request) a (service w)) eqn:E. eexists. simpl. rewrite Ht. simpl. by rewrite E.
Qed.

(** The service does not get stuck: while some task has not returned, some
    task can move. *)
Theorem network_approval_progress w t request p :
  reachable w → tasks w !! t = Some (request, p) → returned p = false → ∃ t', can_run w t'.
Proof.
  intros Hr Ht Hp. destruct (reachable_invariant w Hr) as [Hown _].
  destruct (run_enabled w t request p Hown Ht Hp) as [?|(id & seen & ->)]; [by exists t|].
  destruct (own_host _ _ _ Hown _ _ _ _ Ht (or_intror eq_refl)) as [h Hh].
  assert (Hgo : ∀ t' r' p', tasks w !! t' = Some (r', p') → owns p' = Some id → ∃ t', can_run w t').
  { intros t' r' p' E O. exists t'. destruct (run_enabled w t' r' p' Hown E) as [?|(? & ? & ->)];
      [by destruct p'|done|done]. }
  destruct (decision h) as [d|] eqn:Ed.
  - destruct (decide (seen < notify h)) as [Hlt|Hge].
    + exists t, NoInput. eexists. simpl. rewrite Ht. simpl. rewrite Hh. simpl. by rewrite decide_True.
    + pose proof (own_seen _ _ _ Hown _ _ _ _ _ _ Ht (or_intror eq_refl) Hh).
      assert (seen = notify h) as -> by lia.
      destruct (own_wakeup _ _ _ Hown _ _ _ _ Ht Hh) as (t' & r' & d' & after & E); [by eexists|].
      by apply (Hgo _ _ _ E).
  - pose proof (own_waiting _ _ _ Hown _ _ _ _ _ Ht eq_refl Hh Ed) as Hpend.
    destruct (own_pending _ _ _ Hown _ _ Hpend) as (t' & r' & p' & E & O & _). by eapply Hgo.
Qed.

(** An answer that was announced is never changed: all who wait for it get the
    same one. *)
Theorem decision_is_final w t a w' id h d :
  reachable w → step t a w = Some w' → hosts (service w) !! id = Some h → decision h = Some d →
  ∃ h', hosts (service w') !! id = Some h' ∧ decision h' = Some d.
Proof.
  intros Hr Hs Hh Hd. destruct (reachable_invariant w Hr) as [Hown _].
  destruct a as [request|request blocked|i|rid turn command|rid|source]; simpl in Hs;
    try (simplify_eq/=; by exists h).
  - case_match; simplify_eq/=. by exists h.
  - case_match; [done|]. destruct (record_blocked_request blocked); simplify_eq/=. by exists h.
  - destruct (tasks w !! t) as [[request p]|] eqn:Ht; [|done].
    destruct (run_step request p i (service w)) as [[p' s]|] eqn:E; simplify_eq/=.
    assert (Hact : ∀ b more s1, run_act (key_of request) b (service w) = (more, s1) → hosts s1 = hosts (service w)).
    { intros b more s1 Eb. pose proof (run_act_pending (key_of request) b (service w)) as [_ H]. by rewrite Eb in H. }
    unfold run_step in E. destruct p, i; try done; simpl in *; try (by destruct acts);
      try (repeat case_match; simplify_eq/=; by exists h).
    + unfold get_or_create_pending_approval in E.
      destruct (pending_host_approvals (service w) !! key_of request); simplify_eq/=; [by exists h|].
      exists h. split; [|done]. by apply lookup_app_l_Some.
    + destruct (hosts (service w) !! id0); simplify_eq/=. by exists h.
    + destruct (hosts (service w) !! id0); simplify_eq/=. by exists h.
    + destruct (hosts (service w) !! id0); simplify_eq/=. case_match; simplify_eq. by exists h.
    + destruct acts as [|b acts].
      * simplify_eq/=. destruct (decide (id0 = id)) as [->|Hne].
        { pose proof (own_decision _ _ _ Hown _ _ _ _ _ Ht eq_refl Hh) as Hn. rewrite Hd in Hn. done. }
        exists h. by rewrite list_lookup_alter_ne.
      * destruct (run_act _ b _) as [more s1] eqn:Eb. simplify_eq/=. rewrite (Hact _ _ _ Eb). by exists h.
    + simplify_eq/=. destruct (decide (id0 = id)) as [->|Hne].
      * rewrite list_lookup_alter_eq, Hh. simpl. eexists. by split.
      * exists h. by rewrite list_lookup_alter_ne.
    + destruct acts as [|b acts]; [simplify_eq/=; by exists h|].
      destruct (run_act _ b _) as [more s1] eqn:Eb. simplify_eq/=. rewrite (Hact _ _ _ Eb). by exists h.
Qed.

(** ** Calls and their outcomes *)

Section index_map.
Context {V : Type}.
Implicit Types (l : list (str * V)) (k : str).

Lemma index_get_insert k v l k' :
  index_get k' (index_insert k v l) = if decide (k' = k) then Some v else index_get k' l.
Proof.
  induction l as [|[k0 v0] l IH]; simpl; [by repeat case_decide|].
  destruct (decide (k = k0)) as [->|Hne]; simpl; repeat case_decide; try congruence.
Qed.

Lemma index_get_remove k l k' :
  index_get k' (shift_remove k l) = if decide (k' = k) then None else index_get k' l.
Proof.
  induction l as [|[k0 v0] l IH]; simpl; [by case_decide|].
  unfold shift_remove in *. simpl. rewrite bool_decide_decide.
  destruct (decide (k0 = k)) as [->|Hne]; simpl; rewrite ?IH; repeat case_decide; congruence.
Qed.
End index_map.

(** Only calls that are under way have an outcome. *)
Definition outcomes_active (s : NetworkApprovalService) : Prop :=
  ∀ rid o, call_outcomes s !! rid = Some o → is_Some (index_get rid (active_calls s)).

Lemma register_outcomes rid turn command s : outcomes_active s → outcomes_active (register_call rid turn command s).
Proof.
  intros H rid' o Ho. simpl in *. rewrite index_get_insert. case_decide; [done|]. by eapply H.
Qed.

Lemma remove_outcomes rid s : outcomes_active s → outcomes_active (snd (remove_call rid s)).
Proof.
  intros H rid' o Ho. simpl in Ho. apply lookup_delete_Some in Ho as [Hne Ho]. simpl. rewrite index_get_remove, decide_False by done.
  by eapply H.
Qed.

Lemma record_outcomes rid o s : outcomes_active s → outcomes_active (snd (record_call_outcome rid o s)).
Proof.
  intros H. unfold record_call_outcome. destruct (index_get rid (active_calls s)) as [c|] eqn:E; [|done].
  assert (outcomes_active (set_calls (active_calls s) (<[rid := o]> (call_outcomes s)) s)).
  { intros rid' o' Ho. simpl in Ho.
    apply lookup_insert_Some in Ho as [[<- <-]|[Hne Ho]]; simpl; [by rewrite E|by eapply H]. }
  by destruct (call_outcomes s !! rid) as [[|]|].
Qed.

Lemma run_act_outcomes key a s : outcomes_active s → outcomes_active (snd (run_act key a s)).
Proof.
  intros H. destruct a; simpl; try done. pose proof (record_outcomes registration_id outcome s H).
  by destruct (record_call_outcome registration_id outcome s).
Qed.

Lemma run_step_outcomes request p i s p' s' :
  run_step request p i s = Some (p', s') → outcomes_active s → outcomes_active s'.
Proof.
  intros E H. unfold run_step in E. destruct p, i; try done; simpl in E; try (by destruct acts);
    try (simplify_eq/=; by repeat case_match);
    try (destruct (hosts s !! id); simplify_eq/=; by repeat case_match; simplify_eq).
  - unfold get_or_create_pending_approval in E.
    by destruct (pending_host_approvals s !! key_of request); simplify_eq/=.
  - destruct acts as [|a acts]; [by simplify_eq/=|].
    pose proof (run_act_outcomes (key_of request) a s H). by destruct (run_act _ a s); simplify_eq/=.
  - destruct acts as [|a acts]; [by simplify_eq/=|].
    pose proof (run_act_outcomes (key_of request) a s H). by destruct (run_act _ a s); simplify_eq/=.
Qed.

(** Outcomes are kept for the calls that are under way and no others; a refusal
    by the user is not replaced by a later one; and the end of the call reports
    the outcome and forgets it. *)
Theorem call_outcomes_kept w :
  reachable w →
  outcomes_active (service w) ∧
  (∀ rid o, call_outcomes (service w) !! rid = Some DeniedByUser →
     record_call_outcome rid o (service w) = (false, service w)) ∧
  ∀ rid, let (outcome, s) := finish_call_outcome rid (service w) in
     outcome = call_outcomes (service w) !! rid ∧ call_outcomes s !! rid = None ∧
     index_get rid (active_calls s) = None.
Proof.
  intros Hr. split; [|split].
  - induction Hr as [|w t a w' _ IH Hs]; [intros rid o Ho; simpl in Ho; by apply lookup_empty_Some in Ho|].
    destruct a as [request|request blocked|i|rid turn command|rid|source]; simpl in Hs.
    + case_match; by simplify_eq/=.
    + case_match; [done|]. destruct (record_blocked_request blocked); by simplify_eq/=.
    + destruct (tasks w !! t) as [[request p]|]; [|done].
      destruct (run_step request p i (service w)) as [[p' s]|] eqn:E; simplify_eq/=.
      by eapply run_step_outcomes.
    + simplify_eq/=. by apply register_outcomes.
    + simplify_eq/=. by apply remove_outcomes.
    + by simplify_eq/=.
  - intros rid o Ho. unfold record_call_outcome. rewrite Ho. by destruct (index_get _ _).
  - intros rid. simpl. split_and!; [done|apply lookup_delete_eq|]. by rewrite index_get_remove, decide_True.
Qed.

(** ** A schedule: two requests for one host, the second waits for the first *)

Definition demo_request (host : string) : NetworkPolicyRequest := mkNetworkRequest HttpsConnect (lit host) 443 None None None None.
Definition demo_context : TurnContext := mkContext OnRequest (Managed ManagedUnrestricted NetworkRestricted) false.

(** Up to the point where the user is asked. *)
Definition asking : list (nat * action) :=
  [(0, SpawnRequest (demo_request "Example.com")); (1, SpawnRequest (demo_request "example.com"));
   (0, Run NoInput); (0, Run NoInput); (0, Run NoInput); (1, Run NoInput); (1, Run NoInput); (1, Run NoInput);
   (1, Run NoInput); (1, Run NoInput); (0, Run (ContextIs (Some demo_context))); (0, Run NoInput);
   (0, Run (HooksSay None))].
(** The user approves for the session. *)
Definition answered : list (nat * action) :=
  asking ++ [(0, Run (ReviewSays ApprovedForSession [] [])); (0, Run NoInput); (0, Run NoInput);
             (0, Run NoInput); (0, Run NoInput); (0, Run NoInput); (0, Run NoInput)].

Lemma network_allow_was_approved_witness :
  let w1 := default new_world (step 0 (SpawnRequest (demo_request "Example.com")) new_world) in
  let key := key_of (demo_request "EXAMPLE.com") in
  ∃ w, exec (tail answered) w1 = Some w ∧
    (∃ a, (key, a) ∈ log w ∧ approval_valid a ∧
       (for_session a = true ∨ ∃ id, question a = Some id ∧ open_since new_world key id)) ∧
    ∃ before after wm, tail answered = before ++ after ∧ exec before w1 = Some wm ∧
      key ∉ session_denied_hosts (service wm).
Proof.
  intros w1 key. eexists. split; [vm_compute; reflexivity|].
  refine (network_allow_was_approved new_world w1 _ 0 (demo_request "Example.com") (tail answered) _ _ _ _).
  - constructor.
  - vm_compute. reflexivity.
  - vm_compute. reflexivity.
  - vm_compute. reflexivity.
Defined.

Definition answered_world : World := default new_world (exec answered new_world).

Lemma waiters_return_witness :
  ∃ n h d w', n ≤ 3 ∧ hosts (service answered_world) !! 0 = Some h ∧
    decision h = Some d ∧ exec (replicate n (1, Run NoInput)) answered_world = Some w' ∧
    tasks w' !! 1 = Some (demo_request "example.com", Returned (to_network_decision d)).
Proof.
  refine (waiters_return answered_world 1 (demo_request "example.com") (WaitNotify 0 0) 0 _ _ _ _).
  - eapply (exec_stays_reachable answered new_world); [constructor|vm_compute; reflexivity].
  - vm_compute. reflexivity.
  - reflexivity.
  - replace (tasks answered_world) with
      (<[1 := (demo_request "example.com", WaitNotify 0 0)]>
        {[0 := (demo_request "Example.com", Returned NetworkAllow)]} : gmap nat (NetworkPolicyRequest * pc))
      by (vm_compute; reflexivity).
    intros t' request' p' [[_ [= _ <-]]|[_ [_ [= _ <-]]%lookup_singleton_Some]]%lookup_insert_Some; discriminate.
Defined.

Definition two_questions : list (nat * action) :=
  [(0, SpawnRequest (demo_request "a.com")); (1, SpawnRequest (demo_request "b.com"));
   (0, Run NoInput); (0, Run NoInput); (0, Run NoInput); (1, Run NoInput); (1, Run NoInput); (1, Run NoInput)].

Lemma one_question_per_host_witness :
  ∃ w, exec two_questions new_world = Some w ∧
    key_of (demo_request "a.com") ≠ key_of (demo_request "b.com").
Proof.
  exists (default new_world (exec two_questions new_world)). split; [vm_compute; reflexivity|].
  refine (one_question_per_host (default new_world (exec two_questions new_world)) 0 1
    (demo_request "a.com") (demo_request "b.com") (OwnContext 0) (OwnContext 1) 0 1 _ _ _ eq_refl eq_refl _).
  - eapply (exec_stays_reachable two_questions new_world); [constructor|vm_compute; reflexivity].
  - vm_compute. reflexivity.
  - vm_compute. reflexivity.
  - discriminate.
Defined.
