(* ===== verification/NetworkHandlers.v ===== *)
(** * The front ends of the network proxy

    [network-proxy/src/network_policy.rs], [responses.rs] and the handlers of
    [http_proxy.rs], [socks5.rs], [mitm.rs] and [connect_policy.rs].  A handler
    reads each part of the proxy's state once, and other operations may run in
    between, so that what it reads is an arbitrary answer ([Answers]); a
    failed read is [None].  The result has the audit events and the recorded
    requests in order, and the decision: a response, or what is forwarded.
    HTTP messages are what the handlers read of them.  Logging, the bytes of
    tunnels and the upstream clients are not modelled. *)
From S2P Require Import Prelude RustStr NetworkPolicy NetworkConfig NetworkPolicyProofs NetworkProxy NetworkProxyProofs NetworkApproval.
Local Open Scope N_scope.

(** ** Decisions *)

Definition as_policy_protocol (p : NetworkProtocol) : str :=
  match p with
  | Http => lit "http"
  | HttpsConnect => lit "https_connect"
  | Socks5Tcp => lit "socks5_tcp"
  | Socks5Udp => lit "socks5_udp"
  end.
Definition decision_str (d : NetworkPolicyDecision) : str :=
  match d with PolicyDeny => lit "deny" | PolicyAsk => lit "ask" end.
Definition source_str (s : NetworkDecisionSource) : str :=
  match s with
  | BaselinePolicy => lit "baseline_policy"
  | ModeGuard => lit "mode_guard"
  | ProxyState => lit "proxy_state"
  | Decider => lit "decider"
  end.

Record PolicyAuditEvent := mkAudit {
  au_scope : str;
  au_decision : str;
  au_source : str;
  au_reason : str;
  au_protocol : NetworkProtocol;
  au_server_address : str;
  au_server_port : N;
  au_method : str;
  au_client_addr : str;
  au_policy_override : bool
}.

Inductive event := Audit (e : PolicyAuditEvent) | RecordBlocked (r : BlockedRequest).

Definition emit_policy_audit_event (scope decision source reason : str) (protocol : NetworkProtocol)
    (server_address : str) (server_port : N) (method client_addr : option str) (policy_override : bool)
    : event :=
  Audit (mkAudit scope decision source reason protocol server_address server_port
           (default (lit "none") method) (default (lit "unknown") client_addr) policy_override).
Definition emit_block_decision_audit_event (source : NetworkDecisionSource) (reason : str)
    (protocol : NetworkProtocol) (server_address : str) (server_port : N)
    (method client_addr : option str) : event :=
  emit_policy_audit_event (lit "non_domain") (lit "deny") (source_str source) reason protocol
    server_address server_port method client_addr false.
Definition emit_allow_decision_audit_event (source : NetworkDecisionSource) (reason : str)
    (protocol : NetworkProtocol) (server_address : str) (server_port : N)
    (method client_addr : option str) : event :=
  emit_policy_audit_event (lit "non_domain") (lit "allow") (source_str source) reason protocol
    server_address server_port method client_addr false.

Definition map_decider_decision (d : NetworkDecision) : NetworkDecision :=
  match d with
  | NetworkAllow => NetworkAllow
  | NetworkDeny reason _ decision => NetworkDeny reason Decider decision
  end.

(** [policy_decider]: what is asked, if anything is. *)
Definition PolicyDecider : Type := option (NetworkPolicyRequest → NetworkDecision).

Definition evaluate_host_policy (host_blocked : option HostBlockDecision) (decider : PolicyDecider)
    (request : NetworkPolicyRequest) : list event * option NetworkDecision :=
  match host_blocked with
  | None => ([], None)
  | Some host_decision =>
      let '(decision, policy_override) :=
        match host_decision with
        | HostAllowed => (NetworkAllow, false)
        | Blocked NotAllowed =>
            match decider with
            | Some decide_ =>
                let d := map_decider_decision (decide_ request) in
                (d, match d with NetworkAllow => true | NetworkDeny _ _ _ => false end)
            | None => (deny_with_source (reason_str NotAllowed) BaselinePolicy, false)
            end
        | Blocked reason => (deny_with_source (reason_str reason) BaselinePolicy, false)
        end in
      let '(policy_decision, source, reason) :=
        match decision with
        | NetworkAllow =>
            (lit "allow", if policy_override : bool then Decider else BaselinePolicy,
             if policy_override : bool then reason_str NotAllowed else lit "allow")
        | NetworkDeny reason source d => (decision_str d, source, reason)
        end in
      ([emit_policy_audit_event (lit "domain") policy_decision (source_str source) reason
          (req_protocol request) (req_host request) (req_port request) (req_method request)
          (req_client_addr request) policy_override], Some decision)
  end.

(** ** Responses *)

Record BlockedResponse := mkBlockedResponse {
  br_host : str;
  br_reason : str;
  br_decision : option str;
  br_source : option str;
  br_protocol : option str;
  br_port : option N;
  br_message : option str
}.
Inductive Body := BodyText (s : str) | BodyJson (b : BlockedResponse).
Record Response := mkResponse { status : N; x_proxy_error : option str; body : Body }.

Definition blocked_header_value (reason : str) : str :=
  if bool_decide (reason = REASON_NOT_ALLOWED) || bool_decide (reason = REASON_NOT_ALLOWED_LOCAL)
  then lit "blocked-by-allowlist"
  else if bool_decide (reason = REASON_DENIED) then lit "blocked-by-denylist"
  else if bool_decide (reason = REASON_METHOD_NOT_ALLOWED) then lit "blocked-by-method-policy"
  else if bool_decide (reason = REASON_MITM_REQUIRED) then lit "blocked-by-mitm-required"
  else lit "blocked-by-policy".

Definition blocked_message (reason : str) : str :=
  if bool_decide (reason = REASON_NOT_ALLOWED) then lit "Domain not in allowlist."
  else if bool_decide (reason = REASON_NOT_ALLOWED_LOCAL)
  then lit "Sandbox policy blocks local/private network addresses."
  else if bool_decide (reason = REASON_DENIED) then lit "Domain denied by the sandbox policy."
  else if bool_decide (reason = REASON_METHOD_NOT_ALLOWED) then lit "Method not allowed in limited mode."
  else if bool_decide (reason = REASON_MITM_REQUIRED) then lit "MITM required for limited HTTPS."
  else if bool_decide (reason = REASON_PROXY_DISABLED) then lit "network proxy is disabled"
  else lit "Request blocked by network policy.".

(** [PolicyDecisionDetails], of which the responses use these parts. *)
Record PolicyDecisionDetails := mkDetails {
  det_decision : NetworkPolicyDecision;
  det_source : NetworkDecisionSource;
  det_protocol : NetworkProtocol;
  det_port : N
}.

Definition text_response (st : N) (s : string) : Response := mkResponse st None (BodyText (lit s)).
Definition internal_error : Response := text_response 500 "error".
Definition blocked_text_response (reason : str) : Response :=
  mkResponse 403 (Some (blocked_header_value reason)) (BodyText (blocked_message reason)).
Definition json_blocked (h reason : str) (details : option PolicyDecisionDetails) : Response :=
  mkResponse 403 (Some (blocked_header_value reason))
    (BodyJson (mkBlockedResponse h reason (decision_str ∘ det_decision <$> details)
      (source_str ∘ det_source <$> details) (as_policy_protocol ∘ det_protocol <$> details)
      (det_port <$> details) ((λ _, blocked_message reason) <$> details))).

(** ** What a handler reads *)

Record Answers := mkAnswers {
  ans_enabled : option bool;
  ans_host_blocked : option HostBlockDecision;
  ans_mode : option NetworkMode;
  ans_mitm : option bool;
  ans_method_allowed : option bool;
  ans_upstream : option bool;
  ans_socket_allowed : option bool;
  ans_local_binding : option bool;
  now : Z
}.

Definition blocked_request (a : Answers) (h reason : str) (client method : option str)
    (m : option NetworkMode) (protocol : string) (decision source : option str) (p : N) : event :=
  RecordBlocked (mkBlockedRequest h reason client method m (lit protocol) decision source (Some p) (now a)).

Definition proxy_disabled_response (a : Answers) (h : str) (p : N) (client method : option str)
    (protocol : NetworkProtocol) (audit_endpoint_override : option (str * N)) : list event * Response :=
  let '(audit_address, audit_port) := default (h, p) audit_endpoint_override in
  ([emit_block_decision_audit_event ProxyState REASON_PROXY_DISABLED protocol audit_address audit_port
      method client;
    RecordBlocked (mkBlockedRequest h REASON_PROXY_DISABLED client method None
      (as_policy_protocol protocol) (Some (lit "deny")) (Some (lit "proxy_state")) (Some p) (now a))],
   mkResponse 503 None (BodyText (blocked_message REASON_PROXY_DISABLED))).

(** ** CONNECT *)

Record ConnectRequest := mkConnect {
  has_state : bool;
  authority : option (str * N);
  client_addr : option str
}.

(** The target of the tunnel, the mode, and whether MITM is there. *)
Inductive ConnectOutcome :=
| ConnectRejected (r : Response)
| ConnectAccepted (target : str * N) (m : NetworkMode) (mitm : bool).

Definition http_connect_accept (a : Answers) (decider : PolicyDecider) (req : ConnectRequest)
    : list event * ConnectOutcome :=
  if negb (has_state req) then ([], ConnectRejected (text_response 500 "missing state"))
  else match authority req with
  | None => ([], ConnectRejected (text_response 400 "missing authority"))
  | Some (authority_host, p) =>
      let h := normalize_host authority_host in
      if decide (h = []) then ([], ConnectRejected (text_response 400 "invalid host"))
      else
        let client := client_addr req in
        let connect := Some (lit "CONNECT") in
        match ans_enabled a with
        | None => ([], ConnectRejected internal_error)
        | Some false =>
            let '(evs, r) := proxy_disabled_response a h p client connect HttpsConnect None in
            (evs, ConnectRejected r)
        | Some true =>
            let request := mkNetworkRequest HttpsConnect h p client connect None None in
            let '(evs, decision) := evaluate_host_policy (ans_host_blocked a) decider request in
            match decision with
            | None => (evs, ConnectRejected internal_error)
            | Some (NetworkDeny reason source d) =>
                (evs ++ [blocked_request a h reason client connect None "http-connect"
                           (Some (decision_str d)) (Some (source_str source)) p],
                 ConnectRejected (blocked_text_response reason))
            | Some NetworkAllow =>
                match ans_mode a with
                | None => (evs, ConnectRejected internal_error)
                | Some m =>
                    match ans_mitm a with
                    | None => (evs, ConnectRejected internal_error)
                    | Some has_mitm =>
                        if bool_decide (m = Limited) && negb has_mitm then
                          (evs ++ [emit_block_decision_audit_event ModeGuard REASON_MITM_REQUIRED
                                     HttpsConnect h p connect client;
                                   blocked_request a h REASON_MITM_REQUIRED client connect (Some Limited)
                                     "http-connect" (Some (decision_str PolicyDeny))
                                     (Some (source_str ModeGuard)) p],
                           ConnectRejected (blocked_text_response REASON_MITM_REQUIRED))
                        else (evs, ConnectAccepted (authority_host, p) m has_mitm)
                    end
                end
            end
        end
  end.


(** ** Requests inside of a MITM tunnel *)


(** ** Plain HTTP *)

Inductive HostHeader := NoHostHeader | InvalidHostHeader | HasHostHeader (h : str) (p : option N).

(** [RequestContext]: the authority, whether its port is the scheme's. *)
Record RequestContext := mkRequestContext {
  ctx_host : str;
  ctx_port : option N;
  ctx_default_port : bool;
  ctx_effective_port : N
}.

Record PlainRequest := mkPlain {
  p_has_state : bool;
  p_method : str;
  p_client : option str;
  (** The header [x-unix-socket], and its text if it has one. *)
  p_unix_socket : option (option str);
  p_context : option RequestContext;
  p_absolute_form : bool;
  p_host_header : HostHeader
}.

Definition validate_absolute_form_host_header (req : PlainRequest) (ctx : RequestContext) : option string :=
  if negb (p_absolute_form req) then None
  else match p_host_header req with
  | InvalidHostHeader => Some "invalid Host header"
  | NoHostHeader => None
  | HasHostHeader h p =>
      if decide (h = ctx_host ctx) then
        match p with
        | Some port =>
            if decide (Some port = ctx_port ctx) then None
            else Some "Host header does not match request target"
        | None =>
            if ctx_default_port ctx then None else Some "Host header does not match request target"
        end
      else Some "Host header does not match request target"
  end.

Inductive PlainOutcome :=
| Respond (r : Response)
| ForwardUnixSocket (path : str)
| ForwardUpstream (target : str * N) (may_use_proxy : bool).

Section plain.
Context (macos : bool).

Definition plain_unix_socket (a : Answers) (req : PlainRequest) (method_allowed : bool)
    (header : option str) : list event * PlainOutcome :=
  let method := Some (p_method req) in
  match header with
  | None => ([], Respond (text_response 400 "invalid x-unix-socket header"))
  | Some socket_path =>
      match ans_enabled a with
      | None => ([], Respond internal_error)
      | Some false =>
          let '(evs, r) := proxy_disabled_response a socket_path 0 (p_client req) method Http
                             (Some (lit "unix-socket", 0)) in
          (evs, Respond r)
      | Some true =>
          if negb method_allowed then
            ([emit_block_decision_audit_event ModeGuard REASON_METHOD_NOT_ALLOWED Http (lit "unix-socket") 0
                method (p_client req)],
             Respond (json_blocked (lit "unix-socket") REASON_METHOD_NOT_ALLOWED None))
          else if negb (unix_socket_permissions_supported macos) then
            ([emit_block_decision_audit_event ProxyState (lit "unix_socket_unsupported") Http
                (lit "unix-socket") 0 method (p_client req)],
             Respond (text_response 501 "unix sockets unsupported"))
          else
            match ans_socket_allowed a with
            | Some true =>
                ([emit_allow_decision_audit_event ProxyState (lit "allow") Http (lit "unix-socket") 0
                    method (p_client req)], ForwardUnixSocket socket_path)
            | Some false =>
                ([emit_block_decision_audit_event ProxyState REASON_NOT_ALLOWED Http (lit "unix-socket") 0
                    method (p_client req)],
                 Respond (json_blocked (lit "unix-socket") REASON_NOT_ALLOWED None))
            | None => ([], Respond internal_error)
            end
      end
  end.

Definition plain_request (a : Answers) (decider : PolicyDecider) (req : PlainRequest)
    (method_allowed : bool) : list event * PlainOutcome :=
  let method := Some (p_method req) in
  let client := p_client req in
  match p_context req with
  | None => ([], Respond (text_response 400 "missing host"))
  | Some ctx =>
      let h := normalize_host (ctx_host ctx) in
      let p := ctx_effective_port ctx in
      match validate_absolute_form_host_header req ctx with
      | Some reason => ([], Respond (text_response 400 reason))
      | None =>
          match ans_enabled a with
          | None => ([], Respond internal_error)
          | Some false =>
              let '(evs, r) := proxy_disabled_response a h p client method Http None in (evs, Respond r)
          | Some true =>
              let request := mkNetworkRequest Http h p client method None None in
              let '(evs, decision) := evaluate_host_policy (ans_host_blocked a) decider request in
              match decision with
              | None => (evs, Respond internal_error)
              | Some (NetworkDeny reason source d) =>
                  (evs ++ [blocked_request a h reason client method None "http"
                             (Some (decision_str d)) (Some (source_str source)) p],
                   Respond (json_blocked h reason (Some (mkDetails d source Http p))))
              | Some NetworkAllow =>
                  if negb method_allowed then
                    (evs ++ [emit_block_decision_audit_event ModeGuard REASON_METHOD_NOT_ALLOWED Http h p
                               method client;
                             blocked_request a h REASON_METHOD_NOT_ALLOWED client method (Some Limited)
                               "http" (Some (decision_str PolicyDeny)) (Some (source_str ModeGuard)) p],
                     Respond (json_blocked h REASON_METHOD_NOT_ALLOWED
                       (Some (mkDetails PolicyDeny ModeGuard Http p))))
                  else
                    match ans_upstream a with
                    | Some allow => (evs, ForwardUpstream (ctx_host ctx, p) allow)
                    | None => (evs, Respond internal_error)
                    end
              end
          end
      end
  end.

Definition http_plain_proxy (a : Answers) (decider : PolicyDecider) (req : PlainRequest)
    : list event * PlainOutcome :=
  if negb (p_has_state req) then ([], Respond internal_error)
  else match ans_method_allowed a with
  | None => ([], Respond internal_error)
  | Some method_allowed =>
      match p_unix_socket req with
      | Some header => plain_unix_socket a req method_allowed header
      | None => plain_request a decider req method_allowed
      end
  end.

End plain.

(** ** SOCKS *)

Inductive io_result :=
| PolicyDenied (message : str) | InvalidHostError | MissingState | ProxyError | Dial (target : str * N).

(** [handle_socks5_tcp] and [inspect_socks5_udp] differ in the protocol and in
    what an allowed request does: the one dials, the other relays. *)
Definition socks5_policy (protocol : NetworkProtocol) (record_protocol : string) (a : Answers)
    (decider : PolicyDecider) (server_host : str) (p : N) (client : option str)
    : list event * io_result :=
  let h := normalize_host server_host in
  let denied mode_ source reason decision :=
    blocked_request a h reason client None mode_ record_protocol
      (Some (decision_str decision)) (Some (source_str source)) p in
  if decide (h = []) then ([], InvalidHostError)
  else match ans_enabled a with
  | None => ([], ProxyError)
  | Some false =>
      ([emit_block_decision_audit_event ProxyState REASON_PROXY_DISABLED protocol h p None client;
        denied None ProxyState REASON_PROXY_DISABLED PolicyDeny],
       PolicyDenied (blocked_message REASON_PROXY_DISABLED))
  | Some true =>
      match ans_mode a with
      | None => ([], ProxyError)
      | Some Limited =>
          ([emit_block_decision_audit_event ModeGuard REASON_METHOD_NOT_ALLOWED protocol h p None client;
            denied (Some Limited) ModeGuard REASON_METHOD_NOT_ALLOWED PolicyDeny],
           PolicyDenied (blocked_message REASON_METHOD_NOT_ALLOWED))
      | Some Full =>
          let request := mkNetworkRequest protocol h p client None None None in
          let '(evs, decision) := evaluate_host_policy (ans_host_blocked a) decider request in
          match decision with
          | None => (evs, ProxyError)
          | Some (NetworkDeny reason source d) =>
              (evs ++ [denied None source reason d], PolicyDenied (blocked_message reason))
          | Some NetworkAllow => (evs, Dial (server_host, p))
          end
      end
  end.
Definition handle_socks5_tcp (app_state : bool) (a : Answers) (decider : PolicyDecider) (server_host : str)
    (p : N) (client : option str) : list event * io_result :=
  if negb app_state then ([], MissingState)
  else socks5_policy Socks5Tcp "socks5" a decider server_host p client.
Definition inspect_socks5_udp : Answers → PolicyDecider → str → N → option str → list event * io_result :=
  socks5_policy Socks5Udp "socks5-udp".

(** ** The connection to the target *)

Inductive TargetPolicy := TargetConfig (allow_local_binding : bool) | TargetState.
Definition target_allow_local_binding (policy : TargetPolicy) (a : Answers) : option bool :=
  match policy with TargetConfig b => Some b | TargetState => ans_local_binding a end.

(** [TargetCheckedTcpConnector]: whether a connection to an address is tried;
    behind another proxy, the address is that of the proxy. *)
Definition may_connect (policy : TargetPolicy) (a : Answers) (behind_proxy : bool) (addr : SocketAddr) : bool :=
  if behind_proxy then true
  else match target_allow_local_binding policy a with
       | None => false
       | Some allow => allow || negb (is_non_public_ip addr.1)
       end.

(** ** What is let through *)

(** The lists allow the request, or they do not have it and it was approved. *)
Definition approved (a : Answers) (decider : PolicyDecider) (request : NetworkPolicyRequest) : Prop :=
  ans_host_blocked a = Some HostAllowed ∨
  ans_host_blocked a = Some (Blocked NotAllowed) ∧ ∃ f, decider = Some f ∧ f request = NetworkAllow.

Lemma evaluate_allow a decider request evs :
  evaluate_host_policy (ans_host_blocked a) decider request = (evs, Some NetworkAllow) →
  approved a decider request.
Proof.
  unfold evaluate_host_policy, approved. destruct (ans_host_blocked a) as [[|[]]|]; try done; [by left|].
  - destruct decider as [f|]; [|done]. intros E. right. split; [done|]. exists f. split; [done|].
    by destruct (f request).
Qed.

Ltac handler :=
  repeat match goal with
  | |- context [if ?b then _ else _] => let E := fresh "Ec" in destruct b eqn:E
  | |- context [match ?x with _ => _ end] => let E := fresh "Em" in destruct x eqn:E
  end.

Definition connect_policy_request (req : ConnectRequest) (target : str * N) : NetworkPolicyRequest :=
  mkNetworkRequest HttpsConnect (normalize_host target.1) target.2 (client_addr req)
    (Some (lit "CONNECT")) None None.
Definition plain_policy_request (req : PlainRequest) (target : str * N) : NetworkPolicyRequest :=
  mkNetworkRequest Http (normalize_host target.1) target.2 (p_client req) (Some (p_method req)) None None.
Definition socks_policy_request (protocol : NetworkProtocol) (target : str * N) (client : option str)
    : NetworkPolicyRequest :=
  mkNetworkRequest protocol (normalize_host target.1) target.2 client None None None.

Lemma connect_accepted a decider req evs target m has_mitm :
  http_connect_accept a decider req = (evs, ConnectAccepted target m has_mitm) →
  ans_enabled a = Some true ∧ approved a decider (connect_policy_request req target) ∧
  ans_mode a = Some m ∧ ans_mitm a = Some has_mitm ∧ (m = Limited → has_mitm = true).
Proof.
  unfold http_connect_accept, proxy_disabled_response.
  handler; intros E; simplify_eq. split_and!; [done| |done|done|].
  - by eapply evaluate_allow.
  - intros ->. by destruct has_mitm.
Qed.

Lemma plain_forwarded macos a decider req evs target b :
  http_plain_proxy macos a decider req = (evs, ForwardUpstream target b) →
  ans_enabled a = Some true ∧ approved a decider (plain_policy_request req target) ∧
  ans_method_allowed a = Some true.
Proof.
  unfold http_plain_proxy, plain_unix_socket, plain_request, proxy_disabled_response.
  handler; intros E; simplify_eq/=.
  all: split_and!; [done|by eapply evaluate_allow|f_equal; by apply negb_false_iff].
Qed.

Lemma socks_dialled protocol record_protocol a decider h p client evs target :
  socks5_policy protocol record_protocol a decider h p client = (evs, Dial target) →
  ans_enabled a = Some true ∧ approved a decider (socks_policy_request protocol target client) ∧
  ans_mode a = Some Full.
Proof.
  unfold socks5_policy. handler; intros E; simplify_eq/=. split_and!; [done| |done].
  by eapply evaluate_allow.
Qed.





(** ** From the state to the answer *)

(** Some handler lets a request for the target through. *)
Definition forwards (macos : bool) (a : Answers) (decider : PolicyDecider) (target : str * N) : Prop :=
  (∃ req evs m b, http_connect_accept a decider req = (evs, ConnectAccepted target m b)) ∨
  (∃ req evs b, http_plain_proxy macos a decider req = (evs, ForwardUpstream target b)) ∨
  (∃ app_state h p client evs, handle_socks5_tcp app_state a decider h p client = (evs, Dial target)) ∨
  (∃ h p client evs, inspect_socks5_udp a decider h p client = (evs, Dial target)).

Lemma forwards_approved macos a decider target :
  forwards macos a decider target → ∃ request, approved a decider request.
Proof.
  intros [(req & evs & m & b & E)|[(req & evs & b & E)|[(app & h & p & client & evs & E)|(h & p & client & evs & E)]]].
  - apply connect_accepted in E as (_ & E & _). eauto.
  - apply plain_forwarded in E as (_ & E & _). eauto.
  - unfold handle_socks5_tcp in E. destruct app; [|done]. apply socks_dialled in E as (_ & E & _). eauto.
  - apply socks_dialled in E as (_ & E & _). eauto.
Qed.

Lemma not_approved a decider request reason :
  ans_host_blocked a = Some (Blocked reason) → reason ≠ NotAllowed → ¬ approved a decider request.
Proof. unfold approved. intros -> Hr [[=]|[[= ->] _]]. done. Qed.

Section end_to_end.
Context `{GlobLaws} {MitmState : Type}.
Context (mitm_new : bool → bool → option MitmState) (home_dir : option str).
Context (url_host_parse : str → option str).
Context (macos : bool) (canonicalize : str → option str).

(** The answer that a handler gets on a host while the proxy is in a state. *)
Definition answers_from (w : Proxy (MitmState:=MitmState)) (lookup : Lookup) (target : str * N) (a : Answers) : Prop :=
  ans_host_blocked a = Some (host_decision (state (shared w)) lookup (normalize_host target.1) target.2).





(** C9. A host that a managed denial matches is never reached.  In every state
    that the proxy's operations reach, and whatever the configuration, the
    resolver and whoever is asked for approval say, no handler lets a request
    for the host through. *)
Theorem managed_denials_end_to_end s o sched w ds p lookup target host a decider :
  started mitm_new home_dir url_host_parse macos canonicalize s o sched w →
  c_denied_domains (constraints (state (shared w))) = Some ds → p ∈ ds →
  host_parse (normalize_host target.1) = Some host → matches_host_or_unscoped p host = true →
  answers_from w lookup target a →
  ¬ forwards macos a decider target.
Proof.
  intros Hs Hd Hp Hh Hm Ha Hf. unfold answers_from in Ha.
  rewrite (managed_denied _ _ _ _ _ _ _ _ _ _ _ _ _ _ _ Hs Hd Hp Hh Hm) in Ha.
  apply forwards_approved in Hf as [r Hr]. by eapply not_approved.
Qed.
End end_to_end.

(** Without local binding, the proxy's own connections go to public
    addresses only, also where the name was resolved again after the check. *)
Theorem direct_connections_are_public policy a addr :
  may_connect policy a false addr = true →
  target_allow_local_binding policy a ≠ Some true → is_non_public_ip addr.1 = false.
Proof.
  unfold may_connect. destruct (target_allow_local_binding policy a) as [[]|]; simpl; try done.
  by rewrite negb_true_iff.
Qed.

(** ** Examples *)

Definition demo_answers (d : HostBlockDecision) : Answers :=
  mkAnswers (Some true) (Some d) (Some Full) (Some false) (Some true) (Some false) (Some false) (Some false) 0.
Definition demo_decider : PolicyDecider := Some (λ _, NetworkAllow).





Definition demo_evil : str * N := (lit "evil.com.", 443).
Definition demo_evil_answers : Answers :=
  demo_answers (host_decision (state (shared (demo_proxy demo_sched))) demo_public
    (normalize_host demo_evil.1) demo_evil.2).
Lemma managed_denials_end_to_end_witness :
  ¬ forwards false demo_evil_answers demo_decider demo_evil.
Proof.
  apply (managed_denials_end_to_end demo_mitm None demo_url_host false (λ _, None) _ _ _ _ [lit "EVIL.com"]
    (lit "EVIL.com") demo_public demo_evil (lit "evil.com") demo_evil_answers demo_decider
    demo_sched_started); [by vm_compute|by left|by vm_compute..|done].
Defined.
