(* ===== verification/NetworkSpec.v ===== *)
(** * Managed requirements of the network: [core/src/config/network_proxy_spec.rs], [core/src/network_proxy_loader.rs]

    How the requirements of an administrator are applied to the configuration
    of the user and become constraints ([config_requirements.rs] has their
    data), the rules of the execution policy, who decides on hosts that are
    not listed, and the constraints from trusted configuration layers.  The
    proxy is built and runs as in [NetworkConfig] and [NetworkProxy]. *)
From stdpp Require Import gmap.
From S2P Require Import Prelude RustStr AbsolutePath Ordering ExecPolicy NetworkPolicy NetworkConfig NetworkPolicyProofs NetworkProxy NetworkProxyProofs Paths Permissions PermissionProfile NetworkApproval NetworkHandlers.
Local Open Scope N_scope.

#[local] Set Default Proof Using "Type*".

(** ** Requirements *)

Inductive NetworkDomainPermissionToml := TomlAllow | TomlDeny.
#[global] Instance NetworkDomainPermissionToml_eq_dec : EqDecision NetworkDomainPermissionToml.
Proof. solve_decision. Defined.

(** The maps are [BTreeMap]s: entries in the order of their keys. *)
Definition toml_domains (perm : NetworkDomainPermissionToml) (entries : list (str * NetworkDomainPermissionToml))
    : option (list str) :=
  non_empty (map fst (List.filter (λ e, bool_decide (e.2 = perm)) entries)).
Definition toml_allow_unix_sockets (entries : list (str * NetworkUnixSocketPermission)) : list str :=
  map fst (List.filter (λ e, bool_decide (e.2 = SocketAllow)) entries).

Record NetworkConstraints := mkRequirements {
  r_enabled : option bool;
  r_http_port : option N;
  r_socks_port : option N;
  r_allow_upstream_proxy : option bool;
  r_dangerously_allow_non_loopback_proxy : option bool;
  r_dangerously_allow_all_unix_sockets : option bool;
  r_domains : option (list (str * NetworkDomainPermissionToml));
  r_managed_allowed_domains_only : option bool;
  r_unix_sockets : option (list (str * NetworkUnixSocketPermission));
  r_allow_local_binding : option bool
}.

Record NetworkProxySpec := mkSpec {
  base_config : NetworkProxyConfig;
  requirements : option NetworkConstraints;
  spec_config : NetworkProxyConfig;
  spec_constraints : NetworkProxyConstraints;
  hard_deny_allowlist_misses : bool
}.

Definition managed_allowed_domains_only (r : NetworkConstraints) : bool :=
  default false (r_managed_allowed_domains_only r).
Definition managed_sandbox_active (p : PermissionProfile) : bool :=
  match p with Managed _ _ => true | _ => false end.
Definition allowlist_expansion_enabled (p : PermissionProfile) (hard_deny : bool) : bool :=
  managed_sandbox_active p && negb hard_deny.
Definition denylist_expansion_enabled (p : PermissionProfile) : bool := managed_sandbox_active p.

Definition merge_entry (managed : list str) (entry : str) : list str :=
  if existsb (λ m, eq_ignore_ascii_case m entry) managed then managed else managed ++ [entry].
Definition merge_domain_lists (managed user_entries : list str) : list str :=
  foldl merge_entry managed user_entries.

(** The settings and constraints of the flags and ports. *)
Definition local_proxy_url (p : N) : str := lit "http://127.0.0.1:" ++ show_N p.
Definition apply_flags (r : NetworkConstraints) (s : NetworkProxySettings) : NetworkProxySettings :=
  mkSettings (default (enabled s) (r_enabled r))
    (default (proxy_url s) (local_proxy_url <$> r_http_port r)) (enable_socks5 s)
    (default (socks_url s) (local_proxy_url <$> r_socks_port r)) (enable_socks5_udp s)
    (default (allow_upstream_proxy s) (r_allow_upstream_proxy r))
    (default (dangerously_allow_non_loopback_proxy s) (r_dangerously_allow_non_loopback_proxy r))
    (default (dangerously_allow_all_unix_sockets s) (r_dangerously_allow_all_unix_sockets r))
    (mode s) (domains s) (unix_sockets s)
    (default (allow_local_binding s) (r_allow_local_binding r)) (mitm s).

Definition managed_allowed (r : NetworkConstraints) (hard_deny : bool) : option (list str) :=
  let listed := r_domains r ≫= toml_domains TomlAllow in
  if hard_deny then Some (default [] listed) else listed.
Definition managed_denied_domains (r : NetworkConstraints) : option (list str) :=
  r_domains r ≫= toml_domains TomlDeny.

Definition apply_allowed (expand : bool) (managed : option (list str)) (s : NetworkProxySettings)
    : NetworkProxySettings :=
  match managed with
  | Some m =>
      set_allowed_domains (if expand then merge_domain_lists m (default [] (allowed_domains s)) else m) s
  | None => s
  end.
Definition apply_denied (expand : bool) (managed : option (list str)) (s : NetworkProxySettings)
    : NetworkProxySettings :=
  match managed with
  | Some m =>
      set_denied_domains (if expand then merge_domain_lists m (default [] (denied_domains s)) else m) s
  | None => s
  end.
Definition apply_unix_sockets (sockets : option (list str)) (s : NetworkProxySettings) : NetworkProxySettings :=
  match sockets with Some l => set_allow_unix_sockets l s | None => s end.

Definition apply_requirements (cfg : NetworkProxyConfig) (r : NetworkConstraints)
    (profile : PermissionProfile) (hard_deny : bool) : NetworkProxyConfig * NetworkProxyConstraints :=
  let expand_allow := allowlist_expansion_enabled profile hard_deny in
  let expand_deny := denylist_expansion_enabled profile in
  let allowed := managed_allowed r hard_deny in
  let denied := managed_denied_domains r in
  let sockets := toml_allow_unix_sockets <$> r_unix_sockets r in
  let cfg := apply_unix_sockets sockets (apply_denied expand_deny denied
               (apply_allowed expand_allow allowed (apply_flags r cfg))) in
  (cfg, mkConstraints (r_enabled r) None (r_allow_upstream_proxy r)
          (r_dangerously_allow_non_loopback_proxy r) (r_dangerously_allow_all_unix_sockets r)
          allowed ((λ _, expand_allow) <$> allowed) denied ((λ _, expand_deny) <$> denied)
          sockets (r_allow_local_binding r)).

Section spec.
Context (url_host_parse : str → option str).

Definition from_config_and_constraints (cfg : NetworkProxyConfig) (r : option NetworkConstraints)
    (profile : PermissionProfile) : Res NetworkProxyConstraintError NetworkProxySpec :=
  let hard_deny := match r with Some r => managed_allowed_domains_only r | None => false end in
  let '(config, constraints) :=
    match r with
    | Some r => apply_requirements cfg r profile hard_deny
    | None => (cfg, default_constraints)
    end in
  _ ← validate_policy_against_constraints url_host_parse config constraints;
  Ok (mkSpec cfg r config constraints hard_deny).

Definition recompute_for_permission_profile (spec : NetworkProxySpec) (profile : PermissionProfile)
    : Res NetworkProxyConstraintError NetworkProxySpec :=
  from_config_and_constraints (base_config spec) (requirements spec) profile.

(** The rules of the execution policy; a host is taken once. *)
Definition upsert_network_domains (hosts : list str) (allow : bool) (cfg : NetworkProxyConfig)
    : NetworkProxyConfig :=
  (foldl (λ '(incoming, c) h,
     if decide (h ∈ incoming) then (incoming, c)
     else (h :: incoming,
           upsert_domain_permission h (if allow : bool then PermAllow else PermDeny) normalize_host c))
     ([], cfg) hosts).2.
Definition apply_exec_policy_network_rules {MM R} (cfg : NetworkProxyConfig) (p : Policy MM R)
    : NetworkProxyConfig :=
  let '(allowed, denied) := compiled_network_domains p in
  upsert_network_domains denied false (upsert_network_domains allowed true cfg).

Definition with_exec_policy_network_rules {MM R} (spec : NetworkProxySpec) (p : Policy MM R)
    : Res NetworkProxyConstraintError NetworkProxySpec :=
  let config := apply_exec_policy_network_rules (spec_config spec) p in
  _ ← validate_policy_against_constraints url_host_parse config (spec_constraints spec);
  Ok (mkSpec (base_config spec) (requirements spec) config (spec_constraints spec)
        (hard_deny_allowlist_misses spec)).

(** [start_proxy]: who decides on a host that is not listed. *)
Definition proxy_decider (spec : NetworkProxySpec) (profile : PermissionProfile) (policy_decider : PolicyDecider)
    (enable_network_approval_flow : bool) : PolicyDecider :=
  if enable_network_approval_flow && negb (hard_deny_allowlist_misses spec) then
    match policy_decider with
    | Some d => Some d
    | None => if managed_sandbox_active profile then Some (λ _, network_ask (lit "not_allowed")) else None
    end
  else None.

(** [build_config_state_for_spec]. *)
Definition build_config_state_for_spec `{GlobCompiler} {MitmState}
    (mitm_new : bool → bool → option MitmState) (home_dir : option str) (spec : NetworkProxySpec)
    : Res BuildError (ConfigState MitmState) :=
  build_config_state mitm_new home_dir (spec_config spec) (spec_constraints spec).

End spec.

(** ** Constraints from trusted layers *)

(** The network table of a layer, of which the constraints take these parts. *)
Record NetworkToml := mkNetworkToml {
  t_enabled : option bool;
  t_mode : option NetworkMode;
  t_allow_upstream_proxy : option bool;
  t_dangerously_allow_non_loopback_proxy : option bool;
  t_dangerously_allow_all_unix_sockets : option bool;
  t_domains : option (list (str * NetworkDomainPermissionToml));
  t_unix_sockets : option (list (str * NetworkUnixSocketPermission));
  t_allow_local_binding : option bool
}.

Definition overlay_network_domain_permissions (cfg : NetworkProxyConfig)
    (entries : list (str * NetworkDomainPermissionToml)) : NetworkProxyConfig :=
  foldl (λ c e, upsert_domain_permission e.1
           (match e.2 with TomlAllow => PermAllow | TomlDeny => PermDeny end) normalize_host c) cfg entries.

(** The domains of the constraints as a configuration, with those of a layer. *)
Definition overlaid_domains (c : NetworkProxyConstraints) (entries : list (str * NetworkDomainPermissionToml))
    : NetworkProxyConfig :=
  let cfg := match c_allowed_domains c with
             | Some l => set_allowed_domains l default_settings | None => default_settings end in
  let cfg := match c_denied_domains c with Some l => set_denied_domains l cfg | None => cfg end in
  overlay_network_domain_permissions cfg entries.

Definition apply_network_constraints (network : NetworkToml) (c : NetworkProxyConstraints)
    : NetworkProxyConstraints :=
  let or_else {A} (new old : option A) := match new with Some _ => new | None => old end in
  let '(allowed, denied) :=
    match t_domains network with
    | Some entries =>
        let cfg := overlaid_domains c entries in (allowed_domains cfg, denied_domains cfg)
    | None => (c_allowed_domains c, c_denied_domains c)
    end in
  mkConstraints (or_else (t_enabled network) (c_enabled c)) (or_else (t_mode network) (c_mode c))
    (or_else (t_allow_upstream_proxy network) (c_allow_upstream_proxy c))
    (or_else (t_dangerously_allow_non_loopback_proxy network) (c_dangerously_allow_non_loopback_proxy c))
    (or_else (t_dangerously_allow_all_unix_sockets network) (c_dangerously_allow_all_unix_sockets c))
    allowed (c_allowlist_expansion_enabled c) denied (c_denylist_expansion_enabled c)
    (or_else (toml_allow_unix_sockets <$> t_unix_sockets network) (c_allow_unix_sockets c))
    (or_else (t_allow_local_binding network) (c_allow_local_binding c)).

(** The source of a layer; those that the user controls give no constraints. *)
Inductive ConfigLayerSource :=
| LayerMdm | LayerSystem | LayerUser | LayerProject | LayerSessionFlags
| LayerLegacyManagedFile | LayerLegacyManagedMdm.
Definition is_user_controlled_layer (l : ConfigLayerSource) : bool :=
  match l with LayerUser | LayerProject | LayerSessionFlags => true | _ => false end.

(** Layers from the lowest precedence, each with its selected network table. *)
Definition network_constraints_from_trusted_layers (layers : list (ConfigLayerSource * option NetworkToml))
    : NetworkProxyConstraints :=
  foldl (λ c l, if is_user_controlled_layer l.1 then c
                else match l.2 with Some network => apply_network_constraints network c | None => c end)
    default_constraints layers.

(** ** Properties *)

Lemma toml_domains_elem perm entries p :
  p ∈ default [] (toml_domains perm entries) ↔ (p, perm) ∈ entries.
Proof.
  unfold toml_domains. set (l := map fst _).
  assert (default [] (non_empty l) = l) as -> by (by destruct l). unfold l.
  rewrite list_elem_of_fmap. split.
  - intros ([q k] & -> & [Hq E%bool_decide_eq_true]%elem_of_filterb). simpl in *. by subst.
  - intros He. exists (p, perm). split; [done|]. apply elem_of_filterb. split; [done|]. by apply bool_decide_eq_true.
Qed.

Section managed.
Context `{GlobLaws} {MitmState : Type}.
Context (mitm_new : bool → bool → option MitmState) (home_dir : option str).
Context (url_host_parse : str → option str).
Context (macos : bool) (canonicalize : str → option str).

(** The proxy that a specification starts is in a valid state. *)
Lemma spec_state_valid cfg r profile spec s :
  from_config_and_constraints url_host_parse cfg r profile = Ok spec →
  build_config_state_for_spec mitm_new home_dir spec = Ok s →
  valid_state url_host_parse s ∧ within_limit s ∧ constraints s = spec_constraints spec.
Proof.
  unfold from_config_and_constraints, build_config_state_for_spec.
  destruct (match r with Some r => apply_requirements _ _ _ _ | None => _ end) as [c k] eqn:Ea.
  rewrite bind_unit_ok. intros [Hv [= <-]] Hb. simpl in *.
  destruct (build_inv _ _ _ _ _ Hb) as (Ec & Es & Hc & Hbl).
  split_and!; [split; [|done]| |done]; rewrite ?Ec, ?Es; [by apply validate_ok|].
  unfold within_limit. rewrite Hbl. simpl. lia.
Qed.

(** C10. With managed domains only, the administrator's list is the last word.
    Whatever the user configures, the rules of the execution policy say, the
    operations of the proxy do or somebody would approve, a request is let
    through only if a pattern that the administrator allows matches its host. *)
Theorem managed_only_end_to_end cfg r profile spec s o sched w lookup target a policy_decider flow :
  from_config_and_constraints url_host_parse cfg (Some r) profile = Ok spec →
  managed_allowed_domains_only r = true →
  started mitm_new home_dir url_host_parse macos canonicalize s o sched w →
  constraints (state (shared w)) = spec_constraints spec →
  answers_from w lookup target a →
  forwards macos a (proxy_decider spec profile policy_decider flow) target →
  ∃ host p, host_parse (normalize_host target.1) = Some host ∧
    (p, TomlAllow) ∈ default [] (r_domains r) ∧ matches_host_or_unscoped p host = true.
Proof.
  intros Hf Hr Hs Hc Ha Hfw. unfold from_config_and_constraints in Hf. rewrite Hr in Hf.
  destruct (apply_requirements cfg r profile true) as [c k] eqn:Ea. rewrite bind_unit_ok in Hf.
  destruct Hf as [_ [= <-]]. simpl in Hc.
  unfold proxy_decider in Hfw. rewrite andb_false_r in Hfw.
  apply forwards_approved in Hfw as [rq [Hal|(_ & f & [=] & _)]].
  unfold answers_from in Ha. rewrite Ha in Hal. injection Hal as Hal.
  unfold apply_requirements in Ea. injection Ea as _ Ek. rewrite <-Ek in Hc. clear Ek.
  assert (Hx : allowlist_expansion_enabled profile true = false) by apply andb_false_r.
  rewrite Hx in Hc.
  assert (Hm1 := f_equal c_allowed_domains Hc). assert (Hx1 := f_equal c_allowlist_expansion_enabled Hc).
  destruct (pinned_matches _ _ _ _ _ _ _ _ _ _ _ _ _ Hs Hm1 Hx1 Hal) as (host & p & Hh & Hp & Hm).
  exists host, p. split_and!; [done| |done].
  destruct (r_domains r) as [es|]; simpl in *; [by apply toml_domains_elem|by apply elem_of_nil in Hp].
Qed.
End managed.

(** Layers that the user controls give no constraints. *)
Lemma user_layers_do_not_constrain layers :
  network_constraints_from_trusted_layers layers =
    network_constraints_from_trusted_layers (List.filter (λ l, negb (is_user_controlled_layer l.1)) layers).
Proof.
  unfold network_constraints_from_trusted_layers. generalize default_constraints.
  induction layers as [|l layers IH]; intros c; simpl; [done|].
  destruct (is_user_controlled_layer l.1) eqn:E; simpl; [apply IH|]. rewrite E. apply IH.
Qed.

(** ** Examples *)

Definition demo_requirements (only : bool) (entries : list (string * NetworkDomainPermissionToml)) : NetworkConstraints :=
  mkRequirements None None None None None None (Some (map (λ e, (lit e.1, e.2)) entries)) (Some only) None None.

(** A user who denies a domain that the administrator allows, written in
    other letters, gets an error instead of a narrower list: the entries are
    told apart by case when the effective list is made, and not when it is
    compared with the managed list. *)
Theorem case_variant_denial_rejected url_host_parse :
  let r := demo_requirements true [("example.com", TomlAllow)] in
  is_ok (from_config_and_constraints url_host_parse (demo_config [] ["example.com"]) (Some r) Disabled) = true ∧
  from_config_and_constraints url_host_parse (demo_config [] ["Example.com"]) (Some r) Disabled =
    Err (InvalidValue (lit "network.allowed_domains") (DebugList [lit "example.com"])
           (Text (lit "must match managed allowed_domains"))).
Proof. by vm_compute. Qed.

Definition demo_only : NetworkConstraints := demo_requirements true [("*.example.com", TomlAllow)].
Definition demo_spec : NetworkProxySpec :=
  match from_config_and_constraints demo_url_host (demo_config ["b.com"] []) (Some demo_only) Disabled with
  | Ok spec => spec
  | _ => mkSpec default_settings None default_settings default_constraints false
  end.
Definition demo_spec_state : ConfigState unit := demo_build (spec_config demo_spec) (spec_constraints demo_spec).
Definition demo_target : str * N := (lit "API.example.com", 443).
Definition demo_spec_answers : Answers :=
  demo_answers (host_decision demo_spec_state demo_public (normalize_host demo_target.1) demo_target.2).

Lemma demo_spec_started :
  started demo_mitm None demo_url_host false (λ _, None) demo_spec_state false []
    (with_reloader demo_spec_state false).
Proof.
  destruct (spec_state_valid demo_mitm None demo_url_host (demo_config ["b.com"] []) (Some demo_only) Disabled
    demo_spec demo_spec_state) as (Hv & Hl & _); [by vm_compute..|].
  split_and!; [done|done|by apply Forall_nil|done].
Qed.

Lemma managed_only_end_to_end_witness :
  ∃ host p, host_parse (normalize_host demo_target.1) = Some host ∧
    (p, TomlAllow) ∈ default [] (r_domains demo_only) ∧ matches_host_or_unscoped p host = true.
Proof.
  apply (managed_only_end_to_end demo_mitm None demo_url_host false (λ _, None) (demo_config ["b.com"] [])
    demo_only Disabled demo_spec demo_spec_state false [] (with_reloader demo_spec_state false) demo_public
    demo_target demo_spec_answers demo_decider true);
    [by vm_compute|done|exact demo_spec_started|by vm_compute|done|].
  left. exists (mkConnect true (Some demo_target) None). do 3 eexists. by vm_compute.
Defined.
