(* ===== verification/PatchSafety.v ===== *)
(** * Approval of patches: [core/src/safety.rs]

    A verified [apply_patch] call ([Invocation]) is approved, asked about or
    rejected by the approval settings ([ExecApproval]), the permission profile
    and the file-system policy ([Permissions]).  The main theorem composes the
    three with [ApplyPatch]: what is approved without asking changes only
    files that the policy lets the agent write. *)
From S2P Require Import Prelude RustStr PatchParser PatchRoundtrip Utf8 AbsolutePath FileSystem Replacements ApplyPatch Invocation Ordering Paths ExecPolicy Permissions SandboxRoots PermissionsProofs PermissionProfile ExecApproval.

Inductive SandboxType := SandboxNone | MacosSeatbelt | LinuxSeccomp | WindowsRestrictedToken.

#[global] Instance SandboxType_eq_dec : EqDecision SandboxType.
Proof. solve_decision. Defined.

Inductive WindowsSandboxLevel := WindowsDisabled | WindowsRestricted | WindowsElevated.

(** [cfg!(target_os = ..)] *)
Inductive TargetOs := Macos | Linux | Windows | OtherOs.

Inductive SafetyCheck :=
| AutoApprove (sandbox_type : SandboxType) (user_explicitly_approved : bool)
| AskUser
| Reject (reason : str).

Definition PATCH_REJECTED_OUTSIDE_PROJECT_REASON : str :=
  lit "writing outside of the project; rejected by user approval settings".
Definition PATCH_REJECTED_READ_ONLY_REASON : str :=
  lit "writing is blocked by read-only sandbox; rejected by user approval settings".

Definition get_platform_sandbox (os : TargetOs) (windows_sandbox_enabled : bool) : option SandboxType :=
  match os with
  | Macos => Some MacosSeatbelt
  | Linux => Some LinuxSeccomp
  | Windows => if windows_sandbox_enabled then Some WindowsRestrictedToken else None
  | OtherOs => None
  end.

(** [util::resolve_path] *)
Definition util_resolve_path (base path : str) : str :=
  if is_absolute path then path else path_push base path.

(** The local [normalize], which never fails. *)
Definition normalize (path : str) : option str :=
  Some (foldl (λ out comp,
    match comp with
    | ParentDir => path_pop out
    | CurDir => out
    | other => path_push out (as_os_str other)
    end) [] (components path)).

Section safety.
Context (env : Env).

(** The closure [is_path_writable]. *)
Definition patch_path_writable (file_system_sandbox_policy : FileSystemSandboxPolicy) (cwd p : str) : bool :=
  match normalize (util_resolve_path cwd p) with
  | Some abs => can_write_path_with_cwd env file_system_sandbox_policy abs cwd
  | None => false
  end.

(** One turn of the loop. *)
Definition change_constrained (file_system_sandbox_policy : FileSystemSandboxPolicy) (cwd : str)
    (entry : str * ApplyPatchFileChange) : bool :=
  let '(path, change) := entry in
  match change with
  | AddChange _ | DeleteChange _ => patch_path_writable file_system_sandbox_policy cwd path
  | UpdateChange _ move_path _ =>
      patch_path_writable file_system_sandbox_policy cwd path &&
      match move_path with
      | Some dest => patch_path_writable file_system_sandbox_policy cwd dest
      | None => true
      end
  end.

Definition is_write_patch_constrained_to_writable_paths (action : ApplyPatchAction)
    (file_system_sandbox_policy : FileSystemSandboxPolicy) (cwd : str) : bool :=
  forallb (change_constrained file_system_sandbox_policy cwd) (map_to_list (changes action)).

Definition patch_rejection_reason (profile : PermissionProfile)
    (file_system_sandbox_policy : FileSystemSandboxPolicy) (cwd : str) : str :=
  match profile with
  | Managed _ _ =>
      if negb (has_full_disk_write_access file_system_sandbox_policy) &&
         bool_decide (get_writable_roots_with_cwd env file_system_sandbox_policy cwd = [])
      then PATCH_REJECTED_READ_ONLY_REASON
      else PATCH_REJECTED_OUTSIDE_PROJECT_REASON
  | Disabled | External _ => PATCH_REJECTED_OUTSIDE_PROJECT_REASON
  end.

Definition assess_patch_safety (os : TargetOs) (action : ApplyPatchAction) (policy : AskForApproval)
    (profile : PermissionProfile) (file_system_sandbox_policy : FileSystemSandboxPolicy) (cwd : str)
    (windows_sandbox_level : WindowsSandboxLevel) : SafetyCheck :=
  if decide (changes action = ∅) then Reject (lit "empty patch")
  else
    match policy with
    | UnlessTrusted => AskUser
    | OnFailure | Never | OnRequest | Granular _ =>
        let rejects_sandbox_approval :=
          match policy with
          | Never => true
          | Granular granular_config => negb (sandbox_approval granular_config)
          | _ => false
          end in
        let rejected := Reject (patch_rejection_reason profile file_system_sandbox_policy cwd) in
        if is_write_patch_constrained_to_writable_paths action file_system_sandbox_policy cwd
           || match policy with OnFailure => true | _ => false end
        then
          match profile with
          | Disabled | External _ => AutoApprove SandboxNone false
          | Managed _ _ =>
              match get_platform_sandbox os
                      (match windows_sandbox_level with WindowsDisabled => false | _ => true end) with
              | Some sandbox_type => AutoApprove sandbox_type false
              | None => if rejects_sandbox_approval then rejected else AskUser
              end
          end
        else if rejects_sandbox_approval then rejected
        else AskUser
    end.
End safety.

(** ** What the answers mean *)

Lemma change_paths_writable env p cwd path change :
  change_constrained env p cwd (path, change) = true ↔
  patch_path_writable env p cwd path = true ∧
  ∀ diff dest content, change = UpdateChange diff (Some dest) content →
    patch_path_writable env p cwd dest = true.
Proof.
  destruct change as [| |d [dest|] c]; simpl; [naive_solver..| |]; rewrite ?andb_true_iff; naive_solver.
Qed.

Lemma constrained_spec env action p cwd :
  is_write_patch_constrained_to_writable_paths env action p cwd = true ↔
  ∀ path change, changes action !! path = Some change →
    patch_path_writable env p cwd path = true ∧
    ∀ diff dest content, change = UpdateChange diff (Some dest) content →
      patch_path_writable env p cwd dest = true.
Proof.
  unfold is_write_patch_constrained_to_writable_paths. rewrite forallb_forall. split.
  - intros H path change Hc. apply change_paths_writable, H, list_elem_of_In, elem_of_map_to_list. done.
  - intros H [path change] Hin%list_elem_of_In%elem_of_map_to_list. by apply change_paths_writable, H.
Qed.

(** Whether the settings reject every question about the sandbox. *)
Definition rejects_questions (policy : AskForApproval) : Prop :=
  match policy with
  | Never => True
  | Granular config => sandbox_approval config = false
  | _ => False
  end.

Definition sandboxed (profile : PermissionProfile) : Prop :=
  match profile with Managed _ _ => True | Disabled | External _ => False end.

Lemma platform_sandbox_real os enabled : get_platform_sandbox os enabled ≠ Some SandboxNone.
Proof. by destruct os, enabled. Qed.

(** The answer about a patch, case by case.  A patch is approved without
    asking only when it changes something, the settings do not want every
    patch reviewed, and either they leave failures to the sandbox or each
    path the patch names, destinations of moves included, is writable; under
    a managed profile it then always runs in the sandbox of the platform, and
    outside only when the profile switches the sandbox off.  The user is
    asked only when the settings allow it, and a patch is rejected only when
    it is empty or the settings forbid asking. *)
Theorem assess_patch_safety_correct env os action policy profile p cwd level :
  match assess_patch_safety env os action policy profile p cwd level with
  | AutoApprove sandbox_type explicit =>
      changes action ≠ ∅ ∧ explicit = false ∧ policy ≠ UnlessTrusted ∧
      (policy = OnFailure ∨ ∀ path change, changes action !! path = Some change →
         patch_path_writable env p cwd path = true ∧
         ∀ diff dest content, change = UpdateChange diff (Some dest) content →
           patch_path_writable env p cwd dest = true) ∧
      (sandboxed profile ↔ sandbox_type ≠ SandboxNone) ∧
      (sandboxed profile → get_platform_sandbox os
        (match level with WindowsDisabled => false | _ => true end) = Some sandbox_type)
  | AskUser => changes action ≠ ∅ ∧ ¬ rejects_questions policy
  | Reject _ => changes action = ∅ ∨ rejects_questions policy
  end.
Proof.
  assert (Hcon := constrained_spec env action p cwd). unfold assess_patch_safety.
  case_decide as He; [by left|]. set (W := ∀ path change, _ → _) in *. clearbody W.
  destruct (is_write_patch_constrained_to_writable_paths env action p cwd).
  all: destruct policy as [| | |[[] ? ? ? ?]|]; simpl;
    first [done | by right | split; [done|by intros []] | idtac].
  all: destruct profile; first [split_and!; first [done | by left | by right; apply Hcon] | idtac].
  all: assert (Hs := platform_sandbox_real os (match level with WindowsDisabled => false | _ => true end));
    destruct (get_platform_sandbox os _) as [sb|];
    first [done | by right | split; [done|by intros []] | idtac].
  all: split_and!; first [done | by left | by right; apply Hcon | split; [intros _ ->; by apply Hs|done]].
Qed.

(** ** Approved patches stay inside *)

Lemma normalize_eq p : normalize p = Some (foldl normalize_step [] (components p)).
Proof. done. Qed.

Lemma normalize_normalized base p :
  normalized_abs p → normalize (util_resolve_path base p) = Some p.
Proof.
  intros (ns & Hns & ->). assert (Ha : is_absolute (render ns) = true) by (apply is_absolute_spec; by eexists).
  unfold util_resolve_path. rewrite Ha, normalize_eq, components_render by done. f_equal. cbn [foldl].
  change (normalize_step [] RootDir) with (render []).
  destruct (normalize_fold (map Normal ns) []) as [-> _]; [by apply Forall_fmap|done|].
  by rewrite foldl_resolve_names.
Qed.

Section inside.
Context (text_diff : str → str → nat → str).
Context {FS Sandbox : Type} `{!ExecutorFileSystem FS Sandbox} `{!FileSystemLaws FS Sandbox}.
Context (home_dir : option str) (sandbox : option Sandbox) (cwd : str).
Implicit Types (fs : FS).
#[local] Set Default Proof Using "Type*".

Local Abbreviation collect := (collect_changes text_diff home_dir sandbox).
Local Abbreviation key := (λ h, resolve_path home_dir h cwd).

Lemma collect_changes_keep fs hs acc ch path :
  collect fs cwd hs acc = Ok ch → (path ∉ map key hs) → ch !! path = acc !! path.
Proof.
  revert acc; induction hs as [|h hs IH]; intros acc Hch Hp; simpl in Hch, Hp.
  { by injection Hch as <-. }
  destruct (hunk_change _ _ _ _ _ _) as [c| |]; [|done..]. simpl in Hch.
  apply not_elem_of_cons in Hp as [Hne Hp]. rewrite (IH _ Hch Hp). by apply lookup_insert_ne.
Qed.

(** When the hunks name different files, every hunk has its change. *)
Lemma collect_changes_complete fs hs acc ch h :
  NoDup (map key hs) → collect fs cwd hs acc = Ok ch → h ∈ hs →
  ∃ c, hunk_change text_diff home_dir sandbox fs cwd h = Ok c ∧ ch !! key h = Some c.
Proof.
  revert acc; induction hs as [|h' hs IH]; intros acc Hnd Hch Hin; [by apply elem_of_nil in Hin|].
  simpl in Hch, Hnd. destruct (hunk_change text_diff home_dir sandbox fs cwd h') as [c| |] eqn:Hc; [|done..].
  simpl in Hch. apply NoDup_cons in Hnd as [Hni Hnd]. apply elem_of_cons in Hin as [->|Hin]; [|eauto].
  exists c. split; [done|]. rewrite (collect_changes_keep _ _ _ _ _ Hch Hni). apply lookup_insert_eq.
Qed.

(** The paths of a hunk are those of its change. *)
Lemma touched_change fs h c q :
  hunk_change text_diff home_dir sandbox fs cwd h = Ok c → q ∈ touched home_dir cwd h →
  q = key h ∨ ∃ diff content, c = UpdateChange diff (Some q) content.
Proof.
  unfold touched. intros Hc [->|Hq]%elem_of_cons; [by left|right].
  destruct h as [| |path [dest|] chunks]; try by apply elem_of_nil in Hq.
  apply list_elem_of_singleton in Hq as ->. simpl in Hc.
  destruct (unified_diff_from_chunks _ _ _ _ _); [|done..]. simpl in Hc. injection Hc as <-.
  by eexists _, _.
Qed.

Lemma touched_normalized h q :
  is_absolute cwd = true → q ∈ touched home_dir cwd h → normalized_abs q.
Proof.
  intros Ha. unfold touched. intros [->|Hq]%elem_of_cons; [by apply resolve_normalized|].
  destruct h as [| |path [dest|] chunks]; try by apply elem_of_nil in Hq.
  apply list_elem_of_singleton in Hq as ->. by apply resolve_normalized.
Qed.

Lemma constrained_touched env p turn_cwd fs hs ch patch q h :
  is_absolute cwd = true → NoDup (map key hs) → collect fs cwd hs ∅ = Ok ch →
  is_write_patch_constrained_to_writable_paths env
    {| changes := ch; action_patch := patch; action_cwd := cwd |} p turn_cwd = true →
  h ∈ hs → q ∈ touched home_dir cwd h → can_write_path_with_cwd env p q turn_cwd = true.
Proof.
  intros Ha Hnd Hch Hcon Hh Hq.
  destruct (collect_changes_complete _ _ _ _ _ Hnd Hch Hh) as (c & Hc & Hlook).
  pose proof (touched_normalized h q Ha Hq) as Hnorm.
  destruct (proj1 (constrained_spec _ _ _ _) Hcon _ _ Hlook) as [Hpath Hdest].
  unfold patch_path_writable in Hpath, Hdest.
  destruct (touched_change _ _ _ _ Hc Hq) as [->|(diff & content & ->)].
  - by rewrite normalize_normalized in Hpath.
  - specialize (Hdest _ _ _ eq_refl). by rewrite normalize_normalized in Hdest.
Qed.
End inside.

(** What is verified was read from some text; the recorded text and the hunks
    are those of its reading. *)
Lemma parsed_from_text query_matches argv args :
  maybe_parse_apply_patch (E:=Empty_set) query_matches argv = Ok (Body args) →
  ∃ text args0, parse_patch text = Ok args0 ∧ patch args = patch args0 ∧ hunks args = hunks args0.
Proof.
  assert (Hshell : maybe_parse_apply_patch_shell (E:=Empty_set) query_matches argv = Ok (Body args) →
    ∃ text args0, parse_patch text = Ok args0 ∧ patch args = patch args0 ∧ hunks args = hunks args0).
  { unfold maybe_parse_apply_patch_shell. destruct (parse_shell_script argv) as [[shell script]|]; [|done].
    destruct (extract_apply_patch_from_shell _ _ _) as [[body dir]|[]|]; try done.
    unfold parse_body. destruct (parse_patch body) as [source|e|q] eqn:E; [|done..]. intros [= <-]. eauto. }
  unfold maybe_parse_apply_patch. destruct argv as [|cmd [|body [|]]]; try exact Hshell.
  case_decide; [|exact Hshell]. destruct (parse_patch body) as [source|e|q] eqn:E; [|done..].
  intros [= <-]. eauto.
Qed.

Lemma verified_action query_matches text_diff home_dir {FS Sandbox : Type} `{!ExecutorFileSystem FS Sandbox}
    (sandbox : option Sandbox) argv cwd (fs : FS) action :
  maybe_parse_apply_patch_verified query_matches text_diff home_dir sandbox argv cwd fs
    = Ok (VerifiedBody action) →
  ∃ args, maybe_parse_apply_patch (E:=Empty_set) query_matches argv = Ok (Body args) ∧
    action_patch action = patch args ∧
    action_cwd action = match workdir args with Some dir => abs_join home_dir cwd dir | None => cwd end ∧
    collect_changes text_diff home_dir sandbox fs (action_cwd action) (hunks args) ∅ = Ok (changes action).
Proof.
  unfold maybe_parse_apply_patch_verified.
  destruct (is_raw_patch argv); [done|]. destruct (is_raw_patch_script argv); [done|].
  destruct (maybe_parse_apply_patch _ argv) as [[args|e|e|]|e|q]; try done. cbn [mbind Res_bind].
  destruct (collect_changes _ _ _ _ _ _ _) as [ch| |] eqn:Hch; [|done..]. intros [= <-].
  exists args. by split_and!.
Qed.

Lemma approved_constrained env os action policy profile p cwd level sandbox_type explicit :
  assess_patch_safety env os action policy profile p cwd level = AutoApprove sandbox_type explicit →
  policy ≠ OnFailure → is_write_patch_constrained_to_writable_paths env action p cwd = true.
Proof.
  unfold assess_patch_safety. case_decide; [done|].
  destruct (is_write_patch_constrained_to_writable_paths env action p cwd); [done|].
  by destruct policy as [| | |[[] ? ? ? ?]|].
Qed.

(** C3. A patch that is approved without asking, by settings that do not leave
    failures to the sandbox, changes only files that the policy lets the
    agent write: from the command line, through verification and the approval,
    to what the runtime does with the recorded text, which it reads again and
    applies, at any later state of the file system and with whatever outcome,
    every file that the policy protects stays as it was.  This holds when no
    line of the recorded text ends in a carriage return and no file is named
    as the subject of two hunks. *)
Theorem approved_patch_stays_inside {FS Sandbox W : Type} `{!ExecutorFileSystem FS Sandbox}
    `{!FileSystemLaws FS Sandbox} `{!Write W} query_matches text_diff home_dir (sandbox sandbox' : option Sandbox)
    argv cwd (fs : FS) action env os policy profile p level sandbox_type explicit
    (w : world (FS:=FS) (W:=W)) q :
  is_absolute cwd = true →
  maybe_parse_apply_patch_verified query_matches text_diff home_dir sandbox argv cwd fs
    = Ok (VerifiedBody action) →
  Forall (λ l, ¬ ends_in_cr l) (split_on c_nl (action_patch action)) →
  (∀ args, parse_patch (action_patch action) = Ok args →
     NoDup (map (λ h, resolve_path home_dir h (action_cwd action)) (hunks args))) →
  assess_patch_safety env os action policy profile p cwd level = AutoApprove sandbox_type explicit →
  policy ≠ OnFailure →
  can_write_path_with_cwd env p q cwd = false →
  view sandbox' (w_fs (apply_patch home_dir sandbox' (action_patch action) (action_cwd action) w).1) q
  = view sandbox' (w_fs w) q.
Proof.
  intros Ha Hv Hcr Hnd Hsafe Hpol Hq.
  destruct (verified_action _ _ _ _ _ _ _ _ Hv) as (args & Hp & Hpatch & Hcwd & Hch).
  destruct (parsed_from_text _ _ _ Hp) as (text & args0 & Htext & Hpatch0 & Hhunks0).
  destruct (recorded_text_reads_the_same text Lenient args0 Htext) as (args' & Hread & Hhunks).
  { by rewrite <-Hpatch0, <-Hpatch. }
  rewrite <-Hpatch0, <-Hpatch in Hread. rewrite <-Hhunks0 in Hhunks.
  apply apply_patch_frame. intros args2 h Hread2 Hh Ht. rewrite Hread in Hread2. injection Hread2 as <-.
  specialize (Hnd _ Hread). rewrite Hhunks in Hh, Hnd.
  apply not_true_iff_false in Hq. apply Hq. destruct action as [ch pt acwd]. simpl in *.
  eapply constrained_touched; [apply _| |exact Hnd|exact Hch|eapply approved_constrained; eassumption|exact Hh|exact Ht].
  rewrite Hcwd. destruct (workdir args) as [s|]; [|done]. destruct (resolve_normalized home_dir s cwd Ha) as (ns & _ & E).
  unfold abs_join. rewrite E. apply is_absolute_spec. by eexists.
Qed.

(** C39. Why the hunks must name different files.  The changes that are checked
    are a map with one entry for each file, so a later hunk on the same file
    hides an earlier one.  Take any patch that moves a file to any destination
    and then adds the file again: when it is verified and the file is
    writable, then under a sandboxed profile on a platform with a sandbox it is
    approved without asking, wherever the destination is, unless the settings
    want every patch reviewed; and when its hunks are applied, the destination
    gets the updated text. *)
Theorem repeated_path_evades_check {FS Sandbox : Type} `{!ExecutorFileSystem FS Sandbox}
    `{!FileSystemLaws FS Sandbox} query_matches text_diff home_dir (sandbox : option Sandbox)
    argv cwd (fs : FS) action args path dest chunks contents env os policy profile p level sandbox_type :
  let source := resolve_path_against_base home_dir path (action_cwd action) in
  let target := resolve_path_against_base home_dir dest (action_cwd action) in
  maybe_parse_apply_patch_verified query_matches text_diff home_dir sandbox argv cwd fs
    = Ok (VerifiedBody action) →
  maybe_parse_apply_patch (E:=Empty_set) query_matches argv = Ok (Body args) →
  hunks args = [UpdateFile path (Some dest) chunks; AddFile path contents] →
  target ≠ source →
  policy ≠ UnlessTrusted → sandboxed profile →
  get_platform_sandbox os (match level with WindowsDisabled => false | _ => true end) = Some sandbox_type →
  patch_path_writable env p cwd source = true →
  assess_patch_safety env os action policy profile p cwd level = AutoApprove sandbox_type false ∧
  ∀ fs1 fs2 a, apply_hunks_to_files home_dir sandbox (hunks args) (action_cwd action) fs1 = (fs2, Ok a) →
    ∃ new, updated_text source chunks (view sandbox fs1) new ∧ view sandbox fs2 target = Some (encode new).
Proof.
  intros source target Hv Hp Hhunks Hne Hpol Hprof Hsb Hw.
  destruct (verified_action _ _ _ _ _ _ _ _ Hv) as (args' & Hp' & _ & _ & Hch).
  rewrite Hp in Hp'. injection Hp' as <-. rewrite Hhunks in Hch |- *. split.
  - cbn [collect_changes] in Hch. unfold mbind in Hch.
    destruct (hunk_change _ _ _ _ _ (UpdateFile _ _ _)) as [c| |]; cbn in Hch; [|done..]. injection Hch as Hch.
    change (resolve_path home_dir (UpdateFile path (Some dest) chunks) (action_cwd action)) with source in Hch.
    change (resolve_path home_dir (AddFile path contents) (action_cwd action)) with source in Hch.
    rewrite insert_insert_eq in Hch.
    assert (Hcon : is_write_patch_constrained_to_writable_paths env action p cwd = true).
    { apply constrained_spec. intros path' change. rewrite <-Hch, insert_empty.
      intros [<- <-]%lookup_singleton_Some. by split. }
    unfold assess_patch_safety. rewrite decide_False.
    2:{ rewrite <-Hch. apply insert_non_empty. }
    rewrite Hcon, Hsb. cbn [orb]. destruct profile; [|done..]. by destruct policy.
  - intros fs1 fs2 a (_ & Heff & _)%to_files_ok.
    inversion Heff as [|? ? ? m ? Hh Ht]; subst. inversion Ht as [|? ? ? m' ? Hh' Ht']; subst.
    inversion Ht' as [? ? Hs|]; subst. inversion Hh as [| | |? ? ? ? ? new Hupd Hm]; subst.
    inversion Hh' as [? ? ? ? Hadd| | |]; subst.
    exists new. split; [exact Hupd|]. rewrite Hs, Hadd. fold source target. unfold upd.
    rewrite decide_False, Hm by done. unfold upd. rewrite decide_False by done. by rewrite decide_True.
Qed.

(** ** Examples *)

(** A workspace at [/w]. *)
Definition workspace_policy : FileSystemSandboxPolicy :=
  restricted [mkEntry (Special Root) AccessRead; mkEntry (Special (ProjectRoots None)) AccessWrite].
Definition workspace_profile : PermissionProfile := Managed ManagedUnrestricted NetworkRestricted.

Lemma approved_patch_stays_inside_witness :
  view (Sandbox:=unit) None (w_fs (apply_patch None (Sandbox:=unit) None (action_patch demo_action)
    (action_cwd demo_action) demo_world).1) (lit "/etc/passwd") =
  view (Sandbox:=unit) None (w_fs demo_world) (lit "/etc/passwd").
Proof.
  apply (approved_patch_stays_inside no_matches plain_diff None None None demo_argv (lit "/w") demo_fs demo_action
    demo_env Linux OnRequest workspace_profile workspace_policy WindowsDisabled LinuxSeccomp false).
  - reflexivity.
  - vm_compute. reflexivity.
  - by_compute.
  - intros args. vm_compute. intros [= <-]. by_compute.
  - vm_compute. reflexivity.
  - discriminate.
  - vm_compute. reflexivity.
Defined.

(** A move out of the workspace, hidden by adding the file again. *)
Definition evading_patch : str :=
  join [c_nl] [lit "*** Begin Patch"; lit "*** Update File: f"; lit "*** Move to: /out/f"; lit "-a"; lit "+A";
    lit "*** Add File: f"; lit "+x"; lit "*** End Patch"].
Definition evading_args : ApplyPatchArgs :=
  match parse_patch evading_patch with Ok args => args | _ => {| patch := []; hunks := []; workdir := None |} end.
Definition evading_action : ApplyPatchAction :=
  {| changes := <[lit "/w/f" := AddChange (lit "x" ++ [c_nl])]> ∅; action_patch := evading_patch; action_cwd := lit "/w" |}.

Lemma repeated_path_evades_check_witness :
  can_write_path_with_cwd demo_env workspace_policy (lit "/out/f") (lit "/w") = false ∧
  assess_patch_safety demo_env Linux evading_action OnRequest workspace_profile workspace_policy (lit "/w")
    WindowsDisabled = AutoApprove LinuxSeccomp false ∧
  ∃ new, view (Sandbox:=unit) None (apply_hunks_to_files None (Sandbox:=unit) None (hunks evading_args) (lit "/w")
    demo_fs).1 (lit "/out/f") = Some (encode new).
Proof.
  split; [vm_compute; reflexivity|].
  edestruct (repeated_path_evades_check no_matches plain_diff None (Sandbox:=unit) None
    [lit "apply_patch"; evading_patch] (lit "/w") demo_fs evading_action evading_args (lit "f") (lit "/out/f")
    [{| change_context := None; old_lines := [lit "a"]; new_lines := [lit "A"]; is_end_of_file := false |}]
    (lit "x" ++ [c_nl]) demo_env Linux OnRequest workspace_profile workspace_policy WindowsDisabled LinuxSeccomp)
    as [Hsafe Happ];
    [vm_compute; reflexivity|vm_compute; reflexivity|vm_compute; reflexivity|discriminate|discriminate|exact I
    |reflexivity|vm_compute; reflexivity|].
  split; [exact Hsafe|].
  destruct (apply_hunks_to_files None (Sandbox:=unit) None (hunks evading_args) (lit "/w") demo_fs) as [fs2 r] eqn:E.
  assert (Hr : is_ok r = true) by (change r with (fs2, r).2; rewrite <-E; vm_compute; reflexivity).
  destruct r as [a| |]; [|done..]. destruct (Happ _ _ _ E) as (new & _ & Hnew). by exists new.
Defined.

(** Why no line may end in a carriage return: the destination of this move is
    read with one first and without it by the runtime.  The patch is approved
    on account of the one, and changes the other, which the policy protects. *)
Definition returning_patch : str :=
  join [c_nl] [lit "*** Begin Patch"; lit "*** Update File: f"; lit "*** Move to: secret" ++ [c_cr; c_cr]; lit "-a";
    lit "+A"; lit "*** End Patch"].
Definition secret_policy : FileSystemSandboxPolicy :=
  restricted (entries workspace_policy ++ [mkEntry (Path (lit "/w/secret")) AccessRead]).

Theorem carriage_return_evades_check :
  ∃ action,
    maybe_parse_apply_patch_verified no_matches plain_diff None (Sandbox:=unit) None
      [lit "apply_patch"; returning_patch] (lit "/w") demo_fs = Ok (VerifiedBody action) ∧
    assess_patch_safety demo_env Linux action OnRequest workspace_profile secret_policy (lit "/w")
      WindowsDisabled = AutoApprove LinuxSeccomp false ∧
    can_write_path_with_cwd demo_env secret_policy (lit "/w/secret") (lit "/w") = false ∧
    view (Sandbox:=unit) None demo_fs (lit "/w/secret") = None ∧
    view (Sandbox:=unit) None (w_fs (apply_patch None (Sandbox:=unit) None (action_patch action)
      (action_cwd action) demo_world).1) (lit "/w/secret") = Some (Utf8.encode demo_new_text).
Proof.
  eexists. split; [vm_compute; reflexivity|].
  split_and!; vm_compute; reflexivity.
Qed.
