(* ===== verification/ShellEnvironment.v ===== *)
(** * The environment of a command: [protocol/src/shell_environment.rs]

    Which variables of the process a command inherits, by the policy of
    [protocol/src/config_types.rs].  The patterns of the wildmatch crate are a
    parameter; what is relied on is that a pattern [*word*] that ignores case
    matches every name with the word in it. *)
From S2P Require Import Prelude RustStr.

Inductive ShellEnvironmentPolicyInherit := InheritCore | InheritAll | InheritNone.

(** [HashMap::from_iter]: the last of several values stays. *)
Definition collect (vars : list (str * str)) : gmap str str :=
  foldl (λ m kv, <[kv.1 := kv.2]> m) ∅ vars.
(** [HashMap::retain] on the keys. *)
Definition retain (keep : str → bool) (m : gmap str str) : gmap str str := filter (λ kv, keep kv.1 = true) m.

Definition CODEX_THREAD_ID_ENV_VAR : str := lit "CODEX_THREAD_ID".
Definition UNIX_CORE_ENV_VARS : list str :=
  map lit ["PATH"; "SHELL"; "TMPDIR"; "TEMP"; "TMP"; "HOME"; "LANG"; "LC_ALL"; "LC_CTYPE"; "LOGNAME"; "USER"]%string.

Record ShellEnvironmentPolicy (Pattern : Type) := mkEnvironmentPolicy {
  inherit : ShellEnvironmentPolicyInherit;
  ignore_default_excludes : bool;
  exclude : list Pattern;
  set_vars : gmap str str;
  include_only : list Pattern;
  use_profile : bool
}.
Arguments mkEnvironmentPolicy {_}.
Arguments inherit {_}.
Arguments ignore_default_excludes {_}.
Arguments exclude {_}.
Arguments set_vars {_}.
Arguments include_only {_}.
Arguments use_profile {_}.

Section environment.
Context {Pattern : Type} (matches : Pattern → str → bool) (new_case_insensitive : str → Pattern).

Definition default_environment_policy : ShellEnvironmentPolicy Pattern :=
  mkEnvironmentPolicy InheritAll true [] ∅ [] false.

Definition is_core_var (core_env_vars : list str) (k : str) : bool :=
  existsb (λ allowed, eq_ignore_ascii_case allowed k) core_env_vars.

Definition inherited (vars : list (str * str)) (i : ShellEnvironmentPolicyInherit) : gmap str str :=
  match i with
  | InheritAll => collect vars
  | InheritNone => ∅
  | InheritCore => collect (filter (λ kv, is_core_var UNIX_CORE_ENV_VARS kv.1 = true) vars)
  end.

Definition matches_any (name : str) (patterns : list Pattern) : bool :=
  existsb (λ pattern, matches pattern name) patterns.

Definition default_excludes : list Pattern :=
  map new_case_insensitive [lit "*KEY*"; lit "*SECRET*"; lit "*TOKEN*"].

Definition populate_env (vars : list (str * str)) (policy : ShellEnvironmentPolicy Pattern)
    (thread_id : option str) : gmap str str :=
  let env_map := inherited vars (inherit policy) in
  let env_map :=
    if negb (ignore_default_excludes policy)
    then retain (λ k, negb (matches_any k default_excludes)) env_map else env_map in
  let env_map :=
    if bool_decide (exclude policy = []) then env_map
    else retain (λ k, negb (matches_any k (exclude policy))) env_map in
  let env_map := map_fold (λ key val m, <[key := val]> m) env_map (set_vars policy) in
  let env_map :=
    if bool_decide (include_only policy = []) then env_map
    else retain (λ k, matches_any k (include_only policy)) env_map in
  match thread_id with
  | Some thread_id => <[CODEX_THREAD_ID_ENV_VAR := thread_id]> env_map
  | None => env_map
  end.

(** As built for Unix, where nothing is added. *)
Definition create_env_from_vars (vars : list (str * str)) (policy : ShellEnvironmentPolicy Pattern)
    (thread_id : option str) : gmap str str := populate_env vars policy thread_id.
End environment.

(** ** Where a variable comes from *)
Section proofs.
Context {Pattern : Type} (matches : Pattern → str → bool) (new_case_insensitive : str → Pattern).
Abbreviation populate := (populate_env matches new_case_insensitive).

Lemma option_union_Some_l {A} (a : A) o : Some a ∪ o = Some a.
Proof. by destruct o. Qed.

Lemma lookup_retain keep m k : retain keep m !! k = if keep k then m !! k else None.
Proof.
  unfold retain. rewrite map_lookup_filter. destruct (m !! k) as [v|]; simpl; [|by destruct (keep k)].
  destruct (keep k) eqn:E; [by rewrite option_guard_True|by rewrite option_guard_False by congruence].
Qed.

Lemma set_vars_union (s m : gmap str str) : map_fold (λ key val m, <[key := val]> m) m s = s ∪ m.
Proof.
  apply (map_fold_weak_ind (λ r s, r = s ∪ m)); [by rewrite (left_id_L ∅ (∪))|].
  intros key val s' r Hs ->. by rewrite insert_union_l.
Qed.

(** Whether a variable of the process is kept out. *)
Definition excluded (policy : ShellEnvironmentPolicy Pattern) (k : str) : bool :=
  negb (ignore_default_excludes policy) && matches_any matches k (default_excludes new_case_insensitive) ||
  matches_any matches k (exclude policy).

Definition included (policy : ShellEnvironmentPolicy Pattern) (k : str) : bool :=
  bool_decide (include_only policy = []) || matches_any matches k (include_only policy).

Lemma lookup_populate vars policy thread_id k :
  populate vars policy thread_id !! k =
    match thread_id with
    | Some id => if decide (k = CODEX_THREAD_ID_ENV_VAR) then Some id else None
    | None => None
    end ∪
    if included policy k
    then set_vars policy !! k ∪ (if excluded policy k then None else inherited vars (inherit policy) !! k)
    else None.
Proof.
  unfold populate_env. rewrite set_vars_union.
  set (kept := if bool_decide (exclude policy = []) then _ else _).
  assert (Hkept : kept !! k = if excluded policy k then None else inherited vars (inherit policy) !! k).
  { unfold kept, excluded.
    assert (Hout : ∀ m : gmap str str, (if bool_decide (exclude policy = []) then m
        else retain (λ k, negb (matches_any matches k (exclude policy))) m) !! k =
      if matches_any matches k (exclude policy) then None else m !! k).
    { intros m. case_bool_decide as Hex; [by rewrite Hex|]. rewrite lookup_retain.
      by destruct (matches_any matches k (exclude policy)). }
    rewrite Hout. destruct (ignore_default_excludes policy); cbn [negb andb orb]; [done|]. rewrite lookup_retain.
    by destruct (matches_any matches k (default_excludes new_case_insensitive)), (matches_any matches k (exclude policy)). }
  set (all := if bool_decide (include_only policy = []) then _ else _).
  assert (Hall : all !! k = if included policy k then set_vars policy !! k ∪ kept !! k else None).
  { unfold all, included. destruct (bool_decide (include_only policy = [])); simpl;
      rewrite ?lookup_retain, lookup_union; done. }
  rewrite <-Hkept, <-Hall. destruct thread_id as [id|]; [|by rewrite (left_id_L None (∪))].
  case_decide as E; [subst; by rewrite lookup_insert_eq, option_union_Some_l|].
  rewrite lookup_insert_ne by done. by rewrite (left_id_L None (∪)).
Qed.

(** A pattern [*word*] that ignores case matches each name with [word] in it. *)
Definition finds_words : Prop := ∀ word name,
  contains (to_ascii_lowercase word) (to_ascii_lowercase name) = true →
  matches (new_case_insensitive (lit "*" ++ word ++ lit "*")) name = true.

Definition secret_name (name : str) : bool :=
  existsb (λ word, contains (to_ascii_lowercase word) (to_ascii_lowercase name))
    [lit "KEY"; lit "SECRET"; lit "TOKEN"].

Lemma secret_excluded policy name :
  finds_words → ignore_default_excludes policy = false → secret_name name = true → excluded policy name = true.
Proof.
  intros Hf Hi Hs. unfold excluded. rewrite Hi. apply orb_true_iff. left. cbn [negb andb].
  unfold secret_name in Hs. apply existsb_exists in Hs as (word & Hw & Hc).
  apply existsb_exists. exists (new_case_insensitive (lit "*" ++ word ++ lit "*")).
  split; [|by apply Hf]. destruct Hw as [<-|[<-|[<-|[]]]]; [by left|by right; left|by right; right; left].
Qed.

(** With the default excludes on, a command inherits no variable whose name
    has KEY, SECRET or TOKEN in it, in whatever case: such a variable is in
    its environment only when the policy sets it, with the value the policy
    gives. *)
Theorem secrets_not_inherited vars policy thread_id name value :
  finds_words → ignore_default_excludes policy = false → secret_name name = true →
  populate vars policy thread_id !! name = Some value → set_vars policy !! name = Some value.
Proof.
  intros Hf Hi Hs. rewrite lookup_populate, (secret_excluded policy name) by done.
  assert (Hne : name ≠ CODEX_THREAD_ID_ENV_VAR) by (intros ->; by vm_compute in Hs).
  rewrite (right_id_L None (∪)).
  destruct thread_id; [rewrite decide_False by done|]; rewrite (left_id_L None (∪)); by destruct (included policy name).
Qed.

(** What a command inherits is among the variables of the process, and under
    the core strategy among the core variables. *)
Lemma collect_lookup vars k v : collect vars !! k = Some v → (k, v) ∈ vars.
Proof.
  unfold collect. assert (H : ∀ m : gmap str str, foldl (λ m kv, <[kv.1 := kv.2]> m) m vars !! k = Some v →
    (k, v) ∈ vars ∨ m !! k = Some v).
  { induction vars as [|[k' v'] vars IH]; intros m; simpl; [by right|].
    intros [?|H]%IH; [left; by right|]. apply lookup_insert_Some in H as [[-> ->]|[_ H]]; [left; by left|by right]. }
  intros [?|?%lookup_empty_Some]%H; [done|]. done.
Qed.

Lemma inherited_core vars i k v :
  inherited vars i !! k = Some v →
  (k, v) ∈ vars ∧ (i = InheritCore → is_core_var UNIX_CORE_ENV_VARS k = true) ∧ i ≠ InheritNone.
Proof.
  destruct i; simpl.
  - intros [Hc Hin]%collect_lookup%list_elem_of_filter. done.
  - intros H%collect_lookup. done.
  - by rewrite lookup_empty.
Qed.

(** Every variable of a command has one of three origins: the thread id, which
    is there whatever the patterns say, the policy, or the process, when no
    exclude matches; with [include_only] the latter two also need a match. *)
Theorem variable_origin vars policy thread_id k v :
  populate vars policy thread_id !! k = Some v →
  (k = CODEX_THREAD_ID_ENV_VAR ∧ thread_id = Some v) ∨
  included policy k = true ∧
    (set_vars policy !! k = Some v ∨
     (k, v) ∈ vars ∧ excluded policy k = false ∧ inherit policy ≠ InheritNone ∧
     (inherit policy = InheritCore → is_core_var UNIX_CORE_ENV_VARS k = true)).
Proof.
  rewrite lookup_populate. intros H.
  destruct thread_id as [id|]; [case_decide as E|]; [|rewrite (left_id_L None (∪)) in H..].
  { left. rewrite option_union_Some_l in H. by injection H as ->. }
  all: right; destruct (included policy k); [|done]; split; [done|];
    destruct (set_vars policy !! k) as [w|]; [rewrite option_union_Some_l in H; injection H as ->; by left|];
    rewrite (left_id_L None (∪)) in H; right; destruct (excluded policy k); [done|];
    apply inherited_core in H as (? & ? & ?); done.
Qed.
End proofs.

(** ** Example: patterns as words to look for *)

Definition demo_pattern (s : str) : str := take (length s - 2) (drop 1 s).
Definition demo_matches (word name : str) : bool :=
  contains (to_ascii_lowercase word) (to_ascii_lowercase name).

Lemma demo_finds_words : finds_words demo_matches demo_pattern.
Proof.
  intros word name H. unfold demo_pattern, demo_matches. rewrite !length_app.
  replace (length (lit "*") + (length word + length (lit "*")) - 2) with (length word) by (simpl; lia).
  change (drop 1 (lit "*" ++ word ++ lit "*")) with (word ++ lit "*"). by rewrite take_app_length.
Qed.

Definition demo_vars : list (str * str) :=
  [(lit "api_key", lit "old"); (lit "PATH", lit "/bin"); (lit "GithubToken", lit "x")].
Definition demo_environment : ShellEnvironmentPolicy str :=
  mkEnvironmentPolicy InheritAll false [] {[lit "api_key" := lit "new"]} [] false.

Lemma secrets_not_inherited_witness :
  let result := populate_env demo_matches demo_pattern demo_vars demo_environment None in
  result !! lit "PATH" = Some (lit "/bin") ∧ result !! lit "GithubToken" = None ∧
  set_vars demo_environment !! lit "api_key" = Some (lit "new").
Proof.
  split; [vm_compute; reflexivity|]. split; [vm_compute; reflexivity|].
  apply (secrets_not_inherited demo_matches demo_pattern demo_vars demo_environment None (lit "api_key")
    (lit "new") demo_finds_words); vm_compute; reflexivity.
Defined.
