(* ===== verification/SandboxManager.v ===== *)
(** * Choosing and setting up the sandbox: [sandboxing/src/manager.rs], [sandboxing/src/landlock.rs]

    [select_initial] chooses the sandbox of the first attempt; [transform]
    turns a command into what is executed: itself, or the helper that sets up
    the sandbox with the effective profile of the command.  As built for
    Linux; texts of the operating system are valid UTF-8. *)
From S2P Require Import Prelude RustStr AbsolutePath FileSystem Ordering Paths Permissions SandboxRoots PermissionsProofs RuntimeEnforcement PermissionProfile PolicyTransforms ExecApproval PatchSafety.

Inductive SandboxablePreference := Auto | Require_ | Forbid.

Definition as_metric_tag (s : SandboxType) : str :=
  match s with
  | SandboxNone => lit "none"
  | MacosSeatbelt => lit "seatbelt"
  | LinuxSeccomp => lit "seccomp"
  | WindowsRestrictedToken => lit "windows_sandbox"
  end.

Record SandboxCommand := mkSandboxCommand {
  cmd_program : str;
  cmd_args : list str;
  cmd_cwd : str;
  cmd_env : gmap str str;
  cmd_additional_permissions : option AdditionalPermissionProfile
}.

(** The network proxy is known by its address here. *)
Record SandboxExecRequest := mkExecRequest {
  exec_command : list str;
  exec_cwd : str;
  exec_env : gmap str str;
  exec_network : option str;
  exec_sandbox : SandboxType;
  exec_permission_profile : PermissionProfile;
  exec_file_system_policy : FileSystemSandboxPolicy;
  exec_network_policy : NetworkSandboxPolicy;
  exec_arg0 : option str
}.

Record SandboxTransformRequest := mkTransformRequest {
  tr_command : SandboxCommand;
  tr_permissions : PermissionProfile;
  tr_sandbox : SandboxType;
  tr_enforce_managed_network : bool;
  tr_network : option str;
  tr_sandbox_policy_cwd : str;
  tr_codex_linux_sandbox_exe : option str;
  tr_use_legacy_landlock : bool
}.

Inductive SandboxTransformError :=
| MissingLinuxSandboxExecutable
| Wsl1UnsupportedForBubblewrap
| SeatbeltUnavailable.

Definition windows_enabled (l : WindowsSandboxLevel) : bool :=
  match l with WindowsDisabled => false | _ => true end.

Definition select_initial (os : TargetOs) (file_system_policy : FileSystemSandboxPolicy)
    (network_policy : NetworkSandboxPolicy) (pref : SandboxablePreference)
    (windows_sandbox_level : WindowsSandboxLevel) (has_managed_network_requirements : bool) : SandboxType :=
  match pref with
  | Forbid => SandboxNone
  | Require_ => default SandboxNone (get_platform_sandbox os (windows_enabled windows_sandbox_level))
  | Auto =>
      if should_require_platform_sandbox file_system_policy network_policy has_managed_network_requirements
      then default SandboxNone (get_platform_sandbox os (windows_enabled windows_sandbox_level))
      else SandboxNone
  end.

(** ** The helper's command line *)

Definition CODEX_LINUX_SANDBOX_ARG0 : str := lit "codex-linux-sandbox".
Definition allow_network_for_proxy (enforce_managed_network : bool) : bool := enforce_managed_network.

Section transform.
Context (permission_profile_json : PermissionProfile → str).

Definition create_linux_sandbox_command_args_for_permission_profile (command : list str)
    (command_cwd : str) (permission_profile : PermissionProfile) (sandbox_policy_cwd : str)
    (use_legacy_landlock allow_network_for_proxy : bool) : list str :=
  [lit "--sandbox-policy-cwd"; sandbox_policy_cwd; lit "--command-cwd"; command_cwd;
   lit "--permission-profile"; permission_profile_json permission_profile] ++
  (if use_legacy_landlock then [lit "--use-legacy-landlock"] else []) ++
  (if allow_network_for_proxy then [lit "--allow-network-for-proxy"] else []) ++
  [lit "--"] ++ command.

Definition ensure_linux_bubblewrap_is_supported (p : FileSystemSandboxPolicy)
    (use_legacy_landlock allow_network_for_proxy is_wsl1 : bool) : Res SandboxTransformError unit :=
  let requires_bubblewrap :=
    negb use_legacy_landlock && (negb (has_full_disk_write_access p) || allow_network_for_proxy) in
  if is_wsl1 && requires_bubblewrap then Err Wsl1UnsupportedForBubblewrap else Ok ().

Definition linux_sandbox_arg0_override (exe : str) : str :=
  if bool_decide (file_name exe = Some CODEX_LINUX_SANDBOX_ARG0) then exe else CODEX_LINUX_SANDBOX_ARG0.

Context (is_wsl1 : bool).

Definition transform (request : SandboxTransformRequest) : Res SandboxTransformError SandboxExecRequest :=
  let command := tr_command request in
  match effective_permission_profile (tr_permissions request) (cmd_additional_permissions command) with
  | Panic p => Panic p
  | Err e => match e with end
  | Ok effective =>
      let (file_system, network) := to_runtime_permissions effective in
      let argv := cmd_program command :: cmd_args command in
      '(argv, arg0) ←
        match tr_sandbox request with
        | SandboxNone => Ok (argv, None)
        | MacosSeatbelt => Err SeatbeltUnavailable
        | LinuxSeccomp =>
            exe ← match tr_codex_linux_sandbox_exe request with
                  | Some exe => Ok exe
                  | None => Err MissingLinuxSandboxExecutable
                  end;
            let allow_proxy_network := allow_network_for_proxy (tr_enforce_managed_network request) in
            _ ← ensure_linux_bubblewrap_is_supported file_system (tr_use_legacy_landlock request)
                  allow_proxy_network is_wsl1;
            Ok (exe :: create_linux_sandbox_command_args_for_permission_profile argv (cmd_cwd command)
                  effective (tr_sandbox_policy_cwd request) (tr_use_legacy_landlock request) allow_proxy_network,
                Some (linux_sandbox_arg0_override exe))
        | WindowsRestrictedToken => Ok (argv, None)
        end;
      Ok (mkExecRequest argv (cmd_cwd command) (cmd_env command) (tr_network request) (tr_sandbox request)
            effective file_system network arg0)
  end.
End transform.

(** ** The policy an older sandbox is told *)

Section env.
Context (env : Env).

Definition compatibility_workspace_write_policy (file_system_policy : FileSystemSandboxPolicy)
    (network_policy : NetworkSandboxPolicy) (cwd : str) : SandboxPolicy :=
  let cwd_abs := absolute env cwd in
  let writable_roots :=
    List.filter (λ root, negb (option_path_eqb cwd_abs (Some root)))
      (map root (get_writable_roots_with_cwd env file_system_policy cwd)) in
  let tmpdir_writable :=
    match (tmpdir ← tmpdir_var env; if decide (tmpdir = []) then None else absolute env tmpdir) with
    | Some tmpdir => can_write_path_with_cwd env file_system_policy tmpdir cwd
    | None => false
    end in
  let slash_tmp_writable :=
    is_dir env (lit "/tmp") && can_write_path_with_cwd env file_system_policy (lit "/tmp") cwd in
  WorkspaceWrite writable_roots (net_is_enabled network_policy) (negb tmpdir_writable) (negb slash_tmp_writable).

Definition compatibility_sandbox_policy_for_permission_profile (permissions : PermissionProfile)
    (file_system_policy : FileSystemSandboxPolicy) (network_policy : NetworkSandboxPolicy) (cwd : str)
    : Total SandboxPolicy :=
  match profile_to_legacy_sandbox_policy env permissions cwd with
  | Ok p => Ok p
  | Err _ => Ok (compatibility_workspace_write_policy file_system_policy network_policy cwd)
  | Panic p => Panic p
  end.
End env.

(** ** What runs in the sandbox *)

(** What a program finds after the first separator of its arguments. *)
Fixpoint after_separator (args : list str) : option (list str) :=
  match args with
  | [] => None
  | a :: args => if decide (a = lit "--") then Some args else after_separator args
  end.

(** A command that is to run in the Linux sandbox is never run bare.  What is
    executed is the helper, with the effective profile of the command on its
    command line; behind the separator it finds the command with its
    arguments, whatever they look like.  Without the helper the command is
    not run. *)
Theorem transform_runs_in_sandbox json wsl request r :
  (∀ p, json p ≠ lit "--") → is_absolute (cmd_cwd (tr_command request)) = true →
  is_absolute (tr_sandbox_policy_cwd request) = true →
  tr_sandbox request = LinuxSeccomp → transform json wsl request = Ok r →
  ∃ exe args profile,
    tr_codex_linux_sandbox_exe request = Some exe ∧ exec_command r = exe :: args ∧
    effective_permission_profile (tr_permissions request)
      (cmd_additional_permissions (tr_command request)) = Ok profile ∧
    exec_permission_profile r = profile ∧ exec_sandbox r = LinuxSeccomp ∧
    args !! 4 = Some (lit "--permission-profile") ∧ args !! 5 = Some (json profile) ∧
    after_separator args = Some (cmd_program (tr_command request) :: cmd_args (tr_command request)).
Proof.
  intros Hjson Hcwd Hpol Hs Ht. unfold transform in Ht.
  destruct (effective_permission_profile _ _) as [profile|[]|]; [|done].
  destruct (to_runtime_permissions profile) as [fs net]. rewrite Hs in Ht.
  destruct (tr_codex_linux_sandbox_exe request) as [exe|]; [|done]. simpl in Ht.
  destruct (ensure_linux_bubblewrap_is_supported _ _ _ _); [|done..]. simpl in Ht. simplify_eq/=.
  do 3 eexists. split_and!; try done. simpl.
  assert (Habs : ∀ p, is_absolute p = true → p ≠ lit "--") by (by intros p H ->).
  destruct (tr_use_legacy_landlock request), (allow_network_for_proxy (tr_enforce_managed_network request));
    simpl; repeat case_decide; try done; exfalso;
    first [by eapply Hjson|by eapply (Habs _ Hcwd)|by eapply (Habs _ Hpol)].
Qed.

Lemma select_initial_none os p n level managed :
  is_Some (get_platform_sandbox os (windows_enabled level)) →
  select_initial os p n Auto level managed = SandboxNone →
  should_require_platform_sandbox p n managed = false.
Proof.
  intros [sandbox Hos] Hs. unfold select_initial in Hs. rewrite Hos in Hs.
  destruct (should_require_platform_sandbox p n managed); [|done]. simpl in Hs. subst sandbox.
  by destruct os, (windows_enabled level).
Qed.

Lemma platform_sandbox_not_required env p n managed path cwd :
  is_absolute cwd = true → policy_wf p → is_dir env (lit "/tmp") = true →
  should_require_platform_sandbox p n managed = false →
  managed = false ∧
  (kind p = ExternalSandboxKind ∨
   net_is_enabled n = true ∧ resolve_access_with_cwd env p path cwd = AccessWrite).
Proof.
  intros Hc Hwf Htmp Hreq.
  unfold should_require_platform_sandbox in Hreq. destruct managed; [done|]. split; [done|].
  destruct (net_is_enabled n); simpl in Hreq; [|left; by destruct (kind p)].
  destruct (kind p) eqn:Hk; [| |by left]; right; (split; [done|]).
  - apply full_disk_write_access; try done. by apply negb_false_iff.
  - unfold resolve_access_with_cwd. by rewrite Hk.
Qed.

(** When no sandbox is chosen for a command, there is nothing to confine: on a
    platform with a sandbox, the choice for a tool without a preference falls
    on none only when there are no managed network requirements and the
    policy is left to an external sandbox, or opens the network and lets
    every path be written. *)
Theorem unsandboxed_only_if_open env os p n level managed path cwd :
  is_absolute cwd = true → policy_wf p → is_dir env (lit "/tmp") = true →
  is_Some (get_platform_sandbox os (windows_enabled level)) →
  select_initial os p n Auto level managed = SandboxNone →
  managed = false ∧
  (kind p = ExternalSandboxKind ∨
   net_is_enabled n = true ∧ resolve_access_with_cwd env p path cwd = AccessWrite).
Proof.
  intros Hc Hwf Htmp Hos Hs. apply platform_sandbox_not_required; [done..|]. by eapply select_initial_none.
Qed.

Lemma unsandboxed_only_if_open_witness :
  select_initial Linux open_policy NetworkEnabled Auto WindowsDisabled false = SandboxNone ∧
  (kind open_policy = ExternalSandboxKind ∨
   net_is_enabled NetworkEnabled = true ∧
   resolve_access_with_cwd demo_env open_policy (lit "/etc/passwd") (lit "/work") = AccessWrite).
Proof.
  split; [reflexivity|].
  refine (proj2 (unsandboxed_only_if_open demo_env Linux open_policy NetworkEnabled WindowsDisabled false
    (lit "/etc/passwd") (lit "/work") _ _ _ _ _)); try reflexivity.
  - repeat constructor. exists [lit "tmp"]. split; [by_compute|reflexivity].
  - by eexists.
Defined.

Definition demo_transform : SandboxTransformRequest :=
  mkTransformRequest (mkSandboxCommand (lit "rm") [lit "--"; lit "-rf"] (lit "/work") ∅ None)
    (Managed (ManagedRestricted [mkEntry (Special Root) AccessRead] None) NetworkRestricted)
    LinuxSeccomp false None (lit "/work") (Some (lit "/bin/codex-linux-sandbox")) false.

Lemma transform_runs_in_sandbox_witness :
  ∃ r exe args profile, transform (λ _, lit "{}") false demo_transform = Ok r ∧
    tr_codex_linux_sandbox_exe demo_transform = Some exe ∧ exec_command r = exe :: args ∧
    effective_permission_profile (tr_permissions demo_transform) None = Ok profile ∧
    exec_permission_profile r = profile ∧ exec_sandbox r = LinuxSeccomp ∧
    args !! 4 = Some (lit "--permission-profile") ∧ args !! 5 = Some (lit "{}") ∧
    after_separator args = Some [lit "rm"; lit "--"; lit "-rf"].
Proof.
  eassert (Ht : transform (λ _, lit "{}") false demo_transform = Ok _) by (vm_compute; reflexivity).
  destruct (transform_runs_in_sandbox (λ _, lit "{}") false demo_transform _ ltac:(discriminate)
    eq_refl eq_refl eq_refl Ht) as (exe & args & profile & H).
  eexists. exists exe, args, profile. split; [exact Ht|exact H].
Defined.
