(* ===== verification/Truncate.v ===== *)
(** * Truncating output

    [utils/string/src/truncate.rs], [utils/output-truncation/src/lib.rs] and
    [TruncationPolicy] of [protocol/src/protocol.rs]: text that is too long for
    the model keeps its beginning and its end, with a marker in between that
    says how much is gone.  Sizes count the bytes of UTF-8; a string is a list
    of code points, and slicing it at a byte that is not the start of a
    character panics. *)
From S2P Require Import Prelude RustStr MachineInt.
Local Open Scope N_scope.

(** ** Strings by bytes *)

(** [(&s[..n], &s[n..])] *)
Fixpoint split_at_byte (s : str) (n : N) : Total (str * str) :=
  if n =? 0 then Ok ([], s)
  else match s with
       | [] => Panic OutOfBounds
       | c :: s' =>
           if utf8_width c <=? n then
             r ← split_at_byte s' (n - utf8_width c);
             Ok (c :: r.1, r.2)
           else Panic OutOfBounds
       end.

(** [s.char_indices()], from the byte [start] on *)
Fixpoint char_indices_from (start : N) (s : str) : list (N * char) :=
  match s with
  | [] => []
  | c :: s' => (start, c) :: char_indices_from (start + utf8_width c) s'
  end.
Definition char_indices (s : str) : list (N * char) := char_indices_from 0 s.

(** ** [truncate.rs] *)

Definition APPROX_BYTES_PER_TOKEN : N := 4.

Definition approx_token_count (text : str) : N :=
  saturating_add (utf8_len text) (saturating_sub APPROX_BYTES_PER_TOKEN 1) / APPROX_BYTES_PER_TOKEN.

Definition approx_bytes_for_tokens (tokens : N) : N := saturating_mul tokens APPROX_BYTES_PER_TOKEN.

Definition approx_tokens_from_byte_count (bytes : N) : N :=
  saturating_add bytes (saturating_sub APPROX_BYTES_PER_TOKEN 1) / APPROX_BYTES_PER_TOKEN.

(** The variables of the loop of [split_string]. *)
Record split_state := mkSplit {
  prefix_end : N;
  suffix_start : N;
  removed_chars : N;
  suffix_started : bool
}.

Definition split_step (beginning_bytes tail_start_target : N) (st : split_state) (ic : N * char)
    : split_state :=
  let '(idx, ch) := ic in
  let char_end := idx + utf8_width ch in
  if char_end <=? beginning_bytes then
    mkSplit char_end (suffix_start st) (removed_chars st) (suffix_started st)
  else if tail_start_target <=? idx then
    if suffix_started st then st
    else mkSplit (prefix_end st) idx (removed_chars st) true
  else mkSplit (prefix_end st) (suffix_start st) (saturating_add (removed_chars st) 1) (suffix_started st).

Definition split_string (s : str) (beginning_bytes end_bytes : N) : Total (N * str * str) :=
  match s with
  | [] => Ok (0, [], [])
  | _ =>
      let len := utf8_len s in
      let tail_start_target := saturating_sub len end_bytes in
      let st := foldl (split_step beginning_bytes tail_start_target) (mkSplit 0 len 0 false)
                  (char_indices s) in
      let suffix_start := if suffix_start st <? prefix_end st then prefix_end st else suffix_start st in
      before ← split_at_byte s (prefix_end st);
      after ← split_at_byte s suffix_start;
      Ok (removed_chars st, before.1, after.2)
  end.

Definition split_budget (budget : N) : N * N :=
  let left := budget / 2 in (left, budget - left).

Definition c_ellipsis : char := 8230.

Definition format_truncation_marker (use_tokens : bool) (removed_count : N) : str :=
  if use_tokens then [c_ellipsis] ++ show_N removed_count ++ lit " tokens truncated" ++ [c_ellipsis]
  else [c_ellipsis] ++ show_N removed_count ++ lit " chars truncated" ++ [c_ellipsis].

Definition removed_units (use_tokens : bool) (removed_bytes removed_chars : N) : N :=
  if use_tokens then approx_tokens_from_byte_count removed_bytes else removed_chars.

Definition assemble_truncated_output (prefix suffix marker : str) : str := prefix ++ marker ++ suffix.

Definition truncate_with_byte_estimate (s : str) (max_bytes : N) (use_tokens : bool) : Total str :=
  match s with
  | [] => Ok []
  | _ =>
      let total_chars := len s in
      if max_bytes =? 0 then
        Ok (format_truncation_marker use_tokens (removed_units use_tokens (utf8_len s) total_chars))
      else if utf8_len s <=? max_bytes then Ok s
      else
        let total_bytes := utf8_len s in
        let '(left_budget, right_budget) := split_budget max_bytes in
        r ← split_string s left_budget right_budget;
        let '(removed_chars, before, after) := r in
        let marker := format_truncation_marker use_tokens
          (removed_units use_tokens (saturating_sub total_bytes max_bytes) removed_chars) in
        Ok (assemble_truncated_output before after marker)
  end.

Definition truncate_middle_chars (s : str) (max_bytes : N) : Total str :=
  truncate_with_byte_estimate s max_bytes false.

Definition truncate_middle_with_token_budget (s : str) (max_tokens : N) : Total (str * option N) :=
  match s with
  | [] => Ok ([], None)
  | _ =>
      if (0 <? max_tokens) && (utf8_len s <=? approx_bytes_for_tokens max_tokens) then Ok (s, None)
      else
        truncated ← truncate_with_byte_estimate s (approx_bytes_for_tokens max_tokens) true;
        let total_tokens := approx_token_count s in
        Ok (if bool_decide (truncated = s) then (truncated, None) else (truncated, Some total_tokens))
  end.

(** ** [TruncationPolicy] *)

Inductive TruncationPolicy := PolicyBytes (bytes : N) | PolicyTokens (tokens : N).

Definition token_budget (p : TruncationPolicy) : N :=
  match p with
  | PolicyBytes bytes => approx_tokens_from_byte_count bytes
  | PolicyTokens tokens => tokens
  end.
Definition byte_budget (p : TruncationPolicy) : N :=
  match p with
  | PolicyBytes bytes => bytes
  | PolicyTokens tokens => approx_bytes_for_tokens tokens
  end.

(** *** Doubles

    Positive doubles are [m * 2^(e - 1074)] with [m < 2^53]; here the exponent
    is kept as how far an integer numerator is shifted.  [round_shift p k] is
    [p / 2^k] rounded to the nearest integer, ties to even; [round53 p] drops
    as many bits of [p] as needed to leave 53. *)
Definition round_shift (p k : N) : N :=
  let q := N.shiftr p k in
  let r := p - N.shiftl q k in
  let half := if k =? 0 then 0 else N.shiftl 1 (k - 1) in
  if (k =? 0) || (r <? half) then q
  else if half <? r then q + 1
  else if N.even q then q else q + 1.

Definition excess_bits (p : N) : N := N.size p - 53.
Definition round53 (p : N) : N := N.shiftl (round_shift p (excess_bits p)) (excess_bits p).

(** The double [1.2] is this numerator over [2^52]. *)
Definition numerator_1_2 : N := 5404319552844595.

(** [(n as f64 * 1.2).ceil() as usize]: the conversion and the product are
    rounded, and the conversion back saturates. *)
Definition times_1_2 (n : N) : N :=
  let product := round53 (round53 n * numerator_1_2) in
  N.min usize_max ((product + (N.shiftl 1 52 - 1)) / N.shiftl 1 52).

(** [policy * 1.2] *)
Definition with_serialization_budget (p : TruncationPolicy) : TruncationPolicy :=
  match p with
  | PolicyBytes bytes => PolicyBytes (times_1_2 bytes)
  | PolicyTokens tokens => PolicyTokens (times_1_2 tokens)
  end.

(** ** [output-truncation] *)

Definition truncate_text (content : str) (policy : TruncationPolicy) : Total str :=
  match policy with
  | PolicyBytes bytes => truncate_middle_chars content bytes
  | PolicyTokens tokens => fst <$> truncate_middle_with_token_budget content tokens
  end.

Definition formatted_truncate_text (content : str) (policy : TruncationPolicy) : Total str :=
  if utf8_len content <=? byte_budget policy then Ok content
  else
    let total_lines := len (lines content) in
    result ← truncate_text content policy;
    Ok (lit "Total output lines: " ++ show_N total_lines ++ [c_nl; c_nl] ++ result).

Inductive ImageDetail := DetailAuto | DetailLow | DetailHigh | DetailOriginal.

Inductive FunctionCallOutputContentItem :=
| OutputInputText (text : str)
| OutputInputImage (image_url : str) (detail : option ImageDetail).

Definition item_text (i : FunctionCallOutputContentItem) : option str :=
  match i with OutputInputText text => Some text | OutputInputImage _ _ => None end.
Definition item_image (i : FunctionCallOutputContentItem) : option FunctionCallOutputContentItem :=
  match i with OutputInputImage url d => Some (OutputInputImage url d) | OutputInputText _ => None end.

(** The loop that joins the texts. *)
Definition combine_step (combined text : str) : str :=
  (match combined with [] => combined | _ => combined ++ [c_nl] end) ++ text.

Definition formatted_truncate_text_content_items_with_policy
    (items : list FunctionCallOutputContentItem) (policy : TruncationPolicy)
    : Total (list FunctionCallOutputContentItem * option N) :=
  let text_segments := omap item_text items in
  match text_segments with
  | [] => Ok (items, None)
  | _ =>
      let combined := foldl combine_step [] text_segments in
      if utf8_len combined <=? byte_budget policy then Ok (items, None)
      else
        text ← formatted_truncate_text combined policy;
        Ok (OutputInputText text :: omap item_image items, Some (approx_token_count combined))
  end.

Definition item_cost (policy : TruncationPolicy) (text : str) : N :=
  match policy with
  | PolicyBytes _ => utf8_len text
  | PolicyTokens _ => approx_token_count text
  end.
Definition with_budget (policy : TruncationPolicy) (remaining_budget : N) : TruncationPolicy :=
  match policy with
  | PolicyBytes _ => PolicyBytes remaining_budget
  | PolicyTokens _ => PolicyTokens remaining_budget
  end.

(** The variables of the loop over the items. *)
Record items_state := mkItems {
  out : list FunctionCallOutputContentItem;
  remaining_budget : N;
  omitted_text_items : N
}.

Definition items_step (policy : TruncationPolicy) (st : items_state)
    (item : FunctionCallOutputContentItem) : Total items_state :=
  match item with
  | OutputInputText text =>
      if remaining_budget st =? 0 then
        Ok (mkItems (out st) (remaining_budget st) (omitted_text_items st + 1))
      else
        let cost := item_cost policy text in
        if cost <=? remaining_budget st then
          Ok (mkItems (out st ++ [OutputInputText text]) (saturating_sub (remaining_budget st) cost)
                (omitted_text_items st))
        else
          snippet ← truncate_text text (with_budget policy (remaining_budget st));
          Ok (match snippet with
              | [] => mkItems (out st) 0 (omitted_text_items st + 1)
              | _ => mkItems (out st ++ [OutputInputText snippet]) 0 (omitted_text_items st)
              end)
  | OutputInputImage image_url detail =>
      Ok (mkItems (out st ++ [OutputInputImage image_url detail]) (remaining_budget st)
            (omitted_text_items st))
  end.

Fixpoint items_loop (policy : TruncationPolicy) (st : items_state)
    (items : list FunctionCallOutputContentItem) : Total items_state :=
  match items with
  | [] => Ok st
  | item :: items' => st' ← items_step policy st item; items_loop policy st' items'
  end.

Definition omitted_note (omitted_text_items : N) : str :=
  lit "[omitted " ++ show_N omitted_text_items ++ lit " text items ...]".

Definition truncate_function_output_items_with_policy (items : list FunctionCallOutputContentItem)
    (policy : TruncationPolicy) : Total (list FunctionCallOutputContentItem) :=
  let budget := match policy with
                | PolicyBytes _ => byte_budget policy
                | PolicyTokens _ => token_budget policy
                end in
  st ← items_loop policy (mkItems [] budget 0) items;
  Ok (if 0 <? omitted_text_items st
      then out st ++ [OutputInputText (omitted_note (omitted_text_items st))] else out st).

(** [i64] positive part, and the conversions around it. *)
Definition i64_max : Z := 9223372036854775807%Z.
Definition approx_tokens_from_byte_count_i64 (bytes : Z) : Z :=
  if (bytes <=? 0)%Z then 0%Z
  else Z.min i64_max (Z.of_N (approx_tokens_from_byte_count (Z.to_N bytes))).

(** [take_bytes_at_char_boundary] of [utils/string/src/lib.rs] *)
Fixpoint last_boundary (maxb last_ok : N) (cs : list (N * char)) : N :=
  match cs with
  | [] => last_ok
  | (i, ch) :: cs' =>
      let nb := i + utf8_width ch in
      if maxb <? nb then last_ok else last_boundary maxb nb cs'
  end.
Definition take_bytes_at_char_boundary (s : str) (maxb : N) : Total str :=
  if utf8_len s <=? maxb then Ok s
  else fst <$> split_at_byte s (last_boundary maxb 0 (char_indices s)).

(** ** Splitting at bytes *)

Lemma utf8_len_cons c s : utf8_len (c :: s) = utf8_width c + utf8_len s.
Proof. done. Qed.

Lemma split_at_byte_app a b : split_at_byte (a ++ b) (utf8_len a) = Ok (a, b).
Proof.
  induction a as [|c a IH]; [by destruct b|]. rewrite utf8_len_cons. pose proof (utf8_width_pos c).
  cbn [split_at_byte app]. rewrite (proj2 (N.eqb_neq _ _)) by lia. rewrite (proj2 (N.leb_le _ _)) by lia.
  replace (utf8_width c + utf8_len a - utf8_width c) with (utf8_len a) by lia. by rewrite IH.
Qed.

Lemma char_indices_app off a b :
  char_indices_from off (a ++ b) = char_indices_from off a ++ char_indices_from (off + utf8_len a) b.
Proof.
  revert off; induction a as [|c a IH]; intros off; simpl; [by rewrite N.add_0_r|].
  rewrite IH. by rewrite N.add_assoc.
Qed.

Lemma len_utf8 s : len s <= utf8_len s.
Proof.
  induction s as [|c s IH]; [done|]. rewrite len_cons, utf8_len_cons. pose proof (utf8_width_pos c). lia.
Qed.

(** The characters that end by byte [limit] are a prefix. *)
Lemma longest_prefix limit s : ∃ a b, s = a ++ b ∧ utf8_len a <= limit ∧
  ∀ c b', b = c :: b' → limit < utf8_len a + utf8_width c.
Proof.
  revert limit; induction s as [|c s IH]; intros limit.
  - exists [], []. split_and!; [done|simpl; lia|done].
  - destruct (N.leb_spec (utf8_width c) limit) as [Hle|Hgt].
    + destruct (IH (limit - utf8_width c)) as (a & b & -> & Ha & Hb). exists (c :: a), b.
      rewrite utf8_len_cons. split_and!; [done|lia|]. intros c' b' ->. specialize (Hb _ _ eq_refl). lia.
    + exists [], (c :: s). split_and!; [done|simpl; lia|]. intros c' b' [= <- <-]. simpl. lia.
Qed.

(** The characters that start before byte [target] are a prefix. *)
Lemma started_prefix target off s : ∃ a b, s = a ++ b ∧
  (∀ a' c, a = a' ++ [c] → off + utf8_len a' < target) ∧ (b ≠ [] → target <= off + utf8_len a).
Proof.
  revert off; induction s as [|c s IH]; intros off.
  - exists [], []. split_and!; [done|by intros [|??]|done].
  - destruct (N.ltb_spec off target) as [Hlt|Hge].
    + destruct (IH (off + utf8_width c)) as (a & b & -> & Ha & Hb). exists (c :: a), b.
      rewrite utf8_len_cons, N.add_assoc. split_and!; [done| |done].
      intros [|c' a'] c'' [= -> Heq]; simpl; [lia|]. specialize (Ha _ _ Heq). lia.
    + exists [], (c :: s). split_and!; [done|by intros [|??]|]. simpl. lia.
Qed.

(** ** The loop of [split_string] *)

Lemma loop_prefix L T off a st :
  prefix_end st = off → off + utf8_len a <= L →
  foldl (split_step L T) st (char_indices_from off a)
  = mkSplit (off + utf8_len a) (suffix_start st) (removed_chars st) (suffix_started st).
Proof.
  revert off st; induction a as [|c a IH]; intros off st Hst Hle; simpl.
  - destruct st; simpl in *. by rewrite N.add_0_r, <-Hst.
  - rewrite utf8_len_cons in Hle. rewrite (proj2 (N.leb_le _ _)) by lia.
    rewrite IH by (simpl; lia). simpl. by rewrite N.add_assoc.
Qed.

Lemma loop_middle L T off m st :
  (∀ c m', m = c :: m' → L < off + utf8_width c) →
  (∀ m' c, m = m' ++ [c] → off + utf8_len m' < T) →
  removed_chars st + len m <= usize_max →
  foldl (split_step L T) st (char_indices_from off m)
  = mkSplit (prefix_end st) (suffix_start st) (removed_chars st + len m) (suffix_started st).
Proof.
  revert off st; induction m as [|c m IH]; intros off st HL HT Hn; simpl.
  - destruct st; simpl. by rewrite N.add_0_r.
  - pose proof (HL _ _ eq_refl) as Hc. rewrite (proj2 (N.leb_gt _ _)) by lia.
    assert (Hoff : off < T).
    { destruct (exists_last (l:=c :: m)) as (m' & c' & E); [done|]. specialize (HT _ _ E). lia. }
    rewrite (proj2 (N.leb_gt _ _)) by lia. rewrite len_cons in *. rewrite IH.
    + simpl. rewrite saturating_add_exact by lia. f_equal. lia.
    + intros c' m' ->. pose proof (utf8_width_pos c'). lia.
    + intros m' c' ->. specialize (HT (c :: m') c' eq_refl). rewrite utf8_len_cons in HT. lia.
    + simpl. rewrite saturating_add_exact by lia. lia.
Qed.

Lemma loop_started L T off r st :
  suffix_started st = true → L < off → T <= off → foldl (split_step L T) st (char_indices_from off r) = st.
Proof.
  intros Hs HL HT. assert (∀ off', off <= off' →
    foldl (split_step L T) st (char_indices_from off' r) = st) as H; [|by apply H].
  induction r as [|c r IH]; intros off' Ho; simpl; [done|]. pose proof (utf8_width_pos c).
  rewrite (proj2 (N.leb_gt _ _)), (proj2 (N.leb_le _ _)), Hs by lia. apply IH. lia.
Qed.

Lemma loop_suffix L T off r st :
  suffix_started st = false → suffix_start st = off + utf8_len r → L < off → (r ≠ [] → T <= off) →
  foldl (split_step L T) st (char_indices_from off r)
  = mkSplit (prefix_end st) off (removed_chars st) (match r with [] => false | _ => true end).
Proof.
  intros Hs Hst HL HT. destruct r as [|c r]; simpl.
  - destruct st; simpl in *. by rewrite Hs, Hst, N.add_0_r.
  - pose proof (utf8_width_pos c). specialize (HT ltac:(done)).
    rewrite (proj2 (N.leb_gt _ _)), (proj2 (N.leb_le _ _)), Hs by lia. by rewrite loop_started by (simpl; lia).
Qed.

(** A cut of [s]: the longest beginning and the longest end that fit into
    their budgets, and what is between. *)
Definition cut (s : str) (L R : N) (before middle after : str) : Prop :=
  s = before ++ middle ++ after ∧ middle ≠ [] ∧
  utf8_len before <= L ∧ utf8_len after <= R ∧
  (∀ c m, middle = c :: m → L < utf8_len (before ++ [c])) ∧
  (∀ m c, middle = m ++ [c] → R < utf8_len (c :: after)).

Lemma split_string_spec s L R :
  L + R < utf8_len s → utf8_len s <= usize_max →
  ∃ before middle after, cut s L R before middle after ∧
    split_string s L R = Ok (len middle, before, after).
Proof.
  intros HLR Hmax. destruct (longest_prefix L s) as (a & b & -> & Ha & Hb).
  destruct (started_prefix (utf8_len (a ++ b) - R) (utf8_len a) b) as (m & r & -> & Hm & Hr).
  rewrite !utf8_len_app in *.
  assert (Hmne : m ≠ []).
  { intros ->. simpl in *. destruct r as [|c r]; [simpl in *; lia|]. specialize (Hr ltac:(done)). lia. }
  exists a, m, r. split.
  - split; [done|]. split; [done|]. split; [done|]. split.
    { destruct r as [|c r]; [simpl; lia|]. specialize (Hr ltac:(done)). lia. }
    split.
    + intros c m' ->. specialize (Hb c (m' ++ r) eq_refl). rewrite utf8_len_app. simpl. lia.
    + intros m' c ->. specialize (Hm _ _ eq_refl). rewrite !utf8_len_app in *. rewrite utf8_len_cons. simpl in *. lia.
  - unfold split_string. destruct (a ++ m ++ r) as [|c0 s0] eqn:Es.
    { apply app_nil in Es as [_ [??]%app_nil]. done. }
    rewrite <-Es. clear Es c0 s0. rewrite !utf8_len_app. unfold char_indices.
    rewrite !char_indices_app, !foldl_app, (loop_prefix _ _ 0 a) by (simpl; lia).
    assert (Hlen : len m <= usize_max) by (pose proof (len_utf8 m); lia).
    unfold saturating_sub. rewrite (loop_middle _ _ _ m); simpl;
      [|intros c m' ->; specialize (Hb c (m' ++ r) eq_refl); lia|intros; by eapply Hm|lia].
    assert (HL : L < utf8_len a + utf8_len m).
    { destruct m as [|c m']; [done|]. specialize (Hb c (m' ++ r) eq_refl). rewrite utf8_len_cons. lia. }
    rewrite loop_suffix; simpl; [|done|lia|lia|done].
    rewrite (proj2 (N.ltb_ge _ _)) by lia. rewrite split_at_byte_app. cbn [mbind Res_bind].
    rewrite !N.add_0_l, <-utf8_len_app.
    rewrite (app_assoc a m r), split_at_byte_app. done.
Qed.

(** ** The size of a marker *)

Lemma show_digits_width fuel n acc k :
  n < 10 ^ N.of_nat k → (1 ≤ k)%nat →
  utf8_len (show_digits fuel n acc) <= N.of_nat k + utf8_len acc.
Proof.
  revert n acc k; induction fuel as [|fuel IH]; intros n acc k Hn Hk; simpl; [lia|].
  assert (Hd : n mod 10 < 10) by by apply N.mod_lt.
  assert (Hw : utf8_width (48 + n mod 10) = 1).
  { unfold utf8_width. rewrite (proj2 (N.ltb_lt _ _)) by lia. done. }
  destruct (N.ltb_spec n 10).
  - rewrite utf8_len_cons, Hw. lia.
  - destruct k as [|[|k]]; [lia|simpl in Hn; lia|].
    etrans; [apply (IH _ _ (S k)); [|lia]|].
    + apply N.Div0.div_lt_upper_bound. rewrite !Nat2N.inj_succ in *. rewrite (N.pow_succ_r' _ (N.succ _)) in Hn. lia.
    + rewrite utf8_len_cons, Hw. lia.
Qed.

Lemma show_N_width n : n <= usize_max → utf8_len (show_N n) <= 20.
Proof.
  intros Hn. unfold show_N. etrans; [apply (show_digits_width _ _ _ 20); [|lia]|simpl; lia].
  eapply N.le_lt_trans; [exact Hn|]. by vm_compute.
Qed.

(** The most bytes a marker has. *)
Definition MARKER_MAX : N := 43.

Lemma marker_width use_tokens n :
  n <= usize_max → utf8_len (format_truncation_marker use_tokens n) <= MARKER_MAX.
Proof.
  intros Hn. pose proof (show_N_width n Hn). unfold format_truncation_marker, MARKER_MAX.
  destruct use_tokens; rewrite !utf8_len_app.
  - change (utf8_len [c_ellipsis]) with 3. change (utf8_len (lit " tokens truncated")) with 17. lia.
  - change (utf8_len [c_ellipsis]) with 3. change (utf8_len (lit " chars truncated")) with 16. lia.
Qed.

Lemma removed_units_small use_tokens bytes chars :
  chars <= usize_max → removed_units use_tokens bytes chars <= usize_max.
Proof.
  intros Hc. unfold removed_units, approx_tokens_from_byte_count. destruct use_tokens; [|done].
  pose proof (saturating_add_le bytes (saturating_sub APPROX_BYTES_PER_TOKEN 1)).
  etrans; [apply N.Div0.div_le_upper_bound|]; [|reflexivity]. unfold APPROX_BYTES_PER_TOKEN in *. lia.
Qed.

(** ** Truncating a text *)

Lemma half_sum max : max / 2 + (max - max / 2) = max.
Proof. pose proof (N.Div0.div_le_upper_bound max 2 max). lia. Qed.

Lemma truncate_cases s max use_tokens :
  utf8_len s <= usize_max →
  (utf8_len s <= max → truncate_with_byte_estimate s max use_tokens = Ok s) ∧
  (max < utf8_len s → ∃ before middle after, cut s (max / 2) (max - max / 2) before middle after ∧
     truncate_with_byte_estimate s max use_tokens
     = Ok (before ++ format_truncation_marker use_tokens
             (removed_units use_tokens (utf8_len s - max) (len middle)) ++ after)).
Proof.
  intros Hmax. unfold truncate_with_byte_estimate. destruct s as [|c s]; [split; [done|simpl; lia]|].
  assert (Hpos : 0 < utf8_len (c :: s)) by (rewrite utf8_len_cons; pose proof (utf8_width_pos c); lia).
  generalize dependent (c :: s). clear c s. intros s Hs Hpos. destruct (N.eqb_spec max 0) as [->|Hne].
  - split; [lia|]. intros _. exists [], s, []. rewrite app_nil_r, (N.sub_0_r (utf8_len s)). split; [|done].
    split; [by rewrite app_nil_r|]. split; [by intros ->|]. split; [done|]. split; [done|]. split.
    + intros c m _. change (0 / 2) with 0. change (utf8_len ([] ++ [c])) with (utf8_width c + 0).
      pose proof (utf8_width_pos c). lia.
    + intros m c _. change (0 - 0 / 2) with 0. change (utf8_len [c]) with (utf8_width c + 0).
      pose proof (utf8_width_pos c). lia.
  - destruct (N.leb_spec (utf8_len s) max); [split; [done|lia]|]. split; [lia|]. intros _. unfold split_budget.
    destruct (split_string_spec s (max / 2) (max - max / 2)) as (b & m & a & Hcut & ->);
      [by rewrite half_sum|done|]. exists b, m, a. done.
Qed.

Lemma cut_len s L R b m a : cut s L R b m a → utf8_len b + utf8_len a <= L + R ∧ len m <= utf8_len s.
Proof.
  intros (-> & _ & Hb & Ha & _). split; [lia|]. pose proof (len_utf8 m). rewrite !utf8_len_app. lia.
Qed.

Lemma truncate_bound s max use_tokens :
  utf8_len s <= usize_max →
  ∃ t, truncate_with_byte_estimate s max use_tokens = Ok t ∧ utf8_len t <= max + MARKER_MAX ∧
    (utf8_len s <= max → t = s).
Proof.
  intros Hs. destruct (truncate_cases s max use_tokens Hs) as [Hfit Hcut].
  destruct (N.leb_spec (utf8_len s) max) as [Hle|Hgt].
  - exists s. split; [by apply Hfit|]. split; [lia|done].
  - destruct (Hcut Hgt) as (b & m & a & Hc & ->). eexists. split; [done|]. split; [|lia].
    destruct (cut_len _ _ _ _ _ _ Hc) as [Hba Hm]. rewrite half_sum in Hba. rewrite !utf8_len_app.
    pose proof (marker_width use_tokens _
      (removed_units_small use_tokens (utf8_len s - max) (len m) ltac:(lia))). lia.
Qed.

Lemma truncate_text_bound s policy :
  utf8_len s <= usize_max →
  ∃ t, truncate_text s policy = Ok t ∧ utf8_len t <= byte_budget policy + MARKER_MAX ∧
    (utf8_len s <= byte_budget policy → t = s).
Proof.
  intros Hs. destruct policy as [bytes|tokens]; simpl; [by apply truncate_bound|].
  unfold truncate_middle_with_token_budget. destruct s as [|c s]; [exists []; simpl; split_and!; [done|lia|done]|].
  generalize dependent (c :: s). clear c s. intros s Hs.
  destruct ((0 <? tokens) && (utf8_len s <=? approx_bytes_for_tokens tokens)) eqn:E.
  - apply andb_true_iff in E as [_ E%N.leb_le]. exists s. simpl. split_and!; [done|lia|done].
  - destruct (truncate_bound s (approx_bytes_for_tokens tokens) true Hs) as (t & -> & Ht & Hfit).
    cbn [mbind Res_bind fmap Res_fmap]. exists t. split; [by case_bool_decide|]. done.
Qed.

(** Truncation keeps both ends.  A text within the budget is returned as it
    is.  From a longer one there remain the longest beginning that fits into
    half of the budget and the longest end that fits into the rest, both cut
    between characters; between them stands a marker with the number of
    characters that are gone, or an estimate of the tokens.  The function
    never slices inside a character. *)
Theorem truncate_keeps_ends s max use_tokens :
  utf8_len s <= usize_max →
  (utf8_len s <= max → truncate_with_byte_estimate s max use_tokens = Ok s) ∧
  (max < utf8_len s → ∃ before middle after, cut s (max / 2) (max - max / 2) before middle after ∧
     truncate_with_byte_estimate s max use_tokens
     = Ok (before ++ format_truncation_marker use_tokens
             (if use_tokens then approx_tokens_from_byte_count (utf8_len s - max) else len middle)
           ++ after)).
Proof. apply truncate_cases. Qed.

Lemma truncate_keeps_ends_witness :
  utf8_len (lit "abcdefghij") <= usize_max ∧
  ∃ before middle after, cut (lit "abcdefghij") (5 / 2) (5 - 5 / 2) before middle after ∧
     truncate_with_byte_estimate (lit "abcdefghij") 5 false
     = Ok (before ++ format_truncation_marker false (len middle) ++ after).
Proof.
  split; [vm_compute; discriminate|].
  refine (proj2 (truncate_keeps_ends (lit "abcdefghij") 5 false _) _); [vm_compute; discriminate|reflexivity].
Defined.

(** ** Truncating structured output *)

(** No allocation is larger, by the rules of the language. *)
Definition isize_max : N := 9223372036854775807.

Definition sum_N (l : list N) : N := foldr N.add 0 l.
Lemma sum_N_app l k : sum_N (l ++ k) = sum_N l + sum_N k.
Proof. induction l; simpl; lia. Qed.

(** The bytes of all texts, and what they cost under a policy. *)
Definition text_bytes (items : list FunctionCallOutputContentItem) : N :=
  sum_N (utf8_len <$> omap item_text items).
Definition text_cost (policy : TruncationPolicy) (items : list FunctionCallOutputContentItem) : N :=
  sum_N (item_cost policy <$> omap item_text items).

Lemma text_bytes_snoc l i : text_bytes (l ++ [i]) = text_bytes l + text_bytes [i].
Proof. unfold text_bytes. by rewrite omap_app, fmap_app, sum_N_app. Qed.

Definition limit (policy : TruncationPolicy) : N :=
  match policy with PolicyBytes n | PolicyTokens n => n end.
(** The bytes that [n] units of the policy stand for. *)
Definition unit_bytes (policy : TruncationPolicy) (n : N) : N :=
  match policy with PolicyBytes _ => n | PolicyTokens _ => 4 * n end.

Lemma cost_bytes policy text :
  utf8_len text <= isize_max → utf8_len text <= unit_bytes policy (item_cost policy text).
Proof.
  intros Hl. destruct policy; simpl; [lia|]. unfold approx_token_count, APPROX_BYTES_PER_TOKEN.
  rewrite saturating_add_exact by (unfold isize_max, usize_max, saturating_sub in *; lia).
  change (saturating_sub 4 1) with 3. pose proof (N.div_mod (utf8_len text + 3) 4).
  pose proof (N.mod_lt (utf8_len text + 3) 4). lia.
Qed.

Lemma cost_pos policy text : utf8_len text <= isize_max → text ≠ [] → 0 < item_cost policy text.
Proof.
  intros Hl Hne. pose proof (cost_bytes policy text Hl).
  assert (0 < utf8_len text).
  { destruct text as [|c t]; [done|]. rewrite utf8_len_cons. pose proof (utf8_width_pos c). lia. }
  destruct policy; simpl in *; lia.
Qed.

Lemma budget_bytes policy r : byte_budget (with_budget policy r) <= unit_bytes policy r.
Proof. destruct policy; simpl; unfold approx_bytes_for_tokens, saturating_mul, APPROX_BYTES_PER_TOKEN; lia. Qed.

Lemma unit_bytes_sub policy r c :
  c <= r → unit_bytes policy c + unit_bytes policy (r - c) = unit_bytes policy r.
Proof. destruct policy; simpl; lia. Qed.

(** What holds after each turn of the loop, with [items] done. *)
Definition items_inv (policy : TruncationPolicy) (items : list FunctionCallOutputContentItem)
    (st : items_state) : Prop :=
  omap item_image (out st) = omap item_image items ∧
  omitted_text_items st <= len items ∧
  text_bytes (out st) + unit_bytes policy (remaining_budget st)
    <= unit_bytes policy (limit policy) + (if remaining_budget st =? 0 then MARKER_MAX else 0).

Lemma items_step_inv policy items item st :
  items_inv policy items st → (∀ t, item = OutputInputText t → utf8_len t <= isize_max) →
  ∃ st', items_step policy st item = Ok st' ∧ items_inv policy (items ++ [item]) st'.
Proof.
  intros (Himg & Hom & Hb) Ht. unfold items_step, items_inv.
  assert (omap item_image (items ++ [item]) = omap item_image (out st) ++ omap item_image [item]) as ->
    by (by rewrite omap_app, Himg).
  assert (len (items ++ [item]) = len items + 1) as -> by apply len_app.
  destruct item as [text|url d]; simpl.
  - specialize (Ht _ eq_refl). rewrite app_nil_r. destruct (N.eqb_spec (remaining_budget st) 0) as [E|E].
    { eexists. split; [done|]. simpl. rewrite E in *. simpl in *. split_and!; [done|lia|done]. }
    destruct (N.leb_spec (item_cost policy text) (remaining_budget st)) as [Hc|Hc].
    { eexists. split; [done|]. simpl. rewrite omap_app, text_bytes_snoc. simpl. rewrite app_nil_r.
      split_and!; [done|lia|]. change (text_bytes [OutputInputText text]) with (utf8_len text + 0).
      pose proof (cost_bytes policy text Ht). pose proof (unit_bytes_sub policy _ _ Hc).
      unfold saturating_sub. destruct (_ - _ =? 0); lia. }
    destruct (truncate_text_bound text (with_budget policy (remaining_budget st))) as (t & -> & Hlen & _);
      [unfold isize_max, usize_max in *; lia|]. cbn [mbind Res_bind].
    pose proof (budget_bytes policy (remaining_budget st)).
    assert (H0 : unit_bytes policy 0 = 0) by by destruct policy.
    eexists. split; [done|]. destruct t as [|c t]; simpl; rewrite ?H0; [split_and!; [done|lia|lia]|].
    rewrite omap_app, text_bytes_snoc. simpl. rewrite app_nil_r. split_and!; [done|lia|].
    change (text_bytes [OutputInputText (c :: t)]) with (utf8_len (c :: t) + 0). lia.
  - eexists. split; [done|]. simpl. rewrite omap_app, text_bytes_snoc. simpl. split_and!; [done|lia|].
    change (text_bytes [OutputInputImage url d]) with 0. by rewrite N.add_0_r.
Qed.

Lemma items_loop_inv policy seen items st :
  items_inv policy seen st → (∀ t, OutputInputText t ∈ items → utf8_len t <= isize_max) →
  ∃ st', items_loop policy st items = Ok st' ∧ items_inv policy (seen ++ items) st'.
Proof.
  revert seen st; induction items as [|item items IH]; intros seen st Hinv Ht; simpl.
  { exists st. by rewrite app_nil_r. }
  destruct (items_step_inv policy seen item st Hinv) as (st1 & -> & H1).
  { intros t ->. apply Ht. by left. }
  cbn [mbind Res_bind]. destruct (IH _ _ H1) as (st' & -> & H').
  { intros t Hin. apply Ht. by right. }
  exists st'. by rewrite <-app_assoc in H'.
Qed.

(** When everything fits, nothing changes. *)
Lemma items_loop_fits policy st items :
  (∀ t, OutputInputText t ∈ items → utf8_len t <= isize_max ∧ t ≠ []) →
  text_cost policy items <= remaining_budget st →
  ∃ r, items_loop policy st items = Ok (mkItems (out st ++ items) r (omitted_text_items st)).
Proof.
  revert st; induction items as [|[text|url d] items IH]; intros st Ht Hc; simpl.
  - exists (remaining_budget st). rewrite app_nil_r. by destruct st.
  - destruct (Ht text) as [Hl Hne]; [by left|]. pose proof (cost_pos policy text Hl Hne).
    change (text_cost policy (OutputInputText text :: items))
      with (item_cost policy text + text_cost policy items) in Hc.
    rewrite (proj2 (N.eqb_neq _ _)) by lia. rewrite (proj2 (N.leb_le _ _)) by lia. cbn [mbind Res_bind].
    destruct (IH (mkItems (out st ++ [OutputInputText text])
      (saturating_sub (remaining_budget st) (item_cost policy text)) (omitted_text_items st))) as (r & ->).
    { intros t Hin. apply Ht. by right. }
    { simpl. unfold saturating_sub. lia. }
    exists r. simpl. by rewrite <-app_assoc.
  - destruct (IH (mkItems (out st ++ [OutputInputImage url d]) (remaining_budget st) (omitted_text_items st)))
      as (r & ->); [intros t Hin; apply Ht; by right|done|].
    exists r. simpl. by rewrite <-app_assoc.
Qed.

Definition NOTE_MAX : N := 45.
Lemma omitted_note_width n : n <= usize_max → utf8_len (omitted_note n) <= NOTE_MAX.
Proof.
  intros Hn. pose proof (show_N_width n Hn). unfold omitted_note, NOTE_MAX. rewrite !utf8_len_app.
  change (utf8_len (lit "[omitted ")) with 9. change (utf8_len (lit " text items ...]")) with 16. lia.
Qed.

Lemma truncate_items_spec items policy :
  (∀ t, OutputInputText t ∈ items → utf8_len t <= isize_max) → len items <= usize_max →
  ∃ items', truncate_function_output_items_with_policy items policy = Ok items' ∧
    omap item_image items' = omap item_image items ∧
    text_bytes items' <= unit_bytes policy (limit policy) + MARKER_MAX + NOTE_MAX ∧
    ((∀ t, OutputInputText t ∈ items → t ≠ []) → text_cost policy items <= limit policy → items' = items).
Proof.
  intros Ht Hlen. unfold truncate_function_output_items_with_policy.
  replace (match policy with PolicyBytes _ => _ | PolicyTokens _ => _ end) with (limit policy)
    by by destruct policy.
  destruct (items_loop_inv policy [] items (mkItems [] (limit policy) 0)) as (st & Hst & Himg & Hom & Hb).
  { split; [done|]. split; [done|]. simpl. change (text_bytes []) with 0. destruct (limit policy =? 0); lia. }
  { done. }
  rewrite Hst. cbn [mbind Res_bind app] in *. eexists. split; [done|].
  assert (Hr : text_bytes (out st) <= unit_bytes policy (limit policy) + MARKER_MAX).
  { destruct (remaining_budget st =? 0); lia. }
  split_and!.
  - destruct (0 <? omitted_text_items st); [|done]. rewrite omap_app. simpl. by rewrite app_nil_r.
  - destruct (0 <? omitted_text_items st); [|lia]. rewrite text_bytes_snoc.
    change (text_bytes [OutputInputText (omitted_note (omitted_text_items st))])
      with (utf8_len (omitted_note (omitted_text_items st)) + 0).
    pose proof (omitted_note_width (omitted_text_items st) ltac:(lia)). lia.
  - intros Hne Hfit. destruct (items_loop_fits policy (mkItems [] (limit policy) 0) items) as (r & E).
    + intros t Hin. auto.
    + done.
    + rewrite E in Hst. injection Hst as <-. done.
Qed.

(** Structured output is cut down to its budget.  The function returns for
    every list of items: the images stay, in their order; the texts together
    take at most the budget, plus one truncation marker and one note about
    the texts left out; and when the texts are not empty and fit into the
    budget, the items come back unchanged. *)
Theorem truncate_items_bounds items policy :
  (∀ t, OutputInputText t ∈ items → utf8_len t <= isize_max) → len items <= usize_max →
  ∃ items', truncate_function_output_items_with_policy items policy = Ok items' ∧
    omap item_image items' = omap item_image items ∧
    text_bytes items' <= unit_bytes policy (limit policy) + MARKER_MAX + NOTE_MAX ∧
    ((∀ t, OutputInputText t ∈ items → t ≠ []) → text_cost policy items <= limit policy → items' = items).
Proof. apply truncate_items_spec. Qed.

Definition demo_items : list FunctionCallOutputContentItem :=
  [OutputInputText (lit "hello"); OutputInputImage (lit "data:") None; OutputInputText (lit "world!");
   OutputInputText (lit "more")].

Lemma truncate_items_bounds_witness :
  ∃ items', truncate_function_output_items_with_policy demo_items (PolicyBytes 8) = Ok items' ∧
    omap item_image items' = [OutputInputImage (lit "data:") None] ∧
    text_bytes items' <= 96 ∧
    ((∀ t, OutputInputText t ∈ demo_items → t ≠ []) → text_cost (PolicyBytes 8) demo_items <= 8 →
      items' = demo_items).
Proof.
  apply (truncate_items_bounds demo_items (PolicyBytes 8)).
  - intros t Ht. unfold demo_items in Ht. rewrite !elem_of_cons, elem_of_nil in Ht.
    destruct Ht as [[= ->]|[Ht|[[= ->]|[[= ->]|[]]]]]; [vm_compute; discriminate|discriminate|vm_compute; discriminate..].
  - vm_compute. discriminate.
Defined.

(** ** The serialization budget *)

Lemma round_shift_ge p k : N.shiftr p k <= round_shift p k.
Proof. unfold round_shift. repeat case_match; lia. Qed.

Lemma round53_small p : p < 2 ^ 53 → round53 p = p.
Proof.
  intros Hp. unfold round53. assert (excess_bits p = 0) as ->.
  { unfold excess_bits. assert (N.size p <= 53); [|lia].
    destruct (N.eq_dec p 0) as [->|Hne]; [by vm_compute|]. rewrite N.size_log2 by done.
    apply N.le_succ_l, N.log2_lt_pow2; lia. }
  unfold round_shift. simpl. by rewrite N.shiftl_0_r, N.shiftr_0_r.
Qed.

(** Rounding loses at most one part in [2^52]. *)
Lemma round53_ge p : p <= round53 p + p / 2 ^ 52.
Proof.
  destruct (N.ltb_spec p (2 ^ 53)) as [Hs|Hs]; [rewrite round53_small by done; apply N.le_add_r|].
  unfold round53. set (k := excess_bits p).
  assert (Hk : 2 ^ k <= p / 2 ^ 52).
  { apply N.div_le_lower_bound; [done|]. rewrite <-N.pow_add_r. unfold k, excess_bits.
    rewrite N.size_log2 by lia. pose proof (N.log2_spec p ltac:(lia)) as [Hl _].
    assert (53 <= N.log2 p) by (apply N.log2_le_pow2; lia).
    replace (52 + (N.succ (N.log2 p) - 53)) with (N.log2 p) by lia. done. }
  rewrite N.shiftl_mul_pow2. pose proof (round_shift_ge p k) as Hr. rewrite N.shiftr_div_pow2 in Hr.
  pose proof (N.div_mod p (2 ^ k)). pose proof (N.mod_lt p (2 ^ k)).
  assert (2 ^ k ≠ 0) by (by apply N.pow_nonzero). nia.
Qed.

Lemma times_1_2_ge n : n < 2 ^ 52 → n <= times_1_2 n.
Proof.
  change (2 ^ 52) with 4503599627370496. intros Hn. unfold times_1_2.
  rewrite (round53_small n) by (change (2 ^ 53) with 9007199254740992; lia).
  pose proof (round53_ge (n * numerator_1_2)) as Hr. set (q := round53 (n * numerator_1_2)) in *.
  change (N.shiftl 1 52) with 4503599627370496. change (2 ^ 52) with 4503599627370496 in Hr.
  apply N.min_glb; [unfold usize_max; lia|]. apply N.div_le_lower_bound; [done|].
  assert (Hd : n * numerator_1_2 / 4503599627370496 <= 2 * n).
  { apply N.Div0.div_le_upper_bound. unfold numerator_1_2. lia. }
  unfold numerator_1_2 in *. lia.
Qed.
