(* ===== verification/Orchestrator.v ===== *)
(** * Running a tool: [core/src/tools/orchestrator.rs], [core/src/tools/sandboxing.rs]

    Every tool that executes something goes through one sequence: the
    requirement is looked up, approval is asked for (hooks first, then the
    automatic reviewer or the user), a sandbox is chosen, the tool runs, and
    when the sandbox denied it the tool may run once more without one.

    [ToolRuntime] is the interface of the source's traits [Approvable],
    [Sandboxable] and [ToolRuntime]; the shell, the unified exec and the patch
    runtimes are its instances.  The session keeps the approvals for the
    session, the network approval service and a trace of what happened: the
    questions asked with their answers, the decisions reported to telemetry, and the runs.  The
    answers of hooks, reviewer and user and what a tool does are arbitrary
    functions of that trace. *)
From S2P Require Import Prelude RustStr AbsolutePath FileSystem Ordering Paths ShellTree Permissions PermissionProfile PolicyTransforms ExecApproval GrantedPermissions NetworkApproval PatchSafety SandboxManager.

(** ** Data *)

Inductive ToolDecisionSource := SourceConfig | SourceUser | SourceAutomatedReviewer.
Inductive SandboxOverride := NoOverride | BypassSandboxFirstAttempt.
Inductive NetworkApprovalMode := Immediate | Deferred.

Record NetworkPolicyDecisionPayload := mkPayload {
  payload_decision : NetworkPolicyDecision;
  payload_source : NetworkDecisionSource;
  payload_protocol : option NetworkApprovalProtocol;
  payload_host : option str
}.
Record NetworkApprovalContext := mkNetworkContext { nac_host : str; nac_protocol : NetworkApprovalProtocol }.

(** The duration in nanoseconds. *)
Record ExecToolCallOutput := mkOutput {
  exit_code : Z;
  stdout : str;
  stderr : str;
  aggregated_output : str;
  duration : N;
  timed_out : bool
}.

(** [CodexErr]: the denials and timeouts of the sandbox, and the rest. *)
Inductive CodexErr :=
| SandboxDenied (output : ExecToolCallOutput) (network_policy_decision : option NetworkPolicyDecisionPayload)
| SandboxTimeout (output : ExecToolCallOutput)
| OtherError (message : str).
Abbreviation ToolErr := (ToolError CodexErr).

Record SandboxAttempt := mkAttempt {
  attempt_sandbox : SandboxType;
  attempt_permissions : PermissionProfile;
  enforce_managed_network : bool;
  attempt_sandbox_cwd : str;
  codex_linux_sandbox_exe : option str;
  use_legacy_landlock : bool;
  network_denial_cancellation_token : option str
}.

Record ApprovalCtx := mkApprovalCtx {
  guardian_reviews : bool;
  retry_reason : option str;
  network_approval_context : option NetworkApprovalContext
}.

Record NetworkApprovalSpec := mkSpec { spec_network : option str; spec_mode : NetworkApprovalMode; spec_command : str }.

(** A question to the user names the keys of what is asked about. *)
Inductive Event :=
| AskedHooks (run_id : str) (answer : option PermissionRequestDecision)
| AskedGuardian (reason : option str) (answer : ReviewDecision)
| AskedUser (keys : list (option str)) (reason : option str) (answer : ReviewDecision)
| ToolDecision (decision : ReviewDecision) (source : ToolDecisionSource)
| ModelWarning (message : str)
| RanTool (attempt : SandboxAttempt).

(** [ApprovalStore] *)
Definition ApprovalStore : Type := gmap str ReviewDecision.

Record Session := mkSession {
  tool_approvals : ApprovalStore;
  network_approval : NetworkApprovalService;
  registrations : nat;
  trace : list Event
}.

(** Of the turn: its settings and profile, the policies they give, the managed
    network, and where the sandbox helper is. *)
Record ToolTurn := mkToolTurn {
  turn_context : TurnContext;
  turn_file_system_policy : FileSystemSandboxPolicy;
  turn_network_policy : NetworkSandboxPolicy;
  turn_network : option str;
  turn_windows_level : WindowsSandboxLevel;
  turn_cwd : str;
  turn_linux_sandbox_exe : option str;
  turn_legacy_landlock : bool;
  turn_strict_auto_review : bool
}.

Abbreviation M := (Eff Session ToolErr).

Definition emit (e : Event) : M unit := λ s,
  (mkSession (tool_approvals s) (network_approval s) (registrations s) (trace s ++ [e]), Ok ()).
Definition set_approvals (a : ApprovalStore) (s : Session) : Session :=
  mkSession a (network_approval s) (registrations s) (trace s).
Definition set_network (n : NetworkApprovalService) (r : nat) (s : Session) : Session :=
  mkSession (tool_approvals s) n r (trace s).

(** The result of a computation, errors included. *)
Definition try_ {A} (m : M A) : M (Res ToolErr A) := λ s,
  match m s with
  | (s, Panic p) => (s, Panic p)
  | (s, r) => (s, Ok r)
  end.

(** ** Requirements and overrides *)

Definition default_exec_approval_requirement (policy : AskForApproval)
    (file_system_sandbox_policy : FileSystemSandboxPolicy) : ExecApprovalRequirement :=
  let needs_approval :=
    match policy with
    | Never | OnFailure => false
    | OnRequest | Granular _ =>
        match kind file_system_sandbox_policy with Restricted => true | _ => false end
    | UnlessTrusted => true
    end in
  let disallowed := match policy with Granular config => negb (sandbox_approval config) | _ => false end in
  if needs_approval && disallowed then
    RequirementForbidden (lit "approval policy disallowed sandbox approval prompt")
  else if needs_approval then NeedsApproval None None
  else Skip false None.

Definition sandbox_override_for_first_attempt (sandbox_permissions : SandboxPermissions)
    (requirement : ExecApprovalRequirement) : SandboxOverride :=
  if match sandbox_permissions with RequireEscalated => true | _ => false end ||
     match requirement with Skip true _ => true | _ => false end
  then BypassSandboxFirstAttempt else NoOverride.

Definition managed_network_for_sandbox_permissions (network : option str)
    (sandbox_permissions : SandboxPermissions) : option str :=
  match sandbox_permissions with RequireEscalated => None | _ => network end.

(** The methods with a default. *)
Definition default_should_bypass_approval (policy : AskForApproval) (already_approved : bool) : bool :=
  if already_approved then true else match policy with Never => true | _ => false end.
Definition default_wants_no_sandbox_approval (policy : AskForApproval) : bool :=
  match policy with
  | OnFailure | UnlessTrusted => true
  | Never | OnRequest => false
  | Granular config => sandbox_approval config
  end.

Class ToolRuntime (Req Out : Type) := {
  approval_keys : Req → list (option str);
  exec_approval_requirement : Req → option ExecApprovalRequirement;
  sandbox_mode_for_first_attempt : Req → SandboxOverride;
  should_bypass_approval : AskForApproval → bool → bool;
  permission_request_payload : Req → option str;
  wants_no_sandbox_approval : AskForApproval → bool;
  start_approval : Req → ApprovalCtx → M ReviewDecision;
  sandbox_preference : SandboxablePreference;
  escalate_on_failure : bool;
  network_approval_spec : Req → option NetworkApprovalSpec;
  sandbox_cwd : Req → option str;
  run_tool : Req → SandboxAttempt → M Out
}.

Definition is_ask_from_decider (p : NetworkPolicyDecisionPayload) : bool :=
  match payload_decision p, payload_source p with PolicyAsk, Decider => true | _, _ => false end.

Definition network_approval_context_from_payload (p : NetworkPolicyDecisionPayload)
    : option NetworkApprovalContext :=
  if negb (is_ask_from_decider p) then None
  else
    protocol ← payload_protocol p;
    host ← payload_host p;
    let host := trim host in
    if decide (host = []) then None else Some (mkNetworkContext host protocol).

Definition build_denial_reason_from_output (output : ExecToolCallOutput) : str :=
  lit "command failed; retry without sandbox?".

Definition is_needs_approval (r : ExecApprovalRequirement) : bool :=
  match r with NeedsApproval _ _ => true | _ => false end.

(** ** The sequence *)
Section run.
Context (os : TargetOs) (uuid : nat → str).
(** The hooks for a run id, and the texts of the automatic reviewer. *)
Context (run_permission_request_hooks : list Event → str → str → option PermissionRequestDecision).
Context (guardian_rejection_message : list Event → str) (guardian_timeout_message : str).
Context {Req Out : Type} `{!ToolRuntime Req Out}.

Definition begin_network_approval (turn_id : str) (managed_network_active : bool)
    (spec : option NetworkApprovalSpec) : M (option (str * NetworkApprovalMode)) :=
  match spec with
  | None => mret None
  | Some spec =>
      if negb managed_network_active || match spec_network spec with None => true | Some _ => false end
      then mret None
      else λ s,
        let registration_id := uuid (registrations s) in
        (set_network (register_call registration_id turn_id (spec_command spec) (network_approval s))
           (S (registrations s)) s,
         Ok (Some (registration_id, spec_mode spec)))
  end.

(** [finish_immediate_network_approval], [finish_deferred_network_approval] *)
Definition finish_network_approval (registration_id : str) : M unit := λ s,
  let (r, n) := finish_call registration_id (network_approval s) in
  (set_network n (registrations s) s, r).

Definition run_attempt (req : Req) (turn_id : str) (attempt : SandboxAttempt) (managed_network_active : bool)
    : M (Res ToolErr Out * option str) :=
  network_approval ← begin_network_approval turn_id managed_network_active (network_approval_spec req);
  let attempt := mkAttempt (attempt_sandbox attempt) (attempt_permissions attempt)
    (enforce_managed_network attempt) (attempt_sandbox_cwd attempt) (codex_linux_sandbox_exe attempt)
    (use_legacy_landlock attempt) (fst <$> network_approval) in
  _ ← emit (RanTool attempt);
  run_result ← try_ (run_tool req attempt);
  match network_approval with
  | None => mret (run_result, None)
  | Some (registration_id, Immediate) =>
      finalize_result ← try_ (finish_network_approval registration_id);
      mret (match finalize_result with Err err => (Err err, None) | _ => (run_result, None) end)
  | Some (registration_id, Deferred) =>
      match run_result with
      | Ok _ => mret (run_result, Some registration_id)
      | _ =>
          finalize_result ← try_ (finish_network_approval registration_id);
          mret (match finalize_result with Err err => (Err err, None) | _ => (run_result, None) end)
      end
  end.

Definition request_approval (req : Req) (permission_request_run_id : str) (ctx : ApprovalCtx)
    (evaluate_permission_request_hooks : bool) : M ReviewDecision :=
  let ask :=
    decision ← start_approval req ctx;
    _ ← emit (ToolDecision decision
           (if guardian_reviews ctx then SourceAutomatedReviewer else SourceUser));
    mret decision in
  match (if evaluate_permission_request_hooks then permission_request_payload req else None) with
  | None => ask
  | Some payload =>
      answer ← Prelude.reads (λ s, Ok (run_permission_request_hooks (trace s) permission_request_run_id payload));
      _ ← emit (AskedHooks permission_request_run_id answer);
      match answer with
      | Some HookAllow => _ ← emit (ToolDecision Approved SourceConfig); mret Approved
      | Some (HookDeny message) => _ ← emit (ToolDecision Denied SourceConfig); lift (Err (Rejected message))
      | None => ask
      end
  end.

Definition reject_if_not_approved (guardian_review : bool) (decision : ReviewDecision) : M unit :=
  match decision with
  | Denied | Abort =>
      Prelude.reads (λ s, Err (Rejected (if guardian_review then guardian_rejection_message (trace s)
                                 else lit "rejected by user")))
  | TimedOut => lift (Err (Rejected guardian_timeout_message))
  | Approved | ApprovedExecpolicyAmendment _ | ApprovedForSession => mret ()
  | NetworkPolicyAmendment _ ActionAllow => mret ()
  | NetworkPolicyAmendment _ ActionDeny => lift (Err (Rejected (lit "rejected by user")))
  end.

(** Ask, and go on only when the answer approves. *)
Definition approve (req : Req) (run_id : str) (ctx : ApprovalCtx) (hooks : bool) : M unit :=
  decision ← request_approval req run_id ctx hooks;
  reject_if_not_approved (guardian_reviews ctx) decision.

(** 1) Approval: whether the request was approved by somebody. *)
Definition approval_phase (req : Req) (call_id : str) (turn : ToolTurn) (policy : AskForApproval) : M bool :=
  let strict := turn_strict_auto_review turn in
  let use_guardian := routes_approval_to_guardian (turn_context turn) || strict in
  match default (default_exec_approval_requirement policy (turn_file_system_policy turn))
          (exec_approval_requirement req) with
  | Skip _ _ =>
      if strict then
        _ ← approve req call_id (mkApprovalCtx true None None) false;
        mret true
      else
        _ ← emit (ToolDecision Approved SourceConfig);
        mret false
  | RequirementForbidden reason => lift (Err (Rejected reason))
  | NeedsApproval reason _ =>
      _ ← approve req call_id (mkApprovalCtx use_guardian reason None) (negb strict);
      mret true
  end.

Definition initial_sandbox (req : Req) (turn : ToolTurn) : SandboxType :=
  match sandbox_mode_for_first_attempt req with
  | BypassSandboxFirstAttempt => SandboxNone
  | NoOverride =>
      select_initial os (turn_file_system_policy turn) (turn_network_policy turn) sandbox_preference
        (turn_windows_level turn) (bool_decide (is_Some (turn_network turn)))
  end.

Definition attempt_for (req : Req) (turn : ToolTurn) (sandbox : SandboxType) (exe : option str) : SandboxAttempt :=
  mkAttempt sandbox (ctx_permission_profile (turn_context turn)) (bool_decide (is_Some (turn_network turn)))
    (default (turn_cwd turn) (sandbox_cwd req)) exe (turn_legacy_landlock turn) None.

(** Whether a denied attempt may be tried again, with the network access that
    was denied. *)
Definition may_retry (turn : ToolTurn) (policy : AskForApproval)
    (network_policy_decision : option NetworkPolicyDecisionPayload) : option (option NetworkApprovalContext) :=
  let network_context :=
    if bool_decide (is_Some (turn_network turn))
    then network_policy_decision ≫= network_approval_context_from_payload else None in
  let some {A} (o : option A) := match o with Some _ => true | None => false end in
  if some network_policy_decision && negb (some network_context) then None
  else if negb (escalate_on_failure (Req := Req) (Out := Out)) then None
  else if negb (wants_no_sandbox_approval (Req := Req) (Out := Out) policy) &&
          negb (match policy with OnRequest => true | _ => false end && some network_context &&
                is_needs_approval (default_exec_approval_requirement policy (turn_file_system_policy turn)))
  then None
  else Some network_context.

Definition retry_reason_of (network_context : option NetworkApprovalContext) (output : ExecToolCallOutput) : str :=
  match network_context with
  | Some c => lit "Network access to " ++ quoted (nac_host c) ++ lit " is blocked by policy."
  | None => build_denial_reason_from_output output
  end.

(** The second attempt, without a sandbox. *)
Definition retry_phase (req : Req) (call_id turn_id : str) (turn : ToolTurn) (policy : AskForApproval)
    (already_approved : bool) (network_context : option NetworkApprovalContext)
    (output : ExecToolCallOutput) : M (Out * option str) :=
  let strict := turn_strict_auto_review turn in
  let use_guardian := routes_approval_to_guardian (turn_context turn) || strict in
  let bypass_retry_approval :=
    negb strict && should_bypass_approval (Req := Req) (Out := Out) policy already_approved &&
    match network_context with None => true | Some _ => false end in
  _ ← (if bypass_retry_approval then mret ()
       else approve req (call_id ++ lit ":retry")
              (mkApprovalCtx use_guardian (Some (retry_reason_of network_context output)) network_context)
              (negb strict));
  x ← run_attempt req turn_id (attempt_for req turn SandboxNone None) (bool_decide (is_Some (turn_network turn)));
  lift ((λ out, (out, snd x)) <$> fst x).

Definition run (req : Req) (call_id turn_id : str) (turn : ToolTurn) (policy : AskForApproval)
    : M (Out * option str) :=
  already_approved ← approval_phase req call_id turn policy;
  x ← run_attempt req turn_id (attempt_for req turn (initial_sandbox req turn) (turn_linux_sandbox_exe turn))
        (bool_decide (is_Some (turn_network turn)));
  match fst x with
  | Ok out => mret (out, snd x)
  | Err (CodexError (SandboxDenied output network_policy_decision)) =>
      match may_retry turn policy network_policy_decision with
      | Some network_context =>
          retry_phase req call_id turn_id turn policy already_approved network_context output
      | None => lift (Err (CodexError (SandboxDenied output network_policy_decision)))
      end
  | r => lift ((λ out, (out, snd x)) <$> r)
  end.
End run.
