(* ===== verification/ToolRuntimes.v ===== *)
(** * The tool runtimes: [core/src/tools/runtimes/*.rs]

    The shell, the unified exec and the patch runtimes as instances of
    [ToolRuntime], with the cache of approvals for the session
    ([core/src/tools/sandboxing.rs]), the key a command is cached under
    ([core/src/command_canonicalization.rs]), the preparation of the command
    ([shell-command/src/powershell.rs], [sandboxing]) and the test for a denial
    by the sandbox ([core/src/exec.rs]).

    Parameters: the answers of the reviewer and the user, how a key is written
    as JSON, the wrapping of commands for shell snapshots, the environment a
    managed network sets, the execution of a prepared command, the zsh backend,
    and applying a patch.  The zsh backend runs an escalation server of its own:
    what it asks and what it runs for the commands it intercepts is no event of
    the trace. *)
From S2P Require Import Prelude RustStr AbsolutePath FileSystem Ordering Paths ShellTree Permissions PermissionProfile PolicyTransforms ExecApproval GrantedPermissions NetworkApproval PatchSafety SandboxManager Orchestrator.

(** ** PowerShell *)

Definition POWERSHELL_FLAGS : list str := [lit "-nologo"; lit "-noprofile"; lit "-command"; lit "-c"].
Definition UTF8_OUTPUT_PREFIX : str := lit "[Console]::OutputEncoding=[System.Text.Encoding]::UTF8;" ++ [c_nl].

(** The loop over the flags; the last argument is never a flag. *)
Fixpoint find_powershell_script (args : list str) : option str :=
  match args with
  | flag :: (script :: _) as rest =>
      if negb (bool_decide (to_ascii_lowercase flag ∈ POWERSHELL_FLAGS)) then None
      else if eq_ignore_ascii_case flag (lit "-Command") || eq_ignore_ascii_case flag (lit "-c")
      then Some script
      else find_powershell_script rest
  | _ => None
  end.

Definition extract_powershell_command (command : list str) : option (str * str) :=
  match command with
  | shell :: (_ :: _ :: _) as args =>
      match detect_shell_type shell with
      | Ok PowerShell => (λ script, (shell, script)) <$> find_powershell_script args
      | _ => None
      end
  | _ => None
  end.

Definition prefix_powershell_script_with_utf8 (command : list str) : list str :=
  match extract_powershell_command command with
  | None => command
  | Some (_, script) =>
      let script := if starts_with UTF8_OUTPUT_PREFIX (trim_start script) then script
                    else UTF8_OUTPUT_PREFIX ++ script in
      take (length command - 1) command ++ [script]
  end.

(** ** The key of a command in the approval cache *)

Definition CANONICAL_BASH_SCRIPT_PREFIX : str := lit "__codex_shell_script__".
Definition CANONICAL_POWERSHELL_SCRIPT_PREFIX : str := lit "__codex_powershell_script__".

Section canonical.
Context (try_parse_shell : str → option Node).

Definition canonicalize_command_for_approval (command : list str) : list str :=
  match parse_shell_lc_plain_commands try_parse_shell command with
  | Ok [single_command] => single_command
  | _ =>
      match extract_bash_command command with
      | Ok (_, script) =>
          [CANONICAL_BASH_SCRIPT_PREFIX; default [] (command !! 1); script]
      | _ =>
          match extract_powershell_command command with
          | Some (_, script) => [CANONICAL_POWERSHELL_SCRIPT_PREFIX; script]
          | None => command
          end
      end
  end.
End canonical.

(** ** The cache of approvals *)

Definition approved_for_session (d : option ReviewDecision) : bool :=
  match d with Some ApprovedForSession => true | _ => false end.

(** [ApprovalStore::get] and [put]; a key that cannot be written as JSON is
    [None]. *)
Definition store_get (store : ApprovalStore) (key : option str) : option ReviewDecision :=
  s ← key; store !! s.
Definition store_put (key : option str) (value : ReviewDecision) (store : ApprovalStore) : ApprovalStore :=
  match key with Some s => <[s := value]> store | None => store end.

Definition remember_approval (keys : list (option str)) (decision : ReviewDecision) : M unit :=
  match decision with
  | ApprovedForSession => λ s,
      (set_approvals (foldl (λ store key, store_put key ApprovedForSession store) (tool_approvals s) keys) s, Ok ())
  | _ => mret ()
  end.

Definition with_cached_approval (keys : list (option str)) (fetch : M ReviewDecision) : M ReviewDecision :=
  match keys with
  | [] => fetch
  | _ =>
      already_approved ← Prelude.reads (λ s,
        Ok (forallb (λ key, approved_for_session (store_get (tool_approvals s) key)) keys));
      if already_approved : bool then mret ApprovedForSession
      else
        decision ← fetch;
        _ ← remember_approval keys decision;
        mret decision
  end.

(** ** Preparing a command *)

(** The unified exec runtime has its own words for an empty command. *)
Definition build_sandbox_command (empty : string) (command : list str) (cwd : str) (env : gmap str str)
    (additional_permissions : option AdditionalPermissionProfile) : Res ToolErr SandboxCommand :=
  match command with
  | [] => Err (Rejected (lit empty))
  | program :: args => Ok (mkSandboxCommand program args cwd env additional_permissions)
  end.

Definition PROXY_ACTIVE_ENV_KEY : str := lit "CODEX_NETWORK_PROXY_ACTIVE".
Definition PROXY_ENV_KEYS : list str :=
  map lit
    ["CODEX_NETWORK_PROXY_ACTIVE"; "CODEX_NETWORK_ALLOW_LOCAL_BINDING"; "ELECTRON_GET_USE_PROXY";
     "HTTP_PROXY"; "HTTPS_PROXY"; "http_proxy"; "https_proxy"; "YARN_HTTP_PROXY"; "YARN_HTTPS_PROXY";
     "npm_config_http_proxy"; "npm_config_https_proxy"; "npm_config_proxy"; "NPM_CONFIG_HTTP_PROXY";
     "NPM_CONFIG_HTTPS_PROXY"; "NPM_CONFIG_PROXY"; "BUNDLE_HTTP_PROXY"; "BUNDLE_HTTPS_PROXY"; "PIP_PROXY";
     "DOCKER_HTTP_PROXY"; "DOCKER_HTTPS_PROXY"; "WS_PROXY"; "WSS_PROXY"; "ws_proxy"; "wss_proxy"; "NO_PROXY";
     "no_proxy"; "npm_config_noproxy"; "NPM_CONFIG_NOPROXY"; "YARN_NO_PROXY"; "BUNDLE_NO_PROXY"; "ALL_PROXY";
     "all_proxy"; "FTP_PROXY"; "ftp_proxy"]%string.

Definition exec_env_for_sandbox_permissions (env : gmap str str) (sandbox_permissions : SandboxPermissions)
    : gmap str str :=
  match sandbox_permissions with
  | RequireEscalated =>
      if bool_decide (is_Some (env !! PROXY_ACTIVE_ENV_KEY))
      then foldl (λ env key, delete key env) env PROXY_ENV_KEYS else env
  | _ => env
  end.

(** ** Denials by the sandbox *)

Definition SANDBOX_DENIED_KEYWORDS : list str :=
  map lit ["operation not permitted"; "permission denied"; "read-only file system"; "seccomp"; "sandbox";
           "landlock"; "failed to write file"]%string.

Section denied.
Context (to_lowercase : str → str).

(** [SIGSYS] is 31 on Linux. *)
Definition is_likely_sandbox_denied (sandbox_type : SandboxType) (output : ExecToolCallOutput) : bool :=
  if bool_decide (sandbox_type = SandboxNone) || (exit_code output =? 0)%Z then false
  else if existsb (λ section, existsb (λ needle, contains needle (to_lowercase section)) SANDBOX_DENIED_KEYWORDS)
            [stderr output; stdout output; aggregated_output output] then true
  else if bool_decide (exit_code output ∈ [2; 126; 127]%Z) then false
  else bool_decide (sandbox_type = LinuxSeccomp) && (exit_code output =? 128 + 31)%Z.
End denied.

Definition error_of_transform (wsl1_warning : str) (e : SandboxTransformError) : CodexErr :=
  match e with
  | MissingLinuxSandboxExecutable => OtherError (lit "LandlockSandboxExecutableNotProvided")
  | Wsl1UnsupportedForBubblewrap => OtherError wsl1_warning
  | SeatbeltUnavailable => OtherError (lit "seatbelt sandbox is only available on macOS")
  end.

(** ** The runtimes *)

Inductive ShellRuntimeBackend := Generic | ShellCommandClassic | ShellCommandZshFork.
(** Of [ZshForkConfig] only that it is there. *)
Inductive UnifiedExecShellMode := Direct | ZshFork.

Record ShellRequest := mkShellRequest {
  sh_command : list str;
  sh_hook_command : str;
  sh_cwd : str;
  sh_env : gmap str str;
  sh_network : option str;
  sh_sandbox_permissions : SandboxPermissions;
  sh_additional_permissions : option AdditionalPermissionProfile;
  sh_justification : option str;
  sh_requirement : ExecApprovalRequirement
}.
Record ShellApprovalKey := mkShellKey {
  sk_command : list str;
  sk_cwd : str;
  sk_sandbox_permissions : SandboxPermissions;
  sk_additional_permissions : option AdditionalPermissionProfile
}.

Record UnifiedExecRequest := mkUnifiedRequest {
  ue_command : list str;
  ue_hook_command : str;
  ue_cwd : str;
  ue_env : gmap str str;
  ue_network : option str;
  ue_tty : bool;
  ue_sandbox_permissions : SandboxPermissions;
  ue_additional_permissions : option AdditionalPermissionProfile;
  ue_justification : option str;
  ue_requirement : ExecApprovalRequirement
}.

Record ApplyPatchRequest := mkPatchRequest {
  ap_patch : str;
  ap_cwd : str;
  ap_file_paths : list str;
  ap_requirement : ExecApprovalRequirement;
  ap_additional_permissions : option AdditionalPermissionProfile;
  ap_permissions_preapproved : bool
}.
Record FileSystemSandboxContext := mkFsContext { fsc_permissions : PermissionProfile; fsc_cwd : str }.

Section runtimes.
Context (try_parse_shell : str → option Node) (to_lowercase : str → str).
Context (guardian_answer user_answer : list Event → option str → ReviewDecision).
Context (shell_key_json : ShellApprovalKey → option str).
Context (unified_key_json : ShellApprovalKey → bool → option str) (path_json : str → option str).
Context (permission_profile_json : PermissionProfile → str) (is_wsl1 : bool) (wsl1_warning : str).
(** Wrapping for shell snapshots, whether the shell of the session is
    PowerShell; executing; the zsh backend, which may decline. *)
Context (maybe_wrap_shell_lc_with_snapshot : list str → str → gmap str str → list str) (is_powershell : bool).
Context (apply_to_env : str → gmap str str → gmap str str).
Context (execute : list Event → SandboxExecRequest → NetworkApprovalService →
           NetworkApprovalService * Res ToolErr ExecToolCallOutput).

Definition ask_guardian (reason : option str) : M ReviewDecision := λ s,
  let d := guardian_answer (trace s) reason in
  ((emit (AskedGuardian reason d) s).1, Ok d).
Definition ask_user (keys : list (option str)) (reason : option str) : M ReviewDecision := λ s,
  let d := user_answer (trace s) reason in
  ((emit (AskedUser keys reason d) s).1, Ok d).

(** What acts on the network service and may fail. *)
Definition with_network {A} (f : list Event → NetworkApprovalService → NetworkApprovalService * Res ToolErr A)
    : M A := λ s,
  let (n, r) := f (trace s) (network_approval s) in
  (set_network n (registrations s) s, r).

(** [execute_env] *)
Definition execute_env (request : SandboxExecRequest) : M ExecToolCallOutput :=
  with_network (λ events, execute events request).

(** [SandboxAttempt::env_for] of the command with its environment. *)
Definition prepare_attempt (empty : string) (command : list str) (cwd : str) (env : gmap str str)
    (additional_permissions : option AdditionalPermissionProfile) (network : option str)
    (attempt : SandboxAttempt) : M SandboxExecRequest :=
  command ← lift (build_sandbox_command empty command cwd env additional_permissions);
  lift (map_err (λ e, CodexError (error_of_transform wsl1_warning e))
    (transform permission_profile_json is_wsl1
       (mkTransformRequest command (attempt_permissions attempt) (attempt_sandbox attempt)
          (enforce_managed_network attempt) network (attempt_sandbox_cwd attempt)
          (codex_linux_sandbox_exe attempt) (use_legacy_landlock attempt)))).

Definition rewrite_command (command : list str) (cwd : str) (env : gmap str str) : list str :=
  let command := maybe_wrap_shell_lc_with_snapshot command cwd env in
  if is_powershell then prefix_powershell_script_with_utf8 command else command.

(** The zsh backend: [maybe_run_shell_command] and [maybe_prepare_unified_exec]
    with the session it opens. *)
Context (backend : ShellRuntimeBackend) (shell_mode : UnifiedExecShellMode).
Context (maybe_run_shell_command : ShellRequest → SandboxAttempt → list str → list Event →
           NetworkApprovalService → NetworkApprovalService * Res ToolErr (option ExecToolCallOutput)).
Context (maybe_open_unified_exec : UnifiedExecRequest → SandboxAttempt → SandboxExecRequest → list Event →
           NetworkApprovalService → NetworkApprovalService * Res ToolErr (option ExecToolCallOutput)).

Definition shell_approval_keys (req : ShellRequest) : list (option str) :=
  [shell_key_json (mkShellKey (canonicalize_command_for_approval try_parse_shell (sh_command req)) (sh_cwd req)
     (sh_sandbox_permissions req) (sh_additional_permissions req))].

Definition or_else {A} (a b : option A) : option A := match a with Some _ => a | None => b end.

#[global] Instance ShellRuntime : ToolRuntime ShellRequest ExecToolCallOutput := {
  approval_keys := shell_approval_keys;
  exec_approval_requirement req := Some (sh_requirement req);
  sandbox_mode_for_first_attempt req :=
    sandbox_override_for_first_attempt (sh_sandbox_permissions req) (sh_requirement req);
  should_bypass_approval := default_should_bypass_approval;
  permission_request_payload req := Some (sh_hook_command req);
  wants_no_sandbox_approval := default_wants_no_sandbox_approval;
  start_approval req ctx :=
    if guardian_reviews ctx then ask_guardian (retry_reason ctx)
    else with_cached_approval (shell_approval_keys req)
           (ask_user (shell_approval_keys req) (or_else (retry_reason ctx) (sh_justification req)));
  sandbox_preference := Auto;
  escalate_on_failure := true;
  network_approval_spec req :=
    network ← managed_network_for_sandbox_permissions (sh_network req) (sh_sandbox_permissions req);
    Some (mkSpec (Some network) Immediate (sh_hook_command req));
  sandbox_cwd _ := None;
  run_tool req attempt :=
    let network := managed_network_for_sandbox_permissions (sh_network req) (sh_sandbox_permissions req) in
    let env := exec_env_for_sandbox_permissions (sh_env req) (sh_sandbox_permissions req) in
    let command := rewrite_command (sh_command req) (sh_cwd req) env in
    forked ← match backend with
             | ShellCommandZshFork => with_network (maybe_run_shell_command req attempt command)
             | Generic | ShellCommandClassic => mret None
             end;
    match forked with
    | Some out => mret out
    | None =>
        request ← prepare_attempt "command args are empty" command (sh_cwd req) env
                    (sh_additional_permissions req) network attempt;
        execute_env request
    end
}.

Definition unified_approval_keys (req : UnifiedExecRequest) : list (option str) :=
  [unified_key_json (mkShellKey (canonicalize_command_for_approval try_parse_shell (ue_command req)) (ue_cwd req)
     (ue_sandbox_permissions req) (ue_additional_permissions req)) (ue_tty req)].

#[global] Instance UnifiedExecRuntime : ToolRuntime UnifiedExecRequest ExecToolCallOutput := {
  approval_keys := unified_approval_keys;
  exec_approval_requirement req := Some (ue_requirement req);
  sandbox_mode_for_first_attempt req :=
    sandbox_override_for_first_attempt (ue_sandbox_permissions req) (ue_requirement req);
  should_bypass_approval := default_should_bypass_approval;
  permission_request_payload req := Some (ue_hook_command req);
  wants_no_sandbox_approval := default_wants_no_sandbox_approval;
  start_approval req ctx :=
    if guardian_reviews ctx then ask_guardian (retry_reason ctx)
    else with_cached_approval (unified_approval_keys req)
           (ask_user (unified_approval_keys req) (or_else (retry_reason ctx) (ue_justification req)));
  sandbox_preference := Auto;
  escalate_on_failure := true;
  network_approval_spec req :=
    network ← managed_network_for_sandbox_permissions (ue_network req) (ue_sandbox_permissions req);
    Some (mkSpec (Some network) Deferred (ue_hook_command req));
  sandbox_cwd req := Some (ue_cwd req);
  run_tool req attempt :=
    let network := managed_network_for_sandbox_permissions (ue_network req) (ue_sandbox_permissions req) in
    let env := exec_env_for_sandbox_permissions (ue_env req) (ue_sandbox_permissions req) in
    let env := match network with Some network => apply_to_env network env | None => env end in
    let command := rewrite_command (ue_command req) (ue_cwd req) env in
    let prepared := prepare_attempt "missing command line for PTY" command (ue_cwd req) env
                      (ue_additional_permissions req) network attempt in
    forked ← match shell_mode with
             | ZshFork => request ← prepared; with_network (maybe_open_unified_exec req attempt request)
             | Direct => mret None
             end;
    match forked with
    | Some out => mret out
    | None => request ← prepared; execute_env request
    end
}.

(** Applying the patch with the file system in a sandbox, or without one:
    whether it succeeded, what it printed and how long it took. *)
Context (apply_patch_in : list Event → ApplyPatchRequest → option FileSystemSandboxContext → bool * str * str * N).

Definition patch_wants_no_sandbox_approval (policy : AskForApproval) : bool :=
  match policy with
  | Never => false
  | Granular config => sandbox_approval config
  | OnFailure | OnRequest | UnlessTrusted => true
  end.

Definition file_system_sandbox_context_for_attempt (req : ApplyPatchRequest) (attempt : SandboxAttempt)
    : Total (option FileSystemSandboxContext) :=
  match attempt_sandbox attempt with
  | SandboxNone => Ok None
  | _ =>
      permissions ← effective_permission_profile (attempt_permissions attempt) (ap_additional_permissions req);
      Ok (Some (mkFsContext permissions (attempt_sandbox_cwd attempt)))
  end.

Definition patch_result (req : ApplyPatchRequest) (attempt : SandboxAttempt)
    (context : option FileSystemSandboxContext) : M ExecToolCallOutput := λ s,
  let '(ok, out, err, elapsed) := apply_patch_in (trace s) req context in
  let output := mkOutput (if ok then 0 else 1) out err (out ++ err) elapsed false in
  (s, if negb ok && is_likely_sandbox_denied to_lowercase (attempt_sandbox attempt) output
      then Err (CodexError (SandboxDenied output None)) else Ok output).

Definition patch_approval_keys (req : ApplyPatchRequest) : list (option str) := map path_json (ap_file_paths req).

#[global] Instance ApplyPatchRuntime : ToolRuntime ApplyPatchRequest ExecToolCallOutput := {
  approval_keys := patch_approval_keys;
  exec_approval_requirement req := Some (ap_requirement req);
  sandbox_mode_for_first_attempt _ := NoOverride;
  should_bypass_approval := default_should_bypass_approval;
  permission_request_payload req := Some (ap_patch req);
  wants_no_sandbox_approval := patch_wants_no_sandbox_approval;
  start_approval req ctx :=
    if guardian_reviews ctx then ask_guardian (retry_reason ctx)
    else
      match retry_reason ctx with
      | None =>
          if ap_permissions_preapproved req then mret Approved
          else with_cached_approval (patch_approval_keys req) (ask_user (patch_approval_keys req) None)
      | Some reason => ask_user (patch_approval_keys req) (Some reason)
      end;
  sandbox_preference := Auto;
  escalate_on_failure := true;
  network_approval_spec _ := None;
  sandbox_cwd _ := None;
  run_tool req attempt :=
    context ← lift (match file_system_sandbox_context_for_attempt req attempt with
                    | Ok c => Ok c
                    | Err e => match e with end
                    | Panic p => Panic p
                    end);
    patch_result req attempt context
}.
End runtimes.

(** ** PowerShell commands with further arguments *)

(** With more than one argument behind [-Command] the prefixed script takes the
    place of the last one: the script is there twice, the argument is gone. *)
Theorem powershell_prefix_drops_argument :
  prefix_powershell_script_with_utf8 [lit "pwsh"; lit "-Command"; lit "A;"; lit "B"] =
    [lit "pwsh"; lit "-Command"; lit "A;"; UTF8_OUTPUT_PREFIX ++ lit "A;"].
Proof. by_compute. Qed.

Lemma powershell_script shell script rest :
  detect_shell_type shell = Ok PowerShell →
  extract_powershell_command (shell :: lit "-Command" :: script :: rest) = Some (shell, script).
Proof. intros H. unfold extract_powershell_command. by rewrite H. Qed.

(** The key of an approval does not tell apart what follows the script. *)
Theorem powershell_key_ignores_arguments try_parse_shell script rest :
  let key args := canonicalize_command_for_approval try_parse_shell
                    (lit "pwsh" :: lit "-Command" :: script :: args) in
  key rest = key [].
Proof.
  assert (Hb : ∀ args, extract_bash_command (lit "pwsh" :: lit "-Command" :: script :: args) = Err tt).
  { intros [|arg args]; reflexivity. }
  intros key. subst key. unfold canonicalize_command_for_approval, parse_shell_lc_plain_commands.
  rewrite !Hb. cbn [mbind Res_bind]. by rewrite !powershell_script by by_compute.
Qed.
