(* ===== verification/OrchestratorProofs.v ===== *)
(** * What the orchestrator guarantees

    The trace of a run, for every tool that keeps to the interface: which
    events come in which order.  Proved with a small logic of the events a
    computation produces. *)
From S2P Require Import Prelude RustStr AbsolutePath FileSystem Ordering Paths ShellTree Permissions PermissionProfile PolicyTransforms ExecApproval GrantedPermissions NetworkApproval PatchSafety SandboxManager Orchestrator ToolRuntimes.

(** ** Kinds of events *)

Definition is_run (e : Event) : bool := match e with RanTool _ => true | _ => false end.
Definition is_question (e : Event) : bool :=
  match e with AskedHooks _ _ | AskedGuardian _ _ | AskedUser _ _ _ => true | _ => false end.
Definition runs (es : list Event) : list SandboxAttempt :=
  omap (λ e, match e with RanTool a => Some a | _ => None end) es.

(** No run without a decision that approves, the latest of the trace so far. *)
Fixpoint authorised (approved : bool) (es : list Event) : bool :=
  match es with
  | [] => true
  | ToolDecision d _ :: es => authorised (review_approves d) es
  | RanTool _ :: es => approved && authorised approved es
  | _ :: es => authorised approved es
  end.

(** The question was about these keys and was answered with this decision, by
    the one the decision is reported to come from. *)
Definition answered (keys : list (option str)) (q : Event) (d : ReviewDecision) (src : ToolDecisionSource) : Prop :=
  match q with
  | AskedUser keys' _ d' => keys' = keys ∧ d' = d ∧ src = SourceUser
  | AskedGuardian _ d' => d' = d ∧ src = SourceAutomatedReviewer
  | AskedHooks _ (Some HookAllow) => d = Approved ∧ src = SourceConfig
  | _ => False
  end.

(** The user approved the key for the session when asked about it. *)
Definition approved_earlier (past : list Event) (key : str) : Prop :=
  ∃ keys reason, Some key ∈ keys ∧ AskedUser keys reason ApprovedForSession ∈ past.

(** There are keys, and the user approved each for the session. *)
Definition remembered_for (past : list Event) (keys : list (option str)) : Prop :=
  keys ≠ [] ∧ ∀ k, k ∈ keys → ∃ key, k = Some key ∧ approved_earlier past key.

(** A decision that was given: the last of the questions was answered with it,
    or nobody was asked because the user had approved all the keys for the
    session before. *)
Definition given (past : list Event) (keys : list (option str)) (qs : list Event) (d : ReviewDecision)
    (src : ToolDecisionSource) : Prop :=
  (∃ q, last qs = Some q ∧ answered keys q d src) ∨
  (d = ApprovedForSession ∧ src = SourceUser ∧ remembered_for (past ++ qs) keys).

(** Questions, and a decision that approves. *)
Definition approval_events (qs es : list Event) (d : ReviewDecision) (src : ToolDecisionSource) : Prop :=
  es = qs ++ [ToolDecision d src] ∧ forallb is_question qs = true ∧ review_approves d = true.

(** Consent to what the keys stand for: a hook, the reviewer or the user was
    asked and approved, or the user had approved for the session.  A decision
    that nobody gave is no consent. *)
Definition consents (past : list Event) (keys : list (option str)) (es : list Event) : Prop :=
  ∃ qs d src, approval_events qs es d src ∧ given past keys qs d src.

(** Somebody consented, at some point of the trace. *)
Definition consented (past : list Event) (keys : list (option str)) (es : list Event) : Prop :=
  ∃ before said after, es = before ++ said ++ after ∧ consents (past ++ before) keys said.

(** ** Events a computation produces

    The approvals the session remembers were given by the user. *)

Definition approvals_asked (s : Session) : Prop :=
  ∀ key, tool_approvals s !! key = Some ApprovedForSession → approved_earlier (trace s) key.

Definition produces {A} (past : list Event) (m : M A) (P : list Event → Res ToolErr A → Prop) : Prop :=
  ∀ s, trace s = past → approvals_asked s →
    ∃ es, trace (m s).1 = past ++ es ∧ approvals_asked (m s).1 ∧ P es (m s).2.

Lemma approved_earlier_app past es key : approved_earlier past key → approved_earlier (past ++ es) key.
Proof. intros (keys & reason & Hk & Hin). exists keys, reason. split; [done|]. apply elem_of_app. by left. Qed.

Lemma approvals_asked_grow s s' es :
  tool_approvals s' = tool_approvals s → trace s' = trace s ++ es → approvals_asked s → approvals_asked s'.
Proof. intros Ha Ht H key. rewrite Ha, Ht. intros ?%H. by apply approved_earlier_app. Qed.

Lemma produces_weaken {A} past (m : M A) (P Q : list Event → Res ToolErr A → Prop) :
  produces past m P → (∀ es r, P es r → Q es r) → produces past m Q.
Proof. intros H HPQ s Hs Ha. destruct (H s Hs Ha) as (es & E & Ha' & Hp). eauto. Qed.

Lemma produces_ret {A} past (a : A) : produces past (mret a) (λ es r, es = [] ∧ r = Ok a).
Proof. intros s <- Ha. exists []. by rewrite app_nil_r. Qed.

Lemma produces_lift {A} past (x : Res ToolErr A) : produces past (lift x) (λ es r, es = [] ∧ r = x).
Proof. intros s <- Ha. exists []. by rewrite app_nil_r. Qed.

Lemma produces_reads {A} past (f : Session → Res ToolErr A) :
  produces past (Prelude.reads f) (λ es r, es = [] ∧ ∃ s, trace s = past ∧ approvals_asked s ∧ r = f s).
Proof. intros s <- Ha. exists []. rewrite app_nil_r. simpl. eauto 10. Qed.

Lemma produces_emit past e : produces past (emit e) (λ es r, es = [e] ∧ r = Ok ()).
Proof. intros s <- Ha. exists [e]. split; [done|]. split; [|done]. by apply (approvals_asked_grow s _ [e]). Qed.

(** What leaves the trace and the remembered approvals as they are. *)
Lemma produces_silent {A} past (m : M A) (P : Res ToolErr A → Prop) :
  (∀ s, tool_approvals (m s).1 = tool_approvals s ∧ trace (m s).1 = trace s ∧ P (m s).2) →
  produces past m (λ es r, es = [] ∧ P r).
Proof.
  intros H s <- Ha. destruct (H s) as (H1 & H2 & H3). exists []. rewrite app_nil_r. split_and!; try done.
  apply (approvals_asked_grow s _ []); [done| |done]. by rewrite H2, app_nil_r.
Qed.

Lemma produces_try {A} past (m : M A) P :
  produces past m P →
  produces past (try_ m) (λ es r, (∃ x, r = Ok x ∧ P es x) ∨ ∃ p, r = Panic p ∧ P es (Panic p)).
Proof.
  intros H s Hs Ha. destruct (H s Hs Ha) as (es & E & Ha' & Hp). exists es. unfold try_.
  destruct (m s) as [s' [a|e|p]]; simpl in *; eauto 10.
Qed.

Lemma produces_bind {A B} past (m : M A) (f : A → M B) P Q :
  produces past m P →
  (∀ a es, P es (Ok a) → produces (past ++ es) (f a) (λ es' r, Q (es ++ es') r)) →
  (∀ es e, P es (Err e) → Q es (Err e)) → (∀ es p, P es (Panic p) → Q es (Panic p)) →
  produces past (m ≫= f) Q.
Proof.
  intros Hm Hf He Hp s Hs Ha. destruct (Hm s Hs Ha) as (es & E & Ha' & Hes).
  unfold mbind, Eff_bind. destruct (m s) as [s1 [a|e|p]]; simpl in *.
  - destruct (Hf a es Hes s1 E Ha') as (es' & E' & Ha'' & Hq). exists (es ++ es'). by rewrite E', app_assoc.
  - eauto.
  - eauto.
Qed.

(** What a tool may do by itself: when it is to ask, it asks, or approves on
    account of what the user approved for the session, or, if the request is
    one of those [waives] names, without asking; it changes nothing in the
    trace when it runs; and it keeps to the defaults of the interface on when
    to ask again. *)
Class ToolLaws (Req Out : Type) `{!ToolRuntime Req Out} (waives : Req → bool) : Prop := {
  start_answers past req ctx :
    produces past (start_approval req ctx) (λ es r, forallb is_question es = true ∧
      ∀ d, r = Ok d → review_approves d = true →
        given past (approval_keys req) es d
          (if guardian_reviews ctx then SourceAutomatedReviewer else SourceUser) ∨
        waives req = true ∧ guardian_reviews ctx = false ∧ retry_reason ctx = None);
  run_quiet past req attempt :
    produces past (run_tool (Req := Req) (Out := Out) req attempt) (λ es _, es = []);
  bypass_default policy approved :
    should_bypass_approval (Req := Req) (Out := Out) policy approved = default_should_bypass_approval policy approved;
  wants_never : wants_no_sandbox_approval (Req := Req) (Out := Out) Never = false
}.

Section laws.
Context (os : TargetOs) (uuid : nat → str).
Context (hooks : list Event → str → str → option PermissionRequestDecision).
Context (rejection : list Event → str) (timeout : str).
Context {Req Out : Type} `{!ToolRuntime Req Out} (waives : Req → bool) `{!ToolLaws Req Out waives}.
#[local] Set Default Proof Using "Type*".

Definition quiet (es : list Event) : Prop := runs es = [].

Lemma runs_app es es' : runs (es ++ es') = runs es ++ runs es'.
Proof using. apply omap_app. Qed.

Lemma questions_quiet es : forallb is_question es = true → quiet es.
Proof using.
  unfold quiet. induction es as [|e es IH]; [done|]. simpl. intros [He Hes]%andb_true_iff.
  rewrite IH by done. by destruct e.
Qed.

(** The request was approved without a question, by its runtime. *)
Definition waived (req : Req) (ctx : ApprovalCtx) (es : list Event) : Prop :=
  waives req = true ∧ guardian_reviews ctx = false ∧ retry_reason ctx = None ∧
  ∃ qs d src, approval_events qs es d src.

Abbreviation consents_to req past es := (consents past (approval_keys (Req := Req) (Out := Out) req) es).

(** Asking: an approval is a consent or waived, and nothing is run. *)
Lemma request_produces past req run_id ctx evaluate :
  produces past (request_approval hooks (Req := Req) (Out := Out) req run_id ctx evaluate) (λ es r,
    match r with
    | Ok d => (review_approves d = true → consents_to req past es ∨ waived req ctx es) ∧ quiet es
    | _ => quiet es
    end).
Proof.
  assert (Hask : ∀ past' qs, past' = past ++ qs → forallb is_question qs = true →
    produces past' (decision ← start_approval req ctx;
              _ ← emit (ToolDecision decision (if guardian_reviews ctx then SourceAutomatedReviewer else SourceUser));
              mret decision) (λ es r,
      match r with
      | Ok d => (review_approves d = true → consents_to req past (qs ++ es) ∨ waived req ctx (qs ++ es)) ∧ quiet es
      | _ => quiet es
      end)).
  { intros past' qs -> Hqs. eapply produces_bind; [apply start_answers|..]; [|by intros es e [?%questions_quiet _]..].
    intros d es [Hes Hgiven]. eapply produces_bind; [apply produces_emit|..]; [|by intros ? ? []..].
    intros [] es' [-> _]. eapply produces_weaken; [apply produces_ret|]. intros es'' r [-> ->].
    rewrite app_nil_r. split; [|unfold quiet; by rewrite runs_app, (questions_quiet _ Hes)].
    intros Hd.
    assert (Hev : ∀ src, approval_events (qs ++ es) (qs ++ es ++ [ToolDecision d src]) d src).
    { intros src. split; [by rewrite <-app_assoc|]. by rewrite forallb_app, Hqs, Hes. }
    destruct (Hgiven d eq_refl Hd) as [Hg|(Hw & Hc & Hr)].
    - left. exists (qs ++ es), d. eexists. split; [apply Hev|].
      destruct Hg as [(q & Hq & Ha)|(-> & Hsrc & Hrem)].
      + left. exists q. by rewrite last_app, Hq.
      + right. by rewrite app_assoc.
    - right. split_and!; try done. exists (qs ++ es), d. eauto. }
  unfold request_approval.
  destruct (if evaluate then permission_request_payload req else None) as [payload|].
  2:{ eapply produces_weaken; [apply (Hask past []); by rewrite ?app_nil_r|done]. }
  eapply produces_bind; [apply produces_reads|..]; [|intros es e (_ & s & _ & _ & [=])..].
  intros answer es [-> _]. eapply produces_bind; [apply produces_emit|..]; [|by intros ? ? []..].
  intros [] es [-> _]. destruct answer as [[|message]|].
  - eapply produces_bind; [apply produces_emit|..]; [|by intros ? ? []..].
    intros [] es [-> _]. eapply produces_weaken; [apply produces_ret|]. intros es r [-> ->].
    split; [|done]. intros _. left. exists [AskedHooks run_id (Some HookAllow)], Approved, SourceConfig.
    split; [by repeat split|]. left. by eexists.
  - eapply produces_bind; [apply produces_emit|..]; [|by intros ? ? []..].
    intros [] es [-> _]. eapply produces_weaken; [apply produces_lift|]. by intros es r [-> ->].
  - eapply produces_weaken; [apply (Hask _ [AskedHooks run_id None]); by rewrite ?app_nil_r|].
    by intros es [d|e|p].
Qed.

Lemma reject_produces past guardian d :
  produces past (reject_if_not_approved rejection timeout guardian d) (λ es r,
    es = [] ∧ (r = Ok () → review_approves d = true)).
Proof using.
  unfold reject_if_not_approved.
  destruct d as [| | |host []| | |];
    (eapply produces_weaken; [first [apply produces_ret|apply produces_lift|apply produces_reads]|]);
    intros es r; try (by intros [-> ->]); by intros (-> & s & _ & _ & ->).
Qed.

Lemma approve_produces past req run_id ctx evaluate :
  produces past (approve hooks rejection timeout (Req := Req) (Out := Out) req run_id ctx evaluate) (λ es r,
    quiet es ∧ (r = Ok () → consents_to req past es ∨ waived req ctx es)).
Proof.
  eapply produces_bind; [apply request_produces|..]; [|done..].
  intros d es [Hc Hq]. eapply produces_weaken; [apply reject_produces|].
  intros es' r [-> Hr]. rewrite app_nil_r. split; [done|]. intros E. by apply Hc, Hr.
Qed.

Abbreviation requirement_of req turn policy :=
  (default (default_exec_approval_requirement policy (turn_file_system_policy turn))
     (exec_approval_requirement (Req := Req) (Out := Out) req)).

(** Consent, or a waiver outside of strict review. *)
Definition approved_first (req : Req) (turn : ToolTurn) (past es : list Event) : Prop :=
  consents_to req past es ∨
  waives req = true ∧ turn_strict_auto_review turn = false ∧
    routes_approval_to_guardian (turn_context turn) = false ∧ ∃ qs d src, approval_events qs es d src.

(** The first phase: refused, skipped or approved. *)
Lemma approval_produces past req call_id turn policy :
  produces past (approval_phase hooks rejection timeout (Req := Req) (Out := Out) req call_id turn policy) (λ es r,
    quiet es ∧
    match requirement_of req turn policy with
    | RequirementForbidden reason => es = [] ∧ r = Err (Rejected reason)
    | Skip _ _ =>
        if turn_strict_auto_review turn then ∀ b, r = Ok b → b = true ∧ approved_first req turn past es
        else es = [ToolDecision Approved SourceConfig] ∧ r = Ok false
    | NeedsApproval _ _ => ∀ b, r = Ok b → b = true ∧ approved_first req turn past es
    end).
Proof.
  assert (Hyes : ∀ ctx evaluate,
    (guardian_reviews ctx = false → turn_strict_auto_review turn = false ∧
       routes_approval_to_guardian (turn_context turn) = false) →
    produces past (_ ← approve hooks rejection timeout req call_id ctx evaluate; mret true)
      (λ es r, quiet es ∧ ∀ b, r = Ok b → b = true ∧ approved_first req turn past es)).
  { intros ctx evaluate Hctx. eapply produces_bind; [apply approve_produces|..]; [|by intros ? ? []..].
    intros [] es [Hq Hc]. eapply produces_weaken; [apply produces_ret|].
    intros es' r [-> ->]. rewrite app_nil_r. split; [done|]. intros b [= <-]. split; [done|].
    destruct (Hc eq_refl) as [?|(Hw & Hg%Hctx & _ & ?)]; [by left|right; naive_solver]. }
  unfold approval_phase. destruct (requirement_of req turn policy) as [bypass amendment|reason amendment|reason].
  - destruct (turn_strict_auto_review turn); [by apply Hyes|].
    eapply produces_bind; [apply produces_emit|..]; [|by intros ? ? []..].
    intros [] es [-> _]. eapply produces_weaken; [apply produces_ret|]. by intros es r [-> ->].
  - apply Hyes. cbn. by intros [-> ->]%orb_false_iff.
  - eapply produces_weaken; [apply produces_lift|]. by intros es r [-> ->].
Qed.

(** An attempt runs the tool once, in the sandbox it was given. *)
Lemma attempt_produces past req turn_id attempt managed :
  produces past (run_attempt uuid (Req := Req) (Out := Out) req turn_id attempt managed) (λ es r,
    ∃ a, es = [RanTool a] ∧ attempt_sandbox a = attempt_sandbox attempt).
Proof.
  assert (Hfinish : ∀ past rid, produces past (finish_network_approval rid) (λ es _, es = [])).
  { intros past' rid. eapply produces_weaken; [apply (produces_silent _ _ (λ _, True))|by intros ? ? [? _]].
    intros s. unfold finish_network_approval. by destruct (finish_call rid (network_approval s)). }
  unfold run_attempt.
  eapply (produces_bind _ _ _ (λ es r, es = [] ∧ ∃ o, r = Ok o)); [ | |by intros ? ? [_ [? [=]]]..].
  { apply (produces_silent _ _ (λ r, ∃ o, r = Ok o)). intros s. unfold begin_network_approval.
    destruct (network_approval_spec req) as [spec|]; simpl; [|eauto].
    destruct (negb managed || _); simpl; eauto. }
  intros approval es [-> _]. eapply produces_bind; [apply produces_emit|..]; [|by intros ? ? []..].
  intros [] es [-> _]. eapply produces_bind; [apply produces_try, run_quiet|..].
  2:{ by intros es e [(? & [=] & _)|(? & [=] & _)]. }
  2:{ intros es e [(? & [=] & _)|(? & _ & ->)]. eauto. }
  intros result es [(x & _ & ->)|(? & [=] & _)].
  set (a := mkAttempt _ _ _ _ _ _ _).
  set (Q := λ es' (r : Res ToolErr (Res ToolErr Out * option str)),
    ∃ a', [] ++ [RanTool a] ++ [] ++ es' = [RanTool a'] ∧ attempt_sandbox a' = attempt_sandbox attempt).
  assert (Hdone : ∀ past v, produces past (mret v) Q).
  { intros past' v. eapply produces_weaken; [apply produces_ret|]. intros es' r [-> _]. by exists a. }
  assert (Hfin : ∀ past rid (k : Res ToolErr unit → Res ToolErr Out * option str),
    produces past (finalize_result ← try_ (finish_network_approval rid); mret (k finalize_result)) Q).
  { intros past' rid k. eapply produces_bind; [apply produces_try, Hfinish|..].
    - intros v es' [(? & _ & ->)|(? & [=] & _)]. apply Hdone.
    - by intros es' e [(? & [=] & _)|(? & [=] & _)].
    - intros es' e [(? & [=] & _)|(? & _ & ->)]. by exists a. }
  destruct approval as [[rid []]|]; [apply Hfin|destruct result; [apply Hdone|apply Hfin..]|apply Hdone].
Qed.

(** The second attempt: refused, or run without a sandbox. *)
Definition retried req turn policy already network_context (past es : list Event) : Prop :=
  quiet es ∨
  ∃ es2 a, es = es2 ++ [RanTool a] ∧ attempt_sandbox a = SandboxNone ∧ quiet es2 ∧
    (consents_to req past es2 ∨
     es2 = [] ∧ turn_strict_auto_review turn = false ∧
       should_bypass_approval (Req := Req) (Out := Out) policy already = true ∧
       network_context = (None : option NetworkApprovalContext)).

Lemma retry_produces past req call_id turn_id turn policy already network_context output :
  produces past (retry_phase uuid hooks rejection timeout (Req := Req) (Out := Out) req call_id turn_id turn policy
              already network_context output)
    (λ es r, retried req turn policy already network_context past es).
Proof.
  assert (Hrun : ∀ past' es2, quiet es2 →
    (consents_to req past es2 ∨ es2 = [] ∧ turn_strict_auto_review turn = false ∧
       should_bypass_approval (Req := Req) (Out := Out) policy already = true ∧ network_context = None) →
    produces past' (x ← run_attempt uuid (Req := Req) (Out := Out) req turn_id (attempt_for req turn SandboxNone None)
                    (bool_decide (is_Some (turn_network turn)));
              lift ((λ out, (out, snd x)) <$> fst x))
      (λ es r, retried req turn policy already network_context past (es2 ++ es))).
  { intros past' es2 Hq Hc. eapply produces_bind; [apply attempt_produces|..].
    - intros x es (a & -> & Ha). eapply produces_weaken; [apply produces_lift|]. intros es r [-> _].
      rewrite app_nil_r. right. by exists es2, a.
    - intros es e (a & -> & Ha). right. by exists es2, a.
    - intros es e (a & -> & Ha). right. by exists es2, a. }
  unfold retry_phase.
  set (bypass := negb _ && _ && _). destruct bypass eqn:Hb; unfold bypass in Hb.
  - apply andb_true_iff in Hb as [[Hst%negb_true_iff Hby]%andb_true_iff Hn].
    eapply produces_bind; [apply produces_ret|..]; [|by intros ? ? []..].
    intros [] es [-> _]. apply (Hrun _ []); [done|]. right. split_and!; try done. by destruct network_context.
  - eapply produces_bind; [apply approve_produces|..]; [|by intros ? ? []; left..].
    intros [] es [Hq Hc]. apply Hrun; [done|]. left.
    by destruct (Hc eq_refl) as [?|(_ & _ & [=] & _)].
Qed.

(** What was said before the first attempt. *)
Definition cleared req turn policy (already : bool) (past es : list Event) : Prop :=
  if already then approved_first req turn past es
  else es = [ToolDecision Approved SourceConfig] ∧ turn_strict_auto_review turn = false ∧
       ∃ bypass amendment, requirement_of req turn policy = Skip bypass amendment.

(** The shape of the trace of a run. *)
Definition run_shape req turn policy (past es : list Event) : Prop :=
  quiet es ∨
  ∃ already es1 a1 es2, es = es1 ++ RanTool a1 :: es2 ∧ quiet es1 ∧ cleared req turn policy already past es1 ∧
    attempt_sandbox a1 = initial_sandbox os (Req := Req) (Out := Out) req turn ∧
    (es2 = [] ∨
     ∃ network_policy_decision network_context,
       may_retry (Req := Req) (Out := Out) turn policy network_policy_decision = Some network_context ∧
       retried req turn policy already network_context (past ++ es1 ++ [RanTool a1]) es2).

Lemma run_produces past req call_id turn_id turn policy :
  produces past (run os uuid hooks rejection timeout (Req := Req) (Out := Out) req call_id turn_id turn policy)
    (λ es r, run_shape req turn policy past es ∧
       (∀ reason, requirement_of req turn policy = RequirementForbidden reason → es = [])).
Proof.
  unfold run. eapply produces_bind; [apply approval_produces|..].
  2,3: intros es e [Hq Hr]; split; [by left|]; intros reason E; rewrite E in Hr; by destruct Hr.
  intros already es1 [Hq Hr].
  assert (Hnf : ∀ reason, requirement_of req turn policy ≠ RequirementForbidden reason).
  { intros reason E. rewrite E in Hr. by destruct Hr. }
  assert (Hclear : cleared req turn policy already past es1).
  { unfold cleared. destruct (requirement_of req turn policy) as [bypass amendment|reason amendment|reason].
    - destruct (turn_strict_auto_review turn).
      + destruct (Hr _ eq_refl) as [-> ?]. done.
      + destruct Hr as [-> [= ->]]. eauto.
    - destruct (Hr _ eq_refl) as [-> ?]. done.
    - by destruct (Hnf reason). }
  eapply (produces_weaken _ _ (λ es2, _)); [|intros es2 r H; split; [exact H|intros reason E; by destruct (Hnf reason)]].
  eapply (produces_bind _ _ _ (λ es r, ∃ a, es = [RanTool a] ∧ attempt_sandbox a = initial_sandbox os req turn)).
  - eapply produces_weaken; [apply attempt_produces|]. done.
  - intros x es (a & -> & Ha).
    assert (Hone : ∀ past' (r : Res ToolErr (Out * option str)),
      produces past' (lift r) (λ es' _, run_shape req turn policy past (es1 ++ [RanTool a] ++ es'))).
    { intros past' r. eapply produces_weaken; [apply produces_lift|]. intros es' r' [-> _].
      right. exists already, es1, a, []. split_and!; try done. by left. }
    destruct (fst x) as [out|[message|[output decision|output|message]]|p]; try apply Hone.
    destruct (may_retry turn policy decision) as [network_context|] eqn:Em; [|apply Hone].
    rewrite <-app_assoc. eapply produces_weaken; [apply retry_produces|]. intros es2 r Hret.
    right. exists already, es1, a, es2. split_and!; try done. right. eauto.
  - intros es e (a & -> & Ha). right. exists already, es1, a, []. split_and!; try done. by left.
  - intros es e (a & -> & Ha). right. exists already, es1, a, []. split_and!; try done. by left.
Qed.

(** ** Every run was authorised *)

Lemma authorised_quiet b es : quiet es → authorised b es = true.
Proof using. unfold quiet. revert b. induction es as [|[] es IH]; simpl; try done; intros b H; by apply IH. Qed.

Lemma authorised_questions b es rest :
  forallb is_question es = true → authorised b (es ++ rest) = authorised b rest.
Proof using.
  induction es as [|e es IH]; [done|]. simpl. intros [He Hes]%andb_true_iff. rewrite <-IH by done. by destruct e.
Qed.

Lemma authorised_approved b qs es d src rest :
  approval_events qs es d src → authorised b (es ++ rest) = authorised true rest.
Proof using. intros (-> & Hqs & Hd). rewrite <-app_assoc, authorised_questions by done. simpl. by rewrite Hd. Qed.

Lemma authorised_cleared req turn policy already past es rest :
  cleared req turn policy already past es → authorised false (es ++ rest) = authorised true rest.
Proof using.
  destruct already; simpl; [|by intros [-> _]].
  intros [(qs & d & src & H & _)|(_ & _ & _ & qs & d & src & H)]; by eapply authorised_approved.
Qed.

Abbreviation consented_to req past es := (consented past (approval_keys (Req := Req) (Out := Out) req) es).

Lemma may_retry_policy turn policy decision network_context :
  may_retry (Req := Req) (Out := Out) turn policy decision = Some network_context → policy ≠ Never.
Proof.
  intros H ->. revert H. unfold may_retry. rewrite wants_never. simpl.
  by repeat destruct (_ : bool).
Qed.

Lemma consented_first req past es1 rest : consents_to req past es1 → consented_to req past (es1 ++ rest).
Proof using. intros H. exists [], es1, rest. by rewrite app_nil_r. Qed.

(** What lets a run go ahead: consent, or a waiver. *)
Definition backed req (turn : ToolTurn) (past es : list Event) : Prop :=
  consented_to req past es ∨
  waives req = true ∧ turn_strict_auto_review turn = false ∧ routes_approval_to_guardian (turn_context turn) = false.

Lemma approved_first_backed req turn past es1 rest :
  approved_first req turn past es1 → backed req turn past (es1 ++ rest).
Proof using. intros [?%(consented_first _ _ _ rest)|(? & ? & ? & _)]; [by left|by right]. Qed.

(** A second run was backed, before the first run or between the two. *)
Lemma retried_backed req turn policy already decision network_context past es1 a1 es2 a2 :
  cleared req turn policy already past es1 →
  may_retry (Req := Req) (Out := Out) turn policy decision = Some network_context →
  retried req turn policy already network_context (past ++ es1 ++ [RanTool a1]) (es2 ++ [RanTool a2]) →
  backed req turn past (es1 ++ RanTool a1 :: es2).
Proof.
  intros Hc Hm%may_retry_policy [Hq|(es & a & E & _ & _ & Hes)].
  { unfold quiet in Hq. rewrite runs_app in Hq. by destruct (runs es2). }
  apply app_inj_tail in E as [<- _]. destruct Hes as [Hes|(-> & _ & Hb & _)].
  - left. exists (es1 ++ [RanTool a1]), es2, []. rewrite <-app_assoc, app_nil_r. by split.
  - rewrite bypass_default in Hb. destruct already; [|by destruct policy]. by apply approved_first_backed.
Qed.

Lemma retried_authorised req turn policy already network_context past es :
  retried req turn policy already network_context past es → authorised true es = true.
Proof using.
  intros [?|(es2 & a & -> & _ & Hq & [(qs & d & src & H & _)|(-> & _)])]; [by apply authorised_quiet| |done].
  by rewrite (authorised_approved _ _ _ _ _ _ H).
Qed.

(** The runs of a trace: none; or one in the sandbox that was selected, after
    approval by somebody or of a request that needs none; or such a one and a
    second one without a sandbox, with which the trace ends. *)
Definition first_run req turn policy (past before : list Event) (a : SandboxAttempt) : Prop :=
  runs before = [] ∧ attempt_sandbox a = initial_sandbox os (Req := Req) (Out := Out) req turn ∧
  (backed req turn past before ∨
   turn_strict_auto_review turn = false ∧ ∃ bypass amendment, requirement_of req turn policy = Skip bypass amendment).

Definition runs_allowed req turn policy (past es : list Event) : Prop :=
  runs es = [] ∨
  ∃ es1 a1 es2, es = es1 ++ RanTool a1 :: es2 ∧ first_run req turn policy past es1 a1 ∧
    (runs es2 = [] ∨
     ∃ es3 a2, es2 = es3 ++ [RanTool a2] ∧ runs es3 = [] ∧ attempt_sandbox a2 = SandboxNone ∧ policy ≠ Never ∧
       backed req turn past (es1 ++ RanTool a1 :: es3)).

Lemma cleared_first req turn policy already past es1 a1 :
  quiet es1 → cleared req turn policy already past es1 →
  attempt_sandbox a1 = initial_sandbox os (Req := Req) (Out := Out) req turn →
  first_run req turn policy past es1 a1.
Proof using.
  intros Hq Hc Ha. split_and!; [done..|]. destruct already; [left|by right; destruct Hc as (_ & ? & ?)].
  rewrite <-(app_nil_r es1). by apply approved_first_backed.
Qed.

Lemma shape_authorised req turn policy past es :
  run_shape req turn policy past es → authorised false es = true ∧ runs_allowed req turn policy past es.
Proof.
  intros [Hq|(already & es1 & a1 & es2 & -> & Hq & Hc & Ha & Hr)].
  { split; [by apply authorised_quiet|by left]. }
  rewrite (authorised_cleared _ _ _ _ _ _ _ Hc). simpl.
  assert (Hfirst := cleared_first _ _ _ _ _ _ _ Hq Hc Ha).
  destruct Hr as [->|(decision & network_context & Hm & Hr)].
  { split; [done|]. right. exists es1, a1, []. split_and!; try done. by left. }
  split; [eapply retried_authorised; eauto|]. right. exists es1, a1, es2. split_and!; try done.
  destruct Hr as [?|(es3 & a2 & -> & Ha2 & Hq3 & Hr)]; [by left|right].
  exists es3, a2. split_and!; try done; [by eapply may_retry_policy|].
  eapply retried_backed; [done..|]. right. by exists es3, a2.
Qed.

(** Decisions by the settings alone are no consent. *)
Lemma settings_no_consent past keys es :
  Forall (λ e, match e with AskedHooks _ _ => False | ToolDecision _ src => src = SourceConfig | _ => True end) es →
  ¬ consented past keys es.
Proof using.
  intros Hall (before & said & after & -> & qs & d & src & (-> & _) & Hg).
  apply Forall_app in Hall as [_ Hall]. apply Forall_app in Hall as [Hall _]. apply Forall_app in Hall as [Hq Hd].
  apply Forall_inv in Hd. subst src. destruct Hg as [(q & Hlast & Ha)|(_ & [=] & _)].
  apply last_Some_elem_of in Hlast. apply (proj1 (Forall_forall _ _) Hq) in Hlast.
  destruct q as [run_id answer|reason answer|keys' reason answer| | |]; simpl in *; try done;
    [by destruct Ha|by destruct Ha as (_ & _ & [=])].
Qed.

(** A run that nobody consented to was not to be asked about, or waived. *)
Lemma unasked_run_skips req turn policy past es :
  run_shape req turn policy past es → runs es ≠ [] → ¬ consented_to req past es →
  turn_strict_auto_review turn = false ∧
  (waives req = true ∧ routes_approval_to_guardian (turn_context turn) = false ∨
   ∃ bypass amendment, requirement_of req turn policy = Skip bypass amendment).
Proof using.
  intros [Hq|(already & es1 & a1 & es2 & -> & _ & Hc & _)] Hr Hn; [done|].
  destruct already; [|destruct Hc as (_ & ? & ?); by split; [|right]].
  destruct (approved_first_backed _ _ _ _ (RanTool a1 :: es2) Hc) as [?|(? & ? & ?)]; [done|]. by split; [|left].
Qed.

(** A run without a sandbox: it was backed, or it is the first one, not to be
    asked about, and selected to be without. *)
Lemma unsandboxed_run req turn policy past es a :
  run_shape req turn policy past es → a ∈ runs es → attempt_sandbox a = SandboxNone →
  backed req turn past es ∨
  initial_sandbox os (Req := Req) (Out := Out) req turn = SandboxNone ∧ turn_strict_auto_review turn = false ∧
  ∃ bypass amendment, requirement_of req turn policy = Skip bypass amendment.
Proof.
  intros [Hq|(already & es1 & a1 & es2 & -> & Hq & Hc & Ha1 & Hr)] Ha Hsb.
  { rewrite Hq in Ha. by apply elem_of_nil in Ha. }
  destruct already; [left; by apply approved_first_backed|]. pose proof Hc as (Hes1 & Hstrict & Hreq).
  rewrite runs_app, Hq in Ha. simpl in Ha. fold (runs es2) in Ha. apply elem_of_cons in Ha as [->|Ha].
  { right. by rewrite <-Ha1. }
  left. destruct Hr as [->|(decision & network_context & Hm & Hr)]; [by apply elem_of_nil in Ha|].
  destruct Hr as [Hq2|(es3 & a2 & -> & Ha2 & Hq3 & Hr)]; [rewrite Hq2 in Ha; by apply elem_of_nil in Ha|].
  assert (Hret : retried req turn policy false network_context (past ++ es1 ++ [RanTool a1]) (es3 ++ [RanTool a2]))
    by (right; by exists es3, a2).
  destruct (retried_backed _ _ _ _ _ _ _ _ _ _ _ Hc Hm Hret) as [(before & said & after & E & Hs)|?]; [|by right].
  left. exists before, said, (after ++ [RanTool a2]). split; [|done].
  change (RanTool a1 :: es3 ++ [RanTool a2]) with ((RanTool a1 :: es3) ++ [RanTool a2]).
  by rewrite app_assoc, E, <-!app_assoc.
Qed.

(** C8. Every tool the orchestrator drives runs only behind an approval, and the
    approvals it counts were given.  For a session that remembers only
    approvals the user gave, which it still does afterwards: in the trace of a
    call the latest decision before a run approves; a forbidden request leaves
    no trace at all; the tool runs at most twice, first in the sandbox selected
    for it, which is backed unless the request needs no approval and reviews
    are not strict; a second run is without a sandbox, is the last event, never
    happens under the policy that never asks, and is backed.  Backed means
    that, before it, a hook, the reviewer or the user was asked about this call
    and approved, that the user had approved all of its keys for the session
    when asked about them, or that the runtime waives the question for the
    request, outside of strict and automatic review; the shell runtimes waive
    none, the patch runtime those whose permissions were granted. *)
Theorem tool_runs_authorised req call_id turn_id turn policy s :
  approvals_asked s →
  let s' := (run os uuid hooks rejection timeout (Req := Req) (Out := Out) req call_id turn_id turn policy s).1 in
  ∃ es,
    trace s' = trace s ++ es ∧ approvals_asked s' ∧
    authorised false es = true ∧ runs_allowed req turn policy (trace s) es ∧
    (∀ reason, requirement_of req turn policy = RequirementForbidden reason → es = []).
Proof.
  intros Hs s'. destruct (run_produces (trace s) req call_id turn_id turn policy s eq_refl Hs) as (es & E & Ha & Hsh & Hf).
  exists es. destruct (shape_authorised _ _ _ _ _ Hsh). done.
Qed.
End laws.

(** ** The cache of approvals *)

Lemma store_get_put key d store key' :
  store_get (store_put key d store) key' =
    match key' with
    | Some k' => if decide (key = Some k') then Some d else store_get store key'
    | None => None
    end.
Proof.
  destruct key as [k|], key' as [k'|]; simpl; try done. case_decide as E.
  - injection E as ->. apply lookup_insert_eq.
  - apply lookup_insert_ne. by intros ->.
Qed.

Lemma remembered keys store key :
  store_get (foldl (λ store key, store_put key ApprovedForSession store) store keys) (Some key) =
    if decide (Some key ∈ keys) then Some ApprovedForSession else store_get store (Some key).
Proof.
  revert store. induction keys as [|k keys IH]; intros store; cbn [foldl]; [done|].
  rewrite IH, store_get_put. pose proof (elem_of_cons keys (Some key) k). repeat case_decide; try done; naive_solver.
Qed.

(** A question to the user, alone and behind the cache. *)
Definition user_gives past keys (es : list Event) (r : Res ToolErr ReviewDecision) : Prop :=
  forallb is_question es = true ∧ ∀ d, r = Ok d → review_approves d = true → given past keys es d SourceUser.

Lemma user_answers user_answer past keys reason :
  produces past (ask_user user_answer keys reason) (user_gives past keys).
Proof.
  intros s <- Ha. exists [AskedUser keys reason (user_answer (trace s) reason)].
  split; [done|]. split; [by apply (approvals_asked_grow s _ [AskedUser keys reason (user_answer (trace s) reason)])|].
  split; [done|]. intros d [= <-] _. left. by eexists.
Qed.

Lemma session_approvals_remembered s keys :
  approvals_asked s → keys ≠ [] →
  forallb (λ key, approved_for_session (store_get (tool_approvals s) key)) keys = true →
  remembered_for (trace s) keys.
Proof.
  intros Ha Hne Hall. split; [done|]. intros k Hk.
  rewrite forallb_forall in Hall. apply list_elem_of_In, Hall in Hk.
  destruct k as [key|]; [|done]. exists key. split; [done|]. apply Ha. simpl in Hk.
  by destruct (tool_approvals s !! key) as [[]|].
Qed.

Lemma remember_asked keys reason d s :
  approvals_asked s → AskedUser keys reason d ∈ trace s → approvals_asked (remember_approval keys d s).1.
Proof.
  intros Ha Hin. destruct d; try done. intros key. cbn [remember_approval fst set_approvals tool_approvals trace].
  pose proof (remembered keys (tool_approvals s) key) as Hr. unfold store_get in Hr. cbn in Hr.
  rewrite Hr. case_decide as Hk; [|apply Ha]. intros _. by exists keys, reason.
Qed.

Lemma cached_answers user_answer past keys reason :
  produces past (with_cached_approval keys (ask_user user_answer keys reason)) (user_gives past keys).
Proof.
  unfold with_cached_approval. destruct keys as [|key keys]; [apply user_answers|].
  intros s <- Ha. unfold Prelude.reads, mbind, Eff_bind, ask_user. cbv beta iota.
  destruct (forallb _ _) eqn:Hall.
  - exists []. rewrite app_nil_r. split; [done|]. split; [done|]. split; [done|].
    intros d [= <-] _. right. split_and!; try done. rewrite app_nil_r. by apply session_approvals_remembered.
  - set (d := user_answer (trace s) reason).
    exists [AskedUser (key :: keys) reason d].
    assert (Hs1 : approvals_asked (emit (AskedUser (key :: keys) reason d) s).1).
    { by apply (approvals_asked_grow s _ [AskedUser (key :: keys) reason d]). }
    pose proof (remember_asked (key :: keys) reason d _ Hs1) as Hrem.
    fold d.
    assert (Hk : ∀ s', trace (remember_approval (key :: keys) d s').1 = trace s' ∧
                 (remember_approval (key :: keys) d s').2 = Ok ()) by (intros s'; by destruct d).
    specialize (Hk (emit (AskedUser (key :: keys) reason d) s).1).
    destruct (remember_approval _ _ _) as [s2 r2]. destruct Hk as [Hk Hr2]. simpl in *. subst r2.
    split; [done|]. split; [apply Hrem; apply elem_of_app; right; by left|].
    split; [done|]. intros d' [= <-] _. left. by eexists.
Qed.

(** Whether every key was approved for the session. *)
Definition all_approved (keys : list (option str)) (s : Session) : bool :=
  forallb (λ key, approved_for_session (store_get (tool_approvals s) key)) keys.

(** The cache of approvals never invents one and never forgets one.  A
    question is answered without asking exactly when there are keys and each
    was approved for the session; otherwise the question is asked, its answer
    is the result, and the keys that hold an approval afterwards are those
    that did before and, after an answer for the session, all the keys of the
    question that can be written down. *)
Theorem cache_remembers keys fetch s s1 decision :
  fetch s = (s1, Ok decision) →
  let r := with_cached_approval keys fetch s in
  (keys ≠ [] ∧ all_approved keys s = true → r = (s, Ok ApprovedForSession)) ∧
  (¬ (keys ≠ [] ∧ all_approved keys s = true) →
     r.2 = Ok decision ∧ trace r.1 = trace s1 ∧
     ∀ key, store_get (tool_approvals r.1) (Some key) =
       if approved_for_session (Some decision) && bool_decide (Some key ∈ keys) then Some ApprovedForSession
       else store_get (tool_approvals s1) (Some key)).
Proof.
  intros Hf r. subst r. unfold with_cached_approval. destruct keys as [|key keys].
  { split; [by intros []|]. intros _. rewrite Hf. split_and!; try done. intros k.
    rewrite bool_decide_false by (by intros ?%elem_of_nil). by rewrite andb_false_r. }
  unfold all_approved, Prelude.reads, mbind, Eff_bind.
  destruct (forallb _ _); split.
  - done.
  - intros H. by destruct H.
  - by intros [_ ?].
  - intros _. rewrite Hf. destruct decision; simpl;
      (split_and!; try done; intros k); try done.
    etransitivity; [exact (remembered (key :: keys) (tool_approvals s1) k)|].
    unfold bool_decide. by repeat case_decide.
Qed.

(** ** The runtimes keep to the interface *)
Section instances.
Context (try_parse_shell : str → option Node) (to_lowercase : str → str).
Context (guardian_answer user_answer : list Event → option str → ReviewDecision).
Context (shell_key_json : ShellApprovalKey → option str).
Context (unified_key_json : ShellApprovalKey → bool → option str) (path_json : str → option str).
Context (permission_profile_json : PermissionProfile → str) (is_wsl1 : bool) (wsl1_warning : str).
Context (maybe_wrap_shell_lc_with_snapshot : list str → str → gmap str str → list str) (is_powershell : bool).
Context (apply_to_env : str → gmap str str → gmap str str).
Context (execute : list Event → SandboxExecRequest → NetworkApprovalService →
           NetworkApprovalService * Res ToolErr ExecToolCallOutput).
Context (backend : ShellRuntimeBackend) (shell_mode : UnifiedExecShellMode).
Context (maybe_run_shell_command : ShellRequest → SandboxAttempt → list str → list Event →
           NetworkApprovalService → NetworkApprovalService * Res ToolErr (option ExecToolCallOutput)).
Context (maybe_open_unified_exec : UnifiedExecRequest → SandboxAttempt → SandboxExecRequest → list Event →
           NetworkApprovalService → NetworkApprovalService * Res ToolErr (option ExecToolCallOutput)).
Context (apply_patch_in : list Event → ApplyPatchRequest → option FileSystemSandboxContext → bool * str * str * N).

Lemma guardian_answers past keys reason :
  produces past (ask_guardian guardian_answer reason) (λ es r, forallb is_question es = true ∧
    ∀ d, r = Ok d → review_approves d = true → given past keys es d SourceAutomatedReviewer).
Proof.
  intros s <- Ha. exists [AskedGuardian reason (guardian_answer (trace s) reason)].
  split; [done|]. split; [by apply (approvals_asked_grow s _ [AskedGuardian reason (guardian_answer (trace s) reason)])|].
  split; [done|]. intros d [= <-] _. left. by eexists.
Qed.

(** Nothing of these is in the trace. *)
Definition silent {A} (m : M A) : Prop := ∀ past, produces past m (λ es _, es = []).

Lemma silent_ret {A} (a : A) : silent (mret a).
Proof. intros past. eapply produces_weaken; [apply produces_ret|]. by intros ? ? []. Qed.

Lemma silent_lift {A} (x : Res ToolErr A) : silent (lift x).
Proof. intros past. eapply produces_weaken; [apply produces_lift|]. by intros ? ? []. Qed.

Lemma silent_bind {A B} (m : M A) (f : A → M B) : silent m → (∀ a, silent (f a)) → silent (m ≫= f).
Proof. intros Hm Hf past. eapply produces_bind; [apply Hm|..]; [|done..]. intros a es ->. apply Hf. Qed.

Lemma silent_network {A} (f : list Event → NetworkApprovalService → NetworkApprovalService * Res ToolErr A) :
  silent (with_network f).
Proof.
  intros past. eapply produces_weaken; [apply (produces_silent _ _ (λ _, True))|by intros ? ? []].
  intros s. unfold with_network. by destruct (f _ _).
Qed.

Lemma silent_prepare empty command cwd env additional network attempt :
  silent (prepare_attempt permission_profile_json is_wsl1 wsl1_warning empty command cwd env additional
            network attempt).
Proof. apply silent_bind; intros; apply silent_lift. Qed.

#[local] Hint Resolve silent_ret silent_lift silent_bind silent_network silent_prepare : core.

(** No request of a shell runtime is waived. *)
Definition never_waived {Req : Type} (req : Req) : bool := false.

#[export] Instance ShellLaws : @ToolLaws _ _ (ShellRuntime try_parse_shell guardian_answer user_answer
  shell_key_json permission_profile_json is_wsl1 wsl1_warning maybe_wrap_shell_lc_with_snapshot is_powershell
  execute backend maybe_run_shell_command) never_waived.
Proof.
  split; [| |done..].
  - intros past req ctx. unfold start_approval; cbn -[with_cached_approval].
    destruct (guardian_reviews ctx);
      (eapply produces_weaken; [first [apply (guardian_answers _ (shell_approval_keys try_parse_shell shell_key_json req))
        |apply cached_answers]|]); intros es r [? ?]; split; auto.
  - intros past req attempt. revert past. apply silent_bind; [destruct backend; auto|].
    intros [out|]; [apply silent_ret|]. apply silent_bind; [auto|intros; apply silent_network].
Qed.

#[export] Instance UnifiedExecLaws : @ToolLaws _ _ (UnifiedExecRuntime try_parse_shell guardian_answer user_answer
  unified_key_json permission_profile_json is_wsl1 wsl1_warning maybe_wrap_shell_lc_with_snapshot is_powershell
  apply_to_env execute shell_mode maybe_open_unified_exec) never_waived.
Proof.
  split; [| |done..].
  - intros past req ctx. unfold start_approval; cbn -[with_cached_approval].
    destruct (guardian_reviews ctx);
      (eapply produces_weaken; [first [apply (guardian_answers _ (unified_approval_keys try_parse_shell unified_key_json req))
        |apply cached_answers]|]); intros es r [? ?]; split; auto.
  - intros past req attempt. revert past. apply silent_bind; [destruct shell_mode; auto|].
    intros [out|]; [apply silent_ret|]. apply silent_bind; [auto|intros; apply silent_network].
Qed.

(** The patch runtime waives those whose permissions were granted. *)
#[export] Instance ApplyPatchLaws : @ToolLaws _ _ (ApplyPatchRuntime to_lowercase guardian_answer user_answer
  path_json apply_patch_in) ap_permissions_preapproved.
Proof.
  split; [| |done..].
  - intros past req ctx. unfold start_approval; cbn -[with_cached_approval].
    destruct (guardian_reviews ctx) eqn:Hg.
    { eapply produces_weaken; [apply (guardian_answers _ (patch_approval_keys path_json req))|].
      intros es r [? ?]; split; auto. }
    destruct (retry_reason ctx) as [reason|].
    { eapply produces_weaken; [apply user_answers|]. intros es r [? ?]; split; auto. }
    destruct (ap_permissions_preapproved req).
    + eapply produces_weaken; [apply produces_ret|]. intros es r [-> _]. split; [done|]. intros. by right.
    + eapply produces_weaken; [apply cached_answers|]. intros es r [? ?]; split; auto.
  - intros past req attempt. revert past. apply silent_bind; [apply silent_lift|]. intros context past.
    eapply produces_weaken; [apply (produces_silent _ _ (λ _, True))|by intros ? ? []].
    intros s. unfold patch_result. by destruct (apply_patch_in _ _ _) as [[[ok out] err] elapsed].
Qed.
End instances.

(** ** Examples: a command the sandbox denies, run again after a question *)

Definition demo_turn : ToolTurn :=
  mkToolTurn (mkContext OnFailure (Managed (ManagedRestricted [mkEntry (Special Root) AccessRead] None)
                NetworkRestricted) false)
    (restricted [mkEntry (Special Root) AccessRead]) NetworkRestricted None WindowsDisabled (lit "/work")
    (Some (lit "/bin/codex-linux-sandbox")) false false.
Definition demo_shell_request : ShellRequest :=
  mkShellRequest [lit "make"] (lit "make") (lit "/work") ∅ None UseDefault None None (Skip false None).
Definition demo_session : Session := mkSession ∅ new_service 0 [].
Definition denied_output : ExecToolCallOutput := mkOutput 1 [] (lit "permission denied") [] 0 false.
Definition demo_execute (_ : list Event) (request : SandboxExecRequest) (n : NetworkApprovalService)
    : NetworkApprovalService * Res ToolErr ExecToolCallOutput :=
  (n, match exec_sandbox request with
      | SandboxNone => Ok (mkOutput 0 [] [] [] 0 false)
      | _ => Err (CodexError (SandboxDenied denied_output None))
      end).
#[local] Instance demo_runtime : ToolRuntime ShellRequest ExecToolCallOutput :=
  ShellRuntime (λ _, None) (λ _ _, Denied) (λ _ _, ApprovedForSession) (λ _, Some (lit "key")) (λ _, lit "{}")
    false [] (λ command _ _, command) false demo_execute ShellCommandClassic (λ _ _ _ _ n, (n, Ok None)).
Definition demo_run : Session * Res ToolErr (ExecToolCallOutput * option str) :=
  run Linux (λ _, []) (λ _ _ _, None) (λ _, []) [] demo_shell_request (lit "call") (lit "turn") demo_turn
    OnFailure demo_session.

Lemma demo_session_asked : approvals_asked demo_session.
Proof. intros key H. change ((∅ : gmap str ReviewDecision) !! key = Some ApprovedForSession) in H. by rewrite lookup_empty in H. Qed.

Lemma demo_laws : ToolLaws ShellRequest ExecToolCallOutput never_waived.
Proof. apply ShellLaws. Qed.

(** The command was run twice, the second time without a sandbox after the
    user approved for the session. *)
Lemma tool_runs_authorised_witness :
  snd <$> demo_run.2 = Ok None ∧ map attempt_sandbox (runs (trace demo_run.1)) = [LinuxSeccomp; SandboxNone] ∧
  approvals_asked demo_run.1 ∧ authorised false (trace demo_run.1) = true ∧
  runs_allowed Linux never_waived demo_shell_request demo_turn OnFailure [] (trace demo_run.1).
Proof.
  split; [vm_compute; reflexivity|]. split; [vm_compute; reflexivity|].
  destruct (tool_runs_authorised Linux (λ _, []) (λ _ _ _, None) (λ _, []) [] never_waived
    (ToolLaws0 := demo_laws) demo_shell_request (lit "call")
    (lit "turn") demo_turn OnFailure demo_session demo_session_asked) as (es & E & Hs & Ha & Hr & _).
  change (trace demo_run.1 = es) in E. subst es. split; [exact Hs|]. split; [exact Ha|exact Hr].
Defined.

Lemma cache_remembers_witness :
  let r := with_cached_approval [Some (lit "a"); Some (lit "b")] (ask_user (λ _ _, ApprovedForSession) [] None)
             demo_session in
  r.2 = Ok ApprovedForSession ∧ trace r.1 = [AskedUser [] None ApprovedForSession] ∧
  store_get (tool_approvals r.1) (Some (lit "b")) = Some ApprovedForSession ∧
  with_cached_approval [Some (lit "b")] (ask_user (λ _ _, Denied) [] None) r.1 = (r.1, Ok ApprovedForSession).
Proof.
  intros r.
  destruct (proj2 (cache_remembers [Some (lit "a"); Some (lit "b")] _ demo_session _ ApprovedForSession
    (eq_refl : ask_user (λ _ _, ApprovedForSession) [] None demo_session = (_, _)))) as (H1 & H2 & H3).
  { by intros [_ H]. }
  split; [exact H1|]. split; [exact H2|]. split; [rewrite H3; reflexivity|]. vm_compute. reflexivity.
Defined.
