(* ===== verification/ToolOutput.v ===== *)
(** * What the model is told about a run: [core/src/tools/mod.rs], [core/src/tools/events.rs]

    The payloads handlers are called with, the text of an execution, cut to the budget of the turn ([Truncate]), and
    the result a handler returns for the outcome of the orchestrator.

    Parameters: the rounded duration as text, the JSON of the structured form,
    and the debug form of an error. *)
From S2P Require Import Prelude RustStr MachineInt Truncate PermissionProfile PolicyTransforms NetworkApproval Orchestrator.

Inductive FunctionCallError :=
| RespondToModel (message : str)
| MissingLocalShellCallId
| Fatal (message : str).

(** ** What a handler is called with *)

Record ShellToolCallParams := mkShellParams {
  shell_command : list str;
  shell_workdir : option str;
  shell_timeout_ms : option N;
  shell_sandbox_permissions : option SandboxPermissions;
  shell_prefix_rule : option (list str);
  shell_additional_permissions : option AdditionalPermissionProfile;
  shell_justification : option str
}.

Inductive ToolPayload :=
| FunctionPayload (arguments : str)
| ToolSearchPayload (query : str)
| CustomPayload (input : str)
| LocalShellPayload (params : ShellToolCallParams)
| McpPayload (server tool raw_arguments : str).

(** ** The text of an execution *)

Definition show_Z (z : Z) : str := if (z <? 0)%Z then lit "-" ++ show_N (Z.to_N (- z)) else show_N (Z.to_N z).

(** [as_millis] *)
Definition as_millis (nanos : N) : N := nanos / 1000000.

Definition build_content_with_timeout (exec_output : ExecToolCallOutput) : str :=
  if timed_out exec_output
  then lit "command timed out after " ++ show_N (as_millis (duration exec_output)) ++ lit " milliseconds" ++
       [c_nl] ++ aggregated_output exec_output
  else aggregated_output exec_output.

Definition format_exec_output_str (exec_output : ExecToolCallOutput) (policy : TruncationPolicy) : Total str :=
  formatted_truncate_text (build_content_with_timeout exec_output) policy.

(** Which tool reports: the fields of [ToolEmitter] that its text depends on. *)
Inductive ToolEmitter := EmitShell (freeform : bool) | EmitApplyPatch | EmitUnifiedExec.

Section output.
Context (duration_seconds : N → str) (exec_output_json : str → Z → str → str) (debug_error : CodexErr → str).

Definition format_exec_output_for_model_structured (exec_output : ExecToolCallOutput)
    (policy : TruncationPolicy) : Total str :=
  formatted_output ← format_exec_output_str exec_output policy;
  Ok (exec_output_json formatted_output (exit_code exec_output) (duration_seconds (duration exec_output))).

Definition format_exec_output_for_model_freeform (exec_output : ExecToolCallOutput)
    (policy : TruncationPolicy) : Total str :=
  let content := build_content_with_timeout exec_output in
  let total_lines := length (lines content) in
  formatted_output ← truncate_text content policy;
  Ok (join [c_nl]
    ([lit "Exit code: " ++ show_Z (exit_code exec_output);
      lit "Wall time: " ++ duration_seconds (duration exec_output) ++ lit " seconds"] ++
     (if bool_decide (total_lines = length (lines formatted_output)) then []
      else [lit "Total output lines: " ++ show_nat total_lines]) ++
     [lit "Output:"; formatted_output])).

Definition format_exec_output_for_model (emitter : ToolEmitter) (output : ExecToolCallOutput)
    (policy : TruncationPolicy) : Total str :=
  match emitter with
  | EmitShell true => format_exec_output_for_model_freeform output policy
  | _ => format_exec_output_for_model_structured output policy
  end.

Definition normalize_rejection (emitter : ToolEmitter) (msg : str) : str :=
  if bool_decide (msg = lit "rejected by user") then
    match emitter with
    | EmitShell _ | EmitUnifiedExec => lit "exec command rejected by user"
    | EmitApplyPatch => lit "patch rejected by user"
    end
  else msg.

(** [ToolEmitter::finish] *)
Definition finish (emitter : ToolEmitter) (policy : TruncationPolicy) (out : Res ToolErr ExecToolCallOutput)
    : Res FunctionCallError str :=
  let format output : Res FunctionCallError str := infallible (format_exec_output_for_model emitter output policy) in
  match out with
  | Ok output =>
      content ← format output;
      if (exit_code output =? 0)%Z then Ok content else Err (RespondToModel content)
  | Err (CodexError (SandboxTimeout output)) | Err (CodexError (SandboxDenied output _)) =>
      response ← format output;
      Err (RespondToModel response)
  | Err (CodexError err) => Err (RespondToModel (lit "execution error: " ++ debug_error err))
  | Err (Rejected msg) => Err (RespondToModel (normalize_rejection emitter msg))
  | Panic p => Panic p
  end.
End output.

(** ** A report is total, and says success only for exit code 0 *)
Section proofs.
Context (duration_seconds : N → str) (exec_output_json : str → Z → str → str) (debug_error : CodexErr → str).

(** No string is longer than the address space. *)
Definition output_fits (output : ExecToolCallOutput) : Prop :=
  (utf8_len (build_content_with_timeout output) <= usize_max)%N.

Lemma format_total emitter output policy :
  output_fits output →
  ∃ text, format_exec_output_for_model duration_seconds exec_output_json emitter output policy = Ok text.
Proof.
  intros Hfit. destruct (truncate_text_bound _ policy Hfit) as (t & Ht & _).
  assert (Hs : ∃ text, format_exec_output_for_model_structured duration_seconds exec_output_json output policy = Ok text).
  { unfold format_exec_output_for_model_structured, format_exec_output_str, formatted_truncate_text.
    destruct (_ <=? _)%N; cbn [mbind Res_bind]; [by eexists|]. rewrite Ht. by eexists. }
  destruct emitter as [[]| |]; simpl; try done.
  unfold format_exec_output_for_model_freeform. rewrite Ht. by eexists.
Qed.

(** What the outcome of a run is reported as: never a panic of its own, and
    success exactly for a run that ended with exit code 0. *)
Theorem finish_reports emitter policy out :
  no_panic out → (∀ output, out = Ok output ∨ out = Err (CodexError (SandboxTimeout output)) ∨
    (∃ d, out = Err (CodexError (SandboxDenied output d))) → output_fits output) →
  no_panic (finish duration_seconds exec_output_json debug_error emitter policy out) ∧
  (is_ok (finish duration_seconds exec_output_json debug_error emitter policy out) = true ↔
   ∃ output, out = Ok output ∧ exit_code output = 0%Z).
Proof.
  intros Hp Hfit.
  destruct out as [output|[msg|[output d|output|msg]]|p]; simpl.
  - destruct (format_total emitter output policy) as [text ->]; [apply Hfit; by left|]. simpl.
    destruct (exit_code output =? 0)%Z eqn:E; (split; [done|]).
    + split; [intros _; exists output; split; [done|by apply Z.eqb_eq]|done].
    + split; [done|]. intros (o & [= <-] & Ho). by rewrite Ho in E.
  - split; [done|]. split; [done|naive_solver].
  - destruct (format_total emitter output policy) as [text ->]; [apply Hfit; right; right; by eexists|]. simpl.
    split; [done|]. split; [done|naive_solver].
  - destruct (format_total emitter output policy) as [text ->]; [apply Hfit; by right; left|]. simpl.
    split; [done|]. split; [done|naive_solver].
  - split; [done|]. split; [done|naive_solver].
  - by destruct Hp.
Qed.
End proofs.
