(* ===== verification/PatchHandler.v ===== *)
(** * The patch tool: [core/src/apply_patch.rs], [core/src/tools/handlers/apply_patch.rs]

    A call of the patch tool is verified ([Invocation]), its files get the
    permissions to be written ([PolicyTransforms], [GrantedPermissions]), the
    answer of [PatchSafety] becomes a requirement, and the orchestrator
    ([Orchestrator]) runs the patch runtime ([ToolRuntimes]).  While the
    arguments of a call stream in, [ApplyPatchArgumentDiffConsumer] shows
    progress ([StreamingParser]) at a limited rate. *)
From S2P Require Import Prelude RustStr PatchParser StreamingParser AbsolutePath FileSystem Replacements ApplyPatch Invocation Ordering Paths ExecPolicy ShellTree Permissions SandboxRoots PermissionProfile PolicyTransforms ExecApproval GrantedPermissions NetworkApproval PatchSafety SandboxManager Truncate Orchestrator ToolRuntimes OrchestratorProofs ToolOutput.

(** ** Changes as the user interface is told *)

Inductive FileChange :=
| ChangeAdd (content : str)
| ChangeDelete (content : str)
| ChangeUpdate (unified_diff : str) (move_path : option str).

Definition convert_change (change : ApplyPatchFileChange) : FileChange :=
  match change with
  | AddChange content => ChangeAdd content
  | DeleteChange content => ChangeDelete content
  | UpdateChange unified_diff move_path _ => ChangeUpdate unified_diff move_path
  end.

Definition convert_apply_patch_to_protocol (action : ApplyPatchAction) : gmap str FileChange :=
  convert_change <$> changes action.

Definition hunk_source_path (hunk : Hunk) : str :=
  match hunk with AddFile path _ | DeleteFile path | UpdateFile path _ _ => path end.

Definition push_line (out : str) (prefix line : str) : str := out ++ prefix ++ line ++ [c_nl].

Definition format_chunk (unified_diff : str) (chunk : UpdateFileChunk) : str :=
  let out :=
    match change_context chunk with
    | Some context => push_line unified_diff (lit "@@ ") context
    | None => push_line unified_diff (lit "@@") []
    end in
  let out := foldl (λ out line, push_line out (lit "-") line) out (old_lines chunk) in
  let out := foldl (λ out line, push_line out (lit "+") line) out (new_lines chunk) in
  if is_end_of_file chunk then push_line out (lit "*** End of File") [] else out.

Definition format_update_chunks_for_progress (chunks : list UpdateFileChunk) : str := foldl format_chunk [] chunks.

Definition progress_change (hunk : Hunk) : FileChange :=
  match hunk with
  | AddFile _ contents => ChangeAdd contents
  | DeleteFile _ => ChangeDelete []
  | UpdateFile _ move_path chunks => ChangeUpdate (format_update_chunks_for_progress chunks) move_path
  end.

(** A map whose keys are paths: equal paths may be written differently, and
    the first way to write one stays. *)
Fixpoint insert_path_key (path : str) (change : FileChange) (m : list (str * FileChange))
    : list (str * FileChange) :=
  match m with
  | [] => [(path, change)]
  | (p, c) :: m => if path_eqb p path then (p, change) :: m else (p, c) :: insert_path_key path change m
  end.

Definition convert_apply_patch_hunks_to_protocol (hunks : list Hunk) : list (str * FileChange) :=
  foldl (λ m hunk, insert_path_key (hunk_source_path hunk) (progress_change hunk) m) [] hunks.

(** ** Progress *)

Record PatchApplyUpdatedEvent := mkUpdated { updated_call_id : str; updated_changes : list (str * FileChange) }.

(** Times are the milliseconds of a clock that does not go back. *)
Definition APPLY_PATCH_ARGUMENT_DIFF_BUFFER_INTERVAL : N := 500.

Record ApplyPatchArgumentDiffConsumer := mkConsumer {
  consumer_parser : StreamingPatchParser;
  last_sent_at : option N;
  pending : option PatchApplyUpdatedEvent
}.
Definition default_consumer : ApplyPatchArgumentDiffConsumer := mkConsumer default_parser None None.

Definition consumer_push_delta (call_id delta : str) (now : N) (c : ApplyPatchArgumentDiffConsumer)
    : ApplyPatchArgumentDiffConsumer * Total (option PatchApplyUpdatedEvent) :=
  let (parser, r) := push_delta (consumer_parser c) delta in
  let keep := mkConsumer parser (last_sent_at c) (pending c) in
  match r with
  | Err _ => (keep, Ok None)
  | Panic p => (keep, Panic p)
  | Ok [] => (keep, Ok None)
  | Ok hunks =>
      let event := mkUpdated call_id (convert_apply_patch_hunks_to_protocol hunks) in
      let send := (mkConsumer parser (Some now) None, Ok (Some event)) in
      match last_sent_at c with
      | Some last_sent_at =>
          if (now - last_sent_at <? APPLY_PATCH_ARGUMENT_DIFF_BUFFER_INTERVAL)%N
          then (mkConsumer parser (Some last_sent_at) (Some event), Ok None)
          else send
      | None => send
      end
  end.

Definition consume_diff (streaming_events_enabled : bool) (call_id delta : str) (now : N)
    (c : ApplyPatchArgumentDiffConsumer)
    : ApplyPatchArgumentDiffConsumer * Total (option PatchApplyUpdatedEvent) :=
  if negb streaming_events_enabled then (c, Ok None) else consumer_push_delta call_id delta now c.

Definition finish_update_on_complete (now : N) (c : ApplyPatchArgumentDiffConsumer)
    : ApplyPatchArgumentDiffConsumer * Res FunctionCallError (option PatchApplyUpdatedEvent) :=
  let (parser, r) := StreamingParser.finish (consumer_parser c) in
  match r with
  | Err err => (mkConsumer parser (last_sent_at c) (pending c),
                Err (RespondToModel (lit "failed to parse apply_patch: " ++ show_parse_error err)))
  | Panic p => (mkConsumer parser (last_sent_at c) (pending c), Panic p)
  | Ok _ =>
      (mkConsumer parser (match pending c with Some _ => Some now | None => last_sent_at c end) None,
       Ok (pending c))
  end.

(** ** The permissions a patch needs *)

(** [BTreeSet::insert] of a path that is not in it yet. *)
Fixpoint btree_insert_path (p : str) (l : list str) : list str :=
  match l with
  | [] => [p]
  | q :: l' => match cmp (components p) (components q) with
               | Lt => p :: l
               | Eq => l
               | Gt => q :: btree_insert_path p l'
               end
  end.
Definition btree_of_paths (l : list str) : list str := foldl (λ s p, btree_insert_path p s) [] l.

Section permissions.
Context (env : Env).

Definition to_abs_path (cwd path : str) : option str :=
  Some (resolve_path_against_base (home_dir env) path cwd).

Definition change_paths (cwd : str) (entry : str * ApplyPatchFileChange) : list str :=
  let '(path, change) := entry in
  option_list (to_abs_path cwd path) ++
  match change with
  | UpdateChange _ (Some dest) _ => option_list (to_abs_path cwd dest)
  | _ => []
  end.

Definition file_paths_for_action (action : ApplyPatchAction) : list str :=
  map_to_list (changes action) ≫= change_paths (action_cwd action).

Definition write_permissions_for_paths (file_paths : list str)
    (file_system_sandbox_policy : FileSystemSandboxPolicy) (cwd : str) : option AdditionalPermissionProfile :=
  let parents := map (λ path, default path (path_parent path)) file_paths in
  let write_paths := btree_of_paths
    (filter (λ path, negb (can_write_path_with_cwd env file_system_sandbox_policy path cwd) = true) parents) in
  write_paths ← mapM (absolute env) write_paths;
  permissions ←
    match write_paths with
    | [] => None
    | _ => Some (mkAdditional None (Some (from_read_write_roots (Some []) (Some write_paths))))
    end;
  match normalize_additional_permissions env permissions with Ok p => Some p | _ => None end.

(** ** The answer of [assess_patch_safety] as a requirement *)
Context (os : TargetOs) (build_glob_matcher : str → option (str → bool)).

Record ApplyPatchRuntimeInvocation := mkInvocation {
  inv_action : ApplyPatchAction;
  auto_approved : bool;
  inv_exec_approval_requirement : ExecApprovalRequirement
}.
Inductive InternalApplyPatchInvocation :=
| InternalOutput (item : Res FunctionCallError str)
| DelegateToRuntime (invocation : ApplyPatchRuntimeInvocation).

Definition core_apply_patch (turn : ToolTurn) (file_system_sandbox_policy : FileSystemSandboxPolicy)
    (action : ApplyPatchAction) : InternalApplyPatchInvocation :=
  match assess_patch_safety env os action (ctx_approval_policy (turn_context turn))
          (ctx_permission_profile (turn_context turn)) file_system_sandbox_policy (turn_cwd turn)
          (turn_windows_level turn) with
  | AutoApprove _ user_explicitly_approved =>
      DelegateToRuntime (mkInvocation action (negb user_explicitly_approved) (Skip false None))
  | AskUser => DelegateToRuntime (mkInvocation action false (NeedsApproval None None))
  | Reject reason => InternalOutput (Err (RespondToModel (lit "patch rejected: " ++ reason)))
  end.

(** The paths of a patch, the permissions it runs with, and the policy it is
    judged by, from what the session was granted. *)
Definition effective_patch_permissions (g : Grants) (turn : ToolTurn) (action : ApplyPatchAction)
    : list str * EffectiveAdditionalPermissions * FileSystemSandboxPolicy :=
  let file_paths := file_paths_for_action action in
  let granted_permissions :=
    merge_permission_profiles (granted_session_permissions g) (granted_turn_permissions g) in
  let file_system_sandbox_policy :=
    effective_file_system_sandbox_policy (turn_file_system_policy turn) granted_permissions in
  let effective_additional_permissions :=
    apply_granted_turn_permissions env build_glob_matcher g (turn_cwd turn) UseDefault
      (write_permissions_for_paths file_paths file_system_sandbox_policy (turn_cwd turn)) in
  (file_paths, effective_additional_permissions, file_system_sandbox_policy).

Definition patch_request (apply : ApplyPatchRuntimeInvocation) (file_paths : list str)
    (effective : EffectiveAdditionalPermissions) : ApplyPatchRequest :=
  mkPatchRequest (action_patch (inv_action apply)) (action_cwd (inv_action apply)) file_paths
    (inv_exec_approval_requirement apply) (eff_additional_permissions effective)
    (permissions_preapproved effective).
End permissions.

(** ** The handler *)

(** The outcome of the orchestrator, as a value. *)
Definition observe {A} (m : M A) : Eff Session FunctionCallError (Res ToolErr A) := λ s,
  let (s, r) := m s in (s, Ok r).

Section handler.
Context (env : Env) (os : TargetOs) (build_glob_matcher : str → option (str → bool)).
Context (uuid : nat → str) (hooks : list Event → str → str → option PermissionRequestDecision).
Context (rejection : list Event → str) (timeout : str).
Context `{!ToolRuntime ApplyPatchRequest ExecToolCallOutput}.
Context (query_matches : str → Res ExtractHeredocError (list (list capture))).
Context (text_diff : str → str → nat → str).
Context {FS Sandbox : Type} `{!ExecutorFileSystem FS Sandbox}.
Context (duration_seconds : N → str) (exec_output_json : str → Z → str → str) (debug_error : CodexErr → str).
(** [serde_json::from_str::<ApplyPatchToolArgs>], its input. *)
Context (parse_patch_arguments : str → Res str str).

Definition apply_patch_payload_command (payload : ToolPayload) : option str :=
  match payload with
  | FunctionPayload arguments => match parse_patch_arguments arguments with Ok input => Some input | _ => None end
  | CustomPayload input => Some input
  | _ => None
  end.

(** The common part of the handler and the interception: judge the verified
    changes and run them. *)
Definition run_verified_patch (g : Grants) (turn : ToolTurn) (policy : TruncationPolicy)
    (call_id turn_id : str) (action : ApplyPatchAction) : Eff Session FunctionCallError str :=
  let '(file_paths, effective, file_system_sandbox_policy) :=
    effective_patch_permissions env build_glob_matcher g turn action in
  match core_apply_patch env os turn file_system_sandbox_policy action with
  | InternalOutput item => lift item
  | DelegateToRuntime apply =>
      out ← observe (run os uuid hooks rejection timeout (patch_request apply file_paths effective) call_id
                       turn_id turn (ctx_approval_policy (turn_context turn)));
      lift (finish duration_seconds exec_output_json debug_error EmitApplyPatch policy (fst <$> out))
  end.

(** [ApplyPatchHandler::handle]; [fs] is the environment's file system, when
    there is one. *)
Definition handle_apply_patch (g : Grants) (turn : ToolTurn) (policy : TruncationPolicy)
    (fs : option (FS * option Sandbox)) (call_id turn_id : str) (payload : ToolPayload)
    : Eff Session FunctionCallError str :=
  patch_input ← lift (match payload with
    | FunctionPayload arguments =>
        map_err (λ err, RespondToModel (lit "failed to parse function arguments: " ++ err))
          (parse_patch_arguments arguments)
    | CustomPayload input => Ok input
    | _ => Err (RespondToModel (lit "apply_patch handler received unsupported payload"))
    end);
  match fs with
  | None => lift (Err (RespondToModel (lit "apply_patch is unavailable in this session")))
  | Some (fs, sandbox) =>
      verified ← lift (infallible (maybe_parse_apply_patch_verified query_matches text_diff (home_dir env) sandbox
                         [lit "apply_patch"; patch_input] (turn_cwd turn) fs));
      match verified with
      | VerifiedBody action => run_verified_patch g turn policy call_id turn_id action
      | CorrectnessError parse_error =>
          lift (Err (RespondToModel (lit "apply_patch verification failed: " ++ show_apply_patch_error parse_error)))
      | VerifiedShellParseError _ =>
          lift (Err (RespondToModel (lit "apply_patch handler received invalid patch input")))
      | VerifiedNotApplyPatch =>
          lift (Err (RespondToModel (lit "apply_patch handler received non-apply_patch input")))
      end
  end.

(** [intercept_apply_patch]: a patch inside of a shell command. *)
Definition intercept_apply_patch (g : Grants) (turn : ToolTurn) (policy : TruncationPolicy)
    (command : list str) (cwd : str) (fs : FS) (sandbox : option Sandbox) (call_id turn_id tool_name : str)
    : Eff Session FunctionCallError (option str) :=
  verified ← lift (infallible (maybe_parse_apply_patch_verified query_matches text_diff (home_dir env) sandbox
                     command cwd fs));
  match verified with
  | VerifiedBody action =>
      _ ← observe (emit (ModelWarning (lit "apply_patch was requested via " ++ tool_name ++
            lit ". Use the apply_patch tool instead of exec_command.")));
      content ← run_verified_patch g turn policy call_id turn_id action;
      mret (Some content)
  | CorrectnessError parse_error =>
      lift (Err (RespondToModel (lit "apply_patch verification failed: " ++ show_apply_patch_error parse_error)))
  | VerifiedShellParseError _ => mret None
  | VerifiedNotApplyPatch => mret None
  end.
End handler.
