(* ===== verification/PatchHandlerProofs.v ===== *)
(** * What the patch tool guarantees

    Progress is shown at a limited rate and ends with the whole patch
    (with [StreamingParser]); a patch that runs without consent only touches
    writable files (with [PatchSafety] and [OrchestratorProofs]), unless the
    settings leave failures to the sandbox or a grant stands for the consent;
    and any grant does for a patch whose directories are writable. *)
From S2P Require Import Prelude RustStr PatchParser PatchRoundtrip StreamingParser AbsolutePath FileSystem Replacements ApplyPatch Invocation Ordering Paths ExecPolicy ShellTree Permissions SandboxRoots PermissionsProofs PermissionProfile PolicyTransforms ExecApproval GrantedPermissions NetworkApproval PatchSafety SandboxManager Truncate Orchestrator ToolRuntimes OrchestratorProofs ToolOutput PatchHandler.

(** ** Progress *)
Section progress.
Context (call_id : str).

(** The deltas with their times, and the events with theirs. *)
Definition consumer_step (st : ApplyPatchArgumentDiffConsumer * list (N * PatchApplyUpdatedEvent))
    (input : str * N) : ApplyPatchArgumentDiffConsumer * list (N * PatchApplyUpdatedEvent) :=
  let '(delta, now) := input in
  let (c, r) := consumer_push_delta call_id delta now st.1 in
  (c, st.2 ++ match r with Ok (Some event) => [(now, event)] | _ => [] end).
Definition consumer_run (inputs : list (str * N)) :
    ApplyPatchArgumentDiffConsumer * list (N * PatchApplyUpdatedEvent) :=
  foldl consumer_step (default_consumer, []) inputs.

(** Each event is sent at least the interval after the one before. *)
Definition spaced (sent : list (N * PatchApplyUpdatedEvent)) : Prop :=
  ∀ i t e t' e', sent !! i = Some (t, e) → sent !! S i = Some (t', e') →
    (APPLY_PATCH_ARGUMENT_DIFF_BUFFER_INTERVAL <= t' - t)%N.

(** The newest event, sent or held back. *)
Definition newest (st : ApplyPatchArgumentDiffConsumer * list (N * PatchApplyUpdatedEvent))
    : option PatchApplyUpdatedEvent :=
  match pending st.1 with Some event => Some event | None => snd <$> last st.2 end.

Definition progress_inv (st : ApplyPatchArgumentDiffConsumer * list (N * PatchApplyUpdatedEvent)) : Prop :=
  spaced st.2 ∧ last_sent_at st.1 = fst <$> last st.2.

Lemma spaced_snoc sent t e :
  spaced sent → (∀ t', fst <$> last sent = Some t' → (APPLY_PATCH_ARGUMENT_DIFF_BUFFER_INTERVAL <= t - t')%N) →
  spaced (sent ++ [(t, e)]).
Proof.
  intros Hs Hl i t1 e1 t2 e2 H1 H2.
  destruct (decide (S i < length sent)) as [Hi|Hi].
  - rewrite lookup_app_l in H1, H2 by lia. by eapply Hs.
  - assert (i < length sent) by (apply lookup_lt_Some in H2; rewrite length_app in H2; simpl in H2; lia).
    rewrite lookup_app_l in H1 by done. rewrite lookup_app_r in H2 by lia.
    replace (S i - length sent) with 0 in H2 by lia. injection H2 as <- <-.
    apply Hl. rewrite last_lookup. replace (pred (length sent)) with i by lia. by rewrite H1.
Qed.

Lemma consumer_step_inv st input : progress_inv st → progress_inv (consumer_step st input).
Proof.
  destruct st as [[p at_ pend] sent], input as [delta now]. intros [Hs Hl]. simpl in *.
  unfold consumer_step, consumer_push_delta. simpl.
  destruct (push_delta p delta) as [p' [[|h hs]|e|q]]; try (split; simpl; rewrite app_nil_r; done).
  assert (Hsend : (∀ t', at_ = Some t' → (APPLY_PATCH_ARGUMENT_DIFF_BUFFER_INTERVAL <= now - t')%N) →
    ∀ ev, progress_inv (mkConsumer p' (Some now) None, sent ++ [(now, ev)])).
  { intros Ht ev. split; simpl; [|by rewrite last_snoc]. apply spaced_snoc; [done|]. intros t'. rewrite <-Hl. apply Ht. }
  destruct at_ as [t|]; [|by apply Hsend].
  destruct (now - t <? _)%N eqn:E; [split; simpl; rewrite app_nil_r; done|].
  apply Hsend. intros t' [= <-]. by apply N.ltb_ge.
Qed.

Lemma consumer_run_inv inputs : progress_inv (consumer_run inputs).
Proof.
  unfold consumer_run. induction inputs as [|input inputs IH] using rev_ind.
  - by split.
  - rewrite foldl_snoc. by apply consumer_step_inv.
Qed.

Lemma push_deltas_snoc p ds d :
  push_deltas p (ds ++ [d]) =
  match push_deltas p ds with
  | (p', Ok _) => push_delta p' d
  | (p', Err e) => (p', Err e)
  | (p', Panic q) => (p', Panic q)
  end.
Proof.
  revert p. induction ds as [|d' ds IH]; intros p; simpl.
  - by destruct (push_delta p d) as [p' [hs|e|q]] eqn:E; [|..]; 
      (unfold push_delta in E; destruct (push_chars p d) as [? [[]|?|?]]; simpl in E; simplify_eq).
  - destruct (push_delta p d') as [p' [hs|e|q]]; [apply IH|done|done].
Qed.

(** While no delta is refused, the newest event shows the hunks of the parser. *)
Lemma consumer_run_newest inputs p hs :
  push_deltas default_parser (map fst inputs) = (p, Ok hs) →
  consumer_parser (consumer_run inputs).1 = p ∧
  (hs ≠ [] → newest (consumer_run inputs) = Some (mkUpdated call_id (convert_apply_patch_hunks_to_protocol hs))).
Proof.
  revert p hs. unfold consumer_run. induction inputs as [|[delta now] inputs IH] using rev_ind; intros p hs.
  { simpl. intros [= <- <-]. by split. }
  rewrite map_app, foldl_snoc. cbn [map]. rewrite push_deltas_snoc.
  destruct (push_deltas default_parser (map fst inputs)) as [p1 [hs1|e|q]]; [|done|done].
  destruct (IH _ _ eq_refl) as [Hp _]. intros Hd. simpl in Hd.
  destruct (foldl consumer_step _ inputs) as [[p0 at_ pend] sent]. simpl in Hp. subst p0.
  unfold consumer_step, consumer_push_delta. simpl. rewrite Hd.
  destruct hs as [|h hs]; [by split|].
  destruct at_ as [t|]; [destruct (_ <? _)%N|]; (split; [done|]); intros _; unfold newest; simpl;
    by rewrite ?last_snoc.
Qed.

(** Progress on a patch is shown at a limited rate and is complete at the
    end.  However the text of a patch is cut into deltas and whenever they
    arrive, two events of the stream are at least half a second apart, and
    when the arguments are complete the last event, the one that was held back
    if there is one, shows every hunk of the patch. *)
Theorem progress_shows_patch hs inputs now :
  Forall wf_hunk hs → Forall streamable hs → hs ≠ [] → concat (map fst inputs) = print_patch hs →
  let '(c, sent) := consumer_run inputs in
  spaced sent ∧
  ∃ c' final, finish_update_on_complete now c = (c', Ok final) ∧ pending c' = None ∧
    last (map snd sent ++ option_list final) =
      Some (mkUpdated call_id (convert_apply_patch_hunks_to_protocol hs)).
Proof.
  intros Hwf Hst Hne Hd. pose proof (consumer_run_inv inputs) as [Hs _].
  destruct (stream_printed hs Hwf Hst) as (p & Hpush & Hfin).
  rewrite <-Hd, <-push_deltas_concat in Hpush.
  destruct (consumer_run_newest _ _ _ Hpush) as [Hp Hn]. specialize (Hn Hne).
  destruct (consumer_run inputs) as [c sent]. simpl in *. split; [done|].
  unfold finish_update_on_complete. rewrite Hp. destruct (StreamingParser.finish p) as [p' r].
  simpl in Hfin. subst r. do 2 eexists. split; [done|]. split; [done|].
  unfold newest in Hn. simpl in Hn. destruct (pending c) as [ev|]; simpl.
  - by rewrite last_snoc.
  - rewrite app_nil_r. by rewrite <-Hn, <-fmap_last.
Qed.
End progress.

Lemma progress_shows_patch_witness :
  let inputs := [(take 20 (print_patch sample_hunks), 0%N); (drop 20 (print_patch sample_hunks), 100%N)] in
  let '(c, sent) := consumer_run (lit "call") inputs in
  spaced sent ∧
  ∃ c' final, finish_update_on_complete 200 c = (c', Ok final) ∧ pending c' = None ∧
    last (map snd sent ++ option_list final) =
      Some (mkUpdated (lit "call") (convert_apply_patch_hunks_to_protocol sample_hunks)).
Proof.
  apply (progress_shows_patch (lit "call") sample_hunks
    [(take 20 (print_patch sample_hunks), 0%N); (drop 20 (print_patch sample_hunks), 100%N)] 200).
  - by_compute.
  - by_compute.
  - discriminate.
  - vm_compute. reflexivity.
Defined.

(** ** Consent *)
Section consent.
Context (env : Env) (os : TargetOs) (build_glob_matcher : str → option (str → bool)).
Context (uuid : nat → str) (hooks : list Event → str → str → option PermissionRequestDecision).
Context (rejection : list Event → str) (timeout : str).
Context (to_lowercase : str → str) (guardian_answer user_answer : list Event → option str → ReviewDecision).
Context (path_json : str → option str).
Context (apply_patch_in : list Event → ApplyPatchRequest → option FileSystemSandboxContext → bool * str * str * N).
Context (duration_seconds : N → str) (exec_output_json : str → Z → str → str) (debug_error : CodexErr → str).

Local Abbreviation runtime := (ApplyPatchRuntime to_lowercase guardian_answer user_answer path_json apply_patch_in).
Local Abbreviation run_patch := (run_verified_patch env os build_glob_matcher uuid hooks rejection timeout
  (ToolRuntime0 := runtime) duration_seconds exec_output_json debug_error).

(** What the patch is judged by: the policy of the turn with what was granted. *)
Definition judged_policy (g : Grants) (turn : ToolTurn) : FileSystemSandboxPolicy :=
  effective_file_system_sandbox_policy (turn_file_system_policy turn)
    (merge_permission_profiles (granted_session_permissions g) (granted_turn_permissions g)).

(** Every path the patch names is writable. *)
Definition patch_writable (p : FileSystemSandboxPolicy) (cwd : str) (action : ApplyPatchAction) : Prop :=
  ∀ path change, changes action !! path = Some change →
    patch_path_writable env p cwd path = true ∧
    ∀ diff dest content, change = UpdateChange diff (Some dest) content →
      patch_path_writable env p cwd dest = true.

Lemma observe_trace {A} (m : M A) s : (observe m s).1 = (m s).1 ∧ ∃ r, (observe m s).2 = Ok r.
Proof. unfold observe. destruct (m s) as [s' r]. eauto. Qed.

(** The events of a patch: none, or those of the orchestrator for its request. *)
Lemma run_patch_trace g turn policy call_id turn_id action s :
  let '(file_paths, effective, p) := effective_patch_permissions env build_glob_matcher g turn action in
  match core_apply_patch env os turn p action with
  | InternalOutput _ => trace (run_patch g turn policy call_id turn_id action s).1 = trace s
  | DelegateToRuntime apply =>
      trace (run_patch g turn policy call_id turn_id action s).1 =
      trace (run os uuid hooks rejection timeout (ToolRuntime0 := runtime)
               (patch_request apply file_paths effective) call_id turn_id turn
               (ctx_approval_policy (turn_context turn)) s).1
  end.
Proof.
  unfold run_verified_patch. destruct (effective_patch_permissions _ _ _ _ _) as [[fp eff] p].
  destruct (core_apply_patch _ _ _ _ _) as [item|apply]; [done|].
  unfold mbind, Eff_bind, observe.
  by destruct (run _ _ _ _ _ _ _ _ _ _ s) as [s' [out|e|q]].
Qed.

Abbreviation patch_shape := (run_shape os (ToolRuntime0 := runtime) ap_permissions_preapproved).

(** The same with the shape of the events. *)
Lemma run_patch_shape g turn policy call_id turn_id action s :
  approvals_asked s →
  ∃ es, trace (run_patch g turn policy call_id turn_id action s).1 = trace s ++ es ∧
    (es = [] ∨
     let '(file_paths, effective, p) := effective_patch_permissions env build_glob_matcher g turn action in
     ∃ apply, core_apply_patch env os turn p action = DelegateToRuntime apply ∧
       patch_shape (patch_request apply file_paths effective) turn (ctx_approval_policy (turn_context turn))
         (trace s) es).
Proof.
  intros Hs. pose proof (run_patch_trace g turn policy call_id turn_id action s) as Ht.
  destruct (effective_patch_permissions _ _ _ _ _) as [[fp eff] p].
  destruct (core_apply_patch _ _ _ _ _) as [item|apply].
  - exists []. split; [by rewrite Ht, app_nil_r|by left].
  - destruct (run_produces os uuid hooks rejection timeout ap_permissions_preapproved (ToolRuntime0 := runtime)
      (trace s) (patch_request apply fp eff) call_id turn_id turn (ctx_approval_policy (turn_context turn)) s eq_refl Hs)
      as (es & E & _ & Hsh & _).
    exists es. split; [by rewrite Ht, E|]. right. by eexists.
Qed.

(** What the approval of a patch is remembered under. *)
Definition patch_keys (action : ApplyPatchAction) : list (option str) :=
  map path_json (file_paths_for_action env action).

(** The patch needs no further permission: what it runs with was granted. *)
Definition patch_preapproved (g : Grants) (turn : ToolTurn) (action : ApplyPatchAction) : Prop :=
  permissions_preapproved (effective_patch_permissions env build_glob_matcher g turn action).1.2 = true.

Lemma preapproved_granted g cwd sandbox_permissions additional :
  permissions_preapproved (apply_granted_turn_permissions env build_glob_matcher g cwd sandbox_permissions additional)
    = true →
  is_Some (merge_permission_profiles (granted_session_permissions g) (granted_turn_permissions g)).
Proof.
  unfold apply_granted_turn_permissions. destruct sandbox_permissions; [|done|]; cbv zeta;
    cbn [permissions_preapproved];
    destruct (merge_permission_profiles additional _), (merge_permission_profiles _ _); by eauto.
Qed.

(** C7. A patch that is applied without consent stays where the agent may write,
    or a grant stands for the consent.  Let the session remember only approvals
    the user gave.  When the patch runtime runs for a verified patch, in or
    outside of a sandbox, and nobody consented - no hook, reviewer or user was
    asked about it and approved, and the user had not approved its files for
    the session - then reviews are not strict, and either permissions were
    granted to the session or the turn, the patch counts as covered by them,
    and approvals do not go to the automatic reviewer; or the settings do not
    want each patch reviewed, and either they leave failures to the sandbox or
    every path the patch names, destinations of moves included, is writable by
    the policy of the turn with what was granted. *)
Theorem unasked_patch_is_writable g turn policy call_id turn_id action s :
  approvals_asked s →
  ∃ es, trace (run_patch g turn policy call_id turn_id action s).1 = trace s ++ es ∧
    (runs es ≠ [] → ¬ consented (trace s) (patch_keys action) es →
     turn_strict_auto_review turn = false ∧
     (is_Some (merge_permission_profiles (granted_session_permissions g) (granted_turn_permissions g)) ∧
        patch_preapproved g turn action ∧ routes_approval_to_guardian (turn_context turn) = false ∨
      ctx_approval_policy (turn_context turn) ≠ UnlessTrusted ∧
      (ctx_approval_policy (turn_context turn) = OnFailure ∨
       patch_writable (judged_policy g turn) (turn_cwd turn) action))).
Proof.
  intros Hs. destruct (run_patch_shape g turn policy call_id turn_id action s Hs) as (es & E & Hes).
  exists es. split; [done|]. intros Hr Hn. destruct Hes as [->|Hes]; [done|].
  assert (Hpre := preapproved_granted g (turn_cwd turn) UseDefault).
  unfold patch_preapproved. unfold effective_patch_permissions, core_apply_patch in *. fold (judged_policy g turn) in Hes.
  pose proof (assess_patch_safety_correct env os action (ctx_approval_policy (turn_context turn))
    (ctx_permission_profile (turn_context turn)) (judged_policy g turn) (turn_cwd turn)
    (turn_windows_level turn)) as Hsafe.
  destruct Hes as (apply & Hcore & Hsh).
  destruct (unasked_run_skips _ _ _ _ _ _ _ Hsh Hr Hn) as (Hstrict & [(Hw & Hg)|(bypass & amendment & Hreq)]);
    (split; [done|]).
  - left. split; [exact (Hpre _ Hw)|]. split; [exact Hw|exact Hg].
  - right. destruct (assess_patch_safety _ _ _ _ _ _ _) as [sandbox explicit| |reason]; [|by injection Hcore as <-|done].
    by destruct Hsafe as (_ & _ & ? & ? & _).
Qed.

(** ** A grant that has nothing to do with the patch *)

(** The sandbox refuses every patch. *)
Definition patches_denied : Prop :=
  ∀ events req c, ∃ out err elapsed, apply_patch_in events req (Some c) = (false, out, err, elapsed) ∧
    existsb (λ needle, contains needle (to_lowercase err)) SANDBOX_DENIED_KEYWORDS = true.

Lemma denied_patch_result req attempt c s :
  patches_denied → attempt_sandbox attempt ≠ SandboxNone →
  ∃ output, patch_result to_lowercase apply_patch_in req attempt (Some c) s =
    (s, Err (CodexError (SandboxDenied output None))).
Proof.
  intros Hd Hs. destruct (Hd (trace s) req c) as (out & err & elapsed & E & Hk).
  unfold patch_result. rewrite E. eexists. cbn [negb andb].
  unfold is_likely_sandbox_denied. rewrite bool_decide_false by done. cbn [exit_code Z.eqb orb stderr existsb].
  by rewrite Hk.
Qed.

(** Any grant answers for a patch whose directories are writable.  Let the
    session or the turn hold permissions of any kind, say for the network, and
    let a patch name a path that is not writable in a directory that is, so
    that the settings want the user to be asked.  Unless reviews are strict or
    automatic or a hook decides, nobody is asked: the patch counts as
    preapproved, because it needs no permission beyond those granted; and when
    the sandbox then refuses it, it is run again without a sandbox, still
    without a question, since it counts as approved. *)
Theorem unrelated_grant_answers_for_patch g turn policy call_id turn_id action granted s :
  merge_permission_profiles (granted_session_permissions g) (granted_turn_permissions g) = Some granted →
  additional_is_empty granted = false →
  write_permissions_for_paths env (file_paths_for_action env action) (judged_policy g turn) (turn_cwd turn) = None →
  assess_patch_safety env os action (ctx_approval_policy (turn_context turn))
    (ctx_permission_profile (turn_context turn)) (judged_policy g turn) (turn_cwd turn)
    (turn_windows_level turn) = AskUser →
  patch_wants_no_sandbox_approval (ctx_approval_policy (turn_context turn)) = true →
  turn_strict_auto_review turn = false → routes_approval_to_guardian (turn_context turn) = false →
  (∀ events run_id payload, hooks events run_id payload = None) →
  select_initial os (turn_file_system_policy turn) (turn_network_policy turn) Auto (turn_windows_level turn)
    (bool_decide (is_Some (turn_network turn))) ≠ SandboxNone →
  is_ok (effective_permission_profile (ctx_permission_profile (turn_context turn)) (Some granted)) = true →
  patches_denied →
  ∃ a1 a2,
    trace (run_patch g turn policy call_id turn_id action s).1 = trace s ++
      [AskedHooks call_id None; ToolDecision Approved SourceUser; RanTool a1; RanTool a2] ∧
    attempt_sandbox a1 ≠ SandboxNone ∧ attempt_sandbox a2 = SandboxNone.
Proof.
  intros Hg Hempty Hwrite Hask Hwants Hstrict Hroute Hhooks Hsel Hprof Hdenied.
  pose proof (run_patch_trace g turn policy call_id turn_id action s) as Ht.
  unfold effective_patch_permissions, core_apply_patch in Ht. fold (judged_policy g turn) in Ht.
  rewrite Hwrite, (nothing_more_preapproved _ _ _ _ _ Hg Hempty), Hask in Ht. rewrite Ht. clear Ht.
  set (req := patch_request _ _ _).
  destruct (effective_permission_profile _ _) as [permissions|e|p] eqn:Heff; [|done..].
  assert (Hrun : ∀ attempt s', attempt_sandbox attempt ≠ SandboxNone →
    attempt_permissions attempt = ctx_permission_profile (turn_context turn) →
    ∃ output, run_tool (ToolRuntime := runtime) req attempt s' = (s', Err (CodexError (SandboxDenied output None)))).
  { intros attempt s' Hs Hp.
    destruct (denied_patch_result req attempt (mkFsContext permissions (attempt_sandbox_cwd attempt)) s' Hdenied Hs)
      as (output & Hout).
    exists output. unfold run_tool, runtime, ApplyPatchRuntime, file_system_sandbox_context_for_attempt.
    rewrite Hp. cbn [ap_additional_permissions req patch_request eff_additional_permissions]. rewrite Heff.
    destruct (attempt_sandbox attempt); [done|..]; exact Hout. }
  assert (Hlast : ∀ attempt s', attempt_sandbox attempt = SandboxNone →
    ∃ r, run_tool (ToolRuntime := runtime) req attempt s' = (s', r)).
  { intros attempt s' Hs. unfold run_tool, runtime, ApplyPatchRuntime, file_system_sandbox_context_for_attempt.
    rewrite Hs. unfold mbind, Eff_bind. cbn. unfold patch_result.
    destruct (apply_patch_in _ _ _) as [[[ok out] err] elapsed]. by eexists. }

  unfold run, approval_phase, approve, request_approval, run_attempt, begin_network_approval, mbind, Eff_bind.
  cbn -[run_tool may_retry retry_phase].
  rewrite Hstrict, Hroute. cbn -[run_tool may_retry retry_phase]. rewrite Hhooks.
  cbn -[run_tool may_retry retry_phase select_initial].
  assert (Hmay : may_retry (ToolRuntime0 := runtime) (Out := ExecToolCallOutput) turn
    (ctx_approval_policy (turn_context turn)) None = Some None).
  { unfold may_retry. cbn. rewrite Hwants. by destruct (bool_decide _). }
  unfold try_.
  match goal with |- context [run_tool req ?a ?s] => destruct (Hrun a s Hsel eq_refl) as [output ->]; set (a1 := a) end.
  cbn -[run_tool may_retry retry_phase select_initial].
  rewrite Hmay. unfold retry_phase. rewrite Hstrict. cbn -[run_tool select_initial].
  unfold run_attempt, begin_network_approval, try_, mbind, Eff_bind. cbn -[run_tool select_initial].
  match goal with |- context [run_tool req ?a ?s] =>
    destruct (Hlast a s eq_refl) as [r2 ->]; set (a2 := a) end.
  exists a1, a2. split; [|by split].
  destruct r2 as [out|e|p]; cbn; by rewrite <-!app_assoc.
Qed.
End consent.

(** ** Examples: the sandbox of a patch *)

(** A sandbox that enforces its profile: the patch succeeds exactly when the
    profile lets the path be written. *)
Definition enforcing (path : str) (_ : list Event) (_ : ApplyPatchRequest)
    (context : option FileSystemSandboxContext) : bool * str * str * N :=
  let ok :=
    match context with
    | None => true
    | Some c => can_write_path_with_cwd demo_env (fst (to_runtime_permissions (fsc_permissions c))) path (fsc_cwd c)
    end in
  (ok, [], if ok then [] else lit "permission denied", 0%N).

Definition patch_turn (policy : AskForApproval) : ToolTurn :=
  mkToolTurn (mkContext policy (Managed (ManagedRestricted (entries workspace_policy) None) NetworkRestricted) false)
    workspace_policy NetworkRestricted None WindowsDisabled (lit "/w") None false false.

Definition add_patch (path : string) : str :=
  join [c_nl] [lit "*** Begin Patch"; lit "*** Add File: " ++ lit path; lit "+x"; lit "*** End Patch"].

(** The tool called with a patch that adds a file, under a policy; everybody
    who is asked says no. *)
Definition patch_call (policy : AskForApproval) (path : string) : Session * Res FunctionCallError str :=
  handle_apply_patch (Sandbox:=unit) demo_env Linux (λ _, None) (λ _, []) (λ _ _ _, None) (λ _, []) []
    (ToolRuntime0 := ApplyPatchRuntime (λ s, s) (λ _ _, Denied) (λ _ _, Denied) Some (enforcing (lit path)))
    no_matches plain_diff (λ _, lit "0") (λ text _ _, text) (λ _, []) (λ _, Err [])
    (mkGrants None None) (patch_turn policy) (PolicyBytes 100) (Some (demo_fs, None)) (lit "call") (lit "turn")
    (CustomPayload (add_patch path)) demo_session.

(** Under the setting that leaves failures to the sandbox, the sandbox lets a
    patch write anywhere.  The handler gives the sandbox write permission for
    the directories a patch touches whether or not anybody approved them, and
    this setting approves every patch on account of the sandbox: a patch that
    adds a file to [/etc/cron.d], where the policy of the turn gives no write
    access, is carried out in the sandbox without a question; under the
    setting that asks on request the same patch is asked about. *)
Theorem on_failure_patch_escapes :
  can_write_path_with_cwd demo_env workspace_policy (lit "/etc/cron.d/job") (lit "/w") = false ∧
  (let (s, r) := patch_call OnFailure "/etc/cron.d/job" in
   is_ok r = true ∧ map attempt_sandbox (runs (trace s)) = [LinuxSeccomp] ∧ existsb is_question (trace s) = false) ∧
  (let (s, r) := patch_call OnRequest "/etc/cron.d/job" in
   is_ok r = false ∧ runs (trace s) = [] ∧ existsb is_question (trace s) = true).
Proof. split_and!; vm_compute; split_and?; reflexivity. Qed.

Definition inside_action : ApplyPatchAction :=
  Build_ApplyPatchAction {[lit "/w/new" := AddChange (lit "x")]} (add_patch "new") (lit "/w").

Lemma unasked_patch_is_writable_witness :
  patch_writable demo_env (judged_policy (mkGrants None None) (patch_turn OnRequest)) (lit "/w") inside_action.
Proof.
  destruct (unasked_patch_is_writable demo_env Linux (λ _, None) (λ _, []) (λ _ _ _, None) (λ _, []) []
    (λ s, s) (λ _ _, Denied) (λ _ _, Denied) Some (enforcing (lit "/w/new")) (λ _, lit "0") (λ text _ _, text)
    (λ _, []) (mkGrants None None) (patch_turn OnRequest) (PolicyBytes 100) (lit "call") (lit "turn")
    inside_action demo_session demo_session_asked) as (es & E & H).
  simpl in E. assert (Hes : ∃ a, es = [ToolDecision Approved SourceConfig; RanTool a]).
  { eexists. rewrite <-E. vm_compute. reflexivity. }
  clear E. destruct Hes as [a ->].
  destruct H as (_ & [([x Hx] & _)|(_ & [H|H])]);
    [done|apply settings_no_consent; by repeat constructor|discriminate Hx|discriminate H|exact H].
Defined.

(** A file in the workspace that is read-only, and a grant for the network. *)
Definition secret_turn : ToolTurn :=
  mkToolTurn (mkContext OnRequest (Managed (ManagedRestricted (entries secret_policy) None) NetworkRestricted) false)
    secret_policy NetworkRestricted None WindowsDisabled (lit "/w") None false false.
Definition network_grant : AdditionalPermissionProfile :=
  mkAdditional (Some (mkNetworkPermissions (Some true))) None.
Definition secret_action : ApplyPatchAction :=
  Build_ApplyPatchAction {[lit "/w/secret" := AddChange (lit "x")]} (add_patch "secret") (lit "/w").
Definition denying (_ : list Event) (_ : ApplyPatchRequest) (context : option FileSystemSandboxContext)
    : bool * str * str * N :=
  match context with
  | None => (true, [], [], 0%N)
  | Some _ => (false, [], lit "permission denied", 0%N)
  end.

Lemma unrelated_grant_answers_for_patch_witness :
  can_write_path_with_cwd demo_env secret_policy (lit "/w/secret") (lit "/w") = false ∧
  ∃ a1 a2,
    trace (run_verified_patch demo_env Linux (λ _, None) (λ _, []) (λ _ _ _, None) (λ _, []) []
      (ToolRuntime0 := ApplyPatchRuntime (λ s, s) (λ _ _, Denied) (λ _ _, Denied) Some denying)
      (λ _, lit "0") (λ text _ _, text) (λ _, []) (mkGrants None (Some network_grant)) secret_turn
      (PolicyBytes 100) (lit "call") (lit "turn") secret_action demo_session).1 =
    [AskedHooks (lit "call") None; ToolDecision Approved SourceUser; RanTool a1; RanTool a2] ∧
    attempt_sandbox a1 ≠ SandboxNone ∧ attempt_sandbox a2 = SandboxNone.
Proof.
  split; [vm_compute; reflexivity|].
  apply (unrelated_grant_answers_for_patch demo_env Linux (λ _, None) (λ _, []) (λ _ _ _, None) (λ _, []) []
    (λ s, s) (λ _ _, Denied) (λ _ _, Denied) Some denying (λ _, lit "0") (λ text _ _, text)
    (λ _, []) (mkGrants None (Some network_grant)) secret_turn (PolicyBytes 100) (lit "call") (lit "turn")
    secret_action network_grant demo_session); try (vm_compute; reflexivity); try done.
  intros events req c. by exists [], (lit "permission denied"), 0%N.
Defined.
