(* ===== verification/TurnDiff.v ===== *)
(** * The diff of a turn: [core/src/turn_diff_tracker.rs]

    Before each patch of a turn the tracker takes a snapshot of the files it is
    about to change, and follows them through renames; the diff of the turn
    compares the snapshots with the files as they are then.

    The disk, git, the hash function, the comparison of texts, the generator of
    identifiers and the order in which a hash map yields its entries are
    parameters.  Paths are absolute and normalised, so that keys of maps are
    compared as texts. *)
From S2P Require Import Prelude RustStr Utf8 AbsolutePath Ordering Paths MachineInt PatchHandler.

#[local] Unset Default Proof Using.

Definition ZERO_OID : str := lit "0000000000000000000000000000000000000000".
Definition DEV_NULL : str := lit "/dev/null".

(** ** What the tracker asks of the disk and of git *)

Record Disk := mkDisk {
  path_exists : str → bool;                         (* [Path::exists], which follows links *)
  symlink_metadata : str → option (bool * N);       (* whether it is a link, and its mode *)
  read_file : str → option (list byte);
  read_link : str → option (list byte);
  is_dir : str → bool;
  is_file : str → bool;
  (** What [git -C root hash-object -- rel] prints when it succeeds, trimmed. *)
  hash_object : str → str → option str
}.

Inductive FileMode := Regular | Executable | Symlink.
#[global] Instance FileMode_eq_dec : EqDecision FileMode.
Proof. solve_decision. Defined.

(** [FileMode::as_str] *)
Definition as_str (m : FileMode) : str :=
  match m with Regular => lit "100644" | Executable => lit "100755" | Symlink => lit "120000" end.

Definition file_mode_for_path (d : Disk) (path : str) : option FileMode :=
  match symlink_metadata d path with
  | None => None
  | Some (true, _) => Some Symlink
  | Some (false, mode) => Some (if (N.land mode 73 =? 0)%N then Regular else Executable)  (* [0o111] *)
  end.

Definition blob_bytes (d : Disk) (path : str) (mode : FileMode) : option (list byte) :=
  if path_exists d path then
    if decide (mode = Symlink) then read_link d path else read_file d path
  else None.

(** ** State *)

Record BaselineFileInfo := mkBaseline {
  info_path : str;
  content : list byte;
  info_mode : FileMode;
  oid : str
}.

Record TurnDiffTracker := mkTracker {
  external_to_temp_name : gmap str str;
  baseline_file_info : gmap str BaselineFileInfo;
  temp_name_to_current_path : gmap str str;
  git_root_cache : list str;
  uuids_drawn : nat                                 (* how often [Uuid::new_v4] was called *)
}.

Definition new_tracker : TurnDiffTracker := mkTracker ∅ ∅ ∅ [] 0.

Definition set_git_root_cache cache t : TurnDiffTracker :=
  mkTracker (external_to_temp_name t) (baseline_file_info t) (temp_name_to_current_path t) cache (uuids_drawn t).
Definition insert_baseline internal info t : TurnDiffTracker :=
  mkTracker (external_to_temp_name t) (<[internal := info]> (baseline_file_info t)) (temp_name_to_current_path t)
    (git_root_cache t) (uuids_drawn t).
Definition insert_external path internal t : TurnDiffTracker :=
  mkTracker (<[path := internal]> (external_to_temp_name t)) (baseline_file_info t) (temp_name_to_current_path t)
    (git_root_cache t) (uuids_drawn t).
Definition remove_external path t : TurnDiffTracker :=
  mkTracker (delete path (external_to_temp_name t)) (baseline_file_info t) (temp_name_to_current_path t)
    (git_root_cache t) (uuids_drawn t).
Definition insert_current internal path t : TurnDiffTracker :=
  mkTracker (external_to_temp_name t) (baseline_file_info t) (<[internal := path]> (temp_name_to_current_path t))
    (git_root_cache t) (uuids_drawn t).

(** ** The root of the repository of a file *)

(** The walk up from a directory; a [.git] may be a file (a worktree). *)
Fixpoint walk_up (d : Disk) (cache : list str) (dirs : list str) : list str * option str :=
  match dirs with
  | [] => (cache, None)
  | cur :: parents =>
      let git_marker := path_push cur (lit ".git") in
      if is_dir d git_marker || is_file d git_marker then
        (if existsb (λ r, path_eqb r cur) cache then cache else cache ++ [cur], Some cur)
      else walk_up d cache parents
  end.

Definition find_git_root_cached (d : Disk) (start : str) (cache : list str) : list str * option str :=
  match (if is_dir d start then Some start else path_parent start) with
  | None => (cache, None)
  | Some dir =>
      match List.find (λ r, path_starts_with dir r) cache with
      | Some root => (cache, Some root)
      | None => walk_up d cache (ancestors dir)
      end
  end.

(** [s.replace('\\', '/')] *)
Definition with_slashes (s : str) : str := map (λ c, if (c =? 92)%N then c_slash else c) s.

Definition relative_to_git_root_str (d : Disk) (path : str) (cache : list str) : list str * str :=
  let '(cache, root) := find_git_root_cached d path cache in
  let s := match root with
           | Some root => match path_strip_prefix path root with Some rel => of_components rel | None => path end
           | None => path
           end in
  (cache, with_slashes s).

Definition git_blob_oid_for_path (d : Disk) (path : str) (cache : list str) : list str * option str :=
  let '(cache, root) := find_git_root_cached d path cache in
  (cache,
   match root with
   | None => None
   | Some root =>
       let rel := match path_strip_prefix path root with Some rel => of_components rel | None => path end in
       match hash_object d root rel with
       | Some s => if (utf8_len s =? 40)%N then Some s else None
       | None => None
       end
   end).

Section tracker.
(** SHA-1 in hexadecimal; a unified diff of two texts with three lines of
    context, under two headers; the identifiers that are drawn; the order of a
    hash map. *)
Context (sha1_hex : list byte → str).
Context (unified_diff : str → str → str → str → str).
Context (new_v4 : nat → str).
Context (hash_order : list str → list str).

Definition git_blob_sha1_hex_bytes (data : list byte) : str :=
  sha1_hex (encode (lit "blob " ++ show_N (len data) ++ [0]%N) ++ data).

(** The hash of a file by its mode: that of git, or the tracker's own. *)
Definition blob_oid (d : Disk) (path : str) (is_link : bool) (bytes : list byte) (cache : list str) : list str * str :=
  if is_link then (cache, git_blob_sha1_hex_bytes bytes)
  else
    let '(cache, by_git) := git_blob_oid_for_path d path cache in
    (cache, default (git_blob_sha1_hex_bytes bytes) by_git).

(** ** Before a patch *)

(** The snapshot of a file when it is first seen. *)
Definition take_snapshot (d : Disk) (path : str) (cache : list str) : list str * BaselineFileInfo :=
  if path_exists d path then
    let mode := file_mode_for_path d path in
    let mode_val := default Regular mode in
    let content := default [] (blob_bytes d path mode_val) in
    let '(cache, oid) := blob_oid d path (bool_decide (mode = Some Symlink)) content cache in
    (cache, mkBaseline path content mode_val oid)
  else (cache, mkBaseline path [] Regular ZERO_OID).

Definition draw_uuid (t : TurnDiffTracker) : TurnDiffTracker * str :=
  (mkTracker (external_to_temp_name t) (baseline_file_info t) (temp_name_to_current_path t) (git_root_cache t)
     (S (uuids_drawn t)), new_v4 (uuids_drawn t)).

Definition ensure_tracked (d : Disk) (path : str) (t : TurnDiffTracker) : TurnDiffTracker :=
  match external_to_temp_name t !! path with
  | Some _ => t
  | None =>
      let '(t, internal) := draw_uuid t in
      let t := insert_current internal path (insert_external path internal t) in
      let '(cache, info) := take_snapshot d path (git_root_cache t) in
      insert_baseline internal info (set_git_root_cache cache t)
  end.

Definition track_move (path dest : str) (t : TurnDiffTracker) : TurnDiffTracker :=
  let '(t, uuid_filename) :=
    match external_to_temp_name t !! path with
    | Some i => (t, i)
    | None =>
        let '(t, i) := draw_uuid t in
        (insert_baseline i (mkBaseline path [] Regular ZERO_OID) t, i)
    end in
  insert_external dest uuid_filename (remove_external path (insert_current uuid_filename dest t)).

Definition on_change (d : Disk) (t : TurnDiffTracker) (entry : str * FileChange) : TurnDiffTracker :=
  let '(path, change) := entry in
  let t := ensure_tracked d path t in
  match change with
  | ChangeUpdate _ (Some dest) => track_move path dest t
  | _ => t
  end.

(** [on_patch_begin], for changes in the order their map yields them. *)
Definition on_patch_begin (d : Disk) (changes : list (str * FileChange)) (t : TurnDiffTracker) : TurnDiffTracker :=
  foldl (on_change d) t changes.

(** ** The diff *)

Definition get_path_for_internal (internal : str) (t : TurnDiffTracker) : option str :=
  match temp_name_to_current_path t !! internal with
  | Some path => Some path
  | None => info_path <$> baseline_file_info t !! internal
  end.

(** What a snapshot stands for: nothing, when the file was missing. *)
Definition left_bytes (info : BaselineFileInfo) : option (list byte) :=
  if decide (oid info = ZERO_OID) then None else Some (content info).

Definition utf8_text (bytes : option (list byte)) : option str :=
  match bytes with
  | Some bytes => match from_utf8 bytes with Utf8Ok s => Some s | _ => None end
  | None => None
  end.

(** The text of a file's diff, given all that it shows. *)
Definition diff_text (info : BaselineFileInfo) (left_display right_display right_oid : str) (current_mode : FileMode)
    (right_bytes : option (list byte)) : str :=
  let left := left_bytes info in
  let is_add := bool_decide (left = None) && bool_decide (right_bytes ≠ None) in
  let is_delete := bool_decide (left ≠ None) && bool_decide (right_bytes = None) in
  let modes :=
    if is_add then lit "new file mode " ++ as_str current_mode ++ [c_nl]
    else if is_delete then lit "deleted file mode " ++ as_str (info_mode info) ++ [c_nl]
    else if decide (info_mode info = current_mode) then []
    else lit "old mode " ++ as_str (info_mode info) ++ [c_nl] ++ lit "new mode " ++ as_str current_mode ++ [c_nl] in
  let left_text := utf8_text left in
  let right_text := utf8_text right_bytes in
  let can_text_diff :=
    match left_text, right_text with
    | Some _, Some _ => true
    | _, Some _ => is_add
    | Some _, _ => is_delete
    | None, None => false
    end in
  let index := lit "index " ++ oid info ++ lit ".." ++ right_oid ++ [c_nl] in
  let old_header := if decide (left = None) then DEV_NULL else lit "a/" ++ left_display in
  let new_header := if decide (right_bytes = None) then DEV_NULL else lit "b/" ++ right_display in
  lit "diff --git a/" ++ left_display ++ lit " b/" ++ right_display ++ [c_nl] ++ modes ++ index ++
  (if can_text_diff then unified_diff (default [] left_text) (default [] right_text) old_header new_header
   else lit "--- " ++ old_header ++ [c_nl] ++ lit "+++ " ++ new_header ++ [c_nl] ++ lit "Binary files differ" ++ [c_nl]).

(** What a path holds, as the diff reads it. *)
Definition current_mode_of (d : Disk) (path : str) : FileMode := default Regular (file_mode_for_path d path).
Definition current_bytes (d : Disk) (path : str) : option (list byte) := blob_bytes d path (current_mode_of d path).

Definition empty_baseline : BaselineFileInfo := mkBaseline [] [] Regular ZERO_OID.

(** The hash of the file as it is now. *)
Definition current_oid (d : Disk) (current : str) (current_mode : FileMode) (right_bytes : option (list byte))
    (cache : list str) : list str * str :=
  match right_bytes with
  | Some b => blob_oid d current (bool_decide (current_mode = Symlink)) b cache
  | None => (cache, ZERO_OID)
  end.

Definition get_file_diff (d : Disk) (internal : str) (t : TurnDiffTracker) (cache : list str) : list str * str :=
  let info := default empty_baseline (baseline_file_info t !! internal) in
  match get_path_for_internal internal t with
  | None => (cache, [])
  | Some current =>
      let current_mode := current_mode_of d current in
      let right_bytes := current_bytes d current in
      let '(cache, left_display) := relative_to_git_root_str d (info_path info) cache in
      let '(cache, right_display) := relative_to_git_root_str d current cache in
      let '(cache, right_oid) := current_oid d current current_mode right_bytes cache in
      if decide (left_bytes info = right_bytes) then (cache, [])
      else (cache, diff_text info left_display right_display right_oid current_mode right_bytes)
  end.

(** The key a file is sorted by, and those of all files. *)
Definition sort_key (d : Disk) (t : TurnDiffTracker) (internal : str) (cache : list str) : list str * str :=
  match get_path_for_internal internal t with
  | Some p => relative_to_git_root_str d p cache
  | None => (cache, [])
  end.

Fixpoint sort_keys (d : Disk) (t : TurnDiffTracker) (names : list str) (cache : list str)
    : list str * list (str * str) :=
  match names with
  | [] => (cache, [])
  | internal :: names =>
      let '(cache, key) := sort_key d t internal cache in
      let '(cache, keys) := sort_keys d t names cache in
      (cache, (key, internal) :: keys)
  end.

Fixpoint insert_by_display (a : str * str) (l : list (str * str)) : list (str * str) :=
  match l with
  | [] => [a]
  | b :: l' => match cmp a.1 b.1 with Gt => b :: insert_by_display a l' | _ => a :: l end
  end.
(** [sort_by_key], which is stable *)
Definition sort_by_display (l : list (str * str)) : list (str * str) := foldr insert_by_display [] l.

Definition push_section (aggregated section : str) : str :=
  let aggregated := aggregated ++ section in
  if ends_with [c_nl] aggregated then aggregated else aggregated ++ [c_nl].

Fixpoint aggregate (d : Disk) (t : TurnDiffTracker) (names : list str) (aggregated : str) (cache : list str)
    : list str * str :=
  match names with
  | [] => (cache, aggregated)
  | internal :: names =>
      let '(cache, section) := get_file_diff d internal t cache in
      aggregate d t names (push_section aggregated section) cache
  end.

(** It never returns an error. *)
Definition get_unified_diff (d : Disk) (t : TurnDiffTracker) : TurnDiffTracker * option str :=
  let '(cache, keys) := sort_keys d t (hash_order (map fst (map_to_list (baseline_file_info t)))) (git_root_cache t) in
  let '(cache, aggregated) := aggregate d t (map snd (sort_by_display keys)) [] cache in
  (set_git_root_cache cache t, if decide (trim aggregated = []) then None else Some aggregated).
End tracker.

(** ** The display of a path does not depend on what else was asked *)

Section display.
Context (d : Disk).

Definition marked (dir : str) : bool :=
  is_dir d (path_push dir (lit ".git")) || is_file d (path_push dir (lit ".git")).
Definition known_root (dir : str) : Prop := normalized_abs dir ∧ marked dir = true.

Lemma ancestors_normalized p q : normalized_abs p → q ∈ ancestors p → normalized_abs q ∧ path_starts_with p q = true.
Proof.
  unfold ancestors. generalize (length p). intros fuel. revert p. induction fuel as [|fuel IH]; intros p Hp.
  - intros ->%list_elem_of_singleton. split; [done|apply path_starts_with_refl].
  - simpl. rewrite elem_of_cons. intros [->|H]; [split; [done|apply path_starts_with_refl]|].
    destruct Hp as (ns & Hns & ->). destruct ns as [|n ns _] using rev_ind; [by apply elem_of_nil in H|].
    rewrite parent_render_snoc in H by done. apply Forall_app in Hns as [Hns Hn].
    destruct (IH (render ns)) as [Hq Hs]; [by exists ns|done|]. split; [done|].
    apply path_starts_with_trans with (render ns); [|done]. apply path_starts_with_spec.
    rewrite !components_render by (done || by apply Forall_app). rewrite map_app. by exists [Normal n].
Qed.

Lemma ancestors_prefix p q :
  normalized_abs p → normalized_abs q → path_starts_with p q = true → q ∈ ancestors p.
Proof.
  intros (ns & Hns & ->) (ms & Hms & ->) Hs%path_starts_with_spec. unfold ancestors.
  rewrite !components_render in Hs by done.
  assert (Hp : ∃ rest, ns = ms ++ rest).
  { destruct Hs as [k Hk]. injection Hk as Hk. symmetry in Hk. clear Hns.
    revert ms Hms Hk. induction ns as [|n ns IH]; intros [|m ms] Hms Hk; simplify_eq/=; [by exists []|by eexists|].
    apply Forall_cons in Hms as [_ Hms]. destruct (IH ms Hms) as [rest ->]; [done|]. by exists rest. }
  pose proof (length_render ns Hns) as Hf. revert Hf. generalize (length (render ns)). intros fuel.
  revert fuel. destruct Hp as [rest ->]. clear Hs. induction rest as [|n rest IH] using rev_ind; intros fuel Hf.
  - rewrite app_nil_r. destruct fuel; by left.
  - rewrite app_assoc in *. destruct fuel as [|fuel]; [rewrite length_app in Hf; simpl in Hf; lia|].
    simpl. right. rewrite parent_render_snoc by done. apply Forall_app in Hns as [Hns _]. apply IH; [done|].
    rewrite length_app in Hf. simpl in Hf. lia.
Qed.

Lemma walk_up_spec cache dirs cache' root :
  walk_up d cache dirs = (cache', root) →
  match root with
  | None => cache' = cache ∧ Forall (λ x, marked x = false) dirs
  | Some x => x ∈ dirs ∧ marked x = true ∧ (cache' = cache ++ [x] ∨ existsb (λ r, path_eqb r x) cache = true)
  end ∧ ∃ new, cache' = cache ++ new ∧ Forall (λ x, x ∈ dirs ∧ marked x = true) new.
Proof.
  induction dirs as [|x dirs IH]; simpl.
  - intros [= <- <-]. split; [by split; [|apply Forall_nil]|]. exists []. by rewrite app_nil_r.
  - fold (marked x). destruct (marked x) eqn:Ex.
    + intros [= <- <-]. destruct (existsb _ cache) eqn:Ee.
      * split; [split_and!; [by left|done|by right]|]. exists []. by rewrite app_nil_r.
      * split; [split_and!; [by left|done|by left]|]. exists [x]. split; [done|]. apply Forall_singleton. split; [by left|done].
    + intros H. destruct (IH H) as [Hr (new & Hc & Hn)]. split.
      * destruct root as [y|]; [|by destruct Hr; split; [|apply Forall_cons]].
        destruct Hr as (Hy & Hm & Hc'). split_and!; [by right|done|done].
      * exists new. split; [done|]. eapply Forall_impl; [exact Hn|]. intros y [Hy Hm]. split; [by right|done].
Qed.

(** Where the walk for a path starts. *)
Definition start_dir (path : str) : option str := if is_dir d path then Some path else path_parent path.

Lemma start_dir_normalized path dir : normalized_abs path → start_dir path = Some dir → normalized_abs dir.
Proof.
  unfold start_dir. destruct (is_dir d path); [by intros ? [= <-]|]. intros (ns & Hns & ->).
  destruct ns as [|n ns _] using rev_ind; [done|]. rewrite parent_render_snoc by done. intros [= <-].
  apply Forall_app in Hns as [Hns _]. by exists ns.
Qed.

Lemma root_grows path cache :
  normalized_abs path → ∃ new, (find_git_root_cached d path cache).1 = cache ++ new ∧ Forall known_root new.
Proof.
  intros Hp. unfold find_git_root_cached. fold (start_dir path).
  destruct (start_dir path) as [dir|] eqn:Ed; [|exists []; by rewrite app_nil_r].
  destruct (List.find _ cache); [exists []; by rewrite app_nil_r|].
  destruct (walk_up d cache (ancestors dir)) as [c r] eqn:Ew.
  destruct (walk_up_spec _ _ _ _ Ew) as [_ (new & -> & Hn)]. exists new. split; [done|].
  eapply Forall_impl; [exact Hn|]. intros x [Hx Hm]. split; [|done].
  by apply (ancestors_normalized dir x (start_dir_normalized _ _ Hp Ed)).
Qed.

Lemma find_app {A} (g : A → bool) l k :
  List.find g (l ++ k) = match List.find g l with Some x => Some x | None => List.find g k end.
Proof. induction l as [|x l IH]; simpl; [done|]. by destruct (g x). Qed.

Lemma root_kept path cache cache' root new :
  normalized_abs path → find_git_root_cached d path cache = (cache', root) → Forall known_root new →
  find_git_root_cached d path (cache' ++ new) = (cache' ++ new, root).
Proof.
  intros Hp H Hn. unfold find_git_root_cached in *. fold (start_dir path) in *.
  destruct (start_dir path) as [dir|] eqn:Ed; [|by injection H as <- <-].
  pose proof (start_dir_normalized _ _ Hp Ed) as Hdir.
  destruct (List.find _ cache) as [r|] eqn:Ef; [injection H as <- <-; by rewrite find_app, Ef|].
  destruct (walk_up_spec _ _ _ _ H) as [Hr _]. rewrite find_app. destruct root as [x|].
  - destruct Hr as (Hx & Hm & Hc). destruct (ancestors_normalized dir x Hdir Hx) as [_ Hs].
    destruct Hc as [->|Hc]; [rewrite find_app, Ef; cbn [List.find]; by rewrite Hs|].
    exfalso. apply existsb_exists in Hc as (y & Hy & He%path_eqb_spec).
    pose proof (find_none _ _ Ef y Hy) as Hno. cbv beta in Hno.
    apply path_starts_with_spec in Hs. rewrite <-He in Hs. apply path_starts_with_spec in Hs. congruence.
  - destruct Hr as [-> Hr]. rewrite Ef. destruct (List.find (λ r, path_starts_with dir r) new) as [y|] eqn:En.
    + exfalso. apply find_some in En as [Hy Hs]. rewrite Forall_forall in Hn, Hr.
      destruct (Hn y) as [Hny Hmy]; [by apply list_elem_of_In|].
      rewrite (Hr y (ancestors_prefix dir y Hdir Hny Hs)) in Hmy. done.
    + destruct (walk_up d (cache ++ new) (ancestors dir)) as [c r] eqn:Ew.
      destruct (walk_up_spec _ _ _ _ Ew) as [Hr' _]. destruct r as [x|]; [|by destruct Hr' as [-> _]].
      destruct Hr' as (Hx & Hm & _). rewrite Forall_forall in Hr. by rewrite (Hr x Hx) in Hm.
Qed.

(** On a disk that stays as it is, the display of a path, by which files are
    sorted and shown, does not change once it was asked for, whatever other
    paths are asked for in between. *)
Theorem display_is_stable path cache others :
  normalized_abs path → Forall normalized_abs others →
  let asked := relative_to_git_root_str d path cache in
  let cache' := foldl (λ c q, (relative_to_git_root_str d q c).1) asked.1 others in
  relative_to_git_root_str d path cache' = (cache', asked.2).
Proof.
  intros Hp Ho. cbv zeta.
  assert (Hgrow : ∀ c, ∃ new, foldl (λ c q, (relative_to_git_root_str d q c).1) c others = c ++ new ∧ Forall known_root new).
  { induction Ho as [|q others Hq Ho IH]; intros c; [exists []; by rewrite app_nil_r|]. cbn [foldl].
    destruct (root_grows q c Hq) as (n1 & E1 & H1). destruct (IH (c ++ n1)) as (n2 & E2 & H2). exists (n1 ++ n2).
    unfold relative_to_git_root_str at 2. destruct (find_git_root_cached d q c) as [c1 r1]. simpl in *. subst c1.
    rewrite E2, app_assoc. split; [done|by apply Forall_app]. }
  destruct (relative_to_git_root_str d path cache) as [c1 s] eqn:Er. cbn [fst snd].
  destruct (Hgrow c1) as (new & -> & Hn). revert Er. unfold relative_to_git_root_str.
  destruct (find_git_root_cached d path cache) as [c root] eqn:Ef. intros [= <- <-].
  by rewrite (root_kept _ _ _ _ _ Hp Ef Hn).
Qed.
End display.

(** ** What is followed

    The tracker without its identifiers: for each path that holds a followed
    file, what the file was when it was first seen, and the files that are no
    longer at a path of their own, because another one was moved onto them. *)

Definition Origin : Type := option (list byte).

(** What a snapshot makes of a file that cannot be read is an empty one. *)
Definition first_bytes (d : Disk) (path : str) : Origin :=
  if path_exists d path then Some (default [] (current_bytes d path)) else None.

Definition Following : Type := gmap str Origin * list (Origin * str).

Definition follow (d : Disk) (f : Following) (entry : str * FileChange) : Following :=
  let '(path, change) := entry in
  let '(live, covered) := f in
  let origin := default (first_bytes d path) (live !! path) in
  match change with
  | ChangeUpdate _ (Some dest) =>
      let rest := delete path live in
      (<[dest := origin]> rest,
       match rest !! dest with Some old => (old, dest) :: covered | None => covered end)
  | _ => (<[path := origin]> live, covered)
  end.

(** The changes of a turn: its patches in order, each with the disk it began
    on. *)
Definition follow_turn (patches : list (Disk * list (str * FileChange))) : Following :=
  foldl (λ f patch, foldl (follow patch.1) f patch.2) (∅, []) patches.

(** Whether a followed file is as it was. *)
Definition unchanged (d : Disk) (f : Following) : Prop :=
  (∀ path origin, f.1 !! path = Some origin → origin = current_bytes d path) ∧
  (∀ origin path, (origin, path) ∈ f.2 → origin = current_bytes d path).

Section following.
Context (sha1_hex : list byte → str) (unified_diff : str → str → str → str → str).
Context (new_v4 : nat → str) (hash_order : list str → list str).
(** Identifiers are not drawn twice, a map yields each entry once, and no file
    has the hash that stands for a missing one. *)
Context (new_v4_inj : ∀ n m, new_v4 n = new_v4 m → n = m).
Context (hash_order_perm : ∀ l, hash_order l ≡ₚ l).
Context (sha1_not_zero : ∀ bytes, sha1_hex bytes ≠ ZERO_OID).

Implicit Types (t : TurnDiffTracker) (d : Disk) (f : Following).

Definition hashes_not_zero d : Prop := ∀ root rel, hash_object d root rel ≠ Some ZERO_OID.

Local Abbreviation change_of := (on_change sha1_hex new_v4).
Local Abbreviation begin := (on_patch_begin sha1_hex new_v4).
Local Abbreviation diff := (get_unified_diff sha1_hex unified_diff hash_order).

(** The tracker follows [f]. *)
Record follows t f : Prop := {
  follows_current path u : external_to_temp_name t !! path = Some u → temp_name_to_current_path t !! u = Some path;
  follows_known u : is_Some (baseline_file_info t !! u) ↔ is_Some (temp_name_to_current_path t !! u);
  follows_drawn u : is_Some (temp_name_to_current_path t !! u) → ∃ n, (n < uuids_drawn t)%nat ∧ u = new_v4 n;
  follows_live path origin : f.1 !! path = Some origin ↔
    ∃ u info, external_to_temp_name t !! path = Some u ∧ baseline_file_info t !! u = Some info ∧ left_bytes info = origin;
  follows_covered origin path : (origin, path) ∈ f.2 ↔
    ∃ u info, temp_name_to_current_path t !! u = Some path ∧ external_to_temp_name t !! path ≠ Some u ∧
      baseline_file_info t !! u = Some info ∧ left_bytes info = origin
}.

Lemma follows_new : follows new_tracker (∅, []).
Proof.
  split; simpl.
  - intros path u. by rewrite lookup_empty.
  - intros u. rewrite !lookup_empty. by split; intros [? ?].
  - intros u. rewrite lookup_empty. by intros [? ?].
  - intros path origin. rewrite lookup_empty. split; [done|]. intros (u & info & E & _). by rewrite lookup_empty in E.
  - intros origin path. rewrite elem_of_nil. split; [done|]. intros (u & info & E & _). by rewrite lookup_empty in E.
Qed.

Lemma snapshot_left d path cache :
  hashes_not_zero d →
  left_bytes (take_snapshot sha1_hex d path cache).2 = first_bytes d path.
Proof.
  intros Hz. unfold take_snapshot, first_bytes, current_bytes, current_mode_of.
  destruct (path_exists d path); [|done].
  unfold blob_oid, git_blob_oid_for_path.
  assert (Hown : ∀ bytes, git_blob_sha1_hex_bytes sha1_hex bytes ≠ ZERO_OID) by (intros; apply sha1_not_zero).
  assert (Hl : ∀ o mode bytes, o ≠ ZERO_OID → left_bytes (mkBaseline path bytes mode o) = Some bytes).
  { intros o mode bytes Ho. unfold left_bytes. simpl. by rewrite decide_False. }
  case_bool_decide; [by apply Hl, Hown|].
  destruct (find_git_root_cached d path cache) as [c [root|]]; [|by apply Hl, Hown].
  destruct (hash_object d root _) as [s|] eqn:E; [|by apply Hl, Hown].
  destruct (utf8_len s =? 40)%N; [|by apply Hl, Hown]. apply Hl. simpl. intros ->. by apply (Hz _ _ E).
Qed.

(** The next identifier is not in use. *)
Lemma drawn_fresh t f :
  follows t f → let u := new_v4 (uuids_drawn t) in
  temp_name_to_current_path t !! u = None ∧ baseline_file_info t !! u = None ∧
  ∀ path, external_to_temp_name t !! path ≠ Some u.
Proof.
  intros [Hc Hk Hd _ _] u.
  assert (Hu : temp_name_to_current_path t !! u = None).
  { destruct (temp_name_to_current_path t !! u) eqn:Eu; [|done].
    destruct (Hd u) as (n & Hn & En); [by eexists|]. apply new_v4_inj in En. lia. }
  split_and!; [done| |intros path E; apply Hc in E; congruence].
  apply eq_None_not_Some. intros Hb. apply Hk in Hb. rewrite Hu in Hb. by destruct Hb.
Qed.

(** A file that is first seen. *)
Lemma follows_tracked d path t live covered :
  hashes_not_zero d → follows t (live, covered) →
  follows (ensure_tracked sha1_hex new_v4 d path t) (<[path := default (first_bytes d path) (live !! path)]> live, covered) ∧
  is_Some (external_to_temp_name (ensure_tracked sha1_hex new_v4 d path t) !! path).
Proof.
  intros Hz [Hc Hk Hd Hl Hcov]. simpl in Hl, Hcov. unfold ensure_tracked.
  destruct (external_to_temp_name t !! path) as [u|] eqn:E.
  { split; [|by rewrite E].
    destruct (live !! path) as [o|] eqn:Eo; cbn [default]; [rewrite insert_id by done; by split|].
    exfalso. pose proof (Hc _ _ E) as Hu. destruct (proj2 (Hk u)) as [info Hi]; [by eexists|].
    assert (Ho : is_Some (live !! path)) by (exists (left_bytes info); apply Hl; by exists u, info).
    rewrite Eo in Ho. by destruct Ho. }
  assert (El : live !! path = None).
  { destruct (live !! path) as [o|] eqn:Eo; [|done]. apply Hl in Eo as (u & info & E' & _). congruence. }
  rewrite El. cbn [default]. unfold draw_uuid. cbn [git_root_cache insert_current insert_external].
  pose proof (snapshot_left d path (git_root_cache t) Hz) as Hs.
  destruct (take_snapshot sha1_hex d path (git_root_cache t)) as [cache info]. cbn [snd] in Hs.
  set (u := new_v4 (uuids_drawn t)).
  destruct (drawn_fresh t _ (Build_follows _ (live, covered) Hc Hk Hd Hl Hcov)) as (Hu & Hub & Hext). fold u in Hu, Hub, Hext.
  split; [|simpl; by rewrite lookup_insert_eq]. split; simpl.
  - intros p v. rewrite !lookup_insert_Some. intros [[<- <-]|[Hp Ev]]; [by left|]. right.
    split; [|by apply Hc]. intros <-. by apply (Hext p).
  - intros v. rewrite !lookup_insert_is_Some. rewrite Hk. done.
  - intros v. rewrite lookup_insert_is_Some. intros [<-|[_ Hv]]; [by exists (uuids_drawn t); split; [lia|]|].
    destruct (Hd v Hv) as (n & Hn & ->). exists n. split; [lia|done].
  - intros p o. rewrite lookup_insert_Some. split.
    + intros [[<- <-]|[Hp Ho]].
      * exists u, info. by rewrite !lookup_insert_eq.
      * apply Hl in Ho as (v & i & Ev & Ei & Eo). exists v, i.
        assert (u ≠ v) by (intros ->; by apply (Hext p)).
        by rewrite !lookup_insert_ne.
    + intros (v & i & Ev & Ei & Eo). apply lookup_insert_Some in Ev as [[<- <-]|[Hp Ev]].
      * left. rewrite lookup_insert_eq in Ei. injection Ei as <-. by rewrite <-Hs.
      * right. split; [done|]. apply Hl. exists v, i.
        rewrite lookup_insert_ne in Ei by (intros <-; by apply (Hext p)). done.
  - intros o p. rewrite Hcov. split.
    + intros (v & i & Ev & Hne & Ei & Eo). exists v, i.
      assert (v ≠ u) by (intros ->; congruence). rewrite !(lookup_insert_ne _ u) by done.
      split_and!; [done| |done|done]. intros Hx. apply lookup_insert_Some in Hx as [[_ ?]|[_ Hx]]; [congruence|by apply Hne].
    + intros (v & i & Ev & Hne & Ei & Eo). destruct (decide (v = u)) as [->|Hv].
      * exfalso. rewrite lookup_insert_eq in Ev. injection Ev as <-. apply Hne. by rewrite lookup_insert_eq.
      * rewrite lookup_insert_ne in Ev by done. rewrite lookup_insert_ne in Ei by done.
        exists v, i. split_and!; [done| |done|done].
        intros Hx. apply Hne. rewrite lookup_insert_ne; [done|]. intros <-. congruence.
Qed.

(** A file that is moved, maybe onto another one. *)
Lemma follows_moved path dest t live covered origin :
  follows t (live, covered) → live !! path = Some origin →
  follows (track_move new_v4 path dest t)
    (<[dest := origin]> (delete path live),
     match delete path live !! dest with Some old => (old, dest) :: covered | None => covered end).
Proof.
  intros [Hc Hk Hd Hl Hcov] Ho. simpl in Hl, Hcov. apply Hl in Ho as (u & info & Eu & Ei & Eo).
  pose proof (Hc _ _ Eu) as Hu. unfold track_move. rewrite Eu.
  assert (Hother : ∀ p v, external_to_temp_name t !! p = Some v → p ≠ path → v ≠ u)
    by (intros p v Ev Hp ->; apply Hc in Ev; congruence).
  split; simpl.
  - intros p v [[<- <-]|[Hp [Hq Ev]%lookup_delete_Some]]%lookup_insert_Some; [by rewrite lookup_insert_eq|].
    rewrite lookup_insert_ne; [by apply Hc|]. intros ->. by eapply Hother.
  - intros v. rewrite Hk, lookup_insert_is_Some. destruct (decide (u = v)) as [->|]; [|naive_solver].
    split; [by left|]. intros _. by eexists.
  - intros v. rewrite lookup_insert_is_Some. intros [<-|[_ Hv]]; [apply Hd; by eexists|by apply Hd].
  - intros p o. rewrite lookup_insert_Some, lookup_delete_Some. split.
    + intros [[<- <-]|(Hp & Hq & Hpo)]; [exists u, info; by rewrite lookup_insert_eq|].
      apply Hl in Hpo as (v & i & Ev & Hi & Hio). exists v, i. by rewrite lookup_insert_ne, lookup_delete_ne.
    + intros (v & i & [[<- <-]|[Hp [Hq Ev]%lookup_delete_Some]]%lookup_insert_Some & Hi & Hio).
      * left. split; [done|]. congruence.
      * right. split_and!; [done..|]. apply Hl. by exists v, i.
  - intros o p. assert (Hold : (o, p) ∈ match delete path live !! dest with Some old => (old, dest) :: covered | None => covered end
        ↔ (o, p) ∈ covered ∨ (p = dest ∧ path ≠ dest ∧ live !! dest = Some o)).
    { destruct (decide (path = dest)) as [->|Hne]; [rewrite lookup_delete_eq; naive_solver|].
      rewrite lookup_delete_ne by done. destruct (live !! dest) as [old|]; [rewrite elem_of_cons|]; naive_solver. }
    rewrite Hold, Hcov. split.
    + intros [(v & i & Ev & Hne & Hi & Hio)|(-> & Hne & (v & i & Ev & Hi & Hio)%Hl)]; exists v, i.
      * assert (Hv : u ≠ v) by (intros ->; congruence). rewrite lookup_insert_ne by done. split_and!; [done| |done|done].
        intros [[_ ?]|[_ [_ ?]%lookup_delete_Some]]%lookup_insert_Some; congruence.
      * assert (Hv : v ≠ u) by (by eapply Hother). rewrite lookup_insert_ne, lookup_insert_eq by done.
        split_and!; [by apply Hc|congruence|done|done].
    + intros (v & i & [[<- <-]|[Hv Ev]]%lookup_insert_Some & Hne & Hi & Hio); [by rewrite lookup_insert_eq in Hne|].
      destruct (decide (external_to_temp_name t !! p = Some v)) as [Hp|Hp]; [right|left; by exists v, i].
      destruct (decide (p = dest)) as [->|Hpd].
      * split_and!; [done|intros ->; congruence|]. apply Hl. by exists v, i.
      * exfalso. apply Hne. rewrite lookup_insert_ne, lookup_delete_ne; [done|intros ->; congruence|done].
Qed.

Lemma follows_change d t f entry :
  hashes_not_zero d → follows t f → follows (change_of d t entry) (follow d f entry).
Proof.
  intros Hz Hf. destruct f as [live covered], entry as [path change].
  destruct (follows_tracked d path t live covered Hz Hf) as [Ht _].
  destruct change as [| |? [dest|]]; [exact Ht..| |exact Ht]. simpl.
  pose proof (follows_moved path dest _ _ _ (default (first_bytes d path) (live !! path)) Ht) as Hm.
  by rewrite lookup_insert_eq, delete_insert_eq in Hm; auto.
Qed.

Lemma follows_patch d t f changes :
  hashes_not_zero d → follows t f → follows (begin d changes t) (foldl (follow d) f changes).
Proof.
  intros Hz. unfold on_patch_begin. revert t f. induction changes as [|c l IH]; intros t f Hf; [done|]. simpl.
  by apply IH, follows_change.
Qed.

(** *** What the diff shows *)

Definition blank (s : str) : Prop := Forall (λ c, is_whitespace c = true) s.

Lemma diff_text_not_blank info l r o m bytes : ¬ blank (diff_text unified_diff info l r o m bytes).
Proof. intros H. apply Forall_inv in H. by vm_compute in H. Qed.

Lemma push_section_blank aggregated section :
  blank (push_section aggregated section) ↔ blank aggregated ∧ blank section.
Proof.
  assert (H : blank (aggregated ++ section) ↔ blank aggregated ∧ blank section) by apply Forall_app.
  rewrite <-H. unfold push_section. destruct (ends_with _ _); [done|]. unfold blank at 1. rewrite Forall_app.
  split; [by intros [? _]|]. intros Hb. split; [done|]. by apply Forall_singleton.
Qed.

Lemma file_diff_blank d u t cache info path :
  baseline_file_info t !! u = Some info → temp_name_to_current_path t !! u = Some path →
  blank (get_file_diff sha1_hex unified_diff d u t cache).2 ↔ left_bytes info = current_bytes d path.
Proof.
  intros Ei Ep. unfold get_file_diff, get_path_for_internal. rewrite Ei, Ep. cbn [default from_option id].
  destruct (relative_to_git_root_str d (info_path info) cache) as [c1 l].
  destruct (relative_to_git_root_str d path c1) as [c2 r].
  destruct (current_oid sha1_hex d path (current_mode_of d path) (current_bytes d path) c2) as [c3 o].
  destruct (decide _) as [E|E]; simpl.
  - split; [done|]. intros _. by apply Forall_nil.
  - split; [|done]. intros H. by apply diff_text_not_blank in H.
Qed.

(** A followed file that is as it was. *)
Definition same_file d t (u : str) : Prop :=
  ∀ info path, baseline_file_info t !! u = Some info → temp_name_to_current_path t !! u = Some path →
    left_bytes info = current_bytes d path.

Lemma aggregate_blank d t names aggregated cache :
  Forall (λ u, is_Some (baseline_file_info t !! u) ∧ is_Some (temp_name_to_current_path t !! u)) names →
  blank (aggregate sha1_hex unified_diff d t names aggregated cache).2 ↔ blank aggregated ∧ Forall (same_file d t) names.
Proof.
  intros Hn. revert aggregated cache. induction Hn as [|u names [[info Ei] [path Ep]] Hn IH]; intros aggregated cache.
  { split; [intros H; split; [done|by apply Forall_nil]|by intros [? _]]. }
  cbn [aggregate]. pose proof (file_diff_blank d u t cache info path Ei Ep) as Hb.
  destruct (get_file_diff sha1_hex unified_diff d u t cache) as [c section]. rewrite IH, push_section_blank, Forall_cons.
  assert (Hs : same_file d t u ↔ blank section).
  { rewrite Hb. split; [by auto|]. intros E info' path'. rewrite Ei, Ep. by intros [= <-] [= <-]. }
  rewrite Hs. tauto.
Qed.

Lemma insert_by_display_perm a l : insert_by_display a l ≡ₚ a :: l.
Proof.
  induction l as [|b l IH]; [done|]. cbn [insert_by_display]. destruct (cmp a.1 b.1); [done|done|]. rewrite IH. apply Permutation_swap.
Qed.
Lemma sort_by_display_perm l : sort_by_display l ≡ₚ l.
Proof. induction l as [|a l IH]; simpl; [done|]. by rewrite insert_by_display_perm, IH. Qed.

Lemma sort_keys_names d t names cache : map snd (sort_keys d t names cache).2 = names.
Proof.
  revert cache. induction names as [|u names IH]; intros cache; [done|]. cbn [sort_keys].
  destruct (sort_key d t u cache) as [c key].
  specialize (IH c). destruct (sort_keys d t names c) as [c' keys]. simpl in *. by rewrite IH.
Qed.

Lemma diff_none d t f :
  follows t f → (diff d t).2 = None ↔ unchanged d f.
Proof.
  intros [Hc Hk Hd Hl Hcov]. unfold get_unified_diff.
  set (names := hash_order (map fst (map_to_list (baseline_file_info t)))).
  pose proof (sort_keys_names d t names (git_root_cache t)) as Ek.
  destruct (sort_keys d t names (git_root_cache t)) as [cache keys]. simpl in Ek.
  set (sorted := map snd (sort_by_display keys)).
  assert (Hin : ∀ u, u ∈ sorted ↔ is_Some (baseline_file_info t !! u)).
  { intros u. assert (Hp : sorted ≡ₚ map fst (map_to_list (baseline_file_info t)))
      by (unfold sorted; rewrite sort_by_display_perm, Ek; apply hash_order_perm).
    rewrite Hp, list_elem_of_fmap. split.
    - intros ([v info] & -> & Hv%elem_of_map_to_list). by eexists.
    - intros [info Hi]. exists (u, info). split; [done|]. by apply elem_of_map_to_list. }
  pose proof (aggregate_blank d t sorted [] cache) as Ha.
  destruct (aggregate sha1_hex unified_diff d t sorted [] cache) as [c text]. cbn [snd] in Ha |- *.
  assert (Hsame : blank text ↔ ∀ u, same_file d t u).
  { rewrite Ha.
    - rewrite Forall_forall. split.
      + intros [_ H] u info path Hi. apply H; [|done]. apply Hin. by eexists.
      + intros H. split; [by apply Forall_nil|auto].
    - apply Forall_forall. intros u Hu%Hin. split; [done|]. by apply Hk. }
  assert (Hnone : (if decide (trim text = []) then None else Some text) = None ↔ blank text).
  { unfold blank. rewrite <-trim_nil_iff. by destruct (decide _). }
  rewrite Hnone, Hsame. unfold same_file, unchanged. split.
  - intros H. split.
    + intros path origin (u & info & Eu & Ei & <-)%Hl. by eapply H; [|apply Hc].
    + intros origin path (u & info & Eu & _ & Ei & <-)%Hcov. by eapply H.
  - intros [H1 H2] u info path Ei Eu.
    destruct (decide (external_to_temp_name t !! path = Some u)) as [E|E].
    + apply H1. apply Hl. by exists u, info.
    + apply H2. apply Hcov. by exists u, info.
Qed.

(** C24. The diff of a turn shows what became of the files it follows.  A file is
    followed from the first patch that names it as the path of a change, and
    through the renames of later changes; a file that a rename overwrites is
    followed only if it was before, and one that exists but cannot be read
    counts as empty when it is first seen.  Whatever patches a turn begins, and
    whatever happens to the disk in between, the diff is empty exactly when
    every followed file holds what it held when it was first seen; each is
    compared with itself, however the identifiers are drawn and the maps are
    ordered (identifiers are not drawn twice and no hash is that of a missing
    file). *)
Theorem turn_diff_shows_changes d patches :
  Forall (λ patch, hashes_not_zero patch.1) patches →
  (diff d (foldl (λ t patch, begin patch.1 patch.2 t) new_tracker patches)).2 = None ↔
  unchanged d (follow_turn patches).
Proof.
  intros Hp. apply diff_none. unfold follow_turn.
  assert (H : ∀ t f, follows t f →
    follows (foldl (λ t patch, begin patch.1 patch.2 t) t patches)
      (foldl (λ f patch, foldl (follow patch.1) f patch.2) f patches)).
  { induction Hp as [|[d0 changes] l Hz _ IH]; intros t f Hf; [done|]. simpl. apply IH. by apply follows_patch. }
  apply H, follows_new.
Qed.

(** The diff depends on the order of a hash map.  When one patch renames [b] to
    [c] and [a] to [b], nothing is left to show after both renames if [b] comes
    first; if [a] comes first, [b] is taken for the renamed [a], no snapshot is
    made of it, and [a] is shown as renamed to [c] with the text of [b]. *)
Theorem rename_chain_depends_on_order d0 d a b c text_a text_b :
  hashes_not_zero d0 → a ≠ b → b ≠ c → a ≠ c → text_a ≠ text_b →
  first_bytes d0 a = Some text_a → first_bytes d0 b = Some text_b →
  current_bytes d b = Some text_a → current_bytes d c = Some text_b →
  let a_to_b := (a, ChangeUpdate [] (Some b)) in
  let b_to_c := (b, ChangeUpdate [] (Some c)) in
  (diff d (begin d0 [b_to_c; a_to_b] new_tracker)).2 = None ∧
  (diff d (begin d0 [a_to_b; b_to_c] new_tracker)).2 ≠ None.
Proof.
  intros Hz Hab Hbc Hac Ht Ha Hb Db Dc. cbv zeta. set (a_to_b := (a, _)). set (b_to_c := (b, _)).
  assert (F1 : foldl (follow d0) (∅, []) [b_to_c; a_to_b] = (<[b := Some text_a]> (<[c := Some text_b]> ∅), [])).
  { cbn [foldl follow b_to_c a_to_b]. rewrite !lookup_empty, delete_empty. cbn [default from_option id].
    rewrite lookup_empty, (lookup_insert_ne _ c a), lookup_empty by done. cbn [default from_option id].
    rewrite delete_insert_ne, delete_empty by done. by rewrite Ha, Hb, lookup_insert_ne, lookup_empty. }
  assert (F2 : foldl (follow d0) (∅, []) [a_to_b; b_to_c] = (<[c := Some text_a]> ∅, [])).
  { cbn [foldl follow b_to_c a_to_b]. rewrite !lookup_empty, delete_empty. cbn [default from_option id].
    rewrite lookup_insert_eq, delete_insert_eq, delete_empty, !lookup_empty. cbn [default from_option id]. by rewrite Ha. }
  split.
  - apply (diff_none d _ _ (follows_patch d0 _ _ _ Hz follows_new)). rewrite F1.
    split; [|by intros ? ? ?%elem_of_nil]. intros p o. cbn [fst].
    rewrite !lookup_insert_Some, lookup_empty. by intros [[<- <-]|[_ [[<- <-]|[_ ?]]]].
  - rewrite (diff_none d _ _ (follows_patch d0 _ _ _ Hz follows_new)), F2. intros [H _].
    specialize (H c (Some text_a)). cbn [fst] in H. rewrite lookup_insert_eq in H.
    specialize (H eq_refl). rewrite Dc in H. by injection H.
Qed.

(** A file that cannot be read is shown as changed when nothing has happened:
    its snapshot is empty, while the file itself reads as missing. *)
Theorem unreadable_file_is_shown d path change :
  hashes_not_zero d → path_exists d path = true → current_bytes d path = None →
  (∀ text dest, change ≠ ChangeUpdate text (Some dest)) →
  (diff d (begin d [(path, change)] new_tracker)).2 ≠ None.
Proof.
  intros Hz He Hn Hc.
  rewrite (diff_none d _ _ (follows_patch d _ _ _ Hz follows_new)).
  assert (E : foldl (follow d) (∅, []) [(path, change)] = (<[path := Some []]> ∅, [])).
  { cbn [foldl]. unfold follow. rewrite lookup_empty. unfold first_bytes. rewrite He, Hn.
    destruct change as [| |text [dest|]]; [done|done|by destruct (Hc text dest)|done]. }
  rewrite E. intros [H _]. specialize (H path (Some [])). cbn [fst] in H. rewrite lookup_insert_eq in H.
  specialize (H eq_refl). by rewrite Hn in H.
Qed.
End following.

(** ** Example *)

(** A turn with two patches: a rename with a change, and then a file that is
    made and deleted again. *)
Definition demo_disk (files : list (string * string)) : Disk :=
  let entry p := List.find (λ f, bool_decide (lit f.1 = p)) files in
  mkDisk (λ p, bool_decide (entry p ≠ None)) (λ p, (λ _, (false, 420%N)) <$> entry p)
    (λ p, (λ f, encode (lit f.2)) <$> entry p) (λ _, None) (λ p, bool_decide (p = lit "/w/.git")) (λ _, false)
    (λ _ _, None).
Definition demo_sha1 (_ : list N) : str := lit "1111111111111111111111111111111111111111".
Definition demo_unified (l r old new : str) : str :=
  lit "--- " ++ old ++ [c_nl] ++ lit "+++ " ++ new ++ [c_nl] ++ lit "-" ++ l ++ [c_nl] ++ lit "+" ++ r ++ [c_nl].
Definition demo_uuid (n : nat) : str := [N.of_nat n].

Definition demo_patches : list (Disk * list (str * FileChange)) :=
  [(demo_disk [("/w/a", "one")]%string, [(lit "/w/a", ChangeUpdate [] (Some (lit "/w/b")))]);
   (demo_disk [("/w/b", "two")]%string, [(lit "/w/new", ChangeAdd (lit "text"))])].
Definition demo_turn : TurnDiffTracker :=
  foldl (λ t patch, on_patch_begin demo_sha1 demo_uuid patch.1 patch.2 t) new_tracker demo_patches.

Example demo_diff :
  (get_unified_diff demo_sha1 demo_unified id (demo_disk [("/w/b", "two")]%string) demo_turn).2 =
    Some (lit "diff --git a/a b/b" ++ [c_nl] ++ lit "index 1111111111111111111111111111111111111111..1111111111111111111111111111111111111111" ++ [c_nl] ++
          lit "--- a/a" ++ [c_nl] ++ lit "+++ b/b" ++ [c_nl] ++ lit "-one" ++ [c_nl] ++ lit "+two" ++ [c_nl]).
Proof. vm_compute. reflexivity. Qed.

Lemma turn_diff_shows_changes_witness :
  (get_unified_diff demo_sha1 demo_unified id (demo_disk [("/w/b", "one")]%string) demo_turn).2 = None ∧
  (get_unified_diff demo_sha1 demo_unified id (demo_disk [("/w/b", "two")]%string) demo_turn).2 ≠ None.
Proof.
  assert (Hu : ∀ n m, demo_uuid n = demo_uuid m → n = m) by (intros n m H; injection H; lia).
  assert (Hs : ∀ bytes, demo_sha1 bytes ≠ ZERO_OID) by (by intros).
  assert (Hz : Forall (λ patch, hashes_not_zero patch.1) demo_patches)
    by (by repeat first [apply Forall_nil_2 | apply Forall_cons_2]).
  pose proof (λ d, turn_diff_shows_changes demo_sha1 demo_unified demo_uuid id Hu (λ l, Permutation_refl l) Hs d
    demo_patches Hz) as H.
  split; [apply H|by vm_compute].
  split; [|by intros ? ? ?%elem_of_nil]. intros path origin Hp%elem_of_map_to_list. revert Hp.
  vm_compute (map_to_list _). rewrite !elem_of_cons, elem_of_nil.
  intros [[= -> ->]|[[= -> ->]|[]]]; by vm_compute.
Defined.
