(* ===== verification/ShellHandler.v ===== *)
(** * The shell tools: [core/src/tools/handlers/shell.rs], [core/src/shell.rs]

    The four tools that run a command build its parameters and go through
    [run_exec_like]: permissions are merged with what was granted and
    validated ([GrantedPermissions]), a patch in the command is taken over by
    the patch tool ([PatchHandler]), the exec policy gives the requirement
    ([ExecApproval]), and the orchestrator runs the shell runtime
    ([Orchestrator], [ToolRuntimes]).

    Parameters: the decoding of the arguments, the features and settings of
    the session, and those of the parts.  Timeouts, the capture policy and the
    Windows settings of a command only matter for its execution and are left
    out, as are the events for the user interface. *)
From S2P Require Import Prelude RustStr AbsolutePath FileSystem ApplyPatch Invocation Ordering Paths ExecPolicy ShellTree CommandSafety Permissions SandboxRoots PermissionProfile PolicyTransforms ExecApproval GrantedPermissions NetworkApproval PatchSafety ShellEnvironment SandboxManager Truncate Orchestrator ToolRuntimes ToolOutput PatchHandler.

(** ** Parameters of a command *)

Record Shell := mkShell { shell_type : ShellType; shell_path : str }.

Definition derive_exec_args (shell : Shell) (command : str) (use_login_shell : bool) : list str :=
  match shell_type shell with
  | Zsh | Bash | Sh => [shell_path shell; lit (if use_login_shell then "-lc" else "-c"); command]
  | ShellTree.PowerShell =>
      [shell_path shell] ++ (if use_login_shell then [] else [lit "-NoProfile"]) ++ [lit "-Command"; command]
  | ShellTree.Cmd => [shell_path shell; lit "/c"; command]
  end.

Record ExecParams := mkExecParams {
  ep_command : list str;
  ep_cwd : str;
  ep_env : gmap str str;
  ep_network : option str;
  ep_sandbox_permissions : SandboxPermissions;
  ep_justification : option str
}.

Record ShellCommandToolCallParams := mkShellCommandParams {
  sc_command : str;
  sc_workdir : option str;
  sc_login : option bool;
  sc_timeout_ms : option N;
  sc_sandbox_permissions : option SandboxPermissions;
  sc_prefix_rule : option (list str);
  sc_additional_permissions : option AdditionalPermissionProfile;
  sc_justification : option str
}.

(** Settings of the session and the turn that only the handlers read. *)
Record ShellSettings := mkShellSettings {
  exec_permission_approvals_enabled : bool;
  request_permissions_tool_enabled : bool;
  allow_login_shell : bool;
  dependency_env : gmap str str;
  base_env : gmap str str;
  user_shell : Shell;
  output_policy : TruncationPolicy
}.

Section params.
Context (home_dir : option str).

(** [TurnContext::resolve_path] *)
Definition resolve_path (turn : ToolTurn) (path : option str) : str :=
  match path with Some path => abs_join home_dir (turn_cwd turn) path | None => turn_cwd turn end.

(** [env] is what [create_env] gives for the turn. *)
Definition to_exec_params (params : ShellToolCallParams) (turn : ToolTurn) (env : gmap str str) : ExecParams :=
  mkExecParams (shell_command params) (resolve_path turn (shell_workdir params)) env (turn_network turn)
    (default UseDefault (shell_sandbox_permissions params)) (shell_justification params).

Definition resolve_use_login_shell (login : option bool) (allow_login_shell : bool)
    : Res FunctionCallError bool :=
  if negb allow_login_shell && bool_decide (login = Some true)
  then Err (RespondToModel (lit "login shell is disabled by config; omit `login` or set it to false."))
  else Ok (default allow_login_shell login).

Definition shell_command_exec_params (params : ShellCommandToolCallParams) (shell : Shell) (turn : ToolTurn)
    (env : gmap str str) (allow_login_shell : bool) : Res FunctionCallError ExecParams :=
  use_login_shell ← resolve_use_login_shell (sc_login params) allow_login_shell;
  Ok (mkExecParams (derive_exec_args shell (sc_command params) use_login_shell)
        (resolve_path turn (sc_workdir params)) env (turn_network turn)
        (default UseDefault (sc_sandbox_permissions params)) (sc_justification params)).
End params.

(** ** Running a command *)
Section handler.
Context (env : Env) (os : TargetOs) (build_glob_matcher : str → option (str → bool)).
Context (uuid : nat → str) (hooks : list Event → str → str → option PermissionRequestDecision).
Context (rejection : list Event → str) (timeout : str).
Context `{!ToolRuntime ApplyPatchRequest ExecToolCallOutput} `{!ToolRuntime ShellRequest ExecToolCallOutput}.
Context (query_matches : str → Res ExtractHeredocError (list (list capture))).
Context (text_diff : str → str → nat → str).
Context {FS Sandbox : Type} `{!ExecutorFileSystem FS Sandbox}.
Context (duration_seconds : N → str) (exec_output_json : str → Z → str → str) (debug_error : CodexErr → str).
Context {MM : Type → Type} `{!MultiMap MM}.
Context (try_parse_shell : str → option Node).
Context (parse_with_powershell_ast : str → str → PowershellParseOutcome).
Context (shlex_try_join : list str → option str).
(** Decoding of arguments: the working directory alone, and all of them
    against a base path. *)
Context (parse_workdir : str → Res str (option str)).
Context (parse_shell_params : str → str → Res str ShellToolCallParams).
Context (parse_shell_command_params : str → str → Res str ShellCommandToolCallParams).

Definition shlex_join (tokens : list str) : str :=
  default (lit "<command included NUL byte>") (shlex_try_join tokens).

Definition escalation_refused (policy : AskForApproval) : str :=
  lit "approval policy is " ++ debug_policy policy ++
  lit "; reject command — you should not ask for escalated permissions if the approval policy is " ++
  debug_policy policy.

(** What the exec policy is asked about a command. *)
Definition exec_approval_request (turn : ToolTurn) (command : list str)
    (effective : EffectiveAdditionalPermissions) (prefix_rule : option (list str)) : ExecApprovalRequest :=
  mkRequest command (ctx_approval_policy (turn_context turn)) (ctx_permission_profile (turn_context turn))
    (turn_file_system_policy turn)
    (if permissions_preapproved effective then UseDefault else eff_sandbox_permissions effective) prefix_rule.

Definition run_exec_like (g : Grants) (turn : ToolTurn) (settings : ShellSettings)
    (exec_policy : Policy MM PrefixRule) (fs : option (FS * option Sandbox)) (tool_name : str)
    (exec_params : ExecParams) (hook_command : str) (additional_permissions : option AdditionalPermissionProfile)
    (prefix_rule : option (list str)) (call_id turn_id : str) (freeform : bool)
    : Eff Session FunctionCallError str :=
  let policy := ctx_approval_policy (turn_context turn) in
  match fs with
  | None => lift (Err (RespondToModel (lit "shell is unavailable in this session")))
  | Some (fs, sandbox) =>
      let env_vars := dependency_env settings ∪ ep_env exec_params in
      let effective := apply_granted_turn_permissions env build_glob_matcher g (turn_cwd turn)
                         (ep_sandbox_permissions exec_params) additional_permissions in
      let additional_permissions_allowed :=
        exec_permission_approvals_enabled settings ||
        (request_permissions_tool_enabled settings && permissions_preapproved effective) in
      normalized ← lift (map_err RespondToModel
        (match implicit_granted_permissions (ep_sandbox_permissions exec_params) additional_permissions effective with
         | Some permissions => Ok (Some permissions)
         | None =>
             normalize_and_validate_additional_permissions env additional_permissions_allowed policy
               (eff_sandbox_permissions effective) (eff_additional_permissions effective)
               (permissions_preapproved effective)
         end));
      if requests_sandbox_override (eff_sandbox_permissions effective) &&
         negb (permissions_preapproved effective) &&
         match policy with OnRequest => false | _ => true end
      then lift (Err (RespondToModel (escalation_refused policy)))
      else
        intercepted ← intercept_apply_patch env os build_glob_matcher uuid hooks rejection timeout query_matches
          text_diff duration_seconds exec_output_json debug_error g turn (output_policy settings)
          (ep_command exec_params) (ep_cwd exec_params) fs sandbox call_id turn_id tool_name;
        match intercepted with
        | Some output => mret output
        | None =>
            requirement ← lift (infallible (create_exec_approval_requirement_for_command (home_dir env)
              (current_dir env) try_parse_shell parse_with_powershell_ast shlex_try_join exec_policy
              (exec_approval_request turn (ep_command exec_params) effective prefix_rule)));
            let req := mkShellRequest (ep_command exec_params) hook_command (ep_cwd exec_params) env_vars
                         (ep_network exec_params) (eff_sandbox_permissions effective) normalized
                         (ep_justification exec_params) requirement in
            out ← observe (run os uuid hooks rejection timeout req call_id turn_id turn policy);
            lift (finish duration_seconds exec_output_json debug_error (EmitShell freeform)
                    (output_policy settings) (fst <$> out))
        end
  end.

(** ** The four tools *)

Definition parse_error (err : str) : FunctionCallError :=
  RespondToModel (lit "failed to parse function arguments: " ++ err).

Definition resolve_workdir_base_path (arguments default_cwd : str) : Res FunctionCallError str :=
  workdir ← map_err parse_error (parse_workdir arguments);
  Ok (match workdir with
      | Some (_ :: _ as workdir) => abs_join (home_dir env) default_cwd workdir
      | _ => default_cwd
      end).

(** [shell] and [container.exec], which differ in the name. *)
Definition handle_shell (tool_name : str) (g : Grants) (turn : ToolTurn) (settings : ShellSettings)
    (exec_policy : Policy MM PrefixRule) (fs : option (FS * option Sandbox)) (call_id turn_id : str)
    (payload : ToolPayload) : Eff Session FunctionCallError str :=
  match payload with
  | FunctionPayload arguments =>
      cwd ← lift (resolve_workdir_base_path arguments (turn_cwd turn));
      params ← lift (map_err parse_error (parse_shell_params arguments cwd));
      run_exec_like g turn settings exec_policy fs tool_name
        (to_exec_params (home_dir env) params turn (base_env settings)) (shlex_join (shell_command params))
        (shell_additional_permissions params) (shell_prefix_rule params) call_id turn_id false
  | _ => lift (Err (RespondToModel (lit "unsupported payload for " ++ tool_name ++ lit " handler")))
  end.

Definition handle_local_shell (g : Grants) (turn : ToolTurn) (settings : ShellSettings)
    (exec_policy : Policy MM PrefixRule) (fs : option (FS * option Sandbox)) (call_id turn_id : str)
    (payload : ToolPayload) : Eff Session FunctionCallError str :=
  match payload with
  | LocalShellPayload params =>
      run_exec_like g turn settings exec_policy fs (lit "local_shell")
        (to_exec_params (home_dir env) params turn (base_env settings)) (shlex_join (shell_command params))
        None None call_id turn_id false
  | _ => lift (Err (RespondToModel (lit "unsupported payload for local_shell handler")))
  end.

Definition handle_shell_command (g : Grants) (turn : ToolTurn) (settings : ShellSettings)
    (exec_policy : Policy MM PrefixRule) (fs : option (FS * option Sandbox)) (call_id turn_id : str)
    (payload : ToolPayload) : Eff Session FunctionCallError str :=
  match payload with
  | FunctionPayload arguments =>
      cwd ← lift (resolve_workdir_base_path arguments (turn_cwd turn));
      params ← lift (map_err parse_error (parse_shell_command_params arguments cwd));
      exec_params ← lift (shell_command_exec_params (home_dir env) params (user_shell settings) turn
                            (base_env settings) (allow_login_shell settings));
      run_exec_like g turn settings exec_policy fs (lit "shell_command") exec_params (sc_command params)
        (sc_additional_permissions params) (sc_prefix_rule params) call_id turn_id true
  | _ => lift (Err (RespondToModel (lit "unsupported payload for shell_command handler: shell_command")))
  end.

(** [is_mutating]: whether a call may change something, so that it does not
    run beside others. *)
Definition is_mutating_command (command : list str) : Total bool :=
  negb <$> is_known_safe_command try_parse_shell parse_with_powershell_ast command.

Definition shell_is_mutating (base : str) (payload : ToolPayload) : Total bool :=
  match payload with
  | FunctionPayload arguments =>
      match parse_shell_params arguments base with
      | Ok params => is_mutating_command (shell_command params)
      | _ => Ok true
      end
  | _ => Ok true
  end.

Definition local_shell_is_mutating (payload : ToolPayload) : Total bool :=
  match payload with
  | LocalShellPayload params => is_mutating_command (shell_command params)
  | _ => Ok true
  end.

Definition shell_command_is_mutating (base : str) (settings : ShellSettings) (payload : ToolPayload)
    : Total bool :=
  match payload with
  | FunctionPayload arguments =>
      match parse_shell_command_params arguments base with
      | Ok params =>
          match resolve_use_login_shell (sc_login params) (allow_login_shell settings) with
          | Ok use_login_shell =>
              is_mutating_command (derive_exec_args (user_shell settings) (sc_command params) use_login_shell)
          | _ => Ok true
          end
      | _ => Ok true
      end
  | _ => Ok true
  end.
End handler.
