(* ===== verification/ShellHandlerProofs.v ===== *)
(** * What the shell tools guarantee

    The composition of the parts: whatever a shell tool is called with, a
    command runs outside of the sandbox only for one of five reasons. *)
From S2P Require Import Prelude RustStr AbsolutePath FileSystem ApplyPatch Invocation Ordering Paths ExecPolicy ExecPolicyProofs PolicyParser ShellTree CommandSafety Permissions SandboxRoots PermissionsProofs PermissionProfile PolicyTransforms ExecApproval ExecApprovalProofs GrantedPermissions NetworkApproval PatchSafety ShellEnvironment SandboxManager Truncate Orchestrator ToolRuntimes OrchestratorProofs ToolOutput PatchHandler PatchHandlerProofs ShellHandler.

Section shell.
Context (env : Env) (os : TargetOs) (build_glob_matcher : str → option (str → bool)).
Context (uuid : nat → str) (hooks : list Event → str → str → option PermissionRequestDecision).
Context (rejection : list Event → str) (timeout : str).
Context (try_parse_shell : str → option Node) (to_lowercase : str → str).
Context (guardian_answer user_answer : list Event → option str → ReviewDecision).
Context (shell_key_json : ShellApprovalKey → option str) (path_json : str → option str).
Context (permission_profile_json : PermissionProfile → str) (is_wsl1 : bool) (wsl1_warning : str).
Context (maybe_wrap_shell_lc_with_snapshot : list str → str → gmap str str → list str) (is_powershell : bool).
Context (execute : list Event → SandboxExecRequest → NetworkApprovalService →
           NetworkApprovalService * Res ToolErr ExecToolCallOutput).
Context (backend : ShellRuntimeBackend).
Context (maybe_run_shell_command : ShellRequest → SandboxAttempt → list str → list Event →
           NetworkApprovalService → NetworkApprovalService * Res ToolErr (option ExecToolCallOutput)).
Context (apply_patch_in : list Event → ApplyPatchRequest → option FileSystemSandboxContext → bool * str * str * N).
Context (query_matches : str → Res ExtractHeredocError (list (list capture))).
Context (text_diff : str → str → nat → str).
Context {FS Sandbox : Type} `{!ExecutorFileSystem FS Sandbox}.
Context (duration_seconds : N → str) (exec_output_json : str → Z → str → str) (debug_error : CodexErr → str).
Context {MM : Type → Type} `{!MultiMap MM} `{!MultiMapLaws MM}.
Context (parse_with_powershell_ast : str → str → PowershellParseOutcome).
Context (shlex_try_join : list str → option str).
Context (Hcd : no_panic (current_dir env)).
Context (parser_law : ∀ src root, try_parse_shell src = Some root → tree_of src root).
#[local] Set Default Proof Using "Type*".

Local Abbreviation patch_runtime :=
  (ApplyPatchRuntime to_lowercase guardian_answer user_answer path_json apply_patch_in).
Local Abbreviation shell_runtime :=
  (ShellRuntime try_parse_shell guardian_answer user_answer shell_key_json permission_profile_json is_wsl1
     wsl1_warning maybe_wrap_shell_lc_with_snapshot is_powershell execute backend maybe_run_shell_command).
Local Abbreviation run_command := (run_exec_like env os build_glob_matcher uuid hooks rejection timeout
  (ToolRuntime0 := patch_runtime) (ToolRuntime1 := shell_runtime) query_matches text_diff duration_seconds
  exec_output_json debug_error try_parse_shell parse_with_powershell_ast shlex_try_join).
Local Abbreviation rule_matches := (rule_matches_of (home_dir env) (current_dir env)).
Local Abbreviation effective_for g turn exec_params additional :=
  (apply_granted_turn_permissions env build_glob_matcher g (turn_cwd turn) (ep_sandbox_permissions exec_params)
     additional).

(** The command is a patch. *)
Definition is_patch (fs : option (FS * option Sandbox)) (exec_params : ExecParams) (action : ApplyPatchAction) : Prop :=
  ∃ fs' sandbox, fs = Some (fs', sandbox) ∧
    maybe_parse_apply_patch_verified query_matches text_diff (home_dir env) sandbox
      (ep_command exec_params) (ep_cwd exec_params) fs' = Ok (VerifiedBody action).

(** The keys that stand for the call: those of the command, in its directory
    and with its permissions, or of the files of the patch it is. *)
Definition keys_of_call g turn fs exec_params additional (keys : list (option str)) : Prop :=
  (∃ normalized, keys = [shell_key_json (mkShellKey
     (canonicalize_command_for_approval try_parse_shell (ep_command exec_params)) (ep_cwd exec_params)
     (eff_sandbox_permissions (effective_for g turn exec_params additional)) normalized)]) ∨
  ∃ action, is_patch fs exec_params action ∧ keys = patch_keys env path_json action.

Local Abbreviation shape_of_patch := (run_shape os (ToolRuntime0 := patch_runtime) ap_permissions_preapproved).
Local Abbreviation shape_of_command := (run_shape os (ToolRuntime0 := shell_runtime) never_waived).

(** What may be in the trace of a call: nothing, the warning and the events of
    a patch, or those of the command, which was not refused for escalating. *)
Definition patch_events g turn fs exec_params (past rest : list Event) : Prop :=
  ∃ action, is_patch fs exec_params action ∧
    (rest = [] ∨
     let '(file_paths, effective, p) := effective_patch_permissions env build_glob_matcher g turn action in
     ∃ apply, core_apply_patch env os turn p action = DelegateToRuntime apply ∧
       shape_of_patch (patch_request apply file_paths effective) turn (ctx_approval_policy (turn_context turn))
         past rest).

Definition shell_events g turn (exec_policy : Policy MM PrefixRule) exec_params additional prefix_rule
    (past es : list Event) : Prop :=
  let policy := ctx_approval_policy (turn_context turn) in
  let effective := effective_for g turn exec_params additional in
  let request := exec_approval_request turn (ep_command exec_params) effective prefix_rule in
  ∃ req, shape_of_command req turn policy past es ∧
    sh_command req = ep_command exec_params ∧ sh_cwd req = ep_cwd exec_params ∧
    sh_sandbox_permissions req = eff_sandbox_permissions effective ∧
    create_exec_approval_requirement_for_command (home_dir env) (current_dir env) try_parse_shell
      parse_with_powershell_ast shlex_try_join exec_policy request = Ok (sh_requirement req) ∧
    (requests_sandbox_override (eff_sandbox_permissions effective) = true →
     permissions_preapproved effective = false → policy = OnRequest).

Definition command_events g turn exec_policy fs exec_params additional prefix_rule (past es : list Event) : Prop :=
  es = [] ∨
  (∃ message rest, es = ModelWarning message :: rest ∧
     patch_events g turn fs exec_params (past ++ [ModelWarning message]) rest) ∨
  shell_events g turn exec_policy exec_params additional prefix_rule past es.

Lemma command_trace g turn settings exec_policy fs tool_name exec_params hook_command additional prefix_rule
    call_id turn_id freeform s :
  approvals_asked s →
  ∃ es, trace (run_command g turn settings exec_policy fs tool_name exec_params hook_command additional
                 prefix_rule call_id turn_id freeform s).1 = trace s ++ es ∧
    command_events g turn exec_policy fs exec_params additional prefix_rule (trace s) es.
Proof.
  intros Hs.
  assert (Hnone : ∀ s', trace s' = trace s → ∃ es, trace s' = trace s ++ es ∧
    command_events g turn exec_policy fs exec_params additional prefix_rule (trace s) es).
  { intros s' E. exists []. rewrite app_nil_r. split; [done|by left]. }
  unfold run_exec_like. destruct fs as [[fs sandbox]|]; [|by apply Hnone].
  unfold mbind, Eff_bind, lift. 
  destruct (map_err RespondToModel _) as [normalized|e|p]; [|by apply Hnone..].
  destruct (_ && _ && _) eqn:Hguard; [by apply Hnone|].
  unfold intercept_apply_patch, mbind, Eff_bind, lift.
  destruct (infallible (maybe_parse_apply_patch_verified _ _ _ _ _ _ _)) as [[action|e|e|]|e|p] eqn:Hparse;
    try by apply Hnone.
  { unfold observe, emit at 1. cbv beta iota zeta.
    set (message := lit "apply_patch was requested via " ++ _).
    set (s' := mkSession _ _ _ _).
    destruct (run_patch_shape env os build_glob_matcher uuid hooks rejection timeout to_lowercase
      guardian_answer user_answer path_json apply_patch_in duration_seconds exec_output_json debug_error
      g turn (output_policy settings) call_id turn_id action s') as (es & E & Hes).
    { by apply (approvals_asked_grow s _ [ModelWarning message]). }
    exists (ModelWarning message :: es). split.
    - destruct (run_verified_patch _ _ _ _ _ _ _ _ _ _ _ _ _ _ _ _ s') as [s1 [out|e|p]]; simpl in *;
        by rewrite E, <-app_assoc.
    - right; left. exists message, es. split; [done|]. exists action. split; [|exact Hes].
      exists fs, sandbox. split; [done|].
      destruct (maybe_parse_apply_patch_verified _ _ _ _ _ _ _) as [v|[]|p]; [|done]. by injection Hparse as ->. }
  all: unfold mret, Eff_ret; cbv beta iota.
  all: destruct (create_exec_approval_requirement_for_command _ _ _ _ _ _ _) as [requirement|x|x] eqn:Hreq;
    [|by destruct x|by apply Hnone]; cbn [infallible map_err].
  all: match goal with |- context [mkShellRequest ?a ?b ?c ?d ?e ?f ?g ?h ?i] =>
         set (req := mkShellRequest a b c d e f g h i) end.
  all: destruct (run_produces os uuid hooks rejection timeout never_waived (ToolRuntime0 := shell_runtime) (trace s)
         req call_id turn_id turn (ctx_approval_policy (turn_context turn)) s eq_refl Hs) as (es & E & _ & Hsh & _).
  all: exists es; split; [unfold observe; destruct (run _ _ _ _ _ _ _ _ _ _ s) as [s1 r]; exact E|].
  all: right; right; exists req; split; [exact Hsh|]; do 4 (split; [done|]).
  all: intros Hover Hpre; rewrite Hover, Hpre in Hguard; simpl in Hguard;
    by destruct (ctx_approval_policy (turn_context turn)).
Qed.

(** The turn confines nothing: no managed network, and a policy that is left to
    an outer sandbox or that opens the network and every path. *)
Definition open_turn (turn : ToolTurn) : Prop :=
  turn_network turn = None ∧
  (kind (turn_file_system_policy turn) = ExternalSandboxKind ∨
   net_is_enabled (turn_network_policy turn) = true ∧
   ∀ path, resolve_access_with_cwd env (turn_file_system_policy turn) path (turn_cwd turn) = AccessWrite).

(** Every command of the request is matched by rules, and all of them allow. *)
Definition allowed_by_rules (exec_policy : Policy MM PrefixRule) (request : ExecApprovalRequest) : Prop :=
  ∃ cs, commands_for_exec_policy try_parse_shell (req_command request) = Ok cs ∧
    ∀ cmd, cmd ∈ commands cs → rule_matches exec_policy cmd ≠ [] ∧
      ∀ m, m ∈ rule_matches exec_policy cmd → match_decision m = Allow.

(** Every command is allowed by its rules or, without one, fit to run
    unattended. *)
Definition runs_unasked (exec_policy : Policy MM PrefixRule) (request : ExecApprovalRequest) : Prop :=
  ∃ cs, commands_for_exec_policy try_parse_shell (req_command request) = Ok cs ∧
    ∀ cmd, cmd ∈ commands cs →
      (∀ m, m ∈ rule_matches exec_policy cmd → match_decision m = Allow) ∧
      (rule_matches exec_policy cmd = [] →
         runs_unattended try_parse_shell parse_with_powershell_ast request (used_complex_parsing cs) cmd).

Definition confinable (turn : ToolTurn) : Prop :=
  is_absolute (turn_cwd turn) = true ∧ policy_wf (turn_file_system_policy turn) ∧
  is_dir env (lit "/tmp") = true ∧ is_Some (get_platform_sandbox os (windows_enabled (turn_windows_level turn))).

Lemma selected_open turn :
  confinable turn →
  select_initial os (turn_file_system_policy turn) (turn_network_policy turn) Auto (turn_windows_level turn)
    (bool_decide (is_Some (turn_network turn))) = SandboxNone →
  open_turn turn.
Proof using.
  intros (Hc & Hwf & Htmp & Hos) Hsel%select_initial_none; [|done].
  assert (H := λ path, platform_sandbox_not_required env _ _ _ path (turn_cwd turn) Hc Hwf Htmp Hsel).
  destruct (H []) as [Hn H0]. apply bool_decide_eq_false in Hn. split; [by apply eq_None_not_Some|].
  assert (Hd : kind (turn_file_system_policy turn) = ExternalSandboxKind ∨
               kind (turn_file_system_policy turn) ≠ ExternalSandboxKind).
  { destruct (kind _); [by right|by right|by left]. }
  destruct Hd as [|Hk]; [by left|right].
  split; [by destruct H0 as [|[? _]]|]. intros path. by destruct (H path) as [_ [|[_ ?]]].
Qed.

Lemma escalated_not_preapproved g turn exec_params additional :
  eff_sandbox_permissions (effective_for g turn exec_params additional) = RequireEscalated →
  ep_sandbox_permissions exec_params = RequireEscalated ∧
  permissions_preapproved (effective_for g turn exec_params additional) = false.
Proof using.
  unfold apply_granted_turn_permissions. destruct (ep_sandbox_permissions exec_params); [|done|];
    cbv zeta; cbn [eff_sandbox_permissions];
    by destruct (merge_permission_profiles additional (merge_permission_profiles _ _)).
Qed.

(** The call is a patch that needs no further permission, and something was
    granted to the session or the turn; reviews are not automatic. *)
Definition granted_patch g turn fs exec_params : Prop :=
  ∃ action, is_patch fs exec_params action ∧ patch_preapproved env build_glob_matcher g turn action ∧
    is_Some (merge_permission_profiles (granted_session_permissions g) (granted_turn_permissions g)) ∧
    turn_strict_auto_review turn = false ∧ routes_approval_to_guardian (turn_context turn) = false.

(** Somebody consented to the call. *)
Definition call_consented g turn fs exec_params additional (past es : list Event) : Prop :=
  ∃ keys, keys_of_call g turn fs exec_params additional keys ∧ consented past keys es.

Lemma consented_after e past keys es : consented (past ++ [e]) keys es → consented past keys (e :: es).
Proof using.
  intros (before & said & after & -> & H). exists (e :: before), said, after. split; [done|].
  by rewrite <-app_assoc in H.
Qed.

Lemma unsandboxed_patch g turn fs exec_params past message rest additional a :
  confinable turn → patch_events g turn fs exec_params (past ++ [ModelWarning message]) rest →
  a ∈ runs rest → attempt_sandbox a = SandboxNone →
  call_consented g turn fs exec_params additional past (ModelWarning message :: rest) ∨ open_turn turn ∨
  granted_patch g turn fs exec_params.
Proof.
  intros Hturn (action & Hpatch & [->|Hes]) Ha Hsb; [by apply elem_of_nil in Ha|].
  unfold effective_patch_permissions in Hes. destruct Hes as (apply & _ & Hsh).
  destruct (unsandboxed_run _ _ _ _ _ _ _ _ Hsh Ha Hsb) as [[Hc|(Hw & Hstrict & Hroute)]|(Hini & _)].
  - left. exists (patch_keys env path_json action). split; [right; by exists action|]. by apply consented_after.
  - right; right. exists action. split; [exact Hpatch|]. split; [exact Hw|].
    split; [eapply preapproved_granted; exact Hw|]. by split.
  - right; left. by apply selected_open.
Qed.

Lemma unsandboxed_shell g turn exec_policy fs exec_params additional prefix_rule past es a :
  confinable turn → shell_events g turn exec_policy exec_params additional prefix_rule past es →
  a ∈ runs es → attempt_sandbox a = SandboxNone →
  let request := exec_approval_request turn (ep_command exec_params)
                   (effective_for g turn exec_params additional) prefix_rule in
  call_consented g turn fs exec_params additional past es ∨ open_turn turn ∨ allowed_by_rules exec_policy request ∨
  (ctx_approval_policy (turn_context turn) = OnRequest ∧
   ep_sandbox_permissions exec_params = RequireEscalated ∧ runs_unasked exec_policy request).
Proof.
  intros Hturn (req & Hsh & Hcmd & Hcwd & Hperm & Hreq & Hguard) Ha Hsb request.
  destruct (unsandboxed_run _ _ _ _ _ _ _ _ Hsh Ha Hsb) as
    [[Hc|(Hw & _)]|(Hini & Hstrict & bypass & amendment & Hskip)]; [| done |right].
  { left. eexists. split; [|exact Hc]. left. eexists. cbn. unfold shell_approval_keys.
    by rewrite Hcmd, Hcwd, Hperm. }
  simpl in Hskip.
  destruct (skip_cases (home_dir env) (current_dir env) try_parse_shell parse_with_powershell_ast shlex_try_join
    Hcd parser_law exec_policy request) as (cs & Hcs & Hunasked & Hrules).
  unfold request in *. rewrite Hreq, Hskip in Hunasked, Hrules.
  unfold initial_sandbox in Hini. simpl in Hini. rewrite Hskip, Hperm in Hini.
  unfold sandbox_override_for_first_attempt in Hini.
  destruct bypass.
  { right; left. exists cs. split; [done|]. apply Hrules. by eexists. }
  destruct (eff_sandbox_permissions _) eqn:Heff; simpl in Hini;
    [left; by apply selected_open| |left; by apply selected_open].
  destruct (escalated_not_preapproved _ _ _ _ Heff) as [Hep Hpre].
  right; right. split; [by apply Hguard|]. split; [done|]. exists cs. split; [done|]. apply Hunasked. eauto.
Qed.

(** C6. Why a command ran outside of the sandbox.  Let the platform have a
    sandbox, the directory of the turn be absolute, its policy well-formed,
    [/tmp] a directory, the backend not the zsh fork, which starts processes of
    its own, and let the session remember only approvals the user gave.  When
    a shell tool is called, whatever the command, the permissions asked for and
    granted, and whatever everybody answers, each run without a sandbox has
    one of five reasons: a hook, the reviewer or the user was asked about the
    call and approved, or the user had approved it for the session; the turn
    confines nothing; rules allow every command of the script; under the
    setting that asks on request, the call demands to escape and every command
    is allowed by rules or fit to run unattended; or the command is a patch,
    something was granted to the session or the turn, and the patch counts as
    covered by it. *)
Theorem unsandboxed_command_has_reason g turn settings exec_policy fs tool_name exec_params hook_command
    additional prefix_rule call_id turn_id freeform s :
  backend ≠ ShellCommandZshFork → confinable turn → approvals_asked s →
  let request := exec_approval_request turn (ep_command exec_params)
                   (effective_for g turn exec_params additional) prefix_rule in
  ∃ es, trace (run_command g turn settings exec_policy fs tool_name exec_params hook_command additional
                 prefix_rule call_id turn_id freeform s).1 = trace s ++ es ∧
    ∀ a, a ∈ runs es → attempt_sandbox a = SandboxNone →
      call_consented g turn fs exec_params additional (trace s) es ∨ open_turn turn ∨
      allowed_by_rules exec_policy request ∨
      (ctx_approval_policy (turn_context turn) = OnRequest ∧
       ep_sandbox_permissions exec_params = RequireEscalated ∧ runs_unasked exec_policy request) ∨
      granted_patch g turn fs exec_params.
Proof.
  intros _ Hturn Hs request.
  destruct (command_trace g turn settings exec_policy fs tool_name exec_params hook_command additional
    prefix_rule call_id turn_id freeform s Hs) as (es & E & Hes).
  exists es. split; [done|]. intros a Ha Hsb.
  destruct Hes as [->|[(message & rest & -> & Hes)|Hes]]; [by apply elem_of_nil in Ha| |].
  - destruct (unsandboxed_patch _ _ _ _ _ _ _ additional _ Hturn Hes Ha Hsb) as [|[]]; eauto 6.
  - destruct (unsandboxed_shell _ _ _ fs _ _ _ _ _ _ Hturn Hes Ha Hsb) as [|[|[|]]]; eauto 6.
Qed.
End shell.

(** ** Example: a command that rules allow, where nobody may be asked *)

Definition shell_turn : ToolTurn :=
  mkToolTurn (mkContext Never (Managed (ManagedRestricted (entries workspace_policy) None) NetworkRestricted) false)
    workspace_policy NetworkRestricted None WindowsDisabled (lit "/w") (Some (lit "/bin/codex-linux-sandbox"))
    false false.
Definition shell_settings : ShellSettings :=
  mkShellSettings false false true ∅ ∅ (mkShell Bash (lit "/bin/bash")) (PolicyBytes 100).
Definition shell_params (command : list str) : ExecParams :=
  mkExecParams command (lit "/w") ∅ None UseDefault None.

(** The shell tool called with a command; everybody who is asked says no. *)
Definition shell_call (command : list str) : Session * Res FunctionCallError str :=
  run_exec_like (Sandbox:=unit) demo_env Linux (λ _, None) (λ _, []) (λ _ _ _, None) (λ _, []) []
    (ToolRuntime0 := ApplyPatchRuntime (λ s, s) (λ _ _, Denied) (λ _ _, Denied) Some (enforcing []))
    (ToolRuntime1 := ShellRuntime demo_parse (λ _ _, Denied) (λ _ _, Denied) (λ _, None) (λ _, lit "{}") false []
                       (λ command _ _, command) false demo_execute ShellCommandClassic (λ _ _ _ _ n, (n, Ok None)))
    no_matches plain_diff (λ _, lit "0") (λ text _ _, text) (λ _, []) demo_parse demo_powershell demo_join
    (mkGrants None None) shell_turn shell_settings git_policy (Some (demo_fs, None)) (lit "shell")
    (shell_params command) [] None None (lit "call") (lit "turn") false demo_session.

Lemma unsandboxed_command_has_reason_witness :
  map attempt_sandbox (runs (trace (shell_call [lit "git"; lit "status"]).1)) = [SandboxNone] ∧
  allowed_by_rules demo_env demo_parse git_policy
    (exec_approval_request shell_turn [lit "git"; lit "status"]
       (apply_granted_turn_permissions demo_env (λ _, None) (mkGrants None None) (lit "/w") UseDefault None) None).
Proof.
  split; [vm_compute; reflexivity|].
  destruct (unsandboxed_command_has_reason (Sandbox:=unit) demo_env Linux (λ _, None) (λ _, []) (λ _ _ _, None) (λ _, []) []
    demo_parse (λ s, s) (λ _ _, Denied) (λ _ _, Denied) (λ _, None) Some (λ _, lit "{}") false []
    (λ command _ _, command) false demo_execute ShellCommandClassic (λ _ _ _ _ n, (n, Ok None)) (enforcing []) no_matches plain_diff (λ _, lit "0") (λ text _ _, text)
    (λ _, []) demo_powershell demo_join I demo_parse_law (mkGrants None None) shell_turn shell_settings git_policy
    (Some (demo_fs, None)) (lit "shell") (shell_params [lit "git"; lit "status"]) [] None None (lit "call")
    (lit "turn") false demo_session) as (es & E & H).
  { discriminate. }
  { split; [reflexivity|]. split; [repeat constructor|]. split; [reflexivity|]. by eexists. }
  { exact demo_session_asked. }
  assert (Hes : ∃ a, es = [ToolDecision Approved SourceConfig; RanTool a] ∧ attempt_sandbox a = SandboxNone).
  { simpl in E. eexists. split; [rewrite <-E; vm_compute; reflexivity|reflexivity]. }
  clear E. destruct Hes as (a & -> & Ha).
  destruct (H a ltac:(by left) Ha) as
    [(keys & _ & Hc)|[[_ [Ho|[Ho _]]]|[Hr|[[Ho _]|(action & _ & _ & [x Hx] & _)]]]];
    [|discriminate|discriminate|exact Hr|discriminate|discriminate].
  exfalso. revert Hc. apply settings_no_consent. by repeat constructor.
Defined.
