(* ===== verification/History.v ===== *)
(** * The conversation history: [core/src/context_manager]

    [ContextManager] keeps the items of a conversation, oldest first.  What is
    recorded is cut down to the truncation policy ([Truncate]); what is sent to
    the model is normalised so that calls and their outputs come in pairs;
    items can be dropped from either end, and whole turns can be rolled back.
    The data is that of [protocol/src/models.rs].

    [P] stands for the parts of items that this code only copies (JSON values,
    actions, statuses, summaries), [T] for the turn context that is kept as a
    baseline.  [debug_assertions] is the build flag of that name: when it is
    set, [error_or_panic] panics. *)
From S2P Require Import Prelude RustStr MachineInt Truncate.

(** ** Data *)

Inductive ContentItem :=
| InputText (text : str)
| InputImage (image_url : str) (detail : option ImageDetail)
| OutputText (text : str).

Inductive FunctionCallOutputBody :=
| BodyText (content : str)
| BodyContentItems (items : list FunctionCallOutputContentItem).

Record FunctionCallOutputPayload := mkPayload {
  body : FunctionCallOutputBody;
  success : option bool
}.

Definition from_text (content : str) : FunctionCallOutputPayload := mkPayload (BodyText content) None.

Inductive ResponseItem {P : Type} :=
| Message (id : option str) (role : str) (content : list ContentItem) (phase : option P)
| Reasoning (id : str) (summary content : P) (encrypted_content : option str)
| LocalShellCall (id call_id : option str) (status action : P)
| FunctionCall (id : option str) (name : str) (namespace : option str) (arguments call_id : str)
| ToolSearchCall (id call_id status : option str) (execution : str) (arguments : P)
| FunctionCallOutput (call_id : str) (output : FunctionCallOutputPayload)
| CustomToolCall (id status : option str) (call_id name input : str)
| CustomToolCallOutput (call_id : str) (name : option str) (output : FunctionCallOutputPayload)
| ToolSearchOutput (call_id : option str) (status execution : str) (tools : list P)
| WebSearchCall (id status : option str) (action : option P)
| ImageGenerationCall (id status : str) (revised_prompt : option str) (result : str)
| Compaction (encrypted_content : str)
| ContextCompaction (encrypted_content : option str)
| Other.
Arguments ResponseItem : clear implicits.

Inductive InputModality := ModalityText | ModalityImage.
#[global] Instance InputModality_eq_dec : EqDecision InputModality.
Proof. solve_decision. Defined.

Definition IMAGE_CONTENT_OMITTED_PLACEHOLDER : str :=
  lit "image content omitted because you do not support image input".

(** [items.iter().position(predicate)] *)
Fixpoint position {A} (predicate : A → bool) (items : list A) : option nat :=
  match items with
  | [] => None
  | item :: items' => if predicate item then Some 0 else S <$> position predicate items'
  end.

(** ** [normalize.rs] *)

Section normalize.
Context {P : Type} (debug_assertions : bool).
Implicit Types (item : ResponseItem P) (items : list (ResponseItem P)).

Definition error_or_panic : Total unit :=
  if debug_assertions then Panic ExplicitPanic else Ok ().

(** The predicates that the code writes as closures over a call id. *)
Definition is_function_output_of (id : str) item : bool :=
  match item with FunctionCallOutput existing _ => bool_decide (existing = id) | _ => false end.
Definition is_tool_search_output_of (id : str) item : bool :=
  match item with ToolSearchOutput (Some existing) _ _ _ => bool_decide (existing = id) | _ => false end.
Definition is_custom_output_of (id : str) item : bool :=
  match item with CustomToolCallOutput existing _ _ => bool_decide (existing = id) | _ => false end.
Definition is_function_call_of (id : str) item : bool :=
  match item with FunctionCall _ _ _ _ existing => bool_decide (existing = id) | _ => false end.
Definition is_local_shell_call_of (id : str) item : bool :=
  match item with LocalShellCall _ (Some existing) _ _ => bool_decide (existing = id) | _ => false end.
Definition is_tool_search_call_of (id : str) item : bool :=
  match item with ToolSearchCall _ (Some existing) _ _ _ => bool_decide (existing = id) | _ => false end.
Definition is_custom_call_of (id : str) item : bool :=
  match item with CustomToolCall _ _ existing _ _ => bool_decide (existing = id) | _ => false end.

Definition aborted : FunctionCallOutputPayload := from_text (lit "aborted").

(** One turn of the loop of [ensure_call_outputs_present]. *)
Definition missing_output items item : Total (option (ResponseItem P)) :=
  match item with
  | FunctionCall _ _ _ _ call_id =>
      Ok (if existsb (is_function_output_of call_id) items then None
          else Some (FunctionCallOutput call_id aborted))
  | ToolSearchCall _ (Some call_id) _ _ _ =>
      Ok (if existsb (is_tool_search_output_of call_id) items then None
          else Some (ToolSearchOutput (Some call_id) (lit "completed") (lit "client") []))
  | CustomToolCall _ _ call_id _ _ =>
      if existsb (is_custom_output_of call_id) items then Ok None
      else
        _ ← error_or_panic;
        Ok (Some (CustomToolCallOutput call_id None aborted))
  | LocalShellCall _ (Some call_id) _ _ =>
      if existsb (is_function_output_of call_id) items then Ok None
      else
        _ ← error_or_panic;
        Ok (Some (FunctionCallOutput call_id aborted))
  | _ => Ok None
  end.

(** The loop, from index [idx] on. *)
Fixpoint missing_outputs_to_insert items (idx : nat) (rest : list (ResponseItem P))
    : Total (list (nat * ResponseItem P)) :=
  match rest with
  | [] => Ok []
  | item :: rest' =>
      o ← missing_output items item;
      more ← missing_outputs_to_insert items (S idx) rest';
      Ok (match o with Some output => (idx, output) :: more | None => more end)
  end.

(** [for (idx, output_item) in missing.into_iter().rev() { items.insert(idx + 1, ..) }] *)
Fixpoint insert_reversed (missing : list (nat * ResponseItem P)) items : Total (list (ResponseItem P)) :=
  match missing with
  | [] => Ok items
  | (idx, output_item) :: missing' =>
      items' ← insert_reversed missing' items;
      vec_insert (idx + 1) output_item items'
  end.

Definition ensure_call_outputs_present items : Total (list (ResponseItem P)) :=
  missing ← missing_outputs_to_insert items 0 items;
  insert_reversed missing items.

(** The four sets of call ids. *)
Definition call_ids (f : ResponseItem P → option str) items : gset str := list_to_set (omap f items).
Definition function_call_id item : option str :=
  match item with FunctionCall _ _ _ _ call_id => Some call_id | _ => None end.
Definition tool_search_call_id item : option str :=
  match item with ToolSearchCall _ call_id _ _ _ => call_id | _ => None end.
Definition local_shell_call_id item : option str :=
  match item with LocalShellCall _ call_id _ _ => call_id | _ => None end.
Definition custom_tool_call_id item : option str :=
  match item with CustomToolCall _ _ call_id _ _ => Some call_id | _ => None end.

(** A match that is missing is reported. *)
Definition has_match (b : bool) : Total bool :=
  if b then Ok true else (_ ← error_or_panic; Ok false).

(** The closure of [retain]. *)
Definition keep_output (function_call_ids tool_search_call_ids local_shell_call_ids
    custom_tool_call_ids : gset str) item : Total bool :=
  match item with
  | FunctionCallOutput call_id _ =>
      has_match (bool_decide (call_id ∈ function_call_ids) || bool_decide (call_id ∈ local_shell_call_ids))
  | CustomToolCallOutput call_id _ _ => has_match (bool_decide (call_id ∈ custom_tool_call_ids))
  | ToolSearchOutput call_id _ execution _ =>
      if bool_decide (execution = lit "server") then Ok true
      else match call_id with
           | Some call_id => has_match (bool_decide (call_id ∈ tool_search_call_ids))
           | None => Ok true
           end
  | _ => Ok true
  end.

Fixpoint retain (f : ResponseItem P → Total bool) items : Total (list (ResponseItem P)) :=
  match items with
  | [] => Ok []
  | item :: items' =>
      b ← f item;
      rest ← retain f items';
      Ok (if (b : bool) then item :: rest else rest)
  end.

Definition remove_orphan_outputs items : Total (list (ResponseItem P)) :=
  retain (keep_output (call_ids function_call_id items) (call_ids tool_search_call_id items)
            (call_ids local_shell_call_id items) (call_ids custom_tool_call_id items)) items.

Definition remove_first_matching (predicate : ResponseItem P → bool) items : Total (list (ResponseItem P)) :=
  match position predicate items with
  | Some pos => vec_remove pos items
  | None => Ok items
  end.

Definition remove_corresponding_for items item : Total (list (ResponseItem P)) :=
  match item with
  | FunctionCall _ _ _ _ call_id => remove_first_matching (is_function_output_of call_id) items
  | FunctionCallOutput call_id _ =>
      match position (is_function_call_of call_id) items with
      | Some pos => vec_remove pos items
      | None => match position (is_local_shell_call_of call_id) items with
                | Some pos => vec_remove pos items
                | None => Ok items
                end
      end
  | ToolSearchCall _ (Some call_id) _ _ _ =>
      remove_first_matching (is_tool_search_output_of call_id) items
  | ToolSearchOutput (Some call_id) _ _ _ =>
      remove_first_matching (is_tool_search_call_of call_id) items
  | CustomToolCall _ _ call_id _ _ => remove_first_matching (is_custom_output_of call_id) items
  | CustomToolCallOutput call_id _ _ => remove_first_matching (is_custom_call_of call_id) items
  | LocalShellCall _ (Some call_id) _ _ =>
      remove_first_matching (is_function_output_of call_id) items
  | _ => Ok items
  end.

Definition strip_content_item (content_item : ContentItem) : ContentItem :=
  match content_item with
  | InputImage _ _ => InputText IMAGE_CONTENT_OMITTED_PLACEHOLDER
  | _ => content_item
  end.
Definition strip_output_item (placeholder : str) (content_item : FunctionCallOutputContentItem)
    : FunctionCallOutputContentItem :=
  match content_item with
  | OutputInputImage _ _ => OutputInputText placeholder
  | _ => content_item
  end.
Definition strip_payload (output : FunctionCallOutputPayload) : FunctionCallOutputPayload :=
  match body output with
  | BodyContentItems content_items =>
      mkPayload (BodyContentItems (map (strip_output_item IMAGE_CONTENT_OMITTED_PLACEHOLDER) content_items))
        (success output)
  | BodyText _ => output
  end.

(** The body of the loop of [strip_images_when_unsupported]. *)
Definition strip_item item : ResponseItem P :=
  match item with
  | Message id role content phase => Message id role (map strip_content_item content) phase
  | FunctionCallOutput call_id output => FunctionCallOutput call_id (strip_payload output)
  | CustomToolCallOutput call_id name output => CustomToolCallOutput call_id name (strip_payload output)
  | ImageGenerationCall id status revised_prompt _ => ImageGenerationCall id status revised_prompt []
  | _ => item
  end.

Definition strip_images_when_unsupported (input_modalities : list InputModality) items
    : list (ResponseItem P) :=
  if bool_decide (ModalityImage ∈ input_modalities) then items else map strip_item items.

Definition normalize_history (input_modalities : list InputModality) items : Total (list (ResponseItem P)) :=
  items ← ensure_call_outputs_present items;
  items ← remove_orphan_outputs items;
  Ok (strip_images_when_unsupported input_modalities items).
End normalize.

(** ** Token usage ([protocol.rs]) *)

Record TokenUsage := mkUsage {
  input_tokens : Z;
  cached_input_tokens : Z;
  output_tokens : Z;
  reasoning_output_tokens : Z;
  total_tokens : Z
}.
Definition usage_default : TokenUsage := mkUsage 0 0 0 0 0.

Record TokenUsageInfo := mkUsageInfo {
  total_token_usage : TokenUsage;
  last_token_usage : TokenUsage;
  model_context_window : option Z
}.

(** [i64]: the result of [+] and [-] when it is in range; out of range a build
    with checks panics and one without wraps around. *)
Definition i64_min : Z := (-9223372036854775808)%Z.
Definition i64_modulus : Z := 18446744073709551616%Z.
Definition in_i64 (x : Z) : Prop := (i64_min ≤ x ≤ i64_max)%Z.
Definition i64_result (debug_assertions : bool) (x : Z) : Total Z :=
  if decide (i64_min ≤ x ≤ i64_max)%Z then Ok x
  else if debug_assertions then Panic ExplicitPanic
  else Ok ((x - i64_min) mod i64_modulus + i64_min)%Z.

(** [a.saturating_add(b)] and [a.saturating_sub(b)] on [i64] *)
Definition i64_clamp (x : Z) : Z := Z.max i64_min (Z.min i64_max x).
Definition i64_saturating_add (a b : Z) : Z := i64_clamp (a + b).
Definition i64_saturating_sub (a b : Z) : Z := i64_clamp (a - b).
Definition i64_saturating_mul (a b : Z) : Z := i64_clamp (a * b).

(** [i64::try_from(n).unwrap_or(i64::MAX)] for a [usize] *)
Definition i64_of_usize (n : N) : Z := Z.min i64_max (Z.of_N n).

Section usage.
Context (debug_assertions : bool).

Definition add_assign (self other : TokenUsage) : Total TokenUsage :=
  input ← i64_result debug_assertions (input_tokens self + input_tokens other);
  cached ← i64_result debug_assertions (cached_input_tokens self + cached_input_tokens other);
  output ← i64_result debug_assertions (output_tokens self + output_tokens other);
  reasoning ← i64_result debug_assertions (reasoning_output_tokens self + reasoning_output_tokens other);
  total ← i64_result debug_assertions (total_tokens self + total_tokens other);
  Ok (mkUsage input cached output reasoning total).

Definition append_last_usage (info : TokenUsageInfo) (last : TokenUsage) : Total TokenUsageInfo :=
  total ← add_assign (total_token_usage info) last;
  Ok (mkUsageInfo total last (model_context_window info)).

Definition new_or_append (info : option TokenUsageInfo) (last : option TokenUsage)
    (window : option Z) : Total (option TokenUsageInfo) :=
  match info, last with
  | None, None => Ok None
  | _, _ =>
      let info := default (mkUsageInfo usage_default usage_default window) info in
      info ← match last with Some last => append_last_usage info last | None => Ok info end;
      Ok (Some (match window with
                | Some w => mkUsageInfo (total_token_usage info) (last_token_usage info) (Some w)
                | None => info
                end))
  end.

Definition fill_to_context_window (info : TokenUsageInfo) (context_window : Z) : Total TokenUsageInfo :=
  let previous_total := total_tokens (total_token_usage info) in
  difference ← i64_result debug_assertions (context_window - previous_total);
  let delta := Z.max difference 0 in
  Ok (mkUsageInfo (mkUsage 0 0 0 0 context_window) (mkUsage 0 0 0 0 delta) (Some context_window)).

Definition full_context_window (context_window : Z) : Total TokenUsageInfo :=
  fill_to_context_window (mkUsageInfo usage_default usage_default (Some context_window)) context_window.
End usage.

(** ** [event_mapping.rs]: contextual messages *)

Definition CONTEXTUAL_DEVELOPER_PREFIXES : list str :=
  [lit "<permissions instructions>"; lit "<model_switch>"; lit "<collaboration_mode>";
   lit "<realtime_conversation>"; lit "<personality_spec>"].

(** [text.get(..n)] *)
Definition str_get_to (text : str) (n : N) : option str :=
  match split_at_byte text n with Ok (a, _) => Some a | _ => None end.

Definition is_contextual_dev_fragment (content_item : ContentItem) : bool :=
  match content_item with
  | InputText text =>
      let trimmed := trim_start text in
      existsb (λ prefix,
        match str_get_to trimmed (utf8_len prefix) with
        | Some candidate => eq_ignore_ascii_case candidate prefix
        | None => false
        end) CONTEXTUAL_DEVELOPER_PREFIXES
  | _ => false
  end.
Definition is_contextual_dev_message_content (message : list ContentItem) : bool :=
  existsb is_contextual_dev_fragment message.
Definition has_non_contextual_dev_message_content (message : list ContentItem) : bool :=
  existsb (λ content_item, negb (is_contextual_dev_fragment content_item)) message.

(** ** [history.rs] *)

Record ContextManager {P T : Type} := mkManager {
  items : list (ResponseItem P);
  history_version : N;
  token_info : option TokenUsageInfo;
  reference_context_item : option T
}.
Arguments ContextManager : clear implicits.
Arguments mkManager {P T}.

Section history.
Context {P T : Type} (debug_assertions : bool).

(** Two recognisers that go through an XML and a JSON parser: whether a text is
    a contextual fragment of a user message ([is_contextual_user_fragment]),
    and whether it is an [InterAgentCommunication] in JSON. *)
Context (contextual_user_text inter_agent_json : str → bool).

Local Abbreviation item_t := (ResponseItem P).
Implicit Types (self : ContextManager P T) (item : item_t).

Definition new_history : ContextManager P T := mkManager [] 0 None None.

(** [self.items = items], with the version bumped by [replace] *)
Definition with_items (l : list item_t) self : ContextManager P T :=
  mkManager l (history_version self) (token_info self) (reference_context_item self).
Definition bump_version self : ContextManager P T :=
  mkManager (items self) (saturating_add (history_version self) 1) (token_info self)
    (reference_context_item self).
Definition replace (l : list item_t) self : ContextManager P T := bump_version (with_items l self).

Definition set_token_info (info : option TokenUsageInfo) self : ContextManager P T :=
  mkManager (items self) (history_version self) info (reference_context_item self).
Definition set_reference_context_item (r : option T) self : ContextManager P T :=
  mkManager (items self) (history_version self) (token_info self) r.

Definition set_token_usage_full (context_window : Z) self : Total (ContextManager P T) :=
  info ← match token_info self with
         | Some info => fill_to_context_window debug_assertions info context_window
         | None => full_context_window debug_assertions context_window
         end;
  Ok (set_token_info (Some info) self).

Definition update_token_info (usage : TokenUsage) (window : option Z) self : Total (ContextManager P T) :=
  info ← new_or_append debug_assertions (token_info self) (Some usage) window;
  Ok (set_token_info info self).

Definition is_api_message item : bool :=
  match item with
  | Message _ role _ _ => negb (bool_decide (role = lit "system"))
  | Other => false
  | _ => true
  end.

Definition truncate_function_output_payload (output : FunctionCallOutputPayload)
    (policy : TruncationPolicy) : Total FunctionCallOutputPayload :=
  b ← match body output with
      | BodyText content => BodyText <$> truncate_text content policy
      | BodyContentItems l => BodyContentItems <$> truncate_function_output_items_with_policy l policy
      end;
  Ok (mkPayload b (success output)).

Definition process_item item (policy : TruncationPolicy) : Total item_t :=
  let policy_with_serialization_budget := with_serialization_budget policy in
  match item with
  | FunctionCallOutput call_id output =>
      FunctionCallOutput call_id <$> truncate_function_output_payload output policy_with_serialization_budget
  | CustomToolCallOutput call_id name output =>
      CustomToolCallOutput call_id name
        <$> truncate_function_output_payload output policy_with_serialization_budget
  | _ => Ok item
  end.

Fixpoint record_items (new_items : list item_t) (policy : TruncationPolicy) self
    : Total (ContextManager P T) :=
  match new_items with
  | [] => Ok self
  | item :: new_items' =>
      if negb (is_api_message item) then record_items new_items' policy self
      else
        processed ← process_item item policy;
        record_items new_items' policy (with_items (items self ++ [processed]) self)
  end.

Definition for_prompt (input_modalities : list InputModality) self : Total (list item_t) :=
  normalize_history debug_assertions input_modalities (items self).

Definition remove_first_item self : Total (ContextManager P T) :=
  match items self with
  | [] => Ok self
  | removed :: rest =>
      l ← remove_corresponding_for rest removed;
      Ok (with_items l self)
  end.

Definition remove_last_item self : Total (ContextManager P T * bool) :=
  match last (items self) with
  | Some removed =>
      l ← remove_corresponding_for (vec_pop (items self)) removed;
      Ok (bump_version (with_items l self), true)
  | None => Ok (self, false)
  end.

Definition is_contextual_user_message_content (message : list ContentItem) : bool :=
  existsb (λ c, match c with InputText text => contextual_user_text text | _ => false end) message.

Definition is_inter_agent_instruction_content (content : list ContentItem) : bool :=
  match content with
  | [InputText text] | [OutputText text] => inter_agent_json text
  | _ => false
  end.

Definition is_user_turn_boundary item : bool :=
  match item with
  | Message _ role content _ =>
      (bool_decide (role = lit "user") && negb (is_contextual_user_message_content content)) ||
      (bool_decide (role = lit "assistant") && is_inter_agent_instruction_content content)
  | _ => false
  end.

(** [items.iter().rposition(predicate)] *)
Definition rposition (predicate : item_t → bool) (l : list item_t) : option nat :=
  (λ k, length l - 1 - k) <$> position predicate (reverse l).

Definition is_output_image (i : FunctionCallOutputContentItem) : bool :=
  match i with OutputInputImage _ _ => true | OutputInputText _ => false end.

Definition replace_last_turn_images (placeholder : str) self : ContextManager P T * bool :=
  match rposition (λ item, match item with
                           | FunctionCallOutput _ _ => true
                           | _ => is_user_turn_boundary item
                           end) (items self) with
  | None => (self, false)
  | Some index =>
      match items self !! index with
      | Some (FunctionCallOutput call_id output) =>
          match body output with
          | BodyText _ => (self, false)
          | BodyContentItems content_items =>
              let replaced := existsb is_output_image content_items in
              let output' := mkPayload (BodyContentItems
                (map (strip_output_item placeholder) content_items)) (success output) in
              let self' := with_items (<[index := FunctionCallOutput call_id output']> (items self)) self in
              (if replaced then bump_version self' else self', replaced)
          end
      | _ => (self, false)
      end
  end.

Fixpoint user_message_positions_from (idx : nat) (l : list item_t) : list nat :=
  match l with
  | [] => []
  | item :: l' =>
      (if is_user_turn_boundary item then [idx] else []) ++ user_message_positions_from (S idx) l'
  end.
Definition user_message_positions (l : list item_t) : list nat := user_message_positions_from 0 l.

(** The [while] loop; [cut_idx] decreases, so it is the measure. *)
Fixpoint trim_pre_turn_context_updates (snapshot : list item_t) (first_instruction_turn_idx : nat)
    (cut_idx : nat) (reference : option T) : Total (nat * option T) :=
  if decide (cut_idx ≤ first_instruction_turn_idx) then Ok (cut_idx, reference)
  else
    match cut_idx with
    | 0 => Ok (cut_idx, reference)
    | S cut_idx' =>
        item ← index cut_idx' snapshot;
        match item with
        | Message _ role content _ =>
            if bool_decide (role = lit "developer") && is_contextual_dev_message_content content then
              trim_pre_turn_context_updates snapshot first_instruction_turn_idx cut_idx'
                (if has_non_contextual_dev_message_content content then None else reference)
            else if bool_decide (role = lit "user") && is_contextual_user_message_content content then
              trim_pre_turn_context_updates snapshot first_instruction_turn_idx cut_idx' reference
            else Ok (cut_idx, reference)
        | _ => Ok (cut_idx, reference)
        end
    end.

Definition drop_last_n_user_turns (num_turns : nat) self : Total (ContextManager P T) :=
  if decide (num_turns = 0) then Ok self
  else
    let snapshot := items self in
    let user_positions := user_message_positions snapshot in
    match user_positions with
    | [] => Ok (replace snapshot self)
    | first_instruction_turn_idx :: _ =>
        cut_idx ←
          if decide (length user_positions ≤ num_turns) then Ok first_instruction_turn_idx
          else index (length user_positions - num_turns) user_positions;
        r ← trim_pre_turn_context_updates snapshot first_instruction_turn_idx cut_idx
              (reference_context_item self);
        kept ← slice_to r.1 snapshot;
        Ok (replace kept (set_reference_context_item r.2 self))
    end.

Definition is_model_generated_item item : bool :=
  match item with
  | Message _ role _ _ => bool_decide (role = lit "assistant")
  | FunctionCallOutput _ _ | ToolSearchOutput _ _ _ _ | CustomToolCallOutput _ _ _ | Other => false
  | _ => true
  end.

Definition is_codex_generated_item item : bool :=
  match item with
  | FunctionCallOutput _ _ | ToolSearchOutput _ _ _ _ | CustomToolCallOutput _ _ _ => true
  | Message _ role _ _ => bool_decide (role = lit "developer")
  | _ => false
  end.

Definition items_after_last_model_generated_item self : Total (list item_t) :=
  let start := match rposition is_model_generated_item (items self) with
               | Some index => S index
               | None => length (items self)
               end in
  slice_from start (items self).
End history.

(** ** Estimates of size

    [serialized_len] is the length of [serde_json::to_string(item)], if it
    succeeds; [image_dimensions] decodes a base64 payload as an image and gives
    its width and height, as [u32]s.  The cache of image estimates is transparent: it
    maps the digest of a URL to the estimate for that URL. *)
Section estimates.
Context {P T : Type}.
Context (serialized_len : ResponseItem P → option N) (image_dimensions : str → option (N * N)).
Context (contextual_user_text inter_agent_json : str → bool).
Local Open Scope Z_scope.

Definition RESIZED_IMAGE_BYTES_ESTIMATE : Z := 7373.
Definition ORIGINAL_IMAGE_PATCH_SIZE : Z := 32.
Definition ORIGINAL_IMAGE_MAX_PATCHES : N := 10000.

Definition estimate_reasoning_length (encoded_len : N) : N :=
  (saturating_sub (saturating_mul encoded_len 3 / 4) 650)%N.

(** [url.find(',')] and the slices around it; both ends are characters. *)
Definition parse_base64_image_data_url (url : str) : option str :=
  if match str_get_to url 5 with
     | Some prefix => negb (eq_ignore_ascii_case prefix (lit "data:"))
     | None => true
     end then None
  else
    '(metadata, payload) ← split_once 44%N url;
    (** [&metadata["data:".len()..]] *)
    let metadata_without_scheme := drop 5 metadata in
    let metadata_parts := split_on 59%N metadata_without_scheme in
    let mime_type := default [] (head metadata_parts) in
    let has_base64_marker := existsb (λ part, eq_ignore_ascii_case part (lit "base64")) (tail metadata_parts) in
    if match str_get_to mime_type 6 with
       | Some prefix => negb (eq_ignore_ascii_case prefix (lit "image/"))
       | None => true
       end then None
    else if negb has_base64_marker then None
    else Some payload.

Definition estimate_original_image_bytes (image_url : str) : option Z :=
  payload ← parse_base64_image_data_url image_url;
  '(width, height) ← image_dimensions payload;
  let width := Z.of_N width in
  let height := Z.of_N height in
  let patch_size := ORIGINAL_IMAGE_PATCH_SIZE in
  let patches_wide := i64_saturating_add width (i64_saturating_sub patch_size 1) / patch_size in
  let patches_high := i64_saturating_add height (i64_saturating_sub patch_size 1) / patch_size in
  let patch_count := Z.to_N (i64_saturating_mul patches_wide patches_high) in
  let patch_count := N.min patch_count ORIGINAL_IMAGE_MAX_PATCHES in
  Some (i64_of_usize (approx_bytes_for_tokens patch_count)).

(** The closure [accumulate]: payload bytes and replacement bytes. *)
Definition accumulate (acc : Z * Z) (image : str * option ImageDetail) : Z * Z :=
  let '(image_url, detail) := image in
  match parse_base64_image_data_url image_url with
  | Some payload =>
      (i64_saturating_add acc.1 (i64_of_usize (utf8_len payload)),
       i64_saturating_add acc.2
         (match detail with
          | Some DetailOriginal => default RESIZED_IMAGE_BYTES_ESTIMATE (estimate_original_image_bytes image_url)
          | _ => RESIZED_IMAGE_BYTES_ESTIMATE
          end))
  | None => acc
  end.

Definition image_of_content (c : ContentItem) : option (str * option ImageDetail) :=
  match c with InputImage url d => Some (url, d) | _ => None end.
Definition image_of_output (c : FunctionCallOutputContentItem) : option (str * option ImageDetail) :=
  match c with OutputInputImage url d => Some (url, d) | _ => None end.

Definition image_data_url_estimate_adjustment (item : ResponseItem P) : Z * Z :=
  foldl accumulate (0, 0)
    (match item with
     | Message _ _ content _ => omap image_of_content content
     | FunctionCallOutput _ output | CustomToolCallOutput _ _ output =>
         match body output with
         | BodyContentItems l => omap image_of_output l
         | BodyText _ => []
         end
     | _ => []
     end).

Definition estimate_response_item_model_visible_bytes (item : ResponseItem P) : Z :=
  match item with
  | Reasoning _ _ _ (Some content) | Compaction content | ContextCompaction (Some content) =>
      i64_of_usize (estimate_reasoning_length (utf8_len content))
  | _ =>
      let raw := match serialized_len item with Some n => i64_of_usize n | None => 0 end in
      let '(payload_bytes, replacement_bytes) := image_data_url_estimate_adjustment item in
      if (payload_bytes =? 0) || (replacement_bytes =? 0) then raw
      else i64_saturating_add (i64_saturating_sub raw payload_bytes) replacement_bytes
  end.

Definition estimate_item_token_count (item : ResponseItem P) : Z :=
  approx_tokens_from_byte_count_i64 (estimate_response_item_model_visible_bytes item).

(** [.fold(0i64, i64::saturating_add)] *)
Definition saturating_total (l : list Z) : Z := foldl i64_saturating_add 0 l.

Definition estimate_token_count_with_base_instructions (base_instructions : str)
    (self : ContextManager P T) : Z :=
  i64_saturating_add (i64_of_usize (approx_token_count base_instructions))
    (saturating_total (map estimate_item_token_count (items self))).

Definition is_encrypted_reasoning (item : ResponseItem P) : bool :=
  match item with Reasoning _ _ _ (Some _) => true | _ => false end.

Definition get_non_last_reasoning_items_tokens (self : ContextManager P T) : Z :=
  match rposition (is_user_turn_boundary contextual_user_text inter_agent_json) (items self) with
  | None => 0
  | Some last_user_index =>
      saturating_total (map estimate_item_token_count
        (List.filter is_encrypted_reasoning (take last_user_index (items self))))
  end.

Definition get_total_token_usage (server_reasoning_included : bool) (self : ContextManager P T) : Total Z :=
  let last_tokens := match token_info self with
                     | Some info => total_tokens (last_token_usage info)
                     | None => 0
                     end in
  after ← items_after_last_model_generated_item self;
  let after_tokens := saturating_total (map estimate_item_token_count after) in
  Ok (if server_reasoning_included then i64_saturating_add last_tokens after_tokens
      else i64_saturating_add (i64_saturating_add last_tokens (get_non_last_reasoning_items_tokens self))
             after_tokens).

Record TotalTokenUsageBreakdown := mkBreakdown {
  last_api_response_total_tokens : Z;
  all_history_items_model_visible_bytes : Z;
  estimated_tokens_of_items_added_since_last_successful_api_response : Z;
  estimated_bytes_of_items_added_since_last_successful_api_response : Z
}.

Definition get_total_token_usage_breakdown (self : ContextManager P T) : Total TotalTokenUsageBreakdown :=
  let last_usage := match token_info self with
                    | Some info => last_token_usage info
                    | None => usage_default
                    end in
  after ← items_after_last_model_generated_item self;
  Ok (mkBreakdown (total_tokens last_usage)
        (saturating_total (map estimate_response_item_model_visible_bytes (items self)))
        (saturating_total (map estimate_item_token_count after))
        (saturating_total (map estimate_response_item_model_visible_bytes after))).
End estimates.
