(* ===== verification/HistoryProofs.v ===== *)
(** * Calls and outputs in pairs

    Proofs about [History]: what is sent to the model pairs every call with an
    output and every output with a call, and dropping items from either end
    keeps the pairs together; rolling back removes exactly the requested
    turns; what is recorded stays within its bounds; every operation does what
    it is for, and the version tells rewrites from additions. *)
From S2P Require Import Prelude RustStr MachineInt Truncate History.

(** ** Pairing *)

(** Calls and outputs belong together when they have the same key: calls of
    functions and of the local shell share one kind of output. *)
Inductive family := FunctionFamily | SearchFamily | CustomFamily.

Section keys.
Context {P : Type}.
Implicit Types (item : ResponseItem P) (l : list (ResponseItem P)).

Definition call_key item : option (family * str) :=
  match item with
  | FunctionCall _ _ _ _ id | LocalShellCall _ (Some id) _ _ => Some (FunctionFamily, id)
  | ToolSearchCall _ (Some id) _ _ _ => Some (SearchFamily, id)
  | CustomToolCall _ _ id _ _ => Some (CustomFamily, id)
  | _ => None
  end.
Definition output_key item : option (family * str) :=
  match item with
  | FunctionCallOutput id _ => Some (FunctionFamily, id)
  | ToolSearchOutput (Some id) _ _ _ => Some (SearchFamily, id)
  | CustomToolCallOutput id _ _ => Some (CustomFamily, id)
  | _ => None
  end.
(** The output of a search that ran on the server stands alone. *)
Definition from_server item : bool :=
  match item with ToolSearchOutput _ _ execution _ => bool_decide (execution = lit "server") | _ => false end.

Definition answered l (k : family * str) : Prop := ∃ o, o ∈ l ∧ output_key o = Some k.
Definition called l (k : family * str) : Prop := ∃ c, c ∈ l ∧ call_key c = Some k.

Definition paired l : Prop :=
  (∀ c k, c ∈ l → call_key c = Some k → answered l k) ∧
  (∀ o k, o ∈ l → output_key o = Some k → from_server o = false → called l k).

(** No two calls, and no two outputs, have the same key. *)
Definition unique_keys l : Prop := NoDup (omap call_key l) ∧ NoDup (omap output_key l).

#[global] Instance answered_Permutation : Proper ((≡ₚ) ==> (=) ==> iff) answered.
Proof. intros l l' Hl k _ <-. unfold answered. by setoid_rewrite Hl. Qed.
#[global] Instance called_Permutation : Proper ((≡ₚ) ==> (=) ==> iff) called.
Proof. intros l l' Hl k _ <-. unfold called. by setoid_rewrite Hl. Qed.
#[global] Instance paired_Permutation : Proper ((≡ₚ) ==> iff) paired.
Proof. intros l l' Hl. unfold paired. by setoid_rewrite Hl. Qed.
#[global] Instance unique_keys_Permutation : Proper ((≡ₚ) ==> iff) unique_keys.
Proof.
  intros l l' Hl. unfold unique_keys.
  assert (Hc : omap call_key l ≡ₚ omap call_key l') by (by apply omap_Permutation).
  assert (Ho : omap output_key l ≡ₚ omap output_key l') by (by apply omap_Permutation).
  by rewrite Hc, Ho.
Qed.

Lemma call_not_output item k : call_key item = Some k → output_key item = None.
Proof. by destruct item. Qed.
Lemma output_not_call item k : output_key item = Some k → call_key item = None.
Proof. by destruct item. Qed.

Lemma function_output_key id item :
  is_function_output_of id item = true ↔ output_key item = Some (FunctionFamily, id).
Proof.
  destruct item as [| | | | | | | |[]| | | | |]; simpl; rewrite ?bool_decide_eq_true; split; intros; congruence.
Qed.
Lemma search_output_key id item :
  is_tool_search_output_of id item = true ↔ output_key item = Some (SearchFamily, id).
Proof.
  destruct item as [| | | | | | | |[]| | | | |]; simpl; rewrite ?bool_decide_eq_true; split; intros; congruence.
Qed.
Lemma custom_output_key id item :
  is_custom_output_of id item = true ↔ output_key item = Some (CustomFamily, id).
Proof.
  destruct item as [| | | | | | | |[]| | | | |]; simpl; rewrite ?bool_decide_eq_true; split; intros; congruence.
Qed.
Lemma function_or_shell_call_key id item :
  is_function_call_of id item = true ∨ is_local_shell_call_of id item = true ↔
  call_key item = Some (FunctionFamily, id).
Proof.
  destruct item as [| |? []| |? []| | | | | | | | |]; simpl; rewrite ?bool_decide_eq_true;
    split; intros; destruct_or?; try congruence; first [left; congruence | right; congruence].
Qed.
Lemma search_call_key id item :
  is_tool_search_call_of id item = true ↔ call_key item = Some (SearchFamily, id).
Proof.
  destruct item as [| |? []| |? []| | | | | | | | |]; simpl; rewrite ?bool_decide_eq_true; split; intros; congruence.
Qed.
Lemma custom_call_key id item :
  is_custom_call_of id item = true ↔ call_key item = Some (CustomFamily, id).
Proof.
  destruct item as [| |? []| |? []| | | | | | | | |]; simpl; rewrite ?bool_decide_eq_true; split; intros; congruence.
Qed.

(** The predicates of the code, by key. *)
Definition output_matches (k : family * str) item : bool :=
  match k.1 with
  | FunctionFamily => is_function_output_of k.2 item
  | SearchFamily => is_tool_search_output_of k.2 item
  | CustomFamily => is_custom_output_of k.2 item
  end.
Lemma output_matches_key k item : output_matches k item = true ↔ output_key item = Some k.
Proof.
  destruct k as [[] id]; [apply function_output_key|apply search_output_key|apply custom_output_key].
Qed.
Lemma answered_existsb k l : existsb (output_matches k) l = true ↔ answered l k.
Proof. rewrite existsb_elem. by setoid_rewrite output_matches_key. Qed.
End keys.

(** ** Normalisation *)

#[global] Instance family_eq_dec : EqDecision family.
Proof. solve_decision. Defined.

Section normalize.
Context {P : Type}.
Implicit Types (item : ResponseItem P) (l rest : list (ResponseItem P)).

(** The output made up for a call. *)
Definition synthetic item : option (ResponseItem P) :=
  match item with
  | FunctionCall _ _ _ _ id | LocalShellCall _ (Some id) _ _ => Some (FunctionCallOutput id aborted)
  | ToolSearchCall _ (Some id) _ _ _ =>
      Some (ToolSearchOutput (Some id) (lit "completed") (lit "client") [])
  | CustomToolCall _ _ id _ _ => Some (CustomToolCallOutput id None aborted)
  | _ => None
  end.
Definition missing_of l item : option (ResponseItem P) :=
  match call_key item with
  | Some k => if existsb (output_matches k) l then None else synthetic item
  | None => None
  end.
(** Every call, followed by a made-up output if it has none. *)
Definition with_outputs l rest : list (ResponseItem P) :=
  concat (map (λ item, item :: option_list (missing_of l item)) rest).

Definition called_b l (k : family * str) : bool := existsb (λ c, bool_decide (call_key c = Some k)) l.
Definition keeps l item : bool :=
  match output_key item with
  | Some k => from_server item || called_b l k
  | None => true
  end.

Lemma called_b_spec l k : called_b l k = true ↔ called l k.
Proof. unfold called_b, called. rewrite existsb_elem. by setoid_rewrite bool_decide_eq_true. Qed.

Lemma synthetic_key item k : call_key item = Some k →
  ∃ o, synthetic item = Some o ∧ output_key o = Some k ∧ call_key o = None ∧ from_server o = false.
Proof.
  destruct item as [| |? []| |? []| | | | | | | | |]; intros [= <-]; by eexists.
Qed.

Lemma missing_output_release l item : missing_output false l item = Ok (missing_of l item).
Proof.
  destruct item as [| |? [id|]| |? [id|]| |? ? id| | | | | | |]; try done;
    unfold missing_of; cbn [call_key missing_output synthetic].
  - change (output_matches (FunctionFamily, id)) with (is_function_output_of (P:=P) id).
    by destruct (existsb _ l).
  - change (output_matches (CustomFamily, id)) with (is_custom_output_of (P:=P) id).
    by destruct (existsb _ l).
Qed.

Lemma insert_outputs l pre rest :
  ∃ missing, missing_outputs_to_insert false l (length pre) rest = Ok missing ∧
    insert_reversed missing (pre ++ rest) = Ok (pre ++ with_outputs l rest).
Proof.
  revert pre; induction rest as [|item rest IH]; intros pre.
  { exists []. split; [done|]. unfold with_outputs. simpl. by rewrite app_nil_r. }
  destruct (IH (pre ++ [item])) as (more & Hm & Hins).
  replace (length (pre ++ [item])) with (S (length pre)) in Hm by (rewrite length_app; simpl; lia).
  cbn [missing_outputs_to_insert]. rewrite missing_output_release. cbn [mbind Res_bind]. rewrite Hm.
  cbn [mbind Res_bind]. rewrite <-app_assoc in Hins. cbn [app] in Hins.
  unfold with_outputs in *. cbn [map concat].
  destruct (missing_of l item) as [o|]; eexists; (split; [done|]); cbn [option_list app].
  - cbn [insert_reversed]. rewrite Hins. cbn [mbind Res_bind]. unfold vec_insert.
    rewrite <-app_assoc. cbn [app].
    rewrite decide_True by (rewrite length_app; simpl; lia).
    rewrite take_app, drop_app. replace (length pre + 1 - length pre) with 1 by lia.
    rewrite take_ge, drop_ge by lia. simpl. by rewrite <-app_assoc.
  - rewrite Hins, <-app_assoc. done.
Qed.

Lemma ensure_release l : ensure_call_outputs_present false l = Ok (with_outputs l l).
Proof.
  unfold ensure_call_outputs_present. destruct (insert_outputs l [] l) as (missing & Hm & Hi).
  simpl in Hm, Hi. rewrite Hm. cbn [mbind Res_bind]. done.
Qed.

Lemma elem_of_call_ids (f : ResponseItem P → option str) l id :
  id ∈ call_ids f l ↔ ∃ c, c ∈ l ∧ f c = Some id.
Proof. unfold call_ids. rewrite elem_of_list_to_set, list_elem_of_omap. done. Qed.

Lemma bool_decide_iff (Q R : Prop) `{!Decision Q} (b : bool) : (Q ↔ R) → (b = true ↔ R) → bool_decide Q = b.
Proof.
  intros HQ Hb. destruct b; [apply bool_decide_eq_true|apply bool_decide_eq_false]; [tauto|].
  intros Hq. by apply HQ, Hb in Hq.
Qed.

Lemma keep_output_eq debug_assertions l item :
  keep_output debug_assertions (call_ids function_call_id l) (call_ids tool_search_call_id l)
    (call_ids local_shell_call_id l) (call_ids custom_tool_call_id l) item
  = has_match debug_assertions (keeps l item).
Proof.
  unfold keeps. destruct item as [| | | | |id o| |id n o|[id|] st ex tools| | | | |]; try done; simpl.
  - assert (bool_decide (id ∈ call_ids function_call_id l) || bool_decide (id ∈ call_ids local_shell_call_id l)
            = called_b l (FunctionFamily, id)) as ->; [|done].
    apply eq_true_iff_eq. rewrite orb_true_iff, !bool_decide_eq_true, !elem_of_call_ids, called_b_spec.
    unfold called. setoid_rewrite <-function_or_shell_call_key. split.
    + intros [(c & Hc & Hk)|(c & Hc & Hk)]; exists c; (split; [done|]);
        [left; destruct c|right; destruct c as [| |? []| | | | | | | | | | |]]; simplify_eq/=;
        by apply bool_decide_eq_true.
    + intros (c & Hc & [Hk|Hk]); [left|right]; exists c; (split; [done|]);
        [destruct c|destruct c as [| |? []| | | | | | | | | | |]]; simplify_eq/=;
        by apply bool_decide_eq_true in Hk as ->.
  - assert (bool_decide (id ∈ call_ids custom_tool_call_id l) = called_b l (CustomFamily, id)) as ->; [|done].
    apply (bool_decide_iff _ (called l (CustomFamily, id))); [|apply called_b_spec].
    rewrite elem_of_call_ids. unfold called. apply exist_proper; intros c.
    destruct c as [| |? []| |? []| | | | | | | | |]; simpl; split; intros [? ?]; split; congruence.
  - destruct (bool_decide (ex = lit "server")); [done|]. simpl.
    assert (bool_decide (id ∈ call_ids tool_search_call_id l) = called_b l (SearchFamily, id)) as ->; [|done].
    apply (bool_decide_iff _ (called l (SearchFamily, id))); [|apply called_b_spec].
    rewrite elem_of_call_ids. unfold called. apply exist_proper; intros c.
    destruct c as [| |? []| |? []| | | | | | | | |]; simpl; split; intros [? ?]; split; congruence.
  - by destruct (bool_decide _).
Qed.

Lemma retain_filter (f : ResponseItem P → Total bool) (g : ResponseItem P → bool) l :
  (∀ x, f x = Ok (g x)) → retain f l = Ok (List.filter g l).
Proof.
  intros Hf. induction l as [|x l IH]; simpl; [done|]. rewrite Hf, IH. done.
Qed.

Lemma remove_orphans_release l : remove_orphan_outputs false l = Ok (List.filter (keeps l) l).
Proof. apply retain_filter. intros x. rewrite keep_output_eq. by destruct (keeps l x). Qed.

(** *** What the passes leave *)

Lemma elem_of_with_outputs l rest x :
  x ∈ with_outputs l rest ↔ ∃ item, item ∈ rest ∧ (x = item ∨ missing_of l item = Some x).
Proof.
  unfold with_outputs. rewrite list_elem_of_In, in_concat. setoid_rewrite in_map_iff. split.
  - intros (? & (item & <- & Hi) & Hx). exists item. rewrite list_elem_of_In. split; [done|].
    destruct Hx as [->|Hx]; [by left|right]. destruct (missing_of l item); simpl in Hx; [|done].
    by destruct Hx as [->|[]].
  - intros (item & Hi & Hx). exists (item :: option_list (missing_of l item)).
    split; [exists item; by rewrite <-list_elem_of_In|].
    destruct Hx as [->| ->]; [by left|]. right. by left.
Qed.

(** Only outputs are made up. *)
Lemma missing_is_output l item x : missing_of l item = Some x →
  ∃ k, call_key item = Some k ∧ output_key x = Some k ∧ call_key x = None ∧ from_server x = false ∧ ¬ answered l k.
Proof.
  unfold missing_of. destruct (call_key item) as [k|] eqn:Hk; [|done].
  destruct (existsb (output_matches k) l) eqn:He; [done|]. intros Hs.
  destruct (synthetic_key _ _ Hk) as (o & Ho & ? & ? & ?). rewrite Hs in Ho. injection Ho as ->.
  exists k. split_and!; try done. rewrite <-answered_existsb. by rewrite He.
Qed.

Lemma called_with_outputs l k : called (with_outputs l l) k ↔ called l k.
Proof.
  unfold called. setoid_rewrite elem_of_with_outputs. split.
  - intros (c & (item & Hi & [->|Hm]) & Hk); [by eexists|].
    apply missing_is_output in Hm as (? & _ & _ & Hn & _). congruence.
  - intros (c & Hc & Hk). exists c. split; [|done]. exists c. split; [done|by left].
Qed.

Lemma answered_with_outputs l c k :
  c ∈ l → call_key c = Some k → answered (with_outputs l l) k.
Proof.
  intros Hc Hk. destruct (existsb (output_matches k) l) eqn:He.
  - apply answered_existsb in He as (o & Ho & Hko). exists o. split; [|done].
    apply elem_of_with_outputs. exists o. split; [done|by left].
  - destruct (synthetic_key _ _ Hk) as (o & Ho & Hko & _). exists o. split; [|done].
    apply elem_of_with_outputs. exists c. split; [done|right]. unfold missing_of. by rewrite Hk, He.
Qed.

Definition normalized l : list (ResponseItem P) :=
  List.filter (keeps (with_outputs l l)) (with_outputs l l).

Lemma keeps_iff l x :
  keeps l x = true ↔ ∀ k, output_key x = Some k → from_server x = false → called l k.
Proof.
  unfold keeps. destruct (output_key x) as [k|]; [|naive_solver].
  rewrite orb_true_iff, called_b_spec. destruct (from_server x); naive_solver.
Qed.

Lemma normalized_paired l : paired (normalized l).
Proof.
  unfold normalized. split.
  - intros c k [Hc _]%elem_of_filterb Hk.
    assert (Hl : c ∈ l).
    { apply elem_of_with_outputs in Hc as (item & Hi & [->|Hm]); [done|].
      apply missing_is_output in Hm as (? & _ & _ & Hn & _). congruence. }
    destruct (answered_with_outputs l c k Hl Hk) as (o & Ho & Hko). exists o. split; [|done].
    apply elem_of_filterb. split; [done|]. apply keeps_iff. intros k' Hk' _. assert (k' = k) as -> by congruence.
    by exists c.
  - intros o k [Ho Hkeep]%elem_of_filterb Hk Hs. rewrite keeps_iff in Hkeep.
    destruct (Hkeep k Hk Hs) as (c & Hc & Hkc). exists c. split; [|done].
    apply elem_of_filterb. split; [done|]. apply keeps_iff. intros k' Hk'.
    by rewrite (call_not_output _ _ Hkc) in Hk'.
Qed.

Lemma with_outputs_none l rest :
  (∀ x, x ∈ rest → missing_of l x = None) → with_outputs l rest = rest.
Proof.
  induction rest as [|x rest IH]; intros H; [done|]. unfold with_outputs in *. simpl.
  rewrite H by (by left). simpl. f_equal. apply IH. intros y Hy. apply H. by right.
Qed.

Lemma filter_all (f : ResponseItem P → bool) l : (∀ x, x ∈ l → f x = true) → List.filter f l = l.
Proof.
  induction l as [|x l IH]; intros H; [done|]. simpl. rewrite H by (by left). f_equal. apply IH.
  intros y Hy. apply H. by right.
Qed.

(** A paired history is not changed. *)
Lemma normalized_id l : paired l → normalized l = l.
Proof.
  intros [Hans Hcall]. unfold normalized. rewrite with_outputs_none.
  - apply filter_all. intros x Hx. apply keeps_iff. intros k Hk Hs. by apply (Hcall x).
  - intros x Hx. unfold missing_of. destruct (call_key x) as [k|] eqn:Hk; [|done].
    by rewrite (proj2 (answered_existsb k l) (Hans x k Hx Hk)).
Qed.

(** *** In any build *)

Lemma missing_output_none debug_assertions l item :
  missing_of l item = None → missing_output debug_assertions l item = Ok None.
Proof.
  destruct item as [| |? [id|]| |? [id|]| |? ? id| | | | | | |]; try done;
    unfold missing_of; cbn [call_key missing_output synthetic].
  - change (output_matches (FunctionFamily, id)) with (is_function_output_of (P:=P) id). by destruct (existsb _ l).
  - change (output_matches (FunctionFamily, call_id)) with (is_function_output_of (P:=P) call_id).
    by destruct (existsb _ l).
  - change (output_matches (SearchFamily, id)) with (is_tool_search_output_of (P:=P) id). by destruct (existsb _ l).
  - change (output_matches (CustomFamily, id)) with (is_custom_output_of (P:=P) id). by destruct (existsb _ l).
Qed.

(** A paired history passes without an error report. *)
Lemma normalize_paired debug_assertions m l :
  paired l → normalize_history debug_assertions m l = Ok (strip_images_when_unsupported m l).
Proof.
  intros [Hans Hcall]. unfold normalize_history, ensure_call_outputs_present.
  assert (Hmiss : ∀ n rest, (∀ x, x ∈ rest → x ∈ l) →
    missing_outputs_to_insert debug_assertions l n rest = Ok []).
  { intros n rest. revert n; induction rest as [|x rest IH]; intros n Hr; simpl; [done|].
    rewrite missing_output_none.
    - cbn [mbind Res_bind]. rewrite IH; [done|]. intros y Hy. apply Hr. by right.
    - unfold missing_of. destruct (call_key x) as [k|] eqn:Hk; [|done].
      by rewrite (proj2 (answered_existsb k l) (Hans x k (Hr x ltac:(by left)) Hk)). }
  rewrite Hmiss by done. cbn [mbind Res_bind insert_reversed].
  assert (Hret : remove_orphan_outputs debug_assertions l = Ok l); [|by rewrite Hret].
  unfold remove_orphan_outputs. set (f := keep_output _ _ _ _ _).
  assert (Hf : ∀ x, x ∈ l → f x = Ok true).
  { intros x Hx. unfold f. rewrite keep_output_eq.
    rewrite (proj2 (keeps_iff l x)); [done|]. intros k Hk Hs. by apply (Hcall x). }
  clearbody f. clear -Hf. induction l as [|x l IH]; [done|]. simpl. rewrite Hf by (by left). cbn [mbind Res_bind].
  rewrite IH; [done|]. intros y Hy. apply Hf. by right.
Qed.

(** *** Images *)

Definition has_image item : bool :=
  match item with
  | Message _ _ content _ => existsb (λ c, match c with InputImage _ _ => true | _ => false end) content
  | FunctionCallOutput _ output | CustomToolCallOutput _ _ output =>
      match body output with
      | BodyContentItems l => existsb is_output_image l
      | BodyText _ => false
      end
  | ImageGenerationCall _ _ _ result => negb (bool_decide (result = []))
  | _ => false
  end.

Lemma strip_call_key item : call_key (strip_item item) = call_key item.
Proof. by destruct item. Qed.
Lemma strip_output_key item : output_key (strip_item item) = output_key item.
Proof. by destruct item. Qed.
Lemma strip_from_server item : from_server (strip_item item) = from_server item.
Proof. by destruct item. Qed.

Lemma existsb_map_false {A} (f : A → A) (p : A → bool) (l : list A) :
  (∀ x, p (f x) = false) → existsb p (map f l) = false.
Proof. intros H. induction l; simpl; [done|]. by rewrite H. Qed.

Lemma strip_no_image item : has_image (strip_item item) = false.
Proof.
  destruct item as [? ? content ?| | | | |? [[|its] ?]| |? ? [[|its] ?]| | | | | |]; try done; simpl;
    apply existsb_map_false; by intros [].
Qed.

Lemma strip_item_idemp item : strip_item (strip_item item) = strip_item item.
Proof.
  assert (Ho : ∀ its, map (strip_output_item IMAGE_CONTENT_OMITTED_PLACEHOLDER)
      (map (strip_output_item IMAGE_CONTENT_OMITTED_PLACEHOLDER) its)
    = map (strip_output_item IMAGE_CONTENT_OMITTED_PLACEHOLDER) its).
  { intros its. rewrite map_map. apply map_ext. by intros []. }
  destruct item as [? ? content ?| | | | |? [[|its] ?]| |? ? [[|its] ?]| | | | | |]; try done; simpl;
    unfold strip_payload; simpl; rewrite ?Ho; try done.
  rewrite map_map. f_equal. apply map_ext. by intros [].
Qed.

Lemma strip_images_idemp m l :
  strip_images_when_unsupported m (strip_images_when_unsupported m l) = strip_images_when_unsupported m l.
Proof.
  unfold strip_images_when_unsupported. case_bool_decide; [done|]. rewrite map_map.
  apply map_ext. apply strip_item_idemp.
Qed.

Lemma paired_strip m l : paired l → paired (strip_images_when_unsupported m l).
Proof.
  unfold strip_images_when_unsupported. case_bool_decide; [done|]. intros [Hans Hcall]. split.
  - intros c k (x & -> & Hx)%list_elem_of_fmap Hk. rewrite strip_call_key in Hk.
    destruct (Hans x k Hx Hk) as (o & Ho & Hko). exists (strip_item o). split; [by apply list_elem_of_fmap_2|].
    by rewrite strip_output_key.
  - intros o k (x & -> & Hx)%list_elem_of_fmap Hk Hs. rewrite strip_output_key in Hk. rewrite strip_from_server in Hs.
    destruct (Hcall x k Hx Hk Hs) as (c & Hc & Hkc). exists (strip_item c). split; [by apply list_elem_of_fmap_2|].
    by rewrite strip_call_key.
Qed.

Lemma normalize_release m l :
  normalize_history false m l = Ok (strip_images_when_unsupported m (normalized l)).
Proof. unfold normalize_history. rewrite ensure_release. cbn [mbind Res_bind]. by rewrite remove_orphans_release. Qed.

(** What was recorded and is no orphan is still there, in order. *)
Lemma filter_with_outputs (f : ResponseItem P → bool) l rest :
  List.filter f rest `sublist_of` List.filter f (with_outputs l rest).
Proof.
  induction rest as [|x rest IH]; [done|]. unfold with_outputs in *. simpl.
  rewrite List.filter_app. destruct (f x); [apply sublist_skip|]; by apply sublist_inserts_l.
Qed.

Lemma normalized_keeps_recorded l : List.filter (keeps l) l `sublist_of` normalized l.
Proof.
  unfold normalized.
  assert (E : ∀ x, keeps (with_outputs l l) x = keeps l x).
  { intros x. apply eq_true_iff_eq. rewrite !keeps_iff. by setoid_rewrite called_with_outputs. }
  rewrite (filter_ext _ _ E). apply filter_with_outputs.
Qed.
End normalize.

(** C22. What is sent to the model is well paired.  For every history the prompt
    is made (in a release build): in it every call with an identifier has an
    output, and every output has its call, except the outputs of searches that
    the server ran or that have no identifier, which are kept as they are; it
    has no images when the model takes none; everything that was recorded,
    except outputs without a call, is still there in its order (images
    replaced); and normalising it again, in any build, changes nothing. *)
Theorem prompt_is_paired {P T : Type} (m : list InputModality) (self : ContextManager P T) :
  ∃ l, for_prompt false m self = Ok l ∧ paired l ∧
    (ModalityImage ∉ m → ∀ x, x ∈ l → has_image x = false) ∧
    strip_images_when_unsupported m (List.filter (keeps (items self)) (items self)) `sublist_of` l ∧
    ∀ debug_assertions, normalize_history debug_assertions m l = Ok l.
Proof.
  exists (strip_images_when_unsupported m (normalized (items self))).
  assert (Hp : paired (strip_images_when_unsupported m (normalized (items self))))
    by apply paired_strip, normalized_paired.
  split; [apply normalize_release|]. split; [done|]. split_and!.
  - intros Hm x Hx. unfold strip_images_when_unsupported in Hx. rewrite bool_decide_false in Hx by done.
    apply list_elem_of_fmap in Hx as (y & -> & _). apply strip_no_image.
  - unfold strip_images_when_unsupported. case_bool_decide; [apply normalized_keeps_recorded|].
    apply (fmap_sublist strip_item), normalized_keeps_recorded.
  - intros d. by rewrite normalize_paired, strip_images_idemp.
Qed.

(** ** Dropping items *)

Section dropping.
Context {P : Type}.
Implicit Types (item : ResponseItem P) (l rest : list (ResponseItem P)).

Lemma position_spec (p : ResponseItem P → bool) l :
  match position p l with
  | Some n => ∃ l1 x l2, l = l1 ++ x :: l2 ∧ n = length l1 ∧ p x = true ∧ ∀ y, y ∈ l1 → p y = false
  | None => ∀ y, y ∈ l → p y = false
  end.
Proof.
  induction l as [|x l IH]; simpl; [by intros y Hy%elem_of_nil|].
  destruct (p x) eqn:Hp.
  - exists [], x, l. split_and!; [done..|]. by intros y Hy%elem_of_nil.
  - destruct (position p l) as [n|]; simpl.
    + destruct IH as (l1 & y & l2 & -> & -> & Hy & Hl1). exists (x :: l1), y, l2. split_and!; [done..|].
      intros z [->|Hz]%elem_of_cons; [done|by apply Hl1].
    + intros y [->|Hy]%elem_of_cons; [done|by apply IH].
Qed.

Lemma vec_remove_middle (l1 l2 : list (ResponseItem P)) x :
  vec_remove (E:=Empty_set) (length l1) (l1 ++ x :: l2) = Ok (l1 ++ l2).
Proof.
  unfold vec_remove. rewrite decide_True by (rewrite length_app; simpl; lia).
  rewrite take_app_length, drop_app, drop_ge by lia.
  by replace (S (length l1) - length l1) with 1 by lia.
Qed.

(** Removing an element with a property, or nothing when there is none. *)
Definition removes (p : ResponseItem P → Prop) l l' : Prop :=
  (∃ l1 x l2, l = l1 ++ x :: l2 ∧ p x ∧ l' = l1 ++ l2) ∨ (l' = l ∧ ∀ y, y ∈ l → ¬ p y).

Lemma remove_first_removes (p : ResponseItem P → bool) (Q : ResponseItem P → Prop) l :
  (∀ x, p x = true ↔ Q x) → ∃ l', remove_first_matching p l = Ok l' ∧ removes Q l l'.
Proof.
  intros HQ. unfold remove_first_matching. pose proof (position_spec p l) as Hp.
  destruct (position p l) as [n|].
  - destruct Hp as (l1 & x & l2 & -> & -> & Hx & _). rewrite vec_remove_middle. eexists. split; [done|].
    left. exists l1, x, l2. split_and!; [done|by apply HQ|done].
  - eexists. split; [done|]. right. split; [done|]. intros y Hy Hq%HQ. by rewrite Hp in Hq.
Qed.

(** The counterpart of an item. *)
Definition counterpart item (x : ResponseItem P) : Prop :=
  match call_key item, output_key item with
  | Some k, _ => output_key x = Some k
  | _, Some k => call_key x = Some k
  | _, _ => False
  end.

Lemma remove_call_removes id rest :
  ∃ l', remove_corresponding_for rest (FunctionCallOutput id aborted) = Ok l' ∧
    removes (λ x, call_key x = Some (FunctionFamily, id)) rest l'.
Proof.
  simpl. pose proof (position_spec (is_function_call_of id) rest) as Hp.
  destruct (position (is_function_call_of id) rest) as [n|].
  - destruct Hp as (l1 & x & l2 & -> & -> & Hx & _). rewrite vec_remove_middle. eexists. split; [done|].
    left. exists l1, x, l2. split_and!; [done|apply function_or_shell_call_key; by left|done].
  - pose proof (position_spec (is_local_shell_call_of id) rest) as Hq.
    destruct (position (is_local_shell_call_of id) rest) as [n|].
    + destruct Hq as (l1 & x & l2 & -> & -> & Hx & _). rewrite vec_remove_middle. eexists. split; [done|].
      left. exists l1, x, l2. split_and!; [done|apply function_or_shell_call_key; by right|done].
    + eexists. split; [done|]. right. split; [done|]. intros y Hy Hk%function_or_shell_call_key.
      destruct Hk as [Hk|Hk]; [by rewrite Hp in Hk|by rewrite Hq in Hk].
Qed.

Lemma remove_corresponding_spec rest removed :
  ∃ l', remove_corresponding_for rest removed = Ok l' ∧ removes (counterpart removed) rest l'.
Proof.
  assert (Hnone : ∃ l', Ok rest = (Ok l' : Total _) ∧ removes (λ _, False) rest l').
  { eexists. split; [done|]. right. split; [done|]. tauto. }
  destruct removed as [| |? [id|]| |? [id|]|id ?| | |[id|]| | | | |]; try exact Hnone; unfold counterpart; simpl.
  - apply remove_first_removes. apply function_output_key.
  - apply remove_first_removes. apply function_output_key.
  - apply remove_first_removes. apply search_output_key.
  - apply (remove_call_removes id).
  - apply remove_first_removes. apply custom_output_key.
  - apply remove_first_removes. apply custom_call_key.
  - apply remove_first_removes. apply search_call_key.
Qed.

Lemma removes_Permutation (p : ResponseItem P → Prop) l l' :
  removes p l l' → (∃ x, l ≡ₚ x :: l' ∧ p x) ∨ (l' = l ∧ ∀ y, y ∈ l → ¬ p y).
Proof.
  intros [(l1 & x & l2 & -> & Hx & ->)|H]; [left|by right]. exists x. split; [|done].
  by rewrite Permutation_middle.
Qed.

Lemma unique_call l c c' k :
  unique_keys (c :: l) → call_key c = Some k → c' ∈ l → call_key c' = Some k → False.
Proof.
  intros [Hn _] Hk Hin Hk'. simpl in Hn. rewrite Hk in Hn. apply NoDup_cons in Hn as [Hn _].
  apply Hn, list_elem_of_omap. eauto.
Qed.
Lemma unique_output l o o' k :
  unique_keys (o :: l) → output_key o = Some k → o' ∈ l → output_key o' = Some k → False.
Proof.
  intros [_ Hn] Hk Hin Hk'. simpl in Hn. rewrite Hk in Hn. apply NoDup_cons in Hn as [Hn _].
  apply Hn, list_elem_of_omap. eauto.
Qed.
Lemma unique_keys_tail x l : unique_keys (x :: l) → unique_keys l.
Proof.
  unfold unique_keys. simpl. intros [Hc Ho]. split.
  - destruct (call_key x); [by apply NoDup_cons in Hc as [_ ?]|done].
  - destruct (output_key x); [by apply NoDup_cons in Ho as [_ ?]|done].
Qed.

(** An item and its counterpart leave together, and the rest stays paired. *)
Lemma drop_pair x y l :
  unique_keys (x :: y :: l) → paired (x :: y :: l) → counterpart x y → paired l.
Proof.
  intros Hu [Hans Hcall] Hxy.
  assert (Hux := unique_keys_tail _ _ Hu).
  assert (Huy : unique_keys (y :: x :: l)) by (by rewrite Permutation_swap).
  assert (Hk : ∃ k, (call_key x = Some k ∧ output_key y = Some k) ∨ (output_key x = Some k ∧ call_key y = Some k)).
  { unfold counterpart in Hxy. destruct (call_key x) as [k|]; [exists k; auto|].
    destruct (output_key x) as [k|]; [exists k; auto|done]. }
  destruct Hk as (k & Hk).
  assert (Hnc : ∀ c, c ∈ l → call_key c ≠ Some k).
  { intros c Hc Hkc. destruct Hk as [[Hx Hy]|[Hx Hy]].
    - eapply (unique_call (y :: l) x c); [done|done|by right|done].
    - eapply (unique_call l y c); [done|done|done|done]. }
  assert (Hno : ∀ o, o ∈ l → output_key o ≠ Some k).
  { intros o Ho Hko. destruct Hk as [[Hx Hy]|[Hx Hy]].
    - eapply (unique_output l y o); [done|done|done|done].
    - eapply (unique_output (y :: l) x o); [done|done|by right|done]. }
  assert (Hxyk : ∀ k', (output_key x = Some k' ∨ output_key y = Some k' ∨ call_key x = Some k' ∨ call_key y = Some k')
                 → k' = k).
  { intros k' H. destruct Hk as [[Hx Hy]|[Hx Hy]].
    - pose proof (call_not_output _ _ Hx). pose proof (output_not_call _ _ Hy). destruct_or! H; congruence.
    - pose proof (output_not_call _ _ Hx). pose proof (call_not_output _ _ Hy). destruct_or! H; congruence. }
  split.
  - intros c k' Hc Hkc. destruct (Hans c k') as (o & Ho & Hko); [by do 2 right|done|].
    rewrite !elem_of_cons in Ho. destruct Ho as [->|[->|Ho]]; [| |by exists o].
    all: assert (k' = k) as -> by (apply Hxyk; auto); by destruct (Hnc c Hc).
  - intros o k' Ho Hko Hs. destruct (Hcall o k') as (c & Hc & Hkc); [by do 2 right|done..|].
    rewrite !elem_of_cons in Hc. destruct Hc as [->|[->|Hc]]; [| |by exists c].
    all: assert (k' = k) as -> by (apply Hxyk; auto); by destruct (Hno o Ho).
Qed.

(** An item without a counterpart leaves alone. *)
Lemma drop_single x l :
  unique_keys (x :: l) → paired (x :: l) → (∀ y, y ∈ l → ¬ counterpart x y) → paired l.
Proof.
  intros Hu [Hans Hcall] Hno. split.
  - intros c k Hc Hk. destruct (Hans c k) as (o & Ho & Hko); [by right|done|].
    apply elem_of_cons in Ho as [->|Ho]; [|by exists o]. exfalso. apply (Hno c Hc).
    unfold counterpart. by rewrite (output_not_call _ _ Hko), Hko.
  - intros o k Ho Hk Hs. destruct (Hcall o k) as (c & Hc & Hkc); [by right|done..|].
    apply elem_of_cons in Hc as [->|Hc]; [|by exists c]. exfalso. apply (Hno o Ho).
    unfold counterpart. by rewrite Hkc.
Qed.

Lemma remove_corresponding_paired rest removed :
  unique_keys (removed :: rest) → paired (removed :: rest) →
  ∃ l', remove_corresponding_for rest removed = Ok l' ∧ unique_keys l' ∧ paired l' ∧ l' `sublist_of` rest.
Proof.
  intros Hu Hp. destruct (remove_corresponding_spec rest removed) as (l' & -> & Hrem).
  exists l'. split; [done|].
  assert (Hsub : l' `sublist_of` rest).
  { destruct Hrem as [(l1 & x & l2 & -> & _ & ->)|[-> _]]; [|done].
    apply sublist_app; [done|]. by apply sublist_cons. }
  destruct (removes_Permutation _ _ _ Hrem) as [(y & Hy & Hc)|[-> Hno]].
  - rewrite Hy in Hu, Hp. split_and!; [|by eapply drop_pair|done].
    by eapply unique_keys_tail, unique_keys_tail.
  - split_and!; [by eapply unique_keys_tail|by eapply drop_single|done].
Qed.
End dropping.

(** Dropping the oldest or the newest item keeps the pairs together.  From
    a paired history in which no call id is used twice, both operations give
    a paired history in which no call id is used twice, and what is left was
    there before, in the same order; the newest item is really gone. *)
Theorem removal_keeps_pairs {P T : Type} (self : ContextManager P T) :
  unique_keys (items self) → paired (items self) →
  (∃ self', remove_first_item self = Ok self' ∧ unique_keys (items self') ∧ paired (items self') ∧
     items self' `sublist_of` tail (items self)) ∧
  (∃ self' b, remove_last_item self = Ok (self', b) ∧ unique_keys (items self') ∧ paired (items self') ∧
     items self' `sublist_of` vec_pop (items self) ∧ (b = true ↔ items self ≠ [])).
Proof.
  intros Hu Hp. split.
  - unfold remove_first_item. destruct (items self) as [|x rest] eqn:E.
    { exists self. rewrite E. done. }
    destruct (remove_corresponding_paired rest x Hu Hp) as (l & -> & ? & ? & ?). cbn [mbind Res_bind].
    eexists. done.
  - unfold remove_last_item. destruct (last (items self)) as [x|] eqn:E.
    + assert (Hi : items self = vec_pop (items self) ++ [x]) by (by apply last_snoc_take).
      assert (Hne : items self ≠ []) by (by intros H; rewrite H in E).
      destruct (remove_corresponding_paired (vec_pop (items self)) x) as (l & -> & ? & ? & ?).
      { by rewrite Permutation_cons_append, <-Hi. }
      { by rewrite Permutation_cons_append, <-Hi. }
      cbn [mbind Res_bind]. eexists _, _. split; [done|]. simpl. split_and!; done.
    + apply last_None in E. eexists _, _. split; [done|]. rewrite E in *. done.
Qed.

Definition demo_history : ContextManager unit unit :=
  mkManager [FunctionCall None (lit "shell") None [] (lit "1"); LocalShellCall None (Some (lit "2")) () ();
             FunctionCallOutput (lit "2") aborted; FunctionCallOutput (lit "1") aborted;
             ToolSearchOutput (Some (lit "9")) [] (lit "server") []] 0 None None.

Lemma demo_history_paired : paired (items demo_history).
Proof.
  split; intros x k Hx Hk; [|intros Hs]; simpl in Hx; rewrite !elem_of_cons, elem_of_nil in Hx;
    destruct_or! Hx; try done; subst x; simplify_eq/=.
  - exists (FunctionCallOutput (lit "1") aborted). split; [do 3 right; by left|done].
  - exists (FunctionCallOutput (lit "2") aborted). split; [do 2 right; by left|done].
  - exists (LocalShellCall None (Some (lit "2")) () ()). split; [right; by left|done].
  - exists (FunctionCall None (lit "shell") None [] (lit "1")). split; [by left|done].
Qed.

Lemma removal_keeps_pairs_witness :
  unique_keys (items demo_history) ∧ paired (items demo_history) ∧
  (∃ self', remove_first_item demo_history = Ok self' ∧ unique_keys (items self') ∧ paired (items self') ∧
     items self' `sublist_of` tail (items demo_history)) ∧
  (∃ self' b, remove_last_item demo_history = Ok (self', b) ∧ unique_keys (items self') ∧
     paired (items self') ∧ items self' `sublist_of` vec_pop (items demo_history) ∧
     (b = true ↔ items demo_history ≠ [])).
Proof.
  assert (Hu : unique_keys (items demo_history)) by (split; by_compute).
  split; [exact Hu|]. split; [exact demo_history_paired|].
  apply (removal_keeps_pairs demo_history Hu demo_history_paired).
Defined.

(** ** Rolling back *)

Section rollback.
Context {P T : Type} (contextual_user_text inter_agent_json : str → bool).
Implicit Types (item : ResponseItem P) (l : list (ResponseItem P)) (self : ContextManager P T).

Local Abbreviation boundary := (is_user_turn_boundary (P:=P) contextual_user_text inter_agent_json).
Local Abbreviation positions := (user_message_positions_from (P:=P) contextual_user_text inter_agent_json).
Local Abbreviation trim_updates := (trim_pre_turn_context_updates (P:=P) (T:=T) contextual_user_text).
Local Abbreviation drop_turns := (drop_last_n_user_turns (P:=P) (T:=T) contextual_user_text inter_agent_json).

(** How many turns a history has. *)
Definition turns l : nat := length (List.filter boundary l).

(** Messages that only bring context. *)
Definition context_update item : bool :=
  match item with
  | Message _ role content _ =>
      (bool_decide (role = lit "developer") && is_contextual_dev_message_content content) ||
      (bool_decide (role = lit "user") && is_contextual_user_message_content contextual_user_text content)
  | _ => false
  end.
(** Those that bring context together with lasting instructions. *)
Definition mixed item : bool :=
  match item with
  | Message _ role content _ =>
      bool_decide (role = lit "developer") && is_contextual_dev_message_content content &&
      has_non_contextual_dev_message_content content
  | _ => false
  end.

Lemma turns_app l l' : turns (l ++ l') = turns l + turns l'.
Proof. unfold turns. by rewrite List.filter_app, length_app. Qed.

Lemma context_update_no_turn item : context_update item = true → boundary item = false.
Proof.
  destruct item as [id role content phase| | | | | | | | | | | | |]; try done. simpl.
  rewrite orb_true_iff, !andb_true_iff, !bool_decide_eq_true.
  intros [[-> _]|[-> ->]]; by vm_compute.
Qed.

Lemma turns_context_updates l : Forall (λ x, context_update x = true) l → turns l = 0.
Proof.
  induction 1 as [|x l Hx _ IH]; [done|]. unfold turns in *. simpl. by rewrite context_update_no_turn.
Qed.

(** Each position is that of a turn, and there are as many turns before it as
    positions. *)
Lemma positions_spec idx l :
  length (positions idx l) = turns l ∧
  ∀ j i, positions idx l !! j = Some i →
    ∃ a x b, l = a ++ x :: b ∧ i = idx + length a ∧ boundary x = true ∧ turns a = j.
Proof.
  revert idx; induction l as [|y l IH]; intros idx; [done|].
  destruct (IH (S idx)) as [Hlen Hpos]. cbn [user_message_positions_from]. unfold turns in *. simpl.
  destruct (boundary y) eqn:Hy; simpl.
  - split; [by rewrite Hlen|]. intros [|j] i Hi; simpl in Hi.
    + injection Hi as <-. exists [], y, l. split_and!; [done|simpl; lia|done|done].
    + destruct (Hpos j i Hi) as (a & x & b & -> & -> & Hx & Ha). exists (y :: a), x, b.
      split_and!; [done|simpl; lia|done|]. simpl. rewrite Hy. simpl. by rewrite Ha.
  - split; [done|]. intros j i Hi. destruct (Hpos j i Hi) as (a & x & b & -> & -> & Hx & Ha).
    exists (y :: a), x, b. split_and!; [done|simpl; lia|done|]. simpl. by rewrite Hy.
Qed.

(** The walk back over context updates stops at the first turn or at an item
    that is none. *)
Lemma trim_spec l first cut reference :
  first ≤ cut ≤ length l →
  ∃ cut', trim_updates l first cut reference
      = Ok (cut', if existsb mixed (drop cut' (take cut l)) then None else reference) ∧
    first ≤ cut' ≤ cut ∧ Forall (λ x, context_update x = true) (drop cut' (take cut l)).
Proof.
  revert reference; induction cut as [|cut IH]; intros reference [Hf Hl].
  { exists 0. simpl. split_and!; [done|lia|lia|constructor]. }
  cbn [trim_pre_turn_context_updates]. case_decide as Hd.
  { exists (S cut). rewrite drop_ge by (rewrite length_take; lia). split_and!; [done|lia|lia|constructor]. }
  destruct (lookup_lt_is_Some_2 l cut) as [x Hx]; [lia|].
  assert (Hstop : ∃ cut', Ok (S cut, reference) =
      (Ok (cut', if existsb mixed (drop cut' (take (S cut) l)) then None else reference) : Total _) ∧
    first ≤ cut' ≤ S cut ∧ Forall (λ x, context_update x = true) (drop cut' (take (S cut) l))).
  { exists (S cut). rewrite drop_ge by (rewrite length_take; lia). split_and!; [done|lia|lia|constructor]. }
  assert (Hgo : ∀ reference', context_update x = true → reference' = (if mixed x then None else reference) →
    ∃ cut', trim_updates l first cut reference' =
      (Ok (cut', if existsb mixed (drop cut' (take (S cut) l)) then None else reference) : Total _) ∧
    first ≤ cut' ≤ S cut ∧ Forall (λ x, context_update x = true) (drop cut' (take (S cut) l))).
  { intros reference' Hup ->. destruct (IH (if mixed x then None else reference)) as (cut' & -> & Hc & Hall); [lia|].
    exists cut'. rewrite (take_S_r _ _ _ Hx), drop_app_le by (rewrite length_take; lia).
    split_and!; [|lia|lia|by apply Forall_app; split; [|repeat constructor]].
    do 2 f_equal. rewrite existsb_app. simpl. by destruct (existsb mixed _), (mixed x). }
  unfold index. rewrite Hx. cbn [mbind Res_bind].
  destruct x as [id role content phase| | | | | | | | | | | | |]; try exact Hstop.
  simpl in Hgo. destruct (bool_decide (role = lit "developer") && is_contextual_dev_message_content content) eqn:E1.
  - apply Hgo; [done|]. by destruct (has_non_contextual_dev_message_content content).
  - destruct (bool_decide (role = lit "user") && is_contextual_user_message_content contextual_user_text content);
      [by apply Hgo|exact Hstop].
Qed.

(** What a rollback of [n] turns leaves of a history: a beginning of it with
    [n] turns less (none when there are not so many).  What goes is context
    updates, and then, if anything was to be dropped, a turn and all after
    it; what comes before the first turn stays.  The baseline is forgotten
    exactly when a mixed context message went. *)
Definition rolled_back (n : nat) self (self' : ContextManager P T) : Prop :=
  ∃ trimmed dropped, items self = items self' ++ trimmed ++ dropped ∧
    turns (items self') = turns (items self) - n ∧
    Forall (λ x, context_update x = true) trimmed ∧
    (n ≠ 0 → turns (items self) ≠ 0 → ∃ x r, dropped = x :: r ∧ boundary x = true) ∧
    (∀ pre x post, items self = pre ++ x :: post → boundary x = true → turns pre = 0 →
       pre `prefix_of` items self') ∧
    reference_context_item self' = (if existsb mixed trimmed then None else reference_context_item self).

(** The first turn is at the first position. *)
Lemma first_turn l first pre x post rest :
  positions 0 l = first :: rest → l = pre ++ x :: post → boundary x = true → turns pre = 0 →
  length pre = first.
Proof.
  intros Hpos Hl Hx Hpre. destruct (positions_spec 0 l) as [_ Hp].
  destruct (Hp 0 first) as (a & y & b & E & -> & Hy & Ha); [by rewrite Hpos|]. simpl.
  rewrite Hl in E. clear -E Hx Hy Ha Hpre. revert a E Ha; induction pre as [|z pre IH]; intros [|w a] E Ha.
  - done.
  - injection E as -> _. unfold turns in Ha. simpl in Ha. by rewrite Hx in Ha.
  - injection E as -> _. unfold turns in Hpre. simpl in Hpre. by rewrite Hy in Hpre.
  - injection E as -> E. unfold turns in *. simpl in *. f_equal. destruct (boundary w); [done|]. by apply IH.
Qed.

(** The cut is at a turn, with the right number of turns before it. *)
Lemma cut_position n l first rest :
  positions 0 l = first :: rest → n ≠ 0 →
  ∃ a x b, l = a ++ x :: b ∧ boundary x = true ∧ turns a = turns l - n ∧ first ≤ length a ∧
    (if decide (length (first :: rest) ≤ n) then Ok first
     else index (length (first :: rest) - n) (first :: rest)) = (Ok (length a) : Total nat).
Proof.
  intros E Hn. destruct (positions_spec 0 l) as [Hlen Hpos]. rewrite E in *.
  assert (Hcut : ∃ cut, (if decide (length (first :: rest) ≤ n) then Ok first
      else index (length (first :: rest) - n) (first :: rest)) = (Ok cut : Total nat) ∧
    (first :: rest) !! (length (first :: rest) - n) = Some cut).
  { case_decide.
    - exists first. by replace (length (first :: rest) - n) with 0 by lia.
    - unfold index. destruct (lookup_lt_is_Some_2 (first :: rest) (length (first :: rest) - n)) as [c Hc];
        [simpl in *; lia|]. exists c. by rewrite Hc. }
  destruct Hcut as (cut & -> & Hcut).
  destruct (Hpos _ _ Hcut) as (a & x & b & Hl & -> & Hx & Ha). rewrite Nat.add_0_l in *.
  destruct (Hpos 0 first eq_refl) as (a0 & x0 & b0 & Hl0 & -> & Hx0 & Ha0). rewrite Nat.add_0_l in *.
  exists a, x, b. split_and!; [done|done|by rewrite Ha, Hlen| |done].
  destruct (decide (length a0 ≤ length a)) as [|Hgt]; [done|]. exfalso.
  assert (Htake : a0 = a ++ x :: take (length a0 - length a - 1) b).
  { rewrite <-(take_app_length a0 (x0 :: b0)) at 1. rewrite <-Hl0, Hl, take_app, take_ge by lia. f_equal.
    destruct (length a0 - length a) as [|k] eqn:Ek; [lia|]. simpl. by rewrite ?Nat.sub_0_r. }
  rewrite Htake, turns_app in Ha0. unfold turns in Ha0. simpl in Ha0. rewrite Hx in Ha0. simpl in Ha0. lia.
Qed.

Lemma rollback_spec n self : ∃ self', drop_turns n self = Ok self' ∧ rolled_back n self self'.
Proof.
  unfold drop_last_n_user_turns. case_decide as Hn.
  { exists self. split; [done|]. exists [], []. rewrite !app_nil_r. split_and!; [done|lia|constructor|done| |done].
    intros pre x post -> _ _. by exists (x :: post). }
  unfold user_message_positions. destruct (positions 0 (items self)) as [|first rest] eqn:E.
  { destruct (positions_spec 0 (items self)) as [Hlen _]. rewrite E in Hlen.
    eexists. split; [done|]. exists [], []. simpl in Hlen. simpl. rewrite !app_nil_r.
    split_and!; [done|lia|constructor|lia| |done]. intros pre x post -> _ _. by exists (x :: post). }
  destruct (cut_position n _ _ _ E Hn) as (a & x & b & Hl & Hx & Ha & Hle & ->). cbn [mbind Res_bind].
  destruct (trim_spec (items self) first (length a) (reference_context_item self)) as (cut' & -> & Hc & Hall).
  { rewrite Hl, length_app. simpl. lia. }
  cbn [mbind Res_bind fst snd]. unfold slice_to.
  rewrite decide_True by (rewrite Hl, length_app; simpl; lia). cbn [mbind Res_bind].
  eexists. split; [done|].
  assert (Htk : take (length a) (items self) = a) by (by rewrite Hl, take_app_length).
  rewrite Htk in *.
  assert (Hcut' : take cut' (items self) = take cut' a) by (rewrite Hl, take_app_le by lia; done).
  exists (drop cut' a), (x :: b). simpl. rewrite Hcut'. split_and!; [| |done| | |done].
  - rewrite Hl, app_assoc, take_drop. done.
  - rewrite <-Ha. rewrite <-(take_drop cut' a) at 2.
    rewrite turns_app, (turns_context_updates (drop cut' a)) by done. lia.
  - intros _ _. by exists x, b.
  - intros pre y post Hpre Hy Ht0. pose proof (first_turn _ _ _ _ _ _ E Hpre Hy Ht0) as Hfirst.
    exists (drop (length pre) (take cut' a)).
    assert (Hp : take (length pre) (take cut' a) = pre).
    { rewrite <-Hcut', take_take, Nat.min_l by lia. by rewrite Hpre, take_app_length. }
    rewrite <-Hp at 1. by rewrite take_drop.
Qed.
End rollback.

(** A rollback removes exactly the requested turns.  For every history and
    every number of turns it returns, and leaves a beginning of the history
    with that many turns less, or none if there are not so many.  What goes,
    apart from messages that only bring context, starts with a turn; what
    stands before the first turn always stays; and the stored baseline is
    dropped exactly when a message goes that mixes context with lasting
    instructions. *)
Theorem rollback_drops_turns {P T : Type} contextual_user_text inter_agent_json (n : nat)
    (self : ContextManager P T) :
  ∃ self', drop_last_n_user_turns contextual_user_text inter_agent_json n self = Ok self' ∧
    rolled_back contextual_user_text inter_agent_json n self self'.
Proof. apply rollback_spec. Qed.

(** A rollback without a turn to roll back leaves the items alone, but not
    the history: its version goes up, as if it had been rewritten. *)
Theorem empty_rollback_bumps_version {P T : Type} contextual_user_text inter_agent_json (n : nat)
    (self : ContextManager P T) :
  n ≠ 0 → turns contextual_user_text inter_agent_json (items self) = 0 →
  (history_version self < usize_max)%N →
  ∃ self', drop_last_n_user_turns contextual_user_text inter_agent_json n self = Ok self' ∧
    items self' = items self ∧ history_version self' = (history_version self + 1)%N.
Proof.
  intros Hn Ht Hv. unfold drop_last_n_user_turns. rewrite decide_False by done. unfold user_message_positions.
  destruct (positions_spec contextual_user_text inter_agent_json 0 (items self)) as [Hlen _].
  rewrite Ht in Hlen. apply nil_length_inv in Hlen. rewrite Hlen. eexists. split; [done|]. split; [done|].
  simpl. apply saturating_add_exact. lia.
Qed.

Lemma empty_rollback_bumps_version_witness :
  ∃ self', drop_last_n_user_turns (λ _, false) (λ _, false) 1 demo_history = Ok self' ∧
    items self' = items demo_history ∧ history_version self' = 1%N.
Proof.
  apply (empty_rollback_bumps_version (λ _, false) (λ _, false) 1 demo_history).
  - discriminate.
  - reflexivity.
  - reflexivity.
Defined.

(** ** Recording *)

Section recording.
Context {P T : Type}.
Implicit Types (item x y : ResponseItem P) (self : ContextManager P T).

Definition payload_of item : option FunctionCallOutputPayload :=
  match item with
  | FunctionCallOutput _ output | CustomToolCallOutput _ _ output => Some output
  | _ => None
  end.

(** The texts of an output are allocated. *)
Definition sized item : Prop :=
  match body <$> payload_of item with
  | Some (BodyText t) => (utf8_len t <= isize_max)%N
  | Some (BodyContentItems l) =>
      (∀ t, OutputInputText t ∈ l → utf8_len t <= isize_max)%N ∧ (len l <= usize_max)%N
  | None => True
  end.

(** The bytes of text in an output. *)
Definition output_bytes item : N :=
  match body <$> payload_of item with
  | Some (BodyText t) => utf8_len t
  | Some (BodyContentItems l) => text_bytes l
  | None => 0
  end.

(** The most bytes of text that a policy lets into the history per output. *)
Definition output_limit (policy : TruncationPolicy) : N :=
  let scaled := with_serialization_budget policy in
  (unit_bytes scaled (limit scaled) + MARKER_MAX + NOTE_MAX)%N.

(** What may become of an item: the same item, or the same kind of output of
    the same call with less text.  A text within the policy stays. *)
Definition recorded_as (policy : TruncationPolicy) x y : Prop :=
  call_key y = call_key x ∧ output_key y = output_key x ∧
  (payload_of x = None → y = x) ∧
  (output_bytes y <= output_limit policy)%N ∧
  (∀ t, body <$> payload_of x = Some (BodyText t) → (limit policy < 2 ^ 52)%N →
     (utf8_len t <= byte_budget policy)%N → y = x).

Lemma scaled_budget policy :
  (limit policy < 2 ^ 52)%N → (byte_budget policy <= byte_budget (with_serialization_budget policy))%N.
Proof.
  destruct policy as [n|n]; simpl; intros Hn; pose proof (times_1_2_ge n Hn); [done|].
  unfold approx_bytes_for_tokens, saturating_mul, APPROX_BYTES_PER_TOKEN. lia.
Qed.

Lemma byte_budget_le policy : (byte_budget policy <= unit_bytes policy (limit policy))%N.
Proof.
  destruct policy; simpl; unfold approx_bytes_for_tokens, saturating_mul, APPROX_BYTES_PER_TOKEN; lia.
Qed.

Lemma truncate_payload_spec output policy :
  match body output with
  | BodyText t => (utf8_len t <= isize_max)%N
  | BodyContentItems l => (∀ t, OutputInputText t ∈ l → utf8_len t <= isize_max)%N ∧ (len l <= usize_max)%N
  end →
  ∃ output', truncate_function_output_payload output (with_serialization_budget policy) = Ok output' ∧
    (match body output' with BodyText t => utf8_len t | BodyContentItems l => text_bytes l end
      <= output_limit policy)%N ∧
    (∀ t, body output = BodyText t → (limit policy < 2 ^ 52)%N → (utf8_len t <= byte_budget policy)%N →
      output' = output).
Proof.
  unfold truncate_function_output_payload, output_limit. destruct output as [[t|l] s]; simpl.
  - intros Ht. destruct (truncate_text_bound t (with_serialization_budget policy)) as (t' & -> & Hlen & Hfit).
    { unfold isize_max, usize_max in *. lia. }
    cbn [mbind Res_bind fmap Res_fmap]. eexists. split; [done|]. simpl.
    pose proof (byte_budget_le (with_serialization_budget policy)). split; [lia|].
    intros t0 [= <-] Hlim Hb. rewrite Hfit; [done|]. pose proof (scaled_budget policy Hlim). lia.
  - intros [Ht Hl].
    destruct (truncate_items_spec l (with_serialization_budget policy) Ht Hl) as (l' & -> & _ & Hb & _).
    cbn [mbind Res_bind fmap Res_fmap]. eexists. split; [done|]. simpl. split; [lia|done].
Qed.

Lemma process_item_spec x policy : sized x → ∃ y, process_item x policy = Ok y ∧ recorded_as policy x y.
Proof.
  unfold recorded_as, sized.
  destruct x as [| | | | |id output| |id name output| | | | | |]; cbn [payload_of fmap option_fmap option_map process_item];
    try (intros _; eexists; split; [reflexivity|]; split_and!; first [done | apply N.le_0_l]).
  all: intros Hs; destruct (truncate_payload_spec output policy) as (o' & -> & Hb & Hfit);
    [by destruct (body output)|]; cbn [fmap Res_fmap]; eexists; (split; [reflexivity|]);
    split_and!; first [done | intros t [= Ht] Hlim Hlen; by rewrite (Hfit t)].
Qed.
End recording.

(** What is recorded is bounded.  Recording never fails: every API message is
    added at the end, in order, and system messages and unknown items are
    left out.  An item that is no tool output is added as it is; a tool output
    stays the output of its call, its text takes at most the budget of the
    policy with the serialization allowance, one marker and one note, and a
    text within the policy itself is not touched. *)
Theorem record_items_bounds {P T : Type} (l : list (ResponseItem P)) policy (self : ContextManager P T) :
  (∀ x, x ∈ l → sized x) →
  ∃ self' added, record_items l policy self = Ok self' ∧ items self' = items self ++ added ∧
    Forall2 (recorded_as policy) (List.filter is_api_message l) added ∧
    history_version self' = history_version self.
Proof.
  revert self; induction l as [|x l IH]; intros self Hs; simpl.
  { exists self, []. rewrite app_nil_r. split_and!; [done..|constructor|done]. }
  assert (Hs' : ∀ y, y ∈ l → sized y) by (intros y Hy; apply Hs; by right).
  destruct (is_api_message x) eqn:Hx; simpl; [|by apply IH].
  destruct (process_item_spec x policy) as (y & -> & Hy); [apply Hs; by left|]. cbn [mbind Res_bind].
  destruct (IH (with_items (items self ++ [y]) self) Hs') as (self' & added & -> & Hi & Hf & Hv).
  exists self', (y :: added). simpl in *. rewrite Hi, <-app_assoc.
  split_and!; [done|done|by constructor|done].
Qed.

Lemma record_items_bounds_witness :
  ∃ self' added, record_items [FunctionCallOutput (lit "1") (from_text (lit "abcdefghij")); Other]
      (PolicyBytes 4) demo_history = Ok self' ∧ items self' = items demo_history ++ added ∧
    Forall2 (recorded_as (PolicyBytes 4))
      [FunctionCallOutput (lit "1") (from_text (lit "abcdefghij"))] added ∧
    history_version self' = history_version demo_history.
Proof.
  apply (record_items_bounds [FunctionCallOutput (lit "1") (from_text (lit "abcdefghij")); Other]
    (PolicyBytes 4) demo_history).
  intros x Hx. rewrite !elem_of_cons, elem_of_nil in Hx. destruct Hx as [->|[->|[]]]; [vm_compute; discriminate|exact I].
Defined.

(** ** Reachable histories *)

(** What the model's API takes as a message of the conversation. *)
Definition recordable {P} (x : ResponseItem P) : Prop :=
  match x with
  | Message _ role _ _ => role ≠ lit "system"
  | Other => False
  | _ => True
  end.
#[global] Instance recordable_dec {P} (x : ResponseItem P) : Decision (recordable x).
Proof. destruct x; simpl; apply _. Defined.

Lemma is_api_message_spec {P} (l : list (ResponseItem P)) : List.filter is_api_message l = filter recordable l.
Proof.
  induction l as [|x l IH]; [done|]. rewrite filter_cons. simpl. rewrite IH.
  destruct x as [id role content phase| | | | | | | | | | | | |];
    case_decide as H; simpl in H; simpl; try tauto; try done.
  - by rewrite bool_decide_false.
  - simpl. by case_bool_decide.
Qed.

(** The operations of a history, with what they are given; [OpReplace] takes
    any items, as rollout files and compaction supply them. *)
Inductive history_op {P T : Type} :=
| OpRecord (l : list (ResponseItem P)) (policy : TruncationPolicy)
| OpRemoveFirst
| OpRemoveLast
| OpReplace (l : list (ResponseItem P))
| OpImages (placeholder : str)
| OpRollback (n : nat)
| OpUsageFull (window : Z)
| OpUsage (usage : TokenUsage) (window : option Z)
| OpTokenInfo (info : option TokenUsageInfo)
| OpReference (r : option T).
Arguments history_op : clear implicits.

Section reachable.
Context {P T : Type} (contextual_user_text inter_agent_json : str → bool).
Implicit Types (self : ContextManager P T) (op : history_op P T).

(** One operation in a release build. *)
Definition perform op self : Total (ContextManager P T) :=
  match op with
  | OpRecord l policy => record_items l policy self
  | OpRemoveFirst => remove_first_item self
  | OpRemoveLast => fst <$> remove_last_item self
  | OpReplace l => Ok (replace l self)
  | OpImages placeholder =>
      Ok (replace_last_turn_images contextual_user_text inter_agent_json placeholder self).1
  | OpRollback n => drop_last_n_user_turns contextual_user_text inter_agent_json n self
  | OpUsageFull window => set_token_usage_full false window self
  | OpUsage usage window => update_token_info false usage window self
  | OpTokenInfo info => Ok (set_token_info info self)
  | OpReference r => Ok (set_reference_context_item r self)
  end.

Fixpoint perform_all (ops : list (history_op P T)) self : Total (ContextManager P T) :=
  match ops with
  | [] => Ok self
  | op :: ops' => self ← perform op self; perform_all ops' self
  end.

Definition op_sized op : Prop :=
  match op with OpRecord l _ => ∀ x, x ∈ l → sized x | _ => True end.

(** The same item, or the same kind of output of the same call. *)
Definition same_role (x y : ResponseItem P) : Prop :=
  call_key y = call_key x ∧ output_key y = output_key x ∧ (payload_of x = None → y = x).

(** What an operation does to the items. *)
Definition effect op self self' : Prop :=
  match op with
  | OpRecord l policy => ∃ added, items self' = items self ++ added ∧
      Forall2 (recorded_as policy) (filter recordable l) added
  | OpRemoveFirst | OpRemoveLast => items self' `sublist_of` items self
  | OpRollback n => items self' `prefix_of` items self ∧ (n = 0 → items self' = items self)
  | OpReplace l => items self' = l
  | OpImages _ => Forall2 same_role (items self) (items self')
  | _ => items self' = items self
  end.

(** The operations that leave what is there as it was written, dropping the
    oldest item apart; all others rewrite it. *)
Definition stands op self self' : Prop :=
  match op with
  | OpReplace _ => False
  | OpRemoveLast => items self = []
  | OpRollback n => n = 0
  | OpImages _ => items self' = items self
  | _ => True
  end.

(** An operation does what it is for and bumps the version exactly when it
    rewrites. *)
Definition performs op self self' : Prop :=
  effect op self self' ∧
  (stands op self self' ∧ history_version self' = history_version self ∨
   ¬ stands op self self' ∧ history_version self' = saturating_add (history_version self) 1).

Lemma performs_record l policy self :
  (∀ x, x ∈ l → sized x) →
  ∃ self', record_items l policy self = Ok self' ∧ performs (OpRecord l policy) self self'.
Proof.
  intros Hs. destruct (record_items_bounds l policy self Hs) as (self' & added & Hr & Hi & Hf & Hv).
  exists self'. split; [done|]. split; [|by left]. exists added. by rewrite <-is_api_message_spec.
Qed.

Lemma removes_sublist (rest : list (ResponseItem P)) removed :
  ∃ l', remove_corresponding_for rest removed = Ok l' ∧ l' `sublist_of` rest.
Proof.
  destruct (remove_corresponding_spec rest removed) as (l & Hl & Hr). exists l. split; [done|].
  destruct Hr as [(l1 & x & l2 & -> & _ & ->)|[-> _]]; [|done].
  apply sublist_app; [done|]. by apply sublist_cons.
Qed.

Lemma remove_corresponding_sublist (rest : list (ResponseItem P)) removed l' :
  remove_corresponding_for rest removed = Ok l' → l' `sublist_of` rest.
Proof. destruct (removes_sublist rest removed) as (l & -> & ?). by intros [= <-]. Qed.

Lemma performs_remove_first self :
  ∃ self', remove_first_item self = Ok self' ∧ performs OpRemoveFirst self self'.
Proof.
  unfold remove_first_item, performs. destruct (items self) as [|x rest] eqn:E.
  { exists self. split; [done|]. simpl. rewrite E. split; [done|by left]. }
  destruct (removes_sublist rest x) as (l & -> & Hl). cbn [mbind Res_bind]. eexists. split; [done|].
  simpl. rewrite E. split; [by apply sublist_cons|by left].
Qed.

Lemma performs_remove_last self :
  ∃ self', fst <$> remove_last_item self = Ok self' ∧ performs OpRemoveLast self self'.
Proof.
  unfold remove_last_item, performs. simpl. destruct (last (items self)) as [x|] eqn:E.
  - destruct (removes_sublist (vec_pop (items self)) x) as (l & -> & Hl). cbn.
    eexists. split; [done|]. simpl. split.
    + etrans; [exact Hl|]. apply sublist_take.
    + right. split; [|done]. intros H. by rewrite H in E.
  - apply last_None in E. cbn. exists self. split; [done|]. split; [done|by left].
Qed.

Lemma strip_outputs_changed placeholder l :
  map (strip_output_item placeholder) l = l ↔ existsb is_output_image l = false.
Proof.
  induction l as [|[t|u d] l IH]; simpl; [done| |done].
  rewrite <-IH. split; [by intros [= H]|by intros ->].
Qed.

Lemma performs_images placeholder self :
  performs (OpImages placeholder) self
    (replace_last_turn_images contextual_user_text inter_agent_json placeholder self).1.
Proof.
  assert (Hid : performs (OpImages placeholder) self self).
  { split; [|by left]. apply Reflexive_instance_0. by intros x. }
  unfold replace_last_turn_images. destruct (rposition _ _) as [index|]; [|done].
  destruct (items self !! index) as [x|] eqn:Hx; [|done]. destruct x as [| | | | |id o| | | | | | | |]; try done.
  destruct o as [[t|l] s]; simpl; [done|]. pose proof (strip_outputs_changed placeholder l) as Hch.
  set (y := FunctionCallOutput id (mkPayload (BodyContentItems (map (strip_output_item placeholder) l)) s)).
  assert (Hrole : Forall2 same_role (items self) (<[index := y]> (items self))).
  { apply Forall2_same_length_lookup_2; [by rewrite length_insert|]. intros i a b Ha Hb.
    destruct (decide (index = i)) as [<-|Hne].
    - rewrite list_lookup_insert_eq in Hb by (by eapply lookup_lt_Some). rewrite Hx in Ha.
      injection Ha as <-. by injection Hb as <-.
    - rewrite list_lookup_insert_ne in Hb by done. rewrite Ha in Hb. by injection Hb as <-. }
  destruct (existsb is_output_image l) eqn:Hl; (split; [done|]); simpl.
  - right. split; [|done]. intros Heq.
    assert (Hy : items self !! index = Some y).
    { rewrite <-Heq at 1. apply list_lookup_insert_eq. by eapply lookup_lt_Some. }
    rewrite Hx in Hy. injection Hy as Hmap. symmetry in Hmap. by apply Hch in Hmap.
  - left. split; [|done]. apply list_insert_id. rewrite Hx. unfold y. by rewrite (proj2 Hch eq_refl).
Qed.

Lemma performs_rollback n self :
  ∃ self', drop_last_n_user_turns contextual_user_text inter_agent_json n self = Ok self' ∧
    performs (OpRollback n) self self'.
Proof.
  destruct (rollback_spec contextual_user_text inter_agent_json n self) as (self' & Hr & Hroll).
  exists self'. split; [done|]. destruct Hroll as (trimmed & dropped & Hi & _).
  assert (Hpre : items self' `prefix_of` items self) by (by exists (trimmed ++ dropped)). split; simpl.
  { split; [done|]. intros ->. unfold drop_last_n_user_turns in Hr. by injection Hr as <-. }
  unfold drop_last_n_user_turns in Hr. case_decide; [injection Hr as <-; by left|]. right. split; [done|].
  destruct (user_message_positions _ _ _) as [|first rest]; [by injection Hr as <-|].
  destruct (if decide _ then _ else _) as [cut| |]; [|done..]. cbn [mbind Res_bind] in Hr.
  destruct (trim_pre_turn_context_updates _ _ _ _ _) as [[c r]| |]; [|done..]. cbn [mbind Res_bind] in Hr.
  destruct (slice_to _ _) as [k| |]; [|done..]. by injection Hr as <-.
Qed.

Lemma i64_result_release x : ∃ y, i64_result false x = Ok y.
Proof. unfold i64_result. case_decide; eauto. Qed.

Lemma add_assign_release a b : ∃ u, add_assign false a b = Ok u.
Proof.
  unfold add_assign. repeat (let y := fresh in let H := fresh in
    match goal with |- context [i64_result false ?x] => destruct (i64_result_release x) as [y H]; rewrite H end;
    cbn [mbind Res_bind]). eauto.
Qed.

Lemma performs_usage op self :
  match op with OpUsageFull _ | OpUsage _ _ => True | _ => False end →
  ∃ self', perform op self = Ok self' ∧ performs op self self'.
Proof.
  unfold performs. destruct op as [| | | | | |window|usage window| |]; try done; intros _; simpl.
  - assert (Hf : ∀ i, ∃ u, fill_to_context_window false i window = Ok u).
    { intros i. unfold fill_to_context_window.
      destruct (i64_result_release (window - total_tokens (total_token_usage i))) as [y ->]. simpl. eauto. }
    unfold set_token_usage_full, full_context_window.
    destruct (token_info self) as [i|];
      match goal with |- context [fill_to_context_window false ?i window] => destruct (Hf i) as [u ->] end;
      (eexists; split; [reflexivity|]; split; [done|by left]).
  - unfold update_token_info, new_or_append, append_last_usage.
    destruct (token_info self) as [i|]; simpl;
      match goal with |- context [add_assign false ?a ?b] => destruct (add_assign_release a b) as [u ->] end;
      (eexists; split; [reflexivity|]; split; [done|by left]).
Qed.

Lemma perform_spec op self : op_sized op → ∃ self', perform op self = Ok self' ∧ performs op self self'.
Proof.
  destruct op as [l policy| | |l|placeholder|n|window|usage window|info|r]; intros Hs.
  - by apply performs_record.
  - apply performs_remove_first.
  - apply performs_remove_last.
  - eexists. split; [done|]. split; [done|right; simpl; tauto].
  - eexists. split; [done|]. apply performs_images.
  - apply performs_rollback.
  - by apply performs_usage.
  - by apply performs_usage.
  - eexists. split; [done|]. split; [done|by left].
  - eexists. split; [done|]. split; [done|by left].
Qed.

(** What is no message of the API can only have come in by a replacement. *)
Definition from_replacement (ops : list (history_op P T)) self : Prop :=
  ∀ x, x ∈ items self → recordable x ∨ ∃ l, OpReplace l ∈ ops ∧ x ∈ l.

Lemma same_role_recordable (x y : ResponseItem P) : same_role x y → recordable x → recordable y.
Proof. intros (Hc & Ho & Hp). destruct x, y; simpl in *; try done; try (specialize (Hp eq_refl)); congruence. Qed.

Lemma recorded_same_role policy x y : recorded_as policy x y → same_role x y.
Proof. by intros (? & ? & ? & _). Qed.

Lemma from_replacement_step ops op self self' :
  effect op self self' → from_replacement ops self → from_replacement (ops ++ [op]) self'.
Proof.
  intros He Hf x Hx.
  assert (Hold : x ∈ items self → recordable x ∨ ∃ l, OpReplace l ∈ ops ++ [op] ∧ x ∈ l).
  { intros Hin. destruct (Hf x Hin) as [|(l & Hl & Hxl)]; [by left|]. right. exists l. set_solver. }
  destruct op as [l policy| | |l|placeholder|n|window|usage window|info|r]; simpl in He.
  - destruct He as (added & Hi & Hadd). rewrite Hi in Hx. apply elem_of_app in Hx as [|Hx]; [auto|].
    left. apply list_elem_of_lookup in Hx as [i Hx]. eapply Forall2_lookup_r in Hadd as (y & Hy & Hr); [|done].
    eapply same_role_recordable; [by eapply recorded_same_role|].
    by apply list_elem_of_lookup_2, list_elem_of_filter in Hy as [? _].
  - apply Hold. by eapply sublist_subseteq.
  - apply Hold. by eapply sublist_subseteq.
  - right. exists l. rewrite <-He. split; [set_solver|done].
  - apply list_elem_of_lookup in Hx as [i Hx]. eapply Forall2_lookup_r in He as (y & Hy & Hr); [|done].
    apply list_elem_of_lookup_2 in Hy. destruct (decide (recordable y)) as [Hrec|Hrec].
    + left. by eapply same_role_recordable.
    + destruct Hr as (_ & _ & Hsame). rewrite Hsame in * by (by destruct y). auto.
  - apply Hold. destruct He as [[k ->] _]. set_solver.
  - rewrite He in Hx. auto.
  - rewrite He in Hx. auto.
  - rewrite He in Hx. auto.
  - rewrite He in Hx. auto.
Qed.

Lemma perform_all_spec ops self before :
  (∀ op, op ∈ ops → op_sized op) → from_replacement before self →
  ∃ self', perform_all ops self = Ok self' ∧ from_replacement (before ++ ops) self'.
Proof.
  revert self before; induction ops as [|op ops IH]; intros self before Hs Hf; simpl.
  { exists self. by rewrite app_nil_r. }
  destruct (perform_spec op self) as (self1 & -> & He & _); [apply Hs; by left|]. cbn [mbind Res_bind].
  destruct (IH self1 (before ++ [op])) as (self' & -> & Hf').
  - intros o Ho. apply Hs. by right.
  - by eapply from_replacement_step.
  - exists self'. split; [done|]. by rewrite <-app_assoc in Hf'.
Qed.

(** While the version stands, items were only added. *)
Lemma unchanged_version_extends op self self' :
  performs op self self' → (history_version self < usize_max)%N → history_version self' = history_version self →
  op = OpRemoveFirst ∨ items self `prefix_of` items self'.
Proof.
  intros (He & [[Hstands _]|[_ Hbump]]) Hmax Hsame; [|rewrite saturating_add_exact in Hbump by lia; lia].
  destruct op as [l policy| | |l|placeholder|n|window|usage window|info|r]; simpl in *; try (by left); right.
  - destruct He as (added & -> & _). by exists added.
  - rewrite Hstands. apply prefix_nil.
  - by rewrite Hstands.
  - destruct He as [_ He]. by rewrite He.
  - by rewrite He.
  - by rewrite He.
  - by rewrite He.
  - by rewrite He.
Qed.
End reachable.

(** C23. The shape of every history.  Whatever operations a session performs on
    its history in a release build, starting from the empty one, they all
    return, and after each of them: the items are those the operation is for
    (what is recorded is added at the end, without system messages and unknown
    items and within the truncation policy; dropping and rolling back only
    takes items away; replacing puts exactly the given items in place); a
    system message or unknown item in the history was given to a replacement;
    and the version goes up by one, until it is saturated, exactly when the
    operation rewrites what was there, so that as long as the version stands
    and the oldest item is not dropped, items were only added. *)
Theorem history_well_formed {P T : Type} contextual_user_text inter_agent_json
    (ops : list (history_op P T)) (op : history_op P T) :
  (∀ o, o ∈ ops ++ [op] → op_sized o) →
  ∃ self self', perform_all contextual_user_text inter_agent_json ops new_history = Ok self ∧
    perform contextual_user_text inter_agent_json op self = Ok self' ∧
    performs op self self' ∧
    from_replacement (ops ++ [op]) self' ∧
    ((history_version self < usize_max)%N → history_version self' = history_version self →
      op = OpRemoveFirst ∨ items self `prefix_of` items self').
Proof.
  intros Hs.
  destruct (perform_all_spec contextual_user_text inter_agent_json ops new_history [])
    as (self & Hself & Hf); [intros o Ho; apply Hs; set_solver|by intros x ?%elem_of_nil|].
  destruct (perform_spec contextual_user_text inter_agent_json op self) as (self' & Hop & Hp); [apply Hs; set_solver|].
  exists self, self'. split_and!; [done..| |].
  - eapply from_replacement_step; [apply Hp|done].
  - by apply unchanged_version_extends.
Qed.

(** A replacement with a system message, and then a record that leaves one
    out. *)
Lemma history_well_formed_witness :
  let system : ResponseItem unit := Message None (lit "system") [] None in
  let user : ResponseItem unit := Message None (lit "user") [] None in
  ∃ self self', perform_all (T:=unit) (λ _, false) (λ _, false) [OpReplace [system]] new_history = Ok self ∧
    perform (λ _, false) (λ _, false) (OpRecord [system; user; Other] (PolicyBytes 4)) self = Ok self' ∧
    performs (OpRecord [system; user; Other] (PolicyBytes 4)) self self' ∧
    from_replacement ([OpReplace [system]] ++ [OpRecord [system; user; Other] (PolicyBytes 4)]) self' ∧
    ((history_version self < usize_max)%N → history_version self' = history_version self →
      OpRecord (T:=unit) [system; user; Other] (PolicyBytes 4) = OpRemoveFirst ∨
      items self `prefix_of` items self').
Proof.
  intros system user.
  apply (history_well_formed (λ _, false) (λ _, false) [OpReplace [system]]
    (OpRecord [system; user; Other] (PolicyBytes 4))).
  intros o [->|[->|[]%elem_of_nil]%elem_of_cons]%elem_of_cons; [exact I|]. intros x Hx.
  rewrite !elem_of_cons, elem_of_nil in Hx. by destruct Hx as [->|[->|[->|[]]]].
Defined.
