(* ===== verification/Compaction.v ===== *)
(** * Compaction: [core/src/compact.rs], [compact_remote.rs], [compact_remote_v2.rs]

    When a conversation outgrows the context window, its history is replaced by
    the messages of the user and a summary.  The summary is written by the model
    in a request of its own, which drops the oldest items until it fits; a
    provider that can compact itself returns the new history, of which only
    some items are kept.  Either way the initial context of the session may be
    put back above the last message of the user.

    What the model answers is an arbitrary function of the requests made so far.
    The recognisers of contextual fragments go through an XML parser and are
    parameters, as in [History]. *)
From S2P Require Import Prelude RustStr StreamText InlineHiddenTag TaggedLine MachineInt Truncate History.

(** ** Messages of the user: [core/src/event_mapping.rs] *)

(** What a message sent to the model can be parsed to; local images, skills and
    mentions only occur in what the user submits. *)
Inductive UserInput :=
| UserText (text : str)
| UserImage (image_url : str).

(** [TurnItem]; of the kinds that this code does not look into only the kind is
    kept. *)
Inductive TurnItem :=
| HookPrompt
| UserMessage (content : list UserInput)
| AgentMessage
| ReasoningItem
| WebSearch
| ImageGeneration.

Definition IMAGE_OPEN_TAG : str := lit "<image>".
Definition IMAGE_CLOSE_TAG : str := lit "</image>".
Definition LOCAL_IMAGE_OPEN_TAG_PREFIX : str := lit "<image name=".
Definition LOCAL_IMAGE_OPEN_TAG_SUFFIX : str := lit ">".

Definition is_image_open_tag_text (text : str) : bool := bool_decide (text = IMAGE_OPEN_TAG).
Definition is_image_close_tag_text (text : str) : bool := bool_decide (text = IMAGE_CLOSE_TAG).
Definition is_local_image_open_tag_text (text : str) : bool :=
  match strip_prefix LOCAL_IMAGE_OPEN_TAG_PREFIX text with
  | Some rest => ends_with LOCAL_IMAGE_OPEN_TAG_SUFFIX rest
  | None => false
  end.
Definition is_local_image_close_tag_text (text : str) : bool := is_image_close_tag_text text.

Definition is_input_image (item : option ContentItem) : bool :=
  match item with Some (InputImage _ _) => true | _ => false end.

(** A text that is the tag before or after an image. *)
Definition is_image_tag (message : list ContentItem) (idx : nat) (text : str) : bool :=
  ((is_local_image_open_tag_text text || is_image_open_tag_text text) &&
     is_input_image (message !! (idx + 1)%nat)) ||
  (bool_decide (0 < idx)%nat && (is_local_image_close_tag_text text || is_image_close_tag_text text) &&
     is_input_image (message !! (idx - 1)%nat)).

Definition user_input (message : list ContentItem) (idx : nat) (content_item : ContentItem)
    : option UserInput :=
  match content_item with
  | InputText text => if is_image_tag message idx text then None else Some (UserText text)
  | InputImage image_url _ => Some (UserImage image_url)
  | OutputText _ => None
  end.

(** [UserMessageItem::message] *)
Definition message_text (content : list UserInput) : str :=
  concat (map (λ c, match c with UserText text => text | UserImage _ => [] end) content).

Section turn_items.
Context {P : Type}.
(** Whether a text is a hook prompt ([parse_hook_prompt_fragment]), and whether
    one of [CONTEXTUAL_USER_FRAGMENTS] matches it. *)
Context (hook_prompt_text standard_contextual_text : str → bool).
Implicit Types (item : ResponseItem P).

(** [is_contextual_user_fragment] of a text. *)
Definition contextual_user_text (text : str) : bool :=
  hook_prompt_text text || standard_contextual_text text.

(** Whether [parse_visible_hook_prompt_message] finds one. *)
Definition is_visible_hook_prompt_message (content : list ContentItem) : bool :=
  forallb (λ c, match c with InputText text => contextual_user_text text | _ => false end) content &&
  existsb (λ c, match c with InputText text => hook_prompt_text text | _ => false end) content.

Definition parse_user_message (message : list ContentItem) : option (list UserInput) :=
  if is_contextual_user_message_content contextual_user_text message then None
  else Some (omap id (imap (user_input message) message)).

Definition parse_turn_item item : option TurnItem :=
  match item with
  | Message _ role content _ =>
      if decide (role = lit "user") then
        if is_visible_hook_prompt_message content then Some HookPrompt
        else UserMessage <$> parse_user_message content
      else if decide (role = lit "assistant") then Some AgentMessage
      else None
  | Reasoning _ _ _ _ => Some ReasoningItem
  | WebSearchCall _ _ _ => Some WebSearch
  | ImageGenerationCall _ _ _ _ => Some ImageGeneration
  | _ => None
  end.

(** ** The new history: [core/src/compact.rs] *)

Definition SUMMARY_PREFIX : str := lit "Another language model started to solve this problem and produced a summary of its thinking process. You also have access to the state of the tools that were used by that language model. Use this to build on the work that has already been done and avoid duplicating work. Here is the summary produced by the other language model, use the information in this summary to assist with your own analysis:".
Definition COMPACT_USER_MESSAGE_MAX_TOKENS : N := 20000.

Inductive InitialContextInjection := BeforeLastUserMessage | DoNotInject.

Definition content_items_to_text (content : list ContentItem) : option str :=
  let pieces := List.filter (λ t, bool_decide (t ≠ []))
    (omap (λ c, match c with InputText text | OutputText text => Some text | InputImage _ _ => None end)
       content) in
  match pieces with
  | [] => None
  | p :: ps => Some (foldl (λ acc q, acc ++ [c_nl] ++ q) p ps)
  end.

Definition is_summary_message (message : str) : bool := starts_with (SUMMARY_PREFIX ++ [c_nl]) message.

(** The text of a message of the user that is not a summary. *)
Definition real_user_message item : option str :=
  match parse_turn_item item with
  | Some (UserMessage user) =>
      let message := message_text user in
      if is_summary_message message then None else Some message
  | _ => None
  end.

Definition collect_user_messages (items : list (ResponseItem P)) : list str :=
  omap real_user_message items.

(** The loop over [iter().enumerate().rev()]: [rev_items] are the items left,
    newest first, and the index of its head is the length of its tail. *)
Fixpoint last_user_indices (rev_items : list (ResponseItem P)) (last_user_or_summary_index : option nat)
    : option nat * option nat :=
  match rev_items with
  | [] => (last_user_or_summary_index, None)
  | item :: rest =>
      let i := length rest in
      match parse_turn_item item with
      | Some (UserMessage user) =>
          let last_user_or_summary_index :=
            match last_user_or_summary_index with Some j => Some j | None => Some i end in
          if negb (is_summary_message (message_text user)) then (last_user_or_summary_index, Some i)
          else last_user_indices rest last_user_or_summary_index
      | _ => last_user_indices rest last_user_or_summary_index
      end
  end.

Definition is_compaction item : bool :=
  match item with Compaction _ | ContextCompaction _ => true | _ => false end.

Definition option_or {A} (o o' : option A) : option A := match o with Some _ => o | None => o' end.

Definition insert_initial_context_before_last_real_user_or_summary
    (compacted_history initial_context : list (ResponseItem P)) : Total (list (ResponseItem P)) :=
  let '(last_user_or_summary_index, last_real_user_index) :=
    last_user_indices (reverse compacted_history) None in
  let last_compaction_index := rposition (is_compaction) compacted_history in
  let insertion_index :=
    option_or (option_or last_real_user_index last_user_or_summary_index) last_compaction_index in
  match insertion_index with
  | Some insertion_index =>
      before ← slice_to insertion_index compacted_history;
      after ← slice_from insertion_index compacted_history;
      Ok (before ++ initial_context ++ after)
  | None => Ok (compacted_history ++ initial_context)
  end.

(** The loop over the messages of the user, newest first, and what it
    selects, newest first. *)
Fixpoint select_messages (rev_messages : list str) (remaining : N) : Total (list str) :=
  match rev_messages with
  | [] => Ok []
  | message :: rest =>
      if (remaining =? 0)%N then Ok []
      else
        let tokens := approx_token_count message in
        if (tokens <=? remaining)%N then
          selected ← select_messages rest (saturating_sub remaining tokens);
          Ok (message :: selected)
        else
          truncated ← truncate_text message (PolicyTokens remaining);
          Ok [truncated]
  end.

Definition user_message (text : str) : ResponseItem P := Message None (lit "user") [InputText text] None.

Definition build_compacted_history_with_limit (history : list (ResponseItem P)) (user_messages : list str)
    (summary_text : str) (max_tokens : N) : Total (list (ResponseItem P)) :=
  selected_messages ←
    (if (0 <? max_tokens)%N then reverse <$> select_messages (reverse user_messages) max_tokens
     else Ok []);
  let summary_text :=
    if decide (summary_text = []) then lit "(no summary available)" else summary_text in
  Ok (history ++ map user_message selected_messages ++ [user_message summary_text]).

Definition build_compacted_history (initial_context : list (ResponseItem P)) (user_messages : list str)
    (summary_text : str) : Total (list (ResponseItem P)) :=
  build_compacted_history_with_limit initial_context user_messages summary_text
    COMPACT_USER_MESSAGE_MAX_TOKENS.

(** ** The provider's own compaction *)

Definition should_keep_compacted_history_item item : bool :=
  match item with
  | Message _ role _ _ =>
      if decide (role = lit "developer") then false
      else if decide (role = lit "user") then
        match parse_turn_item item with Some (UserMessage _) | Some HookPrompt => true | _ => false end
      else bool_decide (role = lit "assistant")
  | Compaction _ | ContextCompaction _ => true
  | _ => false
  end.

(** [process_compacted_history]; [built_context] is what [build_initial_context]
    returns for the turn. *)
Definition process_compacted_history (built_context compacted_history : list (ResponseItem P))
    (initial_context_injection : InitialContextInjection) : Total (list (ResponseItem P)) :=
  let initial_context :=
    match initial_context_injection with BeforeLastUserMessage => built_context | DoNotInject => [] end in
  insert_initial_context_before_last_real_user_or_summary
    (List.filter should_keep_compacted_history_item compacted_history) initial_context.

Definition is_retained_for_remote_compaction_v2 item : bool :=
  match item with
  | Message _ role _ _ => bool_decide (role ∈ [lit "user"; lit "developer"; lit "system"])
  | _ => false
  end.

Definition build_v2_compacted_history (prompt_input : list (ResponseItem P))
    (compaction_output : ResponseItem P) : list (ResponseItem P) :=
  List.filter is_retained_for_remote_compaction_v2 prompt_input ++ [compaction_output].

(** ** The last message of the assistant *)

(** [raw_assistant_output_text_from_item] *)
Definition raw_assistant_output_text_from_item item : option str :=
  match item with
  | Message _ role content _ =>
      if decide (role = lit "assistant") then
        Some (concat (omap (λ c, match c with OutputText text => Some text | _ => None end) content))
      else None
  | _ => None
  end.

Definition strip_hidden_assistant_markup (text : str) (plan_mode : bool) : str :=
  let without_citations := (strip_citations text).1 in
  if plan_mode then strip_proposed_plan_blocks without_citations else without_citations.

Definition last_assistant_message_from_item item (plan_mode : bool) : option str :=
  match raw_assistant_output_text_from_item item with
  | Some combined =>
      if decide (combined = []) then None
      else
        let stripped := strip_hidden_assistant_markup combined plan_mode in
        if decide (trim stripped = []) then None else Some stripped
  | None => None
  end.

Definition get_last_assistant_message_from_turn (responses : list (ResponseItem P)) : option str :=
  head (omap (λ item, last_assistant_message_from_item item false) (reverse responses)).
End turn_items.

(** ** Making room for the request of a provider *)

Section trim.
Context {P T : Type}.
(** [estimate_token_count_with_base_instructions] with the instructions of the
    session ([History.estimate_token_count_with_base_instructions]). *)
Context (estimated_tokens : ContextManager P T → Z).

(** The [while] loop, with the number of items removed; each round removes an
    item, so that the length of the history is fuel enough. *)
Fixpoint trim_loop (fuel : nat) (context_window : Z) (deleted_items : nat) (history : ContextManager P T)
    : Total (ContextManager P T * nat) :=
  if negb (context_window <? estimated_tokens history)%Z then Ok (history, deleted_items)
  else
    match last (items history) with
    | None => Ok (history, deleted_items)
    | Some last_item =>
        if negb (is_codex_generated_item last_item) then Ok (history, deleted_items)
        else
          match fuel with
          | O => Panic OutOfFuel
          | S fuel =>
              '(history, removed) ← remove_last_item history;
              if negb removed then Ok (history, deleted_items)
              else trim_loop fuel context_window (deleted_items + 1) history
          end
    end.

Definition trim_function_call_history_to_fit_context_window (model_context_window : option Z)
    (history : ContextManager P T) : Total (ContextManager P T * nat) :=
  match model_context_window with
  | None => Ok (history, 0%nat)
  | Some context_window => trim_loop (length (items history)) context_window 0 history
  end.
End trim.

(** ** Streams *)

(** [ResponseEvent]; the limits of a [RateLimits] are not kept, and events that
    are passed over or only change other state of the session are
    [OtherResponseEvent]. *)
Inductive ResponseEvent {P : Type} :=
| OutputItemDone (item : ResponseItem P)
| Completed (token_usage : option TokenUsage)
| ServerReasoningIncluded (included : bool)
| RateLimits
| OtherResponseEvent.
Arguments ResponseEvent : clear implicits.

(** [CodexErr]; [OtherErr] is every error this code does not tell apart. *)
Inductive CodexErr :=
| Interrupted
| ContextWindowExceeded
| Fatal (message : str)
| StreamErr (message : str)
| OtherErr (message : str).

(** A stream is the list of what [next] yields before it yields nothing. *)
Definition Stream (P : Type) : Type := list (Res CodexErr (ResponseEvent P)).

Fixpoint collect_loop {P} (stream : Stream P) (output_item_count context_compaction_count : N)
    (context_compaction_output : option (ResponseItem P))
    : Res CodexErr (bool * N * N * option (ResponseItem P)) :=
  match stream with
  | [] => Ok (false, output_item_count, context_compaction_count, context_compaction_output)
  | ev :: stream' =>
      event ← ev;
      match event with
      | OutputItemDone item =>
          let output_item_count := (output_item_count + 1)%N in
          match item with
          | ContextCompaction (Some _) =>
              collect_loop stream' output_item_count (context_compaction_count + 1)
                (option_or context_compaction_output (Some item))
          | ContextCompaction None =>
              Err (Fatal (lit "remote compaction v2 returned context_compaction without encrypted_content"))
          | _ => collect_loop stream' output_item_count context_compaction_count context_compaction_output
          end
      | Completed _ => Ok (true, output_item_count, context_compaction_count, context_compaction_output)
      | ServerReasoningIncluded _ | RateLimits | OtherResponseEvent =>
          collect_loop stream' output_item_count context_compaction_count context_compaction_output
      end
  end.

(** [unreachable!] is a panic. *)
Definition collect_context_compaction_output {P} (stream : Stream P) : Res CodexErr (ResponseItem P) :=
  '(completed, output_item_count, context_compaction_count, context_compaction_output) ←
    collect_loop stream 0 0 None;
  if negb completed then
    Err (Fatal (lit "remote compaction v2 stream closed before response.completed"))
  else if bool_decide (context_compaction_count ≠ 1%N) then
    Err (Fatal (lit "remote compaction v2 expected exactly one context_compaction output item, got " ++
      show_N context_compaction_count ++ lit " from " ++ show_N output_item_count ++ lit " output items"))
  else
    match context_compaction_output with
    | Some item => Ok item
    | None => Panic ExplicitPanic
    end.

(** * Properties *)

(** ** Where the initial context goes *)

Section placement.
Context {P : Type} (hook_prompt_text standard_contextual_text : str → bool).
Implicit Types (item : ResponseItem P) (l : list (ResponseItem P)).

Local Abbreviation turn_item := (parse_turn_item (P:=P) hook_prompt_text standard_contextual_text).

Definition is_user_or_summary item : bool :=
  match turn_item item with Some (UserMessage _) => true | _ => false end.
Definition is_real_user item : bool :=
  match turn_item item with Some (UserMessage user) => negb (is_summary_message (message_text user)) | _ => false end.

(** [before] and [after] are [l] cut at the last item for which [f] holds. *)
Definition cut_at_last (f : ResponseItem P → bool) l before after : Prop :=
  l = before ++ after ∧ ∃ x rest, after = x :: rest ∧ f x = true ∧ Forall (λ y, f y = false) rest.

(** The context goes before the last real message of the user, or before the
    last summary when there is none, or before the last compaction item when
    there is neither, or at the end. *)
Definition placed l before after : Prop :=
  cut_at_last is_real_user l before after ∨
  (Forall (λ y, is_real_user y = false) l ∧ cut_at_last is_user_or_summary l before after) ∨
  (Forall (λ y, is_user_or_summary y = false) l ∧ cut_at_last is_compaction l before after) ∨
  (Forall (λ y, is_user_or_summary y = false ∧ is_compaction y = false) l ∧ before = l ∧ after = []).

Lemma real_is_user item : is_real_user item = true → is_user_or_summary item = true.
Proof. unfold is_real_user, is_user_or_summary. by destruct (turn_item item) as [[]|]. Qed.

(** The index of an element in a list cut there. *)
Definition index_of_last (f : ResponseItem P → bool) l (o : option nat) : Prop :=
  match o with
  | Some i => ∃ before after, cut_at_last f l before after ∧ i = length before
  | None => Forall (λ y, f y = false) l
  end.

Lemma index_of_last_snoc f l x o :
  f x = false → index_of_last f l o → index_of_last f (l ++ [x]) o.
Proof.
  intros Hx. destruct o as [i|]; simpl.
  - intros (before & after & [-> (y & rest & -> & Hy & Hr)] & ->). exists before, ((y :: rest) ++ [x]).
    split; [|done]. split; [by rewrite app_assoc|]. exists y, (rest ++ [x]). split_and!; [done|done|].
    apply Forall_app. by repeat constructor.
  - intros Hl. apply Forall_app. by repeat constructor.
Qed.
Lemma index_of_last_here f l x : f x = true → index_of_last f (l ++ [x]) (Some (length l)).
Proof. intros Hx. exists l, [x]. split; [split; [done|]; by exists x, []|done]. Qed.

Lemma last_user_indices_spec l found :
  let '(any, real) := last_user_indices hook_prompt_text standard_contextual_text (reverse l) found in
  index_of_last is_real_user l real ∧
  match found with
  | Some j => any = Some j
  | None => (real = None → index_of_last is_user_or_summary l any)
  end.
Proof.
  revert found. induction l as [|x l IH] using rev_ind; intros found; [by destruct found; simpl|].
  rewrite reverse_app. cbn [reverse rev_append app last_user_indices]. rewrite length_reverse.
  destruct (turn_item x) as [t|] eqn:Ex.
  2: { specialize (IH found). destruct (last_user_indices _ _ _ _) as [any real]. destruct IH as [Hr Ha].
       split; [apply index_of_last_snoc; [unfold is_real_user; by rewrite Ex|done]|].
       destruct found; [done|]. intros. apply index_of_last_snoc; [unfold is_user_or_summary; by rewrite Ex|auto]. }
  destruct t as [|user| | | |].
  1,3-6: specialize (IH found); destruct (last_user_indices _ _ _ _) as [any real]; destruct IH as [Hr Ha];
    (split; [apply index_of_last_snoc; [unfold is_real_user; by rewrite Ex|done]|]);
    destruct found; [done|]; intros; apply index_of_last_snoc; [unfold is_user_or_summary; by rewrite Ex|auto].
  destruct (is_summary_message (message_text user)) eqn:Es; simpl.
  - specialize (IH (match found with Some j => Some j | None => Some (length l) end)).
    destruct (last_user_indices _ _ _ _) as [any real]. destruct IH as [Hr Ha].
    split; [apply index_of_last_snoc; [unfold is_real_user; by rewrite Ex, Es|done]|].
    destruct found; [done|]. intros _. subst any. apply index_of_last_here. unfold is_user_or_summary. by rewrite Ex.
  - split; [apply index_of_last_here; unfold is_real_user; by rewrite Ex, Es|]. by destruct found.
Qed.

Lemma position_lt {A} (f : A → bool) (l : list A) i : position f l = Some i → (i < length l)%nat.
Proof.
  revert i. induction l as [|x l IH]; intros i; [done|]. cbn [position]. destruct (f x); [intros [= <-]; simpl; lia|].
  destruct (position f l); simpl; [|done]. intros [= <-]. specialize (IH _ eq_refl). lia.
Qed.
Lemma rposition_spec f l : index_of_last f l (rposition f l).
Proof.
  induction l as [|x l IH] using rev_ind; [by simpl|].
  unfold rposition in *. rewrite reverse_app, length_app. cbn [reverse rev_append app position length].
  destruct (f x) eqn:Ex; simpl.
  - replace (length l + 1 - 1 - 0)%nat with (length l) by lia. by apply index_of_last_here.
  - pose proof (index_of_last_snoc f l x _ Ex IH) as H. revert H.
    destruct (position f (reverse l)) as [k|] eqn:Ek; [|done]. simpl.
    apply position_lt in Ek. rewrite length_reverse in Ek.
    by replace (length l + 1 - 1 - S k)%nat with (length l - 1 - k)%nat by lia.
Qed.

Lemma splice_at f l context i :
  index_of_last f l (Some i) →
  ∃ before after, cut_at_last f l before after ∧
    (b ← slice_to i l; a ← slice_from i l; Ok (b ++ context ++ a)) = (Ok (before ++ context ++ after) : Total _).
Proof.
  intros (before & after & Hc & ->). exists before, after. split; [done|]. destruct Hc as [-> _].
  unfold slice_to, slice_from. rewrite !decide_True by (rewrite length_app; lia).
  simpl. by rewrite take_app_length, drop_app_length.
Qed.

(** Compaction puts the initial context back where the model expects it:
    nothing of the compacted history is lost or moved, and the context stands
    right before the last message of the user; before the last summary, the
    last compaction item or the end only where there is none of what comes
    first. *)
Theorem initial_context_is_placed l context :
  ∃ before after,
    insert_initial_context_before_last_real_user_or_summary hook_prompt_text standard_contextual_text l context
    = Ok (before ++ context ++ after) ∧ placed l before after.
Proof.
  unfold insert_initial_context_before_last_real_user_or_summary, placed.
  pose proof (last_user_indices_spec l None) as H. destruct (last_user_indices _ _ _ _) as [any real].
  destruct H as [Hr Ha]. destruct real as [i|]; simpl.
  { destruct (splice_at _ _ context _ Hr) as (b & a & Hc & ->). exists b, a. auto. }
  specialize (Ha eq_refl). destruct any as [i|]; simpl.
  { destruct (splice_at _ _ context _ Ha) as (b & a & Hc & ->). exists b, a. auto. }
  pose proof (rposition_spec is_compaction l) as Hk. destruct (rposition is_compaction l) as [i|].
  { destruct (splice_at _ _ context _ Hk) as (b & a & Hc & ->). exists b, a. auto 6. }
  exists l, []. rewrite app_nil_r. split; [done|]. do 3 right. split_and!; [|done..].
  simpl in Ha, Hk. apply Forall_forall. rewrite Forall_forall in Ha, Hk. auto.
Qed.
End placement.

(** ** Which messages are kept *)

(** How many tokens a list of messages is taken to be. *)
Definition tokens (messages : list str) : N := sum_N (map approx_token_count messages).

Lemma select_messages_spec rev_messages remaining :
  Forall (λ m, utf8_len m <= usize_max)%N rev_messages →
  ∃ kept rest cut, rev_messages = kept ++ rest ∧
    select_messages rev_messages remaining = Ok (kept ++ option_list cut) ∧
    (tokens kept <= remaining)%N ∧
    match cut with
    | None => rest = [] ∨ tokens kept = remaining
    | Some t => ∃ message older, rest = message :: older ∧
        (tokens kept < remaining < tokens kept + approx_token_count message)%N ∧
        truncate_text message (PolicyTokens (remaining - tokens kept)) = Ok t
    end.
Proof.
  intros Hm. revert remaining. induction Hm as [|m l Hl Hm IH]; intros remaining; cbn [select_messages].
  { exists [], [], None. split_and!; [done|done|unfold tokens; simpl; lia|by left]. }
  destruct (N.eqb_spec remaining 0) as [->|Hr].
  { exists [], (m :: l), None. split_and!; [done|done|unfold tokens; simpl; lia|by right]. }
  destruct (N.leb_spec (approx_token_count m) remaining) as [Hle|Hgt].
  - destruct (IH (saturating_sub remaining (approx_token_count m))) as (kept & rest & cut & -> & -> & Ht & Hc).
    unfold saturating_sub in *.
    assert (Et : tokens (m :: kept) = (approx_token_count m + tokens kept)%N) by done.
    exists (m :: kept), rest, cut. rewrite Et. split_and!; [done|done|lia|].
    destruct cut as [t|]; [|destruct Hc; [by left|right; lia]].
    destruct Hc as (message & older & -> & Hc & Hcut). exists message, older. split_and!; [done|lia|lia|].
    by replace (remaining - (approx_token_count m + tokens kept))%N
      with (remaining - approx_token_count m - tokens kept)%N by lia.
  - destruct (truncate_text_bound m (PolicyTokens remaining) Hl) as (t & Et & _ & _). rewrite Et.
    exists [], (m :: l), (Some t). change (tokens []) with 0%N. rewrite N.sub_0_r.
    split_and!; [done|done|lia|]. exists m, l. split_and!; [done|lia|lia|done].
Qed.

(** What compaction keeps of the messages of the user: the newest ones, whole,
    as many as fit into the limit; of the one before them what is left of the
    limit allows; nothing of the older ones. *)
Definition kept_messages (messages : list str) (limit : N) (selected : list str) : Prop :=
  ∃ older kept cut, messages = older ++ kept ∧ selected = option_list cut ++ kept ∧ (tokens kept <= limit)%N ∧
    match cut with
    | None => older = [] ∨ tokens kept = limit
    | Some t => ∃ oldest message, older = oldest ++ [message] ∧
        (tokens kept < limit < tokens kept + approx_token_count message)%N ∧
        (utf8_len t <= approx_bytes_for_tokens (limit - tokens kept) + MARKER_MAX)%N
    end.

Lemma tokens_reverse l : tokens (reverse l) = tokens l.
Proof.
  unfold tokens. induction l as [|m l IH]; [done|].
  rewrite reverse_cons, map_app, sum_N_app, IH. simpl. lia.
Qed.

(** A compaction is total and stays within its budget: the new history is
    the context, then the newest messages of the user in their order, as many
    as fit into the limit of tokens and one more cut down to what is left of
    it, and last the summary. *)
Theorem compacted_history_keeps_newest {P : Type} (history : list (ResponseItem P)) user_messages summary_text
    max_tokens :
  Forall (λ m, utf8_len m <= usize_max)%N user_messages →
  ∃ selected, kept_messages user_messages max_tokens selected ∧
    build_compacted_history_with_limit history user_messages summary_text max_tokens
    = Ok (history ++ map user_message selected ++
        [user_message (if decide (summary_text = []) then lit "(no summary available)" else summary_text)]).
Proof.
  intros Hm. unfold build_compacted_history_with_limit.
  destruct (select_messages_spec (reverse user_messages) max_tokens) as (kept & rest & cut & E & Hs & Ht & Hc).
  { by apply Forall_reverse. }
  assert (Hu : user_messages = reverse rest ++ reverse kept) by (by rewrite <-reverse_app, <-E, reverse_involutive).
  exists (reverse (kept ++ option_list cut)). split.
  - exists (reverse rest), (reverse kept), cut. rewrite tokens_reverse, reverse_app.
    split_and!; [done|by destruct cut|done|]. destruct cut as [t|]; [|by destruct Hc as [->|Hc]; [left|right]].
    destruct Hc as (message & older & -> & Hc & Hcut). exists (reverse older), message.
    rewrite reverse_cons. split_and!; [done|lia|lia|].
    assert (Hl : (utf8_len message <= usize_max)%N).
    { rewrite Forall_forall in Hm. apply Hm. rewrite Hu, reverse_cons, !elem_of_app. left. right. by left. }
    destruct (truncate_text_bound message (PolicyTokens (max_tokens - tokens kept)) Hl) as (t' & Et' & Hb & _).
    rewrite Hcut in Et'. by injection Et' as <-.
  - destruct (N.ltb_spec 0 max_tokens) as [Hp|Hz]; [by rewrite Hs|].
    assert (max_tokens = 0%N) as -> by lia.
    destruct (reverse user_messages); simpl in Hs; injection Hs as Hs; by rewrite <-Hs.
Qed.

Lemma compacted_history_keeps_newest_witness :
  ∃ selected, kept_messages [lit "old message"; lit "newer"; lit "newest"] 4 selected ∧
    build_compacted_history_with_limit (P:=unit) [] [lit "old message"; lit "newer"; lit "newest"] (lit "s") 4
    = Ok (map user_message selected ++ [user_message (lit "s")]).
Proof. apply (compacted_history_keeps_newest (P:=unit) []). repeat constructor; by vm_compute. Defined.

(** ** The answer of a provider *)

Section collecting.
Context {P : Type}.
Implicit Types (stream : Stream P) (evs : list (ResponseEvent P)).

Definition compaction_of (ev : ResponseEvent P) : option (ResponseItem P) :=
  match ev with
  | OutputItemDone (ContextCompaction (Some c)) => Some (ContextCompaction (Some c))
  | _ => None
  end.
(** An event that lets the collection go on. *)
Definition passed (ev : ResponseEvent P) : Prop :=
  match ev with OutputItemDone (ContextCompaction None) | Completed _ => False | _ => True end.
Definition outputs evs : N := len (omap (λ ev, match ev with OutputItemDone item => Some item | _ => None end) evs).

Lemma loop_state_eq (n n' k k' : N) (out out' : option (ResponseItem P)) :
  n = n' → k = k' → out = out' → (Ok (true, n, k, out) : Res CodexErr _) = Ok (true, n', k', out').
Proof. by intros -> -> ->. Qed.

(** The state of the loop when a stream of passed events completed it. *)
Lemma collect_loop_completes stream n k out evs u rest :
  stream = map Ok evs ++ Ok (Completed u) :: rest → Forall passed evs →
  collect_loop stream n k out =
    Ok (true, n + outputs evs, k + len (omap compaction_of evs),
        option_or out (head (omap compaction_of evs)))%N.
Proof.
  intros -> Hp. revert n k out. induction Hp as [|ev evs Hev Hp IH]; intros n k out; simpl.
  { rewrite !N.add_0_r. by destruct out. }
  destruct ev as [item| | | |]; [|done|by rewrite IH..].
  - unfold outputs in *. simpl. rewrite len_cons.
    destruct item as [| | | | | | | | | | | |[c|]|]; try done; simpl; rewrite IH, ?len_cons;
      (apply loop_state_eq; [unfold omap; lia|unfold omap; lia|by destruct out]).
Qed.

Lemma collect_loop_inv stream n k out n' k' out' :
  collect_loop stream n k out = Ok (true, n', k', out') →
  ∃ evs u rest, stream = map Ok evs ++ Ok (Completed u) :: rest ∧ Forall passed evs.
Proof.
  revert n k out. induction stream as [|ev stream IH]; intros n k out; [done|]. simpl.
  destruct ev as [ev| |]; simpl; [|done..]. destruct ev as [item|u|b| |].
  - destruct item as [| | | | | | | | | | | |[c|]|]; intros E; try done;
      apply IH in E as (evs & u & rest & -> & Hp);
      eexists (OutputItemDone _ :: evs), u, rest; (split; [done|by constructor]).
  - intros _. by exists [], u, stream.
  - intros E. apply IH in E as (evs & u & rest & -> & Hp).
    exists (ServerReasoningIncluded b :: evs), u, rest. split; [done|by constructor].
  - intros E. apply IH in E as (evs & u & rest & -> & Hp).
    exists (RateLimits :: evs), u, rest. split; [done|by constructor].
  - intros E. apply IH in E as (evs & u & rest & -> & Hp).
    exists (OtherResponseEvent :: evs), u, rest. split; [done|by constructor].
Qed.

(** The answer of a provider is used only when it is complete and has exactly
    one compaction item, and then it is that item. *)
Theorem collected_output_is_unique stream item :
  collect_context_compaction_output stream = Ok item ↔
  ∃ evs u rest, stream = map Ok evs ++ Ok (Completed u) :: rest ∧ Forall passed evs ∧
    omap compaction_of evs = [item].
Proof.
  unfold collect_context_compaction_output. split.
  - destruct (collect_loop stream 0 0 None) as [[[[completed n] k] out]| |] eqn:E; try done. simpl.
    destruct completed; [|done]. simpl. destruct (collect_loop_inv _ _ _ _ _ _ _ E) as (evs & u & rest & Es & Hp).
    rewrite (collect_loop_completes _ _ _ _ _ _ _ Es Hp) in E. injection E as <- <- <-.
    case_bool_decide as Hk; [done|]. intros Hout.
    exists evs, u, rest. split_and!; [done..|].
    destruct (omap compaction_of evs) as [|x [|y l]]; [done|by injection Hout as ->|].
    rewrite !len_cons in Hk. lia.
  - intros (evs & u & rest & Es & Hp & Eo).
    by rewrite (collect_loop_completes _ _ _ _ _ _ _ Es Hp), Eo.
Qed.
End collecting.

Lemma collected_output_is_unique_witness :
  collect_context_compaction_output (P:=unit)
    [Ok (OutputItemDone (Compaction (lit "x"))); Ok (OutputItemDone (ContextCompaction (Some (lit "c"))));
     Ok (Completed None); Err Interrupted] = Ok (ContextCompaction (Some (lit "c"))).
Proof.
  apply collected_output_is_unique.
  exists [OutputItemDone (Compaction (lit "x")); OutputItemDone (ContextCompaction (Some (lit "c")))], None,
    [Err Interrupted].
  split_and!; [done|by repeat constructor|done].
Defined.
