(* ===== verification/Rollout.v ===== *)
(** * Rollouts: [core/src/session/rollout_reconstruction.rs], [core/src/thread_rollout_truncation.rs]

    A rollout is the file of a thread: what was said, the markers of turns,
    compactions and rollbacks, oldest first.  Resuming a thread, forking it
    and rolling it back rebuild its history and settings from the rollout.
    The reconstruction scans the items from the newest to the oldest, turn by
    turn, skipping the turns that were rolled back, until it knows the last
    complete history (the checkpoint of a compaction) and the settings; then
    it replays what comes after the checkpoint.

    [P] is as in [History], [R] stands for the fields of a turn context that
    are only copied. *)
From S2P Require Import Prelude RustStr MachineInt Truncate History Compaction.

(** ** Data: [protocol/src/protocol.rs] *)

Record TurnContextItem {R : Type} := mkTurnContext {
  ctx_turn_id : option str;
  ctx_model : str;
  ctx_realtime_active : option bool;
  ctx_rest : R
}.
Arguments TurnContextItem : clear implicits.
Arguments mkTurnContext {R}.

(** [rollout/src/policy.rs] *)
Inductive EventPersistenceMode := Limited | Extended.

(** The events this code tells apart or sends, with what it reads of them;
    [OtherEvent] is any other one, with the least mode in which it is kept in
    rollout files ([event_msg_persistence_mode]). *)
Inductive EventMsg :=
| TurnStarted (turn_id : str)
| TurnComplete (turn_id : str)
| TurnAborted (turn_id : option str)
| UserMessageEvent
| ThreadRolledBack (num_turns : N)
| TokenCount (info : option TokenUsageInfo)
| ErrorEvent (message : str)
| WarningEvent (message : str)
| StreamErrorEvent (message : str)
| OtherEvent (mode : option EventPersistenceMode).

Record CompactedItem {P : Type} := mkCompacted {
  compacted_message : str;
  replacement_history : option (list (ResponseItem P))
}.
Arguments CompactedItem : clear implicits.
Arguments mkCompacted {P}.

Inductive RolloutItem {P R : Type} :=
| SessionMeta
| RolloutResponseItem (item : ResponseItem P)
| Compacted (compacted : CompactedItem P)
| TurnContext (ctx : TurnContextItem R)
| RolloutEvent (ev : EventMsg).
Arguments RolloutItem : clear implicits.

Record PreviousTurnSettings := mkSettings { settings_model : str; settings_realtime_active : option bool }.

(** ** The scan *)

Inductive TurnReferenceContextItem {R : Type} := NeverSet | Cleared | Latest (ctx : TurnContextItem R).
Arguments TurnReferenceContextItem : clear implicits.

Record ActiveReplaySegment {P R : Type} := mkSegment {
  turn_id : option str;
  counts_as_user_turn : bool;
  segment_settings : option PreviousTurnSettings;
  segment_reference : TurnReferenceContextItem R;
  segment_base : option (list (ResponseItem P))
}.
Arguments ActiveReplaySegment : clear implicits.
Arguments mkSegment {P R}.

Record RolloutReconstruction {P R : Type} := mkReconstruction {
  r_history : list (ResponseItem P);
  r_previous_turn_settings : option PreviousTurnSettings;
  r_reference_context_item : option (TurnContextItem R)
}.
Arguments RolloutReconstruction : clear implicits.
Arguments mkReconstruction {P R}.

(** The local variables of the scan. *)
Record Scan {P R : Type} := mkScan {
  base_replacement_history : option (list (ResponseItem P));
  previous_turn_settings : option PreviousTurnSettings;
  scan_reference : TurnReferenceContextItem R;
  pending_rollback_turns : N;
  rollout_suffix : list (RolloutItem P R);
  active_segment : option (ActiveReplaySegment P R)
}.
Arguments Scan : clear implicits.
Arguments mkScan {P R}.

Definition turn_ids_are_compatible (active_turn_id item_turn_id : option str) : bool :=
  match active_turn_id, item_turn_id with
  | Some turn_id, Some item_turn_id => bool_decide (item_turn_id = turn_id)
  | _, _ => true
  end.

Section reconstruction.
Context {P R : Type}.
Context (hook_prompt_text standard_contextual_text : str → bool).
(** A text that is an [InterAgentCommunication] in JSON, with its [trigger_turn]. *)
Context (inter_agent : str → option bool).

Definition inter_agent_json (text : str) : bool := bool_decide (is_Some (inter_agent text)).

Local Abbreviation contextual := (contextual_user_text hook_prompt_text standard_contextual_text).
Local Abbreviation boundary := (is_user_turn_boundary (P:=P) contextual inter_agent_json).
Local Abbreviation segment := (ActiveReplaySegment P R).
Local Abbreviation item_t := (RolloutItem P R).
Local Abbreviation manager := (ContextManager P (TurnContextItem R)).
Implicit Types (st : Scan P R) (item : item_t).

Definition default_segment : segment := mkSegment None false None NeverSet None.

Definition is_never_set (r : TurnReferenceContextItem R) : bool :=
  match r with NeverSet => true | _ => false end.
Definition is_cleared (r : TurnReferenceContextItem R) : bool :=
  match r with Cleared => true | _ => false end.

Definition set_active (o : option segment) st : Scan P R :=
  mkScan (base_replacement_history st) (previous_turn_settings st) (scan_reference st)
    (pending_rollback_turns st) (rollout_suffix st) o.
Definition set_pending (n : N) st : Scan P R :=
  mkScan (base_replacement_history st) (previous_turn_settings st) (scan_reference st) n
    (rollout_suffix st) (active_segment st).
Definition set_suffix (suffix : list item_t) st : Scan P R :=
  mkScan (base_replacement_history st) (previous_turn_settings st) (scan_reference st)
    (pending_rollback_turns st) suffix (active_segment st).

Definition finalize_active_segment (active : segment) st : Scan P R :=
  if (0 <? pending_rollback_turns st)%N then
    if counts_as_user_turn active then set_pending (pending_rollback_turns st - 1) st else st
  else
    mkScan (option_or (base_replacement_history st) (segment_base active))
      (match previous_turn_settings st with
       | None => if counts_as_user_turn active then segment_settings active else None
       | Some s => Some s
       end)
      (if is_never_set (scan_reference st) &&
          (counts_as_user_turn active || is_cleared (segment_reference active))
       then segment_reference active else scan_reference st)
      (pending_rollback_turns st) (rollout_suffix st) (active_segment st).

Definition or_default (o : option segment) : segment := default default_segment o.

Definition set_turn_id (id : option str) (s : segment) : segment :=
  mkSegment id (counts_as_user_turn s) (segment_settings s) (segment_reference s) (segment_base s).
Definition set_user (b : bool) (s : segment) : segment :=
  mkSegment (turn_id s) b (segment_settings s) (segment_reference s) (segment_base s).
Definition set_segment_settings (p : option PreviousTurnSettings) (s : segment) : segment :=
  mkSegment (turn_id s) (counts_as_user_turn s) p (segment_reference s) (segment_base s).
Definition set_segment_reference (r : TurnReferenceContextItem R) (s : segment) : segment :=
  mkSegment (turn_id s) (counts_as_user_turn s) (segment_settings s) r (segment_base s).
Definition set_segment_base (b : option (list (ResponseItem P))) (s : segment) : segment :=
  mkSegment (turn_id s) (counts_as_user_turn s) (segment_settings s) (segment_reference s) b.

(** A compaction, seen from the newer items; the second component tells
    whether it is the newest checkpoint of its segment. *)
Definition see_compaction (compacted : CompactedItem P) (s : segment) : segment * bool :=
  let s := if is_never_set (segment_reference s) then set_segment_reference Cleared s else s in
  match segment_base s, replacement_history compacted with
  | None, Some replacement => (set_segment_base (Some replacement) s, true)
  | _, _ => (s, false)
  end.

Definition see_turn_context (ctx : TurnContextItem R) (s : segment) : segment :=
  let s := match turn_id s with None => set_turn_id (ctx_turn_id ctx) s | Some _ => s end in
  if turn_ids_are_compatible (turn_id s) (ctx_turn_id ctx) then
    let s := set_segment_settings (Some (mkSettings (ctx_model ctx) (ctx_realtime_active ctx))) s in
    if is_never_set (segment_reference s) then set_segment_reference (Latest ctx) s else s
  else s.

(** One round of the loop; [newer] is [rollout_items[index + 1..]]. *)
Definition scan_item item (newer : list item_t) st : Scan P R :=
  match item with
  | Compacted compacted =>
      let '(s, checkpoint) := see_compaction compacted (or_default (active_segment st)) in
      let st := set_active (Some s) st in
      if checkpoint then set_suffix newer st else st
  | RolloutEvent (ThreadRolledBack num_turns) =>
      set_pending (saturating_add (pending_rollback_turns st) num_turns) st
  | RolloutEvent (TurnComplete id) =>
      let s := or_default (active_segment st) in
      set_active (Some (match turn_id s with None => set_turn_id (Some id) s | Some _ => s end)) st
  | RolloutEvent (TurnAborted event_id) =>
      match active_segment st, event_id with
      | Some s, Some id =>
          set_active (Some (match turn_id s with None => set_turn_id (Some id) s | Some _ => s end)) st
      | None, Some id => set_active (Some (set_turn_id (Some id) default_segment)) st
      | _, None => st
      end
  | RolloutEvent UserMessageEvent =>
      set_active (Some (set_user true (or_default (active_segment st)))) st
  | TurnContext ctx => set_active (Some (see_turn_context ctx (or_default (active_segment st)))) st
  | RolloutEvent (TurnStarted id) =>
      match active_segment st with
      | Some s =>
          if turn_ids_are_compatible (turn_id s) (Some id)
          then finalize_active_segment s (set_active None st) else st
      | None => st
      end
  | RolloutResponseItem response_item =>
      let s := or_default (active_segment st) in
      set_active (Some (set_user (counts_as_user_turn s || boundary response_item) s)) st
  | RolloutEvent (TokenCount _) | RolloutEvent (ErrorEvent _) | RolloutEvent (WarningEvent _)
  | RolloutEvent (StreamErrorEvent _) | RolloutEvent (OtherEvent _) | SessionMeta => st
  end.

Definition scan_done st : bool :=
  bool_decide (is_Some (base_replacement_history st)) && bool_decide (is_Some (previous_turn_settings st)) &&
  negb (is_never_set (scan_reference st)).

(** The loop over [iter().enumerate().rev()]: [rev_items] are the items still
    to be seen, newest first, [newer] those already seen, oldest first. *)
Fixpoint scan_loop (rev_items newer : list item_t) st : Scan P R :=
  match rev_items with
  | [] => st
  | item :: older =>
      let st := scan_item item newer st in
      if scan_done st then st else scan_loop older (item :: newer) st
  end.

Definition finish_scan st : Scan P R :=
  match active_segment st with
  | Some s => finalize_active_segment s (set_active None st)
  | None => st
  end.

Definition initial_scan (rollout_items : list item_t) : Scan P R :=
  mkScan None None NeverSet 0 rollout_items None.

Definition scan_rollout (rollout_items : list item_t) : Scan P R :=
  finish_scan (scan_loop (reverse rollout_items) [] (initial_scan rollout_items)).

(** ** The replay *)

(** One round of the second loop, with [saw_legacy_compaction_without_replacement_history]. *)
Definition replay_item (policy : TruncationPolicy) (acc : manager * bool) item : Total (manager * bool) :=
  let '(history, saw_legacy) := acc in
  match item with
  | RolloutResponseItem response_item =>
      history ← record_items [response_item] policy history;
      Ok (history, saw_legacy)
  | Compacted compacted =>
      match replacement_history compacted with
      | Some replacement => Ok (replace replacement history, saw_legacy)
      | None =>
          let user_messages :=
            collect_user_messages hook_prompt_text standard_contextual_text (items history) in
          rebuilt ← build_compacted_history [] user_messages (compacted_message compacted);
          Ok (replace rebuilt history, true)
      end
  | RolloutEvent (ThreadRolledBack num_turns) =>
      history ← drop_last_n_user_turns contextual inter_agent_json (N.to_nat num_turns) history;
      Ok (history, saw_legacy)
  | RolloutEvent _ | TurnContext _ | SessionMeta => Ok acc
  end.

Fixpoint replay (policy : TruncationPolicy) (acc : manager * bool) (suffix : list item_t)
    : Total (manager * bool) :=
  match suffix with
  | [] => Ok acc
  | item :: suffix => acc ← replay_item policy acc item; replay policy acc suffix
  end.

(** [reconstruct_history_from_rollout]; [policy] is the truncation policy of
    the turn context. *)
Definition reconstruct_history_from_rollout (policy : TruncationPolicy) (rollout_items : list item_t)
    : Total (RolloutReconstruction P R) :=
  let st := scan_rollout rollout_items in
  let history : manager :=
    match base_replacement_history st with
    | Some base => replace base new_history
    | None => new_history
    end in
  '((history, saw_legacy) : manager * bool) ← replay policy (history, false) (rollout_suffix st);
  let reference := match scan_reference st with Latest ctx => Some ctx | NeverSet | Cleared => None end in
  Ok (mkReconstruction (items history) (previous_turn_settings st)
        (if saw_legacy then None else reference)).

(** ** Cutting rollouts: [core/src/thread_rollout_truncation.rs] *)

Definition rollout_item_is_user_turn_boundary item : bool :=
  match item with RolloutResponseItem response_item => boundary response_item | _ => false end.

(** [InitialHistory] *)
Inductive InitialHistory :=
| NewHistory
| ClearedHistory
| Resumed (history : list item_t)
| Forked (history : list item_t).

Definition scan_rollout_items (self : InitialHistory) (predicate : item_t → bool) : bool :=
  match self with
  | NewHistory | ClearedHistory => false
  | Resumed history | Forked history => existsb predicate history
  end.

Definition initial_history_has_prior_user_turns (conversation_history : InitialHistory) : bool :=
  scan_rollout_items conversation_history rollout_item_is_user_turn_boundary.

Definition is_real_user_message_boundary (item : ResponseItem P) : bool :=
  match parse_turn_item hook_prompt_text standard_contextual_text item with
  | Some (UserMessage _) => true
  | _ => false
  end.

Definition is_trigger_turn_boundary (item : ResponseItem P) : bool :=
  match item with
  | Message _ role content _ =>
      bool_decide (role = lit "assistant") &&
      match content with
      | [InputText text] | [OutputText text] => default false (inter_agent text)
      | _ => false
      end
  | _ => false
  end.

Definition is_message (item : ResponseItem P) : bool := match item with Message _ _ _ _ => true | _ => false end.

Definition user_position_step (positions : list nat) (idx : nat) item : list nat :=
  match item with
  | RolloutResponseItem response_item =>
      if is_message response_item && is_real_user_message_boundary response_item then positions ++ [idx]
      else positions
  | RolloutEvent (ThreadRolledBack num_turns) =>
      take (length positions - N.to_nat num_turns) positions
  | _ => positions
  end.
Fixpoint user_positions_from (idx : nat) (positions : list nat) (rollout : list item_t) : list nat :=
  match rollout with
  | [] => positions
  | item :: rollout => user_positions_from (S idx) (user_position_step positions idx item) rollout
  end.
Definition user_message_positions_in_rollout (rollout : list item_t) : list nat := user_positions_from 0 [] rollout.

(** The two vectors: turns that a rollback counts, and turns to fork at. *)
Definition fork_position_step (acc : list nat * list nat) (idx : nat) item : list nat * list nat :=
  let '(rollback_turn_positions, fork_turn_positions) := acc in
  match item with
  | RolloutResponseItem response_item =>
      (if boundary response_item then rollback_turn_positions ++ [idx] else rollback_turn_positions,
       if is_real_user_message_boundary response_item || is_trigger_turn_boundary response_item
       then fork_turn_positions ++ [idx] else fork_turn_positions)
  | RolloutEvent (ThreadRolledBack num_turns) =>
      let n := N.to_nat num_turns in
      if decide (n = 0%nat) then acc
      else
        let rollback_start_idx :=
          option_or
            (if decide (n ≤ length rollback_turn_positions)%nat
             then rollback_turn_positions !! (length rollback_turn_positions - n)%nat else None)
            (head rollback_turn_positions) in
        match rollback_start_idx with
        | None => acc
        | Some start =>
            (take (length rollback_turn_positions - n) rollback_turn_positions,
             List.filter (λ position, bool_decide (position < start)%nat) fork_turn_positions)
        end
  | _ => acc
  end.
Fixpoint fork_positions_from (idx : nat) (acc : list nat * list nat) (rollout : list item_t)
    : list nat * list nat :=
  match rollout with
  | [] => acc
  | item :: rollout => fork_positions_from (S idx) (fork_position_step acc idx item) rollout
  end.
Definition fork_turn_positions_in_rollout (rollout : list item_t) : list nat :=
  (fork_positions_from 0 ([], []) rollout).2.

(** [n_from_start] is [None] for [usize::MAX]. *)
Definition truncate_rollout_before_nth_user_message_from_start (rollout : list item_t)
    (n_from_start : option nat) : Total (list item_t) :=
  match n_from_start with
  | None => Ok rollout
  | Some n_from_start =>
      let user_positions := user_message_positions_in_rollout rollout in
      if decide (length user_positions ≤ n_from_start)%nat then Ok rollout
      else
        cut_idx ← index n_from_start user_positions;
        slice_to cut_idx rollout
  end.

Definition truncate_rollout_to_last_n_fork_turns (rollout : list item_t) (n_from_end : nat)
    : Total (list item_t) :=
  if decide (n_from_end = 0%nat) then Ok []
  else
    let fork_turn_positions := fork_turn_positions_in_rollout rollout in
    if decide (length fork_turn_positions ≤ n_from_end)%nat then Ok rollout
    else
      keep_idx ← index (length fork_turn_positions - n_from_end) fork_turn_positions;
      slice_from keep_idx rollout.
End reconstruction.
