(* ===== verification/RolloutProofs.v ===== *)
(** * What a rollout is reconstructed to

    Rollouts made of turns and rollbacks, as sessions write them; the settings
    and the baseline are those of the newest turn that the rollbacks leave;
    the history is that of replaying the whole rollout, unless the checkpoint
    of a compaction was rolled back. *)
From S2P Require Import Prelude RustStr MachineInt Truncate History HistoryProofs Compaction Rollout.

(** ** The scan without its end and without the suffix *)

Section scan.
Context {P R : Type}.
Context (hook_prompt_text standard_contextual_text : str → bool) (inter_agent : str → option bool).
Implicit Types (st : Scan P R) (item : RolloutItem P R).

Local Abbreviation scan_step := (scan_item (P:=P) (R:=R) hook_prompt_text standard_contextual_text inter_agent).
Local Abbreviation loop := (scan_loop (P:=P) (R:=R) hook_prompt_text standard_contextual_text inter_agent).
Local Abbreviation boundary :=
  (is_user_turn_boundary (P:=P) (contextual_user_text hook_prompt_text standard_contextual_text)
     (inter_agent_json inter_agent)).

(** What the scan finds out about settings and history base. *)
Definition findings st : option (list (ResponseItem P)) * option PreviousTurnSettings * TurnReferenceContextItem R :=
  (base_replacement_history st, previous_turn_settings st, scan_reference st).

(** The state without the suffix. *)
Definition forget st : Scan P R := set_suffix [] st.

Lemma forget_eq st st' : forget st = forget st' →
  findings st = findings st' ∧ pending_rollback_turns st = pending_rollback_turns st' ∧
  active_segment st = active_segment st'.
Proof. destruct st, st'. unfold forget, set_suffix, findings. simpl. intros [= -> -> -> -> ->]. done. Qed.

Lemma finalize_forget s st : forget (finalize_active_segment s st) = finalize_active_segment s (forget st).
Proof.
  unfold finalize_active_segment. simpl. destruct (0 <? _)%N; [|done]. by destruct (counts_as_user_turn s).
Qed.

Lemma scan_item_forget item newer st :
  forget (scan_step item newer st) = forget (scan_step item [] (forget st)).
Proof.
  destruct item as [|x|c|ctx|[id|id|[id|]| |n| | | | |]]; try done; simpl.
  - destruct (see_compaction c (or_default (active_segment st))) as [s []]; done.
  - destruct (active_segment st) as [s|]; [|done].
    destruct (turn_ids_are_compatible _ _); [|done]. by rewrite !finalize_forget.
  - by destruct (active_segment st).
  - by destruct (active_segment st).
Qed.

(** The whole scan, without the suffix and without an early end. *)
Definition full_scan (rev_items : list (RolloutItem P R)) st : Scan P R :=
  foldl (λ st item, forget (scan_step item [] st)) st rev_items.

Lemma finalize_done s st : scan_done st = true → findings (finalize_active_segment s st) = findings st.
Proof.
  unfold scan_done, finalize_active_segment, findings. rewrite !andb_true_iff, !bool_decide_eq_true.
  intros [[[b Eb] [p Ep]] Hr]. destruct (0 <? _)%N.
  - by destruct (counts_as_user_turn s); simpl; congruence.
  - simpl. rewrite Eb, Ep. by destruct (scan_reference st).
Qed.

Lemma scan_item_done item newer st : scan_done st = true → findings (scan_step item newer st) = findings st.
Proof.
  intros Hd. destruct item as [|x|c|ctx|[id|id|[id|]| |n| | | | |]]; try done; simpl.
  - by destruct (see_compaction c (or_default (active_segment st))) as [s []].
  - destruct (active_segment st) as [s|]; [|done].
    destruct (turn_ids_are_compatible _ _); [|done]. by apply (finalize_done s (set_active None st)).
  - by destruct (active_segment st).
  - by destruct (active_segment st).
Qed.

Lemma scan_done_findings st st' : findings st = findings st' → scan_done st = scan_done st'.
Proof. unfold findings, scan_done. by intros [= -> -> ->]. Qed.

Lemma full_scan_done rev_items st : scan_done st = true → findings (full_scan rev_items st) = findings st.
Proof.
  revert st. induction rev_items as [|item l IH]; intros st Hd; [done|]. simpl.
  assert (Hf : findings (forget (scan_step item [] st)) = findings st) by (by apply scan_item_done).
  rewrite IH; [done|]. by rewrite (scan_done_findings _ _ Hf).
Qed.

Lemma finish_done st : scan_done st = true → findings (finish_scan st) = findings st.
Proof.
  intros Hd. unfold finish_scan. destruct (active_segment st) as [s|]; [|done].
  by apply (finalize_done s (set_active None st)).
Qed.

Lemma finish_forget st st' : forget st = forget st' → findings (finish_scan st) = findings (finish_scan st').
Proof.
  intros E. assert (E' : findings (finish_scan (forget st)) = findings (finish_scan (forget st'))) by by rewrite E.
  assert (Hf : ∀ s, findings (finish_scan (forget s)) = findings (finish_scan s)).
  { intros s. unfold finish_scan. simpl. destruct (active_segment s) as [a|]; [|done].
    change (set_active None (forget s)) with (forget (set_active None s)).
    by rewrite <-finalize_forget. }
  by rewrite !Hf in E'.
Qed.

(** Ending early makes no difference to what is found. *)
Lemma scan_loop_full rev_items newer st :
  findings (finish_scan (loop rev_items newer st)) = findings (finish_scan (full_scan rev_items (forget st))).
Proof.
  revert newer st. induction rev_items as [|item l IH]; intros newer st.
  { simpl. by apply finish_forget. }
  cbn [scan_loop full_scan foldl]. rewrite <-(scan_item_forget item newer st).
  fold (full_scan l (forget (scan_step item newer st))).
  destruct (scan_done (scan_step item newer st)) eqn:Hd; [|apply IH].
  assert (Hf : findings (full_scan l (forget (scan_step item newer st))) = findings (scan_step item newer st))
    by (etransitivity; [by apply full_scan_done|done]).
  rewrite !finish_done; [by rewrite Hf| |done]. by rewrite (scan_done_findings _ _ Hf).
Qed.
End scan.

(** ** Rollouts made of turns *)

Record Turn {P R : Type} := mkTurn {
  t_id : str;
  t_body : list (RolloutItem P R)
}.
Arguments Turn : clear implicits.
Arguments mkTurn {P R}.

Inductive Entry {P R : Type} :=
| ATurn (t : Turn P R)
| ARollback (num_turns : N)
| ANote (item : RolloutItem P R).
Arguments Entry : clear implicits.

Section turns.
Context {P R : Type}.
Context (hook_prompt_text standard_contextual_text : str → bool) (inter_agent : str → option bool).
Implicit Types (st : Scan P R) (item : RolloutItem P R) (t : Turn P R) (e : Entry P R) (o : option (ActiveReplaySegment P R)).

Local Abbreviation scan_step := (scan_item (P:=P) (R:=R) hook_prompt_text standard_contextual_text inter_agent).
Local Abbreviation full := (full_scan (P:=P) (R:=R) hook_prompt_text standard_contextual_text inter_agent).
Local Abbreviation boundary :=
  (is_user_turn_boundary (P:=P) (contextual_user_text hook_prompt_text standard_contextual_text)
     (inter_agent_json inter_agent)).

(** What may stand between the start of a turn and the next turn: the markers
    carry the id of the turn, if any. *)
Definition in_turn (id : str) item : Prop :=
  match item with
  | RolloutEvent (TurnStarted _) | RolloutEvent (ThreadRolledBack _) => False
  | RolloutEvent (TurnComplete i) => i = id
  | RolloutEvent (TurnAborted o) => o = None ∨ o = Some id
  | TurnContext ctx => ctx_turn_id ctx = None ∨ ctx_turn_id ctx = Some id
  | _ => True
  end.

Definition entry_items e : list (RolloutItem P R) :=
  match e with
  | ATurn t => RolloutEvent (TurnStarted (t_id t)) :: t_body t
  | ARollback n => [RolloutEvent (ThreadRolledBack n)]
  | ANote item => [item]
  end.
Definition entries_items (entries : list (Entry P R)) : list (RolloutItem P R) := concat (map entry_items entries).

Definition wf_entry e : Prop :=
  match e with
  | ATurn t => Forall (in_turn (t_id t)) (t_body t)
  | ARollback _ => True
  | ANote item =>
      match item with
      | SessionMeta | RolloutEvent (TokenCount _) | RolloutEvent (ErrorEvent _) | RolloutEvent (WarningEvent _)
      | RolloutEvent (StreamErrorEvent _) | RolloutEvent (OtherEvent _) => True
      | _ => False
      end
  end.

(** *** What the scan makes of a turn *)

Definition is_user_item item : bool :=
  match item with
  | RolloutResponseItem x => boundary x
  | RolloutEvent UserMessageEvent => true
  | _ => false
  end.
(** A turn that a rollback counts. *)
Definition is_user_turn t : bool := existsb is_user_item (t_body t).

Definition item_settings item : option PreviousTurnSettings :=
  match item with
  | TurnContext ctx => Some (mkSettings (ctx_model ctx) (ctx_realtime_active ctx))
  | _ => None
  end.
(** The settings of a turn are those of its first context. *)
Definition turn_settings t : option PreviousTurnSettings := head (omap item_settings (t_body t)).

Definition item_reference item : option (TurnReferenceContextItem R) :=
  match item with
  | TurnContext ctx => Some (Latest ctx)
  | Compacted _ => Some Cleared
  | _ => None
  end.
(** The baseline of a turn is that of its last context, unless a compaction
    came later. *)
Definition turn_reference t : TurnReferenceContextItem R := default NeverSet (last (omap item_reference (t_body t))).

Definition item_base item : option (list (ResponseItem P)) :=
  match item with Compacted c => replacement_history c | _ => None end.
(** The newest checkpoint of a turn. *)
Definition turn_base t : option (list (ResponseItem P)) := last (omap item_base (t_body t)).

Definition segment_describes t id o : Prop :=
  let s := or_default o in
  (turn_id s = None ∨ turn_id s = Some id) ∧
  counts_as_user_turn s = is_user_turn t ∧ segment_settings s = turn_settings t ∧
  segment_reference s = turn_reference t ∧ segment_base s = turn_base t.

Lemma head_omap_cons {A B} (f : A → option B) x l : head (omap f (x :: l)) = option_or (f x) (head (omap f l)).
Proof. simpl. by destruct (f x). Qed.
Lemma last_omap_cons {A B} (f : A → option B) x l : last (omap f (x :: l)) = option_or (last (omap f l)) (f x).
Proof. simpl. destruct (f x); [rewrite last_cons|]; unfold omap; by destruct (last _). Qed.

Lemma reference_of_items item (l : list (RolloutItem P R)) :
  default NeverSet (last (omap item_reference (item :: l))) =
  (if is_never_set (default NeverSet (last (omap item_reference l)))
   then default NeverSet (item_reference item) else default NeverSet (last (omap item_reference l))).
Proof.
  rewrite last_omap_cons. destruct (last (omap item_reference l)) as [r|] eqn:E; simpl; [|done].
  assert (Hr : r ∈ omap item_reference l) by by apply last_Some_elem_of.
  apply list_elem_of_omap in Hr as (x & _ & Hx). destruct x; try done; by injection Hx as <-.
Qed.

(** How an item of a turn changes the segment. *)
Definition updated item (s s' : ActiveReplaySegment P R) : Prop :=
  counts_as_user_turn s' = is_user_item item || counts_as_user_turn s ∧
  segment_settings s' = option_or (item_settings item) (segment_settings s) ∧
  segment_reference s' = (if is_never_set (segment_reference s) then default NeverSet (item_reference item)
                          else segment_reference s) ∧
  segment_base s' = option_or (segment_base s) (item_base item).

Lemma compatible_ids (s : ActiveReplaySegment P R) id (o : option str) :
  (turn_id s = None ∨ turn_id s = Some id) → (o = None ∨ o = Some id) →
  turn_ids_are_compatible (turn_id s) o = true.
Proof. intros [->| ->] [->| ->]; simpl; try done. by apply bool_decide_eq_true. Qed.

Definition id_of (id : str) (s : ActiveReplaySegment P R) : Prop := turn_id s = None ∨ turn_id s = Some id.

Lemma see_compaction_spec c id s :
  id_of id s → let s' := (see_compaction c s).1 in id_of id s' ∧ updated (Compacted c) s s'.
Proof.
  intros Hid. unfold see_compaction, updated, id_of in *. destruct s as [i u p r b]; simpl in *.
  destruct (is_never_set r) eqn:Er, b, (replacement_history c); simpl; by rewrite ?Er.
Qed.

Lemma see_turn_context_spec (ctx : TurnContextItem R) id s :
  id_of id s → (ctx_turn_id ctx = None ∨ ctx_turn_id ctx = Some id) →
  id_of id (see_turn_context ctx s) ∧ updated (TurnContext ctx) s (see_turn_context ctx s).
Proof.
  intros Hid Hc. unfold see_turn_context.
  set (s0 := match turn_id s with None => set_turn_id (ctx_turn_id ctx) s | Some _ => s end).
  assert (Hid0 : id_of id s0) by (unfold s0, id_of in *; destruct Hid as [E|E]; rewrite E; simpl; tauto).
  assert (Hs0 : counts_as_user_turn s0 = counts_as_user_turn s ∧ segment_settings s0 = segment_settings s ∧
    segment_reference s0 = segment_reference s ∧ segment_base s0 = segment_base s)
    by (unfold s0; by destruct (turn_id s)).
  clearbody s0. rewrite (compatible_ids s0 id) by done. destruct Hs0 as (Hu & Hp & Hr & Hb).
  unfold updated, id_of in *. destruct s as [i u p r b], s0 as [i0 u0 p0 r0 b0]. simpl in *. subst.
  destruct (is_never_set r) eqn:Er; simpl; rewrite ?Er; by destruct b.
Qed.

Lemma scan_in_turn id item st :
  in_turn id item → id_of id (or_default (active_segment st)) →
  ∃ o, forget (scan_step item [] st) = forget (set_active o st) ∧ id_of id (or_default o) ∧
    updated item (or_default (active_segment st)) (or_default o).
Proof.
  intros Hin Hid. assert (Hsame : ∀ s : ActiveReplaySegment P R, item_base item = None →
    item_settings item = None → item_reference item = None → is_user_item item = false → updated item s s).
  { intros s Eb Es Er Eu. unfold updated. rewrite Eb, Es, Er, Eu.
    split_and!; [done|done| |by destruct (segment_base s)].
    destruct (segment_reference s); done. }
  destruct item as [|x|c|ctx|[i|i|i| |n| | | | |]]; simpl in Hin; try done;
    try solve [exists (active_segment st); split_and!; [by destruct st|done|by apply Hsame]].
  - eexists. split; [reflexivity|]. simpl. split; [done|]. unfold updated. simpl. rewrite orb_comm.
    split_and!; [done|done| |by destruct (segment_base _)]. by destruct (segment_reference _).
  - pose proof (see_compaction_spec c id _ Hid) as H. simpl.
    destruct (see_compaction c (or_default (active_segment st))) as [s' []]; exists (Some s'); (split; [done|exact H]).
  - pose proof (see_turn_context_spec ctx id _ Hid Hin) as H. eexists. split; [reflexivity|exact H].
  - subst i. eexists. split; [reflexivity|]. simpl.
    destruct (or_default (active_segment st)) as [[k|] u p r b] eqn:E; simpl.
    + split; [done|]. by apply Hsame.
    + split; [by right|]. unfold updated. simpl. split_and!; [done|done|by destruct r|by destruct b].
  - destruct i as [i|].
    + assert (i = id) as -> by (destruct Hin as [|[=]]; done).
      destruct (active_segment st) as [s|] eqn:E; simpl; rewrite E; (eexists; split; [reflexivity|]); simpl.
      * simpl in Hid. destruct s as [[k|] u p r b]; simpl.
        -- split; [done|]. by apply Hsame.
        -- split; [by right|]. unfold updated. simpl. split_and!; [done|done|by destruct r|by destruct b].
      * split; [by right|done].
    + exists (active_segment st). simpl. split_and!; [destruct st as [? ? ? ? ? []]; done|done|by apply Hsame].
  - eexists. split; [reflexivity|]. simpl. split; [done|]. unfold updated. simpl.
    split_and!; [done|done| |by destruct (segment_base _)]. by destruct (segment_reference _).
Qed.

Lemma full_snoc l item st : full (l ++ [item]) st = forget (scan_step item [] (full l st)).
Proof. unfold full_scan. by rewrite foldl_app. Qed.

(** A turn seen from its end: the segment says what the turn is. *)
Lemma scan_body id body st :
  Forall (in_turn id) body → active_segment st = None → rollout_suffix st = [] →
  ∃ o, full (reverse body) st = set_active o st ∧ id_of id (or_default o) ∧
    segment_describes (mkTurn id body) id o.
Proof.
  intros Hb Ha Hs. induction Hb as [|item body Hi Hb IH].
  { exists None. split; [destruct st; simpl in *; by subst|]. split; [by left|].
    unfold segment_describes. simpl. split_and!; [by left|done..]. }
  destruct IH as (o & E & Hid & _ & Hu & Hp & Hr & Hbase).
  rewrite reverse_cons, full_snoc, E.
  destruct (scan_in_turn id item (set_active o st) Hi Hid) as (o' & -> & Hid' & Hu' & Hp' & Hr' & Hb').
  exists o'. split; [destruct st; simpl in *; by subst|]. split; [done|].
  unfold segment_describes, is_user_turn, turn_settings, turn_reference, turn_base in *.
  cbn [t_body] in *. rewrite reference_of_items, head_omap_cons, last_omap_cons.
  cbn [active_segment set_active] in *.
  rewrite Hu', Hp', Hr', Hb', Hu, Hp, Hr, Hbase. done.
Qed.

(** *** The turns that survive *)

(** What an entry does to the scan. *)
Definition scan_turn t st : Scan P R :=
  finalize_active_segment (mkSegment None (is_user_turn t) (turn_settings t) (turn_reference t) (turn_base t)) st.
Definition scan_entry st e : Scan P R :=
  match e with
  | ATurn t => scan_turn t st
  | ARollback n => set_pending (saturating_add (pending_rollback_turns st) n) st
  | ANote _ => st
  end.

Lemma finalize_described t id o st :
  segment_describes t id o → finalize_active_segment (or_default o) st = scan_turn t st.
Proof.
  intros (_ & Hu & Hp & Hr & Hb). unfold scan_turn, finalize_active_segment. simpl.
  by rewrite Hu, Hp, Hr, Hb.
Qed.

Lemma finalize_default st :
  rollout_suffix st = [] → finalize_active_segment default_segment st = st.
Proof.
  intros Hs. unfold finalize_active_segment. destruct st as [b p r n u a]. simpl in *.
  destruct (0 <? n)%N; [done|]. rewrite andb_false_r. by destruct b, p.
Qed.

Lemma full_entry e st :
  wf_entry e → active_segment st = None → rollout_suffix st = [] →
  full (reverse (entry_items e)) st = scan_entry st e.
Proof.
  intros Hw Ha Hs. destruct e as [t|n|item]; simpl in Hw |- *.
  - rewrite reverse_cons, full_snoc. destruct t as [id body]. simpl in *.
    destruct (scan_body id body st Hw Ha Hs) as (o & -> & Hid & Hd). simpl.
    rewrite <-(finalize_described _ _ _ _ Hd). destruct o as [s|]; simpl.
    + rewrite (compatible_ids s id (Some id)) by auto. rewrite finalize_forget.
      f_equal. destruct st; simpl in *; by subst.
    + rewrite finalize_default by done. destruct st; simpl in *; by subst.
  - destruct st; simpl in *; by subst.
  - destruct st; simpl in *; subst. by destruct item as [| | | |[]].
Qed.

Lemma scan_entry_clean st e :
  active_segment st = None → rollout_suffix st = [] →
  active_segment (scan_entry st e) = None ∧ rollout_suffix (scan_entry st e) = [].
Proof.
  intros Ha Hs. destruct e as [t|n|item]; simpl; [|done..]. unfold scan_turn, finalize_active_segment.
  destruct (0 <? _)%N; simpl; [destruct (is_user_turn t)|]; done.
Qed.

Lemma full_entries entries st :
  Forall wf_entry entries → active_segment st = None → rollout_suffix st = [] →
  full (reverse (entries_items entries)) st = foldl scan_entry st (reverse entries) ∧
  active_segment (foldl scan_entry st (reverse entries)) = None.
Proof.
  intros Hw. revert st. induction entries as [|e entries IH] using rev_ind; intros st Ha Hs; [done|].
  apply Forall_app in Hw as [Hw [He _]%Forall_cons].
  unfold entries_items. rewrite map_app, concat_app. simpl. rewrite app_nil_r, !reverse_app. simpl.
  unfold full_scan. rewrite foldl_app. change (foldl _ st (reverse (entry_items e))) with
    (full (reverse (entry_items e)) st). rewrite full_entry by done.
  destruct (scan_entry_clean st e Ha Hs) as [Ha' Hs']. by apply IH.
Qed.

Implicit Types (rev_entries entries : list (Entry P R)) (turns : list (Turn P R)).

(** The turns the scan does not skip, newest first. *)
Fixpoint unskipped rev_entries (pending : N) : list (Turn P R) :=
  match rev_entries with
  | [] => []
  | ATurn t :: older =>
      if (0 <? pending)%N then unskipped older (if is_user_turn t then pending - 1 else pending)%N
      else t :: unskipped older pending
  | ARollback n :: older => unskipped older (saturating_add pending n)
  | ANote _ :: older => unskipped older pending
  end.

Definition user_settings t : option PreviousTurnSettings := if is_user_turn t then turn_settings t else None.
Definition established t : option (TurnReferenceContextItem R) :=
  if (is_user_turn t || is_cleared (turn_reference t)) && negb (is_never_set (turn_reference t))
  then Some (turn_reference t) else None.

Lemma scan_entries rev_entries st :
  findings (foldl scan_entry st rev_entries) =
  (let left := unskipped rev_entries (pending_rollback_turns st) in
   (option_or (base_replacement_history st) (head (omap turn_base left)),
    option_or (previous_turn_settings st) (head (omap user_settings left)),
    if is_never_set (scan_reference st) then default NeverSet (head (omap established left))
    else scan_reference st)).
Proof.
  revert st. induction rev_entries as [|e l IH]; intros st; simpl.
  { unfold findings. destruct st as [b p r n u a]; simpl. by destruct b, p, r. }
  rewrite IH. destruct e as [t|n|item]; simpl; [|done..].
  unfold scan_turn, finalize_active_segment. cbn [counts_as_user_turn segment_settings segment_reference segment_base].
  destruct (N.ltb_spec 0 (pending_rollback_turns st)) as [Hp|Hp].
  { by destruct (is_user_turn t). }
  cbn [base_replacement_history previous_turn_settings scan_reference pending_rollback_turns].
  rewrite !head_omap_cons. f_equal; [f_equal|].
  - by destruct (base_replacement_history st).
  - unfold user_settings. by destruct (previous_turn_settings st), (is_user_turn t).
  - unfold established. destruct (scan_reference st), (is_user_turn t), (turn_reference t); done.
Qed.

(** Rolling back, from the oldest entry on: each rollback takes back the
    newest turns up to the last of the user's turns that it counts. *)
Fixpoint roll_back (n : N) turns : list (Turn P R) :=
  match turns with
  | [] => []
  | t :: older =>
      if (n =? 0)%N then turns else roll_back (if is_user_turn t then n - 1 else n)%N older
  end.
Definition run_entry turns e : list (Turn P R) :=
  match e with
  | ATurn t => t :: turns
  | ARollback n => roll_back n turns
  | ANote _ => turns
  end.
(** What is left at the end, newest first. *)
Definition surviving entries : list (Turn P R) := foldl run_entry [] entries.

Lemma roll_back_0 turns : roll_back 0 turns = turns.
Proof. by destruct turns. Qed.
Lemma roll_back_add n m turns : roll_back (n + m) turns = roll_back n (roll_back m turns).
Proof.
  revert n m. induction turns as [|t l IH]; intros n m; [done|]. cbn [roll_back].
  destruct (N.eqb_spec m 0) as [->|Hm].
  { rewrite N.add_0_r. done. }
  destruct (N.eqb_spec (n + m) 0) as [E|_]; [lia|]. rewrite <-IH.
  f_equal. destruct (is_user_turn t); lia.
Qed.
Lemma roll_back_all n turns : (len turns < n)%N → roll_back n turns = [].
Proof.
  revert n. induction turns as [|t l IH]; intros n; [done|]. rewrite len_cons. cbn [roll_back]. intros Hn.
  destruct (N.eqb_spec n 0) as [->|_]; [lia|]. apply IH. destruct (is_user_turn t); lia.
Qed.
Lemma len_roll_back n turns : (len (roll_back n turns) <= len turns)%N.
Proof.
  revert n. induction turns as [|t l IH]; intros n; [done|]. cbn [roll_back].
  destruct (n =? 0)%N; [lia|]. rewrite len_cons. specialize (IH (if is_user_turn t then n - 1 else n)%N). lia.
Qed.
Lemma len_surviving entries : (len (surviving entries) <= len entries)%N.
Proof.
  induction entries as [|e l IH] using rev_ind; [done|]. unfold surviving in *. rewrite foldl_app, len_app. simpl.
  destruct e as [t|n|item]; simpl; rewrite ?len_cons, ?len_nil; [lia| |lia].
  pose proof (len_roll_back n (foldl run_entry [] l)). lia.
Qed.

Lemma saturating_roll_back p n turns :
  (len turns < usize_max)%N → roll_back (saturating_add p n) turns = roll_back (p + n) turns.
Proof.
  intros Hl. unfold saturating_add. destruct (N.min_spec usize_max (p + n)) as [[Hlt ->]|[_ ->]]; [|done].
  rewrite !roll_back_all; [done|lia..].
Qed.

Lemma unskipped_surviving entries p :
  (len entries < usize_max)%N → unskipped (reverse entries) p = roll_back p (surviving entries).
Proof.
  revert p. induction entries as [|e l IH] using rev_ind; intros p Hl; [done|].
  rewrite len_app in Hl. assert (Hl' : (len l < usize_max)%N) by lia.
  unfold surviving. rewrite reverse_app, foldl_app. simpl. fold (surviving l).
  destruct e as [t|n|item]; simpl; rewrite !IH by done; [| |done].
  - destruct (N.ltb_spec 0 p), (N.eqb_spec p 0); try lia; [done|]. subst. by rewrite roll_back_0.
  - pose proof (len_surviving l). rewrite saturating_roll_back by lia. by rewrite roll_back_add.
Qed.

(** The settings and the baseline after a rollout. *)
Definition settings_left entries : option PreviousTurnSettings := head (omap user_settings (surviving entries)).
Definition baseline_left entries : option (TurnContextItem R) :=
  match head (omap established (surviving entries)) with Some (Latest ctx) => Some ctx | _ => None end.

Lemma scan_rollout_findings entries :
  Forall wf_entry entries → (len entries < usize_max)%N →
  findings (scan_rollout hook_prompt_text standard_contextual_text inter_agent (entries_items entries)) =
    (head (omap turn_base (surviving entries)), settings_left entries,
     default NeverSet (head (omap established (surviving entries)))).
Proof.
  intros Hw Hl. unfold scan_rollout. rewrite scan_loop_full.
  change (forget (initial_scan (entries_items entries))) with (initial_scan (P:=P) (R:=R) []).
  destruct (full_entries entries (initial_scan []) Hw eq_refl eq_refl) as [-> Ha].
  unfold finish_scan. rewrite Ha, scan_entries. cbn [pending_rollback_turns initial_scan].
  by rewrite unskipped_surviving, roll_back_0 by done.
Qed.

(** Resuming, forking and rolling back restore the settings and the
    baseline of the right turn.  In a rollout made of turns and rollbacks the
    reverse scan, which counts down pending rollbacks and may end early,
    finds what running through the rollout from its beginning leaves: the
    settings of the newest turn of the user that is not rolled back and has
    any, and the baseline of the newest such turn, unless a later compaction
    cleared it. *)
Theorem settings_of_last_surviving_turn policy entries :
  Forall wf_entry entries → (len entries < usize_max)%N →
  let st := scan_rollout hook_prompt_text standard_contextual_text inter_agent (entries_items entries) in
  reconstruct_history_from_rollout hook_prompt_text standard_contextual_text inter_agent policy
    (entries_items entries) =
  ('((history, saw_legacy) : ContextManager P (TurnContextItem R) * bool) ←
     replay hook_prompt_text standard_contextual_text inter_agent policy
       (match head (omap turn_base (surviving entries)) with
        | Some base => replace base new_history
        | None => new_history
        end, false) (rollout_suffix st);
   Ok (mkReconstruction (items history) (settings_left entries)
         (if saw_legacy then None else baseline_left entries))).
Proof.
  intros Hw Hl st. pose proof (scan_rollout_findings entries Hw Hl) as Hf. fold st in Hf.
  unfold reconstruct_history_from_rollout. fold st. injection Hf as -> -> ->.
  unfold baseline_left. by destruct (head (omap established (surviving entries))) as [[]|].
Qed.
End turns.

(** ** Growing rollouts *)

Section growing.
Context {P R : Type}.
Implicit Types (entries : list (Entry P R)) (t : Turn P R).

Lemma entries_items_app entries entries' :
  entries_items (entries ++ entries') = entries_items entries ++ entries_items entries'.
Proof. unfold entries_items. by rewrite map_app, concat_app. Qed.

(** The turn that is going on, with more items in it. *)
Definition longer t (new : list (RolloutItem P R)) : Turn P R := mkTurn (t_id t) (t_body t ++ new).

Lemma longer_items entries t new :
  entries_items (entries ++ [ATurn (longer t new)]) = entries_items (entries ++ [ATurn t]) ++ new.
Proof.
  unfold entries_items. rewrite !map_app, !concat_app. simpl. by rewrite !app_nil_r, <-app_assoc, <-app_comm_cons.
Qed.

Lemma omap_snoc_last {A B} (f : A → option B) (l k : list A) b :
  last (omap f k) = Some b → last (omap f (l ++ k)) = Some b.
Proof. intros E. rewrite omap_app, last_app. by rewrite E. Qed.
End growing.

(** ** The history *)

Section history.
Context {P R : Type}.
Context (hook_prompt_text standard_contextual_text : str → bool) (inter_agent : str → option bool).
Context (policy : TruncationPolicy).

Local Abbreviation manager := (ContextManager P (TurnContextItem R)).
Local Abbreviation scan_step := (scan_item (P:=P) (R:=R) hook_prompt_text standard_contextual_text inter_agent).
Local Abbreviation loop := (scan_loop (P:=P) (R:=R) hook_prompt_text standard_contextual_text inter_agent).
Local Abbreviation scanned := (scan_rollout (P:=P) (R:=R) hook_prompt_text standard_contextual_text inter_agent).
Local Abbreviation reconstructed :=
  (reconstruct_history_from_rollout (P:=P) (R:=R) hook_prompt_text standard_contextual_text inter_agent policy).
Local Abbreviation step := (replay_item (P:=P) (R:=R) hook_prompt_text standard_contextual_text inter_agent policy).
Local Abbreviation run := (replay (P:=P) (R:=R) hook_prompt_text standard_contextual_text inter_agent policy).
Local Abbreviation contextual := (contextual_user_text hook_prompt_text standard_contextual_text).
Local Abbreviation drop_turns :=
  (drop_last_n_user_turns (P:=P) (T:=TurnContextItem R) contextual (inter_agent_json inter_agent)).
Implicit Types (st : Scan P R) (item : RolloutItem P R) (acc : manager * bool) (h : manager).

(** *** The items of a history depend on items only *)

Lemma trim_items_only (l : list (ResponseItem P)) first cut (r r' : option (TurnContextItem R)) a :
  trim_pre_turn_context_updates contextual l first cut r = Ok a →
  ∃ a', trim_pre_turn_context_updates contextual l first cut r' = Ok a' ∧ a'.1 = a.1.
Proof.
  revert r r' a. induction cut as [|cut IH]; intros r r' a; cbn [trim_pre_turn_context_updates];
    case_decide; try (intros [= <-]; by eexists).
  destruct (index cut l) as [x| |]; [|done..]. cbn [mbind Res_bind].
  destruct x as [id role content phase| | | | | | | | | | | | |]; try (intros [= <-]; by eexists).
  destruct (bool_decide (role = lit "developer") && _); [by apply IH|].
  destruct (bool_decide (role = lit "user") && _); [by apply IH|intros [= <-]; by eexists].
Qed.

Lemma drop_items_only n h h' a :
  items h' = items h → drop_turns n h = Ok a → ∃ a', drop_turns n h' = Ok a' ∧ items a' = items a.
Proof.
  intros E. unfold drop_last_n_user_turns. case_decide; [intros [= <-]; by eexists|]. rewrite E.
  destruct (user_message_positions _ _ (items h)) as [|first rest]; [intros [= <-]; by eexists|].
  destruct (if decide _ then _ else _) as [cut| |]; [|done..]. cbn [mbind Res_bind].
  destruct (trim_pre_turn_context_updates _ _ _ _ (reference_context_item h)) as [r| |] eqn:Et; [|done..].
  destruct (trim_items_only _ _ _ _ (reference_context_item h') _ Et) as (r' & -> & Er).
  cbn [mbind Res_bind]. rewrite Er. destruct (slice_to r.1 (items h)) as [kept| |]; [|done..].
  cbn [mbind Res_bind]. intros [= <-]. by eexists.
Qed.

Lemma record_items_only (l : list (ResponseItem P)) h h' a :
  items h' = items h → record_items l policy h = Ok a →
  ∃ a', record_items l policy h' = Ok a' ∧ items a' = items a.
Proof.
  revert h h'. induction l as [|x l IH]; intros h h' E; simpl; [intros [= <-]; by eexists|].
  destruct (negb (is_api_message x)); [by apply IH|].
  destruct (process_item x policy) as [y| |]; [|done..]. cbn [mbind Res_bind].
  apply IH. simpl. by rewrite E.
Qed.

Lemma step_items_only acc acc' item a :
  items acc'.1 = items acc.1 → step acc item = Ok a → ∃ a', step acc' item = Ok a' ∧ items a'.1 = items a.1.
Proof.
  destruct acc as [h saw], acc' as [h' saw']. cbn [fst]. intros E.
  destruct item as [|x|[m [rep|]]|ctx|[i|i|i| |n| | | | |]]; unfold replay_item; cbn [replacement_history compacted_message];
    try (intros [= <-]; by eexists).
  - destruct (record_items [x] policy h) as [b| |] eqn:Er; [|done..]. intros [= <-].
    destruct (record_items_only _ _ _ _ E Er) as (b' & Eb & Hi). rewrite Eb. by eexists.
  - rewrite E. destruct (build_compacted_history _ _ _) as [l| |]; [|done..]. intros [= <-]. by eexists.
  - destruct (drop_turns (N.to_nat n) h) as [b| |] eqn:Er; [|done..]. intros [= <-].
    destruct (drop_items_only _ _ _ _ E Er) as (b' & Eb & Hi). rewrite Eb. by eexists.
Qed.

Lemma run_items_only acc acc' l a :
  items acc'.1 = items acc.1 → run acc l = Ok a → ∃ a', run acc' l = Ok a' ∧ items a'.1 = items a.1.
Proof.
  revert acc acc'. induction l as [|item l IH]; intros acc acc' E; simpl; [intros [= <-]; by eexists|].
  destruct (step acc item) as [b| |] eqn:Es; [|done..]. cbn [mbind Res_bind]. intros Hr.
  destruct (step_items_only _ _ _ _ E Es) as (b' & -> & Eb). cbn [mbind Res_bind]. by eapply IH.
Qed.

Lemma run_rollout_app acc l l' : run acc (l ++ l') = (acc ← run acc l; run acc l').
Proof.
  revert acc. induction l as [|item l IH]; intros acc; [done|]. simpl.
  destruct (step acc item); [|done..]. apply IH.
Qed.

(** After a checkpoint it does not matter what came before. *)
Lemma run_checkpoint acc pre c rep post a h saw :
  replacement_history c = Some rep → run acc (pre ++ Compacted c :: post) = Ok a →
  ∃ a', run (replace rep h, saw) post = Ok a' ∧ items a'.1 = items a.1.
Proof.
  intros Hc. rewrite run_rollout_app. destruct (run acc pre) as [[h0 saw0]| |]; [|done..].
  cbn [mbind Res_bind replay]. unfold replay_item at 1. rewrite Hc. cbn [mbind Res_bind].
  by apply run_items_only.
Qed.

(** *** Rollouts that can be replayed *)

(** The texts are allocated, and compactions have their new history. *)
Definition replayable item : Prop :=
  match item with
  | RolloutResponseItem x => sized x
  | Compacted c => is_Some (replacement_history c)
  | _ => True
  end.

Lemma step_total acc item : replayable item → ∃ h, step acc item = Ok (h, acc.2).
Proof.
  destruct acc as [h saw], item as [|x|[m rep]|ctx|[i|i|i| |n| | | | |]]; simpl; try (intros _; by eexists).
  - intros Hx. destruct (record_items_bounds [x] policy h) as (h' & added & E & _).
    { intros y Hy. apply list_elem_of_singleton in Hy. by subst. }
    cbn [record_items] in E. rewrite E. by eexists.
  - intros [r ->]. by eexists.
  - intros _. destruct (rollback_spec contextual (inter_agent_json inter_agent) (N.to_nat n) h) as (h' & -> & _).
    by eexists.
Qed.
Lemma run_total acc l : Forall replayable l → ∃ h, run acc l = Ok (h, acc.2).
Proof.
  intros Hl. revert acc. induction Hl as [|item l Hi Hl IH]; intros acc; [by exists acc.1; destruct acc|].
  cbn [replay]. destruct (step_total acc item Hi) as [h ->]. cbn [mbind Res_bind]. apply (IH (h, acc.2)).
Qed.

(** *** What the scan leaves to be replayed *)

Definition plain item : Prop := item_base item = None.

(** Where the scan stands, [seen] being the items seen: no checkpoint yet; or
    the suffix is what comes after the newest checkpoint, and no other one can
    be the base; or the suffix has the newest checkpoint in it. *)
Definition scan_inv (whole seen : list (RolloutItem P R)) st : Prop :=
  (Forall plain seen ∧ rollout_suffix st = whole ∧ base_replacement_history st = None ∧
   segment_base (or_default (active_segment st)) = None) ∨
  (∃ pre c rep post, seen = pre ++ Compacted c :: post ∧ replacement_history c = Some rep ∧ Forall plain post ∧
     ((rollout_suffix st = post ∧
       (base_replacement_history st = None ∨ base_replacement_history st = Some rep) ∧
       (segment_base (or_default (active_segment st)) = None ∨
        segment_base (or_default (active_segment st)) = Some rep)) ∨
      (¬ Forall plain pre ∧ ∃ pre', rollout_suffix st = pre' ++ Compacted c :: post ∧ pre' `suffix_of` pre))).

(** How a step changes base, segment and suffix. *)
Definition base_step st st' : Prop :=
  (base_replacement_history st' = base_replacement_history st ∧
   segment_base (or_default (active_segment st')) = segment_base (or_default (active_segment st))) ∨
  (active_segment st' = None ∧
   (base_replacement_history st' = base_replacement_history st ∨
    base_replacement_history st' =
      option_or (base_replacement_history st) (segment_base (or_default (active_segment st))))).

Lemma finalize_base_step s st :
  let st' := finalize_active_segment s (set_active None st) in
  active_segment st = Some s → base_step st st' ∧ rollout_suffix st' = rollout_suffix st.
Proof.
  intros st' Hs. unfold base_step. rewrite Hs. subst st'. unfold finalize_active_segment.
  simpl. destruct (0 <? _)%N; simpl; [destruct (counts_as_user_turn s); simpl|]; split; try done; right; auto.
Qed.

Lemma step_plain item newer st :
  plain item → base_step st (scan_step item newer st) ∧ rollout_suffix (scan_step item newer st) = rollout_suffix st.
Proof.
  unfold plain. intros Hp.
  assert (Hk : ∀ o, segment_base (or_default o) = segment_base (or_default (active_segment st)) →
    base_step st (set_active o st) ∧ rollout_suffix (set_active o st) = rollout_suffix st).
  { intros o Eo. split; [|done]. left. done. }
  destruct item as [|x|[m rep]|ctx|[i|i|[i|]| |n| | | | |]]; simpl in Hp |- *; try (split; [by left|done]).
  - subst rep. unfold see_compaction. simpl.
    destruct (is_never_set _), (segment_base _) eqn:E; simpl; rewrite ?E; by apply Hk.
  - apply Hk. simpl. unfold see_turn_context.
    destruct (turn_id (or_default (active_segment st))); simpl;
      (destruct (turn_ids_are_compatible _ _); simpl; [|done]);
      by destruct (is_never_set _).
  - destruct (active_segment st) as [s|] eqn:E; [|split; [by left|done]].
    destruct (turn_ids_are_compatible _ _); [|split; [by left|done]]. by apply finalize_base_step.
  - apply Hk. simpl. by destruct (turn_id (or_default (active_segment st))).
  - destruct (active_segment st) as [s|] eqn:E; apply Hk; simpl; [by destruct (turn_id s)|done].
  - destruct (active_segment st) as [s|] eqn:E; split; try done; left; split; try done; by rewrite E.
Qed.

Lemma scan_inv_plain whole seen st st' item :
  plain item → base_step st st' → rollout_suffix st' = rollout_suffix st →
  scan_inv whole seen st → scan_inv whole (item :: seen) st'.
Proof.
  intros Hp Hb Hs [(Hall & Hsuf & Hbase & Hseg)|(pre & c & rep & post & -> & Hrep & Hpost & Hcase)].
  - left. rewrite Hs. split_and!; [by constructor|done| |].
    + destruct Hb as [[-> _]|[_ [->| ->]]]; rewrite ?Hseg, ?Hbase; done.
    + destruct Hb as [[_ ->]|[-> _]]; done.
  - right. exists (item :: pre), c, rep, post. split_and!; [done..|]. rewrite Hs.
    destruct Hcase as [(Hsuf & Hbase & Hseg)|(Hnp & pre' & Hsuf & Hsub)].
    + left. split; [done|]. destruct Hb as [[-> ->]|[-> Hb]]; [done|]. split; [|by left].
      destruct Hb as [->| ->]; [done|]. destruct Hbase as [->| ->], Hseg as [->| ->]; simpl; auto.
    + right. split; [by inversion 1|]. exists pre'. split; [done|by apply suffix_cons_r].
Qed.

Lemma see_checkpoint c rep s :
  replacement_history c = Some rep →
  segment_base (see_compaction c s).1 = option_or (segment_base s) (Some rep) ∧
  (see_compaction (P:=P) (R:=R) c s).2 = bool_decide (segment_base s = None).
Proof.
  intros Hc. unfold see_compaction. rewrite Hc.
  destruct (is_never_set _), (segment_base s) as [b|] eqn:E; simpl; rewrite ?E; split; try done;
    symmetry; by (apply bool_decide_eq_true || apply bool_decide_eq_false).
Qed.

Lemma scan_inv_step whole seen st item :
  scan_inv whole seen st → scan_inv whole (item :: seen) (scan_step item seen st).
Proof.
  intros Hi. destruct (item_base item) as [rep0|] eqn:E.
  2: { destruct (step_plain item seen st E). by eapply scan_inv_plain. }
  destruct item as [|x|c0|ctx|ev]; try done. simpl in E. cbn [scan_item].
  destruct (see_checkpoint c0 rep0 (or_default (active_segment st)) E) as [Eb Ed].
  destruct (see_compaction c0 (or_default (active_segment st))) as [s' checkpoint]. cbn [fst snd] in Eb, Ed.
  subst checkpoint.
  destruct Hi as [(Hall & Hsuf & Hbase & Hseg)|(pre & c & rep & post & -> & Hrep & Hpost & Hcase)].
  - rewrite Hseg in *. rewrite bool_decide_eq_true_2 by done. right.
    exists [], c0, rep0, seen. split_and!; [done..|]. left. split; [done|]. simpl. auto.
  - right. exists (Compacted c0 :: pre), c, rep, post. split_and!; [done..|].
    assert (Hnp : ¬ Forall plain (Compacted c0 :: pre)).
    { intros H. inversion_clear H as [|? ? Hp _]. unfold plain in Hp. simpl in Hp. congruence. }
    case_bool_decide as Hn.
    + right. split; [done|]. exists pre. split; [done|]. by apply suffix_cons_r.
    + destruct Hcase as [(Hsuf & Hbase & [Hseg|Hseg])|(_ & pre' & Hsuf & Hsub)]; [done| |].
      * left. split; [done|]. split; [done|]. simpl. rewrite Eb, Hseg. by right.
      * right. split; [done|]. exists pre'. split; [done|]. by apply suffix_cons_r.
Qed.

Lemma scan_loop_inv whole rev_items seen st :
  whole = reverse rev_items ++ seen → scan_inv whole seen st →
  ∃ older seen', whole = older ++ seen' ∧ scan_inv whole seen' (loop rev_items seen st) ∧
    (older = [] ∨ scan_done (loop rev_items seen st) = true).
Proof.
  revert seen st. induction rev_items as [|item l IH]; intros seen st Hw Hi; simpl.
  { exists [], seen. auto. }
  rewrite reverse_cons, <-app_assoc in Hw. simpl in Hw.
  pose proof (scan_inv_step _ _ _ item Hi) as Hi'.
  destruct (scan_done _) eqn:Hd; [|by apply IH].
  exists (reverse l), (item :: seen). auto.
Qed.

(** What the whole scan leaves. *)
Lemma scan_rollout_cases whole :
  let st := scanned whole in
  (Forall plain whole ∧ base_replacement_history st = None ∧ rollout_suffix st = whole) ∨
  ∃ pre c rep post, whole = pre ++ Compacted c :: post ∧ replacement_history c = Some rep ∧ Forall plain post ∧
    ((rollout_suffix st = post ∧
      (base_replacement_history st = None ∨ base_replacement_history st = Some rep)) ∨
     (¬ Forall plain pre ∧ ∃ pre', rollout_suffix st = pre' ++ Compacted c :: post ∧ pre' `suffix_of` pre)).
Proof.
  intros st.
  destruct (scan_loop_inv whole (reverse whole) [] (initial_scan whole)) as (older & seen & Hw & Hi & Hend).
  { by rewrite reverse_involutive, app_nil_r. }
  { left. by repeat constructor. }
  unfold st, scan_rollout. set (mid := loop (reverse whole) [] (initial_scan whole)) in *. clearbody mid.
  assert (Hf : rollout_suffix (finish_scan mid) = rollout_suffix mid ∧
    (base_replacement_history (finish_scan mid) = base_replacement_history mid ∨
     base_replacement_history (finish_scan mid) =
       option_or (base_replacement_history mid) (segment_base (or_default (active_segment mid))))).
  { unfold finish_scan. destruct (active_segment mid) as [s|] eqn:E; [|by auto].
    destruct (finalize_base_step s mid E) as [[[Hb _]|[_ Hb]] Hs]; rewrite ?E in *; auto. }
  destruct Hf as [-> Hb].
  destruct Hi as [(Hall & Hsuf & Hbase & Hseg)|(pre & c & rep & post & -> & Hrep & Hpost & Hcase)].
  - left. destruct Hend as [->|Hd]; [|unfold scan_done in Hd; rewrite Hbase in Hd; done].
    simpl in Hw. subst seen. split_and!; [done| |done].
    by destruct Hb as [->| ->]; rewrite ?Hbase, ?Hseg.
  - right. exists (older ++ pre), c, rep, post. rewrite <-app_assoc. split_and!; [done..|].
    destruct Hcase as [(Hsuf & Hbase & Hseg)|(Hnp & pre' & Hsuf & Hsub)].
    + left. split; [done|]. destruct Hb as [->| ->]; [done|].
      destruct Hbase as [->| ->], Hseg as [->| ->]; simpl; auto.
    + right. split; [by intros [_ ?]%Forall_app|]. exists pre'. split; [done|]. by apply suffix_app_r.
Qed.

(** *** The two histories *)

Lemma reconstructed_unfold whole h saw :
  run (match base_replacement_history (scanned whole) with
       | Some base => replace base new_history
       | None => new_history
       end, false) (rollout_suffix (scanned whole)) = Ok (h, saw) →
  ∃ r, reconstructed whole = Ok r ∧ r_history r = items h.
Proof. intros E. unfold reconstruct_history_from_rollout. rewrite E. by eexists. Qed.

Lemma reconstruction_equal whole :
  Forall replayable whole → (Forall plain whole ∨ base_replacement_history (scanned whole) ≠ None) →
  ∃ r h saw, reconstructed whole = Ok r ∧ run (new_history, false) whole = Ok (h, saw) ∧ r_history r = items h.
Proof.
  intros Hall Hsurv. destruct (run_total (new_history, false) whole Hall) as [h Hrun].
  assert (Hgoal : ∃ h' saw', run (match base_replacement_history (scanned whole) with
      | Some base => replace base new_history | None => new_history end, false)
      (rollout_suffix (scanned whole)) = Ok (h', saw') ∧ items h' = items h).
  { destruct (scan_rollout_cases whole) as [(Hp & -> & ->)|(pre & c & rep & post & Ew & Hrep & Hpost & Hcase)];
      [by exists h, false|].
    rewrite Ew in Hrun. destruct Hcase as [[-> Hb]|(_ & pre' & -> & [older ->])].
    - destruct Hb as [Hb|Hb]; rewrite Hb.
      + destruct Hsurv as [Hp|]; [|done]. rewrite Ew in Hp. apply Forall_app in Hp as [_ [Hp _]%Forall_cons].
        unfold plain in Hp. simpl in Hp. congruence.
      + destruct (run_checkpoint _ _ _ _ _ _ new_history false Hrep Hrun) as ([h' saw'] & -> & Ei). by exists h', saw'.
    - rewrite Ew, <-app_assoc in Hall. apply Forall_app in Hall as [_ [Hpre' _]%Forall_app].
      set (start := match base_replacement_history _ with Some base => _ | None => _ end).
      destruct (run_total (start, false) pre' Hpre') as [h0 E0].
      destruct (run_checkpoint _ _ _ _ _ _ h0 false Hrep Hrun) as ([h' saw'] & E & Ei).
      exists h', saw'. split; [|done]. rewrite run_rollout_app, E0. cbn [mbind Res_bind replay].
      unfold replay_item at 1. by rewrite Hrep. }
  destruct Hgoal as (h' & saw' & E & Ei). destruct (reconstructed_unfold _ _ _ E) as (r & Er & Hr).
  exists r, h, false. by rewrite Hr.
Qed.

Implicit Types (entries : list (Entry P R)).

Lemma base_of_entries entries :
  Forall wf_entry entries → (len entries < usize_max)%N →
  base_replacement_history (scanned (entries_items entries)) =
    head (omap turn_base
      (surviving hook_prompt_text standard_contextual_text inter_agent entries)).
Proof.
  intros Hw Hl. by injection (scan_rollout_findings hook_prompt_text standard_contextual_text inter_agent entries Hw Hl).
Qed.

Lemma suffix_replayable whole : Forall replayable whole → Forall replayable (rollout_suffix (scanned whole)).
Proof.
  intros Hr. destruct (scan_rollout_cases whole) as [(_ & _ & ->)|(pre & c & rep & post & Ew & _ & _ & Hcase)]; [done|].
  rewrite Ew in Hr. destruct Hcase as [[-> _]|(_ & pre' & -> & [older ->])].
  - by apply Forall_app in Hr as [_ [_ ?]%Forall_cons].
  - rewrite <-app_assoc in Hr. by apply Forall_app in Hr as [_ ?].
Qed.

(** A turn with a checkpoint survives, or there is no checkpoint. *)
Definition checkpoint_left entries : Prop :=
  Forall plain (entries_items entries) ∨
  ∃ t, t ∈ surviving hook_prompt_text standard_contextual_text inter_agent entries ∧ turn_base t ≠ None.

Lemma reconstruction_complete entries :
  Forall wf_entry entries → (len entries < usize_max)%N → Forall replayable (entries_items entries) →
  checkpoint_left entries →
  ∃ h, run (new_history, false) (entries_items entries) = Ok (h, false) ∧
    reconstructed (entries_items entries) =
      Ok (mkReconstruction (items h)
            (settings_left hook_prompt_text standard_contextual_text inter_agent entries)
            (baseline_left hook_prompt_text standard_contextual_text inter_agent entries)).
Proof.
  intros Hw Hl Hr Hs.
  destruct (reconstruction_equal (entries_items entries) Hr) as (r & h & saw & Er & Hrun & Hh).
  { destruct Hs as [|(t & Ht & Hb)]; [by left|right].
    rewrite base_of_entries by done. destruct (turn_base t) as [b|] eqn:E; [|done].
    assert (Hin : b ∈ omap turn_base (surviving hook_prompt_text standard_contextual_text inter_agent entries))
      by (apply list_elem_of_omap; by exists t).
    destruct (omap turn_base _); [by apply elem_of_nil in Hin|done]. }
  destruct (run_total (new_history, false) _ Hr) as [h' Eh]. rewrite Hrun in Eh. injection Eh as <- ->.
  exists h. split; [done|]. rewrite Er. f_equal. unfold reconstruct_history_from_rollout in Er.
  destruct (run_total (match base_replacement_history (scanned (entries_items entries)) with
    | Some base => replace base new_history | None => new_history end, false) _ (suffix_replayable _ Hr)) as [h' Eh'].
  rewrite Eh' in Er. cbn [mbind Res_bind snd] in Er. injection Er as <-. simpl in Hh. rewrite Hh.
  injection (scan_rollout_findings hook_prompt_text standard_contextual_text inter_agent entries Hw Hl) as _ -> ->.
  unfold baseline_left. by destruct (head (omap (established _ _ _) _)) as [[]|].
Qed.

(** C17. Resuming a thread restores its history, for rollouts that are made of
    turns: each turn starts with its event, what belongs to it carries its
    identifier or none and stands before the next turn, and between turns there
    are only rollbacks, session headers and events without effect; compactions
    have their new history in the rollout, and outputs are allocated.  Then the
    reconstruction, which starts from the newest checkpoint that survives and
    replays only what comes after it, returns, and its history is that of
    replaying the whole rollout from the beginning, whenever there is no
    checkpoint or a turn with one is not rolled back. *)
Theorem reconstruction_replays_rollout entries :
  Forall wf_entry entries → (len entries < usize_max)%N → Forall replayable (entries_items entries) →
  checkpoint_left entries →
  ∃ r h, reconstructed (entries_items entries) = Ok r ∧
    run (new_history, false) (entries_items entries) = Ok (h, false) ∧ r_history r = items h.
Proof.
  intros Hw Hl Hr Hs. destruct (reconstruction_complete entries Hw Hl Hr Hs) as (h & Hrun & Er).
  by eexists _, h.
Qed.

Lemma last_checkpoint pre pre' c c' (post post' : list (RolloutItem P R)) :
  pre ++ Compacted c :: post = pre' ++ Compacted c' :: post' →
  replacement_history c ≠ None → replacement_history c' ≠ None → Forall plain post → Forall plain post' →
  pre = pre' ∧ post = post'.
Proof.
  intros E Hc Hc' Hp Hp'. apply app_eq_inv in E as [(k & -> & E)|(k & -> & E)]; destruct k as [|y k];
    simpl in E; injection E as E1 E2.
  - by rewrite app_nil_r.
  - rewrite E2 in Hp'. apply Forall_app in Hp' as [_ [Hp' _]%Forall_cons]. done.
  - by rewrite app_nil_r.
  - rewrite E2 in Hp. apply Forall_app in Hp as [_ [Hp _]%Forall_cons]. done.
Qed.

Lemma roll_back_elem t n (turns : list (Turn P R)) :
  t ∈ roll_back hook_prompt_text standard_contextual_text inter_agent n turns → t ∈ turns.
Proof.
  revert n. induction turns as [|u l IH]; intros n; [done|]. cbn [roll_back].
  destruct (n =? 0)%N; [done|]. intros Ht. right. by eapply IH.
Qed.
Lemma surviving_elem t entries :
  t ∈ surviving hook_prompt_text standard_contextual_text inter_agent entries → ATurn t ∈ entries.
Proof.
  induction entries as [|e l IH] using rev_ind; [by intros ?%elem_of_nil|].
  unfold surviving in *. rewrite foldl_app, elem_of_app, list_elem_of_singleton. simpl.
  destruct e as [u|n|item]; simpl.
  - rewrite elem_of_cons. intros [->|Ht]; [by right|auto].
  - intros Ht%roll_back_elem. auto.
  - auto.
Qed.

Lemma plain_turns entries :
  Forall plain (entries_items entries) →
  omap turn_base (surviving hook_prompt_text standard_contextual_text inter_agent entries) = [].
Proof.
  intros Hp. destruct (omap turn_base _) as [|b l] eqn:E; [done|]. exfalso.
  assert (Hb : b ∈ omap turn_base (surviving hook_prompt_text standard_contextual_text inter_agent entries))
    by (rewrite E; by left).
  apply list_elem_of_omap in Hb as (t & Ht & Hb). apply surviving_elem in Ht.
  unfold turn_base in Hb. apply last_Some_elem_of, list_elem_of_omap in Hb as (item & Hi & Hb).
  assert (Hin : item ∈ entries_items entries).
  { unfold entries_items. apply list_elem_of_In, in_concat. exists (entry_items (ATurn t)).
    split; apply list_elem_of_In; [by apply list_elem_of_fmap_2|by right]. }
  rewrite Forall_forall in Hp. specialize (Hp _ Hin). unfold plain in Hp. congruence.
Qed.

(** When only the turn that is rolled back may have a checkpoint, none is left. *)
Lemma rolled_back_base before t n :
  Forall wf_entry (before ++ [ATurn t; ARollback n]) → (len (before ++ [ATurn t; ARollback n]) < usize_max)%N →
  Forall plain (entries_items before) →
  is_user_turn hook_prompt_text standard_contextual_text inter_agent t = true → n ≠ 0%N →
  base_replacement_history (scanned (entries_items (before ++ [ATurn t; ARollback n]))) = None.
Proof.
  intros Hw Hl Hbefore Hu Hn. rewrite base_of_entries by done. unfold surviving. rewrite foldl_app. simpl.
  destruct (N.eqb_spec n 0); [done|]. rewrite Hu. fold (surviving hook_prompt_text standard_contextual_text inter_agent before).
  destruct (omap turn_base (roll_back _ _ _ _ _)) as [|b l] eqn:E; [done|]. exfalso.
  assert (Hb : b ∈ omap turn_base (roll_back hook_prompt_text standard_contextual_text inter_agent (n - 1)
    (surviving hook_prompt_text standard_contextual_text inter_agent before))) by (rewrite E; by left).
  apply list_elem_of_omap in Hb as (u & Hin & Hb). apply roll_back_elem in Hin.
  assert (Hb' : b ∈ omap turn_base (surviving hook_prompt_text standard_contextual_text inter_agent before))
    by (apply list_elem_of_omap; by exists u).
  rewrite plain_turns in Hb' by done. by apply elem_of_nil in Hb'.
Qed.

Lemma forgotten_history before t n before_c c rep after_c :
  let entries := before ++ [ATurn t; ARollback n] in
  Forall wf_entry entries → (len entries < usize_max)%N → Forall plain (entries_items before) →
  t_body t = before_c ++ Compacted c :: after_c → replacement_history c = Some rep →
  Forall plain before_c → Forall plain after_c → Forall replayable after_c →
  is_user_turn hook_prompt_text standard_contextual_text inter_agent t = true → n ≠ 0%N →
  ∃ h h' r, run (new_history, false) after_c = Ok (h, false) ∧ drop_turns (N.to_nat n) h = Ok h' ∧
    reconstructed (entries_items entries) = Ok r ∧ r_history r = items h'.
Proof.
  intros entries Hw Hl Hbefore Hbody Hrep Hbc Hac Hra Hu Hn.
  pose proof (rolled_back_base before t n Hw Hl Hbefore Hu Hn) as Hbase. fold entries in Hbase.
  assert (Eitems : entries_items entries = (entries_items before ++ RolloutEvent (TurnStarted (t_id t)) :: before_c) ++
    Compacted c :: after_c ++ [RolloutEvent (ThreadRolledBack n)]).
  { unfold entries, entries_items. rewrite map_app, concat_app. simpl. rewrite Hbody.
    rewrite <-app_assoc. simpl. by rewrite <-app_assoc. }
  assert (Hplain : Forall plain (entries_items before ++ RolloutEvent (TurnStarted (t_id t)) :: before_c)).
  { apply Forall_app. split; [done|]. by constructor. }
  assert (Hafter : Forall plain (after_c ++ [RolloutEvent (ThreadRolledBack n)])).
  { apply Forall_app. split; [done|]. by repeat constructor. }
  assert (Hsuf : rollout_suffix (scanned (entries_items entries)) = after_c ++ [RolloutEvent (ThreadRolledBack n)]).
  { destruct (scan_rollout_cases (entries_items entries)) as [(Hp & _)|(pre & c' & rep' & post & Ew & Hrep' & Hpost & Hcase)].
    - rewrite Eitems in Hp. apply Forall_app in Hp as [_ [Hp _]%Forall_cons]. unfold plain in Hp. simpl in Hp. congruence.
    - rewrite Eitems in Ew. apply last_checkpoint in Ew as [<- <-]; [|congruence..|done|done].
      destruct Hcase as [[-> _]|[Hnp _]]; done. }
  destruct (run_total (new_history, false) after_c Hra) as [h Eh].
  destruct (rollback_spec contextual (inter_agent_json inter_agent) (N.to_nat n) h) as (h' & Ed & _).
  destruct (reconstructed_unfold (entries_items entries) h' false) as (r & Er & Ei).
  { rewrite Hbase, Hsuf, run_rollout_app, Eh. simpl. by rewrite Ed. }
  by exists h, h', r.
Qed.

End history.

(** ** Cutting rollouts *)

Section cutting.
Context {P R : Type}.
Context (hook_prompt_text standard_contextual_text : str → bool) (inter_agent : str → option bool).
Implicit Types (item : RolloutItem P R) (l : list (RolloutItem P R)).

Local Abbreviation position_step := (user_position_step (P:=P) (R:=R) hook_prompt_text standard_contextual_text).
Local Abbreviation positions :=
  (user_message_positions_in_rollout (P:=P) (R:=R) hook_prompt_text standard_contextual_text).
Local Abbreviation fork_step :=
  (fork_position_step (P:=P) (R:=R) hook_prompt_text standard_contextual_text inter_agent).
Local Abbreviation forks := (fork_positions_from (P:=P) (R:=R) hook_prompt_text standard_contextual_text inter_agent).

Lemma positions_snoc l item : positions (l ++ [item]) = position_step (positions l) (length l) item.
Proof.
  unfold user_message_positions_in_rollout. rewrite <-(Nat.add_0_l (length l)).
  generalize (@nil nat) 0%nat. induction l as [|x l IH]; intros acc i; simpl; [by rewrite Nat.add_0_r|].
  rewrite IH. f_equal. lia.
Qed.

(** What stands before a position that is left is what was left there. *)
Lemma position_prefix l i p :
  positions l !! i = Some p → (p < length l)%nat ∧ positions (take p l) = take i (positions l).
Proof.
  revert i p. induction l as [|x l IH] using rev_ind; intros i p; [done|].
  rewrite positions_snoc, length_app. simpl.
  assert (Hold : ∀ k, k `prefix_of` positions l → k !! i = Some p →
    (p < length l + 1)%nat ∧ positions (take p (l ++ [x])) = take i k).
  { intros k [k' E] Hi. assert (Hp : positions l !! i = Some p) by (rewrite E; by apply lookup_app_l_Some).
    destruct (IH _ _ Hp) as [Hlt Ht]. split; [lia|]. rewrite take_app_le by lia. rewrite Ht, E.
    apply take_app_le. apply lookup_lt_Some in Hi. lia. }
  destruct x as [|x|c|ctx|[t|t|t| |n| | | | |]]; simpl; try by apply Hold.
  - destruct (is_message x && _); [|by apply Hold].
    intros Hi. apply lookup_app_Some in Hi as [Hi|[Hge Hi]].
    + destruct (Hold (positions l) (reflexivity _) Hi) as [? ->]. split; [done|].
      symmetry. apply take_app_le. apply lookup_lt_Some in Hi. lia.
    + apply list_lookup_singleton_Some in Hi as [Hz <-]. assert (i = length (positions l)) as -> by lia.
      split; [lia|]. by rewrite !take_app_length.
  - apply Hold. apply prefix_take.
Qed.

(** Forking before a message of the user keeps exactly what came before
    it: the cut returns a beginning of the rollout in which, after its own
    rollbacks, the first [n] messages are left and nothing else. *)
Theorem fork_keeps_first_messages l n :
  (n < length (positions l))%nat →
  ∃ kept, truncate_rollout_before_nth_user_message_from_start hook_prompt_text standard_contextual_text l (Some n)
    = Ok kept ∧ kept `prefix_of` l ∧ positions kept = take n (positions l).
Proof.
  intros Hn. destruct (lookup_lt_is_Some_2 _ _ Hn) as [p Hp]. destruct (position_prefix _ _ _ Hp) as [Hlt Ht].
  unfold truncate_rollout_before_nth_user_message_from_start, index, slice_to. rewrite decide_False by lia.
  rewrite Hp. simpl. rewrite decide_True by lia. exists (take p l).
  split_and!; [done|apply prefix_take|done].
Qed.

Lemma forks_snoc i acc l item : forks i acc (l ++ [item]) = fork_step (forks i acc l) (i + length l) item.
Proof.
  revert i acc. induction l as [|x l IH]; intros i acc; simpl; [by rewrite Nat.add_0_r|].
  rewrite IH. f_equal. lia.
Qed.
Lemma forks_bounded l : Forall (λ p, p < length l)%nat (forks 0 ([], []) l).2.
Proof.
  induction l as [|x l IH] using rev_ind; [constructor|]. rewrite forks_snoc, length_app. simpl.
  assert (Hk : Forall (λ p, p < length l + 1)%nat (forks 0 ([], []) l).2)
    by (eapply Forall_impl; [exact IH|simpl; lia]).
  destruct (forks 0 ([], []) l) as [rs fs]. simpl in Hk.
  destruct x as [|x|c|ctx|[t|t|t| |n| | | | |]]; simpl; try done.
  - destruct (_ || _); [|done]. apply Forall_app. split; [done|]. repeat constructor. lia.
  - destruct (decide _); [done|]. destruct (option_or _ _) as [start|]; [|done]. simpl.
    apply Forall_forall. intros p [Hp _]%elem_of_filterb. by rewrite Forall_forall in Hk; apply Hk.
Qed.

(** Keeping the last turns never fails, and keeps an end of the rollout. *)
Lemma last_turns_total l n :
  ∃ kept, truncate_rollout_to_last_n_fork_turns hook_prompt_text standard_contextual_text inter_agent l n = Ok kept ∧
    kept `suffix_of` l.
Proof.
  unfold truncate_rollout_to_last_n_fork_turns. case_decide; [exists []; split; [done|by exists l; rewrite app_nil_r]|].
  unfold fork_turn_positions_in_rollout. case_decide; [by exists l|]. unfold index, slice_from.
  destruct (lookup_lt_is_Some_2 (forks 0 ([], []) l).2 (length (forks 0 ([], []) l).2 - n)) as [p Hp]; [lia|].
  rewrite Hp. simpl. pose proof (forks_bounded l) as Hb. rewrite Forall_forall in Hb.
  specialize (Hb p (list_elem_of_lookup_2 _ _ _ Hp)). rewrite decide_True by lia.
  exists (drop p l). split; [done|]. exists (take p l). by rewrite take_drop.
Qed.
End cutting.

(** ** Examples *)

Definition no_text (_ : str) : bool := false.
Definition demo_agent (text : str) : option bool := if decide (text = lit "{agent}") then Some false else None.
Definition demo_item (role text : string) : RolloutItem unit unit :=
  RolloutResponseItem (Message None (lit role) [InputText (lit text)] None).
Definition demo_turn (id text model : string) (more : list (RolloutItem unit unit)) : Turn unit unit :=
  mkTurn (lit id) ([RolloutEvent UserMessageEvent; demo_item "user" text;
    TurnContext (mkTurnContext (Some (lit id)) (lit model) None ())] ++ more ++ [RolloutEvent (TurnComplete (lit id))]).
Definition demo_checkpoint (text : string) : RolloutItem unit unit :=
  Compacted (mkCompacted [] (Some [user_message (lit text)])).

Definition demo_plain : list (Entry unit unit) :=
  [ANote SessionMeta; ATurn (demo_turn "1" "first" "m1" []); ATurn (demo_turn "2" "second" "m2" []); ARollback 1].
Definition demo_compacted : list (Entry unit unit) :=
  [ATurn (demo_turn "1" "first" "m1" []); ATurn (demo_turn "2" "second" "m2" [demo_checkpoint "summary"]);
   ATurn (demo_turn "3" "third" "m3" []); ARollback 1].
Definition demo_answer : RolloutItem unit unit :=
  RolloutResponseItem (Message None (lit "assistant") [OutputText (lit "answer")] None).
Definition demo_lost_turn : Turn unit unit := demo_turn "2" "second" "m2" [demo_checkpoint "summary"; demo_answer].

Local Abbreviation demo_reconstruct := (reconstruct_history_from_rollout no_text no_text demo_agent (PolicyBytes 100)).

Ltac wf_demo := repeat first [apply Forall_nil_2 | apply Forall_cons_2 | progress simpl]; auto.

Lemma demo_plain_wf : Forall wf_entry demo_plain.
Proof. wf_demo. Qed.
Lemma demo_compacted_wf : Forall wf_entry demo_compacted.
Proof. wf_demo. Qed.
Lemma settings_of_last_surviving_turn_witness :
  r_previous_turn_settings <$> demo_reconstruct (entries_items demo_plain) = Ok (Some (mkSettings (lit "m1") None)).
Proof.
  rewrite (settings_of_last_surviving_turn no_text no_text demo_agent (PolicyBytes 100) demo_plain demo_plain_wf);
    by vm_compute.
Defined.

Lemma reconstruction_replays_rollout_witness :
  ∃ r h, demo_reconstruct (entries_items demo_compacted) = Ok r ∧
    replay no_text no_text demo_agent (PolicyBytes 100) (new_history, false) (entries_items demo_compacted) = Ok (h, false) ∧
    r_history r = items h.
Proof.
  apply (reconstruction_replays_rollout no_text no_text demo_agent (PolicyBytes 100) demo_compacted demo_compacted_wf).
  - by vm_compute.
  - unfold demo_compacted. repeat constructor; by eexists.
  - right. exists (demo_turn "2" "second" "m2" [demo_checkpoint "summary"]). split; [vm_compute; by left|by vm_compute].
Defined.

(** The comment on the replay says that it never meets a checkpoint; here it
    does, since no context was recorded that would end the scan. *)
Example replay_meets_checkpoint :
  rollout_suffix (scan_rollout no_text no_text demo_agent
    [RolloutEvent (TurnStarted (lit "1")); demo_checkpoint "old"; RolloutEvent (TurnComplete (lit "1"));
     RolloutEvent (TurnStarted (lit "2")); demo_checkpoint "new"; RolloutEvent (TurnComplete (lit "2"))]) =
  [RolloutEvent (TurnComplete (lit "1")); RolloutEvent (TurnStarted (lit "2")); demo_checkpoint "new";
   RolloutEvent (TurnComplete (lit "2"))].
Proof. by vm_compute. Qed.

Definition demo_agent_turn : list (RolloutItem unit unit) :=
  [demo_item "user" "first"; RolloutResponseItem (Message None (lit "assistant") [OutputText (lit "{agent}")] None);
   RolloutEvent (ThreadRolledBack 1)].

(** A rollback takes back an instruction of another agent, and the message of
    the user stays in the history; but it is no longer counted among the
    messages that one can fork before. *)
Theorem agent_rollback_drops_user_position :
  (∃ h saw, replay no_text no_text demo_agent (PolicyBytes 100) (new_history, false) demo_agent_turn = Ok (h, saw) ∧
     items h = [user_message (lit "first")]) ∧
  user_message_positions_in_rollout no_text no_text demo_agent_turn = [].
Proof. split; [eexists _, _; split; vm_compute; reflexivity|by vm_compute]. Qed.

Lemma fork_keeps_first_messages_witness :
  ∃ kept, truncate_rollout_before_nth_user_message_from_start no_text no_text
      (entries_items demo_plain ++ entries_items [ATurn (demo_turn "3" "third" "m3" [])]) (Some 1%nat) = Ok kept ∧
    kept `prefix_of` (entries_items demo_plain ++ entries_items [ATurn (demo_turn "3" "third" "m3" [])]) ∧
    user_message_positions_in_rollout no_text no_text kept =
      take 1 (user_message_positions_in_rollout no_text no_text
        (entries_items demo_plain ++ entries_items [ATurn (demo_turn "3" "third" "m3" [])])).
Proof. apply (fork_keeps_first_messages no_text no_text). vm_compute. lia. Defined.
