(* ===== verification/Session.v ===== *)
(** * Sessions: history, rollout, compaction and rollback

    The part of [core/src/session/] that keeps the history of a thread and its
    rollout file in step: recording items, persisting events, resuming,
    compacting ([core/src/compact.rs]) and rolling back
    ([core/src/session/handlers.rs]).

    The state is what this code reads and writes of a session.  What the model
    answers is an arbitrary function of the prompts sent so far; whether an
    append to the rollout file fails is an arbitrary function of the file and
    of what is appended.  Locks are held for one access at a time and nothing
    here interleaves with another task of the session, which runs one task at
    a time. *)
From S2P Require Import Prelude RustStr StreamText InlineHiddenTag TaggedLine MachineInt Truncate History Compaction Rollout.

(** ** What is kept in rollout files: [rollout/src/policy.rs] *)

Definition should_persist_response_item {P} (item : ResponseItem P) : bool :=
  match item with Other => false | _ => true end.

Definition event_msg_persistence_mode (ev : EventMsg) : option EventPersistenceMode :=
  match ev with
  | UserMessageEvent | TokenCount _ | ThreadRolledBack _ | TurnAborted _ | TurnStarted _ | TurnComplete _ =>
      Some Limited
  | ErrorEvent _ => Some Extended
  | WarningEvent _ | StreamErrorEvent _ => None
  | OtherEvent mode => mode
  end.

Definition should_persist_event_msg (ev : EventMsg) (mode : EventPersistenceMode) : bool :=
  match mode, event_msg_persistence_mode ev with
  | _, Some Limited | Extended, Some Extended => true
  | _, _ => false
  end.

Definition is_persisted_rollout_item {P R} (item : RolloutItem P R) (mode : EventPersistenceMode) : bool :=
  match item with
  | RolloutResponseItem item => should_persist_response_item item
  | RolloutEvent ev => should_persist_event_msg ev mode
  | Compacted _ | TurnContext _ | SessionMeta => true
  end.

(** ** State *)

Record Session {P R : Type} := mkSession {
  history : ContextManager P (TurnContextItem R);
  session_settings : option PreviousTurnSettings;
  next_turn_is_first : bool;
  active_turn : bool;
  server_reasoning_included : bool;
  live_thread : option (list (RolloutItem P R));  (* the rollout file, when there is one *)
  sent : list EventMsg                             (* what went to the client *)
}.
Arguments Session : clear implicits.
Arguments mkSession {P R}.

(** [TurnContext]: what this code reads of the context of a turn, with the
    limits of its provider. *)
Record TurnConfig {R : Type} := mkTurnConfig {
  truncation_policy : TruncationPolicy;
  model_window : option Z;
  input_modalities : list InputModality;
  auto_compact_token_limit : option Z;
  supports_remote_compaction : bool;
  remote_compaction_v2 : bool;                     (* [Feature::RemoteCompactionV2] *)
  model_slug : str;
  stream_max_retries : nat;
  sub_id : str;
  realtime_active : bool;
  compact_prompt : str;
  context_rest : R
}.
Arguments TurnConfig : clear implicits.
Arguments mkTurnConfig {R}.

Definition to_turn_context_item {R} (tc : TurnConfig R) : TurnContextItem R :=
  mkTurnContext (Some (sub_id tc)) (model_slug tc) (Some (realtime_active tc)) (context_rest tc).

Section session.
Context {P R : Type} (debug_assertions : bool).
Context (hook_prompt_text standard_contextual_text : str → bool) (inter_agent : str → option bool).
Context (persistence_mode : EventPersistenceMode).
Context (append_fails : list (RolloutItem P R) → list (RolloutItem P R) → bool).
(** [estimate_token_count_with_base_instructions], with the instructions of
    the session. *)
Context (estimated_tokens : ContextManager P (TurnContextItem R) → Z).
(** [build_initial_context] *)
Context (build_initial_context : TurnConfig R → Session P R → list (ResponseItem P)).
(** What the model answers to the last of the prompts sent in a compaction. *)
Context (answer : list (list (ResponseItem P)) → Res CodexErr (Stream P)).

Local Abbreviation session := (Session P R).
Local Abbreviation item_t := (ResponseItem P).
Local Abbreviation rollout_item := (RolloutItem P R).
Local Abbreviation eff := (Eff (Session P R) CodexErr).
Implicit Types (s : session) (tc : TurnConfig R).

Definition set_history h s : session :=
  mkSession h (session_settings s) (next_turn_is_first s) (active_turn s) (server_reasoning_included s)
    (live_thread s) (sent s).
Definition set_previous_turn_settings p s : session :=
  mkSession (history s) p (next_turn_is_first s) (active_turn s) (server_reasoning_included s)
    (live_thread s) (sent s).
Definition set_next_turn_is_first b s : session :=
  mkSession (history s) (session_settings s) b (active_turn s) (server_reasoning_included s)
    (live_thread s) (sent s).
Definition set_active_turn b s : session :=
  mkSession (history s) (session_settings s) (next_turn_is_first s) b (server_reasoning_included s)
    (live_thread s) (sent s).
Definition set_server_reasoning_included included s : session :=
  mkSession (history s) (session_settings s) (next_turn_is_first s) (active_turn s) included
    (live_thread s) (sent s).
Definition set_live_thread l s : session :=
  mkSession (history s) (session_settings s) (next_turn_is_first s) (active_turn s) (server_reasoning_included s)
    l (sent s).
Definition deliver_event_raw ev s : session :=
  mkSession (history s) (session_settings s) (next_turn_is_first s) (active_turn s) (server_reasoning_included s)
    (live_thread s) (sent s ++ [ev]).

(** Changes of the state that do not fail, and that may panic. *)
Definition modify (f : session → session) : eff unit := λ s, (f s, Ok tt).
Definition on_history (f : ContextManager P (TurnContextItem R) → Total (ContextManager P (TurnContextItem R)))
    : eff unit :=
  h ← reads (λ s, infallible (f (history s)));
  modify (set_history h).

(** ** Recording *)

Definition persist_rollout_items (new : list rollout_item) s : session :=
  match live_thread s with
  | Some stored =>
      if append_fails stored new then s
      else set_live_thread
             (Some (stored ++ List.filter (λ item, is_persisted_rollout_item item persistence_mode) new)) s
  | None => s
  end.

(** [send_event] of the events below does no more than [send_event_raw]. *)
Definition send_event_raw ev s : session := deliver_event_raw ev (persist_rollout_items [RolloutEvent ev] s).

Definition record_into_history (new : list item_t) tc : eff unit :=
  on_history (λ h, record_items new (truncation_policy tc) h).

Definition persist_rollout_response_items (new : list item_t) s : session :=
  persist_rollout_items (map RolloutResponseItem new) s.

(** [record_conversation_items]; the raw items it also sends to clients that
    ask for them are events that are never kept. *)
Definition record_conversation_items (new : list item_t) tc : eff unit :=
  _ ← record_into_history new tc;
  modify (persist_rollout_response_items new).

Definition replace_history (l : list item_t) (reference : option (TurnContextItem R)) s : session :=
  set_history (set_reference_context_item reference (replace l (history s))) s.

Definition replace_compacted_history (l : list item_t) (reference : option (TurnContextItem R))
    (compacted : CompactedItem P) s : session :=
  let s := persist_rollout_items [Compacted compacted] (replace_history l reference s) in
  match reference with
  | Some ctx => persist_rollout_items [TurnContext ctx] s
  | None => s
  end.

(** ** Tokens *)

Definition send_token_count_event s : session := send_event_raw (TokenCount (token_info (history s))) s.

Definition update_token_usage_info (usage : option TokenUsage) tc : eff unit :=
  _ ← match usage with
      | Some usage => on_history (update_token_info debug_assertions usage (model_window tc))
      | None => mret ()
      end;
  modify send_token_count_event.

Definition recompute_token_usage tc s : session :=
  let info := default (mkUsageInfo usage_default usage_default None) (token_info (history s)) in
  let last := mkUsage 0 0 0 0 (Z.max (estimated_tokens (history s)) 0) in
  let window := option_or (model_window tc) (model_context_window info) in
  send_token_count_event
    (set_history (set_token_info (Some (mkUsageInfo (total_token_usage info) last window)) (history s)) s).

(** The rate limits themselves are not kept in the model. *)
Definition update_rate_limits s : session := send_token_count_event s.

Definition set_total_tokens_full tc : eff unit :=
  _ ← match model_window tc with
      | Some context_window => on_history (set_token_usage_full debug_assertions context_window)
      | None => mret ()
      end;
  modify send_token_count_event.

(** ** Compaction by a request: [core/src/compact.rs] *)

Fixpoint drain_events tc (stream : Stream P) : eff unit :=
  match stream with
  | [] => lift (Err (StreamErr (lit "stream closed before response.completed")))
  | ev :: stream =>
      event ← lift ev;
      match event with
      | OutputItemDone item => _ ← record_into_history [item] tc; drain_events tc stream
      | Completed token_usage => update_token_usage_info token_usage tc
      | ServerReasoningIncluded included =>
          _ ← modify (set_server_reasoning_included included); drain_events tc stream
      | RateLimits => _ ← modify update_rate_limits; drain_events tc stream
      | OtherResponseEvent => drain_events tc stream
      end
  end.

Definition drain_to_completed tc (prompts : list (list item_t)) : eff unit :=
  stream ← lift (answer prompts);
  drain_events tc stream.

(** The text of an error ([e.to_error_event], [e.to_string]). *)
Definition error_text (e : CodexErr) : str :=
  match e with
  | Interrupted => lit "interrupted (Ctrl-C). Something went wrong? Hit `/feedback` to report the issue."
  | ContextWindowExceeded =>
      lit "Codex ran out of room in the model's context window. Start a new thread or clear earlier history before retrying."
  | Fatal m => lit "Fatal error: " ++ m
  | StreamErr m => lit "stream disconnected before completion: " ++ m
  | OtherErr m => m
  end.

Definition reconnecting (retries max_retries : nat) : str :=
  lit "Reconnecting... " ++ show_N (N.of_nat retries) ++ lit "/" ++ show_N (N.of_nat max_retries).

(** The [loop]; [prompts] are those sent so far, [h] is the local copy of the
    history.  It returns the prompts it sent. *)
Fixpoint compact_loop (fuel : nat) tc (h : ContextManager P (TurnContextItem R)) (retries : nat)
    (prompts : list (list item_t)) : eff (list (list item_t)) :=
  match fuel with
  | O => lift (Panic OutOfFuel)
  | S fuel =>
      turn_input ← (lift (infallible (for_prompt debug_assertions (input_modalities tc) h)) : eff (list item_t));
      let prompts := prompts ++ [turn_input] in
      (λ s,
        match drain_to_completed tc prompts s with
        | (s, Ok _) => (s, Ok prompts)
        | (s, Err Interrupted) => (s, Err Interrupted)
        | (s, Err ContextWindowExceeded) =>
            if decide (1 < length turn_input)%nat then
              (h ← lift (infallible (remove_first_item h)); compact_loop fuel tc h 0 prompts) s
            else
              (_ ← set_total_tokens_full tc;
               _ ← modify (send_event_raw (ErrorEvent (error_text ContextWindowExceeded)));
               lift (Err ContextWindowExceeded)) s
        | (s, Err e) =>
            if decide (retries < stream_max_retries tc)%nat then
              (_ ← modify (send_event_raw (StreamErrorEvent (reconnecting (retries + 1) (stream_max_retries tc))));
               compact_loop fuel tc h (retries + 1) prompts) s
            else
              (_ ← modify (send_event_raw (ErrorEvent (error_text e))); lift (Err e)) s
        | (s, Panic p) => (s, Panic p)
        end) : eff (list (list item_t))
  end.

(** Each round either drops an item of the copy, which starts the retries
    again, or uses up a retry. *)
Definition compact_fuel tc (h : ContextManager P (TurnContextItem R)) : nat :=
  S (length (items h) * S (stream_max_retries tc) + stream_max_retries tc).

Definition compaction_warning : str :=
  lit "Heads up: Long threads and multiple compactions can cause the model to be less accurate. Start a new thread when possible to keep threads small and targeted.".

(** The new history and its summary, from [history_snapshot] on. *)
Definition compacted_result tc (injection : InitialContextInjection) s : Res CodexErr (list item_t * str) :=
  let history_items := items (history s) in
  let summary_suffix := default [] (get_last_assistant_message_from_turn history_items) in
  let summary_text := SUMMARY_PREFIX ++ [c_nl] ++ summary_suffix in
  let user_messages := collect_user_messages hook_prompt_text standard_contextual_text history_items in
  new_history ← infallible (build_compacted_history [] user_messages summary_text);
  new_history ←
    match injection with
    | BeforeLastUserMessage =>
        infallible (insert_initial_context_before_last_real_user_or_summary hook_prompt_text
          standard_contextual_text new_history (build_initial_context tc s))
    | DoNotInject => Ok new_history
    end;
  Ok (new_history, summary_text).

(** What every compaction ends with: the new history is installed, tokens are
    counted again, and the item of the compaction is completed, which older
    clients see as an event that is kept. *)
Definition install_new_history tc (injection : InitialContextInjection) (new_history : list item_t) (message : str) s
    : session :=
  let reference :=
    match injection with DoNotInject => None | BeforeLastUserMessage => Some (to_turn_context_item tc) end in
  let s := replace_compacted_history new_history reference (mkCompacted message (Some new_history)) s in
  send_event_raw (OtherEvent (Some Limited)) (send_event_raw (OtherEvent None) (recompute_token_usage tc s)).

(** The end of [run_compact_task_inner_impl]. *)
Definition install_compaction tc (injection : InitialContextInjection) : eff unit :=
  '(new_history, summary_text) ← reads (compacted_result tc injection);
  _ ← modify (install_new_history tc injection new_history summary_text);
  modify (send_event_raw (WarningEvent compaction_warning)).

(** [run_compact_task_inner_impl] with the text of its input; it returns the
    prompts it sent. *)
Definition run_compact_task_inner_impl tc (prompt : str) (injection : InitialContextInjection)
    : eff (list (list item_t)) :=
  _ ← modify (send_event_raw (OtherEvent None));
  h ← reads (λ s, infallible (record_items [user_message prompt] (truncation_policy tc) (history s)));
  prompts ← compact_loop (compact_fuel tc h) tc h 0 [];
  _ ← install_compaction tc injection;
  mret prompts.

Definition run_inline_auto_compact_task tc (injection : InitialContextInjection) : eff unit :=
  _ ← run_compact_task_inner_impl tc (compact_prompt tc) injection;
  mret ().

(** [run_compact_task], the task of a compaction that the user asks for. *)
Definition run_compact_task tc (prompt : str) : eff unit :=
  _ ← modify (send_event_raw (TurnStarted (sub_id tc)));
  _ ← run_compact_task_inner_impl tc prompt DoNotInject;
  mret ().

(** ** Resuming and rolling back *)

Definition apply_rollout_reconstruction tc (rollout_items : list rollout_item)
    : eff (option PreviousTurnSettings) :=
  r ← lift (infallible (reconstruct_history_from_rollout hook_prompt_text standard_contextual_text inter_agent
             (truncation_policy tc) rollout_items));
  _ ← modify (replace_history (r_history r) (r_reference_context_item r));
  _ ← modify (set_previous_turn_settings (r_previous_turn_settings r));
  mret (r_previous_turn_settings r).

Definition last_token_info_from_rollout (rollout_items : list rollout_item) : option TokenUsageInfo :=
  head (omap (λ item, match item with RolloutEvent (TokenCount info) => info | _ => None end)
    (reverse rollout_items)).

Definition different_model (prev curr : str) : str :=
  lit "This session was recorded with model `" ++ prev ++ lit "` but is resuming with `" ++ curr ++
  lit "`. Consider switching back to `" ++ prev ++ lit "` as it may affect Codex performance.".

Definition seed_token_info (rollout_items : list rollout_item) s : session :=
  match last_token_info_from_rollout rollout_items with
  | Some info => set_history (set_token_info (Some info) (history s)) s
  | None => s
  end.

(** [record_initial_history]; flushing and materialising the file change no
    state of the model. *)
Definition record_initial_history tc (conversation_history : InitialHistory (P:=P) (R:=R)) : eff unit :=
  _ ← modify (set_next_turn_is_first (negb (initial_history_has_prior_user_turns hook_prompt_text
                standard_contextual_text inter_agent conversation_history)));
  match conversation_history with
  | NewHistory | ClearedHistory => modify (set_previous_turn_settings None)
  | Resumed rollout_items =>
      previous ← apply_rollout_reconstruction tc rollout_items;
      _ ← match previous with
          | Some settings =>
              if decide (settings_model settings = model_slug tc) then mret ()
              else modify (send_event_raw (WarningEvent (different_model (settings_model settings) (model_slug tc))))
          | None => mret ()
          end;
      modify (seed_token_info rollout_items)
  | Forked rollout_items =>
      _ ← apply_rollout_reconstruction tc rollout_items;
      _ ← modify (seed_token_info rollout_items);
      if decide (rollout_items = []) then mret () else modify (persist_rollout_items rollout_items)
  end.

(** [thread_rollback]; [flush] and [flush_rollout] are the results of writing
    the file out before and after, [load] is the error of reading it, if any. *)
Definition thread_rollback tc (num_turns : N) (flush load flush_rollout : option str) : eff unit :=
  let fail message := modify (send_event_raw (ErrorEvent message)) in
  if (num_turns =? 0)%N then fail (lit "num_turns must be >= 1")
  else
    has_active_turn ← reads (λ s, Ok (active_turn s));
    if (has_active_turn : bool) then fail (lit "Cannot rollback while a turn is in progress.")
    else
      live ← reads (λ s, Ok (live_thread s));
      match live, flush, load with
      | None, _, _ => fail (lit "thread rollback requires persisted thread history")
      | Some _, Some err, _ => fail (lit "failed to flush thread persistence for rollback replay: " ++ err)
      | Some _, None, Some err => fail (lit "failed to load thread history for rollback replay: " ++ err)
      | Some stored, None, None =>
          let rollback_msg := ThreadRolledBack num_turns in
          let replay_items := stored ++ [RolloutEvent rollback_msg] in
          _ ← apply_rollout_reconstruction tc replay_items;
          _ ← modify (recompute_token_usage tc);
          _ ← modify (persist_rollout_items [RolloutEvent rollback_msg]);
          _ ← match flush_rollout with
              | Some err =>
                  modify (send_event_raw (WarningEvent
                    (lit "Rolled the thread back, but failed to save the rollback marker. Codex will continue retrying. Error: " ++ err)))
              | None => mret ()
              end;
          modify (deliver_event_raw rollback_msg)
      end.
End session.
