(* ===== verification/SessionProofs.v ===== *)
(** * What sessions keep and restore

    The retry loop of a compaction ends; what a compaction or a rollback leaves
    in memory is what resuming the thread from its file gives; and what is lost
    where the two differ. *)
From S2P Require Import Prelude RustStr MachineInt Truncate History HistoryProofs Compaction Rollout RolloutProofs Session.

#[local] Unset Default Proof Using.

(** ** Shared lemmas *)

Lemma record_one_total {P T} x policy (h : ContextManager P T) : sized x → ∃ h', record_items [x] policy h = Ok h'.
Proof.
  intros Hx. destruct (record_items_bounds [x] policy h) as (h' & _ & E & _); [|by exists h'].
  intros y Hy. apply list_elem_of_singleton in Hy. by subst.
Qed.

Lemma record_items_app {P T} policy (l l' : list (ResponseItem P)) (h : ContextManager P T) :
  record_items (l ++ l') policy h = (h ← record_items l policy h; record_items l' policy h).
Proof.
  revert h. induction l as [|x l IH]; intros h; [done|]. simpl.
  destruct (negb (is_api_message x)); [done|]. destruct (process_item x policy); [|done..]. apply IH.
Qed.

Lemma prompt_release {P T} m (h : ContextManager P T) : ∃ l, for_prompt false m h = Ok l ∧ (items h = [] → l = []).
Proof.
  unfold for_prompt. rewrite normalize_release. eexists. split; [done|]. intros ->.
  unfold strip_images_when_unsupported. by case_bool_decide.
Qed.

(** Writing to the file, and sending events, leaves the rest as it is. *)
Lemma persist_same {P R} {mode append_fails} (new : list (RolloutItem P R)) s :
  history (persist_rollout_items mode append_fails new s) = history s ∧
  session_settings (persist_rollout_items mode append_fails new s) = session_settings s ∧
  active_turn (persist_rollout_items mode append_fails new s) = active_turn s.
Proof. unfold persist_rollout_items. destruct (live_thread s); [|done]. by destruct (append_fails _ _). Qed.

Lemma send_same {P R} {mode append_fails} ev (s : Session P R) :
  history (send_event_raw mode append_fails ev s) = history s ∧
  session_settings (send_event_raw mode append_fails ev s) = session_settings s ∧
  active_turn (send_event_raw mode append_fails ev s) = active_turn s.
Proof. unfold send_event_raw. simpl. apply persist_same. Qed.


(** ** The retry loop ends *)

Section ending.
Context {P R : Type}.
Context (persistence_mode : EventPersistenceMode).
Context (append_fails : list (RolloutItem P R) → list (RolloutItem P R) → bool).
Context (answer : list (list (ResponseItem P)) → Res CodexErr (Stream P)).
Implicit Types (s : Session P R) (tc : TurnConfig R) (h : ContextManager P (TurnContextItem R)).

Local Abbreviation drain := (drain_events false persistence_mode append_fails).
Local Abbreviation compacting := (compact_loop false persistence_mode append_fails answer).

(** Answers are data: texts are allocated, and the client does not panic. *)
Definition proper_event (ev : Res CodexErr (ResponseEvent P)) : Prop :=
  match ev with
  | Ok (OutputItemDone item) => sized item
  | Ok _ | Err _ => True
  | Panic _ => False
  end.
Definition proper_answers : Prop :=
  ∀ prompts, match answer prompts with
             | Ok stream => Forall proper_event stream
             | Err _ => True
             | Panic _ => False
             end.

(** An effect that does not panic. *)
Definition calm {A} (m : Eff (Session P R) CodexErr A) : Prop := ∀ s, no_panic (m s).2.

Lemma calm_bind {A B} (m : Eff (Session P R) CodexErr A) (f : A → Eff (Session P R) CodexErr B) :
  calm m → (∀ a, calm (f a)) → calm (m ≫= f).
Proof.
  intros Hm Hf s. specialize (Hm s). unfold mbind, Eff_bind.
  destruct (m s) as [s' [a|e|p]]; [apply Hf|done|done].
Qed.
Lemma calm_modify f : calm (modify f).
Proof. by intros s. Qed.
Lemma calm_ok {A} (a : A) : calm (mret a).
Proof. by intros s. Qed.
Lemma calm_history f : (∀ h, ∃ h', f h = Ok h') → calm (on_history (P:=P) (R:=R) f).
Proof.
  intros Hf. apply calm_bind; [|intros; apply calm_modify]. intros s. unfold reads. simpl.
  by destruct (Hf (history s)) as [h' ->].
Qed.

Ltac release_int :=
  match goal with |- context [i64_result false ?x] => destruct (i64_result_release x) as [? ->]; simpl end.

Lemma update_token_info_release usage w h : ∃ h', update_token_info false usage w h = Ok h'.
Proof.
  unfold update_token_info, new_or_append, append_last_usage, add_assign.
  destruct (token_info h); simpl; repeat release_int; by eexists.
Qed.
Lemma set_token_usage_full_release w h : ∃ h', set_token_usage_full false w h = Ok h'.
Proof.
  unfold set_token_usage_full, full_context_window, fill_to_context_window.
  destruct (token_info h); simpl; release_int; by eexists.
Qed.
Lemma calm_usage usage tc : calm (update_token_usage_info false persistence_mode append_fails usage tc).
Proof.
  apply calm_bind; [|intros; apply calm_modify]. destruct usage; [|apply calm_ok].
  apply calm_history. intros. apply update_token_info_release.
Qed.
Lemma calm_full tc : calm (set_total_tokens_full false persistence_mode append_fails tc).
Proof.
  apply calm_bind; [|intros; apply calm_modify]. destruct (model_window tc); [|apply calm_ok].
  apply calm_history. intros. apply set_token_usage_full_release.
Qed.

Lemma calm_lift {A} (r : Res CodexErr A) : no_panic r → calm (lift r).
Proof. by intros Hr s. Qed.

Lemma calm_drain tc stream : Forall proper_event stream → calm (drain tc stream).
Proof.
  induction 1 as [|ev stream Hev Hs IH]; [by apply calm_lift|]. cbn [drain_events].
  destruct ev as [ev|e|p]; [|by intros s|done]. intros s. unfold mbind at 1, Eff_bind at 1. simpl.
  revert s. change (calm (match ev with
    | OutputItemDone item => _ ← record_into_history [item] tc; drain tc stream
    | Completed token_usage => update_token_usage_info false persistence_mode append_fails token_usage tc
    | ServerReasoningIncluded included => _ ← modify (set_server_reasoning_included included); drain tc stream
    | RateLimits => _ ← modify (update_rate_limits persistence_mode append_fails); drain tc stream
    | OtherResponseEvent => drain tc stream
    end)).
  destruct ev as [item|u| | |]; [|apply calm_usage|by apply calm_bind..|done].
  apply calm_bind; [|done]. apply calm_history. intros h. by apply record_one_total.
Qed.

Lemma calm_attempt tc prompts :
  proper_answers → calm (drain_to_completed false persistence_mode append_fails answer tc prompts).
Proof.
  intros Hp s. specialize (Hp prompts). unfold drain_to_completed, mbind, Eff_bind. simpl.
  destruct (answer prompts) as [stream|e|p]; [by apply calm_drain|done|done].
Qed.

Lemma remove_first_shortens h :
  items h ≠ [] → ∃ h', remove_first_item h = Ok h' ∧ (length (items h') < length (items h))%nat.
Proof.
  intros Hne. unfold remove_first_item. destruct (items h) as [|x rest] eqn:E; [done|].
  destruct (remove_corresponding_spec rest x) as (l & Hl & _). rewrite Hl.
  eexists. split; [done|]. simpl. apply remove_corresponding_sublist, sublist_length in Hl. lia.
Qed.

(** What is left to be tried. *)
Definition attempts_left tc h (retries : nat) : nat :=
  length (items h) * S (stream_max_retries tc) + (stream_max_retries tc - retries).

(** What holds when the loop returns. *)
Definition loop_ends (fuel : nat) (prompts : list (list (ResponseItem P)))
    (r : Res CodexErr (list (list (ResponseItem P)))) : Prop :=
  no_panic r ∧ ∀ sent, r = Ok sent → (length prompts < length sent ≤ length prompts + fuel)%nat.

Lemma compact_loop_ends fuel tc h retries prompts s :
  proper_answers → (attempts_left tc h retries < fuel)%nat →
  loop_ends fuel prompts (compacting fuel tc h retries prompts s).2.
Proof.
  intros Hp. revert h retries prompts s. induction fuel as [|fuel IH]; intros h retries prompts s Hf; [lia|].
  cbn [compact_loop]. destruct (prompt_release (input_modalities tc) h) as (l & El & Hnil).
  unfold mbind at 1, Eff_bind at 1. rewrite El. unfold infallible at 1. cbn [map_err lift fst snd].
  assert (Hstop : ∀ e, loop_ends (S fuel) prompts (Err e)) by (intros e; split; [done|by intros]).
  assert (Hgo : ∀ r, loop_ends fuel (prompts ++ [l]) r → loop_ends (S fuel) prompts r).
  { intros r [Hr Hs]. split; [done|]. intros sent Es. specialize (Hs _ Es). rewrite length_app in Hs. simpl in Hs. lia. }
  pose proof (calm_attempt tc (prompts ++ [l]) Hp s) as Hcalm.
  destruct (drain_to_completed _ _ _ _ tc (prompts ++ [l]) s) as [s' [[]|e|p]]; simpl in Hcalm; [| |done].
  { split; [done|]. intros sent [= <-]. rewrite length_app. simpl. lia. }
  assert (Hretry : loop_ends (S fuel) prompts
    ((if decide (retries < stream_max_retries tc)%nat then
        (_ ← modify (send_event_raw persistence_mode append_fails
               (StreamErrorEvent (reconnecting (retries + 1) (stream_max_retries tc))));
         compacting fuel tc h (retries + 1) (prompts ++ [l])) s'
      else (_ ← modify (send_event_raw persistence_mode append_fails (ErrorEvent (error_text e))); lift (Err e)) s').2)).
  { destruct (decide _) as [Hlt|_]; [|apply Hstop]. unfold mbind at 1, Eff_bind at 1. simpl.
    apply Hgo, IH. unfold attempts_left in *. lia. }
  destruct e; try exact Hretry; [apply Hstop|].
  destruct (decide (1 < length l)%nat) as [Hl|_].
  - destruct (remove_first_shortens h) as (h' & Eh & Hlen); [intros E; rewrite Hnil in Hl by done; simpl in Hl; lia|].
    unfold mbind at 1, Eff_bind at 1. rewrite Eh. simpl. apply Hgo, IH. unfold attempts_left in *. nia.
  - pose proof (calm_full tc s') as Hc. unfold mbind at 1, Eff_bind at 1.
    destruct (set_total_tokens_full _ _ _ tc s') as [s'' [[]|e|p]]; simpl in *; [apply Hstop|apply Hstop|done].
Qed.

(** C18. The compaction of a conversation ends.  Whatever the model answers and
    however its streams break, the loop that drops the oldest items and tries
    again returns, without a panic in a release build, and has sent at most as
    many requests as there are items and one, times the retries and one. *)
Theorem compaction_requests_end tc h s :
  proper_answers →
  no_panic (compacting (compact_fuel tc h) tc h 0 [] s).2 ∧
  ∀ sent, (compacting (compact_fuel tc h) tc h 0 [] s).2 = Ok sent →
    (1 ≤ length sent ≤ S (length (items h)) * S (stream_max_retries tc))%nat.
Proof.
  intros Hp. destruct (compact_loop_ends (compact_fuel tc h) tc h 0 [] s Hp) as [Hn Hs].
  { unfold attempts_left, compact_fuel. lia. }
  split; [done|]. intros sent E. specialize (Hs _ E). unfold compact_fuel in Hs. simpl in Hs. lia.
Qed.
End ending.

(** ** What the file keeps *)

Section restoring.
Context {P R : Type}.
Context (persistence_mode : EventPersistenceMode).
Context (append_fails : list (RolloutItem P R) → list (RolloutItem P R) → bool).
Context (appends_succeed : ∀ stored new, append_fails stored new = false).
Implicit Types (s : Session P R) (tc : TurnConfig R) (entries : list (Entry P R)) (t : Turn P R).

Local Abbreviation persist := (persist_rollout_items persistence_mode append_fails).
Local Abbreviation send := (send_event_raw persistence_mode append_fails).
Local Abbreviation kept := (List.filter (λ item : RolloutItem P R, is_persisted_rollout_item item persistence_mode)).
Local Abbreviation persisted_same := (persist_same (mode:=persistence_mode) (append_fails:=append_fails)).
Local Abbreviation sent_same := (send_same (mode:=persistence_mode) (append_fails:=append_fails)).

Lemma persist_live new s stored :
  live_thread s = Some stored → live_thread (persist new s) = Some (stored ++ kept new).
Proof. intros E. unfold persist_rollout_items. by rewrite E, appends_succeed. Qed.
Lemma send_live ev s stored :
  live_thread s = Some stored → live_thread (send ev s) = Some (stored ++ kept [RolloutEvent ev]).
Proof. intros E. unfold send_event_raw. simpl. by apply persist_live. Qed.
Lemma kept_limited ev : event_msg_persistence_mode ev = Some Limited → kept [RolloutEvent ev] = [RolloutEvent ev].
Proof. intros E. simpl. unfold should_persist_event_msg. rewrite E. by destruct persistence_mode. Qed.
Lemma kept_none ev : event_msg_persistence_mode ev = None → kept [RolloutEvent ev] = [].
Proof. intros E. simpl. unfold should_persist_event_msg. rewrite E. by destruct persistence_mode. Qed.

Context (hook_prompt_text standard_contextual_text : str → bool) (inter_agent : str → option bool).
Context (estimated_tokens : ContextManager P (TurnContextItem R) → Z).
Context (build_initial_context : TurnConfig R → Session P R → list (ResponseItem P)).

Local Abbreviation recompute := (recompute_token_usage persistence_mode append_fails estimated_tokens).
Local Abbreviation install :=
  (install_compaction hook_prompt_text standard_contextual_text persistence_mode append_fails estimated_tokens
     build_initial_context).
Local Abbreviation rollback :=
  (thread_rollback hook_prompt_text standard_contextual_text inter_agent persistence_mode append_fails estimated_tokens).
Local Abbreviation reconstructed :=
  (reconstruct_history_from_rollout (P:=P) (R:=R) hook_prompt_text standard_contextual_text inter_agent).
Local Abbreviation surviving_turns := (surviving (P:=P) (R:=R) hook_prompt_text standard_contextual_text inter_agent).

Lemma recompute_live tc s stored :
  live_thread s = Some stored →
  ∃ info, live_thread (recompute tc s) = Some (stored ++ [RolloutEvent (TokenCount info)]).
Proof.
  intros E. unfold recompute_token_usage, send_token_count_event. eexists.
  rewrite (send_live _ _ stored); [|exact E]. by rewrite kept_limited.
Qed.
Lemma recompute_same tc s :
  items (history (recompute tc s)) = items (history s) ∧
  reference_context_item (history (recompute tc s)) = reference_context_item (history s) ∧
  session_settings (recompute tc s) = session_settings s ∧ active_turn (recompute tc s) = active_turn s.
Proof.
  unfold recompute_token_usage, send_token_count_event.
  match goal with |- context [send ?ev ?s0] => destruct (sent_same ev s0) as (-> & -> & ->) end. done.
Qed.

(** *** Compaction *)

(** What a compaction adds to the file. *)
Definition compaction_items (c : CompactedItem P) (reference : option (TurnContextItem R)) info : list (RolloutItem P R) :=
  Compacted c :: map TurnContext (option_list reference) ++
  [RolloutEvent (TokenCount info); RolloutEvent (OtherEvent (Some Limited))].

Definition injected tc (injection : InitialContextInjection) : option (TurnContextItem R) :=
  match injection with DoNotInject => None | BeforeLastUserMessage => Some (to_turn_context_item tc) end.

Lemma result_total tc injection s :
  Forall (λ m, utf8_len m <= usize_max)%N
    (collect_user_messages hook_prompt_text standard_contextual_text (items (history s))) →
  ∃ r, compacted_result hook_prompt_text standard_contextual_text build_initial_context tc injection s = Ok r.
Proof.
  intros Hm. unfold compacted_result.
  set (text := SUMMARY_PREFIX ++ [c_nl] ++ default [] (get_last_assistant_message_from_turn (items (history s)))).
  destruct (compacted_history_keeps_newest (P:=P) [] _ text COMPACT_USER_MESSAGE_MAX_TOKENS Hm) as (sel & _ & Eb).
  unfold build_compacted_history. cbn zeta. fold text. rewrite Eb. cbn [infallible map_err mbind Res_bind].
  destruct injection; [|by eexists].
  destruct (initial_context_is_placed hook_prompt_text standard_contextual_text
    ([] ++ map user_message sel ++ [user_message (if decide (text = []) then lit "(no summary available)" else text)])
    (build_initial_context tc s)) as (b & a & Ei & _).
  unfold infallible at 1. cbn [map_err mbind Res_bind]. rewrite Ei. by eexists.
Qed.

Lemma new_history_spec tc injection l text s stored :
  live_thread s = Some stored →
  let s' := install_new_history persistence_mode append_fails estimated_tokens tc injection l text s in
  items (history s') = l ∧ reference_context_item (history s') = injected tc injection ∧
  (∃ info, live_thread s' = Some (stored ++ compaction_items (mkCompacted text (Some l)) (injected tc injection) info)) ∧
  session_settings s' = session_settings s ∧ active_turn s' = active_turn s.
Proof.
  intros Hlive. set (c := mkCompacted text (Some l)).
  set (s1 := replace_compacted_history persistence_mode append_fails l (injected tc injection) c s).
  assert (H1 : items (history s1) = l ∧ reference_context_item (history s1) = injected tc injection ∧
    live_thread s1 = Some (stored ++ Compacted c :: map TurnContext (option_list (injected tc injection))) ∧
    session_settings s1 = session_settings s ∧ active_turn s1 = active_turn s).
  { unfold s1, replace_compacted_history.
    pose proof (persist_live [Compacted c] (replace_history l (injected tc injection) s) stored Hlive) as Hp.
    destruct (persisted_same [Compacted c] (replace_history l (injected tc injection) s)) as (Hh & Hs & Ha).
    destruct (injected tc injection) as [ctx|]; [|by rewrite Hh, Hp, Hs, Ha].
    pose proof (persist_live [TurnContext ctx] _ _ Hp) as Hp2.
    destruct (persisted_same [TurnContext ctx] (persist [Compacted c] (replace_history l (Some ctx) s))) as (Hh2 & Hs2 & Ha2).
    rewrite Hh2, Hh, Hp2, Hs2, Hs, Ha2, Ha. simpl. by rewrite <-app_assoc. }
  destruct H1 as (Hi & Hr & Hl & Hs & Ha). destruct (recompute_live tc s1 _ Hl) as [info Hinfo].
  destruct (recompute_same tc s1) as (Hi2 & Hr2 & Hs2 & Ha2).
  change (install_new_history persistence_mode append_fails estimated_tokens tc injection l text s) with
    (send (OtherEvent (Some Limited)) (send (OtherEvent None) (recompute tc s1))). cbv zeta.
  rewrite !(proj1 (sent_same _ _)), !(proj1 (proj2 (sent_same _ _))), !(proj2 (proj2 (sent_same _ _))).
  split_and!; [by rewrite Hi2|by rewrite Hr2| |by rewrite Hs2|by rewrite Ha2].
  exists info. erewrite send_live; [|apply send_live; exact Hinfo].
  rewrite (kept_none (OtherEvent None)), kept_limited by done. rewrite app_nil_r, <-!app_assoc. done.
Qed.

Lemma install_spec tc injection s stored r :
  live_thread s = Some stored →
  compacted_result hook_prompt_text standard_contextual_text build_initial_context tc injection s = Ok r →
  ∃ s' c l info, install tc injection s = (s', Ok tt) ∧ replacement_history c = Some l ∧
    items (history s') = l ∧ reference_context_item (history s') = injected tc injection ∧
    live_thread s' = Some (stored ++ compaction_items c (injected tc injection) info) ∧
    session_settings s' = session_settings s ∧ active_turn s' = active_turn s.
Proof.
  intros Hlive Er. destruct r as [l text].
  destruct (new_history_spec tc injection l text s stored Hlive) as (Hi & Hr & [info Hl] & Hs & Ha).
  set (s1 := install_new_history _ _ _ tc injection l text s) in *.
  destruct (sent_same (WarningEvent compaction_warning) s1) as (Eh & Es & Ea).
  exists (send (WarningEvent compaction_warning) s1), (mkCompacted text (Some l)), l, info.
  rewrite Eh, Es, Ea, (send_live _ _ _ Hl), kept_none, app_nil_r by done.
  split_and!; try done. unfold install_compaction, mbind at 1, Eff_bind at 1, reads. by rewrite Er.
Qed.

(** The turn with the compaction in it. *)
Lemma compacted_turn tc injection t c l info :
  replacement_history c = Some l →
  (injection = BeforeLastUserMessage →
     is_user_turn hook_prompt_text standard_contextual_text inter_agent t = true) →
  let t' := longer t (compaction_items c (injected tc injection) info) in
  turn_base t' = Some l ∧
  head (omap (established hook_prompt_text standard_contextual_text inter_agent) [t']) =
    Some (match injected tc injection with Some ctx => Latest ctx | None => Cleared end).
Proof.
  intros Hc Hu t'. split.
  { unfold turn_base. apply omap_snoc_last. unfold compaction_items. destruct (injected tc injection); simpl; by rewrite Hc. }
  assert (Hr : turn_reference t' = match injected tc injection with Some ctx => Latest ctx | None => Cleared end).
  { unfold turn_reference, t', longer. cbn [t_body].
    by rewrite (omap_snoc_last _ _ _ (match injected tc injection with Some ctx => Latest ctx | None => Cleared end))
      by (unfold compaction_items; by destruct (injected tc injection)). }
  simpl. unfold established. rewrite Hr. destruct injection; simpl in *.
  - assert (is_user_turn hook_prompt_text standard_contextual_text inter_agent t' = true) as ->; [|done].
    unfold is_user_turn, t', longer in *. cbn [t_body]. by rewrite existsb_app, (Hu eq_refl).
  - by rewrite orb_true_r.
Qed.

Lemma run_compaction policy acc c l reference info :
  replacement_history c = Some l →
  replay hook_prompt_text standard_contextual_text inter_agent policy acc (compaction_items c reference info) =
    Ok (replace l acc.1, acc.2).
Proof.
  intros Hc. destruct acc as [h saw]. unfold compaction_items. cbn [replay]. unfold replay_item at 1. rewrite Hc.
  by destruct reference.
Qed.

(** A compaction is not undone by resuming.  When a conversation was
    compacted in the turn going on, the compaction returns, and the thread
    resumed from its file has the compacted history and the baseline that the
    session has in memory, with whatever truncation policy it is resumed. *)
Theorem compaction_survives_resume tc injection s entries t policy :
  live_thread s = Some (entries_items (entries ++ [ATurn t])) →
  Forall wf_entry (entries ++ [ATurn t]) → (len (entries ++ [ATurn t]) < usize_max)%N →
  Forall replayable (entries_items (entries ++ [ATurn t])) →
  Forall (λ m, utf8_len m <= usize_max)%N
    (collect_user_messages hook_prompt_text standard_contextual_text (items (history s))) →
  sub_id tc = t_id t →
  (injection = BeforeLastUserMessage →
     is_user_turn hook_prompt_text standard_contextual_text inter_agent t = true) →
  ∃ s' stored r, install tc injection s = (s', Ok tt) ∧ live_thread s' = Some stored ∧
    reconstructed policy stored = Ok r ∧ r_history r = items (history s') ∧
    r_reference_context_item r = reference_context_item (history s').
Proof.
  intros Hlive Hw Hl Hr Hm Hid Hu.
  destruct (result_total tc injection s Hm) as [res Eres].
  destruct (install_spec tc injection s _ res Hlive Eres) as (s' & c & l & info & Ei & Hc & Hh & Href & Hlive' & _).
  set (new := compaction_items c (injected tc injection) info) in *.
  destruct (compacted_turn tc injection t c l info Hc Hu) as [Hb He]. fold new in Hb, He.
  assert (Hsurv : surviving_turns (entries ++ [ATurn (longer t new)]) = longer t new :: surviving_turns entries)
    by (unfold surviving; by rewrite foldl_app).
  rewrite <-longer_items in Hlive'.
  destruct (reconstruction_complete hook_prompt_text standard_contextual_text inter_agent policy
    (entries ++ [ATurn (longer t new)])) as (h & Hrun & Erec).
  - apply Forall_app in Hw as [Hw [Ht _]%Forall_cons]. apply Forall_app. split; [done|]. constructor; [|done].
    simpl in *. apply Forall_app. split; [done|]. unfold new, compaction_items.
    apply Forall_cons_2; [done|]. apply Forall_app. split; [|by apply Forall_cons_2; [|apply Forall_cons_2]].
    destruct injection; [|by apply Forall_nil_2].
    apply Forall_cons_2; [right; simpl; congruence|by apply Forall_nil_2].
  - rewrite len_app in *. done.
  - rewrite longer_items. apply Forall_app. split; [done|]. unfold new, compaction_items.
    constructor; [by eexists|]. destruct (injected tc injection); by repeat constructor.
  - right. exists (longer t new). rewrite Hsurv, Hb. split; [by left|done].
  - exists s', (entries_items (entries ++ [ATurn (longer t new)])). eexists. split_and!; [done..| |].
    + simpl. rewrite Hh. rewrite longer_items, run_rollout_app in Hrun.
      destruct (run_total hook_prompt_text standard_contextual_text inter_agent policy (new_history, false) _ Hr) as [h0 E0].
      rewrite E0 in Hrun. cbn [mbind Res_bind] in Hrun. unfold new in Hrun. rewrite (run_compaction _ _ _ _ _ _ Hc) in Hrun.
      by injection Hrun as <-.
    + simpl. rewrite Href. unfold baseline_left. rewrite Hsurv, head_omap_cons. simpl in He.
      destruct (established _ _ _ (longer t new)) as [e|]; [|done]. simpl in *. injection He as ->.
      by destruct (injected tc injection).
Qed.

(** *** Rollback *)

Lemma rollback_spec_session tc n s stored r :
  live_thread s = Some stored → active_turn s = false → n ≠ 0%N →
  reconstructed (truncation_policy tc) (stored ++ [RolloutEvent (ThreadRolledBack n)]) = Ok r →
  ∃ s' info, rollback tc n None None None s = (s', Ok tt) ∧
    items (history s') = r_history r ∧ reference_context_item (history s') = r_reference_context_item r ∧
    session_settings s' = r_previous_turn_settings r ∧
    live_thread s' = Some (stored ++ [RolloutEvent (TokenCount info); RolloutEvent (ThreadRolledBack n)]) ∧
    active_turn s' = active_turn s.
Proof.
  intros Hlive Ha Hn Er.
  set (s1 := set_previous_turn_settings (r_previous_turn_settings r)
    (replace_history (r_history r) (r_reference_context_item r) s)).
  assert (Hl1 : live_thread s1 = Some stored) by done.
  destruct (recompute_live tc s1 _ Hl1) as [info Hinfo].
  destruct (recompute_same tc s1) as (Hi & Hr & Hp & Ha2). set (s2 := recompute tc s1) in *.
  exists (deliver_event_raw (ThreadRolledBack n) (persist [RolloutEvent (ThreadRolledBack n)] s2)), info.
  destruct (persisted_same [RolloutEvent (ThreadRolledBack n)] s2) as (Hh & Hs & Ha3).
  pose proof (persist_live [RolloutEvent (ThreadRolledBack n)] s2 _ Hinfo) as Hlive'. split_and!.
  - unfold thread_rollback. destruct (N.eqb_spec n 0); [done|]. unfold mbind at 1, Eff_bind at 1, reads at 1.
    rewrite Ha. unfold mbind at 1, Eff_bind at 1, reads at 1. rewrite Hlive.
    unfold apply_rollout_reconstruction, mbind, Eff_bind, lift. rewrite Er. done.
  - simpl. by rewrite Hh, Hi.
  - simpl. by rewrite Hh, Hr.
  - simpl. by rewrite Hs, Hp.
  - simpl. rewrite Hlive'. rewrite kept_limited by done. by rewrite <-app_assoc.
  - simpl. by rewrite Ha3, Ha2.
Qed.

(** What the entries leave does not depend on notes. *)
Lemma surviving_note entries item n :
  surviving_turns (entries ++ [ANote item; ARollback n]) = surviving_turns (entries ++ [ARollback n]).
Proof. unfold surviving. by rewrite !foldl_app. Qed.
Lemma checkpoint_left_note entries item n :
  item_base item = None →
  checkpoint_left hook_prompt_text standard_contextual_text inter_agent (entries ++ [ARollback n]) →
  checkpoint_left hook_prompt_text standard_contextual_text inter_agent (entries ++ [ANote item; ARollback n]).
Proof.
  intros Hi [Hp|Hs]; [left|by right; rewrite surviving_note].
  rewrite entries_items_app in *. apply Forall_app in Hp as [? ?]. apply Forall_app. split; [done|].
  by apply Forall_cons_2.
Qed.

(** Rolling the entries back, whatever notes stand before the rollback. *)
Lemma rollback_reconstructed policy n entries h notes :
  Forall wf_entry (entries ++ notes ++ [ARollback n]) →
  (len (entries ++ notes ++ [ARollback n]) < usize_max)%N →
  Forall replayable (entries_items (entries ++ notes ++ [ARollback n])) →
  checkpoint_left hook_prompt_text standard_contextual_text inter_agent (entries ++ notes ++ [ARollback n]) →
  replay hook_prompt_text standard_contextual_text inter_agent policy (new_history, false) (entries_items entries) =
    Ok (h, false) →
  replay hook_prompt_text standard_contextual_text inter_agent policy (h, false) (entries_items notes) = Ok (h, false) →
  ∃ h', drop_last_n_user_turns (contextual_user_text hook_prompt_text standard_contextual_text)
      (inter_agent_json inter_agent) (N.to_nat n) h = Ok h' ∧
    reconstructed policy (entries_items (entries ++ notes ++ [ARollback n])) =
      Ok (mkReconstruction (items h')
            (settings_left hook_prompt_text standard_contextual_text inter_agent (entries ++ notes ++ [ARollback n]))
            (baseline_left hook_prompt_text standard_contextual_text inter_agent (entries ++ notes ++ [ARollback n]))).
Proof.
  intros Hw Hl Hr Hc Eh En.
  destruct (reconstruction_complete hook_prompt_text standard_contextual_text inter_agent policy _ Hw Hl Hr Hc)
    as (h' & Hrun & Erec).
  exists h'. split; [|done]. rewrite !entries_items_app, run_rollout_app, Eh in Hrun. cbn [mbind Res_bind] in Hrun.
  rewrite run_rollout_app, En in Hrun. cbn [mbind Res_bind] in Hrun. simpl in Hrun.
  by destruct (drop_last_n_user_turns _ _ _ h); [injection Hrun as ->|..].
Qed.

(** Rolling a thread back is not undone by resuming.  The rollback takes the
    last turns of the user off the history that the file stands for, and the
    history, the settings and the baseline that it leaves in memory are those
    of the thread resumed from the file with the marker of the rollback. *)
Theorem rollback_survives_resume tc n s entries :
  live_thread s = Some (entries_items entries) → active_turn s = false → n ≠ 0%N →
  Forall wf_entry entries → (len entries + 2 < usize_max)%N → Forall replayable (entries_items entries) →
  checkpoint_left hook_prompt_text standard_contextual_text inter_agent (entries ++ [ARollback n]) →
  ∃ s' stored h h' r,
    rollback tc n None None None s = (s', Ok tt) ∧ live_thread s' = Some stored ∧
    replay hook_prompt_text standard_contextual_text inter_agent (truncation_policy tc) (new_history, false)
      (entries_items entries) = Ok (h, false) ∧
    drop_last_n_user_turns (contextual_user_text hook_prompt_text standard_contextual_text)
      (inter_agent_json inter_agent) (N.to_nat n) h = Ok h' ∧ items (history s') = items h' ∧
    reconstructed (truncation_policy tc) stored = Ok r ∧ r_history r = items (history s') ∧
    r_reference_context_item r = reference_context_item (history s') ∧
    r_previous_turn_settings r = session_settings s'.
Proof.
  intros Hlive Ha Hn Hw Hl Hr Hc.
  destruct (run_total hook_prompt_text standard_contextual_text inter_agent (truncation_policy tc)
    (new_history, false) _ Hr) as [h Eh].
  assert (Hall : ∀ notes, Forall wf_entry notes → Forall replayable (entries_items notes) →
    Forall wf_entry (entries ++ notes ++ [ARollback n]) ∧
    Forall replayable (entries_items (entries ++ notes ++ [ARollback n]))).
  { intros notes Hwn Hrn. rewrite !entries_items_app, !Forall_app. split_and!; try done; by apply Forall_cons_2. }
  destruct (Hall [] (Forall_nil_2 _) (Forall_nil_2 _)) as [Hw1 Hr1].
  destruct (rollback_reconstructed (truncation_policy tc) n entries h [] Hw1) as (h' & Ed & Er);
    [rewrite !len_app; unfold len in *; simpl; lia|done..|].
  simpl in Er. rewrite entries_items_app in Er.
  destruct (rollback_spec_session tc n s _ _ Hlive Ha Hn Er) as (s' & info & Es & Hi & Href & Hset & Hlive' & _).
  destruct (Hall [ANote (RolloutEvent (TokenCount info))]) as [Hw2 Hr2]; [by apply Forall_cons_2..|].
  destruct (rollback_reconstructed (truncation_policy tc) n entries h [ANote (RolloutEvent (TokenCount info))] Hw2)
    as (h2 & Ed2 & Er2); [rewrite !len_app; unfold len in *; simpl; lia|done|by apply checkpoint_left_note|done..|].
  rewrite Ed in Ed2. injection Ed2 as <-. rewrite entries_items_app in Er2.
  eexists s', _, h, h', _. split_and!; [done|exact Hlive'|done..|exact Er2| | |]; simpl.
  - by rewrite Hi.
  - rewrite Href. unfold baseline_left. by rewrite surviving_note.
  - rewrite Hset. unfold settings_left. by rewrite surviving_note.
Qed.

(** C20. Rolling back the turn in which a thread was first compacted forgets the
    thread.  The rollback returns as it does when all is well, but the scan had
    cut the file off at the checkpoint before it knew that the turn is rolled
    back: what is left in memory is what came after the compaction in the very
    turn that is rolled back, less what that can be rolled back, as if nothing
    had been before. *)
Theorem rollback_forgets_conversation tc n s before t before_c c rep after_c :
  live_thread s = Some (entries_items (before ++ [ATurn t])) → active_turn s = false → n ≠ 0%N →
  Forall wf_entry (before ++ [ATurn t]) → (len (before ++ [ATurn t]) + 1 < usize_max)%N →
  t_body t = before_c ++ Compacted c :: after_c → replacement_history c = Some rep →
  Forall plain (entries_items before) → Forall plain before_c → Forall plain after_c →
  Forall replayable after_c →
  is_user_turn hook_prompt_text standard_contextual_text inter_agent t = true →
  ∃ s' h h', rollback tc n None None None s = (s', Ok tt) ∧
    replay hook_prompt_text standard_contextual_text inter_agent (truncation_policy tc) (new_history, false) after_c =
      Ok (h, false) ∧
    drop_last_n_user_turns (contextual_user_text hook_prompt_text standard_contextual_text)
      (inter_agent_json inter_agent) (N.to_nat n) h = Ok h' ∧ items (history s') = items h'.
Proof.
  intros Hlive Ha Hn Hw Hl Hbody Hrep Hb Hbc Hac Hra Hu.
  assert (Eapp : before ++ [ATurn t; ARollback n] = (before ++ [ATurn t]) ++ [ARollback n]) by by rewrite <-app_assoc.
  destruct (forgotten_history hook_prompt_text standard_contextual_text inter_agent (truncation_policy tc)
    before t n before_c c rep after_c) as (h & h' & r & Eh & Ed & Er & Hr); try done.
  { rewrite Eapp. apply Forall_app. split; [done|]. by apply Forall_cons_2. }
  { rewrite !len_app in *. unfold len in *. simpl in *. lia. }
  rewrite Eapp, entries_items_app in Er.
  destruct (rollback_spec_session tc n s _ r Hlive Ha Hn Er) as (s' & info & Es & Hi & _).
  exists s', h, h'. split_and!; [done..|]. by rewrite Hi.
Qed.
End restoring.

(** ** What a failed compaction leaves *)

Section failing.
Context {P R : Type}.
Context (hook_prompt_text standard_contextual_text : str → bool).
Context (persistence_mode : EventPersistenceMode).
Context (append_fails : list (RolloutItem P R) → list (RolloutItem P R) → bool).
Context (estimated_tokens : ContextManager P (TurnContextItem R) → Z).
Context (build_initial_context : TurnConfig R → Session P R → list (ResponseItem P)).
Context (answer : list (list (ResponseItem P)) → Res CodexErr (Stream P)).

Local Abbreviation compact :=
  (run_inline_auto_compact_task false hook_prompt_text standard_contextual_text persistence_mode append_fails
     estimated_tokens build_initial_context answer).

Local Abbreviation send := (send_event_raw persistence_mode append_fails).

(** The session went on without touching its history, and only errors were
    written to its file. *)
Definition only_errors (s s' : Session P R) : Prop :=
  ∀ stored, live_thread s = Some stored →
    ∃ errors, live_thread s' = Some (stored ++ map (λ message, RolloutEvent (ErrorEvent message)) errors).

Lemma only_errors_refl s s' : live_thread s' = live_thread s → only_errors s s'.
Proof. intros E stored Hs. exists []. by rewrite app_nil_r, E. Qed.
Lemma only_errors_trans s s' s'' : only_errors s s' → only_errors s' s'' → only_errors s s''.
Proof.
  intros H1 H2 stored Hs. destruct (H1 _ Hs) as [l Hl]. destruct (H2 _ Hl) as [k Hk].
  exists (l ++ k). by rewrite Hk, map_app, app_assoc.
Qed.
Lemma only_errors_send ev s :
  (∃ message, ev = ErrorEvent message) ∨ event_msg_persistence_mode ev = None → only_errors s (send ev s).
Proof.
  intros Hev stored Hs. unfold send_event_raw, persist_rollout_items. cbn [live_thread deliver_event_raw].
  rewrite Hs. destruct (append_fails _ _); [exists []; by rewrite app_nil_r|].
  destruct Hev as [[message ->]|En].
  - simpl. unfold should_persist_event_msg. simpl. destruct persistence_mode; [exists []|exists [message]]; done.
  - exists []. simpl. unfold should_persist_event_msg. rewrite En. by destruct persistence_mode.
Qed.

(** An attempt whose stream breaks leaves what had arrived in the history. *)
Lemma drain_broken tc outputs e s :
  Forall sized outputs →
  ∃ h, record_items outputs (truncation_policy tc) (history s) = Ok h ∧
    drain_events false persistence_mode append_fails tc (map (λ item, Ok (OutputItemDone item)) outputs ++ [Err e]) s =
      (set_history h s, Err e).
Proof.
  intros Ho. revert s. induction Ho as [|x l Hx Hl IH]; intros s.
  { exists (history s). split; [done|]. by destruct s. }
  destruct (record_one_total x (truncation_policy tc) (history s) Hx) as [h Eh].
  destruct (IH (set_history h s)) as (h' & Eh' & Ed). exists h'. split.
  - change (x :: l) with ([x] ++ l). rewrite record_items_app, Eh. exact Eh'.
  - cbn [map app drain_events]. unfold lift at 1, mbind at 1, Eff_bind at 1. unfold mbind at 1, Eff_bind at 1.
    unfold record_into_history, on_history, reads, mbind at 1, Eff_bind at 1. rewrite Eh. simpl. exact Ed.
Qed.

Context (outputs : list (ResponseItem P)) (e : CodexErr).
Context (outputs_sized : Forall sized outputs).
Context (answer_breaks : ∀ prompts, answer prompts = Ok (map (λ item, Ok (OutputItemDone item)) outputs ++ [Err e])).
Context (other_error : e ≠ Interrupted ∧ e ≠ ContextWindowExceeded).

Lemma loop_broken fuel tc h retries prompts s :
  (stream_max_retries tc - retries < fuel)%nat →
  ∃ s', compact_loop false persistence_mode append_fails answer fuel tc h retries prompts s = (s', Err e) ∧
    record_items (concat (repeat outputs (S (stream_max_retries tc - retries)))) (truncation_policy tc) (history s) =
      Ok (history s') ∧ only_errors s s'.
Proof.
  revert retries prompts s. induction fuel as [|fuel IH]; intros retries prompts s Hf; [lia|].
  cbn [compact_loop]. destruct (prompt_release (input_modalities tc) h) as (l & El & _).
  unfold mbind at 1, Eff_bind at 1. rewrite El. unfold infallible at 1. cbn [map_err lift fst snd].
  unfold drain_to_completed, mbind at 1, Eff_bind at 1. rewrite answer_breaks. cbn [lift fst snd].
  destruct (drain_broken tc outputs e s outputs_sized) as (h1 & Eh1 & ->).
  set (s1 := set_history h1 s).
  assert (Hrest : ∃ s', (if decide (retries < stream_max_retries tc)%nat then
        (_ ← modify (send (StreamErrorEvent (reconnecting (retries + 1) (stream_max_retries tc))));
         compact_loop false persistence_mode append_fails answer fuel tc h (retries + 1) (prompts ++ [l])) s1
      else (_ ← modify (send (ErrorEvent (error_text e))); lift (Err e)) s1) = (s', Err e) ∧
    record_items (concat (repeat outputs (S (stream_max_retries tc - retries)))) (truncation_policy tc) (history s) =
      Ok (history s') ∧ only_errors s s').
  { destruct (decide _) as [Hlt|Hge].
    - set (s2 := send (StreamErrorEvent (reconnecting (retries + 1) (stream_max_retries tc))) s1).
      destruct (IH (retries + 1)%nat (prompts ++ [l]) s2) as (s' & E & Hr & Ho); [lia|].
      exists s'. split; [exact E|]. split.
      + replace (stream_max_retries tc - retries)%nat with (S (stream_max_retries tc - (retries + 1))) by lia.
        cbn [repeat concat]. cbn [repeat concat] in Hr. rewrite record_items_app, Eh1. cbn [mbind Res_bind].
        rewrite <-Hr. unfold s2, send_event_raw. f_equal. symmetry. apply persist_same.
      + apply (only_errors_trans _ s2); [|done]. apply (only_errors_trans _ s1); [by apply only_errors_refl|].
        apply only_errors_send. by right.
    - set (s2 := send (ErrorEvent (error_text e)) s1). exists s2. split; [done|]. split.
      + replace (stream_max_retries tc - retries)%nat with 0%nat by lia. simpl. rewrite app_nil_r, Eh1.
        f_equal. unfold s2. symmetry. apply send_same.
      + apply (only_errors_trans _ s1); [by apply only_errors_refl|]. apply only_errors_send. left. by eexists. }
  destruct other_error as [Hi Hc]. destruct e; try done; apply Hrest.
Qed.

(** A compaction that fails leaves its debris in memory.  When the stream of
    the model breaks off in every attempt, the compaction reports the error,
    but what had arrived in each attempt stays in the history, once for each
    attempt; the file of the thread has none of it. *)
Theorem failed_compaction_leaves_output tc injection s :
  sized (user_message (P:=P) (compact_prompt tc)) →
  ∃ s', compact tc injection s = (s', Err e) ∧
    record_items (concat (repeat outputs (S (stream_max_retries tc)))) (truncation_policy tc) (history s) =
      Ok (history s') ∧ only_errors s s'.
Proof.
  intros Hp. unfold run_inline_auto_compact_task, run_compact_task_inner_impl.
  set (s1 := send (OtherEvent None) s).
  assert (H1 : history s1 = history s) by apply send_same.
  destruct (record_one_total _ (truncation_policy tc) (history s1) Hp) as [h Eh].
  destruct (loop_broken (compact_fuel tc h) tc h 0 [] s1) as (s' & E & Hr & Ho); [unfold compact_fuel; lia|].
  exists s'. split_and!.
  - unfold mbind at 1, Eff_bind at 1. unfold mbind at 1, Eff_bind at 1. unfold modify at 1. fold s1.
    unfold mbind at 1, Eff_bind at 1, reads. rewrite Eh. cbn [infallible map_err fst snd].
    unfold mbind at 1, Eff_bind at 1. by rewrite E.
  - by rewrite <-H1, <-Hr, Nat.sub_0_r.
  - apply (only_errors_trans _ s1); [|done]. apply only_errors_send. by right.
Qed.
End failing.

(** ** Examples *)

Definition no_failure (_ _ : list (RolloutItem unit unit)) : bool := false.
Definition no_estimate (_ : ContextManager unit (TurnContextItem unit)) : Z := 0.
Definition demo_context (_ : TurnConfig unit) (_ : Session unit unit) : list (ResponseItem unit) :=
  [Message None (lit "developer") [InputText (lit "context")] None].
Definition demo_config : TurnConfig unit :=
  mkTurnConfig (PolicyBytes 100) None [] None false false (lit "m2") 2 (lit "2") false (lit "summarize") ().
Definition demo_session (l : list (ResponseItem unit)) (stored : list (RolloutItem unit unit)) : Session unit unit :=
  mkSession (with_items l new_history) None false false false (Some stored) [].
Definition demo_said (role text : string) : ResponseItem unit :=
  Message None (lit role) [if decide (role = "user"%string) then InputText (lit text) else OutputText (lit text)] None.

(** The first attempt exceeds the window, the second one breaks off, and then
    the model answers. *)
Definition demo_answers (prompts : list (list (ResponseItem unit))) : Res CodexErr (Stream unit) :=
  match length prompts with
  | 1%nat => Err ContextWindowExceeded
  | 2%nat => Ok [Ok (OutputItemDone (demo_said "assistant" "half"))]
  | _ => Ok [Ok RateLimits; Ok (OutputItemDone (demo_said "assistant" "summary")); Ok (Completed None)]
  end.

Lemma compaction_requests_end_witness :
  let s := demo_session [demo_said "user" "hello"; demo_said "assistant" "hi"] [] in
  (∃ sent, (compact_loop false Limited no_failure demo_answers (compact_fuel demo_config (history s)) demo_config
     (history s) 0 [] s).2 = Ok sent ∧ length sent = 3%nat) ∧
  no_panic (compact_loop false Limited no_failure demo_answers (compact_fuel demo_config (history s)) demo_config
     (history s) 0 [] s).2.
Proof.
  split; [eexists; split; vm_compute; reflexivity|].
  apply (compaction_requests_end Limited no_failure demo_answers demo_config).
  intros prompts. unfold demo_answers. destruct (length prompts) as [|[|[|n]]]; simpl; [|done|..].
  all: repeat first [apply Forall_nil_2 | apply Forall_cons_2 | exact I | by vm_compute].
Defined.

Definition demo_history : list (ResponseItem unit) := [demo_said "user" "first"; demo_said "user" "second"].
Definition demo_first : Entry unit unit := ATurn (demo_turn "1" "first" "m1" []).
Definition demo_second : Turn unit unit := demo_turn "2" "second" "m2" [].

Lemma demo_wf : Forall wf_entry [demo_first; ATurn demo_second].
Proof. wf_demo. Qed.
Lemma demo_replayable : Forall replayable (entries_items [demo_first; ATurn demo_second]).
Proof. repeat first [apply Forall_nil_2 | apply Forall_cons_2 | exact I | by vm_compute]. Qed.

Lemma compaction_survives_resume_witness :
  let s := demo_session demo_history (entries_items [demo_first; ATurn demo_second]) in
  ∃ s' stored r,
    install_compaction no_text no_text Limited no_failure no_estimate demo_context demo_config BeforeLastUserMessage s =
      (s', Ok tt) ∧ live_thread s' = Some stored ∧
    reconstruct_history_from_rollout no_text no_text demo_agent (PolicyBytes 7) stored = Ok r ∧
    r_history r = items (history s') ∧ r_reference_context_item r = reference_context_item (history s').
Proof.
  apply (compaction_survives_resume Limited no_failure (λ _ _, eq_refl) no_text no_text demo_agent no_estimate
    demo_context demo_config BeforeLastUserMessage (demo_session demo_history _) [demo_first] demo_second (PolicyBytes 7)
    eq_refl demo_wf).
  - by vm_compute.
  - exact demo_replayable.
  - repeat first [apply Forall_nil_2 | apply Forall_cons_2 | by vm_compute].
  - done.
  - by vm_compute.
Defined.

Lemma rollback_survives_resume_witness :
  let s := demo_session demo_history (entries_items [demo_first; ATurn demo_second]) in
  ∃ s' stored r,
    thread_rollback no_text no_text demo_agent Limited no_failure no_estimate demo_config 1 None None None s = (s', Ok tt) ∧
    live_thread s' = Some stored ∧
    reconstruct_history_from_rollout no_text no_text demo_agent (PolicyBytes 100) stored = Ok r ∧
    r_history r = items (history s') ∧ r_previous_turn_settings r = session_settings s'.
Proof.
  destruct (rollback_survives_resume Limited no_failure (λ _ _, eq_refl) no_text no_text demo_agent no_estimate
    demo_config 1 (demo_session demo_history _) [demo_first; ATurn demo_second] eq_refl eq_refl)
    as (s' & stored & h & h' & r & Es & Hl & _ & _ & _ & Er & Hh & _ & Hs).
  - done.
  - exact demo_wf.
  - by vm_compute.
  - exact demo_replayable.
  - left. repeat first [apply Forall_nil_2 | apply Forall_cons_2 | by vm_compute].
  - exists s', stored, r. split_and!; assumption.
Defined.

(** The first message of the user is lost, and the answer of the turn that was
    rolled back is all that is left. *)
Lemma rollback_forgets_conversation_witness :
  let s := demo_session demo_history (entries_items [demo_first; ATurn demo_lost_turn]) in
  ∃ s', thread_rollback no_text no_text demo_agent Limited no_failure no_estimate demo_config 1 None None None s = (s', Ok tt) ∧
    items (history s') = [demo_said "assistant" "answer"].
Proof.
  destruct (rollback_forgets_conversation Limited no_failure (λ _ _, eq_refl) no_text no_text demo_agent no_estimate
    demo_config 1 (demo_session demo_history _) [demo_first] demo_lost_turn
    (take 3 (t_body demo_second)) (mkCompacted [] (Some [user_message (lit "summary")]))
    [user_message (lit "summary")] [demo_answer; RolloutEvent (TurnComplete (lit "2"))] eq_refl eq_refl)
    as (s' & h & h' & Es & Eh & Ed & Ei).
  1: done.
  1: wf_demo.
  1, 2, 3: by vm_compute.
  1, 2, 3, 4: repeat first [apply Forall_nil_2 | apply Forall_cons_2 | by vm_compute].
  1: by vm_compute.
  exists s'. split; [assumption|]. rewrite Ei. vm_compute in Eh. injection Eh as <-.
  vm_compute in Ed. by injection Ed as <-.
Defined.

Definition broken_answer (_ : list (list (ResponseItem unit))) : Res CodexErr (Stream unit) :=
  Ok (map (λ item, Ok (OutputItemDone item)) [demo_said "assistant" "half"] ++ [Err (StreamErr (lit "reset"))]).

Lemma failed_compaction_leaves_output_witness :
  ∃ s',
    run_inline_auto_compact_task false no_text no_text Limited no_failure no_estimate demo_context broken_answer
      demo_config DoNotInject (demo_session [demo_said "user" "first"] []) =
      (s', Err (StreamErr (lit "reset"))) ∧
    items (history s') = demo_said "user" "first" :: repeat (demo_said "assistant" "half") 3 ∧
    ∃ errors, live_thread s' = Some (map (λ message, RolloutEvent (ErrorEvent message)) errors).
Proof.
  destruct (failed_compaction_leaves_output no_text no_text Limited no_failure no_estimate demo_context broken_answer
    [demo_said "assistant" "half"] (StreamErr (lit "reset"))) with (tc := demo_config)
    (injection := DoNotInject) (s := demo_session [demo_said "user" "first"] []) as (s' & Es & Eh & Ho).
  - by apply Forall_cons_2; [vm_compute|apply Forall_nil_2].
  - done.
  - done.
  - by vm_compute.
  - exists s'. split; [exact Es|]. split.
    + apply (f_equal (λ r, match r with Ok h => items h | _ => [] end)) in Eh. cbv beta iota in Eh.
      rewrite <-Eh. by vm_compute.
    + exact (Ho [] eq_refl).
Defined.
