(* ===== verification/RemoteCompaction.v ===== *)
(** * Compaction by the provider: [core/src/compact_remote.rs], [compact_remote_v2.rs]

    A provider that can compact conversations itself is asked for the new
    history, in one of two ways: by an endpoint of its own, or by an ordinary
    request whose answer holds the compaction as an item.  Before it is asked,
    the newest items of the agent are dropped from a copy of the history until
    the request fits into the window; what it answers is cleaned and installed
    like the result of any other compaction.

    The tools that are offered and the answers of the provider are parameters. *)
From S2P Require Import Prelude RustStr MachineInt Truncate History HistoryProofs Compaction Rollout RolloutProofs Session SessionProofs.

#[local] Unset Default Proof Using.

(** What is asked of other services: the tools for a prompt ([built_tools]),
    the endpoint that compacts, and the stream that answers a request. *)
Record RemoteServices {P R : Type} := mkServices {
  Tools : Type;
  built_tools : TurnConfig R → list (ResponseItem P) → Res CodexErr Tools;
  compact_endpoint : TurnConfig R → list (ResponseItem P) → Tools → Res CodexErr (list (ResponseItem P));
  compaction_stream : TurnConfig R → list (ResponseItem P) → Tools → Res CodexErr (Stream P)
}.
Arguments RemoteServices : clear implicits.
Arguments mkServices {P R}.
Arguments Tools {P R}.
Arguments built_tools {P R}.
Arguments compact_endpoint {P R}.
Arguments compaction_stream {P R}.

Section remote.
Context {P R : Type} (debug_assertions : bool).
Context (hook_prompt_text standard_contextual_text : str → bool).
Context (persistence_mode : EventPersistenceMode).
Context (append_fails : list (RolloutItem P R) → list (RolloutItem P R) → bool).
Context (estimated_tokens : ContextManager P (TurnContextItem R) → Z).
Context (build_initial_context : TurnConfig R → Session P R → list (ResponseItem P)).
Context (services : RemoteServices P R).

Local Abbreviation session := (Session P R).
Local Abbreviation item_t := (ResponseItem P).
Local Abbreviation eff := (Eff (Session P R) CodexErr).
Local Abbreviation send := (send_event_raw persistence_mode append_fails).
Implicit Types (s : session) (tc : TurnConfig R).

(** The history to be compacted, as it is sent. *)
Definition compaction_input tc s : Res CodexErr (list item_t) :=
  '(h, _) ← infallible (trim_function_call_history_to_fit_context_window estimated_tokens (model_window tc) (history s));
  infallible (for_prompt debug_assertions (input_modalities tc) h).

(** [ModelClient::compact_conversation_history]; an empty history needs no
    request. *)
Definition compact_conversation_history tc (input : list item_t) (tools : Tools services)
    : Res CodexErr (list item_t) :=
  if decide (input = []) then Ok [] else compact_endpoint services tc input tools.

Definition run_remote_compaction_request_v2 tc (input : list item_t) (tools : Tools services)
    : Res CodexErr item_t :=
  stream ← compaction_stream services tc input tools;
  collect_context_compaction_output stream.

(** What the provider makes of the history: the first way, and the second. *)
Definition compacted_by_endpoint tc (prompt_input : list item_t) : Res CodexErr (list item_t) :=
  tools ← built_tools services tc prompt_input;
  compact_conversation_history tc prompt_input tools.

Definition compacted_by_request tc (prompt_input : list item_t) : Res CodexErr (list item_t) :=
  tools ← built_tools services tc prompt_input;
  compaction_output ← run_remote_compaction_request_v2 tc (prompt_input ++ [ContextCompaction None]) tools;
  Ok (build_v2_compacted_history prompt_input compaction_output).

(** [run_remote_compact_task_inner_impl] of both files, which only differ in
    what the provider is asked. *)
Definition run_remote_compact_task_inner_impl (compacted : list item_t → Res CodexErr (list item_t)) tc
    (injection : InitialContextInjection) : eff unit :=
  _ ← modify (send (OtherEvent None));
  prompt_input ← reads (compaction_input tc);
  compacted_history ← lift (compacted prompt_input);
  new_history ← reads (λ s, infallible (process_compacted_history hook_prompt_text standard_contextual_text
                               (build_initial_context tc s) compacted_history injection));
  modify (install_new_history persistence_mode append_fails estimated_tokens tc injection new_history []).

Definition remote_error (err : CodexErr) : str := lit "Error running remote compact task: " ++ error_text err.

Definition run_remote_compact_task_inner (compacted : list item_t → Res CodexErr (list item_t)) tc
    (injection : InitialContextInjection) : eff unit :=
  λ s,
    match run_remote_compact_task_inner_impl compacted tc injection s with
    | (s, Err err) => (_ ← modify (send (ErrorEvent (remote_error err))); lift (Err err)) s
    | r => r
    end.

Definition run_inline_remote_auto_compact_task tc (injection : InitialContextInjection) : eff unit :=
  run_remote_compact_task_inner (compacted_by_endpoint tc) tc injection.
Definition run_inline_remote_auto_compact_task_v2 tc (injection : InitialContextInjection) : eff unit :=
  run_remote_compact_task_inner (compacted_by_request tc) tc injection.

(** [run_remote_compact_task] of each file. *)
Definition run_remote_compact_task tc : eff unit :=
  _ ← modify (send (TurnStarted (sub_id tc)));
  run_remote_compact_task_inner (compacted_by_endpoint tc) tc DoNotInject.
Definition run_remote_compact_task_v2 tc : eff unit :=
  _ ← modify (send (TurnStarted (sub_id tc)));
  run_remote_compact_task_inner (compacted_by_request tc) tc DoNotInject.
End remote.

(** ** Making room *)

Section room.
Context {P T : Type} (estimated_tokens : ContextManager P T → Z).
Implicit Types (h : ContextManager P T) (l : list (ResponseItem P)).

(** What neither the program nor a tool has written, and is no call. *)
Definition is_conversation (item : ResponseItem P) : bool :=
  negb (is_codex_generated_item item) && bool_decide (call_key item = None).

(** Nothing more can or need be dropped. *)
Definition settled (context_window : Z) h : Prop :=
  (estimated_tokens h <= context_window)%Z ∨
  (∀ item, last (items h) = Some item → is_codex_generated_item item = false).

Lemma output_is_generated (item : ResponseItem P) : output_key item ≠ None → is_codex_generated_item item = true.
Proof. by destruct item. Qed.

Lemma counterpart_left_out (removed x : ResponseItem P) : counterpart removed x → is_conversation x = false.
Proof.
  unfold counterpart, is_conversation. intros H.
  assert (Hk : output_key x ≠ None ∨ call_key x ≠ None)
    by (destruct (call_key removed); [left; by rewrite H|]; destruct (output_key removed); [right; by rewrite H|done]).
  destruct Hk as [Hk|Hk]; [by rewrite output_is_generated|]. rewrite bool_decide_eq_false_2 by done. by rewrite andb_false_r.
Qed.

Lemma removes_keeps removed l l' :
  removes (counterpart removed) l l' → List.filter is_conversation l' = List.filter is_conversation l.
Proof.
  intros [(l1 & x & l2 & -> & Hx & ->)|[-> _]]; [|done]. rewrite !List.filter_app. simpl.
  by rewrite (counterpart_left_out removed).
Qed.

Lemma trimmed_loop fuel context_window n h :
  (length (items h) ≤ fuel)%nat →
  ∃ h' n', trim_loop estimated_tokens fuel context_window n h = Ok (h', n') ∧ settled context_window h' ∧
    items h' `sublist_of` items h ∧ List.filter is_conversation (items h') = List.filter is_conversation (items h).
Proof.
  revert n h. induction fuel as [|fuel IH]; intros n h Hf; cbn [trim_loop];
    (destruct (Z.ltb_spec context_window (estimated_tokens h)) as [_|Hle];
      [|exists h, n; split_and!; [done|by left|done|done]]); simpl negb; cbv iota.
  - destruct (items h) as [|x l] eqn:E; [|simpl in Hf; lia].
    exists h, n. simpl. rewrite E. split_and!; [done|right; by rewrite E|done|done].
  - destruct (last (items h)) as [x|] eqn:E; [|exists h, n; split_and!; [done|right; by rewrite E|done|done]].
    destruct (is_codex_generated_item x) eqn:Ex; simpl;
      [|exists h, n; split_and!; [done|right; intros y; rewrite E; by intros [= <-]|done|done]].
    pose proof (last_snoc_take _ _ E) as Hi. fold (vec_pop (items h)) in Hi.
    unfold remove_last_item. rewrite E.
    destruct (remove_corresponding_spec (vec_pop (items h)) x) as (l & El & Hr). rewrite El. cbn [mbind Res_bind negb].
    pose proof (remove_corresponding_sublist _ _ _ El) as Hsub.
    destruct (IH (n + 1)%nat (bump_version (with_items l h))) as (h' & n' & -> & Hset & Hs & Hk).
    { apply sublist_length in Hsub. apply (f_equal length) in Hi. rewrite length_app in Hi. simpl in *. lia. }
    exists h', n'. simpl in Hs, Hk. split_and!; [done|done|..].
    + rewrite Hi. etrans; [exact Hs|]. by apply sublist_inserts_r.
    + rewrite Hk, Hi, List.filter_app, (removes_keeps _ _ _ Hr). simpl. unfold is_conversation at 3. rewrite Ex. simpl. by rewrite app_nil_r.
Qed.

(** Making room ends, and drops only what the program and tools have written,
    together with the calls it answers: what the user and the model said is
    all sent.  It stops only when the history fits or ends with something
    that was said. *)
Theorem trimming_keeps_conversation window h :
  ∃ h' n, trim_function_call_history_to_fit_context_window estimated_tokens window h = Ok (h', n) ∧
    items h' `sublist_of` items h ∧ List.filter is_conversation (items h') = List.filter is_conversation (items h) ∧
    ∀ context_window, window = Some context_window → settled context_window h'.
Proof.
  unfold trim_function_call_history_to_fit_context_window. destruct window as [w|]; [|by exists h, 0%nat].
  destruct (trimmed_loop (length (items h)) w 0 h) as (h' & n & -> & Hs & Hsub & Hk); [done|].
  exists h', n. split_and!; [done..|]. by intros ? [= <-].
Qed.
End room.

(** ** What a compaction by the provider does *)

Section outcome.
Context {P R : Type}.
Context (hook_prompt_text standard_contextual_text : str → bool).
Context (persistence_mode : EventPersistenceMode).
Context (append_fails : list (RolloutItem P R) → list (RolloutItem P R) → bool).
Context (estimated_tokens : ContextManager P (TurnContextItem R) → Z).
Context (build_initial_context : TurnConfig R → Session P R → list (ResponseItem P)).
Context (services : RemoteServices P R).
Implicit Types (s : Session P R) (tc : TurnConfig R).

Local Abbreviation send := (send_event_raw persistence_mode append_fails).
Local Abbreviation input_of := (compaction_input false estimated_tokens).
Local Abbreviation install := (install_new_history persistence_mode append_fails estimated_tokens).
Local Abbreviation run_with :=
  (run_remote_compact_task_inner false hook_prompt_text standard_contextual_text persistence_mode append_fails
     estimated_tokens build_initial_context).

(** The services do not panic. *)
Record proper_services : Prop := {
  proper_tools tc input : no_panic (built_tools services tc input);
  proper_endpoint tc input tools : no_panic (compact_endpoint services tc input tools);
  proper_stream tc input tools :
    match compaction_stream services tc input tools with
    | Ok stream => Forall no_panic stream
    | r => no_panic r
    end
}.

(** The session while the provider works. *)
Definition compacting s : Session P R := send (OtherEvent None) s.
Definition context_for tc (injection : InitialContextInjection) s : list (ResponseItem P) :=
  match injection with BeforeLastUserMessage => build_initial_context tc (compacting s) | DoNotInject => [] end.

Lemma input_total tc s : ∃ prompt, input_of tc s = Ok prompt.
Proof.
  unfold compaction_input.
  destruct (trimming_keeps_conversation estimated_tokens (model_window tc) (history s)) as (h & n & -> & _).
  unfold infallible. cbn [map_err mbind Res_bind].
  destruct (prompt_release (input_modalities tc) h) as (l & -> & _). by eexists.
Qed.
Lemma input_same tc s : input_of tc (compacting s) = input_of tc s.
Proof.
  unfold compaction_input, compacting.
  by rewrite (proj1 (send_same (mode:=persistence_mode) (append_fails:=append_fails) (OtherEvent None) s)).
Qed.

(** A compaction, by what the provider made of its input. *)
Lemma run_with_eq compacted tc injection s prompt :
  input_of tc s = Ok prompt →
  match compacted prompt with
  | Ok output => ∃ before after,
      placed hook_prompt_text standard_contextual_text
        (List.filter (should_keep_compacted_history_item hook_prompt_text standard_contextual_text) output) before after ∧
      run_with compacted tc injection s =
        (install tc injection (before ++ context_for tc injection s ++ after) [] (compacting s), Ok tt)
  | Err err => run_with compacted tc injection s = (send (ErrorEvent (remote_error err)) (compacting s), Err err)
  | Panic p => run_with compacted tc injection s = (compacting s, Panic p)
  end.
Proof.
  intros Ep. rewrite <-input_same in Ep.
  set (result := compacted prompt). assert (Er : compacted prompt = result) by done. clearbody result.
  destruct result as [output|err|p];
    [destruct (initial_context_is_placed hook_prompt_text standard_contextual_text
       (List.filter (should_keep_compacted_history_item hook_prompt_text standard_contextual_text) output)
       (context_for tc injection s)) as (before & after & E & Hp); exists before, after; split; [done|]|..];
    unfold run_remote_compact_task_inner, run_remote_compact_task_inner_impl, mbind at 1, Eff_bind at 1, modify at 1;
    fold (compacting s); unfold mbind at 1, Eff_bind at 1, reads at 1; rewrite Ep;
    unfold mbind at 1, Eff_bind at 1, lift at 1; rewrite Er; [|done..].
  unfold mbind at 1, Eff_bind at 1, reads at 1, process_compacted_history.
  fold (context_for tc injection s). by rewrite E.
Qed.

Lemma collect_loop_proper stream n k out :
  Forall no_panic stream → (k = 0%N ↔ out = None) →
  match collect_loop (P:=P) stream n k out with
  | Ok (_, _, k, out) => k = 0%N ↔ out = None
  | r => no_panic r
  end.
Proof.
  intros Hp. revert n k out. induction Hp as [|ev stream Hev Hp IH]; intros n k out Hk; [done|]. cbn [collect_loop].
  destruct ev as [ev|e|p]; [|done..]. cbn [mbind Res_bind].
  destruct ev as [item| | | |]; [|done|by apply IH..].
  destruct item as [| | | | | | | | | | | |[c|]|]; try (by apply IH); [|done].
  apply IH. split; [lia|]. by destruct out.
Qed.
Lemma collect_proper stream : Forall no_panic stream → no_panic (collect_context_compaction_output (P:=P) stream).
Proof.
  intros Hp. unfold collect_context_compaction_output.
  pose proof (collect_loop_proper stream 0 0 None Hp) as H.
  destruct (collect_loop stream 0 0 None) as [[[[[] n] k] out]| |]; [|done| |by apply H]; [|done].
  cbn [mbind Res_bind negb]. case_bool_decide as Hk; [done|]. destruct out; [done|].
  assert (k = 0%N) by (apply H; [split|]; done). lia.
Qed.

(** The two ways. *)
Definition way (v2 : bool) tc : list (ResponseItem P) → Res CodexErr (list (ResponseItem P)) :=
  if v2 then compacted_by_request services tc else compacted_by_endpoint services tc.

Lemma way_proper v2 tc prompt : proper_services → no_panic (way v2 tc prompt).
Proof.
  intros [Ht He Hs]. destruct v2; simpl; unfold compacted_by_request, compacted_by_endpoint;
    pose proof (Ht tc prompt) as H; destruct (built_tools services tc prompt) as [tools|e|p]; try done; cbn [mbind Res_bind].
  - unfold run_remote_compaction_request_v2. specialize (Hs tc (prompt ++ [ContextCompaction None]) tools).
    destruct (compaction_stream _ _ _ _) as [stream|e|p]; [|done..]. cbn [mbind Res_bind].
    pose proof (collect_proper stream Hs) as Hc. by destruct (collect_context_compaction_output stream).
  - unfold compact_conversation_history. by destruct (decide _).
Qed.

Lemma installed_same tc injection l message s :
  let s' := install tc injection l message s in
  items (history s') = l ∧ reference_context_item (history s') = injected tc injection ∧
  session_settings s' = session_settings s ∧ active_turn s' = active_turn s.
Proof.
  cbv zeta. unfold install_new_history, recompute_token_usage, send_token_count_event.
  repeat match goal with |- context [send ?ev ?s0] =>
    destruct (send_same (mode:=persistence_mode) (append_fails:=append_fails) ev s0) as (-> & -> & ->) end.
  unfold replace_compacted_history. destruct injection; cbn -[persist_rollout_items];
    repeat match goal with |- context [persist_rollout_items _ _ ?new ?s0] =>
      destruct (persist_same (mode:=persistence_mode) (append_fails:=append_fails) new s0) as (-> & -> & ->) end; done.
Qed.

(** C19. A compaction by the provider succeeds or leaves the thread as it was.  Its
    input can always be made.  If the provider answers, the new history is what
    is kept of the answer, with the context of the turn put back where it
    belongs; if it fails in any way, the error is reported and returned,
    neither history nor settings have changed, and the file has at most
    gained error events (extended persistence keeps the one that is sent). *)
Theorem remote_compaction_outcome v2 tc injection s :
  proper_services →
  ∃ prompt, input_of tc s = Ok prompt ∧
    match way v2 tc prompt with
    | Ok output => ∃ s' before after, run_with (way v2 tc) tc injection s = (s', Ok tt) ∧
        placed hook_prompt_text standard_contextual_text
          (List.filter (should_keep_compacted_history_item hook_prompt_text standard_contextual_text) output) before after ∧
        items (history s') = before ++ context_for tc injection s ++ after ∧
        reference_context_item (history s') = injected tc injection ∧
        session_settings s' = session_settings s ∧ active_turn s' = active_turn s
    | Err err => ∃ s', run_with (way v2 tc) tc injection s = (s', Err err) ∧
        history s' = history s ∧ session_settings s' = session_settings s ∧ active_turn s' = active_turn s ∧
        only_errors s s' ∧ sent s' = sent s ++ [OtherEvent None; ErrorEvent (remote_error err)]
    | Panic _ => False
    end.
Proof.
  intros Hp. destruct (input_total tc s) as [prompt Ep]. exists prompt. split; [done|].
  pose proof (run_with_eq (way v2 tc) tc injection s prompt Ep) as Hrun.
  destruct (send_same (mode:=persistence_mode) (append_fails:=append_fails) (OtherEvent None) s) as (Eh & Es & Ea).
  pose proof (way_proper v2 tc prompt Hp) as Hw. destruct (way v2 tc prompt) as [output|err|p]; [| |done].
  - destruct Hrun as (before & after & Hplaced & Erun). eexists _, before, after. split; [exact Erun|].
    set (l := before ++ _). destruct (installed_same tc injection l [] (compacting s)) as (Hi & Hr & Hs & Ha).
    split_and!; [done|done|done|by rewrite Hs|by rewrite Ha].
  - eexists. split; [exact Hrun|].
    destruct (send_same (mode:=persistence_mode) (append_fails:=append_fails) (ErrorEvent (remote_error err)) (compacting s))
      as (-> & -> & ->).
    split_and!; [done..| |].
    + apply (only_errors_trans _ (compacting s)); apply only_errors_send; [by right|left; by eexists].
    + unfold compacting, send_event_raw. simpl.
      assert (Hsent : ∀ new s0, sent (persist_rollout_items persistence_mode append_fails new s0) = sent s0).
      { intros new s0. unfold persist_rollout_items. destruct (live_thread s0); [|done]. by destruct (append_fails _ _). }
      rewrite Hsent. simpl. by rewrite Hsent, <-app_assoc.
Qed.
End outcome.

(** ** Examples *)

(** A provider that compacts by a request, offered no tools. *)
Definition demo_services : RemoteServices unit unit :=
  mkServices unit (λ _ _, Ok tt) (λ _ _ _, Err (OtherErr (lit "no endpoint")))
    (λ _ _ _, Ok [Ok RateLimits; Ok (OutputItemDone (ContextCompaction (Some (lit "secret")))); Ok (Completed None)]).

Lemma demo_services_proper : proper_services demo_services.
Proof. split; [done..|]. intros. by repeat constructor. Qed.

Local Abbreviation demo_remote v2 :=
  (run_remote_compact_task_inner false no_text no_text Limited no_failure no_estimate demo_context (way demo_services v2 demo_config)
     demo_config BeforeLastUserMessage).

Lemma remote_compaction_outcome_witness :
  let s := demo_session [demo_said "user" "first"; demo_said "assistant" "answer"] [] in
  (∃ s', demo_remote true s = (s', Ok tt) ∧
     items (history s') = demo_context demo_config s ++ [demo_said "user" "first"; ContextCompaction (Some (lit "secret"))]) ∧
  (∃ s', demo_remote false s = (s', Err (OtherErr (lit "no endpoint"))) ∧ history s' = history s).
Proof.
  set (s := demo_session _ _).
  pose proof (λ v2, remote_compaction_outcome no_text no_text Limited no_failure no_estimate demo_context demo_services v2
    demo_config BeforeLastUserMessage s demo_services_proper) as H.
  split.
  - destruct (H true) as (prompt & Ep & Hr). vm_compute in Ep. injection Ep as <-.
    revert Hr. vm_compute (way _ _ _ _). intros (s' & before & after & E & _). exists s'. split; [exact E|].
    apply (f_equal fst) in E. cbn [fst] in E. rewrite <-E. by vm_compute.
  - destruct (H false) as (prompt & Ep & Hr). vm_compute in Ep. injection Ep as <-.
    revert Hr. vm_compute (way _ _ _ _). intros (s' & E & Eh & _). by exists s'.
Defined.
