(* ===== verification/SessionTurns.v ===== *)
(** * Turns of a session: [core/src/session/turn.rs], [core/src/tasks/mod.rs]

    What the turns of a session do to its history, its settings and its file:
    a regular turn starts, compacts when the history has grown too long,
    records the changes of its context and the prompt of the user, then records
    what the model and the tools produce, and is finished or aborted; a
    compaction that the user asks for is a turn of its own.

    What hooks, skills and plugins inject are lists of items; sampling itself
    only shows in the items and events that it records. *)
From S2P Require Import Prelude RustStr MachineInt Truncate History Compaction Rollout Session RemoteCompaction.

Section turns.
Context {P R : Type} (debug_assertions : bool).
Context (hook_prompt_text standard_contextual_text : str → bool) (inter_agent : str → option bool).
Context (persistence_mode : EventPersistenceMode).
Context (append_fails : list (RolloutItem P R) → list (RolloutItem P R) → bool).
Context (estimated_tokens : ContextManager P (TurnContextItem R) → Z).
Context (build_initial_context : TurnConfig R → Session P R → list (ResponseItem P)).
(** The context differences ([context_manager/updates.rs]) between the baseline
    and the context of the turn. *)
Context (build_settings_update_items : TurnContextItem R → option PreviousTurnSettings → TurnConfig R →
  list (ResponseItem P)).
(** [TurnContext::with_model] *)
Context (with_model : TurnConfig R → str → TurnConfig R).
(** The parameters of the estimates of tokens in [History]. *)
Context (serialized_len : ResponseItem P → option N) (image_dimensions : str → option (N * N)).
Context (answer : list (list (ResponseItem P)) → Res CodexErr (Stream P)).
(** What a provider with compaction of its own answers. *)
Context (services : RemoteServices P R).

Local Abbreviation session := (Session P R).
Local Abbreviation item_t := (ResponseItem P).
Local Abbreviation eff := (Eff (Session P R) CodexErr).
Local Abbreviation send := (send_event_raw persistence_mode append_fails).
Local Abbreviation record := (record_conversation_items persistence_mode append_fails).
Implicit Types (s : session) (tc previous_tc : TurnConfig R).

(** ** Recording the context and the prompt *)

Definition record_context_updates_and_set_reference_context_item tc : eff unit :=
  context_items ← reads (λ s, Ok (match reference_context_item (history s) with
    | None => build_initial_context tc s
    | Some reference => build_settings_update_items reference (session_settings s) tc
    end));
  let turn_context_item := to_turn_context_item tc in
  _ ← (if decide (context_items = []) then mret () else record context_items tc : eff unit);
  _ ← modify (persist_rollout_items persistence_mode append_fails [TurnContext turn_context_item]);
  modify (λ s, set_history (set_reference_context_item (Some turn_context_item) (history s)) s).

(** The item of a message is started and completed, which clients without
    items see as [UserMessage]. *)
Definition record_user_prompt_and_emit_turn_item (response_item : item_t) tc : eff unit :=
  _ ← record [response_item] tc;
  _ ← modify (send (OtherEvent None));
  _ ← modify (send (OtherEvent None));
  modify (send UserMessageEvent).

(** [record_additional_contexts], and what is recorded when there is any. *)
Definition record_additional_contexts (developer_messages : list item_t) tc : eff unit :=
  if decide (developer_messages = []) then mret () else record developer_messages tc.

(** ** Compaction before a turn *)

Definition total_usage_tokens s : Res CodexErr Z :=
  infallible (get_total_token_usage serialized_len image_dimensions
    (contextual_user_text hook_prompt_text standard_contextual_text) (inter_agent_json inter_agent)
    (server_reasoning_included s) (history s)).

(** It returns whether the connection to the model is to be reset. *)
Definition run_auto_compact tc (injection : InitialContextInjection) : eff bool :=
  if supports_remote_compaction tc then
    if remote_compaction_v2 tc then
      _ ← run_inline_remote_auto_compact_task_v2 debug_assertions hook_prompt_text standard_contextual_text
            persistence_mode append_fails estimated_tokens build_initial_context services tc injection;
      mret false
    else
      _ ← run_inline_remote_auto_compact_task debug_assertions hook_prompt_text standard_contextual_text
            persistence_mode append_fails estimated_tokens build_initial_context services tc injection;
      mret true
  else
    _ ← run_inline_auto_compact_task debug_assertions hook_prompt_text standard_contextual_text persistence_mode
          append_fails estimated_tokens build_initial_context answer tc injection;
    mret true.

Definition should_compact_for_previous_model previous_tc tc (total : Z) : bool :=
  match model_window previous_tc, model_window tc with
  | Some old_context_window, Some new_context_window =>
      (default i64_max (auto_compact_token_limit tc) <? total)%Z &&
      bool_decide (model_slug previous_tc ≠ model_slug tc) && (new_context_window <? old_context_window)%Z
  | _, _ => false
  end.

Definition maybe_run_previous_model_inline_compact tc (total : Z) : eff bool :=
  previous ← reads (λ s, Ok (session_settings s));
  match previous with
  | None => mret false
  | Some previous_turn_settings =>
      let previous_tc := with_model tc (settings_model previous_turn_settings) in
      if should_compact_for_previous_model previous_tc tc total then
        _ ← run_auto_compact previous_tc DoNotInject;
        mret true
      else mret false
  end.

(** It returns whether the connection to the model is to be reset. *)
Definition run_pre_sampling_compact tc : eff bool :=
  before ← reads total_usage_tokens;
  pre_sampling_compacted ← maybe_run_previous_model_inline_compact tc before;
  total ← reads total_usage_tokens;
  if (default i64_max (auto_compact_token_limit tc) <=? total)%Z then
    reset_client_session ← run_auto_compact tc DoNotInject;
    mret (pre_sampling_compacted || reset_client_session)
  else mret pre_sampling_compacted.

(** ** A regular turn *)

(** What is injected into a turn: by the hooks of the session's start, by the
    hooks of the prompt, by skills and by plugins. *)
Record Injections := mkInjections {
  session_start_contexts : list item_t;
  additional_contexts : list item_t;
  skill_items : list item_t;
  plugin_items : list item_t
}.

(** [start_task], [RegularTask::run] and [run_turn] up to the loop of sampling
    requests, for a prompt that no hook stops. *)
Definition start_user_turn tc (response_item : item_t) (injections : Injections) : eff unit :=
  _ ← modify (set_active_turn true);
  _ ← modify (send (TurnStarted (sub_id tc)));
  _ ← modify (set_server_reasoning_included false);
  _ ← run_pre_sampling_compact tc;
  _ ← record_context_updates_and_set_reference_context_item tc;
  _ ← record_additional_contexts (session_start_contexts injections) tc;
  _ ← record_user_prompt_and_emit_turn_item response_item tc;
  _ ← record_additional_contexts (additional_contexts injections) tc;
  _ ← modify (set_previous_turn_settings (Some (mkSettings (model_slug tc) (Some (realtime_active tc)))));
  _ ← record_additional_contexts (skill_items injections) tc;
  record_additional_contexts (plugin_items injections) tc.

(** The answer to a request that the model refused because of an image: whether
    the turn goes on. *)
Definition replace_invalid_image : eff bool :=
  _ ← lift (infallible (error_or_panic debug_assertions));
  replaced ← reads (λ s, Ok (replace_last_turn_images (contextual_user_text hook_prompt_text standard_contextual_text)
    (inter_agent_json inter_agent) (lit "Invalid image") (history s)));
  _ ← modify (set_history replaced.1);
  if replaced.2 : bool then mret true
  else
    _ ← modify (send (ErrorEvent (lit "Invalid image in your last message. Please remove it and try again.")));
    mret false.

(** The end of [on_task_finished]: the turn is complete. *)
Definition finish_turn tc s : session := set_active_turn false (send (TurnComplete (sub_id tc)) s).

(** [take_active_turn] and the end of [handle_task_abort]; [marker] is what
    [interrupted_turn_history_marker] gives for an interrupted turn. *)
Definition abort_turn tc (marker : option item_t) : eff unit :=
  _ ← modify (set_active_turn false);
  _ ← match marker with
      | Some marker =>
          (_ ← record_into_history [marker] tc;
           modify (persist_rollout_items persistence_mode append_fails [RolloutResponseItem marker])) : eff unit
      | None => mret ()
      end;
  modify (send (TurnAborted (Some (sub_id tc)))).

(** The compaction that [CompactTask::run] chooses. *)
Definition run_compact_by_provider tc (prompt : str) : eff unit :=
  if supports_remote_compaction tc then
    if remote_compaction_v2 tc then
      run_remote_compact_task_v2 debug_assertions hook_prompt_text standard_contextual_text persistence_mode append_fails
        estimated_tokens build_initial_context services tc
    else
      run_remote_compact_task debug_assertions hook_prompt_text standard_contextual_text persistence_mode append_fails
        estimated_tokens build_initial_context services tc
  else
    run_compact_task debug_assertions hook_prompt_text standard_contextual_text persistence_mode append_fails
      estimated_tokens build_initial_context answer tc prompt.

(** [CompactTask::run] in its turn, the result of the compaction given. *)
Definition compact_turn tc (prompt : str) : eff unit :=
  _ ← modify (set_active_turn true);
  ((λ s : session,
    match run_compact_by_provider tc prompt s with
    | (s, Panic p) => (s, Panic p)
    | (s, r) => (finish_turn tc s, r)
    end) : eff unit).
End turns.
Arguments Injections : clear implicits.
Arguments mkInjections {P}.
