(* ===== verification/SessionSync.v ===== *)
(** * The memory of a session and its file agree

    Whatever turns, compactions, interruptions, rollbacks and resumptions a
    thread goes through, what is rebuilt from its file is what the session has
    in memory: its history, the settings of its last turn and the baseline of
    its context. *)
From S2P Require Import Prelude RustStr MachineInt Truncate History HistoryProofs Compaction Rollout RolloutProofs Session SessionProofs RemoteCompaction SessionTurns.

#[local] Unset Default Proof Using.

(** ** Items without effect on the replay *)

Section items.
Context {P R : Type}.
Implicit Types (item : RolloutItem P R) (t : Turn P R) (new : list (RolloutItem P R)).

(** Markers that say nothing about turns. *)
Definition note item : Prop := wf_entry (ANote item).

Definition inert item : bool :=
  match item with
  | RolloutResponseItem _ | Compacted _ | RolloutEvent (ThreadRolledBack _) => false
  | _ => true
  end.

Lemma note_inert item : note item → inert item = true.
Proof. by destruct item as [|x|c|ctx|[i|i|i| |n| | | | |]]. Qed.

Lemma replay_inert f g ia policy acc new :
  forallb inert new = true → replay f g ia policy acc new = Ok acc.
Proof.
  revert acc. induction new as [|item new IH]; intros [h saw]; [done|]. simpl.
  rewrite andb_true_iff. intros [Hi Hn]. destruct item as [|x|c|ctx|[i|i|i| |n| | | | |]]; try done; by apply IH.
Qed.

Lemma replay_records f g ia policy h saw (l : list (ResponseItem P)) :
  replay f g ia policy (h, saw) (map RolloutResponseItem l : list (RolloutItem P R)) =
    (h ← record_items l policy h; Ok (h, saw)).
Proof.
  revert h. induction l as [|x l IH]; intros h; [done|]. cbn [map replay].
  unfold replay_item at 1. change (x :: l) with ([x] ++ l). rewrite record_items_app.
  destruct (record_items [x] policy h) as [h1| |]; [|done..]. cbn [mbind Res_bind]. apply IH.
Qed.

(** Items without a context and without a compaction. *)
Definition context_free item : Prop := item_settings item = None ∧ item_reference item = None.

Lemma note_context_free item : note item → context_free item.
Proof. by destruct item as [|x|c|ctx|[i|i|i| |n| | | | |]]. Qed.
Lemma note_in_turn id item : note item → in_turn id item.
Proof. by destruct item as [|x|c|ctx|[i|i|i| |n| | | | |]]. Qed.
Lemma note_replayable item : note item → replayable item.
Proof. by destruct item as [|x|c|ctx|[i|i|i| |n| | | | |]]. Qed.
Lemma notes_inert new : Forall note new → forallb inert new = true.
Proof. induction 1 as [|x l Hx _ IH]; [done|]. simpl. by rewrite note_inert. Qed.

Lemma omap_nil {A B} (f : A → option B) l : Forall (λ x, f x = None) l → omap f l = [].
Proof. induction 1 as [|x l Hx _ IH]; [done|]. simpl. by rewrite Hx. Qed.

Lemma head_app_option {A} (l l' : list A) : head (l ++ l') = option_or (head l) (head l').
Proof. by destruct l. Qed.
Lemma last_app_option {A} (l l' : list A) : last (l ++ l') = option_or (last l') (last l).
Proof. rewrite last_app. by destruct (last l'). Qed.

(** What a turn establishes, as it grows. *)
Lemma longer_settings t new :
  turn_settings (longer t new) = option_or (turn_settings t) (head (omap item_settings new)).
Proof. unfold turn_settings. cbn [t_body longer]. by rewrite omap_app, head_app_option. Qed.
Lemma longer_reference t new :
  turn_reference (longer t new) = default (turn_reference t) (last (omap item_reference new)).
Proof.
  unfold turn_reference. cbn [t_body longer]. rewrite omap_app, last_app_option. by destruct (last (omap _ new)).
Qed.
Lemma longer_free t new : Forall context_free new →
  turn_settings (longer t new) = turn_settings t ∧ turn_reference (longer t new) = turn_reference t.
Proof.
  intros Hn. rewrite longer_settings, longer_reference.
  rewrite !omap_nil by (eapply Forall_impl; [exact Hn|intros x Hx; apply Hx]). by destruct (turn_settings t).
Qed.
Lemma longer_longer t new new' : longer (longer t new) new' = longer t (new ++ new').
Proof. unfold longer. simpl. by rewrite app_assoc. Qed.
Lemma longer_base t new :
  turn_base (longer t new) = option_or (last (omap item_base new)) (turn_base t).
Proof. unfold turn_base. cbn [t_body longer]. by rewrite omap_app, last_app_option. Qed.
End items.

(** ** Effects that only note *)

Section noting.
Context {P R : Type}.
Implicit Types (s : Session P R) (tc : TurnConfig R).

(** The file has grown by notes; the history may have changed. *)
Definition noted s s' : Prop :=
  session_settings s' = session_settings s ∧ active_turn s' = active_turn s ∧
  ∀ stored, live_thread s = Some stored →
    ∃ notes, live_thread s' = Some (stored ++ notes) ∧ Forall note notes.

Lemma noted_same s s' :
  session_settings s' = session_settings s → active_turn s' = active_turn s → live_thread s' = live_thread s →
  noted s s'.
Proof.
  intros E1 E2 E3. split_and!; [done..|]. intros stored Hs. exists []. rewrite app_nil_r, E3. split; [done|constructor].
Qed.
Lemma noted_refl s : noted s s.
Proof. by apply noted_same. Qed.
Lemma noted_trans s s' s'' : noted s s' → noted s' s'' → noted s s''.
Proof.
  intros (E1 & E2 & H1) (E3 & E4 & H2). split_and!; [congruence..|]. intros stored Hs.
  destruct (H1 _ Hs) as (l & Hl & Hn). destruct (H2 _ Hl) as (l' & Hl' & Hn'). exists (l ++ l').
  rewrite app_assoc. split; [done|]. by apply Forall_app.
Qed.

Definition quiet {A} (m : Eff (Session P R) CodexErr A) : Prop := ∀ s, noted s (m s).1.

Lemma quiet_bind {A B} (m : Eff (Session P R) CodexErr A) (f : A → Eff (Session P R) CodexErr B) :
  quiet m → (∀ a, quiet (f a)) → quiet (m ≫= f).
Proof.
  intros Hm Hf s. specialize (Hm s). unfold mbind, Eff_bind. destruct (m s) as [s' [a|e|p]]; [|done..].
  by apply (noted_trans _ s'), Hf.
Qed.
Lemma quiet_modify f : (∀ s, noted s (f s)) → quiet (modify f).
Proof. intros Hf s. apply Hf. Qed.
Lemma quiet_lift {A} (r : Res CodexErr A) : quiet (lift r).
Proof. intros s. apply noted_refl. Qed.
Lemma quiet_ok {A} (a : A) : quiet (mret a).
Proof. intros s. apply noted_refl. Qed.
Lemma quiet_history f : quiet (on_history (P:=P) (R:=R) f).
Proof. apply quiet_bind; [intros s; apply noted_refl|]. intros h. apply quiet_modify. intros s. by apply noted_same. Qed.

Context (persistence_mode : EventPersistenceMode).
Context (append_fails : list (RolloutItem P R) → list (RolloutItem P R) → bool).
Context (appends_succeed : ∀ stored new, append_fails stored new = false).

Local Abbreviation send := (send_event_raw persistence_mode append_fails).
Local Abbreviation kept := (List.filter (λ item : RolloutItem P R, is_persisted_rollout_item item persistence_mode)).

Lemma kept_notes ev : note (RolloutEvent (P:=P) (R:=R) ev) → Forall note (kept [RolloutEvent ev]).
Proof. intros Hn. simpl. destruct (should_persist_event_msg ev persistence_mode); by repeat constructor. Qed.
Lemma noted_send ev s : note (RolloutEvent (P:=P) (R:=R) ev) → noted s (send ev s).
Proof.
  intros Hn. destruct (send_same (mode:=persistence_mode) (append_fails:=append_fails) ev s) as (_ & Es & Ea).
  split_and!; [done..|]. intros stored Hs. exists (kept [RolloutEvent ev]).
  split; [by apply send_live|by apply kept_notes].
Qed.

Lemma quiet_send ev : note (RolloutEvent (P:=P) (R:=R) ev) → quiet (modify (send ev)).
Proof. intros Hn. apply quiet_modify. intros s. by apply noted_send. Qed.

Lemma quiet_usage usage tc : quiet (update_token_usage_info false persistence_mode append_fails usage tc).
Proof.
  apply quiet_bind; [destruct usage; [apply quiet_history|apply quiet_ok]|].
  intros _. apply quiet_modify. intros s. by apply noted_send.
Qed.
Lemma quiet_full tc : quiet (set_total_tokens_full false persistence_mode append_fails tc).
Proof.
  apply quiet_bind; [destruct (model_window tc); [apply quiet_history|apply quiet_ok]|].
  intros _. apply quiet_modify. intros s. by apply noted_send.
Qed.
Lemma quiet_drain tc stream : quiet (drain_events false persistence_mode append_fails tc stream).
Proof.
  induction stream as [|ev stream IH]; [apply quiet_lift|]. cbn [drain_events].
  apply quiet_bind; [apply quiet_lift|]. intros [item|u|b| |]; [|apply quiet_usage|..|done].
  - apply quiet_bind; [apply quiet_history|done].
  - apply quiet_bind; [|done]. apply quiet_modify. intros s. by apply noted_same.
  - apply quiet_bind; [|done]. apply quiet_modify. intros s. by apply noted_send.
Qed.

Context (answer : list (list (ResponseItem P)) → Res CodexErr (Stream P)).

Lemma quiet_attempt tc prompts : quiet (drain_to_completed false persistence_mode append_fails answer tc prompts).
Proof. apply quiet_bind; [apply quiet_lift|]. intros. apply quiet_drain. Qed.

Lemma quiet_loop fuel tc h retries prompts :
  quiet (compact_loop false persistence_mode append_fails answer fuel tc h retries prompts).
Proof.
  revert h retries prompts. induction fuel as [|fuel IH]; intros h retries prompts; [apply quiet_lift|].
  cbn [compact_loop]. apply quiet_bind; [apply quiet_lift|]. intros l s.
  pose proof (quiet_attempt tc (prompts ++ [l]) s) as Ha.
  destruct (drain_to_completed _ _ _ _ tc (prompts ++ [l]) s) as [s' [[]|e|p]]; [done| |done]. simpl in Ha.
  assert (Hretry : quiet (if decide (retries < stream_max_retries tc)%nat then
        _ ← modify (send (StreamErrorEvent (reconnecting (retries + 1) (stream_max_retries tc))));
        compact_loop false persistence_mode append_fails answer fuel tc h (retries + 1) (prompts ++ [l])
      else _ ← modify (send (ErrorEvent (error_text e))); lift (Err e))).
  { destruct (decide _); (apply quiet_bind; [by apply quiet_send|]); intros _; [apply IH|apply quiet_lift]. }
  apply (noted_trans _ s'); [done|].
  destruct e; [apply noted_refl| |specialize (Hretry s'); by destruct (decide _)..].
  destruct (decide (1 < length l)%nat).
  - apply quiet_bind; [apply quiet_lift|]. intros. apply IH.
  - apply quiet_bind; [apply quiet_full|]. intros _. apply quiet_bind; [by apply quiet_send|]. intros _. apply quiet_lift.
Qed.
End noting.

(** ** What the file stands for *)

Section file.
Context {P R : Type}.
Context (hook_prompt_text standard_contextual_text : str → bool) (inter_agent : str → option bool).
Context (policy : TruncationPolicy).
Implicit Types (s : Session P R) (entries before : list (Entry P R)) (t : Turn P R) (new : list (RolloutItem P R)).

Local Abbreviation run := (replay (P:=P) (R:=R) hook_prompt_text standard_contextual_text inter_agent policy).
Local Abbreviation user_turn := (is_user_turn hook_prompt_text standard_contextual_text inter_agent).
Local Abbreviation user_item := (is_user_item (P:=P) (R:=R) hook_prompt_text standard_contextual_text inter_agent).
Local Abbreviation kept_checkpoint := (checkpoint_left (P:=P) (R:=R) hook_prompt_text standard_contextual_text inter_agent).
Local Abbreviation settings_of := (settings_left (P:=P) (R:=R) hook_prompt_text standard_contextual_text inter_agent).
Local Abbreviation baseline_of := (baseline_left (P:=P) (R:=R) hook_prompt_text standard_contextual_text inter_agent).
Local Abbreviation established_by := (established (P:=P) (R:=R) hook_prompt_text standard_contextual_text inter_agent).

(** The file is made of turns and the history is that of its replay. *)
Record in_file entries s : Prop := {
  file_live : live_thread s = Some (entries_items entries);
  file_wf : Forall wf_entry entries;
  file_replayable : Forall replayable (entries_items entries);
  file_history : ∃ h, run (new_history, false) (entries_items entries) = Ok (h, false) ∧ items h = items (history s);
  file_checkpoint : kept_checkpoint entries
}.

(** The settings and the baseline agree as well. *)
Definition in_step entries s : Prop :=
  in_file entries s ∧ session_settings s = settings_of entries ∧
  reference_context_item (history s) = baseline_of entries.

(** What is added to the file tells how the history has changed. *)
Definition tells new s s' : Prop :=
  ∀ h, items h = items (history s) → ∃ h', run (h, false) new = Ok (h', false) ∧ items h' = items (history s').

Lemma tells_inert new s s' :
  forallb inert new = true → items (history s') = items (history s) → tells new s s'.
Proof. intros Hn Hi h Hh. exists h. split; [by apply replay_inert|congruence]. Qed.

Lemma tells_records (l : list (ResponseItem P)) s s' h' :
  record_items l policy (history s) = Ok h' → items (history s') = items h' → tells (map RolloutResponseItem l) s s'.
Proof.
  intros Er Hi h Hh. destruct (record_items_only policy l _ _ _ Hh Er) as (a & Ea & Hia).
  exists a. rewrite replay_records, Ea. split; [done|congruence].
Qed.

Lemma history_grows entries new s s' :
  in_file entries s → tells new s s' →
  ∃ h', run (new_history, false) (entries_items entries ++ new) = Ok (h', false) ∧ items h' = items (history s').
Proof.
  intros Hf Ht. destruct (file_history _ _ Hf) as (h & Eh & Hh). destruct (Ht h Hh) as (h' & Eh' & Hh').
  exists h'. by rewrite run_rollout_app, Eh.
Qed.

Lemma checkpoint_longer before t new :
  kept_checkpoint (before ++ [ATurn t]) → kept_checkpoint (before ++ [ATurn (longer t new)]).
Proof.
  intros Hc. destruct (last (omap item_base new)) as [b|] eqn:Eb.
  { right. exists (longer t new). rewrite longer_base, Eb. split; [|done]. unfold surviving. rewrite foldl_app. by left. }
  assert (Hn : Forall plain new).
  { apply Forall_forall. intros x Hx. unfold plain. destruct (item_base x) as [b|] eqn:E; [|done].
    apply last_None in Eb. assert (b ∈ omap item_base new) as Hb by (apply list_elem_of_omap; by exists x).
    rewrite Eb in Hb. by apply elem_of_nil in Hb. }
  destruct Hc as [Hp|(u & Hu & Hb)].
  - left. rewrite longer_items. by apply Forall_app.
  - right. unfold surviving in *. rewrite foldl_app in *. simpl in *. apply elem_of_cons in Hu as [->|Hu].
    + exists (longer t new). rewrite longer_base, Eb. split; [by left|done].
    + exists u. split; [by right|done].
Qed.

(** The turn going on has grown. *)
Lemma in_file_longer before t new s s' :
  in_file (before ++ [ATurn t]) s → live_thread s' = Some (entries_items (before ++ [ATurn t]) ++ new) →
  Forall (in_turn (t_id t)) new → Forall replayable new → tells new s s' →
  in_file (before ++ [ATurn (longer t new)]) s'.
Proof.
  intros Hf Hl Hw Hr Ht. split.
  - by rewrite longer_items.
  - pose proof (file_wf _ _ Hf) as [Hb [Hw0 _]%Forall_cons]%Forall_app. apply Forall_app. split; [done|].
    constructor; [|done]. simpl in *. by apply Forall_app.
  - rewrite longer_items. apply Forall_app. split; [by apply (file_replayable _ _ Hf)|done].
  - rewrite longer_items. by eapply history_grows.
  - apply checkpoint_longer, (file_checkpoint _ _ Hf).
Qed.

(** A new turn, or a note between turns. *)
Lemma in_file_snoc entries e s s' :
  in_file entries s → (∃ id, e = ATurn (mkTurn id [])) ∨ (∃ item, e = ANote item ∧ note item) →
  live_thread s' = Some (entries_items entries ++ entry_items e) → items (history s') = items (history s) →
  in_file (entries ++ [e]) s'.
Proof.
  intros Hf He Hl Hi.
  assert (Hitems : entries_items (entries ++ [e]) = entries_items entries ++ entry_items e)
    by (rewrite entries_items_app; unfold entries_items at 2; simpl; by rewrite app_nil_r).
  assert (H : wf_entry e ∧ Forall replayable (entry_items e) ∧ forallb inert (entry_items e) = true ∧
    Forall plain (entry_items e)).
  { destruct He as [(id & ->)|(item & -> & Hn)]; [by repeat constructor|].
    repeat split; try apply Forall_cons_2; try apply Forall_nil_2; [done|by apply note_replayable|..].
    - simpl. by rewrite note_inert.
    - by destruct item as [|x|c|ctx|[i|i|i| |n| | | | |]]. }
  destruct H as (Hw & Hr & Hinert & Hp). split.
  - by rewrite Hitems.
  - apply Forall_app. split; [by apply (file_wf _ _ Hf)|by apply Forall_cons_2].
  - rewrite Hitems. apply Forall_app. split; [by apply (file_replayable _ _ Hf)|done].
  - rewrite Hitems. eapply history_grows; [done|]. by apply tells_inert.
  - destruct (file_checkpoint _ _ Hf) as [Hc|(u & Hu & Hb)].
    + left. rewrite Hitems. by apply Forall_app.
    + right. exists u. split; [|done]. unfold surviving. rewrite foldl_app.
      destruct He as [(id & ->)|(item & -> & Hn)]; simpl; [by right|done].
Qed.

Lemma settings_snoc before t :
  settings_of (before ++ [ATurn t]) = option_or (user_settings hook_prompt_text standard_contextual_text inter_agent t) (settings_of before).
Proof. unfold settings_left, surviving. rewrite foldl_app. cbn [foldl run_entry]. by rewrite head_omap_cons. Qed.
Lemma baseline_snoc before t :
  baseline_of (before ++ [ATurn t]) =
    match established_by t with
    | Some (Latest ctx) => Some ctx
    | Some _ => None
    | None => baseline_of before
    end.
Proof.
  unfold baseline_left, surviving. rewrite foldl_app. cbn [foldl run_entry]. rewrite head_omap_cons.
  by destruct (established_by t) as [[| |ctx]|].
Qed.
Lemma left_note entries item :
  settings_of (entries ++ [ANote item]) = settings_of entries ∧ baseline_of (entries ++ [ANote item]) = baseline_of entries.
Proof. unfold settings_left, baseline_left, surviving. by rewrite foldl_app. Qed.

Lemma in_step_notes new entries s s' :
  in_step entries s → Forall note new → live_thread s' = Some (entries_items entries ++ new) →
  items (history s') = items (history s) → reference_context_item (history s') = reference_context_item (history s) →
  session_settings s' = session_settings s → ∃ entries', in_step entries' s'.
Proof.
  revert entries s. induction new as [|item new IH]; intros entries s (Hf & Hs & Hb) Hn Hl Hi Hr Hset.
  { exists entries. rewrite app_nil_r in Hl. split; [|split; congruence].
    destruct Hf as [F1 F2 F3 F4 F5]. split; try done. by rewrite Hi. }
  apply Forall_cons in Hn as [Hitem Hn]. destruct (left_note entries item) as [E1 E2].
  assert (Eitems : entries_items (entries ++ [ANote item]) = entries_items entries ++ [item])
    by (rewrite entries_items_app; unfold entries_items at 2; done).
  apply (IH (entries ++ [ANote item]) (set_live_thread (Some (entries_items entries ++ [item])) s)); try done.
  - split; [|split; [by rewrite E1|by rewrite E2]]. eapply in_file_snoc; [exact Hf|right; by eexists|done|done].
  - by rewrite Eitems, <-app_assoc.
Qed.

Lemma longer_user t new : user_turn (longer t new) = user_turn t || existsb user_item new.
Proof. unfold is_user_turn. cbn [t_body longer]. apply existsb_app. Qed.

(** What is rebuilt from a file that is in step. *)
Lemma in_step_reconstructed entries s :
  in_step entries s → (len (entries_items entries) < usize_max)%N →
  ∃ r, reconstruct_history_from_rollout hook_prompt_text standard_contextual_text inter_agent policy
      (entries_items entries) = Ok r ∧
    r_history r = items (history s) ∧ r_previous_turn_settings r = session_settings s ∧
    r_reference_context_item r = reference_context_item (history s).
Proof.
  intros (Hf & Hs & Hb) Hl. destruct (file_history _ _ Hf) as (h & Eh & Hh).
  assert (Hlen : (len entries <= len (entries_items entries))%N).
  { clear. induction entries as [|e l IH]; [done|]. unfold entries_items in *. simpl. rewrite len_app, len_cons.
    assert (1 <= len (entry_items e))%N by (destruct e; simpl; rewrite ?len_cons, ?len_nil; lia). lia. }
  destruct (reconstruction_complete hook_prompt_text standard_contextual_text inter_agent policy entries
    (file_wf _ _ Hf)) as (h' & Eh' & Er); [lia|by apply (file_replayable _ _ Hf)|by apply (file_checkpoint _ _ Hf)|].
  rewrite Eh in Eh'. injection Eh' as <-. eexists. split; [exact Er|]. by rewrite Hs, Hb.
Qed.
End file.

(** ** Steps within a turn *)

Lemma record_persisted {P T} policy (l : list (ResponseItem P)) (h : ContextManager P T) :
  record_items (List.filter should_persist_response_item l) policy h = record_items l policy h.
Proof.
  revert h. induction l as [|x l IH]; intros h; [done|]. simpl.
  destruct (should_persist_response_item x) eqn:Ex.
  - simpl. destruct (negb (is_api_message x)); [apply IH|]. destruct (process_item x policy); [|done..]. apply IH.
  - by destruct x.
Qed.
Lemma record_reference {P T} policy (l : list (ResponseItem P)) (h h' : ContextManager P T) :
  record_items l policy h = Ok h' → reference_context_item h' = reference_context_item h.
Proof.
  revert h. induction l as [|x l IH]; intros h; simpl; [by intros [= ->]|].
  destruct (negb (is_api_message x)); [apply IH|]. destruct (process_item x policy); [|done..].
  intros E. by rewrite (IH _ E).
Qed.

Section steps.
Context {P R : Type}.
Context (hook_prompt_text standard_contextual_text : str → bool) (inter_agent : str → option bool).
Context (policy : TruncationPolicy).
Context (persistence_mode : EventPersistenceMode).
Context (append_fails : list (RolloutItem P R) → list (RolloutItem P R) → bool).
Context (appends_succeed : ∀ stored new, append_fails stored new = false).
Implicit Types (s : Session P R) (tc : TurnConfig R) (before : list (Entry P R)) (t : Turn P R)
  (new : list (RolloutItem P R)) (ev : EventMsg).

Local Abbreviation file_of := (in_file (P:=P) (R:=R) hook_prompt_text standard_contextual_text inter_agent policy).
Local Abbreviation file_longer := (in_file_longer hook_prompt_text standard_contextual_text inter_agent policy).
Local Abbreviation persist := (persist_rollout_items persistence_mode append_fails).
Local Abbreviation send := (send_event_raw persistence_mode append_fails).
Local Abbreviation kept := (List.filter (λ item : RolloutItem P R, is_persisted_rollout_item item persistence_mode)).
Local Abbreviation record := (record_conversation_items persistence_mode append_fails).

(** A step within the turn [t] that records no context: the file has grown by
    [new], and says how the history changed. *)
Record grows before t new s s' : Prop := {
  grows_file : file_of (before ++ [ATurn t]) s → file_of (before ++ [ATurn (longer t new)]) s';
  grows_free : Forall context_free new;
  grows_settings : session_settings s' = session_settings s;
  grows_reference : reference_context_item (history s') = reference_context_item (history s);
  grows_active : active_turn s' = active_turn s
}.

Lemma grows_trans before t new new' s s' s'' :
  grows before t new s s' → grows before (longer t new) new' s' s'' → grows before t (new ++ new') s s''.
Proof.
  intros [H1 H2 H3 H4 H5] [K1 K2 K3 K4 K5]. split; [|by apply Forall_app|congruence..].
  intros Hf. rewrite <-longer_longer. auto.
Qed.

Lemma grows_refl before t s : grows before t [] s s.
Proof. split; try done. intros Hf. unfold longer. rewrite app_nil_r. by destruct t. Qed.

Lemma grows_inert before t new s s' :
  Forall (in_turn (t_id t)) new → Forall replayable new → forallb inert new = true → Forall context_free new →
  (∀ stored, live_thread s = Some stored → live_thread s' = Some (stored ++ new)) →
  items (history s') = items (history s) → session_settings s' = session_settings s →
  reference_context_item (history s') = reference_context_item (history s) → active_turn s' = active_turn s →
  grows before t new s s'.
Proof.
  intros Hw Hr Hn Hc Hl Hi Hs Hf Ha. split; [|done..]. intros Hfile.
  eapply file_longer; [done|apply Hl, (file_live _ _ _ _ _ _ Hfile)|done..|]. by apply tells_inert.
Qed.

Lemma grows_send before t ev s :
  in_turn (t_id t) (RolloutEvent (P:=P) (R:=R) ev) → inert (RolloutEvent (P:=P) (R:=R) ev) = true →
  grows before t (kept [RolloutEvent ev]) s (send ev s).
Proof.
  intros Hw Hn. destruct (send_same (mode:=persistence_mode) (append_fails:=append_fails) ev s) as (Eh & Es & Ea).
  assert (H : ∀ Q : RolloutItem P R → Prop, Q (RolloutEvent ev) → Forall Q (kept [RolloutEvent ev]))
    by (intros Q HQ; simpl; destruct (should_persist_event_msg ev persistence_mode); by repeat constructor).
  apply grows_inert; rewrite ?Eh; try done; try by apply H.
  - simpl. by destruct (should_persist_event_msg ev persistence_mode); [rewrite forallb_forall; intros x [<-|[]]|].
  - intros stored. by apply send_live.
Qed.

Lemma grows_noted before t s s' :
  noted s s' → (∃ stored, live_thread s = Some stored) → items (history s') = items (history s) →
  reference_context_item (history s') = reference_context_item (history s) →
  ∃ new, grows before t new s s'.
Proof.
  intros (Es & Ea & Hl) [stored Hs] Hi Hr. destruct (Hl _ Hs) as (notes & Hl' & Hn). exists notes.
  apply grows_inert; try done; try (eapply Forall_impl; [exact Hn|]).
  - intros x. apply note_in_turn.
  - intros x. apply note_replayable.
  - by apply notes_inert.
  - intros x. apply note_context_free.
  - intros stored'. rewrite Hs. by intros [= <-].
Qed.

Lemma kept_items (l : list (ResponseItem P)) :
  kept (map RolloutResponseItem l) = map RolloutResponseItem (List.filter should_persist_response_item l).
Proof. induction l as [|x l IH]; [done|]. simpl. destruct (should_persist_response_item x); simpl; by rewrite IH. Qed.

Lemma grows_record before t (l : list (ResponseItem P)) tc s s' :
  truncation_policy tc = policy → Forall sized l → record l tc s = (s', Ok tt) →
  grows before t (map RolloutResponseItem (List.filter should_persist_response_item l)) s s'.
Proof.
  intros Hp Hsz. unfold record_conversation_items, record_into_history, on_history, mbind, Eff_bind, reads. rewrite Hp.
  destruct (record_items l policy (history s)) as [h| |] eqn:Er; [|done..]. simpl. intros [= <-].
  assert (Hsame : ∀ s1, history s1 = h → session_settings s1 = session_settings s → active_turn s1 = active_turn s →
    live_thread s1 = live_thread s → grows before t (map RolloutResponseItem (List.filter should_persist_response_item l)) s
      (persist (map RolloutResponseItem l) s1)).
  { intros s1 E1 E2 E3 E4.
    destruct (persist_same (mode:=persistence_mode) (append_fails:=append_fails) (map RolloutResponseItem l) s1) as (Eh & Es & Ea).
    split; rewrite ?Eh, ?Es, ?Ea, ?E1; try done.
    - intros Hf. eapply file_longer; [done|..].
      + erewrite persist_live; [|done|rewrite E4; apply (file_live _ _ _ _ _ _ Hf)]. by rewrite kept_items.
      + apply Forall_map, Forall_true. done.
      + apply Forall_map. apply Forall_forall. intros x [Hx _]%elem_of_filterb. rewrite Forall_forall in Hsz. by apply Hsz.
      + eapply (tells_records _ _ _ _ _ _ _ h); [|by rewrite Eh, E1]. by rewrite record_persisted.
    - apply Forall_map, Forall_true. done.
    - by apply (record_reference policy l). }
  by apply Hsame.
Qed.
End steps.

(** ** Compactions and the start of a turn *)

Section starting.
Context {P R : Type}.
Context (hook_prompt_text standard_contextual_text : str → bool) (inter_agent : str → option bool).
Context (policy : TruncationPolicy).
Context (persistence_mode : EventPersistenceMode).
Context (append_fails : list (RolloutItem P R) → list (RolloutItem P R) → bool).
Context (appends_succeed : ∀ stored new, append_fails stored new = false).
Context (estimated_tokens : ContextManager P (TurnContextItem R) → Z).
Context (build_initial_context : TurnConfig R → Session P R → list (ResponseItem P)).
Context (build_settings_update_items : TurnContextItem R → option PreviousTurnSettings → TurnConfig R →
  list (ResponseItem P)).
Context (with_model : TurnConfig R → str → TurnConfig R).
Context (serialized_len : ResponseItem P → option N) (image_dimensions : str → option (N * N)).
Context (answer : list (list (ResponseItem P)) → Res CodexErr (Stream P)).
Context (services : RemoteServices P R).
Context (initial_context_sized : ∀ tc s, Forall sized (build_initial_context tc s)).
Context (updates_sized : ∀ reference settings tc, Forall sized (build_settings_update_items reference settings tc)).
Implicit Types (s : Session P R) (tc : TurnConfig R) (before : list (Entry P R)) (t : Turn P R)
  (new : list (RolloutItem P R)).

Local Abbreviation file_of := (in_file (P:=P) (R:=R) hook_prompt_text standard_contextual_text inter_agent policy).
Local Abbreviation step_of := (in_step (P:=P) (R:=R) hook_prompt_text standard_contextual_text inter_agent policy).
Local Abbreviation user_turn := (is_user_turn (P:=P) (R:=R) hook_prompt_text standard_contextual_text inter_agent).
Local Abbreviation persist := (persist_rollout_items persistence_mode append_fails).
Local Abbreviation send := (send_event_raw persistence_mode append_fails).
Local Abbreviation growing := (grows hook_prompt_text standard_contextual_text inter_agent policy).
Local Abbreviation record := (record_conversation_items persistence_mode append_fails).
Local Abbreviation compact_impl :=
  (run_compact_task_inner_impl false hook_prompt_text standard_contextual_text persistence_mode append_fails
     estimated_tokens build_initial_context answer).
Local Abbreviation auto_compact :=
  (run_auto_compact false hook_prompt_text standard_contextual_text persistence_mode append_fails estimated_tokens
     build_initial_context answer services).

Lemma install_inv tc injection s s' :
  install_compaction hook_prompt_text standard_contextual_text persistence_mode append_fails estimated_tokens
    build_initial_context tc injection s = (s', Ok tt) →
  ∃ r, compacted_result hook_prompt_text standard_contextual_text build_initial_context tc injection s = Ok r.
Proof.
  unfold install_compaction, mbind at 1, Eff_bind at 1, reads.
  destruct (compacted_result _ _ _ tc injection s) as [r| |]; [by exists r|done..].
Qed.

(** A compaction that returns: the file has grown by its notes and by what a
    compaction writes. *)
Definition compacts tc injection s s' : Prop :=
  ∀ stored, live_thread s = Some stored →
  ∃ notes c l info, Forall note notes ∧ replacement_history c = Some l ∧ items (history s') = l ∧
    reference_context_item (history s') = injected tc injection ∧
    live_thread s' = Some (stored ++ notes ++ compaction_items c (injected tc injection) info) ∧
    session_settings s' = session_settings s ∧ active_turn s' = active_turn s.

Lemma compact_inv tc prompt injection s s' prompts :
  compact_impl tc prompt injection s = (s', Ok prompts) → compacts tc injection s s'.
Proof.
  unfold run_compact_task_inner_impl. intros H stored Hl.
  apply Eff_bind_Ok in H as (s1 & [] & E1 & H). injection E1 as <-.
  apply Eff_bind_Ok in H as (s2 & h & E2 & H). injection E2 as <- Eh.
  apply Eff_bind_Ok in H as (s3 & sent & E3 & H). apply Eff_bind_Ok in H as (s4 & [] & E4 & H). injection H as <- <-.
  assert (Hn : noted s s3).
  { apply (noted_trans _ (send (OtherEvent None) s)); [by apply (noted_send persistence_mode append_fails appends_succeed)|].
    pose proof (quiet_loop persistence_mode append_fails appends_succeed answer (compact_fuel tc h) tc h 0 []
      (send (OtherEvent None) s)) as Hq. by rewrite E3 in Hq. }
  destruct Hn as (Es & Ea & Hn). destruct (Hn _ Hl) as (notes & Hl3 & Hnotes).
  destruct (install_inv _ _ _ _ E4) as [r Er].
  destruct (install_spec persistence_mode append_fails appends_succeed hook_prompt_text standard_contextual_text
    estimated_tokens build_initial_context tc injection s3 _ r Hl3 Er) as (s5 & c & l & info & E5 & Hc & Hi & Hr & Hl5 & Es5 & Ea5).
  rewrite E4 in E5. injection E5 as <-. exists notes, c, l, info.
  split_and!; [done|done|done|done|by rewrite app_assoc|congruence|congruence].
Qed.

Lemma remote_inv compacted tc injection s s' :
  run_remote_compact_task_inner false hook_prompt_text standard_contextual_text persistence_mode append_fails
    estimated_tokens build_initial_context compacted tc injection s = (s', Ok tt) → compacts tc injection s s'.
Proof.
  intros E stored Hl. destruct (input_total estimated_tokens tc s) as [prompt Ep].
  pose proof (run_with_eq hook_prompt_text standard_contextual_text persistence_mode append_fails estimated_tokens
    build_initial_context compacted tc injection s prompt Ep) as Hrun.
  destruct (compacted prompt) as [output|err|p]; [|by rewrite E in Hrun..].
  destruct Hrun as (before & after & _ & Erun). rewrite E in Erun. injection Erun as ->.
  set (s1 := compacting _ _ s). set (l := before ++ _).
  destruct (noted_send persistence_mode append_fails appends_succeed (OtherEvent None) s I) as (Es & Ea & Hn).
  fold (compacting persistence_mode append_fails s) in Es, Ea, Hn. fold s1 in Es, Ea, Hn.
  destruct (Hn _ Hl) as (notes & Hl1 & Hnotes).
  destruct (new_history_spec persistence_mode append_fails appends_succeed estimated_tokens tc injection l [] s1 _ Hl1)
    as (Hi & Hr & [info Hl'] & Hs & Ha).
  exists notes, (mkCompacted [] (Some l)), l, info.
  split_and!; [done|done|done|done|by rewrite app_assoc|congruence|congruence].
Qed.

Lemma auto_compact_inv tc injection s s' b :
  auto_compact tc injection s = (s', Ok b) → compacts tc injection s s'.
Proof.
  unfold run_auto_compact. destruct (supports_remote_compaction tc); [destruct (remote_compaction_v2 tc)|].
  1, 2: intros (s1 & [] & E & H)%Eff_bind_Ok; injection H as <- _; by eapply remote_inv.
  intros (s1 & [] & E & H)%Eff_bind_Ok. injection H as <- _. unfold run_inline_auto_compact_task in E.
  apply Eff_bind_Ok in E as (s2 & prompts & E & H). injection H as <-. by eapply compact_inv.
Qed.

(** The compaction of a task: its start is kept, then it compacts. *)
Lemma compact_task_inv tc prompt s s' :
  run_compact_by_provider false hook_prompt_text standard_contextual_text persistence_mode append_fails estimated_tokens
    build_initial_context answer services tc prompt s = (s', Ok tt) →
  compacts tc DoNotInject (send (TurnStarted (sub_id tc)) s) s'.
Proof.
  unfold run_compact_by_provider. destruct (supports_remote_compaction tc); [destruct (remote_compaction_v2 tc)|].
  1, 2: intros (s1 & [] & E & H)%Eff_bind_Ok; injection E as <-; by eapply remote_inv.
  intros (s1 & [] & E & H)%Eff_bind_Ok. injection E as <-.
  apply Eff_bind_Ok in H as (s2 & prompts & E & H). injection H as <-. by eapply compact_inv.
Qed.

Lemma tells_compaction notes c l reference info s s' :
  Forall note notes → replacement_history c = Some l → items (history s') = l →
  tells (R:=R) hook_prompt_text standard_contextual_text inter_agent policy (notes ++ compaction_items c reference info) s s'.
Proof.
  intros Hn Hc Hi h Hh. exists (replace l h). split; [|done].
  rewrite run_rollout_app, replay_inert by (by apply notes_inert). cbn [mbind Res_bind]. by apply run_compaction.
Qed.

Lemma compaction_in_turn before t tc injection s s' :
  file_of (before ++ [ATurn t]) s → compacts tc injection s s' →
  (injection = BeforeLastUserMessage → sub_id tc = t_id t) →
  ∃ new, file_of (before ++ [ATurn (longer t new)]) s' ∧
    head (omap item_settings new) =
      (match injected tc injection with
       | Some ctx => Some (mkSettings (ctx_model ctx) (ctx_realtime_active ctx)) | None => None end) ∧
    last (omap item_reference new) = Some (match injected tc injection with Some ctx => Latest ctx | None => Cleared end) ∧
    reference_context_item (history s') = injected tc injection ∧
    session_settings s' = session_settings s ∧ active_turn s' = active_turn s.
Proof.
  intros Hf E Hid.
  destruct (E _ (file_live _ _ _ _ _ _ Hf)) as (notes & c & l & info & Hn & Hc & Hi & Hr & Hl & Hs & Ha).
  exists (notes ++ compaction_items c (injected tc injection) info).
  assert (Hfree : Forall context_free notes) by (eapply Forall_impl; [exact Hn|intros x; apply note_context_free]).
  split_and!; try done.
  - eapply in_file_longer; [done|done|..].
    + apply Forall_app. split; [eapply Forall_impl; [exact Hn|intros x; apply note_in_turn]|].
      unfold compaction_items. apply Forall_cons_2; [done|]. apply Forall_app.
      split; [|by apply Forall_cons_2; [|apply Forall_cons_2]].
      destruct injection; [|by apply Forall_nil_2]. apply Forall_cons_2; [right; simpl; f_equal; auto|by apply Forall_nil_2].
    + apply Forall_app. split; [eapply Forall_impl; [exact Hn|intros x; apply note_replayable]|].
      unfold compaction_items. apply Forall_cons_2; [by eexists|]. destruct (injected tc injection); by repeat constructor.
    + by eapply tells_compaction.
  - rewrite omap_app, (omap_nil item_settings notes) by (eapply Forall_impl; [exact Hfree|intros x Hx; apply Hx]).
    by destruct injection.
  - rewrite omap_app, (omap_nil item_reference notes) by (eapply Forall_impl; [exact Hfree|intros x Hx; apply Hx]).
    by destruct injection.
Qed.

(** Steps in a turn before its context is recorded. *)
Record advances before t new s s' : Prop := {
  advances_file : file_of (before ++ [ATurn t]) s → file_of (before ++ [ATurn (longer t new)]) s';
  advances_settings : turn_settings (longer t new) = turn_settings t;
  advances_session : session_settings s' = session_settings s;
  advances_active : active_turn s' = active_turn s
}.

Lemma advances_refl before t s : advances before t [] s s.
Proof. split; try done; unfold longer; rewrite app_nil_r; by destruct t. Qed.
Lemma advances_trans before t new new' s s' s'' :
  advances before t new s s' → advances before (longer t new) new' s' s'' → advances before t (new ++ new') s s''.
Proof.
  intros [H1 H2 H3 H4] [K1 K2 K3 K4]. split; [|rewrite <-longer_longer; congruence|congruence..].
  intros Hf. rewrite <-longer_longer. auto.
Qed.

Lemma auto_compact_advances before t tc s s' b :
  file_of (before ++ [ATurn t]) s → auto_compact tc DoNotInject s = (s', Ok b) → ∃ new, advances before t new s s'.
Proof.
  intros Hf E%auto_compact_inv.
  destruct (compaction_in_turn before t tc _ _ _ Hf E) as (new & Hf' & Hs & _ & _ & Es & Ea); [done|].
  exists new. split; try done. rewrite longer_settings. simpl in Hs. rewrite Hs. by destruct (turn_settings t).
Qed.

Local Abbreviation previous_compact :=
  (maybe_run_previous_model_inline_compact false hook_prompt_text standard_contextual_text persistence_mode append_fails
     estimated_tokens build_initial_context with_model answer services).
Local Abbreviation pre_compact :=
  (run_pre_sampling_compact false hook_prompt_text standard_contextual_text inter_agent persistence_mode append_fails
     estimated_tokens build_initial_context with_model serialized_len image_dimensions answer services).

Lemma previous_compact_advances before t tc total s s' b :
  file_of (before ++ [ATurn t]) s → previous_compact tc total s = (s', Ok b) → ∃ new, advances before t new s s'.
Proof.
  intros Hf. unfold maybe_run_previous_model_inline_compact. intros (s1 & p & E & H)%Eff_bind_Ok.
  injection E as <- Ep. destruct p as [p|]; [|injection H as <- <-; by exists []; apply advances_refl].
  cbv zeta in H. destruct (should_compact_for_previous_model _ _ _); [|injection H as <- <-; by exists []; apply advances_refl].
  apply Eff_bind_Ok in H as (s2 & r & E & H). injection H as <- <-. by eapply auto_compact_advances.
Qed.

Lemma pre_compact_advances before t tc s s' b :
  file_of (before ++ [ATurn t]) s → pre_compact tc s = (s', Ok b) → ∃ new, advances before t new s s'.
Proof.
  intros Hf. unfold run_pre_sampling_compact. intros (s1 & total & E & H)%Eff_bind_Ok.
  unfold reads in E. injection E as <- _. apply Eff_bind_Ok in H as (s2 & c & E2 & H).
  destruct (previous_compact_advances before t _ _ _ _ _ Hf E2) as [new Hadv].
  apply Eff_bind_Ok in H as (s3 & total' & E3 & H). unfold reads in E3. injection E3 as <- _.
  destruct (_ <=? _)%Z; [|injection H as <- <-; by exists new].
  apply Eff_bind_Ok in H as (s4 & r & E4 & H). injection H as <- <-.
  destruct (auto_compact_advances before (longer t new) tc s2 s4 r) as [new' Hadv'];
    [by apply (advances_file _ _ _ _ _ Hadv)|done|].
  exists (new ++ new'). by eapply advances_trans.
Qed.

Lemma grows_record_nonempty before t l tc s s' :
  truncation_policy tc = policy → Forall sized l →
  record_additional_contexts persistence_mode append_fails l tc s = (s', Ok tt) → ∃ new, growing before t new s s'.
Proof.
  intros Hp Hl. unfold record_additional_contexts. destruct (decide (l = [])).
  - intros [= <-]. exists []. apply grows_refl.
  - intros E. eexists. by eapply grows_record.
Qed.

(** The context of the turn is recorded, and becomes the baseline. *)
Lemma context_recorded before t tc s s' :
  truncation_policy tc = policy → file_of (before ++ [ATurn t]) s → t_id t = sub_id tc → turn_settings t = None →
  record_context_updates_and_set_reference_context_item persistence_mode append_fails build_initial_context
    build_settings_update_items tc s = (s', Ok tt) →
  ∃ new, file_of (before ++ [ATurn (longer t new)]) s' ∧
    turn_settings (longer t new) = Some (mkSettings (model_slug tc) (Some (realtime_active tc))) ∧
    turn_reference (longer t new) = Latest (to_turn_context_item tc) ∧
    reference_context_item (history s') = Some (to_turn_context_item tc) ∧
    active_turn s' = active_turn s.
Proof.
  intros Hp Hf Hid Ht. unfold record_context_updates_and_set_reference_context_item.
  intros (s1 & l & E1 & H)%Eff_bind_Ok. injection E1 as <- El.
  assert (Hl : Forall sized l) by (subst; destruct (reference_context_item _); auto).
  apply Eff_bind_Ok in H as (s2 & [] & E2 & H).
  destruct (grows_record_nonempty before t l tc s s2 Hp Hl E2) as [new [Hg Hfree _ _ Ha]].
  apply Eff_bind_Ok in H as (s3 & [] & E3 & H). injection E3 as <-. injection H as <-.
  specialize (Hg Hf). destruct (longer_free t new Hfree) as [Hset Href].
  set (ctx := to_turn_context_item tc). exists (new ++ [TurnContext ctx]).
  destruct (persist_same (mode:=persistence_mode) (append_fails:=append_fails) [TurnContext ctx] s2) as (Eh & Es & Ea).
  rewrite <-longer_longer, longer_settings, longer_reference, Hset, Ht.
  split_and!; [|done|done|done|by rewrite <-Ha, <-Ea].
  eapply in_file_longer; [exact Hg|..].
  - cbn [live_thread set_history].
    rewrite (persist_live persistence_mode append_fails appends_succeed _ _ _ (file_live _ _ _ _ _ _ Hg)). done.
  - apply Forall_cons_2; [right; simpl; by rewrite Hid|by apply Forall_nil_2].
  - by apply Forall_cons_2.
  - apply tells_inert; [done|]. simpl. by rewrite Eh.
Qed.

Lemma prompt_grows before t x tc s s' :
  truncation_policy tc = policy → sized x →
  record_user_prompt_and_emit_turn_item persistence_mode append_fails x tc s = (s', Ok tt) →
  ∃ new, growing before t new s s' ∧ user_turn (longer t new) = true.
Proof.
  intros Hp Hx. unfold record_user_prompt_and_emit_turn_item.
  intros (s1 & [] & E1 & H)%Eff_bind_Ok.
  assert (Hg1 : growing before t (map RolloutResponseItem (List.filter should_persist_response_item [x])) s s1)
    by (by eapply (grows_record _ _ _ _ _ _ appends_succeed); [| |exact E1]; [|by apply Forall_cons_2]).
  set (n1 := map RolloutResponseItem (List.filter should_persist_response_item [x])) in *.
  apply Eff_bind_Ok in H as (s2 & [] & E2 & H). injection E2 as <-.
  apply Eff_bind_Ok in H as (s3 & [] & E3 & H). injection E3 as <-. injection H as <-.
  assert (Hnone : ∀ t0 s0, growing before t0 [] s0 (send (OtherEvent None) s0)).
  { intros t0 s0. pose proof (grows_send hook_prompt_text standard_contextual_text inter_agent policy persistence_mode
      append_fails appends_succeed before t0 (OtherEvent None) s0 I eq_refl) as Hg. by rewrite kept_none in Hg. }
  eexists. split.
  - eapply grows_trans; [exact Hg1|]. eapply grows_trans; [apply Hnone|]. eapply grows_trans; [apply Hnone|].
    by apply (grows_send _ _ _ _ _ _ appends_succeed).
  - rewrite kept_limited by done. rewrite longer_user, !existsb_app. simpl. by rewrite !orb_true_r.
Qed.

(** A turn of the user that goes on, in step. *)
Definition in_user_turn (id : str) s : Prop :=
  ∃ before t, step_of (before ++ [ATurn t]) s ∧ t_id t = id ∧ user_turn t = true ∧ turn_settings t ≠ None.

Lemma in_user_turn_intro before t tc s :
  file_of (before ++ [ATurn t]) s → t_id t = sub_id tc → user_turn t = true →
  turn_settings t = Some (mkSettings (model_slug tc) (Some (realtime_active tc))) →
  turn_reference t = Latest (to_turn_context_item tc) →
  session_settings s = Some (mkSettings (model_slug tc) (Some (realtime_active tc))) →
  reference_context_item (history s) = Some (to_turn_context_item tc) →
  in_user_turn (sub_id tc) s.
Proof.
  intros Hf Hid Hu Hs Hr Es Er. exists before, t. split_and!; [|done|done|by rewrite Hs].
  split_and!; [done|..].
  - rewrite settings_snoc. unfold user_settings. by rewrite Hu, Hs.
  - rewrite baseline_snoc. unfold established. by rewrite Hu, Hr.
Qed.

(** Steps that record no context keep a turn of the user in step. *)
Lemma in_user_turn_grows before t new id s s' :
  step_of (before ++ [ATurn t]) s → t_id t = id → user_turn t = true → turn_settings t ≠ None →
  growing before t new s s' → in_user_turn id s'.
Proof.
  intros (Hf & Hs & Hb) Hid Hu Ht [Hg Hfree Es Er _]. destruct (longer_free t new Hfree) as [Eset Eref].
  assert (Hu' : user_turn (longer t new) = true) by by rewrite longer_user, Hu.
  exists before, (longer t new). split_and!; [|done|done|by rewrite Eset]. split_and!; [by apply Hg|..].
  - rewrite Es, Hs, !settings_snoc. unfold user_settings. by rewrite Hu, Hu', Eset.
  - rewrite Er, Hb, !baseline_snoc. unfold established. by rewrite Hu, Hu', Eref.
Qed.

Local Abbreviation start_turn :=
  (start_user_turn false hook_prompt_text standard_contextual_text inter_agent persistence_mode append_fails
     estimated_tokens build_initial_context build_settings_update_items with_model serialized_len image_dimensions answer services).

Definition injections_sized (i : Injections P) : Prop :=
  Forall sized (session_start_contexts i) ∧ Forall sized (additional_contexts i) ∧
  Forall sized (skill_items i) ∧ Forall sized (plugin_items i).

(** The rest of the start, once the context is recorded. *)
Lemma filled_in_user_turn entries t tc x i s s' :
  truncation_policy tc = policy → sized x → injections_sized i →
  file_of (entries ++ [ATurn t]) s → t_id t = sub_id tc →
  turn_settings t = Some (mkSettings (model_slug tc) (Some (realtime_active tc))) →
  turn_reference t = Latest (to_turn_context_item tc) →
  reference_context_item (history s) = Some (to_turn_context_item tc) →
  (_ ← record_additional_contexts persistence_mode append_fails (session_start_contexts i) tc;
   _ ← record_user_prompt_and_emit_turn_item persistence_mode append_fails x tc;
   _ ← record_additional_contexts persistence_mode append_fails (additional_contexts i) tc;
   _ ← modify (set_previous_turn_settings (Some (mkSettings (model_slug tc) (Some (realtime_active tc)))));
   _ ← record_additional_contexts persistence_mode append_fails (skill_items i) tc;
   record_additional_contexts persistence_mode append_fails (plugin_items i) tc) s = (s', Ok tt) →
  in_user_turn (sub_id tc) s' ∧ active_turn s' = active_turn s.
Proof.
  intros Hp Hx (Hi1 & Hi2 & Hi3 & Hi4) Hf Hid Hset Href Hbase (s5 & [] & E5 & H)%Eff_bind_Ok.
  destruct (grows_record_nonempty entries t _ tc _ _ Hp Hi1 E5) as [n3 G3].
  apply Eff_bind_Ok in H as (s6 & [] & E6 & H).
  destruct (prompt_grows entries (longer t n3) x tc _ _ Hp Hx E6) as (n4 & G4 & Hu).
  pose proof (grows_trans _ _ _ _ _ _ _ _ _ _ _ G3 G4) as G34. rewrite longer_longer in Hu.
  apply Eff_bind_Ok in H as (s7 & [] & E7 & H).
  destruct (grows_record_nonempty entries (longer t (n3 ++ n4)) _ tc _ _ Hp Hi2 E7) as [n5 G5].
  pose proof (grows_trans _ _ _ _ _ _ _ _ _ _ _ G34 G5) as [C1 C2 _ C4 C5].
  set (n := (n3 ++ n4) ++ n5) in *. destruct (longer_free t n C2) as [Cs Cr].
  assert (Hu7 : user_turn (longer t n) = true) by (unfold n; by rewrite <-longer_longer, longer_user, Hu).
  apply Eff_bind_Ok in H as (s8 & [] & E8 & H). injection E8 as <-.
  apply Eff_bind_Ok in H as (s9 & [] & E9 & H).
  destruct (grows_record_nonempty entries (longer t n) _ tc _ _ Hp Hi3 E9) as [n6 G6].
  destruct (grows_record_nonempty entries (longer (longer t n) n6) _ tc _ _ Hp Hi4 H) as [n7 G7].
  pose proof (grows_trans _ _ _ _ _ _ _ _ _ _ _ G6 G7) as [D1 D2 D3 D4 D5].
  destruct (longer_free (longer t n) (n6 ++ n7) D2) as [Ds Dr].
  set (s8 := set_previous_turn_settings _ s7) in *.
  assert (Hf8 : file_of (entries ++ [ATurn (longer t n)]) s8) by (destruct (C1 Hf) as [F1 F2 F3 F4 F5]; by split).
  split; [|by rewrite D5, <-C5].
  apply (in_user_turn_intro entries (longer (longer t n) (n6 ++ n7)) tc);
    [by apply D1|done|by rewrite longer_user, Hu7|by rewrite Ds, Cs|by rewrite Dr, Cr|by rewrite D3|].
  by rewrite D4, <-Hbase, <-C4.
Qed.

Lemma start_in_user_turn tc x i s s' entries :
  step_of entries s → truncation_policy tc = policy → sized x → injections_sized i →
  start_turn tc x i s = (s', Ok tt) → in_user_turn (sub_id tc) s' ∧ active_turn s' = true.
Proof.
  intros (Hf & _) Hp Hx Hi. unfold start_user_turn.
  intros (s0 & [] & E & H)%Eff_bind_Ok. injection E as <-.
  apply Eff_bind_Ok in H as (s1 & [] & E & H). injection E as <-.
  apply Eff_bind_Ok in H as (s2 & [] & E & H). injection E as <-.
  set (s2 := set_server_reasoning_included _ _) in H.
  destruct (send_same (mode:=persistence_mode) (append_fails:=append_fails) (TurnStarted (sub_id tc)) (set_active_turn true s))
    as (Eh & _ & Ea).
  assert (H2 : file_of (entries ++ [ATurn (mkTurn (sub_id tc) [])]) s2).
  { eapply in_file_snoc; [exact Hf|left; by eexists|..].
    - unfold s2. cbn [live_thread set_server_reasoning_included].
      rewrite (send_live persistence_mode append_fails appends_succeed _ _ (entries_items entries)) by apply (file_live _ _ _ _ _ _ Hf).
      by rewrite kept_limited.
    - unfold s2. cbn [history set_server_reasoning_included]. by rewrite Eh. }
  assert (Ha2 : active_turn s2 = true) by (unfold s2; cbn [active_turn set_server_reasoning_included]; by rewrite Ea).
  clearbody s2. set (t0 := mkTurn (sub_id tc) []) in H2.
  apply Eff_bind_Ok in H as (s3 & b & E3 & H). destruct (pre_compact_advances entries t0 tc _ _ _ H2 E3) as [n1 [A1 A2 _ A4]].
  specialize (A1 H2). apply Eff_bind_Ok in H as (s4 & [] & E4 & H).
  destruct (context_recorded entries (longer t0 n1) tc s3 s4 Hp A1 eq_refl A2 E4) as (n2 & B1 & B2 & B3 & B4 & B5).
  destruct (filled_in_user_turn entries (longer (longer t0 n1) n2) tc x i s4 s') as [Hin Ha]; [done..|].
  split; [done|congruence].
Qed.

(** ** The life of a thread *)

Inductive phase := Idle | UserTurn (id : str).

Local Abbreviation compact_task_turn :=
  (compact_turn false hook_prompt_text standard_contextual_text persistence_mode append_fails estimated_tokens
     build_initial_context answer services).
Local Abbreviation rollback :=
  (thread_rollback hook_prompt_text standard_contextual_text inter_agent persistence_mode append_fails estimated_tokens).
Local Abbreviation rollback_scan stored n :=
  (scan_rollout (P:=P) (R:=R) hook_prompt_text standard_contextual_text inter_agent
     (stored ++ [RolloutEvent (ThreadRolledBack n)])).

(** What happens to a thread that truncates tool outputs by one policy, when
    its compactions succeed and its rollbacks leave a checkpoint in force if
    there is any.  A thread starts with an empty history; from then on
    - anything may be noted, and usage be counted;
    - a turn of the user starts, items are recorded in it, it is compacted, it
      is finished or aborted;
    - a compaction is asked for, or a rollback;
    - the process may end between any two of these, and the thread be resumed
      from its file.
    Left out, because memory and file then differ or the scan of the file does
    not see one turn, are: an image that the model refuses, which is replaced in
    memory only ([replace_invalid_image], C21); a turn that a hook stops, or that
    is interrupted, after its context is recorded and before its prompt is, so
    that the baseline is set in memory and not found in the file; items that
    [CodexThread::inject_response_items] records between turns; and failing
    appends and compactions. *)
Inductive lives : phase → Session P R → Prop :=
| lives_new h b sri :
    items h = [] → reference_context_item h = None →
    lives Idle (mkSession h None b false sri (Some [SessionMeta]) [])
| lives_note ph s ev : lives ph s → note (RolloutEvent (P:=P) (R:=R) ev) → lives ph (send ev s)
| lives_usage ph s usage tc s' :
    lives ph s → update_token_usage_info false persistence_mode append_fails usage tc s = (s', Ok tt) → lives ph s'
| lives_start s tc x i s' :
    lives Idle s → truncation_policy tc = policy → sized x → injections_sized i →
    start_turn tc x i s = (s', Ok tt) → lives (UserTurn (sub_id tc)) s'
| lives_record s id tc l s' :
    lives (UserTurn id) s → truncation_policy tc = policy → Forall sized l →
    record l tc s = (s', Ok tt) → lives (UserTurn id) s'
| lives_compact s tc s' b :
    lives (UserTurn (sub_id tc)) s → auto_compact tc BeforeLastUserMessage s = (s', Ok b) →
    lives (UserTurn (sub_id tc)) s'
| lives_finish s tc : lives (UserTurn (sub_id tc)) s → lives Idle (finish_turn persistence_mode append_fails tc s)
| lives_abort s tc marker s' :
    lives (UserTurn (sub_id tc)) s → truncation_policy tc = policy → Forall sized (option_list marker) →
    abort_turn persistence_mode append_fails tc marker s = (s', Ok tt) → lives Idle s'
| lives_compact_task s tc prompt s' :
    lives Idle s → compact_task_turn tc prompt s = (s', Ok tt) → lives Idle s'
| lives_rollback s tc n stored s' :
    lives Idle s → truncation_policy tc = policy → n ≠ 0%N → live_thread s = Some stored →
    (len stored + 1 < usize_max)%N → Forall plain stored ∨ base_replacement_history (rollback_scan stored n) ≠ None →
    rollback tc n None None None s = (s', Ok tt) → lives Idle s'
| lives_resume ph s tc stored b sri s' :
    lives ph s → truncation_policy tc = policy → live_thread s = Some stored → (len stored < usize_max)%N →
    record_initial_history hook_prompt_text standard_contextual_text inter_agent persistence_mode append_fails tc
      (Resumed stored) (mkSession new_history None b false sri (Some stored) []) = (s', Ok tt) →
    lives Idle s'.

Definition agrees (ph : phase) s : Prop :=
  match ph with
  | Idle => active_turn s = false ∧ ∃ entries, step_of entries s
  | UserTurn id => active_turn s = true ∧ in_user_turn id s
  end.

Lemma agrees_in_step ph s : agrees ph s → ∃ entries, step_of entries s.
Proof. destruct ph as [|id]; [by intros [_ ?]|]. intros (_ & before & t & Hs & _). by eexists. Qed.

(** Notes keep memory and file in step, in and between turns. *)
Lemma agrees_noted ph s s' :
  agrees ph s → noted s s' → items (history s') = items (history s) →
  reference_context_item (history s') = reference_context_item (history s) → agrees ph s'.
Proof.
  intros Ha Hn Hi Hr. pose proof Hn as (Es & Ea & Hl). destruct ph as [|id]; simpl in *; destruct Ha as [Hact Ha].
  - split; [congruence|]. destruct Ha as (entries & Hs).
    destruct (Hl _ (file_live _ _ _ _ _ _ (proj1 Hs))) as (notes & Hl' & Hnotes).
    by eapply in_step_notes.
  - split; [congruence|]. destruct Ha as (before & t & (Hf & Hs & Hb) & Hid & Hu & Ht).
    destruct (grows_noted hook_prompt_text standard_contextual_text inter_agent policy before t s s' Hn) as [new Hg];
      [eexists; apply (file_live _ _ _ _ _ _ Hf)|done|done|]. by eapply in_user_turn_grows.
Qed.

Lemma usage_same usage tc s s' :
  update_token_usage_info false persistence_mode append_fails usage tc s = (s', Ok tt) →
  items (history s') = items (history s) ∧ reference_context_item (history s') = reference_context_item (history s).
Proof.
  unfold update_token_usage_info. intros (s1 & [] & E & H)%Eff_bind_Ok. injection H as <-.
  unfold send_token_count_event.
  destruct (send_same (mode:=persistence_mode) (append_fails:=append_fails) (TokenCount (token_info (history s1))) s1) as (-> & _).
  destruct usage as [u|]; [|by injection E as <-].
  apply Eff_bind_Ok in E as (s2 & h & E & H). unfold reads, update_token_info in E.
  destruct (new_or_append _ _ _ _) as [info| |]; simpl in E; [|done..]. injection E as <- <-. by injection H as <-.
Qed.

(** A marker at the end of a turn of the user. *)
Lemma ends_in_step id ev s :
  in_user_turn id s → in_turn id (RolloutEvent (P:=P) (R:=R) ev) → inert (RolloutEvent (P:=P) (R:=R) ev) = true →
  ∃ entries, step_of entries (send ev s).
Proof.
  intros (before & t & Hs & <- & Hu & Ht) Hw Hn.
  pose proof (grows_send hook_prompt_text standard_contextual_text inter_agent policy persistence_mode append_fails
    appends_succeed before t ev s Hw Hn) as Hg.
  destruct (in_user_turn_grows before t _ _ _ _ Hs eq_refl Hu Ht Hg) as (b & t' & Hs' & _). by eexists.
Qed.

Lemma step_of_active entries b s : step_of entries s → step_of entries (set_active_turn b s).
Proof. intros ([F1 F2 F3 F4 F5] & Hs & Hb). by split; [split|]. Qed.

Lemma record_in_user_turn id tc l s s' :
  in_user_turn id s → truncation_policy tc = policy → Forall sized l → record l tc s = (s', Ok tt) →
  in_user_turn id s' ∧ active_turn s' = active_turn s.
Proof.
  intros (before & t & Hs & Hid & Hu & Ht) Hp Hl E.
  pose proof (grows_record hook_prompt_text standard_contextual_text inter_agent policy persistence_mode append_fails
    appends_succeed before t l tc s s' Hp Hl E) as Hg.
  split; [by eapply in_user_turn_grows|by apply (grows_active _ _ _ _ _ _ _ _ _ Hg)].
Qed.

(** The interrupted turn: its marker is recorded and kept like any item. *)
Lemma marker_recorded marker tc s :
  abort_turn persistence_mode append_fails tc (Some marker) s =
    (_ ← modify (set_active_turn false); _ ← record [marker] tc;
     modify (send (TurnAborted (Some (sub_id tc))))) s.
Proof.
  unfold abort_turn, record_conversation_items, mbind, Eff_bind, modify.
  by destruct (record_into_history [marker] tc (set_active_turn false s)) as [s1 [[]|e|p]].
Qed.

Lemma abort_in_step tc marker s s' :
  in_user_turn (sub_id tc) s → truncation_policy tc = policy → Forall sized (option_list marker) →
  abort_turn persistence_mode append_fails tc marker s = (s', Ok tt) →
  active_turn s' = false ∧ ∃ entries, step_of entries s'.
Proof.
  intros Hin Hp Hm E.
  assert (Hin' : in_user_turn (sub_id tc) (set_active_turn false s)).
  { destruct Hin as (before & t & Hs & Hrest). exists before, t. split; [by apply step_of_active|done]. }
  assert (Hend : ∀ s1, in_user_turn (sub_id tc) s1 → active_turn s1 = false →
    send (TurnAborted (Some (sub_id tc))) s1 = s' → active_turn s' = false ∧ ∃ entries, step_of entries s').
  { intros s1 H1 H2 <-. split; [|apply (ends_in_step (sub_id tc)); [done|by right|done]].
    by rewrite (proj2 (proj2 (send_same (mode:=persistence_mode) (append_fails:=append_fails) _ s1))). }
  destruct marker as [marker|].
  - rewrite marker_recorded in E. apply Eff_bind_Ok in E as (s1 & [] & E1 & H). injection E1 as <-.
    apply Eff_bind_Ok in H as (s2 & [] & E2 & H). injection H as H.
    destruct (record_in_user_turn _ _ _ _ _ Hin' Hp Hm E2) as [H2 Ha2]. by apply (Hend s2).
  - injection E as E. by apply (Hend (set_active_turn false s)).
Qed.

Lemma compact_in_user_turn tc s s' b :
  in_user_turn (sub_id tc) s → auto_compact tc BeforeLastUserMessage s = (s', Ok b) →
  in_user_turn (sub_id tc) s' ∧ active_turn s' = active_turn s.
Proof.
  intros (before & t & (Hf & Hs & Hb) & Hid & Hu & Ht) E%auto_compact_inv.
  destruct (compaction_in_turn before t tc _ _ _ Hf E) as (new & Hf' & Hset & Href & Hr & Es & Ea); [by intros _|].
  split; [|done]. simpl in Hset, Href, Hr.
  assert (Hu' : user_turn (longer t new) = true) by by rewrite longer_user, Hu.
  assert (Hset' : turn_settings (longer t new) = turn_settings t)
    by (rewrite longer_settings; by destruct (turn_settings t)).
  exists before, (longer t new). split_and!; [split; [done|]|done|done|by rewrite Hset'].
  split.
  - rewrite Es, Hs, !settings_snoc. unfold user_settings. by rewrite Hu, Hu', Hset'.
  - rewrite Hr, baseline_snoc. unfold established. by rewrite Hu', longer_reference, Href.
Qed.

Lemma compact_task_in_step tc prompt s s' entries :
  step_of entries s → compact_task_turn tc prompt s = (s', Ok tt) →
  active_turn s' = false ∧ ∃ entries', step_of entries' s'.
Proof.
  intros (Hf & Hs & Hb). unfold compact_turn. intros (s0 & [] & E & H)%Eff_bind_Ok. injection E as <-.
  destruct (run_compact_by_provider _ _ _ _ _ _ _ _ _ tc prompt (set_active_turn true s)) as [s2 [[]|e|p]] eqn:E2; [|done..].
  injection H as <-. apply compact_task_inv in E2.
  set (s1 := send (TurnStarted (sub_id tc)) (set_active_turn true s)) in *.
  destruct (send_same (mode:=persistence_mode) (append_fails:=append_fails) (TurnStarted (sub_id tc)) (set_active_turn true s))
    as (Eh & Ess & Ea). fold s1 in Eh, Ess, Ea.
  set (t := mkTurn (P:=P) (R:=R) (sub_id tc) []).
  assert (H1 : file_of (entries ++ [ATurn t]) s1).
  { eapply in_file_snoc; [exact Hf|left; by eexists| |by rewrite Eh]. unfold s1.
    rewrite (send_live persistence_mode append_fails appends_succeed _ _ (entries_items entries)) by apply (file_live _ _ _ _ _ _ Hf).
    by rewrite kept_limited. }
  destruct (compaction_in_turn entries t tc _ _ _ H1 E2) as (new & Hf2 & Hset & Href & Hr & Es2 & Ea2); [done|].
  simpl in Hset, Href, Hr.
  pose proof (grows_send hook_prompt_text standard_contextual_text inter_agent policy persistence_mode append_fails
    appends_succeed entries (longer t new) (TurnComplete (sub_id tc)) s2 eq_refl eq_refl) as [G1 G2 G3 G4 G5].
  destruct (longer_free (longer t new) _ G2) as [Eset Eref]. split; [done|].
  eexists. apply step_of_active. split; [by apply G1|]. split.
  - rewrite G3, Es2, Ess, settings_snoc. unfold user_settings. rewrite Eset, longer_settings, Hset. simpl.
    by destruct (user_turn _).
  - rewrite G4, Hr, baseline_snoc. unfold established. rewrite Eref, longer_reference, Href. simpl. by rewrite orb_true_r.
Qed.

(** A checkpoint in force, seen from the scan of the file. *)
Lemma checkpoint_scanned (entries : list (Entry P R)) :
  Forall wf_entry entries → (len entries < usize_max)%N →
  Forall plain (entries_items entries) ∨
  base_replacement_history (scan_rollout hook_prompt_text standard_contextual_text inter_agent (entries_items entries)) ≠ None →
  checkpoint_left hook_prompt_text standard_contextual_text inter_agent entries.
Proof.
  intros Hw Hl [Hp|Hb]; [by left|right]. rewrite base_of_entries in Hb by done.
  destruct (omap turn_base _) as [|b l] eqn:E; [done|].
  assert (Hin : b ∈ omap turn_base (surviving hook_prompt_text standard_contextual_text inter_agent entries))
    by (rewrite E; by left).
  apply list_elem_of_omap in Hin as (t & Ht & Etb). exists t. by rewrite Etb.
Qed.

Lemma len_entries (entries : list (Entry P R)) : (len entries <= len (entries_items entries))%N.
Proof.
  induction entries as [|e l IH]; [done|]. unfold entries_items in *. simpl. rewrite len_app, len_cons.
  assert (1 <= len (entry_items e))%N by (destruct e; simpl; rewrite ?len_cons, ?len_nil; lia). lia.
Qed.

Lemma rollback_in_step tc n s s' entries :
  step_of entries s → truncation_policy tc = policy → n ≠ 0%N → active_turn s = false →
  (len (entries_items entries) + 1 < usize_max)%N →
  Forall plain (entries_items entries) ∨ base_replacement_history (rollback_scan (entries_items entries) n) ≠ None →
  rollback tc n None None None s = (s', Ok tt) → active_turn s' = false ∧ ∃ entries', step_of entries' s'.
Proof.
  intros ([Hlive Hw Hr (h & Eh & Hh) _] & _) Hp Hn Ha Hl Hc E.
  assert (Hw1 : Forall wf_entry (entries ++ [ARollback n])) by (apply Forall_app; split; [done|by apply Forall_cons_2]).
  assert (Hl1 : (len (entries ++ [ARollback n]) < usize_max)%N)
    by (pose proof (len_entries entries); rewrite len_app, len_cons, len_nil; lia).
  assert (Eitems : entries_items (entries ++ [ARollback n]) = entries_items entries ++ [RolloutEvent (ThreadRolledBack n)])
    by (rewrite entries_items_app; unfold entries_items at 2; done).
  assert (Hr1 : Forall replayable (entries_items (entries ++ [ARollback n])))
    by (rewrite Eitems; apply Forall_app; split; [done|by apply Forall_cons_2]).
  assert (Hc1 : checkpoint_left hook_prompt_text standard_contextual_text inter_agent (entries ++ [ARollback n])).
  { apply checkpoint_scanned; [done..|]. rewrite Eitems. destruct Hc as [Hc|Hc]; [left|by right].
    apply Forall_app. split; [done|by apply Forall_cons_2]. }
  destruct (rollback_reconstructed hook_prompt_text standard_contextual_text inter_agent policy n entries h [] Hw1 Hl1 Hr1 Hc1 Eh eq_refl)
    as (h' & Ed & Er). simpl in Er. rewrite Eitems in Er. rewrite <-Hp in Er.
  destruct (rollback_spec_session persistence_mode append_fails appends_succeed hook_prompt_text standard_contextual_text
    inter_agent estimated_tokens tc n s _ _ Hlive Ha Hn Er) as (s1 & info & E1 & Hi & Href & Hset & Hl' & Ha').
  rewrite E in E1. injection E1 as <-. simpl in Hi, Href, Hset. split; [congruence|].
  exists (entries ++ [ANote (RolloutEvent (TokenCount info)); ARollback n]).
  assert (Eitems2 : entries_items (entries ++ [ANote (RolloutEvent (TokenCount info)); ARollback n]) =
    entries_items entries ++ [RolloutEvent (TokenCount info); RolloutEvent (ThreadRolledBack n)])
    by (rewrite entries_items_app; unfold entries_items at 2; done).
  split; [split|split].
  - by rewrite Eitems2.
  - apply Forall_app. split; [done|]. by apply Forall_cons_2; [|apply Forall_cons_2].
  - rewrite Eitems2. apply Forall_app. split; [done|]. by apply Forall_cons_2; [|apply Forall_cons_2].
  - exists h'. rewrite Eitems2, run_rollout_app, Eh. cbn [mbind Res_bind]. simpl. rewrite Ed. split; [done|congruence].
  - by apply checkpoint_left_note.
  - rewrite Hset. unfold settings_left. by rewrite surviving_note.
  - rewrite Href. unfold baseline_left. by rewrite surviving_note.
Qed.

Lemma resume_in_step tc entries s b sri s' :
  step_of entries s → truncation_policy tc = policy → (len (entries_items entries) < usize_max)%N →
  record_initial_history hook_prompt_text standard_contextual_text inter_agent persistence_mode append_fails tc
    (Resumed (entries_items entries)) (mkSession new_history None b false sri (Some (entries_items entries)) []) = (s', Ok tt) →
  active_turn s' = false ∧ step_of entries s'.
Proof.
  intros Hst Hp Hl.
  destruct (in_step_reconstructed hook_prompt_text standard_contextual_text inter_agent policy entries s Hst Hl)
    as (r & Er & Hi & Hset & Href). destruct Hst as ([F1 F2 F3 F4 F5] & Hs & Hb).
  unfold record_initial_history. intros (s1 & [] & E1 & H)%Eff_bind_Ok. injection E1 as <-.
  apply Eff_bind_Ok in H as (s2 & previous & E2 & H).
  unfold apply_rollout_reconstruction, mbind, Eff_bind, lift in E2. rewrite Hp, Er in E2. simpl in E2. injection E2 as <- <-.
  match type of H with _ ?s0 = _ => set (s2 := s0) in H end.
  assert (Hs2 : items (history s2) = r_history r ∧ reference_context_item (history s2) = r_reference_context_item r ∧
    session_settings s2 = r_previous_turn_settings r ∧ active_turn s2 = false ∧
    live_thread s2 = Some (entries_items entries)) by done.
  clearbody s2. destruct Hs2 as (Hi2 & Href2 & Hset2 & Ha2 & Hl2).
  apply Eff_bind_Ok in H as (s3 & [] & E3 & H). injection H as <-.
  assert (H3 : history s3 = history s2 ∧ session_settings s3 = session_settings s2 ∧ active_turn s3 = false ∧
    live_thread s3 = Some (entries_items entries)).
  { destruct (r_previous_turn_settings r) as [p|]; [destruct (decide _)|]; [by injection E3 as <-| |by injection E3 as <-].
    injection E3 as <-.
    match goal with |- context [send_event_raw _ _ ?ev ?s0] =>
      destruct (send_same (mode:=persistence_mode) (append_fails:=append_fails) ev s0) as (-> & -> & ->);
      rewrite (send_live persistence_mode append_fails appends_succeed ev s0 (entries_items entries) Hl2) end.
    rewrite kept_none by done. by rewrite app_nil_r. }
  destruct H3 as (Eh & Es & Ea & El).
  assert (Hseed : ∀ l, items (history (seed_token_info l s3)) = items (history s3) ∧
    reference_context_item (history (seed_token_info l s3)) = reference_context_item (history s3) ∧
    session_settings (seed_token_info l s3) = session_settings s3 ∧
    active_turn (seed_token_info l s3) = active_turn s3 ∧ live_thread (seed_token_info l s3) = live_thread s3).
  { intros l. unfold seed_token_info. by destruct (last_token_info_from_rollout l). }
  destruct (Hseed (entries_items entries)) as (G1 & G2 & G3 & G4 & G5). split; [congruence|].
  split; [split|split]; try done; try congruence.
  rewrite G1, Eh, Hi2, Hi. exact F4.
Qed.

Lemma lives_agree ph s : lives ph s → agrees ph s.
Proof.
  induction 1 as [h b sri Hi Hr|ph s ev _ IH Hn|ph s usage tc s' _ IH E|s tc x i s' _ IH Hp Hx Hinj E
    |s id tc l s' _ IH Hp Hl E|s tc s' b _ IH E|s tc _ IH|s tc marker s' _ IH Hp Hm E|s tc prompt s' _ IH E
    |s tc n stored s' _ IH Hp Hn Hl Hlen Hc E|ph s tc stored b sri s' _ IH Hp Hl Hlen E].
  - split; [done|]. exists [ANote SessionMeta]. split; [|done]. split; try done.
    + by repeat constructor.
    + by repeat constructor.
    + by exists new_history.
    + left. by repeat constructor.
  - destruct (send_same (mode:=persistence_mode) (append_fails:=append_fails) ev s) as (Eh & _).
    eapply agrees_noted; [exact IH|by apply (noted_send persistence_mode append_fails appends_succeed)|by rewrite Eh..].
  - destruct (usage_same _ _ _ _ E) as [Hi Hr]. eapply agrees_noted; [exact IH| |done..].
    pose proof (quiet_usage persistence_mode append_fails appends_succeed usage tc s) as Hq. by rewrite E in Hq.
  - destruct IH as (_ & entries & Hs). destruct (start_in_user_turn _ _ _ _ _ _ Hs Hp Hx Hinj E). by split.
  - destruct IH as (Ha & Hin). destruct (record_in_user_turn _ _ _ _ _ Hin Hp Hl E). split; [congruence|done].
  - destruct IH as (Ha & Hin). destruct (compact_in_user_turn _ _ _ _ Hin E). split; [congruence|done].
  - destruct IH as (_ & Hin). split; [done|].
    destruct (ends_in_step _ (TurnComplete (sub_id tc)) _ Hin eq_refl eq_refl) as [entries Hs].
    exists entries. by apply step_of_active.
  - destruct IH as (_ & Hin). by eapply abort_in_step.
  - destruct IH as (_ & entries & Hs). by eapply compact_task_in_step.
  - destruct IH as (Ha & entries & Hs). pose proof (file_live _ _ _ _ _ _ (proj1 Hs)) as Hlive.
    rewrite Hl in Hlive. injection Hlive as ->. by eapply rollback_in_step.
  - destruct (agrees_in_step _ _ IH) as [entries Hs]. pose proof (file_live _ _ _ _ _ _ (proj1 Hs)) as Hlive.
    rewrite Hl in Hlive. injection Hlive as ->. destruct (resume_in_step _ _ _ _ _ _ Hs Hp Hlen E) as [? ?].
    split; [done|by exists entries].
Qed.

(** C16. Resuming a thread restores what it was, for the lives that [lives]
    describes: turns of the user that get as far as recording their prompt,
    with compactions before and within them, finished or interrupted after
    that; compactions that are asked for, rollbacks and earlier resumptions,
    in any order.  At every state of such a life, between two of these steps,
    the history, the settings of the last turn and the baseline of the context
    that are rebuilt from the file are those that the session has in memory, so
    that a process that ends there loses nothing.  Not every life is like this:
    what [lives] leaves out is listed there, and C21 shows the difference a
    refused image makes. *)
Theorem resuming_restores_session ph s :
  lives ph s →
  ∃ stored, live_thread s = Some stored ∧
    ((len stored < usize_max)%N →
     ∃ r, reconstruct_history_from_rollout hook_prompt_text standard_contextual_text inter_agent policy stored = Ok r ∧
       r_history r = items (history s) ∧ r_previous_turn_settings r = session_settings s ∧
       r_reference_context_item r = reference_context_item (history s)).
Proof.
  intros (entries & Hs)%lives_agree%agrees_in_step. exists (entries_items entries).
  split; [apply (file_live _ _ _ _ _ _ (proj1 Hs))|]. by apply in_step_reconstructed.
Qed.

Lemma replaced_images_differ {T} f g placeholder (h : ContextManager P T) :
  (replace_last_turn_images f g placeholder h).2 = true →
  items (replace_last_turn_images f g placeholder h).1 ≠ items h.
Proof.
  unfold replace_last_turn_images. destruct (rposition _ (items h)) as [i|]; [|done].
  destruct (items h !! i) as [[]|] eqn:Ei; try done. destruct (body output) as [|l] eqn:Eb; [done|]. cbn [fst snd].
  intros Hx. rewrite Hx. intros E. cbn [items bump_version with_items] in E.
  pose proof (f_equal (λ k, k !! i) E) as Ei'. cbv beta in Ei'.
  rewrite Ei, list_lookup_insert_eq in Ei' by (by eapply lookup_lt_Some). injection Ei' as Eo.
  apply (f_equal body) in Eo. rewrite Eb in Eo. cbn [body] in Eo. injection Eo as Em.
  assert (Hno : existsb is_output_image (map (strip_output_item placeholder) l) = false)
    by (clear; induction l as [|[] l IH]; simpl; auto).
  congruence.
Qed.

(** C21. An image that the model refuses is taken out of the memory only.  The
    turn goes on without it, but the thread resumed from its file has it
    again. *)
Theorem refused_image_returns ph s s' :
  lives ph s →
  replace_invalid_image false hook_prompt_text standard_contextual_text inter_agent persistence_mode append_fails s =
    (s', Ok true) →
  ∃ stored, live_thread s' = Some stored ∧
    ((len stored < usize_max)%N →
     ∃ r, reconstruct_history_from_rollout hook_prompt_text standard_contextual_text inter_agent policy stored = Ok r ∧
       r_history r = items (history s) ∧ items (history s') ≠ items (history s)).
Proof.
  intros (entries & Hs)%lives_agree%agrees_in_step. unfold replace_invalid_image.
  intros (s1 & [] & E1 & H)%Eff_bind_Ok. injection E1 as <-.
  apply Eff_bind_Ok in H as (s2 & rep & E2 & H). injection E2 as <- Erep.
  apply Eff_bind_Ok in H as (s3 & [] & E3 & H). injection E3 as <-.
  destruct (rep.2) eqn:Etrue; [|by apply Eff_bind_Ok in H as (s4 & [] & _ & H)].
  injection H as <-. exists (entries_items entries). split; [apply (file_live _ _ _ _ _ _ (proj1 Hs))|].
  intros Hl. destruct (in_step_reconstructed hook_prompt_text standard_contextual_text inter_agent policy entries s Hs Hl)
    as (r & Er & Hi & _). exists r. split_and!; [done|done|]. subst rep. simpl. by apply replaced_images_differ.
Qed.
End starting.

(** ** Example *)

Lemma with_result {A B} (m : A * B) s r : s = m.1 → m.2 = r → m = (s, r).
Proof. destruct m. by intros -> <-. Qed.

(** A turn with an answer and a compaction in the middle of it, with a request
    that does not fit and one that breaks off, and a rollback of a second turn,
    which was compacted by its provider. *)
Definition demo_model (tc : TurnConfig unit) (_ : str) : TurnConfig unit := tc.
Definition demo_updates (_ : TurnContextItem unit) (_ : option PreviousTurnSettings) (_ : TurnConfig unit) :
  list (ResponseItem unit) := [].
Definition no_injections : Injections unit := mkInjections [] [] [] [].
Definition later_config : TurnConfig unit :=
  mkTurnConfig (PolicyBytes 100) None [] None true true (lit "m3") 2 (lit "3") false (lit "summarize") ().
Local Abbreviation demo_start :=
  (start_user_turn false no_text no_text demo_agent Limited no_failure no_estimate demo_context demo_updates demo_model
     (λ _, None) (λ _, None) demo_answers demo_services).
Local Abbreviation demo_compact :=
  (run_auto_compact false no_text no_text Limited no_failure no_estimate demo_context demo_answers demo_services).
Definition demo0 : Session unit unit := mkSession new_history None true false false (Some [SessionMeta]) [].
Definition demo1 := (demo_start demo_config (demo_said "user" "first") no_injections demo0).1.
Definition demo2 := (record_conversation_items Limited no_failure [demo_said "assistant" "answer"] demo_config demo1).1.
Definition demo3 := (demo_compact demo_config BeforeLastUserMessage demo2).1.
Definition demo4 := finish_turn Limited no_failure demo_config demo3.
Definition demo5 := (demo_start later_config (demo_said "user" "second") no_injections demo4).1.
Definition demo_compacted := (demo_compact later_config BeforeLastUserMessage demo5).1.
Definition demo6 := finish_turn Limited no_failure later_config demo_compacted.
Definition demo7 :=
  (thread_rollback no_text no_text demo_agent Limited no_failure no_estimate demo_config 1 None None None demo6).1.

Lemma resuming_restores_session_witness :
  ∃ stored r, live_thread demo7 = Some stored ∧
    reconstruct_history_from_rollout no_text no_text demo_agent (PolicyBytes 100) stored = Ok r ∧
    r_history r = items (history demo7) ∧ r_previous_turn_settings r = Some (mkSettings (lit "m2") (Some false)) ∧
    length (r_history r) = 3%nat.
Proof.
  assert (Hin : ∀ tc s, Forall sized (demo_context tc s)) by (intros; repeat constructor).
  assert (Hup : ∀ reference settings tc, Forall sized (demo_updates reference settings tc)) by (intros; constructor).
  assert (Hno : injections_sized no_injections) by (repeat split; constructor).
  destruct (resuming_restores_session no_text no_text demo_agent (PolicyBytes 100) Limited no_failure (λ _ _, eq_refl)
    no_estimate demo_context demo_updates demo_model (λ _, None) (λ _, None) demo_answers demo_services Hin Hup Idle demo7)
    as (stored & Hl & Hr).
  { eapply lives_rollback with (tc := demo_config) (n := 1%N).
    - eapply (lives_finish _ _ _ _ _ _ _ _ _ _ _ _ _ _ demo_compacted later_config).
      eapply lives_compact with (s := demo5) (tc := later_config);
        [|by apply with_result; [reflexivity|vm_compute; reflexivity]].
      apply lives_start with (s := demo4) (tc := later_config) (x := demo_said "user" "second") (i := no_injections).
      + eapply (lives_finish _ _ _ _ _ _ _ _ _ _ _ _ _ _ demo3 demo_config).
        eapply lives_compact with (s := demo2) (tc := demo_config);
          [|by apply with_result; [reflexivity|vm_compute; reflexivity]].
        * apply lives_record with (s := demo1) (tc := demo_config) (l := [demo_said "assistant" "answer"]).
          -- apply lives_start with (s := demo0) (tc := demo_config) (x := demo_said "user" "first") (i := no_injections);
               [by apply lives_new|done|done|done|]. by apply with_result; [reflexivity|vm_compute].
          -- done.
          -- apply Forall_cons_2; [by vm_compute|by apply Forall_nil_2].
          -- by apply with_result; [reflexivity|vm_compute].
      + done.
      + done.
      + done.
      + by apply with_result; [reflexivity|vm_compute].
    - done.
    - done.
    - by vm_compute.
    - by vm_compute.
    - right. by vm_compute.
    - by apply with_result; [reflexivity|vm_compute]. }
  assert (Hlen : (len stored < usize_max)%N).
  { enough (Hx : (λ o, match o with Some l => (len l <? usize_max)%N | None => false end) (live_thread demo7) = true)
      by (rewrite Hl in Hx; by apply N.ltb_lt in Hx). by vm_compute. }
  destruct (Hr Hlen) as (r & Er & Hi & Hs & _). exists stored, r. split_and!; [done|done|done|..].
  - rewrite Hs. by vm_compute.
  - rewrite Hi. by vm_compute.
Defined.

Definition image_output : ResponseItem unit :=
  FunctionCallOutput (lit "call") (mkPayload (BodyContentItems [OutputInputImage (lit "data:x") None]) None).
Definition demo_image := (record_conversation_items Limited no_failure [image_output] demo_config demo1).1.
Local Abbreviation refuse_image := (replace_invalid_image false no_text no_text demo_agent Limited no_failure).

Lemma refused_image_returns_witness :
  let s' := (refuse_image demo_image).1 in
  ∃ stored r, live_thread s' = Some stored ∧
    reconstruct_history_from_rollout no_text no_text demo_agent (PolicyBytes 100) stored = Ok r ∧
    r_history r = items (history demo_image) ∧ items (history s') ≠ items (history demo_image).
Proof.
  assert (Hin : ∀ tc s, Forall sized (demo_context tc s)) by (intros; repeat constructor).
  assert (Hup : ∀ reference settings tc, Forall sized (demo_updates reference settings tc)) by (intros; constructor).
  assert (Hno : injections_sized no_injections) by (repeat split; constructor).
  destruct (refused_image_returns no_text no_text demo_agent (PolicyBytes 100) Limited no_failure (λ _ _, eq_refl)
    no_estimate demo_context demo_updates demo_model (λ _, None) (λ _, None) demo_answers demo_services Hin Hup
    (UserTurn (lit "2")) demo_image (refuse_image demo_image).1) as (stored & Hl & Hr).
  - apply lives_record with (s := demo1) (tc := demo_config) (l := [image_output]).
    + apply lives_start with (s := demo0) (tc := demo_config) (x := demo_said "user" "first") (i := no_injections);
        [by apply lives_new|done|done|done|]. by apply with_result; [reflexivity|vm_compute].
    + done.
    + apply Forall_cons_2; [|by apply Forall_nil_2]. split; [|by vm_compute]. intros t Ht.
      by apply list_elem_of_singleton in Ht.
    + by apply with_result; [reflexivity|vm_compute].
  - by apply with_result; [reflexivity|vm_compute].
  - assert (Hlen : (len stored < usize_max)%N).
    { enough (Hx : (λ o, match o with Some l => (len l <? usize_max)%N | None => false end)
        (live_thread (refuse_image demo_image).1) = true) by (rewrite Hl in Hx; by apply N.ltb_lt in Hx). by vm_compute. }
    destruct (Hr Hlen) as (r & Er & Hi & Hne). exists stored, r. by split_and!.
Defined.
