(* ===== verification/AgentRegistry.v ===== *)
(** * The registry of sub-agents: [core/src/agent/registry.rs]

    All agents of a session share one registry, which limits how many there
    are.  An agent is spawned in steps: a slot is reserved by counting up
    [total_count] with a compare-and-exchange loop, a nickname and a path are
    reserved under the lock, and the reservation is committed; a reservation
    that is dropped gives its slot and its path back.  Releasing an agent
    removes its entry under the lock and then counts down.

    Several threads do this at once.  What happens under the lock is one
    step, and so is every atomic operation; threads interleave between steps
    ([step]).  The counter wraps around at 64 bits. *)
From S2P Require Import Prelude RustStr MachineInt.
Local Open Scope N_scope.

Section registry.
(** Thread ids and how they are displayed *)
Context {ThreadId : Type} `{!EqDecision ThreadId} (display : ThreadId → str).

(** ** Data; an [AgentPath] is its string *)

Definition ROOT : str := lit "/root".
Definition is_root (agent_path : str) : bool := bool_decide (agent_path = ROOT).

Record AgentMetadata := mkMetadata {
  agent_id : option ThreadId;
  agent_path : option str;
  agent_nickname : option str;
  agent_role : option str;
  last_task_message : option str
}.
Definition metadata_default : AgentMetadata := mkMetadata None None None None None.

Record AgentRegistry := mkRegistry {
  agent_tree : gmap str AgentMetadata;
  used_agent_nicknames : gset str;
  nickname_reset_count : N;
  total_count : N
}.
Definition registry_default : AgentRegistry := mkRegistry ∅ ∅ 0 0.

Record SpawnReservation := mkReservation {
  active : bool;
  reserved_agent_nickname : option str;
  reserved_agent_path : option str
}.

Inductive SessionSource :=
| ThreadSpawn (depth : Z)
| OtherSource.

(** ** Operations *)

Definition with_tree (tree : gmap str AgentMetadata) (s : AgentRegistry) : AgentRegistry :=
  mkRegistry tree (used_agent_nicknames s) (nickname_reset_count s) (total_count s).
Definition with_count (n : N) (s : AgentRegistry) : AgentRegistry :=
  mkRegistry (agent_tree s) (used_agent_nicknames s) (nickname_reset_count s) n.
Definition use_nickname (name : str) (s : AgentRegistry) : AgentRegistry :=
  mkRegistry (agent_tree s) ({[name]} ∪ used_agent_nicknames s) (nickname_reset_count s) (total_count s).

(** [fetch_add(1)] and [fetch_sub(1)] *)
Definition fetch_add_1 (s : AgentRegistry) : AgentRegistry :=
  with_count ((total_count s + 1) mod 2 ^ 64) s.
Definition fetch_sub_1 (s : AgentRegistry) : AgentRegistry :=
  with_count ((total_count s + (2 ^ 64 - 1)) mod 2 ^ 64) s.

Definition format_agent_nickname (name : str) (nickname_reset_count : N) : str :=
  if nickname_reset_count =? 0 then name
  else
    let value := nickname_reset_count + 1 in
    let suffix :=
      if (11 <=? value mod 100) && (value mod 100 <=? 13) then lit "th"
      else match value mod 10 with
           | 1 => lit "st"
           | 2 => lit "nd"
           | 3 => lit "rd"
           | _ => lit "th"
           end in
    name ++ lit " the " ++ show_N value ++ suffix.

Definition i32_max : Z := 2147483647%Z.
Definition session_depth (session_source : SessionSource) : Z :=
  match session_source with ThreadSpawn depth => depth | OtherSource => 0%Z end.
Definition next_thread_spawn_depth (session_source : SessionSource) : Z :=
  Z.min i32_max (session_depth session_source + 1).
Definition exceeds_thread_spawn_depth_limit (depth max_depth : Z) : bool := (max_depth <? depth)%Z.

Definition is_root_metadata (m : AgentMetadata) : bool :=
  match agent_path m with Some p => is_root p | None => false end.

(** The part of [release_spawned_thread] under the lock, with the order in
    which the map is iterated: the new state, and whether to count down. *)
Definition release_locked (order : list (str * AgentMetadata)) (thread_id : ThreadId) (s : AgentRegistry)
    : AgentRegistry * bool :=
  match List.find (λ e, bool_decide (agent_id e.2 = Some thread_id)) order with
  | Some (key, _) =>
      match agent_tree s !! key with
      | Some metadata => (with_tree (delete key (agent_tree s)) s, negb (is_root_metadata metadata))
      | None => (s, false)
      end
  | None => (s, false)
  end.

Definition register_root_thread (thread_id : ThreadId) (s : AgentRegistry) : AgentRegistry :=
  match agent_tree s !! ROOT with
  | Some _ => s
  | None => with_tree (<[ROOT := mkMetadata (Some thread_id) (Some ROOT) None None None]> (agent_tree s)) s
  end.

Definition agent_id_for_path (agent_path : str) (s : AgentRegistry) : option ThreadId :=
  metadata ← agent_tree s !! agent_path; agent_id metadata.

Definition agent_metadata_for_thread (order : list (str * AgentMetadata)) (thread_id : ThreadId)
    : option AgentMetadata :=
  snd <$> List.find (λ e, bool_decide (agent_id e.2 = Some thread_id)) order.

Definition is_live (m : AgentMetadata) : bool :=
  match agent_id m with Some _ => negb (is_root_metadata m) | None => false end.
Definition live_agents (order : list (str * AgentMetadata)) : list AgentMetadata :=
  List.filter is_live (map snd order).

Definition update_last_task_message (order : list (str * AgentMetadata)) (thread_id : ThreadId)
    (message : str) (s : AgentRegistry) : AgentRegistry :=
  match List.find (λ e, bool_decide (agent_id e.2 = Some thread_id)) order with
  | Some (key, m) =>
      with_tree (<[key := mkMetadata (agent_id m) (agent_path m) (agent_nickname m) (agent_role m)
                            (Some message)]> (agent_tree s)) s
  | None => s
  end.

Definition metadata_key (m : AgentMetadata) (thread_id : ThreadId) : str :=
  match agent_path m with
  | Some p => p
  | None => lit "thread:" ++ display thread_id
  end.

Definition register_spawned_thread (m : AgentMetadata) (s : AgentRegistry) : AgentRegistry :=
  match agent_id m with
  | None => s
  | Some thread_id =>
      let s := match agent_nickname m with Some name => use_nickname name s | None => s end in
      with_tree (<[metadata_key m thread_id := m]> (agent_tree s)) s
  end.

(** [choose] is the random choice of [rand]. *)
Definition reserve_agent_nickname (choose : list str → option str) (names : list str)
    (preferred : option str) (s : AgentRegistry) : AgentRegistry * option str :=
  match preferred with
  | Some preferred => (use_nickname preferred s, Some preferred)
  | None =>
      match names with
      | [] => (s, None)
      | _ =>
          let available_names :=
            List.filter (λ name, negb (bool_decide (name ∈ used_agent_nicknames s)))
              (map (λ name, format_agent_nickname name (nickname_reset_count s)) names) in
          match choose available_names with
          | Some name => (use_nickname name s, Some name)
          | None =>
              let s := mkRegistry (agent_tree s) ∅ (nickname_reset_count s + 1) (total_count s) in
              match choose names with
              | Some name =>
                  let nickname := format_agent_nickname name (nickname_reset_count s) in
                  (use_nickname nickname s, Some nickname)
              | None => (s, None)
              end
          end
      end
  end.

Definition reserve_agent_path (p : str) (s : AgentRegistry) : AgentRegistry * bool :=
  match agent_tree s !! p with
  | Some _ => (s, false)
  | None => (with_tree (<[p := mkMetadata None (Some p) None None None]> (agent_tree s)) s, true)
  end.

Definition release_reserved_agent_path (p : str) (s : AgentRegistry) : AgentRegistry :=
  match agent_tree s !! p with
  | Some m => match agent_id m with
              | None => with_tree (delete p (agent_tree s)) s
              | Some _ => s
              end
  | None => s
  end.

(** ** Threads

    What a thread is doing inside the registry, or holds from it. *)
Inductive task :=
| Increment (max_threads current : N)  (** in the loop of [try_increment_spawned] *)
| Holding (r : SpawnReservation)       (** has an active reservation *)
| Dropping                             (** in [drop], the path given back *)
| Releasing.                           (** in [release_spawned_thread], the entry removed *)

Definition new_reservation : SpawnReservation := mkReservation true None None.

Record world := mkWorld { registry : AgentRegistry; tasks : list task }.

(** The compare-and-exchange of the loop: the weak form may fail although the
    values agree ([spurious]). *)
Definition increment_step (spurious : bool) (max_threads current : N) (s : AgentRegistry)
    : AgentRegistry * option task :=
  if max_threads <=? current then (s, None)
  else if bool_decide (total_count s = current) && negb spurious then
    (with_count (current + 1) s, Some (Holding new_reservation))
  else (s, Some (Increment max_threads (total_count s))).

(** One step of one thread.  [allowed] are the limits that callers pass to
    [reserve_spawn_slot].  A commit is made as [prepare_thread_spawn] and its
    callers make it: with a thread id that is not registered yet, and with
    the path that was reserved, if any; agent paths are absolute and reserved
    ones are not the root, and one reservation reserves one path. *)
Inductive step (allowed : option N → Prop) : world → world → Prop :=
| step_reserve_limited max_threads s ts :
    allowed (Some max_threads) →
    step allowed (mkWorld s ts) (mkWorld s (Increment max_threads (total_count s) :: ts))
| step_reserve_unlimited s ts :
    allowed None →
    step allowed (mkWorld s ts) (mkWorld (fetch_add_1 s) (Holding new_reservation :: ts))
| step_increment spurious max_threads current s s' o ts1 ts2 :
    max_threads <= usize_max → (* a [usize] *)
    increment_step spurious max_threads current s = (s', o) →
    step allowed (mkWorld s (ts1 ++ Increment max_threads current :: ts2))
                 (mkWorld s' (ts1 ++ option_list o ++ ts2))
| step_nickname choose names preferred r s s' name ts1 ts2 :
    reserve_agent_nickname choose names preferred s = (s', Some name) →
    step allowed (mkWorld s (ts1 ++ Holding r :: ts2))
      (mkWorld s' (ts1 ++ Holding (mkReservation (active r) (Some name) (reserved_agent_path r)) :: ts2))
| step_no_nickname choose names preferred r s s' ts1 ts2 :
    reserve_agent_nickname choose names preferred s = (s', None) →
    step allowed (mkWorld s (ts1 ++ Holding r :: ts2)) (mkWorld s' (ts1 ++ Holding r :: ts2))
| step_path p r s s' ts1 ts2 :
    [c_slash] `prefix_of` p → p ≠ ROOT → reserved_agent_path r = None →
    reserve_agent_path p s = (s', true) →
    step allowed (mkWorld s (ts1 ++ Holding r :: ts2))
      (mkWorld s' (ts1 ++ Holding (mkReservation (active r) (reserved_agent_nickname r) (Some p)) :: ts2))
| step_commit m thread_id r s ts1 ts2 :
    agent_id m = Some thread_id → agent_path m = reserved_agent_path r →
    (∀ key m', agent_tree s !! key = Some m' → agent_id m' ≠ Some thread_id) →
    step allowed (mkWorld s (ts1 ++ Holding r :: ts2)) (mkWorld (register_spawned_thread m s) (ts1 ++ ts2))
| step_drop r s ts1 ts2 :
    step allowed (mkWorld s (ts1 ++ Holding r :: ts2))
      (mkWorld (match reserved_agent_path r with
                | Some p => release_reserved_agent_path p s
                | None => s
                end) (ts1 ++ Dropping :: ts2))
| step_dropped s ts1 ts2 :
    step allowed (mkWorld s (ts1 ++ Dropping :: ts2)) (mkWorld (fetch_sub_1 s) (ts1 ++ ts2))
| step_release order thread_id s s' b ts :
    order ≡ₚ map_to_list (agent_tree s) → release_locked order thread_id s = (s', b) →
    step allowed (mkWorld s ts) (mkWorld s' (if (b : bool) then Releasing :: ts else ts))
| step_released s ts1 ts2 :
    step allowed (mkWorld s (ts1 ++ Releasing :: ts2)) (mkWorld (fetch_sub_1 s) (ts1 ++ ts2))
| step_root thread_id s ts :
    step allowed (mkWorld s ts) (mkWorld (register_root_thread thread_id s) ts)
| step_message order thread_id message s ts :
    order ≡ₚ map_to_list (agent_tree s) →
    step allowed (mkWorld s ts) (mkWorld (update_last_task_message order thread_id message s) ts).

Definition initial : world := mkWorld registry_default [].
End registry.

(** ** The count is exact *)

Section count.
Context {ThreadId : Type} `{!EqDecision ThreadId} (display : ThreadId → str) `{!Inj (=) (=) display}.
#[local] Set Default Proof Using "Type*".
Local Abbreviation metadata := (AgentMetadata (ThreadId:=ThreadId)).
Implicit Types (tree : gmap str metadata) (m : metadata) (w : world (ThreadId:=ThreadId))
  (s : AgentRegistry (ThreadId:=ThreadId)) (ts : list task).

(** Agents that count, and slots that threads hold. *)
Definition live_count tree : N := len (live_agents (map_to_list tree)).
Definition slot (t : task) : N := match t with Increment _ _ => 0 | Holding _ | Dropping | Releasing => 1 end.
Definition slots ts : N := foldr (λ t n, slot t + n) 0 ts.

Lemma slots_app ts ts' : slots (ts ++ ts') = slots ts + slots ts'.
Proof. induction ts; simpl; lia. Qed.
Lemma slots_cons t ts : slots (t :: ts) = slot t + slots ts.
Proof. done. Qed.

Definition live_1 m : N := if is_live m then 1 else 0.

Lemma live_agents_Permutation (o o' : list (str * metadata)) :
  o ≡ₚ o' → len (live_agents o) = len (live_agents o').
Proof.
  intros Ho. unfold len. f_equal. unfold live_agents. induction Ho as [|x l l' _ IH|x y l|l l' l'' _ IH _ IH'];
    simpl; [done| | |congruence].
  - destruct (is_live x.2); simpl; congruence.
  - by destruct (is_live x.2), (is_live y.2).
Qed.

Lemma live_count_insert tree k m :
  tree !! k = None → live_count (<[k := m]> tree) = live_1 m + live_count tree.
Proof.
  intros Hk. unfold live_count. rewrite (live_agents_Permutation _ _ (map_to_list_insert tree k m Hk)).
  unfold live_agents, live_1. simpl. destruct (is_live m); [by rewrite len_cons|done].
Qed.
Lemma live_count_delete tree k m :
  tree !! k = Some m → live_count tree = live_1 m + live_count (delete k tree).
Proof.
  intros Hk. rewrite <-(live_count_insert (delete k tree) k m) by apply lookup_delete_eq.
  f_equal. symmetry. by apply insert_delete_id.
Qed.
Lemma live_count_replace tree k m m' :
  tree !! k = Some m → live_1 m + live_count (<[k := m']> tree) = live_1 m' + live_count tree.
Proof.
  intros Hk. rewrite <-insert_delete_eq, live_count_insert by apply lookup_delete_eq.
  rewrite (live_count_delete _ _ _ Hk). lia.
Qed.

Lemma unregistered_not_live m : agent_id m = None → live_1 m = 0.
Proof. unfold live_1, is_live. by intros ->. Qed.

(** *** The invariant *)

(** An entry is stored under its path, or under its thread id. *)
Definition entry_ok (k : str) m : Prop :=
  (agent_path m = Some k ∧ [c_slash] `prefix_of` k) ∨
  (agent_path m = None ∧ ∃ thread_id, agent_id m = Some thread_id ∧ k = lit "thread:" ++ display thread_id).

Definition held_path (t : task) : option str :=
  match t with Holding r => reserved_agent_path r | _ => None end.

(** The entries of reserved paths wait for their agents. *)
Definition held_ok tree (p : str) : Prop :=
  p ≠ ROOT ∧ ∃ m, tree !! p = Some m ∧ agent_id m = None.

(** [n] slots are taken, by agents and by threads. *)
Record inv (n : N) w : Prop := {
  inv_count : live_count (agent_tree (registry w)) + slots (tasks w) = n;
  inv_entries : map_Forall entry_ok (agent_tree (registry w));
  inv_held : Forall (held_ok (agent_tree (registry w))) (omap held_path (tasks w));
  inv_distinct : NoDup (omap held_path (tasks w))
}.

Lemma add_mod n : (n mod 2 ^ 64 + 1) mod 2 ^ 64 = (n + 1) mod 2 ^ 64.
Proof. by rewrite N.Div0.add_mod_idemp_l. Qed.
Lemma sub_mod n : ((n + 1) mod 2 ^ 64 + (2 ^ 64 - 1)) mod 2 ^ 64 = n mod 2 ^ 64.
Proof.
  rewrite N.Div0.add_mod_idemp_l. replace (n + 1 + (2 ^ 64 - 1)) with (n + 1 * 2 ^ 64) by lia.
  apply N.Div0.mod_add.
Qed.

Lemma held_insert_new tree k m p : tree !! k = None → held_ok tree p → held_ok (<[k := m]> tree) p.
Proof.
  intros Hk (? & m' & Hp & Hn). split; [done|]. exists m'. split; [|done].
  rewrite lookup_insert_ne; [done|]. by intros ->; rewrite Hk in Hp.
Qed.
Lemma held_other tree k p :
  k ≠ p → ∀ tree', (∀ q, q ≠ k → tree' !! q = tree !! q) → held_ok tree p → held_ok tree' p.
Proof. intros Hne tree' Heq (? & m & Hp & ?). split; [done|]. exists m. by rewrite Heq. Qed.

Lemma held_others tree tree' k (ps : list str) :
  (k ∉ ps) → (∀ q, q ≠ k → tree' !! q = tree !! q) →
  Forall (held_ok tree) ps → Forall (held_ok tree') ps.
Proof.
  intros Hk Heq Hf. apply Forall_forall. intros p Hp. rewrite Forall_forall in Hf.
  eapply held_other; [|done|by apply Hf]. by intros ->.
Qed.

(** The held paths of a list of tasks with one in the middle. *)
Lemma held_middle ts1 t ts2 :
  omap held_path (ts1 ++ t :: ts2) ≡ₚ option_list (held_path t) ++ omap held_path (ts1 ++ ts2).
Proof.
  rewrite !omap_app. cbn [omap list_omap]. destruct (held_path t); simpl; [|done].
  by rewrite Permutation_middle.
Qed.

Lemma held_swap ts1 t t' ts2 :
  held_path t = held_path t' → omap held_path (ts1 ++ t :: ts2) ≡ₚ omap held_path (ts1 ++ t' :: ts2).
Proof. intros H. rewrite !omap_app. cbn [omap list_omap]. by rewrite H. Qed.

Lemma slots_middle ts1 t ts2 : slots (ts1 ++ t :: ts2) = slot t + slots (ts1 ++ ts2).
Proof. rewrite !slots_app, slots_cons. lia. Qed.

(** Replacing a task by others that hold the same paths. *)
Lemma inv_same_tree n n' s s' ts ts' :
  inv n (mkWorld s ts) → agent_tree s' = agent_tree s → n' + slots ts = n + slots ts' →
  omap held_path ts' ≡ₚ omap held_path ts → inv n' (mkWorld s' ts').
Proof.
  intros [Hc He Hh Hd] Ht Hn Hp. simpl in *. split; simpl; rewrite ?Ht; [lia|done|by rewrite Hp|by rewrite Hp].
Qed.

(** *** One lemma for each kind of step *)

Lemma inv_release_locked n order tid s s' b ts :
  inv n (mkWorld s ts) → order ≡ₚ map_to_list (agent_tree s) → release_locked order tid s = (s', b) →
  inv n (mkWorld s' (if b then Releasing :: ts else ts)).
Proof.
  intros [Hc He Hh Hd] Ho Hr. unfold release_locked in Hr. simpl in *.
  destruct (List.find _ order) as [[key m0]|] eqn:Hf; [|by injection Hr as <- <-].
  apply find_some in Hf as [Hin Hid%bool_decide_eq_true]. simpl in Hid.
  assert (Hk : agent_tree s !! key = Some m0).
  { apply elem_of_map_to_list. rewrite <-Ho. by apply list_elem_of_In. }
  rewrite Hk in Hr. injection Hr as <- <-. rewrite (live_count_delete _ _ _ Hk) in Hc.
  unfold live_1, is_live in Hc. rewrite Hid in Hc.
  assert (Hdel : map_Forall entry_ok (delete key (agent_tree s))) by (by apply map_Forall_delete).
  assert (Hheld : Forall (held_ok (delete key (agent_tree s))) (omap held_path ts)).
  { apply (held_others (agent_tree s) _ key); [|intros q Hq; by apply lookup_delete_ne|done].
    intros Hkey. rewrite Forall_forall in Hh. destruct (Hh key Hkey) as (_ & m & Hm & Hn). congruence. }
  destruct (is_root_metadata m0); simpl in *; split; simpl; try done; lia.
Qed.

Lemma inv_root n tid s ts : inv n (mkWorld s ts) → inv n (mkWorld (register_root_thread tid s) ts).
Proof.
  intros [Hc He Hh Hd]. unfold register_root_thread. simpl in *.
  destruct (agent_tree s !! ROOT) eqn:Hr; [by split|]. split; simpl; [| | |done].
  - rewrite live_count_insert by done. exact Hc.
  - apply map_Forall_insert_2; [|done]. left. split; [done|]. by eexists.
  - eapply Forall_impl; [exact Hh|]. intros p. by apply held_insert_new.
Qed.

Lemma inv_message n order tid message s ts :
  inv n (mkWorld s ts) → order ≡ₚ map_to_list (agent_tree s) →
  inv n (mkWorld (update_last_task_message order tid message s) ts).
Proof.
  intros [Hc He Hh Hd] Ho. unfold update_last_task_message. simpl in *.
  destruct (List.find _ order) as [[key m]|] eqn:Hf; [|by split].
  apply find_some in Hf as [Hin Hid%bool_decide_eq_true]. simpl in Hid.
  assert (Hk : agent_tree s !! key = Some m).
  { apply elem_of_map_to_list. rewrite <-Ho. by apply list_elem_of_In. }
  set (m' := mkMetadata _ _ _ _ _). split; simpl; [| | |done].
  - pose proof (live_count_replace _ _ _ m' Hk) as Hl. change (live_1 m') with (live_1 m) in Hl. lia.
  - apply map_Forall_insert_2; [|done]. by destruct (He _ _ Hk) as [?|?]; [left|right].
  - apply (held_others (agent_tree s) _ key); [|intros q Hq; by apply lookup_insert_ne|done].
    intros Hkey. rewrite Forall_forall in Hh. destruct (Hh key Hkey) as (_ & m1 & Hm1 & Hn). congruence.
Qed.

Lemma inv_path n p r s s' ts1 ts2 :
  inv n (mkWorld s (ts1 ++ Holding r :: ts2)) →
  [c_slash] `prefix_of` p → p ≠ ROOT → reserved_agent_path r = None → reserve_agent_path p s = (s', true) →
  inv n (mkWorld s' (ts1 ++ Holding (mkReservation (active r) (reserved_agent_nickname r) (Some p)) :: ts2)).
Proof.
  intros [Hc He Hh Hd] Hp Hroot Hr Hs. unfold reserve_agent_path in Hs. simpl in *.
  destruct (agent_tree s !! p) eqn:Hk; [done|]. injection Hs as <-.
  rewrite slots_middle in Hc. rewrite held_middle in Hh, Hd. simpl in Hc, Hh, Hd. rewrite Hr in Hh, Hd. simpl in *.
  split; simpl; rewrite ?held_middle, ?slots_middle; simpl.
  - rewrite live_count_insert by done. exact Hc.
  - apply map_Forall_insert_2; [by left|done].
  - constructor.
    + split; [done|]. eexists. by rewrite lookup_insert_eq.
    + eapply Forall_impl; [exact Hh|]. intros q. by apply held_insert_new.
  - apply NoDup_cons. split; [|done]. intros Hin. rewrite Forall_forall in Hh.
    destruct (Hh p Hin) as (_ & m & Hm & _). congruence.
Qed.

Lemma inv_drop n r s ts1 ts2 :
  inv n (mkWorld s (ts1 ++ Holding r :: ts2)) →
  inv n (mkWorld (match reserved_agent_path r with Some p => release_reserved_agent_path p s | None => s end)
         (ts1 ++ Dropping :: ts2)).
Proof.
  intros [Hc He Hh Hd]. simpl in *. rewrite slots_middle in Hc. rewrite held_middle in Hh, Hd. simpl in Hc, Hh, Hd.
  destruct (reserved_agent_path r) as [p|].
  - simpl in Hh, Hd. apply Forall_cons in Hh as [(_ & m & Hm & Hn) Hh]. apply NoDup_cons in Hd as [Hp Hd].
    unfold release_reserved_agent_path. rewrite Hm, Hn. split; simpl; rewrite ?held_middle, ?slots_middle; simpl.
    + rewrite (live_count_delete _ _ _ Hm), (unregistered_not_live m) in Hc by done. exact Hc.
    + by apply map_Forall_delete.
    + apply (held_others (agent_tree s) _ p); [done|intros q Hq; by apply lookup_delete_ne|done].
    + done.
  - split; simpl; rewrite ?held_middle, ?slots_middle; simpl; done.
Qed.

(** The key of a commit is free, or is the reserved path. *)
Lemma commit_key n s r m tid ts1 ts2 :
  inv n (mkWorld s (ts1 ++ Holding r :: ts2)) → agent_id m = Some tid → agent_path m = reserved_agent_path r →
  (∀ key m', agent_tree s !! key = Some m' → agent_id m' ≠ Some tid) →
  live_count (<[metadata_key display m tid := m]> (agent_tree s)) = 1 + live_count (agent_tree s) ∧
  entry_ok (metadata_key display m tid) m ∧
  metadata_key display m tid ∉ omap held_path (ts1 ++ ts2).
Proof.
  intros [Hc He Hh Hd] Hid Hpath Hfresh. simpl in *. rewrite held_middle in Hh, Hd. simpl in Hh, Hd.
  unfold metadata_key, entry_ok. rewrite Hpath. destruct (reserved_agent_path r) as [p|] eqn:Hr.
  - simpl in Hh, Hd. apply Forall_cons in Hh as [(Hroot & m0 & Hm & Hn) Hh]. apply NoDup_cons in Hd as [Hp Hd].
    pose proof (live_count_replace _ _ _ m Hm) as Hl. rewrite (unregistered_not_live m0 Hn) in Hl.
    assert (Hlive : live_1 m = 1).
    { unfold live_1, is_live, is_root_metadata. rewrite Hid, Hpath. unfold is_root. by rewrite bool_decide_false. }
    split; [lia|]. split; [|done]. left. split; [done|].
    destruct (He _ _ Hm) as [[_ ?]|(_ & tid' & Hid' & _)]; [done|congruence].
  - assert (Hkey : ∀ k, k = lit "thread:" ++ display tid → agent_tree s !! k = None).
    { intros k ->. destruct (agent_tree s !! _) as [m'|] eqn:Hm'; [|done]. exfalso.
      destruct (He _ _ Hm') as [(_ & [r' Hsl])|(_ & tid' & Hid' & Hk')]; [discriminate Hsl|].
      apply app_inv_head in Hk'. apply (inj display) in Hk' as <-. by eapply Hfresh. }
    split; [|split].
    + rewrite live_count_insert by by apply Hkey. f_equal.
      unfold live_1, is_live, is_root_metadata. by rewrite Hid, Hpath.
    + right. split; [done|]. by exists tid.
    + intros Hin. rewrite Forall_forall in Hh. destruct (Hh _ Hin) as (_ & m' & Hm' & _).
      by rewrite Hkey in Hm'.
Qed.

Lemma inv_commit n m tid r s ts1 ts2 :
  inv n (mkWorld s (ts1 ++ Holding r :: ts2)) → agent_id m = Some tid → agent_path m = reserved_agent_path r →
  (∀ key m', agent_tree s !! key = Some m' → agent_id m' ≠ Some tid) →
  inv n (mkWorld (register_spawned_thread display m s) (ts1 ++ ts2)).
Proof.
  intros Hinv Hid Hpath Hfresh. destruct (commit_key _ _ _ _ _ _ _ Hinv Hid Hpath Hfresh) as (Hl & Hok & Hfree).
  destruct Hinv as [Hc He Hh Hd]. simpl in *. rewrite slots_middle in Hc. rewrite held_middle in Hh, Hd.
  simpl in Hc. apply Forall_app in Hh as [_ Hh]. apply NoDup_app in Hd as (_ & _ & Hd).
  unfold register_spawned_thread. rewrite Hid.
  assert (Ht : agent_tree (match agent_nickname m with Some name => use_nickname name s | None => s end)
               = agent_tree s) by by destruct (agent_nickname m).
  split; simpl; rewrite ?Ht.
  - rewrite Hl. lia.
  - by apply map_Forall_insert_2.
  - apply (held_others (agent_tree s) _ (metadata_key display m tid)); [done| |done].
    intros q Hq. by apply lookup_insert_ne.
  - done.
Qed.

Lemma nickname_tree choose names preferred s s' o :
  reserve_agent_nickname choose names preferred s = (s', o) →
  agent_tree s' = agent_tree s ∧ total_count s' = total_count s.
Proof.
  unfold reserve_agent_nickname. intros H. repeat case_match; by simplify_eq/=.
Qed.

Lemma inv_nickname n choose names preferred r r' s s' o ts1 ts2 :
  inv n (mkWorld s (ts1 ++ Holding r :: ts2)) → reserve_agent_nickname choose names preferred s = (s', o) →
  reserved_agent_path r' = reserved_agent_path r → inv n (mkWorld s' (ts1 ++ Holding r' :: ts2)).
Proof.
  intros Hinv [Ht _]%nickname_tree Hp. eapply inv_same_tree; [exact Hinv|done| |by apply held_swap].
  by rewrite !slots_middle.
Qed.

(** The counter says how many slots are taken, modulo its width. *)
Definition counted (n : N) w : Prop := inv n w ∧ total_count (registry w) = n mod 2 ^ 64.

Lemma counted_increment n spurious max cur s s' o ts1 ts2 :
  counted n (mkWorld s (ts1 ++ Increment max cur :: ts2)) → max <= usize_max →
  increment_step spurious max cur s = (s', o) →
  let w' := mkWorld s' (ts1 ++ option_list o ++ ts2) in
  counted n w' ∨ (counted (n + 1) w' ∧ total_count s < max).
Proof.
  intros [Hinv Hc] Hmax Hi. simpl in Hc. unfold increment_step in Hi. destruct (N.leb_spec max cur) as [Hle|Hlt].
  { injection Hi as <- <-. left. split; [|done]. eapply inv_same_tree; [exact Hinv|done| |].
    - by rewrite slots_middle.
    - by rewrite held_middle. }
  assert (Hagain : counted n (mkWorld s (ts1 ++ Increment max (total_count s) :: ts2))).
  { split; [|done]. eapply inv_same_tree; [exact Hinv|done|by rewrite !slots_middle|by apply held_swap]. }
  destruct (bool_decide_reflect (total_count s = cur)) as [Heq|]; [destruct spurious|];
    simpl in Hi; injection Hi as <- <-; [by left| |by left].
  right. split; [|lia]. split.
  - eapply inv_same_tree; [exact Hinv|done| |by apply held_swap].
    change (n + 1 + slots (ts1 ++ Increment max cur :: ts2) = n + slots (ts1 ++ Holding new_reservation :: ts2)).
    rewrite !slots_middle. simpl. lia.
  - simpl. rewrite <-add_mod, <-Hc, Heq. symmetry. apply N.mod_small. unfold usize_max in Hmax. lia.
Qed.

Lemma counted_sub n s ts1 t ts2 :
  slot t = 1 → held_path t = None → counted n (mkWorld s (ts1 ++ t :: ts2)) →
  ∃ n', n = n' + 1 ∧ counted n' (mkWorld (fetch_sub_1 s) (ts1 ++ ts2)).
Proof.
  intros Ht Hp [Hinv Hc]. assert (Hn : ∃ n', n = n' + 1).
  { destruct Hinv as [Hs _ _ _]. simpl in Hs. rewrite slots_middle, Ht in Hs. exists (n - 1). lia. }
  destruct Hn as [n' ->]. exists n'. split; [done|]. split.
  - eapply inv_same_tree; [exact Hinv|done| |by rewrite held_middle, Hp]. rewrite slots_middle, Ht. lia.
  - simpl in *. rewrite Hc. apply sub_mod.
Qed.

(** What a step does to the number of slots: only reserving one adds to it. *)
Lemma step_counted allowed w w' n :
  step display allowed w w' → counted n w →
  counted n w' ∨ (∃ n', n = n' + 1 ∧ counted n' w') ∨
  (counted (n + 1) w' ∧
   (allowed None ∨ ∃ max cur, Increment max cur ∈ tasks w ∧ total_count (registry w) < max)).
Proof.
  intros Hstep Hcounted. pose proof Hcounted as [Hinv Hc]. destruct Hstep; simpl in *.
  - left. split; [|done]. by eapply inv_same_tree.
  - right. right. split; [|by left]. split.
    + eapply inv_same_tree; [exact Hinv|done| |done]. simpl. lia.
    + simpl. by rewrite Hc, add_mod.
  - destruct (counted_increment _ _ _ _ _ _ _ _ _ Hcounted H H0) as [?|[? ?]]; [by left|].
    right. right. split; [done|right]. eexists _, _. split; [|done]. apply elem_of_app. right. by left.
  - left. split; [by eapply inv_nickname|]. simpl. by destruct (nickname_tree _ _ _ _ _ _ H) as [_ ->].
  - left. split; [by eapply inv_nickname|]. simpl. by destruct (nickname_tree _ _ _ _ _ _ H) as [_ ->].
  - left. split; [by eapply inv_path|]. unfold reserve_agent_path in H2. by destruct (agent_tree s !! p); simplify_eq/=.
  - left. split; [by eapply inv_commit|]. unfold register_spawned_thread. rewrite H. by destruct (agent_nickname m).
  - left. split; [by apply inv_drop|]. destruct (reserved_agent_path r) as [p|]; [|done].
    unfold release_reserved_agent_path. destruct (agent_tree s !! p) as [m|]; [|done]. by destruct (agent_id m).
  - right. left. by eapply (counted_sub _ _ _ Dropping).
  - left. split; [by eapply inv_release_locked|]. unfold release_locked in H0.
    repeat case_match; by simplify_eq/=.
  - right. left. by eapply (counted_sub _ _ _ Releasing).
  - left. split; [by apply inv_root|]. unfold register_root_thread. by destruct (agent_tree s !! ROOT).
  - left. split; [by apply inv_message|]. unfold update_last_task_message. by destruct (List.find _ _) as [[]|].
Qed.

Lemma initial_counted : counted 0 initial.
Proof. split; [|done]. split; simpl; [done|apply map_Forall_empty|constructor|constructor]. Qed.

Lemma reachable_counted allowed w : rtc (step display allowed) initial w → ∃ n, counted n w.
Proof.
  intros Hr. assert (H : ∀ a b, rtc (step display allowed) a b → (∃ n, counted n a) → ∃ n, counted n b).
  { induction 1 as [|a b c Hab _ IH]; [done|]. intros (n & Ha). apply IH.
    destruct (step_counted _ _ _ _ Hab Ha) as [?|[(?&?&?)|[? ?]]]; eauto. }
  apply (H _ _ Hr). exists 0. apply initial_counted.
Qed.

(** ** The limit holds *)

(** Every reservation is made with a limit of at most [M]. *)
Definition limited (M : N) (max_threads : option N) : Prop :=
  match max_threads with Some max => max <= M | None => False end.

Definition limits_ok (M : N) (t : task) : Prop :=
  match t with Increment max _ => max <= M | _ => True end.

Lemma step_limits M w w' :
  step display (limited M) w w' → Forall (limits_ok M) (tasks w) → Forall (limits_ok M) (tasks w').
Proof.
  destruct 1; simpl in *; rewrite ?Forall_app, ?Forall_cons; try (by intuition); simpl.
  - rewrite ?Forall_app. intros (H1 & Hi & H2). split_and!; [done| |done]. unfold increment_step in H0.
    repeat case_match; simplify_eq/=; constructor; try constructor; done.
  - destruct b; [|done]. by rewrite Forall_cons.
Qed.

Lemma reachable_within M w :
  M <= usize_max → rtc (step display (limited M)) initial w →
  ∃ n, counted n w ∧ n <= M ∧ Forall (limits_ok M) (tasks w).
Proof.
  intros HM Hr. assert (H : ∀ a b, rtc (step display (limited M)) a b →
    (∃ n, counted n a ∧ n <= M ∧ Forall (limits_ok M) (tasks a)) →
    ∃ n, counted n b ∧ n <= M ∧ Forall (limits_ok M) (tasks b)).
  { induction 1 as [|a b c Hab _ IH]; [done|]. intros (n & Ha & Hn & Hl). apply IH.
    pose proof (step_limits _ _ _ Hab Hl) as Hl'.
    destruct (step_counted _ _ _ _ Hab Ha) as [?|[(n' & -> & ?)|[Hb [[]|(max & cur & Hin & Hlt)]]]];
      [by eexists|exists n'; split_and!; [done|lia|done]|].
    exists (n + 1). split_and!; [done| |done]. rewrite Forall_forall in Hl. specialize (Hl _ Hin). simpl in Hl.
    destruct Ha as [_ Hc]. rewrite N.mod_small in Hc by (unfold usize_max in HM; lia). lia. }
  apply (H _ _ Hr). exists 0. split_and!; [apply initial_counted|lia|constructor].
Qed.
End count.

(** C25. The counter is exact.  In every state that any number of threads can
    reach by interleaving their steps (the compare-and-exchange may fail at
    will), the counter is the number of live sub-agents plus the number of
    slots that threads hold: by reservations, by reservations being dropped and
    by agents being released.  No reserved path belongs to two reservations,
    and its entry waits for its agent. *)
Theorem registry_count_exact {ThreadId : Type} `{!EqDecision ThreadId} (display : ThreadId → str)
    `{!Inj (=) (=) display} allowed (w : world (ThreadId:=ThreadId)) :
  rtc (step display allowed) initial w →
  total_count (registry w)
    = (len (live_agents (map_to_list (agent_tree (registry w)))) + slots (tasks w)) mod 2 ^ 64 ∧
  NoDup (omap held_path (tasks w)) ∧
  ∀ p, p ∈ omap held_path (tasks w) →
    ∃ m, agent_tree (registry w) !! p = Some m ∧ agent_id m = None.
Proof.
  intros (n & [Hc He Hh Hd] & Hn)%(reachable_counted display). split; [|split; [done|]].
  - unfold live_count in Hc. by rewrite Hn, <-Hc.
  - intros p Hp. rewrite Forall_forall in Hh. by destruct (Hh p Hp) as [_ ?].
Qed.

(** C26. The limit holds.  When every reservation is made with a limit of at
    most [M], then in every reachable state the live sub-agents and the slots
    held by threads together are at most [M], and the counter is exactly their
    number: it never wraps around, neither up nor down. *)
Theorem registry_limit {ThreadId : Type} `{!EqDecision ThreadId} (display : ThreadId → str)
    `{!Inj (=) (=) display} M (w : world (ThreadId:=ThreadId)) :
  M <= usize_max → rtc (step display (limited M)) initial w →
  len (live_agents (map_to_list (agent_tree (registry w)))) + slots (tasks w) <= M ∧
  total_count (registry w) = len (live_agents (map_to_list (agent_tree (registry w)))) + slots (tasks w).
Proof.
  intros HM (n & ([Hc _ _ _] & Hn) & Hle & _)%(reachable_within display); [|done].
  unfold live_count in Hc. rewrite Hc, Hn. split; [done|]. apply N.mod_small. unfold usize_max in HM. lia.
Qed.

(** A run in which two threads compete for one slot. *)
Definition contended : world (ThreadId:=str) :=
  mkWorld (with_count 1 registry_default) [Increment 1 1; Holding new_reservation].

Lemma contended_reachable : rtc (step id (limited 1)) initial contended.
Proof.
  eapply rtc_l; [by apply (step_reserve_limited id (limited 1) 1 registry_default [])|].
  eapply rtc_l; [by apply (step_reserve_limited id (limited 1) 1 registry_default)|].
  eapply rtc_l.
  { apply (step_increment id (limited 1) false 1 0 registry_default (with_count 1 registry_default)
      (Some (Holding new_reservation)) [Increment 1 0] []); [done|reflexivity]. }
  eapply rtc_l; [|constructor].
  apply (step_increment id (limited 1) false 1 0 (with_count 1 registry_default) (with_count 1 registry_default)
    (Some (Increment 1 1)) [] [Holding new_reservation]); [done|reflexivity].
Qed.

Lemma registry_count_exact_witness :
  rtc (step id (limited 1)) initial contended ∧
  total_count (registry contended)
    = (len (live_agents (map_to_list (agent_tree (registry contended)))) + slots (tasks contended)) mod 2 ^ 64.
Proof.
  split; [exact contended_reachable|].
  refine (proj1 (registry_count_exact id (limited 1) contended _)). exact contended_reachable.
Defined.

Lemma registry_limit_witness :
  len (live_agents (map_to_list (agent_tree (registry contended)))) + slots (tasks contended) <= 1 ∧
  total_count (registry contended)
    = len (live_agents (map_to_list (agent_tree (registry contended)))) + slots (tasks contended).
Proof.
  apply (registry_limit id 1 contended); [vm_compute; discriminate|exact contended_reachable].
Defined.
